(* ===== verification/_CoqProject ===== *)
-Q . S2P
Prelude.v
Bytes.v
MmuTlb.v
Mmu.v
MmuSpec.v
MmuWalk.v
MmuRefine.v
GuestMem.v
PhysBus.v
PhysBusFacts.v
MmuProps.v
MemProps.v
GuestPhys.v
Collections.v
Snapshot.v
SnapshotFacts.v
Pic.v
PicFacts.v
PicProps.v
Lapic.v
LapicFacts.v
LapicProps.v
Ioapic.v
IoapicFacts.v
IoapicProps.v
Router.v
RouterFacts.v
RouterProps.v
RouterLines.v
RouterLevel.v
RouterSnap.v
Ring.v
RingFacts.v
RingProps.v
Virtq.v
VirtioInput.v
VirtqFacts.v
VirtqProps.v
InputProps.v
TcpMux.v
TcpMuxProps.v
Storage.v
SparseDisk.v
CowDisk.v
BlockCache.v
StorageFacts.v
CacheFacts.v
SparseFacts.v
SparseInv.v
SparseAlloc.v
SparseContract.v
SparseOpen.v
CowFacts.v
StorageArray.v
StorageProps.v
VirtioBlk.v
BlkFacts.v
BlkChain.v
BlkSpec.v
BlkProps.v
BlkStack.v
Pit.v
PitFacts.v
PitEvents.v
PitProps.v
PitIrq.v
PitSnap.v
MappedMem.v
MappedFacts.v
DirtyMem.v
DirtyFacts.v
PlatformMem.v
PlatformFacts.v
PlatformProps.v
Hpet.v
HpetFacts.v
HpetProps.v
HpetTime.v
HpetValid.v
HpetSnap.v
