(* ===== verification/Prelude.v ===== *)
(** * Aero: verification library

    Aero runs Windows 7 in a web browser: a PC emulator written in Rust and
    compiled to WebAssembly.  This library models the parts of it that every
    guest access, every interrupt and every disk request goes through, the
    timers, and the queues that carry data between the guest, the devices and
    the host's workers.  The definitions follow the source function by
    function; paths below are under src/crates.

    ** How the parts interact

    The CPU hands linear addresses to the MMU, which walks page tables through
    a memory bus and caches translations in its TLB.  The memory bus of the PC
    applies the A20 gate and routes an address to ROM, RAM or device registers;
    RAM is one of several backends, spread around the PCI hole, and the pages
    written are recorded for incremental snapshots.  Devices drive lines of the
    interrupt router, which owns the 8259A pair, the I/O APIC and the local
    APICs, offers vectors to the CPU and takes the end of an interrupt back.
    The interval timer pulses IRQ 0 of the router and the event timer drives
    its lines.  Virtio devices exchange buffers with the guest over queues in
    guest memory; the block device serves its requests from a stack of disks: a
    write-back cache, a copy-on-write overlay, sparse or raw images.  Every
    device saves its state in one snapshot container.  Host workers exchange
    records over a lock-free ring, and guest connections leave the browser as
    frames multiplexed on one stream.

    ** Files

    - [Prelude], [Bytes], [Collections]: Rust integers of fixed width on [Z]
      with wrapping, saturating and checked arithmetic, [Result], methods that
      fail and change their receiver, little-endian integers, slices, ordered
      maps; the bit-level lemmas, the hint database [bits] and the tactics.
    - aero-mmu (tlb.rs, lib.rs): [MmuTlb] has the TLB, [Mmu] registers,
      translation, the three walks and their probe variants, INVLPG, INVPCID.
      The bus is the class [MemoryBus].  [MmuSpec] has the reference walk,
      [MmuWalk] and [MmuRefine] relate the code to it, [MmuProps] concludes.
    - memory (phys.rs, bus.rs, mapped.rs): [GuestMem] has the backends and the
      contract [GuestMemorySpec] they meet; [PhysBus] the bus over any backend;
      [PhysBusFacts] and [MemProps] its theorems, and the proof that the bus is
      a [MemoryBus] as the MMU expects it.  [MappedMem] has the memory with
      holes, [MappedFacts] shows that it meets the contract.
    - platform (memory.rs, dirty_memory.rs, address_filter.rs): [DirtyMem] and
      [DirtyFacts] have the tracking of written pages; [PlatformMem] the memory
      bus of the PC over the boxed memories it is built from, [PlatformFacts]
      and [PlatformProps] its theorems.
    - aero-guest-phys: [GuestPhys], definitions and theorems.
    - aero-io-snapshot (version.rs): [Snapshot] has writer, reader, codec and
      the contract [IoSnapshotSpec]; [SnapshotFacts] the round trips.
    - aero-interrupts: [Pic], [PicFacts], [PicProps] for pic8259.rs; [Lapic],
      [LapicFacts], [LapicProps] for apic/local_apic.rs; [Ioapic],
      [IoapicFacts], [IoapicProps] for apic/io_apic.rs, which reaches local
      APICs through the class [LapicInterruptSink].
    - platform/interrupts and devices/irq.rs: [Router] puts the controllers
      together, with the line handles of the devices; [RouterFacts] its
      well-formed states and the identifiers of the local APICs, [RouterProps]
      invariant, debug assertions, reset and IPIs, [RouterLines] shared lines,
      [RouterLevel] level-triggered delivery through all controllers,
      [RouterSnap] the nested snapshots.
    - devices/pit8254.rs: [Pit] has the interval timer, [PitFacts] its states,
      [PitEvents] histories, [PitProps] rate and latching, [PitIrq] the timer
      wired to the router, [PitSnap] snapshots.
    - devices/hpet.rs and ioapic.rs: [Hpet] has the event timer and its
      interrupt sinks, [HpetFacts] what it does to its lines, [HpetProps] the
      timer on the router, [HpetTime] counting and deadlines, [HpetValid] the
      register invariant, [HpetSnap] snapshots.
    - aero-ipc (ring.rs): [Ring] has [try_push] and [try_pop] as machines with
      one shared access per step, their interleavings ([System]) and the queue
      they implement ([QueueSpec]); [RingFacts] the invariant, [RingProps] the
      theorems.
    - aero-virtio: [Virtq] has memory.rs, queue.rs and the loop of pci.rs that
      drains a queue; [VirtioInput] devices/input.rs; [VirtqFacts],
      [VirtqProps] and [InputProps] the theorems.  [VirtioBlk] has
      devices/blk.rs; [BlkFacts] and [BlkChain] how it copies and how it cuts a
      chain, [BlkSpec] what it is to do, [BlkProps] the refinement and
      [BlkStack] the device over the whole disk stack.
    - aero-storage (error.rs, util.rs, backend.rs, disk.rs, sparse.rs, cow.rs,
      cache.rs): [Storage] has the classes of backends and disks with their
      contracts, the in-memory backend and the raw disk; [SparseDisk],
      [CowDisk] and [BlockCache] the others.  [StorageFacts], [CacheFacts],
      [SparseFacts], [SparseInv], [SparseAlloc], [SparseContract], [SparseOpen]
      and [CowFacts] show that each keeps the contract; [StorageArray] and
      [StorageProps] conclude for the stack.
    - aero-tcp-mux-protocol (lib.rs): [TcpMux] has the frame codec and the
      streaming parser, [TcpMuxProps] the theorems.

    A struct is a record [t] in a module of its name; a method on a mutable
    receiver returns the new state; a panic or an access out of bounds is
    [None]; [Err] is a value, with the state the failing call leaves.  A cell
    that several objects share (a clock, a bitmap, the A20 line, the local
    APICs) is stored once.  A boxed trait object that holds one of two
    implementations is a sum.

    ** What is shown

    - Memory: translation through the TLB is the architectural walk, for single
      accesses and sequences, and INVLPG after an edit of one page, small or
      large, restores it; the six walks are one reference walk; reserved bits are exact; the MMU's caches
      agree with its registers in every reachable state.  The RAM backends are
      interchangeable; bus reads and writes act byte by byte on what is mapped;
      mapping keeps regions sorted and disjoint; each RAM byte has one address.
      The chunked accesses of the PC bus act byte by byte at the address the
      A20 gate leaves, device registers aside; a drain of the written pages returns exactly the pages a
      byte of some write reached, so that incremental snapshots are complete;
      both windows of the system BIOS show it.
    - Interrupts: what the controllers offer is exactly the request of highest
      priority that is not blocked; delivery consumes that one request and puts
      it in service; service nests and ends in LIFO order; a level-triggered pin refines a two-bit
      machine; polling the local timer late changes nothing.  No history of the
      router panics, nor fails a debug assertion unless the guest writes to a
      local APIC's ID register; shared lines are a wired OR; while lines
      change and CPUs take and end interrupts, an asserted level-triggered line
      is always requested or in service at a destination; the snapshot of the
      complex restores it.
    - Timers: IRQ 0 fires once per programmed period over any history that does
      not program its counter again, and its ticks reach an idle controller; a
      latched count is read back; slicing time
      changes nothing.  The event timer's counter does not drift and its
      deadlines stay on their grid; a line of the router is high exactly while
      another device or a pending level timer holds it; a saved timer resumes
      with its registers, deadlines and lines.
    - Snapshots: what is saved is restored, for the container and the devices,
      and arbitrary bytes leave a well-formed device.
    - Storage: the stack of cache, overlay and base is an array of bytes for
      every sequence of requests; a disk that fails loses no byte in the cache;
      a sparse image opened again at any point is the same disk, and opening
      accepts exactly the well-formed images.
    - Ring: every interleaving of producers and consumer is a FIFO queue and
      stays inside the buffer; some reservation can always be completed; a call
      that runs alone ends, and its answer is determined.
    - Virtio: chains are parsed exactly and in bounded time for any guest
      memory; the transport completes every available chain once and in order
      for each device that keeps its contract, and the status queue of the
      input device is shown to keep it; the input device stays bounded.  The
      block device refines a specification on an array of bytes, also over a
      disk that fails; its status byte is exact, what was written is read
      back, and after a flush it is on the disk below the cache.
    - Frames: the codec is a bijection with the frames within the limits; the
      parser returns the frames of a stream however it is cut into chunks, and
      stays at the first error.
    - Limits of the code, each on a concrete run or as a theorem: large pages
      never hit without CR4.PSE; a refused I/O APIC or router snapshot leaves
      lengths that disagree; with debug assertions, a reset after the guest
      renumbered a local APIC panics; the switch back to the PICs loses an edge, and
      logical IPIs are compared with physical identifiers; a running counter of
      the interval timer keeps its old period while a new one is loaded; the
      event timer takes the first deadline of a periodic timer for its
      interval; a failed base read leaves a block of the overlay without its
      bytes; an empty ring can refuse a record for good; a ring whose capacity
      does not divide 2^32 breaks when its positions wrap; the transport can
      complete the wrong virtio chain, or one chain twice.

    ** Bounds and assumptions

    - Loops that are not structural take fuel.  A descriptor chain gets one
      round more than its table has entries and [virtq_pop_terminates] shows
      that this always suffices; a status buffer gets one more than the bytes
      left of its budget, of which each round uses one.  A push that runs alone
      takes at most eight steps and a pop at most ten (two rounds);
      [ring_push_exact] and [ring_pop_terminates] show that they finish.  The
      loops that copy or parse bytes (memory, bus, disks, snapshots, APIC
      registers) get the number of bytes or chunks they work on, and use at
      least one per round.
    - The ring's atomics are sequentially consistent, where the source orders
      them with acquire and release.  Its theorems ask for a capacity that
      divides 2^32 and is at most 2^31, and [timely] excludes a producer that
      sleeps while 4 GiB pass through the ring.
    - A virtqueue's size divides 2^16 and its rings lie in memory apart from
      each other; a device's contract is the class [Completes], which asks for
      every chain, also one whose buffers overlap the rings, and so holds of
      devices that write no guest buffer.  The buffers of a block request lie
      apart from the used ring.
    - The recency list of the block cache is a library outside the repository:
      a parameter with the contract of a bounded map, which a list is shown to
      keep.  Theorems on a stack of disks ask for a backend that does not fail,
      unless they are about failures, with room below its limit.
    - Byte-level theorems on the bus, and those on written pages, exclude
      accesses that reach MMIO ranges; the RAM of the PC bus
      has less than 2^63 bytes.  The callback of the interval timer is a
      function on the state it shares; the event timer has at most 32 timers
      and the devices beside it lower only lines they raised.
    - Sums without an overflow check wrap and debug assertions are compiled
      out, as in a release build.  The exception is the assertion of
      [LocalApic::reset_state]: [exec_in] and [hstep_in] take the build as an
      argument, and their theorems cover both.  [usize] has 32 to 64 bits
      (class [Target]).  Allocation does not fail.

    ** Not modelled

    Statistics, trace logs and the text of error messages; raw-pointer access
    to shared WebAssembly memory and borrowed mutable slices; the older bus at
    the end of memory/src/bus.rs and the second bus in aero-mem.  Of virtio, the
    register interface of pci.rs, negotiation, and the network, sound and GPU
    devices; of the input device, reads of its configuration space; of the
    storage crate, the host file backend, the qcow2, VHD and older sparse
    formats and the streaming disks; of the platform, the I/O port bus and the
    reset wiring; of the multiplexing protocol, the payloads that carry UTF-8
    strings.  The CPU interpreter, the decoder and the translator to WebAssembly
    need a semantics of x86; graphics and audio rest on floating point and on
    GPU libraries; the network and storage services and the browser bindings are
    I/O; the other devices and codecs are not modelled so far. *)

From Stdlib Require Export ZArith Lia Bool.
From stdpp Require Export base list numbers option strings gmap sorting.

#[export] Set Default Goal Selector "!".


(** ** Rust operators on fixed-width unsigned integers

    A [uN] value is a [Z] in [0, 2^N).  The bitwise operators are the ones of
    [Z]; [!x] depends on the width and is written [unot w x]; the wrapping and
    saturating methods of the integer types are written out below. *)
Declare Scope rust_scope.
Delimit Scope rust_scope with rust.
Notation "x &&& y" := (Z.land x y) (at level 40, left associativity) : rust_scope.
Notation "x ||| y" := (Z.lor x y) (at level 50, left associativity) : rust_scope.
Notation "x ^^^ y" := (Z.lxor x y) (at level 50, left associativity) : rust_scope.
Notation "x >>> n" := (Z.shiftr x n) (at level 39, left associativity) : rust_scope.
Notation "x <<< n" := (Z.shiftl x n) (at level 39, left associativity) : rust_scope.
(** [nz x] is Rust's [x != 0]. *)
Abbreviation nz x := (negb (Z.eqb x 0)).

#[global] Open Scope Z_scope.
#[global] Open Scope rust_scope.

#[global] Arguments Z.testbit : simpl never.
#[global] Arguments Z.ones : simpl never.

(** [!x] on a [w]-bit unsigned integer. *)
Definition unot (w x : Z) : Z := Z.ldiff (Z.ones w) x.
(** [x as uW]: truncation to [w] bits. *)
Definition wrap (w x : Z) : Z := x mod 2 ^ w.
Definition wrapping_add (w x y : Z) : Z := wrap w (x + y).
Definition wrapping_sub (w x y : Z) : Z := wrap w (x - y).
Definition wrapping_mul (w x y : Z) : Z := wrap w (x * y).
Definition saturating_add (w x y : Z) : Z := Z.min (x + y) (2 ^ w - 1).
Definition saturating_sub (x y : Z) : Z := Z.max (x - y) 0.
Definition saturating_mul (w x y : Z) : Z := Z.min (x * y) (2 ^ w - 1).

Definition checked_add (w x y : Z) : option Z := if x + y <? 2 ^ w then Some (x + y) else None.
Definition checked_mul (w x y : Z) : option Z := if x * y <? 2 ^ w then Some (x * y) else None.
Definition checked_sub (x y : Z) : option Z := if y <=? x then Some (x - y) else None.

(** The target's [usize]: 32 bits on wasm32, 64 bits on the native hosts. *)
Class Target := {
  usize_bits : Z;
  usize_bits_ok : 32 <= usize_bits <= 64;
}.
Definition wasm32 : Target := {| usize_bits := 32; usize_bits_ok := ltac:(lia) |}.
Definition x86_64 : Target := {| usize_bits := 64; usize_bits_ok := ltac:(lia) |}.
Definition usize_max `{Target} : Z := 2 ^ usize_bits - 1.
(** [usize::try_from(x).ok()]. *)
Definition try_usize `{Target} (x : Z) : option nat :=
  if x <=? usize_max then Some (Z.to_nat x) else None.

(** [x as iW] of a [w]-bit pattern. *)
Definition to_signed (w x : Z) : Z := if x <? 2 ^ (w - 1) then x else x - 2 ^ w.

(** Membership in the range of a [w]-bit unsigned integer. *)
Definition uint (w x : Z) : Prop := 0 <= x < 2 ^ w.

#[export] Instance uint_dec w x : Decision (uint w x).
Proof. unfold uint. apply _. Defined.

Lemma usize_max_ge `{Target} : 2 ^ 32 - 1 <= usize_max.
Proof.
  unfold usize_max. pose proof usize_bits_ok. pose proof (Z.pow_le_mono_r 2 32 usize_bits). lia.
Qed.

(** ** Results: Rust's [Result<T, E>] with the [?] operator as bind *)
Inductive result (A E : Type) : Type :=
| Ok (a : A)
| Err (e : E).
Arguments Ok {A E} a.
Arguments Err {A E} e.

#[export] Instance result_eq_dec `{EqDecision A, EqDecision E} :
  EqDecision (result A E).
Proof. solve_decision. Defined.

Definition result_bind {A B E} (r : result A E) (k : A -> result B E) : result B E :=
  match r with Ok a => k a | Err e => Err e end.
Notation "'let?' x := r 'in' k" := (result_bind r (fun x => k))
  (at level 10, x pattern, k at level 200) : rust_scope.

Definition result_map {A B E} (f : A -> B) (r : result A E) : result B E :=
  match r with Ok a => Ok (f a) | Err e => Err e end.
Definition map_err {A E F} (f : E -> F) (r : result A E) : result A F :=
  match r with Ok a => Ok a | Err e => Err (f e) end.
Definition ok_or {A E} (e : E) (o : option A) : result A E :=
  match o with Some a => Ok a | None => Err e end.

Lemma result_bind_ok {A B E} (r : result A E) (k : A -> result B E) b :
  result_bind r k = Ok b <-> exists a, r = Ok a /\ k a = Ok b.
Proof.
  split; [destruct r as [a|e]; simpl; [by eauto|done]|].
  intros (a & -> & Hk). done.
Qed.

(** ** Fallible operations on a mutable receiver

    A method [fn f(&mut self, ..) -> Result<A, E>] is a function from the state
    to the result and the state it leaves, also when it fails. *)
Definition st (S E A : Type) : Type := S -> result A E * S.
Definition st_ret {S E A} (a : A) : st S E A := fun s => (Ok a, s).
Definition st_err {S E A} (e : E) : st S E A := fun s => (Err e, s).
Definition st_bind {S E A B} (m : st S E A) (k : A -> st S E B) : st S E B :=
  fun s => match m s with (Ok a, s') => k a s' | (Err e, s') => (Err e, s') end.
Notation "'let!' x := m 'in' k" := (st_bind m (fun x => k))
  (at level 10, x pattern, k at level 200) : rust_scope.

Lemma st_bind_ok {S E A B} (m : st S E A) (k : A -> st S E B) s a s' :
  m s = (Ok a, s') -> st_bind m k s = k a s'.
Proof. intros Hm. unfold st_bind. by rewrite Hm. Qed.

Definition st_of_result {S E A} (r : result A E) : st S E A := fun s => (r, s).
Definition st_gets {S E A} (f : S -> A) : st S E A := fun s => (Ok (f s), s).
Definition st_modify {S E} (f : S -> S) : st S E unit := fun s => (Ok tt, f s).
(** A call on a field of the receiver. *)
Definition zoom {S T E A} (get : S -> T) (set : T -> S -> S) (m : st T E A) : st S E A := fun s =>
  let '(r, x) := m (get s) in (r, set x s).

Lemma zoom_eq {S T E A} (get : S -> T) (set : T -> S -> S) (m : st T E A) s r x :
  m (get s) = (r, x) -> zoom get set m s = (r, set x s).
Proof. intros Hm. unfold zoom. by rewrite Hm. Qed.

(** ** Bit-level reasoning *)
Create HintDb bits.

Lemma unot_spec w x i :
  0 <= w -> 0 <= i ->
  Z.testbit (unot w x) i = (i <? w) && negb (Z.testbit x i).
Proof.
  intros Hw Hi. unfold unot. rewrite Z.ldiff_spec.
  rewrite Z.testbit_ones_nonneg by lia. done.
Qed.

Lemma testbit_pow2 n i : 0 <= n -> Z.testbit (2 ^ n) i = (n =? i).
Proof. intros. by apply Z.pow2_bits_eqb. Qed.

Lemma testbit_high w x i : uint w x -> 0 <= w <= i -> Z.testbit x i = false.
Proof.
  intros [Hx0 Hx] Hi. rewrite <- (Z.mod_small x (2 ^ w)) by lia.
  apply Z.mod_pow2_bits_high. lia.
Qed.

Lemma testbit_wrap w x i :
  0 <= w -> Z.testbit (wrap w x) i = (i <? w) && Z.testbit x i.
Proof.
  intros. unfold wrap. destruct (Z.ltb_spec i w); simpl.
  - destruct (Z.leb_spec 0 i).
    + apply Z.mod_pow2_bits_low. lia.
    + rewrite !Z.testbit_neg_r by lia. done.
  - apply Z.mod_pow2_bits_high. lia.
Qed.

(** A [w]-bit integer is determined by, and bounded through, its low bits. *)
Lemma uint_bits w x :
  0 <= w -> 0 <= x -> (forall i, w <= i -> Z.testbit x i = false) -> uint w x.
Proof.
  intros Hw Hx Hbits. split; [done|].
  replace x with (x mod 2 ^ w).
  { apply Z.mod_pos_bound. apply Z.pow_pos_nonneg; lia. }
  apply Z.bits_inj'. intros i Hi. change (x mod 2 ^ w) with (wrap w x).
  rewrite testbit_wrap by lia.
  destruct (Z.ltb_spec i w); simpl; [done|]. by rewrite Hbits.
Qed.

Lemma uint_land_l w x y : 0 <= w -> uint w x -> 0 <= y -> uint w (x &&& y).
Proof.
  intros Hw Hx Hy. apply uint_bits; [lia|apply Z.land_nonneg; left; apply Hx|].
  intros i Hi. rewrite Z.land_spec, (testbit_high w x) by (try done; lia). done.
Qed.

Lemma uint_land_r w x y : 0 <= w -> uint w y -> 0 <= x -> uint w (x &&& y).
Proof. rewrite Z.land_comm. apply uint_land_l. Qed.

Lemma uint_lor w x y : 0 <= w -> uint w x -> uint w y -> uint w (x ||| y).
Proof.
  intros Hw Hx Hy. apply uint_bits; [lia|apply Z.lor_nonneg; split; [apply Hx|apply Hy]|].
  intros i Hi. rewrite Z.lor_spec, (testbit_high w x), (testbit_high w y)
    by (try done; lia). done.
Qed.

Lemma uint_ldiff w x y : 0 <= w -> uint w x -> uint w (Z.ldiff x y).
Proof.
  intros Hw Hx. apply uint_bits; [lia|apply Z.ldiff_nonneg; left; apply Hx|].
  intros i Hi. rewrite Z.ldiff_spec, (testbit_high w x) by (try done; lia). done.
Qed.

Lemma uint_wrap w x : 0 <= w -> uint w (wrap w x).
Proof. intros. apply Z.mod_pos_bound. apply Z.pow_pos_nonneg; lia. Qed.

Lemma wrap_small w x : uint w x -> wrap w x = x.
Proof. intros. by apply Z.mod_small. Qed.

Lemma uint_weaken w w' x : 0 <= w <= w' -> uint w x -> uint w' x.
Proof.
  intros Hw [Hx0 Hx]. split; [done|].
  eapply Z.lt_le_trans; [exact Hx|]. apply Z.pow_le_mono_r; lia.
Qed.

Lemma uint_unot w x : 0 <= w -> uint w (unot w x).
Proof.
  intros. apply uint_ldiff; [done|].
  assert (0 < 2 ^ w) by (apply Z.pow_pos_nonneg; lia).
  unfold uint. rewrite Z.ones_equiv. lia.
Qed.

#[export] Hint Resolve uint_land_l uint_land_r uint_lor uint_ldiff uint_wrap
  uint_unot : bits.

(** Masking with the complement clears bits: [x & !m]. *)
Lemma land_unot w x m : 0 <= w -> uint w x -> x &&& unot w m = Z.ldiff x m.
Proof.
  intros Hw Hx. apply Z.bits_inj'. intros i Hi.
  rewrite Z.land_spec, unot_spec, Z.ldiff_spec by lia.
  destruct (Z.ltb_spec i w); simpl; [done|].
  rewrite (testbit_high w x) by (try done; lia). done.
Qed.

(** [x & (1 << n) != 0] is a bit test. *)
Lemma nz_land_pow2 x n : 0 <= n -> nz (x &&& 2 ^ n) = Z.testbit x n.
Proof.
  intros Hn. destruct (Z.testbit x n) eqn:Hb.
  - apply negb_true_iff, Z.eqb_neq. intros H0.
    assert (Z.testbit (x &&& 2 ^ n) n = false) as Hf by (rewrite H0; apply Z.bits_0).
    rewrite Z.land_spec, testbit_pow2, Hb, Z.eqb_refl in Hf by lia. done.
  - apply negb_false_iff, Z.eqb_eq. apply Z.bits_inj'. intros i Hi.
    rewrite Z.land_spec, testbit_pow2, Z.bits_0 by lia.
    destruct (Z.eqb_spec n i) as [->|]; [by rewrite Hb|]. by rewrite andb_false_r.
Qed.

(** Clearing the low [k] bits rounds down to a multiple of [2^k]. *)
Lemma ldiff_ones x k : 0 <= k -> Z.ldiff x (Z.ones k) = x - x mod 2 ^ k.
Proof.
  intros Hk. rewrite Z.ldiff_ones_r, Z.shiftl_mul_pow2, Z.shiftr_div_pow2 by lia.
  pose proof (Z.div_mod x (2 ^ k) ltac:(apply Z.pow_nonzero; lia)). lia.
Qed.

Lemma land_ones_mod x k : 0 <= k -> x &&& Z.ones k = x mod 2 ^ k.
Proof. apply Z.land_ones. Qed.

(** The development's bit-blasting step: prove an equation between [Z]s bit by
    bit, with the specifications of the operators. *)
Ltac bitwise :=
  apply Z.bits_inj'; intros ?i ?Hi;
  rewrite ?Z.land_spec, ?Z.lor_spec, ?Z.lxor_spec, ?Z.ldiff_spec,
    ?Z.bits_0.

(** Destruct the head [if]/[match] scrutinee, remembering the equation. *)
Ltac case_if :=
  match goal with
  | |- context [if ?b then _ else _] => destruct b eqn:?
  end.
Ltac case_if_in H :=
  match type of H with
  | context [if ?b then _ else _] => destruct b eqn:?
  end.

(** Boolean hypotheses to propositions. *)
Ltac bool_hyps :=
  repeat match goal with
  | H : (_ && _) = true |- _ => apply andb_true_iff in H; destruct H
  | H : (_ || _) = false |- _ => apply orb_false_iff in H; destruct H
  | H : negb _ = true |- _ => apply negb_true_iff in H
  | H : negb _ = false |- _ => apply negb_false_iff in H
  | H : (_ =? _) = true |- _ => apply Z.eqb_eq in H
  | H : (_ =? _) = false |- _ => apply Z.eqb_neq in H
  | H : (_ <? _) = true |- _ => apply Z.ltb_lt in H
  | H : (_ <? _) = false |- _ => apply Z.ltb_ge in H
  | H : (_ <=? _) = true |- _ => apply Z.leb_le in H
  | H : (_ <=? _) = false |- _ => apply Z.leb_gt in H
  end.

(** ** Loops over arrays *)

(** [v.resize(n, x)] *)
Definition resize {A} (n : nat) (x : A) (l : list A) : list A :=
  take n l ++ replicate (n - length l) x.

Lemma resize_same {A} (x : A) l : resize (length l) x l = l.
Proof. unfold resize. by rewrite firstn_all, Nat.sub_diag, app_nil_r. Qed.

Lemma length_resize {A} n (x : A) l : length (resize n x l) = n.
Proof. unfold resize. rewrite length_app, length_take, length_replicate. lia. Qed.

Lemma resize_lookup {A} n (x : A) l i :
  (i < n)%nat -> resize n x l !! i = Some (default x (l !! i)).
Proof.
  intros Hi. unfold resize. destruct (decide (i < length l)%nat) as [Hl|Hl].
  - rewrite lookup_app_l by (rewrite length_take; lia). rewrite lookup_take_lt by lia.
    destruct (lookup_lt_is_Some_2 l i Hl) as [y ->]. done.
  - rewrite lookup_app_r by (rewrite length_take; lia). rewrite (lookup_ge_None_2 l) by lia.
    apply lookup_replicate. rewrite length_take. split; [done|lia].
Qed.

(** First index whose element satisfies the test: the [for i in 0..N] loop that
    returns from its body. *)
Fixpoint find_idx {A} (f : A -> bool) (l : list A) : option (nat * A) :=
  match l with
  | [] => None
  | x :: l' =>
      if f x then Some (0%nat, x)
      else match find_idx f l' with
           | Some (i, y) => Some (S i, y)
           | None => None
           end
  end.

(** A [for] loop over the elements of an array that rewrites each element in
    place and threads an accumulator. *)
Fixpoint map_acc {A B S} (f : A -> S -> B * S) (l : list A) (s : S) : list B * S :=
  match l with
  | [] => ([], s)
  | x :: l' =>
      let '(y, s1) := f x s in
      let '(l2, s2) := map_acc f l' s1 in
      (y :: l2, s2)
  end.

Fixpoint sumZ {A} (f : A -> Z) (l : list A) : Z :=
  match l with
  | [] => 0
  | x :: l' => f x + sumZ f l'
  end.

Lemma find_idx_Some {A} (f : A -> bool) l i x :
  find_idx f l = Some (i, x) ->
  l !! i = Some x /\ f x = true /\ (forall j y, (j < i)%nat -> l !! j = Some y -> f y = false).
Proof.
  revert i. induction l as [|a l IH]; intros i Hf; simpl in Hf; [done|].
  destruct (f a) eqn:Ha.
  - simplify_eq. split_and!; [done|done|]. intros j y Hj. lia.
  - destruct (find_idx f l) as [[i' x']|] eqn:E; [|done]. simplify_eq.
    destruct (IH i' eq_refl) as (Hl & Hx & Hlt). split_and!; [done|done|].
    intros [|j] y Hj Hy; simpl in Hy; [by simplify_eq|]. apply (Hlt j); [lia|done].
Qed.

Lemma find_idx_None {A} (f : A -> bool) l :
  find_idx f l = None <-> Forall (fun x => f x = false) l.
Proof.
  induction l as [|a l IH]; simpl; [split; [constructor|done]|].
  destruct (f a) eqn:Ha.
  - split; [done|]. intros Hf. inversion Hf. congruence.
  - destruct (find_idx f l) as [[i x]|] eqn:E.
    + split; [done|]. intros Hf. inversion Hf as [|? ? ? Hl].
      apply IH in Hl. congruence.
    + split; [|done]. intros _. constructor; [done|]. by apply IH.
Qed.

Lemma find_idx_ext {A} (f g : A -> bool) l :
  Forall (fun x => f x = g x) l -> find_idx f l = find_idx g l.
Proof.
  induction 1 as [|x l Hx _ IH]; simpl; [done|]. by rewrite Hx, IH.
Qed.

Lemma map_acc_fst {A B S} (f : A -> S -> B * S) (g : A -> B) l s :
  (forall x s, fst (f x s) = g x) -> fst (map_acc f l s) = map g l.
Proof.
  intros Hf. revert s. induction l as [|x l IH]; intros s; simpl; [done|].
  specialize (Hf x s). destruct (f x s) as [y s1]; simpl in Hf. subst y.
  specialize (IH s1). destruct (map_acc f l s1) as [l2 s2]; simpl in *. by subst.
Qed.

Lemma sumZ_insert {A} (f : A -> Z) l i x y :
  l !! i = Some x -> sumZ f (<[i:=y]> l) = sumZ f l - f x + f y.
Proof.
  revert i. induction l as [|a l IH]; intros [|i] Hi; simpl in *; simplify_eq; try lia.
  rewrite (IH i Hi). lia.
Qed.

Lemma sumZ_alter {A} (f : A -> Z) (g : A -> A) l i x :
  l !! i = Some x -> sumZ f (alter g i l) = sumZ f l - f x + f (g x).
Proof.
  revert i. induction l as [|a l IH]; intros [|i] Hi; simpl in *; simplify_eq; try lia.
  fold (alter g i l). specialize (IH i Hi). unfold alter in *. lia.
Qed.

Lemma sumZ_bounds {A} (f : A -> Z) l b :
  (forall x, x ∈ l -> 0 <= f x <= b) -> 0 <= sumZ f l <= b * Z.of_nat (length l).
Proof.
  induction l as [|a l IH]; intros Hf; simpl; [lia|].
  pose proof (Hf a ltac:(left)) as Ha.
  assert (0 <= sumZ f l <= b * Z.of_nat (length l)).
  { apply IH. intros x Hx. apply Hf. by right. }
  nia.
Qed.

Lemma sumZ_zero {A} (f : A -> Z) l :
  (forall x, x ∈ l -> 0 <= f x) -> sumZ f l = 0 -> forall x, x ∈ l -> f x = 0.
Proof.
  induction l as [|a l IH]; intros Hf Hs x Hx; [by apply not_elem_of_nil in Hx|].
  simpl in Hs. pose proof (Hf a ltac:(left)) as Ha.
  assert (0 <= sumZ f l) as Hl.
  { clear -Hf. induction l as [|b l IH]; simpl; [lia|].
    pose proof (Hf b ltac:(right; left)).
    assert (0 <= sumZ f l); [|lia].
    apply IH. intros x Hx. apply Hf. apply elem_of_cons in Hx as [->|Hx]; [left|by do 2 right]. }
  apply elem_of_cons in Hx as [->|Hx]; [lia|].
  apply IH; [|lia|done]. intros y Hy. apply Hf. by right.
Qed.

(** [find] returns the first element that passes. *)
Lemma find_first_Some {A} (f : A -> bool) (l : list A) x :
  find f l = Some x <->
  exists k, l !! k = Some x /\ f x = true /\
    forall k' y, (k' < k)%nat -> l !! k' = Some y -> f y = false.
Proof.
  induction l as [|a l IH]; simpl.
  { split; [done|]. intros (k & Hk & _). by rewrite lookup_nil in Hk. }
  split.
  - destruct (f a) eqn:Ha.
    + intros [= ->]. exists 0%nat. split_and!; try done. lia.
    + intros (k & Hk & Hx & Hlt)%IH. exists (S k). split_and!; try done.
      intros [|k'] y Hk' Hy; [by simplify_eq/=|]. apply (Hlt k'); [lia|done].
  - intros ([|k] & Hk & Hx & Hlt); simpl in Hk; [simplify_eq; by rewrite Hx|].
    rewrite (Hlt 0%nat a) by (done || lia). apply IH. exists k. split_and!; try done.
    intros k' y Hk' Hy. apply (Hlt (S k')); [lia|done].
Qed.
