(* ===== verification/Bytes.v ===== *)
(** * Byte strings and little-endian integers

    Rust's [uN::to_le_bytes] / [uN::from_le_bytes] and slices of bytes, as used
    by the memory and codec crates.  A byte is a [Z] in [0, 256); a [u8] slice
    is a [list Z]. *)

From S2P Require Import Prelude.

Definition byte_ok (x : Z) : Prop := uint 8 x.

(** [to_le_bytes] of an [n]-byte integer. *)
Fixpoint to_le_bytes (n : nat) (v : Z) : list Z :=
  match n with
  | O => []
  | S n => wrap 8 v :: to_le_bytes n (v >>> 8)
  end.

(** [from_le_bytes]. *)
Fixpoint from_le_bytes (bs : list Z) : Z :=
  match bs with
  | [] => 0
  | x :: bs => x ||| (from_le_bytes bs <<< 8)
  end.

Lemma to_le_bytes_length n v : length (to_le_bytes n v) = n.
Proof. revert v. induction n as [|n IH]; intros v; simpl; [done|]. by rewrite IH. Qed.

Lemma to_le_bytes_ok n v : Forall byte_ok (to_le_bytes n v).
Proof.
  revert v. induction n as [|n IH]; intros v; simpl; constructor; [|done].
  apply uint_wrap. lia.
Qed.

(** Bit [i] of the integer is bit [i mod 8] of byte [i / 8]. *)
Lemma from_le_bytes_testbit bs i :
  Forall byte_ok bs -> 0 <= i ->
  Z.testbit (from_le_bytes bs) i =
  match bs !! Z.to_nat (i / 8) with Some x => Z.testbit x (i mod 8) | None => false end.
Proof.
  intros Hbs. revert i. induction Hbs as [|x bs Hx Hbs IH]; intros i Hi; simpl.
  { by rewrite Z.testbit_0_l. }
  rewrite Z.lor_spec, Z.shiftl_spec by lia.
  destruct (Z.lt_ge_cases i 8) as [Hlt|Hge].
  - rewrite Z.div_small, Z.mod_small by lia. simpl.
    rewrite (Z.testbit_neg_r _ (i - 8)) by lia. by rewrite orb_false_r.
  - rewrite (testbit_high 8 x) by (done || lia). simpl. rewrite IH by lia.
    assert (i / 8 = (i - 8) / 8 + 1) as ->
      by (rewrite <- Z.div_add by lia; f_equal; lia).
    assert (i mod 8 = (i - 8) mod 8) as ->
      by (rewrite <- (Z.mod_add (i - 8) 1 8) by lia; f_equal; lia).
    assert (0 <= (i - 8) / 8) by (apply Z.div_pos; lia).
    by replace (Z.to_nat ((i - 8) / 8 + 1)) with (S (Z.to_nat ((i - 8) / 8))) by lia.
Qed.

Lemma from_le_bytes_uint bs :
  Forall byte_ok bs -> uint (8 * Z.of_nat (length bs)) (from_le_bytes bs).
Proof.
  intros Hbs. apply uint_bits; [lia| |].
  - induction Hbs as [|x bs Hx Hbs IH]; simpl; [done|].
    apply Z.lor_nonneg. split; [apply Hx|]. by apply Z.shiftl_nonneg.
  - intros i Hi. rewrite from_le_bytes_testbit by (done || lia).
    rewrite lookup_ge_None_2; [done|].
    assert (Z.of_nat (length bs) <= i / 8) by (apply Z.div_le_lower_bound; lia). lia.
Qed.

Lemma to_le_bytes_lookup n v k :
  (k < n)%nat -> to_le_bytes n v !! k = Some (wrap 8 (v >>> (8 * Z.of_nat k))).
Proof.
  revert v k. induction n as [|n IH]; intros v k Hk; [lia|].
  destruct k as [|k]; simpl; [by rewrite Z.shiftr_0_r|].
  rewrite IH by lia. rewrite Z.shiftr_shiftr by lia. do 3 f_equal. lia.
Qed.

Lemma from_to_le_bytes n v : from_le_bytes (to_le_bytes n v) = wrap (8 * Z.of_nat n) v.
Proof.
  apply Z.bits_inj'. intros i Hi. rewrite testbit_wrap by lia.
  rewrite from_le_bytes_testbit by (done || apply to_le_bytes_ok).
  assert (0 <= i / 8) by (apply Z.div_pos; lia).
  pose proof (Z.div_mod i 8). pose proof (Z.mod_pos_bound i 8).
  destruct (Z.ltb_spec i (8 * Z.of_nat n)) as [Hlt|Hge].
  - rewrite to_le_bytes_lookup by lia. rewrite testbit_wrap by lia.
    rewrite (proj2 (Z.ltb_lt _ _)) by lia. simpl. rewrite Z.shiftr_spec by lia.
    f_equal. lia.
  - rewrite lookup_ge_None_2; [done|]. rewrite to_le_bytes_length. lia.
Qed.

(** Little-endian encoding and decoding are inverse. *)
Lemma from_to_le_bytes_id n v : uint (8 * Z.of_nat n) v -> from_le_bytes (to_le_bytes n v) = v.
Proof. intros Hv. rewrite from_to_le_bytes. by apply wrap_small. Qed.

Lemma to_from_le_bytes bs : Forall byte_ok bs -> to_le_bytes (length bs) (from_le_bytes bs) = bs.
Proof.
  induction 1 as [|x bs Hx Hbs IH]; simpl; [done|]. f_equal.
  - bitwise. rewrite testbit_wrap, Z.lor_spec, Z.shiftl_spec by lia.
    destruct (Z.ltb_spec i 8); simpl.
    + rewrite (Z.testbit_neg_r _ (i - 8)) by lia. by rewrite orb_false_r.
    + by rewrite (testbit_high 8 x) by (done || lia).
  - rewrite Z.shiftr_lor, Z.shiftr_shiftl_l by lia.
    rewrite Z.shiftl_0_r. rewrite (Z.shiftr_div_pow2 x), Z.div_small by (apply Hx || lia).
    by rewrite Z.lor_0_l.
Qed.

Lemma from_le_bytes_inj bs1 bs2 :
  Forall byte_ok bs1 -> Forall byte_ok bs2 -> length bs1 = length bs2 ->
  from_le_bytes bs1 = from_le_bytes bs2 -> bs1 = bs2.
Proof.
  intros H1 H2 Hlen Heq. rewrite <- (to_from_le_bytes bs1), <- (to_from_le_bytes bs2) by done.
  by rewrite Hlen, Heq.
Qed.

#[export] Hint Resolve to_le_bytes_ok : bits.

(** ** Slices *)

(** The bytes a function assigns to [n] consecutive addresses. *)
Definition span (f : Z -> Z) (a : Z) (n : nat) : list Z :=
  map (fun k => f (a + Z.of_nat k)) (seq 0 n).

Lemma span_length f a n : length (span f a n) = n.
Proof. unfold span. by rewrite length_map, length_seq. Qed.

Lemma span_lookup f a n k : (k < n)%nat -> span f a n !! k = Some (f (a + Z.of_nat k)).
Proof.
  intros Hk. unfold span. rewrite list_lookup_fmap.
  rewrite lookup_seq_lt by lia. simpl. done.
Qed.

Lemma span_ext f g a n :
  (forall x, a <= x < a + Z.of_nat n -> f x = g x) -> span f a n = span g a n.
Proof.
  intros Hfg. apply map_ext_in. intros k Hk. apply in_seq in Hk. apply Hfg. lia.
Qed.

Lemma span_app f a n1 n2 : span f a (n1 + n2) = span f a n1 ++ span f (a + Z.of_nat n1) n2.
Proof.
  apply list_eq. intros k. destruct (decide (k < n1)%nat) as [Hk|Hk].
  - rewrite lookup_app_l by (by rewrite span_length). rewrite !span_lookup by lia. done.
  - rewrite lookup_app_r by (rewrite span_length; lia). rewrite span_length.
    destruct (decide (k < n1 + n2)%nat).
    + rewrite !span_lookup by lia. do 2 f_equal. lia.
    + by rewrite !lookup_ge_None_2 by (rewrite span_length; lia).
Qed.

Lemma span_take_drop (l : list Z) (d : Z) (s n : nat) :
  (s + n <= length l)%nat ->
  take n (drop s l) = span (fun a => default d (l !! Z.to_nat a)) (Z.of_nat s) n.
Proof.
  intros Hn. apply list_eq. intros k. destruct (decide (k < n)%nat) as [Hk|Hk].
  - rewrite span_lookup, lookup_take_lt, lookup_drop by lia.
    replace (Z.to_nat (Z.of_nat s + Z.of_nat k)) with (s + k)%nat by lia.
    destruct (l !! (s + k)%nat) eqn:E; [done|]. apply lookup_ge_None in E. lia.
  - rewrite !lookup_ge_None_2; [done|rewrite span_length; lia|].
    rewrite length_take. lia.
Qed.

Lemma replicate_span (f : Z -> Z) c a n :
  (forall x, a <= x < a + Z.of_nat n -> f x = c) -> replicate n c = span f a n.
Proof.
  intros Hf. apply list_eq. intros k. destruct (decide (k < n)%nat) as [Hk|Hk].
  - rewrite lookup_replicate_2, span_lookup by done. f_equal. symmetry. apply Hf. lia.
  - by rewrite !lookup_ge_None_2 by (rewrite ?length_replicate, ?span_length; lia).
Qed.

Lemma Forall_span (P : Z -> Prop) f a n : (forall x, P (f x)) -> Forall P (span f a n).
Proof. intros Hf. unfold span. apply Forall_map, Forall_true. intros k. apply Hf. Qed.
