(* ===== verification/MmuTlb.v ===== *)
(** * The software TLB (crates/aero-mmu/src/tlb.rs)

    Two 4-way set-associative banks (instruction and data) of 64 sets.  Module
    [TlbEntry] is one cached translation, [TlbSet] one bank and [Tlb] the pair.
    A bank keeps counters of its valid large-page entries, which let [lookup]
    take a 4 KiB-only path; the bank invariant [TlbSet.wf] says that the
    counters are exact and that every valid entry sits in the set its address
    hashes to, and every operation is shown to preserve it. *)

From S2P Require Import Prelude.

Inductive PageSize := Size4K | Size2M | Size4M | Size1G.

#[export] Instance PageSize_eq_dec : EqDecision PageSize.
Proof. solve_decision. Defined.

(** [PageSize::bytes]. *)
Definition bytes (s : PageSize) : Z :=
  match s with
  | Size4K => 4 * 1024
  | Size2M => 2 * 1024 * 1024
  | Size4M => 4 * 1024 * 1024
  | Size1G => 1024 * 1024 * 1024
  end.

(** Which page sizes may exist in the TLB for the current paging mode. *)
Inductive TlbLookupPageSizes :=
| Only4K
| Size2MAnd4K
| Size4MAnd4K
| Size1G2MAnd4K.

(** INVPCID invalidation types (crates/aero-mmu/src/lib.rs). *)
Inductive InvpcidType :=
| IndividualAddress (vaddr : Z)
| SingleContext
| AllIncludingGlobal
| AllExcludingGlobal.

Abbreviation FLAG_USER := (1 <<< 0) (only parsing).
Abbreviation FLAG_WRITABLE := (1 <<< 1) (only parsing).
Abbreviation FLAG_NX := (1 <<< 2) (only parsing).
Abbreviation FLAG_GLOBAL := (1 <<< 3) (only parsing).
Abbreviation FLAG_LEAF_64 := (1 <<< 4) (only parsing).
Abbreviation FLAG_DIRTY := (1 <<< 5) (only parsing).
Abbreviation FLAG_VALID := (1 <<< 6) (only parsing).

Definition WAYS : nat := 4.
Definition SETS : nat := 64.

(** [set_index]: xor folding of the page tag. *)
Definition set_index (tag : Z) : nat :=
  let x := tag ^^^ (tag >>> 17) ^^^ (tag >>> 35) in
  Z.to_nat (x &&& (Z.of_nat SETS - 1)).

#[global] Arguments set_index : simpl never.

Module TlbEntryAttributes.
Record t := mk {
  user : bool;
  writable : bool;
  nx : bool;
  global : bool;
  leaf_addr : Z;
  leaf_is_64 : bool;
  dirty : bool;
}.
End TlbEntryAttributes.

Module TlbEntry.
Record t := mk {
  vbase : Z;
  (** [pbase - vbase], wrapping. *)
  paddr_delta : Z;
  leaf_addr : Z;
  pcid : Z;
  flags : Z;
  page_size : PageSize;
}.

Definition default : t := mk 0 0 0 0 0 Size4K.

#[global] Instance inhabited : Inhabited t := populate default.

Definition new (vbase pbase : Z) (page_size : PageSize) (pcid : Z)
    (attrs : TlbEntryAttributes.t) : t :=
  let flags := FLAG_VALID in
  let flags := if attrs.(TlbEntryAttributes.user) then flags ||| FLAG_USER else flags in
  let flags := if attrs.(TlbEntryAttributes.writable) then flags ||| FLAG_WRITABLE else flags in
  let flags := if attrs.(TlbEntryAttributes.nx) then flags ||| FLAG_NX else flags in
  let flags := if attrs.(TlbEntryAttributes.global) then flags ||| FLAG_GLOBAL else flags in
  let flags := if attrs.(TlbEntryAttributes.leaf_is_64) then flags ||| FLAG_LEAF_64 else flags in
  let flags := if attrs.(TlbEntryAttributes.dirty) then flags ||| FLAG_DIRTY else flags in
  mk vbase (wrapping_sub 64 pbase vbase) attrs.(TlbEntryAttributes.leaf_addr) pcid flags page_size.

Definition translate (e : t) (vaddr : Z) : Z := wrapping_add 64 vaddr e.(paddr_delta).
Definition user (e : t) : bool := nz (e.(flags) &&& FLAG_USER).
Definition writable (e : t) : bool := nz (e.(flags) &&& FLAG_WRITABLE).
Definition nx (e : t) : bool := nz (e.(flags) &&& FLAG_NX).
Definition global (e : t) : bool := nz (e.(flags) &&& FLAG_GLOBAL).
Definition leaf_is_64 (e : t) : bool := nz (e.(flags) &&& FLAG_LEAF_64).
Definition dirty (e : t) : bool := nz (e.(flags) &&& FLAG_DIRTY).
Definition valid (e : t) : bool := nz (e.(flags) &&& FLAG_VALID).

Definition matches_pcid (pcid_enabled : bool) (e : t) (pcid' : Z) : bool :=
  let flags := e.(flags) in
  if pcid_enabled then
    nz (flags &&& FLAG_VALID) && (nz (flags &&& FLAG_GLOBAL) || (e.(pcid) =? pcid'))
  else nz (flags &&& FLAG_VALID).

Definition with_flags (e : t) (f : Z) : t :=
  mk e.(vbase) e.(paddr_delta) e.(leaf_addr) e.(pcid) f e.(page_size).
Definition invalidate (e : t) : t := with_flags e (e.(flags) &&& unot 8 FLAG_VALID).
Definition set_dirty (e : t) : t := with_flags e (e.(flags) ||| FLAG_DIRTY).
End TlbEntry.

Module TlbHit.
Record t := mk { entry : TlbEntry.t; set : nat; way : nat }.
End TlbHit.

Module TlbSet.
Record t := mk {
  entries : list (list TlbEntry.t);
  next_way : list Z;
  count_1g : Z;
  count_4m : Z;
  count_2m : Z;
}.

Definition new : t :=
  mk (replicate SETS (replicate WAYS TlbEntry.default)) (replicate SETS 0) 0 0 0.

(** The three counters as the loops below update them. *)
Definition counts : Type := (Z * Z * Z)%type.
Definition get_counts (ts : t) : counts := (ts.(count_1g), ts.(count_4m), ts.(count_2m)).
Definition count_inc (ps : PageSize) (c : counts) : counts :=
  let '(g, m4, m2) := c in
  match ps with
  | Size1G => (wrapping_add 16 g 1, m4, m2)
  | Size4M => (g, wrapping_add 16 m4 1, m2)
  | Size2M => (g, m4, wrapping_add 16 m2 1)
  | Size4K => c
  end.
Definition count_dec (ps : PageSize) (c : counts) : counts :=
  let '(g, m4, m2) := c in
  match ps with
  | Size1G => (wrapping_sub 16 g 1, m4, m2)
  | Size4M => (g, wrapping_sub 16 m4 1, m2)
  | Size2M => (g, m4, wrapping_sub 16 m2 1)
  | Size4K => c
  end.
Definition set_rows (ts : t) (rows : list (list TlbEntry.t)) (c : counts) : t :=
  mk rows ts.(next_way) c.1.1 c.1.2 c.2.

Definition row (ts : t) (set : nat) : list TlbEntry.t := ts.(entries) !!! set.
Definition entry_at (ts : t) (set way : nat) : TlbEntry.t := row ts set !!! way.
Definition put_entry (rows : list (list TlbEntry.t)) (set way : nat) (e : TlbEntry.t) :
  list (list TlbEntry.t) := alter (fun r => <[way := e]> r) set rows.

(** The body of the [lookup_page_size!] macro. *)
Definition lookup_page_size (ts : t) (pcid_enabled : bool) (vaddr pcid : Z) (ps : PageSize) :
    option TlbHit.t :=
  let vbase := vaddr &&& unot 64 (bytes ps - 1) in
  let tag := vbase >>> 12 in
  let set := set_index tag in
  match find_idx (fun e => bool_decide (e.(TlbEntry.page_size) = ps)
                           && (e.(TlbEntry.vbase) =? vbase)
                           && TlbEntry.matches_pcid pcid_enabled e pcid) (row ts set) with
  | Some (way, e) => Some (TlbHit.mk e set way)
  | None => None
  end.

(** The path taken while the bank holds no large page. *)
Definition lookup_4k_only (ts : t) (pcid_enabled : bool) (vaddr pcid : Z) : option TlbHit.t :=
  let vbase := vaddr &&& unot 64 0xfff in
  let tag := vaddr >>> 12 in
  let set := set_index tag in
  match find_idx (fun e => (e.(TlbEntry.vbase) =? vbase)
                           && TlbEntry.matches_pcid pcid_enabled e pcid) (row ts set) with
  | Some (way, e) => Some (TlbHit.mk e set way)
  | None => None
  end.

Definition or_else {A} (o1 o2 : option A) : option A :=
  match o1 with Some a => Some a | None => o2 end.

Definition lookup_impl (pcid_enabled : bool) (ts : t) (vaddr pcid : Z)
    (page_sizes : TlbLookupPageSizes) : option TlbHit.t :=
  let probe := lookup_page_size ts pcid_enabled vaddr pcid in
  if (ts.(count_1g) ||| ts.(count_2m) ||| ts.(count_4m)) =? 0 then
    lookup_4k_only ts pcid_enabled vaddr pcid
  else
    match page_sizes with
    | Only4K => probe Size4K
    | Size2MAnd4K =>
        or_else (if nz ts.(count_2m) then probe Size2M else None) (probe Size4K)
    | Size4MAnd4K =>
        or_else (if nz ts.(count_4m) then probe Size4M else None) (probe Size4K)
    | Size1G2MAnd4K =>
        or_else (if nz ts.(count_1g) then probe Size1G else None)
          (or_else (if nz ts.(count_2m) then probe Size2M else None) (probe Size4K))
    end.

Definition lookup (ts : t) (vaddr pcid : Z) (pcid_enabled : bool)
    (page_sizes : TlbLookupPageSizes) : option TlbHit.t :=
  if pcid_enabled then lookup_impl true ts vaddr pcid page_sizes
  else lookup_impl false ts vaddr pcid page_sizes.

Definition insert (ts : t) (entry : TlbEntry.t) : t :=
  let tag := entry.(TlbEntry.vbase) >>> 12 in
  let set := set_index tag in
  match find_idx (fun cur => TlbEntry.valid cur
                   && (cur.(TlbEntry.vbase) =? entry.(TlbEntry.vbase))
                   && bool_decide (cur.(TlbEntry.page_size) = entry.(TlbEntry.page_size))
                   && (TlbEntry.global cur || (cur.(TlbEntry.pcid) =? entry.(TlbEntry.pcid))))
          (row ts set) with
  | Some (way, _) => set_rows ts (put_entry ts.(entries) set way entry) (get_counts ts)
  | None =>
      let nw := ts.(next_way) !!! set in
      let way := Z.to_nat (nw mod Z.of_nat WAYS) in
      let next_way' := <[set := wrapping_add 8 nw 1]> ts.(next_way) in
      let old := entry_at ts set way in
      let c := get_counts ts in
      let c := if TlbEntry.valid old then count_dec old.(TlbEntry.page_size) c else c in
      let c := count_inc entry.(TlbEntry.page_size) c in
      mk (put_entry ts.(entries) set way entry) next_way' c.1.1 c.1.2 c.2
  end.

(** One iteration of the way loop of the two address invalidations. *)
Definition invalidate_way (hit : TlbEntry.t -> bool) (ps : PageSize)
    (e : TlbEntry.t) (c : counts) : TlbEntry.t * counts :=
  if hit e then (TlbEntry.invalidate e, count_dec ps c) else (e, c).

(** One iteration of their page-size loop. *)
Definition invalidate_size (hit : PageSize -> Z -> TlbEntry.t -> bool) (vaddr : Z)
    (ts : t) (ps : PageSize) : t :=
  let vbase := vaddr &&& unot 64 (bytes ps - 1) in
  let tag := vbase >>> 12 in
  let set := set_index tag in
  let '(row', c) := map_acc (invalidate_way (hit ps vbase) ps) (row ts set) (get_counts ts) in
  set_rows ts (<[set := row']> ts.(entries)) c.

Definition page_size_loop : list PageSize := [Size1G; Size4M; Size2M; Size4K].

Definition hit_all (ps : PageSize) (vbase : Z) (e : TlbEntry.t) : bool :=
  TlbEntry.valid e && (e.(TlbEntry.vbase) =? vbase)
  && bool_decide (e.(TlbEntry.page_size) = ps).

Definition invalidate_address_all (ts : t) (vaddr : Z) : t :=
  fold_left (invalidate_size hit_all vaddr) page_size_loop ts.

Definition hit_pcid (pcid : Z) (include_global : bool) (ps : PageSize) (vbase : Z)
    (e : TlbEntry.t) : bool :=
  if negb (TlbEntry.valid e) || negb (bool_decide (e.(TlbEntry.page_size) = ps))
     || negb (e.(TlbEntry.vbase) =? vbase) then false
  else if TlbEntry.global e then include_global
  else e.(TlbEntry.pcid) =? pcid.

Definition invalidate_address_pcid (ts : t) (vaddr pcid : Z) (include_global : bool) : t :=
  fold_left (invalidate_size (hit_pcid pcid include_global) vaddr) page_size_loop ts.

Definition flush_all (ts : t) : t :=
  mk (map (map TlbEntry.invalidate) ts.(entries)) ts.(next_way) 0 0 0.

(** The loop shared by the selective flushes: drop the entries the test
    selects and recount the large pages that stay. *)
Definition flush_way (drop : TlbEntry.t -> bool) (e : TlbEntry.t) (c : counts) :
    TlbEntry.t * counts :=
  if negb (TlbEntry.valid e) then (e, c)
  else if drop e then (TlbEntry.invalidate e, c)
  else (e, count_inc e.(TlbEntry.page_size) c).
Definition flush_where (drop : TlbEntry.t -> bool) (ts : t) : t :=
  let '(rows, c) := map_acc (map_acc (flush_way drop)) ts.(entries) (0, 0, 0) in
  set_rows ts rows c.

Definition flush_non_global (ts : t) : t :=
  flush_where (fun e => negb (TlbEntry.global e)) ts.

Definition flush_pcid (ts : t) (pcid : Z) (include_global : bool) : t :=
  flush_where (fun e => if TlbEntry.global e then include_global
                        else e.(TlbEntry.pcid) =? pcid) ts.

Definition set_dirty_hit (ts : t) (set way : nat) : t :=
  set_rows ts (put_entry ts.(entries) set way (TlbEntry.set_dirty (entry_at ts set way)))
    (get_counts ts).
End TlbSet.

Module Tlb.
Record t := mk { itlb : TlbSet.t; dtlb : TlbSet.t }.

Definition new : t := mk TlbSet.new TlbSet.new.

Definition lookup (tlb : t) (vaddr : Z) (is_exec : bool) (pcid : Z) (pcid_enabled : bool)
    (page_sizes : TlbLookupPageSizes) : option TlbHit.t :=
  if is_exec then TlbSet.lookup tlb.(itlb) vaddr pcid pcid_enabled page_sizes
  else TlbSet.lookup tlb.(dtlb) vaddr pcid pcid_enabled page_sizes.

Definition insert (tlb : t) (is_exec : bool) (entry : TlbEntry.t) : t :=
  if is_exec then mk (TlbSet.insert tlb.(itlb) entry) tlb.(dtlb)
  else mk tlb.(itlb) (TlbSet.insert tlb.(dtlb) entry).

Definition both (f : TlbSet.t -> TlbSet.t) (tlb : t) : t :=
  mk (f tlb.(itlb)) (f tlb.(dtlb)).

Definition invalidate_address_all (tlb : t) (vaddr : Z) : t :=
  both (fun ts => TlbSet.invalidate_address_all ts vaddr) tlb.

Definition invalidate_address_pcid (tlb : t) (vaddr pcid : Z) (include_global : bool) : t :=
  both (fun ts => TlbSet.invalidate_address_pcid ts vaddr pcid include_global) tlb.

Definition set_dirty_slot (tlb : t) (set way : nat) : t :=
  mk tlb.(itlb) (TlbSet.set_dirty_hit tlb.(dtlb) set way).

Definition flush_all (tlb : t) : t := both TlbSet.flush_all tlb.

Definition on_cr3_write (tlb : t) (pge pcid_enabled : bool) (new_pcid : Z) (no_flush : bool) : t :=
  if pcid_enabled then
    if negb no_flush then both (fun ts => TlbSet.flush_pcid ts new_pcid false) tlb else tlb
  else if pge then both TlbSet.flush_non_global tlb
  else flush_all tlb.

Definition invpcid (tlb : t) (pcid : Z) (kind : InvpcidType) : t :=
  match kind with
  | IndividualAddress vaddr => invalidate_address_pcid tlb vaddr pcid false
  | SingleContext => both (fun ts => TlbSet.flush_pcid ts pcid false) tlb
  | AllIncludingGlobal => flush_all tlb
  | AllExcludingGlobal => both TlbSet.flush_non_global tlb
  end.
End Tlb.

(** ** Entries *)

(** log2 of a page size. *)
Definition page_shift (s : PageSize) : Z :=
  match s with Size4K => 12 | Size2M => 21 | Size4M => 22 | Size1G => 30 end.

Lemma bytes_shift s : bytes s = 2 ^ page_shift s.
Proof. by destruct s. Qed.

Lemma page_shift_bounds s : 12 <= page_shift s <= 30.
Proof. destruct s; simpl; lia. Qed.

(** The page of size [s] that contains [v], as the code computes it. *)
Definition page_base (s : PageSize) (v : Z) : Z := v &&& unot 64 (bytes s - 1).

#[global] Arguments page_base : simpl never.

Lemma page_base_ldiff s v :
  uint 64 v -> page_base s v = Z.ldiff v (Z.ones (page_shift s)).
Proof.
  intros Hv. unfold page_base. rewrite land_unot by (done || lia).
  rewrite bytes_shift, Z.ones_equiv. done.
Qed.

Lemma page_base_eq s v : uint 64 v -> page_base s v = v - v mod bytes s.
Proof.
  intros Hv. pose proof (page_shift_bounds s).
  rewrite page_base_ldiff, ldiff_ones, bytes_shift by (done || lia). done.
Qed.

Lemma bytes_pos s : 0 < bytes s.
Proof. by destruct s. Qed.

Lemma page_base_bounds s v :
  uint 64 v -> 0 <= page_base s v <= v /\ v < page_base s v + bytes s.
Proof.
  intros Hv. rewrite page_base_eq by done. pose proof (bytes_pos s).
  pose proof (Z.mod_pos_bound v (bytes s)). pose proof (Z.mod_le v (bytes s)).
  unfold uint in Hv. lia.
Qed.

Lemma page_base_uint s v : uint 64 v -> uint 64 (page_base s v).
Proof. intros Hv. pose proof (page_base_bounds s v Hv). unfold uint in *. lia. Qed.

Lemma page_base_aligned s v : uint 64 v -> page_base s v mod bytes s = 0.
Proof.
  intros Hv. rewrite page_base_eq by done. pose proof (bytes_pos s).
  rewrite Zminus_mod_idemp_r, Z.sub_diag. done.
Qed.

(** An aligned base is the page base of exactly the addresses of its page. *)
Lemma page_base_iff s b v :
  uint 64 v -> b mod bytes s = 0 -> page_base s v = b <-> b <= v < b + bytes s.
Proof.
  intros Hv Hb. pose proof (page_base_bounds s v Hv). pose proof (bytes_pos s).
  split; [lia|]. intros Hr.
  assert (page_base s v mod bytes s = 0) as Hp by (by apply page_base_aligned).
  apply Z.mod_divide in Hp, Hb; [|lia|lia]. destruct Hp as [q Hq], Hb as [r Hr'].
  assert (q = r) by nia. nia.
Qed.

Lemma page_base_idemp s b : uint 64 b -> b mod bytes s = 0 -> page_base s b = b.
Proof. intros Hu Hb. rewrite page_base_eq, Hb by done. lia. Qed.

Module TlbEntryFacts.
Import TlbEntry.

Section New.
Context (vb pb pc : Z) (ps : PageSize) (a : TlbEntryAttributes.t).

Lemma new_valid : valid (new vb pb ps pc a) = true.
Proof. by destruct a as [[] [] [] [] ? [] []]. Qed.
Lemma new_user : user (new vb pb ps pc a) = a.(TlbEntryAttributes.user).
Proof. by destruct a as [[] [] [] [] ? [] []]. Qed.
Lemma new_writable : writable (new vb pb ps pc a) = a.(TlbEntryAttributes.writable).
Proof. by destruct a as [[] [] [] [] ? [] []]. Qed.
Lemma new_nx : nx (new vb pb ps pc a) = a.(TlbEntryAttributes.nx).
Proof. by destruct a as [[] [] [] [] ? [] []]. Qed.
Lemma new_global : global (new vb pb ps pc a) = a.(TlbEntryAttributes.global).
Proof. by destruct a as [[] [] [] [] ? [] []]. Qed.
Lemma new_leaf_is_64 : leaf_is_64 (new vb pb ps pc a) = a.(TlbEntryAttributes.leaf_is_64).
Proof. by destruct a as [[] [] [] [] ? [] []]. Qed.
Lemma new_dirty : dirty (new vb pb ps pc a) = a.(TlbEntryAttributes.dirty).
Proof. by destruct a as [[] [] [] [] ? [] []]. Qed.

(** Translating through an entry adds the page offset to the physical base. *)
Lemma new_translate v :
  vb <= v -> uint 64 (pb + (v - vb)) ->
  translate (new vb pb ps pc a) v = pb + (v - vb).
Proof.
  intros Hv Hp. unfold translate, wrapping_add.
  replace (paddr_delta (new vb pb ps pc a)) with (wrapping_sub 64 pb vb)
    by (by destruct a as [[] [] [] [] ? [] []]).
  unfold wrapping_sub, wrap. rewrite Zplus_mod_idemp_r.
  rewrite Z.mod_small; [lia|]. unfold uint in Hp. lia.
Qed.
End New.

Lemma valid_invalidate e : valid (invalidate e) = false.
Proof.
  unfold valid, invalidate. simpl. rewrite <- Z.land_assoc.
  change (unot 8 FLAG_VALID &&& FLAG_VALID) with 0. by rewrite Z.land_0_r.
Qed.

Section SetDirty.
Context (e : t).
Local Ltac flag_other :=
  unfold set_dirty; simpl; rewrite Z.land_lor_distr_l;
  rewrite ?Z.lor_0_r; done.

Lemma set_dirty_valid : valid (set_dirty e) = valid e.
Proof. unfold valid. flag_other. Qed.
Lemma set_dirty_user : user (set_dirty e) = user e.
Proof. unfold user. flag_other. Qed.
Lemma set_dirty_writable : writable (set_dirty e) = writable e.
Proof. unfold writable. flag_other. Qed.
Lemma set_dirty_nx : nx (set_dirty e) = nx e.
Proof. unfold nx. flag_other. Qed.
Lemma set_dirty_global : global (set_dirty e) = global e.
Proof. unfold global. flag_other. Qed.
Lemma set_dirty_leaf_is_64 : leaf_is_64 (set_dirty e) = leaf_is_64 e.
Proof. unfold leaf_is_64. flag_other. Qed.
Lemma set_dirty_dirty : dirty (set_dirty e) = true.
Proof.
  unfold dirty, set_dirty. simpl. rewrite Z.land_lor_distr_l.
  change (FLAG_DIRTY &&& FLAG_DIRTY) with 32.
  apply negb_true_iff, Z.eqb_neq. intros H. apply Z.lor_eq_0_iff in H as [_ H]. done.
Qed.
End SetDirty.

Lemma matches_pcid_valid en e pc : matches_pcid en e pc = true -> valid e = true.
Proof. unfold matches_pcid, valid. destruct en; [|done]. intros [H _]%andb_true_iff. done. Qed.

Lemma matches_pcid_spec en e pc :
  matches_pcid en e pc = valid e && (negb en || global e || (e.(pcid) =? pc)).
Proof.
  unfold matches_pcid, valid, global. destruct en; simpl; [done|]. by rewrite andb_true_r.
Qed.

Lemma set_dirty_matches en e pc : matches_pcid en (set_dirty e) pc = matches_pcid en e pc.
Proof. by rewrite !matches_pcid_spec, set_dirty_valid, set_dirty_global. Qed.

End TlbEntryFacts.

(** ** Banks: the invariant *)
Module TlbSetFacts.
Import TlbSet TlbEntryFacts.

(** 1 for a valid entry of size [ps]: what the counters count. *)
Definition is_size (ps : PageSize) (e : TlbEntry.t) : Z :=
  if TlbEntry.valid e && bool_decide (e.(TlbEntry.page_size) = ps) then 1 else 0.

Definition count_of (ps : PageSize) (rows : list (list TlbEntry.t)) : Z :=
  sumZ (sumZ (is_size ps)) rows.

(** A page-aligned entry, as the page walks build them. *)
Definition entry_ok (e : TlbEntry.t) : Prop :=
  uint 64 e.(TlbEntry.vbase) /\ e.(TlbEntry.vbase) mod bytes e.(TlbEntry.page_size) = 0.

Definition slot_ok (s : nat) (e : TlbEntry.t) : Prop :=
  TlbEntry.valid e = true -> entry_ok e /\ set_index (e.(TlbEntry.vbase) >>> 12) = s.

(** The counter of a page size. *)
Definition cval (ps : PageSize) (c : counts) : Z :=
  match ps with Size1G => c.1.1 | Size4M => c.1.2 | Size2M => c.2 | Size4K => 0 end.

Record wf (ts : t) : Prop := {
  wf_sets : length ts.(entries) = SETS;
  wf_ways : forall s r, ts.(entries) !! s = Some r -> length r = WAYS;
  wf_next : length ts.(next_way) = SETS;
  wf_slots : forall s r w e, ts.(entries) !! s = Some r -> r !! w = Some e -> slot_ok s e;
  wf_counts : forall ps, ps <> Size4K -> cval ps (get_counts ts) = count_of ps ts.(entries);
}.

(** The valid entries of a bank. *)
Definition contains (ts : t) (e : TlbEntry.t) : Prop :=
  TlbEntry.valid e = true /\
  exists s r w, ts.(entries) !! s = Some r /\ r !! w = Some e.

Lemma set_index_bound tag : (set_index tag < SETS)%nat.
Proof.
  unfold set_index. change (Z.of_nat SETS - 1) with (Z.ones 6).
  rewrite Z.land_ones by lia.
  pose proof (Z.mod_pos_bound (tag ^^^ tag >>> 17 ^^^ tag >>> 35) (2 ^ 6) ltac:(lia)).
  unfold SETS. lia.
Qed.

Lemma is_size_bounds ps e : 0 <= is_size ps e <= 1.
Proof. unfold is_size. case_if; lia. Qed.

Lemma is_size_invalid ps e : TlbEntry.valid e = false -> is_size ps e = 0.
Proof. intros H. unfold is_size. by rewrite H. Qed.

Lemma is_size_valid ps e :
  TlbEntry.valid e = true -> is_size ps e = if decide (e.(TlbEntry.page_size) = ps) then 1 else 0.
Proof. intros H. unfold is_size. rewrite H. simpl. by case_decide; case_bool_decide. Qed.

Lemma count_of_bounds ps rows n :
  (forall r, r ∈ rows -> (length r <= n)%nat) ->
  0 <= count_of ps rows <= Z.of_nat n * Z.of_nat (length rows).
Proof.
  intros Hr. apply sumZ_bounds. intros r Hin.
  pose proof (sumZ_bounds (is_size ps) r 1 ltac:(intros; apply is_size_bounds)).
  specialize (Hr r Hin). lia.
Qed.

(** Counting is exact as long as the 16-bit counters do not wrap. *)
Lemma cval_inc ps ps' c :
  ps <> Size4K -> 0 <= cval ps c < 2 ^ 16 - 1 ->
  cval ps (count_inc ps' c) = cval ps c + if decide (ps' = ps) then 1 else 0.
Proof.
  intros Hps Hc. destruct c as [[g m4] m2].
  destruct ps, ps'; try done; repeat case_decide; try done; simpl in *;
    unfold wrapping_add; rewrite ?wrap_small by (unfold uint; lia); lia.
Qed.

Lemma cval_dec ps ps' c :
  ps <> Size4K -> (if decide (ps' = ps) then 1 else 0) <= cval ps c < 2 ^ 16 ->
  cval ps (count_dec ps' c) = cval ps c - if decide (ps' = ps) then 1 else 0.
Proof.
  intros Hps Hc. destruct c as [[g m4] m2].
  destruct ps, ps'; try done; repeat case_decide; try done; simpl in *;
    unfold wrapping_sub; rewrite ?wrap_small by (unfold uint; lia); lia.
Qed.

Section Wf.
Context (ts : t) (Hwf : wf ts).

Lemma wf_count_bounds ps : 0 <= count_of ps ts.(entries) <= 256.
Proof.
  pose proof (count_of_bounds ps ts.(entries) WAYS) as H.
  rewrite (wf_sets _ Hwf) in H. apply H.
  intros r [s Hs]%list_elem_of_lookup. by rewrite (wf_ways _ Hwf s r Hs).
Qed.

Lemma wf_row s : (s < SETS)%nat -> ts.(entries) !! s = Some (row ts s).
Proof.
  intros Hs. apply list_lookup_lookup_total_lt. by rewrite (wf_sets _ Hwf).
Qed.

Lemma wf_row_length s : (s < SETS)%nat -> length (row ts s) = WAYS.
Proof. intros Hs. by apply (wf_ways _ Hwf s), wf_row. Qed.

Lemma wf_entry_at s w :
  (s < SETS)%nat -> (w < WAYS)%nat -> row ts s !! w = Some (entry_at ts s w).
Proof.
  intros Hs Hw. apply list_lookup_lookup_total_lt. by rewrite wf_row_length.
Qed.

Lemma contains_slot e :
  contains ts e <->
  TlbEntry.valid e = true /\ entry_ok e /\
  exists w, row ts (set_index (e.(TlbEntry.vbase) >>> 12)) !! w = Some e.
Proof.
  split.
  - intros (Hv & s & r & w & Hs & Hw).
    destruct (wf_slots _ Hwf s r w e Hs Hw Hv) as [Hok Hidx].
    split_and!; [done|done|]. exists w. rewrite Hidx.
    unfold row. by rewrite (list_lookup_total_correct _ _ _ Hs).
  - intros (Hv & Hok & w & Hw). split; [done|].
    eexists _, _, w. split; [apply wf_row, set_index_bound|done].
Qed.

Lemma contains_ok e : contains ts e -> entry_ok e.
Proof. by intros (_ & ? & _)%contains_slot. Qed.
End Wf.

Lemma new_wf : wf new.
Proof.
  assert (forall s r, new.(entries) !! s = Some r -> r = replicate WAYS TlbEntry.default) as Hrow.
  { intros s r Hs.
    change new.(entries) with (replicate SETS (replicate WAYS TlbEntry.default)) in Hs.
    by apply lookup_replicate in Hs as [-> _]. }
  split; try done.
  - intros s r ->%Hrow. done.
  - intros s r w e ->%Hrow Hw Hv. by apply lookup_replicate in Hw as [-> _].
  - intros [] Hps; done || reflexivity.
Qed.

(** *** Writing one slot *)
Section Put.
Context (ts : t) (Hwf : wf ts) (s w : nat) (e : TlbEntry.t).
Context (Hs : (s < SETS)%nat) (Hw : (w < WAYS)%nat).

Lemma put_entry_count ps :
  count_of ps (put_entry ts.(entries) s w e) =
  count_of ps ts.(entries) - is_size ps (entry_at ts s w) + is_size ps e.
Proof.
  unfold count_of, put_entry.
  rewrite (sumZ_alter _ _ _ _ _ (wf_row ts Hwf s Hs)).
  rewrite (sumZ_insert _ _ _ _ _ (wf_entry_at ts Hwf s w Hs Hw)). lia.
Qed.

Lemma put_entry_lookup s' r' :
  put_entry ts.(entries) s w e !! s' = Some r' ->
  exists r, ts.(entries) !! s' = Some r /\ length r' = length r /\
    forall w' e', r' !! w' = Some e' ->
      (s' = s /\ w' = w /\ e' = e) \/ ((s' <> s \/ w' <> w) /\ r !! w' = Some e').
Proof.
  unfold put_entry. rewrite list_lookup_alter.
  case_decide as Heq; [subst s'|]; intros Hr.
  - destruct (ts.(entries) !! s) as [r|]; [|done]. simplify_eq/=.
    exists r. split_and!; [done|by rewrite length_insert|]. intros w' e' Hl.
    rewrite list_lookup_insert in Hl. case_decide as Hd.
    + destruct Hd as [-> _]. simplify_eq. by left.
    + right. split; [|done]. right. intros ->. apply Hd. split; [done|].
      rewrite <- (length_insert r w e). apply lookup_lt_is_Some.
      rewrite list_lookup_insert. by case_decide; eauto.
  - exists r'. split_and!; [done|done|]. intros w' e' Hl. right. split; [left; congruence|done].
Qed.

Lemma put_entry_same : exists r, put_entry ts.(entries) s w e !! s = Some r /\ r !! w = Some e.
Proof.
  exists (<[w:=e]> (row ts s)). unfold put_entry. split.
  - rewrite list_lookup_alter_eq, (wf_row ts Hwf s Hs). done.
  - apply list_lookup_insert_eq. by rewrite (wf_row_length ts Hwf).
Qed.

(** Replacing a slot keeps the invariant when the counters follow. *)
Lemma put_entry_wf nw c :
  length nw = SETS -> slot_ok s e ->
  (forall ps, ps <> Size4K -> cval ps c =
     count_of ps ts.(entries) - is_size ps (entry_at ts s w) + is_size ps e) ->
  wf (mk (put_entry ts.(entries) s w e) nw c.1.1 c.1.2 c.2).
Proof.
  intros Hnw Hok Hc. split; simpl.
  - unfold put_entry. rewrite length_alter. apply (wf_sets _ Hwf).
  - intros s' r' Hr. apply put_entry_lookup in Hr as (r & Hr & -> & _).
    by apply (wf_ways _ Hwf s').
  - done.
  - intros s' r' w' e' Hr He. apply put_entry_lookup in Hr as (r & Hr & _ & Hcase).
    destruct (Hcase w' e' He) as [(-> & -> & ->)|[_ Hold]]; [done|].
    by apply (wf_slots _ Hwf s' r w').
  - intros ps Hps. rewrite put_entry_count, <- Hc by done.
    by destruct ps, c as [[??]?].
Qed.
End Put.
End TlbSetFacts.

(** ** Banks: the operations *)
Module TlbSetOps.
Import TlbSet TlbEntryFacts TlbSetFacts.

(** *** Lookup *)

(** The page sizes a mode probes, largest first. *)
Definition probe_sizes (p : TlbLookupPageSizes) : list PageSize :=
  match p with
  | Only4K => [Size4K]
  | Size2MAnd4K => [Size2M; Size4K]
  | Size4MAnd4K => [Size4M; Size4K]
  | Size1G2MAnd4K => [Size1G; Size2M; Size4K]
  end.

(** Reference lookup: probe every size of the mode, no counters. *)
Fixpoint lookup_sizes (ts : t) (en : bool) (v pc : Z) (sizes : list PageSize) :
    option TlbHit.t :=
  match sizes with
  | [] => None
  | ps :: rest => or_else (lookup_page_size ts en v pc ps) (lookup_sizes ts en v pc rest)
  end.

(** What it means for an entry to serve address [v] in a PCID context. *)
Definition serves (en : bool) (v pc : Z) (e : TlbEntry.t) : Prop :=
  TlbEntry.matches_pcid en e pc = true /\
  e.(TlbEntry.vbase) = page_base e.(TlbEntry.page_size) v.

Lemma lookup_page_size_Some ts en v pc ps h :
  lookup_page_size ts en v pc ps = Some h ->
  row ts h.(TlbHit.set) !! h.(TlbHit.way) = Some h.(TlbHit.entry) /\
  serves en v pc h.(TlbHit.entry) /\
  h.(TlbHit.entry).(TlbEntry.page_size) = ps /\
  h.(TlbHit.set) = set_index (page_base ps v >>> 12).
Proof.
  unfold lookup_page_size. fold (page_base ps v).
  destruct (find_idx _ _) as [[w e]|] eqn:Hf; [|done]. intros ?; simplify_eq/=.
  apply find_idx_Some in Hf as (Hrow & Hcond & _). bool_hyps.
  match goal with H : bool_decide _ = true |- _ => apply bool_decide_eq_true in H end.
  split_and!; try done. split; [done|]. congruence.
Qed.

Lemma lookup_page_size_None ts en v pc ps :
  lookup_page_size ts en v pc ps = None <->
  forall w e, row ts (set_index (page_base ps v >>> 12)) !! w = Some e ->
    e.(TlbEntry.page_size) = ps -> ~ serves en v pc e.
Proof.
  unfold lookup_page_size. fold (page_base ps v).
  destruct (find_idx _ _) as [[w e]|] eqn:Hf.
  - split; [done|]. intros Hno. exfalso.
    apply find_idx_Some in Hf as (Hrow & Hcond & _). bool_hyps.
    match goal with H : bool_decide _ = true |- _ => apply bool_decide_eq_true in H end.
    apply (Hno w e); [done|done|]. split; [done|congruence].
  - split; [|done]. intros _ w e Hrow Hps [Hm Hv].
    apply find_idx_None in Hf. rewrite Forall_lookup in Hf. specialize (Hf w e Hrow).
    simpl in Hf. rewrite Hm, Hv, Hps, Z.eqb_refl in Hf. by rewrite bool_decide_true in Hf.
Qed.

(** A hit is a valid entry of the bank whose page contains the address. *)
Lemma lookup_sizes_Some ts en v pc sizes h :
  lookup_sizes ts en v pc sizes = Some h ->
  row ts h.(TlbHit.set) !! h.(TlbHit.way) = Some h.(TlbHit.entry) /\
  serves en v pc h.(TlbHit.entry) /\
  (h.(TlbHit.set) < SETS)%nat /\ h.(TlbHit.entry).(TlbEntry.page_size) ∈ sizes.
Proof.
  induction sizes as [|ps sizes IH]; simpl; [done|].
  destruct (lookup_page_size ts en v pc ps) as [h'|] eqn:Hl; simpl.
  - intros ?; simplify_eq. apply lookup_page_size_Some in Hl as (? & ? & <- & Hset).
    split_and!; try done; [rewrite Hset; apply set_index_bound|left].
  - intros H. destruct (IH H) as (? & ? & ? & ?). split_and!; try done. by right.
Qed.

Section Lookup.
Context (ts : t) (Hwf : wf ts).

Lemma lookup_sizes_None en v pc sizes e :
  lookup_sizes ts en v pc sizes = None ->
  contains ts e -> e.(TlbEntry.page_size) ∈ sizes -> ~ serves en v pc e.
Proof.
  induction sizes as [|ps sizes IH]; intros Hl Hc Hin; [by apply not_elem_of_nil in Hin|].
  simpl in Hl. destruct (lookup_page_size ts en v pc ps) eqn:Hp; [done|]. simpl in Hl.
  apply elem_of_cons in Hin as [Hps|Hin]; [|by apply IH].
  intros Hserve. rewrite lookup_page_size_None in Hp.
  apply (contains_slot ts Hwf) in Hc as (_ & _ & w & Hw).
  destruct Hserve as [Hm Hv]. rewrite Hv, Hps in Hw.
  apply (Hp w e Hw); [done|]. split; [done|]. done.
Qed.

(** A zero counter means no valid entry of that size. *)
Lemma count_zero ps e :
  ps <> Size4K -> cval ps (get_counts ts) = 0 -> contains ts e ->
  e.(TlbEntry.page_size) <> ps.
Proof.
  intros Hps H0 (Hv & s & r & w & Hs & Hw). rewrite (wf_counts _ Hwf ps Hps) in H0.
  assert (sumZ (is_size ps) r = 0) as Hr.
  { apply (sumZ_zero (sumZ (is_size ps)) ts.(entries)); [|done|apply list_elem_of_lookup; eauto].
    intros r' _. apply (sumZ_bounds _ r' 1). intros; apply is_size_bounds. }
  assert (is_size ps e = 0) as He.
  { apply (sumZ_zero (is_size ps) r); [|done|apply list_elem_of_lookup; eauto].
    intros; apply is_size_bounds. }
  rewrite is_size_valid in He by done. by case_decide.
Qed.

Lemma lookup_absent_size en v pc ps :
  ps <> Size4K -> cval ps (get_counts ts) = 0 -> lookup_page_size ts en v pc ps = None.
Proof.
  intros Hps H0. apply lookup_page_size_None. intros w e Hw He [Hm _].
  apply matches_pcid_valid in Hm.
  apply (count_zero ps e Hps H0); [|done]. split; [done|].
  eexists _, _, w. split; [by apply (wf_row ts Hwf), set_index_bound|done].
Qed.

Lemma shiftr_page_base v : uint 64 v -> page_base Size4K v >>> 12 = v >>> 12.
Proof.
  intros Hv. rewrite page_base_ldiff by done. simpl page_shift.
  rewrite Z.shiftr_ldiff. change (Z.ones 12 >>> 12) with 0. apply Z.ldiff_0_r.
Qed.

Lemma lookup_4k_only_eq en v pc :
  uint 64 v -> (forall ps, ps <> Size4K -> cval ps (get_counts ts) = 0) ->
  lookup_4k_only ts en v pc = lookup_page_size ts en v pc Size4K.
Proof.
  intros Hv H0. unfold lookup_4k_only, lookup_page_size.
  change (v &&& unot 64 0xfff) with (page_base Size4K v).
  change (v &&& unot 64 (bytes Size4K - 1)) with (page_base Size4K v).
  rewrite shiftr_page_base by done.
  erewrite find_idx_ext; [reflexivity|]. apply Forall_lookup. intros w e Hw. simpl.
  destruct (TlbEntry.matches_pcid en e pc) eqn:Hm; [|by rewrite !andb_false_r].
  rewrite bool_decide_true; [done|]. apply matches_pcid_valid in Hm.
  assert (contains ts e) as Hc.
  { split; [done|]. eexists _, _, w. split; [by apply (wf_row ts Hwf), set_index_bound|done]. }
  destruct (e.(TlbEntry.page_size)) eqn:Hps; [done|..];
    exfalso; by eapply (count_zero _ e _ (H0 _ _) Hc).
Unshelve. all: done.
Qed.

Lemma lookup_eq_sizes en v pc p :
  uint 64 v -> lookup ts v pc en p = lookup_sizes ts en v pc (probe_sizes p).
Proof.
  intros Hv. assert (lookup ts v pc en p = lookup_impl en ts v pc p) as ->
    by (unfold lookup; by destruct en).
  assert (forall o : option TlbHit.t, or_else o None = o) as Hor by (by intros []).
  pose proof (fun ps H => lookup_absent_size en v pc ps H) as Habs.
  unfold lookup_impl. case_if.
  - bool_hyps. match goal with H : _ = 0 |- _ =>
      apply Z.lor_eq_0_iff in H as [[H1 H2]%Z.lor_eq_0_iff H3] end.
    assert (forall ps, ps <> Size4K -> cval ps (get_counts ts) = 0) as H0 by (by intros []).
    rewrite lookup_4k_only_eq by done.
    pose proof (fun ps H => Habs ps H (H0 ps H)) as Hn.
    destruct p; simpl; rewrite ?(Hn Size1G), ?(Hn Size2M), ?(Hn Size4M) by done; simpl;
      by rewrite Hor.
  - assert (forall ps, ps <> Size4K ->
      (if nz (cval ps (get_counts ts)) then lookup_page_size ts en v pc ps else None) =
      lookup_page_size ts en v pc ps) as Hguard.
    { intros ps Hps. case_if; [done|]. bool_hyps. by rewrite Habs. }
    pose proof (Hguard Size1G ltac:(done)) as H1g. pose proof (Hguard Size2M ltac:(done)) as H2m.
    pose proof (Hguard Size4M ltac:(done)) as H4m. simpl in H1g, H2m, H4m.
    destruct p; simpl; rewrite ?H1g, ?H2m, ?H4m, ?Hor; done.
Qed.

Lemma lookup_Some en v pc p h :
  uint 64 v -> lookup ts v pc en p = Some h ->
  row ts h.(TlbHit.set) !! h.(TlbHit.way) = Some h.(TlbHit.entry) /\
  (h.(TlbHit.set) < SETS)%nat /\ (h.(TlbHit.way) < WAYS)%nat /\
  contains ts h.(TlbHit.entry) /\ serves en v pc h.(TlbHit.entry).
Proof.
  intros Hv Hl. rewrite lookup_eq_sizes in Hl by done.
  apply lookup_sizes_Some in Hl as (Hrow & Hserve & Hset & _).
  split_and!; try done.
  - rewrite <- (wf_row_length ts Hwf _ Hset). by eapply lookup_lt_Some.
  - split; [apply (matches_pcid_valid en _ pc), Hserve|].
    eexists _, _, _. split; [by apply (wf_row ts Hwf)|done].
Qed.
End Lookup.

(** *** Insertion *)
Section Insert.
Context (ts : t) (Hwf : wf ts) (e : TlbEntry.t).
Context (Hv : TlbEntry.valid e = true) (Hok : entry_ok e).

Lemma insert_shape :
  exists w nw c, (w < WAYS)%nat /\ length nw = SETS /\
    insert ts e = mk (put_entry ts.(entries) (set_index (e.(TlbEntry.vbase) >>> 12)) w e)
                    nw c.1.1 c.1.2 c.2 /\
    (forall ps, ps <> Size4K -> cval ps c =
       count_of ps ts.(entries)
       - is_size ps (entry_at ts (set_index (e.(TlbEntry.vbase) >>> 12)) w) + is_size ps e).
Proof.
  unfold insert. set (s := set_index _). assert (s < SETS)%nat as Hs by apply set_index_bound.
  destruct (find_idx _ _) as [[w cur]|] eqn:Hf.
  - apply find_idx_Some in Hf as (Hrow & Hcond & _). bool_hyps.
    match goal with H : bool_decide _ = true |- _ => apply bool_decide_eq_true in H end.
    exists w, ts.(next_way), (get_counts ts). split_and!.
    + rewrite <- (wf_row_length ts Hwf s Hs). by eapply lookup_lt_Some.
    + apply (wf_next _ Hwf).
    + done.
    + intros ps Hps. rewrite (wf_counts _ Hwf) by done.
      unfold entry_at. rewrite (list_lookup_total_correct _ _ _ Hrow).
      rewrite !is_size_valid by done. replace (TlbEntry.page_size cur) with (TlbEntry.page_size e).
      lia.
  - set (w := Z.to_nat _). assert (w < WAYS)%nat as Hw.
    { unfold w. pose proof (Z.mod_pos_bound (next_way ts !!! s) (Z.of_nat WAYS)).
      unfold WAYS in *. lia. }
    eexists w, _, _. split_and!; [done| |reflexivity|].
    { rewrite length_insert. apply (wf_next _ Hwf). }
    intros ps Hps. pose proof (wf_count_bounds ts Hwf) as Hb.
    pose proof (wf_counts _ Hwf) as Hc.
    assert (forall ps', is_size ps' (entry_at ts s w) <= count_of ps' ts.(entries)) as Hle.
    { intros ps'. pose proof (put_entry_count ts Hwf s w TlbEntry.default Hs Hw ps') as Hp.
      rewrite (is_size_invalid ps' TlbEntry.default) in Hp by done.
      pose proof (count_of_bounds ps' (put_entry ts.(entries) s w TlbEntry.default) WAYS) as Hb'.
      assert (0 <= count_of ps' (put_entry ts.(entries) s w TlbEntry.default)); [|lia].
      apply Hb'. intros r [s' Hr]%list_elem_of_lookup.
      apply put_entry_lookup in Hr as (r' & Hr' & -> & _); [|done..].
      by rewrite (wf_ways _ Hwf s' r' Hr'). }
    rewrite (is_size_valid ps e Hv). specialize (Hle ps). specialize (Hb ps).
    destruct (TlbEntry.valid (entry_at ts s w)) eqn:Hold.
    + rewrite (is_size_valid ps _ Hold) in *.
      rewrite cval_inc; rewrite ?cval_dec; rewrite ?(Hc ps Hps); try done; repeat case_decide; lia.
    + rewrite (is_size_invalid ps _ Hold).
      rewrite cval_inc; rewrite ?(Hc ps Hps); try done; repeat case_decide; lia.
Qed.

Lemma insert_wf : wf (insert ts e).
Proof.
  destruct insert_shape as (w & nw & c & Hw & Hnw & -> & Hc).
  apply put_entry_wf; try done. apply set_index_bound.
Qed.

(** The inserted entry is present, and nothing else appears. *)
Lemma insert_contains : contains (insert ts e) e.
Proof.
  destruct insert_shape as (w & nw & c & Hw & Hnw & -> & Hc). split; [done|].
  destruct (put_entry_same ts Hwf (set_index (TlbEntry.vbase e >>> 12)) w e) as (r & Hr & He);
    [apply set_index_bound|done|].
  by eexists _, r, w.
Qed.

Lemma insert_contains_inv e' : contains (insert ts e) e' -> e' = e \/ contains ts e'.
Proof.
  destruct insert_shape as (w & nw & c & Hw & Hnw & -> & Hc).
  intros (Hv' & s & r & w' & Hr & He'). simpl in Hr.
  apply put_entry_lookup in Hr as (r0 & Hr0 & _ & Hcase); [|done].
  destruct (Hcase w' e' He') as [(_ & _ & ->)|[_ Hold]]; [by left|].
  right. split; [done|]. by eexists _, r0, w'.
Qed.
End Insert.

(** *** Address invalidation *)
Section Invalidate.
Context (hit : PageSize -> Z -> TlbEntry.t -> bool).
Context (Hhit : forall ps vb e, hit ps vb e = true ->
  TlbEntry.valid e = true /\ e.(TlbEntry.vbase) = vb /\ e.(TlbEntry.page_size) = ps).

Definition kill (ps : PageSize) (vb : Z) (e : TlbEntry.t) : TlbEntry.t :=
  if hit ps vb e then TlbEntry.invalidate e else e.

Lemma invalidate_row_fst ps vb l c :
  fst (map_acc (invalidate_way (hit ps vb) ps) l c) = map (kill ps vb) l.
Proof. apply map_acc_fst. intros x s. unfold invalidate_way, kill. by case_if. Qed.

Lemma is_size_kill ps ps' vb e :
  is_size ps' (kill ps vb e) =
  is_size ps' e - if hit ps vb e then if decide (ps = ps') then 1 else 0 else 0.
Proof.
  unfold kill. case_if; [|lia].
  destruct (Hhit ps vb e) as (Hv & _ & Hps); [done|].
  rewrite is_size_invalid by apply valid_invalidate. rewrite is_size_valid, Hps by done.
  case_decide; lia.
Qed.

Lemma invalidate_row_counts ps vb l c k ps' :
  ps' <> Size4K -> 0 <= k -> cval ps' c = k + sumZ (is_size ps') l -> cval ps' c < 2 ^ 16 ->
  cval ps' (snd (map_acc (invalidate_way (hit ps vb) ps) l c)) =
  k + sumZ (is_size ps') (map (kill ps vb) l).
Proof.
  intros Hps. revert c k. induction l as [|e l IH]; intros c k Hk Hc Hb; [by simpl|].
  assert (0 <= sumZ (is_size ps') l) as Hl
    by (apply (sumZ_bounds _ l 1); intros; apply is_size_bounds).
  pose proof (is_size_bounds ps' e). pose proof (is_size_bounds ps' (kill ps vb e)).
  pose proof (is_size_kill ps ps' vb e) as Hkill. unfold kill in Hkill.
  simpl map_acc. unfold invalidate_way at 1. simpl sumZ in *.
  destruct (hit ps vb e) eqn:Hh.
  - assert (cval ps' (count_dec ps c) = cval ps' c - (if decide (ps = ps') then 1 else 0)) as Hd.
    { apply cval_dec; [done|]. unfold kill in *. rewrite Hh in *. case_decide; lia. }
    specialize (IH (count_dec ps c) (k + is_size ps' (kill ps vb e))).
    destruct (map_acc _ l (count_dec ps c)) as [l2 c2]. simpl in *.
    unfold kill in *. rewrite Hh in *. rewrite IH; try lia; case_decide; lia.
  - specialize (IH c (k + is_size ps' (kill ps vb e))).
    destruct (map_acc _ l c) as [l2 c2]. simpl in *.
    unfold kill in *. rewrite Hh in *. rewrite IH; lia.
Qed.

Lemma invalidate_size_shape v ts ps :
  exists c, invalidate_size hit v ts ps =
    set_rows ts (<[set_index (page_base ps v >>> 12) :=
      map (kill ps (page_base ps v)) (row ts (set_index (page_base ps v >>> 12)))]> ts.(entries)) c /\
    c = snd (map_acc (invalidate_way (hit ps (page_base ps v)) ps)
               (row ts (set_index (page_base ps v >>> 12))) (get_counts ts)).
Proof.
  unfold invalidate_size. fold (page_base ps v).
  pose proof (invalidate_row_fst ps (page_base ps v)
    (row ts (set_index (page_base ps v >>> 12))) (get_counts ts)) as Hf.
  destruct (map_acc _ _ _) as [l c]. simpl in Hf. subst l. by exists c.
Qed.

Lemma kill_valid ps vb e :
  TlbEntry.valid (kill ps vb e) = true <-> TlbEntry.valid e = true /\ hit ps vb e = false.
Proof.
  unfold kill. case_if; [rewrite valid_invalidate|].
  - split; [done|]. by intros [_ ?].
  - split; [done|]. by intros [? _].
Qed.

Lemma kill_id ps vb e : TlbEntry.valid (kill ps vb e) = true -> kill ps vb e = e.
Proof. intros [_ H]%kill_valid. unfold kill. by rewrite H. Qed.

Lemma invalidate_size_wf v ts ps : wf ts -> wf (invalidate_size hit v ts ps).
Proof.
  intros Hwf. destruct (invalidate_size_shape v ts ps) as (c & -> & Hc).
  set (s := set_index _) in *. set (vb := page_base ps v) in *.
  assert (s < SETS)%nat as Hs by apply set_index_bound.
  split; cbn [set_rows entries next_way].
  - rewrite length_insert. apply (wf_sets _ Hwf).
  - intros s' r' Hr. rewrite list_lookup_insert in Hr. case_decide; simplify_eq.
    + rewrite length_map. by apply wf_row_length.
    + by apply (wf_ways _ Hwf s').
  - apply (wf_next _ Hwf).
  - intros s' r' w e Hr He Hv. rewrite list_lookup_insert in Hr. case_decide as Hd; simplify_eq.
    + destruct Hd as [<- _]. apply list_lookup_fmap_Some in He as (e0 & -> & He0).
      rewrite kill_id in Hv |- * by done.
      by apply (wf_slots _ Hwf s _ w e0 (wf_row ts Hwf s Hs)).
    + by apply (wf_slots _ Hwf s' r' w).
  - intros ps' Hps. unfold count_of. rewrite (sumZ_insert _ _ _ _ _ (wf_row ts Hwf s Hs)).
    pose proof (wf_counts _ Hwf ps' Hps) as Hcount. pose proof (wf_count_bounds ts Hwf ps').
    pose proof (sumZ_insert (sumZ (is_size ps')) _ _ _ [] (wf_row ts Hwf s Hs)) as Hrest.
    assert (0 <= sumZ (sumZ (is_size ps')) (<[s:=[]]> ts.(entries))) as Hpos.
    { apply (count_of_bounds ps' (<[s:=[]]> ts.(entries)) WAYS).
      intros r [s' Hr]%list_elem_of_lookup. rewrite list_lookup_insert in Hr.
      case_decide; simplify_eq; [simpl; lia|]. by rewrite (wf_ways _ Hwf s' r Hr). }
    cbn [sumZ] in Hrest. unfold count_of in *.
    transitivity (cval ps' c); [by destruct ps', c as [[??]?]|]. rewrite Hc.
    rewrite (invalidate_row_counts ps vb _ _
      (sumZ (sumZ (is_size ps')) (<[s:=[]]> ts.(entries)))) by (done || lia). lia.
Qed.

Lemma invalidate_size_contains v ts ps e :
  wf ts ->
  contains (invalidate_size hit v ts ps) e <->
  contains ts e /\ hit ps (page_base ps v) e = false.
Proof.
  intros Hwf. destruct (invalidate_size_shape v ts ps) as (c & -> & _).
  set (s := set_index _) in *. set (vb := page_base ps v) in *.
  assert (s < SETS)%nat as Hs by apply set_index_bound.
  split.
  - intros (Hv & s' & r & w & Hr & He). cbn [set_rows entries] in Hr. rewrite list_lookup_insert in Hr.
    case_decide as Hd; simplify_eq.
    + destruct Hd as [<- _]. apply list_lookup_fmap_Some in He as (e0 & -> & He0).
      pose proof Hv as [Hv0 Hh]%kill_valid. rewrite kill_id by done.
      split; [|done]. split; [done|]. eexists _, _, w. split; [by apply (wf_row ts Hwf s)|done].
    + split; [split; [done|by eexists _, r, w]|].
      destruct (hit ps vb e) eqn:Hh; [|done]. exfalso. apply Hd.
      destruct (Hhit _ _ _ Hh) as (_ & Hvb & _).
      destruct (wf_slots _ Hwf s' r w e Hr He Hv) as [_ Hidx].
      split; [|by rewrite (wf_sets _ Hwf)]. rewrite <- Hidx, Hvb. done.
  - intros [(Hv & s' & r & w & Hr & He) Hh]. split; [done|].
    destruct (decide (s' = s)) as [->|Hne].
    + rewrite (wf_row ts Hwf s Hs) in Hr. simplify_eq.
      eexists s, _, w. cbn [set_rows entries]. rewrite list_lookup_insert_eq by (by rewrite (wf_sets _ Hwf)).
      split; [done|]. rewrite list_lookup_fmap, He. cbn. unfold kill. by rewrite Hh.
    + eexists s', r, w. cbn [set_rows entries]. by rewrite list_lookup_insert_ne.
Qed.

Lemma invalidate_sizes_wf v sizes ts :
  wf ts -> wf (fold_left (invalidate_size hit v) sizes ts).
Proof.
  revert ts. induction sizes as [|ps sizes IH]; intros ts Hwf; simpl; [done|].
  by apply IH, invalidate_size_wf.
Qed.

Lemma invalidate_sizes_contains v sizes ts e :
  wf ts ->
  contains (fold_left (invalidate_size hit v) sizes ts) e <->
  contains ts e /\ Forall (fun ps => hit ps (page_base ps v) e = false) sizes.
Proof.
  revert ts. induction sizes as [|ps sizes IH]; intros ts Hwf; simpl.
  - split; [intros; split; [done|constructor]|by intros []].
  - rewrite IH by (by apply invalidate_size_wf).
    rewrite invalidate_size_contains, Forall_cons_iff by done. tauto.
Qed.
End Invalidate.

Lemma hit_all_spec ps vb e :
  hit_all ps vb e = true ->
  TlbEntry.valid e = true /\ e.(TlbEntry.vbase) = vb /\ e.(TlbEntry.page_size) = ps.
Proof.
  unfold hit_all. intros H. bool_hyps.
  match goal with H : bool_decide _ = true |- _ => apply bool_decide_eq_true in H end. done.
Qed.

Lemma hit_pcid_spec pc g ps vb e :
  hit_pcid pc g ps vb e = true ->
  TlbEntry.valid e = true /\ e.(TlbEntry.vbase) = vb /\ e.(TlbEntry.page_size) = ps.
Proof.
  unfold hit_pcid. case_if; [done|]. intros _. bool_hyps.
  match goal with H : bool_decide _ = true |- _ => apply bool_decide_eq_true in H end. done.
Qed.

Lemma page_size_loop_all (P : PageSize -> Prop) : Forall P page_size_loop <-> forall ps, P ps.
Proof.
  unfold page_size_loop. rewrite !Forall_cons_iff. split.
  - intros (? & ? & ? & ? & _) []; done.
  - intros H. split_and!; try apply H. constructor.
Qed.

Lemma invalidate_address_all_wf ts v : wf ts -> wf (invalidate_address_all ts v).
Proof. apply (invalidate_sizes_wf _ hit_all_spec). Qed.

(** INVLPG without PCIDs removes exactly the entries whose page holds [v]. *)
Lemma invalidate_address_all_contains ts v e :
  wf ts ->
  contains (invalidate_address_all ts v) e <->
  contains ts e /\ e.(TlbEntry.vbase) <> page_base e.(TlbEntry.page_size) v.
Proof.
  intros Hwf. unfold invalidate_address_all.
  rewrite (invalidate_sizes_contains _ hit_all_spec), page_size_loop_all by done.
  split; intros [Hc H]; (split; [done|]).
  - intros Heq. specialize (H e.(TlbEntry.page_size)). unfold hit_all in H.
    rewrite (proj1 Hc), <- Heq, Z.eqb_refl, bool_decide_true in H by done. done.
  - intros ps. destruct (hit_all ps _ e) eqn:Hh; [|done].
    apply hit_all_spec in Hh as (_ & Hvb & <-). done.
Qed.

Lemma invalidate_address_pcid_wf ts v pc g : wf ts -> wf (invalidate_address_pcid ts v pc g).
Proof. apply (invalidate_sizes_wf _ (hit_pcid_spec pc g)). Qed.

(** The PCID form removes the entries of [v]'s pages that belong to the PCID
    (and the global ones if asked), and only those. *)
Lemma invalidate_address_pcid_contains ts v pc g e :
  wf ts ->
  contains (invalidate_address_pcid ts v pc g) e <->
  contains ts e /\
  ~ (e.(TlbEntry.vbase) = page_base e.(TlbEntry.page_size) v /\
     (if TlbEntry.global e then g = true else e.(TlbEntry.pcid) = pc)).
Proof.
  intros Hwf. unfold invalidate_address_pcid.
  rewrite (invalidate_sizes_contains _ (hit_pcid_spec pc g)), page_size_loop_all by done.
  split; intros [Hc H]; (split; [done|]).
  - intros [Heq Hsel]. specialize (H e.(TlbEntry.page_size)). unfold hit_pcid in H.
    rewrite (proj1 Hc), <- Heq, Z.eqb_refl, bool_decide_true in H by done. simpl in H.
    destruct (TlbEntry.global e); [congruence|]. by apply Z.eqb_neq in H.
  - intros ps. destruct (hit_pcid pc g ps _ e) eqn:Hh; [|done]. exfalso. apply H.
    pose proof Hh as (_ & Hvb & <-)%hit_pcid_spec. split; [done|].
    unfold hit_pcid in Hh. case_if_in Hh; [done|].
    destruct (TlbEntry.global e); [done|]. by apply Z.eqb_eq.
Qed.

(** *** Flushes *)
Section Flush.
Context (drop : TlbEntry.t -> bool).

Definition flushed (e : TlbEntry.t) : TlbEntry.t :=
  if TlbEntry.valid e && drop e then TlbEntry.invalidate e else e.

Lemma flush_way_fst e c : fst (flush_way drop e c) = flushed e.
Proof. unfold flush_way, flushed. destruct (TlbEntry.valid e); simpl; [|done]. by case_if. Qed.

Lemma flush_way_snd ps e c :
  ps <> Size4K -> 0 <= cval ps c < 2 ^ 16 - 1 ->
  cval ps (snd (flush_way drop e c)) = cval ps c + is_size ps (flushed e).
Proof.
  intros Hps Hc. unfold flush_way, flushed.
  destruct (TlbEntry.valid e) eqn:Hv; simpl; [|rewrite is_size_invalid by done; lia].
  case_if; simpl.
  - rewrite is_size_invalid by apply valid_invalidate. lia.
  - rewrite cval_inc, is_size_valid by done. done.
Qed.

Lemma flush_row_snd ps l c :
  ps <> Size4K -> 0 <= cval ps c -> cval ps c + Z.of_nat (length l) < 2 ^ 16 ->
  cval ps (snd (map_acc (flush_way drop) l c)) = cval ps c + sumZ (is_size ps) (map flushed l).
Proof.
  intros Hps. revert c. induction l as [|e l IH]; intros c H0 Hb; simpl; [lia|].
  pose proof (flush_way_snd ps e c Hps) as Hs. pose proof (flush_way_fst e c) as Hf.
  destruct (flush_way drop e c) as [e' c']. simpl in *. subst e'.
  pose proof (is_size_bounds ps (flushed e)).
  specialize (IH c'). destruct (map_acc _ l c') as [l2 c2]. simpl in *. rewrite IH; lia.
Qed.

Lemma flush_rows_snd ps rows c :
  ps <> Size4K -> 0 <= cval ps c -> (forall r, r ∈ rows -> length r = WAYS) ->
  cval ps c + Z.of_nat WAYS * Z.of_nat (length rows) < 2 ^ 16 ->
  cval ps (snd (map_acc (map_acc (flush_way drop)) rows c)) =
  cval ps c + count_of ps (map (map flushed) rows).
Proof.
  intros Hps. unfold count_of. revert c.
  induction rows as [|r rows IH]; intros c H0 Hr Hb; simpl; [lia|].
  simpl length in Hb. pose proof (Hr r ltac:(left)) as Hlen.
  pose proof (flush_row_snd ps r c Hps H0 ltac:(lia)) as Hs.
  pose proof (map_acc_fst (flush_way drop) flushed r c flush_way_fst) as Hf.
  destruct (map_acc (flush_way drop) r c) as [r' c']. simpl in *. subst r'.
  assert (0 <= sumZ (is_size ps) (map flushed r) <= 1 * Z.of_nat (length (map flushed r)))
    by (apply sumZ_bounds; intros; apply is_size_bounds).
  rewrite length_map in *.
  specialize (IH c'). destruct (map_acc _ rows c') as [l2 c2]. simpl in *.
  rewrite IH; [lia|lia| |lia]. intros r' Hr'. apply Hr. by right.
Qed.

Lemma flush_where_shape ts :
  exists c, flush_where drop ts = set_rows ts (map (map flushed) ts.(entries)) c /\
    c = snd (map_acc (map_acc (flush_way drop)) ts.(entries) (0, 0, 0)).
Proof.
  unfold flush_where.
  pose proof (map_acc_fst (map_acc (flush_way drop)) (map flushed) ts.(entries) (0, 0, 0)
    (fun r c => map_acc_fst _ _ r c flush_way_fst)) as Hf.
  destruct (map_acc _ _ _) as [rows c]. simpl in Hf. subst rows. by exists c.
Qed.

Lemma flushed_valid e :
  TlbEntry.valid (flushed e) = true -> flushed e = e /\ drop e = false.
Proof.
  unfold flushed. destruct (TlbEntry.valid e) eqn:Hv; simpl; [|congruence].
  case_if; [by rewrite valid_invalidate|done].
Qed.

Lemma flush_where_wf ts : wf ts -> wf (flush_where drop ts).
Proof.
  intros Hwf. destruct (flush_where_shape ts) as (c & -> & Hc). split; simpl.
  - rewrite length_map. apply (wf_sets _ Hwf).
  - intros s r Hr. apply list_lookup_fmap_Some in Hr as (r0 & -> & Hr).
    rewrite length_map. by apply (wf_ways _ Hwf s).
  - apply (wf_next _ Hwf).
  - intros s r w e Hr He Hv. apply list_lookup_fmap_Some in Hr as (r0 & -> & Hr).
    apply list_lookup_fmap_Some in He as (e0 & -> & He).
    pose proof (flushed_valid _ Hv) as [Heq _]. rewrite Heq in *.
    by apply (wf_slots _ Hwf s r0 w).
  - intros ps Hps. transitivity (cval ps c); [by destruct ps, c as [[??]?]|]. rewrite Hc.
    assert (cval ps (0, 0, 0) = 0) as H0 by (by destruct ps).
    rewrite flush_rows_snd; rewrite ?H0, ?(wf_sets _ Hwf); try done.
    intros r [s Hs]%list_elem_of_lookup. by apply (wf_ways _ Hwf s).
Qed.

Lemma flush_where_contains ts e :
  contains (flush_where drop ts) e <-> contains ts e /\ drop e = false.
Proof.
  destruct (flush_where_shape ts) as (c & -> & _). split.
  - intros (Hv & s & r & w & Hr & He). simpl in Hr.
    apply list_lookup_fmap_Some in Hr as (r0 & -> & Hr).
    apply list_lookup_fmap_Some in He as (e0 & -> & He).
    pose proof (flushed_valid _ Hv) as [Heq Hd]. rewrite Heq in *.
    split; [|done]. split; [done|]. by eexists s, r0, w.
  - intros [(Hv & s & r & w & Hr & He) Hd]. split; [done|].
    eexists s, _, w. simpl. rewrite list_lookup_fmap, Hr. simpl. split; [done|].
    rewrite list_lookup_fmap, He. simpl. unfold flushed. by rewrite Hv, Hd.
Qed.
End Flush.

Lemma flush_all_wf ts : wf ts -> wf (flush_all ts).
Proof.
  intros Hwf. split; simpl.
  - rewrite length_map. apply (wf_sets _ Hwf).
  - intros s r Hr. apply list_lookup_fmap_Some in Hr as (r0 & -> & Hr).
    rewrite length_map. by apply (wf_ways _ Hwf s).
  - apply (wf_next _ Hwf).
  - intros s r w e Hr He Hv. apply list_lookup_fmap_Some in Hr as (r0 & -> & Hr).
    apply list_lookup_fmap_Some in He as (e0 & -> & He). by rewrite valid_invalidate in Hv.
  - intros ps Hps. unfold count_of.
    transitivity 0; [by destruct ps|]. symmetry. clear Hwf.
    induction ts.(entries) as [|r rows IH]; simpl; [done|]. rewrite IH.
    assert (sumZ (is_size ps) (map TlbEntry.invalidate r) = 0) as ->; [|done].
    induction r as [|e r IHr]; simpl; [done|].
    rewrite IHr, is_size_invalid by apply valid_invalidate. done.
Qed.

Lemma flush_all_contains ts e : ~ contains (flush_all ts) e.
Proof.
  intros (Hv & s & r & w & Hr & He). simpl in Hr.
  apply list_lookup_fmap_Some in Hr as (r0 & -> & Hr).
  apply list_lookup_fmap_Some in He as (e0 & -> & He). by rewrite valid_invalidate in Hv.
Qed.

(** *** Setting the cached dirty flag *)
Section Dirty.
Context (ts : t) (Hwf : wf ts) (s w : nat) (Hs : (s < SETS)%nat) (Hw : (w < WAYS)%nat).

Lemma is_size_set_dirty ps e : is_size ps (TlbEntry.set_dirty e) = is_size ps e.
Proof. unfold is_size. by rewrite set_dirty_valid. Qed.

Lemma set_dirty_hit_wf : wf (set_dirty_hit ts s w).
Proof.
  apply (put_entry_wf ts Hwf s w (TlbEntry.set_dirty (entry_at ts s w)) Hs Hw).
  - apply (wf_next _ Hwf).
  - intros Hv. rewrite set_dirty_valid in Hv.
    by apply (wf_slots _ Hwf s _ w _ (wf_row ts Hwf s Hs) (wf_entry_at ts Hwf s w Hs Hw)).
  - intros ps Hps. rewrite is_size_set_dirty, (wf_counts _ Hwf) by done. lia.
Qed.

Lemma set_dirty_hit_contains e :
  contains (set_dirty_hit ts s w) e ->
  contains ts e \/ (e = TlbEntry.set_dirty (entry_at ts s w) /\ contains ts (entry_at ts s w)).
Proof.
  intros (Hv & s' & r & w' & Hr & He). simpl in Hr.
  apply put_entry_lookup in Hr as (r0 & Hr0 & _ & Hcase); [|done].
  destruct (Hcase w' e He) as [(_ & _ & ->)|[_ Hold]].
  - right. split; [done|]. rewrite set_dirty_valid in Hv. split; [done|].
    eexists s, _, w. split; [by apply (wf_row ts Hwf)|]. by apply (wf_entry_at ts Hwf).
  - left. split; [done|]. by eexists s', r0, w'.
Qed.
End Dirty.
End TlbSetOps.
