(* ===== verification/Mmu.v ===== *)
(** * The x86 MMU (crates/aero-mmu/src/lib.rs)

    Linear-to-physical translation for the four paging modes, with the software
    TLB of [MmuTlb].  The physical bus is the class [MemoryBus]; the walks read
    paging-structure entries from it and write Accessed/Dirty bits back.  This
    file holds the definitions; [MmuSpec], [MmuWalk] and [MmuRefine] hold
    the theorems.

    The crate's [stats] feature (off by default) is not part of the model.  The
    [AERO_COW_FORCE_RW] environment variable, which [walk_long4] consults, is
    the argument [env]. *)

From S2P Require Import Prelude MmuTlb.

(** ** The physical memory interface

    The methods of the [MemoryBus] trait that page walking uses.  Reads are
    pure: paging structures live in RAM, not in device windows. *)
Class MemoryBus (M : Type) := {
  read_u32 : M -> Z -> Z;
  read_u64 : M -> Z -> Z;
  write_u32 : M -> Z -> Z -> M;
  write_u64 : M -> Z -> Z -> M;
}.

(** What page walking relies on: values are in range; an aligned write changes
    no other aligned word; in the written word, every bit reads back as written
    or as it was (a bus drops the bytes that fall on ROM or open bus). *)
Class PagingMemory (M : Type) `{MemoryBus M} := {
  read_u32_range : forall m a, uint 32 (read_u32 m a);
  read_u64_range : forall m a, uint 64 (read_u64 m a);
  write_u32_same : forall m a v i, uint 64 a -> uint 32 v -> 0 <= i ->
    Z.testbit (read_u32 (write_u32 m a v) a) i = Z.testbit v i \/
    Z.testbit (read_u32 (write_u32 m a v) a) i = Z.testbit (read_u32 m a) i;
  write_u64_same : forall m a v i, uint 64 a -> uint 64 v -> 0 <= i ->
    Z.testbit (read_u64 (write_u64 m a v) a) i = Z.testbit v i \/
    Z.testbit (read_u64 (write_u64 m a v) a) i = Z.testbit (read_u64 m a) i;
  write_u32_other : forall m a b v, uint 64 a -> uint 64 b ->
    a mod 4 = 0 -> b mod 4 = 0 -> a <> b -> uint 32 v ->
    read_u32 (write_u32 m a v) b = read_u32 m b;
  write_u64_other : forall m a b v, uint 64 a -> uint 64 b ->
    a mod 8 = 0 -> b mod 8 = 0 -> a <> b -> uint 64 v ->
    read_u64 (write_u64 m a v) b = read_u64 m b;
}.

(** ** Data *)
Inductive AccessType := Read | Write | Execute.

#[export] Instance AccessType_eq_dec : EqDecision AccessType.
Proof. solve_decision. Defined.

Definition is_write (a : AccessType) : bool := match a with Write => true | _ => false end.
Definition is_execute (a : AccessType) : bool := match a with Execute => true | _ => false end.

Module PageFault.
Record t := new { addr : Z; error_code : Z }.

#[global] Instance eq_dec : EqDecision t.
Proof. solve_decision. Defined.
End PageFault.

Inductive TranslateFault :=
| PageFaultAt (pf : PageFault.t)
| NonCanonical (vaddr : Z).

Inductive PagingMode := Disabled | Legacy32 | Pae | Long4.

#[export] Instance PagingMode_eq_dec : EqDecision PagingMode.
Proof. solve_decision. Defined.

Inductive EntryKind64 := Pml4e | PdpteLong | PdeLong | PteLong | PdptePae | PdePae | PtePae.

#[export] Instance EntryKind64_eq_dec : EqDecision EntryKind64.
Proof. solve_decision. Defined.

Module EntryAccessContext.
Record t := mk { vaddr : Z; access : AccessType; is_user : bool }.
End EntryAccessContext.

Abbreviation CR0_WP := (1 <<< 16) (only parsing).
Abbreviation CR0_PG := (1 <<< 31) (only parsing).
Abbreviation CR4_PSE := (1 <<< 4) (only parsing).
Abbreviation CR4_PAE := (1 <<< 5) (only parsing).
Abbreviation CR4_PGE := (1 <<< 7) (only parsing).
Abbreviation CR4_PCIDE := (1 <<< 17) (only parsing).
Abbreviation EFER_LME := (1 <<< 8) (only parsing).
Abbreviation EFER_NXE := (1 <<< 11) (only parsing).
Abbreviation PTE_P := (1 <<< 0) (only parsing).
Abbreviation PTE_RW := (1 <<< 1) (only parsing).
Abbreviation PTE_US := (1 <<< 2) (only parsing).
Abbreviation PTE_A := (1 <<< 5) (only parsing).
Abbreviation PTE_D := (1 <<< 6) (only parsing).
Abbreviation PTE_PS := (1 <<< 7) (only parsing).
Abbreviation PTE_G := (1 <<< 8) (only parsing).
Abbreviation PTE_P64 := (1 <<< 0) (only parsing).
Abbreviation PTE_RW64 := (1 <<< 1) (only parsing).
Abbreviation PTE_US64 := (1 <<< 2) (only parsing).
Abbreviation PTE_A64 := (1 <<< 5) (only parsing).
Abbreviation PTE_D64 := (1 <<< 6) (only parsing).
Abbreviation PTE_PS64 := (1 <<< 7) (only parsing).
Abbreviation PTE_G64 := (1 <<< 8) (only parsing).
Abbreviation PTE_NX := (1 <<< 63) (only parsing).
Abbreviation LEGACY32_4MB_RESERVED_MASK := (0x003fe000) (only parsing).

(** #PF error code. *)
Definition pf_error_code (present : bool) (access : AccessType) (is_user rsvd : bool) : Z :=
  let code := 0 in
  let code := if present then code ||| (1 <<< 0) else code in
  let code := if is_write access then code ||| (1 <<< 1) else code in
  let code := if is_user then code ||| (1 <<< 2) else code in
  let code := if rsvd then code ||| (1 <<< 3) else code in
  let code := if is_execute access then code ||| (1 <<< 4) else code in
  code.

Definition is_canonical_48 (vaddr : Z) : bool :=
  (wrapping_add 64 (vaddr >>> 47) 1 &&& 0x1fffe) =? 0.

(** The value of an environment variable, when it is set. *)
Inductive env_value :=
| Unicode (v : string)
| NotUnicode.

Definition cow_force_rw_enabled (env : option env_value) : bool :=
  match env with
  | Some (Unicode v) =>
      bool_decide (v = "1"%string) || bool_decide (v = "true"%string)
      || bool_decide (v = "on"%string) || bool_decide (v = "yes"%string)
      || bool_decide (v = ""%string)
  | Some NotUnicode => true
  | None => false
  end.

(** ** State *)
Module Mmu.
Record t := mk {
  cr0 : Z;
  cr2 : Z;
  cr3 : Z;
  cr4 : Z;
  efer : Z;
  mode : PagingMode;
  max_phys_bits : Z;
  tlb_page_sizes : TlbLookupPageSizes;
  pcid_enabled : bool;
  pcid : Z;
  tlb : Tlb.t;
}.

Definition with_tlb (m : t) (tlb' : Tlb.t) : t :=
  mk m.(cr0) m.(cr2) m.(cr3) m.(cr4) m.(efer) m.(mode) m.(max_phys_bits)
    m.(tlb_page_sizes) m.(pcid_enabled) m.(pcid) tlb'.
Definition with_cr2 (m : t) (v : Z) : t :=
  mk m.(cr0) v m.(cr3) m.(cr4) m.(efer) m.(mode) m.(max_phys_bits)
    m.(tlb_page_sizes) m.(pcid_enabled) m.(pcid) m.(tlb).
(** Assignments to the control registers, before the cached state follows. *)
Definition with_regs (m : t) (cr0' cr3' cr4' efer' : Z) : t :=
  mk cr0' m.(cr2) cr3' cr4' efer' m.(mode) m.(max_phys_bits)
    m.(tlb_page_sizes) m.(pcid_enabled) m.(pcid) m.(tlb).
Definition with_max_phys_bits (m : t) (bits : Z) : t :=
  mk m.(cr0) m.(cr2) m.(cr3) m.(cr4) m.(efer) m.(mode) bits
    m.(tlb_page_sizes) m.(pcid_enabled) m.(pcid) m.(tlb).

Definition update_cached_state (m : t) : t :=
  let mode :=
    if (m.(cr0) &&& CR0_PG) =? 0 then Disabled
    else if (m.(cr4) &&& CR4_PAE) =? 0 then Legacy32
    else if nz (m.(efer) &&& EFER_LME) then Long4
    else Pae in
  let tlb_page_sizes :=
    if (m.(cr4) &&& CR4_PSE) =? 0 then Only4K
    else match mode with
         | Disabled => Only4K
         | Legacy32 => Size4MAnd4K
         | Pae => Size2MAnd4K
         | Long4 => Size1G2MAnd4K
         end in
  let pcid_enabled := nz (m.(cr4) &&& CR4_PCIDE) in
  let pcid := if pcid_enabled then m.(cr3) &&& 0xfff else 0 in
  mk m.(cr0) m.(cr2) m.(cr3) m.(cr4) m.(efer) mode m.(max_phys_bits)
    tlb_page_sizes pcid_enabled pcid m.(tlb).

Definition new : t :=
  update_cached_state (mk 0 0 0 0 0 Disabled 52 Only4K false 0 Tlb.new).

Definition cr4_pse (m : t) : bool := nz (m.(cr4) &&& CR4_PSE).
Definition cr4_pge (m : t) : bool := nz (m.(cr4) &&& CR4_PGE).
Definition current_pcid (m : t) : Z := m.(pcid).
Definition cr3_no_flush (m : t) : bool :=
  m.(pcid_enabled) && nz ((m.(cr3) >>> 63) &&& 1).
Definition nx_enabled (m : t) : bool := nz (m.(efer) &&& EFER_NXE).
Definition wp_enabled (m : t) : bool := nz (m.(cr0) &&& CR0_WP).

(** The assertion [(1..=52).contains(&bits)] is the [None] case. *)
Definition set_max_phys_bits (m : t) (bits : Z) : option t :=
  if (1 <=? bits) && (bits <=? 52) then
    Some (if negb (m.(max_phys_bits) =? bits)
          then with_tlb (with_max_phys_bits m bits) (Tlb.flush_all m.(tlb))
          else m)
  else None.

Definition set_cr0 (m : t) (value : Z) : t :=
  let old_pg := nz (m.(cr0) &&& CR0_PG) in
  let m := with_regs m value m.(cr3) m.(cr4) m.(efer) in
  let new_pg := nz (m.(cr0) &&& CR0_PG) in
  let m := if xorb old_pg new_pg then with_tlb m (Tlb.flush_all m.(tlb)) else m in
  update_cached_state m.

Definition set_cr3 (m : t) (value : Z) : t :=
  let m := with_regs m m.(cr0) value m.(cr4) m.(efer) in
  let m := update_cached_state m in
  let pge := cr4_pge m in
  let pcid_enabled := m.(pcid_enabled) in
  let new_pcid := current_pcid m in
  let no_flush := cr3_no_flush m in
  with_tlb m (Tlb.on_cr3_write m.(tlb) pge pcid_enabled new_pcid no_flush).

Abbreviation CR4_TLB_BITS := (CR4_PAE ||| CR4_PSE ||| CR4_PGE ||| CR4_PCIDE) (only parsing).

Definition set_cr4 (m : t) (value : Z) : t :=
  let old_relevant := m.(cr4) &&& CR4_TLB_BITS in
  let m := with_regs m m.(cr0) m.(cr3) value m.(efer) in
  let new_relevant := m.(cr4) &&& CR4_TLB_BITS in
  let m := if negb (old_relevant =? new_relevant)
           then with_tlb m (Tlb.flush_all m.(tlb)) else m in
  update_cached_state m.

Definition set_efer (m : t) (value : Z) : t :=
  let old_relevant := m.(efer) &&& (EFER_LME ||| EFER_NXE) in
  let m := with_regs m m.(cr0) m.(cr3) m.(cr4) value in
  let new_relevant := m.(efer) &&& (EFER_LME ||| EFER_NXE) in
  let m := if negb (old_relevant =? new_relevant)
           then with_tlb m (Tlb.flush_all m.(tlb)) else m in
  update_cached_state m.

Definition invlpg (m : t) (vaddr : Z) : t :=
  if m.(pcid_enabled)
  then with_tlb m (Tlb.invalidate_address_pcid m.(tlb) vaddr (current_pcid m) true)
  else with_tlb m (Tlb.invalidate_address_all m.(tlb) vaddr).

Definition invpcid (m : t) (pcid : Z) (kind : InvpcidType) : t :=
  with_tlb m (Tlb.invpcid m.(tlb) pcid kind).

(** ** Permission and format checks *)
Definition phys_addr_mask (m : t) : Z :=
  if m.(max_phys_bits) =? 64 then unot 64 0 else (1 <<< m.(max_phys_bits)) - 1.

Definition check_perms (m : t) (vaddr : Z) (user_ok writable_ok nx : bool)
    (access : AccessType) (is_user : bool) : result unit PageFault.t :=
  if is_user && negb user_ok then
    Err (PageFault.new vaddr (pf_error_code true access is_user false))
  else if is_write access && negb writable_ok && (is_user || wp_enabled m) then
    Err (PageFault.new vaddr (pf_error_code true access is_user false))
  else if is_execute access && nx then
    Err (PageFault.new vaddr (pf_error_code true access is_user false))
  else Ok tt.

Definition page_fault_not_present (vaddr : Z) (access : AccessType) (is_user : bool) : PageFault.t :=
  PageFault.new vaddr (pf_error_code false access is_user false).
Definition page_fault_rsvd (vaddr : Z) (access : AccessType) (is_user : bool) : PageFault.t :=
  PageFault.new vaddr (pf_error_code true access is_user true).

Definition IGNORED_AVL_HIGH_MASK : Z := 0x7ff <<< 52.

Definition has_reserved_bits64 (m : t) (entry : Z) (kind : EntryKind64) : bool :=
  if (entry &&& PTE_P64) =? 0 then false else
  let nx_enabled := nx_enabled m in
  if negb nx_enabled && nz (entry &&& PTE_NX) then true else
  if match kind with
     | Pml4e | PdptePae => nz (entry &&& PTE_PS64)
     | _ => false
     end then true else
  let addr_mask := phys_addr_mask m in
  if bool_decide (kind = PdptePae) then
    let allowed_flags := PTE_P64 ||| (1 <<< 3) ||| (1 <<< 4) ||| (0x7 <<< 9) in
    let allowed_addr := addr_mask &&& unot 64 0xfff in
    let allowed := allowed_flags ||| allowed_addr in
    let allowed := allowed ||| (0x7FF <<< 52) in
    let allowed := if nx_enabled then allowed ||| PTE_NX else allowed in
    nz (entry &&& unot 64 allowed)
  else
  let page_align :=
    match kind with
    | Pml4e => 0x1000
    | PdptePae => 0x1000
    | PdpteLong => if nz (entry &&& PTE_PS64) then bytes Size1G else 0x1000
    | PdePae | PdeLong => if nz (entry &&& PTE_PS64) then bytes Size2M else 0x1000
    | PtePae | PteLong => 0x1000
    end in
  let allowed_addr := addr_mask &&& unot 64 (page_align - 1) in
  let allowed := allowed_addr ||| 0x1fff in
  let allowed := if negb (bool_decide (kind = PdptePae))
                 then allowed ||| IGNORED_AVL_HIGH_MASK else allowed in
  let allowed := if nx_enabled then allowed ||| PTE_NX else allowed in
  nz (entry &&& unot 64 allowed).

(** ** Page walks *)
Section Walk.
Context {M : Type} `{MemoryBus M}.
Implicit Types (b : M) (m : t).

(** Walks return their result and the updated memory. *)
Definition check_entry32 b (entry_addr entry : Z) : option Z * M :=
  if (entry &&& PTE_P) =? 0 then (None, b)
  else if (entry &&& PTE_A) =? 0 then
    let entry := entry ||| PTE_A in
    (Some entry, write_u32 b entry_addr (wrap 32 entry))
  else (Some entry, b).

Definition check_entry32_probe (entry : Z) : option Z :=
  if (entry &&& PTE_P) =? 0 then None else Some entry.

Definition check_entry64 m b (entry_addr entry : Z) (ctx : EntryAccessContext.t)
    (kind : EntryKind64) : result (option Z) PageFault.t * M :=
  if (entry &&& PTE_P64) =? 0 then (Ok None, b)
  else if has_reserved_bits64 m entry kind then
    (Err (page_fault_rsvd ctx.(EntryAccessContext.vaddr) ctx.(EntryAccessContext.access)
            ctx.(EntryAccessContext.is_user)), b)
  else if negb (bool_decide (kind = PdptePae)) && ((entry &&& PTE_A64) =? 0) then
    let entry := entry ||| PTE_A64 in
    (Ok (Some entry), write_u64 b entry_addr entry)
  else (Ok (Some entry), b).

Definition check_entry64_probe m (entry : Z) (ctx : EntryAccessContext.t)
    (kind : EntryKind64) : result (option Z) PageFault.t :=
  if (entry &&& PTE_P64) =? 0 then Ok None
  else if has_reserved_bits64 m entry kind then
    Err (page_fault_rsvd ctx.(EntryAccessContext.vaddr) ctx.(EntryAccessContext.access)
           ctx.(EntryAccessContext.is_user))
  else Ok (Some entry).

(** The end of every walk: permission check, Dirty on a write, the TLB entry
    and the physical address.  [pbase] is the frame, [user_ok], [writable_ok]
    and [nx] the accumulated rights, [leaf64] the entry width. *)
Definition finish_leaf m b (vaddr : Z) (access : AccessType) (is_user : bool)
    (leaf64 : bool) (leaf_addr leaf pbase : Z) (page_size : PageSize)
    (user_ok writable_ok nx : bool) : result (TlbEntry.t * Z) PageFault.t * M :=
  match check_perms m vaddr user_ok writable_ok nx access is_user with
  | Err pf => (Err pf, b)
  | Ok _ =>
      let new_leaf := if is_write access then leaf ||| PTE_D64 else leaf in
      let b := if negb (new_leaf =? leaf) then
                 if leaf64 then write_u64 b leaf_addr new_leaf
                 else write_u32 b leaf_addr (wrap 32 new_leaf)
               else b in
      let vbase := vaddr &&& unot 64 (bytes page_size - 1) in
      let global := cr4_pge m && nz (leaf &&& PTE_G64) in
      let dirty := nz (new_leaf &&& PTE_D64) in
      let entry := TlbEntry.new vbase pbase page_size (current_pcid m)
                     (TlbEntryAttributes.mk user_ok writable_ok nx global leaf_addr leaf64 dirty) in
      let paddr := pbase + (vaddr - vbase) in
      (Ok (entry, paddr), b)
  end.

Definition walk_legacy32 m b (vaddr : Z) (access : AccessType) (is_user : bool) :
    result (TlbEntry.t * Z) PageFault.t * M :=
  let pd_base := (m.(cr3) &&& 0xffffffff) &&& unot 64 0xfff in
  let pd_index := (vaddr >>> 22) &&& 0x3ff in
  let pde_addr := pd_base + pd_index * 4 in
  let pde_raw := read_u32 b pde_addr in
  if (pde_raw &&& PTE_P) =? 0 then (Err (page_fault_not_present vaddr access is_user), b) else
  let pde_ps := nz (pde_raw &&& PTE_PS) in
  if pde_ps && negb (cr4_pse m) then (Err (page_fault_rsvd vaddr access is_user), b) else
  if pde_ps && nz (pde_raw &&& LEGACY32_4MB_RESERVED_MASK) then
    (Err (page_fault_rsvd vaddr access is_user), b) else
  match check_entry32 b pde_addr pde_raw with
  | (None, b) => (* [expect]: the present bit was tested above *)
      (Err (page_fault_not_present vaddr access is_user), b)
  | (Some pde, b) =>
      if pde_ps then
        let user_ok := nz (pde &&& PTE_US) in
        let writable_ok := nz (pde &&& PTE_RW) in
        finish_leaf m b vaddr access is_user false pde_addr pde (pde &&& 0xffc00000) Size4M
          user_ok writable_ok false
      else
        let pt_base := pde &&& 0xfffff000 in
        let pt_index := (vaddr >>> 12) &&& 0x3ff in
        let pte_addr := pt_base + pt_index * 4 in
        let pte_raw := read_u32 b pte_addr in
        match check_entry32 b pte_addr pte_raw with
        | (None, b) => (Err (page_fault_not_present vaddr access is_user), b)
        | (Some pte, b) =>
            let user_ok := nz (pde &&& PTE_US) && nz (pte &&& PTE_US) in
            let writable_ok := nz (pde &&& PTE_RW) && nz (pte &&& PTE_RW) in
            finish_leaf m b vaddr access is_user false pte_addr pte (pte &&& 0xfffff000) Size4K
              user_ok writable_ok false
        end
  end.

(** [pbase + (vaddr - vbase)] after a successful permission check. *)
Definition probe_leaf m (vaddr : Z) (access : AccessType) (is_user : bool) (pbase : Z)
    (page_size : PageSize) (user_ok writable_ok nx : bool) : result Z PageFault.t :=
  let? _ := check_perms m vaddr user_ok writable_ok nx access is_user in
  let vbase := vaddr &&& unot 64 (bytes page_size - 1) in
  Ok (pbase + (vaddr - vbase)).

Definition walk_legacy32_probe m b (vaddr : Z) (access : AccessType) (is_user : bool) :
    result Z PageFault.t :=
  let pd_base := (m.(cr3) &&& 0xffffffff) &&& unot 64 0xfff in
  let pd_index := (vaddr >>> 22) &&& 0x3ff in
  let pde_addr := pd_base + pd_index * 4 in
  let pde_raw := read_u32 b pde_addr in
  if (pde_raw &&& PTE_P) =? 0 then Err (page_fault_not_present vaddr access is_user) else
  let pde_ps := nz (pde_raw &&& PTE_PS) in
  if pde_ps then
    if negb (cr4_pse m) then Err (page_fault_rsvd vaddr access is_user) else
    if nz (pde_raw &&& LEGACY32_4MB_RESERVED_MASK) then
      Err (page_fault_rsvd vaddr access is_user) else
    let pde := pde_raw in
    let user_ok := nz (pde &&& PTE_US) in
    let writable_ok := nz (pde &&& PTE_RW) in
    probe_leaf m vaddr access is_user (pde &&& 0xffc00000) Size4M user_ok writable_ok false
  else
    let pde := pde_raw in
    let pt_base := pde &&& 0xfffff000 in
    let pt_index := (vaddr >>> 12) &&& 0x3ff in
    let pte_addr := pt_base + pt_index * 4 in
    let pte_raw := read_u32 b pte_addr in
    match check_entry32_probe pte_raw with
    | None => Err (page_fault_not_present vaddr access is_user)
    | Some pte =>
        let user_ok := nz (pde &&& PTE_US) && nz (pte &&& PTE_US) in
        let writable_ok := nz (pde &&& PTE_RW) && nz (pte &&& PTE_RW) in
        probe_leaf m vaddr access is_user (pte &&& 0xfffff000) Size4K user_ok writable_ok false
    end.

(** [match self.check_entry64(..)? { Some(v) => v, None => return not-present }]. *)
Definition with_entry64 {A} m b (ctx : EntryAccessContext.t) (addr : Z) (kind : EntryKind64)
    (k : M -> Z -> result A PageFault.t * M) : result A PageFault.t * M :=
  match check_entry64 m b addr (read_u64 b addr) ctx kind with
  | (Err pf, b) => (Err pf, b)
  | (Ok None, b) =>
      (Err (page_fault_not_present ctx.(EntryAccessContext.vaddr)
              ctx.(EntryAccessContext.access) ctx.(EntryAccessContext.is_user)), b)
  | (Ok (Some v), b) => k b v
  end.

Definition with_entry64_probe {A} m b (ctx : EntryAccessContext.t) (addr : Z)
    (kind : EntryKind64) (k : Z -> result A PageFault.t) : result A PageFault.t :=
  match check_entry64_probe m (read_u64 b addr) ctx kind with
  | Err pf => Err pf
  | Ok None =>
      Err (page_fault_not_present ctx.(EntryAccessContext.vaddr)
             ctx.(EntryAccessContext.access) ctx.(EntryAccessContext.is_user))
  | Ok (Some v) => k v
  end.

Definition walk_pae m b (vaddr : Z) (access : AccessType) (is_user : bool) :
    result (TlbEntry.t * Z) PageFault.t * M :=
  let nx_enabled := nx_enabled m in
  let addr_mask := phys_addr_mask m in
  let ctx := EntryAccessContext.mk vaddr access is_user in
  let pdpt_base := (m.(cr3) &&& 0xffffffff) &&& unot 64 0x1f in
  let pdpt_index := (vaddr >>> 30) &&& 0x3 in
  let pdpte_addr := pdpt_base + pdpt_index * 8 in
  with_entry64 m b ctx pdpte_addr PdptePae (fun b pdpte =>
  let eff_user := true in
  let eff_writable := true in
  let eff_nx := nx_enabled && nz (pdpte &&& PTE_NX) in
  let pd_base := (pdpte &&& addr_mask) &&& unot 64 0xfff in
  let pd_index := (vaddr >>> 21) &&& 0x1ff in
  let pde_addr := pd_base + pd_index * 8 in
  with_entry64 m b ctx pde_addr PdePae (fun b pde =>
  let eff_user := eff_user && nz (pde &&& PTE_US64) in
  let eff_writable := eff_writable && nz (pde &&& PTE_RW64) in
  let eff_nx := eff_nx || (nx_enabled && nz (pde &&& PTE_NX)) in
  if nz (pde &&& PTE_PS64) then
    let pbase := (pde &&& addr_mask) &&& unot 64 (bytes Size2M - 1) in
    finish_leaf m b vaddr access is_user true pde_addr pde pbase Size2M
      eff_user eff_writable eff_nx
  else
  let pt_base := (pde &&& addr_mask) &&& unot 64 0xfff in
  let pt_index := (vaddr >>> 12) &&& 0x1ff in
  let pte_addr := pt_base + pt_index * 8 in
  with_entry64 m b ctx pte_addr PtePae (fun b pte =>
  let eff_user := eff_user && nz (pte &&& PTE_US64) in
  let eff_writable := eff_writable && nz (pte &&& PTE_RW64) in
  let eff_nx := eff_nx || (nx_enabled && nz (pte &&& PTE_NX)) in
  let pbase := (pte &&& addr_mask) &&& unot 64 0xfff in
  finish_leaf m b vaddr access is_user true pte_addr pte pbase Size4K
    eff_user eff_writable eff_nx))).

Definition walk_pae_probe m b (vaddr : Z) (access : AccessType) (is_user : bool) :
    result Z PageFault.t :=
  let nx_enabled := nx_enabled m in
  let addr_mask := phys_addr_mask m in
  let ctx := EntryAccessContext.mk vaddr access is_user in
  let pdpt_base := (m.(cr3) &&& 0xffffffff) &&& unot 64 0x1f in
  let pdpt_index := (vaddr >>> 30) &&& 0x3 in
  let pdpte_addr := pdpt_base + pdpt_index * 8 in
  with_entry64_probe m b ctx pdpte_addr PdptePae (fun pdpte =>
  let eff_user := true in
  let eff_writable := true in
  let eff_nx := nx_enabled && nz (pdpte &&& PTE_NX) in
  let pd_base := (pdpte &&& addr_mask) &&& unot 64 0xfff in
  let pd_index := (vaddr >>> 21) &&& 0x1ff in
  let pde_addr := pd_base + pd_index * 8 in
  with_entry64_probe m b ctx pde_addr PdePae (fun pde =>
  let eff_user := eff_user && nz (pde &&& PTE_US64) in
  let eff_writable := eff_writable && nz (pde &&& PTE_RW64) in
  let eff_nx := eff_nx || (nx_enabled && nz (pde &&& PTE_NX)) in
  if nz (pde &&& PTE_PS64) then
    let pbase := (pde &&& addr_mask) &&& unot 64 (bytes Size2M - 1) in
    probe_leaf m vaddr access is_user pbase Size2M eff_user eff_writable eff_nx
  else
  let pt_base := (pde &&& addr_mask) &&& unot 64 0xfff in
  let pt_index := (vaddr >>> 12) &&& 0x1ff in
  let pte_addr := pt_base + pt_index * 8 in
  with_entry64_probe m b ctx pte_addr PtePae (fun pte =>
  let eff_user := eff_user && nz (pte &&& PTE_US64) in
  let eff_writable := eff_writable && nz (pte &&& PTE_RW64) in
  let eff_nx := eff_nx || (nx_enabled && nz (pte &&& PTE_NX)) in
  let pbase := (pte &&& addr_mask) &&& unot 64 0xfff in
  probe_leaf m vaddr access is_user pbase Size4K eff_user eff_writable eff_nx))).

(** The [AERO_COW_FORCE_RW] block of [walk_long4]: give the leaf and the
    intermediate entries RW before a user write. *)
Definition cow_upgrade (env : option env_value) b (access : AccessType) (is_user : bool)
    (eff_writable : bool) (pml4e_addr pml4e pdpte_addr pdpte pde_addr pde pte_addr pte : Z) :
    Z * bool * M :=
  if is_write access && is_user && negb eff_writable && nz (pte &&& PTE_P64)
     && nz (pte &&& PTE_US64) && cow_force_rw_enabled env then
    let '(pte, b) :=
      if (pte &&& PTE_RW64) =? 0
      then let pte := pte ||| PTE_RW64 in (pte, write_u64 b pte_addr pte) else (pte, b) in
    let b := if (pml4e &&& PTE_RW64) =? 0 then write_u64 b pml4e_addr (pml4e ||| PTE_RW64) else b in
    let b := if (pdpte &&& PTE_RW64) =? 0 then write_u64 b pdpte_addr (pdpte ||| PTE_RW64) else b in
    let b := if (pde &&& PTE_RW64) =? 0 then write_u64 b pde_addr (pde ||| PTE_RW64) else b in
    (pte, true, b)
  else (pte, eff_writable, b).

Definition walk_long4 (env : option env_value) m b (vaddr : Z) (access : AccessType)
    (is_user : bool) : result (TlbEntry.t * Z) PageFault.t * M :=
  let nx_enabled := nx_enabled m in
  let addr_mask := phys_addr_mask m in
  let ctx := EntryAccessContext.mk vaddr access is_user in
  let pml4_base := (m.(cr3) &&& addr_mask) &&& unot 64 0xfff in
  let pml4_index := (vaddr >>> 39) &&& 0x1ff in
  let pml4e_addr := pml4_base + pml4_index * 8 in
  with_entry64 m b ctx pml4e_addr Pml4e (fun b pml4e =>
  let eff_user := nz (pml4e &&& PTE_US64) in
  let eff_writable := nz (pml4e &&& PTE_RW64) in
  let eff_nx := nx_enabled && nz (pml4e &&& PTE_NX) in
  let pdpt_base := (pml4e &&& addr_mask) &&& unot 64 0xfff in
  let pdpt_index := (vaddr >>> 30) &&& 0x1ff in
  let pdpte_addr := pdpt_base + pdpt_index * 8 in
  with_entry64 m b ctx pdpte_addr PdpteLong (fun b pdpte =>
  let eff_user := eff_user && nz (pdpte &&& PTE_US64) in
  let eff_writable := eff_writable && nz (pdpte &&& PTE_RW64) in
  let eff_nx := eff_nx || (nx_enabled && nz (pdpte &&& PTE_NX)) in
  if nz (pdpte &&& PTE_PS64) then
    let pbase := (pdpte &&& addr_mask) &&& unot 64 (bytes Size1G - 1) in
    finish_leaf m b vaddr access is_user true pdpte_addr pdpte pbase Size1G
      eff_user eff_writable eff_nx
  else
  let pd_base := (pdpte &&& addr_mask) &&& unot 64 0xfff in
  let pd_index := (vaddr >>> 21) &&& 0x1ff in
  let pde_addr := pd_base + pd_index * 8 in
  with_entry64 m b ctx pde_addr PdeLong (fun b pde =>
  let eff_user := eff_user && nz (pde &&& PTE_US64) in
  let eff_writable := eff_writable && nz (pde &&& PTE_RW64) in
  let eff_nx := eff_nx || (nx_enabled && nz (pde &&& PTE_NX)) in
  if nz (pde &&& PTE_PS64) then
    let pbase := (pde &&& addr_mask) &&& unot 64 (bytes Size2M - 1) in
    finish_leaf m b vaddr access is_user true pde_addr pde pbase Size2M
      eff_user eff_writable eff_nx
  else
  let pt_base := (pde &&& addr_mask) &&& unot 64 0xfff in
  let pt_index := (vaddr >>> 12) &&& 0x1ff in
  let pte_addr := pt_base + pt_index * 8 in
  with_entry64 m b ctx pte_addr PteLong (fun b pte =>
  let eff_user := eff_user && nz (pte &&& PTE_US64) in
  let eff_writable := eff_writable && nz (pte &&& PTE_RW64) in
  let eff_nx := eff_nx || (nx_enabled && nz (pte &&& PTE_NX)) in
  let '(pte, eff_writable, b) :=
    cow_upgrade env b access is_user eff_writable
      pml4e_addr pml4e pdpte_addr pdpte pde_addr pde pte_addr pte in
  let pbase := (pte &&& addr_mask) &&& unot 64 0xfff in
  finish_leaf m b vaddr access is_user true pte_addr pte pbase Size4K
    eff_user eff_writable eff_nx)))).

Definition walk_long4_probe m b (vaddr : Z) (access : AccessType) (is_user : bool) :
    result Z PageFault.t :=
  let nx_enabled := nx_enabled m in
  let addr_mask := phys_addr_mask m in
  let ctx := EntryAccessContext.mk vaddr access is_user in
  let pml4_base := (m.(cr3) &&& addr_mask) &&& unot 64 0xfff in
  let pml4_index := (vaddr >>> 39) &&& 0x1ff in
  let pml4e_addr := pml4_base + pml4_index * 8 in
  with_entry64_probe m b ctx pml4e_addr Pml4e (fun pml4e =>
  let eff_user := nz (pml4e &&& PTE_US64) in
  let eff_writable := nz (pml4e &&& PTE_RW64) in
  let eff_nx := nx_enabled && nz (pml4e &&& PTE_NX) in
  let pdpt_base := (pml4e &&& addr_mask) &&& unot 64 0xfff in
  let pdpt_index := (vaddr >>> 30) &&& 0x1ff in
  let pdpte_addr := pdpt_base + pdpt_index * 8 in
  with_entry64_probe m b ctx pdpte_addr PdpteLong (fun pdpte =>
  let eff_user := eff_user && nz (pdpte &&& PTE_US64) in
  let eff_writable := eff_writable && nz (pdpte &&& PTE_RW64) in
  let eff_nx := eff_nx || (nx_enabled && nz (pdpte &&& PTE_NX)) in
  if nz (pdpte &&& PTE_PS64) then
    let pbase := (pdpte &&& addr_mask) &&& unot 64 (bytes Size1G - 1) in
    probe_leaf m vaddr access is_user pbase Size1G eff_user eff_writable eff_nx
  else
  let pd_base := (pdpte &&& addr_mask) &&& unot 64 0xfff in
  let pd_index := (vaddr >>> 21) &&& 0x1ff in
  let pde_addr := pd_base + pd_index * 8 in
  with_entry64_probe m b ctx pde_addr PdeLong (fun pde =>
  let eff_user := eff_user && nz (pde &&& PTE_US64) in
  let eff_writable := eff_writable && nz (pde &&& PTE_RW64) in
  let eff_nx := eff_nx || (nx_enabled && nz (pde &&& PTE_NX)) in
  if nz (pde &&& PTE_PS64) then
    let pbase := (pde &&& addr_mask) &&& unot 64 (bytes Size2M - 1) in
    probe_leaf m vaddr access is_user pbase Size2M eff_user eff_writable eff_nx
  else
  let pt_base := (pde &&& addr_mask) &&& unot 64 0xfff in
  let pt_index := (vaddr >>> 12) &&& 0x1ff in
  let pte_addr := pt_base + pt_index * 8 in
  with_entry64_probe m b ctx pte_addr PteLong (fun pte =>
  let eff_user := eff_user && nz (pte &&& PTE_US64) in
  let eff_writable := eff_writable && nz (pte &&& PTE_RW64) in
  let eff_nx := eff_nx || (nx_enabled && nz (pte &&& PTE_NX)) in
  let pbase := (pte &&& addr_mask) &&& unot 64 0xfff in
  probe_leaf m vaddr access is_user pbase Size4K eff_user eff_writable eff_nx)))).

(** ** Translation *)

(** Linear-address check shared by [translate] and [translate_probe]: the
    early return with paging off, truncation to 32 bits, or the canonical
    check. *)
Definition linear_address m (vaddr : Z) : result Z TranslateFault :=
  match m.(mode) with
  | Disabled => Ok (vaddr &&& 0xffffffff)
  | Legacy32 | Pae => Ok (wrap 32 vaddr)
  | Long4 => if negb (is_canonical_48 vaddr) then Err (NonCanonical vaddr) else Ok vaddr
  end.

(** The page walk after a TLB miss (or a write rewalk). *)
Definition walk (env : option env_value) m b (vaddr : Z) (access : AccessType)
    (is_user : bool) : result (TlbEntry.t * Z) PageFault.t * M :=
  match m.(mode) with
  | Disabled => (* unreachable!() *) (Err (page_fault_not_present vaddr access is_user), b)
  | Legacy32 => walk_legacy32 m b vaddr access is_user
  | Pae => walk_pae m b vaddr access is_user
  | Long4 => walk_long4 env m b vaddr access is_user
  end.

Definition walk_and_fill (env : option env_value) m b (vaddr : Z) (access : AccessType)
    (is_user : bool) : result Z TranslateFault * t * M :=
  match walk env m b vaddr access is_user with
  | (Ok (entry, paddr), b) =>
      (Ok paddr, with_tlb m (Tlb.insert m.(tlb) (is_execute access) entry), b)
  | (Err pf, b) =>
      (Err (PageFaultAt pf), with_cr2 m pf.(PageFault.addr), b)
  end.

(** A permission fault on a TLB hit: CR2 is set. *)
Definition hit_fault m b (vaddr : Z) (access : AccessType) (is_user : bool) :
    result Z TranslateFault * t * M :=
  let pf := PageFault.new vaddr (pf_error_code true access is_user false) in
  (Err (PageFaultAt pf), with_cr2 m pf.(PageFault.addr), b).

(** The write case of a TLB hit: a denied write drops the entry and walks
    again; an allowed one sets Dirty in the leaf on the first write. *)
Definition write_hit (env : option env_value) m b (hit : TlbHit.t) (vaddr : Z)
    (is_user : bool) : result Z TranslateFault * t * M :=
  let entry := hit.(TlbHit.entry) in
  let need_rewalk :=
    if is_user then negb (TlbEntry.user entry) || negb (TlbEntry.writable entry)
    else negb (TlbEntry.writable entry) && wp_enabled m in
  if need_rewalk then
    let m := with_tlb m (Tlb.invalidate_address_all m.(tlb) vaddr) in
    walk_and_fill env m b vaddr Write is_user
  else
    let paddr := TlbEntry.translate entry vaddr in
    if negb (TlbEntry.dirty entry) then
      let leaf_addr := entry.(TlbEntry.leaf_addr) in
      let b :=
        if TlbEntry.leaf_is_64 entry then
          write_u64 b leaf_addr (read_u64 b leaf_addr ||| PTE_D64)
        else
          write_u32 b leaf_addr (read_u32 b leaf_addr ||| wrap 32 PTE_D) in
      let m := with_tlb m (Tlb.set_dirty_slot m.(tlb) hit.(TlbHit.set) hit.(TlbHit.way)) in
      (Ok paddr, m, b)
    else (Ok paddr, m, b).

Definition translate (env : option env_value) m b (vaddr : Z) (access : AccessType) (cpl : Z) :
    result Z TranslateFault * t * M :=
  let is_user := cpl =? 3 in
  match linear_address m vaddr with
  | Err f => (Err f, m, b)
  | Ok vaddr =>
      if bool_decide (m.(mode) = Disabled) then (Ok vaddr, m, b) else
      let is_exec := is_execute access in
      match Tlb.lookup m.(tlb) vaddr is_exec (current_pcid m) m.(pcid_enabled)
              m.(tlb_page_sizes) with
      | Some hit =>
          let entry := hit.(TlbHit.entry) in
          match access with
          | Read =>
              if is_user && negb (TlbEntry.user entry) then hit_fault m b vaddr access is_user
              else (Ok (TlbEntry.translate entry vaddr), m, b)
          | Execute =>
              if is_user && negb (TlbEntry.user entry) then hit_fault m b vaddr access is_user
              else if TlbEntry.nx entry then hit_fault m b vaddr access is_user
              else (Ok (TlbEntry.translate entry vaddr), m, b)
          | Write => write_hit env m b hit vaddr is_user
          end
      | None => walk_and_fill env m b vaddr access is_user
      end
  end.

Definition walk_probe m b (vaddr : Z) (access : AccessType) (is_user : bool) :
    result Z PageFault.t :=
  match m.(mode) with
  | Disabled => (* unreachable!() *) Err (page_fault_not_present vaddr access is_user)
  | Legacy32 => walk_legacy32_probe m b vaddr access is_user
  | Pae => walk_pae_probe m b vaddr access is_user
  | Long4 => walk_long4_probe m b vaddr access is_user
  end.

Definition translate_probe m b (vaddr : Z) (access : AccessType) (cpl : Z) :
    result Z TranslateFault :=
  let is_user := cpl =? 3 in
  let? vaddr := linear_address m vaddr in
  if bool_decide (m.(mode) = Disabled) then Ok vaddr else
  let is_exec := is_execute access in
  let fault := PageFaultAt (PageFault.new vaddr (pf_error_code true access is_user false)) in
  match Tlb.lookup m.(tlb) vaddr is_exec (current_pcid m) m.(pcid_enabled)
          m.(tlb_page_sizes) with
  | Some hit =>
      let entry := hit.(TlbHit.entry) in
      match access with
      | Read =>
          if is_user && negb (TlbEntry.user entry) then Err fault
          else Ok (TlbEntry.translate entry vaddr)
      | Execute =>
          if is_user && negb (TlbEntry.user entry) then Err fault
          else if TlbEntry.nx entry then Err fault
          else Ok (TlbEntry.translate entry vaddr)
      | Write =>
          if is_user then
            if negb (TlbEntry.user entry) || negb (TlbEntry.writable entry) then Err fault
            else Ok (TlbEntry.translate entry vaddr)
          else if negb (TlbEntry.writable entry) && wp_enabled m then Err fault
          else Ok (TlbEntry.translate entry vaddr)
      end
  | None => map_err PageFaultAt (walk_probe m b vaddr access is_user)
  end.
End Walk.
End Mmu.
