(* ===== verification/MmuWalk.v ===== *)
(** * Facts about page walks

    The relation [ad_le] between memories ("only Accessed/Dirty bits were set")
    and what it preserves; the updating walks of crates/aero-mmu/src/lib.rs
    against the reference walk of [MmuSpec]. *)

From S2P Require Import Prelude MmuTlb Mmu MmuSpec.

(** ** Setting Accessed and Dirty bits *)
Definition ad_ext (x y : Z) : Prop :=
  (forall i, 0 <= i -> i <> 5 -> i <> 6 -> Z.testbit y i = Z.testbit x i) /\
  (Z.testbit x 5 = true -> Z.testbit y 5 = true) /\
  (Z.testbit x 6 = true -> Z.testbit y 6 = true).

#[export] Instance ad_ext_preorder : PreOrder ad_ext.
Proof.
  split.
  - intros x. by split_and!.
  - intros x y z (H1 & H2 & H3) (H4 & H5 & H6). split_and!; [|by auto|by auto].
    intros i Hi H5' H6'. by rewrite H4, H1.
Qed.

Lemma ad_ext_lor x k :
  (forall i, 0 <= i -> i <> 5 -> i <> 6 -> Z.testbit k i = false) -> ad_ext x (x ||| k).
Proof.
  intros Hk. split_and!.
  - intros i Hi H5 H6. by rewrite Z.lor_spec, Hk, orb_false_r.
  - intros Hx. by rewrite Z.lor_spec, Hx.
  - intros Hx. by rewrite Z.lor_spec, Hx.
Qed.

Lemma ad_ext_A x : ad_ext x (x ||| PTE_A).
Proof.
  apply ad_ext_lor. intros i Hi H5 H6. change PTE_A with (2 ^ 5).
  rewrite testbit_pow2 by lia. apply Z.eqb_neq. lia.
Qed.

Lemma ad_ext_D x : ad_ext x (x ||| PTE_D).
Proof.
  apply ad_ext_lor. intros i Hi H5 H6. change PTE_D with (2 ^ 6).
  rewrite testbit_pow2 by lia. apply Z.eqb_neq. lia.
Qed.

Lemma ad_ext_land x y c :
  ad_ext x y -> Z.testbit c 5 = false -> Z.testbit c 6 = false -> y &&& c = x &&& c.
Proof.
  intros (Hxy & _ & _) H5 H6. apply Z.bits_inj'. intros i Hi. rewrite !Z.land_spec.
  destruct (decide (i = 5)) as [->|]; [by rewrite H5, !andb_false_r|].
  destruct (decide (i = 6)) as [->|]; [by rewrite H6, !andb_false_r|].
  by rewrite Hxy.
Qed.

Lemma ad_ext_bit x y i : ad_ext x y -> 0 <= i -> i <> 5 -> i <> 6 -> Z.testbit y i = Z.testbit x i.
Proof. intros (H & _). apply H. Qed.

(** Reserved-bit checks do not look at Accessed/Dirty, except for the PAE
    directory-pointer entries, where both are reserved. *)
Lemma has_reserved_bits64_ad m x y kind :
  kind <> PdptePae -> ad_ext x y ->
  Mmu.has_reserved_bits64 m y kind = Mmu.has_reserved_bits64 m x kind.
Proof.
  intros Hk Hxy. unfold Mmu.has_reserved_bits64.
  rewrite !(ad_ext_land x y) by (done || reflexivity).
  rewrite (bool_decide_false (kind = PdptePae)) by done.
  cbn [negb]. repeat (case_if; [done|]).
  match goal with |- nz (y &&& unot 64 ?c) = nz (x &&& unot 64 ?c) =>
    assert (forall i, 0 <= i < 7 -> Z.testbit c i = true) as Hc end.
  { intros i Hi.
    assert (Z.testbit 0x1fff i = true) as Hl.
    { change 0x1fff with (Z.ones 13). rewrite Z.testbit_ones_nonneg by lia.
      apply Z.ltb_lt. lia. }
    destruct (Mmu.nx_enabled m); rewrite !Z.lor_spec, Hl, ?orb_true_r; done. }
  rewrite (ad_ext_land x y) by (done || rewrite unot_spec, Hc by lia; done). done.
Qed.

Lemma frame_ad pg ps x y : ad_ext x y -> frame pg ps y = frame pg ps x.
Proof.
  intros Hxy. unfold frame. rewrite <- !Z.land_assoc.
  apply ad_ext_land; [done|..]; rewrite Z.land_spec, unot_spec by lia;
    rewrite bytes_shift; replace (2 ^ page_shift ps - 1) with (Z.ones (page_shift ps))
      by (rewrite Z.ones_equiv; lia);
    pose proof (page_shift_bounds ps);
    rewrite Z.testbit_ones_nonneg by lia;
    rewrite (proj2 (Z.ltb_lt _ (page_shift ps))) by lia; by rewrite !andb_false_r.
Qed.

Lemma add_rights_ad pg l r x y : ad_ext x y -> add_rights pg l r y = add_rights pg l r x.
Proof. intros Hxy. unfold add_rights. by rewrite !(ad_ext_bit x y) by (done || lia). Qed.

Lemma mk_leaf_ad pg ps r addr x y :
  ad_ext x y -> mk_leaf pg ps r addr y = mk_leaf pg ps r addr x.
Proof.
  intros Hxy. unfold mk_leaf. rewrite (frame_ad pg ps x y), (ad_ext_bit x y) by (done || lia). done.
Qed.

(** ** Well-formed hierarchies *)
Record level_ok (l : level) : Prop := {
  lo_shift : 12 <= l.(lv_shift);
  lo_bits : 0 <= l.(lv_bits) <= 10;
  lo_leaf_ad : forall x y, ad_ext x y -> l.(lv_leaf) y = l.(lv_leaf) x;
  lo_leaf_shift : forall e ps, l.(lv_leaf) e = Some ps -> page_shift ps = l.(lv_shift);
  lo_leaf_acc : forall e ps, l.(lv_leaf) e = Some ps -> l.(lv_accessed) = true;
}.

Definition rsvd_ad (l : level) : Prop :=
  forall x y, ad_ext x y -> l.(lv_reserved) y = l.(lv_reserved) x.

Definition levels_sorted (ls : list level) : Prop :=
  StronglySorted (fun l1 l2 => l2.(lv_shift) <= l1.(lv_shift)) ls.

(** Addresses of paging structures and of their entries. *)
Definition table_at (pg : paging) (base : Z) : Prop :=
  uint 52 base /\ base mod entry_bytes pg = 0.
Definition word_at (pg : paging) (a : Z) : Prop := uint 64 a /\ a mod entry_bytes pg = 0.

Record paging_ok (pg : paging) : Prop := {
  po_mask : uint 52 pg.(pg_mask);
  po_root : table_at pg pg.(pg_root);
  po_levels : Forall level_ok pg.(pg_levels);
  po_rsvd : Forall rsvd_ad (tail pg.(pg_levels));
  po_sorted : levels_sorted pg.(pg_levels);
}.

Definition mmu_cfg_ok (m : Mmu.t) : Prop :=
  1 <= m.(Mmu.max_phys_bits) <= 52 /\ uint 64 m.(Mmu.cr3).

Lemma phys_addr_mask_ones m :
  mmu_cfg_ok m -> Mmu.phys_addr_mask m = Z.ones m.(Mmu.max_phys_bits).
Proof.
  intros [Hb _]. unfold Mmu.phys_addr_mask. rewrite (proj2 (Z.eqb_neq _ _)) by lia.
  rewrite Z.shiftl_1_l, Z.ones_equiv. lia.
Qed.

Lemma phys_addr_mask_uint m : mmu_cfg_ok m -> uint 52 (Mmu.phys_addr_mask m).
Proof.
  intros Hm. rewrite phys_addr_mask_ones by done. destruct Hm as [Hb _].
  apply (uint_weaken m.(Mmu.max_phys_bits)); [lia|].
  assert (0 < 2 ^ m.(Mmu.max_phys_bits)) by (apply Z.pow_pos_nonneg; lia).
  unfold uint. rewrite Z.ones_equiv. lia.
Qed.

Lemma land_unot_aligned x k :
  uint 64 x -> 0 <= k -> (x &&& unot 64 (Z.ones k)) mod 2 ^ k = 0.
Proof.
  intros Hx Hk. rewrite land_unot, ldiff_ones by (done || lia).
  rewrite Zminus_mod_idemp_r, Z.sub_diag. apply Z.mod_0_l. apply Z.pow_nonzero; lia.
Qed.

Lemma mod_mul_zero x a c : 0 < a -> 0 < c -> x mod (a * c) = 0 -> x mod a = 0.
Proof.
  intros Ha Hc Hx. apply Z.mod_divide in Hx; [|lia]. apply Z.mod_divide; [lia|].
  eapply Z.divide_trans; [|exact Hx]. apply Z.divide_factor_l.
Qed.

Lemma ps_leaf_ok ps shift bits rsvd r a :
  page_shift ps = shift -> a = true -> 0 <= bits <= 10 -> level_ok (Level shift bits rsvd (ps_leaf ps) r a).
Proof.
  intros <- -> Hb. pose proof (page_shift_bounds ps). split; simpl; try done; try lia.
  - intros x y Hxy. unfold ps_leaf. by rewrite (ad_ext_bit x y) by (done || lia).
  - unfold ps_leaf. intros e ps'. by case_if; intros; simplify_eq.
Qed.

Lemma table_ok shift bits rsvd r a :
  12 <= shift -> 0 <= bits <= 10 -> level_ok (Level shift bits rsvd (fun _ => None) r a).
Proof. intros Hs Hb. by split. Qed.

Lemma pte_ok bits rsvd r a :
  0 <= bits <= 10 -> a = true -> level_ok (Level 12 bits rsvd (fun _ => Some Size4K) r a).
Proof. intros Hb ->. split; simpl; try done. by intros _ ps [= <-]. Qed.

Local Ltac levels_ok :=
  repeat (apply List.Forall_cons;
    [first [apply ps_leaf_ok; done || lia | apply table_ok; lia | apply pte_ok; done || lia]|]);
  apply List.Forall_nil.

Lemma paging_of_ok m : m.(Mmu.mode) <> Disabled -> mmu_cfg_ok m -> paging_ok (paging_of m).
Proof.
  intros Hmode Hm. pose proof (phys_addr_mask_uint m Hm) as Hmask.
  destruct Hm as [Hbits Hcr3].
  assert (forall c, 0 <= c -> uint 64 (m.(Mmu.cr3) &&& c)) as Hcr
    by (intros; apply uint_land_l; done || lia).
  assert (forall c k, uint 52 c -> 0 <= k -> uint 52 ((m.(Mmu.cr3) &&& c) &&& unot 64 k)) as Hroot.
  { intros c k Hc Hk. apply uint_land_l; [lia| |by apply uint_unot].
    apply uint_land_r; [lia|done|apply Hcr3]. }
  assert (forall k kind leaf a, kind <> PdptePae -> rsvd_ad (level64 m k a kind leaf)) as Hr.
  { intros k kind leaf a Hk x y Hxy. simpl. by apply has_reserved_bits64_ad. }
  unfold paging_of, levels_of. destruct (m.(Mmu.mode)); [done|..]; split; simpl; try done.
  - split; [by apply Hroot|]. apply (mod_mul_zero _ 4 1024); [lia|lia|].
    change 0xfff with (Z.ones 12). change (4 * 1024) with (2 ^ 12).
    apply land_unot_aligned; [by apply Hcr|lia].
  - levels_ok.
  - repeat constructor.
  - repeat constructor; simpl; lia.
  - split; [by apply Hroot|]. apply (mod_mul_zero _ 8 4); [lia|lia|].
    change 0x1f with (Z.ones 5). change (8 * 4) with (2 ^ 5).
    apply land_unot_aligned; [by apply Hcr|lia].
  - levels_ok.
  - repeat (apply List.Forall_cons; [by apply Hr|]). constructor.
  - repeat constructor; simpl; lia.
  - split; [by apply Hroot|]. apply (mod_mul_zero _ 8 512); [lia|lia|].
    change 0xfff with (Z.ones 12). change (8 * 512) with (2 ^ 12).
    apply land_unot_aligned; [apply Hcr; apply Hmask|lia].
  - levels_ok.
  - repeat (apply List.Forall_cons; [by apply Hr|]). constructor.
  - repeat constructor; simpl; lia.
Qed.

(** ** Memories that differ in Accessed/Dirty bits only *)
Section Memory.
Context {M : Type} `{PM : PagingMemory M} (pg : paging).
Implicit Types b : M.

(** Every aligned entry of [b'] extends that of [b]; the entries at the
    protected addresses are the same. *)
Definition ad_le (prot : Z -> Prop) (b b' : M) : Prop :=
  forall a, word_at pg a ->
    ad_ext (rd pg b a) (rd pg b' a) /\ (prot a -> rd pg b' a = rd pg b a).

#[export] Instance ad_le_preorder prot : PreOrder (ad_le prot).
Proof.
  split.
  - intros b a Ha. by split.
  - intros b1 b2 b3 H12 H23 a Ha. destruct (H12 a Ha) as [E12 P12], (H23 a Ha) as [E23 P23].
    split; [by etrans|]. intros Hp. by rewrite P23, P12.
Qed.

Lemma rd_range b a : uint (entry_bits pg) (rd pg b a).
Proof.
  unfold entry_bits, rd. case_if; [apply read_u64_range|apply read_u32_range].
Qed.

Lemma rd_uint64 b a : uint 64 (rd pg b a).
Proof.
  apply (uint_weaken (entry_bits pg)); [unfold entry_bits; case_if; lia|]. apply rd_range.
Qed.

Lemma entry_bits_pos : 0 <= entry_bits pg <= 64.
Proof. unfold entry_bits. case_if; lia. Qed.

Lemma wr_same b a v i :
  uint 64 a -> uint (entry_bits pg) v -> 0 <= i ->
  Z.testbit (rd pg (wr pg b a v) a) i = Z.testbit v i \/
  Z.testbit (rd pg (wr pg b a v) a) i = Z.testbit (rd pg b a) i.
Proof.
  unfold entry_bits, rd, wr. case_if; intros Ha Hv Hi; [by apply write_u64_same|].
  rewrite wrap_small by done. by apply write_u32_same.
Qed.

(** What a write of an extension leaves is between the old and the new word. *)
Lemma wr_same_ext b a v :
  uint 64 a -> uint (entry_bits pg) v -> ad_ext (rd pg b a) v ->
  ad_ext (rd pg b a) (rd pg (wr pg b a v) a) /\ ad_ext (rd pg (wr pg b a v) a) v.
Proof.
  intros Ha Hv (He & H5 & H6). pose proof (fun i => wr_same b a v i Ha Hv) as Hw.
  split; (split_and!; [intros i Hi Hi5 Hi6; destruct (Hw i Hi) as [->| ->]; rewrite ?He; done|..]).
  - intros Hx. destruct (Hw 5) as [->| ->]; auto; lia.
  - intros Hx. destruct (Hw 6) as [->| ->]; auto; lia.
  - destruct (Hw 5) as [->| ->]; auto; lia.
  - destruct (Hw 6) as [->| ->]; auto; lia.
Qed.

Lemma wr_other b a a' v :
  word_at pg a -> word_at pg a' -> a <> a' -> uint (entry_bits pg) v ->
  rd pg (wr pg b a v) a' = rd pg b a'.
Proof.
  unfold word_at, entry_bytes, entry_bits, rd, wr.
  case_if; intros [] []; intros; [by apply write_u64_other|].
  apply write_u32_other; try done. rewrite wrap_small by done. done.
Qed.

Lemma wr_ad_le prot b a v :
  word_at pg a -> ~ prot a -> uint (entry_bits pg) v -> ad_ext (rd pg b a) v ->
  ad_le prot b (wr pg b a v).
Proof.
  intros Ha Hp Hv Hext a' Ha'. destruct (decide (a = a')) as [<-|Hne].
  - split; [|done]. apply wr_same_ext; [apply Ha|done|done].
  - by rewrite wr_other by done.
Qed.

(** ** Facts about the reference walk *)
Context (Hmask : uint 52 pg.(pg_mask)).

Lemma frame_uint b a ps : uint 52 (frame pg ps (rd pg b a)).
Proof.
  unfold frame. apply uint_land_l; [lia| |by apply uint_unot].
  apply uint_land_r; [lia|done|]. apply rd_range.
Qed.

Lemma entry_frame_uint e ps : uint (entry_bits pg) e -> uint 52 (frame pg ps e).
Proof.
  intros He. unfold frame. apply uint_land_l; [lia| |by apply uint_unot].
  apply uint_land_r; [lia|done|apply He].
Qed.

Lemma entry_frame_aligned e ps : uint (entry_bits pg) e -> frame pg ps e mod bytes ps = 0.
Proof.
  intros He. apply page_base_aligned. apply uint_land_l; [lia| |apply Hmask].
  apply (uint_weaken (entry_bits pg)); [|done]. unfold entry_bits. case_if; lia.
Qed.

Lemma entry_bytes_pos : 0 < entry_bytes pg.
Proof. unfold entry_bytes. case_if; lia. Qed.

Lemma table_aligned e : uint (entry_bits pg) e -> table_at pg (frame pg Size4K e).
Proof.
  intros He. split; [by apply entry_frame_uint|]. pose proof (entry_frame_aligned e Size4K He) as Hf.
  unfold entry_bytes. case_if; [apply (mod_mul_zero _ 8 512)|apply (mod_mul_zero _ 4 1024)]; done || lia.
Qed.

Lemma entry_addr_aligned base l v :
  table_at pg base -> level_ok l -> word_at pg (entry_addr pg base l v).
Proof.
  intros [Hu Hb] Hl. pose proof (lo_bits _ Hl). unfold entry_addr. split.
  - rewrite land_ones_mod by lia.
    assert (0 <= (v >>> lv_shift l) mod 2 ^ lv_bits l < 2 ^ lv_bits l)
      by (apply Z.mod_pos_bound, Z.pow_pos_nonneg; lia).
    assert (2 ^ lv_bits l <= 2 ^ 10) by (apply Z.pow_le_mono_r; lia).
    unfold uint in *. unfold entry_bytes. case_if; lia.
  - rewrite Z.mod_add by (pose proof entry_bytes_pos; lia). done.
Qed.

(** The walk is the same in memories that differ in Accessed/Dirty bits. *)
Lemma radix_ad prot b b' base r l rest v :
  ad_le prot b b' -> table_at pg base ->
  level_ok l -> Forall level_ok rest -> Forall rsvd_ad rest ->
  rsvd_ad l \/ prot (entry_addr pg base l v) ->
  radix pg b' base r (l :: rest) v = radix pg b base r (l :: rest) v.
Proof.
  intros Hle. revert base r l. induction rest as [|l' rest IH]; intros base r l Hb Hl Hok Hrs Hor.
  all: pose proof (entry_addr_aligned base l v Hb Hl) as Ha.
  all: destruct (Hle _ Ha) as [Hext Hprot].
  all: simpl; rewrite (ad_ext_bit _ _ 0 Hext) by lia.
  all: destruct (Z.testbit (rd pg b (entry_addr pg base l v)) 0); simpl; [|done].
  all: assert (lv_reserved l (rd pg b' (entry_addr pg base l v)) =
               lv_reserved l (rd pg b (entry_addr pg base l v))) as ->
    by (destruct Hor as [Hor|Hor]; [by apply Hor|by rewrite Hprot]).
  all: case_if; [done|].
  all: rewrite (lo_leaf_ad _ Hl _ _ Hext), (add_rights_ad pg l r _ _ Hext).
  all: destruct (lv_leaf l _); [by rewrite (mk_leaf_ad pg _ _ _ _ _ Hext)|].
  - done.
  - rewrite (frame_ad pg Size4K _ _ Hext).
    inversion Hok; inversion Hrs; subst.
    apply IH; try done; [|by left]. apply table_aligned, rd_range.
Qed.

Lemma radix_writes_ad prot b b' base l rest v :
  ad_le prot b b' -> table_at pg base ->
  level_ok l -> Forall level_ok rest -> Forall rsvd_ad rest ->
  rsvd_ad l \/ prot (entry_addr pg base l v) ->
  radix_writes pg b' base (l :: rest) v = radix_writes pg b base (l :: rest) v.
Proof.
  intros Hle. revert base l. induction rest as [|l' rest IH]; intros base l Hb Hl Hok Hrs Hor.
  all: pose proof (entry_addr_aligned base l v Hb Hl) as Ha.
  all: destruct (Hle _ Ha) as [Hext Hprot].
  all: simpl; rewrite (ad_ext_bit _ _ 0 Hext) by lia.
  all: destruct (Z.testbit (rd pg b (entry_addr pg base l v)) 0); simpl; [|done].
  all: assert (lv_reserved l (rd pg b' (entry_addr pg base l v)) =
               lv_reserved l (rd pg b (entry_addr pg base l v))) as ->
    by (destruct Hor as [Hor|Hor]; [by apply Hor|by rewrite Hprot]).
  all: case_if; [done|].
  all: rewrite (lo_leaf_ad _ Hl _ _ Hext).
  all: destruct (lv_leaf l _); [done|].
  - done.
  - rewrite (frame_ad pg Size4K _ _ Hext). f_equal.
    inversion Hok; inversion Hrs; subst.
    apply IH; try done; [|by left]. apply table_aligned, rd_range.
Qed.

(** A mapping's page is no larger than what the level covers. *)
Lemma radix_shift b base r levels v lf :
  Forall level_ok levels -> levels_sorted levels ->
  radix pg b base r levels v = Mapped lf ->
  forall l rest, levels = l :: rest -> page_shift lf.(lf_size) <= l.(lv_shift).
Proof.
  revert base r. induction levels as [|l0 rest0 IH]; intros base r Hok Hsort Hw l rest Heq; [done|].
  simplify_eq. inversion Hok as [|? ? Hl Hrest]; subst.
  inversion Hsort as [|? ? Hsort' Hall]; subst. simpl in Hw.
  repeat case_if_in Hw; try done. destruct (lv_leaf l _) as [ps|] eqn:Hleaf.
  - simplify_eq/=. by rewrite (lo_leaf_shift _ Hl _ _ Hleaf).
  - destruct rest as [|l' rest']; [done|].
    pose proof (IH _ _ Hrest Hsort' Hw l' rest' eq_refl) as Hle.
    inversion Hall; subst. lia.
Qed.

(** The walk is constant on the page it maps. *)
Lemma radix_same_page b base r levels v v' lf :
  Forall level_ok levels -> levels_sorted levels ->
  radix pg b base r levels v = Mapped lf ->
  v >>> page_shift lf.(lf_size) = v' >>> page_shift lf.(lf_size) ->
  radix pg b base r levels v' = Mapped lf.
Proof.
  intros Hok Hsort Hw Hpage. revert base r Hw.
  induction levels as [|l rest IH]; intros base r Hw; [done|].
  assert (page_shift lf.(lf_size) <= l.(lv_shift)) as Hshift
    by (by eapply radix_shift).
  inversion Hok as [|? ? Hl Hrest]; subst.
  inversion Hsort as [|? ? Hsort' Hall]; subst.
  assert (entry_addr pg base l v' = entry_addr pg base l v) as Haddr.
  { unfold entry_addr. do 3 f_equal. pose proof (page_shift_bounds lf.(lf_size)).
    replace (lv_shift l) with (page_shift lf.(lf_size) + (lv_shift l - page_shift lf.(lf_size))) by lia.
    rewrite <- !Z.shiftr_shiftr by lia. by rewrite Hpage. }
  simpl in *. rewrite Haddr. repeat case_if_in Hw; try done.
  destruct (lv_leaf l _); [done|]. by apply IH.
Qed.

(** The mapping of an address: where the leaf is, and what its frame is. *)
Lemma radix_leaf b base r levels v lf :
  Forall level_ok levels -> table_at pg base ->
  radix pg b base r levels v = Mapped lf ->
  word_at pg lf.(lf_addr) /\
  lf.(lf_base) = frame pg lf.(lf_size) (rd pg b lf.(lf_addr)) /\
  lf.(lf_addr) ∈ radix_writes pg b base levels v.
Proof.
  revert base r. induction levels as [|l rest IH]; intros base r Hok Hb Hw; [done|].
  inversion Hok as [|? ? Hl Hrest]; subst. simpl in *.
  repeat case_if_in Hw; try done. destruct (lv_leaf l _) eqn:Hleaf.
  - simplify_eq/=. split_and!; [by apply entry_addr_aligned|done|].
    rewrite (lo_leaf_acc _ Hl _ _ Hleaf). left.
  - destruct (IH _ _ Hrest (table_aligned _ (rd_range b _)) Hw) as (H1 & H2 & H3).
    split_and!; try done. apply elem_of_app. by right.
Qed.

(** Writes to the word at [a] are not dropped. *)
Definition sticky (a : Z) : Prop :=
  forall b v, uint (entry_bits pg) v -> rd pg (wr pg b a v) a = v.

(** The updating walk: same outcome, and memory only gains Accessed bits. *)
Lemma uint_set_A e : uint (entry_bits pg) e -> uint (entry_bits pg) (e ||| PTE_A).
Proof.
  intros He. apply uint_lor; [unfold entry_bits; case_if; lia|done|].
  unfold uint, entry_bits. case_if; done.
Qed.

Lemma uint_set_D e : uint (entry_bits pg) e -> uint (entry_bits pg) (e ||| PTE_D).
Proof.
  intros He. apply uint_lor; [unfold entry_bits; case_if; lia|done|].
  unfold uint, entry_bits. case_if; done.
Qed.

Lemma radix_upd_spec prot b base r levels v o e b' :
  Forall level_ok levels -> Forall rsvd_ad (tail levels) -> table_at pg base ->
  Forall (fun a => ~ prot a) (radix_writes pg b base levels v) ->
  radix_upd pg b base r levels v = (o, e, b') ->
  o = radix pg b base r levels v /\ ad_le prot b b' /\
  (forall lf, o = Mapped lf ->
     uint (entry_bits pg) e /\ ad_ext (rd pg b' lf.(lf_addr)) e /\
     (sticky lf.(lf_addr) -> rd pg b' lf.(lf_addr) = e) /\
     lf.(lf_base) = frame pg lf.(lf_size) e /\ Z.testbit e 5 = true /\
     lf.(lf_global) = pg.(pg_pge) && Z.testbit e 8).
Proof.
  revert b base r.
  induction levels as [|l rest IH]; intros b base r Hok Hrs Hb Hprot Hw.
  { simpl in *. simplify_eq. done. }
  inversion Hok as [|? ? Hl Hrest]; subst. simpl in Hrs, Hw, Hprot |- *.
  pose proof (entry_addr_aligned base l v Hb Hl) as Ha.
  set (addr := entry_addr pg base l v) in *. pose proof (rd_range b addr) as He0.
  set (e0 := rd pg b addr) in *.
  destruct (Z.testbit e0 0); simpl in *; [|by simplify_eq].
  destruct (lv_reserved l e0); [by simplify_eq|].
  apply Forall_app in Hprot as [Hp1 Hp2].
  assert (exists e1 b1,
    set_accessed pg.(pg_wide) l.(lv_accessed) b addr e0 = (e1, b1) /\
    ad_ext e0 e1 /\ uint (entry_bits pg) e1 /\ ad_le prot b b1 /\
    ad_ext (rd pg b1 addr) e1 /\ (sticky addr -> rd pg b1 addr = e1) /\
    (l.(lv_accessed) = true -> Z.testbit e1 5 = true))
    as (e1 & b1 & Heq & Hext & He1 & Hle1 & Hext1 & Hst & HA).
  { unfold set_accessed. destruct (lv_accessed l) eqn:Hacc; simpl; [destruct (Z.testbit e0 5) eqn:H5; simpl|].
    - exists e0, b. by split_and!.
    - exists (e0 ||| PTE_A), (wr pg b addr (e0 ||| PTE_A)).
      split_and!; [done|apply ad_ext_A|by apply uint_set_A| | | |].
      + apply wr_ad_le; [done| |by apply uint_set_A|apply ad_ext_A].
        by inversion Hp1.
      + apply wr_same_ext; [apply Ha|by apply uint_set_A|apply ad_ext_A].
      + intros Hst. by apply Hst, uint_set_A.
      + intros _. rewrite Z.lor_spec. change PTE_A with (2 ^ 5).
        rewrite testbit_pow2 by lia. by rewrite orb_true_r.
    - exists e0, b. by split_and!. }
  rewrite Heq in Hw.
  rewrite (lo_leaf_ad _ Hl _ _ Hext), (add_rights_ad pg l r _ _ Hext) in Hw.
  destruct (lv_leaf l e0) as [ps|] eqn:Hleaf.
  - simplify_eq. split_and!; [by rewrite (mk_leaf_ad pg _ _ _ _ _ Hext)|done|].
    intros lf [= <-]. simpl. split_and!; try done.
    by apply HA, (lo_leaf_acc _ Hl _ _ Hleaf).
  - rewrite (frame_ad pg Size4K _ _ Hext) in Hw.
    pose proof (table_aligned e0 He0) as Hta.
    destruct rest as [|l' rest'].
    { simpl in Hw. by simplify_eq. }
    inversion Hrs as [|? ? Hr1 Hr2]; subst. inversion Hrest as [|? ? Hl1 Hl2]; subst.
    specialize (IH b1 (frame pg Size4K e0) (add_rights pg l r e0) Hrest Hr2 Hta).
    rewrite (radix_writes_ad prot b b1), (radix_ad prot b b1) in IH by (done || by left).
    destruct (IH Hp2 Hw) as (-> & Hle2 & Hlf). split_and!; [done|by etrans|].
    done.
Qed.
End Memory.

(** ** The updating walks *)
Section Update.
Context {M : Type} `{PM : PagingMemory M}.
Implicit Types (m : Mmu.t) (b : M).

(** What the code does with the end of a walk. *)
Definition end_walk m (v : Z) (access : AccessType) (is_user : bool) (w : outcome * Z * M) :
    result (TlbEntry.t * Z) PageFault.t * M :=
  let '(o, e, b) := w in
  match o with
  | NotPresent => (Err (Mmu.page_fault_not_present v access is_user), b)
  | Reserved => (Err (Mmu.page_fault_rsvd v access is_user), b)
  | Mapped l =>
      Mmu.finish_leaf m b v access is_user (pg_wide (paging_of m)) l.(lf_addr) e l.(lf_base)
        l.(lf_size) l.(lf_user) l.(lf_writable) l.(lf_nx)
  end.

Definition upd_walk m b (v : Z) : outcome * Z * M :=
  let pg := paging_of m in radix_upd pg b pg.(pg_root) full_rights pg.(pg_levels) v.

Lemma set_accessed_ad w wide acc b addr e e' b' :
  6 <= w -> uint w e -> set_accessed wide acc b addr e = (e', b') -> ad_ext e e' /\ uint w e'.
Proof.
  intros Hw He. unfold set_accessed. case_if; intros; simplify_eq; [|done].
  split; [apply ad_ext_A|]. apply uint_lor; [lia|done|].
  apply (uint_weaken 6); [lia|]. done.
Qed.

Lemma check_entry32_eq b addr e :
  Mmu.check_entry32 b addr e =
  if negb (Z.testbit e 0) then (None, b)
  else let '(e, b) := set_accessed false true b addr e in (Some e, b).
Proof.
  unfold Mmu.check_entry32, set_accessed. test_bits. simpl. repeat case_if; done.
Qed.

Lemma with_entry64_eq {A} m b v access is_user addr kind (k : M -> Z -> result A PageFault.t * M) :
  Mmu.with_entry64 m b (EntryAccessContext.mk v access is_user) addr kind k =
  let e := read_u64 b addr in
  if negb (Z.testbit e 0) then (Err (Mmu.page_fault_not_present v access is_user), b)
  else if Mmu.has_reserved_bits64 m e kind then (Err (Mmu.page_fault_rsvd v access is_user), b)
  else let '(e, b) := set_accessed true (has_rights kind) b addr e in k b e.
Proof.
  unfold Mmu.with_entry64, Mmu.check_entry64, set_accessed. test_bits. simpl.
  repeat (case_if; [done|]). destruct kind; simpl; try case_if; done.
Qed.

Lemma walk_legacy32_upd m b v access is_user :
  m.(Mmu.mode) = Legacy32 ->
  Mmu.walk_legacy32 m b v access is_user = end_walk m v access is_user (upd_walk m b v).
Proof.
  intros Hmode. unfold upd_walk, end_walk, paging_of, levels_of. rewrite Hmode. simpl.
  unfold Mmu.walk_legacy32, entry_addr, entry_bytes, rd. simpl.
  change (Z.ones 10) with 0x3ff.
  set (pde_addr := _ + _ * 4). set (pde0 := read_u32 b pde_addr).
  assert (uint 32 pde0) as Hpde0 by apply read_u32_range. rewrite check_entry32_eq. test_bits.
  destruct (Z.testbit pde0 0); simpl; [|done].
  destruct (set_accessed false true b pde_addr pde0) as [pde b1] eqn:E1.
  apply (set_accessed_ad 32) in E1 as [Hext1 Hpde]; [|lia|done].
  unfold ps_leaf. rewrite (ad_ext_bit _ _ 7 Hext1) by lia.
  destruct (Z.testbit pde0 7); simpl.
  - destruct (Mmu.cr4_pse m); simpl; [|done].
    destruct (nz (pde0 &&& LEGACY32_4MB_RESERVED_MASK)); simpl; [done|].
    rewrite (testbit_high 32 pde 63 Hpde), andb_false_r by lia.
    rewrite (frame32 _ pde Size4M 22) by (done || lia). by test_bits.
  - rewrite (frame32 _ pde Size4K 12) by (done || lia).
    change (Z.ldiff (Z.ones 32) (Z.ones 12)) with 0xfffff000.
    set (pte_addr := _ + _ * 4). set (pte0 := read_u32 b1 pte_addr).
    assert (uint 32 pte0) as Hpte0 by apply read_u32_range. rewrite check_entry32_eq.
    destruct (Z.testbit pte0 0); simpl; [|done].
    destruct (set_accessed false true b1 pte_addr pte0) as [pte b2] eqn:E2.
    apply (set_accessed_ad 32) in E2 as [Hext2 Hpte]; [|lia|done]. simpl.
    rewrite (testbit_high 32 pde 63 Hpde), (testbit_high 32 pte 63 Hpte), andb_false_r by lia.
    rewrite (frame32 _ pte Size4K 12) by (done || lia). by test_bits.
Qed.

(** Open one 64-bit level on both sides. *)
Local Ltac level64_norm := unfold frame; simpl; change (4 * 1024 - 1) with 0xfff; test_bits.
Local Ltac level64_open m kind :=
  rewrite with_entry64_eq; simpl;
  match goal with |- context [Mmu.has_reserved_bits64 m ?e kind] =>
    let e0 := fresh "e" in
    set (e0 := e); destruct (Z.testbit e0 0); simpl; [|done];
    destruct (Mmu.has_reserved_bits64 m e0 kind); simpl; [done|]
  end.
Local Ltac level64_step m kind :=
  level64_open m kind;
  match goal with |- context [set_accessed true ?acc ?b ?addr ?e] =>
    let e1 := fresh "e" in let b1 := fresh "b" in
    destruct (set_accessed true acc b addr e) as [e1 b1]
  end; level64_norm.

Lemma walk_pae_upd m b v access is_user :
  m.(Mmu.mode) = Pae ->
  Mmu.walk_pae m b v access is_user = end_walk m v access is_user (upd_walk m b v).
Proof.
  intros Hmode. unfold upd_walk, end_walk, paging_of, levels_of. rewrite Hmode. simpl.
  unfold Mmu.walk_pae, entry_addr, entry_bytes, rd. simpl.
  change (Z.ones 9) with 0x1ff. change (Z.ones 2) with 0x3.
  level64_open m PdptePae. level64_norm. level64_step m PdePae.
  unfold ps_leaf. destruct (Z.testbit _ 7); [done|]. by level64_step m PtePae.
Qed.

Lemma cow_upgrade_disabled env b access is_user ew a1 e1 a2 e2 a3 e3 a4 e4 :
  cow_force_rw_enabled env = false ->
  Mmu.cow_upgrade env b access is_user ew a1 e1 a2 e2 a3 e3 a4 e4 = (e4, ew, b).
Proof. intros Henv. unfold Mmu.cow_upgrade. by rewrite Henv, andb_false_r. Qed.

Lemma walk_long4_upd env m b v access is_user :
  cow_force_rw_enabled env = false -> m.(Mmu.mode) = Long4 ->
  Mmu.walk_long4 env m b v access is_user = end_walk m v access is_user (upd_walk m b v).
Proof.
  intros Henv Hmode. unfold upd_walk, end_walk, paging_of, levels_of. rewrite Hmode. simpl.
  unfold Mmu.walk_long4, entry_addr, entry_bytes, rd. simpl.
  change (Z.ones 9) with 0x1ff.
  level64_step m Pml4e. level64_step m PdpteLong.
  unfold ps_leaf at 1. destruct (Z.testbit _ 7); [done|]. level64_step m PdeLong.
  unfold ps_leaf. destruct (Z.testbit _ 7); [done|]. level64_step m PteLong.
  by rewrite cow_upgrade_disabled.
Qed.

Lemma walk_upd env m b v access is_user :
  cow_force_rw_enabled env = false -> m.(Mmu.mode) <> Disabled ->
  Mmu.walk env m b v access is_user = end_walk m v access is_user (upd_walk m b v).
Proof.
  intros Henv Hmode. unfold Mmu.walk. destruct (m.(Mmu.mode)) eqn:E; [done|..].
  - by apply walk_legacy32_upd.
  - by apply walk_pae_upd.
  - by apply walk_long4_upd.
Qed.
End Update.
