(* ===== verification/MmuRefine.v ===== *)
(** * The TLB-backed MMU refines architectural translation

    [coherent] says that every TLB entry the current address space can hit
    agrees with the page tables in memory.  [translate] of
    crates/aero-mmu/src/lib.rs keeps it and returns what the TLB-free
    [spec_translate] returns; the maintenance operations ([invlpg], CR writes,
    [invpcid]) restore it after the guest edits its page tables or switches
    address space. *)

From S2P Require Import Prelude MmuTlb Mmu MmuSpec MmuWalk.
Import TlbSetFacts TlbSetOps TlbEntryFacts.

(** ** Coherence *)

(** PAE directory-pointer entries: their Accessed/Dirty positions are reserved,
    and the code reads and checks them on every walk. *)
Definition pdpt_slot (m : Mmu.t) (a : Z) : Prop :=
  m.(Mmu.mode) = Pae /\ pg_root (paging_of m) <= a < pg_root (paging_of m) + 32.

(** What [translate] never changes. *)
Definition same_config (m m' : Mmu.t) : Prop :=
  m'.(Mmu.cr0) = m.(Mmu.cr0) /\ m'.(Mmu.cr3) = m.(Mmu.cr3) /\ m'.(Mmu.cr4) = m.(Mmu.cr4) /\
  m'.(Mmu.efer) = m.(Mmu.efer) /\ m'.(Mmu.mode) = m.(Mmu.mode) /\
  m'.(Mmu.max_phys_bits) = m.(Mmu.max_phys_bits) /\
  m'.(Mmu.tlb_page_sizes) = m.(Mmu.tlb_page_sizes) /\
  m'.(Mmu.pcid_enabled) = m.(Mmu.pcid_enabled) /\ m'.(Mmu.pcid) = m.(Mmu.pcid).

Definition tlb_wf (t : Tlb.t) : Prop := wf t.(Tlb.itlb) /\ wf t.(Tlb.dtlb).
Definition tlb_contains (t : Tlb.t) (e : TlbEntry.t) : Prop :=
  contains t.(Tlb.itlb) e \/ contains t.(Tlb.dtlb) e.

(** The entries the current address space can hit. *)
Definition visible (m : Mmu.t) (e : TlbEntry.t) : Prop :=
  tlb_contains m.(Mmu.tlb) e /\
  TlbEntry.matches_pcid m.(Mmu.pcid_enabled) e m.(Mmu.pcid) = true.

Section Coherence.
Context {M : Type} `{PM : PagingMemory M}.
Implicit Types (m : Mmu.t) (b : M).

(** Entry [e] describes mapping [l] as reached from address [v]. *)
Record describes m b (e : TlbEntry.t) (v : Z) (l : leaf) : Prop := {
  de_size : l.(lf_size) = e.(TlbEntry.page_size);
  de_user : TlbEntry.user e = l.(lf_user);
  de_writable : TlbEntry.writable e = l.(lf_writable);
  de_nx : TlbEntry.nx e = l.(lf_nx);
  de_global : TlbEntry.global e = l.(lf_global);
  de_addr : e.(TlbEntry.leaf_addr) = l.(lf_addr);
  de_wide : TlbEntry.leaf_is_64 e = pg_wide (paging_of m);
  de_dirty : TlbEntry.dirty e = true -> sticky (paging_of m) l.(lf_addr) ->
    Z.testbit (rd (paging_of m) b l.(lf_addr)) 6 = true;
  de_paddr : TlbEntry.translate e v = l.(lf_base) + (v - page_base l.(lf_size) v);
}.

Definition entry_coherent m b (e : TlbEntry.t) : Prop :=
  forall v, uint 64 v -> e.(TlbEntry.vbase) = page_base e.(TlbEntry.page_size) v ->
    exists l, spec_walk m b v = Mapped l /\ describes m b e v l.

(** No walk sets Accessed/Dirty bits in the PAE directory-pointer table. *)
Definition pdpt_private m b : Prop :=
  forall v, uint 64 v ->
    Forall (fun a => ~ pdpt_slot m a)
      (radix_writes (paging_of m) b (pg_root (paging_of m)) (pg_levels (paging_of m)) v).

Record coherent m b : Prop := {
  co_cfg : mmu_cfg_ok m;
  co_wf : tlb_wf m.(Mmu.tlb);
  co_private : m.(Mmu.mode) <> Disabled -> pdpt_private m b;
  co_entries : m.(Mmu.mode) <> Disabled -> forall e, visible m e -> entry_coherent m b e;
}.

(** Memory changes the walks make. *)
Definition ad_mem m : M -> M -> Prop := ad_le (paging_of m) (pdpt_slot m).

#[export] Instance ad_mem_preorder m : PreOrder (ad_mem m).
Proof. apply ad_le_preorder. Qed.

Lemma paging_of_config m m' : same_config m m' -> paging_of m' = paging_of m.
Proof.
  intros (H0 & H3 & H4 & He & Hm & Hb & _). destruct m, m'; simpl in *; subst. done.
Qed.

Lemma spec_walk_config m m' b v : same_config m m' -> spec_walk m' b v = spec_walk m b v.
Proof. intros Hc. unfold spec_walk. by rewrite (paging_of_config m m'). Qed.

(** ** Walks and Accessed/Dirty updates *)
Section Fixed.
Context (m : Mmu.t) (Hmode : m.(Mmu.mode) <> Disabled) (Hcfg : mmu_cfg_ok m).

Lemma head_level :
  exists l rest, pg_levels (paging_of m) = l :: rest /\
    forall v, rsvd_ad l \/ pdpt_slot m (entry_addr (paging_of m) (pg_root (paging_of m)) l v).
Proof.
  unfold pdpt_slot, paging_of, levels_of. destruct (m.(Mmu.mode)) eqn:E; [done|..]; simpl.
  - eexists _, _. split; [done|]. intros v. left. intros x y Hxy. simpl.
    by rewrite (ad_ext_bit x y), (ad_ext_land x y) by (done || lia).
  - eexists _, _. split; [done|]. intros v. right. split; [done|].
    unfold entry_addr. simpl. change (Z.ones 2) with 3.
    assert (0 <= (v >>> 30) &&& 3 < 2 ^ 2).
    { change 3 with (Z.ones 2). rewrite land_ones_mod by lia. apply Z.mod_pos_bound. lia. }
    unfold entry_bytes. simpl. lia.
  - eexists _, _. split; [done|]. intros v. left. intros x y Hxy. simpl.
    by apply has_reserved_bits64_ad.
Qed.

Lemma spec_walk_ad b b' v : ad_mem m b b' -> spec_walk m b' v = spec_walk m b v.
Proof.
  intros Hle. destruct (paging_of_ok m Hmode Hcfg) as [? ? Hlv Hrs ?].
  destruct head_level as (l & rest & Heq & Hor). unfold spec_walk. rewrite Heq in *.
  inversion Hlv; subst. by eapply radix_ad.
Qed.

Lemma pdpt_private_ad b b' : ad_mem m b b' -> pdpt_private m b -> pdpt_private m b'.
Proof.
  intros Hle Hp v Hv. specialize (Hp v Hv). destruct (paging_of_ok m Hmode Hcfg) as [? ? Hlv Hrs ?].
  destruct head_level as (l & rest & Heq & Hor). rewrite Heq in *.
  inversion Hlv; subst. by erewrite radix_writes_ad.
Qed.

Lemma spec_walk_leaf b v l :
  spec_walk m b v = Mapped l ->
  word_at (paging_of m) l.(lf_addr) /\
  l.(lf_base) = frame (paging_of m) l.(lf_size) (rd (paging_of m) b l.(lf_addr)) /\
  (pdpt_private m b -> uint 64 v -> ~ pdpt_slot m l.(lf_addr)).
Proof.
  intros Hw. destruct (paging_of_ok m Hmode Hcfg) as [Hmask ? Hlv ? ?].
  edestruct (radix_leaf (paging_of m) Hmask) as (? & ? & Hin); [done|done|done|].
  split_and!; [done|done|]. intros Hp Hv. specialize (Hp v Hv).
  rewrite Forall_forall in Hp. by apply Hp.
Qed.

Lemma spec_walk_same_page b v v' l :
  spec_walk m b v = Mapped l -> uint 64 v -> uint 64 v' ->
  page_base l.(lf_size) v = page_base l.(lf_size) v' -> spec_walk m b v' = Mapped l.
Proof.
  intros Hw Hv Hv' Hpage. destruct (paging_of_ok m Hmode Hcfg).
  eapply radix_same_page; [done|done|done|].
  rewrite !page_base_eq in Hpage by done. rewrite bytes_shift in Hpage.
  pose proof (page_shift_bounds l.(lf_size)).
  rewrite !Z.shiftr_div_pow2 by lia.
  pose proof (Z.div_mod v (2 ^ page_shift l.(lf_size))).
  pose proof (Z.div_mod v' (2 ^ page_shift l.(lf_size))).
  assert (0 < 2 ^ page_shift l.(lf_size)) by (apply Z.pow_pos_nonneg; lia). nia.
Qed.

(** The physical address of a mapping fits 64 bits. *)
Lemma spec_walk_paddr b v l :
  spec_walk m b v = Mapped l -> uint 64 v ->
  uint 64 (l.(lf_base) + (v - page_base l.(lf_size) v)).
Proof.
  intros Hw Hv. destruct (spec_walk_leaf b v l Hw) as (_ & Hbase & _).
  destruct (paging_of_ok m Hmode Hcfg) as [Hmask _ _ _ _].
  pose proof (frame_uint (paging_of m) Hmask b l.(lf_addr) l.(lf_size)) as Hf.
  rewrite <- Hbase in Hf. pose proof (page_base_bounds l.(lf_size) v Hv).
  assert (bytes l.(lf_size) <= 2 ^ 30) by (by destruct (lf_size l)).
  unfold uint in *. lia.
Qed.

Lemma describes_ad b b' e v l :
  spec_walk m b v = Mapped l -> ad_mem m b b' -> describes m b e v l -> describes m b' e v l.
Proof.
  intros Hw Hle [H1 H2 H3 H4 H5 H6 H7 H8 H9]. split; try done. intros Hd Hst.
  destruct (spec_walk_leaf b v l Hw) as (Hal & _ & _).
  destruct (Hle _ Hal) as [(_ & _ & Hext) _]. apply Hext. by apply H8.
Qed.

Lemma entry_coherent_ad b b' e : ad_mem m b b' -> entry_coherent m b e -> entry_coherent m b' e.
Proof.
  intros Hle He v Hv Hb. destruct (He v Hv Hb) as (l & Hw & Hd).
  exists l. split; [by rewrite (spec_walk_ad b b')|]. by eapply describes_ad.
Qed.

(** *** The updating walk *)
Lemma upd_walk_spec b v o e b' :
  pdpt_private m b -> uint 64 v -> upd_walk m b v = (o, e, b') ->
  o = spec_walk m b v /\ ad_mem m b b' /\
  (forall l, o = Mapped l ->
     uint (entry_bits (paging_of m)) e /\ ad_ext (rd (paging_of m) b' l.(lf_addr)) e /\
     (sticky (paging_of m) l.(lf_addr) -> rd (paging_of m) b' l.(lf_addr) = e) /\
     l.(lf_base) = frame (paging_of m) l.(lf_size) e /\ Z.testbit e 5 = true /\
     l.(lf_global) = Mmu.cr4_pge m && Z.testbit e 8).
Proof.
  intros Hp Hv Hw. destruct (paging_of_ok m Hmode Hcfg).
  by apply (radix_upd_spec (paging_of m)) with (prot := pdpt_slot m) in Hw; [|done..|by apply Hp].
Qed.

(** The Dirty update at the end of a walk. *)
Lemma dirty_update b a leaf (access : AccessType) :
  let pg := paging_of m in
  let new_leaf := if is_write access then leaf ||| PTE_D else leaf in
  let b' := if negb (new_leaf =? leaf) then wr pg b a new_leaf else b in
  word_at pg a -> ~ pdpt_slot m a -> uint (entry_bits pg) leaf ->
  ad_ext (rd pg b a) leaf -> (sticky pg a -> rd pg b a = leaf) ->
  ad_mem m b b' /\ (sticky pg a -> rd pg b' a = new_leaf) /\
  (is_write access = true -> Z.testbit new_leaf 6 = true).
Proof.
  intros pg new_leaf b' Ha Hp Hu Hext Hst.
  assert (uint (entry_bits pg) new_leaf) as Hnu
    by (unfold new_leaf; case_if; [by apply uint_set_D|done]).
  assert (ad_ext leaf new_leaf) as Hne by (unfold new_leaf; case_if; [apply ad_ext_D|done]).
  unfold b'. destruct (Z.eqb_spec new_leaf leaf) as [Heq|_]; simpl; split_and!.
  - done.
  - intros Hs. by rewrite Heq, Hst.
  - intros Hwr. unfold new_leaf. rewrite Hwr, Z.lor_spec. apply orb_true_r.
  - apply wr_ad_le; try done. by etrans.
  - intros Hs. by apply Hs.
  - intros Hwr. unfold new_leaf. rewrite Hwr, Z.lor_spec. apply orb_true_r.
Qed.

(** The TLB entry a walk builds. *)
Definition filled (v : Z) (l : leaf) (dirty : bool) : TlbEntry.t :=
  TlbEntry.new (page_base l.(lf_size) v) l.(lf_base) l.(lf_size) m.(Mmu.pcid)
    (TlbEntryAttributes.mk l.(lf_user) l.(lf_writable) l.(lf_nx) l.(lf_global) l.(lf_addr)
       (pg_wide (paging_of m)) dirty).

Lemma filled_fields v l d :
  (filled v l d).(TlbEntry.vbase) = page_base l.(lf_size) v /\
  (filled v l d).(TlbEntry.page_size) = l.(lf_size) /\
  (filled v l d).(TlbEntry.leaf_addr) = l.(lf_addr) /\
  (filled v l d).(TlbEntry.pcid) = m.(Mmu.pcid).
Proof. done. Qed.

Lemma filled_coherent b v l d :
  spec_walk m b v = Mapped l -> uint 64 v ->
  (d = true -> sticky (paging_of m) l.(lf_addr) ->
   Z.testbit (rd (paging_of m) b l.(lf_addr)) 6 = true) ->
  TlbEntry.valid (filled v l d) = true /\ entry_ok (filled v l d) /\
  entry_coherent m b (filled v l d).
Proof.
  intros Hw Hv Hd. destruct (filled_fields v l d) as (Hvb & Hps & Hla & _). split_and!.
  - apply new_valid.
  - unfold entry_ok. rewrite Hvb, Hps.
    split; [by apply page_base_uint|by apply page_base_aligned].
  - intros v' Hv' Heq. rewrite Hvb, Hps in Heq.
    pose proof (spec_walk_same_page b v v' l Hw Hv Hv' Heq) as Hw'.
    exists l. split; [done|]. unfold filled.
    split; rewrite ?new_user, ?new_writable, ?new_nx, ?new_global, ?new_leaf_is_64, ?new_dirty;
      try done.
    pose proof (page_base_bounds l.(lf_size) v' Hv'). pose proof (spec_walk_paddr b v' l Hw' Hv').
    rewrite new_translate; rewrite Heq; [done|lia|done].
Qed.

(** What a page walk returns, and what it leaves in memory. *)
Lemma walk_spec env b v access is_user r b' :
  cow_force_rw_enabled env = false -> pdpt_private m b -> uint 64 v ->
  Mmu.walk env m b v access is_user = (r, b') ->
  ad_mem m b b' /\
  match r with
  | Err pf => spec_access m v access is_user (spec_walk m b v) = Err pf /\ pf.(PageFault.addr) = v
  | Ok (e, p) =>
      spec_access m v access is_user (spec_walk m b v) = Ok p /\
      exists l d, spec_walk m b v = Mapped l /\ e = filled v l d /\
        (d = true -> sticky (paging_of m) l.(lf_addr) ->
         Z.testbit (rd (paging_of m) b' l.(lf_addr)) 6 = true) /\
        (is_write access = true -> d = true)
  end.
Proof.
  intros Henv Hp Hv. rewrite walk_upd by done.
  destruct (upd_walk m b v) as [[o leaf] b1] eqn:Hw.
  destruct (upd_walk_spec b v o leaf b1 Hp Hv Hw) as (-> & Hle & Hl).
  unfold end_walk. destruct (spec_walk m b v) as [| |l] eqn:Hs.
  { intros [= <- <-]. done. }
  { intros [= <- <-]. done. }
  destruct (Hl l eq_refl) as (Hu & Hext & Hst & Hbase & HA & Hglob).
  destruct (spec_walk_leaf b v l Hs) as (Hal & _ & Hnp). specialize (Hnp Hp Hv).
  unfold Mmu.finish_leaf, spec_access.
  destruct (Mmu.check_perms _ _ _ _ _ _ _) as [[]|pf] eqn:Hc.
  2: { intros [= <- <-]. split_and!; [done|done|].
       unfold Mmu.check_perms in Hc. repeat case_if_in Hc; by simplify_eq. }
  destruct (dirty_update b1 l.(lf_addr) leaf access) as (Hle2 & Hst2 & Hd2); [done..|].
  simpl. change PTE_D64 with PTE_D in *. change PTE_G64 with PTE_G in *.
  unfold wr in Hle2, Hst2. intros [= <- <-]. split; [by etrans|]. split; [done|].
  rewrite test_D, test_G.
  exists l, (Z.testbit (if is_write access then leaf ||| PTE_D else leaf) 6).
  split_and!; [done|unfold filled; by rewrite Hglob| |done].
  intros Hd Hs'. rewrite <- Hd. exact (f_equal (fun z => Z.testbit z 6) (Hst2 Hs')).
Qed.
End Fixed.

(** ** The TLB operations, on both banks *)
Lemma tlb_insert_wf t x e :
  tlb_wf t -> TlbEntry.valid e = true -> entry_ok e -> tlb_wf (Tlb.insert t x e).
Proof. intros [? ?] ? ?. unfold Tlb.insert. case_if; split; simpl; try done; by apply insert_wf. Qed.

Lemma tlb_insert_inv t x e e' :
  tlb_wf t -> TlbEntry.valid e = true -> entry_ok e ->
  tlb_contains (Tlb.insert t x e) e' -> e' = e \/ tlb_contains t e'.
Proof.
  intros [? ?] ? ?. unfold Tlb.insert, tlb_contains.
  case_if; simpl; intros [Hc|Hc]; auto;
    apply insert_contains_inv in Hc; naive_solver.
Qed.

Lemma tlb_both_wf f t : (forall ts, wf ts -> wf (f ts)) -> tlb_wf t -> tlb_wf (Tlb.both f t).
Proof. intros Hf [? ?]. split; simpl; auto. Qed.

Lemma tlb_both_contains f t e (P : Prop) :
  (forall ts, wf ts -> contains (f ts) e <-> contains ts e /\ P) -> tlb_wf t ->
  tlb_contains (Tlb.both f t) e <-> tlb_contains t e /\ P.
Proof. intros Hf [? ?]. unfold tlb_contains. simpl. rewrite !Hf by done. tauto. Qed.

Lemma tlb_invalidate_all_contains t v e :
  tlb_wf t -> tlb_contains (Tlb.invalidate_address_all t v) e <->
  tlb_contains t e /\ e.(TlbEntry.vbase) <> page_base e.(TlbEntry.page_size) v.
Proof. apply tlb_both_contains. intros. by apply invalidate_address_all_contains. Qed.

Lemma tlb_set_dirty_wf t s w :
  tlb_wf t -> (s < SETS)%nat -> (w < WAYS)%nat -> tlb_wf (Tlb.set_dirty_slot t s w).
Proof. intros [? ?] ? ?. split; simpl; [done|by apply set_dirty_hit_wf]. Qed.

Lemma tlb_set_dirty_inv t s w e0 e :
  tlb_wf t -> (s < SETS)%nat -> (w < WAYS)%nat ->
  TlbSet.row t.(Tlb.dtlb) s !! w = Some e0 ->
  tlb_contains (Tlb.set_dirty_slot t s w) e ->
  tlb_contains t e \/ (e = TlbEntry.set_dirty e0 /\ tlb_contains t e0).
Proof.
  intros [? ?] ? ? Hrow [Hc|Hc]; simpl in Hc; [left; by left|].
  apply set_dirty_hit_contains in Hc; [|done..].
  assert (TlbSet.entry_at t.(Tlb.dtlb) s w = e0) as He
    by (unfold TlbSet.entry_at; by apply list_lookup_total_correct).
  rewrite He in Hc. unfold tlb_contains. naive_solver.
Qed.

(** A lookup returns an entry of the bank it probed. *)
Lemma tlb_lookup_Some t v x pc en p h :
  tlb_wf t -> uint 64 v -> Tlb.lookup t v x pc en p = Some h ->
  (h.(TlbHit.set) < SETS)%nat /\ (h.(TlbHit.way) < WAYS)%nat /\
  tlb_contains t h.(TlbHit.entry) /\ serves en v pc h.(TlbHit.entry) /\
  (x = false -> TlbSet.row t.(Tlb.dtlb) h.(TlbHit.set) !! h.(TlbHit.way) = Some h.(TlbHit.entry)).
Proof.
  intros [? ?] Hv. unfold Tlb.lookup, tlb_contains.
  case_if; intros Hl; apply lookup_Some in Hl as (? & ? & ? & ? & ?); try done; naive_solver.
Qed.

(** ** One translation *)

(** An entry for a page that was cached in [m], or for a page of [v]. *)
Definition of_page m (v : Z) (e : TlbEntry.t) : Prop :=
  e.(TlbEntry.vbase) = page_base e.(TlbEntry.page_size) v \/
  exists e0, visible m e0 /\ e0.(TlbEntry.vbase) = e.(TlbEntry.vbase) /\
    e0.(TlbEntry.page_size) = e.(TlbEntry.page_size).

Lemma of_page_old m v e : visible m e -> of_page m v e.
Proof. intros He. right. by exists e. Qed.

(** What a translation step of address [v] does to the MMU and to memory. *)
Record step_ok m b v access is_user (r : result Z TranslateFault) m' b' : Prop := {
  so_result : r = map_err PageFaultAt (spec_access m v access is_user (spec_walk m b v));
  so_config : same_config m m';
  so_mem : ad_mem m b b';
  so_coherent : coherent m' b';
  so_cr2 : m'.(Mmu.cr2) = match r with Ok _ => m.(Mmu.cr2) | Err _ => v end;
  so_dirty : is_write access = true -> forall p, r = Ok p ->
    exists l, spec_walk m b v = Mapped l /\
      (sticky (paging_of m) l.(lf_addr) ->
       Z.testbit (rd (paging_of m) b' l.(lf_addr)) 6 = true);
  so_pages : forall e, visible m' e -> of_page m v e;
}.

Lemma coherent_step m m' b b' :
  coherent m b -> same_config m m' -> ad_mem m b b' -> tlb_wf m'.(Mmu.tlb) ->
  (m.(Mmu.mode) <> Disabled -> forall e, visible m' e -> visible m e \/ entry_coherent m b' e) ->
  coherent m' b'.
Proof.
  intros [Hcfg Hwf Hpriv Hent] Hc Hle Hwf' Hvis.
  pose proof (paging_of_config m m' Hc) as Hpg.
  pose proof (fun b v => spec_walk_config m m' b v Hc) as Hsw.
  destruct Hc as (? & H3 & ? & ? & Hm & Hb & ? & ? & ?).
  split; [unfold mmu_cfg_ok in *; by rewrite H3, Hb|done|..]; rewrite Hm; intros Hmode.
  - pose proof (pdpt_private_ad m Hmode Hcfg b b' Hle (Hpriv Hmode)) as Hp.
    intros v Hv. specialize (Hp v Hv). rewrite Hpg. eapply Forall_impl; [done|].
    intros a. unfold pdpt_slot. by rewrite Hm, Hpg.
  - intros e He.
    assert (entry_coherent m b' e) as Hce.
    { destruct (Hvis Hmode e He) as [Hv|]; [|done].
      by apply (entry_coherent_ad m Hmode Hcfg b b'), Hent. }
    intros v Hv Hbase. destruct (Hce v Hv Hbase) as (l & Hw & Hd).
    exists l. rewrite Hsw. split; [done|].
    destruct Hd as [? ? ? ? ? ? Hwd Hdd ?]. by split; rewrite ?Hpg.
Qed.

Section Translate.
Context (env : option env_value) (Henv : cow_force_rw_enabled env = false).
Context (m : Mmu.t) (b : M) (Hco : coherent m b) (Hmode : m.(Mmu.mode) <> Disabled).
Context (v : Z) (Hv : uint 64 v).

(** A walk after dropping some entries: [t] is what remains of the TLB. *)
Lemma walk_and_fill_ok t access is_user r m' b' :
  tlb_wf t -> (forall e, tlb_contains t e -> tlb_contains m.(Mmu.tlb) e) ->
  Mmu.walk_and_fill env (Mmu.with_tlb m t) b v access is_user = (r, m', b') ->
  step_ok m b v access is_user r m' b'.
Proof.
  intros Hwf Hsub. unfold Mmu.walk_and_fill.
  destruct Hco as [Hcfg Hwf0 Hpriv Hent].
  change (Mmu.walk env (Mmu.with_tlb m t) b v access is_user)
    with (Mmu.walk env m b v access is_user).
  destruct (Mmu.walk env m b v access is_user) as [[[e p]|pf] b1] eqn:Hw;
    apply (walk_spec m Hmode Hcfg) in Hw; try (done || by apply Hpriv).
  - destruct Hw as (Hle & Hres & l & d & Hl & -> & Hd & Hwd).
    destruct (filled_coherent m Hmode Hcfg b1 v l d) as (Hval & Hok & Hcoh);
      [by rewrite (spec_walk_ad m Hmode Hcfg b b1)|done|done|].
    intros [= <- <- <-]. split; try done; [by rewrite Hres|..].
    + apply (coherent_step m _ b); try done; simpl; [by apply tlb_insert_wf|].
      intros _ e' [Hin Hmatch]. simpl in *.
      apply tlb_insert_inv in Hin as [->|Hin]; try done; [by right|].
      left. split; [by apply Hsub|done].
    + intros Hwr p' [= <-]. exists l. split; [done|]. auto.
    + intros e' [Hin Hmatch]. simpl in *.
      apply tlb_insert_inv in Hin as [->|Hin]; try done; [by left|].
      apply of_page_old. split; [by apply Hsub|done].
  - destruct Hw as (Hle & Hres & Haddr). intros [= <- <- <-].
    split; try done; [by rewrite Hres|..].
    + apply (coherent_step m _ b); try done. intros _ e [Hin Hmatch]. left. split; [by apply Hsub|done].
    + intros e [Hin Hmatch]. apply of_page_old. split; [by apply Hsub|done].
Qed.

Section Hit.
Context (h : TlbHit.t) (is_exec : bool).
Context (Hl : Tlb.lookup m.(Mmu.tlb) v is_exec (Mmu.current_pcid m) m.(Mmu.pcid_enabled)
                m.(Mmu.tlb_page_sizes) = Some h).

(** A hit entry describes the current mapping. *)
Lemma hit_describes : exists l, spec_walk m b v = Mapped l /\ describes m b h.(TlbHit.entry) v l.
Proof.
  destruct Hco as [Hcfg Hwf Hpriv Hent].
  destruct (tlb_lookup_Some _ _ _ _ _ _ _ Hwf Hv Hl) as (_ & _ & Hin & [Hm Hb] & _).
  by apply (Hent Hmode).
Qed.

(** A hit that changes nothing and whose answer is the specification's. *)
Lemma hit_keep_ok access is_user p :
  Ok p = map_err PageFaultAt (spec_access m v access is_user (spec_walk m b v)) ->
  (is_write access = true -> TlbEntry.dirty h.(TlbHit.entry) = true) ->
  step_ok m b v access is_user (Ok p) m b.
Proof.
  intros Hr Hd. destruct hit_describes as (l & Hw & He).
  split; try done; [|by intros e; apply of_page_old]. intros Hwr p' _. exists l. split; [done|].
  apply (de_dirty _ _ _ _ _ He). by apply Hd.
Qed.

Lemma hit_fault_ok access is_user :
  Err (PageFaultAt (PageFault.new v (pf_error_code true access is_user false))) =
  map_err PageFaultAt (spec_access m v access is_user (spec_walk m b v)) ->
  step_ok m b v access is_user
    (Err (PageFaultAt (PageFault.new v (pf_error_code true access is_user false))))
    (Mmu.with_cr2 m v) b.
Proof.
  intros Hr. split; try done; [|intros e He; by apply (of_page_old m)].
  apply (coherent_step m _ b); try done; [by apply Hco|].
  intros _ e He. by left.
Qed.

(** The first write through an entry: Dirty is set in the leaf and in the
    entry. *)
Lemma write_hit_dirty_ok is_user p :
  is_exec = false ->
  Ok p = map_err PageFaultAt (spec_access m v Write is_user (spec_walk m b v)) ->
  let e := h.(TlbHit.entry) in
  let a := e.(TlbEntry.leaf_addr) in
  step_ok m b v Write is_user (Ok p)
    (Mmu.with_tlb m (Tlb.set_dirty_slot m.(Mmu.tlb) h.(TlbHit.set) h.(TlbHit.way)))
    (wr (paging_of m) b a (rd (paging_of m) b a ||| PTE_D)).
Proof.
  intros Hx Hr e a. pose proof Hco as [Hcfg Hwf Hpriv Hent].
  destruct (tlb_lookup_Some _ _ _ _ _ _ _ Hwf Hv Hl) as (Hs & Hway & Hin & [Hm Hb] & Hrow).
  specialize (Hrow Hx). destruct hit_describes as (l & Hw & He).
  destruct (spec_walk_leaf m Hmode Hcfg b v l Hw) as (Hal & Hbase & Hnp).
  assert (a = l.(lf_addr)) as Ha by apply (de_addr _ _ _ _ _ He).
  assert (ad_mem m b (wr (paging_of m) b a (rd (paging_of m) b a ||| PTE_D))) as Hle.
  { rewrite Ha. apply wr_ad_le; [done|by apply Hnp; [apply Hpriv|]|..|apply ad_ext_D].
    apply uint_set_D, rd_range. }
  assert (sticky (paging_of m) l.(lf_addr) ->
    Z.testbit (rd (paging_of m) (wr (paging_of m) b a (rd (paging_of m) b a ||| PTE_D)) l.(lf_addr)) 6
    = true) as Hbit.
  { intros Hst. rewrite Ha, Hst by apply uint_set_D, rd_range. rewrite Z.lor_spec. apply orb_true_r. }
  split; try done; [|by exists l|].
  2:{ intros e' [Hin' Hm']. simpl in Hin', Hm'.
      eapply tlb_set_dirty_inv in Hin' as [?|[-> _]]; [by apply of_page_old| |done..|done]. right. by exists e. }
  apply (coherent_step m _ b); try done; [by apply tlb_set_dirty_wf|].
  intros _ e' [Hin' Hm']. simpl in Hin', Hm'.
  eapply tlb_set_dirty_inv in Hin' as [?|[-> _]]; [by left| |done..|done]. right.
  intros v' Hv' Hb'. change (TlbEntry.vbase e = page_base (TlbEntry.page_size e) v') in Hb'.
  destruct (Hent Hmode e (conj Hin Hm) v' Hv' Hb') as (l' & Hw' & He').
  assert (l' = l) as ->.
  { rewrite (spec_walk_same_page m Hmode Hcfg b v v' l) in Hw'; try done; [by simplify_eq|].
    rewrite (de_size _ _ _ _ _ He). by etrans. }
  exists l. split; [by rewrite (spec_walk_ad m Hmode Hcfg b)|].
  pose proof (describes_ad m Hmode Hcfg b _ e v' l Hw' Hle He') as [? ? ? ? ? ? ? ? ?].
  by split; rewrite ?set_dirty_user, ?set_dirty_writable, ?set_dirty_nx, ?set_dirty_global,
    ?set_dirty_leaf_is_64.
Qed.
End Hit.

Lemma write_hit_ok h is_user r m' b' :
  Tlb.lookup m.(Mmu.tlb) v false (Mmu.current_pcid m) m.(Mmu.pcid_enabled)
    m.(Mmu.tlb_page_sizes) = Some h ->
  Mmu.write_hit env m b h v is_user = (r, m', b') -> step_ok m b v Write is_user r m' b'.
Proof.
  intros Hl. destruct (hit_describes h false Hl) as (l & Hw & He). unfold Mmu.write_hit.
  set (need := if is_user then _ else _).
  destruct need eqn:Hneed; unfold need in Hneed.
  { intros Hf. eapply walk_and_fill_ok; [..|exact Hf].
    - apply tlb_both_wf; [|by apply Hco]. intros. by apply invalidate_address_all_wf.
    - intros e. rewrite tlb_invalidate_all_contains by apply Hco. tauto. }
  assert (Ok (TlbEntry.translate h.(TlbHit.entry) v) =
          map_err PageFaultAt (spec_access m v Write is_user (spec_walk m b v))) as Hok.
  { rewrite Hw. simpl. rewrite <- (de_paddr _ _ _ _ _ He). unfold Mmu.check_perms.
    rewrite <- (de_user _ _ _ _ _ He), <- (de_writable _ _ _ _ _ He). simpl.
    destruct is_user; simpl in *; [|by rewrite Hneed].
    apply orb_false_iff in Hneed as [-> ->]. done. }
  destruct (TlbEntry.dirty h.(TlbHit.entry)) eqn:Hd; simpl.
  { intros [= <- <- <-]. by eapply hit_keep_ok. }
  intros [= <- <- Hb]. subst b'.
  pose proof (write_hit_dirty_ok h false Hl is_user _ eq_refl Hok) as Hs. simpl in Hs.
  rewrite (de_wide _ _ _ _ _ He). unfold wr, rd in Hs. destruct (pg_wide (paging_of m)); [done|].
  rewrite wrap_small in Hs; [done|]. apply uint_lor; [lia|apply read_u32_range|done].
Qed.

Lemma access_hit_ok h access is_user :
  Tlb.lookup m.(Mmu.tlb) v (is_execute access) (Mmu.current_pcid m) m.(Mmu.pcid_enabled)
    m.(Mmu.tlb_page_sizes) = Some h -> is_write access = false ->
  forall r m' b',
  (if (is_user && negb (TlbEntry.user h.(TlbHit.entry)))
      || (is_execute access && TlbEntry.nx h.(TlbHit.entry))
   then Mmu.hit_fault m b v access is_user
   else (Ok (TlbEntry.translate h.(TlbHit.entry) v), m, b)) = (r, m', b') ->
  step_ok m b v access is_user r m' b'.
Proof.
  intros Hl Hwr r m' b'. destruct (hit_describes h _ Hl) as (l & Hw & He).
  assert (spec_access m v access is_user (spec_walk m b v) =
    if (is_user && negb (TlbEntry.user h.(TlbHit.entry)))
       || (is_execute access && TlbEntry.nx h.(TlbHit.entry))
    then Err (PageFault.new v (pf_error_code true access is_user false))
    else Ok (TlbEntry.translate h.(TlbHit.entry) v)) as Hspec.
  { rewrite Hw. simpl. rewrite <- (de_paddr _ _ _ _ _ He), <- (de_user _ _ _ _ _ He),
      <- (de_nx _ _ _ _ _ He). unfold Mmu.check_perms. rewrite Hwr. simpl.
    destruct (is_user && _); simpl; [done|]. by destruct (is_execute access && _). }
  destruct (_ || _); intros [= <- <- <-].
  - apply hit_fault_ok. by rewrite Hspec.
  - eapply hit_keep_ok; [done|by rewrite Hspec|congruence].
Qed.

Lemma translate_paged_ok access is_user r m' b' :
  match Tlb.lookup m.(Mmu.tlb) v (is_execute access) (Mmu.current_pcid m) m.(Mmu.pcid_enabled)
          m.(Mmu.tlb_page_sizes) with
  | Some hit =>
      let entry := hit.(TlbHit.entry) in
      match access with
      | Read =>
          if is_user && negb (TlbEntry.user entry) then Mmu.hit_fault m b v access is_user
          else (Ok (TlbEntry.translate entry v), m, b)
      | Execute =>
          if is_user && negb (TlbEntry.user entry) then Mmu.hit_fault m b v access is_user
          else if TlbEntry.nx entry then Mmu.hit_fault m b v access is_user
          else (Ok (TlbEntry.translate entry v), m, b)
      | Write => Mmu.write_hit env m b hit v is_user
      end
  | None => Mmu.walk_and_fill env m b v access is_user
  end = (r, m', b') ->
  step_ok m b v access is_user r m' b'.
Proof.
  destruct (Tlb.lookup _ _ _ _ _ _) as [h|] eqn:Hl; simpl.
  - destruct access; simpl; intros Hr.
    + eapply access_hit_ok; [done|done|]. simpl. by rewrite orb_false_r.
    + by eapply write_hit_ok.
    + eapply access_hit_ok; [done|done|]. simpl.
      destruct (is_user && _); simpl; [done|]. by destruct (TlbEntry.nx _).
  - replace m with (Mmu.with_tlb m m.(Mmu.tlb)) at 1 by (by destruct m).
    apply walk_and_fill_ok; [apply Hco|done].
Qed.
End Translate.

(** ** Refinement *)
Lemma linear_address_uint m vaddr v :
  uint 64 vaddr -> Mmu.linear_address m vaddr = Ok v -> uint 64 v.
Proof.
  intros Hv. unfold Mmu.linear_address. destruct (m.(Mmu.mode)).
  - intros [= <-]. apply uint_land_l; done || lia.
  - intros [= <-]. apply (uint_weaken 32); [lia|]. apply uint_wrap. lia.
  - intros [= <-]. apply (uint_weaken 32); [lia|]. apply uint_wrap. lia.
  - by case_if; intros; simplify_eq.
Qed.

(** The steps a translation takes, for every outcome of the address check. *)
Lemma translate_ok env m b vaddr access cpl r m' b' :
  cow_force_rw_enabled env = false -> coherent m b -> uint 64 vaddr ->
  Mmu.translate env m b vaddr access cpl = (r, m', b') ->
  match Mmu.linear_address m vaddr with
  | Err f => r = Err f /\ m' = m /\ b' = b
  | Ok v => if bool_decide (m.(Mmu.mode) = Disabled) then r = Ok v /\ m' = m /\ b' = b
            else step_ok m b v access (cpl =? 3) r m' b'
  end.
Proof.
  intros Henv Hco Hu. unfold Mmu.translate.
  destruct (Mmu.linear_address m vaddr) as [v|f] eqn:Hv; [|by intros [= <- <- <-]].
  apply linear_address_uint in Hv; [|done].
  case_bool_decide; [by intros [= <- <- <-]|]. by apply translate_paged_ok.
Qed.

Lemma translate_refines env m b vaddr access cpl r m' b' :
  cow_force_rw_enabled env = false -> coherent m b -> uint 64 vaddr ->
  Mmu.translate env m b vaddr access cpl = (r, m', b') ->
  r = spec_translate m b vaddr access cpl /\ coherent m' b' /\ same_config m m' /\ ad_mem m b b'.
Proof.
  intros Henv Hco Hu Ht. pose proof (translate_ok _ _ _ _ _ _ _ _ _ Henv Hco Hu Ht) as Hs.
  unfold spec_translate. destruct (Mmu.linear_address m vaddr) as [v|f]; simpl.
  - case_bool_decide; [by destruct Hs as (-> & -> & ->)|]. by destruct Hs.
  - by destruct Hs as (-> & -> & ->).
Qed.

(** The probe entry point gives the same answers without touching anything. *)
Lemma translate_probe_spec m b vaddr access cpl :
  coherent m b -> uint 64 vaddr ->
  Mmu.translate_probe m b vaddr access cpl = spec_translate m b vaddr access cpl.
Proof.
  intros Hco Hu. unfold Mmu.translate_probe, spec_translate.
  destruct (Mmu.linear_address m vaddr) as [v|f] eqn:Hv; simpl; [|done].
  apply linear_address_uint in Hv; [|done]. case_bool_decide as Hmode; [done|].
  destruct (Tlb.lookup _ _ _ _ _ _) as [h|] eqn:Hl; [|by rewrite walk_probe_spec].
  destruct (hit_describes m b Hco Hmode v Hv h _ Hl) as (l & Hw & He).
  rewrite Hw. simpl.
  rewrite <- (de_paddr _ _ _ _ _ He), <- (de_user _ _ _ _ _ He), <- (de_nx _ _ _ _ _ He),
    <- (de_writable _ _ _ _ _ He).
  unfold Mmu.check_perms.
  destruct access, (cpl =? 3), (TlbEntry.user _), (TlbEntry.writable _), (TlbEntry.nx _),
    (Mmu.wp_enabled m); done.
Qed.

(** ** Sequences of accesses *)

(** The accesses of a guest that does not edit its page tables. *)
Fixpoint translate_all (env : option env_value) m b (ops : list (Z * AccessType * Z)) :
    list (result Z TranslateFault) * Mmu.t * M :=
  match ops with
  | [] => ([], m, b)
  | (vaddr, access, cpl) :: ops =>
      let '(r, m, b) := Mmu.translate env m b vaddr access cpl in
      let '(rs, m, b) := translate_all env m b ops in
      (r :: rs, m, b)
  end.

Lemma spec_translate_stable m m' b b' vaddr access cpl :
  coherent m b -> same_config m m' -> ad_mem m b b' ->
  spec_translate m' b' vaddr access cpl = spec_translate m b vaddr access cpl.
Proof.
  intros [Hcfg _ _ _] Hc Hle. unfold spec_translate.
  assert (m'.(Mmu.mode) = m.(Mmu.mode)) as Hm by apply Hc.
  assert (Mmu.linear_address m' vaddr = Mmu.linear_address m vaddr) as ->
    by (unfold Mmu.linear_address; by rewrite Hm).
  destruct (Mmu.linear_address m vaddr) as [v|f]; simpl; [|reflexivity].
  rewrite Hm. case_bool_decide as Hd; [reflexivity|]. f_equal.
  rewrite (spec_walk_config m m' b' v Hc), (spec_walk_ad m Hd Hcfg b b' v Hle).
  destruct (spec_walk m b v) as [| |l]; [reflexivity..|]. simpl.
  unfold Mmu.check_perms, Mmu.wp_enabled. by destruct Hc as (-> & _).
Qed.

Lemma coherent_config m m' b b' : coherent m b -> coherent m' b' -> same_config m m' ->
  ad_mem m b b' -> forall b'', ad_mem m' b' b'' -> ad_mem m b b''.
Proof.
  intros Hco Hco' Hc Hle b'' Hle'. etrans; [exact Hle|]. unfold ad_mem, pdpt_slot in *.
  rewrite (paging_of_config m m' Hc) in Hle'. by destruct Hc as (_ & _ & _ & _ & <- & _).
Qed.

Lemma same_config_trans m1 m2 m3 : same_config m1 m2 -> same_config m2 m3 -> same_config m1 m3.
Proof. unfold same_config. intuition congruence. Qed.

Lemma translate_all_spec env ops m b rs m' b' :
  cow_force_rw_enabled env = false -> coherent m b ->
  Forall (fun op => uint 64 op.1.1) ops -> translate_all env m b ops = (rs, m', b') ->
  rs = map (fun op => spec_translate m b op.1.1 op.1.2 op.2) ops /\
  coherent m' b' /\ same_config m m' /\ ad_mem m b b'.
Proof.
  intros Henv. revert m b rs.
  induction ops as [|[[vaddr access] cpl] ops IH]; intros m b rs Hco Hops Ht; simpl in Ht.
  { simplify_eq. by split_and!. }
  apply Forall_cons_iff in Hops as [Hu Hops].
  destruct (Mmu.translate env m b vaddr access cpl) as [[r m1] b1] eqn:H1.
  destruct (translate_all env m1 b1 ops) as [[rs1 m2] b2] eqn:H2. simplify_eq.
  apply translate_refines in H1 as (-> & Hco1 & Hc1 & Hle1); [|done..].
  apply IH in H2 as (-> & Hco2 & Hc2 & Hle2); [|done..].
  split_and!; [|done|exact (same_config_trans _ _ _ Hc1 Hc2)
    |exact (coherent_config _ _ _ _ Hco Hco1 Hc1 Hle1 _ Hle2)].
  simpl. f_equal. apply map_ext_in. intros op _. by apply spec_translate_stable.
Qed.

(** ** Restoring coherence *)

(** The addresses accesses reach the page tables with: canonical in long
    mode, of 32 bits in the other modes. *)
Definition linear m (v : Z) : Prop := Mmu.linear_address m v = Ok v.

(** The TLB caches pages of such addresses only. *)
Definition linear_entries m : Prop :=
  forall e, visible m e -> forall v, uint 64 v -> e.(TlbEntry.vbase) = page_base e.(TlbEntry.page_size) v -> linear m v.

(** The size of the page that maps [v]: 4K when none does. *)
Definition mapped_size m b (v : Z) : PageSize :=
  match spec_walk m b v with Mapped l => l.(lf_size) | _ => Size4K end.

(** The guest edited the mapping of the page of [v] only, be it a 4K page or a
    large one: [b'] maps every other page as [b] does. *)
Definition edits_page m b b' (v : Z) : Prop :=
  let s := mapped_size m b v in
  forall v' l, uint 64 v' -> linear m v' -> page_base s v' <> page_base s v ->
    spec_walk m b v' = Mapped l ->
    spec_walk m b' v' = Mapped l /\
    (Z.testbit (rd (paging_of m) b l.(lf_addr)) 6 = true ->
     Z.testbit (rd (paging_of m) b' l.(lf_addr)) 6 = true).

Lemma page_base_coarser s v v' :
  uint 64 v -> uint 64 v' -> page_base Size4K v = page_base Size4K v' -> page_base s v = page_base s v'.
Proof.
  intros Hv Hv' Heq. rewrite !page_base_eq in * by done. rewrite bytes_shift in *.
  pose proof (page_shift_bounds s). simpl in Heq. change (bytes Size4K) with (2 ^ 12) in Heq.
  assert (v / 2 ^ 12 = v' / 2 ^ 12) as Hd.
  { pose proof (Z.div_mod v (2 ^ 12)). pose proof (Z.div_mod v' (2 ^ 12)). lia. }
  assert (v / 2 ^ page_shift s = v' / 2 ^ page_shift s) as Hd'.
  { replace (page_shift s) with (12 + (page_shift s - 12)) by lia.
    rewrite Z.pow_add_r, <- !Z.div_div by (done || lia || apply Z.pow_pos_nonneg; lia).
    by rewrite Hd. }
  pose proof (Z.div_mod v (2 ^ page_shift s)). pose proof (Z.div_mod v' (2 ^ page_shift s)).
  assert (0 < 2 ^ page_shift s) by (apply Z.pow_pos_nonneg; lia). nia.
Qed.

Lemma invlpg_visible m v e :
  tlb_wf m.(Mmu.tlb) -> visible (Mmu.invlpg m v) e ->
  visible m e /\ e.(TlbEntry.vbase) <> page_base e.(TlbEntry.page_size) v.
Proof.
  intros Hwf. unfold visible, Mmu.invlpg. destruct (m.(Mmu.pcid_enabled)) eqn:Hen; simpl.
  - unfold Tlb.invalidate_address_pcid.
    rewrite tlb_both_contains by (try done; intros; by apply invalidate_address_pcid_contains).
    rewrite Hen, matches_pcid_spec. unfold Mmu.current_pcid. simpl.
    intros [[Hin Hno] Hm]. split; [done|]. intros Hb. apply Hno. split; [done|].
    apply andb_true_iff in Hm as [_ Hm]. destruct (TlbEntry.global e); [done|].
    by apply Z.eqb_eq in Hm.
  - rewrite tlb_invalidate_all_contains by done. rewrite Hen. naive_solver.
Qed.

Lemma invlpg_keeps m v e :
  tlb_wf m.(Mmu.tlb) -> visible m e -> e.(TlbEntry.vbase) <> page_base e.(TlbEntry.page_size) v ->
  visible (Mmu.invlpg m v) e.
Proof.
  intros Hwf [Hin Hm] Hne. unfold visible, Mmu.invlpg. destruct (m.(Mmu.pcid_enabled)) eqn:Hen; simpl.
  - unfold Tlb.invalidate_address_pcid.
    rewrite tlb_both_contains by (try done; intros; by apply invalidate_address_pcid_contains).
    rewrite Hen in *. split; [|done]. split; [done|]. by intros [Hb _].
  - rewrite tlb_invalidate_all_contains by done. rewrite Hen in *. done.
Qed.

Lemma invlpg_wf m v : tlb_wf m.(Mmu.tlb) -> tlb_wf (Mmu.invlpg m v).(Mmu.tlb).
Proof.
  intros Hwf. unfold Mmu.invlpg. case_if; simpl; (apply tlb_both_wf; [|done]); intros.
  - by apply invalidate_address_pcid_wf.
  - by apply invalidate_address_all_wf.
Qed.

(** The pages of a linear address hold linear addresses only. *)
Lemma linear_page m s v v' :
  linear m v -> uint 64 v -> uint 64 v' -> page_base s v' = page_base s v -> linear m v'.
Proof.
  intros Hl Hv Hv' Heq. assert (forall k, 30 <= k -> v' / 2 ^ k = v / 2 ^ k) as Hdiv.
  { intros k Hk. rewrite !page_base_eq, bytes_shift in Heq by done. pose proof (page_shift_bounds s).
    assert (0 < 2 ^ page_shift s) by (apply Z.pow_pos_nonneg; lia).
    assert (v' / 2 ^ page_shift s = v / 2 ^ page_shift s) as Hs.
    { pose proof (Z.div_mod v (2 ^ page_shift s)). pose proof (Z.div_mod v' (2 ^ page_shift s)). nia. }
    replace k with (page_shift s + (k - page_shift s)) by lia.
    rewrite Z.pow_add_r, <- !Z.div_div by (lia || apply Z.pow_pos_nonneg; lia). by rewrite Hs. }
  assert (v < 2 ^ 32 -> v' < 2 ^ 32) as Hlow.
  { intros Hlt. specialize (Hdiv 32 ltac:(lia)). rewrite (Z.div_small v) in Hdiv by (unfold uint in *; lia).
    apply Z.div_small_iff in Hdiv; [|lia]. lia. }
  unfold linear, Mmu.linear_address in *. destruct (Mmu.mode m).
  - injection Hl as Hl. change 0xffffffff with (Z.ones 32) in *. rewrite land_ones_mod in * by lia.
    rewrite Z.mod_small; [done|]. split; [apply Hv'|]. apply Hlow. rewrite <- Hl. by apply Z.mod_pos_bound.
  - injection Hl as Hl. rewrite wrap_small; [done|]. split; [apply Hv'|]. apply Hlow. rewrite <- Hl. by apply uint_wrap.
  - injection Hl as Hl. rewrite wrap_small; [done|]. split; [apply Hv'|]. apply Hlow. rewrite <- Hl. by apply uint_wrap.
  - unfold is_canonical_48 in *. rewrite Z.shiftr_div_pow2 in * by lia. rewrite Hdiv by lia. by destruct (negb _).
Qed.

Lemma linear_idem m vaddr v : uint 64 vaddr -> Mmu.linear_address m vaddr = Ok v -> linear m v.
Proof.
  intros Hu. unfold linear, Mmu.linear_address. destruct (Mmu.mode m).
  - intros [= <-]. change 0xffffffff with (Z.ones 32). by rewrite <- Z.land_assoc, Z.land_diag.
  - intros [= <-]. rewrite (wrap_small 32 (wrap 32 vaddr)); [done|]. by apply uint_wrap.
  - intros [= <-]. rewrite (wrap_small 32 (wrap 32 vaddr)); [done|]. by apply uint_wrap.
  - destruct (negb (is_canonical_48 vaddr)) eqn:E; [done|]. intros [= <-]. by rewrite E.
Qed.

Lemma translate_linear env m b vaddr access cpl r m' b' :
  cow_force_rw_enabled env = false -> coherent m b -> linear_entries m -> uint 64 vaddr ->
  Mmu.translate env m b vaddr access cpl = (r, m', b') -> linear_entries m'.
Proof.
  intros Henv Hco Hlin Hu Ht. pose proof (translate_ok _ _ _ _ _ _ _ _ _ Henv Hco Hu Ht) as Hs.
  destruct (Mmu.linear_address m vaddr) as [v|f] eqn:Hv; [|by destruct Hs as (_ & -> & _)].
  case_bool_decide; [by destruct Hs as (_ & -> & _)|].
  pose proof (linear_address_uint m vaddr v Hu Hv) as Huv. apply linear_idem in Hv; [|done].
  intros e He w Hw Hb. assert (linear m w) as Hlw.
  { destruct (so_pages _ _ _ _ _ _ _ _ Hs e He) as [Hp|(e0 & He0 & Hvb & Hps)].
    - apply (linear_page m (TlbEntry.page_size e) v); [done..|congruence].
    - apply (Hlin e0 He0 w Hw). congruence. }
  pose proof (so_config _ _ _ _ _ _ _ _ Hs) as Hc. unfold linear, Mmu.linear_address in *.
  assert (m'.(Mmu.mode) = m.(Mmu.mode)) as -> by apply Hc. done.
Qed.

Lemma translate_all_linear env ops m b rs m' b' :
  cow_force_rw_enabled env = false -> coherent m b -> linear_entries m ->
  Forall (fun op => uint 64 op.1.1) ops -> translate_all env m b ops = (rs, m', b') -> linear_entries m'.
Proof.
  intros Henv. revert m b rs.
  induction ops as [|[[vaddr access] cpl] ops IH]; intros m b rs Hco Hlin Hops Ht; simpl in Ht; [by simplify_eq|].
  apply Forall_cons_iff in Hops as [Hu Hops].
  destruct (Mmu.translate env m b vaddr access cpl) as [[r m1] b1] eqn:H1.
  destruct (translate_all env m1 b1 ops) as [[rs1 m2] b2] eqn:H2. simplify_eq.
  pose proof (translate_linear _ _ _ _ _ _ _ _ _ Henv Hco Hlin Hu H1) as Hlin1.
  apply translate_refines in H1 as (_ & Hco1 & _ & _); [|done..]. by apply (IH m1 b1 rs1).
Qed.

(** What INVLPG leaves is not for the edited page. *)
Lemma invlpg_apart m b v e v' l :
  m.(Mmu.mode) <> Disabled -> mmu_cfg_ok m -> uint 64 v -> uint 64 v' ->
  e.(TlbEntry.vbase) <> page_base e.(TlbEntry.page_size) v ->
  e.(TlbEntry.vbase) = page_base e.(TlbEntry.page_size) v' ->
  spec_walk m b v' = Mapped l -> l.(lf_size) = e.(TlbEntry.page_size) ->
  page_base (mapped_size m b v) v' <> page_base (mapped_size m b v) v.
Proof.
  intros Hm Hcfg Hv Hv' Hne Hb Hw Hsz. unfold mapped_size.
  assert (page_base Size4K v' <> page_base Size4K v) as H4K.
  { intros Heq. apply Hne. rewrite Hb. by apply page_base_coarser. }
  destruct (spec_walk m b v) as [| |lv] eqn:Hwv; [done..|]. intros Heq.
  rewrite (spec_walk_same_page m Hm Hcfg b v v' lv Hwv) in Hw by done. injection Hw as ->.
  apply Hne. by rewrite Hb, <- Hsz.
Qed.

Lemma invlpg_coherent m b b' v :
  coherent m b -> linear_entries m -> uint 64 v -> edits_page m b b' v ->
  (m.(Mmu.mode) <> Disabled -> pdpt_private m b') ->
  coherent (Mmu.invlpg m v) b' /\ linear_entries (Mmu.invlpg m v).
Proof.
  intros [Hcfg Hwf Hpriv Hent] Hlin Hv Hedit Hpriv'.
  assert (same_config m (Mmu.invlpg m v)) as Hc by (unfold Mmu.invlpg; by case_if; split_and!).
  assert ((Mmu.invlpg m v).(Mmu.mode) = m.(Mmu.mode)) as Hmode by apply Hc.
  pose proof (paging_of_config _ _ Hc) as Hpg.
  split; [split; [unfold Mmu.invlpg; by case_if|by apply invlpg_wf|..]; rewrite Hmode; intros Hm|].
  - intros v' Hv'. rewrite Hpg. eapply Forall_impl; [by apply Hpriv'|].
    intros a. unfold pdpt_slot. by rewrite Hmode, Hpg.
  - intros e He. apply invlpg_visible in He as [He Hne]; [|done].
    intros v' Hv' Hb. destruct (Hent Hm e He v' Hv' Hb) as (l & Hw & [? ? ? ? ? ? ? Hd ?]).
    destruct (Hedit v' l Hv' (Hlin e He v' Hv' Hb)) as [Hw' Hd']; [by eapply invlpg_apart|done|].
    exists l. rewrite (spec_walk_config _ _ _ _ Hc). split; [done|].
    by split; rewrite ?Hpg; auto.
  - intros e He v' Hv' Hb. apply invlpg_visible in He as [He _]; [|done].
    unfold linear, Mmu.linear_address. rewrite Hmode. by apply (Hlin e He v').
Qed.

(** A flush of everything the context can hit makes any page tables coherent. *)
Lemma flushed_coherent m b :
  mmu_cfg_ok m -> tlb_wf m.(Mmu.tlb) -> (m.(Mmu.mode) <> Disabled -> pdpt_private m b) ->
  (forall e, ~ visible m e) -> coherent m b.
Proof. intros ? ? ? Hno. split; [assumption..|]. intros _ e He. destruct (Hno e He). Qed.
End Coherence.
