(* ===== verification/GuestMem.v ===== *)
(** * Guest physical memory (crates/memory/src/phys.rs)

    The [GuestMemory] trait as a class with its contract [GuestMemorySpec]: a
    guest memory is an array of bytes, some of which may have no storage behind
    them ([gm_backed]) and ignore writes; reads and writes outside the array
    fail and change nothing.  [DenseMemory] and the chunked, lazily allocated
    [SparseMemory] are shown to meet the contract; clients ([PhysBus]) are
    proved against it.

    Byte-slice borrows ([get_slice]) are modelled by the bytes they give access
    to.  [get_slice_mut] and the wasm shared-memory backend (raw pointers into
    linear memory) are not modelled. *)

From S2P Require Import Prelude Bytes.

Inductive GuestMemoryError :=
| OutOfRange (paddr : Z) (len : nat) (size : Z)
| SizeTooLarge (size : Z)
| InvalidChunkSize (chunk_size : nat).

#[export] Instance GuestMemoryError_eq_dec : EqDecision GuestMemoryError.
Proof. solve_decision. Defined.

Abbreviation GuestMemoryResult A := (result A GuestMemoryError).

(** The trait.  [read_into] returns the bytes it copies into the buffer of
    length [n]. *)
Class GuestMemory (M : Type) := {
  size : M -> Z;
  read_into : M -> Z -> nat -> GuestMemoryResult (list Z);
  write_from : M -> Z -> list Z -> GuestMemoryResult unit * M;
  get_slice : M -> Z -> nat -> option (list Z);
}.

(** Provided methods [read_uN_le] / [write_uN_le], [n] the width in bytes. *)
Definition read_le `{GuestMemory M} (n : nat) (m : M) (paddr : Z) : GuestMemoryResult Z :=
  let? buf := read_into m paddr n in Ok (from_le_bytes buf).
Definition write_le `{GuestMemory M} (n : nat) (m : M) (paddr value : Z) :
    GuestMemoryResult unit * M :=
  write_from m paddr (to_le_bytes n value).

(** A byte array after a write of [src] at [p]. *)
Definition splice (f : Z -> Z) (p : Z) (src : list Z) (a : Z) : Z :=
  if (p <=? a) && (a <? p + Z.of_nat (length src)) then default 0 (src !! Z.to_nat (a - p)) else f a.

(** The contract: what the representation invariant and the bytes are, which
    bytes have storage behind them, which page of a change-tracking bitmap a
    byte belongs to, if any, and which pages are marked. *)
Class GuestMemoryView (M : Type) := {
  gm_ok : M -> Prop;
  gm_byte : M -> Z -> Z;
  gm_backed : M -> Z -> bool;
  gm_page : M -> Z -> option Z;
  gm_mark : M -> Z -> bool;
}.

(** The memory after a write of [src] at [p]. *)
Record gm_written `{GuestMemory M} `{GuestMemoryView M} (m : M) (p : Z) (src : list Z) (m' : M) : Prop := {
  gw_ok : gm_ok m';
  gw_size : size m' = size m;
  gw_backed : forall a, gm_backed m' a = gm_backed m a;
  gw_page : forall a, gm_page m' a = gm_page m a;
  gw_mark : forall c, gm_mark m' c = true <->
    gm_mark m c = true \/ exists x, p <= x < p + Z.of_nat (length src) /\ gm_page m x = Some c;
  gw_byte : forall a, 0 <= a < size m ->
    gm_byte m' a = if gm_backed m a then splice (gm_byte m) p src a else gm_byte m a;
}.

Class GuestMemorySpec (M : Type) `{GuestMemory M} `{GuestMemoryView M} : Prop := {
  gm_size_ok : forall m, gm_ok m -> uint 64 (size m);
  gm_byte_ok : forall m a, gm_ok m -> byte_ok (gm_byte m a);
  gm_read : forall m p n, gm_ok m -> uint 64 p ->
    read_into m p n =
    if p + Z.of_nat n <=? size m then Ok (span (gm_byte m) p n) else Err (OutOfRange p n (size m));
  gm_write_in : forall m p src, gm_ok m -> uint 64 p -> Forall byte_ok src ->
    p + Z.of_nat (length src) <= size m ->
    exists m', write_from m p src = (Ok tt, m') /\ gm_written m p src m';
  gm_write_out : forall m p src, gm_ok m -> uint 64 p -> Forall byte_ok src ->
    size m < p + Z.of_nat (length src) ->
    write_from m p src = (Err (OutOfRange p (length src) (size m)), m);
  gm_slice : forall m p n s, gm_ok m -> uint 64 p -> get_slice m p n = Some s ->
    p + Z.of_nat n <= size m /\ s = span (gm_byte m) p n;
}.

Definition check_range (size paddr : Z) (len : nat) : GuestMemoryResult unit :=
  let len_u64 := Z.of_nat len in
  let? end_ := ok_or (OutOfRange paddr len size) (checked_add 64 paddr len_u64) in
  if size <? end_ then Err (OutOfRange paddr len size) else Ok tt.

Lemma check_range_spec sz p n :
  uint 64 sz -> uint 64 p ->
  check_range sz p n = if p + Z.of_nat n <=? sz then Ok tt else Err (OutOfRange p n sz).
Proof.
  intros Hs Hp. unfold check_range, checked_add. unfold uint in *.
  destruct (Z.ltb_spec (p + Z.of_nat n) (2 ^ 64)), (Z.leb_spec (p + Z.of_nat n) sz); simpl;
    try destruct (Z.ltb_spec sz (p + Z.of_nat n)); done || lia.
Qed.

Lemma splice_span f p src : span (splice f p src) p (length src) = src.
Proof.
  apply list_eq. intros k. destruct (decide (k < length src)%nat) as [Hk|Hk].
  - rewrite span_lookup by done. unfold splice.
    rewrite (proj2 (Z.leb_le _ _)), (proj2 (Z.ltb_lt _ _)) by lia. simpl.
    replace (Z.to_nat (p + Z.of_nat k - p)) with k by lia.
    destruct (src !! k) eqn:E; [done|]. apply lookup_ge_None in E. lia.
  - rewrite !lookup_ge_None_2 by (rewrite ?span_length; lia). done.
Qed.

Lemma splice_app f p s1 s2 a :
  splice (splice f p s1) (p + Z.of_nat (length s1)) s2 a = splice f p (s1 ++ s2) a.
Proof.
  unfold splice. rewrite length_app.
  destruct (Z.leb_spec p a), (Z.ltb_spec a (p + Z.of_nat (length s1))),
    (Z.leb_spec (p + Z.of_nat (length s1)) a),
    (Z.ltb_spec a (p + Z.of_nat (length s1) + Z.of_nat (length s2))),
    (Z.ltb_spec a (p + Z.of_nat (length s1 + length s2))); simpl; try lia; try done.
  - by rewrite lookup_app_l by lia.
  - rewrite lookup_app_r by lia. do 2 f_equal. lia.
Qed.

Lemma splice_ext f g p src a : f a = g a -> splice f p src a = splice g p src a.
Proof. unfold splice. intros ->. done. Qed.

Lemma splice_other f p src a :
  ~ (p <= a < p + Z.of_nat (length src)) -> splice f p src a = f a.
Proof.
  intros Ha. unfold splice.
  destruct (Z.leb_spec p a), (Z.ltb_spec a (p + Z.of_nat (length src))); simpl; done || lia.
Qed.

(** ** Dense memory *)
Module DenseMemory.
Record t := mk { data : list Z }.

Section Ops.
Context `{Target}.

Definition size (m : t) : Z := Z.of_nat (length m.(data)).

Definition new (size : Z) : GuestMemoryResult t :=
  let? size_usize := ok_or (SizeTooLarge size) (try_usize size) in
  Ok (mk (replicate size_usize 0)).

Definition range_to_usize (m : t) (paddr : Z) (len : nat) : GuestMemoryResult (nat * nat) :=
  let err := OutOfRange paddr len (size m) in
  let? _ := check_range (size m) paddr len in
  let? start := ok_or err (try_usize paddr) in
  let? end_ := ok_or err (checked_add usize_bits (Z.of_nat start) (Z.of_nat len)) in
  Ok (start, Z.to_nat end_).

Definition read_into (m : t) (paddr : Z) (len : nat) : GuestMemoryResult (list Z) :=
  let? (start, end_) := range_to_usize m paddr len in
  Ok (take (end_ - start) (drop start m.(data))).

Definition write_from (m : t) (paddr : Z) (src : list Z) : GuestMemoryResult unit * t :=
  match range_to_usize m paddr (length src) with
  | Err e => (Err e, m)
  | Ok (start, end_) => (Ok tt, mk (take start m.(data) ++ src ++ drop end_ m.(data)))
  end.

Definition get_slice (m : t) (paddr : Z) (len : nat) : option (list Z) :=
  match range_to_usize m paddr len with
  | Err _ => None
  | Ok (start, end_) => Some (take (end_ - start) (drop start m.(data)))
  end.

Definition guest_memory : GuestMemory t := {|
  GuestMem.size := size;
  GuestMem.read_into := read_into;
  GuestMem.write_from := write_from;
  GuestMem.get_slice := get_slice;
|}.

(** A boxed slice has at most [usize::MAX] bytes, each one in range. *)
Definition ok (m : t) : Prop :=
  Z.of_nat (length m.(data)) <= usize_max /\ Forall byte_ok m.(data).
Definition byte (m : t) (a : Z) : Z := default 0 (m.(data) !! Z.to_nat a).

Lemma usize_max_bound : usize_max < 2 ^ usize_bits /\ 2 ^ usize_bits <= 2 ^ 64.
Proof.
  unfold usize_max. pose proof usize_bits_ok. split; [lia|]. apply Z.pow_le_mono_r; lia.
Qed.

Lemma size_ok m : ok m -> uint 64 (size m).
Proof. intros [Hl _]. pose proof usize_max_bound. unfold size, uint. lia. Qed.

Lemma range_to_usize_spec m p n :
  ok m -> uint 64 p ->
  range_to_usize m p n =
  if p + Z.of_nat n <=? size m then Ok (Z.to_nat p, (Z.to_nat p + n)%nat)
  else Err (OutOfRange p n (size m)).
Proof.
  intros Hok Hp. unfold range_to_usize. rewrite check_range_spec by (done || by apply size_ok).
  destruct (Z.leb_spec (p + Z.of_nat n) (size m)) as [Hle|Hgt]; simpl; [|done].
  pose proof usize_max_bound. destruct Hok as [Hl _]. unfold size, uint in *.
  unfold try_usize. rewrite (proj2 (Z.leb_le _ _)) by lia. simpl.
  unfold checked_add. rewrite (proj2 (Z.ltb_lt _ _)) by lia. simpl. do 2 f_equal. lia.
Qed.

Lemma take_drop_span m p n :
  uint 64 p -> p + Z.of_nat n <= size m ->
  take (Z.to_nat p + n - Z.to_nat p) (drop (Z.to_nat p) m.(data)) = span (byte m) p n.
Proof.
  intros Hp Hn. replace (Z.to_nat p + n - Z.to_nat p)%nat with n by lia.
  unfold size, uint in *. rewrite (span_take_drop _ 0) by lia. by rewrite Z2Nat.id by lia.
Qed.

Lemma splice_byte m p src a :
  uint 64 p -> p + Z.of_nat (length src) <= size m -> 0 <= a < size m ->
  byte (mk (take (Z.to_nat p) m.(data) ++ src ++ drop (Z.to_nat p + length src) m.(data))) a =
  splice (byte m) p src a.
Proof.
  unfold size, uint, splice, byte. simpl. intros Hp Hn Ha.
  destruct (Z.leb_spec p a); simpl.
  - rewrite lookup_app_r by (rewrite length_take; lia).
    rewrite length_take_le by lia.
    destruct (Z.ltb_spec a (p + Z.of_nat (length src))).
    + rewrite lookup_app_l by lia. do 2 f_equal. lia.
    + rewrite lookup_app_r, lookup_drop by lia. do 2 f_equal. lia.
  - rewrite lookup_app_l by (rewrite length_take; lia). by rewrite lookup_take_lt by lia.
Qed.

#[local] Existing Instance guest_memory.
Definition view : GuestMemoryView t := {|
  gm_ok := ok; gm_byte := byte; gm_backed _ _ := true; gm_page _ _ := None; gm_mark _ _ := false;
|}.
#[local] Existing Instance view.

Lemma dense_memory_spec : GuestMemorySpec t.
Proof.
  split.
  - exact size_ok.
  - intros m a [_ Hb]. simpl. unfold byte. destruct (m.(data) !! Z.to_nat a) eqn:E; [|done].
    by eapply Forall_lookup in Hb.
  - intros m p n Hok Hp. simpl. unfold read_into. rewrite range_to_usize_spec by done.
    destruct (Z.leb_spec (p + Z.of_nat n) (size m)); simpl; [|done].
    by rewrite take_drop_span.
  - intros m p src Hok Hp Hsrc Hn. simpl in *. unfold write_from.
    rewrite range_to_usize_spec, (proj2 (Z.leb_le _ _)) by done.
    eexists. split; [done|]. split; try done.
    + destruct Hok as [Hl Hb]. unfold size, uint in *. split; simpl.
      * rewrite !length_app, length_take_le, length_drop by lia. lia.
      * apply Forall_app; split; [by apply Forall_take|].
        apply Forall_app; split; [done|by apply Forall_drop].
    + simpl. unfold size, uint in *. simpl. rewrite !length_app, length_take_le, length_drop by lia. lia.
    + intros c. split; [by left|]. intros [?|(x & _ & ?)]; done.
    + intros a Ha. by apply splice_byte.
  - intros m p src Hok Hp Hsrc Hn. simpl in *. unfold write_from.
    rewrite range_to_usize_spec, (proj2 (Z.leb_gt _ _)) by done. done.
  - intros m p n s Hok Hp. simpl. unfold get_slice. rewrite range_to_usize_spec by done.
    destruct (Z.leb_spec (p + Z.of_nat n) (size m)); simpl; [|done].
    intros [= <-]. by rewrite take_drop_span.
Qed.
End Ops.
#[global] Existing Instance guest_memory.
#[global] Existing Instance view.
#[global] Existing Instance dense_memory_spec.
End DenseMemory.

(** ** Sparse memory: chunks allocated on the first write *)
Module SparseMemory.
Record t := mk {
  size : Z;
  chunk_size : nat;
  chunks : list (option (list Z));
}.

Abbreviation DEFAULT_CHUNK_SIZE := (Z.to_nat (2 * 1024 * 1024)) (only parsing).

(** [u64::is_power_of_two] and [u64::trailing_zeros] of a positive value. *)
Fixpoint pos_is_pow2 (p : positive) : bool :=
  match p with xH => true | xO p => pos_is_pow2 p | xI _ => false end.
Definition is_power_of_two (x : Z) : bool :=
  match x with Zpos p => pos_is_pow2 p | _ => false end.
Fixpoint pos_trailing_zeros (p : positive) : Z :=
  match p with xO p => 1 + pos_trailing_zeros p | _ => 0 end.
Definition trailing_zeros (x : Z) : Z :=
  match x with Zpos p => pos_trailing_zeros p | _ => 64 end.

Section Ops.
Context `{Target}.

Definition with_chunk_size (size : Z) (chunk_size : nat) : GuestMemoryResult t :=
  if (chunk_size =? 0)%nat then Err (InvalidChunkSize chunk_size) else
  let chunk_size_u64 := Z.of_nat chunk_size in
  let? sum := ok_or (SizeTooLarge size) (checked_add 64 size (chunk_size_u64 - 1)) in
  let chunk_count_u64 := sum / chunk_size_u64 in
  let? chunk_count := ok_or (SizeTooLarge size) (try_usize chunk_count_u64) in
  Ok (mk size chunk_size (replicate chunk_count None)).

Definition new (size : Z) : GuestMemoryResult t := with_chunk_size size DEFAULT_CHUNK_SIZE.

Definition chunk_index (m : t) (paddr : Z) : GuestMemoryResult (nat * nat) :=
  let chunk_size_u64 := Z.of_nat m.(chunk_size) in
  let '(chunk, offset) :=
    if is_power_of_two chunk_size_u64 then
      let shift := trailing_zeros chunk_size_u64 in
      (paddr >>> shift, paddr &&& (chunk_size_u64 - 1))
    else (paddr / chunk_size_u64, paddr mod chunk_size_u64) in
  let? chunk_usize := ok_or (OutOfRange paddr 1 m.(size)) (try_usize chunk) in
  (* [expect]: the offset is below the chunk size *)
  let offset_usize := Z.to_nat offset in
  Ok (chunk_usize, offset_usize).

(** The chunk, allocated if need be, and the memory that holds it. *)
Definition ensure_chunk (m : t) (chunk : nat) : GuestMemoryResult (list Z) * t :=
  match m.(chunks) !! chunk with
  | None => (Err (OutOfRange (Z.of_nat chunk * Z.of_nat m.(chunk_size)) 1 m.(size)), m)
  | Some (Some c) => (Ok c, m)
  | Some None =>
      let c := replicate m.(chunk_size) 0 in
      (Ok c, mk m.(size) m.(chunk_size) (<[chunk := Some c]> m.(chunks)))
  end.

(** The [while] loops take at least one byte per iteration, so the length of
    the buffer is enough fuel; the contract below shows it is never short. *)
Fixpoint read_loop (fuel : nat) (m : t) (cur : Z) (remaining : nat) : GuestMemoryResult (list Z) :=
  match fuel, remaining with
  | _, O => Ok []
  | O, _ => Err (OutOfRange cur remaining m.(size))
  | S fuel, _ =>
      let? (chunk_idx, chunk_off) := chunk_index m cur in
      let bytes_in_chunk := (m.(chunk_size) - chunk_off)%nat in
      let take_ := Nat.min bytes_in_chunk remaining in
      let part :=
        match m.(chunks) !! chunk_idx with
        | Some (Some chunk) => take take_ (drop chunk_off chunk)
        | _ => replicate take_ 0
        end in
      let? rest := read_loop fuel m (cur + Z.of_nat take_) (remaining - take_) in
      Ok (part ++ rest)
  end.

Definition read_into (m : t) (paddr : Z) (len : nat) : GuestMemoryResult (list Z) :=
  let? _ := check_range m.(size) paddr len in
  read_loop len m paddr len.

Fixpoint write_loop (fuel : nat) (m : t) (cur : Z) (remaining : list Z) :
    GuestMemoryResult unit * t :=
  match fuel, remaining with
  | _, [] => (Ok tt, m)
  | O, _ => (Err (OutOfRange cur (length remaining) m.(size)), m)
  | S fuel, _ =>
      match chunk_index m cur with
      | Err e => (Err e, m)
      | Ok (chunk_idx, chunk_off) =>
          let bytes_in_chunk := (m.(chunk_size) - chunk_off)%nat in
          let take_ := Nat.min bytes_in_chunk (length remaining) in
          match ensure_chunk m chunk_idx with
          | (Err e, m) => (Err e, m)
          | (Ok chunk, m) =>
              let chunk :=
                take chunk_off chunk ++ take take_ remaining ++ drop (chunk_off + take_) chunk in
              let m := mk m.(size) m.(chunk_size) (<[chunk_idx := Some chunk]> m.(chunks)) in
              write_loop fuel m (cur + Z.of_nat take_) (drop take_ remaining)
          end
      end
  end.

Definition write_from (m : t) (paddr : Z) (src : list Z) : GuestMemoryResult unit * t :=
  match check_range m.(size) paddr (length src) with
  | Err e => (Err e, m)
  | Ok _ => write_loop (length src) m paddr src
  end.

Definition get_slice (m : t) (paddr : Z) (len : nat) : option (list Z) :=
  match check_range m.(size) paddr len, chunk_index m paddr with
  | Ok _, Ok (chunk_idx, chunk_off) =>
      match checked_add usize_bits (Z.of_nat chunk_off) (Z.of_nat len) with
      | Some e =>
          if Z.of_nat m.(chunk_size) <? e then None
          else match m.(chunks) !! chunk_idx with
               | Some (Some chunk) => Some (take len (drop chunk_off chunk))
               | _ => None
               end
      | None => None
      end
  | _, _ => None
  end.

Definition guest_memory : GuestMemory t := {|
  GuestMem.size := size;
  GuestMem.read_into := read_into;
  GuestMem.write_from := write_from;
  GuestMem.get_slice := get_slice;
|}.
#[local] Existing Instance guest_memory.

(** Every chunk slot below the size exists; allocated chunks have the chunk
    size. *)
Record ok (m : t) : Prop := {
  ok_size : uint 64 m.(size);
  ok_chunk_size : (0 < m.(chunk_size))%nat;
  ok_usize : Z.of_nat (length m.(chunks)) <= usize_max /\ Z.of_nat m.(chunk_size) <= usize_max;
  ok_count : m.(size) <= Z.of_nat (length m.(chunks)) * Z.of_nat m.(chunk_size);
  ok_chunk : forall i c, m.(chunks) !! i = Some (Some c) ->
    length c = m.(chunk_size) /\ Forall byte_ok c;
}.

Definition byte (m : t) (a : Z) : Z :=
  match m.(chunks) !! Z.to_nat (a / Z.of_nat m.(chunk_size)) with
  | Some (Some c) => default 0 (c !! Z.to_nat (a mod Z.of_nat m.(chunk_size)))
  | _ => 0
  end.

Lemma trailing_zeros_nonneg x : 0 <= trailing_zeros x.
Proof. destruct x as [|p|p]; simpl; try lia. induction p; simpl; lia. Qed.

Lemma pow2_trailing_zeros x : is_power_of_two x = true -> x = 2 ^ trailing_zeros x.
Proof.
  destruct x as [|p|p]; [done| |done]. simpl.
  pose proof (fun p => trailing_zeros_nonneg (Zpos p)) as Hnn. simpl in Hnn.
  induction p as [p IH|p IH|]; simpl; intros Hp; [done| |done].
  rewrite Z.pow_add_r by (apply Hnn || lia). rewrite <- IH by done. lia.
Qed.

(** The shift-and-mask path computes the quotient and the remainder. *)
Lemma chunk_split cs a :
  (if is_power_of_two cs then (a >>> trailing_zeros cs, a &&& (cs - 1)) else (a / cs, a mod cs)) =
  (a / cs, a mod cs).
Proof.
  destruct (is_power_of_two cs) eqn:Hp; [|done]. apply pow2_trailing_zeros in Hp.
  pose proof (trailing_zeros_nonneg cs). rewrite Z.shiftr_div_pow2 by done.
  replace (cs - 1) with (Z.ones (trailing_zeros cs)) by (rewrite Z.ones_equiv; lia).
  rewrite land_ones_mod by done. by rewrite <- Hp.
Qed.

Lemma chunk_index_spec m a :
  ok m -> 0 <= a < m.(size) ->
  let cs := Z.of_nat m.(chunk_size) in
  chunk_index m a = Ok (Z.to_nat (a / cs), Z.to_nat (a mod cs)) /\
  (Z.to_nat (a / cs) < length m.(chunks))%nat /\ (Z.to_nat (a mod cs) < m.(chunk_size))%nat.
Proof.
  intros Hok Ha cs. pose proof (ok_chunk_size _ Hok). pose proof (ok_usize _ Hok).
  pose proof (ok_count _ Hok) as Hcount. fold cs in Hcount.
  assert (a / cs < Z.of_nat (length m.(chunks))) by (apply Z.div_lt_upper_bound; lia).
  assert (0 <= a / cs) by (apply Z.div_pos; lia).
  pose proof (Z.mod_pos_bound a cs). split_and!; [|lia|lia].
  unfold chunk_index. fold cs.
  assert ((if is_power_of_two cs then (a >>> trailing_zeros cs, a &&& (cs - 1))
           else (a / cs, a mod cs)) = (a / cs, a mod cs)) as -> by apply chunk_split.
  unfold try_usize. rewrite (proj2 (Z.leb_le _ _)) by lia. done.
Qed.

(** Addresses of one chunk. *)
Lemma chunk_step m cur k :
  ok m -> 0 <= cur -> (k < m.(chunk_size) - Z.to_nat (cur mod Z.of_nat m.(chunk_size)))%nat ->
  (cur + Z.of_nat k) / Z.of_nat m.(chunk_size) = cur / Z.of_nat m.(chunk_size) /\
  Z.to_nat ((cur + Z.of_nat k) mod Z.of_nat m.(chunk_size)) =
  (Z.to_nat (cur mod Z.of_nat m.(chunk_size)) + k)%nat.
Proof.
  intros Hok Hcur Hk. pose proof (ok_chunk_size _ Hok).
  set (cs := Z.of_nat m.(chunk_size)) in *. assert (0 < cs) by lia.
  pose proof (Z.div_mod cur cs). pose proof (Z.mod_pos_bound cur cs).
  assert ((cur + Z.of_nat k) / cs = cur / cs /\ (cur + Z.of_nat k) mod cs = cur mod cs + Z.of_nat k)
    as [-> ->]; [|lia].
  split; symmetry;
    [apply (Z.div_unique_pos _ _ _ (cur mod cs + Z.of_nat k))|apply (Z.mod_unique_pos _ _ (cur / cs))]; lia.
Qed.

Lemma read_part m cur n :
  ok m -> 0 <= cur ->
  let cs := Z.of_nat m.(chunk_size) in
  (n <= m.(chunk_size) - Z.to_nat (cur mod cs))%nat ->
  match m.(chunks) !! Z.to_nat (cur / cs) with
  | Some (Some chunk) => take n (drop (Z.to_nat (cur mod cs)) chunk)
  | _ => replicate n 0
  end = span (byte m) cur n.
Proof.
  intros Hok Hcur cs Hn. apply list_eq. intros k. destruct (decide (k < n)%nat) as [Hk|Hk].
  - rewrite span_lookup by done. unfold byte. fold cs.
    destruct (chunk_step m cur k Hok Hcur) as [Hd Hm]; [fold cs; lia|]. fold cs in Hd, Hm.
    rewrite Hd, Hm. destruct (m.(chunks) !! Z.to_nat (cur / cs)) as [[c|]|] eqn:E.
    + rewrite lookup_take_lt, lookup_drop by lia.
      destruct (ok_chunk _ Hok _ _ E) as [Hlen _].
      destruct (c !! _) eqn:El; [done|]. apply lookup_ge_None in El. lia.
    + by rewrite lookup_replicate_2.
    + by rewrite lookup_replicate_2.
  - rewrite (lookup_ge_None_2 (span _ _ _)) by (rewrite span_length; lia).
    apply lookup_ge_None_2. repeat case_match; rewrite ?length_take, ?length_replicate; lia.
Qed.

Lemma sparse_read_loop_spec fuel m cur n :
  ok m -> 0 <= cur -> cur + Z.of_nat n <= m.(size) -> (n <= fuel)%nat ->
  read_loop fuel m cur n = Ok (span (byte m) cur n).
Proof.
  intros Hok. revert cur n. induction fuel as [|fuel IH]; intros cur n Hcur Hn Hf.
  { by destruct n; [|lia]. }
  destruct n as [|n']; [done|]. set (n := S n') in *. cbn [read_loop].
  destruct (chunk_index_spec m cur Hok) as (-> & Hci & Hco); [lia|]. cbn [result_bind].
  set (cs := Z.of_nat m.(chunk_size)) in *.
  set (t := Nat.min _ n). assert (1 <= t <= n)%nat by lia.
  rewrite IH by lia. cbn [result_bind].
  pose proof (read_part m cur t Hok Hcur) as Hpart. cbv zeta in Hpart. fold cs in Hpart.
  rewrite Hpart by lia.
  f_equal. rewrite <- span_app. f_equal. lia.
Qed.

Lemma ensure_chunk_spec m i :
  ok m -> (i < length m.(chunks))%nat ->
  exists c m', ensure_chunk m i = (Ok c, m') /\ ok m' /\ m'.(size) = m.(size) /\
    m'.(chunk_size) = m.(chunk_size) /\ length m'.(chunks) = length m.(chunks) /\
    m'.(chunks) !! i = Some (Some c) /\ (forall a, byte m' a = byte m a).
Proof.
  intros Hok Hi. unfold ensure_chunk.
  destruct (lookup_lt_is_Some_2 _ _ Hi) as [[c|] Hc]; rewrite Hc.
  { exists c, m. by split_and!. }
  set (z := replicate m.(chunk_size) 0). eexists z, _. split_and!; [done|..]; simpl; try done.
  - destruct Hok as [? ? ? ? Hch]. split; simpl; try done.
    + by rewrite length_insert.
    + by rewrite length_insert.
    + intros j c [(-> & [= <-] & _)|[_ Hj]]%list_lookup_insert_Some; [|by eapply Hch].
      unfold z. split; [by rewrite length_replicate|]. by apply Forall_replicate.
  - by rewrite length_insert.
  - by rewrite list_lookup_insert_eq.
  - intros a. unfold byte. simpl. rewrite list_lookup_insert. case_decide as Hd; [|done].
    destruct Hd as [Heq _]. rewrite <- Heq, Hc. unfold z.
    destruct (replicate _ 0 !! _) eqn:El; [|done]. by apply lookup_replicate in El as [-> _].
Qed.

(** One iteration of the write loop. *)
Lemma write_part m cur src c m1 :
  ok m1 -> 0 <= cur ->
  let cs := Z.of_nat m1.(chunk_size) in
  let off := Z.to_nat (cur mod cs) in
  let i := Z.to_nat (cur / cs) in
  m1.(chunks) !! i = Some (Some c) -> Forall byte_ok src ->
  (length src <= m1.(chunk_size) - off)%nat -> (off < m1.(chunk_size))%nat ->
  m = mk m1.(size) m1.(chunk_size)
        (<[i := Some (take off c ++ src ++ drop (off + length src) c)]> m1.(chunks)) ->
  ok m /\ forall a, 0 <= a -> byte m a = splice (byte m1) cur src a.
Proof.
  intros Hok Hcur cs off i Hc Hsrc Hlen Hoff ->. destruct (ok_chunk _ Hok _ _ Hc) as [Hcl Hcb].
  pose proof (ok_chunk_size _ Hok).
  assert (length (take off c ++ src ++ drop (off + length src) c) = m1.(chunk_size)) as Hnew
    by (rewrite !length_app, length_take_le, length_drop by lia; lia).
  split.
  - destruct Hok as [? ? ? ? Hch]. split; simpl; rewrite ?length_insert; try done.
    intros j c' [(-> & [= <-] & _)|[_ Hj]]%list_lookup_insert_Some; [|by eapply Hch].
    split; [done|]. apply Forall_app; split; [by apply Forall_take|].
    apply Forall_app; split; [done|by apply Forall_drop].
  - intros a Ha. unfold byte at 1. simpl. fold cs.
    rewrite list_lookup_insert. pose proof (Z.div_mod a cs). pose proof (Z.div_mod cur cs).
    pose proof (Z.mod_pos_bound a cs). pose proof (Z.mod_pos_bound cur cs).
    assert (0 <= cur / cs) by (apply Z.div_pos; lia). assert (0 <= a / cs) by (apply Z.div_pos; lia).
    case_decide as Hd.
    + destruct Hd as [Hi _]. assert (a / cs = cur / cs) as Hq by lia.
      unfold splice, byte. fold cs. rewrite Hq. fold i. rewrite Hc.
      assert (a - cur = a mod cs - cur mod cs) as Hdiff by (rewrite Hq in *; lia).
      destruct (Z.leb_spec cur a); simpl.
      * rewrite lookup_app_r by (rewrite length_take; lia). rewrite length_take_le by lia.
        destruct (Z.ltb_spec a (cur + Z.of_nat (length src))).
        -- rewrite lookup_app_l by lia. do 2 f_equal. lia.
        -- rewrite lookup_app_r, lookup_drop by lia. do 2 f_equal. lia.
      * rewrite lookup_app_l by (rewrite length_take; lia). by rewrite lookup_take_lt by lia.
    + rewrite splice_other; [done|]. intros Hr. apply Hd.
      assert (a / cs = cur / cs) as Hq; [|split; [by rewrite Hq|by eapply lookup_lt_Some]].
      symmetry. apply (Z.div_unique_pos _ _ _ (cur mod cs + (a - cur))); lia.
Qed.

Lemma sparse_write_loop_spec fuel m cur src :
  ok m -> 0 <= cur -> cur + Z.of_nat (length src) <= m.(size) -> (length src <= fuel)%nat ->
  Forall byte_ok src ->
  exists m', write_loop fuel m cur src = (Ok tt, m') /\ ok m' /\ m'.(size) = m.(size) /\
    forall a, 0 <= a -> byte m' a = splice (byte m) cur src a.
Proof.
  revert m cur src. induction fuel as [|fuel IH]; intros m cur src Hok Hcur Hn Hf Hsrc.
  { destruct src; [|simpl in *; lia]. exists m. split_and!; try done.
    intros a _. rewrite splice_other; [done|simpl; lia]. }
  destruct src as [|x xs].
  { exists m. split_and!; try done. intros a _. rewrite splice_other; [done|simpl; lia]. }
  cbn [write_loop]. set (src := x :: xs) in *. assert (1 <= length src)%nat by (simpl; lia).
  destruct (chunk_index_spec m cur Hok) as (-> & Hci & Hco); [lia|].
  destruct (ensure_chunk_spec m _ Hok Hci) as (c & m1 & -> & Hok1 & Hs1 & Hcs1 & Hl1 & Hc1 & Hb1).
  rewrite <- Hcs1 in *. set (cs := Z.of_nat m1.(chunk_size)) in *.
  set (t := Nat.min _ (length src)). set (m2 := mk _ _ _).
  assert (length (take t src) = t) as Ht by (rewrite length_take; lia).
  destruct (write_part m2 cur (take t src) c m1) as [Hok2 Hb2]; try done.
  { by apply Forall_take. } { fold cs. lia. }
  { unfold m2. fold cs. by rewrite Ht. }
  destruct (IH m2 (cur + Z.of_nat t) (drop t src)) as (m' & -> & Hok' & Hs' & Hb').
  { done. } { lia. }
  { rewrite length_drop. change (size m2) with (size m1). rewrite Hs1. clear -Hn. lia. }
  { rewrite length_drop. lia. }
  { by apply Forall_drop. }
  exists m'. split_and!; [done|done|by rewrite Hs'|].
  intros a Ha. rewrite Hb' by done.
  rewrite (splice_ext _ (splice (byte m) cur (take t src)));
    [|rewrite Hb2 by done; by apply splice_ext].
  transitivity (splice (splice (byte m) cur (take t src))
                  (cur + Z.of_nat (length (take t src))) (drop t src) a); [by rewrite Ht|].
  by rewrite splice_app, take_drop.
Qed.

Definition view : GuestMemoryView t := {|
  gm_ok := ok; gm_byte := byte; gm_backed _ _ := true; gm_page _ _ := None; gm_mark _ _ := false;
|}.
#[local] Existing Instance view.

Lemma sparse_memory_spec : GuestMemorySpec t.
Proof.
  split.
  - intros m Hok. apply (ok_size _ Hok).
  - intros m a Hok. simpl. unfold byte. destruct (_ !! _) as [[c|]|] eqn:E; [|done..].
    destruct (ok_chunk _ Hok _ _ E) as [_ Hb]. destruct (c !! _) eqn:El; [|done].
    by eapply Forall_lookup in Hb.
  - intros m p n Hok Hp. simpl. unfold read_into.
    rewrite check_range_spec by (done || apply (ok_size _ Hok)).
    destruct (Z.leb_spec (p + Z.of_nat n) m.(size)); simpl; [|done].
    apply sparse_read_loop_spec; [done|apply Hp|done|done].
  - intros m p src Hok Hp Hsrc Hn. simpl in *. unfold write_from.
    rewrite check_range_spec, (proj2 (Z.leb_le _ _)) by (done || apply (ok_size _ Hok)).
    destruct (sparse_write_loop_spec (length src) m p src) as (m' & -> & ? & ? & Hb); try done; [apply Hp|].
    exists m'. split; [done|]. split; try done; [|intros a Ha; apply Hb; lia].
    intros c. split; [by left|]. intros [?|(x & _ & ?)]; done.
  - intros m p src Hok Hp Hsrc Hn. simpl in *. unfold write_from.
    by rewrite check_range_spec, (proj2 (Z.leb_gt _ _)) by (done || apply (ok_size _ Hok)).
  - intros m p n s Hok Hp. simpl. unfold get_slice.
    rewrite check_range_spec by (done || apply (ok_size _ Hok)).
    destruct (Z.leb_spec (p + Z.of_nat n) m.(size)); [|done].
    destruct (chunk_index m p) as [[ci co]|] eqn:Hi; [|done].
    unfold checked_add. case_if; [|done].
    destruct (Z.ltb_spec (Z.of_nat m.(chunk_size)) (Z.of_nat co + Z.of_nat n)); [done|].
    destruct (m.(chunks) !! ci) as [[c|]|] eqn:Hc; [|done..]. intros [= <-]. split; [done|].
    destruct n as [|n]; [done|].
    destruct (chunk_index_spec m p Hok) as (Hi' & _ & _); [unfold uint in *; lia|].
    rewrite Hi in Hi'. simplify_eq.
    pose proof (read_part m p (S n) Hok (proj1 Hp)) as Hpart. cbv zeta in Hpart.
    rewrite Hc in Hpart. apply Hpart. lia.
Qed.
End Ops.
#[global] Existing Instance guest_memory.
#[global] Existing Instance view.
#[global] Existing Instance sparse_memory_spec.
End SparseMemory.

(** ** Clients of the contract *)
Section Contract.
Context `{GMS : GuestMemorySpec M}.
Implicit Types m : M.

(** A value written with [write_uN_le] is read back by [read_uN_le]. *)
Lemma write_read_le m n p v :
  gm_ok m -> uint 64 p -> p + Z.of_nat n <= size m -> uint (8 * Z.of_nat n) v ->
  (forall a, p <= a < p + Z.of_nat n -> gm_backed m a = true) ->
  exists m', write_le n m p v = (Ok tt, m') /\ gm_ok m' /\ read_le n m' p = Ok v.
Proof.
  intros Hok Hp Hn Hv Hback. unfold write_le, read_le.
  destruct (gm_write_in m p (to_le_bytes n v)) as (m' & Hw & [Hok' Hs _ _ _ Hb]);
    [done|done|apply to_le_bytes_ok|by rewrite to_le_bytes_length|].
  exists m'. split_and!; [done|done|]. rewrite gm_read by done. rewrite Hs.
  rewrite (proj2 (Z.leb_le _ _)) by done. simpl. f_equal.
  rewrite (span_ext _ (splice (gm_byte m) p (to_le_bytes n v)))
    by (intros a Ha; unfold uint in Hp; by rewrite Hb, Hback by lia).
  rewrite <- (to_le_bytes_length n v) at 2. rewrite splice_span. by apply from_to_le_bytes_id.
Qed.
End Contract.

(** Two guest memories hold the same bytes. *)
Definition same_bytes `{GuestMemorySpec M1} `{GuestMemorySpec M2} (m1 : M1) (m2 : M2) : Prop :=
  gm_ok m1 /\ gm_ok m2 /\ size m1 = size m2 /\ (forall a, gm_backed m1 a = gm_backed m2 a) /\
  forall a, 0 <= a < size m1 -> gm_byte m1 a = gm_byte m2 a.

Inductive mem_op := OpRead (paddr : Z) (len : nat) | OpWrite (paddr : Z) (src : list Z).
Definition mem_op_ok (op : mem_op) : Prop :=
  match op with
  | OpRead p _ => uint 64 p
  | OpWrite p src => uint 64 p /\ Forall byte_ok src
  end.

(** The results of a sequence of accesses; [None] stands for a write. *)
Fixpoint run_mem `{GuestMemory M} (m : M) (ops : list mem_op) :
    list (GuestMemoryResult (option (list Z))) :=
  match ops with
  | [] => []
  | OpRead p n :: ops => result_map Some (read_into m p n) :: run_mem m ops
  | OpWrite p src :: ops =>
      let '(r, m) := write_from m p src in result_map (fun _ => None) r :: run_mem m ops
  end.

Section Equivalence.
Context `{G1 : GuestMemorySpec M1} `{G2 : GuestMemorySpec M2}.

Lemma same_bytes_write (m1 : M1) (m2 : M2) p src :
  same_bytes m1 m2 -> uint 64 p -> Forall byte_ok src ->
  fst (write_from m1 p src) = fst (write_from m2 p src) /\
  same_bytes (snd (write_from m1 p src)) (snd (write_from m2 p src)).
Proof.
  intros (Hok1 & Hok2 & Hs & Hk & Hb) Hp Hsrc.
  destruct (Z.le_gt_cases (p + Z.of_nat (length src)) (size m1)) as [Hin|Hout].
  - destruct (gm_write_in m1 p src) as (m1' & -> & [? Hs1 Hk1 _ _ Hb1]); [done..|].
    destruct (gm_write_in m2 p src) as (m2' & -> & [? Hs2 Hk2 _ _ Hb2]); [done..|by rewrite <- Hs|].
    simpl. split; [done|]. split_and!; [done|done|congruence|intros a; by rewrite Hk1, Hk2|].
    intros a Ha. rewrite Hs1 in Ha. rewrite Hb1, Hb2, <- Hk by (done || by rewrite <- Hs).
    case_if; [apply splice_ext|]; by apply Hb.
  - rewrite (gm_write_out m1), (gm_write_out m2) by (done || by rewrite <- Hs).
    simpl. rewrite Hs. done.
Qed.

Lemma same_bytes_run ops (m1 : M1) (m2 : M2) :
  same_bytes m1 m2 -> Forall mem_op_ok ops -> run_mem m1 ops = run_mem m2 ops.
Proof.
  intros Hsame Hops. revert m1 m2 Hsame.
  induction Hops as [|[p n|p src] ops Hop Hops IH]; intros m1 m2 Hsame; simpl; [done|..].
  - rewrite (IH m1 m2) by done. f_equal. destruct Hsame as (Hok1 & Hok2 & Hs & _ & Hb).
    rewrite !gm_read by done. rewrite <- Hs.
    destruct (Z.leb_spec (p + Z.of_nat n) (size m1)); [|done]. simpl. do 2 f_equal.
    apply span_ext. intros a Ha. apply Hb. unfold mem_op_ok, uint in Hop. lia.
  - destruct Hop as [Hp Hsrc]. destruct (same_bytes_write m1 m2 p src Hsame Hp Hsrc) as [Hr Hn].
    destruct (write_from m1 p src) as [r1 m1'], (write_from m2 p src) as [r2 m2'].
    simpl in *. subst r2. f_equal. by apply IH.
Qed.
End Equivalence.

(** Fresh memories are zero-filled. *)
Lemma dense_zero_byte n a : DenseMemory.byte (DenseMemory.mk (replicate n 0)) a = 0.
Proof.
  unfold DenseMemory.byte. cbn [DenseMemory.data].
  destruct (replicate n 0 !! Z.to_nat a) eqn:E; [|done]. by apply lookup_replicate in E as [-> _].
Qed.

Lemma dense_new_ok `{Target} sz d :
  uint 64 sz -> DenseMemory.new sz = Ok d -> gm_ok d /\ size d = sz /\ forall a, gm_byte d a = 0.
Proof.
  intros Hsz. unfold DenseMemory.new, try_usize. destruct (Z.leb_spec sz usize_max); [|done].
  simpl. intros [= <-]. simpl. unfold DenseMemory.ok, DenseMemory.size. simpl.
  rewrite length_replicate. unfold uint in *. split_and!; [lia|by apply Forall_replicate|lia|].
  intros a. apply dense_zero_byte.
Qed.

Lemma sparse_new_ok `{Target} sz cs s :
  uint 64 sz -> Z.of_nat cs <= usize_max -> SparseMemory.with_chunk_size sz cs = Ok s ->
  gm_ok s /\ size s = sz /\ forall a, gm_byte s a = 0.
Proof.
  intros Hsz Hcs. unfold SparseMemory.with_chunk_size, checked_add, try_usize.
  destruct (Nat.eqb_spec cs 0) as [|Hpos]; [done|]. case_if; [|done]. simpl.
  set (n := (sz + (Z.of_nat cs - 1)) / Z.of_nat cs).
  destruct (Z.leb_spec n usize_max); [|done]. simpl. intros [= <-]. simpl.
  assert (0 <= n) by (apply Z.div_pos; unfold uint in *; lia).
  assert (sz <= n * Z.of_nat cs) as Hle.
  { pose proof (Z.div_mod (sz + (Z.of_nat cs - 1)) (Z.of_nat cs)).
    pose proof (Z.mod_pos_bound (sz + (Z.of_nat cs - 1)) (Z.of_nat cs)). unfold n. lia. }
  split_and!; [|done|].
  - split; simpl; rewrite ?length_replicate; [done|lia|split; [lia|done]|lia|].
    intros i c Hi. by apply lookup_replicate in Hi as [? _].
  - intros a. unfold SparseMemory.byte. simpl.
    destruct (replicate _ _ !! _) as [[c|]|] eqn:E; [|done..].
    by apply lookup_replicate in E as [? _].
Qed.
