(* ===== verification/PhysBusFacts.v ===== *)
(** * Theorems about the physical memory bus

    Region lists (sorted, disjoint, searched correctly), the byte-level meaning
    of reads and writes, and the instance of the MMU's memory interface: page
    walks over a [PhysicalMemoryBus] without MMIO regions meet the laws the MMU
    relies on. *)

From S2P Require Import Prelude Bytes GuestMem PhysBus Mmu.

(** ** Partition points *)
Lemma partition_point_le {A} (f : A -> bool) l : (partition_point f l <= length l)%nat.
Proof. induction l; simpl; [lia|]. case_if; lia. Qed.

Lemma partition_point_before {A} (f : A -> bool) l i x :
  (i < partition_point f l)%nat -> l !! i = Some x -> f x = true.
Proof.
  revert i. induction l as [|y l IH]; intros i Hi Hx; simpl in *; [lia|].
  destruct (f y) eqn:Hf; [|lia]. destruct i as [|i]; simpl in Hx; [by simplify_eq|].
  apply (IH i); [lia|done].
Qed.

Lemma partition_point_at {A} (f : A -> bool) l x :
  l !! partition_point f l = Some x -> f x = false.
Proof.
  induction l as [|y l IH]; simpl; [done|]. destruct (f y) eqn:Hf; simpl; [done|].
  by intros [= <-].
Qed.

Section Regions.
Context {R : Type} (lo hi : R -> Z).

(** Sorted by address, no overlap. *)
Record regions_ok (l : list R) : Prop := {
  rg_bounds : Forall (fun r => 0 <= lo r <= hi r /\ hi r < 2 ^ 64) l;
  rg_sorted : StronglySorted (fun r1 r2 => hi r1 <= lo r2) l;
}.

Section Sorted.
Context (l : list R) (Hl : regions_ok l).

Lemma rg_at i r : l !! i = Some r -> 0 <= lo r <= hi r /\ hi r < 2 ^ 64.
Proof. intros Hi. by apply (Forall_lookup_1 _ _ _ _ (rg_bounds _ Hl) Hi). Qed.

Lemma rg_lt i j r1 r2 : l !! i = Some r1 -> l !! j = Some r2 -> (i < j)%nat -> hi r1 <= lo r2.
Proof.
  pose proof (rg_sorted _ Hl) as Hs. clear Hl. revert i j.
  induction Hs as [|x l Hs IH Hx]; intros i j Hi Hj Hij; [done|].
  destruct j as [|j]; [lia|]. destruct i as [|i]; simpl in *.
  - simplify_eq. by apply (Forall_lookup_1 _ _ _ _ Hx Hj).
  - by apply (IH i j); [..|lia].
Qed.

(** The lists are partitioned by the predicates of the binary searches. *)
Lemma sorted_le i j r1 r2 a :
  l !! i = Some r1 -> l !! j = Some r2 -> (i <= j)%nat -> lo r2 <= a -> lo r1 <= a.
Proof.
  intros Hi Hj Hij Ha. destruct (decide (i = j)) as [->|]; [by simplify_eq|].
  pose proof (rg_lt i j r1 r2 Hi Hj). pose proof (rg_at i r1 Hi). lia.
Qed.

Lemma sorted_end i j r1 r2 a :
  l !! i = Some r1 -> l !! j = Some r2 -> (i <= j)%nat -> hi r2 <= a -> hi r1 <= a.
Proof.
  intros Hi Hj Hij Ha. destruct (decide (i = j)) as [->|]; [by simplify_eq|].
  pose proof (rg_lt i j r1 r2 Hi Hj). pose proof (rg_at j r2 Hj). lia.
Qed.

Lemma find_region_index_Some a i :
  find_region_index lo hi l a = Some i -> exists r, l !! i = Some r /\ lo r <= a < hi r.
Proof.
  unfold find_region_index. destruct (partition_point _ l) as [|idx]; [done|].
  destruct (l !! idx) as [r|] eqn:Hr; [|done]. unfold region_contains.
  destruct (Z.leb_spec (lo r) a), (Z.ltb_spec a (hi r)); simpl; try done.
  intros [= <-]. exists r. split; [done|lia].
Qed.

Lemma find_region_index_None a i r :
  find_region_index lo hi l a = None -> l !! i = Some r -> ~ (lo r <= a < hi r).
Proof.
  unfold find_region_index. intros Hf Hi Ha.
  set (f := fun r => lo r <=? a) in *. set (p := partition_point f l) in *.
  assert (i < p)%nat as Hip.
  { destruct (decide (i < p)%nat) as [|Hn]; [done|]. exfalso.
    destruct (l !! p) as [rp|] eqn:Hp.
    - pose proof (partition_point_at f l rp Hp) as Hfp. unfold f in Hfp. apply Z.leb_gt in Hfp.
      assert (lo rp <= a) by (apply (sorted_le p i rp r a); [done|done|lia|lia]). lia.
    - apply lookup_ge_None in Hp. apply lookup_lt_Some in Hi. lia. }
  pose proof (partition_point_le f l) as Hple. fold p in Hple.
  pose proof (fun x => partition_point_before f l (pred p) x) as Hbef. fold p in Hbef.
  destruct p as [|q]; [lia|].
  destruct (l !! q) as [rq|] eqn:Hq.
  2: { apply lookup_ge_None in Hq. apply lookup_lt_Some in Hi. lia. }
  destruct (decide (i = q)) as [->|Hne].
  - simplify_eq. unfold region_contains in Hf.
    rewrite (proj2 (Z.leb_le _ _)), (proj2 (Z.ltb_lt _ _)) in Hf by lia. done.
  - assert (lo rq <= a).
    { apply Z.leb_le. by apply Hbef; [lia|]. }
    pose proof (rg_lt i q r rq Hi Hq). lia.
Qed.

Lemma next_start_after_Some a n i r :
  next_start_after lo l a = Some n -> l !! i = Some r -> a < n /\ (lo r <= a \/ n <= lo r).
Proof.
  unfold next_start_after. set (f := fun r => lo r <=? a). set (p := partition_point f l).
  destruct (l !! p) as [rp|] eqn:Hp; [|done]. simpl. intros [= <-] Hi.
  pose proof (partition_point_at f l rp Hp) as Hfp. unfold f in Hfp. apply Z.leb_gt in Hfp.
  split; [done|]. destruct (decide (i < p)%nat) as [Hip|Hip].
  - left. apply Z.leb_le. by apply (partition_point_before f l i r).
  - right. destruct (decide (i = p)) as [->|]; [simplify_eq; lia|].
    pose proof (rg_lt p i rp r Hp Hi). pose proof (rg_at p rp Hp). lia.
Qed.

Lemma next_start_after_None a i r :
  next_start_after lo l a = None -> l !! i = Some r -> lo r <= a.
Proof.
  unfold next_start_after. set (f := fun r => lo r <=? a).
  destruct (l !! partition_point f l) eqn:Hp; [done|]. intros _ Hi.
  apply lookup_ge_None in Hp. apply Z.leb_le.
  apply (partition_point_before f l i r); [|done]. apply lookup_lt_Some in Hi. lia.
Qed.

(** No region up to the next start. *)
Lemma gap a x i r :
  find_region_index lo hi l a = None ->
  match next_start_after lo l a with Some n => x < n | None => True end ->
  a <= x -> l !! i = Some r -> ~ (lo r <= x < hi r).
Proof.
  intros Hf Hn Hx Hi Hr. pose proof (find_region_index_None a i r Hf Hi) as Hno.
  destruct (next_start_after lo l a) as [n|] eqn:E.
  - destruct (next_start_after_Some a n i r E Hi) as [? [?|?]]; lia.
  - pose proof (next_start_after_None a i r E Hi). lia.
Qed.

Lemma no_region_overlap_true p e i r :
  no_region_overlap lo hi l p e = true -> l !! i = Some r -> hi r <= p \/ e <= lo r.
Proof.
  unfold no_region_overlap. set (f := fun r => hi r <=? p). set (k := partition_point f l).
  intros Hk Hi. destruct (decide (i < k)%nat) as [Hik|Hik].
  - left. apply Z.leb_le. by apply (partition_point_before f l i r).
  - right. destruct (l !! k) as [rk|] eqn:Hrk.
    + apply negb_true_iff, Z.ltb_ge in Hk. destruct (decide (i = k)) as [->|]; [simplify_eq; lia|].
      pose proof (rg_lt k i rk r Hrk Hi). pose proof (rg_at k rk Hrk). lia.
    + apply lookup_ge_None in Hrk. apply lookup_lt_Some in Hi. lia.
Qed.

(** The conflict test of [map_rom]/[map_mmio]: the new region starts inside an
    old one, or an old one starts inside the new one. *)
Definition clash (old new_ : R) : Prop :=
  lo old < lo new_ < hi old \/ lo new_ <= lo old < hi new_.

Lemma insert_region_Err r e : insert_region lo hi l r = Err e -> e = Overlap /\ exists x, x ∈ l /\ clash x r.
Proof.
  unfold insert_region. set (f := fun x => lo x <? lo r). set (k := partition_point f l).
  set (prev := match k with O => false | S _ => _ end).
  destruct prev eqn:Hp; unfold prev in Hp.
  - intros [= <-]. split; [done|]. destruct k as [|q] eqn:Hk; [done|].
    destruct (l !! q) as [x|] eqn:Hx; [|done]. exists x. split; [by eapply list_elem_of_lookup_2|].
    left. apply Z.ltb_lt in Hp. split; [|done]. apply Z.ltb_lt.
    apply (partition_point_before f l q x); [fold k; lia|done].
  - destruct (l !! k) as [x|] eqn:Hx; [|done].
    destruct (Z.ltb_spec (lo x) (hi r)); [|done]. intros [= <-]. split; [done|].
    exists x. split; [by eapply list_elem_of_lookup_2|]. right.
    pose proof (partition_point_at f l x Hx) as Hf. apply Z.ltb_ge in Hf. lia.
Qed.

Lemma insert_region_Ok r l' :
  0 <= lo r <= hi r -> hi r < 2 ^ 64 -> insert_region lo hi l r = Ok l' ->
  regions_ok l' /\ (forall x, x ∈ l' <-> x = r \/ x ∈ l) /\ (forall x, x ∈ l -> ~ clash x r).
Proof.
  intros Hr Hr'. unfold insert_region. set (f := fun x => lo x <? lo r).
  set (k := partition_point f l).
  set (prev := match k with O => false | S _ => _ end).
  destruct prev eqn:Hp; unfold prev in Hp; [done|]. intros Hins.
  assert (l' = vec_insert k r l /\ forall x, l !! k = Some x -> hi r <= lo x) as [-> Hnext].
  { destruct (l !! k) as [x|] eqn:Hx; [|by simplify_eq].
    destruct (Z.ltb_spec (lo x) (hi r)); [done|]. simplify_eq. split; [done|]. by intros ? [= <-]. }
  assert (forall i x, (i < k)%nat -> l !! i = Some x -> hi x <= lo r) as Hbefore.
  { intros i x Hi Hx. destruct k as [|q] eqn:Hk; [lia|].
    destruct (l !! q) as [y|] eqn:Hy.
    - apply Z.ltb_ge in Hp. destruct (decide (i = q)) as [->|]; [by simplify_eq|].
      pose proof (rg_lt i q x y Hx Hy). pose proof (rg_at q y Hy). lia.
    - apply lookup_ge_None in Hy. pose proof (partition_point_le f l) as Hple. fold k in Hple. lia. }
  assert (forall i x, (k <= i)%nat -> l !! i = Some x -> hi r <= lo x) as Hafter.
  { intros i x Hi Hx. destruct (decide (i = k)) as [->|]; [by apply Hnext|].
    destruct (l !! k) as [y|] eqn:Hy.
    - pose proof (rg_lt k i y x Hy Hx). pose proof (rg_at k y Hy). pose proof (Hnext y eq_refl). lia.
    - apply lookup_ge_None in Hy. apply lookup_lt_Some in Hx. lia. }
  unfold vec_insert. split_and!.
  - destruct Hl as [Hb Hs]. rewrite <- (take_drop k l) in Hb, Hs.
    apply Forall_app in Hb as [Hb1 Hb2]. split.
    + apply Forall_app. split; [done|]. by constructor.
    + apply StronglySorted_app in Hs as (Hcross & Hs1 & Hs2). apply StronglySorted_app. split_and!; [|done|].
      * intros x1 x2 H1 H2. apply elem_of_cons in H2 as [->|H2]; [|by apply Hcross].
        apply list_elem_of_lookup in H1 as [i Hi]. apply lookup_take_Some in Hi as [Hi Hik].
        by apply (Hbefore i).
      * constructor; [done|]. apply Forall_forall. intros x Hx.
        apply list_elem_of_lookup in Hx as [i Hi]. rewrite lookup_drop in Hi.
        apply (Hafter (k + i)%nat); [lia|done].
  - intros x. rewrite <- (take_drop k l) at 3. rewrite !elem_of_app, elem_of_cons. tauto.
  - intros x Hx Hc. apply list_elem_of_lookup in Hx as [i Hi].
    pose proof (rg_at i x Hi). unfold clash in Hc. destruct (decide (i < k)%nat).
    + pose proof (Hbefore i x ltac:(done) Hi).
      assert (lo x < lo r); [|destruct Hc; lia].
      apply Z.ltb_lt. by apply (partition_point_before f l i x).
    + pose proof (Hafter i x ltac:(lia) Hi). destruct Hc; lia.
Qed.
End Sorted.
End Regions.

(** ** The bus invariant *)
Import PhysicalMemoryBus.

Definition rom_ok (r : RomRegion.t) : Prop :=
  0 <= r.(RomRegion.start) /\ r.(RomRegion.start) + RomRegion.len r < 2 ^ 64 /\
  Forall byte_ok r.(RomRegion.data).

Abbreviation rom_contains := (region_contains RomRegion.start RomRegion.end_).

(** The ROM region an address falls in. *)
Definition rom_at (roms : list RomRegion.t) (a : Z) : option RomRegion.t :=
  List.find (fun r => rom_contains r a) roms.

Lemma rom_end r : rom_ok r -> RomRegion.end_ r = r.(RomRegion.start) + RomRegion.len r.
Proof. intros (? & ? & _). unfold RomRegion.end_, saturating_add. lia. Qed.

Lemma find_region_unique {R} (lo hi : R -> Z) l i r a :
  regions_ok lo hi l -> l !! i = Some r -> lo r <= a < hi r ->
  List.find (fun r => region_contains lo hi r a) l = Some r.
Proof.
  intros Hl Hi Ha. destruct (List.find _ l) as [r'|] eqn:Hf.
  - apply List.find_some in Hf as [Hin Hc]. apply list_elem_of_In, list_elem_of_lookup in Hin as [j Hj].
    unfold region_contains in Hc. apply andb_true_iff in Hc as [Hc1 Hc2].
    apply Z.leb_le in Hc1. apply Z.ltb_lt in Hc2. f_equal.
    destruct (Nat.lt_trichotomy i j) as [Hij|[->|Hij]]; [|by simplify_eq|].
    + pose proof (rg_lt lo hi l Hl i j r r' Hi Hj Hij). lia.
    + pose proof (rg_lt lo hi l Hl j i r' r Hj Hi Hij). lia.
  - apply (List.find_none _ _ ) with (x := r) in Hf; [|by eapply list_elem_of_In, list_elem_of_lookup_2].
    unfold region_contains in Hf. rewrite (proj2 (Z.leb_le _ _)), (proj2 (Z.ltb_lt _ _)) in Hf by lia.
    done.
Qed.

Section Bus.
Context {M H : Type} `{GMS : GuestMemorySpec M} `{MH : MmioHandler H}.
Implicit Types b : t M H.

Record bus_ok b : Prop := {
  bo_ram : gm_ok b.(ram);
  bo_size : b.(ram_size) = size b.(ram);
  bo_rom : regions_ok RomRegion.start RomRegion.end_ b.(rom_regions);
  bo_rom_ok : Forall rom_ok b.(rom_regions);
  bo_mmio : regions_ok MmioRegion.start MmioRegion.end_ b.(mmio_regions);
  bo_max : Forall (fun r => RomRegion.end_ r <= b.(max_rom_end)) b.(rom_regions);
  bo_min : Forall (fun r => b.(min_mmio_start) <= r.(MmioRegion.start)) b.(mmio_regions);
}.

Lemma new_ok (r : M) : gm_ok r -> bus_ok (new r).
Proof. intros Hr. by split; try done; repeat constructor. Qed.

(** Mapping keeps the invariant and fails exactly on address overflow or on a
    clash with a mapped region. *)
Lemma map_rom_ok b start data :
  bus_ok b -> 0 <= start -> Forall byte_ok data ->
  match map_rom b start data with
  | Ok b' => bus_ok b' /\ b'.(ram) = b.(ram) /\ b'.(mmio_regions) = b.(mmio_regions) /\
      start + Z.of_nat (length data) < 2 ^ 64 /\
      (forall r, r ∈ b'.(rom_regions) <-> r = RomRegion.mk start data \/ r ∈ b.(rom_regions)) /\
      (forall r, r ∈ b.(rom_regions) ->
         ~ clash RomRegion.start RomRegion.end_ r (RomRegion.mk start data))
  | Err AddressOverflow => 2 ^ 64 <= start + Z.of_nat (length data)
  | Err Overlap => exists r, r ∈ b.(rom_regions) /\
      clash RomRegion.start RomRegion.end_ r (RomRegion.mk start data)
  end.
Proof.
  intros Hb Hs Hd. unfold map_rom, checked_add.
  destruct (Z.ltb_spec (start + Z.of_nat (length data)) (2 ^ 64)) as [Hlt|Hge]; simpl; [|done].
  set (nr := RomRegion.mk start data).
  assert (rom_ok nr) as Hnr by (split_and!; done).
  pose proof (rom_end nr Hnr) as Hend. unfold RomRegion.len in Hend. simpl in Hend.
  destruct (insert_region _ _ _ nr) as [l'|e] eqn:Hi; simpl.
  - apply (insert_region_Ok _ _ _ (bo_rom _ Hb)) in Hi as (Hl' & Hin & Hc); [|simpl; lia..].
    split_and!; try done. destruct Hb as [? ? ? Hro ? Hmax ?]. split; simpl; try done.
    + apply Forall_forall. intros r [->|Hr]%Hin; [done|]. by apply (proj1 (Forall_forall _ _) Hro).
    + apply Forall_forall. intros r [->|Hr]%Hin; [lia|].
      pose proof (proj1 (Forall_forall _ _) Hmax r Hr). simpl in *. lia.
  - apply (insert_region_Err _ _ _) in Hi as [-> Hx]. done.
Qed.

Lemma map_mmio_ok b start len h :
  bus_ok b -> 0 <= start -> 0 <= len ->
  match map_mmio b start len h with
  | Ok b' => bus_ok b' /\ b'.(ram) = b.(ram) /\ b'.(rom_regions) = b.(rom_regions) /\
      start + len < 2 ^ 64 /\
      (forall r, r ∈ b'.(mmio_regions) <->
         r = MmioRegion.mk _ start (start + len) h \/ r ∈ b.(mmio_regions)) /\
      (forall r, r ∈ b.(mmio_regions) ->
         ~ clash MmioRegion.start MmioRegion.end_ r (MmioRegion.mk _ start (start + len) h))
  | Err AddressOverflow => 2 ^ 64 <= start + len
  | Err Overlap => exists r, r ∈ b.(mmio_regions) /\
      clash MmioRegion.start MmioRegion.end_ r (MmioRegion.mk _ start (start + len) h)
  end.
Proof.
  intros Hb Hs Hd. unfold map_mmio, checked_add.
  destruct (Z.ltb_spec (start + len) (2 ^ 64)) as [Hlt|Hge]; simpl; [|done].
  set (nr := MmioRegion.mk _ start (start + len) h).
  destruct (insert_region _ _ _ nr) as [l'|e] eqn:Hi; simpl.
  - apply (insert_region_Ok _ _ _ (bo_mmio _ Hb)) in Hi as (Hl' & Hin & Hc); [|simpl; lia..].
    split_and!; try done. destruct Hb as [? ? ? Hro ? Hmax Hmin]. split; simpl; try done.
    apply Forall_forall. intros r [->|Hr]%Hin; [simpl; lia|].
    pose proof (proj1 (Forall_forall _ _) Hmin r Hr). simpl in *. lia.
  - apply (insert_region_Err _ _ _) in Hi as [-> Hx]. done.
Qed.

(** ** Bytes *)
Definition in_mmio b (a : Z) : Prop :=
  exists r, r ∈ b.(mmio_regions) /\ r.(MmioRegion.start) <= a < r.(MmioRegion.end_).

(** What the byte at [a] reads as, outside MMIO. *)
Definition bus_byte b (a : Z) : Z :=
  match rom_at b.(rom_regions) a with
  | Some r => default 0 (r.(RomRegion.data) !! Z.to_nat (a - r.(RomRegion.start)))
  | None => if a <? b.(ram_size) then gm_byte b.(ram) a else 0xFF
  end.

Lemma rom_at_None_iff b a :
  rom_at b.(rom_regions) a = None <->
  forall i r, b.(rom_regions) !! i = Some r ->
    ~ (r.(RomRegion.start) <= a < RomRegion.end_ r).
Proof.
  unfold rom_at. split.
  - intros Hf i r Hi Ha. apply List.find_none with (x := r) in Hf;
      [|by eapply list_elem_of_In, list_elem_of_lookup_2].
    unfold region_contains in Hf.
    rewrite (proj2 (Z.leb_le _ _)), (proj2 (Z.ltb_lt _ _)) in Hf by lia. done.
  - intros Hno. destruct (List.find _ _) as [r|] eqn:Hf; [|done].
    apply List.find_some in Hf as [Hin Hc]. apply list_elem_of_In, list_elem_of_lookup in Hin as [j Hj].
    unfold region_contains in Hc. apply andb_true_iff in Hc as [Hc1 Hc2].
    apply Z.leb_le in Hc1. apply Z.ltb_lt in Hc2. destruct (Hno j r Hj). lia.
Qed.

Lemma rom_at_Some b a r :
  bus_ok b -> rom_at b.(rom_regions) a = Some r ->
  rom_ok r /\ r.(RomRegion.start) <= a < RomRegion.end_ r.
Proof.
  intros Hb Hf. apply List.find_some in Hf as [Hin Hc]. unfold region_contains in Hc.
  apply andb_true_iff in Hc as [Hc1 Hc2]. apply Z.leb_le in Hc1. apply Z.ltb_lt in Hc2.
  split; [|lia]. apply (proj1 (Forall_forall _ _) (bo_rom_ok _ Hb)). by apply list_elem_of_In.
Qed.

Lemma ram_size_uint b : bus_ok b -> uint 64 b.(ram_size).
Proof. intros Hb. rewrite (bo_size _ Hb). apply gm_size_ok, Hb. Qed.

Lemma bus_byte_ok b a : bus_ok b -> byte_ok (bus_byte b a).
Proof.
  intros Hb. unfold bus_byte. destruct (rom_at _ a) as [r|] eqn:Hr.
  - destruct (rom_at_Some b a r Hb Hr) as [(_ & _ & Hd) _]. destruct (_ !! _) eqn:E; [|done].
    by eapply Forall_lookup in Hd.
  - case_if; [|done]. apply gm_byte_ok, Hb.
Qed.

(** ** Dispatch *)
Definition outside_mmio b (a : Z) (n : nat) : Prop :=
  forall x, a <= x < a + Z.of_nat n -> ~ in_mmio b x.

Lemma chunk_len_bounds addr chunk_end rem :
  addr < chunk_end < 2 ^ 64 -> (0 < rem)%nat ->
  (1 <= chunk_len addr chunk_end rem <= rem)%nat /\
  addr + Z.of_nat (chunk_len addr chunk_end rem) <= chunk_end.
Proof. unfold chunk_len, saturating_add. lia. Qed.

Lemma clip_bounds addr e next :
  addr < e -> (forall n, next = Some n -> addr < n) ->
  addr < clip e next <= e /\ (forall n, next = Some n -> clip e next <= n).
Proof.
  intros He Hn. unfold clip. destruct next as [n|]; [|done]. specialize (Hn n eq_refl).
  destruct (Z.ltb_spec n e); split; try lia; intros ? [= <-]; lia.
Qed.

Lemma next_start_gt {R} (lo hi : R -> Z) l a n :
  regions_ok lo hi l -> next_start_after lo l a = Some n -> a < n.
Proof.
  intros Hl Hn. pose proof Hn as Hn'. unfold next_start_after in Hn'.
  destruct (l !! partition_point (fun r => lo r <=? a) l) as [r|] eqn:Hr; [|done].
  by destruct (next_start_after_Some lo hi l Hl a n _ r Hn Hr).
Qed.

(** Addresses before the next ROM start are not ROM, if the first is not. *)
Lemma rom_gap b a x :
  bus_ok b -> find_rom_region_index b a = None -> a <= x ->
  (forall n, next_rom_start_after b a = Some n -> x < n) -> rom_at b.(rom_regions) x = None.
Proof.
  intros Hb Hf Hx Hn. apply rom_at_None_iff. intros i r Hi.
  apply (gap RomRegion.start RomRegion.end_ _ (bo_rom _ Hb) a x i r Hf); [|done|done].
  unfold next_rom_start_after in Hn. destruct (next_start_after _ _ a); [by apply Hn|done].
Qed.

Lemma dispatch_spec b addr rem :
  bus_ok b -> uint 64 addr -> (0 < rem)%nat -> ~ in_mmio b addr ->
  match dispatch b addr rem with
  | InMmio _ _ _ => False
  | InRom r n =>
      (1 <= n <= rem)%nat /\ r.(RomRegion.start) <= addr /\
      (Z.to_nat (addr - r.(RomRegion.start)) + n <= length r.(RomRegion.data))%nat /\
      (forall x, addr <= x < addr + Z.of_nat n -> rom_at b.(rom_regions) x = Some r)
  | InRam n =>
      (1 <= n <= rem)%nat /\ addr + Z.of_nat n <= b.(ram_size) /\
      (forall x, addr <= x < addr + Z.of_nat n -> rom_at b.(rom_regions) x = None)
  | Unmapped n =>
      (1 <= n <= rem)%nat /\
      (forall x, addr <= x < addr + Z.of_nat n ->
         b.(ram_size) <= x /\ rom_at b.(rom_regions) x = None)
  end.
Proof.
  intros Hb Ha Hrem Hno. unfold dispatch.
  pose proof (fun n => next_start_gt _ _ _ addr n (bo_mmio _ Hb)) as Hnm.
  pose proof (fun n => next_start_gt _ _ _ addr n (bo_rom _ Hb)) as Hnr.
  fold (next_mmio_start_after b addr) in Hnm. fold (next_rom_start_after b addr) in Hnr.
  destruct (find_mmio_region_index b addr) as [i|] eqn:Hfm.
  { destruct (find_region_index_Some _ _ _ addr i Hfm) as (r & Hi & Hr).
    destruct Hno. exists r. split; [by eapply list_elem_of_lookup_2|done]. }
  destruct (find_rom_region_index b addr) as [i|] eqn:Hfr.
  { destruct (find_region_index_Some _ _ _ addr i Hfr) as (r & Hi & Hr). rewrite Hi.
    assert (rom_ok r) as Hok by (by apply (Forall_lookup_1 _ _ _ _ (bo_rom_ok _ Hb) Hi)).
    pose proof (rom_end r Hok) as Hend. pose proof Hok as (_ & Hlim & _).
    destruct (clip_bounds addr (RomRegion.end_ r) (next_mmio_start_after b addr)) as [Hc _];
      [lia|done|].
    destruct (chunk_len_bounds addr (clip (RomRegion.end_ r) (next_mmio_start_after b addr)) rem)
      as [Hn1 Hn2]; [lia|done|].
    set (n := chunk_len _ _ _) in *. unfold RomRegion.len in *. split_and!; [lia|lia|lia|lia|].
    intros x Hx. apply (find_region_unique _ _ _ i); [apply Hb|done|lia]. }
  destruct (Z.ltb_spec addr b.(ram_size)) as [Hlt|Hge].
  { pose proof (ram_size_uint b Hb) as [_ Hsz].
    destruct (clip_bounds addr b.(ram_size) (next_mmio_start_after b addr)) as [Hc1 _]; [lia|done|].
    set (e1 := clip b.(ram_size) _) in *.
    destruct (clip_bounds addr e1 (next_rom_start_after b addr)) as [Hc2 Hc3]; [lia|done|].
    set (e2 := clip e1 _) in *.
    destruct (chunk_len_bounds addr e2 rem) as [Hn1 Hn2]; [lia|done|].
    split_and!; [lia|lia|lia|]. intros x Hx. apply (rom_gap b addr); [done|done|lia|].
    intros n Hn. specialize (Hc3 n Hn). lia. }
  unfold unmapped_len. set (ce := match next_rom_start_after b addr with Some _ => _ | None => _ end).
  assert (forall n, ce = Some n -> addr < n) as Hce.
  { unfold ce. intros n. destruct (next_rom_start_after b addr) as [nr|], (next_mmio_start_after b addr) as [nm|];
      intros; simplify_eq; try (by auto).
    specialize (Hnm nm eq_refl). specialize (Hnr nr eq_refl). lia. }
  assert (forall n nr, ce = Some n -> next_rom_start_after b addr = Some nr -> n <= nr) as Hce2.
  { unfold ce. intros n nr Hn Hnr'. rewrite Hnr' in Hn.
    destruct (next_mmio_start_after b addr); simplify_eq; lia. }
  destruct ce as [n|] eqn:Ece.
  - specialize (Hce n eq_refl). unfold saturating_sub. split_and!; [lia|lia|]. intros x Hx.
    split; [lia|]. apply (rom_gap b addr); [done|done|lia|].
    intros nr Hn. specialize (Hce2 n nr eq_refl Hn). lia.
  - split_and!; [lia|lia|]. intros x Hx. split; [lia|]. apply (rom_gap b addr); [done|done|lia|].
    intros nr Hn. unfold ce in Ece. by rewrite Hn in Ece.
Qed.

(** ** Reads *)
Lemma bus_byte_high b x : bus_ok b -> 2 ^ 64 <= x -> bus_byte b x = 0xFF.
Proof.
  intros Hb Hx. unfold bus_byte. destruct (rom_at _ x) as [r|] eqn:Hr.
  - destruct (rom_at_Some b x r Hb Hr) as [Hok Ha]. rewrite (rom_end r Hok) in Ha.
    destruct Hok as (_ & Hl & _). lia.
  - pose proof (ram_size_uint b Hb) as [_ Hs]. rewrite (proj2 (Z.ltb_ge _ _)) by lia. done.
Qed.

Lemma outside_mmio_drop b a n k :
  (k <= n)%nat -> outside_mmio b a n -> outside_mmio b (a + Z.of_nat k) (n - k).
Proof. intros Hk Ho x Hx. apply Ho. lia. Qed.

Lemma bus_read_loop_spec fuel b paddr pos rem :
  bus_ok b -> uint 64 paddr -> 0 <= pos -> (rem <= fuel)%nat ->
  outside_mmio b (paddr + pos) rem ->
  read_loop fuel b paddr pos rem = (span (bus_byte b) (paddr + pos) rem, b).
Proof.
  intros Hb Hp. revert pos rem. induction fuel as [|fuel IH]; intros pos rem Hpos Hf Hout.
  { destruct rem; [done|lia]. }
  destruct rem as [|rem']; [done|]. cbn [read_loop]. set (rem := S rem') in *.
  unfold checked_add. destruct (Z.ltb_spec (paddr + pos) (2 ^ 64)) as [Hlt|Hge].
  2: { f_equal. apply replicate_span. intros x Hx. apply bus_byte_high; [done|lia]. }
  set (addr := paddr + pos) in *.
  assert (uint 64 addr) as Ha by (unfold uint in *; lia).
  assert (forall n, (1 <= n <= rem)%nat ->
    read_loop fuel b paddr (pos + Z.of_nat n) (rem - n) =
    (span (bus_byte b) (addr + Z.of_nat n) (rem - n), b)) as Hrest.
  { intros n Hn. rewrite IH; [by replace (paddr + (pos + Z.of_nat n)) with (addr + Z.of_nat n) by lia|lia|lia|].
    replace (paddr + (pos + Z.of_nat n)) with (addr + Z.of_nat n) by lia.
    apply outside_mmio_drop; [lia|done]. }
  assert (forall n l, (1 <= n <= rem)%nat -> l = span (bus_byte b) addr n ->
    (l ++ span (bus_byte b) (addr + Z.of_nat n) (rem - n), b) = (span (bus_byte b) addr rem, b)) as Hjoin.
  { intros n l Hn ->. rewrite <- span_app. do 2 f_equal. lia. }
  pose proof (dispatch_spec b addr rem Hb Ha) as Hd.
  specialize (Hd ltac:(lia) ltac:(apply Hout; lia)).
  destruct (dispatch b addr rem) as [| r n|n|n]; [done|..].
  - destruct Hd as (Hn & Hs & Hlen & Hrom). rewrite Hrest by done. apply Hjoin; [done|].
    rewrite (span_take_drop _ 0) by done. rewrite Z2Nat.id by lia.
    apply list_eq. intros k. destruct (decide (k < n)%nat) as [Hk|Hk].
    + rewrite !span_lookup by done. unfold bus_byte. rewrite Hrom by lia. do 3 f_equal. lia.
    + by rewrite !lookup_ge_None_2 by (rewrite span_length; lia).
  - destruct Hd as (Hn & Hs & Hrom). rewrite Hrest by done. apply Hjoin; [done|].
    rewrite gm_read by (done || apply Hb). rewrite <- (bo_size _ Hb).
    rewrite (proj2 (Z.leb_le _ _)) by done. apply span_ext. intros x Hx.
    unfold bus_byte. rewrite Hrom by done. by rewrite (proj2 (Z.ltb_lt _ _)) by lia.
  - destruct Hd as (Hn & Hrom). rewrite Hrest by done. apply Hjoin; [done|].
    apply replicate_span. intros x Hx. unfold bus_byte. destruct (Hrom x Hx) as [Hge ->].
    by rewrite (proj2 (Z.ltb_ge _ _)) by lia.
Qed.

(** A range the fast path accepts is plain RAM. *)
Lemma ram_fast_range_Some b p n e :
  bus_ok b -> uint 64 p -> ram_fast_range b p n = Some e ->
  p + Z.of_nat n <= b.(ram_size) /\ outside_mmio b p n /\
  (forall x, p <= x < p + Z.of_nat n -> rom_at b.(rom_regions) x = None).
Proof.
  intros Hb Hp. unfold ram_fast_range, checked_add.
  destruct (Z.ltb_spec (p + Z.of_nat n) (2 ^ 64)); [|done].
  destruct (Z.leb_spec (p + Z.of_nat n) b.(ram_size)); simpl; [|done].
  destruct (ram_no_region_overlap b p (p + Z.of_nat n)) eqn:Hov; [|done]. intros _.
  unfold ram_no_region_overlap in Hov.
  assert ((forall i r, b.(mmio_regions) !! i = Some r ->
             r.(MmioRegion.end_) <= p \/ p + Z.of_nat n <= r.(MmioRegion.start)) /\
          (forall i r, b.(rom_regions) !! i = Some r ->
             RomRegion.end_ r <= p \/ p + Z.of_nat n <= r.(RomRegion.start))) as [Hm Hr].
  { destruct (Z.leb_spec b.(max_rom_end) p), (Z.leb_spec (p + Z.of_nat n) b.(min_mmio_start));
      simpl in Hov.
    { split; intros i r Hi.
      - pose proof (Forall_lookup_1 _ _ _ _ (bo_min _ Hb) Hi). simpl in *. lia.
      - pose proof (Forall_lookup_1 _ _ _ _ (bo_max _ Hb) Hi). simpl in *. lia. }
    all: apply andb_true_iff in Hov as [Hov1 Hov2]; split; intros i r Hi;
      by eapply no_region_overlap_true; [apply Hb|..]. }
  split_and!; [done|..].
  - intros x Hx (r & Hin & Ha). apply list_elem_of_lookup in Hin as [i Hi].
    specialize (Hm i r Hi). lia.
  - intros x Hx. apply rom_at_None_iff. intros i r Hi Ha. specialize (Hr i r Hi). lia.
Qed.

Lemma fast_read_Some b p n bs :
  bus_ok b -> uint 64 p -> fast_read b p n = Some bs -> bs = span (bus_byte b) p n.
Proof.
  intros Hb Hp. unfold fast_read. destruct (ram_fast_range b p n) as [e|] eqn:Hf; [|done].
  destruct (ram_fast_range_Some b p n e Hb Hp Hf) as (Hle & _ & Hrom).
  assert (span (gm_byte b.(ram)) p n = span (bus_byte b) p n) as Hspan.
  { apply span_ext. intros x Hx. unfold bus_byte. rewrite Hrom by done.
    by rewrite (proj2 (Z.ltb_lt _ _)) by lia. }
  destruct (get_slice b.(ram) p n) as [s|] eqn:Hs.
  - intros [= <-]. apply gm_slice in Hs as [_ ->]; [done|apply Hb|done].
  - rewrite gm_read by (done || apply Hb). rewrite <- (bo_size _ Hb).
    rewrite (proj2 (Z.leb_le _ _)) by done. by intros [= <-].
Qed.

Lemma read_physical_spec b p n :
  bus_ok b -> uint 64 p -> outside_mmio b p n ->
  read_physical b p n = (span (bus_byte b) p n, b).
Proof.
  intros Hb Hp Ho. unfold read_physical. destruct (Nat.eqb_spec n 0) as [->|Hn].
  - done.
  - destruct (fast_read b p n) as [bs|] eqn:Hf.
    + by rewrite (fast_read_Some b p n bs).
    + rewrite bus_read_loop_spec; rewrite ?Z.add_0_r; done || lia.
Qed.

Lemma read_uN_spec n b p :
  bus_ok b -> uint 64 p -> outside_mmio b p n ->
  read_uN n b p = (from_le_bytes (span (bus_byte b) p n), b).
Proof.
  intros Hb Hp Ho. unfold read_uN. destruct (fast_read b p n) as [bs|] eqn:Hf.
  - by rewrite (fast_read_Some b p n bs).
  - by rewrite read_physical_spec.
Qed.

(** ** Writes *)

(** Whether a write to the byte at [a] lands in RAM. *)
Definition stored b (a : Z) : bool :=
  bool_decide (rom_at b.(rom_regions) a = None) && gm_backed b.(ram) a.
Definition lands b (a : Z) : bool := stored b a && (a <? b.(ram_size)).

(** Some byte of a write of [src] at [p] reaches RAM in the tracked page [c]. *)
Definition marked_by b (p : Z) (src : list Z) (c : Z) : Prop :=
  exists x, p <= x < p + Z.of_nat (length src) /\ rom_at b.(rom_regions) x = None /\
    x < b.(ram_size) /\ gm_page b.(ram) x = Some c.

(** The bus after a write of [src] at [p]: RAM outside ROM takes the bytes,
    nothing else changes. *)
Record written b (p : Z) (src : list Z) b' : Prop := {
  wt_ok : bus_ok b';
  wt_rom : b'.(rom_regions) = b.(rom_regions);
  wt_mmio : b'.(mmio_regions) = b.(mmio_regions);
  wt_size : b'.(ram_size) = b.(ram_size);
  wt_backed : forall a, gm_backed b'.(ram) a = gm_backed b.(ram) a;
  wt_page : forall a, gm_page b'.(ram) a = gm_page b.(ram) a;
  wt_mark : forall c, gm_mark b'.(ram) c = true <-> gm_mark b.(ram) c = true \/ marked_by b p src c;
  wt_byte : forall a, 0 <= a < b.(ram_size) ->
    gm_byte b'.(ram) a = if stored b a then splice (gm_byte b.(ram)) p src a else gm_byte b.(ram) a;
}.

(** Skipping bytes that do not land, or writing bytes that all do. *)
Lemma written_nil b p : bus_ok b -> written b p [] b.
Proof.
  intros Hb. split; try done.
  - intros c. split; [by left|]. intros [?|(x & Hx & _)]; [done|simpl in Hx; lia].
  - intros a Ha. rewrite splice_other by (simpl; lia). by case_if.
Qed.

Lemma written_skip b p src :
  bus_ok b ->
  (forall x, p <= x < p + Z.of_nat (length src) -> rom_at b.(rom_regions) x <> None \/ b.(ram_size) <= x) ->
  written b p src b.
Proof.
  intros Hb Hl. split; try done.
  - intros c. split; [by left|]. intros [?|(x & Hx & Hr & Hs & _)]; [done|].
    destruct (Hl x Hx); [done|lia].
  - intros a Ha. unfold stored. case_bool_decide as Hr; [|done]. simpl. case_if; [|done].
    rewrite splice_other; [done|]. intros Hx. destruct (Hl a Hx); [done|lia].
Qed.

Lemma written_ram b p src m' :
  bus_ok b -> uint 64 p -> Forall byte_ok src -> p + Z.of_nat (length src) <= b.(ram_size) ->
  (forall x, p <= x < p + Z.of_nat (length src) -> rom_at b.(rom_regions) x = None) ->
  write_from b.(ram) p src = (Ok tt, m') -> written b p src (with_ram b m').
Proof.
  intros Hb Hp Hsrc Hle Hrom Hw.
  destruct (gm_write_in b.(ram) p src) as (m2 & Hw2 & [Hok2 Hs2 Hk2 Hp2 Hm2 Hby]);
    [apply Hb|done|done|by rewrite <- (bo_size _ Hb)|].
  rewrite Hw in Hw2. simplify_eq. split; try done.
  - destruct Hb. split; simpl; congruence.
  - intros c. simpl. rewrite Hm2. apply or_iff_compat_l. split; intros (x & Hx & Hc); exists x.
    + split_and!; [lia|lia|by apply Hrom|lia|done].
    + by destruct Hc as (_ & _ & ?).
  - intros a Ha. simpl. rewrite Hby by (by rewrite <- (bo_size _ Hb)).
    unfold stored. case_bool_decide as Hr; [done|]. rewrite splice_other; [by case_if|].
    intros Hx. by apply Hr, Hrom.
Qed.

Lemma written_app b p s1 s2 b1 b2 :
  written b p s1 b1 -> written b1 (p + Z.of_nat (length s1)) s2 b2 -> written b p (s1 ++ s2) b2.
Proof.
  intros [? Hr1 ? Hz1 Hk1 Hp1 Hm1 Hb1] [? Hr2 ? Hz2 Hk2 Hp2 Hm2 Hb2]. split; [done|congruence..| |].
  { intros c. rewrite Hm2, Hm1. unfold marked_by. rewrite Hr1, Hz1, length_app, Nat2Z.inj_add. setoid_rewrite Hp1.
    split; [intros [[?|(x & ? & ?)]|(x & ? & ?)]|intros [?|(x & Hx & ?)]].
    - by left.
    - right. exists x. split; [lia|done].
    - right. exists x. split; [lia|done].
    - left. by left.
    - destruct (Z.lt_ge_cases x (p + Z.of_nat (length s1))).
      + left. right. exists x. split; [lia|done].
      + right. exists x. split; [lia|done]. }
  intros a Ha. assert (stored b1 a = stored b a) as Hst by (unfold stored; by rewrite Hr1, Hk1).
  rewrite Hb2, Hst by lia. destruct (stored b a) eqn:Hr; rewrite ?Hb1, ?Hr by done; [|done].
  rewrite <- splice_app. apply splice_ext. by rewrite Hb1, Hr.
Qed.

Lemma outside_mmio_same b b' a n :
  b'.(mmio_regions) = b.(mmio_regions) -> outside_mmio b a n -> outside_mmio b' a n.
Proof. intros Hm Ho x Hx (r & Hr & ?). apply (Ho x Hx). exists r. by rewrite <- Hm. Qed.

Lemma bus_write_loop_spec fuel b paddr pos src :
  bus_ok b -> uint 64 paddr -> 0 <= pos -> (length src <= fuel)%nat -> Forall byte_ok src ->
  outside_mmio b (paddr + pos) (length src) ->
  written b (paddr + pos) src (write_loop fuel b paddr pos src).
Proof.
  intros Hb Hp. revert b Hb pos src. induction fuel as [|fuel IH]; intros b Hb pos src Hpos Hf Hsrc Hout.
  { destruct src; [by apply written_nil|simpl in *; lia]. }
  destruct src as [|x xs]; [by apply written_nil|]. cbn [write_loop]. set (src := x :: xs) in *.
  unfold checked_add. destruct (Z.ltb_spec (paddr + pos) (2 ^ 64)) as [Hlt|Hge].
  2: { apply written_skip; [done|]. intros y Hy. right. pose proof (ram_size_uint b Hb) as [_ Hs]. lia. }
  set (addr := paddr + pos) in *.
  assert (uint 64 addr) as Ha by (unfold uint in *; lia).
  assert (0 < length src)%nat as Hlen by (simpl; lia).
  assert (forall n b1, (1 <= n <= length src)%nat -> written b addr (take n src) b1 ->
    written b addr src (write_loop fuel b1 paddr (pos + Z.of_nat n) (drop n src))) as Hrest.
  { intros n b1 Hn Hw1. rewrite <- (take_drop n src) at 1. eapply written_app; [exact Hw1|].
    assert (length (take n src) = n) as -> by (rewrite length_take; lia).
    replace (addr + Z.of_nat n) with (paddr + (pos + Z.of_nat n)) by lia.
    destruct Hw1 as [? ? Hm ? ? ? ? ?].
    apply IH; [done|lia|rewrite length_drop; lia|by apply Forall_drop|].
    rewrite length_drop. apply (outside_mmio_same b); [done|].
    replace (paddr + (pos + Z.of_nat n)) with (addr + Z.of_nat n) by lia.
    apply outside_mmio_drop; [lia|done]. }
  pose proof (dispatch_spec b addr (length src) Hb Ha Hlen) as Hd.
  specialize (Hd ltac:(apply Hout; lia)).
  destruct (dispatch b addr (length src)) as [| r n|n|n]; [done|..];
    [destruct Hd as (Hn & _ & _ & Hrom)|destruct Hd as (Hn & Hs & Hrom)|destruct Hd as (Hn & Hrom)];
    assert (length (take n src) = n) as Ht by (rewrite length_take; lia);
    apply Hrest; try done.
  - apply written_skip; [done|]. rewrite Ht. intros y Hy. left. by rewrite Hrom.
  - assert (Forall byte_ok (take n src)) by (by apply Forall_take).
    destruct (gm_write_in b.(ram) addr (take n src)) as (m' & Hw & _);
      [apply Hb|done|done|by rewrite Ht, <- (bo_size _ Hb)|].
    rewrite Hw. simpl. apply written_ram; rewrite ?Ht; done.
  - apply written_skip; [done|]. rewrite Ht. intros y Hy. right.
    destruct (Hrom y Hy) as [Hge _]. lia.
Qed.

Lemma write_physical_spec b p src :
  bus_ok b -> uint 64 p -> Forall byte_ok src -> outside_mmio b p (length src) ->
  written b p src (write_physical b p src).
Proof.
  intros Hb Hp Hsrc Ho. unfold write_physical.
  pose proof (bus_write_loop_spec (length src) b p 0 src) as Hw. rewrite Z.add_0_r in Hw. apply Hw; done || lia.
Qed.

(** The bytes a reader sees after a write. *)
Lemma written_bus_byte b p src b' a :
  written b p src b' -> 0 <= a ->
  bus_byte b' a = if lands b a then splice (gm_byte b.(ram)) p src a else bus_byte b a.
Proof.
  intros [? Hr ? Hs _ _ _ Hby] Ha. unfold bus_byte, lands. rewrite Hr, Hs.
  destruct (rom_at b.(rom_regions) a) as [r|] eqn:E.
  - unfold stored. by rewrite E.
  - destruct (Z.ltb_spec a b.(ram_size)); [|by rewrite andb_false_r].
    rewrite Hby, andb_true_r by lia. done.
Qed.
End Bus.

(** ** MMIO access sizes

    A handler that records the accesses it receives, around any handler. *)
Definition logged (H : Type) : Type := (H * list (Z * Z))%type.
#[export] Instance logged_handler {H} `{MmioHandler H} : MmioHandler (logged H) := {|
  mmio_read h addr sz :=
    let '(v, h') := mmio_read h.1 addr sz in (v, (h', h.2 ++ [(addr, sz)]));
  mmio_write h addr sz v := (mmio_write h.1 addr sz v, h.2 ++ [(addr, sz)]);
|}.

(** The accesses [log] cover [n] bytes from [a], in order, each naturally
    aligned with size 1, 2, 4 or 8. *)
Fixpoint tiles (a : Z) (n : Z) (log : list (Z * Z)) : Prop :=
  match log with
  | [] => n = 0
  | (x, s) :: log =>
      x = a /\ (s = 1 \/ s = 2 \/ s = 4 \/ s = 8) /\ x mod s = 0 /\ s <= n /\ tiles (a + s) (n - s) log
  end.

Lemma mmio_size_spec addr rem :
  (0 < rem)%nat ->
  let s := Z.of_nat (mmio_size addr rem) in
  (s = 1 \/ s = 2 \/ s = 4 \/ s = 8) /\ addr mod s = 0 /\ 1 <= s <= Z.of_nat rem.
Proof.
  intros Hr. unfold mmio_size. destruct (find_idx _ _) as [[i c]|] eqn:Hf; cbv zeta.
  - apply find_idx_Some in Hf as (Hi & Hc & _). apply andb_true_iff in Hc as [Hle Hmod].
    apply Nat.leb_le in Hle. apply Z.eqb_eq in Hmod. split_and!; [|done|..].
    all: do 4 (destruct i as [|i]; simpl in Hi; [simplify_eq; lia|]); done.
  - rewrite Z.mod_1_r. lia.
Qed.

Section MmioAccesses.
Context {H : Type} `{MmioHandler H}.

Lemma read_mmio_loop_tiles fuel (h : logged H) offset pos rem :
  0 <= offset -> 0 <= pos -> offset + pos + Z.of_nat rem <= 2 ^ 64 -> (rem <= fuel)%nat ->
  exists bs h' log,
    read_mmio_loop fuel h offset pos rem = (bs, (h', h.2 ++ log)) /\
    length bs = rem /\ tiles (offset + pos) (Z.of_nat rem) log.
Proof.
  intros Hoff. revert h pos rem. induction fuel as [|fuel IH]; intros h pos rem Hpos Hle Hf.
  { destruct rem; [|lia]. exists [], h.1, []. rewrite app_nil_r. by destruct h. }
  destruct rem as [|rem']; [exists [], h.1, []; rewrite app_nil_r; by destruct h|].
  cbn [read_mmio_loop]. set (rem := S rem') in *. unfold wrapping_add.
  rewrite wrap_small by (unfold uint; lia). set (addr := offset + pos) in *.
  destruct (mmio_size_spec addr rem) as (Hs & Hm & Hb); [lia|]. set (n := mmio_size addr rem) in *.
  cbn [mmio_read logged_handler]. destruct (mmio_read h.1 addr (Z.of_nat n)) as [v h1].
  destruct (IH (h1, h.2 ++ [(addr, Z.of_nat n)]) (pos + Z.of_nat n) (rem - n)%nat)
    as (bs & h' & log & -> & Hlen & Ht); [lia..|].
  exists (take n (to_le_bytes 8 v) ++ bs), h', ((addr, Z.of_nat n) :: log). split_and!.
  - simpl. by rewrite <- app_assoc.
  - rewrite length_app, length_take, to_le_bytes_length, Hlen. lia.
  - simpl. split_and!; [done|done|done|lia|].
    replace (offset + (pos + Z.of_nat n)) with (addr + Z.of_nat n) in Ht by lia.
    by replace (Z.of_nat rem - Z.of_nat n) with (Z.of_nat (rem - n)) by lia.
Qed.

Lemma write_mmio_loop_tiles fuel (h : logged H) offset pos src :
  0 <= offset -> 0 <= pos -> offset + pos + Z.of_nat (length src) <= 2 ^ 64 ->
  (length src <= fuel)%nat ->
  exists h' log, write_mmio_loop fuel h offset pos src = (h', h.2 ++ log) /\
    tiles (offset + pos) (Z.of_nat (length src)) log.
Proof.
  intros Hoff. revert h pos src. induction fuel as [|fuel IH]; intros h pos src Hpos Hle Hf.
  { destruct src; [|simpl in *; lia]. exists h.1, []. rewrite app_nil_r. by destruct h. }
  destruct src as [|x xs]; [exists h.1, []; rewrite app_nil_r; by destruct h|].
  cbn [write_mmio_loop]. set (src := x :: xs) in *. unfold wrapping_add.
  assert (0 < length src)%nat by (simpl; lia).
  rewrite wrap_small by (unfold uint; lia). set (addr := offset + pos) in *.
  destruct (mmio_size_spec addr (length src)) as (Hs & Hm & Hb); [lia|].
  set (n := mmio_size addr (length src)) in *. cbn [mmio_write logged_handler].
  set (h1 := mmio_write _ _ _ _).
  destruct (IH (h1, h.2 ++ [(addr, Z.of_nat n)]) (pos + Z.of_nat n) (drop n src))
    as (h' & log & -> & Ht); [lia|rewrite length_drop; lia|rewrite length_drop; lia|].
  exists h', ((addr, Z.of_nat n) :: log). split; [simpl; by rewrite <- app_assoc|].
  rewrite length_drop in Ht. cbn [tiles]. split_and!; [done|done|done|lia|].
  replace (offset + (pos + Z.of_nat n)) with (addr + Z.of_nat n) in Ht by lia.
  by replace (Z.of_nat (length src) - Z.of_nat n) with (Z.of_nat (length src - n)) by lia.
Qed.
End MmioAccesses.

(** ** The MMU over a physical memory bus

    A bus with a fixed memory map (ROM regions, RAM size) and no MMIO region
    meets the laws page walking relies on.  [no_mmio] is the handler type of a
    bus without handlers. *)
Inductive no_mmio : Type := .
#[export] Instance no_mmio_handler : MmioHandler no_mmio := {|
  mmio_read (h : no_mmio) _ _ := match h with end;
  mmio_write h _ _ _ := h;
|}.

Section Paging.
Context {M : Type} `{GMS : GuestMemorySpec M} (roms : list RomRegion.t) (rsize : Z).

Definition mapped_as (b : t M no_mmio) : Prop :=
  bus_ok b /\ b.(rom_regions) = roms /\ b.(ram_size) = rsize.
Definition paging_bus : Type := { b : t M no_mmio | mapped_as b }.

Lemma no_mmio_outside (b : t M no_mmio) a n : outside_mmio b a n.
Proof. intros x _ (r & _ & _). destruct r as [? ? []]. Qed.

(** Addresses and values are [u64]/[uN] in the code; the interface is total. *)
Definition pb_read (n : nat) (b : paging_bus) (a : Z) : Z :=
  fst (read_uN n (`b) (wrap 64 a)).

Lemma mapped_as_write (n : nat) (b : paging_bus) a v :
  mapped_as (write_uN n (`b) (wrap 64 a) v).
Proof.
  destruct b as [b (Hb & Hr & Hs)]. simpl. unfold write_uN.
  destruct (write_physical_spec b (wrap 64 a) (to_le_bytes n v)) as [? Hr' ? Hs' ?];
    [done|apply uint_wrap; lia|apply to_le_bytes_ok|apply no_mmio_outside|].
  split_and!; [done|congruence..].
Qed.

Definition pb_write (n : nat) (b : paging_bus) (a v : Z) : paging_bus :=
  exist _ (write_uN n (`b) (wrap 64 a) v) (mapped_as_write n b a v).

#[export] Instance paging_bus_memory : MemoryBus paging_bus := {|
  read_u32 := pb_read 4;
  read_u64 := pb_read 8;
  write_u32 := pb_write 4;
  write_u64 := pb_write 8;
|}.

Lemma pb_read_eq n b a : uint 64 a -> pb_read n b a = from_le_bytes (span (bus_byte (`b)) a n).
Proof.
  intros Ha. unfold pb_read. rewrite (wrap_small 64 a Ha).
  pose proof (proj1 (proj2_sig b)) as Hb. by rewrite read_uN_spec by (done || apply no_mmio_outside).
Qed.

Lemma pb_read_uint n b a : uint (8 * Z.of_nat n) (pb_read n b a).
Proof.
  unfold pb_read. pose proof (proj1 (proj2_sig b)) as Hb.
  rewrite read_uN_spec by (done || apply no_mmio_outside || apply uint_wrap; lia). simpl.
  rewrite <- (span_length (bus_byte (`b)) (wrap 64 a) n) at 1.
  apply from_le_bytes_uint, Forall_span. intros x. by apply bus_byte_ok.
Qed.

Lemma pb_write_byte n b a v x :
  uint 64 a -> 0 <= x ->
  bus_byte (proj1_sig (pb_write n b a v)) x =
  if lands (`b) x then splice (gm_byte (`b).(ram)) a (to_le_bytes n v) x else bus_byte (`b) x.
Proof.
  intros Ha Hx. unfold pb_write. simpl. rewrite (wrap_small 64 a Ha).
  apply written_bus_byte; [|done].
  apply write_physical_spec; [exact (proj1 (proj2_sig b))|done|apply to_le_bytes_ok|apply no_mmio_outside].
Qed.

Lemma pb_write_other n b a a' v :
  uint 64 a -> uint 64 a' -> (0 < n)%nat ->
  a mod Z.of_nat n = 0 -> a' mod Z.of_nat n = 0 -> a <> a' ->
  pb_read n (pb_write n b a v) a' = pb_read n b a'.
Proof.
  intros Ha Ha' Hn Hm Hm' Hne. rewrite !pb_read_eq by done. f_equal.
  apply span_ext. intros x Hx. unfold uint in *. rewrite pb_write_byte by (done || lia).
  destruct (lands (`b) x) eqn:Hl; [|done].
  rewrite splice_other.
  - unfold lands, stored in Hl. apply andb_true_iff in Hl as [[Hr _]%andb_true_iff Hs].
    apply bool_decide_eq_true in Hr.
    unfold bus_byte. by rewrite Hr, Hs.
  - rewrite to_le_bytes_length. apply Z.mod_divide in Hm, Hm'; [|lia..].
    destruct Hm as [q ->], Hm' as [q' ->]. intros Hc.
    assert (q <> q') by congruence. nia.
Qed.

Lemma pb_write_same n b a v i :
  uint 64 a -> uint (8 * Z.of_nat n) v -> 0 <= i ->
  Z.testbit (pb_read n (pb_write n b a v) a) i = Z.testbit v i \/
  Z.testbit (pb_read n (pb_write n b a v) a) i = Z.testbit (pb_read n b a) i.
Proof.
  intros Ha Hv Hi. rewrite !pb_read_eq by done.
  assert (forall b : paging_bus, Forall byte_ok (span (bus_byte (`b)) a n)) as Hok.
  { intros b'. apply Forall_span. intros x. apply bus_byte_ok, (proj2_sig b'). }
  rewrite !from_le_bytes_testbit by (apply Hok || done).
  assert (0 <= i / 8) as Hq by (apply Z.div_pos; lia). set (k := Z.to_nat (i / 8)).
  destruct (decide (k < n)%nat) as [Hk|Hk].
  2: { rewrite !(lookup_ge_None_2 (span _ _ _)) by (rewrite span_length; lia). by right. }
  rewrite !span_lookup by done. unfold uint in Ha.
  rewrite pb_write_byte by (done || lia). destruct (lands (`b) _); [left|by right].
  unfold splice. rewrite to_le_bytes_length.
  rewrite (proj2 (Z.leb_le _ _)), (proj2 (Z.ltb_lt _ _)) by lia. simpl.
  replace (Z.to_nat (a + Z.of_nat k - a)) with k by lia. rewrite to_le_bytes_lookup by done. simpl.
  pose proof (Z.mod_pos_bound i 8). pose proof (Z.div_mod i 8).
  rewrite testbit_wrap, (proj2 (Z.ltb_lt _ _)) by lia. simpl. rewrite Z.shiftr_spec by lia.
  f_equal. unfold k. lia.
Qed.

(** A word that lies in RAM outside ROM reads back as written. *)
Lemma pb_write_read n b a v :
  uint 64 a -> uint (8 * Z.of_nat n) v -> a + Z.of_nat n <= rsize ->
  (forall x, a <= x < a + Z.of_nat n -> rom_at roms x = None /\ gm_backed (`b).(ram) x = true) ->
  pb_read n (pb_write n b a v) a = v.
Proof.
  intros Ha Hv Hn Hrom. rewrite pb_read_eq by done.
  rewrite (span_ext _ (splice (gm_byte (`b).(ram)) a (to_le_bytes n v))).
  - rewrite <- (to_le_bytes_length n v) at 2. rewrite splice_span. by apply from_to_le_bytes_id.
  - intros x Hx. unfold uint in Ha. rewrite pb_write_byte by (done || lia).
    unfold lands, stored. destruct (proj2_sig b) as (_ & -> & ->). destruct (Hrom x Hx) as [-> ->].
    rewrite bool_decide_true, (proj2 (Z.ltb_lt _ _)) by (done || lia). done.
Qed.

#[export] Instance paging_bus_laws : PagingMemory paging_bus.
Proof.
  split; intros; simpl in *.
  - apply pb_read_uint.
  - apply pb_read_uint.
  - by apply pb_write_same.
  - by apply pb_write_same.
  - by apply pb_write_other; [..|lia| | |].
  - by apply pb_write_other; [..|lia| | |].
Qed.
End Paging.
