(* ===== verification/MmuProps.v ===== *)
(** * Properties of the MMU

    The theorems a user of crates/aero-mmu relies on: translation through the
    TLB is architectural translation, page-table edits followed by INVLPG are
    seen, the internal invariant holds in every reachable state, and the
    answers are in range. *)

From S2P Require Import Prelude MmuTlb Mmu MmuSpec MmuWalk MmuRefine.
From S2P Require Import Bytes GuestMem PhysBus PhysBusFacts.
Import TlbSetFacts TlbSetOps TlbEntryFacts.

(** ** Reachable states *)

(** The cached copies of control-register bits agree with the registers. *)
Definition cached_ok (m : Mmu.t) : Prop := Mmu.update_cached_state m = m.

Record mmu_ok (m : Mmu.t) : Prop := {
  mo_tlb : tlb_wf m.(Mmu.tlb);
  mo_cfg : mmu_cfg_ok m;
  mo_cached : cached_ok m;
}.

Section Reach.
Context {M : Type} `{PM : PagingMemory M}.
Implicit Types (m : Mmu.t) (b : M).

(** The public operations of the MMU, in any order, over any memory: between
    two steps the guest may write to memory as it likes. *)
Inductive mmu_step : Mmu.t -> Mmu.t -> Prop :=
| step_translate m env b vaddr access cpl :
    uint 64 vaddr -> mmu_step m (Mmu.translate env m b vaddr access cpl).1.2
| step_cr0 m v : mmu_step m (Mmu.set_cr0 m v)
| step_cr3 m v : uint 64 v -> mmu_step m (Mmu.set_cr3 m v)
| step_cr4 m v : mmu_step m (Mmu.set_cr4 m v)
| step_efer m v : mmu_step m (Mmu.set_efer m v)
| step_max_phys_bits m bits m' : Mmu.set_max_phys_bits m bits = Some m' -> mmu_step m m'
| step_invlpg m v : mmu_step m (Mmu.invlpg m v)
| step_invpcid m pcid kind : mmu_step m (Mmu.invpcid m pcid kind).

Lemma finish_leaf_entry m b v access u w a leaf pb ps uo wo nx e p b' :
  uint 64 v -> Mmu.finish_leaf m b v access u w a leaf pb ps uo wo nx = (Ok (e, p), b') ->
  TlbEntry.valid e = true /\ entry_ok e.
Proof.
  intros Hv. unfold Mmu.finish_leaf. destruct (Mmu.check_perms _ _ _ _ _ _ _); [|done].
  intros [= <- _ _]. split; [apply new_valid|]. unfold entry_ok. simpl.
  split; [by apply page_base_uint|by apply page_base_aligned].
Qed.

Lemma with_entry64_Ok {A} m b ctx addr kind (k : M -> Z -> result A PageFault.t * M) x b' :
  Mmu.with_entry64 m b ctx addr kind k = (Ok x, b') -> exists b1 e, k b1 e = (Ok x, b').
Proof.
  unfold Mmu.with_entry64. destruct (Mmu.check_entry64 _ _ _ _ _ _) as [[[e|]|] b1]; try done.
  by eauto.
Qed.

Local Ltac walk_levels Hv :=
  repeat match goal with
  | |- Mmu.with_entry64 _ _ _ _ _ _ = _ -> _ =>
      intros (? & ? & Hk)%with_entry64_Ok; revert Hk; cbv beta zeta
  | |- (if _ then _ else _) = _ -> _ => case_if; try done
  | |- Mmu.finish_leaf _ _ _ _ _ _ _ _ _ _ _ _ _ = _ -> _ => by apply finish_leaf_entry
  end.

Lemma walk_entry env m b v access u e p b' :
  uint 64 v -> Mmu.walk env m b v access u = (Ok (e, p), b') ->
  TlbEntry.valid e = true /\ entry_ok e.
Proof.
  intros Hv. unfold Mmu.walk. destruct (m.(Mmu.mode)); [done|..].
  - unfold Mmu.walk_legacy32. cbv zeta. repeat (case_if; [done|]).
    destruct (Mmu.check_entry32 _ _ _) as [[pde|] b1]; [|done].
    walk_levels Hv. destruct (Mmu.check_entry32 _ _ _) as [[pte|] b2]; [|done]. walk_levels Hv.
  - unfold Mmu.walk_pae. cbv zeta. walk_levels Hv.
  - unfold Mmu.walk_long4. cbv zeta. walk_levels Hv.
    destruct (Mmu.cow_upgrade _ _ _ _ _ _ _ _ _ _ _ _ _) as [[? ?] ?]. walk_levels Hv.
Qed.

Lemma walk_and_fill_wf env m b v access u :
  uint 64 v -> tlb_wf m.(Mmu.tlb) ->
  tlb_wf (Mmu.walk_and_fill env m b v access u).1.2.(Mmu.tlb) /\
  same_config m (Mmu.walk_and_fill env m b v access u).1.2.
Proof.
  intros Hv Hwf. unfold Mmu.walk_and_fill.
  destruct (Mmu.walk env m b v access u) as [[[e p]|pf] b1] eqn:Hw; simpl; [|by split].
  apply walk_entry in Hw as [Hval Hok]; [|done]. split; [by apply tlb_insert_wf|done].
Qed.

Lemma translate_wf env m b vaddr access cpl :
  uint 64 vaddr -> tlb_wf m.(Mmu.tlb) ->
  tlb_wf (Mmu.translate env m b vaddr access cpl).1.2.(Mmu.tlb) /\
  same_config m (Mmu.translate env m b vaddr access cpl).1.2.
Proof.
  intros Hu Hwf. unfold Mmu.translate.
  destruct (Mmu.linear_address m vaddr) as [v|f] eqn:Hv; [|done].
  apply linear_address_uint in Hv; [|done]. case_bool_decide; [done|].
  destruct (Tlb.lookup _ _ _ _ _ _) as [h|] eqn:Hl; [|by apply walk_and_fill_wf].
  destruct (tlb_lookup_Some _ _ _ _ _ _ _ Hwf Hv Hl) as (Hs & Hway & _ & _ & _).
  destruct access; [by repeat case_if| |by repeat case_if].
  unfold Mmu.write_hit. case_if.
  - set (m1 := Mmu.with_tlb m _).
    assert (same_config m m1) as Hc1 by done.
    destruct (walk_and_fill_wf env m1 b v Write (cpl =? 3)) as [Hw2 Hc2]; [done| |].
    { apply tlb_both_wf; [|done]. intros. by apply invalidate_address_all_wf. }
    split; [done|exact Hc2].
  - case_if; [|done]. split; [|done]. by apply tlb_set_dirty_wf.
Qed.

Lemma same_config_ok m m' : same_config m m' -> tlb_wf m'.(Mmu.tlb) -> mmu_ok m -> mmu_ok m'.
Proof.
  intros Hc Hwf [_ Hcfg Hca]. split; [done|..].
  - destruct Hc as (_ & H3 & _ & _ & _ & Hb & _). unfold mmu_cfg_ok. by rewrite H3, Hb.
  - unfold cached_ok, Mmu.update_cached_state in *.
    destruct Hc as (H0 & H3 & H4 & He & Hm & Hb & Hp & Hpe & Hpc), m, m'; simpl in *; subst.
    injection Hca. intros E1 E2 E3 E4. by rewrite E1, E2, E3, E4.
Qed.

Lemma flush_all_tlb_wf t : tlb_wf t -> tlb_wf (Tlb.flush_all t).
Proof. apply tlb_both_wf. intros. by apply flush_all_wf. Qed.

Lemma update_cached_idemp m : cached_ok (Mmu.update_cached_state m).
Proof. done. Qed.

(** Turning paging on or off empties the TLB. *)
Lemma set_cr0_flushes m v :
  xorb (nz (m.(Mmu.cr0) &&& CR0_PG)) (nz (v &&& CR0_PG)) = true ->
  (Mmu.set_cr0 m v).(Mmu.tlb) = Tlb.flush_all m.(Mmu.tlb).
Proof. intros Hx. unfold Mmu.set_cr0. simpl. by rewrite Hx. Qed.

Lemma on_cr3_write_wf t pge en pc nf : tlb_wf t -> tlb_wf (Tlb.on_cr3_write t pge en pc nf).
Proof.
  intros Hwf. unfold Tlb.on_cr3_write. repeat case_if; try done;
    try (apply tlb_both_wf; [|done]; intros; by apply flush_where_wf).
  by apply flush_all_tlb_wf.
Qed.

Lemma invpcid_wf t pc kind : tlb_wf t -> tlb_wf (Tlb.invpcid t pc kind).
Proof.
  intros Hwf. destruct kind; simpl.
  - apply tlb_both_wf; [|done]. intros. by apply invalidate_address_pcid_wf.
  - apply tlb_both_wf; [|done]. intros. by apply flush_where_wf.
  - by apply flush_all_tlb_wf.
  - apply tlb_both_wf; [|done]. intros. by apply flush_where_wf.
Qed.

Lemma mmu_step_ok m m' : mmu_step m m' -> mmu_ok m -> mmu_ok m'.
Proof.
  intros Hs Hok. pose proof Hok as [Hwf [Hb Hc3] Hca].
  destruct Hs as [m env b vaddr access cpl Hu|m v|m v Hv|m v|m v|m bits m' Hm|m v|m pc kind].
  - destruct (translate_wf env m b vaddr access cpl Hu Hwf) as [Hwf' Hc].
    by apply (same_config_ok m).
  - unfold Mmu.set_cr0. split; [|case_if; done|apply update_cached_idemp].
    case_if; simpl; [by apply flush_all_tlb_wf|done].
  - unfold Mmu.set_cr3. split; [simpl; by apply on_cr3_write_wf|done|done].
  - unfold Mmu.set_cr4. split; [|case_if; done|apply update_cached_idemp].
    case_if; simpl; [by apply flush_all_tlb_wf|done].
  - unfold Mmu.set_efer. split; [|case_if; done|apply update_cached_idemp].
    case_if; simpl; [by apply flush_all_tlb_wf|done].
  - unfold Mmu.set_max_phys_bits in Hm.
    destruct (Z.leb_spec 1 bits), (Z.leb_spec bits 52); simpl in Hm; try done.
    case_if_in Hm; simplify_eq; [|done].
    split; [by apply flush_all_tlb_wf|split; [simpl; lia|done]|].
    unfold cached_ok, Mmu.update_cached_state in *. destruct m; simpl in *.
    injection Hca. intros E1 E2 E3 E4. by rewrite E1, E2, E3, E4.
  - apply (same_config_ok m); [unfold Mmu.invlpg; by case_if|by apply invlpg_wf|done].
  - apply (same_config_ok m); [done|by apply invpcid_wf|done].
Qed.

Lemma new_mmu_ok : mmu_ok Mmu.new.
Proof. split; [split; apply new_wf|by split|done]. Qed.

(** C28: In every state the MMU can reach from reset by any sequence of its
    public operations, over any guest memory, the TLB banks are well formed
    (set and way counts, entries in the set their tag selects, page-size
    counters equal to the number of valid entries of that size), the cached
    control bits agree with CR0/CR3/CR4/EFER, and the address width is legal. *)
Theorem mmu_invariant m : rtc mmu_step Mmu.new m -> mmu_ok m.
Proof.
  intros Hr. remember Mmu.new as m0 eqn:E. assert (mmu_ok m0) as H0 by (subst; apply new_mmu_ok).
  clear E. induction Hr as [|x y z Hxy _ IH]; [done|]. apply IH. by eapply mmu_step_ok.
Qed.

(** ** Translation *)
Lemma spec_access_addr m v access u o pf :
  spec_access m v access u o = Err pf -> pf.(PageFault.addr) = v.
Proof.
  destruct o as [| |l]; [by intros [= <-]..|]. simpl.
  destruct (Mmu.check_perms _ _ _ _ _ _ _) eqn:Hc; [done|]. intros [= <-].
  unfold Mmu.check_perms in Hc. repeat case_if_in Hc; by simplify_eq.
Qed.

(** C1: Translation through the TLB is architectural translation.  With a TLB
    that agrees with the page tables, [translate] returns exactly what the
    TLB-free reference walk of the tables returns (address, page fault with
    its error code, or non-canonical fault), for every access type and
    privilege level; the TLB stays coherent, no control register changes, and
    memory changes in Accessed/Dirty bits only. *)
Theorem translate_is_architectural env m b vaddr access cpl r m' b' :
  cow_force_rw_enabled env = false -> coherent m b -> uint 64 vaddr ->
  Mmu.translate env m b vaddr access cpl = (r, m', b') ->
  r = spec_translate m b vaddr access cpl /\ coherent m' b' /\ same_config m m' /\ ad_mem m b b'.
Proof. apply translate_refines. Qed.

(** C6: The answers to a whole sequence of accesses are those of the reference
    walk on the initial tables: earlier accesses (TLB fills, Accessed/Dirty
    updates, evictions) never change the answer to a later one. *)
Theorem translate_sequence env ops m b rs m' b' :
  cow_force_rw_enabled env = false -> coherent m b ->
  Forall (fun op => uint 64 op.1.1) ops -> translate_all env m b ops = (rs, m', b') ->
  rs = map (fun op => spec_translate m b op.1.1 op.1.2 op.2) ops /\ coherent m' b'.
Proof.
  intros Henv Hco Hops Ht. by destruct (translate_all_spec _ _ _ _ _ _ _ Henv Hco Hops Ht) as (? & ? & _).
Qed.

(** C26: [translate_probe] answers as the reference walk does, with a warm or a
    cold TLB. *)
Theorem probe_is_architectural m b vaddr access cpl :
  coherent m b -> uint 64 vaddr ->
  Mmu.translate_probe m b vaddr access cpl = spec_translate m b vaddr access cpl.
Proof. apply translate_probe_spec. Qed.

(** C27: INVLPG after a page-table edit restores coherence.  The TLB agrees
    with the tables and caches linear addresses only, as every sequence of
    accesses leaves it.  The guest then changes the mapping of one page, of the
    size the tables gave it: 4K, 2M, 4M or 1G, and no other.  After [invlpg v]
    for an address of that page the TLB agrees with the edited tables, with or
    without PCIDs and for global pages too, and the other pages stay cached. *)
Theorem invlpg_restores m b b' v :
  coherent m b -> linear_entries m -> uint 64 v -> edits_page m b b' v ->
  (m.(Mmu.mode) <> Disabled -> pdpt_private m b') ->
  coherent (Mmu.invlpg m v) b' /\ linear_entries (Mmu.invlpg m v) /\
  forall e, visible m e -> e.(TlbEntry.vbase) <> page_base e.(TlbEntry.page_size) v -> visible (Mmu.invlpg m v) e.
Proof.
  intros Hco Hlin Hv He Hp. destruct (invlpg_coherent m b b' v Hco Hlin Hv He Hp). split; [done|]. split; [done|].
  intros e. apply invlpg_keeps, Hco.
Qed.

(** The hand-written walks agree with one reference radix walk: for every
    paging mode, the probe walk computes it, and the updating walk computes it
    followed by the permission check, while it writes Accessed bits. *)
Theorem walks_are_radix env m b v access is_user :
  cow_force_rw_enabled env = false -> m.(Mmu.mode) <> Disabled ->
  Mmu.walk_probe m b v access is_user = spec_access m v access is_user (spec_walk m b v) /\
  Mmu.walk env m b v access is_user = end_walk m v access is_user (upd_walk m b v).
Proof. intros Henv Hm. split; [by apply walk_probe_spec|by apply walk_upd]. Qed.

(** A successful write leaves the Dirty bit of the leaf entry set in memory
    (where the entry's word is writable), on a TLB hit as on a walk. *)
Theorem write_sets_dirty env m b vaddr cpl p m' b' v :
  cow_force_rw_enabled env = false -> coherent m b -> uint 64 vaddr ->
  m.(Mmu.mode) <> Disabled -> Mmu.linear_address m vaddr = Ok v ->
  Mmu.translate env m b vaddr Write cpl = (Ok p, m', b') ->
  exists l, spec_walk m b v = Mapped l /\
    (sticky (paging_of m) l.(lf_addr) -> Z.testbit (rd (paging_of m) b' l.(lf_addr)) 6 = true).
Proof.
  intros Henv Hco Hu Hm Hv Ht. pose proof (translate_ok _ _ _ _ _ _ _ _ _ Henv Hco Hu Ht) as Hs.
  rewrite Hv, bool_decide_false in Hs by done. by eapply so_dirty.
Qed.

(** CR2 holds the faulting linear address after a page fault and is
    unchanged by anything else. *)
Theorem translate_cr2 env m b vaddr access cpl r m' b' :
  cow_force_rw_enabled env = false -> coherent m b -> uint 64 vaddr ->
  Mmu.translate env m b vaddr access cpl = (r, m', b') ->
  m'.(Mmu.cr2) =
  match r with
  | Err (PageFaultAt pf) => pf.(PageFault.addr)
  | _ => m.(Mmu.cr2)
  end /\
  (forall pf, r = Err (PageFaultAt pf) -> Mmu.linear_address m vaddr = Ok pf.(PageFault.addr)).
Proof.
  intros Henv Hco Hu Ht. pose proof (translate_ok _ _ _ _ _ _ _ _ _ Henv Hco Hu Ht) as Hs.
  destruct (Mmu.linear_address m vaddr) as [v|f] eqn:Hv.
  - case_bool_decide; [by destruct Hs as (-> & -> & _)|]. destruct Hs as [Hr _ _ _ Hcr2 _].
    destruct r as [p|f]; [done|]. destruct (spec_access _ _ _ _ _) as [|pf] eqn:Hsa; [done|].
    apply spec_access_addr in Hsa. simpl in Hr. injection Hr as ->.
    split; [congruence|]. intros ? [= <-]. by rewrite Hsa.
  - destruct Hs as (-> & -> & _). unfold Mmu.linear_address in Hv.
    destruct (m.(Mmu.mode)); try done. case_if_in Hv; by simplify_eq.
Qed.
End Reach.

(** ** TLB maintenance *)
Section Maintenance.
Implicit Types m : Mmu.t.

(** The per-size counters of a TLB bank only skip work: on a well-formed
    bank, [lookup] with its counter tests and its 4K-only fast path finds what
    probing every page size of the mode, largest first, finds. *)
Theorem lookup_counters_transparent ts en v pc p :
  wf ts -> uint 64 v -> TlbSet.lookup ts v pc en p = lookup_sizes ts en v pc (probe_sizes p).
Proof. intros Hwf Hv. by apply lookup_eq_sizes. Qed.

Lemma insert_lookup ts e en v pc p :
  wf ts -> TlbEntry.valid e = true -> entry_ok e -> uint 64 v ->
  serves en v pc e -> e.(TlbEntry.page_size) ∈ probe_sizes p ->
  exists h, TlbSet.lookup (TlbSet.insert ts e) v pc en p = Some h /\
    serves en v pc h.(TlbHit.entry).
Proof.
  intros Hwf Hval Hok Hv Hs Hin. pose proof (insert_wf ts Hwf e Hval Hok) as Hwf'.
  destruct (TlbSet.lookup (TlbSet.insert ts e) v pc en p) as [h|] eqn:Hl.
  - exists h. split; [done|]. by apply (lookup_Some _ Hwf') in Hl as (_ & _ & _ & _ & ?).
  - rewrite (lookup_eq_sizes _ Hwf') in Hl by done.
    destruct (lookup_sizes_None _ Hwf' en v pc _ e Hl); try done. by apply insert_contains.
Qed.

(** An address of a page just inserted hits, whatever the bank held: the
    hit entry covers the address and is visible in the PCID context. *)
Theorem insert_then_hit ts e en v pc p :
  wf ts -> TlbEntry.valid e = true -> entry_ok e -> uint 64 v ->
  serves en v pc e -> e.(TlbEntry.page_size) ∈ probe_sizes p ->
  exists h, TlbSet.lookup (TlbSet.insert ts e) v pc en p = Some h /\
    serves en v pc h.(TlbHit.entry).
Proof. apply insert_lookup. Qed.

(** What a CR3 load leaves visible. *)
Lemma set_cr3_visible m value e :
  tlb_wf m.(Mmu.tlb) -> Mmu.cr3_no_flush (Mmu.set_cr3 m value) = false ->
  visible (Mmu.set_cr3 m value) e ->
  tlb_contains m.(Mmu.tlb) e /\ TlbEntry.global e = true /\
  (nz (m.(Mmu.cr4) &&& CR4_PCIDE) = true \/ Mmu.cr4_pge m = true).
Proof.
  intros Hwf Hnf [Hin Hm]. unfold Mmu.set_cr3 in Hin, Hm, Hnf. simpl in Hin, Hm.
  set (m1 := Mmu.update_cached_state _) in *.
  assert (Mmu.cr3_no_flush m1 = false) as Hnf1 by exact Hnf.
  unfold Tlb.on_cr3_write in Hin. rewrite Hnf1 in Hin.
  change (Mmu.pcid_enabled m1) with (nz (m.(Mmu.cr4) &&& CR4_PCIDE)) in *.
  change (Mmu.cr4_pge m1) with (Mmu.cr4_pge m) in Hin.
  destruct (nz (m.(Mmu.cr4) &&& CR4_PCIDE)) eqn:Hen; simpl in Hin.
  - apply (tlb_both_contains _ _ _
      ((if TlbEntry.global e then false else e.(TlbEntry.pcid) =? (value &&& 0xfff)) = false)) in Hin;
      [|intros; apply flush_where_contains|done].
    destruct Hin as [Hin Hdrop]. split_and!; [done| |by left].
    rewrite matches_pcid_spec in Hm. apply andb_true_iff in Hm as [_ Hm]. simpl in Hm.
    destruct (TlbEntry.global e); [done|]. simpl in Hm. congruence.
  - destruct (Mmu.cr4_pge m) eqn:Hpge.
    + apply (tlb_both_contains _ _ _ (negb (TlbEntry.global e) = false)) in Hin;
        [|intros; apply flush_where_contains|done].
      destruct Hin as [Hin Hg]. apply negb_false_iff in Hg. split_and!; [done|done|by right].
    + destruct Hin as [Hin|Hin]; by apply flush_all_contains in Hin.
Qed.

(** A CR3 load without the no-flush bit leaves only global translations
    visible in the new address space, and those only if CR4.PGE or CR4.PCIDE
    is set. *)
Theorem cr3_load_flushes m value e :
  tlb_wf m.(Mmu.tlb) -> Mmu.cr3_no_flush (Mmu.set_cr3 m value) = false ->
  visible (Mmu.set_cr3 m value) e ->
  tlb_contains m.(Mmu.tlb) e /\ TlbEntry.global e = true /\
  (nz (m.(Mmu.cr4) &&& CR4_PCIDE) = true \/ Mmu.cr4_pge m = true).
Proof. apply set_cr3_visible. Qed.

(** With PCIDs enabled, a lookup never returns a translation of another
    address space: the hit entry is global or carries the current PCID. *)
Theorem pcid_isolation m v is_exec h :
  tlb_wf m.(Mmu.tlb) -> uint 64 v -> m.(Mmu.pcid_enabled) = true ->
  Tlb.lookup m.(Mmu.tlb) v is_exec (Mmu.current_pcid m) m.(Mmu.pcid_enabled)
    m.(Mmu.tlb_page_sizes) = Some h ->
  TlbEntry.global h.(TlbHit.entry) = true \/ h.(TlbHit.entry).(TlbEntry.pcid) = m.(Mmu.pcid).
Proof.
  intros Hwf Hv Hen Hl. apply tlb_lookup_Some in Hl as (_ & _ & _ & [Hm _] & _); [|done..].
  rewrite matches_pcid_spec, Hen in Hm. simpl in Hm.
  apply andb_true_iff in Hm as [_ Hm]. apply orb_true_iff in Hm as [Hg|Hp]; [by left|right].
  by apply Z.eqb_eq in Hp.
Qed.

(** With CR4.PSE clear, lookups never return a large page, in PAE and
    long mode as in 32-bit paging: the walks accept and insert 2 MiB and 1 GiB
    translations there, but every access to them walks again. *)
Theorem large_pages_miss_without_pse m v is_exec h :
  mmu_ok m -> uint 64 v -> Mmu.cr4_pse m = false ->
  Tlb.lookup m.(Mmu.tlb) v is_exec (Mmu.current_pcid m) m.(Mmu.pcid_enabled)
    m.(Mmu.tlb_page_sizes) = Some h ->
  h.(TlbHit.entry).(TlbEntry.page_size) = Size4K.
Proof.
  intros [[Hwi Hwd] _ Hca] Hv Hpse Hl.
  assert (m.(Mmu.tlb_page_sizes) = Only4K) as Hp.
  { rewrite <- Hca. simpl. unfold Mmu.cr4_pse in Hpse. apply negb_false_iff in Hpse. by rewrite Hpse. }
  rewrite Hp in Hl. unfold Tlb.lookup in Hl.
  case_if_in Hl; rewrite lookup_eq_sizes in Hl by done; apply lookup_sizes_Some in Hl as (_ & _ & _ & Hin);
    by apply list_elem_of_singleton in Hin.
Qed.
End Maintenance.

(** ** Ranges *)
Lemma land_shifted_ones x n k :
  0 <= n -> 0 <= k -> (x &&& (Z.ones n <<< k)) = 0 <-> (x >>> k) mod 2 ^ n = 0.
Proof.
  intros Hn Hk. rewrite <- land_ones_mod by done.
  replace ((x >>> k) &&& Z.ones n) with ((x &&& (Z.ones n <<< k)) >>> k).
  - split; [intros ->; by rewrite Z.shiftr_0_l|]. intros Hz. apply Z.bits_inj'. intros i Hi.
    rewrite Z.land_spec, Z.shiftl_spec, Z.bits_0 by done.
    destruct (Z.lt_ge_cases i k) as [Hlt|Hge].
    + rewrite (Z.testbit_neg_r (Z.ones n)) by lia. apply andb_false_r.
    + assert (Z.testbit ((x &&& (Z.ones n <<< k)) >>> k) (i - k) = false) as Hb
        by (by rewrite Hz, Z.bits_0).
      rewrite Z.shiftr_spec, Z.land_spec, Z.shiftl_spec in Hb by lia.
      by replace (i - k + k) with i in Hb by lia.
  - rewrite Z.shiftr_land. f_equal. by rewrite Z.shiftr_shiftl_l, Z.sub_diag, Z.shiftl_0_r by lia.
Qed.

(** The branch-free canonical test accepts exactly the addresses whose
    bits 48..63 copy bit 47: the lower and the upper half of the 48-bit
    sign-extended space. *)
Theorem canonical_iff v :
  uint 64 v -> is_canonical_48 v = true <-> v < 2 ^ 47 \/ 2 ^ 64 - 2 ^ 47 <= v.
Proof.
  intros Hv. unfold is_canonical_48. unfold uint in Hv.
  rewrite Z.shiftr_div_pow2 by lia. unfold wrapping_add.
  assert (0 <= v / 2 ^ 47 < 2 ^ 17) as Ht
    by (split; [apply Z.div_pos; lia|apply Z.div_lt_upper_bound; lia]).
  rewrite wrap_small by (unfold uint; lia). rewrite Z.eqb_eq.
  change 0x1fffe with (Z.ones 16 <<< 1). rewrite land_shifted_ones by lia.
  rewrite Z.shiftr_div_pow2 by lia. pose proof (Z.div_mod v (2 ^ 47)) as Hdm.
  pose proof (Z.mod_pos_bound v (2 ^ 47)). set (t := v / 2 ^ 47) in *.
  pose proof (Z.div_mod (t + 1) (2 ^ 1)). pose proof (Z.mod_pos_bound (t + 1) (2 ^ 1)).
  set (h := (t + 1) / 2 ^ 1) in *. pose proof (Z.div_mod h (2 ^ 16)).
  pose proof (Z.mod_pos_bound h (2 ^ 16)). split; intros Hc; [|]; lia.
Qed.

(** Physical addresses stay within the configured width. *)
Lemma aligned_offset_bound base off k n :
  0 <= k <= n -> 0 <= base < 2 ^ n -> base mod 2 ^ k = 0 -> 0 <= off < 2 ^ k -> base + off < 2 ^ n.
Proof.
  intros Hk Hb Hm Ho. apply Z.mod_divide in Hm; [|apply Z.pow_nonzero; lia]. destruct Hm as [q ->].
  replace n with (n - k + k) in * by lia. rewrite Z.pow_add_r in * by lia.
  assert (0 < 2 ^ k) by (apply Z.pow_pos_nonneg; lia).
  assert (q < 2 ^ (n - k)) by nia. nia.
Qed.

Section Bounds.
Context {M : Type} `{PM : PagingMemory M}.
Implicit Types (m : Mmu.t) (b : M).

Lemma spec_walk_bound m b v l :
  m.(Mmu.mode) <> Disabled -> mmu_cfg_ok m -> 32 <= m.(Mmu.max_phys_bits) -> uint 64 v ->
  spec_walk m b v = Mapped l -> l.(lf_base) + (v - page_base l.(lf_size) v) < 2 ^ m.(Mmu.max_phys_bits).
Proof.
  intros Hm Hcfg Hmpb Hv Hw. destruct (spec_walk_leaf m Hm Hcfg b v l Hw) as (_ & Hbase & _).
  destruct (paging_of_ok m Hm Hcfg) as [Hmask _ _ _ _].
  pose proof (page_base_bounds l.(lf_size) v Hv) as Hpb. rewrite bytes_shift in Hpb.
  pose proof (page_shift_bounds l.(lf_size)) as Hsh.
  pose proof (rd_range (paging_of m) b l.(lf_addr)) as Hrd.
  apply (aligned_offset_bound _ _ (page_shift l.(lf_size))); [lia| | |lia].
  - rewrite Hbase. unfold frame.
    apply uint_land_l; [lia| |by apply uint_unot]. apply uint_land_r; [lia| |apply Hrd].
    unfold paging_of. simpl. destruct (m.(Mmu.mode)); try done;
      try (rewrite phys_addr_mask_ones by done; unfold uint; rewrite Z.ones_equiv;
           assert (0 < 2 ^ m.(Mmu.max_phys_bits)) by (apply Z.pow_pos_nonneg; lia); lia).
    apply (uint_weaken 32); [lia|done].
  - rewrite Hbase, <- bytes_shift. by apply entry_frame_aligned.
Qed.

(** A physical address [translate] returns fits the configured address
    width (at least 32 bits), for every page size and with paging off. *)
Theorem translate_in_range env m b vaddr access cpl p m' b' :
  cow_force_rw_enabled env = false -> coherent m b -> uint 64 vaddr ->
  32 <= m.(Mmu.max_phys_bits) ->
  Mmu.translate env m b vaddr access cpl = (Ok p, m', b') -> 0 <= p < 2 ^ m.(Mmu.max_phys_bits).
Proof.
  intros Henv Hco Hu Hmpb Ht. apply translate_refines in Ht as (Hr & _); [|done..].
  unfold spec_translate in Hr. destruct (Mmu.linear_address m vaddr) as [v|f] eqn:Hv; [|done].
  pose proof (linear_address_uint m vaddr v Hu Hv) as Hv64. simpl in Hr. case_bool_decide as Hm.
  - simplify_eq. unfold Mmu.linear_address in Hv. rewrite Hm in Hv. simplify_eq.
    apply (uint_weaken 32); [lia|]. apply uint_land_r; [lia|done|apply Hu].
  - destruct (spec_walk m b v) as [| |l] eqn:Hw; try done. simpl in Hr.
    destruct (Mmu.check_perms _ _ _ _ _ _ _); [|done]. simpl in Hr. simplify_eq.
    pose proof (spec_walk_paddr m Hm (co_cfg _ _ Hco) b v l Hw Hv64) as [? _].
    split; [done|]. by apply (spec_walk_bound m b); [| apply Hco| | |].
Qed.
End Bounds.

(** ** Reserved bits *)
Lemma nz_land_unot e c :
  uint 64 e -> nz (e &&& unot 64 c) = true <->
  exists i, 0 <= i < 64 /\ Z.testbit e i = true /\ Z.testbit c i = false.
Proof.
  intros He. rewrite negb_true_iff, Z.eqb_neq. split.
  - intros Hnz. set (x := e &&& unot 64 c) in *.
    assert (uint 64 x) as Hx by (apply uint_land_l; [lia|done|by apply uint_unot]).
    pose proof (Z.bit_log2 x ltac:(unfold uint in Hx; lia)) as Hb.
    pose proof (Z.log2_nonneg x) as Hnn. exists (Z.log2 x).
    assert (Z.log2 x < 64) by (destruct (Z.lt_ge_cases (Z.log2 x) 64); [done|];
      by rewrite (testbit_high 64 x) in Hb by (done || lia)).
    unfold x in Hb at 1. rewrite Z.land_spec, unot_spec in Hb by lia.
    apply andb_true_iff in Hb as [-> Hb]. apply andb_true_iff in Hb as [_ Hb].
    apply negb_true_iff in Hb. split_and!; done || lia.
  - intros (i & Hi & Hei & Hci) Hz.
    assert (Z.testbit (e &&& unot 64 c) i = true) as Hb.
    { rewrite Z.land_spec, unot_spec, Hei, Hci by lia. by rewrite (proj2 (Z.ltb_lt _ _)) by lia. }
    by rewrite Hz, Z.bits_0 in Hb.
Qed.

Lemma testbit_ones n i : 0 <= n -> 0 <= i -> Z.testbit (Z.ones n) i = (i <? n).
Proof. intros. by apply Z.testbit_ones_nonneg. Qed.

Lemma testbit_shifted_ones n k i :
  0 <= n -> 0 <= k -> 0 <= i -> Z.testbit (Z.ones n <<< k) i = (k <=? i) && (i <? k + n).
Proof.
  intros Hn Hk Hi. rewrite Z.shiftl_spec by done. destruct (Z.leb_spec k i); simpl.
  - rewrite testbit_ones by lia. apply eq_iff_eq_true. rewrite !Z.ltb_lt. lia.
  - apply Z.testbit_neg_r. lia.
Qed.

(** Position [i] is reserved in an entry of kind [kind]. *)
Definition reserved_pos (m : Mmu.t) (e : Z) (kind : EntryKind64) (i : Z) : Prop :=
  let beyond := m.(Mmu.max_phys_bits) <= i < 52 in
  match kind with
  | PdptePae => (i = 1 \/ i = 2 \/ 5 <= i <= 8) \/ (12 <= i /\ beyond)
  | Pml4e | PtePae | PteLong => 13 <= i /\ beyond
  | PdpteLong => 13 <= i /\ (beyond \/ (Z.testbit e 7 = true /\ i < 30))
  | PdePae | PdeLong => 13 <= i /\ (beyond \/ (Z.testbit e 7 = true /\ i < 21))
  end.

Local Ltac bit_cases :=
  repeat match goal with
  | |- context [?x <? ?y] => destruct (Z.ltb_spec x y)
  | |- context [?x <=? ?y] => destruct (Z.leb_spec x y)
  | |- context [?x =? ?y] => destruct (Z.eqb_spec x y)
  end; simpl; split; intros; try done; try lia.

Lemma allowed_bit (mpb align i : Z) (nxe : bool) :
  1 <= mpb <= 52 -> 12 <= align <= 30 -> 0 <= i < 64 ->
  let allowed := (Z.ones mpb &&& unot 64 (2 ^ align - 1)) ||| 0x1fff ||| Mmu.IGNORED_AVL_HIGH_MASK in
  Z.testbit (if nxe then allowed ||| PTE_NX else allowed) i = false <->
  (13 <= i /\ (mpb <= i < 52 \/ i < align)) \/ (i = 63 /\ nxe = false).
Proof.
  intros Hm Ha Hi allowed.
  assert (Z.testbit allowed i =
    ((i <? mpb) && negb (i <? align)) || (i <? 13) || ((52 <=? i) && (i <? 63))) as Hal.
  { unfold allowed. rewrite !Z.lor_spec, Z.land_spec, unot_spec by lia.
    replace (2 ^ align - 1) with (Z.ones align) by (rewrite Z.ones_equiv; lia).
    change 0x1fff with (Z.ones 13). change Mmu.IGNORED_AVL_HIGH_MASK with (Z.ones 11 <<< 52).
    rewrite testbit_shifted_ones, !testbit_ones by lia. rewrite (proj2 (Z.ltb_lt i 64)) by lia. done. }
  destruct nxe.
  - rewrite Z.lor_spec, Hal. change PTE_NX with (2 ^ 63). rewrite testbit_pow2 by lia. bit_cases.
  - rewrite Hal. bit_cases.
Qed.

Lemma pdpte_flags_bit i :
  0 <= i < 64 -> Z.testbit 0xE19 i = true <-> i = 0 \/ i = 3 \/ i = 4 \/ 9 <= i <= 11.
Proof.
  intros Hi.
  assert (forallb (fun j => Bool.eqb (Z.testbit 0xE19 (Z.of_nat j))
            ((j =? 0) || (j =? 3) || (j =? 4) || ((9 <=? j) && (j <=? 11)))%nat) (seq 0 64) = true)
    as Hall by reflexivity.
  rewrite forallb_forall in Hall. specialize (Hall (Z.to_nat i)). rewrite in_seq in Hall.
  specialize (Hall ltac:(lia)). apply Bool.eqb_prop in Hall. rewrite Z2Nat.id in Hall by lia.
  rewrite Hall, !orb_true_iff, andb_true_iff, !Nat.eqb_eq, !Nat.leb_le. lia.
Qed.

Lemma pdpte_allowed_bit (mpb i : Z) (nxe : bool) :
  1 <= mpb <= 52 -> 0 <= i < 64 ->
  let allowed := 0xE19 ||| (Z.ones mpb &&& unot 64 0xfff) ||| (0x7ff <<< 52) in
  Z.testbit (if nxe then allowed ||| PTE_NX else allowed) i = false <->
  ((i = 1 \/ i = 2 \/ 5 <= i <= 8) \/ (12 <= i /\ mpb <= i < 52)) \/ (i = 63 /\ nxe = false).
Proof.
  intros Hm Hi allowed. pose proof (pdpte_flags_bit i Hi) as Hf.
  assert (Z.testbit allowed i =
    Z.testbit 0xE19 i || ((i <? mpb) && negb (i <? 12)) || ((52 <=? i) && (i <? 63))) as Hal.
  { unfold allowed. rewrite !Z.lor_spec, Z.land_spec, unot_spec by lia.
    change 0xfff with (Z.ones 12). change 0x7ff with (Z.ones 11).
    rewrite testbit_shifted_ones, !testbit_ones by lia. rewrite (proj2 (Z.ltb_lt i 64)) by lia. done. }
  destruct nxe.
  - rewrite Z.lor_spec, Hal. change PTE_NX with (2 ^ 63). rewrite testbit_pow2 by lia.
    destruct (Z.testbit 0xE19 i); bit_cases; intuition lia.
  - rewrite Hal. destruct (Z.testbit 0xE19 i); bit_cases; intuition lia.
Qed.

(** The last test of the check. *)
Lemma reserved_rest m e kind :
  mmu_cfg_ok m -> uint 64 e -> (Z.testbit e 63 = true -> Mmu.nx_enabled m = true) ->
  let nxe := Mmu.nx_enabled m in
  (if bool_decide (kind = PdptePae) then
     let allowed := PTE_P ||| (1 <<< 3) ||| (1 <<< 4) ||| (0x7 <<< 9) ||| (Z.ones m.(Mmu.max_phys_bits) &&& unot 64 0xfff) ||| (0x7ff <<< 52) in
     nz (e &&& unot 64 (if nxe then allowed ||| PTE_NX else allowed))
   else
     let page_align := match kind with
       | Pml4e => 0x1000 | PdptePae => 0x1000
       | PdpteLong => if Z.testbit e 7 then bytes Size1G else 0x1000
       | PdePae | PdeLong => if Z.testbit e 7 then bytes Size2M else 0x1000
       | PtePae | PteLong => 0x1000 end in
     let allowed := (Z.ones m.(Mmu.max_phys_bits) &&& unot 64 (page_align - 1)) ||| 0x1fff in
     let allowed := if negb (bool_decide (kind = PdptePae))
                    then allowed ||| Mmu.IGNORED_AVL_HIGH_MASK else allowed in
     nz (e &&& unot 64 (if nxe then allowed ||| PTE_NX else allowed))) = true <->
  exists i, reserved_pos m e kind i /\ Z.testbit e i = true.
Proof.
  intros [Hmpb _] He Hnx. cbv zeta. set (nxe := Mmu.nx_enabled m) in *.
  assert (forall c (P : Z -> Prop), (forall i, P i -> 0 <= i < 64) ->
    (forall i, 0 <= i < 64 -> Z.testbit c i = false <-> P i \/ (i = 63 /\ nxe = false)) ->
    nz (e &&& unot 64 c) = true <-> exists i, P i /\ Z.testbit e i = true) as Hgen.
  { intros c P HP Hc. rewrite nz_land_unot by done. split.
    - intros (i & Hi & Hei & Hci). apply (Hc i Hi) in Hci as [HPi|[-> Hn]]; [by exists i|].
      rewrite (Hnx Hei) in Hn. done.
    - intros (i & HPi & Hei). exists i. specialize (HP i HPi).
      split; [done|]. split; [done|]. apply Hc; [done|by left]. }
  case_bool_decide as Hk.
  { subst kind. apply Hgen; [unfold reserved_pos; intros i; lia|].
    intros i Hi. by apply pdpte_allowed_bit. }
  cbn [negb].
  assert (exists a, 12 <= a <= 30 /\
    match kind with
    | Pml4e => 0x1000 | PdptePae => 0x1000
    | PdpteLong => if Z.testbit e 7 then bytes Size1G else 0x1000
    | PdePae | PdeLong => if Z.testbit e 7 then bytes Size2M else 0x1000
    | PtePae | PteLong => 0x1000 end = 2 ^ a /\
    forall i, reserved_pos m e kind i <-> (13 <= i /\ (m.(Mmu.max_phys_bits) <= i < 52 \/ i < a)))
    as (a & Ha & -> & Hpos).
  { unfold reserved_pos. destruct kind; try done; try destruct (Z.testbit e 7);
      first [exists 30; split; [lia|split; [done|intros i; intuition lia]]
            |exists 21; split; [lia|split; [done|intros i; intuition lia]]
            |exists 12; split; [lia|split; [done|intros i; intuition (lia || congruence)]]]. }
  apply Hgen; [intros i; rewrite Hpos; lia|].
  intros i Hi. rewrite Hpos. by apply allowed_bit.
Qed.

(** The reserved-bit check flags exactly the architectural positions: NX
    without EFER.NXE, PS in PML4 and PAE directory-pointer entries, address
    bits beyond the physical width, the unused low address bits of large-page
    entries, and (for PAE directory-pointer entries) bits 1, 2 and 5..8; the
    software-available bits 52..62 never fault. *)
Theorem reserved_bits_exact m e kind :
  mmu_cfg_ok m -> uint 64 e ->
  Mmu.has_reserved_bits64 m e kind = true <->
  Z.testbit e 0 = true /\
  ((Z.testbit e 63 = true /\ Mmu.nx_enabled m = false) \/
   (Z.testbit e 7 = true /\ (kind = Pml4e \/ kind = PdptePae)) \/
   exists i, reserved_pos m e kind i /\ Z.testbit e i = true).
Proof.
  intros Hcfg He. pose proof (proj1 Hcfg) as Hmpb. unfold Mmu.has_reserved_bits64.
  rewrite phys_addr_mask_ones by done. test_bits. set (nxe := Mmu.nx_enabled m).
  destruct (Z.testbit e 0); simpl; [|naive_solver].
  destruct (negb nxe && Z.testbit e 63) eqn:Hnx.
  { apply andb_true_iff in Hnx as [Hn ->]. apply negb_true_iff in Hn. naive_solver. }
  assert (Z.testbit e 63 = true -> nxe = true) as Hnx'
    by (intros E; rewrite E in Hnx; by destruct nxe).
  set (ps_bad := match kind with Pml4e | PdptePae => Z.testbit e 7 | _ => false end).
  assert (ps_bad = true <-> Z.testbit e 7 = true /\ (kind = Pml4e \/ kind = PdptePae)) as Hps.
  { unfold ps_bad. split; [|by intros [-> [-> | ->]]].
    destruct kind; try done; intros ->; (split; [done|]); [by left|by right]. }
  rewrite <- Hps. clear Hps.
  assert (~ (Z.testbit e 63 = true /\ nxe = false)) as Hno by (intros [H1 H2]; rewrite (Hnx' H1) in H2; done).
  destruct ps_bad; [by split; auto|].
  transitivity (exists i, reserved_pos m e kind i /\ Z.testbit e i = true);
    [|split; [by auto|by intros [_ [?|[?|?]]]]].
  apply reserved_rest; done.
Qed.

(** ** Witnesses

    A long-mode MMU over an 8 KiB RAM: the PML4 at 0 maps its first entry to a
    directory-pointer table at 0x1000, whose first entry is a 1 GiB page at
    0x4000_0000. *)
Section Witnesses.
#[local] Existing Instance x86_64.

Definition demo_ram : DenseMemory.t := DenseMemory.mk (replicate 0x2000 0).
Abbreviation demo_mem := (paging_bus (M := DenseMemory.t) [] 0x2000).

Lemma demo_ram_ok : mapped_as (M := DenseMemory.t) [] 0x2000 (PhysicalMemoryBus.new demo_ram).
Proof.
  split_and!; [|done|by vm_compute]. apply new_ok. split; [by vm_compute|]. by apply Forall_replicate.
Qed.

Definition empty_bus : demo_mem := exist _ (PhysicalMemoryBus.new demo_ram) demo_ram_ok.
Definition demo_bus : demo_mem :=
  write_u64 (write_u64 empty_bus 0 0x1007) 0x1000 0x40000087.

Definition demo_mmu : Mmu.t :=
  Mmu.set_cr0
    (Mmu.set_efer (Mmu.set_cr4 (Mmu.set_cr3 Mmu.new 0) (CR4_PAE ||| CR4_PSE)) (EFER_LME ||| EFER_NXE))
    CR0_PG.

Lemma demo_mmu_ok : mmu_ok demo_mmu.
Proof.
  eapply (mmu_step_ok (M := demo_mem)); [apply step_cr0|].
  eapply (mmu_step_ok (M := demo_mem)); [apply step_efer|].
  eapply (mmu_step_ok (M := demo_mem)); [apply step_cr4|].
  eapply (mmu_step_ok (M := demo_mem)); [by apply step_cr3|]. apply new_mmu_ok.
Qed.

Lemma demo_flushed : exists t, demo_mmu.(Mmu.tlb) = Tlb.flush_all t.
Proof. eexists. apply set_cr0_flushes. vm_compute. reflexivity. Qed.

Lemma demo_empty e : ~ visible demo_mmu e.
Proof.
  destruct demo_flushed as [t Ht]. intros [Hc _]. rewrite Ht in Hc.
  destruct Hc as [Hc|Hc]; exact (flush_all_contains _ _ Hc).
Qed.

Lemma demo_coherent {M} `{PagingMemory M} (b : M) : coherent demo_mmu b.
Proof.
  apply flushed_coherent; [exact (mo_cfg _ demo_mmu_ok)|exact (mo_tlb _ demo_mmu_ok)|..|exact demo_empty].
  intros _ v _. apply Forall_true. intros a [Hm _]. by vm_compute in Hm.
Qed.

Lemma translate_is_architectural_witness :
  let '(r, m', b') := Mmu.translate None demo_mmu demo_bus 0x12345678 Read 3 in
  r = Ok 0x52345678 /\ coherent m' b'.
Proof.
  destruct (Mmu.translate None demo_mmu demo_bus 0x12345678 Read 3) as [[r m'] b'] eqn:E.
  destruct (translate_is_architectural None demo_mmu demo_bus 0x12345678 Read 3 r m' b')
    as (-> & Hc & _); [reflexivity|apply demo_coherent|split; lia|exact E|].
  split; [vm_compute; reflexivity|exact Hc].
Defined.

Definition demo_ops : list (Z * AccessType * Z) :=
  [(0x12345678, Read, 3); (0x1234567F, Write, 3); (0x200000, Execute, 0); (0x8000000000, Read, 0)].

Lemma translate_sequence_witness :
  let '(rs, m', b') := translate_all None demo_mmu demo_bus demo_ops in
  rs = [Ok 0x52345678; Ok 0x5234567F; Ok 0x40200000;
        Err (PageFaultAt (PageFault.new 0x8000000000 0))] /\ coherent m' b'.
Proof.
  destruct (translate_all None demo_mmu demo_bus demo_ops) as [[rs m'] b'] eqn:E.
  destruct (translate_sequence None demo_ops demo_mmu demo_bus rs m' b') as (-> & Hc);
    [reflexivity|apply demo_coherent|by repeat constructor|exact E|].
  split; [vm_compute; reflexivity|exact Hc].
Defined.

Lemma probe_is_architectural_witness :
  Mmu.translate_probe demo_mmu demo_bus 0x12345678 Write 3 = Ok 0x52345678.
Proof.
  rewrite (probe_is_architectural demo_mmu demo_bus 0x12345678 Write 3);
    [vm_compute; reflexivity|apply demo_coherent|split; lia].
Defined.

(** Tables with two 2M pages and a 1G page: the PML4 at 0, a directory-pointer
    table at 0x1000, a directory at 0x2000.  Accesses to the three pages fill
    the TLB; then the guest moves the first 2M page. *)
Definition edit_ram : SparseMemory.t := SparseMemory.mk 0x3000 64 (replicate 192 None).
Abbreviation edit_mem := (paging_bus (M := SparseMemory.t) [] 0x3000).

Lemma edit_ram_ok : mapped_as (M := SparseMemory.t) [] 0x3000 (PhysicalMemoryBus.new edit_ram).
Proof.
  split_and!; [|done|by vm_compute]. apply new_ok.
  apply (sparse_new_ok 0x3000 64); [split; lia|by vm_compute|reflexivity].
Qed.

Definition tables : edit_mem :=
  fold_left (fun b w => write_u64 b w.1 w.2)
    [(0, 0x1007); (0x1000, 0x2007); (0x1008, 0xC0000087); (0x2000, 0x40000087); (0x2008, 0x40200087)]
    (exist _ (PhysicalMemoryBus.new edit_ram) edit_ram_ok).
Definition warm : list (result Z TranslateFault) * Mmu.t * edit_mem :=
  translate_all None demo_mmu tables [(0x12345, Write, 3); (0x200010, Read, 3); (0x40000010, Read, 3)].
Definition edited : edit_mem := write_u64 warm.2 0x2000 0x80000087.

Lemma run_coherent ops (b : edit_mem) :
  Forall (fun op => uint 64 op.1.1) ops ->
  let '(_, m', b') := translate_all None demo_mmu b ops in
  coherent m' b' /\ linear_entries m' /\ same_config demo_mmu m'.
Proof.
  intros Hops. destruct (translate_all None demo_mmu b ops) as [[rs m1] b1] eqn:E.
  pose proof (demo_coherent b) as Hco.
  destruct (translate_all_spec (M := edit_mem) None ops demo_mmu b rs m1 b1) as (_ & Hc & Hs & _); [done..|].
  split; [done|]. split; [|done].
  eapply (translate_all_linear (M := edit_mem)); [..|exact E]; [reflexivity|exact Hco| |exact Hops].
  intros e He. destruct (demo_empty e He).
Qed.

Lemma warm_run : coherent warm.1.2 warm.2 /\ linear_entries warm.1.2 /\ same_config demo_mmu warm.1.2.
Proof.
  unfold warm. pose proof (run_coherent [(0x12345, Write, 3); (0x200010, Read, 3); (0x40000010, Read, 3)] tables) as H.
  destruct (translate_all _ _ _ _) as [[rs m'] b']. apply H. by repeat constructor.
Qed.

(** The tables, but for the entry of the first 2M page. *)
Definition upto (b : edit_mem) base (n : nat) : Prop :=
  forall i, Z.of_nat n <= i < 512 -> read_u64 b (base + i * 8) = 0.
Record laid_out (b : edit_mem) : Prop := {
  lo_pml4 : read_u64 b 0 = 0x1027;
  lo_pml4_rest : upto b 0 1;
  lo_pdpt : read_u64 b 0x1000 = 0x2027;
  lo_pdpt_1g : read_u64 b 0x1008 = 0xC00000A7;
  lo_pdpt_rest : upto b 0x1000 2;
  lo_pd_2m : read_u64 b 0x2008 = 0x402000A7;
  lo_pd_rest : upto b 0x2000 2;
}.

Lemma upto_read (b : edit_mem) base n :
  forallb (fun i => read_u64 b (base + Z.of_nat i * 8) =? 0) (seq n (512 - n)) = true -> upto b base n.
Proof.
  intros Hall i Hi. rewrite forallb_forall in Hall. specialize (Hall (Z.to_nat i)). rewrite in_seq in Hall.
  rewrite Z2Nat.id in Hall by lia. apply Z.eqb_eq, Hall. lia.
Qed.

Lemma warm_laid_out : laid_out warm.2.
Proof. split; match goal with |- upto _ _ _ => apply upto_read | _ => idtac end; vm_compute; reflexivity. Qed.

Lemma edit_laid_out b e : laid_out b -> uint 64 e -> laid_out (write_u64 b 0x2000 e).
Proof.
  intros [] He.
  assert (forall a, uint 64 a -> a mod 8 = 0 -> a <> 0x2000 ->
    read_u64 (write_u64 b 0x2000 e) a = read_u64 b a) as Hw.
  { intros a Ha Hm Hne. apply (write_u64_other (M := edit_mem)); done || lia. }
  split; unfold upto in *; intros; rewrite Hw; auto; try (unfold uint; lia);
    rewrite Z.add_mod, Z.mod_mul by lia; reflexivity.
Qed.

(** The index of [v] at the level of shift [k]. *)
Definition index (k v : Z) : Z := (v >>> k) &&& Z.ones 9.

Lemma index_range k v : 0 <= index k v < 512.
Proof. unfold index. rewrite land_ones_mod by lia. by apply Z.mod_pos_bound. Qed.

(** Only the addresses of the first 2M page go through the three first entries. *)
Lemma index_zero v :
  uint 64 v -> is_canonical_48 v = true ->
  index 39 v = 0 -> index 30 v = 0 -> index 21 v = 0 -> page_base Size2M v = 0.
Proof.
  intros Hu Hc. apply canonical_iff in Hc; [|done].
  unfold index. rewrite !land_ones_mod, !Z.shiftr_div_pow2 by lia. intros H1 H2 H3.
  rewrite page_base_eq by done. change (bytes Size2M) with (2 ^ 21). unfold uint in Hu.
  assert (v < 2 ^ 39) by (Z.to_euclidean_division_equations; lia).
  assert (v < 2 ^ 30) by (Z.to_euclidean_division_equations; lia).
  assert (v < 2 ^ 21) by (Z.to_euclidean_division_equations; lia).
  rewrite Z.mod_small; lia.
Qed.

(** One level of the walk, given the entry it reads. *)
Lemma radix_level (b : edit_mem) base r k kind leaf rest v e :
  read_u64 b (base + index k v * 8) = e ->
  radix (paging_of demo_mmu) b base r (level64 demo_mmu k 9 kind leaf :: rest) v =
  (if negb (Z.testbit e 0) then NotPresent
   else if Mmu.has_reserved_bits64 demo_mmu e kind then Reserved
   else let r := add_rights (paging_of demo_mmu) (level64 demo_mmu k 9 kind leaf) r e in
     match leaf e with
     | Some ps => Mapped (mk_leaf (paging_of demo_mmu) ps r (base + index k v * 8) e)
     | None => radix (paging_of demo_mmu) b (frame (paging_of demo_mmu) Size4K e) r rest v
     end).
Proof. by intros <-. Qed.

Lemma radix_absent (b : edit_mem) base r k kind leaf rest v :
  read_u64 b (base + index k v * 8) = 0 ->
  radix (paging_of demo_mmu) b base r (level64 demo_mmu k 9 kind leaf :: rest) v = NotPresent.
Proof. intros He. by rewrite (radix_level b base r k kind leaf rest v 0 He). Qed.

Lemma radix_table (b : edit_mem) base r k kind leaf rest v e base' r' :
  read_u64 b (base + index k v * 8) = e ->
  (Z.testbit e 0, Mmu.has_reserved_bits64 demo_mmu e kind, leaf e, frame (paging_of demo_mmu) Size4K e,
    add_rights (paging_of demo_mmu) (level64 demo_mmu k 9 kind leaf) r e) = (true, false, None, base', r') ->
  radix (paging_of demo_mmu) b base r (level64 demo_mmu k 9 kind leaf :: rest) v =
  radix (paging_of demo_mmu) b base' r' rest v.
Proof. intros He [= HP Hrs Hl <- <-]. rewrite (radix_level _ _ _ _ _ _ _ _ _ He). by rewrite HP, Hrs, Hl. Qed.

Lemma radix_page (b : edit_mem) base r k kind leaf rest v e ps l :
  read_u64 b (base + index k v * 8) = e ->
  (Z.testbit e 0, Mmu.has_reserved_bits64 demo_mmu e kind, leaf e) = (true, false, Some ps) ->
  mk_leaf (paging_of demo_mmu) ps (add_rights (paging_of demo_mmu) (level64 demo_mmu k 9 kind leaf) r e)
    (base + index k v * 8) e = l ->
  radix (paging_of demo_mmu) b base r (level64 demo_mmu k 9 kind leaf :: rest) v = Mapped l.
Proof. intros He [= HP Hrs Hl] <-. rewrite (radix_level _ _ _ _ _ _ _ _ _ He). by rewrite HP, Hrs, Hl. Qed.

(** The walk over tables of this layout: the other pages are a 1G page and a
    2M page. *)
Definition other_walk (v : Z) : outcome :=
  if index 39 v =? 0 then
    if index 30 v =? 0 then
      if index 21 v =? 1 then Mapped (Leaf 0x40200000 Size2M true true false 0x2008 false) else NotPresent
    else if index 30 v =? 1 then Mapped (Leaf 0xC0000000 Size1G true true false 0x1008 false) else NotPresent
  else NotPresent.

Lemma laid_out_walk b v :
  laid_out b -> ~ (index 39 v = 0 /\ index 30 v = 0 /\ index 21 v = 0) ->
  spec_walk demo_mmu b v = other_walk v.
Proof.
  intros [] Hne. unfold spec_walk, other_walk, upto in *.
  assert (pg_root (paging_of demo_mmu) = 0) as -> by by vm_compute.
  assert (pg_levels (paging_of demo_mmu) =
    [level64 demo_mmu 39 9 Pml4e (fun _ => None); level64 demo_mmu 30 9 PdpteLong (ps_leaf Size1G);
     level64 demo_mmu 21 9 PdeLong (ps_leaf Size2M); level64 demo_mmu 12 9 PteLong (fun _ => Some Size4K)])
    as -> by reflexivity.
  pose proof (index_range 39 v). pose proof (index_range 30 v). pose proof (index_range 21 v).
  destruct (Z.eqb_spec (index 39 v) 0) as [H39|H39]; [|apply radix_absent; auto with lia].
  rewrite (radix_table _ _ _ _ _ _ _ _ 0x1027 0x1000 full_rights); [|by rewrite H39|by vm_compute].
  destruct (Z.eqb_spec (index 30 v) 0) as [H30|H30].
  - rewrite (radix_table _ _ _ _ _ _ _ _ 0x2027 0x2000 full_rights); [|by rewrite H30|by vm_compute].
    destruct (Z.eqb_spec (index 21 v) 1) as [H21|H21]; [|apply radix_absent, lo_pd_rest0; lia].
    eapply (radix_page _ _ _ _ _ _ _ _ 0x402000A7); [by rewrite H21|by vm_compute|by rewrite H21; vm_compute].
  - destruct (Z.eqb_spec (index 30 v) 1) as [H30'|H30']; [|apply radix_absent, lo_pdpt_rest0; lia].
    eapply (radix_page _ _ _ _ _ _ _ _ 0xC00000A7); [by rewrite H30'|by vm_compute|by rewrite H30'; vm_compute].
Qed.

Lemma other_walk_addr v l : other_walk v = Mapped l -> l.(lf_addr) = 0x1008 \/ l.(lf_addr) = 0x2008.
Proof. unfold other_walk. repeat case_match; intros [= <-]; auto. Qed.

(** The edit of the directory's first entry changes no other page. *)
Lemma edits_first_page m (b : edit_mem) e :
  same_config demo_mmu m -> laid_out b -> uint 64 e -> mapped_size m b 0x12345 = Size2M ->
  edits_page m b (write_u64 b 0x2000 e) 0x12345.
Proof.
  intros Hc Hb He Hsz. unfold edits_page. rewrite Hsz. intros v l Hu Hlin Hne.
  rewrite !(spec_walk_config _ _ _ _ Hc), (paging_of_config _ _ Hc).
  assert (~ (index 39 v = 0 /\ index 30 v = 0 /\ index 21 v = 0)) as Hix.
  { intros (? & ? & ?). apply Hne. unfold linear, Mmu.linear_address in Hlin.
    assert (Mmu.mode m = Long4) as Hmode by (transitivity (Mmu.mode demo_mmu); [apply Hc|done]).
    rewrite Hmode in Hlin. destruct (is_canonical_48 v) eqn:Hcan; [|done].
    rewrite index_zero by done. reflexivity. }
  pose proof (edit_laid_out b e Hb He) as Hb'. rewrite !laid_out_walk by done. intros Hw. split; [done|].
  unfold rd. assert (pg_wide (paging_of demo_mmu) = true) as -> by by vm_compute.
  by destruct (other_walk_addr v l Hw) as [-> | ->]; rewrite ?(lo_pdpt_1g _ Hb), ?(lo_pdpt_1g _ Hb'),
    ?(lo_pd_2m _ Hb), ?(lo_pd_2m _ Hb').
Qed.

Lemma warm_edited : edits_page warm.1.2 warm.2 edited 0x12345.
Proof.
  unfold edited. apply edits_first_page; [|exact warm_laid_out|split; lia|vm_compute; reflexivity].
  apply warm_run.
Qed.

(** After three accesses the guest moves the first 2M page, which the TLB
    caches: accesses go on to the old frame, and after INVLPG to the new one. *)
Lemma invlpg_restores_witness :
  (Mmu.translate None warm.1.2 edited 0x12345 Read 3).1.1 = Ok 0x40012345 /\
  (Mmu.translate None (Mmu.invlpg warm.1.2 0x12345) edited 0x12345 Read 3).1.1 = Ok 0x80012345 /\
  coherent (Mmu.invlpg warm.1.2 0x12345) edited.
Proof.
  split; [vm_compute; reflexivity|]. split; [vm_compute; reflexivity|].
  destruct warm_run as (Hco & Hlin & _).
  destruct (invlpg_restores warm.1.2 warm.2 edited 0x12345 Hco Hlin) as [Hc _]; [split; lia|exact warm_edited| |exact Hc].
  intros _ v _. apply Forall_true. intros a [Hm _]. by vm_compute in Hm.
Defined.

Lemma walks_are_radix_witness :
  Mmu.walk_probe demo_mmu demo_bus 0x12345678 Read true = Ok 0x52345678.
Proof.
  destruct (walks_are_radix None demo_mmu demo_bus 0x12345678 Read true) as [H _];
    [reflexivity|vm_compute; discriminate|]. rewrite H. vm_compute. reflexivity.
Defined.

Lemma demo_leaf_sticky : sticky (M := demo_mem) (paging_of demo_mmu) 0x1000.
Proof.
  intros b v. unfold rd, wr, entry_bits.
  assert (pg_wide (paging_of demo_mmu) = true) as -> by (vm_compute; reflexivity).
  intros Hv. by apply (pb_write_read [] 0x2000 8).
Qed.

Lemma write_sets_dirty_witness :
  let '(r, m', b') := Mmu.translate None demo_mmu demo_bus 0x12345678 Write 3 in
  Z.testbit (rd (paging_of demo_mmu) b' 0x1000) 6 = true.
Proof.
  destruct (Mmu.translate None demo_mmu demo_bus 0x12345678 Write 3) as [[r m'] b'] eqn:E.
  assert (r = Ok 0x52345678) as ->.
  { change r with (r, m', b').1.1. rewrite <- E. vm_compute. reflexivity. }
  destruct (write_sets_dirty None demo_mmu demo_bus 0x12345678 3 0x52345678 m' b' 0x12345678)
    as (l & Hl & Hd);
    [reflexivity|apply demo_coherent|split; lia|vm_compute; discriminate|vm_compute; reflexivity
    |exact E|].
  assert (lf_addr l = 0x1000) as Ha.
  { assert (spec_walk demo_mmu demo_bus 0x12345678 =
      Mapped (Leaf 0x40000000 Size1G true true false 0x1000 false)) as Hs by (vm_compute; reflexivity).
    rewrite Hs in Hl. injection Hl as <-. reflexivity. }
  rewrite Ha in Hd. exact (Hd demo_leaf_sticky).
Defined.

Lemma mmu_invariant_witness : mmu_ok (Mmu.set_cr0 Mmu.new CR0_PG).
Proof.
  apply (mmu_invariant (M := demo_mem)).
  eapply rtc_l; [apply (step_cr0 (M := demo_mem))|apply rtc_refl].
Defined.

Lemma translate_cr2_witness :
  (Mmu.translate None demo_mmu demo_bus 0x8000000000 Read 0).1.2.(Mmu.cr2) = 0x8000000000.
Proof.
  destruct (Mmu.translate None demo_mmu demo_bus 0x8000000000 Read 0) as [[r m'] b'] eqn:E.
  destruct (translate_cr2 None demo_mmu demo_bus 0x8000000000 Read 0 r m' b') as [Hc _];
    [reflexivity|apply demo_coherent|split; lia|exact E|].
  simpl. rewrite Hc. change r with (r, m', b').1.1. rewrite <- E. vm_compute. reflexivity.
Defined.

Lemma lookup_counters_transparent_witness :
  TlbSet.lookup TlbSet.new 0x1000 0 false Size1G2MAnd4K = None.
Proof.
  rewrite (lookup_counters_transparent TlbSet.new false 0x1000 0 Size1G2MAnd4K);
    [vm_compute; reflexivity|apply new_wf|split; lia].
Defined.

(** A global 4K translation. *)
Definition demo_entry : TlbEntry.t :=
  TlbEntry.new 0x1000 0x5000 Size4K 3 (TlbEntryAttributes.mk true true false true 0 true false).

Lemma demo_entry_ok : TlbEntry.valid demo_entry = true /\ entry_ok demo_entry.
Proof. split; [done|]. split; [by split|reflexivity]. Qed.

Lemma insert_then_hit_witness :
  exists h, TlbSet.lookup (TlbSet.insert TlbSet.new demo_entry) 0x1234 7 true Size2MAnd4K = Some h /\
    serves true 0x1234 7 h.(TlbHit.entry).
Proof.
  apply (insert_then_hit TlbSet.new demo_entry true 0x1234 7 Size2MAnd4K);
    [apply new_wf|apply demo_entry_ok|apply demo_entry_ok|split; lia|split; reflexivity|].
  right. left.
Defined.

(** An MMU with CR4.PGE and CR4.PCIDE that holds that translation. *)
Definition demo_pcid_mmu : Mmu.t :=
  Mmu.with_tlb (Mmu.set_cr4 Mmu.new (CR4_PGE ||| CR4_PCIDE)) (Tlb.insert Tlb.new false demo_entry).

Lemma demo_pcid_wf : tlb_wf demo_pcid_mmu.(Mmu.tlb).
Proof.
  change demo_pcid_mmu.(Mmu.tlb) with (Tlb.insert Tlb.new false demo_entry).
  apply tlb_insert_wf; [split; apply new_wf|apply demo_entry_ok|apply demo_entry_ok].
Qed.

Lemma demo_entry_visible :
  tlb_contains (Mmu.set_cr3 demo_pcid_mmu 0x5005).(Mmu.tlb) demo_entry.
Proof.
  right. split; [done|]. exists 1%nat. eexists _, 0%nat. split; [vm_compute; reflexivity|reflexivity].
Qed.

Lemma cr3_load_flushes_witness : TlbEntry.global demo_entry = true.
Proof.
  apply (cr3_load_flushes demo_pcid_mmu 0x5005 demo_entry);
    [apply demo_pcid_wf|vm_compute; reflexivity|].
  split; [apply demo_entry_visible|vm_compute; reflexivity].
Defined.

Lemma pcid_isolation_witness :
  exists h, Tlb.lookup demo_pcid_mmu.(Mmu.tlb) 0x1234 false (Mmu.current_pcid demo_pcid_mmu) true
              demo_pcid_mmu.(Mmu.tlb_page_sizes) = Some h /\
    (TlbEntry.global h.(TlbHit.entry) = true \/
     h.(TlbHit.entry).(TlbEntry.pcid) = demo_pcid_mmu.(Mmu.pcid)).
Proof.
  eexists. split; [vm_compute; reflexivity|].
  apply (pcid_isolation demo_pcid_mmu 0x1234 false);
    [apply demo_pcid_wf|split; lia|vm_compute; reflexivity|vm_compute; reflexivity].
Defined.

Lemma demo_pcid_ok : mmu_ok demo_pcid_mmu.
Proof.
  split; [apply demo_pcid_wf|split; [vm_compute; split; discriminate|split; vm_compute; done]|].
  unfold cached_ok. vm_compute. reflexivity.
Qed.

Lemma large_pages_miss_without_pse_witness :
  exists h, Tlb.lookup demo_pcid_mmu.(Mmu.tlb) 0x1234 false (Mmu.current_pcid demo_pcid_mmu)
              demo_pcid_mmu.(Mmu.pcid_enabled) demo_pcid_mmu.(Mmu.tlb_page_sizes) = Some h /\
    h.(TlbHit.entry).(TlbEntry.page_size) = Size4K.
Proof.
  eexists. split; [vm_compute; reflexivity|].
  apply (large_pages_miss_without_pse demo_pcid_mmu 0x1234 false);
    [apply demo_pcid_ok|split; lia|vm_compute; reflexivity|vm_compute; reflexivity].
Defined.

Lemma canonical_iff_witness : is_canonical_48 0xFFFF800000000000 = true.
Proof. apply (canonical_iff 0xFFFF800000000000); [split; lia|right; lia]. Defined.

Lemma translate_in_range_witness :
  exists p, (Mmu.translate None demo_mmu demo_bus 0x3FFFFFFF Execute 0).1.1 = Ok p /\ 0 <= p < 2 ^ 52.
Proof.
  destruct (Mmu.translate None demo_mmu demo_bus 0x3FFFFFFF Execute 0) as [[r m'] b'] eqn:E.
  assert (r = Ok 0x7FFFFFFF) as ->.
  { change r with (r, m', b').1.1. rewrite <- E. vm_compute. reflexivity. }
  exists 0x7FFFFFFF. split; [reflexivity|].
  apply (translate_in_range None demo_mmu demo_bus 0x3FFFFFFF Execute 0 0x7FFFFFFF m' b');
    [reflexivity|apply demo_coherent|split; lia|vm_compute; discriminate|exact E].
Defined.

Lemma reserved_bits_exact_witness : Mmu.has_reserved_bits64 demo_mmu 0x2087 PdeLong = true.
Proof.
  apply (reserved_bits_exact demo_mmu 0x2087 PdeLong);
    [exact (mo_cfg _ demo_mmu_ok)|split; lia|].
  split; [reflexivity|]. right. right. exists 13. split; [|reflexivity].
  split; [lia|]. right. split; [reflexivity|lia].
Defined.
End Witnesses.
