(* ===== verification/MemProps.v ===== *)
(** * Properties of guest memory and of the physical bus

    The theorems clients of crates/memory rely on, with concrete instances. *)

From S2P Require Import Prelude Bytes GuestMem PhysBus PhysBusFacts.
Import PhysicalMemoryBus.

Section Properties.
Context `{Target}.

(** C30: The chunked, lazily allocated [SparseMemory] is indistinguishable from
    the flat [DenseMemory] of the same size: any sequence of reads and writes
    gives the same results, range errors included, for every chunk size. *)
Theorem sparse_matches_dense sz cs s d ops :
  uint 64 sz -> Z.of_nat cs <= usize_max ->
  SparseMemory.with_chunk_size sz cs = Ok s -> DenseMemory.new sz = Ok d ->
  Forall mem_op_ok ops -> run_mem s ops = run_mem d ops.
Proof.
  intros Hsz Hcs Hs Hd Hops. apply same_bytes_run; [|done].
  destruct (sparse_new_ok _ _ _ Hsz Hcs Hs) as (Hok1 & Hs1 & Hb1).
  destruct (dense_new_ok _ _ Hsz Hd) as (Hok2 & Hs2 & Hb2).
  split_and!; [done|done|congruence|done|]. intros a _. congruence.
Qed.

(** An integer written with [write_uN_le] to backed bytes of any guest memory
    that meets the contract is read back by [read_uN_le]. *)
Theorem write_read_roundtrip `{GuestMemorySpec M} (m : M) n p v :
  gm_ok m -> uint 64 p -> p + Z.of_nat n <= size m -> uint (8 * Z.of_nat n) v ->
  (forall a, p <= a < p + Z.of_nat n -> gm_backed m a = true) ->
  exists m', write_le n m p v = (Ok tt, m') /\ gm_ok m' /\ read_le n m' p = Ok v.
Proof. apply write_read_le. Qed.

Section Bus.
Context {M H0 : Type} `{GMS : GuestMemorySpec M} `{MH : MmioHandler H0}.
Implicit Types b : t M H0.

(** A read that touches no MMIO region returns, byte by byte, ROM where a
    ROM region covers the address, RAM below the RAM size, and 0xFF elsewhere
    (wrap past the end of the address space included); it changes nothing.
    The chunked loop, the RAM fast path and the typed reads agree on it. *)
Theorem bus_reads_bytes b p n :
  bus_ok b -> uint 64 p -> outside_mmio b p n ->
  read_physical b p n = (span (bus_byte b) p n, b) /\
  read_uN n b p = (from_le_bytes (span (bus_byte b) p n), b).
Proof. intros Hb Hp Ho. split; [by apply read_physical_spec|by apply read_uN_spec]. Qed.

(** A write that touches no MMIO region changes exactly the RAM bytes of
    the range that no ROM region covers: ROM, the RAM under it, open bus and
    the memory map stay as they were. *)
Theorem bus_writes_bytes b p src a :
  bus_ok b -> uint 64 p -> Forall byte_ok src -> outside_mmio b p (length src) -> 0 <= a ->
  let b' := write_physical b p src in
  bus_ok b' /\ b'.(rom_regions) = b.(rom_regions) /\ b'.(mmio_regions) = b.(mmio_regions) /\
  bus_byte b' a = (if lands b a then splice (gm_byte b.(ram)) p src a else bus_byte b a) /\
  (a < b.(ram_size) -> lands b a = false -> gm_byte b'.(ram) a = gm_byte b.(ram) a).
Proof.
  intros Hb Hp Hsrc Ho Ha b'. pose proof (write_physical_spec b p src Hb Hp Hsrc Ho) as Hw.
  pose proof Hw as [? ? ? ? _ _ _ Hby]. split_and!; try done; [by apply written_bus_byte|].
  intros Hlt Hl. unfold b'. rewrite Hby by lia. unfold lands in Hl.
  rewrite (proj2 (Z.ltb_lt _ _)), andb_true_r in Hl by done. by rewrite Hl.
Qed.

(** [map_mmio] and [map_rom] keep the region lists sorted and disjoint, so
    that the binary searches of the bus are sound; they fail exactly when the
    end address overflows or the new region clashes with a mapped one. *)
Theorem mapping_sound b start len h data :
  bus_ok b -> 0 <= start -> 0 <= len -> Forall byte_ok data ->
  match map_mmio b start len h with
  | Ok b' => bus_ok b' /\ start + len < 2 ^ 64 /\
      (forall r, r ∈ b'.(mmio_regions) <->
         r = MmioRegion.mk _ start (start + len) h \/ r ∈ b.(mmio_regions))
  | Err AddressOverflow => 2 ^ 64 <= start + len
  | Err Overlap => exists r, r ∈ b.(mmio_regions) /\
      clash MmioRegion.start MmioRegion.end_ r (MmioRegion.mk _ start (start + len) h)
  end /\
  match map_rom b start data with
  | Ok b' => bus_ok b' /\ start + Z.of_nat (length data) < 2 ^ 64 /\
      (forall r, r ∈ b'.(rom_regions) <-> r = RomRegion.mk start data \/ r ∈ b.(rom_regions))
  | Err AddressOverflow => 2 ^ 64 <= start + Z.of_nat (length data)
  | Err Overlap => exists r, r ∈ b.(rom_regions) /\
      clash RomRegion.start RomRegion.end_ r (RomRegion.mk start data)
  end.
Proof.
  intros Hb Hs Hl Hd. pose proof (map_mmio_ok b start len h Hb Hs Hl) as Hm.
  pose proof (map_rom_ok b start data Hb Hs Hd) as Hr.
  split; [destruct (map_mmio _ _ _ _) as [b'|[]]|destruct (map_rom _ _ _) as [b'|[]]]; try done;
    naive_solver.
Qed.

(** A bus access to an MMIO chunk reaches the device as naturally aligned
    accesses of 1, 2, 4 or 8 bytes that cover the chunk exactly once, in
    address order, for reads and for writes. *)
Theorem mmio_accesses_aligned (h : H0) offset src :
  0 <= offset -> offset + Z.of_nat (length src) <= 2 ^ 64 ->
  (exists bs h' log,
     read_mmio_loop (length src) ((h, []) : logged H0) offset 0 (length src) = (bs, (h', log)) /\
     length bs = length src /\ tiles offset (Z.of_nat (length src)) log) /\
  (exists h' log,
     write_mmio_loop (length src) ((h, []) : logged H0) offset 0 src = (h', log) /\
     tiles offset (Z.of_nat (length src)) log).
Proof.
  intros Ho Hl. split.
  - destruct (read_mmio_loop_tiles (length src) ((h, []) : logged H0) offset 0 (length src))
      as (bs & h' & log & Hr & Hb & Ht); [lia..|].
    exists bs, h', log. rewrite Z.add_0_r in Ht. by rewrite Hr.
  - destruct (write_mmio_loop_tiles (length src) ((h, []) : logged H0) offset 0 src)
      as (h' & log & Hr & Ht); [lia..|].
    exists h', log. rewrite Z.add_0_r in Ht. by rewrite Hr.
Qed.
End Bus.
End Properties.

(** ** Witnesses *)
Section Witnesses.
#[local] Existing Instance x86_64.

Lemma sparse_matches_dense_witness :
  exists s d, SparseMemory.with_chunk_size 10 4 = Ok s /\ DenseMemory.new 10 = Ok d /\
    let ops := [OpWrite 3 [1; 2; 3]; OpRead 2 6; OpRead 8 3] in
    run_mem s ops = run_mem d ops /\
    run_mem d ops = [Ok None; Ok (Some [0; 1; 2; 3; 0; 0]); Err (OutOfRange 8 3 10)].
Proof.
  eexists _, _. split; [reflexivity|]. split; [reflexivity|].
  split; [|reflexivity].
  apply (sparse_matches_dense 10 4); [by split|by vm_compute|reflexivity|reflexivity|].
  repeat constructor; lia.
Defined.

Definition tiny_ram : DenseMemory.t := DenseMemory.mk [1; 2; 3; 4; 5; 6; 7; 8].

Lemma tiny_ram_ok : gm_ok tiny_ram.
Proof. split; [by vm_compute|]. by repeat constructor. Qed.

Lemma write_read_roundtrip_witness :
  exists m', write_le 4 tiny_ram 2 0xDEADBEEF = (Ok tt, m') /\ gm_ok m' /\
    read_le 4 m' 2 = Ok 0xDEADBEEF.
Proof.
  apply (write_read_roundtrip tiny_ram 4 2 0xDEADBEEF);
    [apply tiny_ram_ok|by split|by vm_compute|by split|done].
Defined.

(** Eight bytes of RAM with two bytes of ROM over its end. *)
Definition tiny_bus : t DenseMemory.t no_mmio :=
  match map_rom (new tiny_ram) 6 [0xAA; 0xBB; 0xCC] with Ok b => b | Err _ => new tiny_ram end.

Lemma tiny_bus_ok : bus_ok tiny_bus.
Proof.
  pose proof (map_rom_ok (H := no_mmio) (new tiny_ram) 6 [0xAA; 0xBB; 0xCC]) as Hm.
  specialize (Hm (new_ok tiny_ram tiny_ram_ok) ltac:(lia) ltac:(by repeat constructor)).
  exact (proj1 Hm).
Qed.

Lemma bus_reads_bytes_witness :
  read_physical tiny_bus 4 8 = ([5; 6; 0xAA; 0xBB; 0xCC; 0xFF; 0xFF; 0xFF], tiny_bus) /\
  fst (read_uN 4 tiny_bus 4) = 0xBBAA0605.
Proof.
  destruct (bus_reads_bytes tiny_bus 4 8) as [H1 _];
    [apply tiny_bus_ok|by split|intros x _; apply (no_mmio_outside tiny_bus x 1); lia|].
  destruct (bus_reads_bytes tiny_bus 4 4) as [_ H2];
    [apply tiny_bus_ok|by split|intros x _; apply (no_mmio_outside tiny_bus x 1); lia|].
  rewrite H1, H2. split; reflexivity.
Defined.

Lemma bus_writes_bytes_witness :
  bus_byte (write_physical tiny_bus 5 [0x11; 0x22]) 5 = 0x11 /\
  bus_byte (write_physical tiny_bus 5 [0x11; 0x22]) 6 = 0xAA.
Proof.
  assert (forall a, 0 <= a -> bus_byte (write_physical tiny_bus 5 [0x11; 0x22]) a =
    if lands tiny_bus a then splice (gm_byte tiny_bus.(ram)) 5 [0x11; 0x22] a else bus_byte tiny_bus a)
    as Hw.
  { intros a Ha. apply (bus_writes_bytes tiny_bus 5 [0x11; 0x22] a);
      [apply tiny_bus_ok|by split|by repeat constructor
      |intros x _; apply (no_mmio_outside tiny_bus x 1); lia|done]. }
  split; rewrite Hw by lia; reflexivity.
Defined.

(** A device of four one-byte registers. *)
#[local] Instance demo_device : MmioHandler (list Z) := {|
  mmio_read d addr sz := (from_le_bytes (take (Z.to_nat sz) (drop (Z.to_nat addr) d)), d);
  mmio_write d addr sz v :=
    take (Z.to_nat addr) d ++ to_le_bytes (Z.to_nat sz) v ++ drop (Z.to_nat (addr + sz)) d;
|}.

Lemma mapping_sound_witness :
  match map_mmio (new tiny_ram) 0x100 4 [1; 2; 3; 4] with
  | Ok b' => bus_ok b'
  | Err _ => False
  end /\
  match map_rom (H := list Z) (new tiny_ram) (2 ^ 64 - 1) [1; 2] with
  | Err AddressOverflow => 2 ^ 64 <= 2 ^ 64 - 1 + 2
  | _ => False
  end.
Proof.
  destruct (mapping_sound (new tiny_ram) 0x100 4 [1; 2; 3; 4] []) as [Hm _];
    [apply new_ok, tiny_ram_ok|lia|lia|constructor|].
  destruct (mapping_sound (new tiny_ram) (2 ^ 64 - 1) 0 ([] : list Z) [1; 2]) as [_ Hr];
    [apply new_ok, tiny_ram_ok|lia|lia|by repeat constructor|].
  split; [exact (proj1 Hm)|exact Hr].
Defined.

Lemma mmio_accesses_aligned_witness :
  exists bs h' log,
    read_mmio_loop 3 (([1; 2; 3; 4], []) : logged (list Z)) 1 0 3 = (bs, (h', log)) /\
    tiles 1 3 log /\ log = [(1, 1); (2, 2)] /\ bs = [2; 3; 4].
Proof.
  destruct (mmio_accesses_aligned [1; 2; 3; 4] 1 [0; 0; 0]) as [(bs & h' & log & Hr & _ & Ht) _];
    [lia|simpl; lia|].
  exists bs, h', log. split; [exact Hr|]. split; [exact Ht|].
  vm_compute in Hr. injection Hr as <- _ <-. split; reflexivity.
Defined.
End Witnesses.
