(* ===== verification/GuestPhys.v ===== *)
(** * Guest physical layout of RAM (crates/aero-guest-phys)

    On the PC/Q35 layout RAM above the ECAM base is remapped above 4 GiB.  The
    functions below turn a guest physical range into an offset of the
    contiguous RAM buffer; [ram_offset_of] is the byte-wise map they promise. *)

From S2P Require Import Prelude.

(** aero_pc_constants::PCIE_ECAM_BASE *)
Definition PCIE_ECAM_BASE : Z := 0xB0000000.
Definition LOW_RAM_END : Z := PCIE_ECAM_BASE.
Definition HIGH_RAM_START : Z := 0x100000000.

Module GuestRamRange.
Inductive t := Ram (ram_offset : Z) | Hole | OutOfBounds.
End GuestRamRange.

(** [usize] lengths are integers below [usize_max]. *)
Module GuestRamChunk.
Inductive t := Ram (ram_offset len : Z) | Hole (len : Z) | OutOfBounds (len : Z).
End GuestRamChunk.

#[export] Instance guest_ram_range_eq_dec : EqDecision GuestRamRange.t.
Proof. solve_decision. Defined.
#[export] Instance guest_ram_chunk_eq_dec : EqDecision GuestRamChunk.t.
Proof. solve_decision. Defined.

Definition guest_ram_phys_end_exclusive (ram_bytes : Z) : Z :=
  if ram_bytes <=? LOW_RAM_END then ram_bytes
  else saturating_add 64 HIGH_RAM_START (saturating_sub ram_bytes LOW_RAM_END).

Definition translate_guest_paddr_empty_range (ram_bytes paddr : Z) : GuestRamRange.t :=
  let low_ram_bytes := Z.min ram_bytes LOW_RAM_END in
  if paddr <=? low_ram_bytes then GuestRamRange.Ram paddr
  else if (LOW_RAM_END <=? paddr) && (paddr <? HIGH_RAM_START) then GuestRamRange.Hole
  else
    let high_ram_bytes := saturating_sub ram_bytes LOW_RAM_END in
    let high_end := saturating_add 64 HIGH_RAM_START high_ram_bytes in
    if nz high_ram_bytes && ((HIGH_RAM_START <=? paddr) && (paddr <=? high_end)) then
      match checked_add 64 LOW_RAM_END (paddr - HIGH_RAM_START) with
      | Some ram_offset => GuestRamRange.Ram ram_offset
      | None => GuestRamRange.OutOfBounds
      end
    else GuestRamRange.OutOfBounds.

Section Translate.
Context `{Target}.

(** The lengths are patched into the chunk at the end, as in the source. *)
Definition set_len (kind : GuestRamChunk.t) (len : Z) : GuestRamChunk.t :=
  match kind with
  | GuestRamChunk.Ram ram_offset _ => GuestRamChunk.Ram ram_offset len
  | GuestRamChunk.Hole _ => GuestRamChunk.Hole len
  | GuestRamChunk.OutOfBounds _ => GuestRamChunk.OutOfBounds len
  end.

Definition translate_guest_paddr_chunk (ram_bytes paddr len : Z) : GuestRamChunk.t :=
  if len =? 0 then
    match translate_guest_paddr_empty_range ram_bytes paddr with
    | GuestRamRange.Ram ram_offset => GuestRamChunk.Ram ram_offset 0
    | GuestRamRange.Hole => GuestRamChunk.Hole 0
    | GuestRamRange.OutOfBounds => GuestRamChunk.OutOfBounds 0
    end
  else
    let low_ram_bytes := Z.min ram_bytes LOW_RAM_END in
    let high_ram_bytes := saturating_sub ram_bytes LOW_RAM_END in
    let high_ram_end := saturating_add 64 HIGH_RAM_START high_ram_bytes in
    let finish kind max_len_u64 :=
      let max_len := Z.min len max_len_u64 in
      let max_len := Z.min max_len usize_max in
      set_len kind max_len in
    if paddr <? low_ram_bytes then
      finish (GuestRamChunk.Ram paddr 0) (low_ram_bytes - paddr)
    else if paddr <? LOW_RAM_END then
      finish (GuestRamChunk.OutOfBounds 0) (LOW_RAM_END - paddr)
    else if paddr <? HIGH_RAM_START then
      finish (GuestRamChunk.Hole 0) (HIGH_RAM_START - paddr)
    else if nz high_ram_bytes && (paddr <? high_ram_end) then
      match checked_add 64 LOW_RAM_END (paddr - HIGH_RAM_START) with
      | None => GuestRamChunk.OutOfBounds len
      | Some ram_offset => finish (GuestRamChunk.Ram ram_offset 0) (high_ram_end - paddr)
      end
    else finish (GuestRamChunk.OutOfBounds 0) len.

Definition translate_guest_paddr_range (ram_bytes paddr len : Z) : GuestRamRange.t :=
  if len =? 0 then translate_guest_paddr_empty_range ram_bytes paddr
  else
    match translate_guest_paddr_chunk ram_bytes paddr len with
    | GuestRamChunk.Ram ram_offset chunk_len =>
        if chunk_len =? len then GuestRamRange.Ram ram_offset else GuestRamRange.OutOfBounds
    | GuestRamChunk.Hole chunk_len =>
        if chunk_len =? len then GuestRamRange.Hole else GuestRamRange.OutOfBounds
    | GuestRamChunk.OutOfBounds _ => GuestRamRange.OutOfBounds
    end.

Definition translate_guest_paddr_range_to_offset (ram_bytes paddr len : Z) : option Z :=
  match try_usize len with
  | None => None
  | Some len =>
      match translate_guest_paddr_range ram_bytes paddr (Z.of_nat len) with
      | GuestRamRange.Ram ram_offset => Some ram_offset
      | _ => None
      end
  end.

(** ** The byte-wise layout *)

(** Where the byte at guest physical address [a] lives in the RAM buffer. *)
Definition ram_offset_of (ram_bytes a : Z) : option Z :=
  if a <? Z.min ram_bytes LOW_RAM_END then Some a
  else if (HIGH_RAM_START <=? a) && (a - HIGH_RAM_START + LOW_RAM_END <? ram_bytes)
  then Some (a - HIGH_RAM_START + LOW_RAM_END)
  else None.

Definition in_hole (a : Z) : bool := (LOW_RAM_END <=? a) && (a <? HIGH_RAM_START).

(** RAM sizes for which the remapped part ends inside the address space. *)
Definition ram_size_ok (ram_bytes : Z) : Prop := 0 <= ram_bytes < 2 ^ 63.

Local Ltac layout :=
  unfold ram_offset_of, in_hole, ram_size_ok, uint, saturating_add, saturating_sub, checked_add,
    LOW_RAM_END, HIGH_RAM_START, PCIE_ECAM_BASE in *;
  repeat case_match; simplify_eq/=; split_and?; try done; try f_equal; lia.

(** What a chunk promises about each of its bytes. *)
Definition chunk_describes (ram_bytes paddr len : Z) (c : GuestRamChunk.t) : Prop :=
  let n := match c with
           | GuestRamChunk.Ram _ n | GuestRamChunk.Hole n | GuestRamChunk.OutOfBounds n => n end in
  0 < n <= len /\
  forall i, 0 <= i < n -> paddr + i < 2 ^ 64 ->
    match c with
    | GuestRamChunk.Ram off _ => ram_offset_of ram_bytes (paddr + i) = Some (off + i)
    | GuestRamChunk.Hole _ =>
        ram_offset_of ram_bytes (paddr + i) = None /\ in_hole (paddr + i) = true
    | GuestRamChunk.OutOfBounds _ =>
        ram_offset_of ram_bytes (paddr + i) = None /\ in_hole (paddr + i) = false
    end.

Lemma chunk_ok ram_bytes paddr len :
  ram_size_ok ram_bytes -> uint 64 paddr -> 0 < len <= usize_max ->
  chunk_describes ram_bytes paddr len (translate_guest_paddr_chunk ram_bytes paddr len).
Proof.
  intros Hr Hp Hl. pose proof usize_max_ge. unfold translate_guest_paddr_chunk.
  destruct (Z.eqb_spec len 0); [lia|]. cbv zeta.
  repeat case_match; try (exfalso; layout); unfold chunk_describes; simpl;
    (split; [layout|intros i Hi Hi64; layout]).
Qed.

Lemma try_usize_Some len :
  0 <= len <= usize_max -> try_usize len = Some (Z.to_nat len).
Proof. intros ?. unfold try_usize. by rewrite (proj2 (Z.leb_le _ _)) by lia. Qed.

Lemma try_usize_None len : usize_max < len -> try_usize len = None.
Proof. intros ?. unfold try_usize. by rewrite (proj2 (Z.leb_gt _ _)) by lia. Qed.

(** A range whose bytes are consecutive RAM bytes is one chunk. *)
Lemma chunk_whole ram_bytes paddr len off :
  ram_size_ok ram_bytes -> uint 64 paddr -> 0 < len <= usize_max ->
  (forall i, 0 <= i < len -> ram_offset_of ram_bytes (paddr + i) = Some (off + i)) ->
  translate_guest_paddr_chunk ram_bytes paddr len = GuestRamChunk.Ram off len.
Proof.
  intros Hr Hp Hl Hb. pose proof (Hb 0 ltac:(lia)) as H0. pose proof (Hb (len - 1) ltac:(lia)) as H1.
  clear Hb. rewrite Z.add_0_r in H0. unfold translate_guest_paddr_chunk.
  destruct (Z.eqb_spec len 0); [lia|]. cbv zeta.
  unfold ram_offset_of in H0, H1. repeat case_match; simplify_eq/=; layout.
Qed.

Lemma range_to_offset_bytes ram_bytes paddr len off :
  ram_size_ok ram_bytes -> uint 64 paddr -> 0 < len ->
  translate_guest_paddr_range_to_offset ram_bytes paddr len = Some off <->
  len <= usize_max /\
  forall i, 0 <= i < len -> ram_offset_of ram_bytes (paddr + i) = Some (off + i).
Proof.
  intros Hr Hp Hl. unfold translate_guest_paddr_range_to_offset.
  destruct (Z.leb_spec len usize_max) as [Hu|Hu]; last first.
  { rewrite try_usize_None by lia. split; [done|lia]. }
  rewrite try_usize_Some, Z2Nat.id by lia. unfold translate_guest_paddr_range.
  rewrite (proj2 (Z.eqb_neq len 0)) by lia. split.
  - pose proof (chunk_ok ram_bytes paddr len Hr Hp ltac:(lia)) as [Hn Hi].
    destruct (translate_guest_paddr_chunk _ _ _) as [o n|n|n]; simpl in *; [|by repeat case_match..].
    destruct (Z.eqb_spec n len) as [->|]; [|done]. intros [= ->]. split; [done|]. intros i Hil.
    destruct (Z.ltb_spec (paddr + i) (2 ^ 64)); [apply Hi; lia|].
    (* a RAM chunk ends below the top of the address space *)
    assert (ram_offset_of ram_bytes (2 ^ 64 - 1) = None) as Hnone by layout.
    pose proof (Hi (2 ^ 64 - 1 - paddr)) as Htop. rewrite Zplus_minus, Hnone in Htop.
    unfold uint in Hp. discriminate Htop; lia.
  - intros [_ Hb]. rewrite (chunk_whole _ _ _ off) by (done || lia). by rewrite Z.eqb_refl.
Qed.

Lemma range_to_offset_empty ram_bytes paddr off :
  ram_size_ok ram_bytes -> uint 64 paddr ->
  translate_guest_paddr_range_to_offset ram_bytes paddr 0 = Some off <->
  (paddr <= Z.min ram_bytes LOW_RAM_END /\ off = paddr) \/
  (LOW_RAM_END < ram_bytes /\ HIGH_RAM_START <= paddr <= guest_ram_phys_end_exclusive ram_bytes /\
   off = paddr - HIGH_RAM_START + LOW_RAM_END).
Proof.
  intros Hr Hp. pose proof usize_max_ge. unfold translate_guest_paddr_range_to_offset.
  rewrite try_usize_Some, Z2Nat.id by lia. unfold translate_guest_paddr_range. rewrite Z.eqb_refl.
  unfold translate_guest_paddr_empty_range, guest_ram_phys_end_exclusive. cbv zeta. split.
  - intros Hs. repeat case_match; simplify_eq/=; layout.
  - intros [[? ->]|(? & ? & ->)]; layout.
Qed.

(** A chunk is never empty, never longer than asked, and every byte of it
    has the kind the chunk names; the bytes of a RAM chunk are consecutive in
    the RAM buffer.  A loop over chunks therefore ends and copies each byte
    from or to its place. *)
Theorem guest_chunk_exact ram_bytes paddr len :
  ram_size_ok ram_bytes -> uint 64 paddr -> 0 < len <= usize_max ->
  chunk_describes ram_bytes paddr len (translate_guest_paddr_chunk ram_bytes paddr len).
Proof. apply chunk_ok. Qed.

(** [translate_guest_paddr_range_to_offset] returns an offset exactly when
    every byte of the range is RAM and they are consecutive in the buffer from
    that offset (the range then fits [usize]); an empty range is accepted
    exactly inside RAM and at the ends of its two parts. *)
Theorem range_to_offset_exact ram_bytes paddr len off :
  ram_size_ok ram_bytes -> uint 64 paddr -> 0 <= len ->
  translate_guest_paddr_range_to_offset ram_bytes paddr len = Some off <->
  (0 < len <= usize_max /\
   (forall i, 0 <= i < len -> ram_offset_of ram_bytes (paddr + i) = Some (off + i))) \/
  (len = 0 /\
   ((paddr <= Z.min ram_bytes LOW_RAM_END /\ off = paddr) \/
    (LOW_RAM_END < ram_bytes /\ HIGH_RAM_START <= paddr <= guest_ram_phys_end_exclusive ram_bytes /\
     off = paddr - HIGH_RAM_START + LOW_RAM_END))).
Proof.
  intros Hr Hp Hl. destruct (Z.eq_dec len 0) as [->|].
  - rewrite range_to_offset_empty by done. split; [by right|]. intros [[? _]|[_ ?]]; [lia|done].
  - rewrite range_to_offset_bytes by (done || lia). split.
    + intros [? ?]. left. split; [lia|done].
    + intros [[[_ ?] ?]|[? _]]; [by split|lia].
Qed.

(** The layout is a bijection: each byte of the RAM buffer is reached
    through exactly one guest physical address, and that address lies below
    [guest_ram_phys_end_exclusive]. *)
Theorem guest_ram_bijective ram_bytes off :
  ram_size_ok ram_bytes -> 0 <= off < ram_bytes ->
  exists paddr, 0 <= paddr < guest_ram_phys_end_exclusive ram_bytes /\
    translate_guest_paddr_range_to_offset ram_bytes paddr 1 = Some off /\
    (forall q, uint 64 q ->
       translate_guest_paddr_range_to_offset ram_bytes q 1 = Some off -> q = paddr).
Proof.
  intros Hr Hoff. pose proof usize_max_ge.
  set (paddr := if off <? LOW_RAM_END then off else off - LOW_RAM_END + HIGH_RAM_START).
  assert (0 <= paddr < guest_ram_phys_end_exclusive ram_bytes) as Hp
    by (subst paddr; unfold guest_ram_phys_end_exclusive; layout).
  assert (uint 64 paddr) as Hp64 by (clear Hp; subst paddr; layout).
  exists paddr. split; [done|]. rewrite range_to_offset_bytes by (done || lia). split.
  - split; [lia|]. intros i Hi. replace i with 0 by lia. clear Hp Hp64. subst paddr. layout.
  - intros q Hq Hs. apply range_to_offset_bytes in Hs as [_ Hb]; [|done..|lia].
    specialize (Hb 0 ltac:(lia)). clear Hp Hp64. subst paddr. layout.
Qed.
End Translate.

Lemma guest_chunk_exact_witness :
  chunk_describes (2 ^ 32) 0xAFFFFFF0 64
    (translate_guest_paddr_chunk (H := wasm32) (2 ^ 32) 0xAFFFFFF0 64) /\
  translate_guest_paddr_chunk (H := wasm32) (2 ^ 32) 0xAFFFFFF0 64 = GuestRamChunk.Ram 0xAFFFFFF0 16.
Proof.
  split; [|reflexivity]. apply (@guest_chunk_exact wasm32); [| |split]; done.
Defined.

Lemma range_to_offset_exact_witness :
  translate_guest_paddr_range_to_offset (H := wasm32) (2 ^ 32) 0x100000000 32 = Some 0xB0000000 /\
  ram_offset_of (2 ^ 32) 0x100000010 = Some 0xB0000010.
Proof.
  assert (translate_guest_paddr_range_to_offset (H := wasm32) (2 ^ 32) 0x100000000 32
          = Some 0xB0000000) as Hs by reflexivity.
  split; [exact Hs|]. apply (@range_to_offset_exact wasm32) in Hs; [|done..].
  destruct Hs as [[_ Hb]|[? _]]; [|done]. exact (Hb 0x10 ltac:(lia)).
Defined.

Lemma guest_ram_bijective_witness :
  exists paddr, 0 <= paddr < guest_ram_phys_end_exclusive (2 ^ 32) /\
    translate_guest_paddr_range_to_offset (H := wasm32) (2 ^ 32) paddr 1 = Some 0xB0000000 /\
    (forall q, uint 64 q ->
       translate_guest_paddr_range_to_offset (H := wasm32) (2 ^ 32) q 1 = Some 0xB0000000 -> q = paddr).
Proof. apply (@guest_ram_bijective wasm32); done. Defined.
