(* ===== verification/Collections.v ===== *)
(** * Ordered maps

    Rust's [BTreeMap] with integer keys, as the list of its entries in
    ascending key order: the order in which the code iterates over it. *)

From S2P Require Import Prelude.

Module BTreeMap.
Fixpoint insert {V} (k : Z) (v : V) (m : list (Z * V)) : list (Z * V) :=
  match m with
  | [] => [(k, v)]
  | (k', v') :: m' =>
      if k <? k' then (k, v) :: m
      else if k =? k' then (k, v) :: m'
      else (k', v') :: insert k v m'
  end.

Fixpoint get {V} (k : Z) (m : list (Z * V)) : option V :=
  match m with
  | [] => None
  | (k', v') :: m' => if k =? k' then Some v' else get k m'
  end.

Definition sorted {V} (m : list (Z * V)) : Prop := StronglySorted Z.lt (map fst m).

Section Facts.
Context {V : Type}.
Implicit Types (k : Z) (v : V) (m : list (Z * V)).

Lemma get_insert k k' v m :
  get k (insert k' v m) = if k =? k' then Some v else get k m.
Proof.
  induction m as [|[k1 v1] m IH]; simpl; [done|].
  destruct (Z.ltb_spec k' k1); [done|]. destruct (Z.eqb_spec k' k1) as [->|]; simpl.
  - by destruct (Z.eqb_spec k k1).
  - rewrite IH. destruct (Z.eqb_spec k k1), (Z.eqb_spec k k'); done || lia.
Qed.

Lemma insert_keys k v m : forall x, x ∈ map fst (insert k v m) <-> x = k \/ x ∈ map fst m.
Proof.
  intros x. induction m as [|[k1 v1] m IH]; simpl.
  - rewrite list_elem_of_singleton, elem_of_nil. naive_solver.
  - destruct (Z.ltb_spec k k1); [by simpl; rewrite !elem_of_cons|].
    destruct (Z.eqb_spec k k1) as [->|]; simpl; rewrite !elem_of_cons; [naive_solver|].
    rewrite IH. naive_solver.
Qed.

Lemma insert_sorted k v m : sorted m -> sorted (insert k v m).
Proof.
  unfold sorted. induction m as [|[k1 v1] m IH]; simpl; intros Hs.
  { repeat constructor. }
  apply StronglySorted_inv in Hs as [Hs Hall].
  destruct (Z.ltb_spec k k1); simpl.
  { constructor; [by constructor|]. constructor; [done|].
    eapply Forall_impl; [done|]. simpl. lia. }
  destruct (Z.eqb_spec k k1) as [->|]; simpl; [by constructor|].
  constructor; [by apply IH|]. apply Forall_forall. intros x [->|Hx]%insert_keys; [lia|].
  by apply (proj1 (Forall_forall _ _) Hall).
Qed.

(** A key above all others goes to the end. *)
Lemma insert_last k v m : Forall (fun k' => k' < k) (map fst m) -> insert k v m = m ++ [(k, v)].
Proof.
  induction m as [|[k1 v1] m IH]; simpl; [done|]. intros [Hk Hm]%Forall_cons.
  rewrite (proj2 (Z.ltb_ge _ _)), (proj2 (Z.eqb_neq _ _)) by lia. by rewrite IH.
Qed.

Lemma get_None k m : k ∉ map fst m -> get k m = None.
Proof.
  induction m as [|[k1 v1] m IH]; simpl; [done|]. rewrite not_elem_of_cons. intros [Hk Hm].
  rewrite (proj2 (Z.eqb_neq _ _)) by done. by apply IH.
Qed.

Lemma get_elem k v m : get k m = Some v -> (k, v) ∈ m.
Proof.
  induction m as [|[k1 v1] m IH]; simpl; [done|].
  destruct (Z.eqb_spec k k1) as [->|]; [intros [= ->]; by left|]. intros ?. right. by apply IH.
Qed.

Lemma insert_Forall (P : Z * V -> Prop) k v m : P (k, v) -> Forall P m -> Forall P (insert k v m).
Proof.
  intros Hk. induction 1 as [|[k1 v1] m Hx Hm IH]; simpl; [by constructor|].
  destruct (k <? k1); [by repeat constructor|]. destruct (k =? k1); by constructor.
Qed.

Lemma insert_length_fresh k v m :
  get k m = None -> length (insert k v m) = S (length m).
Proof.
  induction m as [|[k1 v1] m IH]; simpl; [done|].
  destruct (Z.eqb_spec k k1) as [->|]; [done|]. intros Hg.
  destruct (k <? k1); [done|]. simpl. by rewrite IH.
Qed.
End Facts.
End BTreeMap.
