(* ===== verification/Snapshot.v ===== *)
(** * Device snapshots (crates/aero-io-snapshot, io/state/version.rs)

    The tag-length-value container every device state is saved in
    ([SnapshotWriter], [SnapshotReader]) and the codec of the values inside a
    field ([Encoder], [Decoder]).  A slice is a list of bytes; allocation
    failure ([OutOfMemory]) is not modelled, so no operation returns it. *)

From S2P Require Import Prelude Bytes Collections.

Module SnapshotVersion.
Record t := new { major : Z; minor : Z }.
#[export] Instance eq_dec : EqDecision t.
Proof. solve_decision. Defined.
End SnapshotVersion.

Inductive SnapshotError :=
| UnexpectedEof
| InvalidMagic
| UnsupportedFormatVersion (found supported : SnapshotVersion.t)
| DeviceIdMismatch (expected found : list Z)
| UnsupportedDeviceMajorVersion (found supported : Z)
| DuplicateFieldTag (tag : Z)
| InvalidFieldEncoding (msg : string)
| OutOfMemory.

Definition SnapshotResult (A : Type) : Type := result A SnapshotError.

Module SnapshotHeader.
Record t := mk {
  format_version : SnapshotVersion.t;
  device_id : list Z;
  device_version : SnapshotVersion.t;
}.
End SnapshotHeader.

(** [*b"AERO"] *)
Definition MAGIC : list Z := [0x41; 0x45; 0x52; 0x4F].
Abbreviation FORMAT_VERSION := (SnapshotVersion.new 1 0) (only parsing).
Definition HEADER_LEN : Z := 4 + 2 + 2 + 4 + 2 + 2.

(** [&bytes[a..b]]; the callers have checked [a <= b <= bytes.len()]. *)
Definition slice (bytes : list Z) (a b : Z) : list Z :=
  take (Z.to_nat (b - a)) (drop (Z.to_nat a) bytes).

(** ** Writer *)
Module SnapshotWriter.
Record t := mk {
  device_id : list Z;
  device_version : SnapshotVersion.t;
  fields : list (Z * list Z);
}.

Definition new (device_id : list Z) (device_version : SnapshotVersion.t) : t :=
  mk device_id device_version [].

(** The debug assertion on a repeated tag is compiled out of release builds:
    the last value wins. *)
Definition field_bytes (w : t) (tag : Z) (bytes : list Z) : t :=
  mk w.(device_id) w.(device_version) (BTreeMap.insert tag bytes w.(fields)).
Definition field_u8 (w : t) (tag val : Z) : t := field_bytes w tag [val].
Definition field_bool (w : t) (tag : Z) (val : bool) : t := field_u8 w tag (if val then 1 else 0).
Definition field_u16 (w : t) (tag val : Z) : t := field_bytes w tag (to_le_bytes 2 val).
Definition field_u32 (w : t) (tag val : Z) : t := field_bytes w tag (to_le_bytes 4 val).
Definition field_u64 (w : t) (tag val : Z) : t := field_bytes w tag (to_le_bytes 8 val).
Definition field_i32 (w : t) (tag val : Z) : t := field_bytes w tag (to_le_bytes 4 (wrap 32 val)).

(** One iteration of the loop over the fields. *)
Definition field_tlv (f : Z * list Z) : list Z :=
  to_le_bytes 2 f.1 ++ to_le_bytes 4 (wrap 32 (Z.of_nat (length f.2))) ++ f.2.

Definition finish (w : t) : list Z :=
  MAGIC
  ++ to_le_bytes 2 FORMAT_VERSION.(SnapshotVersion.major)
  ++ to_le_bytes 2 FORMAT_VERSION.(SnapshotVersion.minor)
  ++ w.(device_id)
  ++ to_le_bytes 2 w.(device_version).(SnapshotVersion.major)
  ++ to_le_bytes 2 w.(device_version).(SnapshotVersion.minor)
  ++ concat (map field_tlv w.(fields)).
End SnapshotWriter.

(** ** Reader *)
Module SnapshotReader.
Record t := mk {
  header : SnapshotHeader.t;
  fields : list (Z * list Z);
}.

Abbreviation MAX_FIELDS := (4096) (only parsing).

Section Ops.
Context `{Target}.

(** The [while offset < bytes.len()] loop.  Each iteration consumes at least
    the six bytes of a field header, so the input's length is enough fuel. *)
Fixpoint parse_fields (fuel : nat) (bytes : list Z) (offset : Z) (fs : list (Z * list Z)) :
    SnapshotResult (list (Z * list Z)) :=
  let len_ := Z.of_nat (length bytes) in
  if negb (offset <? len_) then Ok fs else
  match fuel with
  | O => Err UnexpectedEof
  | S fuel =>
      let? header_end := ok_or UnexpectedEof (checked_add usize_bits offset 6) in
      if len_ <? header_end then Err UnexpectedEof else
      let tag := from_le_bytes (slice bytes offset (offset + 2)) in
      let len := from_le_bytes (slice bytes (offset + 2) (offset + 6)) in
      let offset := header_end in
      let? field_end := ok_or UnexpectedEof (checked_add usize_bits offset len) in
      if len_ <? field_end then Err UnexpectedEof else
      if MAX_FIELDS <=? Z.of_nat (length fs) then Err (InvalidFieldEncoding "too many fields") else
      match BTreeMap.get tag fs with
      | Some _ => Err (DuplicateFieldTag tag)
      | None =>
          parse_fields fuel bytes field_end (BTreeMap.insert tag (slice bytes offset field_end) fs)
      end
  end.

Definition parse (bytes expected_device_id : list Z) : SnapshotResult t :=
  if Z.of_nat (length bytes) <? HEADER_LEN then Err UnexpectedEof
  else if negb (bool_decide (slice bytes 0 4 = MAGIC)) then Err InvalidMagic
  else
    let format_version := SnapshotVersion.new (from_le_bytes (slice bytes 4 6))
                            (from_le_bytes (slice bytes 6 8)) in
    if negb (format_version.(SnapshotVersion.major) =? FORMAT_VERSION.(SnapshotVersion.major)) then
      Err (UnsupportedFormatVersion format_version FORMAT_VERSION)
    else
      let device_id := slice bytes 8 12 in
      if negb (bool_decide (device_id = expected_device_id)) then
        Err (DeviceIdMismatch expected_device_id device_id)
      else
        let device_version := SnapshotVersion.new (from_le_bytes (slice bytes 12 14))
                                (from_le_bytes (slice bytes 14 16)) in
        let header := SnapshotHeader.mk format_version device_id device_version in
        let? fields := parse_fields (length bytes) bytes HEADER_LEN [] in
        Ok (mk header fields).
End Ops.

Definition ensure_device_major (r : t) (supported_major : Z) : SnapshotResult unit :=
  let major := r.(header).(SnapshotHeader.device_version).(SnapshotVersion.major) in
  if negb (major =? supported_major)
  then Err (UnsupportedDeviceMajorVersion major supported_major)
  else Ok tt.

Definition bytes (r : t) (tag : Z) : option (list Z) := BTreeMap.get tag r.(fields).
Definition iter_fields (r : t) : list (Z * list Z) := r.(fields).

(** The typed accessors: absent, the value, or a field of the wrong length. *)
Definition sized (n : nat) (msg : string) (r : t) (tag : Z) : SnapshotResult (option Z) :=
  match bytes r tag with
  | None => Ok None
  | Some bs =>
      if negb (length bs =? n)%nat then Err (InvalidFieldEncoding msg)
      else Ok (Some (from_le_bytes bs))
  end.
Definition u8 : t -> Z -> SnapshotResult (option Z) := sized 1 "u8".
Definition u16 : t -> Z -> SnapshotResult (option Z) := sized 2 "u16".
Definition u32 : t -> Z -> SnapshotResult (option Z) := sized 4 "u32".
Definition u64 : t -> Z -> SnapshotResult (option Z) := sized 8 "u64".
Definition i32 (r : t) (tag : Z) : SnapshotResult (option Z) :=
  result_map (option_map (to_signed 32)) (sized 4 "i32" r tag).
Definition bool (r : t) (tag : Z) : SnapshotResult (option Datatypes.bool) :=
  let? o := u8 r tag in
  match o with
  | None => Ok None
  | Some v =>
      if v =? 0 then Ok (Some false) else if v =? 1 then Ok (Some true)
      else Err (InvalidFieldEncoding "bool")
  end.
End SnapshotReader.

(** ** Codec of nested values *)
Module Encoder.
(** An encoder is its buffer; the methods append to it. *)
Definition t : Type := list Z.
Definition new : t := [].
Definition bytes (bs : list Z) (e : t) : t := e ++ bs.
Definition u8 (v : Z) (e : t) : t := e ++ [v].
Definition bool (v : Datatypes.bool) (e : t) : t := u8 (if v then 1 else 0) e.
Definition u16 (v : Z) (e : t) : t := e ++ to_le_bytes 2 v.
Definition u32 (v : Z) (e : t) : t := e ++ to_le_bytes 4 v.
Definition u64 (v : Z) (e : t) : t := e ++ to_le_bytes 8 v.
Definition i32 (v : Z) (e : t) : t := e ++ to_le_bytes 4 (wrap 32 v).
Definition vec_u8 (values : list Z) (e : t) : t :=
  u32 (wrap 32 (Z.of_nat (length values))) e ++ values.
Definition vec_bytes (values : list (list Z)) (e : t) : t :=
  fold_left (fun e v => u32 (wrap 32 (Z.of_nat (length v))) e ++ v) values
    (u32 (wrap 32 (Z.of_nat (length values))) e).
Definition finish (e : t) : list Z := e.
End Encoder.

Module Decoder.
Record t := mk { buf : list Z; offset : Z }.
Definition new (buf : list Z) : t := mk buf 0.

Section Ops.
Context `{Target}.

Definition take (len : Z) : st t SnapshotError (list Z) := fun d =>
  match checked_add usize_bits d.(offset) len with
  | None => (Err UnexpectedEof, d)
  | Some end_ =>
      if Z.of_nat (length d.(buf)) <? end_ then (Err UnexpectedEof, d)
      else (Ok (slice d.(buf) d.(offset) end_), mk d.(buf) end_)
  end.

Definition u8 : st t SnapshotError Z :=
  let! b := take 1 in st_ret (from_le_bytes b).
Definition bool : st t SnapshotError Datatypes.bool :=
  let! v := u8 in
  if v =? 0 then st_ret false else if v =? 1 then st_ret true
  else st_err (InvalidFieldEncoding "bool").
Definition u16 : st t SnapshotError Z :=
  let! b := take 2 in st_ret (from_le_bytes b).
Definition u32 : st t SnapshotError Z :=
  let! b := take 4 in st_ret (from_le_bytes b).
Definition u64 : st t SnapshotError Z :=
  let! b := take 8 in st_ret (from_le_bytes b).
Definition i32 : st t SnapshotError Z :=
  let! b := take 4 in st_ret (to_signed 32 (from_le_bytes b)).
Definition bytes (len : Z) : st t SnapshotError (list Z) := take len.
Definition bytes_vec (len : Z) : st t SnapshotError (list Z) :=
  let! src := take len in st_ret src.

(** [for _ in 0..count]: an iteration consumes a four-byte length or fails, so
    the buffer's length is enough fuel for any [count]. *)
Fixpoint vec_bytes_loop (fuel : nat) (count : Z) (out : list (list Z)) :
    st t SnapshotError (list (list Z)) :=
  if count =? 0 then st_ret out else
  match fuel with
  | O => st_err UnexpectedEof
  | S fuel =>
      let! len := u32 in
      let! v := bytes_vec len in
      vec_bytes_loop fuel (count - 1) (out ++ [v])
  end.
Definition vec_bytes : st t SnapshotError (list (list Z)) := fun d =>
  (let! count := u32 in vec_bytes_loop (length d.(buf)) count []) d.
Definition vec_u8 : st t SnapshotError (list Z) :=
  let! count := u32 in bytes_vec count.
Definition finish (d : t) : SnapshotResult unit :=
  if negb (d.(offset) =? Z.of_nat (length d.(buf)))
  then Err (InvalidFieldEncoding "trailing bytes") else Ok tt.
End Ops.
End Decoder.

(** ** Devices

    The contract of [IoSnapshot]: identity, version, save and load.  A load
    that fails leaves the receiver in the state the second component gives. *)
Class IoSnapshot (D : Type) := {
  DEVICE_ID : list Z;
  DEVICE_VERSION : SnapshotVersion.t;
  save_state : D -> list Z;
  load_state : list Z -> st D SnapshotError unit;
}.

(** [dev.field = d.op()?] on the pair of the device and the decoder: the
    assignment happens only if the read succeeds, earlier ones stay. *)
Definition assign {P A} (set : A -> P -> P) (op : st Decoder.t SnapshotError A) :
    st (P * Decoder.t) SnapshotError unit := fun '(p, d) =>
  match op d with
  | (Ok a, d) => (Ok tt, (set a p, d))
  | (Err e, d) => (Err e, (p, d))
  end.

(** [if let Some(v) = r.op(TAG)? { field = v; }] *)
Definition load_opt {S A} (set : A -> S -> S) (o : SnapshotResult (option A)) :
    st S SnapshotError unit := fun s =>
  match o with
  | Err e => (Err e, s)
  | Ok None => (Ok tt, s)
  | Ok (Some a) => (Ok tt, set a s)
  end.

(** What a device promises of its snapshots: a saved state is restored
    whatever the receiver held, and a load of arbitrary bytes, even one that
    fails half-way, leaves a valid state.  [onto d d0] is the saved part of [d]
    on the wiring of [d0] (clocks, sinks, callbacks), which is not saved. *)
Class IoSnapshotSpec (D : Type) `{IoSnapshot D} (ok : D -> Prop) (onto : D -> D -> D) : Prop := {
  save_load d d0 : ok d -> ok d0 -> load_state (save_state d) d0 = (Ok tt, onto d d0);
  load_ok bs d0 : Forall byte_ok bs -> ok d0 -> ok (load_state bs d0).2;
}.
