(* ===== verification/SnapshotFacts.v ===== *)
(** * Round trips of the snapshot container and codec *)

From S2P Require Import Prelude Bytes Collections Snapshot.

(** ** Slices *)
Lemma slice_mid pre mid post a b :
  a = Z.of_nat (length pre) -> b = a + Z.of_nat (length mid) ->
  slice (pre ++ mid ++ post) a b = mid.
Proof.
  intros -> ->. unfold slice. rewrite Nat2Z.id, drop_app_length.
  replace (Z.to_nat _) with (length mid) by lia. apply take_app_length.
Qed.

Lemma slice_length bs a b :
  0 <= a <= b -> b <= Z.of_nat (length bs) -> Z.of_nat (length (slice bs a b)) = b - a.
Proof. intros ? ?. unfold slice. rewrite length_take, length_drop. lia. Qed.

Lemma slice_Forall (P : Z -> Prop) bs a b : Forall P bs -> Forall P (slice bs a b).
Proof. intros Hb. unfold slice. by apply Forall_take, Forall_drop. Qed.

Lemma slice_uint bs a n :
  Forall byte_ok bs -> 0 <= a -> 0 <= n -> a + n <= Z.of_nat (length bs) ->
  uint (8 * n) (from_le_bytes (slice bs a (a + n))).
Proof.
  intros Hb Ha Hn Hl. pose proof (slice_length bs a (a + n)) as Hsl.
  replace n with (Z.of_nat (length (slice bs a (a + n)))) at 1 by lia.
  by apply from_le_bytes_uint, slice_Forall.
Qed.

Lemma checked_add_usize `{Target} a b :
  a + b <= usize_max -> checked_add usize_bits a b = Some (a + b).
Proof.
  unfold usize_max, checked_add. intros ?. by rewrite (proj2 (Z.ltb_lt _ _)) by lia.
Qed.

(** ** The container *)
Definition field_ok (f : Z * list Z) : Prop := uint 16 f.1 /\ uint 32 (Z.of_nat (length f.2)).

(** What the writer must respect for its output to be readable. *)
Record writer_ok (w : SnapshotWriter.t) : Prop := {
  wo_id : length w.(SnapshotWriter.device_id) = 4%nat;
  wo_major : uint 16 w.(SnapshotWriter.device_version).(SnapshotVersion.major);
  wo_minor : uint 16 w.(SnapshotWriter.device_version).(SnapshotVersion.minor);
  wo_sorted : BTreeMap.sorted w.(SnapshotWriter.fields);
  wo_fields : Forall field_ok w.(SnapshotWriter.fields);
}.

Lemma new_writer_ok id v :
  length id = 4%nat -> uint 16 v.(SnapshotVersion.major) -> uint 16 v.(SnapshotVersion.minor) ->
  writer_ok (SnapshotWriter.new id v).
Proof. intros. split; try done; constructor. Qed.

Lemma field_bytes_ok w tag bs :
  writer_ok w -> uint 16 tag -> uint 32 (Z.of_nat (length bs)) ->
  writer_ok (SnapshotWriter.field_bytes w tag bs).
Proof.
  intros [? ? ? ? ?] ? ?. split; try done; simpl; [by apply BTreeMap.insert_sorted|].
  by apply BTreeMap.insert_Forall.
Qed.

Section Parse.
Context `{Target}.

Lemma field_tlv_length f : (6 <= length (SnapshotWriter.field_tlv f))%nat.
Proof. unfold SnapshotWriter.field_tlv. rewrite !length_app, !to_le_bytes_length. lia. Qed.

(** One iteration of the parser over one written field. *)
Lemma parse_field_step fuel pre tag data post fs :
  let tlv := SnapshotWriter.field_tlv (tag, data) in
  let bs := pre ++ tlv ++ post in
  Z.of_nat (length bs) <= usize_max -> field_ok (tag, data) ->
  Z.of_nat (length fs) < SnapshotReader.MAX_FIELDS -> BTreeMap.get tag fs = None ->
  SnapshotReader.parse_fields (S fuel) bs (Z.of_nat (length pre)) fs =
  SnapshotReader.parse_fields fuel bs (Z.of_nat (length (pre ++ tlv))) (BTreeMap.insert tag data fs).
Proof.
  intros tlv bs Hsz [Htag Hlen] Hn Hfresh. cbn [fst snd] in Htag, Hlen.
  set (lenb := to_le_bytes 4 (Z.of_nat (length data))).
  assert (tlv = to_le_bytes 2 tag ++ lenb ++ data) as Htlv.
  { unfold tlv, lenb, SnapshotWriter.field_tlv. cbn [fst snd]. by rewrite (wrap_small 32) by done. }
  assert (length lenb = 4%nat) as Hl4 by apply to_le_bytes_length.
  assert (length (to_le_bytes 2 tag) = 2%nat) as Hl2 by apply to_le_bytes_length.
  assert (length tlv = 6 + length data)%nat as Hlt by (rewrite Htlv, !length_app; lia).
  assert (length bs = length pre + length tlv + length post)%nat as Hbl
    by (unfold bs; rewrite !length_app; lia).
  set (p := Z.of_nat (length pre)).
  assert (slice bs p (p + 2) = to_le_bytes 2 tag) as E1.
  { unfold bs. rewrite Htlv, <- !app_assoc. apply slice_mid; lia. }
  assert (slice bs (p + 2) (p + 6) = lenb) as E2.
  { unfold bs. rewrite Htlv, <- !app_assoc, (app_assoc pre). apply slice_mid; rewrite ?length_app; lia. }
  assert (slice bs (p + 6) (p + 6 + Z.of_nat (length data)) = data) as E3.
  { unfold bs. rewrite Htlv, <- !app_assoc, (app_assoc pre), (app_assoc (pre ++ _)).
    apply slice_mid; rewrite ?length_app; lia. }
  cbn [SnapshotReader.parse_fields]. rewrite (proj2 (Z.ltb_lt p _)) by lia. cbn [negb].
  rewrite checked_add_usize by lia. cbn [ok_or result_bind].
  rewrite (proj2 (Z.ltb_ge _ _)), E1, E2 by lia. unfold lenb. rewrite !from_to_le_bytes_id by done.
  rewrite checked_add_usize by lia. cbn [ok_or result_bind].
  rewrite (proj2 (Z.ltb_ge _ _)), (proj2 (Z.leb_gt _ _)), Hfresh, E3 by lia.
  f_equal. rewrite length_app. lia.
Qed.

Lemma parse_fields_spec fuel pre m fs :
  let bs := pre ++ concat (map SnapshotWriter.field_tlv m) in
  Z.of_nat (length bs) <= usize_max -> Forall field_ok m -> BTreeMap.sorted (fs ++ m) ->
  Z.of_nat (length (fs ++ m)) <= SnapshotReader.MAX_FIELDS ->
  (length (concat (map SnapshotWriter.field_tlv m)) <= fuel)%nat ->
  SnapshotReader.parse_fields fuel bs (Z.of_nat (length pre)) fs = Ok (fs ++ m).
Proof.
  revert fuel pre fs. induction m as [|[tag data] m IH]; intros fuel pre fs bs Hsz Hok Hs Hn Hfuel.
  { unfold bs. simpl. rewrite !app_nil_r. destruct fuel; simpl; by rewrite Z.ltb_irrefl. }
  simpl in Hfuel. rewrite length_app in Hfuel. pose proof (field_tlv_length (tag, data)).
  destruct fuel as [|fuel]; [lia|]. apply Forall_cons in Hok as [Hf Hok].
  assert (Forall (fun k => k < tag) (map fst fs)) as Hlt.
  { apply Forall_forall. intros k Hk. unfold BTreeMap.sorted in Hs. rewrite map_app in Hs.
    eapply StronglySorted_app_1_elem_of; [exact Hs|done|by left]. }
  assert (BTreeMap.get tag fs = None) as Hfresh.
  { apply BTreeMap.get_None. intros Hin. apply (proj1 (Forall_forall _ _) Hlt) in Hin. lia. }
  rewrite length_app in Hn. cbn [length] in Hn. unfold bs in *. cbn [map concat] in *.
  rewrite parse_field_step, BTreeMap.insert_last by (done || lia).
  rewrite app_assoc, (app_assoc fs [_] m : fs ++ (tag, data) :: m = _).
  apply IH; rewrite <- ?app_assoc; try done; rewrite ?length_app; simpl; lia.
Qed.

(** The container round trip. *)
Lemma parse_finish w :
  writer_ok w -> Z.of_nat (length w.(SnapshotWriter.fields)) <= SnapshotReader.MAX_FIELDS ->
  Z.of_nat (length (SnapshotWriter.finish w)) <= usize_max ->
  SnapshotReader.parse (SnapshotWriter.finish w) w.(SnapshotWriter.device_id) =
  Ok (SnapshotReader.mk
        (SnapshotHeader.mk FORMAT_VERSION w.(SnapshotWriter.device_id) w.(SnapshotWriter.device_version))
        w.(SnapshotWriter.fields)).
Proof.
  intros [Hid Hmaj Hmin Hs Hok] Hn Hsz. destruct w as [id [maj min] m]. cbn -[SnapshotWriter.finish] in *.
  destruct id as [|i0 [|i1 [|i2 [|i3 [|]]]]]; try done. set (id := [i0; i1; i2; i3]) in *.
  set (hdr := MAGIC ++ to_le_bytes 2 1 ++ to_le_bytes 2 0 ++ id
              ++ to_le_bytes 2 maj ++ to_le_bytes 2 min).
  set (bs := SnapshotWriter.finish _) in *.
  assert (bs = hdr ++ concat (map SnapshotWriter.field_tlv m)) as Hbs by done.
  pose proof (parse_fields_spec (length bs) hdr m []) as Hp. cbn [app] in Hp. rewrite <- Hbs in Hp.
  assert (length bs = 16 + length (concat (map SnapshotWriter.field_tlv m)))%nat as Hbl
    by (rewrite Hbs; apply length_app).
  unfold SnapshotReader.parse. rewrite (proj2 (Z.ltb_ge _ _)) by (unfold HEADER_LEN; lia).
  assert (slice bs 0 4 = MAGIC) as -> by done. assert (slice bs 8 12 = id) as -> by done.
  assert (slice bs 4 6 = to_le_bytes 2 1) as -> by done.
  assert (slice bs 6 8 = to_le_bytes 2 0) as -> by done.
  assert (slice bs 12 14 = to_le_bytes 2 maj) as -> by done.
  assert (slice bs 14 16 = to_le_bytes 2 min) as -> by done.
  rewrite !from_to_le_bytes_id by done. rewrite !bool_decide_true by done. cbn [negb].
  change HEADER_LEN with (Z.of_nat (length hdr)). rewrite Hp by (done || lia). done.
Qed.

(** What the parser accepts is well formed. *)
Definition read_ok (f : Z * list Z) : Prop := field_ok f /\ Forall byte_ok f.2.

Lemma parse_fields_ok fuel bs off fs fs' :
  Forall byte_ok bs -> 0 <= off -> BTreeMap.sorted fs -> Forall read_ok fs ->
  Z.of_nat (length fs) <= SnapshotReader.MAX_FIELDS ->
  SnapshotReader.parse_fields fuel bs off fs = Ok fs' ->
  BTreeMap.sorted fs' /\ Forall read_ok fs' /\ Z.of_nat (length fs') <= SnapshotReader.MAX_FIELDS.
Proof.
  intros Hb. revert off fs. induction fuel as [|fuel IH]; intros off fs Ho Hs Hok Hn; simpl.
  { case_if; [|done]. by intros [= <-]. }
  case_if; [by intros [= <-]|]. unfold checked_add.
  case_if; [|done]. simpl. case_if; [done|]. case_if; [|done]. simpl. case_if; [done|].
  case_if; [done|]. destruct (BTreeMap.get _ _) eqn:Hg; [done|]. bool_hyps.
  pose proof (slice_uint bs off 2 Hb ltac:(lia) ltac:(lia) ltac:(lia)) as Htag.
  pose proof (slice_uint bs (off + 2) 4 Hb ltac:(lia) ltac:(lia) ltac:(lia)) as Hlen.
  replace (off + 2 + 4) with (off + 6) in Hlen by lia. set (n := from_le_bytes (slice bs (off + 2) _)) in *.
  assert (0 <= n < 2 ^ 32) as Hn32 by exact Hlen.
  apply IH.
  - lia.
  - by apply BTreeMap.insert_sorted.
  - apply BTreeMap.insert_Forall; [|done]. split; [|by apply slice_Forall]. split; [exact Htag|].
    unfold uint. cbn [snd]. rewrite slice_length by lia. lia.
  - rewrite BTreeMap.insert_length_fresh by done. lia.
Qed.

Lemma parse_ok bs id r :
  Forall byte_ok bs -> SnapshotReader.parse bs id = Ok r ->
  writer_ok (SnapshotWriter.mk id r.(SnapshotReader.header).(SnapshotHeader.device_version)
               r.(SnapshotReader.fields)) /\
  r.(SnapshotReader.header).(SnapshotHeader.device_id) = id /\
  Z.of_nat (length r.(SnapshotReader.fields)) <= SnapshotReader.MAX_FIELDS /\
  forall tag data, SnapshotReader.bytes r tag = Some data -> Forall byte_ok data.
Proof.
  intros Hb. unfold SnapshotReader.parse, HEADER_LEN. case_if; [done|]. case_if; [done|].
  case_if; [done|]. destruct (decide (slice bs 8 12 = id)) as [Hid|];
    [rewrite bool_decide_true by done|by rewrite bool_decide_false]. bool_hyps. cbn [negb].
  destruct (SnapshotReader.parse_fields _ _ _ _) as [fs|e] eqn:Hp; [|done]. intros [= <-]. simpl.
  apply parse_fields_ok in Hp as (Hs & Hok & Hn); [|done|lia|by constructor|done|done].
  assert (Forall field_ok fs) by (eapply Forall_impl; [exact Hok|]; by intros ? []).
  split_and!; [|done|done|].
  2:{ intros tag data Hd%BTreeMap.get_elem. rewrite Forall_forall in Hok. by apply Hok in Hd as [_ ?]. }
  pose proof (slice_length bs 8 12 ltac:(lia) ltac:(lia)).
  split; simpl; try done.
  - rewrite <- Hid. lia.
  - apply (slice_uint bs 12 2); done || lia.
  - apply (slice_uint bs 14 2); done || lia.
Qed.
End Parse.

(** ** The codec

    [ahead d rest]: the bytes [rest] are what the decoder has still to read. *)
Section Codec.
Context `{Target}.

Record ahead (d : Decoder.t) (rest : list Z) : Prop := {
  ah_pos : 0 <= d.(Decoder.offset) <= Z.of_nat (length d.(Decoder.buf));
  ah_size : Z.of_nat (length d.(Decoder.buf)) <= usize_max;
  ah_rest : drop (Z.to_nat d.(Decoder.offset)) d.(Decoder.buf) = rest;
}.

Lemma ahead_new bs : Z.of_nat (length bs) <= usize_max -> ahead (Decoder.new bs) bs.
Proof. intros. split; simpl; [lia|done|done]. Qed.

Lemma ahead_length d rest :
  ahead d rest -> Z.of_nat (length rest) = Z.of_nat (length d.(Decoder.buf)) - d.(Decoder.offset).
Proof. intros [? ? <-]. rewrite length_drop. lia. Qed.

(** [take] returns the next bytes, or fails at the end of the buffer without
    moving. *)
Lemma take_ahead d bs rest :
  ahead d (bs ++ rest) ->
  exists d', Decoder.take (Z.of_nat (length bs)) d = (Ok bs, d') /\ ahead d' rest.
Proof.
  intros Ha. pose proof (ahead_length _ _ Ha) as Hl. rewrite length_app in Hl.
  destruct Ha as [Hpos Hsz Hrest]. unfold Decoder.take.
  rewrite checked_add_usize by lia. rewrite (proj2 (Z.ltb_ge _ _)) by lia. eexists. split.
  - f_equal. f_equal. unfold slice. rewrite Hrest.
    replace (Z.to_nat _) with (length bs) by lia. apply take_app_length.
  - split; simpl; [lia|done|]. replace (Z.to_nat _) with (Z.to_nat d.(Decoder.offset) + length bs)%nat by lia.
    by rewrite <- drop_drop, Hrest, drop_app_length.
Qed.

Lemma take_short d rest n :
  ahead d rest -> Z.of_nat (length rest) < n -> Decoder.take n d = (Err UnexpectedEof, d).
Proof.
  intros Ha Hn. pose proof (ahead_length _ _ Ha) as Hl. destruct Ha as [Hpos Hsz Hrest].
  unfold Decoder.take. destruct (checked_add _ _ _) as [e|] eqn:He; [|done].
  unfold checked_add in He. case_if_in He; [|done]. simplify_eq.
  by rewrite (proj2 (Z.ltb_lt _ _)) by lia.
Qed.

Lemma take_map_ahead {A} (f : list Z -> A) n d bs rest :
  n = Z.of_nat (length bs) -> ahead d (bs ++ rest) ->
  exists d', (let! b := Decoder.take n in st_ret (f b)) d = (Ok (f bs), d') /\ ahead d' rest.
Proof.
  intros -> Ha. destruct (take_ahead _ _ _ Ha) as (d' & Ht & Ha').
  exists d'. split; [|done]. by rewrite (st_bind_ok _ _ _ _ _ Ht).
Qed.

Lemma u8_ahead d v rest :
  uint 8 v -> ahead d (v :: rest) -> exists d', Decoder.u8 d = (Ok v, d') /\ ahead d' rest.
Proof.
  intros Hv Ha. destruct (take_map_ahead from_le_bytes 1 d [v] rest eq_refl Ha) as (d' & Ht & Ha').
  exists d'. split; [|done]. unfold Decoder.u8. rewrite Ht. simpl. by rewrite Z.lor_0_r.
Qed.

Lemma bool_ahead d (v : bool) rest :
  ahead d ((if v then 1 else 0) :: rest) ->
  exists d', Decoder.bool d = (Ok v, d') /\ ahead d' rest.
Proof.
  intros Ha. destruct (u8_ahead d (if v then 1 else 0) rest) as (d' & Ht & Ha'); [by destruct v|done|].
  exists d'. split; [|done]. unfold Decoder.bool. rewrite (st_bind_ok _ _ _ _ _ Ht). by destruct v.
Qed.

Lemma uN_ahead (n : nat) d v rest :
  uint (8 * Z.of_nat n) v -> ahead d (to_le_bytes n v ++ rest) ->
  exists d', (let! b := Decoder.take (Z.of_nat n) in st_ret (from_le_bytes b)) d = (Ok v, d')
    /\ ahead d' rest.
Proof.
  intros Hv Ha. destruct (take_map_ahead from_le_bytes (Z.of_nat n) d (to_le_bytes n v) rest) as (d' & Ht & Ha').
  - by rewrite to_le_bytes_length.
  - done.
  - exists d'. by rewrite Ht, from_to_le_bytes_id.
Qed.

Definition u16_ahead := uN_ahead 2.
Definition u32_ahead := uN_ahead 4.
Definition u64_ahead := uN_ahead 8.

Lemma to_signed_wrap w v : 1 <= w -> - 2 ^ (w - 1) <= v < 2 ^ (w - 1) -> to_signed w (wrap w v) = v.
Proof.
  intros Hw Hv. assert (2 ^ w = 2 * 2 ^ (w - 1)) as Hp
    by (rewrite <- Z.pow_succ_r by lia; f_equal; lia).
  unfold to_signed, wrap. destruct (Z.leb_spec 0 v).
  - rewrite Z.mod_small by lia. rewrite (proj2 (Z.ltb_lt _ _)); lia.
  - replace (v mod 2 ^ w) with (v + 2 ^ w).
    + rewrite (proj2 (Z.ltb_ge _ _)); lia.
    + apply Z.mod_unique with (-1); lia.
Qed.

Lemma i32_ahead d v rest :
  - 2 ^ 31 <= v < 2 ^ 31 -> ahead d (to_le_bytes 4 (wrap 32 v) ++ rest) ->
  exists d', Decoder.i32 d = (Ok v, d') /\ ahead d' rest.
Proof.
  intros Hv Ha. destruct (take_map_ahead (fun b => to_signed 32 (from_le_bytes b)) 4 d
                            (to_le_bytes 4 (wrap 32 v)) rest eq_refl Ha) as (d' & Ht & Ha').
  exists d'. split; [|done]. unfold Decoder.i32. rewrite Ht, from_to_le_bytes_id by (apply uint_wrap; lia).
  by rewrite to_signed_wrap by lia.
Qed.

Lemma bytes_vec_ahead d bs rest :
  ahead d (bs ++ rest) ->
  exists d', Decoder.bytes_vec (Z.of_nat (length bs)) d = (Ok bs, d') /\ ahead d' rest.
Proof. intros Ha. by apply (take_map_ahead id). Qed.

Lemma vec_u8_ahead d bs rest :
  uint 32 (Z.of_nat (length bs)) -> ahead d (to_le_bytes 4 (Z.of_nat (length bs)) ++ bs ++ rest) ->
  exists d', Decoder.vec_u8 d = (Ok bs, d') /\ ahead d' rest.
Proof.
  intros Hl Ha. destruct (u32_ahead _ _ _ Hl Ha) as (d1 & Ht & Ha1).
  unfold Decoder.vec_u8. rewrite (st_bind_ok _ _ _ _ _ Ht). by apply bytes_vec_ahead.
Qed.

(** The encoding of one element of a [vec_bytes]. *)
Definition vec_item (v : list Z) : list Z := to_le_bytes 4 (wrap 32 (Z.of_nat (length v))) ++ v.

Lemma encode_vec_bytes vs e :
  Encoder.vec_bytes vs e =
  e ++ to_le_bytes 4 (wrap 32 (Z.of_nat (length vs))) ++ concat (map vec_item vs).
Proof.
  unfold Encoder.vec_bytes. rewrite app_assoc.
  change (e ++ to_le_bytes 4 _) with (Encoder.u32 (wrap 32 (Z.of_nat (length vs))) e).
  generalize (Encoder.u32 (wrap 32 (Z.of_nat (length vs))) e). intros e'. revert e'.
  induction vs as [|v vs IH]; intros e'; simpl; [by rewrite app_nil_r|].
  rewrite IH. unfold Encoder.u32, vec_item. by rewrite <- !app_assoc.
Qed.

Lemma vec_bytes_loop_ahead fuel vs out d rest :
  Forall (fun v => uint 32 (Z.of_nat (length v))) vs -> (length vs <= fuel)%nat ->
  ahead d (concat (map vec_item vs) ++ rest) ->
  exists d', Decoder.vec_bytes_loop fuel (Z.of_nat (length vs)) out d = (Ok (out ++ vs), d')
    /\ ahead d' rest.
Proof.
  revert fuel out d. induction vs as [|v vs IH]; intros fuel out d Hok Hf Ha.
  { exists d. rewrite app_nil_r. destruct fuel; done. }
  apply Forall_cons in Hok as [Hv Hok]. destruct fuel as [|fuel]; [simpl in Hf; lia|].
  cbn [map concat] in Ha. unfold vec_item at 1 in Ha. rewrite wrap_small, <- !app_assoc in Ha by done.
  destruct (u32_ahead _ _ _ Hv Ha) as (d1 & Ht1 & Ha1).
  destruct (bytes_vec_ahead _ _ _ Ha1) as (d2 & Ht2 & Ha2).
  cbn [Decoder.vec_bytes_loop length] in *. rewrite (proj2 (Z.eqb_neq _ 0)) by lia.
  rewrite (st_bind_ok _ _ _ _ _ Ht1), (st_bind_ok _ _ _ _ _ Ht2).
  replace (Z.of_nat (S (length vs)) - 1) with (Z.of_nat (length vs)) by lia.
  destruct (IH fuel (out ++ [v]) d2) as (d' & -> & Ha'); [done|lia|done|].
  exists d'. by rewrite <- app_assoc.
Qed.

Lemma vec_items_length vs : (length vs <= length (concat (map vec_item vs)))%nat.
Proof.
  induction vs as [|v vs IH]; simpl; [done|].
  assert (4 <= length (vec_item v))%nat
    by (unfold vec_item; rewrite length_app, to_le_bytes_length; lia).
  rewrite length_app. lia.
Qed.

Lemma vec_bytes_ahead d vs rest :
  uint 32 (Z.of_nat (length vs)) -> Forall (fun v => uint 32 (Z.of_nat (length v))) vs ->
  ahead d (Encoder.vec_bytes vs Encoder.new ++ rest) ->
  exists d', Decoder.vec_bytes d = (Ok vs, d') /\ ahead d' rest.
Proof.
  intros Hn Hok Ha. rewrite encode_vec_bytes in Ha. cbn [app Encoder.new] in Ha.
  rewrite wrap_small, <- app_assoc in Ha by done.
  pose proof (ahead_length _ _ Ha) as Hl. rewrite !length_app, to_le_bytes_length in Hl.
  pose proof (vec_items_length vs). pose proof (ah_pos _ _ Ha).
  destruct (u32_ahead _ _ _ Hn Ha) as (d1 & Ht & Ha1).
  unfold Decoder.vec_bytes. rewrite (st_bind_ok _ _ _ _ _ Ht).
  by apply (vec_bytes_loop_ahead _ _ []); [|lia|].
Qed.

Lemma finish_ahead d rest :
  ahead d rest ->
  Decoder.finish d = match rest with [] => Ok tt | _ => Err (InvalidFieldEncoding "trailing bytes") end.
Proof.
  intros Ha. pose proof (ahead_length _ _ Ha). unfold Decoder.finish.
  destruct rest; simpl in *.
  - by rewrite (proj2 (Z.eqb_eq _ _)) by lia.
  - by rewrite (proj2 (Z.eqb_neq _ _)) by lia.
Qed.

(** *** Loading a device field by field *)
Lemma assign_ok {P A} (set : A -> P -> P) op p d a d' :
  op d = (Ok a, d') -> assign set op (p, d) = (Ok tt, (set a p, d')).
Proof. intros Hop. unfold assign. by rewrite Hop. Qed.

(** [keeps I m]: the operation keeps [I], also when it fails. *)
Definition keeps {S E A} (I : S -> Prop) (m : st S E A) : Prop := forall s, I s -> I (m s).2.
(** [yields Q m]: and the value it returns satisfies [Q]. *)
Definition yields {S E A} (I : S -> Prop) (Q : A -> Prop) (m : st S E A) : Prop :=
  forall s, I s -> I (m s).2 /\ forall a, (m s).1 = Ok a -> Q a.

Lemma yields_keeps {S E A} I Q (m : st S E A) : yields I Q m -> keeps I m.
Proof. intros Hm s Hs. by apply Hm. Qed.

Lemma keeps_bind {S E A B} I (m : st S E A) (k : A -> st S E B) :
  keeps I m -> (forall a, keeps I (k a)) -> keeps I (let! a := m in k a).
Proof.
  intros Hm Hk s Hs. unfold st_bind. pose proof (Hm s Hs) as Hm'.
  destruct (m s) as [[a|e] s']; [by apply Hk|done].
Qed.

Lemma yields_bind {S E A B} I Q R (m : st S E A) (k : A -> st S E B) :
  yields I Q m -> (forall a, Q a -> yields I R (k a)) -> yields I R (let! a := m in k a).
Proof.
  intros Hm Hk s Hs. unfold st_bind. destruct (Hm s Hs) as [Hi Hq].
  destruct (m s) as [[a|e] s']; [by apply Hk; [apply Hq|]|]. split; [done|]. by intros a [=].
Qed.

Lemma yields_ret {S E A} I (Q : A -> Prop) a : Q a -> @yields S E A I Q (st_ret a).
Proof. intros Hq s Hs. split; [done|]. by intros ? [= <-]. Qed.

Lemma yields_err {S E A} I (Q : A -> Prop) e : @yields S E A I Q (st_err e).
Proof. intros s Hs. split; [done|]. by intros ? [=]. Qed.

Lemma yields_weaken {S E A} I (Q R : A -> Prop) (m : st S E A) :
  yields I Q m -> (forall a, Q a -> R a) -> yields I R m.
Proof. intros Hm Hqr s Hs. destruct (Hm s Hs). split; [done|]. intros. by apply Hqr; auto. Qed.

Definition dec_ok (d : Decoder.t) : Prop := Forall byte_ok d.(Decoder.buf) /\ 0 <= d.(Decoder.offset).

Lemma take_yields n :
  0 <= n -> yields dec_ok (fun bs => Forall byte_ok bs /\ Z.of_nat (length bs) = n) (Decoder.take n).
Proof.
  intros Hn d [Hb Ho]. unfold Decoder.take, checked_add. case_if; [|by split; [|intros ? [=]]].
  case_if; simpl; [by split; [|intros ? [=]]|]. bool_hyps. split; [split; simpl; [done|lia]|].
  intros bs [= <-]. split; [by apply slice_Forall|]. rewrite slice_length; lia.
Qed.

Lemma uN_yields (n : Z) :
  0 <= n -> yields dec_ok (uint (8 * n)) (let! b := Decoder.take n in st_ret (from_le_bytes b)).
Proof.
  intros Hn. eapply yields_bind; [by apply take_yields|]. intros bs [Hb <-].
  by apply yields_ret, from_le_bytes_uint.
Qed.

Lemma u8_yields : yields dec_ok (uint 8) Decoder.u8.
Proof. by apply (uN_yields 1). Qed.
Lemma u16_yields : yields dec_ok (uint 16) Decoder.u16.
Proof. by apply (uN_yields 2). Qed.
Lemma u32_yields : yields dec_ok (uint 32) Decoder.u32.
Proof. by apply (uN_yields 4). Qed.
Lemma u64_yields : yields dec_ok (uint 64) Decoder.u64.
Proof. by apply (uN_yields 8). Qed.
Lemma bool_yields : yields dec_ok (fun _ => True) Decoder.bool.
Proof.
  eapply yields_bind; [apply u8_yields|]. intros v _.
  repeat case_if; first [by apply yields_ret | apply yields_err].
Qed.

Lemma assign_keeps {P A} (I : P -> Prop) (Q : A -> Prop) (set : A -> P -> P) op :
  yields dec_ok Q op -> (forall a p, Q a -> I p -> I (set a p)) ->
  keeps (fun '(p, d) => I p /\ dec_ok d) (assign set op).
Proof.
  intros Hop Hset [p d] [Hp Hd]. unfold assign. destruct (Hop d Hd) as [Hd' Hq].
  destruct (op d) as [[a|e] d']; simpl in *; [|done]. split; [|done]. by apply Hset; [apply Hq|].
Qed.
End Codec.

Create HintDb snapshot.
#[export] Hint Resolve u8_yields u16_yields u32_yields u64_yields bool_yields : snapshot.

(** ** Snapshots of a device as a list of tagged fields *)

(** The puts a device makes, in order. *)
Definition put_all (w : SnapshotWriter.t) (puts : list (Z * list Z)) : SnapshotWriter.t :=
  fold_left (fun w f => SnapshotWriter.field_bytes w f.1 f.2) puts w.

Lemma put_all_ok w puts : writer_ok w -> Forall field_ok puts -> writer_ok (put_all w puts).
Proof.
  intros Hw Hp. revert w Hw. induction Hp as [|f puts [Ht Hl] Hp IH]; intros w Hw; simpl; [done|].
  apply IH. by apply field_bytes_ok.
Qed.

Lemma sized_some n msg r tag bs v :
  SnapshotReader.bytes r tag = Some bs -> length bs = n -> from_le_bytes bs = v ->
  SnapshotReader.sized n msg r tag = Ok (Some v).
Proof. intros Hb Hl <-. unfold SnapshotReader.sized. by rewrite Hb, Hl, Nat.eqb_refl. Qed.

Lemma sized_uint n msg r tag v :
  (forall data, SnapshotReader.bytes r tag = Some data -> Forall byte_ok data) ->
  SnapshotReader.sized n msg r tag = Ok (Some v) -> uint (8 * Z.of_nat n) v.
Proof.
  intros Hb. unfold SnapshotReader.sized. destruct (SnapshotReader.bytes r tag) as [bs|]; [|done].
  destruct (Nat.eqb_spec (length bs) n) as [<-|]; [|done]. intros [= <-].
  by apply from_le_bytes_uint, Hb.
Qed.

Lemma saved_u32 r tag v :
  SnapshotReader.bytes r tag = Some (to_le_bytes 4 v) -> uint 32 v -> SnapshotReader.u32 r tag = Ok (Some v).
Proof. intros Hb Hv. by eapply sized_some; [exact Hb|apply to_le_bytes_length|apply from_to_le_bytes_id]. Qed.
Lemma saved_u8 r tag v : SnapshotReader.bytes r tag = Some [v] -> SnapshotReader.u8 r tag = Ok (Some v).
Proof. intros Hb. eapply sized_some; [exact Hb|done|]. simpl. by rewrite Z.lor_0_r. Qed.

Lemma load_opt_some {S A} (set : A -> S -> S) o a s : o = Ok (Some a) -> load_opt set o s = (Ok tt, set a s).
Proof. by intros ->. Qed.

Lemma load_opt_keeps {S A} (I : S -> Prop) (Q : A -> Prop) (set : A -> S -> S) o :
  (forall a, o = Ok (Some a) -> Q a) -> (forall a s, Q a -> I s -> I (set a s)) ->
  keeps I (load_opt set o).
Proof.
  intros Ho Hset s Hs. destruct o as [[a|]|e]; simpl; [|done..]. by apply Hset; [apply Ho|].
Qed.
