(* ===== verification/Pic.v ===== *)
(** * 8259A interrupt controllers (crates/aero-interrupts/src/pic8259.rs)

    One controller ([Pic8259]), the cascaded pair of the PC ([DualPic8259]) and
    its snapshot.  [uN] fields are integers; methods on [&mut self] return the
    new state. *)

From S2P Require Import Prelude Bytes Collections Snapshot.

Abbreviation MASTER_CMD := (0x20) (only parsing).
Abbreviation MASTER_DATA := (0x21) (only parsing).
Abbreviation SLAVE_CMD := (0xA0) (only parsing).
Abbreviation SLAVE_DATA := (0xA1) (only parsing).

Module InitState.
Inductive t := Idle (* InitState::None *) | Icw2 | Icw3 | Icw4.
#[export] Instance eq_dec : EqDecision t.
Proof. solve_decision. Defined.
End InitState.

Module Pic8259.
Record t := mk {
  imr : Z;
  irr : Z;
  isr : Z;
  line_level : Z;
  vector_base : Z;
  icw3 : Z;
  read_isr : bool;
  level_triggered : bool;
  auto_eoi : bool;
  single : bool;
  init_state : InitState.t;
  expect_icw4 : bool;
  lowest_priority : Z;
}.

Definition new_power_on : t :=
  mk 0xFF 0 0 0 0 0 false false false true InitState.Idle false 7.

(** Field assignments. *)
Definition with_imr v p := mk v p.(irr) p.(isr) p.(line_level) p.(vector_base) p.(icw3) p.(read_isr)
  p.(level_triggered) p.(auto_eoi) p.(single) p.(init_state) p.(expect_icw4) p.(lowest_priority).
Definition with_irr v p := mk p.(imr) v p.(isr) p.(line_level) p.(vector_base) p.(icw3) p.(read_isr)
  p.(level_triggered) p.(auto_eoi) p.(single) p.(init_state) p.(expect_icw4) p.(lowest_priority).
Definition with_isr v p := mk p.(imr) p.(irr) v p.(line_level) p.(vector_base) p.(icw3) p.(read_isr)
  p.(level_triggered) p.(auto_eoi) p.(single) p.(init_state) p.(expect_icw4) p.(lowest_priority).
Definition with_line_level v p := mk p.(imr) p.(irr) p.(isr) v p.(vector_base) p.(icw3) p.(read_isr)
  p.(level_triggered) p.(auto_eoi) p.(single) p.(init_state) p.(expect_icw4) p.(lowest_priority).
Definition with_vector_base v p := mk p.(imr) p.(irr) p.(isr) p.(line_level) v p.(icw3) p.(read_isr)
  p.(level_triggered) p.(auto_eoi) p.(single) p.(init_state) p.(expect_icw4) p.(lowest_priority).
Definition with_icw3 v p := mk p.(imr) p.(irr) p.(isr) p.(line_level) p.(vector_base) v p.(read_isr)
  p.(level_triggered) p.(auto_eoi) p.(single) p.(init_state) p.(expect_icw4) p.(lowest_priority).
Definition with_read_isr v p := mk p.(imr) p.(irr) p.(isr) p.(line_level) p.(vector_base) p.(icw3) v
  p.(level_triggered) p.(auto_eoi) p.(single) p.(init_state) p.(expect_icw4) p.(lowest_priority).
Definition with_level_triggered v p := mk p.(imr) p.(irr) p.(isr) p.(line_level) p.(vector_base) p.(icw3)
  p.(read_isr) v p.(auto_eoi) p.(single) p.(init_state) p.(expect_icw4) p.(lowest_priority).
Definition with_auto_eoi v p := mk p.(imr) p.(irr) p.(isr) p.(line_level) p.(vector_base) p.(icw3)
  p.(read_isr) p.(level_triggered) v p.(single) p.(init_state) p.(expect_icw4) p.(lowest_priority).
Definition with_single v p := mk p.(imr) p.(irr) p.(isr) p.(line_level) p.(vector_base) p.(icw3)
  p.(read_isr) p.(level_triggered) p.(auto_eoi) v p.(init_state) p.(expect_icw4) p.(lowest_priority).
Definition with_init_state v p := mk p.(imr) p.(irr) p.(isr) p.(line_level) p.(vector_base) p.(icw3)
  p.(read_isr) p.(level_triggered) p.(auto_eoi) p.(single) v p.(expect_icw4) p.(lowest_priority).
Definition with_expect_icw4 v p := mk p.(imr) p.(irr) p.(isr) p.(line_level) p.(vector_base) p.(icw3)
  p.(read_isr) p.(level_triggered) p.(auto_eoi) p.(single) p.(init_state) v p.(lowest_priority).
Definition with_lowest_priority v p := mk p.(imr) p.(irr) p.(isr) p.(line_level) p.(vector_base) p.(icw3)
  p.(read_isr) p.(level_triggered) p.(auto_eoi) p.(single) p.(init_state) p.(expect_icw4) v.

Definition irq_priority_order (p : t) : list Z :=
  let base := p.(lowest_priority) &&& 7 in
  map (fun i => wrapping_add 8 base i &&& 7) [1; 2; 3; 4; 5; 6; 7; 8].

Definition highest_in_service (p : t) : option Z :=
  find (fun irq => nz (p.(isr) &&& (1 <<< irq))) (irq_priority_order p).

Definition command_read (p : t) : Z := if p.(read_isr) then p.(isr) else p.(irr).
Definition data_read (p : t) : Z := p.(imr).

Definition refresh_level_triggered_irr (p : t) : t :=
  let p := with_irr (p.(irr) ||| (p.(line_level) &&& unot 8 p.(isr))) p in
  with_irr (p.(irr) &&& (p.(line_level) ||| p.(isr))) p.

Definition write_command (p : t) (val : Z) : t :=
  if nz (val &&& 0x10) then
    (* ICW1 *)
    mk 0x00 0 0 0 p.(vector_base) p.(icw3) false (nz (val &&& 0x08)) false (nz (val &&& 0x02))
      InitState.Icw2 (nz (val &&& 0x01)) 7
  else if nz (val &&& 0x08) then
    (* OCW3 *)
    if nz (val &&& 0x02) then with_read_isr (nz (val &&& 0x01)) p else p
  else if nz (val &&& 0x20) then
    (* OCW2: end of interrupt *)
    let rotate := nz (val &&& 0x80) in
    let specific := nz (val &&& 0x40) in
    let '(p, cleared) :=
      if specific then
        let level := val &&& 0x07 in
        (with_isr (p.(isr) &&& unot 8 (1 <<< level)) p, Some level)
      else
        match highest_in_service p with
        | Some level => (with_isr (p.(isr) &&& unot 8 (1 <<< level)) p, Some level)
        | None => (p, None)
        end in
    let p :=
      if rotate then
        match cleared with
        | Some level => with_lowest_priority (level &&& 7) p
        | None => p
        end
      else p in
    if p.(level_triggered) then refresh_level_triggered_irr p else p
  else if (val &&& 0xC0) =? 0xC0 then with_lowest_priority (val &&& 0x07) p
  else p.

Definition write_data (p : t) (val : Z) : t :=
  match p.(init_state) with
  | InitState.Icw2 =>
      let p := with_vector_base (val &&& 0xF8) p in
      if p.(single) then
        with_init_state (if p.(expect_icw4) then InitState.Icw4 else InitState.Idle) p
      else with_init_state InitState.Icw3 p
  | InitState.Icw3 =>
      let p := with_icw3 val p in
      with_init_state (if p.(expect_icw4) then InitState.Icw4 else InitState.Idle) p
  | InitState.Icw4 => with_init_state InitState.Idle (with_auto_eoi (nz (val &&& 0x02)) p)
  | InitState.Idle => with_imr val p
  end.

Definition set_irq_level (p : t) (irq : Z) (level : bool) : t :=
  let mask := 1 <<< irq in
  if level then
    let p := if (p.(line_level) &&& mask) =? 0 then
               if negb p.(level_triggered) then with_irr (p.(irr) ||| mask) p else p
             else p in
    let p := with_line_level (p.(line_level) ||| mask) p in
    if p.(level_triggered) then refresh_level_triggered_irr p else p
  else
    let p := with_line_level (p.(line_level) &&& unot 8 mask) p in
    if p.(level_triggered) then refresh_level_triggered_irr p else p.

Fixpoint pending_loop (order : list Z) (highest : option Z) (pending : Z) : option Z :=
  match order with
  | [] => None
  | irq :: order =>
      if bool_decide (Some irq = highest) then None
      else if nz (pending &&& (1 <<< irq)) then Some irq
      else pending_loop order highest pending
  end.

Definition pending_irq_with_extra_irr (p : t) (extra_irr : Z) : option Z :=
  let pending := (p.(irr) ||| extra_irr) &&& unot 8 p.(imr) in
  if pending =? 0 then None
  else pending_loop (irq_priority_order p) (highest_in_service p) pending.

Definition pending_irq (p : t) : option Z := pending_irq_with_extra_irr p 0.
Definition is_irq_requested (p : t) (irq : Z) : bool := nz (p.(irr) &&& (1 <<< irq)).

Definition acknowledge_irq (p : t) (irq : Z) : bool * t :=
  let mask := 1 <<< irq in
  if (p.(irr) &&& mask) =? 0 then (false, p)
  else
    let p := with_irr (p.(irr) &&& unot 8 mask) p in
    let p := if negb p.(auto_eoi) then with_isr (p.(isr) ||| mask) p else p in
    let p := if p.(level_triggered) then refresh_level_triggered_irr p else p in
    (true, p).

Definition force_in_service (p : t) (irq : Z) : t :=
  if p.(auto_eoi) then p
  else
    let p := with_isr (p.(isr) ||| (1 <<< irq)) p in
    if p.(level_triggered) then refresh_level_triggered_irr p else p.
End Pic8259.

(** [val.trailing_zeros()] of a [u8]. *)
Definition trailing_zeros8 (val : Z) : Z :=
  match find (fun i => Z.testbit val i) [0; 1; 2; 3; 4; 5; 6; 7] with Some i => i | None => 8 end.

Definition lowest_set_bit (val : Z) : option Z :=
  if val =? 0 then None else Some (trailing_zeros8 val).

Module DualPic8259.
Record t := mk { master : Pic8259.t; slave : Pic8259.t }.
Definition with_master m d := mk m d.(slave).
Definition with_slave s d := mk d.(master) s.

Definition new : t := mk Pic8259.new_power_on Pic8259.new_power_on.

Definition vector_bases (d : t) : Z * Z :=
  (d.(master).(Pic8259.vector_base), d.(slave).(Pic8259.vector_base)).

Definition cascade_line (d : t) : option Z :=
  if d.(master).(Pic8259.single) || d.(slave).(Pic8259.single)
     || (d.(master).(Pic8259.icw3) =? 0) then None
  else
    let slave_id := d.(slave).(Pic8259.icw3) &&& 0x07 in
    if nz (d.(master).(Pic8259.icw3) &&& (1 <<< slave_id)) then Some slave_id
    else lowest_set_bit d.(master).(Pic8259.icw3).

Definition slave_interrupt_output (d : t) : bool :=
  bool_decide (is_Some (Pic8259.pending_irq d.(slave))).

Definition get_pending_vector (d : t) : option Z :=
  let '(cascade_line, cascade_bit, slave_pending) :=
    match cascade_line d with
    | Some line =>
        let pending := Pic8259.pending_irq d.(slave) in
        let bit := match pending with Some _ => 1 <<< line | None => 0 end in
        (line, bit, pending)
    | None => (0, 0, None)
    end in
  match Pic8259.pending_irq_with_extra_irr d.(master) cascade_bit with
  | None => None
  | Some master_irq =>
      let from_master := Some (d.(master).(Pic8259.vector_base) ||| master_irq) in
      if nz cascade_bit && (master_irq =? cascade_line) then
        match slave_pending with
        | Some slave_irq => Some (d.(slave).(Pic8259.vector_base) ||| slave_irq)
        | None => from_master
        end
      else from_master
  end.

Definition acknowledge (d : t) (vector : Z) : option Z * t :=
  if (vector &&& 0xF8) =? d.(slave).(Pic8259.vector_base) then
    let irq := vector &&& 0x07 in
    let cascade_line := default 2 (cascade_line d) in
    match Pic8259.acknowledge_irq d.(slave) irq with
    | (true, s) =>
        let m := Pic8259.force_in_service d.(master) cascade_line in
        let m := Pic8259.with_irr (m.(Pic8259.irr) &&& unot 8 (1 <<< cascade_line)) m in
        (Some (8 + irq), mk m s)
    | (false, s) =>
        if irq =? 7 then (None, mk (Pic8259.force_in_service d.(master) cascade_line) s)
        else (None, mk d.(master) s)
    end
  else if (vector &&& 0xF8) =? d.(master).(Pic8259.vector_base) then
    let irq := vector &&& 0x07 in
    if (irq =? 7) && negb (Pic8259.is_irq_requested d.(master) 7) then (None, d)
    else
      match Pic8259.acknowledge_irq d.(master) irq with
      | (true, m) => (Some irq, with_master m d)
      | (false, m) => (None, with_master m d)
      end
  else (None, d).

Definition set_irq (d : t) (irq : Z) (level : bool) : t :=
  if irq <=? 7 then with_master (Pic8259.set_irq_level d.(master) irq level) d
  else if irq <=? 15 then with_slave (Pic8259.set_irq_level d.(slave) (irq - 8) level) d
  else d.
Definition raise_irq (d : t) (irq : Z) : t := set_irq d irq true.
Definition lower_irq (d : t) (irq : Z) : t := set_irq d irq false.

Definition port_read_u8 (d : t) (port : Z) : Z :=
  if port =? MASTER_CMD then
    if d.(master).(Pic8259.read_isr) then d.(master).(Pic8259.isr)
    else
      match cascade_line d with
      | Some cascade_line =>
          if slave_interrupt_output d
          then d.(master).(Pic8259.irr) ||| (1 <<< cascade_line)
          else d.(master).(Pic8259.irr)
      | None => d.(master).(Pic8259.irr)
      end
  else if port =? MASTER_DATA then Pic8259.data_read d.(master)
  else if port =? SLAVE_CMD then Pic8259.command_read d.(slave)
  else if port =? SLAVE_DATA then Pic8259.data_read d.(slave)
  else 0xFF.

Definition port_write_u8 (d : t) (port val : Z) : t :=
  if port =? MASTER_CMD then with_master (Pic8259.write_command d.(master) val) d
  else if port =? MASTER_DATA then with_master (Pic8259.write_data d.(master) val) d
  else if port =? SLAVE_CMD then with_slave (Pic8259.write_command d.(slave) val) d
  else if port =? SLAVE_DATA then with_slave (Pic8259.write_data d.(slave) val) d
  else d.
End DualPic8259.

(** ** Snapshot *)
Module PicSnapshot.
Abbreviation TAG_MASTER := (1) (only parsing).
Abbreviation TAG_SLAVE := (2) (only parsing).
(** [*b"PIC9"] *)
Abbreviation DEVICE_ID := ([0x50; 0x49; 0x43; 0x39]) (only parsing).
Abbreviation DEVICE_VERSION := (SnapshotVersion.new 1 0) (only parsing).

Definition init_state_code (s : InitState.t) : Z :=
  match s with InitState.Idle => 0 | InitState.Icw2 => 1 | InitState.Icw3 => 2 | InitState.Icw4 => 3 end.

Definition encode_pic (p : Pic8259.t) : list Z :=
  Encoder.finish
    (Encoder.u8 p.(Pic8259.lowest_priority)
    (Encoder.bool p.(Pic8259.expect_icw4)
    (Encoder.u8 (init_state_code p.(Pic8259.init_state))
    (Encoder.bool p.(Pic8259.single)
    (Encoder.bool p.(Pic8259.auto_eoi)
    (Encoder.bool p.(Pic8259.level_triggered)
    (Encoder.bool p.(Pic8259.read_isr)
    (Encoder.u8 p.(Pic8259.icw3)
    (Encoder.u8 p.(Pic8259.vector_base)
    (Encoder.u8 p.(Pic8259.line_level)
    (Encoder.u8 p.(Pic8259.isr)
    (Encoder.u8 p.(Pic8259.irr)
    (Encoder.u8 p.(Pic8259.imr) Encoder.new))))))))))))).

Definition save_state (d : DualPic8259.t) : list Z :=
  let w := SnapshotWriter.new DEVICE_ID DEVICE_VERSION in
  let w := SnapshotWriter.field_bytes w TAG_MASTER (encode_pic d.(DualPic8259.master)) in
  let w := SnapshotWriter.field_bytes w TAG_SLAVE (encode_pic d.(DualPic8259.slave)) in
  SnapshotWriter.finish w.

Section Load.
Context `{Target}.

Definition read_init_state : st Decoder.t SnapshotError InitState.t :=
  let! v := Decoder.u8 in
  if v =? 0 then st_ret InitState.Idle
  else if v =? 1 then st_ret InitState.Icw2
  else if v =? 2 then st_ret InitState.Icw3
  else if v =? 3 then st_ret InitState.Icw4
  else st_err (InvalidFieldEncoding "pic init_state").

Definition decode_fields : st (Pic8259.t * Decoder.t) SnapshotError unit :=
  let! _ := assign Pic8259.with_imr Decoder.u8 in
  let! _ := assign Pic8259.with_irr Decoder.u8 in
  let! _ := assign Pic8259.with_isr Decoder.u8 in
  let! _ := assign Pic8259.with_line_level Decoder.u8 in
  let! _ := assign (fun v => Pic8259.with_vector_base (v &&& 0xF8)) Decoder.u8 in
  let! _ := assign Pic8259.with_icw3 Decoder.u8 in
  let! _ := assign Pic8259.with_read_isr Decoder.bool in
  let! _ := assign Pic8259.with_level_triggered Decoder.bool in
  let! _ := assign Pic8259.with_auto_eoi Decoder.bool in
  let! _ := assign Pic8259.with_single Decoder.bool in
  let! _ := assign Pic8259.with_init_state read_init_state in
  let! _ := assign Pic8259.with_expect_icw4 Decoder.bool in
  let! _ := assign (fun v => Pic8259.with_lowest_priority (v &&& 7)) Decoder.u8 in
  fun '(p, d) => (Decoder.finish d, (p, d)).

Definition decode_pic (buf : list Z) : st Pic8259.t SnapshotError unit := fun p =>
  let '(r, (p, _)) := decode_fields (p, Decoder.new buf) in (r, p).

(** [if let Some(buf) = r.bytes(TAG) { decode_pic(..)? }] *)
Definition load_field (r : SnapshotReader.t) (tag : Z) : st Pic8259.t SnapshotError unit :=
  match SnapshotReader.bytes r tag with
  | Some buf => decode_pic buf
  | None => st_ret tt
  end.

Definition load_state (bytes : list Z) : st DualPic8259.t SnapshotError unit := fun d =>
  match SnapshotReader.parse bytes DEVICE_ID with
  | Err e => (Err e, d)
  | Ok r =>
      match SnapshotReader.ensure_device_major r DEVICE_VERSION.(SnapshotVersion.major) with
      | Err e => (Err e, d)
      | Ok _ =>
          let d := DualPic8259.new in
          match load_field r TAG_MASTER d.(DualPic8259.master) with
          | (Err e, m) => (Err e, DualPic8259.with_master m d)
          | (Ok _, m) =>
              let d := DualPic8259.with_master m d in
              let '(res, s) := load_field r TAG_SLAVE d.(DualPic8259.slave) in
              (res, DualPic8259.with_slave s d)
          end
      end
  end.

Definition io_snapshot : IoSnapshot DualPic8259.t := {|
  Snapshot.DEVICE_ID := DEVICE_ID;
  Snapshot.DEVICE_VERSION := DEVICE_VERSION;
  Snapshot.save_state := save_state;
  Snapshot.load_state := load_state;
|}.
End Load.
End PicSnapshot.
