(* ===== verification/PicFacts.v ===== *)
(** * Facts about the 8259A model: priorities, delivery, well-formedness *)

From S2P Require Import Prelude Bytes Collections Snapshot SnapshotFacts Pic.
Import Pic8259.

(** ** Bits *)
Lemma nz_land_bit x i : 0 <= i -> nz (x &&& (1 <<< i)) = Z.testbit x i.
Proof. intros. rewrite Z.shiftl_1_l. by apply nz_land_pow2. Qed.

Lemma land_bit_eqb x i : 0 <= i -> (x &&& (1 <<< i) =? 0) = negb (Z.testbit x i).
Proof. intros. rewrite <- nz_land_bit by done. by rewrite negb_involutive. Qed.

Lemma testbit_bit i j : 0 <= i -> Z.testbit (1 <<< i) j = (i =? j).
Proof. intros. rewrite Z.shiftl_1_l. by apply testbit_pow2. Qed.

Lemma uint_bit w i : 0 <= i < w -> uint w (1 <<< i).
Proof.
  intros. rewrite Z.shiftl_1_l. split; [apply Z.pow_nonneg; lia|]. by apply Z.pow_lt_mono_r; lia.
Qed.

Lemma land7_range x : 0 <= x &&& 7 < 8.
Proof. change 7 with (Z.ones 3). rewrite land_ones_mod by lia. apply Z.mod_pos_bound. lia. Qed.

Lemma land7_id x : 0 <= x < 8 -> x &&& 7 = x.
Proof. intros. change 7 with (Z.ones 3). rewrite land_ones_mod by lia. by apply Z.mod_small. Qed.

Lemma testbit_u8_range x i : uint 8 x -> Z.testbit x i = true -> 0 <= i < 8.
Proof.
  intros Hx Hi. destruct (Z.leb_spec 0 i); [|by rewrite Z.testbit_neg_r in Hi].
  destruct (Z.ltb_spec i 8); [done|]. by rewrite (testbit_high 8 x) in Hi by (done || lia).
Qed.

(** ** Well-formed states *)
Record pic_ok (p : t) : Prop := {
  po_imr : uint 8 p.(imr);
  po_irr : uint 8 p.(irr);
  po_isr : uint 8 p.(isr);
  po_line : uint 8 p.(line_level);
  po_base : uint 8 p.(vector_base) /\ p.(vector_base) &&& 0xF8 = p.(vector_base);
  po_icw3 : uint 8 p.(icw3);
  po_lowest : 0 <= p.(lowest_priority) < 8;
}.

Definition dual_ok (d : DualPic8259.t) : Prop :=
  pic_ok d.(DualPic8259.master) /\ pic_ok d.(DualPic8259.slave).

(** In level-triggered mode a request needs its line or its service bit. *)
Definition level_ok (p : t) : Prop :=
  p.(level_triggered) = true ->
  forall i, 0 <= i -> Z.testbit p.(irr) i = true ->
    Z.testbit p.(line_level) i = true \/ Z.testbit p.(isr) i = true.

(** ** Priorities

    [rank p i] is the position of [i] in the rotation that starts after the
    lowest-priority input: 0 is the highest priority. *)
Definition rank (p : t) (i : Z) : Z := (i - p.(lowest_priority) - 1) mod 8.

Lemma rank_range p i : 0 <= rank p i < 8.
Proof. apply Z.mod_pos_bound. lia. Qed.

Definition irqs : list Z := [0; 1; 2; 3; 4; 5; 6; 7].
Lemma irqs_elem i : 0 <= i < 8 -> i ∈ irqs.
Proof. intros. unfold irqs. rewrite !elem_of_cons. lia. Qed.

Definition order_from (lp : Z) : list Z :=
  map (fun i => wrapping_add 8 (lp &&& 7) i &&& 7) [1; 2; 3; 4; 5; 6; 7; 8].

Lemma order_table lp i :
  0 <= lp < 8 -> 0 <= i < 8 ->
  order_from lp !! Z.to_nat ((i - lp - 1) mod 8) = Some i /\ NoDup (order_from lp).
Proof.
  intros Hlp Hi.
  assert (Forall (fun lp => Forall (fun i =>
            order_from lp !! Z.to_nat ((i - lp - 1) mod 8) = Some i /\ NoDup (order_from lp)) irqs) irqs)
    as Htab by (apply (bool_decide_unpack _); vm_compute; exact I).
  apply irqs_elem in Hlp, Hi. rewrite Forall_forall in Htab. apply Htab in Hlp.
  rewrite Forall_forall in Hlp. by apply Hlp.
Qed.

Lemma order_rank p i :
  pic_ok p -> 0 <= i < 8 -> irq_priority_order p !! Z.to_nat (rank p i) = Some i.
Proof. intros Hp Hi. by apply order_table; [apply Hp|]. Qed.

Lemma order_lookup p k i :
  pic_ok p -> irq_priority_order p !! k = Some i -> 0 <= i < 8 /\ Z.of_nat k = rank p i.
Proof.
  intros Hp Hk. assert (0 <= i < 8) as Hi.
  { apply list_elem_of_lookup_2, list_elem_of_In, in_map_iff in Hk as (x & <- & _). apply land7_range. }
  split; [done|]. pose proof (order_rank p i Hp Hi) as Hr.
  pose proof (proj2 (order_table p.(lowest_priority) i (po_lowest _ Hp) Hi)) as Hnd.
  pose proof (NoDup_lookup _ _ _ _ Hnd Hk Hr). pose proof (rank_range p i). lia.
Qed.

(** The scan for the interrupt to deliver, without the highest-in-service
    lookup: walk down the priorities, stop at the first input in service. *)
Fixpoint first_unblocked (serv pend : Z -> bool) (l : list Z) : option Z :=
  match l with
  | [] => None
  | x :: l => if serv x then None else if pend x then Some x else first_unblocked serv pend l
  end.

Lemma pending_loop_first l serv pending :
  pending_loop l (find serv l) pending = first_unblocked serv (fun i => nz (pending &&& (1 <<< i))) l.
Proof.
  induction l as [|x l IH]; simpl; [done|]. destruct (serv x) eqn:Hs.
  - by rewrite bool_decide_true.
  - rewrite bool_decide_false; [by rewrite IH|].
    intros Hx. symmetry in Hx. apply find_some in Hx as [_ Hx]. congruence.
Qed.

Lemma first_unblocked_Some serv pend l i :
  first_unblocked serv pend l = Some i <->
  exists k, l !! k = Some i /\ serv i = false /\ pend i = true /\
    forall k' j, (k' < k)%nat -> l !! k' = Some j -> serv j = false /\ pend j = false.
Proof.
  induction l as [|x l IH]; simpl.
  { split; [done|]. intros (k & Hk & _). by rewrite lookup_nil in Hk. }
  split.
  - destruct (serv x) eqn:Hs; [done|]. destruct (pend x) eqn:Hp.
    + intros [= ->]. exists 0%nat. split_and!; try done. lia.
    + intros (k & Hk & Hsi & Hpi & Hlt)%IH. exists (S k). split_and!; try done.
      intros [|k'] j Hk' Hj; [by simplify_eq/=|]. apply (Hlt k'); [lia|done].
  - intros ([|k] & Hk & Hsi & Hpi & Hlt); simpl in Hk.
    + simplify_eq. by rewrite Hsi, Hpi.
    + destruct (Hlt 0%nat x) as [-> ->]; [lia|done|]. apply IH. exists k. split_and!; try done.
      intros k' j Hk' Hj. apply (Hlt (S k')); [lia|done].
Qed.

(** An input that asks for service and is not masked. *)
Definition asks (p : t) (extra i : Z) : bool :=
  (Z.testbit p.(irr) i || Z.testbit extra i) && negb (Z.testbit p.(imr) i).

(** [i] is the interrupt to deliver: it asks, and every other input that asks
    or is in service has lower priority. *)
Definition deliverable (p : t) (extra i : Z) : Prop :=
  0 <= i < 8 /\ asks p extra i = true /\
  forall j, 0 <= j < 8 ->
    (Z.testbit p.(isr) j = true -> rank p i < rank p j) /\
    (asks p extra j = true -> j = i \/ rank p i < rank p j).

Lemma asks_bit p extra i :
  pic_ok p -> uint 8 extra -> 0 <= i < 8 ->
  nz (((p.(irr) ||| extra) &&& unot 8 p.(imr)) &&& (1 <<< i)) = asks p extra i.
Proof.
  intros Hp He Hi. rewrite nz_land_bit by lia. unfold asks.
  by rewrite Z.land_spec, Z.lor_spec, unot_spec, (proj2 (Z.ltb_lt _ _)) by lia.
Qed.

Lemma pending_exact p extra i :
  pic_ok p -> uint 8 extra -> pending_irq_with_extra_irr p extra = Some i <-> deliverable p extra i.
Proof.
  intros Hp He. unfold pending_irq_with_extra_irr.
  set (pending := (p.(irr) ||| extra) &&& unot 8 p.(imr)).
  assert (forall j, 0 <= j < 8 -> nz (pending &&& (1 <<< j)) = asks p extra j) as Hask
    by (intros; by apply asks_bit).
  destruct (Z.eqb_spec pending 0) as [H0|_].
  { split; [done|]. intros (Hi & Ha & _). rewrite <- Hask, H0, Z.land_0_l in Ha by done. done. }
  unfold highest_in_service. rewrite pending_loop_first, first_unblocked_Some. split.
  - intros (k & Hk & Hsi & Hpi & Hlt). destruct (order_lookup p k i Hp Hk) as [Hi Hki].
    rewrite nz_land_bit in Hsi by lia. rewrite Hask in Hpi by done.
    split; [done|split; [done|]]. intros j Hj. destruct (Z.lt_trichotomy (rank p j) (rank p i)) as [Hr|[Hr|Hr]]; [| |split; by auto].
    + destruct (Hlt (Z.to_nat (rank p j)) j) as [Hsj Hpj]; [pose proof (rank_range p j); lia|by apply order_rank|].
      rewrite nz_land_bit in Hsj by lia. rewrite Hask in Hpj by done. split; congruence.
    + assert (j = i) as ->; [|split; [congruence|by left]].
      pose proof (order_rank p j Hp Hj) as Hl. rewrite Hr, <- Hki, Nat2Z.id in Hl. congruence.
  - intros (Hi & Ha & Hbest). exists (Z.to_nat (rank p i)). pose proof (rank_range p i).
    split_and!; [by apply order_rank| |by rewrite Hask|].
    + rewrite nz_land_bit by lia. apply not_true_is_false. intros Hs.
      apply (proj1 (Hbest i Hi)) in Hs. lia.
    + intros k' j Hk' Hj. destruct (order_lookup p k' j Hp Hj) as [Hj8 Hr].
      rewrite nz_land_bit, Hask by (done || lia). destruct (Hbest j Hj8) as [Hs Hq].
      split; apply not_true_is_false; intros Hx; [apply Hs in Hx; lia|].
      apply Hq in Hx as [->|Hx]; lia.
Qed.

(** ** Registers after the operations, bit by bit *)
Lemma testbit_clear w x i j :
  0 <= w -> uint w x -> 0 <= i -> Z.testbit (x &&& unot w (1 <<< i)) j = Z.testbit x j && negb (i =? j).
Proof.
  intros Hw Hx Hi. rewrite land_unot by done. rewrite Z.ldiff_spec. by rewrite testbit_bit.
Qed.

Lemma testbit_set x i j : 0 <= i -> Z.testbit (x ||| (1 <<< i)) j = Z.testbit x j || (i =? j).
Proof. intros. by rewrite Z.lor_spec, testbit_bit. Qed.

Lemma refresh_irr p j :
  pic_ok p ->
  Z.testbit (refresh_level_triggered_irr p).(irr) j =
  (Z.testbit p.(irr) j || (Z.testbit p.(line_level) j && negb (Z.testbit p.(isr) j)))
  && (Z.testbit p.(line_level) j || Z.testbit p.(isr) j).
Proof.
  intros Hp. unfold refresh_level_triggered_irr. simpl.
  rewrite Z.land_spec, !Z.lor_spec. rewrite land_unot by (lia || apply Hp). by rewrite Z.ldiff_spec.
Qed.

Lemma refresh_ok p : pic_ok p -> pic_ok (refresh_level_triggered_irr p) /\ level_ok (refresh_level_triggered_irr p).
Proof.
  intros Hp. pose proof Hp as [? ? ? ? ? ? ?]. split.
  - split; simpl; try done. apply uint_land_l; [lia| |].
    + apply uint_lor; [lia|done|]. apply uint_land_l; [lia|done|]. apply uint_unot. lia.
    + apply Z.lor_nonneg. unfold uint in *. lia.
  - intros _ i Hi Ht. rewrite refresh_irr in Ht by done. simpl.
    apply andb_true_iff in Ht as [_ Ht]. by apply orb_true_iff in Ht.
Qed.

(** Everything the guest programs: all but lines, requests and services. *)
Definition same_setup (p p' : t) : Prop :=
  p'.(imr) = p.(imr) /\ p'.(vector_base) = p.(vector_base) /\ p'.(icw3) = p.(icw3) /\
  p'.(lowest_priority) = p.(lowest_priority) /\ p'.(single) = p.(single) /\
  p'.(auto_eoi) = p.(auto_eoi) /\ p'.(level_triggered) = p.(level_triggered).

Lemma same_setup_trans p1 p2 p3 : same_setup p1 p2 -> same_setup p2 p3 -> same_setup p1 p3.
Proof.
  intros (A1 & A2 & A3 & A4 & A5 & A6 & A7) (B1 & B2 & B3 & B4 & B5 & B6 & B7).
  unfold same_setup. split_and!; congruence.
Qed.

Definition valid (p : t) : Prop := pic_ok p /\ level_ok p.

(** The end of every operation that may change a request: refresh in
    level-triggered mode. *)
Definition settle (p : t) : t := if p.(level_triggered) then refresh_level_triggered_irr p else p.

Lemma settle_valid p : pic_ok p -> valid (settle p).
Proof.
  intros Hp. unfold settle. destruct (level_triggered p) eqn:E; [by apply refresh_ok|].
  split; [done|]. intros E'. congruence.
Qed.

Lemma settle_setup p : same_setup p (settle p) /\ (settle p).(isr) = p.(isr).
Proof. unfold settle. by destruct (level_triggered p). Qed.

Lemma with_irr_ok v p : uint 8 v -> pic_ok p -> pic_ok (with_irr v p).
Proof. intros ? [? ? ? ? ? ? ?]. by split. Qed.
Lemma with_isr_ok v p : uint 8 v -> pic_ok p -> pic_ok (with_isr v p).
Proof. intros ? [? ? ? ? ? ? ?]. by split. Qed.
Lemma with_line_ok v p : uint 8 v -> pic_ok p -> pic_ok (with_line_level v p).
Proof. intros ? [? ? ? ? ? ? ?]. by split. Qed.
Lemma with_lowest_ok v p : 0 <= v < 8 -> pic_ok p -> pic_ok (with_lowest_priority v p).
Proof. intros ? [? ? ? ? ? ? ?]. by split. Qed.

Lemma uint_clear x i : uint 8 x -> uint 8 (x &&& unot 8 (1 <<< i)).
Proof. intros. apply uint_land_l; [lia|done|]. apply uint_unot. lia. Qed.
Lemma uint_set x i : uint 8 x -> 0 <= i < 8 -> uint 8 (x ||| (1 <<< i)).
Proof. intros. apply uint_lor; [lia|done|]. by apply uint_bit. Qed.

Create HintDb pic.
#[export] Hint Resolve with_irr_ok with_isr_ok with_line_ok with_lowest_ok uint_clear uint_set
  settle_valid land7_range po_irr po_isr po_line : pic.

Lemma power_on_valid : valid new_power_on.
Proof. split; [|done]. by split. Qed.

Lemma land_F8 x : 0 <= x -> uint 8 (x &&& 0xF8) /\ (x &&& 0xF8) &&& 0xF8 = x &&& 0xF8.
Proof. intros. split; [by apply uint_land_r|]. by rewrite <- Z.land_assoc. Qed.

Lemma highest_in_service_range p i : highest_in_service p = Some i -> 0 <= i < 8.
Proof. intros [Hin _]%find_some. apply in_map_iff in Hin as (x & <- & _). apply land7_range. Qed.

Lemma write_command_valid p val : valid p -> valid (write_command p val).
Proof.
  intros [Hp Hl]. unfold write_command. case_if.
  { split; [|intros _ i _; by rewrite Z.bits_0]. destruct Hp. by split. }
  case_if.
  { case_if; [|done]. split; [|exact Hl]. destruct Hp. by split. }
  case_if; [|case_if; [|done]; split; [by auto with pic|exact Hl]].
  set (pc := if nz (val &&& 64) then _ else _).
  assert (pic_ok pc.1 /\ forall l, pc.2 = Some l -> 0 <= l < 8) as [Hp1 Hc].
  { unfold pc. case_if; simpl.
    - split; [by auto with pic|]. intros l [= <-]. apply land7_range.
    - destruct (highest_in_service p) as [i|] eqn:Hi; simpl; [|done].
      split; [by auto with pic|]. intros l [= <-]. by eapply highest_in_service_range. }
  destruct pc as [p1 c]. simpl in Hp1, Hc. apply settle_valid.
  case_if; [|done]. destruct c as [l|]; [|done]. apply with_lowest_ok; [apply land7_range|done].
Qed.

Lemma write_data_valid p val : uint 8 val -> valid p -> valid (write_data p val).
Proof.
  intros Hv [Hp Hl]. pose proof Hp as [? ? ? ? [? ?] ? ?].
  unfold write_data. destruct (init_state p); repeat case_if; (split; [|exact Hl]); split; simpl; try done;
    apply land_F8, Hv.
Qed.

Lemma set_irq_level_valid p irq level : 0 <= irq < 8 -> valid p -> valid (set_irq_level p irq level).
Proof.
  intros Hi [Hp _]. unfold set_irq_level. destruct level; apply settle_valid; [|by auto with pic].
  assert (forall q, pic_ok q -> pic_ok (with_line_level (q.(line_level) ||| (1 <<< irq)) q)) as Hq
    by (intros; auto with pic).
  apply Hq. repeat case_if; by auto with pic.
Qed.

Lemma set_irq_level_setup p irq level :
  same_setup p (set_irq_level p irq level) /\ (set_irq_level p irq level).(isr) = p.(isr).
Proof.
  unfold set_irq_level, same_setup, refresh_level_triggered_irr.
  destruct level; simpl; repeat case_if; simpl in *; congruence || by split_and!.
Qed.

Lemma acknowledge_irq_spec p irq :
  0 <= irq < 8 -> valid p ->
  let '(ok, p') := acknowledge_irq p irq in
  ok = Z.testbit p.(irr) irq /\ valid p' /\ same_setup p p' /\
  (ok = false -> p' = p) /\
  forall j, Z.testbit p'.(isr) j = Z.testbit p.(isr) j || (ok && negb p.(auto_eoi) && (irq =? j)).
Proof.
  intros Hi [Hp Hl]. unfold acknowledge_irq. rewrite land_bit_eqb by lia.
  destruct (Z.testbit (irr p) irq) eqn:Hr; simpl.
  2:{ split_and!; try done. intros j. by rewrite orb_false_r. }
  set (q := with_irr _ p). assert (pic_ok q) as Hq by (unfold q; auto with pic).
  set (q' := if negb (auto_eoi p) then _ else q).
  assert (pic_ok q') as Hq' by (unfold q'; case_if; [apply with_isr_ok; [apply uint_set; [apply Hq|done]|done]|done]).
  assert (same_setup p q') as Hs by (unfold q'; by case_if).
  fold (settle q'). split_and!; try done; [by apply settle_valid| |].
  - apply (same_setup_trans p q'); [done|apply settle_setup].
  - intros j. rewrite (proj2 (settle_setup q')). unfold q'. case_if; simpl.
    + by apply testbit_set; lia.
    + by rewrite orb_false_r.
Qed.

Lemma force_in_service_spec p irq :
  0 <= irq < 8 -> valid p ->
  let p' := force_in_service p irq in
  valid p' /\ same_setup p p' /\
  forall j, Z.testbit p'.(isr) j = Z.testbit p.(isr) j || (negb p.(auto_eoi) && (irq =? j)).
Proof.
  intros Hi [Hp Hl]. unfold force_in_service. destruct (auto_eoi p) eqn:Ha; simpl.
  { split_and!; try done. intros j. by rewrite orb_false_r. }
  set (q := with_isr _ p). assert (pic_ok q) as Hq by (unfold q; auto with pic).
  change (if level_triggered p then refresh_level_triggered_irr q else q) with (settle q).
  split; [by apply settle_valid|]. split.
  - destruct (settle_setup q) as [Hs' _]. exact Hs'.
  - intros j. rewrite (proj2 (settle_setup q)). by apply testbit_set; lia.
Qed.

(** What is requested afterwards. *)
Lemma settle_irr p j : pic_ok p -> 0 <= j < 8 ->
  Z.testbit (settle p).(irr) j =
  if p.(level_triggered)
  then (Z.testbit p.(irr) j || (Z.testbit p.(line_level) j && negb (Z.testbit p.(isr) j))) &&
       (Z.testbit p.(line_level) j || Z.testbit p.(isr) j)
  else Z.testbit p.(irr) j.
Proof.
  intros Hp Hj. unfold settle, refresh_level_triggered_irr. destruct (level_triggered p); [|done].
  cbn [irr line_level isr with_irr]. rewrite Z.land_spec, !Z.lor_spec, Z.land_spec, unot_spec by lia.
  rewrite (proj2 (Z.ltb_lt j 8)) by lia. by rewrite andb_true_l.
Qed.

Lemma acknowledge_irq_irr p i p' j :
  0 <= i < 8 -> 0 <= j < 8 -> valid p -> acknowledge_irq p i = (true, p') ->
  (j = i -> Z.testbit p'.(irr) j = p.(level_triggered) && p.(auto_eoi) &&
     Z.testbit p.(line_level) i && negb (Z.testbit p.(isr) i)) /\
  (j <> i -> p.(level_triggered) = false -> Z.testbit p'.(irr) j = Z.testbit p.(irr) j).
Proof.
  intros Hi Hj [Hp Hl]. unfold acknowledge_irq. case_if; [done|]. cbv zeta.
  set (q := with_irr _ p). set (q' := if negb (auto_eoi q) then _ else q). fold (settle q'). intros [= <-].
  assert (pic_ok q) as Hq by (unfold q; auto with pic).
  assert (pic_ok q') as Hq' by (unfold q'; case_if; [apply with_isr_ok; [apply uint_set; [apply Hq|done]|done]|done]).
  assert (forall k, Z.testbit q'.(irr) k = Z.testbit p.(irr) k && negb (i =? k)) as Hr.
  { intros k. assert (q'.(irr) = q.(irr)) as -> by (unfold q'; by case_if). unfold q. cbn [irr with_irr].
    apply testbit_clear; [lia|apply Hp|lia]. }
  assert (q'.(level_triggered) = p.(level_triggered) /\ q'.(line_level) = p.(line_level)) as [El Ell]
    by (unfold q'; by case_if).
  rewrite settle_irr by done. rewrite El, Ell, Hr. split.
  - intros ->. rewrite Z.eqb_refl, andb_false_r. cbn [orb].
    assert (Z.testbit q'.(isr) i = Z.testbit p.(isr) i || negb p.(auto_eoi)) as ->.
    { unfold q'. change (auto_eoi q) with (auto_eoi p). destruct (auto_eoi p); simpl; [by rewrite orb_false_r|].
      by rewrite testbit_set, Z.eqb_refl by lia. }
    destruct (level_triggered p), (auto_eoi p), (Z.testbit (line_level p) i), (Z.testbit (isr p) i); done.
  - intros Hne ->. rewrite (proj2 (Z.eqb_neq i j)) by done. apply andb_true_r.
Qed.

Lemma force_in_service_irr p i j :
  p.(level_triggered) = false -> Z.testbit (force_in_service p i).(irr) j = Z.testbit p.(irr) j.
Proof. intros Hl. unfold force_in_service. case_if; [done|]. cbn [level_triggered with_isr]. by rewrite Hl. Qed.

(** ** The cascaded pair *)
Module D := DualPic8259.

Definition dual_valid (d : D.t) : Prop := valid d.(D.master) /\ valid d.(D.slave).

Lemma lowest_set_bit_range x l :
  uint 8 x -> lowest_set_bit x = Some l -> 0 <= l < 8.
Proof.
  intros Hx. unfold lowest_set_bit. destruct (Z.eqb_spec x 0) as [|Hnz]; [done|]. intros [= <-].
  unfold trailing_zeros8. destruct (find _ _) as [i|] eqn:Hf.
  - apply find_some in Hf as [Hin _]. simpl in Hin. lia.
  - exfalso. apply Hnz. apply Z.bits_inj'. intros i Hi. rewrite Z.bits_0.
    apply not_true_is_false. intros Ht. pose proof (testbit_u8_range x i Hx Ht) as Hr.
    pose proof (find_none _ _ Hf i) as Hn. rewrite Hn in Ht; [done|]. by apply list_elem_of_In, irqs_elem.
Qed.

Lemma cascade_line_range d l : dual_ok d -> D.cascade_line d = Some l -> 0 <= l < 8.
Proof.
  intros [Hm Hs]. unfold D.cascade_line. case_if; [done|]. case_if.
  - intros [= <-]. apply land7_range.
  - apply lowest_set_bit_range, Hm.
Qed.

Lemma cascade_default_range d : dual_ok d -> 0 <= default 2 (D.cascade_line d) < 8.
Proof.
  intros Hd. destruct (D.cascade_line d) as [l|] eqn:E; simpl; [|done]. by eapply cascade_line_range.
Qed.

Lemma dual_valid_ok d : dual_valid d -> dual_ok d.
Proof. by intros [[? _] [? _]]. Qed.

Lemma with_irr_clear_valid p i : valid p -> 0 <= i -> valid (with_irr (p.(irr) &&& unot 8 (1 <<< i)) p).
Proof.
  intros [Hp Hl] Hi. split; [by auto with pic|]. intros Ht j Hj. simpl.
  rewrite testbit_clear by (lia || apply Hp). intros [Hb _]%andb_true_iff. by apply Hl.
Qed.

Lemma acknowledge_valid d v : dual_valid d -> dual_valid (D.acknowledge d v).2.
Proof.
  intros Hd. pose proof (cascade_default_range d (dual_valid_ok _ Hd)) as Hc. destruct Hd as [Hm Hs].
  pose proof (land7_range v) as H7. unfold D.acknowledge.
  pose proof (force_in_service_spec (D.master d) _ Hc Hm) as (Hf & _).
  pose proof (acknowledge_irq_spec (D.slave d) (v &&& 7) H7 Hs) as Has.
  pose proof (acknowledge_irq_spec (D.master d) (v &&& 7) H7 Hm) as Ham.
  case_if.
  - destruct (acknowledge_irq (D.slave d) (v &&& 7)) as [[] s']; destruct Has as (_ & Hs' & _).
    + split; [|done]. apply with_irr_clear_valid; [done|lia].
    + case_if; by split.
  - case_if; [|by split]. case_if; [by split|].
    destruct (acknowledge_irq (D.master d) (v &&& 7)) as [[] m']; destruct Ham as (_ & Hm' & _); by split.
Qed.

Lemma set_irq_valid d irq level : 0 <= irq -> dual_valid d -> dual_valid (D.set_irq d irq level).
Proof.
  intros Hi [Hm Hs]. unfold D.set_irq.
  destruct (Z.leb_spec irq 7); [by split; [apply set_irq_level_valid; [lia|]|]|].
  destruct (Z.leb_spec irq 15); [by split; [|apply set_irq_level_valid; [lia|]]|done].
Qed.

Lemma port_write_valid d port val : uint 8 val -> dual_valid d -> dual_valid (D.port_write_u8 d port val).
Proof.
  intros Hv [Hm Hs]. unfold D.port_write_u8.
  repeat case_if; split; simpl; try done; by (apply write_command_valid || apply write_data_valid).
Qed.

(** ** Delivery *)
Lemma vector_decode base i :
  uint 8 base -> base &&& 0xF8 = base -> 0 <= i < 8 ->
  (base ||| i) &&& 0xF8 = base /\ (base ||| i) &&& 7 = i.
Proof.
  intros Hb Hal Hi. rewrite !Z.land_lor_distr_l, Hal. split.
  - assert (i &&& 0xF8 = 0) as ->; [|apply Z.lor_0_r].
    rewrite <- (land7_id i), <- Z.land_assoc by done. apply Z.land_0_r.
  - rewrite (land7_id i), <- Hal, <- Z.land_assoc by done. change (0xF8 &&& 7) with 0.
    by rewrite Z.land_0_r, Z.lor_0_l.
Qed.

(** The request the slave adds on the master's cascade input. *)
Definition cascade_bit (d : D.t) : Z :=
  match D.cascade_line d, pending_irq d.(D.slave) with Some l, Some _ => 1 <<< l | _, _ => 0 end.

Lemma cascade_bit_uint d : dual_ok d -> uint 8 (cascade_bit d).
Proof.
  intros Hd. unfold cascade_bit. destruct (D.cascade_line d) as [l|] eqn:E; [|done].
  destruct (pending_irq _); [|done]. apply uint_bit. by eapply cascade_line_range.
Qed.

(** Where a pending vector comes from. *)
Lemma pending_vector_cases d v :
  dual_ok d -> D.get_pending_vector d = Some v ->
  (exists i, v = d.(D.master).(vector_base) ||| i /\ Z.testbit d.(D.master).(irr) i = true /\
     deliverable d.(D.master) (cascade_bit d) i) \/
  (exists l i, D.cascade_line d = Some l /\ v = d.(D.slave).(vector_base) ||| i /\
     deliverable d.(D.slave) 0 i /\ deliverable d.(D.master) (cascade_bit d) l).
Proof.
  intros Hd. pose proof (cascade_bit_uint d Hd) as Hcb. pose proof Hd as [Hm Hs].
  unfold D.get_pending_vector. pose proof (fun i => pending_exact (D.master d) (cascade_bit d) i Hm Hcb) as Hpe.
  assert (forall i, deliverable (D.master d) (cascade_bit d) i ->
            Z.testbit (cascade_bit d) i = false -> Z.testbit (irr (D.master d)) i = true) as Hirr.
  { intros i (_ & Ha & _) Hb. unfold asks in Ha. rewrite Hb, orb_false_r in Ha. by apply andb_true_iff in Ha as [? _]. }
  unfold cascade_bit in *. destruct (D.cascade_line d) as [l|] eqn:El; cbn beta iota.
  2:{ destruct (pending_irq_with_extra_irr _ _) as [i|]; [|done]. simpl. intros [= <-].
      left. exists i. pose proof (proj1 (Hpe i) eq_refl). split_and!; try done. apply Hirr; [done|apply Z.bits_0]. }
  pose proof (cascade_line_range d l Hd El) as Hl.
  destruct (pending_irq (D.slave d)) as [si|] eqn:Es; cbn beta iota in *.
  - destruct (pending_irq_with_extra_irr (D.master d) (1 <<< l)) as [i|]; [|done].
    pose proof (proj1 (Hpe i) eq_refl) as Hdel.
    destruct (Z.eqb_spec (1 <<< l) 0) as [E0|_].
    { rewrite Z.shiftl_1_l in E0. pose proof (Z.pow_pos_nonneg 2 l). lia. }
    destruct (Z.eqb_spec i l) as [->|Hne]; simpl; intros [= <-].
    + right. exists l, si. split_and!; try done. by apply pending_exact.
    + left. exists i. split_and!; try done. apply Hirr; [done|]. rewrite testbit_bit by lia.
      apply Z.eqb_neq. congruence.
  - destruct (pending_irq_with_extra_irr (D.master d) 0) as [i|]; [|done].
    pose proof (proj1 (Hpe i) eq_refl) as Hdel. simpl. intros [= <-].
    left. exists i. split_and!; try done. apply Hirr; [done|apply Z.bits_0].
Qed.
