(* ===== verification/PicProps.v ===== *)
(** * Properties of the 8259A pair and of device snapshots *)

From S2P Require Import Prelude Bytes Collections Snapshot SnapshotFacts Pic PicFacts.
Import Pic8259.

(** ** Delivery *)

(** The IRQ number 0..15 an input of the pair has, and the master input its
    interrupts pass through. *)
Definition requested (d : D.t) (irq : Z) : bool :=
  if irq <? 8 then Z.testbit d.(D.master).(irr) irq
  else Z.testbit d.(D.slave).(irr) (irq - 8).
Definition in_service (d : D.t) (irq : Z) : bool :=
  if irq <? 8 then Z.testbit d.(D.master).(isr) irq
  else Z.testbit d.(D.slave).(isr) (irq - 8).
Definition master_level (d : D.t) (irq : Z) : Z :=
  if irq <? 8 then irq else default 2 (D.cascade_line d).
(** The controller an IRQ is wired to, and its input there. *)
Definition controller (d : D.t) (irq : Z) : t := if irq <? 8 then d.(D.master) else d.(D.slave).
Definition input_of (irq : Z) : Z := if irq <? 8 then irq else irq - 8.
Definition distinct_bases (d : D.t) : Prop :=
  d.(D.master).(vector_base) <> d.(D.slave).(vector_base).

Lemma cascade_line_setup d d' :
  same_setup d.(D.master) d'.(D.master) -> same_setup d.(D.slave) d'.(D.slave) ->
  D.cascade_line d' = D.cascade_line d.
Proof.
  intros (_ & _ & A & _ & B & _) (_ & _ & C & _ & E & _). unfold D.cascade_line. by rewrite A, B, C, E.
Qed.

(** What acknowledging the pending vector does. *)
Record delivered (d : D.t) (v irq : Z) (d' : D.t) : Prop := {
  dv_range : 0 <= irq < 16;
  dv_request : requested d irq = true;
  dv_vector : v = (if irq <? 8 then d.(D.master).(vector_base) ||| irq
                   else d.(D.slave).(vector_base) ||| (irq - 8));
  dv_setup : same_setup d.(D.master) d'.(D.master) /\ same_setup d.(D.slave) d'.(D.slave);
  dv_service : (if irq <? 8 then d.(D.master) else d.(D.slave)).(auto_eoi) = false ->
               in_service d' irq = true;
  dv_level : deliverable d.(D.master) (cascade_bit d) (master_level d irq);
  dv_master : d.(D.master).(auto_eoi) = false ->
              Z.testbit d'.(D.master).(isr) (master_level d irq) = true;
  (** the request is gone, unless the line of a level-triggered controller
      that ends interrupts by itself still asks *)
  dv_consumed : requested d' irq =
    (controller d irq).(level_triggered) && (controller d irq).(auto_eoi) &&
    Z.testbit (controller d irq).(line_level) (input_of irq);
  dv_cascade : 8 <= irq -> Z.testbit d'.(D.master).(irr) (master_level d irq) = false;
  dv_others : d.(D.master).(level_triggered) = false -> d.(D.slave).(level_triggered) = false ->
    forall j, 0 <= j < 16 -> j <> irq -> j <> master_level d irq -> requested d' j = requested d j;
  dv_isr : forall j, 0 <= j < 16 ->
    in_service d' j = in_service d j || ((j =? irq) && negb (controller d irq).(auto_eoi))
      || ((j =? master_level d irq) && negb d.(D.master).(auto_eoi));
}.

Lemma deliverable_idle p extra i : deliverable p extra i -> Z.testbit p.(isr) i = false.
Proof.
  intros (Hi & _ & Hbest). destruct (Z.testbit (isr p) i) eqn:E; [|done]. apply (Hbest i Hi) in E. lia.
Qed.

Lemma ack_pending d v :
  dual_valid d -> distinct_bases d -> D.get_pending_vector d = Some v ->
  exists irq d', D.acknowledge d v = (Some irq, d') /\ delivered d v irq d'.
Proof.
  intros Hd Hne Hv. pose proof (dual_valid_ok _ Hd) as Hok.
  pose proof (cascade_default_range d Hok) as Hcd. destruct Hd as [Hm Hs].
  apply pending_vector_cases in Hv as [(i & -> & Hirr & Hdel)|(l & i & Hl & -> & Hsd & Hdel)]; [| |done].
  - pose proof Hdel as (Hi & _ & _). destruct (po_base _ (proj1 Hm)) as [Hb Hal].
    destruct (vector_decode _ i Hb Hal Hi) as [E8 E7]. unfold D.acknowledge.
    rewrite E8, E7, (proj2 (Z.eqb_neq _ _)), Z.eqb_refl by done.
    assert ((i =? 7) && negb (is_irq_requested (D.master d) 7) = false) as ->.
    { destruct (Z.eqb_spec i 7) as [->|]; [|done]. unfold is_irq_requested.
      by rewrite nz_land_bit, Hirr by lia. }
    pose proof (acknowledge_irq_spec (D.master d) i Hi Hm) as Ha.
    destruct (acknowledge_irq (D.master d) i) as [ok m'] eqn:Eack. rewrite Hirr in Ha.
    destruct Ha as (-> & _ & Hset & _ & Hisr). eexists _, _. split; [done|].
    pose proof (fun j Hj => acknowledge_irq_irr _ i m' j Hi Hj Hm Eack) as Hreq.
    split; unfold requested, in_service, master_level, controller, input_of; rewrite ?(proj2 (Z.ltb_lt i 8)) by lia;
      try done; [lia|..].
    + intros Hae. simpl. by rewrite Hisr, Hae, Z.eqb_refl, orb_true_r.
    + intros Hae. simpl. by rewrite Hisr, Hae, Z.eqb_refl, orb_true_r.
    + simpl. rewrite (proj1 (Hreq i Hi) eq_refl), (deliverable_idle _ _ _ Hdel). apply andb_true_r.
    + lia.
    + intros Hlm _ j Hj Hji _. case_if; bool_hyps; [|done]. apply Hreq; [lia|done|done].
    + intros j Hj. destruct (Z.ltb_spec j 8); simpl.
      * rewrite Hisr, (Z.eqb_sym i j). by destruct (j =? i), (auto_eoi (D.master d)), (Z.testbit (isr (D.master d)) j).
      * rewrite (proj2 (Z.eqb_neq j i)) by lia. by rewrite !orb_false_r.
  - pose proof Hsd as (Hi & Ha0 & _). destruct (po_base _ (proj1 Hs)) as [Hb Hal].
    destruct (vector_decode _ i Hb Hal Hi) as [E8 E7]. unfold D.acknowledge.
    rewrite E8, E7, Z.eqb_refl. rewrite Hl in *. cbn [default] in Hcd |- *.
    assert (Z.testbit (irr (D.slave d)) i = true) as Hirr.
    { unfold asks in Ha0. rewrite Z.bits_0, orb_false_r in Ha0. by apply andb_true_iff in Ha0 as [? _]. }
    pose proof (acknowledge_irq_spec (D.slave d) i Hi Hs) as Ha.
    destruct (acknowledge_irq (D.slave d) i) as [ok s'] eqn:Eack. rewrite Hirr in Ha.
    destruct Ha as (-> & _ & Hset & _ & Hisr).
    pose proof (force_in_service_spec (D.master d) l Hcd Hm) as (_ & Hfs & Hfi).
    eexists _, _. split; [done|].
    pose proof (fun j Hj => acknowledge_irq_irr _ i s' j Hi Hj Hs Eack) as Hreq.
    pose proof (force_in_service_spec (D.master d) l Hcd Hm) as ([Hfo _] & _). unfold id in Hcd.
    split; unfold requested, in_service, master_level, controller, input_of;
      rewrite ?(proj2 (Z.ltb_ge (8 + i) 8)) by lia;
      replace (8 + i - 8) with i by lia; rewrite ?Hl; try done; [lia|..].
    + intros Hae. simpl. by rewrite Hisr, Hae, Z.eqb_refl, orb_true_r.
    + intros Hae. simpl. by rewrite Hfi, Hae, Z.eqb_refl, orb_true_r.
    + simpl. rewrite (proj1 (Hreq i Hi) eq_refl), (deliverable_idle _ _ _ Hsd). apply andb_true_r.
    + intros _. simpl. rewrite testbit_clear by (lia || apply Hfo). by rewrite Z.eqb_refl, andb_false_r.
    + intros Hlm Hls j Hj Hji Hjl. simpl in Hjl. case_if; bool_hyps; simpl.
      * rewrite testbit_clear by (lia || apply Hfo). rewrite force_in_service_irr by done.
        rewrite (proj2 (Z.eqb_neq l j)) by congruence. apply andb_true_r.
      * apply Hreq; [lia|lia|done].
    + intros j Hj. simpl. destruct (Z.ltb_spec j 8); simpl.
      * rewrite Hfi, (Z.eqb_sym l j), (proj2 (Z.eqb_neq j (8 + i))) by lia.
        by destruct (j =? l), (auto_eoi (D.master d)), (Z.testbit (isr (D.master d)) j).
      * rewrite Hisr, (proj2 (Z.eqb_neq j l)) by lia.
        assert ((j =? 8 + i) = (i =? j - 8)) as -> by (apply Bool.eq_iff_eq_true; rewrite !Z.eqb_eq; lia).
        by destruct (i =? j - 8), (auto_eoi (D.slave d)), (Z.testbit (isr (D.slave d)) (j - 8)).
Qed.

(** One controller offers the CPU exactly the right interrupt: [i] is
    returned if and only if it asks and is unmasked, nothing in service has
    its priority or higher, and no other unmasked request comes before it in
    the (possibly rotated) priority order. *)
Theorem pic_pending_exact p extra i :
  pic_ok p -> uint 8 extra -> pending_irq_with_extra_irr p extra = Some i <-> deliverable p extra i.
Proof. apply pending_exact. Qed.

(** C32: Acknowledging the vector the pair offers consumes one request.  The
    vector names an IRQ that is requested and enters through the master input
    of highest deliverable priority.  Afterwards its request bit is clear; only
    a level-triggered controller in automatic end-of-interrupt mode whose line
    is still high requests it again.  The cascade input is not left requested,
    and without level-triggering no other request changes.  The inputs in
    service are those before and, for each controller that does not end
    interrupts automatically, the input acknowledged.  The controllers must have
    different vector bases: the code decodes a vector as the slave's first. *)
Theorem pic_ack_delivers d v :
  dual_valid d -> distinct_bases d -> D.get_pending_vector d = Some v ->
  exists irq d', D.acknowledge d v = (Some irq, d') /\ delivered d v irq d'.
Proof. apply ack_pending. Qed.

(** Device activity: lines go up and down. *)
Inductive line_step : D.t -> D.t -> Prop :=
| line_set d irq level : 0 <= irq -> line_step d (D.set_irq d irq level).

Lemma line_steps_keep d d' :
  rtc line_step d d' -> dual_valid d ->
  dual_valid d' /\ same_setup d.(D.master) d'.(D.master) /\ same_setup d.(D.slave) d'.(D.slave) /\
  d'.(D.master).(isr) = d.(D.master).(isr).
Proof.
  induction 1 as [d|x y z Hxy _ IH]; [done|]. intros Hx. destruct Hxy as [x irq level Hi].
  destruct IH as (Hz & Hm & Hs & Hisr); [by apply set_irq_valid|].
  assert (same_setup x.(D.master) (D.set_irq x irq level).(D.master) /\
          same_setup x.(D.slave) (D.set_irq x irq level).(D.slave) /\
          (D.set_irq x irq level).(D.master).(isr) = x.(D.master).(isr)) as (Hm1 & Hs1 & Hi1).
  { unfold D.set_irq. repeat case_if; simpl; split_and!; try done; apply set_irq_level_setup. }
  split_and!; [done|by eapply same_setup_trans|by eapply same_setup_trans|congruence].
Qed.

(** Interrupts nest strictly: after a delivery, whatever lines the devices
    raise or lower, an interrupt delivered before the end of the first one
    enters through a master input of strictly higher priority. *)
Theorem pic_nesting d v irq d1 d2 v' irq' d3 :
  dual_valid d -> distinct_bases d -> d.(D.master).(auto_eoi) = false ->
  D.get_pending_vector d = Some v -> D.acknowledge d v = (Some irq, d1) ->
  rtc line_step d1 d2 ->
  D.get_pending_vector d2 = Some v' -> D.acknowledge d2 v' = (Some irq', d3) ->
  rank d.(D.master) (master_level d irq') < rank d.(D.master) (master_level d irq).
Proof.
  intros Hd Hne Hae Hv Ha Hl Hv' Ha'. pose proof (acknowledge_valid d v Hd) as Hd1. rewrite Ha in Hd1.
  destruct (ack_pending d v Hd Hne Hv) as (i & e & Hi & Hdel). rewrite Ha in Hi. simplify_eq.
  pose proof (dv_setup _ _ _ _ Hdel) as [Hsm Hss]. pose proof (dv_level _ _ _ _ Hdel) as [Hlr _].
  pose proof (dv_master _ _ _ _ Hdel) as Hms. specialize (Hms Hae).
  destruct (line_steps_keep e d2 Hl Hd1) as (Hd2 & Hsm2 & Hss2 & Hisr). rewrite <- Hisr in Hms.
  pose proof (same_setup_trans _ _ _ Hsm Hsm2) as Sm. pose proof (same_setup_trans _ _ _ Hss Hss2) as Ss.
  pose proof (cascade_line_setup d d2 Sm Ss) as Hcl.
  destruct Sm as (_ & Hb1 & _ & Hlp & _), Ss as (_ & Hb2 & _).
  assert (distinct_bases d2) as Hne' by (unfold distinct_bases; by rewrite Hb1, Hb2).
  destruct (ack_pending d2 v' Hd2 Hne' Hv') as (i' & e' & Hi' & Hdel'). rewrite Ha' in Hi'. simplify_eq.
  destruct (dv_level _ _ _ _ Hdel') as (_ & _ & Hbest).
  assert (master_level d2 i' = master_level d i') as El by (unfold master_level; by rewrite Hcl).
  rewrite El in Hbest. apply (Hbest _ Hlr) in Hms. unfold rank in *. by rewrite Hlp in Hms.
Qed.

(** ** End of interrupt *)

(** The in-service input of highest priority. *)
Definition top_in_service (p : t) (j : Z) : Prop :=
  Z.testbit p.(isr) j = true /\
  forall k, 0 <= k < 8 -> Z.testbit p.(isr) k = true -> rank p j <= rank p k.

Lemma highest_in_service_top p j :
  pic_ok p -> highest_in_service p = Some j <-> 0 <= j < 8 /\ top_in_service p j.
Proof.
  intros Hp. unfold highest_in_service, top_in_service.
  set (f := fun irq => nz (isr p &&& (1 <<< irq))).
  rewrite find_first_Some. unfold f. split.
  - intros (k & Hk & Hpi & Hlt). destruct (order_lookup p k j Hp Hk) as [Hj Hkj].
    rewrite nz_land_bit in Hpi by lia. split_and!; [lia|lia|done|]. intros i Hi Ht.
    destruct (Z.leb_spec (rank p j) (rank p i)); [done|]. pose proof (rank_range p i).
    assert (nz (isr p &&& (1 <<< i)) = false) as Hn
      by (apply (Hlt (Z.to_nat (rank p i))); [lia|by apply order_rank]).
    rewrite nz_land_bit in Hn by lia. congruence.
  - intros (Hj & Ht & Hbest). exists (Z.to_nat (rank p j)). pose proof (rank_range p j).
    rewrite nz_land_bit by lia. split_and!; [by apply order_rank|done|].
    intros k' i Hk' Hl. destruct (order_lookup p k' i Hp Hl) as [Hi Hr].
    rewrite nz_land_bit by lia. apply not_true_is_false. intros Hx. apply (Hbest i Hi) in Hx. lia.
Qed.

Lemma settle_isr p : (if p.(level_triggered) then refresh_level_triggered_irr p else p).(isr) = p.(isr).
Proof. by destruct (level_triggered p). Qed.

(** A non-specific end of interrupt clears exactly the in-service bit of
    highest priority, and nothing if no interrupt is in service; a specific one
    clears exactly the bit it names. *)
Theorem pic_eoi_exact p level j :
  pic_ok p -> 0 <= level < 8 -> 0 <= j < 8 ->
  (Z.testbit (write_command p 0x20).(isr) j = true <->
     Z.testbit p.(isr) j = true /\ ~ top_in_service p j) /\
  (Z.testbit (write_command p (0x60 ||| level)).(isr) j = true <->
     Z.testbit p.(isr) j = true /\ j <> level).
Proof.
  intros Hp Hl Hj. split.
  - unfold write_command. simpl.
    destruct (highest_in_service p) as [i|] eqn:Hi; rewrite settle_isr; simpl.
    + apply highest_in_service_top in Hi as [Hi Htop]; [|done].
      rewrite testbit_clear by (lia || apply Hp). rewrite andb_true_iff, negb_true_iff, Z.eqb_neq.
      split; intros [Ht Hn]; (split; [done|]).
      * intros [_ Hbest]. apply Hn. destruct Htop as [Hti Htop].
        pose proof (Htop j Hj Ht). pose proof (Hbest i Hi Hti).
        pose proof (order_rank p i Hp Hi) as E1. pose proof (order_rank p j Hp Hj) as E2.
        replace (rank p j) with (rank p i) in E2 by lia. congruence.
      * intros ->. by apply Hn.
    + split; [|by intros []]. intros Ht. split; [done|]. intros Htop.
      assert (highest_in_service p = Some j) by (by apply highest_in_service_top). congruence.
  - assert (level ∈ irqs) as Hin by (by apply irqs_elem).
    assert (write_command p (0x60 ||| level) =
            let q := with_isr (p.(isr) &&& unot 8 (1 <<< level)) p in
            if q.(level_triggered) then refresh_level_triggered_irr q else q) as ->.
    { unfold irqs in Hin. rewrite !elem_of_cons, elem_of_nil in Hin.
      repeat destruct Hin as [->|Hin]; done. }
    cbv zeta. rewrite settle_isr. simpl. rewrite testbit_clear by (lia || apply Hp).
    rewrite andb_true_iff, negb_true_iff, Z.eqb_neq. intuition congruence.
Qed.

(** ** Reachable states *)
Inductive pic_step : D.t -> D.t -> Prop :=
| step_raise d irq : 0 <= irq -> pic_step d (D.raise_irq d irq)
| step_lower d irq : 0 <= irq -> pic_step d (D.lower_irq d irq)
| step_write d port val : uint 8 val -> pic_step d (D.port_write_u8 d port val)
| step_ack d v : pic_step d (D.acknowledge d v).2.

(** Whatever the devices and the guest do (lines, port writes in any
    order, acknowledgements of any vector), the registers of both controllers
    stay bytes, vector bases stay aligned, the rotation stays an input number,
    and in level-triggered mode no request outlives its line and its service. *)
Theorem pic_invariant d : rtc pic_step D.new d -> dual_valid d.
Proof.
  intros Hr. assert (forall x y, rtc pic_step x y -> dual_valid x -> dual_valid y) as Hind.
  { induction 1 as [|x y z Hxy _ IH]; [done|]. intros Hx. apply IH.
    destruct Hxy; [by apply set_irq_valid..|by apply port_write_valid|by apply acknowledge_valid]. }
  apply (Hind _ _ Hr). split; apply power_on_valid.
Qed.

(** ** Snapshots *)
Section Snapshots.
Context `{Target}.

(** The last value put under a tag. *)
Definition last_put (puts : list (Z * list Z)) (tag : Z) : option (list Z) :=
  fold_left (fun o f => if tag =? f.1 then Some f.2 else o) puts None.

Lemma put_all_get w puts tag :
  BTreeMap.get tag (put_all w puts).(SnapshotWriter.fields) =
  fold_left (fun o f => if tag =? f.1 then Some f.2 else o) puts
    (BTreeMap.get tag w.(SnapshotWriter.fields)).
Proof.
  revert w. induction puts as [|f puts IH]; intros w; simpl; [done|].
  rewrite IH. simpl. by rewrite BTreeMap.get_insert.
Qed.

Lemma put_all_header w puts :
  (put_all w puts).(SnapshotWriter.device_id) = w.(SnapshotWriter.device_id) /\
  (put_all w puts).(SnapshotWriter.device_version) = w.(SnapshotWriter.device_version).
Proof. revert w. induction puts as [|f puts IH]; intros w; simpl; [done|]. by rewrite !(proj1 (IH _)), !(proj2 (IH _)). Qed.

Lemma put_all_length w puts :
  (length (put_all w puts).(SnapshotWriter.fields) <= length w.(SnapshotWriter.fields) + length puts)%nat.
Proof.
  revert w. induction puts as [|f puts IH]; intros w; simpl; [lia|].
  pose proof (IH (SnapshotWriter.field_bytes w f.1 f.2)) as Hl. simpl in Hl.
  assert (forall m : list (Z * list Z), length (BTreeMap.insert f.1 f.2 m) <= S (length m))%nat as Hi.
  { intros m. induction m as [|[k v] m IHm]; simpl; [done|]. repeat case_if; simpl; lia. }
  pose proof (Hi w.(SnapshotWriter.fields)). unfold put_all in *. lia.
Qed.

Lemma put_all_parse id ver puts :
  length id = 4%nat -> uint 16 ver.(SnapshotVersion.major) -> uint 16 ver.(SnapshotVersion.minor) ->
  Forall field_ok puts -> Z.of_nat (length puts) <= SnapshotReader.MAX_FIELDS ->
  let w := put_all (SnapshotWriter.new id ver) puts in
  Z.of_nat (length (SnapshotWriter.finish w)) <= usize_max ->
  exists r, SnapshotReader.parse (SnapshotWriter.finish w) id = Ok r /\
    r.(SnapshotReader.header) = SnapshotHeader.mk FORMAT_VERSION id ver /\
    forall tag, SnapshotReader.bytes r tag = last_put puts tag.
Proof.
  intros Hid Hmaj Hmin Hp Hn w Hsz. destruct (put_all_header (SnapshotWriter.new id ver) puts) as [Ei Ev].
  assert (writer_ok w) as Hw by (apply put_all_ok; [by apply new_writer_ok|done]).
  pose proof (put_all_length (SnapshotWriter.new id ver) puts) as Hlen. simpl in Hlen.
  pose proof (parse_finish w Hw ltac:(unfold w; lia) Hsz) as Hparse.
  unfold w in *. rewrite Ei, Ev in Hparse. eexists. split; [exact Hparse|]. split; [done|].
  intros tag. apply put_all_get.
Qed.

(** C33: Whatever fields a device writes, in whatever order and with repeated
    tags, the reader accepts the bytes and returns under every tag the last
    value written (and nothing under other tags), with the device's identity
    and version; limits: 16-bit tags, 32-bit lengths, 4096 fields. *)
Theorem snapshot_roundtrip id ver puts :
  length id = 4%nat -> uint 16 ver.(SnapshotVersion.major) -> uint 16 ver.(SnapshotVersion.minor) ->
  Forall field_ok puts -> Z.of_nat (length puts) <= SnapshotReader.MAX_FIELDS ->
  let w := put_all (SnapshotWriter.new id ver) puts in
  Z.of_nat (length (SnapshotWriter.finish w)) <= usize_max ->
  exists r, SnapshotReader.parse (SnapshotWriter.finish w) id = Ok r /\
    r.(SnapshotReader.header) = SnapshotHeader.mk FORMAT_VERSION id ver /\
    forall tag, SnapshotReader.bytes r tag = last_put puts tag.
Proof. apply put_all_parse. Qed.

(** The reader's result does not depend on how the snapshot was laid out:
    any accepted byte string, written again in canonical form, is accepted with
    the same fields and device version. *)
Theorem snapshot_canonical bs id r :
  Forall byte_ok bs -> SnapshotReader.parse bs id = Ok r ->
  let w := SnapshotWriter.mk id r.(SnapshotReader.header).(SnapshotHeader.device_version)
             r.(SnapshotReader.fields) in
  Z.of_nat (length (SnapshotWriter.finish w)) <= usize_max ->
  exists h, SnapshotReader.parse (SnapshotWriter.finish w) id =
    Ok (SnapshotReader.mk h r.(SnapshotReader.fields)) /\
    h.(SnapshotHeader.device_version) = r.(SnapshotReader.header).(SnapshotHeader.device_version).
Proof.
  intros Hb Hp w Hsz. destruct (parse_ok bs id r Hb Hp) as (Hw & Hid & Hn & _).
  eexists. split; [exact (parse_finish w Hw Hn Hsz)|done].
Qed.

(** ** The snapshot contract of the pair *)
Import PicSnapshot.

Lemma read_init_ahead d s rest :
  ahead d (init_state_code s :: rest) -> exists d', read_init_state d = (Ok s, d') /\ ahead d' rest.
Proof.
  intros Ha. destruct (u8_ahead d (init_state_code s) rest) as (d' & Ht & Ha'); [by destruct s|done|].
  exists d'. split; [|done]. unfold read_init_state. rewrite (st_bind_ok _ _ _ _ _ Ht). by destruct s.
Qed.

(** One field of [decode_fields]. *)
Local Tactic Notation "field" uconstr(lem) :=
  match goal with
  | Ha : ahead ?d _ |- _ =>
      let d' := fresh "d" in let Ht := fresh in let Ha' := fresh in
      let t := constr:(lem Ha) in destruct t as (d' & Ht & Ha'); clear Ha;
      rewrite (st_bind_ok _ _ _ _ _ (assign_ok _ _ _ _ _ _ Ht)); clear Ht d
  end.

Lemma decode_encode p p0 : pic_ok p -> decode_pic (encode_pic p) p0 = (Ok tt, p).
Proof.
  intros [Himr Hirr Hisr Hline [Hbase Hal] Hicw Hlow]. pose proof usize_max_ge.
  assert (uint 8 p.(lowest_priority)) as Hl8 by (unfold uint; lia).
  unfold decode_pic. set (d0 := Decoder.new _).
  assert (ahead d0 (encode_pic p)) as Ha by (apply ahead_new; simpl; lia).
  clearbody d0. unfold encode_pic, Encoder.finish, Encoder.u8, Encoder.bool, Encoder.u8, Encoder.new in Ha.
  cbn [app] in Ha. unfold decode_fields.
  field (u8_ahead _ _ _ Himr). field (u8_ahead _ _ _ Hirr).
  field (u8_ahead _ _ _ Hisr). field (u8_ahead _ _ _ Hline).
  field (u8_ahead _ _ _ Hbase). field (u8_ahead _ _ _ Hicw).
  field (bool_ahead _ (read_isr p) _). field (bool_ahead _ (level_triggered p) _).
  field (bool_ahead _ (auto_eoi p) _). field (bool_ahead _ (single p) _).
  field (read_init_ahead _ (init_state p) _). field (bool_ahead _ (expect_icw4 p) _).
  field (u8_ahead _ _ _ Hl8).
  match goal with Ha : ahead _ [] |- _ => rewrite (finish_ahead _ _ Ha) end.
  rewrite Hal, land7_id by done. by destruct p.
Qed.

Lemma init_yields : yields dec_ok (fun _ => True) read_init_state.
Proof.
  eapply yields_bind; [apply u8_yields|]. intros v _.
  repeat case_if; first [by apply yields_ret | apply yields_err].
Qed.

Lemma decode_pic_ok buf p : Forall byte_ok buf -> pic_ok p -> pic_ok (decode_pic buf p).2.
Proof.
  intros Hb Hp. unfold decode_pic.
  assert (keeps (fun '(p, d) => pic_ok p /\ dec_ok d) decode_fields) as Hk.
  { unfold decode_fields.
    repeat (apply keeps_bind; [|intros _]); try (by intros [q d]);
      (eapply assign_keeps; [first [apply u8_yields | apply bool_yields | apply init_yields]|]);
      intros a q Ha [? ? ? ? [? ?] ? ?]; split; simpl; try done; try apply land7_range;
      apply land_F8, Ha. }
  pose proof (Hk (p, Decoder.new buf)) as Hp'.
  destruct (decode_fields _) as [r [q d]]. apply Hp'. by split; [|split].
Qed.

Lemma load_field_ok r tag p :
  (forall data, SnapshotReader.bytes r tag = Some data -> Forall byte_ok data) ->
  pic_ok p -> pic_ok (load_field r tag p).2.
Proof.
  intros Hb Hp. unfold load_field. destruct (SnapshotReader.bytes r tag) as [buf|]; [|done].
  by apply decode_pic_ok; [apply Hb|].
Qed.

Lemma pic_load_ok bs d : Forall byte_ok bs -> dual_ok d -> dual_ok (load_state bs d).2.
Proof.
  intros Hb Hd. unfold load_state. destruct (SnapshotReader.parse bs _) as [r|e] eqn:Hp; [|done].
  destruct (parse_ok _ _ _ Hb Hp) as (_ & _ & _ & Hf).
  destruct (SnapshotReader.ensure_device_major _ _); [|done]. destruct power_on_valid as [Hpo _].
  pose proof (load_field_ok r TAG_MASTER new_power_on (Hf _) Hpo) as Hm.
  destruct (load_field r TAG_MASTER _) as [[u|e] m]; [|by split].
  pose proof (load_field_ok r TAG_SLAVE new_power_on (Hf _) Hpo) as Hs.
  destruct (load_field r TAG_SLAVE _) as [res s]. by split.
Qed.

Lemma pic_save_load d d0 : dual_ok d -> load_state (save_state d) d0 = (Ok tt, d).
Proof.
  intros [Hm Hs]. pose proof usize_max_ge.
  set (w := SnapshotWriter.field_bytes (SnapshotWriter.field_bytes
              (SnapshotWriter.new DEVICE_ID DEVICE_VERSION) TAG_MASTER (encode_pic d.(D.master)))
              TAG_SLAVE (encode_pic d.(D.slave))).
  assert (writer_ok w) as Hw.
  { unfold w. do 2 (apply field_bytes_ok; [|done|done]). by apply new_writer_ok. }
  assert (Z.of_nat (length (SnapshotWriter.finish w)) = 54) as Hl by reflexivity.
  assert (Z.of_nat (length (SnapshotWriter.fields w)) = 2) as Hl2 by reflexivity.
  pose proof (parse_finish w Hw ltac:(rewrite Hl2; done) ltac:(lia)) as Hp.
  unfold load_state. change (save_state d) with (SnapshotWriter.finish w).
  change DEVICE_ID with (SnapshotWriter.device_id w). rewrite Hp. clear Hp Hl Hw.
  change (SnapshotReader.ensure_device_major _ _) with (@Ok unit SnapshotError tt). cbv beta iota.
  unfold load_field.
  change (SnapshotReader.bytes _ TAG_MASTER) with (Some (encode_pic d.(D.master))). cbv iota.
  rewrite decode_encode by done. cbv beta iota.
  change (SnapshotReader.bytes _ TAG_SLAVE) with (Some (encode_pic d.(D.slave))). cbv iota.
  rewrite decode_encode by done. by destruct d.
Qed.

(** The interrupt controllers keep the snapshot contract: a saved state is
    restored exactly, whatever the receiver held before; loading arbitrary
    bytes leaves well-formed controllers even when it fails half-way. *)
Theorem pic_snapshot : @IoSnapshotSpec D.t io_snapshot dual_ok (fun d _ => d).
Proof. split; [intros; by apply pic_save_load|apply pic_load_ok]. Qed.
End Snapshots.

(** ** Concrete instances

    The initialisation sequence of a PC (vector bases 0x20 and 0x28, slave on
    IRQ 2), then IRQ 12 and, after its delivery, IRQ 1. *)
Definition init_legacy_pc (d : D.t) : D.t :=
  fold_left (fun d w => D.port_write_u8 d w.1 w.2)
    [(MASTER_CMD, 0x11); (MASTER_DATA, 0x20); (MASTER_DATA, 0x04); (MASTER_DATA, 0x01);
     (SLAVE_CMD, 0x11); (SLAVE_DATA, 0x28); (SLAVE_DATA, 0x02); (SLAVE_DATA, 0x01)] d.
Definition demo_pic : D.t := D.raise_irq (init_legacy_pc D.new) 12.
Definition demo_acked : D.t := (D.acknowledge demo_pic 0x2C).2.
Definition demo_nested : D.t := D.raise_irq demo_acked 1.

Lemma demo_pic_valid : dual_valid demo_pic.
Proof.
  apply set_irq_valid; [done|]. unfold init_legacy_pc. cbn [fold_left fst snd].
  repeat (apply port_write_valid; [done|]). split; apply power_on_valid.
Qed.

Lemma demo_pic_bases : distinct_bases demo_pic.
Proof. unfold distinct_bases. vm_compute. discriminate. Qed.

Lemma pic_pending_exact_witness : deliverable demo_pic.(D.slave) 0 4.
Proof.
  apply (pic_pending_exact demo_pic.(D.slave) 0 4);
    [exact (proj1 (proj2 demo_pic_valid))|by split|vm_compute; reflexivity].
Defined.

Lemma pic_ack_delivers_witness :
  requested demo_pic 12 = true /\ in_service demo_pic 12 = false /\
  exists d', D.acknowledge demo_pic 0x2C = (Some 12, d') /\ delivered demo_pic 0x2C 12 d' /\
    requested d' 12 = false /\ in_service d' 12 = true /\ in_service d' 2 = true.
Proof.
  split; [vm_compute; reflexivity|]. split; [vm_compute; reflexivity|].
  destruct (pic_ack_delivers demo_pic 0x2C) as (irq & d' & Ha & Hd);
    [exact demo_pic_valid|exact demo_pic_bases|vm_compute; reflexivity|].
  assert (irq = 12) as -> by (vm_compute in Ha; by injection Ha).
  exists d'. split; [exact Ha|]. split; [exact Hd|]. split; [exact (dv_consumed _ _ _ _ Hd)|].
  split; [apply (dv_service _ _ _ _ Hd); reflexivity|]. rewrite (dv_isr _ _ _ _ Hd) by lia. reflexivity.
Defined.

Lemma pic_nesting_witness :
  rank demo_pic.(D.master) (master_level demo_pic 1) < rank demo_pic.(D.master) (master_level demo_pic 12).
Proof.
  apply (pic_nesting demo_pic 0x2C 12 demo_acked demo_nested 0x21 1 (D.acknowledge demo_nested 0x21).2);
    [exact demo_pic_valid|exact demo_pic_bases|vm_compute; reflexivity|vm_compute; reflexivity
    |vm_compute; reflexivity|apply rtc_once, line_set; lia|vm_compute; reflexivity|vm_compute; reflexivity].
Defined.

Lemma pic_eoi_exact_witness :
  Z.testbit (write_command demo_acked.(D.slave) 0x20).(isr) 4 = true <->
  Z.testbit demo_acked.(D.slave).(isr) 4 = true /\ ~ top_in_service demo_acked.(D.slave) 4.
Proof.
  apply (pic_eoi_exact demo_acked.(D.slave) 0 4); [|lia|lia].
  exact (proj1 (proj2 (acknowledge_valid demo_pic 0x2C demo_pic_valid))).
Defined.

Lemma pic_invariant_witness : dual_valid (D.raise_irq (D.port_write_u8 D.new MASTER_DATA 0) 3).
Proof.
  apply pic_invariant. eapply rtc_l; [apply (step_write D.new MASTER_DATA 0); by split|].
  apply rtc_once, step_raise. lia.
Defined.

(** A snapshot with two fields, one of them written twice. *)
Definition demo_puts : list (Z * list Z) := [(2, [7; 8]); (1, [9]); (2, [10])].
Definition demo_id : list Z := [1; 2; 3; 4].

Lemma snapshot_roundtrip_witness :
  exists r, SnapshotReader.parse (H := wasm32)
      (SnapshotWriter.finish (put_all (SnapshotWriter.new demo_id (SnapshotVersion.new 1 0)) demo_puts)) demo_id
      = Ok r /\
    r.(SnapshotReader.header) = SnapshotHeader.mk FORMAT_VERSION demo_id (SnapshotVersion.new 1 0) /\
    forall tag, SnapshotReader.bytes r tag = last_put demo_puts tag.
Proof.
  apply (@snapshot_roundtrip wasm32 demo_id (SnapshotVersion.new 1 0) demo_puts);
    [reflexivity|by split|by split|repeat (apply Forall_cons; split; [split; by split|]); by apply Forall_nil
    |vm_compute; discriminate..].
Defined.

(** Fields out of order: accepted, and rewritten in order. *)
Definition demo_bytes : list Z :=
  MAGIC ++ [1; 0; 3; 0] ++ demo_id ++ [1; 0; 0; 0]
  ++ [5; 0; 1; 0; 0; 0; 42] ++ [4; 0; 0; 0; 0; 0].

Lemma snapshot_canonical_witness :
  exists h, SnapshotReader.parse (H := wasm32)
    (SnapshotWriter.finish (SnapshotWriter.mk demo_id (SnapshotVersion.new 1 0) [(4, []); (5, [42])]))
    demo_id = Ok (SnapshotReader.mk h [(4, []); (5, [42])]) /\
    h.(SnapshotHeader.device_version) = SnapshotVersion.new 1 0.
Proof.
  apply (@snapshot_canonical wasm32 demo_bytes demo_id
           (SnapshotReader.mk (SnapshotHeader.mk (SnapshotVersion.new 1 3) demo_id (SnapshotVersion.new 1 0))
              [(4, []); (5, [42])]));
    [repeat (apply Forall_cons; split; [by split|]); by apply Forall_nil
    |vm_compute; reflexivity|vm_compute; discriminate].
Defined.
