(* ===== verification/Lapic.v ===== *)
(** * Local APIC (crates/aero-interrupts/src/apic/local_apic.rs)

    The register state ([LapicState]), the public object ([LocalApic]: the
    state and the clock it reads) and its snapshot.  Methods on [&self] lock
    the state; here they return the new object.  The callbacks registered for
    EOI and ICR writes are not called inside: the operations return the list
    of notifications, in the order in which the code sends them. *)

From S2P Require Import Prelude Bytes Collections Snapshot.

Abbreviation LAPIC_MMIO_BASE := (0xFEE00000) (only parsing).
Abbreviation LAPIC_MMIO_SIZE := (0x1000) (only parsing).
Abbreviation REG_ID := (0x20) (only parsing).
Abbreviation REG_VERSION := (0x30) (only parsing).
Abbreviation REG_TPR := (0x80) (only parsing).
Abbreviation REG_PPR := (0xA0) (only parsing).
Abbreviation REG_EOI := (0xB0) (only parsing).
Abbreviation REG_LDR := (0xD0) (only parsing).
Abbreviation REG_DFR := (0xE0) (only parsing).
Abbreviation REG_SVR := (0xF0) (only parsing).
Abbreviation REG_ISR_BASE := (0x100) (only parsing).
Abbreviation REG_IRR_BASE := (0x200) (only parsing).
Abbreviation REG_ICR_LOW := (0x300) (only parsing).
Abbreviation REG_ICR_HIGH := (0x310) (only parsing).
Abbreviation REG_LVT_TIMER := (0x320) (only parsing).
Abbreviation REG_INITIAL_COUNT := (0x380) (only parsing).
Abbreviation REG_CURRENT_COUNT := (0x390) (only parsing).
Abbreviation REG_DIVIDE_CONFIG := (0x3E0) (only parsing).

(** ** Interrupt command register *)
Module DeliveryMode.
Inductive t :=
| Fixed | LowestPriority | Smi | RemoteRead | Nmi | Init | Startup | ExtInt | Reserved (bits : Z).
Definition from_bits (bits : Z) : t :=
  let b := bits &&& 0x7 in
  if b =? 0 then Fixed else if b =? 1 then LowestPriority else if b =? 2 then Smi
  else if b =? 3 then RemoteRead else if b =? 4 then Nmi else if b =? 5 then Init
  else if b =? 6 then Startup else if b =? 7 then ExtInt else Reserved b.
End DeliveryMode.

Module DestinationShorthand.
Inductive t := NoShorthand (* DestinationShorthand::None *) | SelfOnly | AllIncludingSelf | AllExcludingSelf.
Definition from_bits (bits : Z) : t :=
  let b := bits &&& 0x3 in
  if b =? 0 then NoShorthand else if b =? 1 then SelfOnly else if b =? 2 then AllIncludingSelf
  else AllExcludingSelf.
End DestinationShorthand.

Module Level.
Inductive t := Assert | Deassert.
Definition from_bit (bit : bool) : t := if bit then Assert else Deassert.
End Level.

Module Icr.
Record t := mk {
  vector : Z;
  delivery_mode : DeliveryMode.t;
  destination_mode : bool;
  level : Level.t;
  destination_shorthand : DestinationShorthand.t;
  destination : Z;
}.
Definition decode (icr_low icr_high : Z) : t :=
  mk (icr_low &&& 0xFF)
     (DeliveryMode.from_bits ((icr_low >>> 8) &&& 0x7))
     (nz ((icr_low >>> 11) &&& 1))
     (Level.from_bit (nz ((icr_low >>> 14) &&& 1)))
     (DestinationShorthand.from_bits ((icr_low >>> 18) &&& 0x3))
     ((icr_high >>> 24) &&& 0xFF).
End Icr.

(** ** Bitmaps of 256 vectors in eight words *)
Definition bitmap_word_index (vector : Z) : nat := Z.to_nat (vector / 32).
Definition bitmap_bit_mask (vector : Z) : Z := 1 <<< (vector mod 32).
Definition bitmap_is_set (bitmap : list Z) (vector : Z) : bool :=
  nz ((bitmap !!! bitmap_word_index vector) &&& bitmap_bit_mask vector).
Definition bitmap_set (bitmap : list Z) (vector : Z) : list Z :=
  alter (fun w => w ||| bitmap_bit_mask vector) (bitmap_word_index vector) bitmap.
Definition bitmap_clear (bitmap : list Z) (vector : Z) : list Z :=
  alter (fun w => w &&& unot 32 (bitmap_bit_mask vector)) (bitmap_word_index vector) bitmap.

(** [x.leading_zeros()] of a [u32]. *)
Definition leading_zeros32 (x : Z) : Z := if x =? 0 then 32 else 31 - Z.log2 x.

(** The loop over the words from the last one down. *)
Fixpoint highest_word (n : nat) (bitmap : list Z) : option Z :=
  match n with
  | O => None
  | S idx =>
      let word := bitmap !!! idx in
      if word =? 0 then highest_word idx bitmap
      else
        let bit := 31 - leading_zeros32 word in
        Some (wrap 8 (Z.of_nat idx * 32 + bit))
  end.
Definition bitmap_highest_set_bit (bitmap : list Z) : option Z := highest_word 8 bitmap.

Definition vector_priority_class (vector : Z) : Z := vector &&& 0xF0.

Definition is_apic_array_register (offset base : Z) : bool :=
  (base <=? offset) && (offset <? base + 0x80) && ((offset - base) mod 0x10 =? 0).
Definition apic_array_index (offset base : Z) : nat := Z.to_nat ((offset - base) / 0x10).

(** ** Register state *)
Inductive TimerMode := OneShot | Periodic.

Module LapicState.
Record t := mk {
  id : Z;
  tpr : Z;
  ldr : Z;
  dfr : Z;
  svr : Z;
  icr_low : Z;
  icr_high : Z;
  irr : list Z;
  isr : list Z;
  lvt_timer : Z;
  divide_config : Z;
  initial_count : Z;
  next_timer_deadline_ns : option Z;
}.

Definition new (id : Z) : t :=
  mk id 0 0 0xFFFFFFFF 0xFF 0 0 (replicate 8 0) (replicate 8 0) (1 <<< 16) 0 0 None.

(** Field assignments. *)
Definition with_id v s := mk v s.(tpr) s.(ldr) s.(dfr) s.(svr) s.(icr_low) s.(icr_high) s.(irr) s.(isr)
  s.(lvt_timer) s.(divide_config) s.(initial_count) s.(next_timer_deadline_ns).
Definition with_tpr v s := mk s.(id) v s.(ldr) s.(dfr) s.(svr) s.(icr_low) s.(icr_high) s.(irr) s.(isr)
  s.(lvt_timer) s.(divide_config) s.(initial_count) s.(next_timer_deadline_ns).
Definition with_ldr v s := mk s.(id) s.(tpr) v s.(dfr) s.(svr) s.(icr_low) s.(icr_high) s.(irr) s.(isr)
  s.(lvt_timer) s.(divide_config) s.(initial_count) s.(next_timer_deadline_ns).
Definition with_dfr v s := mk s.(id) s.(tpr) s.(ldr) v s.(svr) s.(icr_low) s.(icr_high) s.(irr) s.(isr)
  s.(lvt_timer) s.(divide_config) s.(initial_count) s.(next_timer_deadline_ns).
Definition with_svr v s := mk s.(id) s.(tpr) s.(ldr) s.(dfr) v s.(icr_low) s.(icr_high) s.(irr) s.(isr)
  s.(lvt_timer) s.(divide_config) s.(initial_count) s.(next_timer_deadline_ns).
Definition with_icr_low v s := mk s.(id) s.(tpr) s.(ldr) s.(dfr) s.(svr) v s.(icr_high) s.(irr) s.(isr)
  s.(lvt_timer) s.(divide_config) s.(initial_count) s.(next_timer_deadline_ns).
Definition with_icr_high v s := mk s.(id) s.(tpr) s.(ldr) s.(dfr) s.(svr) s.(icr_low) v s.(irr) s.(isr)
  s.(lvt_timer) s.(divide_config) s.(initial_count) s.(next_timer_deadline_ns).
Definition with_irr v s := mk s.(id) s.(tpr) s.(ldr) s.(dfr) s.(svr) s.(icr_low) s.(icr_high) v s.(isr)
  s.(lvt_timer) s.(divide_config) s.(initial_count) s.(next_timer_deadline_ns).
Definition with_isr v s := mk s.(id) s.(tpr) s.(ldr) s.(dfr) s.(svr) s.(icr_low) s.(icr_high) s.(irr) v
  s.(lvt_timer) s.(divide_config) s.(initial_count) s.(next_timer_deadline_ns).
Definition with_lvt_timer v s := mk s.(id) s.(tpr) s.(ldr) s.(dfr) s.(svr) s.(icr_low) s.(icr_high) s.(irr)
  s.(isr) v s.(divide_config) s.(initial_count) s.(next_timer_deadline_ns).
Definition with_divide_config v s := mk s.(id) s.(tpr) s.(ldr) s.(dfr) s.(svr) s.(icr_low) s.(icr_high)
  s.(irr) s.(isr) s.(lvt_timer) v s.(initial_count) s.(next_timer_deadline_ns).
Definition with_initial_count v s := mk s.(id) s.(tpr) s.(ldr) s.(dfr) s.(svr) s.(icr_low) s.(icr_high)
  s.(irr) s.(isr) s.(lvt_timer) s.(divide_config) v s.(next_timer_deadline_ns).
Definition with_next_timer_deadline_ns v s := mk s.(id) s.(tpr) s.(ldr) s.(dfr) s.(svr) s.(icr_low)
  s.(icr_high) s.(irr) s.(isr) s.(lvt_timer) s.(divide_config) s.(initial_count) v.

Definition matches_logical_dest (s : t) (dest : Z) : bool :=
  if dest =? 0xFF then true
  else
    let ldr_bits := wrap 8 (s.(ldr) >>> 24) in
    let mask := if nz ldr_bits then ldr_bits
                else if s.(id) <? 8 then wrap 8 (1 <<< s.(id)) else 0 in
    nz (dest &&& mask).

Definition enabled (s : t) : bool := nz (s.(svr) &&& (1 <<< 8)).

Definition ppr (s : t) : Z :=
  let tpr := s.(tpr) &&& 0xF0 in
  let isr_class := match bitmap_highest_set_bit s.(isr) with
                   | Some v => vector_priority_class v
                   | None => 0
                   end in
  Z.max tpr isr_class.

(** [(0u16..=255).rev()] *)
Definition vectors_down : list Z := map (fun k => 255 - Z.of_nat k) (seq 0 256).

Definition highest_deliverable_vector (s : t) (ppr : Z) : option Z :=
  find (fun vector => bitmap_is_set s.(irr) vector && (ppr <? vector_priority_class vector)) vectors_down.

Definition ack (s : t) (vector : Z) : bool * t :=
  if negb (enabled s) then (false, s)
  else if negb (bitmap_is_set s.(irr) vector) then (false, s)
  else if vector_priority_class vector <=? ppr s then (false, s)
  else (true, with_isr (bitmap_set s.(isr) vector) (with_irr (bitmap_clear s.(irr) vector) s)).

Definition eoi (s : t) : option Z * t :=
  match bitmap_highest_set_bit s.(isr) with
  | None => (None, s)
  | Some vector => (Some vector, with_isr (bitmap_clear s.(isr) vector) s)
  end.

Definition inject_fixed_interrupt_inner (s : t) (vector : Z) : t :=
  if negb (enabled s) then s else with_irr (bitmap_set s.(irr) vector) s.

Definition timer_mode (s : t) : TimerMode :=
  if (s.(lvt_timer) >>> 17) &&& 3 =? 1 then Periodic else OneShot.
Definition timer_masked (s : t) : bool := nz (s.(lvt_timer) &&& (1 <<< 16)).
Definition timer_vector (s : t) : Z := s.(lvt_timer) &&& 0xFF.
Definition timer_divisor (s : t) : Z :=
  let c := s.(divide_config) &&& 0x0B in
  if c =? 0x0 then 2 else if c =? 0x1 then 4 else if c =? 0x2 then 8 else if c =? 0x3 then 16
  else if c =? 0x8 then 32 else if c =? 0x9 then 64 else if c =? 0xA then 128
  else if c =? 0xB then 1 else 2.
Definition timer_tick_ns (s : t) : Z := timer_divisor s.

Definition current_count_at (s : t) (now : Z) : Z :=
  match s.(next_timer_deadline_ns) with
  | None => 0
  | Some deadline =>
      if s.(initial_count) =? 0 then 0
      else if deadline <=? now then 0
      else
        let tick_ns := timer_tick_ns s in
        let remaining_ns := deadline - now in
        let remaining_ticks := (remaining_ns + tick_ns - 1) / tick_ns in
        Z.min remaining_ticks (2 ^ 32 - 1)
  end.

Definition poll_timer (s : t) (now : Z) : t :=
  match s.(next_timer_deadline_ns) with
  | None => s
  | Some deadline =>
      if s.(initial_count) =? 0 then with_next_timer_deadline_ns None s
      else if now <? deadline then s
      else
        let tick_ns := timer_tick_ns s in
        let period_ns := saturating_mul 64 s.(initial_count) tick_ns in
        if period_ns =? 0 then with_next_timer_deadline_ns None s
        else
          let s := if enabled s && negb (timer_masked s)
                   then inject_fixed_interrupt_inner s (timer_vector s) else s in
          match timer_mode s with
          | OneShot => with_next_timer_deadline_ns None s
          | Periodic =>
              let elapsed := now - deadline in
              let periods := elapsed / period_ns + 1 in
              with_next_timer_deadline_ns
                (Some (saturating_add 64 deadline (saturating_mul 64 periods period_ns))) s
          end
  end.

Definition write_divide_config (s : t) (now value : Z) : t :=
  let s := poll_timer s now in
  let remaining_ticks := current_count_at s now in
  let s := with_divide_config value s in
  if remaining_ticks =? 0 then s
  else
    let tick_ns := timer_tick_ns s in
    with_next_timer_deadline_ns
      (Some (saturating_add 64 now (saturating_mul 64 remaining_ticks tick_ns))) s.

Definition write_initial_count (s : t) (now value : Z) : t :=
  let s := poll_timer s now in
  let s := with_initial_count value s in
  if value =? 0 then with_next_timer_deadline_ns None s
  else
    let tick_ns := timer_tick_ns s in
    let period_ns := saturating_mul 64 value tick_ns in
    with_next_timer_deadline_ns (Some (saturating_add 64 now period_ns)) s.

Definition read_u32 (s : t) (now offset : Z) : Z :=
  if offset =? REG_ID then wrap 32 (s.(id) <<< 24)
  else if offset =? REG_VERSION then 0x00060014
  else if offset =? REG_TPR then s.(tpr)
  else if offset =? REG_PPR then ppr s
  else if offset =? REG_EOI then 0
  else if offset =? REG_LDR then s.(ldr)
  else if offset =? REG_DFR then s.(dfr)
  else if offset =? REG_SVR then s.(svr)
  else if offset =? REG_ICR_LOW then s.(icr_low)
  else if offset =? REG_ICR_HIGH then s.(icr_high)
  else if offset =? REG_LVT_TIMER then s.(lvt_timer)
  else if offset =? REG_INITIAL_COUNT then s.(initial_count)
  else if offset =? REG_CURRENT_COUNT then current_count_at s now
  else if offset =? REG_DIVIDE_CONFIG then s.(divide_config)
  else if is_apic_array_register offset REG_ISR_BASE then
    s.(isr) !!! apic_array_index offset REG_ISR_BASE
  else if is_apic_array_register offset REG_IRR_BASE then
    s.(irr) !!! apic_array_index offset REG_IRR_BASE
  else 0.

Definition write_u32 (s : t) (now offset value : Z) : option Z * t :=
  if offset =? REG_ID then (None, with_id (wrap 8 (value >>> 24)) s)
  else if offset =? REG_TPR then (None, with_tpr (wrap 8 value) s)
  else if offset =? REG_EOI then eoi s
  else if offset =? REG_LDR then (None, with_ldr (value &&& 0xFF000000) s)
  else if offset =? REG_DFR then (None, with_dfr ((value &&& 0xF0000000) ||| 0x0FFFFFFF) s)
  else if offset =? REG_SVR then (None, with_svr value s)
  else if offset =? REG_ICR_LOW then (None, with_icr_low value s)
  else if offset =? REG_ICR_HIGH then (None, with_icr_high value s)
  else if offset =? REG_LVT_TIMER then (None, with_lvt_timer value s)
  else if offset =? REG_DIVIDE_CONFIG then (None, write_divide_config s now value)
  else if offset =? REG_INITIAL_COUNT then (None, write_initial_count s now value)
  else (None, s).
End LapicState.

(** ** The sink interface of interrupt controllers *)
Class LapicInterruptSink (S : Type) := {
  apic_id : S -> Z;
  inject_external_interrupt : S -> Z -> S;
  processor_priority : S -> Z;
  matches_logical_destination : S -> Z -> bool;
}.

(** ** The object *)
Module LocalApic.
(** [now] is what the clock reads; time passes between the operations. *)
Record t := mk { now : Z; state : LapicState.t }.
Definition with_state s l := mk l.(now) s.

Definition with_clock (now apic_id : Z) : t := mk now (LapicState.new apic_id).
(** [NullClock] reads 0. *)
Definition new (apic_id : Z) : t := with_clock 0 apic_id.
(** The reset itself, and its [debug_assert_eq!] on the argument, which only
    builds with debug assertions check. *)
Definition reset_state_asserts (l : t) (apic_id : Z) : bool := apic_id =? l.(state).(LapicState.id).
Definition reset_state (l : t) (apic_id : Z) : t :=
  with_state (LapicState.new l.(state).(LapicState.id)) l.
Definition apic_id (l : t) : Z := l.(state).(LapicState.id).
Definition enabled (l : t) : bool := LapicState.enabled l.(state).
Definition tpr (l : t) : Z := l.(state).(LapicState.tpr).
Definition set_tpr (l : t) (tpr : Z) : t := with_state (LapicState.with_tpr tpr l.(state)) l.
Definition set_tpr_from_cr8 (l : t) (cr8 : Z) : t :=
  set_tpr l (wrap 8 ((wrap 8 cr8 &&& 0x0f) <<< 4)).
Definition poll (l : t) : t := with_state (LapicState.poll_timer l.(state) l.(now)) l.

Definition inject_fixed_interrupt (l : t) (vector : Z) : t :=
  let l := poll l in
  with_state (LapicState.inject_fixed_interrupt_inner l.(state) vector) l.

Definition get_pending_vector (l : t) : option Z * t :=
  let l := poll l in
  let s := l.(state) in
  if negb (LapicState.enabled s) then (None, l)
  else (LapicState.highest_deliverable_vector s (LapicState.ppr s), l).

Definition is_pending (l : t) (vector : Z) : bool := bitmap_is_set l.(state).(LapicState.irr) vector.

Definition ack (l : t) (vector : Z) : bool * t :=
  let l := poll l in
  let '(r, s) := LapicState.ack l.(state) vector in (r, with_state s l).

(** The EOI notification, if any. *)
Definition eoi (l : t) : list Z * t :=
  let l := poll l in
  let '(v, s) := LapicState.eoi l.(state) in
  (match v with Some v => [v] | None => [] end, with_state s l).

Definition mmio_read (l : t) (offset : Z) (len : nat) : list Z * t :=
  match len with
  | O => ([], l)
  | _ =>
      let l := poll l in
      (map (fun idx =>
         let off := wrapping_add 64 offset (Z.of_nat idx) in
         if LAPIC_MMIO_SIZE <=? off then 0
         else
           let word := LapicState.read_u32 l.(state) l.(now) (off &&& unot 64 3) in
           let shift := (off &&& 3) * 8 in
           (word >>> shift) &&& 0xFF) (seq 0 len), l)
  end.

(** The [for byte_idx in start_in_word..4] loop: [n] iterations are left. *)
Fixpoint merge_bytes (n : nat) (offset word_offset : Z) (data : list Z) (byte_idx : Z)
    (idx : nat) (word : Z) : nat * Z :=
  match n with
  | O => (idx, word)
  | S n =>
      match data !! idx with
      | None => (idx, word)
      | Some byte =>
          let off := wrapping_add 64 offset (Z.of_nat idx) in
          if LAPIC_MMIO_SIZE <=? off then
            merge_bytes n offset word_offset data (byte_idx + 1) (idx + 1) word
          else if negb (off &&& unot 64 3 =? word_offset) then (idx, word)
          else
            let shift := byte_idx * 8 in
            let word := word &&& unot 32 (wrap 32 (0xFF <<< shift)) in
            let word := word ||| wrap 32 (byte <<< shift) in
            merge_bytes n offset word_offset data (byte_idx + 1) (idx + 1) word
      end
  end.

(** What [mmio_write] tells the platform after releasing the lock. *)
Inductive notification := NotifyEoi (vector : Z) | NotifyIcr (icr : Icr.t).

(** The [while idx < data.len()] loop; every iteration consumes a byte, so the
    length of the data is enough fuel. *)
Fixpoint write_loop (fuel : nat) (offset : Z) (data : list Z) (now : Z) (idx : nat)
    (s : LapicState.t) : list Z * list Icr.t * LapicState.t :=
  match fuel with
  | O => ([], [], s)
  | S fuel =>
      if (length data <=? idx)%nat then ([], [], s)
      else
        let off := wrapping_add 64 offset (Z.of_nat idx) in
        if LAPIC_MMIO_SIZE <=? off then write_loop fuel offset data now (idx + 1) s
        else
          let word_offset := off &&& unot 64 3 in
          let start_in_word := off &&& 3 in
          let word := LapicState.read_u32 s now word_offset in
          let '(idx, word) :=
            merge_bytes (Z.to_nat (4 - start_in_word)) offset word_offset data start_in_word idx word in
          let '(ev, s) := LapicState.write_u32 s now word_offset word in
          let icr := if word_offset =? REG_ICR_LOW
                     then [Icr.decode word s.(LapicState.icr_high)] else [] in
          let '(eois, icrs, s) := write_loop fuel offset data now idx s in
          (match ev with Some v => v :: eois | None => eois end, icr ++ icrs, s)
  end.

Definition mmio_write (l : t) (offset : Z) (data : list Z) : list notification * t :=
  match data with
  | [] => ([], l)
  | _ =>
      let l := poll l in
      let '(eois, icrs, s) := write_loop (length data) offset data l.(now) 0 l.(state) in
      (map NotifyEoi eois ++ map NotifyIcr icrs, with_state s l)
  end.

Definition interrupt_sink : LapicInterruptSink t := {|
  Lapic.apic_id := apic_id;
  Lapic.inject_external_interrupt := inject_fixed_interrupt;
  Lapic.processor_priority l := LapicState.ppr l.(state);
  Lapic.matches_logical_destination l dest := LapicState.matches_logical_dest l.(state) dest;
|}.
End LocalApic.
#[global] Existing Instance LocalApic.interrupt_sink.

(** ** Snapshot *)

Module LapicSnapshot.
Abbreviation TAG_ID := (1) (only parsing).
Abbreviation TAG_TPR := (2) (only parsing).
Abbreviation TAG_SVR := (3) (only parsing).
Abbreviation TAG_ICR_LOW := (4) (only parsing).
Abbreviation TAG_ICR_HIGH := (5) (only parsing).
Abbreviation TAG_IRR := (6) (only parsing).
Abbreviation TAG_ISR := (7) (only parsing).
Abbreviation TAG_LVT_TIMER := (8) (only parsing).
Abbreviation TAG_DIVIDE_CONFIG := (9) (only parsing).
Abbreviation TAG_INITIAL_COUNT := (10) (only parsing).
Abbreviation TAG_NEXT_TIMER_DEADLINE_NS := (11) (only parsing).
Abbreviation TAG_LDR := (12) (only parsing).
Abbreviation TAG_DFR := (13) (only parsing).

(** [*b"LAPC"] *)
Abbreviation DEVICE_ID := ([0x4C; 0x41; 0x50; 0x43]) (only parsing).
Abbreviation DEVICE_VERSION := (SnapshotVersion.new 1 0) (only parsing).

Definition encode_words (words : list Z) : list Z :=
  Encoder.finish (fold_left (fun e word => Encoder.u32 word e) words Encoder.new).

Definition save_state (l : LocalApic.t) : list Z :=
  let s := l.(LocalApic.state) in
  let w := SnapshotWriter.new DEVICE_ID DEVICE_VERSION in
  let w := SnapshotWriter.field_u8 w TAG_ID s.(LapicState.id) in
  let w := SnapshotWriter.field_u8 w TAG_TPR s.(LapicState.tpr) in
  let w := SnapshotWriter.field_u32 w TAG_SVR s.(LapicState.svr) in
  let w := SnapshotWriter.field_u32 w TAG_ICR_LOW s.(LapicState.icr_low) in
  let w := SnapshotWriter.field_u32 w TAG_ICR_HIGH s.(LapicState.icr_high) in
  let w := SnapshotWriter.field_bytes w TAG_IRR (encode_words s.(LapicState.irr)) in
  let w := SnapshotWriter.field_bytes w TAG_ISR (encode_words s.(LapicState.isr)) in
  let w := SnapshotWriter.field_u32 w TAG_LVT_TIMER s.(LapicState.lvt_timer) in
  let w := SnapshotWriter.field_u32 w TAG_DIVIDE_CONFIG s.(LapicState.divide_config) in
  let w := SnapshotWriter.field_u32 w TAG_INITIAL_COUNT s.(LapicState.initial_count) in
  let w := match s.(LapicState.next_timer_deadline_ns) with
           | Some deadline => SnapshotWriter.field_u64 w TAG_NEXT_TIMER_DEADLINE_NS deadline
           | None => w
           end in
  let w := SnapshotWriter.field_u32 w TAG_LDR s.(LapicState.ldr) in
  let w := SnapshotWriter.field_u32 w TAG_DFR s.(LapicState.dfr) in
  SnapshotWriter.finish w.

Section Load.
Context `{Target}.

(** [for word in &mut array { *word = d.u32()?; }]: the words before a failing
    read keep their new values. *)
Fixpoint read_words (words : list Z) (d : Decoder.t) : SnapshotResult unit * list Z * Decoder.t :=
  match words with
  | [] => (Ok tt, [], d)
  | w :: rest =>
      match Decoder.u32 d with
      | (Err e, d) => (Err e, w :: rest, d)
      | (Ok v, d) => let '(r, rest, d) := read_words rest d in (r, v :: rest, d)
      end
  end.

Definition load_words (buf : option (list Z)) (get : LapicState.t -> list Z)
    (set : list Z -> LapicState.t -> LapicState.t) : st LapicState.t SnapshotError unit := fun s =>
  match buf with
  | None => (Ok tt, s)
  | Some buf =>
      match read_words (get s) (Decoder.new buf) with
      | (Err e, words, _) => (Err e, set words s)
      | (Ok _, words, d) => (Decoder.finish d, set words s)
      end
  end.

Definition load_fields (r : SnapshotReader.t) : st LapicState.t SnapshotError unit :=
  let! _ := load_opt LapicState.with_id (SnapshotReader.u8 r TAG_ID) in
  let! _ := load_opt LapicState.with_tpr (SnapshotReader.u8 r TAG_TPR) in
  let! _ := load_opt LapicState.with_svr (SnapshotReader.u32 r TAG_SVR) in
  let! _ := load_opt LapicState.with_icr_low (SnapshotReader.u32 r TAG_ICR_LOW) in
  let! _ := load_opt LapicState.with_icr_high (SnapshotReader.u32 r TAG_ICR_HIGH) in
  let! _ := load_opt (fun v => LapicState.with_ldr (v &&& 0xFF000000)) (SnapshotReader.u32 r TAG_LDR) in
  let! _ := load_opt (fun v => LapicState.with_dfr ((v &&& 0xF0000000) ||| 0x0FFFFFFF))
              (SnapshotReader.u32 r TAG_DFR) in
  let! _ := load_words (SnapshotReader.bytes r TAG_IRR) LapicState.irr LapicState.with_irr in
  let! _ := load_words (SnapshotReader.bytes r TAG_ISR) LapicState.isr LapicState.with_isr in
  let! _ := load_opt LapicState.with_lvt_timer (SnapshotReader.u32 r TAG_LVT_TIMER) in
  let! _ := load_opt LapicState.with_divide_config (SnapshotReader.u32 r TAG_DIVIDE_CONFIG) in
  let! _ := load_opt LapicState.with_initial_count (SnapshotReader.u32 r TAG_INITIAL_COUNT) in
  fun s =>
    match SnapshotReader.u64 r TAG_NEXT_TIMER_DEADLINE_NS with
    | Err e => (Err e, s)
    | Ok o => (Ok tt, LapicState.with_next_timer_deadline_ns o s)
    end.

Definition restore_state (bytes : list Z) : st LocalApic.t SnapshotError unit := fun l =>
  match SnapshotReader.parse bytes DEVICE_ID with
  | Err e => (Err e, l)
  | Ok r =>
      match SnapshotReader.ensure_device_major r DEVICE_VERSION.(SnapshotVersion.major) with
      | Err e => (Err e, l)
      | Ok _ =>
          let '(res, s) := load_fields r l.(LocalApic.state) in (res, LocalApic.with_state s l)
      end
  end.

Definition load_state : list Z -> st LocalApic.t SnapshotError unit := restore_state.

Definition io_snapshot : IoSnapshot LocalApic.t := {|
  Snapshot.DEVICE_ID := DEVICE_ID;
  Snapshot.DEVICE_VERSION := DEVICE_VERSION;
  Snapshot.save_state := save_state;
  Snapshot.load_state := load_state;
|}.
End Load.
End LapicSnapshot.
