(* ===== verification/LapicFacts.v ===== *)
(** * Facts about the local APIC model: bitmaps, priorities, the timer *)

From S2P Require Import Prelude Bytes Collections Snapshot SnapshotFacts Lapic.
Import LapicState.

(** ** Bitmaps *)
Definition bm_ok (b : list Z) : Prop := length b = 8%nat /\ Forall (uint 32) b.
Definition vector_ok (v : Z) : Prop := 0 <= v < 256.

Lemma vector_split v : vector_ok v -> (bitmap_word_index v < 8)%nat /\ 0 <= v mod 32 < 32.
Proof.
  intros Hv. unfold vector_ok, bitmap_word_index in *.
  pose proof (Z.div_lt_upper_bound v 32 8). pose proof (Z.div_pos v 32).
  pose proof (Z.mod_pos_bound v 32). lia.
Qed.

Lemma vector_eq u v :
  vector_ok u -> vector_ok v ->
  bitmap_word_index u = bitmap_word_index v -> u mod 32 = v mod 32 -> u = v.
Proof.
  unfold vector_ok, bitmap_word_index. intros Hu Hv Hi Hm.
  pose proof (Z.div_mod u 32). pose proof (Z.div_mod v 32).
  pose proof (Z.div_pos u 32). pose proof (Z.div_pos v 32). lia.
Qed.

Lemma is_set_testbit b v :
  vector_ok v -> bitmap_is_set b v = Z.testbit (b !!! bitmap_word_index v) (v mod 32).
Proof.
  intros Hv. pose proof (vector_split v Hv). unfold bitmap_is_set, bitmap_bit_mask.
  rewrite Z.shiftl_1_l. apply nz_land_pow2. lia.
Qed.

Lemma bm_word b i : bm_ok b -> (i < 8)%nat -> b !! i = Some (b !!! i) /\ uint 32 (b !!! i).
Proof.
  intros [Hl Hw] Hi. destruct (lookup_lt_is_Some_2 b i) as [w Hb]; [lia|].
  rewrite (list_lookup_total_correct _ _ _ Hb). split; [done|]. by apply (Forall_lookup_1 _ _ _ _ Hw Hb).
Qed.

Lemma alter_total f (b : list Z) i j :
  (i < length b)%nat -> alter f i b !!! j = if decide (i = j) then f (b !!! i) else b !!! j.
Proof.
  intros Hi. case_decide; [subst; by apply list_lookup_total_alter_eq|by apply list_lookup_total_alter_ne].
Qed.

Lemma alter_ok f b i :
  bm_ok b -> (forall w, uint 32 w -> uint 32 (f w)) -> bm_ok (alter f i b).
Proof.
  intros [Hl Hw] Hf. split; [by rewrite length_alter|].
  apply Forall_lookup. intros j w Hj. destruct (decide (i = j)) as [->|Hne].
  - rewrite list_lookup_alter_eq in Hj. destruct (b !! j) as [w'|] eqn:Hb; [|done]. simplify_eq/=.
    apply Hf. by apply (Forall_lookup_1 _ _ _ _ Hw Hb).
  - rewrite list_lookup_alter_ne in Hj by done. by apply (Forall_lookup_1 _ _ _ _ Hw Hj).
Qed.

Lemma bitmap_set_ok b v : bm_ok b -> vector_ok v -> bm_ok (bitmap_set b v).
Proof.
  intros Hb Hv. pose proof (vector_split v Hv). apply alter_ok; [done|]. intros w Hw.
  apply uint_lor; [lia|done|]. unfold bitmap_bit_mask. rewrite Z.shiftl_1_l.
  split; [apply Z.pow_nonneg; lia|]. apply Z.pow_lt_mono_r; lia.
Qed.

Lemma bitmap_clear_ok b v : bm_ok b -> bm_ok (bitmap_clear b v).
Proof.
  intros Hb. apply alter_ok; [done|]. intros w Hw. apply uint_land_l; [lia|done|]. apply uint_unot. lia.
Qed.

Lemma is_set_set b v u :
  bm_ok b -> vector_ok v -> vector_ok u ->
  bitmap_is_set (bitmap_set b v) u = bitmap_is_set b u || (u =? v).
Proof.
  intros Hb Hv Hu. destruct (vector_split v Hv) as [Hi Hm], (vector_split u Hu) as [Hi' Hm'].
  rewrite !is_set_testbit by done. unfold bitmap_set.
  rewrite alter_total by (destruct Hb; lia). unfold bitmap_bit_mask. case_decide as Hd.
  - rewrite Z.lor_spec, Z.shiftl_1_l, testbit_pow2, Hd by lia. f_equal.
    destruct (Z.eqb_spec (v mod 32) (u mod 32)), (Z.eqb_spec u v); try done; [|congruence].
    exfalso. by eauto using vector_eq.
  - destruct (Z.eqb_spec u v) as [->|]; [done|]. by rewrite orb_false_r.
Qed.

Lemma is_set_clear b v u :
  bm_ok b -> vector_ok v -> vector_ok u ->
  bitmap_is_set (bitmap_clear b v) u = bitmap_is_set b u && negb (u =? v).
Proof.
  intros Hb Hv Hu. destruct (vector_split v Hv) as [Hi Hm], (vector_split u Hu) as [Hi' Hm'].
  rewrite !is_set_testbit by done. unfold bitmap_clear.
  rewrite alter_total by (destruct Hb; lia). unfold bitmap_bit_mask. case_decide as Hd.
  - rewrite Z.land_spec, unot_spec, Z.shiftl_1_l, testbit_pow2 by lia.
    rewrite (proj2 (Z.ltb_lt _ _)), Hd by lia. f_equal. simpl.
    destruct (Z.eqb_spec (v mod 32) (u mod 32)), (Z.eqb_spec u v); try done; [|congruence].
    exfalso. by eauto using vector_eq.
  - destruct (Z.eqb_spec u v) as [->|]; [done|]. by rewrite andb_true_r.
Qed.

(** Bitmaps with the same members are equal. *)
Lemma bitmap_ext b1 b2 :
  bm_ok b1 -> bm_ok b2 -> (forall v, vector_ok v -> bitmap_is_set b1 v = bitmap_is_set b2 v) -> b1 = b2.
Proof.
  intros H1 H2 He. apply list_eq_same_length with 8%nat; [apply H2|apply H1|].
  intros i x y Hi Hx Hy. destruct (bm_word b1 i H1 Hi) as [E1 U1], (bm_word b2 i H2 Hi) as [E2 U2].
  simplify_eq. apply Z.bits_inj'. intros k Hk. destruct (Z.ltb_spec k 32).
  - set (v := Z.of_nat i * 32 + k). assert (vector_ok v) as Hv by (unfold vector_ok, v; lia).
    specialize (He v Hv). rewrite !is_set_testbit in He by done.
    assert (bitmap_word_index v = i) as Ei.
    { unfold bitmap_word_index, v. rewrite Z.div_add_l, Z.div_small by lia. lia. }
    assert (v mod 32 = k) as Ek.
    { unfold v. rewrite Z.add_comm, Z.mod_add, Z.mod_small by lia. done. }
    by rewrite Ei, Ek in He.
  - rewrite (testbit_high 32 (b1 !!! i)), (testbit_high 32 (b2 !!! i)) by (done || lia). done.
Qed.

Lemma highest_word_spec n b :
  bm_ok b -> (n <= 8)%nat ->
  match highest_word n b with
  | Some v => 0 <= v < 32 * Z.of_nat n /\ bitmap_is_set b v = true /\
      forall u, v < u < 32 * Z.of_nat n -> bitmap_is_set b u = false
  | None => forall u, 0 <= u < 32 * Z.of_nat n -> bitmap_is_set b u = false
  end.
Proof.
  intros Hb. induction n as [|n IH]; intros Hn; simpl; [lia|].
  destruct (bm_word b n Hb ltac:(lia)) as [_ Hw]. set (w := b !!! n) in *.
  assert (forall u, 32 * Z.of_nat n <= u < 32 * Z.of_nat (S n) ->
            bitmap_is_set b u = Z.testbit w (u - 32 * Z.of_nat n)) as Hword.
  { intros u Hu. rewrite is_set_testbit by (unfold vector_ok; lia). unfold w, bitmap_word_index. f_equal.
    - f_equal. rewrite <- (Nat2Z.id n). f_equal. symmetry. apply Z.div_unique with (u - 32 * Z.of_nat n); lia.
    - symmetry. apply Z.mod_unique with (Z.of_nat n); lia. }
  destruct (Z.eqb_spec w 0) as [E0|Hnz].
  - specialize (IH ltac:(lia)). rewrite E0 in Hword.
    assert (forall u, 32 * Z.of_nat n <= u < 32 * Z.of_nat (S n) -> bitmap_is_set b u = false) as Hz
      by (intros u Hu; rewrite Hword by done; apply Z.bits_0).
    destruct (highest_word n b) as [v|].
    + destruct IH as (Hv & Hs & Hmax). split_and!; try lia; try done.
      intros u Hu. destruct (Z.ltb_spec u (32 * Z.of_nat n)); [apply Hmax; lia|apply Hz; lia].
    + intros u Hu. destruct (Z.ltb_spec u (32 * Z.of_nat n)); [apply IH; lia|apply Hz; lia].
  - unfold leading_zeros32. rewrite (proj2 (Z.eqb_neq _ _)) by done.
    destruct Hw as [Hw0 Hw32]. assert (0 < w) as Hpos by lia.
    pose proof (Z.log2_nonneg w). assert (Z.log2 w < 32) by (by apply Z.log2_lt_pow2).
    replace (31 - (31 - Z.log2 w)) with (Z.log2 w) by lia.
    rewrite wrap_small by (unfold uint; change (2 ^ 8) with 256; lia). split_and!; [lia|lia|..].
    + rewrite Hword by lia. replace (_ - _) with (Z.log2 w) by lia. by apply Z.bit_log2.
    + intros u Hu. rewrite Hword by lia. apply Z.bits_above_log2; lia.
Qed.

Lemma highest_set_bit_spec b :
  bm_ok b ->
  match bitmap_highest_set_bit b with
  | Some v => vector_ok v /\ bitmap_is_set b v = true /\
      forall u, vector_ok u -> bitmap_is_set b u = true -> u <= v
  | None => forall u, vector_ok u -> bitmap_is_set b u = false
  end.
Proof.
  intros Hb. pose proof (highest_word_spec 8 b Hb ltac:(lia)) as Hs. unfold bitmap_highest_set_bit.
  destruct (highest_word 8 b) as [v|]; [|exact Hs]. destruct Hs as (Hv & Hset & Hmax).
  split_and!; try done. intros u Hu Hs. destruct (Z.leb_spec u v); [done|].
  unfold vector_ok in Hu. rewrite Hmax in Hs by lia. done.
Qed.

(** ** Priority classes *)
Lemma class_eq v : vector_ok v -> vector_priority_class v = 16 * (v / 16).
Proof.
  intros Hv. unfold vector_priority_class, vector_ok in *.
  replace (v &&& 0xF0) with (Z.ldiff v (Z.ones 4)).
  - rewrite ldiff_ones by lia. change (2 ^ 4) with 16. pose proof (Z.div_mod v 16). lia.
  - bitwise. rewrite Z.testbit_ones_nonneg by lia. destruct (Z.ltb_spec i 8).
    + f_equal. assert (i = 0 \/ i = 1 \/ i = 2 \/ i = 3 \/ i = 4 \/ i = 5 \/ i = 6 \/ i = 7) as Hc by lia.
      by repeat destruct Hc as [->|Hc]; subst.
    + rewrite (testbit_high 8 v) by (unfold uint; lia). done.
Qed.

Lemma class_mono u v : vector_ok u -> vector_ok v -> u <= v -> vector_priority_class u <= vector_priority_class v.
Proof.
  intros Hu Hv Huv. rewrite !class_eq by done. pose proof (Z.div_le_mono u v 16). lia.
Qed.

Lemma vectors_down_lookup k v : vectors_down !! k = Some v <-> vector_ok v /\ Z.of_nat k = 255 - v.
Proof.
  unfold vectors_down, vector_ok. rewrite list_lookup_fmap_Some.
  setoid_rewrite lookup_seq. split.
  - intros (x & -> & [-> ?]). lia.
  - intros [Hv Hk]. exists k. lia.
Qed.

(** ** Well-formed states *)
Record lapic_ok (s : t) : Prop := {
  lo_id : uint 8 s.(id);
  lo_tpr : uint 8 s.(tpr);
  lo_ldr : uint 32 s.(ldr) /\ s.(ldr) &&& 0xFF000000 = s.(ldr);
  lo_dfr : uint 32 s.(dfr) /\ (s.(dfr) &&& 0xF0000000) ||| 0x0FFFFFFF = s.(dfr);
  lo_svr : uint 32 s.(svr);
  lo_icr_low : uint 32 s.(icr_low);
  lo_icr_high : uint 32 s.(icr_high);
  lo_irr : bm_ok s.(irr);
  lo_isr : bm_ok s.(isr);
  lo_lvt : uint 32 s.(lvt_timer);
  lo_div : uint 32 s.(divide_config);
  lo_init : uint 32 s.(initial_count);
  lo_deadline : match s.(next_timer_deadline_ns) with Some d => uint 64 d | None => True end;
}.

Lemma new_lapic_ok i : uint 8 i -> lapic_ok (new i).
Proof.
  intros. assert (bm_ok (replicate 8 0)) by (split; [done|by apply Forall_replicate]). by split.
Qed.

Definition requested (s : t) (v : Z) : bool := bitmap_is_set s.(irr) v.
Definition in_service (s : t) (v : Z) : bool := bitmap_is_set s.(isr) v.

(** The processor priority is the higher of the task priority class and the
    class of the interrupt in service. *)
Lemma ppr_lt s c :
  lapic_ok s -> 0 < c ->
  ppr s < c <->
  s.(tpr) &&& 0xF0 < c /\
  (forall u, vector_ok u -> in_service s u = true -> vector_priority_class u < c).
Proof.
  intros Hs Hc. unfold ppr, in_service. pose proof (highest_set_bit_spec _ (lo_isr _ Hs)) as Hh.
  destruct (bitmap_highest_set_bit (isr s)) as [h|].
  - destruct Hh as (Hv & Hset & Hmax). split.
    + intros Hlt. split; [lia|]. intros u Hu Hsu. pose proof (class_mono u h Hu Hv (Hmax u Hu Hsu)). lia.
    + intros [? Hall]. specialize (Hall h Hv Hset). lia.
  - split; [|intros [? _]; lia]. intros Hlt. split; [lia|]. intros u Hu Hsu. by rewrite Hh in Hsu.
Qed.

Lemma ppr_nonneg s : lapic_ok s -> 0 <= ppr s.
Proof.
  intros Hs. unfold ppr. apply Z.max_le_iff. left. apply Z.land_nonneg. left. apply Hs.
Qed.

(** [v] is the interrupt the CPU should take. *)
Definition deliverable (s : t) (v : Z) : Prop :=
  enabled s = true /\ vector_ok v /\ requested s v = true /\
  (forall u, vector_ok u -> requested s u = true -> u <= v) /\
  s.(tpr) &&& 0xF0 < vector_priority_class v /\
  (forall u, vector_ok u -> in_service s u = true -> vector_priority_class u < vector_priority_class v).

Lemma highest_deliverable_exact s v :
  lapic_ok s -> enabled s = true ->
  highest_deliverable_vector s (ppr s) = Some v <-> deliverable s v.
Proof.
  intros Hs Hen. unfold highest_deliverable_vector, deliverable, requested. rewrite find_first_Some.
  pose proof (ppr_nonneg s Hs). split.
  - intros (k & (Hv & Hk)%vectors_down_lookup & [Hset Hp]%andb_true_iff & Hlt).
    apply Z.ltb_lt in Hp. apply ppr_lt in Hp as Hpp; [|done|lia].
    do 3 (split; [done|]). split; [|exact Hpp].
    intros u Hu Hsu. destruct (Z.leb_spec u v) as [|Hgt]; [done|].
    assert (bitmap_is_set (irr s) u && (ppr s <? vector_priority_class u) = false) as Hf
      by (apply (Hlt (Z.to_nat (255 - u))); [|apply vectors_down_lookup]; unfold vector_ok in *; lia).
    rewrite Hsu in Hf. apply Z.ltb_ge in Hf. pose proof (class_mono v u Hv Hu ltac:(lia)). lia.
  - intros (_ & Hv & Hset & Hmax & Ht & Hsv). exists (Z.to_nat (255 - v)).
    pose proof Hv as Hv'. unfold vector_ok in Hv'. rewrite vectors_down_lookup.
    split; [split; [done|lia]|]. split.
    + rewrite Hset. apply Z.ltb_lt, ppr_lt; [done| |done].
      pose proof (Z.land_nonneg s.(tpr) 0xF0). lia.
    + intros k' u Hk' [Hu Hku]%vectors_down_lookup. apply andb_false_iff. left.
      apply not_true_is_false. intros Hsu. specialize (Hmax u Hu Hsu). lia.
Qed.

(** ** Acknowledge and end of interrupt *)
Lemma ack_spec s v :
  lapic_ok s -> vector_ok v ->
  let '(ok, s') := ack s v in
  lapic_ok s' /\ s'.(tpr) = s.(tpr) /\ s'.(svr) = s.(svr) /\
  (ok = true <-> enabled s = true /\ requested s v = true /\ ppr s < vector_priority_class v) /\
  (ok = false -> s' = s) /\
  (ok = true -> forall u, vector_ok u ->
     requested s' u = requested s u && negb (u =? v) /\
     in_service s' u = in_service s u || (u =? v)).
Proof.
  intros Hs Hv. unfold ack, requested, in_service.
  destruct (enabled s) eqn:He; simpl; [|split_and!; try done; naive_solver].
  destruct (bitmap_is_set (irr s) v) eqn:Hr; simpl; [|split_and!; try done; naive_solver].
  destruct (Z.leb_spec (vector_priority_class v) (ppr s)) as [Hle|Hgt];
    [split_and!; try done; split; [done|lia]|].
  pose proof Hs as [? ? [? ?] [? ?] ? ? ? Hirr Hisr ? ? ? ?]. split_and!; try done.
  - split; simpl; try done; [by apply bitmap_clear_ok|by apply bitmap_set_ok].
  - intros _ u Hu. simpl. split; [by apply is_set_clear|by apply is_set_set].
Qed.

Lemma eoi_spec s :
  lapic_ok s ->
  let '(o, s') := eoi s in
  lapic_ok s' /\
  match o with
  | None => s' = s /\ forall u, vector_ok u -> in_service s u = false
  | Some v => vector_ok v /\ in_service s v = true /\
      (forall u, vector_ok u -> in_service s u = true -> u <= v) /\
      s' = with_isr (bitmap_clear s.(isr) v) s
  end.
Proof.
  intros Hs. unfold eoi, in_service. pose proof (highest_set_bit_spec _ (lo_isr _ Hs)) as Hh.
  destruct (bitmap_highest_set_bit (isr s)) as [v|]; [|done]. destruct Hh as (Hv & Hset & Hmax).
  split; [|done]. destruct Hs as [? ? [? ?] [? ?] ? ? ? ? Hisr ? ? ? ?].
  split; simpl; try done. by apply bitmap_clear_ok.
Qed.

Lemma inject_spec s v :
  lapic_ok s -> vector_ok v ->
  let s' := inject_fixed_interrupt_inner s v in
  lapic_ok s' /\ s'.(isr) = s.(isr) /\
  forall u, vector_ok u -> requested s' u = requested s u || (enabled s && (u =? v)).
Proof.
  intros Hs Hv. unfold inject_fixed_interrupt_inner, requested. destruct (enabled s); simpl.
  - split_and!; [|done|intros u Hu; by apply is_set_set; [apply Hs|..]].
    destruct Hs as [? ? [? ?] [? ?] ? ? ? Hirr ? ? ? ? ?]. split; simpl; try done. by apply bitmap_set_ok.
  - split_and!; try done. intros u _. by rewrite orb_false_r.
Qed.

(** ** The timer *)
Lemma timer_divisor_range s : 1 <= timer_divisor s <= 128.
Proof. unfold timer_divisor. repeat case_if; lia. Qed.

Lemma timer_vector_ok s : lapic_ok s -> vector_ok (timer_vector s).
Proof.
  intros Hs. unfold timer_vector, vector_ok. change 0xFF with (Z.ones 8).
  rewrite land_ones_mod by lia. apply Z.mod_pos_bound. lia.
Qed.

Definition period (s : t) : Z := s.(initial_count) * timer_divisor s.

Lemma period_eq s :
  lapic_ok s -> saturating_mul 64 s.(initial_count) (timer_tick_ns s) = period s /\ 0 <= period s < 2 ^ 39.
Proof.
  intros Hs. pose proof (timer_divisor_range s). pose proof (lo_init _ Hs) as Hi. unfold uint in Hi.
  assert (0 <= period s < 2 ^ 39) as Hp by (unfold period; nia).
  split; [|done]. unfold saturating_mul, timer_tick_ns. fold (period s). lia.
Qed.

Lemma with_deadline_ok s o :
  lapic_ok s -> match o with Some d => uint 64 d | None => True end ->
  lapic_ok (with_next_timer_deadline_ns o s).
Proof. intros [? ? ? ? ? ? ? ? ? ? ? ? ?] ?. by split. Qed.

Lemma saturating_add_uint w x y : 0 <= w -> 0 <= x -> 0 <= y -> uint w (saturating_add w x y).
Proof. intros. unfold saturating_add, uint. pose proof (Z.pow_pos_nonneg 2 w). lia. Qed.

(** The tick: request the timer's vector unless it is masked. *)
Definition tick (s : t) : t :=
  if enabled s && negb (timer_masked s) then inject_fixed_interrupt_inner s (timer_vector s) else s.

Lemma tick_spec s :
  lapic_ok s ->
  lapic_ok (tick s) /\ (tick s).(isr) = s.(isr) /\ (tick s).(tpr) = s.(tpr) /\
  enabled (tick s) = enabled s /\ timer_masked (tick s) = timer_masked s /\
  timer_vector (tick s) = timer_vector s /\ timer_mode (tick s) = timer_mode s /\
  period (tick s) = period s /\ initial_count (tick s) = initial_count s.
Proof.
  intros Hs. unfold tick. pose proof (timer_vector_ok s Hs) as Hv.
  destruct (enabled s && negb (timer_masked s)) eqn:E; [|done].
  apply andb_true_iff in E as [He _]. destruct (inject_spec s _ Hs Hv) as (Hok & _).
  split; [done|]. unfold inject_fixed_interrupt_inner. by rewrite He.
Qed.

Lemma tick_twice s o :
  lapic_ok s ->
  tick (with_next_timer_deadline_ns o (tick s)) = with_next_timer_deadline_ns o (tick s).
Proof.
  intros Hs. pose proof (timer_vector_ok s Hs) as Hv. unfold tick.
  destruct (enabled s && negb (timer_masked s)) eqn:E.
  - apply andb_true_iff in E as [He Hm]. unfold inject_fixed_interrupt_inner. rewrite He. cbn [negb].
    change (enabled (with_next_timer_deadline_ns _ _)) with (enabled s).
    change (timer_masked (with_next_timer_deadline_ns _ _)) with (timer_masked s).
    rewrite He, Hm. cbn [andb negb].
    change (timer_vector (with_next_timer_deadline_ns _ _)) with (timer_vector s).
    destruct s as [? ? ? ? ? ? ? ir ? ? ? ? ?]. unfold with_irr, with_next_timer_deadline_ns. simpl.
    f_equal. pose proof (lo_irr _ Hs) as Hir. simpl in Hir, Hv.
    apply bitmap_ext; [by repeat apply bitmap_set_ok..|by apply bitmap_set_ok|].
    intros u Hu. rewrite !is_set_set by (done || by apply bitmap_set_ok).
    by rewrite <- orb_assoc, orb_diag.
  - by change (enabled (with_next_timer_deadline_ns o s) && _) with (enabled s && negb (timer_masked s));
      rewrite E.
Qed.

(** [poll_timer] in the shape of its three outcomes. *)
Lemma poll_timer_eq s now :
  lapic_ok s -> 0 <= now ->
  poll_timer s now =
  match s.(next_timer_deadline_ns) with
  | None => s
  | Some deadline =>
      if s.(initial_count) =? 0 then with_next_timer_deadline_ns None s
      else if now <? deadline then s
      else with_next_timer_deadline_ns
             (match timer_mode s with
              | OneShot => None
              | Periodic => Some (Z.min (deadline + ((now - deadline) / period s + 1) * period s) (2 ^ 64 - 1))
              end) (tick s)
  end.
Proof.
  intros Hs Hn. unfold poll_timer. destruct (next_timer_deadline_ns s) as [dl|] eqn:Hd; [|done].
  destruct (Z.eqb_spec (initial_count s) 0) as [|Hi]; [done|]. destruct (Z.ltb_spec now dl) as [|Hge]; [done|].
  destruct (period_eq s Hs) as [-> Hp]. pose proof (lo_init _ Hs) as Hiu. unfold uint in Hiu.
  pose proof (timer_divisor_range s).
  assert (0 < period s) as Hpos by (unfold period in *; nia).
  rewrite (proj2 (Z.eqb_neq _ _)) by lia. fold (tick s).
  destruct (tick_spec s Hs) as (_ & _ & _ & _ & _ & _ & -> & _ & _).
  destruct (timer_mode s); [done|]. do 2 f_equal. unfold saturating_add, saturating_mul.
  pose proof (lo_deadline _ Hs) as Hdu. rewrite Hd in Hdu. unfold uint in Hdu.
  pose proof (Z.div_pos (now - dl) (period s)). nia.
Qed.

Lemma poll_timer_ok s now :
  lapic_ok s -> 0 <= now ->
  lapic_ok (poll_timer s now) /\ (poll_timer s now).(isr) = s.(isr) /\
  (poll_timer s now).(tpr) = s.(tpr) /\ enabled (poll_timer s now) = enabled s.
Proof.
  intros Hs Hn. rewrite poll_timer_eq by done.
  destruct (next_timer_deadline_ns s) as [dl|] eqn:Hd; [|done].
  destruct (Z.eqb_spec (initial_count s) 0) as [|Hi]; [split; [by apply with_deadline_ok|done]|].
  destruct (Z.ltb_spec now dl) as [|Hge]; [done|].
  destruct (tick_spec s Hs) as (Hok & Hisr & Htpr & Hen & _). split; [|done].
  apply with_deadline_ok; [done|]. destruct (timer_mode s); [done|].
  pose proof (lo_deadline _ Hs) as Hdu. rewrite Hd in Hdu. unfold uint in *.
  destruct (period_eq s Hs) as [_ Hp].
  assert (0 <= (now - dl) / period s) by (apply Z.div_pos; [lia|]; unfold period in *; pose proof (timer_divisor_range s); pose proof (lo_init _ Hs) as Hiu; unfold uint in Hiu; nia).
  nia.
Qed.

(** Polling at intermediate times changes nothing: the timer can be evaluated
    lazily. *)
Lemma poll_lazy s t1 t2 :
  lapic_ok s -> 0 <= t1 <= t2 -> t2 + period s < 2 ^ 64 ->
  poll_timer (poll_timer s t1) t2 = poll_timer s t2.
Proof.
  intros Hs Ht Hov. destruct (poll_timer_ok s t1 Hs ltac:(lia)) as [Hs1 _].
  rewrite (poll_timer_eq (poll_timer s t1)) by (done || lia). rewrite !(poll_timer_eq s) by (done || lia).
  destruct (next_timer_deadline_ns s) as [dl|] eqn:Hd; [|by rewrite Hd].
  destruct (Z.eqb_spec (initial_count s) 0) as [Hi|Hi]; [done|].
  destruct (Z.ltb_spec t1 dl) as [Hlt|Hge].
  { rewrite Hd. by rewrite (proj2 (Z.eqb_neq _ _)). }
  rewrite (proj2 (Z.ltb_ge t2 dl)) by lia.
  destruct (tick_spec s Hs) as (_ & _ & _ & _ & _ & _ & Hm & Hp & Hi1).
  destruct (timer_mode s) eqn:Em; [done|].
  pose proof (lo_deadline _ Hs) as Hdu. rewrite Hd in Hdu. unfold uint in Hdu.
  pose proof (lo_init _ Hs) as Hiu. unfold uint in Hiu. pose proof (timer_divisor_range s).
  assert (0 < period s) as Hpos by (unfold period in *; nia).
  set (P := period s) in *. set (k1 := (t1 - dl) / P + 1).
  pose proof (Z.div_mod (t1 - dl) P). pose proof (Z.mod_pos_bound (t1 - dl) P).
  assert (Z.min (dl + k1 * P) (2 ^ 64 - 1) = dl + k1 * P) as E1 by (unfold k1; nia). rewrite E1.
  cbn [next_timer_deadline_ns with_next_timer_deadline_ns].
  set (s1 := with_next_timer_deadline_ns (Some (dl + k1 * P)) (tick s)).
  change (initial_count s1) with (initial_count (tick s)). rewrite Hi1, (proj2 (Z.eqb_neq _ _)) by done.
  destruct (Z.ltb_spec t2 (dl + k1 * P)) as [Hlt2|Hge2].
  - unfold s1. do 2 f_equal. assert ((t2 - dl) / P = (t1 - dl) / P) as ->.
    { symmetry. apply Z.div_unique with (t2 - dl - P * ((t1 - dl) / P)); [|lia]. unfold k1 in Hlt2. nia. }
    unfold k1 in E1. lia.
  - change (timer_mode s1) with (timer_mode (tick s)). change (period s1) with (period (tick s)).
    rewrite Hm, Hp. fold P. unfold s1 at 1. rewrite tick_twice by done. unfold with_next_timer_deadline_ns.
    cbn -[tick]. do 2 f_equal. assert ((t2 - dl) / P = (t2 - (dl + k1 * P)) / P + k1) as ->; [|nia].
    rewrite <- Z.div_add by lia. f_equal. lia.
Qed.

(** ** Register accesses *)
Lemma class_uint v : vector_ok v -> uint 8 (vector_priority_class v).
Proof.
  intros Hv. apply uint_land_r; [lia|done|]. unfold vector_ok in Hv. lia.
Qed.

Lemma ppr_uint s : lapic_ok s -> uint 8 (ppr s).
Proof.
  intros Hs. unfold ppr. assert (uint 8 (tpr s &&& 0xF0)) as Ht by (apply uint_land_l; [lia|apply Hs|lia]).
  pose proof (highest_set_bit_spec _ (lo_isr _ Hs)) as Hh.
  destruct (bitmap_highest_set_bit (isr s)) as [v|]; unfold uint in *; [|lia].
  pose proof (class_uint v (proj1 Hh)). unfold uint in *. lia.
Qed.

Lemma current_count_uint s now : uint 32 (current_count_at s now).
Proof.
  unfold current_count_at. destruct (next_timer_deadline_ns s) as [dl|]; [|done].
  case_if; [done|]. destruct (Z.leb_spec dl now); [done|]. unfold uint, timer_tick_ns.
  pose proof (timer_divisor_range s).
  assert (0 <= (dl - now + timer_divisor s - 1) / timer_divisor s) by (apply Z.div_pos; lia). lia.
Qed.

Lemma read_u32_uint s now off : lapic_ok s -> uint 32 (read_u32 s now off).
Proof.
  intros Hs. unfold read_u32. assert (forall x, uint 8 x -> uint 32 x) as Hw by (intros; by apply (uint_weaken 8)).
  repeat (case_if; [first [apply uint_wrap; lia | done | apply Hw, Hs | apply Hw, ppr_uint, Hs | apply Hs
    | apply current_count_uint]|]).
  assert (forall base, is_apic_array_register off base = true -> (apic_array_index off base < 8)%nat) as Hi.
  { intros base Ha. unfold is_apic_array_register, apic_array_index in *. bool_hyps.
    pose proof (Z.div_lt_upper_bound (off - base) 16 8). lia. }
  case_if; [apply bm_word; [apply Hs|by apply Hi]|]. case_if; [apply bm_word; [apply Hs|by apply Hi]|done].
Qed.

Lemma write_divide_config_ok s now value :
  lapic_ok s -> 0 <= now -> uint 32 value -> lapic_ok (write_divide_config s now value).
Proof.
  intros Hs Hn Hv. destruct (poll_timer_ok s now Hs Hn) as [Hp _]. unfold write_divide_config.
  set (s1 := poll_timer s now) in *. pose proof (current_count_uint s1 now) as Hc.
  assert (lapic_ok (with_divide_config value s1)) as Hok by (destruct Hp; by split).
  case_if; [done|]. apply with_deadline_ok; [done|]. apply saturating_add_uint; [lia|done|].
  unfold saturating_mul, timer_tick_ns. pose proof (timer_divisor_range (with_divide_config value s1)).
  unfold uint in *. nia.
Qed.

Lemma write_initial_count_ok s now value :
  lapic_ok s -> 0 <= now -> uint 32 value -> lapic_ok (write_initial_count s now value).
Proof.
  intros Hs Hn Hv. destruct (poll_timer_ok s now Hs Hn) as [Hp _]. unfold write_initial_count.
  set (s1 := poll_timer s now) in *.
  assert (lapic_ok (with_initial_count value s1)) as Hok by (destruct Hp; by split).
  case_if; (apply with_deadline_ok; [done|]); [done|]. apply saturating_add_uint; [lia|done|].
  unfold saturating_mul, timer_tick_ns. pose proof (timer_divisor_range (with_initial_count value s1)).
  unfold uint in *. nia.
Qed.

Lemma ldr_mask v : 0 <= v -> uint 32 (v &&& 0xFF000000) /\ (v &&& 0xFF000000) &&& 0xFF000000 = v &&& 0xFF000000.
Proof. intros. split; [by apply uint_land_r|]. by rewrite <- Z.land_assoc. Qed.

Lemma dfr_mask v :
  0 <= v -> uint 32 ((v &&& 0xF0000000) ||| 0x0FFFFFFF) /\
  (((v &&& 0xF0000000) ||| 0x0FFFFFFF) &&& 0xF0000000) ||| 0x0FFFFFFF = (v &&& 0xF0000000) ||| 0x0FFFFFFF.
Proof.
  intros. split; [apply uint_lor; [lia|by apply uint_land_r|done]|].
  rewrite Z.land_lor_distr_l, <- Z.land_assoc. change (0x0FFFFFFF &&& 0xF0000000) with 0.
  change (0xF0000000 &&& 0xF0000000) with 0xF0000000. by rewrite Z.lor_0_r.
Qed.

Lemma write_u32_ok s now off value :
  lapic_ok s -> 0 <= now -> uint 32 value -> lapic_ok (write_u32 s now off value).2.
Proof.
  intros Hs Hn Hv. unfold write_u32. pose proof Hs as [? ? [? ?] [? ?] ? ? ? ? ? ? ? ? ?].
  pose proof (eoi_spec s Hs) as He. pose proof (write_divide_config_ok s now value Hs Hn Hv).
  pose proof (write_initial_count_ok s now value Hs Hn Hv).
  pose proof (ldr_mask value (proj1 Hv)). pose proof (dfr_mask value (proj1 Hv)).
  repeat case_if; try done; try (split; simpl; try done; apply uint_wrap; lia).
  destruct (eoi s) as [o s']. by destruct He.
Qed.

(** One byte of a register word replaced. *)
Lemma merge_byte_bit word byte k i :
  uint 32 word -> uint 8 byte -> 0 <= k < 4 -> 0 <= i ->
  Z.testbit ((word &&& unot 32 (wrap 32 (0xFF <<< (k * 8)))) ||| wrap 32 (byte <<< (k * 8))) i =
  if (k * 8 <=? i) && (i <? k * 8 + 8) then Z.testbit byte (i - k * 8) else Z.testbit word i.
Proof.
  intros Hw Hb Hk Hi. rewrite Z.lor_spec, Z.land_spec, unot_spec by lia.
  rewrite !testbit_wrap, !Z.shiftl_spec by lia. change 0xFF with (Z.ones 8).
  destruct (Z.leb_spec (k * 8) i); simpl.
  - rewrite Z.testbit_ones_nonneg by lia. destruct (Z.ltb_spec i (k * 8 + 8)).
    + rewrite !(proj2 (Z.ltb_lt _ _)) by lia. simpl. by rewrite andb_false_r.
    + rewrite (proj2 (Z.ltb_ge (i - k * 8) 8)) by lia. rewrite (testbit_high 8 byte) by (done || lia).
      rewrite !andb_false_r, orb_false_r. destruct (Z.ltb_spec i 32); simpl; [apply andb_true_r|].
      rewrite (testbit_high 32 word) by (done || lia). done.
  - rewrite !(Z.testbit_neg_r _ (i - k * 8)) by lia. rewrite !andb_false_r, orb_false_r.
    rewrite (proj2 (Z.ltb_lt i 32)) by lia. apply andb_true_r.
Qed.

Lemma merge_byte_uint word byte k :
  uint 32 word -> 0 <= byte -> uint 32 ((word &&& unot 32 (wrap 32 (0xFF <<< (k * 8)))) ||| wrap 32 (byte <<< (k * 8))).
Proof.
  intros Hw Hb. apply uint_lor; [lia| |apply uint_wrap; lia].
  apply uint_land_l; [lia|done|]. apply uint_unot. lia.
Qed.

Lemma merge_bytes_uint n offset wo data bi idx word :
  Forall byte_ok data -> uint 32 word ->
  uint 32 (LocalApic.merge_bytes n offset wo data bi idx word).2.
Proof.
  intros Hd. revert bi idx word. induction n as [|n IH]; intros bi idx word Hw; simpl; [done|].
  destruct (data !! idx) as [byte|] eqn:Hb; [|done]. case_if; [by apply IH|]. case_if; [done|].
  apply IH, merge_byte_uint; [done|]. by apply (Forall_lookup_1 _ _ _ _ Hd Hb).
Qed.

Lemma write_loop_ok fuel offset data now idx s :
  Forall byte_ok data -> lapic_ok s -> 0 <= now ->
  lapic_ok (LocalApic.write_loop fuel offset data now idx s).2.
Proof.
  intros Hd. revert idx s. induction fuel as [|fuel IH]; intros idx s Hs Hn; cbn -[unot]; [done|].
  case_if; [done|]. case_if; [by apply IH|].
  pose proof (read_u32_uint s now (wrapping_add 64 offset (Z.of_nat idx) &&& unot 64 3) Hs) as Hr.
  match goal with |- context [LocalApic.merge_bytes ?n ?o ?w data ?b idx ?r] =>
    pose proof (merge_bytes_uint n o w data b idx r Hd Hr) as Hm;
    destruct (LocalApic.merge_bytes n o w data b idx r) as [idx' word'] end.
  match goal with |- context [write_u32 s now ?o word'] =>
    pose proof (write_u32_ok s now o word' Hs Hn Hm) as Hw; destruct (write_u32 s now o word') as [ev s'] end.
  pose proof (IH idx' s' Hw Hn) as Hl. by destruct (LocalApic.write_loop _ _ _ _ _ _) as [[? ?] ?].
Qed.
