(* ===== verification/LapicProps.v ===== *)
(** * Properties of the local APIC *)

From S2P Require Import Prelude Bytes Collections Snapshot SnapshotFacts Lapic LapicFacts.
Import LapicState.
Module L := LocalApic.

Definition apic_ok (l : L.t) : Prop := lapic_ok l.(L.state) /\ uint 64 l.(L.now).

Lemma poll_ok l : apic_ok l ->
  apic_ok (L.poll l) /\ (L.poll l).(L.state).(isr) = l.(L.state).(isr) /\
  enabled (L.poll l).(L.state) = enabled l.(L.state).
Proof.
  intros [Hs Hn]. destruct (poll_timer_ok l.(L.state) l.(L.now) Hs (proj1 Hn)) as (? & ? & _ & ?). done.
Qed.

(** The interrupt offered to the CPU is exactly the highest requested
    vector, and it is offered exactly when the APIC is enabled and its class is
    above the task priority and above every interrupt in service. *)
Theorem lapic_pending_exact l v :
  apic_ok l -> (L.get_pending_vector l).1 = Some v <-> deliverable (L.poll l).(L.state) v.
Proof.
  intros Hl. destruct (poll_ok l Hl) as [[Hs _] _]. unfold L.get_pending_vector.
  destruct (enabled (L.state (L.poll l))) eqn:He; simpl; [by apply highest_deliverable_exact|].
  split; [done|]. intros [He' _]. simpl in He. congruence.
Qed.

(** ** Nested service *)

(** What may happen while a handler runs, short of acknowledging or ending:
    time passes, interrupts arrive, the task priority changes. *)
Inductive env_step : L.t -> L.t -> Prop :=
| env_time l now : uint 64 now -> env_step l (L.mk now l.(L.state))
| env_inject l v : vector_ok v -> env_step l (L.inject_fixed_interrupt l v)
| env_tpr l v : uint 8 v -> env_step l (L.set_tpr l v)
| env_poll l : env_step l (L.poll l).

Lemma env_step_keeps l l' : env_step l l' -> apic_ok l -> apic_ok l' /\ l'.(L.state).(isr) = l.(L.state).(isr).
Proof.
  intros Hst Hl. destruct Hst as [l now Hn|l v Hv|l v Hv|l].
  - split; [|done]. by destruct Hl.
  - destruct (poll_ok l Hl) as ([Hs Hn] & Hi & _).
    destruct (inject_spec _ v Hs Hv) as (Hok & Hi' & _). split; [done|]. simpl in *. congruence.
  - split; [|done]. destruct Hl as [[] ?]. by split; [split|].
  - destruct (poll_ok l Hl) as (? & ? & _). done.
Qed.

(** Properly nested handlers: each acknowledged interrupt [v] is ended after
    the handlers that interrupted it; the list pairs it with the notifications
    its end sends. *)
Inductive nested : L.t -> list (Z * list Z) -> L.t -> Prop :=
| nested_nil l : nested l [] l
| nested_env l1 l2 l3 evs : env_step l1 l2 -> nested l2 evs l3 -> nested l1 evs l3
| nested_service l1 l2 l3 l4 l5 v e evs evs' :
    vector_ok v -> L.ack l1 v = (true, l2) -> nested l2 evs l3 -> L.eoi l3 = (e, l4) ->
    nested l4 evs' l5 -> nested l1 (evs ++ (v, e) :: evs') l5.

Lemma ack_keeps l v l' :
  apic_ok l -> vector_ok v -> L.ack l v = (true, l') ->
  apic_ok l' /\ bm_ok l.(L.state).(isr) /\
  l'.(L.state).(isr) = bitmap_set l.(L.state).(isr) v /\
  (forall u, vector_ok u -> in_service l.(L.state) u = true -> u < v) /\
  in_service l.(L.state) v = false.
Proof.
  intros Hl Hv Ha. destruct (poll_ok l Hl) as ([Hs Hn] & Hi & _). unfold L.ack in Ha.
  pose proof (ack_spec _ v Hs Hv) as Hspec. destruct (LapicState.ack _ v) as [ok s'] eqn:Hack.
  destruct Hspec as (Hok & _ & _ & Hiff & _ & _). simplify_eq.
  destruct (proj1 Hiff eq_refl) as (He & Hr & Hp).
  assert (s'.(isr) = bitmap_set l.(L.state).(isr) v) as Es.
  { unfold LapicState.ack in Hack. unfold requested in Hr. rewrite He, Hr in Hack.
    rewrite (proj2 (Z.leb_gt _ _)) in Hack by done. simpl in Hack. injection Hack as <-. simpl. by f_equal. }
  pose proof (ppr_nonneg _ Hs). apply ppr_lt in Hp as [_ Hsv]; [|done|lia].
  assert (forall u, vector_ok u -> in_service (L.state l) u = true -> u < v) as Hlt.
  { intros u Hu Hsu. destruct (Z.ltb_spec u v); [done|]. unfold in_service in *. rewrite <- Hi in Hsu.
    pose proof (Hsv u Hu Hsu). pose proof (class_mono v u Hv Hu ltac:(lia)). lia. }
  split; [by split|]. split; [apply (lo_isr _ (proj1 Hl))|]. split; [done|]. split; [done|].
  apply not_true_is_false. intros Hx. specialize (Hlt v Hv Hx). lia.
Qed.

Lemma clear_set b v : bm_ok b -> vector_ok v -> bitmap_is_set b v = false -> bitmap_clear (bitmap_set b v) v = b.
Proof.
  intros Hb Hv Hnot. apply bitmap_ext; [by apply bitmap_clear_ok, bitmap_set_ok|done|].
  intros u Hu. rewrite is_set_clear, is_set_set by (done || by apply bitmap_set_ok).
  destruct (Z.eqb_spec u v) as [->|]; [by rewrite Hnot|]. by rewrite orb_false_r, andb_true_r.
Qed.

(** C31: Interrupt service is last-in first-out: however handlers nest, and
    whatever arrives meanwhile, each end of interrupt ends and announces
    exactly the interrupt its handler acknowledged, and the in-service register
    is back to what it was. *)
Theorem lapic_lifo l evs l' :
  apic_ok l -> nested l evs l' ->
  l'.(L.state).(isr) = l.(L.state).(isr) /\ Forall (fun p => p.2 = [p.1]) evs.
Proof.
  intros Hl Hn.
  assert (apic_ok l' /\ l'.(L.state).(isr) = l.(L.state).(isr) /\ Forall (fun p => p.2 = [p.1]) evs)
    as (_ & ? & ?); [|done]. revert Hl.
  induction Hn as [l|l1 l2 l3 evs Hst _ IH|l1 l2 l3 l4 l5 v e evs evs' Hv Ha _ IH1 He _ IH2]; intros Hl; [done|..].
  - destruct (env_step_keeps _ _ Hst Hl) as [Hl2 Hi]. destruct (IH Hl2) as (? & ? & ?).
    split_and!; [done|congruence|done].
  - destruct (ack_keeps l1 v l2 Hl Hv Ha) as (Hl2 & Hb & Hi2 & Hlt & Hnot).
    destruct (IH1 Hl2) as (Hl3 & Hi3 & Hev). destruct (poll_ok l3 Hl3) as ([Hs3 Hn3] & Hip & _).
    unfold L.eoi in He. pose proof (eoi_spec _ Hs3) as Hspec. destruct (LapicState.eoi _) as [o s4].
    destruct Hspec as [Hs4 Hspec]. simplify_eq.
    assert (isr (L.state (L.poll l3)) = bitmap_set (isr (L.state l1)) v) as Ei by (simpl in *; congruence).
    assert (forall u, vector_ok u -> in_service (L.state (L.poll l3)) u = in_service (L.state l1) u || (u =? v)) as Hin.
    { intros u Hu. unfold in_service. rewrite Ei. by apply is_set_set. }
    destruct o as [x|].
    + destruct Hspec as (Hx & Hsx & Hmax & ->).
      assert (x = v) as ->.
      { assert (v <= x) by (apply Hmax; [done|]; rewrite Hin, Z.eqb_refl by done; apply orb_true_r).
        rewrite Hin in Hsx by done. apply orb_true_iff in Hsx as [Hsx|Hsx]; [|by apply Z.eqb_eq].
        specialize (Hlt x Hx Hsx). lia. }
      destruct (IH2) as (Hl5 & Hi5 & Hev'); [done|]. split_and!; [done| |].
      * rewrite Hi5. cbn [L.state L.with_state with_isr isr]. rewrite Ei. by apply clear_set.
      * apply Forall_app. split; [done|]. by apply Forall_cons.
    + destruct Hspec as [_ Hnone]. specialize (Hnone v Hv). rewrite Hin, Z.eqb_refl, orb_true_r in Hnone by done. done.
Qed.

(** The timer may be polled at any times: polling at [t1] and then at [t2]
    leaves the same state as polling at [t2] only, so a periodic timer does not
    drift and no expiry is lost or invented by the polling pattern (as long as
    the clock stays one period below its 64-bit limit). *)
Theorem lapic_timer_lazy s t1 t2 :
  lapic_ok s -> 0 <= t1 <= t2 -> t2 + period s < 2 ^ 64 ->
  poll_timer (poll_timer s t1) t2 = poll_timer s t2.
Proof. apply poll_lazy. Qed.

(** ** Register accesses through the MMIO window *)
Lemma aligned_offset off k :
  0 <= off < LAPIC_MMIO_SIZE -> off mod 4 = 0 -> 0 <= k < 4 ->
  wrapping_add 64 off k = off + k /\ (off + k) &&& unot 64 3 = off /\ (off + k) &&& 3 = k.
Proof.
  intros Hoff Hal Hk. split_and!.
  - apply wrap_small. unfold uint. lia.
  - rewrite land_unot by (unfold uint; lia). change 3 with (Z.ones 2). rewrite ldiff_ones by lia.
    change (2 ^ 2) with 4. pose proof (Z.div_mod off 4).
    rewrite <- (Z.mod_unique (off + k) 4 (off / 4) k); lia.
  - change 3 with (Z.ones 2). rewrite land_ones_mod by lia. change (2 ^ 2) with 4.
    pose proof (Z.div_mod off 4). symmetry. apply Z.mod_unique with (off / 4); lia.
Qed.

Lemma le_byte v k : (k < 4)%nat -> to_le_bytes 4 v !! k = Some (wrap 8 (v >>> (8 * Z.of_nat k))).
Proof. intros Hk. by apply to_le_bytes_lookup. Qed.

Lemma merge_word off v w :
  0 <= off < LAPIC_MMIO_SIZE -> off mod 4 = 0 -> uint 32 v -> uint 32 w ->
  L.merge_bytes 4 off off (to_le_bytes 4 v) 0 0 w = (4%nat, v).
Proof.
  intros Hoff Hal Hv Hw.
  assert (forall k, (k < 4)%nat -> (LAPIC_MMIO_SIZE <=? wrapping_add 64 off (Z.of_nat k)) = false /\
            (wrapping_add 64 off (Z.of_nat k) &&& unot 64 3 =? off) = true) as Hk.
  { intros k Hk. destruct (aligned_offset off (Z.of_nat k) Hoff Hal) as (-> & -> & _); [lia|].
    rewrite Z.eqb_refl. split; [|done]. apply Z.leb_gt. 
    pose proof (Z.div_mod off 4). lia. }
  cbn -[wrapping_add unot to_le_bytes wrap Z.shiftl].
  rewrite !le_byte by lia.
  destruct (Hk 0%nat ltac:(lia)) as [-> ->], (Hk 1%nat ltac:(lia)) as [-> ->],
    (Hk 2%nat ltac:(lia)) as [-> ->], (Hk 3%nat ltac:(lia)) as [-> ->]. cbn [negb].
  f_equal. apply Z.bits_inj'. intros i Hi.
  assert (forall j, uint 8 (wrap 8 (v >>> j))) as Hb by (intros; apply uint_wrap; lia).
  assert (forall j, 0 <= wrap 8 (v >>> j)) as Hb0 by (intros; apply Hb).
  rewrite !merge_byte_bit by (done || lia || (repeat apply merge_byte_uint; done)).
  assert (forall j, 0 <= j <= i -> i < j + 8 -> Z.testbit (wrap 8 (v >>> j)) (i - j) = Z.testbit v i) as Ht.
  { intros j Hj Hj8. rewrite testbit_wrap, Z.shiftr_spec, (proj2 (Z.ltb_lt _ _)) by lia.
    simpl. f_equal. lia. }
  repeat case_if; bool_hyps; try (apply Ht; lia).
  destruct (Z.ltb_spec i 32); [lia|]. by rewrite !(testbit_high 32) by (done || lia).
Qed.

Lemma write_loop_word off v now s :
  0 <= off < LAPIC_MMIO_SIZE -> off mod 4 = 0 -> uint 32 v -> lapic_ok s ->
  L.write_loop 4 off (to_le_bytes 4 v) now 0 s =
  let '(ev, s') := write_u32 s now off v in
  (match ev with Some x => [x] | None => [] end,
   if off =? REG_ICR_LOW then [Icr.decode v s'.(icr_high)] else [], s').
Proof.
  intros Hoff Hal Hv Hs. destruct (aligned_offset off 0 Hoff Hal) as (E1 & E2 & E3); [lia|].
  rewrite Z.add_0_r in *. remember (to_le_bytes 4 v) as data eqn:Ed.
  assert (length data = 4%nat) as Hlen by (by rewrite Ed, to_le_bytes_length).
  cbn -[L.merge_bytes unot wrapping_add]. rewrite Hlen. cbn [Nat.leb].
  change (Z.of_nat 0) with 0. rewrite E1, E2, E3.
  rewrite (proj2 (Z.leb_gt _ _)) by lia. change (Z.to_nat (4 - 0)) with 4%nat.
  rewrite Ed, merge_word by (done || by apply read_u32_uint).
  destruct (write_u32 s now off v) as [ev s']. cbn. by rewrite app_nil_r.
Qed.

(** A naturally aligned 32-bit access is one register access: a read
    returns the little-endian bytes of the register after the timer has been
    brought up to date; a write performs one register write with exactly the
    value, and then announces the ended interrupt (EOI register) or the decoded
    inter-processor command (ICR low). *)
Theorem lapic_mmio_word l off v :
  apic_ok l -> 0 <= off < LAPIC_MMIO_SIZE -> off mod 4 = 0 -> uint 32 v ->
  L.mmio_read l off 4 =
    (to_le_bytes 4 (read_u32 (L.poll l).(L.state) l.(L.now) off), L.poll l) /\
  L.mmio_write l off (to_le_bytes 4 v) =
    let '(ev, s') := write_u32 (L.poll l).(L.state) l.(L.now) off v in
    (match ev with Some x => [L.NotifyEoi x] | None => [] end
     ++ (if off =? REG_ICR_LOW then [L.NotifyIcr (Icr.decode v s'.(icr_high))] else []),
     L.with_state s' (L.poll l)).
Proof.
  intros Hl Hoff Hal Hv. destruct (poll_ok l Hl) as [[Hs _] _]. split.
  - unfold L.mmio_read. f_equal. apply list_eq_same_length with 4%nat; [apply to_le_bytes_length|done|].
    intros k x y Hk Hx Hy. rewrite le_byte in Hy by done. injection Hy as <-.
    change (map ?f ?l) with (f <$> l) in Hx. apply list_lookup_fmap_Some in Hx as (j & -> & [-> _]%lookup_seq).
    rewrite Nat.add_0_l. destruct (aligned_offset off (Z.of_nat k) Hoff Hal) as (-> & -> & ->); [lia|].
    rewrite (proj2 (Z.leb_gt _ _)).
    2:{ pose proof (Z.div_mod off 4). lia. }
    change 0xFF with (Z.ones 8). rewrite land_ones_mod, Z.mul_comm by lia. done.
  - pose proof (write_loop_word off v (L.poll l).(L.now) (L.poll l).(L.state) Hoff Hal Hv Hs) as Hw.
    unfold L.mmio_write. destruct (to_le_bytes 4 v) as [|b bs] eqn:Hb; [done|].
    assert (length (b :: bs) = 4%nat) as -> by (by rewrite <- Hb, to_le_bytes_length).
    rewrite Hw. change (L.now (L.poll l)) with (L.now l).
    destruct (write_u32 _ _ _ _) as [ev s']. by destruct ev; case_if.
Qed.

(** ** Reachable states *)
Inductive lapic_step : L.t -> L.t -> Prop :=
| lstep_env l l' : env_step l l' -> lapic_step l l'
| lstep_reset l i : lapic_step l (L.reset_state l i)
| lstep_cr8 l v : lapic_step l (L.set_tpr_from_cr8 l v)
| lstep_pending l : lapic_step l (L.get_pending_vector l).2
| lstep_ack l v : vector_ok v -> lapic_step l (L.ack l v).2
| lstep_eoi l : lapic_step l (L.eoi l).2
| lstep_read l off n : lapic_step l (L.mmio_read l off n).2
| lstep_write l off data : Forall byte_ok data -> lapic_step l (L.mmio_write l off data).2.

Lemma lapic_step_ok l l' : lapic_step l l' -> apic_ok l -> apic_ok l'.
Proof.
  intros Hst Hl. destruct (poll_ok l Hl) as ([Hs Hn] & _).
  destruct Hst as [l l' Hst|l i|l v|l|l v Hv|l|l off n|l off data Hd].
  - by eapply env_step_keeps.
  - destruct Hl as [Hl0 Hn0]. split; [|done]. apply new_lapic_ok, Hl0.
  - destruct Hl as [[] ?]. split; [|done]. split; try done. apply uint_wrap. lia.
  - unfold L.get_pending_vector. by case_if.
  - unfold L.ack. pose proof (ack_spec _ v Hs Hv) as Ha. destruct (LapicState.ack _ _). by destruct Ha.
  - unfold L.eoi. pose proof (eoi_spec _ Hs) as He. destruct (LapicState.eoi _) as [o s']. by destruct He.
  - unfold L.mmio_read. by destruct n.
  - unfold L.mmio_write. destruct data as [|b data]; [done|].
    pose proof (write_loop_ok (length (b :: data)) off (b :: data) (L.poll l).(L.now) 0 _ Hd Hs (proj1 Hn)) as Hw.
    destruct (L.write_loop _ _ _ _ _ _) as [[? ?] s']. by split.
Qed.

(** In every state the local APIC can reach, with register accesses of any
    width and alignment at any time, all registers keep their widths and
    read-only bits, and both vector bitmaps stay eight 32-bit words. *)
Theorem lapic_invariant now i l :
  uint 64 now -> uint 8 i -> rtc lapic_step (L.with_clock now i) l -> apic_ok l.
Proof.
  intros Hn Hi Hr. assert (apic_ok (L.with_clock now i)) as H0 by (split; [by apply new_lapic_ok|done]).
  revert H0. induction Hr as [|x y z Hxy _ IH]; [done|]. intros Hx. by apply IH, (lapic_step_ok x).
Qed.

(** ** Snapshot *)
Section Snapshots.
Context `{Target}.
Import LapicSnapshot.

Lemma encode_words_eq ws : encode_words ws = concat (map (to_le_bytes 4) ws).
Proof.
  unfold encode_words, Encoder.finish. enough (forall e, fold_left (fun e w => Encoder.u32 w e) ws e
    = e ++ concat (map (to_le_bytes 4) ws)) as He by apply He.
  induction ws as [|w ws IH]; intros e; simpl; [by rewrite app_nil_r|].
  rewrite IH. unfold Encoder.u32. by rewrite <- app_assoc.
Qed.

Lemma encode_words_length ws : length (encode_words ws) = (4 * length ws)%nat.
Proof.
  rewrite encode_words_eq. induction ws as [|w ws IH]; cbn [map concat length]; [done|].
  rewrite length_app, to_le_bytes_length, IH. lia.
Qed.

Lemma read_words_ahead ws0 ws d rest :
  length ws0 = length ws -> Forall (uint 32) ws ->
  ahead d (concat (map (to_le_bytes 4) ws) ++ rest) ->
  exists d', read_words ws0 d = (Ok tt, ws, d') /\ ahead d' rest.
Proof.
  intros Hl Hw. revert ws0 d Hl. induction Hw as [|w ws Hw _ IH]; intros [|w0 ws0] d Hl Ha; try done.
  { by exists d. }
  cbn [map concat] in Ha. rewrite <- app_assoc in Ha.
  destruct (u32_ahead d w _ Hw Ha) as (d1 & Ht & Ha1). cbn [read_words].
  assert (Decoder.u32 d = (Ok w, d1)) as -> by exact Ht.
  destruct (IH ws0 d1 ltac:(by injection Hl) Ha1) as (d' & -> & Ha'). by exists d'.
Qed.

Lemma load_words_ok get set s ws :
  bm_ok ws -> length (get s) = 8%nat ->
  load_words (Some (encode_words ws)) get set s = (Ok tt, set ws s).
Proof.
  intros [Hl Hw] Hg. pose proof usize_max_ge. unfold load_words.
  assert (ahead (Decoder.new (encode_words ws)) (concat (map (to_le_bytes 4) ws) ++ [])) as Ha.
  { rewrite app_nil_r, <- encode_words_eq. apply ahead_new. rewrite encode_words_length. lia. }
  destruct (read_words_ahead (get s) ws _ [] ltac:(lia) Hw Ha) as (d' & -> & Ha').
  by rewrite (finish_ahead _ _ Ha').
Qed.

(** The fields a saved state has. *)
Record saved (s : t) (r : SnapshotReader.t) : Prop := {
  sv_id : SnapshotReader.bytes r TAG_ID = Some [s.(id)];
  sv_tpr : SnapshotReader.bytes r TAG_TPR = Some [s.(tpr)];
  sv_svr : SnapshotReader.bytes r TAG_SVR = Some (to_le_bytes 4 s.(svr));
  sv_icr_low : SnapshotReader.bytes r TAG_ICR_LOW = Some (to_le_bytes 4 s.(icr_low));
  sv_icr_high : SnapshotReader.bytes r TAG_ICR_HIGH = Some (to_le_bytes 4 s.(icr_high));
  sv_irr : SnapshotReader.bytes r TAG_IRR = Some (encode_words s.(irr));
  sv_isr : SnapshotReader.bytes r TAG_ISR = Some (encode_words s.(isr));
  sv_lvt : SnapshotReader.bytes r TAG_LVT_TIMER = Some (to_le_bytes 4 s.(lvt_timer));
  sv_div : SnapshotReader.bytes r TAG_DIVIDE_CONFIG = Some (to_le_bytes 4 s.(divide_config));
  sv_init : SnapshotReader.bytes r TAG_INITIAL_COUNT = Some (to_le_bytes 4 s.(initial_count));
  sv_deadline : SnapshotReader.bytes r TAG_NEXT_TIMER_DEADLINE_NS =
                option_map (to_le_bytes 8) s.(next_timer_deadline_ns);
  sv_ldr : SnapshotReader.bytes r TAG_LDR = Some (to_le_bytes 4 s.(ldr));
  sv_dfr : SnapshotReader.bytes r TAG_DFR = Some (to_le_bytes 4 s.(dfr));
}.

Local Tactic Notation "load" uconstr(lem) :=
  rewrite (st_bind_ok _ _ _ _ _ (load_opt_some _ _ _ _ lem)).

Lemma load_saved s s0 r :
  lapic_ok s -> lapic_ok s0 -> saved s r -> load_fields r s0 = (Ok tt, s).
Proof.
  intros [? ? [? Hldr] [? Hdfr] ? ? ? Hirr Hisr ? ? ? Hdl] Hs0 [E1 E2 E3 E4 E5 E6 E7 E8 E9 E10 E11 E12 E13].
  unfold load_fields.
  load (saved_u8 _ _ _ E1). load (saved_u8 _ _ _ E2). load (saved_u32 _ _ _ E3 ltac:(done)).
  load (saved_u32 _ _ _ E4 ltac:(done)). load (saved_u32 _ _ _ E5 ltac:(done)).
  load (saved_u32 _ _ _ E12 ltac:(done)). load (saved_u32 _ _ _ E13 ltac:(done)).
  rewrite E6, E7, Hldr, Hdfr.
  erewrite st_bind_ok; [|apply load_words_ok; [exact Hirr|exact (proj1 (lo_irr _ Hs0))]].
  erewrite st_bind_ok; [|apply load_words_ok; [exact Hisr|exact (proj1 (lo_isr _ Hs0))]].
  load (saved_u32 _ _ _ E8 ltac:(done)). load (saved_u32 _ _ _ E9 ltac:(done)).
  load (saved_u32 _ _ _ E10 ltac:(done)).
  assert (SnapshotReader.u64 r TAG_NEXT_TIMER_DEADLINE_NS = Ok s.(next_timer_deadline_ns)) as ->.
  { destruct (next_timer_deadline_ns s) as [d|]; cbn [option_map] in E11.
    - eapply sized_some; [exact E11|apply to_le_bytes_length|by apply from_to_le_bytes_id].
    - unfold SnapshotReader.u64, SnapshotReader.sized. by rewrite E11. }
  by destruct s.
Qed.

(** The writer after [save_state] has put its fields. *)
Definition save_puts (s : t) : list (Z * list Z) :=
  [(TAG_ID, [s.(id)]); (TAG_TPR, [s.(tpr)]); (TAG_SVR, to_le_bytes 4 s.(svr));
   (TAG_ICR_LOW, to_le_bytes 4 s.(icr_low)); (TAG_ICR_HIGH, to_le_bytes 4 s.(icr_high));
   (TAG_IRR, encode_words s.(irr)); (TAG_ISR, encode_words s.(isr));
   (TAG_LVT_TIMER, to_le_bytes 4 s.(lvt_timer)); (TAG_DIVIDE_CONFIG, to_le_bytes 4 s.(divide_config));
   (TAG_INITIAL_COUNT, to_le_bytes 4 s.(initial_count))]
  ++ match s.(next_timer_deadline_ns) with
     | Some d => [(TAG_NEXT_TIMER_DEADLINE_NS, to_le_bytes 8 d)]
     | None => []
     end
  ++ [(TAG_LDR, to_le_bytes 4 s.(ldr)); (TAG_DFR, to_le_bytes 4 s.(dfr))].

Definition save_writer (s : t) : SnapshotWriter.t := put_all (SnapshotWriter.new DEVICE_ID DEVICE_VERSION) (save_puts s).

Lemma save_state_eq l : save_state l = SnapshotWriter.finish (save_writer l.(L.state)).
Proof. unfold save_writer, save_puts, save_state. by destruct (next_timer_deadline_ns _). Qed.

Lemma save_writer_fields s : SnapshotWriter.fields (save_writer s) = save_puts s.
Proof. unfold save_writer, save_puts. by destruct (next_timer_deadline_ns s). Qed.

Lemma save_writer_ok s : lapic_ok s -> writer_ok (save_writer s).
Proof.
  intros Hs. assert (Forall field_ok (save_puts s)) as Hp.
  { pose proof (lo_irr _ Hs) as [Hi _]. pose proof (lo_isr _ Hs) as [Hi' _].
    assert (forall ws, length ws = 8%nat -> uint 32 (Z.of_nat (length (encode_words ws)))) as He
      by (intros ws Hw; rewrite encode_words_length, Hw; done).
    unfold save_puts. destruct (next_timer_deadline_ns s); simpl app;
      repeat (apply Forall_cons; split; [split; first [by split | by apply He]|]); by apply Forall_nil. }
  by apply put_all_ok; [apply new_writer_ok|].
Qed.

Lemma save_writer_header s :
  SnapshotWriter.device_id (save_writer s) = DEVICE_ID /\
  SnapshotWriter.device_version (save_writer s) = DEVICE_VERSION.
Proof. unfold save_writer, save_puts. by destruct (next_timer_deadline_ns s). Qed.

Lemma save_length s : lapic_ok s -> Z.of_nat (length (SnapshotWriter.finish (save_writer s))) <= 1000.
Proof.
  intros Hs. pose proof (lo_irr _ Hs) as [Hi _]. pose proof (lo_isr _ Hs) as [Hi' _].
  pose proof (encode_words_length s.(irr)) as E1. pose proof (encode_words_length s.(isr)) as E2.
  unfold SnapshotWriter.finish. rewrite save_writer_fields, (proj1 (save_writer_header s)).
  unfold save_puts, SnapshotWriter.field_tlv.
  destruct (next_timer_deadline_ns s); cbn [app map concat fst snd];
    repeat (rewrite ?length_app, ?to_le_bytes_length; cbn [length]); rewrite E1, E2, Hi, Hi';
    cbn [length MAGIC]; lia.
Qed.

Lemma lapic_save_load l l0 :
  apic_ok l -> apic_ok l0 -> load_state (save_state l) l0 = (Ok tt, L.with_state l.(L.state) l0).
Proof.
  intros [Hs _] [Hs0 _]. pose proof usize_max_ge. set (s := L.state l) in *.
  pose proof (save_length s Hs) as Hl. destruct (save_writer_header s) as [Ei Ev].
  assert (Z.of_nat (length (SnapshotWriter.fields (save_writer s))) <= SnapshotReader.MAX_FIELDS) as Hn.
  { rewrite save_writer_fields. unfold save_puts. by destruct (next_timer_deadline_ns s). }
  assert (Z.of_nat (length (SnapshotWriter.finish (save_writer s))) <= usize_max) as Hsz by lia.
  pose proof (parse_finish _ (save_writer_ok s Hs) Hn Hsz) as Hp.
  unfold load_state, restore_state. rewrite save_state_eq. fold s. rewrite Ei in Hp. rewrite Hp, Ev.
  change (SnapshotReader.ensure_device_major _ _) with (@Ok unit SnapshotError tt). cbv beta iota.
  rewrite (load_saved s); [done|done|done|].
  rewrite save_writer_fields. unfold save_puts, SnapshotReader.bytes. cbn [SnapshotReader.fields].
  split; destruct (next_timer_deadline_ns s); reflexivity.
Qed.

(** Loading keeps the state well formed, step by step. *)
Lemma read_words_ok ws d :
  dec_ok d -> Forall (uint 32) ws ->
  Forall (uint 32) (read_words ws d).1.2 /\ length (read_words ws d).1.2 = length ws.
Proof.
  intros Hd Hw. revert d Hd. induction Hw as [|w ws Hw Hws IH]; intros d Hd; cbn [read_words]; [done|].
  destruct (u32_yields d Hd) as [Hd' Hq]. destruct (Decoder.u32 d) as [[v|e] d']; simpl in *.
  - destruct (IH d' Hd') as [? ?]. destruct (read_words ws d') as [[r rest] d2]. simpl in *.
    split; [|lia]. constructor; [by apply Hq|done].
  - split; [by constructor|done].
Qed.

Lemma load_words_keeps buf get set :
  (forall b, buf = Some b -> Forall byte_ok b) -> (forall s, lapic_ok s -> bm_ok (get s)) ->
  (forall ws s, bm_ok ws -> lapic_ok s -> lapic_ok (set ws s)) ->
  keeps lapic_ok (load_words buf get set).
Proof.
  intros Hb Hg Hset s Hs. unfold load_words. destruct buf as [b|]; [|done].
  destruct (Hg s Hs) as [Hl Hw]. destruct (read_words_ok (get s) (Decoder.new b)) as [Hw' Hl']; [by split; [apply Hb|]|done|].
  destruct (read_words (get s) (Decoder.new b)) as [[[u|e] ws] d]; simpl in *;
    (apply Hset; [split; [lia|done]|done]).
Qed.

Lemma load_fields_ok r s :
  (forall tag data, SnapshotReader.bytes r tag = Some data -> Forall byte_ok data) ->
  lapic_ok s -> lapic_ok (load_fields r s).2.
Proof.
  intros Hb. assert (keeps lapic_ok (load_fields r)) as Hk; [|intros Hs; by apply Hk].
  assert (forall n msg tag v, SnapshotReader.sized n msg r tag = Ok (Some v) -> uint (8 * Z.of_nat n) v) as Hsz
    by (intros n msg tag v; apply sized_uint, Hb).
  unfold load_fields.
  do 7 (apply keeps_bind; [eapply load_opt_keeps; [intros a Ha; exact (Hsz _ _ _ _ Ha)|];
    intros a q Ha [? ? ? ? ? ? ? ? ? ? ? ? ?]; split; simpl; try done;
    first [apply ldr_mask, Ha | apply dfr_mask, Ha]|intros _]).
  do 2 (apply keeps_bind; [apply load_words_keeps; [apply Hb|by intros ? []|
    by intros ws q Hw [? ? ? ? ? ? ? ? ? ? ? ? ?]; split]|intros _]).
  do 3 (apply keeps_bind; [eapply load_opt_keeps; [intros a Ha; exact (Hsz _ _ _ _ Ha)|];
    by intros a q Ha [? ? ? ? ? ? ? ? ? ? ? ? ?]; split|intros _]).
  intros q Hq. destruct (SnapshotReader.u64 r _) as [o|e] eqn:Ho; [|done].
  apply with_deadline_ok; [done|]. destruct o as [d|]; [|done]. by apply Hsz in Ho.
Qed.

(** The local APIC keeps the snapshot contract: the registers of a saved
    APIC are restored exactly onto any other one (which keeps its clock), the
    timer deadline included; arbitrary bytes leave well-formed registers. *)
Theorem lapic_snapshot :
  @IoSnapshotSpec L.t io_snapshot apic_ok (fun l l0 => L.with_state l.(L.state) l0).
Proof.
  split; [apply lapic_save_load|]. intros bs l Hb [Hs Hn]. cbn [Snapshot.load_state io_snapshot].
  unfold load_state, restore_state. destruct (SnapshotReader.parse bs _) as [r|e] eqn:Hp; [|done].
  destruct (parse_ok _ _ _ Hb Hp) as (_ & _ & _ & Hf).
  destruct (SnapshotReader.ensure_device_major _ _); [|done].
  pose proof (load_fields_ok r l.(L.state) Hf Hs) as Hok. by destruct (load_fields r _) as [res s].
Qed.
End Snapshots.

(** ** Concrete instances: an enabled APIC with vectors 0x31 and 0x41 pending
    and a periodic timer. *)
Definition demo_state : t :=
  with_lvt_timer ((1 <<< 17) ||| 0x50) (with_initial_count 100
    (with_next_timer_deadline_ns (Some 1000) (with_svr 0x1FF (new 0)))).
Definition demo_apic : L.t :=
  L.inject_fixed_interrupt (L.inject_fixed_interrupt (L.mk 10 demo_state) 0x31) 0x41.

Lemma demo_state_ok : lapic_ok demo_state.
Proof. destruct (new_lapic_ok 0) as [? ? [? ?] [? ?] ? ? ? ? ? ? ? ? ?]; [by split|]. split; try done; by split. Qed.

Lemma demo_apic_ok : apic_ok demo_apic.
Proof.
  assert (apic_ok (L.mk 10 demo_state)) as H0 by (split; [exact demo_state_ok|by split]).
  apply (env_step_keeps (L.inject_fixed_interrupt (L.mk 10 demo_state) 0x31)); [by apply env_inject|].
  apply (env_step_keeps (L.mk 10 demo_state)); [by apply env_inject|exact H0].
Qed.

Lemma lapic_pending_exact_witness : deliverable (L.poll demo_apic).(L.state) 0x41.
Proof.
  apply (lapic_pending_exact demo_apic 0x41); [exact demo_apic_ok|vm_compute; reflexivity].
Defined.

Definition demo_served : L.t := (L.ack demo_apic 0x41).2.
Definition demo_more : L.t := L.inject_fixed_interrupt demo_served 0x61.
Definition demo_nested : L.t := (L.ack demo_more 0x61).2.
Definition demo_back : L.t := (L.eoi demo_nested).2.
Definition demo_done : L.t := (L.eoi demo_back).2.

(** Vector 0x61 interrupts the handler of 0x41. *)
Lemma lapic_lifo_witness : demo_done.(L.state).(isr) = demo_apic.(L.state).(isr).
Proof.
  refine (proj1 (lapic_lifo demo_apic [(0x61, [0x61]); (0x41, [0x41])] demo_done demo_apic_ok _)).
  apply (nested_service demo_apic demo_served demo_back demo_done demo_done 0x41 [0x41] [(0x61, [0x61])] []);
    [by split|vm_compute; reflexivity| |vm_compute; reflexivity|apply nested_nil].
  apply (nested_env demo_served demo_more); [by apply env_inject|].
  apply (nested_service demo_more demo_nested demo_nested demo_back demo_back 0x61 [0x61] [] []);
    [by split|vm_compute; reflexivity|apply nested_nil|vm_compute; reflexivity|apply nested_nil].
Defined.

Lemma lapic_timer_lazy_witness :
  poll_timer (poll_timer demo_state 1500) 2345 = poll_timer demo_state 2345.
Proof. apply lapic_timer_lazy; [exact demo_state_ok|lia|vm_compute; reflexivity]. Defined.

Lemma lapic_mmio_word_witness :
  L.mmio_read demo_apic REG_SVR 4 = ([0xFF; 0x01; 0; 0], L.poll demo_apic) /\
  (L.mmio_write demo_apic REG_ICR_LOW (to_le_bytes 4 0x4500)).1 = [L.NotifyIcr (Icr.decode 0x4500 0)].
Proof.
  destruct (lapic_mmio_word demo_apic REG_SVR 0 demo_apic_ok) as [Hr _]; [by split|done|by split|].
  destruct (lapic_mmio_word demo_apic REG_ICR_LOW 0x4500 demo_apic_ok) as [_ Hw]; [by split|done|by split|].
  rewrite Hr, Hw. split; vm_compute; reflexivity.
Defined.

Lemma lapic_invariant_witness : apic_ok (L.mmio_write (L.with_clock 5 1) 0xEF [1; 2; 3]).2.
Proof.
  apply (lapic_invariant 5 1); [by split|by split|]. apply rtc_once, lstep_write.
  repeat (apply Forall_cons; split; [by split|]). by apply Forall_nil.
Defined.
