(* ===== verification/Ioapic.v ===== *)
(** * I/O APIC (crates/aero-interrupts/src/apic/io_apic.rs)

    The redirection table, the register window, pin levels, delivery to the
    local APICs behind the [LapicInterruptSink] interface, and the snapshot.
    The sinks are shared objects; the record holds them as the store they are
    updated in (the same sink is not listed twice).  An index out of range
    panics in the source: such operations return [None]. *)

From S2P Require Import Prelude Bytes Collections Snapshot Lapic.

Abbreviation IOAPIC_MMIO_BASE := (0xFEC00000) (only parsing).
Abbreviation IOAPIC_MMIO_SIZE := (0x1000) (only parsing).
Abbreviation MAX_SNAPSHOT_REDIRECTION_ENTRIES := (4096) (only parsing).

Inductive TriggerMode := Edge | Level.
#[export] Instance trigger_mode_eq_dec : EqDecision TriggerMode.
Proof. solve_decision. Defined.

Inductive MaskTransition := Unchanged | Masked | Unmasked.
#[export] Instance mask_transition_eq_dec : EqDecision MaskTransition.
Proof. solve_decision. Defined.

Module RedirectionEntry.
Record t := mk {
  vector : Z;
  delivery_mode : Z;
  destination_mode : bool;
  polarity_low : bool;
  trigger_mode : TriggerMode;
  mask : bool;
  destination : Z;
  remote_irr : bool;
}.

Definition default : t := mk 0 0 false false Edge true 0 false.
Definition with_remote_irr (b : bool) (e : t) : t :=
  mk e.(vector) e.(delivery_mode) e.(destination_mode) e.(polarity_low) e.(trigger_mode) e.(mask)
    e.(destination) b.

Definition interpret_level (e : t) (raw_level : bool) : bool :=
  if e.(polarity_low) then negb raw_level else raw_level.

Definition read_low (e : t) : Z :=
  e.(vector)
  ||| ((e.(delivery_mode) &&& 0x7) <<< 8)
  ||| (Z.b2z e.(destination_mode) <<< 11)
  ||| (Z.b2z e.(polarity_low) <<< 13)
  ||| (Z.b2z e.(remote_irr) <<< 14)
  ||| ((match e.(trigger_mode) with Edge => 0 | Level => 1 end) <<< 15)
  ||| (Z.b2z e.(mask) <<< 16).

Definition read_high (e : t) : Z := wrap 32 (e.(destination) <<< 24).

Definition write_low (e : t) (v : Z) : MaskTransition * t :=
  let e' := mk (v &&& 0xff) ((v >>> 8) &&& 0x7) (nz ((v >>> 11) &&& 1)) (nz ((v >>> 13) &&& 1))
              (if nz ((v >>> 15) &&& 1) then Level else Edge) (nz ((v >>> 16) &&& 1))
              e.(destination) e.(remote_irr) in
  (match e.(mask), e'.(mask) with
   | true, false => Unmasked
   | false, true => Masked
   | _, _ => Unchanged
   end, e').

Definition write_high (e : t) (v : Z) : t :=
  mk e.(vector) e.(delivery_mode) e.(destination_mode) e.(polarity_low) e.(trigger_mode) e.(mask)
    (wrap 8 (v >>> 24)) e.(remote_irr).
End RedirectionEntry.

(** [id.as_reg_bits()] *)
Definition as_reg_bits (id : Z) : Z := (id &&& 0x0f) <<< 24.

Module IoApic.
Record t {S : Type} := mk {
  id : Z;
  ioregsel : Z;
  redirection : list RedirectionEntry.t;
  pin_active_low : list bool;
  pin_level : list bool;
  lapics : list S;
}.
Arguments t : clear implicits.
Arguments mk {S} _ _ _ _ _ _.

Abbreviation NUM_REDIRECTION_ENTRIES := (24%nat) (only parsing).

Section Ops.
Context {S : Type} `{LapicInterruptSink S}.
Implicit Types io : t S.

Definition with_id v io : t S :=
  mk v io.(ioregsel) io.(redirection) io.(pin_active_low) io.(pin_level) io.(lapics).
Definition with_ioregsel v io : t S :=
  mk io.(id) v io.(redirection) io.(pin_active_low) io.(pin_level) io.(lapics).
Definition with_redirection v io : t S :=
  mk io.(id) io.(ioregsel) v io.(pin_active_low) io.(pin_level) io.(lapics).
Definition with_pin_active_low v io : t S :=
  mk io.(id) io.(ioregsel) io.(redirection) v io.(pin_level) io.(lapics).
Definition with_pin_level v io : t S :=
  mk io.(id) io.(ioregsel) io.(redirection) io.(pin_active_low) v io.(lapics).
Definition set_lapics v io : t S :=
  mk io.(id) io.(ioregsel) io.(redirection) io.(pin_active_low) io.(pin_level) v.

Definition with_entries_and_lapics (id : Z) (lapics : list S) (entries : nat) : t S :=
  let pin_active_low := map (fun gsi => (gsi =? 9)%nat || (16 <=? gsi)%nat) (seq 0 entries) in
  mk id 0 (replicate entries RedirectionEntry.default) pin_active_low pin_active_low lapics.
Definition with_lapics (id : Z) (lapics : list S) : t S :=
  with_entries_and_lapics id lapics NUM_REDIRECTION_ENTRIES.
Definition with_entries (id : Z) (lapic : S) (entries : nat) : t S :=
  with_entries_and_lapics id [lapic] entries.
Definition new (id : Z) (lapic : S) : t S := with_entries id lapic NUM_REDIRECTION_ENTRIES.

Definition num_redirection_entries io : nat := length io.(redirection).
Definition has_unmasked_redirection_entry io : bool :=
  existsb (fun e => negb e.(RedirectionEntry.mask)) io.(redirection).

(** Both updates are ignored for a pin that does not exist. *)
Definition set_pin_active_low io (gsi : nat) (active_low : bool) : t S :=
  with_pin_level (<[gsi := active_low]> io.(pin_level))
    (with_pin_active_low (<[gsi := active_low]> io.(pin_active_low)) io).

Definition clear_remote_irr io : t S :=
  with_redirection (map (RedirectionEntry.with_remote_irr false) io.(redirection)) io.

(** ** Delivery *)
Definition matches_destination (e : RedirectionEntry.t) (lapic : S) : bool :=
  let dest := e.(RedirectionEntry.destination) in
  if dest =? 0xFF then true
  else if e.(RedirectionEntry.destination_mode) then matches_logical_destination lapic dest
  else dest =? apic_id lapic.

(** [min_by_key] over the matching sinks: the first one with the least key. *)
Definition key_lt (k1 k2 : Z * Z) : bool := (k1.1 <? k2.1) || ((k1.1 =? k2.1) && (k1.2 <? k2.2)).
Definition priority_key (lapic : S) : Z * Z := (processor_priority lapic &&& 0xF0, apic_id lapic).
Fixpoint min_by_key (e : RedirectionEntry.t) (i : nat) (ls : list S) (best : option (nat * (Z * Z))) :
    option nat :=
  match ls with
  | [] => option_map fst best
  | l :: ls =>
      let best :=
        if matches_destination e l then
          match best with
          | Some (_, k) => if key_lt (priority_key l) k then Some (i, priority_key l) else best
          | None => Some (i, priority_key l)
          end
        else best in
      min_by_key e (i + 1) ls best
  end.

Definition deliver io (gsi : nat) : option (t S) :=
  match io.(redirection) !! gsi with
  | None => None
  | Some entry =>
      if 1 <? entry.(RedirectionEntry.delivery_mode) then Some io
      else
        let vector := entry.(RedirectionEntry.vector) in
        let '(ls, delivered) :=
          if entry.(RedirectionEntry.delivery_mode) =? 1 then
            match min_by_key entry 0 io.(lapics) None with
            | Some i => (alter (fun l => inject_external_interrupt l vector) i io.(lapics), true)
            | None => (io.(lapics), false)
            end
          else
            (map (fun l => if matches_destination entry l
                           then inject_external_interrupt l vector else l) io.(lapics),
             existsb (matches_destination entry) io.(lapics)) in
        let io := set_lapics ls io in
        Some (if delivered && bool_decide (entry.(RedirectionEntry.trigger_mode) = Level)
              then with_redirection
                     (alter (RedirectionEntry.with_remote_irr true) gsi io.(redirection)) io
              else io)
  end.

Definition maybe_deliver_level io (gsi : nat) : option (t S) :=
  match io.(redirection) !! gsi with
  | None => None
  | Some entry =>
      if negb (bool_decide (entry.(RedirectionEntry.trigger_mode) = Level)) then Some io
      else if entry.(RedirectionEntry.mask) || entry.(RedirectionEntry.remote_irr) then Some io
      else
        match io.(pin_level) !! gsi with
        | None => None
        | Some raw => if negb (RedirectionEntry.interpret_level entry raw) then Some io else deliver io gsi
        end
  end.

Definition sync_level_triggered io : option (t S) :=
  foldl (fun o gsi => match o with Some io => maybe_deliver_level io gsi | None => None end)
    (Some io) (seq 0 (length io.(redirection))).

Definition set_irq_level io (gsi : nat) (level : bool) : option (t S) :=
  match io.(pin_level) !! gsi with
  | None => Some io
  | Some prev_raw =>
      let active_low := default false (io.(pin_active_low) !! gsi) in
      let new_raw := xorb level active_low in
      let io := with_pin_level (<[gsi := new_raw]> io.(pin_level)) io in
      match io.(redirection) !! gsi with
      | None => Some io
      | Some entry =>
          let prev := RedirectionEntry.interpret_level entry prev_raw in
          let asserted := RedirectionEntry.interpret_level entry new_raw in
          match entry.(RedirectionEntry.trigger_mode) with
          | Edge =>
              if entry.(RedirectionEntry.mask) then Some io
              else if negb prev && asserted then deliver io gsi else Some io
          | Level =>
              if entry.(RedirectionEntry.mask) then Some io
              else if asserted then maybe_deliver_level io gsi else Some io
          end
      end
  end.

(** The first loop of [notify_eoi]: the updated table and the pins to deliver
    again. *)
Fixpoint eoi_scan (vector : Z) (pins : list bool) (gsi : nat) (entries : list RedirectionEntry.t) :
    option (list RedirectionEntry.t * list nat) :=
  match entries with
  | [] => Some ([], [])
  | e :: es =>
      let skip := match eoi_scan vector pins (gsi + 1) es with
                  | Some (es, p) => Some (e :: es, p)
                  | None => None
                  end in
      if negb (bool_decide (e.(RedirectionEntry.trigger_mode) = Level)) then skip
      else if negb e.(RedirectionEntry.remote_irr) then skip
      else if negb (e.(RedirectionEntry.vector) =? vector) then skip
      else
        match pins !! gsi with
        | None => None
        | Some raw =>
            match eoi_scan vector pins (gsi + 1) es with
            | None => None
            | Some (es, p) =>
                let again := RedirectionEntry.interpret_level e raw && negb e.(RedirectionEntry.mask) in
                Some (RedirectionEntry.with_remote_irr false e :: es, if again then gsi :: p else p)
            end
        end
  end.

Definition notify_eoi io (vector : Z) : option (t S) :=
  match eoi_scan vector io.(pin_level) 0 io.(redirection) with
  | None => None
  | Some (es, pending_redelivery) =>
      foldl (fun o gsi => match o with Some io => deliver io gsi | None => None end)
        (Some (with_redirection es io)) pending_redelivery
  end.

(** ** Register window *)
Definition read_register io (reg : Z) : Z :=
  if reg =? 0x00 then as_reg_bits io.(id)
  else if reg =? 0x01 then
    let max := wrap 32 (Z.of_nat (length io.(redirection)) - 1) in
    0x11 ||| wrap 32 (max <<< 16)
  else if reg =? 0x02 then as_reg_bits io.(id)
  else if 0x10 <=? reg then
    let idx := reg - 0x10 in
    match io.(redirection) !! Z.to_nat (idx / 2) with
    | None => 0
    | Some e => if idx mod 2 =? 0 then RedirectionEntry.read_low e else RedirectionEntry.read_high e
    end
  else 0.

Definition write_register io (reg v : Z) : option (t S) :=
  if reg =? 0x00 then Some (with_id ((v >>> 24) &&& 0x0f) io)
  else if 0x10 <=? reg then
    let idx := reg - 0x10 in
    let entry := Z.to_nat (idx / 2) in
    match io.(redirection) !! entry with
    | None => Some io
    | Some e =>
        if idx mod 2 =? 0 then
          let '(transition, e) := RedirectionEntry.write_low e v in
          let io := with_redirection (<[entry := e]> io.(redirection)) io in
          if bool_decide (transition = Unmasked) then maybe_deliver_level io entry else Some io
        else Some (with_redirection (<[entry := RedirectionEntry.write_high e v]> io.(redirection)) io)
    end
  else Some io.

Definition mmio_read io (offset size : Z) : Z :=
  if negb (size =? 4) then 0
  else if offset =? 0x00 then io.(ioregsel)
  else if offset =? 0x10 then read_register io io.(ioregsel)
  else 0.

Definition mmio_write io (offset size value : Z) : option (t S) :=
  if negb (size =? 4) then Some io
  else
    let v := wrap 32 value in
    if offset =? 0x00 then Some (with_ioregsel (v &&& 0xff) io)
    else if offset =? 0x10 then write_register io io.(ioregsel) v
    else Some io.
End Ops.
End IoApic.

(** ** Snapshot *)
Module IoApicSnapshot.
Abbreviation TAG_ID := (1) (only parsing).
Abbreviation TAG_IOREGSEL := (2) (only parsing).
Abbreviation TAG_REDIRECTION := (3) (only parsing).
Abbreviation TAG_PIN_ACTIVE_LOW := (4) (only parsing).
Abbreviation TAG_PIN_LEVEL := (5) (only parsing).
(** [*b"IOAP"] *)
Abbreviation DEVICE_ID := ([0x49; 0x4F; 0x41; 0x50]) (only parsing).
Abbreviation DEVICE_VERSION := (SnapshotVersion.new 1 0) (only parsing).

Section Snapshot.
Context `{Target} {S : Type}.
Implicit Types io : IoApic.t S.

Definition encode_entry (r : Encoder.t) (e : RedirectionEntry.t) : Encoder.t :=
  let trigger := match e.(RedirectionEntry.trigger_mode) with Edge => 0 | Level => 1 end in
  Encoder.bool e.(RedirectionEntry.remote_irr)
  (Encoder.u8 e.(RedirectionEntry.destination)
  (Encoder.bool e.(RedirectionEntry.mask)
  (Encoder.u8 trigger
  (Encoder.bool e.(RedirectionEntry.polarity_low)
  (Encoder.bool e.(RedirectionEntry.destination_mode)
  (Encoder.u8 e.(RedirectionEntry.delivery_mode)
  (Encoder.u8 e.(RedirectionEntry.vector) r))))))).

Definition encode_redirection (es : list RedirectionEntry.t) : list Z :=
  Encoder.finish (fold_left encode_entry es
    (Encoder.u32 (wrap 32 (Z.of_nat (length es))) Encoder.new)).

Definition encode_bools (bs : list bool) : list Z :=
  Encoder.finish (Encoder.vec_u8 (map (fun b : bool => if b then 1 else 0) bs) Encoder.new).

Definition save_state io : list Z :=
  let w := SnapshotWriter.new DEVICE_ID DEVICE_VERSION in
  let w := SnapshotWriter.field_u8 w TAG_ID (io.(IoApic.id) &&& 0x0f) in
  let w := SnapshotWriter.field_u8 w TAG_IOREGSEL io.(IoApic.ioregsel) in
  let w := SnapshotWriter.field_bytes w TAG_REDIRECTION (encode_redirection io.(IoApic.redirection)) in
  let w := SnapshotWriter.field_bytes w TAG_PIN_ACTIVE_LOW (encode_bools io.(IoApic.pin_active_low)) in
  let w := SnapshotWriter.field_bytes w TAG_PIN_LEVEL (encode_bools io.(IoApic.pin_level)) in
  SnapshotWriter.finish w.

Definition read_trigger : st Decoder.t SnapshotError TriggerMode :=
  let! v := Decoder.u8 in
  if v =? 0 then st_ret Edge else if v =? 1 then st_ret Level
  else st_err (InvalidFieldEncoding "ioapic trigger_mode").

Definition read_entry : st Decoder.t SnapshotError RedirectionEntry.t :=
  let! vector := Decoder.u8 in
  let! delivery_mode := Decoder.u8 in
  let! destination_mode := Decoder.bool in
  let! polarity_low := Decoder.bool in
  let! trigger_mode := read_trigger in
  let! mask := Decoder.bool in
  let! destination := Decoder.u8 in
  let! remote_irr := Decoder.bool in
  st_ret (RedirectionEntry.mk vector (delivery_mode &&& 0x7) destination_mode polarity_low trigger_mode
            mask destination remote_irr).

(** [for _ in 0..count], with [count] at most 4096. *)
Fixpoint read_entries (count : nat) : st Decoder.t SnapshotError (list RedirectionEntry.t) :=
  match count with
  | O => st_ret []
  | Datatypes.S count =>
      let! e := read_entry in
      let! es := read_entries count in
      st_ret (e :: es)
  end.

(** [d.finish()?] *)
Definition decoder_end : st Decoder.t SnapshotError unit := fun d => (Decoder.finish d, d).

Definition decode_redirection : st Decoder.t SnapshotError (list RedirectionEntry.t) :=
  let! count := Decoder.u32 in
  if count =? 0 then st_err (InvalidFieldEncoding "ioapic redirection count")
  else if MAX_SNAPSHOT_REDIRECTION_ENTRIES <? count then
    st_err (InvalidFieldEncoding "ioapic redirection count")
  else
    let! es := read_entries (Z.to_nat count) in
    let! _ := decoder_end in
    st_ret es.

Fixpoint bools_of_bytes (msg : string) (vs : list Z) : SnapshotResult (list bool) :=
  match vs with
  | [] => Ok []
  | v :: vs =>
      let? b := (if v =? 0 then Ok false else if v =? 1 then Ok true
                 else Err (InvalidFieldEncoding msg)) in
      let? bs := bools_of_bytes msg vs in
      Ok (b :: bs)
  end.

Definition decode_bools (msg : string) : st Decoder.t SnapshotError (list bool) :=
  let! count := Decoder.u32 in
  if MAX_SNAPSHOT_REDIRECTION_ENTRIES <? count then st_err (InvalidFieldEncoding msg)
  else
    let! values := Decoder.bytes count in
    let! _ := decoder_end in
    fun d => (bools_of_bytes msg values, d).

(** [if let Some(buf) = r.bytes(TAG) { .. self.field = ..; }] *)
Definition load_field {A} (r : SnapshotReader.t) (tag : Z) (dec : st Decoder.t SnapshotError A)
    (set : A -> IoApic.t S -> IoApic.t S) : st (IoApic.t S) SnapshotError unit := fun io =>
  match SnapshotReader.bytes r tag with
  | None => (Ok tt, io)
  | Some buf =>
      match (dec (Decoder.new buf)).1 with
      | Err e => (Err e, io)
      | Ok a => (Ok tt, set a io)
      end
  end.

(** The end of [load_state]: one level and one wiring flag per entry. *)
Definition fit_pins io : IoApic.t S :=
  let pins := length io.(IoApic.redirection) in
  let old_level_len := length io.(IoApic.pin_level) in
  let io := IoApic.with_pin_active_low (resize pins false io.(IoApic.pin_active_low)) io in
  let io := IoApic.with_pin_level (resize pins false io.(IoApic.pin_level)) io in
  IoApic.with_pin_level
    (take old_level_len io.(IoApic.pin_level) ++ drop old_level_len io.(IoApic.pin_active_low)) io.

Definition load_fields (r : SnapshotReader.t) : st (IoApic.t S) SnapshotError unit :=
  let! _ := load_opt (fun v => IoApic.with_id (v &&& 0x0f)) (SnapshotReader.u8 r TAG_ID) in
  let! _ := load_opt IoApic.with_ioregsel (SnapshotReader.u8 r TAG_IOREGSEL) in
  let! _ := load_field r TAG_REDIRECTION decode_redirection IoApic.with_redirection in
  let! _ := load_field r TAG_PIN_ACTIVE_LOW (decode_bools "ioapic pin_active_low") IoApic.with_pin_active_low in
  let! _ := load_field r TAG_PIN_LEVEL (decode_bools "ioapic pin_level") IoApic.with_pin_level in
  fun io => (Ok tt, fit_pins io).

Definition load_state (bytes : list Z) : st (IoApic.t S) SnapshotError unit := fun io =>
  match SnapshotReader.parse bytes DEVICE_ID with
  | Err e => (Err e, io)
  | Ok r =>
      match SnapshotReader.ensure_device_major r DEVICE_VERSION.(SnapshotVersion.major) with
      | Err e => (Err e, io)
      | Ok _ => load_fields r io
      end
  end.
End Snapshot.
End IoApicSnapshot.
