(* ===== verification/IoapicFacts.v ===== *)
(** * Facts about the I/O APIC model: delivery, frames, absence of panics *)

From S2P Require Import Prelude Bytes Collections Snapshot SnapshotFacts Lapic Ioapic.
Import IoApic.
Module E := RedirectionEntry.

(** ** Well-formed states *)
Record entry_ok (e : E.t) : Prop := {
  eo_vector : uint 8 e.(E.vector);
  eo_mode : 0 <= e.(E.delivery_mode) < 8;
  eo_dest : uint 8 e.(E.destination);
}.

Record ioapic_ok {S} (io : t S) : Prop := {
  io_wiring : length io.(pin_active_low) = length io.(redirection);
  io_pins : length io.(pin_level) = length io.(redirection);
  io_count : 0 < Z.of_nat (length io.(redirection)) <= MAX_SNAPSHOT_REDIRECTION_ENTRIES;
  io_entries : Forall entry_ok io.(redirection);
  io_id : 0 <= io.(id) < 16;
  io_sel : uint 8 io.(ioregsel);
}.

Lemma ioapic_new_ok {S} i (ls : list S) n :
  0 <= i < 16 -> (0 < n <= 4096)%nat -> ioapic_ok (with_entries_and_lapics i ls n).
Proof.
  intros Hi Hn. split; simpl; rewrite ?length_map, ?length_seq, ?length_replicate; try done.
  - lia.
  - by apply Forall_replicate.
Qed.

(** ** Absence of panics *)
Section Safety.
Context {S : Type} `{LapicInterruptSink S}.
Implicit Types (io : t S) (e : E.t).

(** What changes when something happens on pin [g]: sinks, and the Remote-IRR
    bit of that pin. *)
Record frame (g : nat) io io' : Prop := {
  fr_id : io'.(id) = io.(id);
  fr_sel : io'.(ioregsel) = io.(ioregsel);
  fr_wiring : io'.(pin_active_low) = io.(pin_active_low);
  fr_pins : io'.(pin_level) = io.(pin_level);
  fr_other i : i <> g -> io'.(redirection) !! i = io.(redirection) !! i;
  fr_self : exists b, io'.(redirection) !! g = E.with_remote_irr b <$> io.(redirection) !! g;
  fr_len : length io'.(redirection) = length io.(redirection);
}.

Lemma frame_refl g io : frame g io io.
Proof.
  split; try done. destruct (io.(redirection) !! g) as [e|] eqn:Hg; [|by exists true].
  exists (E.remote_irr e). simpl. by destruct e.
Qed.

Lemma frame_ok g io io' : frame g io io' -> ioapic_ok io -> ioapic_ok io'.
Proof.
  intros [Hid Hsel Hw Hp Ho [b Hg] Hl] [? ? ? He ? ?]. split; rewrite ?Hid, ?Hsel, ?Hw, ?Hp, ?Hl; try done.
  apply Forall_lookup. intros i e Hi. destruct (decide (i = g)) as [->|Hne].
  - rewrite Hg in Hi. destruct (io.(redirection) !! g) as [e0|] eqn:Hg0; [|done]. simplify_eq/=.
    destruct (Forall_lookup_1 _ _ _ _ He Hg0). by split.
  - rewrite Ho in Hi by done. by apply (Forall_lookup_1 _ _ _ _ He Hi).
Qed.

Lemma deliver_frame io g :
  (g < length io.(redirection))%nat -> exists io', deliver io g = Some io' /\ frame g io io'.
Proof.
  intros [e Hg]%lookup_lt_is_Some_2. unfold deliver. rewrite Hg.
  case_if; [exists io; split; [done|apply frame_refl]|].
  match goal with |- context [let '(_, _) := ?x in _] => destruct x as [ls reached] end.
  eexists. split; [done|]. case_if.
  - split; try done; simpl.
    + intros i Hi. by apply list_lookup_alter_ne.
    + exists true. apply list_lookup_alter_eq.
    + apply length_alter.
  - split; try done. simpl. rewrite Hg. exists (E.remote_irr e). simpl. by destruct e.
Qed.

Lemma maybe_deliver_frame io g :
  ioapic_ok io -> (g < length io.(redirection))%nat ->
  exists io', maybe_deliver_level io g = Some io' /\ frame g io io'.
Proof.
  intros Hok Hlt. pose proof Hlt as [e Hg]%lookup_lt_is_Some_2. pose proof Hlt as Hp.
  rewrite <- (io_pins _ Hok) in Hp. apply lookup_lt_is_Some_2 in Hp as [raw Hraw].
  pose proof (frame_refl g io). unfold maybe_deliver_level. rewrite Hg, Hraw.
  repeat case_if; first [by apply deliver_frame|by exists io].
Qed.

(** ** Loops over pins *)
Lemma foldl_sim {A B} (R : t S -> B -> Prop) (f : t S -> A -> option (t S)) (h : B -> A -> B) l io b :
  (forall io b x, x ∈ l -> R io b -> exists io', f io x = Some io' /\ R io' (h b x)) ->
  R io b ->
  exists io', foldl (fun o x => match o with Some io => f io x | None => None end) (Some io) l = Some io' /\
    R io' (foldl h b l).
Proof.
  revert io b. induction l as [|x l IH]; intros io b Hf HR; simpl; [by exists io|].
  destruct (Hf io b x) as (io1 & -> & HR1); [set_solver|done|].
  apply IH; [|done]. intros io2 b2 y Hy. apply Hf. set_solver.
Qed.

(** The entries an EOI of [v] clears. *)
Definition eoi_hits (v : Z) (e : E.t) : bool :=
  bool_decide (E.trigger_mode e = Level) && E.remote_irr e && (E.vector e =? v).
Definition eoi_clear (v : Z) (e : E.t) : E.t := if eoi_hits v e then E.with_remote_irr false e else e.
(** The pins it delivers again. *)
Definition eoi_again (v : Z) (raw : bool) (e : E.t) : bool :=
  eoi_hits v e && (E.interpret_level e raw && negb (E.mask e)).

Lemma eoi_scan_spec v pins k es :
  (k + length es <= length pins)%nat ->
  exists p, eoi_scan v pins k es = Some (map (eoi_clear v) es, p) /\ NoDup p /\
    forall j, j ∈ p <-> exists i e raw, j = (k + i)%nat /\ es !! i = Some e /\ pins !! j = Some raw
                          /\ eoi_again v raw e = true.
Proof.
  revert k. induction es as [|e es IH]; intros k Hk; simpl in *.
  { exists []. split; [done|]. split; [constructor|]. intros j. split; [set_solver|].
    by intros (i & e & raw & _ & ? & _). }
  destruct (IH (k + 1)%nat) as (p & -> & Hnd & Hp); [lia|].
  destruct (lookup_lt_is_Some_2 pins k) as [raw Hraw]; [lia|]. rewrite Hraw.
  assert (forall j, j ∈ p -> (k < j)%nat) as Hgt.
  { intros j (i & e' & raw' & -> & _)%Hp. lia. }
  assert (forall again, again = eoi_again v raw e ->
    NoDup (if again then k :: p else p) /\
    forall j, j ∈ (if again : bool then k :: p else p) <->
      exists i e' raw', j = (k + i)%nat /\ (e :: es) !! i = Some e' /\ pins !! j = Some raw'
        /\ eoi_again v raw' e' = true) as Hcons.
  { intros again ->. split.
    - destruct (eoi_again v raw e); [|done]. apply NoDup_cons. split; [|done]. intros Hin%Hgt. lia.
    - intros j. transitivity ((j = k /\ eoi_again v raw e = true) \/ j ∈ p).
      { destruct (eoi_again v raw e); set_solver. }
      rewrite Hp. split.
      + intros [[-> Ha]|(i & e' & raw' & -> & He & Hr & Ha)].
        * exists 0%nat, e, raw. by rewrite Nat.add_0_r.
        * exists (Datatypes.S i), e', raw'. split; [lia|done].
      + intros ([|i] & e' & raw' & -> & He & Hr & Ha); simpl in He.
        * left. rewrite Nat.add_0_r in Hr |- *. by simplify_eq.
        * right. exists i, e', raw'. split; [lia|done]. }
  replace (eoi_clear v e) with (if eoi_hits v e then E.with_remote_irr false e else e) by done.
  unfold eoi_again, eoi_hits in Hcons. unfold eoi_hits.
  destruct (bool_decide _); cbn [negb andb] in *; [|exists p; split; [done|by apply (Hcons false)]].
  destruct (E.remote_irr e); cbn [negb andb] in *; [|exists p; split; [done|by apply (Hcons false)]].
  destruct (E.vector e =? v); cbn [negb andb] in *; [|exists p; split; [done|by apply (Hcons false)]].
  eexists. split; [done|]. by apply Hcons.
Qed.

Lemma eoi_clear_ok v e : entry_ok e -> entry_ok (eoi_clear v e).
Proof. intros [? ? ?]. unfold eoi_clear. case_if; by split. Qed.

(** ** The operations *)
Inductive op :=
| SetIrqLevel (gsi : nat) (level : bool)
| NotifyEoi (vector : Z)
| SyncLevelTriggered
| SetPinActiveLow (gsi : nat) (active_low : bool)
| ClearRemoteIrr
| MmioWrite (offset size value : Z).

Definition exec io (o : op) : option (t S) :=
  match o with
  | SetIrqLevel gsi level => set_irq_level io gsi level
  | NotifyEoi v => notify_eoi io v
  | SyncLevelTriggered => sync_level_triggered io
  | SetPinActiveLow gsi b => Some (set_pin_active_low io gsi b)
  | ClearRemoteIrr => Some (clear_remote_irr io)
  | MmioWrite offset size value => mmio_write io offset size value
  end.

Definition run io (os : list op) : option (t S) :=
  foldl (fun o x => match o with Some io => exec io x | None => None end) (Some io) os.

(** Well-formed with [n] redirection entries. *)
Definition sized (n : nat) io : Prop := ioapic_ok io /\ length io.(redirection) = n.

Lemma frame_sized n g io io' : frame g io io' -> sized n io -> sized n io'.
Proof. intros Hf [Hok <-]. split; [by eapply frame_ok|apply Hf]. Qed.

Lemma deliver_sized n io g : (g < n)%nat -> sized n io -> exists io', deliver io g = Some io' /\ sized n io'.
Proof.
  intros Hg Hs. destruct (deliver_frame io g) as (io' & ? & Hf); [by rewrite (proj2 Hs)|]. exists io'.
  split; [done|by eapply frame_sized].
Qed.

Lemma maybe_deliver_sized n io g :
  (g < n)%nat -> sized n io -> exists io', maybe_deliver_level io g = Some io' /\ sized n io'.
Proof.
  intros Hg Hs. destruct (maybe_deliver_frame io g) as (io' & ? & Hf); [apply Hs|by rewrite (proj2 Hs)|].
  exists io'. split; [done|by eapply frame_sized].
Qed.

Lemma with_redirection_sized n es io :
  length es = n -> Forall entry_ok es -> sized n io -> sized n (with_redirection es io).
Proof. intros Hl He [[? ? ? ? ? ?] Hn]. split; [|done]. split; simpl; try done; congruence. Qed.

Lemma with_pins_sized n wiring pins io :
  length wiring = n -> length pins = n -> sized n io ->
  sized n (with_pin_level pins (with_pin_active_low wiring io)).
Proof. intros Hw Hp [[? ? ? ? ? ?] Hn]. split; [|done]. split; simpl; try done; congruence. Qed.

Lemma write_low_ok e v : entry_ok e -> entry_ok (E.write_low e v).2.
Proof.
  intros [? ? ?]. split; simpl; [|  |done].
  - change 255 with (Z.ones 8). rewrite land_ones_mod by lia. apply Z.mod_pos_bound. lia.
  - change 7 with (Z.ones 3). rewrite land_ones_mod by lia. by apply Z.mod_pos_bound.
Qed.

Lemma write_high_ok e v : 0 <= v -> entry_ok e -> entry_ok (E.write_high e v).
Proof. intros Hv [? ? ?]. split; simpl; [done..|]. apply uint_wrap. lia. Qed.

Lemma sync_sized n io : sized n io -> exists io', sync_level_triggered io = Some io' /\ sized n io'.
Proof.
  intros Hs. unfold sync_level_triggered. rewrite (proj2 Hs).
  apply (foldl_sim (fun io (_ : unit) => sized n io) _ (fun _ _ => tt) _ io tt); [|done].
  intros io1 _ x Hx Hs1. apply maybe_deliver_sized; [|done]. apply elem_of_seq in Hx. lia.
Qed.

Lemma set_irq_sized n io g level : sized n io -> exists io', set_irq_level io g level = Some io' /\ sized n io'.
Proof.
  intros Hs. unfold set_irq_level. destruct (io.(pin_level) !! g) as [raw|] eqn:Hg; [|by exists io].
  apply lookup_lt_Some in Hg. rewrite (io_pins _ (proj1 Hs)), (proj2 Hs) in Hg.
  set (io1 := with_pin_level _ io).
  assert (sized n io1) as Hs1.
  { destruct Hs as [Hok <-]. change io1 with (with_pin_level
      (<[g := xorb level (default false (io.(pin_active_low) !! g))]> io.(pin_level))
      (with_pin_active_low io.(pin_active_low) io)).
    apply with_pins_sized; [apply Hok|rewrite length_insert; apply Hok|done]. }
  destruct (redirection io1 !! g) as [e|] eqn:He; [|by exists io1].
  destruct (E.trigger_mode e); destruct (E.mask e); [by exists io1| |by exists io1|];
    match goal with |- context [if ?c then _ else _] => destruct c end;
    [by apply deliver_sized|by exists io1|by apply maybe_deliver_sized|by exists io1].
Qed.

Lemma notify_eoi_sized n io v : sized n io -> exists io', notify_eoi io v = Some io' /\ sized n io'.
Proof.
  intros Hs. unfold notify_eoi.
  destruct (eoi_scan_spec v io.(pin_level) 0 io.(redirection)) as (p & -> & _ & Hp).
  { by rewrite (io_pins _ (proj1 Hs)). }
  apply (foldl_sim (fun io (_ : unit) => sized n io) _ (fun _ _ => tt) _ _ tt).
  - intros io1 _ x (i & e & raw & -> & Hi & _)%Hp Hs1. apply deliver_sized; [|done].
    apply lookup_lt_Some in Hi. by rewrite (proj2 Hs) in Hi.
  - apply with_redirection_sized; [by rewrite length_map; apply Hs| |done].
    apply Forall_map. eapply Forall_impl; [apply (io_entries _ (proj1 Hs))|].
    intros e He. by apply eoi_clear_ok.
Qed.

Lemma write_register_sized n io reg v :
  0 <= v -> sized n io -> exists io', write_register io reg v = Some io' /\ sized n io'.
Proof.
  intros Hv Hs. unfold write_register. case_if.
  { eexists. split; [done|]. destruct Hs as [[? ? ? ? ? ?] Hn]. split; [|done]. split; try done; simpl.
    change 15 with (Z.ones 4). rewrite land_ones_mod by lia. by apply Z.mod_pos_bound. }
  case_if; [|by exists io]. set (j := Z.to_nat _).
  destruct (io.(redirection) !! j) as [e|] eqn:Hj; [|by exists io].
  assert (entry_ok e) as He by (apply (Forall_lookup_1 _ _ _ _ (io_entries _ (proj1 Hs)) Hj)).
  assert (forall e', entry_ok e' -> sized n (with_redirection (<[j := e']> io.(redirection)) io)) as Hw.
  { intros e' He'. apply with_redirection_sized; [by rewrite length_insert; apply Hs| |done].
    by apply Forall_insert; [apply Hs|]. }
  case_if.
  - pose proof (write_low_ok e v He) as He'. destruct (E.write_low e v) as [tr e']. simpl in He'.
    case_if; [|by eexists; split; [|apply Hw]]. apply maybe_deliver_sized; [|by apply Hw].
    apply lookup_lt_Some in Hj. by rewrite (proj2 Hs) in Hj.
  - eexists. split; [done|]. by apply Hw, write_high_ok.
Qed.

Lemma mmio_write_sized n io off sz v : sized n io -> exists io', mmio_write io off sz v = Some io' /\ sized n io'.
Proof.
  intros Hs. unfold mmio_write. case_if; [by exists io|]. case_if.
  { eexists. split; [done|]. destruct Hs as [[? ? ? ? ? ?] Hn]. split; [|done]. split; try done; simpl.
    change 255 with (Z.ones 8). rewrite land_ones_mod by lia. by apply Z.mod_pos_bound. }
  case_if; [|by exists io]. apply write_register_sized; [|done]. by apply uint_wrap.
Qed.

Lemma exec_sized n io o : sized n io -> exists io', exec io o = Some io' /\ sized n io'.
Proof.
  intros Hs. destruct o as [g level|v| |g b| |off sz v]; simpl.
  - by apply set_irq_sized.
  - by apply notify_eoi_sized.
  - by apply sync_sized.
  - eexists. split; [done|]. destruct Hs as [Hok <-].
    apply with_pins_sized; [rewrite length_insert; apply Hok..|done].
  - eexists. split; [done|]. apply with_redirection_sized; [rewrite length_map; apply Hs| |done].
    apply Forall_map. eapply Forall_impl; [apply (io_entries _ (proj1 Hs))|]. by intros e [? ? ?].
  - by apply mmio_write_sized.
Qed.
End Safety.

(** ** Sinks

    A sink keeps its identity when it is injected; [LocalApic] does. *)
Class SinkIdentity (S : Type) `{LapicInterruptSink S} := {
  inject_id s v : apic_id (inject_external_interrupt s v) = apic_id s;
  inject_logical s v d :
    matches_logical_destination (inject_external_interrupt s v) d = matches_logical_destination s d;
}.

(** To account for deliveries, a sink also tells how often it received each
    vector. *)
Class SinkLaws (S : Type) `{SinkIdentity S} := {
  received : S -> Z -> Z;
  received_inject s v u :
    received (inject_external_interrupt s v) u = received s u + (if u =? v then 1 else 0);
}.

(** The deliveries of [v] over all sinks. *)
Definition total {S : Type} `{SinkLaws S} (v : Z) (ls : list S) : Z := sumZ (fun l => received l v) ls.

(** How many sinks one delivery of the entry reaches. *)
Definition copies {S : Type} `{LapicInterruptSink S} (e : E.t) (ls : list S) : Z :=
  if 1 <? e.(E.delivery_mode) then 0
  else if e.(E.delivery_mode) =? 1 then Z.b2z (existsb (matches_destination e) ls)
  else sumZ (fun l => Z.b2z (matches_destination e l)) ls.

Section Delivery.
Context {S : Type} `{SL : SinkLaws S}.
Implicit Types (io : t S) (e : E.t) (ls : list S).

Lemma matches_inject e l v : matches_destination e (inject_external_interrupt l v) = matches_destination e l.
Proof. unfold matches_destination. by rewrite inject_id, inject_logical. Qed.

Lemma min_by_key_is_Some e i ls best :
  match min_by_key e i ls best with
  | Some j => (exists k, best = Some (j, k)) \/ (exists n l, j = (i + n)%nat /\ ls !! n = Some l /\ matches_destination e l = true)
  | None => best = None /\ existsb (matches_destination e) ls = false
  end.
Proof.
  revert i best. induction ls as [|l ls IH]; intros i best; simpl.
  { destruct best as [[j k]|]; simpl; [left; by exists k|done]. }
  specialize (IH (i + 1)%nat). destruct (matches_destination e l) eqn:Hm.
  - set (best' := match best with Some _ => _ | None => _ end).
    specialize (IH best'). destruct (min_by_key e (i + 1) ls best') as [j|].
    + destruct IH as [[k Hk]|(n & l' & -> & Hn & Hm')].
      * unfold best' in Hk. destruct best as [[j0 k0]|].
        -- case_if_in Hk; simplify_eq; [right; exists 0%nat, l; split_and!; [lia|done|done]|left; by exists k].
        -- simplify_eq. right. exists 0%nat, l. split_and!; [lia|done|done].
      * right. exists (Datatypes.S n), l'. split_and!; [lia|done|done].
    + destruct IH as [Hb _]. unfold best' in Hb. destruct best as [[? ?]|]; [by case_if_in Hb|done].
  - specialize (IH best). destruct (min_by_key e (i + 1) ls best) as [j|]; [|done].
    destruct IH as [?|(n & l' & -> & Hn & Hm')]; [by left|].
    right. exists (Datatypes.S n), l'. split_and!; [lia|done|done].
Qed.

(** The sinks after a delivery of [e], and whether any was reached. *)
Definition after_delivery e ls : list S * bool :=
  if e.(E.delivery_mode) =? 1 then
    match min_by_key e 0 ls None with
    | Some i => (alter (fun l => inject_external_interrupt l e.(E.vector)) i ls, true)
    | None => (ls, false)
    end
  else
    (map (fun l => if matches_destination e l then inject_external_interrupt l e.(E.vector) else l) ls,
     existsb (matches_destination e) ls).

Lemma after_delivery_reached e ls : (after_delivery e ls).2 = existsb (matches_destination e) ls.
Proof.
  unfold after_delivery. case_if; [|done]. pose proof (min_by_key_is_Some e 0 ls None) as Hm.
  destruct (min_by_key e 0 ls None) as [i|]; simpl; [|by destruct Hm].
  destruct Hm as [[k ?]|(n & l & _ & Hn & Hl)]; [done|]. symmetry. apply existsb_exists.
  exists l. split; [|done]. by eapply list_elem_of_In, list_elem_of_lookup_2.
Qed.

Lemma after_delivery_matches e e' ls :
  map (matches_destination e') (after_delivery e ls).1 = map (matches_destination e') ls.
Proof.
  unfold after_delivery. case_if.
  - destruct (min_by_key e 0 ls None) as [i|]; [|done]. simpl. revert i.
    induction ls as [|l ls IH]; intros [|i]; simpl; [done..| |].
    + by rewrite matches_inject.
    + f_equal. apply IH.
  - simpl. rewrite map_map. apply map_ext. intros l. case_if; [apply matches_inject|done].
Qed.

Lemma copies_after e e' ls : copies e' (after_delivery e ls).1 = copies e' ls.
Proof.
  pose proof (after_delivery_matches e e' ls) as Hm. unfold copies. case_if; [done|].
  assert (forall ls : list S, existsb (matches_destination e') ls = existsb (fun b : bool => b) (map (matches_destination e') ls)) as E1
    by (clear; induction ls as [|l ls IH]; simpl; [done|by rewrite IH]).
  assert (forall ls : list S, sumZ (fun l => Z.b2z (matches_destination e' l)) ls
            = sumZ Z.b2z (map (matches_destination e') ls)) as E2
    by (clear; induction ls as [|l ls IH]; simpl; [done|by rewrite IH]).
  by rewrite !E1, !E2, Hm.
Qed.

Lemma total_after e ls u :
  0 <= e.(E.delivery_mode) <= 1 ->
  total u (after_delivery e ls).1 = total u ls + (if u =? e.(E.vector) then copies e ls else 0).
Proof.
  intros Hd. unfold after_delivery, copies, total. rewrite (proj2 (Z.ltb_ge 1 _)) by lia.
  destruct (Z.eqb_spec (E.delivery_mode e) 1).
  - pose proof (min_by_key_is_Some e 0 ls None) as Hm.
    destruct (min_by_key e 0 ls None) as [i|]; simpl.
    + destruct Hm as [[k ?]|(n & l & -> & Hn & Hl)]; [done|].
      rewrite (sumZ_alter _ _ _ _ l) by done. rewrite received_inject.
      replace (existsb _ ls) with true; [destruct (u =? _); simpl; lia|].
      symmetry. apply existsb_exists. exists l. split; [|done]. by eapply list_elem_of_In, list_elem_of_lookup_2.
    + destruct Hm as [_ ->]. destruct (u =? _); simpl; lia.
  - simpl. clear Hd n. induction ls as [|l ls IH]; simpl; [by case_if|]. rewrite IH.
    destruct (matches_destination e l); [rewrite received_inject|]; destruct (u =? _); simpl; lia.
Qed.

Lemma sum_matches_pos e ls :
  0 <= sumZ (fun l => Z.b2z (matches_destination e l)) ls /\
  (0 <? sumZ (fun l => Z.b2z (matches_destination e l)) ls) = existsb (matches_destination e) ls.
Proof.
  induction ls as [|l ls [IH0 IH]]; simpl; [done|]. destruct (matches_destination e l); simpl.
  - split; [lia|]. apply Z.ltb_lt. lia.
  - split; [lia|]. rewrite <- IH. by rewrite Z.add_0_l.
Qed.

Lemma copies_pos e ls :
  0 <= copies e ls /\
  (0 <? copies e ls) = (E.delivery_mode e <=? 1) && existsb (matches_destination e) ls.
Proof.
  unfold copies. destruct (Z.ltb_spec 1 (E.delivery_mode e)); simpl.
  - by rewrite (proj2 (Z.leb_gt _ _)) by lia.
  - rewrite (proj2 (Z.leb_le _ _)) by lia. case_if; [by destruct (existsb _ ls)|apply sum_matches_pos].
Qed.

(** The sinks' account of one delivery of [e]. *)
Definition accounts (e : E.t) (n : Z) io io' : Prop :=
  (forall u, total u io'.(lapics) = total u io.(lapics) + (if u =? E.vector e then n * copies e io.(lapics) else 0)) /\
  (forall e', copies e' io'.(lapics) = copies e' io.(lapics)).

Lemma accounts_refl e io : accounts e 0 io io.
Proof. split; [|done]. intros u. destruct (u =? _); lia. Qed.

Lemma deliver_spec io g e :
  ioapic_ok io -> io.(redirection) !! g = Some e ->
  exists io', deliver io g = Some io' /\ frame g io io' /\ accounts e 1 io io' /\
    io'.(redirection) !! g =
      Some (E.with_remote_irr
        (E.remote_irr e || ((0 <? copies e io.(lapics)) && bool_decide (E.trigger_mode e = Level))) e).
Proof.
  intros Hok Hg. unfold deliver. rewrite Hg. destruct (copies_pos e io.(lapics)) as [Hc0 Hc].
  assert (0 <= E.delivery_mode e) as Hd0 by apply (Forall_lookup_1 _ _ _ _ (io_entries _ Hok) Hg).
  destruct (Z.ltb_spec 1 (E.delivery_mode e)) as [Hd|Hd].
  { exists io. split; [done|]. split; [apply frame_refl|]. rewrite (proj2 (Z.leb_gt _ _)) in Hc by lia. split.
    - split; [|done]. intros u. destruct (Z.eqb_spec u (E.vector e)); [|lia].
      unfold copies. rewrite (proj2 (Z.ltb_lt _ _)) by lia. lia.
    - rewrite Hc, Hg, orb_false_r. by destruct e. }
  rewrite (proj2 (Z.leb_le _ _)) in Hc by lia. simpl in Hc.
  change (if E.delivery_mode e =? 1 then _ else _) with (after_delivery e io.(lapics)).
  pose proof (after_delivery_reached e io.(lapics)) as Hr. rewrite <- Hc in Hr.
  pose proof (fun u => total_after e io.(lapics) u ltac:(lia)) as Ht.
  pose proof (fun e' => copies_after e e' io.(lapics)) as Hcp.
  destruct (after_delivery e io.(lapics)) as [ls reached]. simpl in Hr, Ht, Hcp. subst reached.
  eexists. split; [done|]. destruct (_ && bool_decide _) eqn:Hlv.
  - split; [|split; [split; [intros u; simpl; rewrite Ht; destruct (u =? _); lia|done]|]].
    + split; try done; simpl.
      * intros i Hi. by apply list_lookup_alter_ne.
      * exists true. apply list_lookup_alter_eq.
      * apply length_alter.
    + simpl. rewrite list_lookup_alter_eq, Hg. simpl. by rewrite orb_true_r.
  - split; [|split; [split; [intros u; simpl; rewrite Ht; destruct (u =? _); lia|done]|]].
    + split; try done. simpl. rewrite Hg. exists (E.remote_irr e). simpl. by destruct e.
    + simpl. rewrite Hg, orb_false_r. by destruct e.
Qed.

(** The condition under which [maybe_deliver_level] delivers. *)
Definition level_due io (g : nat) (e : E.t) : bool :=
  bool_decide (E.trigger_mode e = Level) && negb (E.mask e) && negb (E.remote_irr e)
  && match io.(pin_level) !! g with Some raw => E.interpret_level e raw | None => false end.

Lemma maybe_deliver_spec io g e :
  ioapic_ok io -> io.(redirection) !! g = Some e ->
  exists io', maybe_deliver_level io g = Some io' /\ frame g io io' /\
    accounts e (Z.b2z (level_due io g e)) io io' /\
    io'.(redirection) !! g =
      Some (E.with_remote_irr (E.remote_irr e || (level_due io g e && (0 <? copies e io.(lapics)))) e).
Proof.
  intros Hok Hg. pose proof (lookup_lt_Some _ _ _ Hg) as Hlt. rewrite <- (io_pins _ Hok) in Hlt.
  destruct (lookup_lt_is_Some_2 _ _ Hlt) as [raw Hraw].
  unfold maybe_deliver_level, level_due. rewrite Hg, Hraw.
  assert (Some e = Some (E.with_remote_irr (E.remote_irr e || false) e)) as Eid
    by (rewrite orb_false_r; by destruct e).
  assert (exists io', Some io = Some io' /\ frame g io io' /\ accounts e 0 io io' /\
            io'.(redirection) !! g = Some (E.with_remote_irr (E.remote_irr e || false) e)) as Hstay.
  { exists io. split; [done|]. split; [apply frame_refl|]. split; [apply accounts_refl|]. by rewrite Hg. }
  destruct (bool_decide (E.trigger_mode e = Level)) eqn:Hl; cbn [negb andb]; [|exact Hstay].
  destruct (E.mask e) eqn:Hm; cbn [negb andb orb]; [exact Hstay|].
  destruct (E.remote_irr e) eqn:Hr; cbn [negb andb orb]; [exact Hstay|].
  destruct (E.interpret_level e raw) eqn:Hi; cbn [negb andb orb]; [|exact Hstay].
  destruct (deliver_spec io g e Hok Hg) as (io' & Hd & Hf & Ha & Hg'). exists io'.
  split; [done|]. split; [done|]. split; [done|]. rewrite Hg', Hr, Hl. cbn [orb]. by rewrite andb_true_r.
Qed.

End Delivery.

(** ** Sinks of the machine *)
Lemma poll_timer_identity s now :
  let s' := LapicState.poll_timer s now in
  LapicState.id s' = LapicState.id s /\ LapicState.ldr s' = LapicState.ldr s /\ LapicState.dfr s' = LapicState.dfr s.
Proof.
  cbv zeta. unfold LapicState.poll_timer, LapicState.inject_fixed_interrupt_inner.
  repeat case_match; done.
Qed.

#[export] Instance local_apic_identity : SinkIdentity LocalApic.t.
Proof.
  assert (forall l v, let l' := LocalApic.inject_fixed_interrupt l v in
    LapicState.id (LocalApic.state l') = LapicState.id (LocalApic.state l) /\
    LapicState.ldr (LocalApic.state l') = LapicState.ldr (LocalApic.state l) /\
    LapicState.dfr (LocalApic.state l') = LapicState.dfr (LocalApic.state l)) as Hk.
  { intros l v. cbv zeta. pose proof (poll_timer_identity (LocalApic.state l) (LocalApic.now l)).
    unfold LocalApic.inject_fixed_interrupt, LapicState.inject_fixed_interrupt_inner. by case_if. }
  split; intros s v; [|intros d]; destruct (Hk s v) as (Hi & Hl & Hd).
  - done.
  - change (LapicState.matches_logical_dest (LocalApic.state (LocalApic.inject_fixed_interrupt s v)) d =
            LapicState.matches_logical_dest (LocalApic.state s) d).
    unfold LapicState.matches_logical_dest. by rewrite Hl, Hi.
Qed.

(** Any sink, with the list of the vectors it was given. *)
Module Logged.
Record t {S : Type} := mk { inner : S; log : list Z }.
Arguments t : clear implicits.
Arguments mk {S} _ _.

Section Instances.
Context {S : Type} `{SinkIdentity S}.

#[global] Instance sink : LapicInterruptSink (t S) := {|
  apic_id l := apic_id l.(inner);
  inject_external_interrupt l v := mk (inject_external_interrupt l.(inner) v) (v :: l.(log));
  processor_priority l := processor_priority l.(inner);
  matches_logical_destination l d := matches_logical_destination l.(inner) d;
|}.

#[global] Instance identity : SinkIdentity (t S).
Proof. split; intros; simpl; [apply inject_id|apply inject_logical]. Qed.

#[global] Program Instance laws : SinkLaws (t S) := {|
  received l v := Z.of_nat (length (List.filter (Z.eqb v) l.(log)));
|}.
Next Obligation.
  intros l v u. cbn. destruct (u =? v); cbn [length]; lia.
Qed.
End Instances.
End Logged.
