(* ===== verification/IoapicProps.v ===== *)
(** * Properties of the I/O APIC

    Level-triggered delivery refines a two-bit machine; no sequence of
    operations panics; the snapshot round trip, and what a failing load leaves. *)

From S2P Require Import Prelude Bytes Collections Snapshot SnapshotFacts Lapic Ioapic IoapicFacts.
Import IoApic.

(** ** The specification of one level-triggered line

    The line is asserted or not, an interrupt of it is in flight (delivered and
    not yet ended) or not, and [delivered] counts the deliveries. *)
Module Line.
Record t := mk { asserted : bool; in_flight : bool; delivered : Z }.

Definition offer (a : t) : t :=
  if a.(asserted) && negb a.(in_flight) then mk true true (a.(delivered) + 1) else a.

(** What may happen: a device drives a pin, some vector is ended, all pins are
    looked at again. *)
Inductive event := Drive (gsi : nat) (level : bool) | End (vector : Z) | Sync.

Definition step (g : nat) (v : Z) (a : t) (ev : event) : t :=
  match ev with
  | Drive i level => if (i =? g)%nat then offer (mk level a.(in_flight) a.(delivered)) else a
  | End u => if (u =? v) && a.(in_flight) then offer (mk a.(asserted) false a.(delivered)) else a
  | Sync => offer a
  end.

Lemma offer_idem a : offer (offer a) = offer a.
Proof. destruct a as [[|] [|] d]; reflexivity. Qed.
End Line.

Section Level.
Context {S : Type} `{SL : SinkLaws S}.
Implicit Types (io : t S) (a : Line.t).

Definition op_of (ev : Line.event) : op :=
  match ev with
  | Line.Drive g level => SetIrqLevel g level
  | Line.End v => NotifyEoi v
  | Line.Sync => SyncLevelTriggered
  end.

(** The pin [g], programmed with [e] (apart from Remote IRR), reaching [c]
    sinks. *)
Context (g : nat) (e : E.t) (c base : Z).

(** The I/O APIC state stands for the line state [a]. *)
Record tracks io a : Prop := {
  tr_ok : ioapic_ok io;
  tr_entry : io.(redirection) !! g = Some (E.with_remote_irr a.(Line.in_flight) e);
  tr_pin : E.interpret_level e <$> io.(pin_level) !! g = Some a.(Line.asserted);
  tr_wiring : io.(pin_active_low) !! g = Some (E.polarity_low e);
  tr_unique i e' : i <> g -> io.(redirection) !! i = Some e' -> E.vector e' <> E.vector e;
  tr_copies : copies e io.(lapics) = c;
  tr_total : total (E.vector e) io.(lapics) = base + c * a.(Line.delivered);
}.

Context (Hlevel : E.trigger_mode e = Level) (Hunmasked : E.mask e = false) (Hreach : 0 < c).

Lemma tracks_other io io' a i e' n :
  i <> g -> frame i io io' -> accounts e' n io io' -> E.vector e' <> E.vector e ->
  tracks io a -> tracks io' a.
Proof.
  intros Hi Hf [Ht Hc] Hv [? Hg Hp Hw Hu Hcp Htot]. pose proof Hf as [_ _ Fw Fp Fo [b Fs] _].
  split; try done; rewrite ?Fw, ?Fp, ?Fo, ?Hc by done; try done.
  - by eapply frame_ok.
  - intros j e0 Hj Hj0. destruct (decide (j = i)) as [->|Hne].
    + rewrite Fs in Hj0. destruct (io.(redirection) !! i) as [e1|] eqn:E1; simplify_eq/=. by apply (Hu i).
    + rewrite Fo in Hj0 by done. by apply (Hu j).
  - rewrite Ht, (proj2 (Z.eqb_neq _ _)) by done. lia.
Qed.

Lemma tracks_self io io' a n b :
  frame g io io' -> accounts (E.with_remote_irr a.(Line.in_flight) e) n io io' ->
  io'.(redirection) !! g = Some (E.with_remote_irr b e) ->
  tracks io a -> tracks io' (Line.mk a.(Line.asserted) b (a.(Line.delivered) + n)).
Proof.
  intros Hf [Ht Hc] Hb [? Hg Hp Hw Hu Hcp Htot]. pose proof Hf as [_ _ Fw Fp Fo _ _].
  split; simpl; rewrite ?Fw, ?Fp, ?Hc; try done.
  - by eapply frame_ok.
  - intros j e0 Hj. rewrite Fo by done. by apply Hu.
  - rewrite Ht. cbn [E.vector E.with_remote_irr]. rewrite Z.eqb_refl.
    change (copies (E.with_remote_irr _ e)) with (copies e). rewrite Hcp, Htot. lia.
Qed.

Lemma tracks_deliver io a :
  tracks io a ->
  exists io', deliver io g = Some io' /\
    tracks io' (Line.mk a.(Line.asserted) true (a.(Line.delivered) + 1)).
Proof.
  intros Ht. destruct (deliver_spec io g _ (tr_ok _ _ Ht) (tr_entry _ _ Ht)) as (io' & Hd & Hf & Ha & He).
  exists io'. split; [done|]. eapply tracks_self; [done..| |done].
  rewrite He. cbn [E.trigger_mode E.with_remote_irr]. rewrite Hlevel.
  change (copies (E.with_remote_irr _ e)) with (copies e). rewrite (tr_copies _ _ Ht).
  rewrite (proj2 (Z.ltb_lt _ _)) by done. by rewrite bool_decide_true, orb_true_r.
Qed.

Lemma tracks_deliver_other io a i :
  i <> g -> (i < length io.(redirection))%nat -> tracks io a ->
  exists io', deliver io i = Some io' /\ tracks io' a.
Proof.
  intros Hi Hl Ht. destruct (lookup_lt_is_Some_2 _ _ Hl) as [e' He'].
  destruct (deliver_spec io i e' (tr_ok _ _ Ht) He') as (io' & Hd & Hf & Ha & _).
  exists io'. split; [done|]. eapply tracks_other; [done..| |done]. by eapply (tr_unique _ _ Ht).
Qed.

Lemma tracks_maybe io a i :
  (i < length io.(redirection))%nat -> tracks io a ->
  exists io', maybe_deliver_level io i = Some io' /\
    length io'.(redirection) = length io.(redirection) /\
    tracks io' (if (i =? g)%nat then Line.offer a else a).
Proof.
  intros Hl Ht. destruct (lookup_lt_is_Some_2 _ _ Hl) as [e' He'].
  destruct (maybe_deliver_spec io i e' (tr_ok _ _ Ht) He') as (io' & Hd & Hf & Ha & Hi).
  exists io'. split; [done|]. split; [apply Hf|]. destruct (Nat.eqb_spec i g) as [->|Hne].
  2: { eapply tracks_other; [done..| |done]. by eapply (tr_unique _ _ Ht). }
  rewrite (tr_entry _ _ Ht) in He'. injection He' as <-.
  assert (level_due io g (E.with_remote_irr (Line.in_flight a) e) =
          Line.asserted a && negb (Line.in_flight a)) as Hdue.
  { unfold level_due. cbn [E.trigger_mode E.mask E.remote_irr E.with_remote_irr].
    rewrite Hlevel, Hunmasked, bool_decide_true by done. cbn [negb andb].
    pose proof (tr_pin _ _ Ht) as Hp. destruct (io.(pin_level) !! g) as [raw|]; [|done].
    simpl in Hp. injection Hp as <-. change (E.interpret_level (E.with_remote_irr _ e)) with (E.interpret_level e).
    apply andb_comm. }
  rewrite Hdue in Ha, Hi. change (copies (E.with_remote_irr _ e)) with (copies e) in Hi.
  rewrite (tr_copies _ _ Ht), (proj2 (Z.ltb_lt _ _)), andb_true_r in Hi by done.
  pose proof (tracks_self _ _ _ _ _ Hf Ha Hi Ht) as Hs. unfold Line.offer.
  destruct a as [[|] [|] d]; simpl in *; rewrite ?Z.add_0_r in Hs; exact Hs.
Qed.

Lemma tracks_sync io a :
  tracks io a -> exists io', sync_level_triggered io = Some io' /\ tracks io' (Line.offer a).
Proof.
  intros Ht. set (n := length io.(redirection)). unfold sync_level_triggered. fold n.
  destruct (foldl_sim (fun io a => length io.(redirection) = n /\ tracks io a) maybe_deliver_level
    (fun a i => if (i =? g)%nat then Line.offer a else a) (seq 0 n) io a) as (io' & Hf & _ & Ht').
  - intros io1 a1 i Hi [Hl1 Ht1]. apply elem_of_seq in Hi.
    destruct (tracks_maybe io1 a1 i ltac:(lia) Ht1) as (io2 & ? & ? & ?). exists io2. split; [done|]. split; [lia|done].
  - done.
  - exists io'. split; [exact Hf|].
    assert (g ∈ seq 0 n) as Hg.
    { apply elem_of_seq. pose proof (lookup_lt_Some _ _ _ (tr_entry _ _ Ht)). lia. }
    assert (forall l b, foldl (fun a i => if (i =? g)%nat then Line.offer a else a) (Line.offer b) l = Line.offer b) as Hstay.
    { induction l as [|i l IH]; intros b; simpl; [done|]. case_if; [rewrite Line.offer_idem|]; apply IH. }
    revert Hg Ht'. generalize (seq 0 n) a. clear -Hstay. induction l as [|i l IH]; intros a Hg Ht'; [set_solver|].
    simpl in Ht'. destruct (Nat.eqb_spec i g) as [->|Hne]; [by rewrite Hstay in Ht'|]. apply IH; [set_solver|done].
Qed.

(** Driving a pin, before anything is delivered. *)
Lemma tracks_drive_pin io a i level :
  tracks io a ->
  tracks (with_pin_level (<[i := xorb level (default false (io.(pin_active_low) !! i))]> io.(pin_level)) io)
    (if (i =? g)%nat then Line.mk level a.(Line.in_flight) a.(Line.delivered) else a).
Proof.
  intros [[? Hpl ? ? ? ?] Hg Hp Hw Hu Hcp Htot]. split.
  - split; simpl; try done. by rewrite length_insert.
  - by destruct (i =? g)%nat.
  - simpl. destruct (Nat.eqb_spec i g) as [->|Hne].
    + rewrite Hw. simpl. rewrite list_lookup_insert_eq.
      * simpl. f_equal. unfold E.interpret_level. by destruct (E.polarity_low e), level.
      * apply lookup_lt_Some in Hg. lia.
    + by rewrite list_lookup_insert_ne.
  - done.
  - done.
  - done.
  - by destruct (i =? g)%nat.
Qed.

Lemma tracks_drive io a i level :
  tracks io a ->
  exists io', set_irq_level io i level = Some io' /\
    tracks io' (Line.step g (E.vector e) a (Line.Drive i level)).
Proof.
  intros Ht. unfold set_irq_level, Line.step. destruct (io.(pin_level) !! i) as [raw|] eqn:Hraw.
  2: { exists io. split; [done|]. destruct (Nat.eqb_spec i g) as [->|]; [|done].
       pose proof (tr_pin _ _ Ht) as Hp. by rewrite Hraw in Hp. }
  pose proof (tracks_drive_pin io a i level Ht) as Ht1. set (io1 := with_pin_level _ io) in *.
  apply lookup_lt_Some in Hraw. rewrite (io_pins _ (tr_ok _ _ Ht)) in Hraw.
  change (length io.(redirection)) with (length io1.(redirection)) in Hraw.
  destruct (lookup_lt_is_Some_2 _ _ Hraw) as [e' He']. rewrite He'. destruct (Nat.eqb_spec i g) as [->|Hne].
  - rewrite (tr_entry _ _ Ht1) in He'. injection He' as <-.
    cbn [E.trigger_mode E.mask E.with_remote_irr]. rewrite Hlevel, Hunmasked.
    replace (E.interpret_level _ (xorb _ _)) with level.
    2: { rewrite (tr_wiring _ _ Ht). unfold E.interpret_level. simpl. by destruct (E.polarity_low e), level. }
    destruct level; [|by exists io1].
    destruct (tracks_maybe io1 _ g Hraw Ht1) as (io' & ? & _ & Ht'). rewrite Nat.eqb_refl in Ht'. by exists io'.
  - assert (exists io', Some io1 = Some io' /\ tracks io' a) as Hstay by by exists io1.
    destruct (E.trigger_mode e'); destruct (E.mask e'); [done| |done|];
      match goal with |- context [if ?c then _ else _] => destruct c end; [|done| |done].
    + by apply tracks_deliver_other.
    + destruct (tracks_maybe io1 _ i Hraw Ht1) as (io' & ? & _ & Ht').
      rewrite (proj2 (Nat.eqb_neq _ _)) in Ht' by done. by exists io'.
Qed.

Lemma tracks_redeliver p io a :
  NoDup p -> (forall i, i ∈ p -> (i < length io.(redirection))%nat) -> tracks io a ->
  exists io', foldl (fun o i => match o with Some io => deliver io i | None => None end) (Some io) p = Some io' /\
    tracks io' (if decide (g ∈ p) then Line.mk a.(Line.asserted) true (a.(Line.delivered) + 1) else a).
Proof.
  intros Hnd. revert io a. induction Hnd as [|i p Hni Hnd IH]; intros io a Hp Ht; [by exists io|].
  cbn [foldl]. assert (i < length io.(redirection))%nat as Hil by (apply Hp; set_solver).
  assert (forall io', deliver io i = Some io' -> length io'.(redirection) = length io.(redirection)) as Hlen.
  { intros io' Hd. destruct (lookup_lt_is_Some_2 _ _ Hil) as [e' He'].
    destruct (deliver_spec io i e' (tr_ok _ _ Ht) He') as (io2 & Hd2 & Hf & _). rewrite Hd in Hd2.
    injection Hd2 as <-. apply Hf. }
  destruct (decide (i = g)) as [->|Hne].
  - destruct (tracks_deliver io a Ht) as (io1 & Hd & Ht1). rewrite Hd.
    destruct (IH io1 _ ltac:(rewrite (Hlen _ Hd); set_solver) Ht1) as (io' & Hf & Ht').
    exists io'. split; [exact Hf|]. rewrite decide_False in Ht' by done. rewrite decide_True by set_solver. done.
  - destruct (tracks_deliver_other io a i Hne Hil Ht) as (io1 & Hd & Ht1). rewrite Hd.
    destruct (IH io1 a ltac:(rewrite (Hlen _ Hd); set_solver) Ht1) as (io' & Hf & Ht').
    exists io'. split; [exact Hf|].
    destruct (decide (g ∈ p)); [rewrite decide_True by set_solver|rewrite decide_False by set_solver]; done.
Qed.

Lemma tracks_end io a u :
  tracks io a ->
  exists io', notify_eoi io u = Some io' /\ tracks io' (Line.step g (E.vector e) a (Line.End u)).
Proof.
  intros Ht. unfold notify_eoi. pose proof (tr_ok _ _ Ht) as Hok.
  destruct (eoi_scan_spec u io.(pin_level) 0 io.(redirection)) as (p & -> & Hnd & Hp).
  { by rewrite (io_pins _ Hok). }
  set (hit := (u =? E.vector e) && Line.in_flight a).
  assert (eoi_hits u (E.with_remote_irr (Line.in_flight a) e) = hit) as Hhit.
  { unfold eoi_hits, hit. cbn [E.trigger_mode E.remote_irr E.vector E.with_remote_irr].
    rewrite Hlevel, bool_decide_true by done. by rewrite (Z.eqb_sym u), andb_comm. }
  set (a1 := if hit then Line.mk a.(Line.asserted) false a.(Line.delivered) else a).
  set (io1 := with_redirection _ io).
  assert (tracks io1 a1) as Ht1.
  { destruct Ht as [_ Hg Hpin Hw Hu Hcp Htot]. split; try done.
    - apply (with_redirection_sized (length io.(redirection))); [by rewrite length_map| |done].
      apply Forall_map. eapply Forall_impl; [apply (io_entries _ Hok)|]. apply eoi_clear_ok.
    - simpl. change (map ?f ?l) with (f <$> l). rewrite list_lookup_fmap, Hg. simpl. unfold eoi_clear.
      rewrite Hhit. unfold a1. by destruct hit.
    - unfold a1. by destruct hit.
    - intros i e' Hi. simpl. change (map ?f ?l) with (f <$> l). rewrite list_lookup_fmap.
      destruct (io.(redirection) !! i) as [e1|] eqn:E1; [|done]. simpl. intros [= <-].
      pose proof (Hu i e1 Hi E1). unfold eoi_clear. by case_if.
    - unfold a1. by destruct hit. }
  destruct (tracks_redeliver p io1 a1 Hnd) as (io' & Hf & Ht').
  { intros i (j & e' & raw & -> & Hj & _)%Hp. simpl. rewrite length_map. by apply lookup_lt_Some in Hj. }
  { done. }
  exists io'. split; [exact Hf|].
  assert (g ∈ p <-> hit = true /\ Line.asserted a = true) as Hgp.
  { rewrite Hp. pose proof (tr_pin _ _ Ht) as Hpin. pose proof (tr_entry _ _ Ht) as Hg.
    destruct (io.(pin_level) !! g) as [raw|] eqn:Er; [|done]. simpl in Hpin. injection Hpin as <-. split.
    - intros (i & e' & raw' & Hgi & Hi & Hr & Hag). simpl in Hgi. subst i. rewrite Hg in Hi. simplify_eq. unfold eoi_again in Hag. rewrite Hhit in Hag.
      apply andb_true_iff in Hag as [-> [Hlv _]%andb_true_iff]. by split.
    - intros [Hh Has]. exists g. eexists _, raw. split; [done|]. split; [done|]. split; [done|].
      unfold eoi_again. rewrite Hhit, Hh. cbn [E.mask E.with_remote_irr]. rewrite Hunmasked.
      change (E.interpret_level (E.with_remote_irr _ e)) with (E.interpret_level e). by rewrite Has. }
  unfold Line.step. fold hit. unfold a1, Line.offer in *.
  destruct hit, (Line.asserted a) eqn:Has; cbn [andb negb Line.asserted Line.in_flight Line.delivered] in *;
    first [rewrite decide_True in Ht' by (by apply Hgp) | rewrite decide_False in Ht' by (by intros [? ?]%Hgp)]; done.
Qed.
End Level.

(** C24: The I/O APIC treats a level-triggered, unmasked pin with a vector of its
    own as the line machine says: an assertion is delivered once; it is not
    delivered again while it is in flight; the end of interrupt delivers it again
    exactly if the line is still asserted; and what happens on other pins or to
    other vectors changes nothing.  Each delivery reaches the same number of
    sinks. *)
Theorem ioapic_level_exact {S : Type} `{SinkLaws S} g e base io a evs :
  E.trigger_mode e = Level -> E.mask e = false -> 0 < copies e io.(lapics) ->
  tracks g e (copies e io.(lapics)) base io a ->
  exists io', run io (map op_of evs) = Some io' /\
    tracks g e (copies e io.(lapics)) base io' (foldl (Line.step g (E.vector e)) a evs).
Proof.
  intros Hl Hm Hc. generalize dependent (copies e io.(lapics)). intros c Hc Ht.
  revert io a Ht. induction evs as [|ev evs IH]; intros io a Ht; [by exists io|].
  assert (exists io1, exec io (op_of ev) = Some io1 /\ tracks g e c base io1 (Line.step g (E.vector e) a ev))
    as (io1 & He & Ht1).
  { destruct ev as [i level|u|]; [by apply tracks_drive|by apply tracks_end|by apply tracks_sync]. }
  unfold run. cbn [map foldl]. rewrite He. by apply IH.
Qed.

(** ** Snapshots *)
Section Snapshots.
Context `{Target} {S : Type}.
Implicit Types io : t S.
Import IoApicSnapshot.

(** [ensures I J m]: the operation keeps [I], and establishes [J] if it
    succeeds. *)
Definition ensures {T E A} (I J : T -> Prop) (m : st T E A) : Prop :=
  forall s, I s -> I (m s).2 /\ forall a, (m s).1 = Ok a -> J (m s).2.

Lemma ensures_bind {T E A B} (I J : T -> Prop) (m : st T E A) (k : A -> st T E B) :
  keeps I m -> (forall a, ensures I J (k a)) -> ensures I J (let! a := m in k a).
Proof.
  intros Hm Hk s Hs. unfold st_bind. pose proof (Hm s Hs) as Hm'.
  destruct (m s) as [[a|e] s']; [by apply Hk|]. split; [done|]. by intros a [=].
Qed.

Lemma read_entry_yields : yields dec_ok entry_ok read_entry.
Proof.
  unfold read_entry. eapply yields_bind; [apply u8_yields|]. intros vector Hv.
  eapply yields_bind; [apply u8_yields|]. intros mode Hmode.
  do 2 (eapply yields_bind; [apply bool_yields|]; intros ? _).
  apply (yields_bind _ (fun _ => True)).
  { unfold read_trigger. eapply yields_bind; [apply u8_yields|]. intros v _.
    repeat case_if; first [by apply yields_ret|apply yields_err]. }
  intros trigger _. eapply yields_bind; [apply bool_yields|]. intros mask _.
  eapply yields_bind; [apply u8_yields|]. intros dest Hd.
  eapply yields_bind; [apply bool_yields|]. intros irr _. apply yields_ret. split; simpl; [done| |done].
  change 7 with (Z.ones 3). rewrite land_ones_mod by lia. by apply Z.mod_pos_bound.
Qed.

Lemma read_entries_yields n : yields dec_ok (fun es => Forall entry_ok es /\ length es = n) (read_entries n).
Proof.
  induction n as [|n IH]; cbn [read_entries]; [by apply yields_ret|].
  eapply yields_bind; [apply read_entry_yields|]. intros e He.
  eapply yields_bind; [apply IH|]. intros es [Hes Hl]. apply yields_ret. simpl. split; [by constructor|lia].
Qed.

Lemma decoder_end_yields : yields dec_ok (fun _ => True) decoder_end.
Proof. by intros d Hd. Qed.

Definition table_ok (es : list E.t) : Prop :=
  Forall entry_ok es /\ 0 < Z.of_nat (length es) <= MAX_SNAPSHOT_REDIRECTION_ENTRIES.

Lemma decode_redirection_yields : yields dec_ok table_ok decode_redirection.
Proof.
  unfold decode_redirection. eapply yields_bind; [apply u32_yields|]. intros count Hc.
  case_if; [apply yields_err|]. case_if; [apply yields_err|]. bool_hyps.
  eapply yields_bind; [apply read_entries_yields|]. intros es [Hes Hl].
  eapply yields_bind; [apply decoder_end_yields|]. intros _ _. apply yields_ret.
  split; [done|]. pose proof (proj1 Hc). lia.
Qed.

(** Everything but the number of pins. *)
Record core_ok io : Prop := {
  co_table : table_ok io.(redirection);
  co_id : 0 <= io.(id) < 16;
  co_sel : uint 8 io.(ioregsel);
}.

Lemma ioapic_core io : ioapic_ok io -> core_ok io.
Proof. by intros [? ? ? ? ? ?]. Qed.


Lemma fit_pins_ok io : core_ok io -> ioapic_ok (fit_pins io).
Proof.
  intros [[? ?] ? ?]. split; try done; unfold fit_pins; simpl; [apply length_resize|].
  rewrite length_app, length_take, length_drop, !length_resize. lia.
Qed.

Lemma fit_pins_same io : ioapic_ok io -> fit_pins io = io.
Proof.
  intros [Hw Hp _ _ _ _]. destruct io as [i sel es wiring pins ls]. simpl in *.
  assert (resize (length es) false wiring = wiring) as Ew by (rewrite <- Hw; apply resize_same).
  assert (resize (length es) false pins = pins) as Ep by (rewrite <- Hp; apply resize_same).
  unfold fit_pins, with_pin_level, with_pin_active_low. simpl. rewrite Ew, Ep.
  rewrite take_ge, drop_ge, app_nil_r by lia. done.
Qed.

Lemma load_field_keeps {A} (Q : A -> Prop) r tag dec (set : A -> t S -> t S) :
  (forall data, SnapshotReader.bytes r tag = Some data -> Forall byte_ok data) ->
  yields dec_ok Q dec -> (forall a io, Q a -> core_ok io -> core_ok (set a io)) ->
  keeps core_ok (load_field r tag dec set).
Proof.
  intros Hb Hd Hset io Hio. unfold load_field. destruct (SnapshotReader.bytes r tag) as [buf|]; [|done].
  destruct (Hd (Decoder.new buf)) as [_ Hq]; [by split; [apply Hb|]|].
  destruct (dec (Decoder.new buf)).1 as [a|]; [|done]. by apply Hset; [apply Hq|].
Qed.

Lemma decode_bools_yields msg : yields dec_ok (fun _ => True) (decode_bools msg).
Proof.
  unfold decode_bools. eapply yields_bind; [apply u32_yields|]. intros count [Hc _].
  case_if; [apply yields_err|]. eapply yields_bind; [by apply take_yields|]. intros vs _.
  eapply yields_bind; [apply decoder_end_yields|]. by intros _ _ d Hd.
Qed.

Lemma load_fields_ensures r :
  (forall tag data, SnapshotReader.bytes r tag = Some data -> Forall byte_ok data) ->
  ensures core_ok ioapic_ok (load_fields r : st (t S) SnapshotError unit).
Proof.
  intros Hb. assert (forall n msg tag v, SnapshotReader.sized n msg r tag = Ok (Some v) -> uint (8 * Z.of_nat n) v) as Hsz
    by (intros n msg tag v; apply sized_uint, Hb).
  unfold load_fields.
  apply ensures_bind; [eapply load_opt_keeps; [intros a Ha; exact (Hsz _ _ _ _ Ha)|]|intros _].
  { intros a io _ [? ? ?]. split; try done. simpl. change 15 with (Z.ones 4). rewrite land_ones_mod by lia.
    by apply Z.mod_pos_bound. }
  apply ensures_bind; [eapply load_opt_keeps; [intros a Ha; exact (Hsz _ _ _ _ Ha)|]|intros _].
  { by intros a io Ha [? ? ?]. }
  apply ensures_bind; [eapply load_field_keeps; [apply Hb|apply decode_redirection_yields|]|intros _].
  { by intros a io Ha [? ? ?]. }
  do 2 (apply ensures_bind; [eapply load_field_keeps; [apply Hb|apply decode_bools_yields|]; by intros a io Ha [? ? ?]|intros _]).
  intros io Hio. pose proof (fit_pins_ok io Hio) as Hf. split; [by apply ioapic_core|done].
Qed.

Lemma load_state_ok bs io :
  Forall byte_ok bs -> ioapic_ok io ->
  core_ok (load_state bs io).2 /\ ((load_state bs io).1 = Ok tt -> ioapic_ok (load_state bs io).2).
Proof.
  intros Hb Hio. pose proof (ioapic_core io Hio). unfold load_state.
  destruct (SnapshotReader.parse bs _) as [r|e] eqn:Hp; [|done].
  destruct (parse_ok _ _ _ Hb Hp) as (_ & _ & _ & Hf).
  destruct (SnapshotReader.ensure_device_major _ _); [|done].
  destruct (load_fields_ensures r Hf io) as [? Hq]; [done|]. split; [done|]. apply Hq.
Qed.

(** *** Round trip *)
Definition flag (b : bool) : Z := if b then 1 else 0.
Definition entry_bytes (e : E.t) : list Z :=
  [E.vector e; E.delivery_mode e; flag (E.destination_mode e); flag (E.polarity_low e);
   match E.trigger_mode e with Edge => 0 | Level => 1 end; flag (E.mask e); E.destination e;
   flag (E.remote_irr e)].

Lemma encode_redirection_eq es :
  encode_redirection es =
  to_le_bytes 4 (wrap 32 (Z.of_nat (length es))) ++ concat (map entry_bytes es).
Proof.
  unfold encode_redirection, Encoder.finish.
  change (Encoder.u32 ?v Encoder.new) with (to_le_bytes 4 v).
  generalize (to_le_bytes 4 (wrap 32 (Z.of_nat (length es)))). intros r. revert r.
  induction es as [|e es IH]; intros r; simpl; [by rewrite app_nil_r|]. rewrite IH.
  unfold encode_entry, Encoder.bool, Encoder.u8. by rewrite <- !app_assoc.
Qed.

Lemma entries_length es : length (concat (map entry_bytes es)) = (8 * length es)%nat.
Proof. induction es as [|e es IH]; simpl; [done|]. rewrite IH. lia. Qed.

Lemma read_entry_ahead d e rest :
  entry_ok e -> ahead d (entry_bytes e ++ rest) ->
  exists d', read_entry d = (Ok e, d') /\ ahead d' rest.
Proof.
  intros [Hv Hm Hd] Ha. unfold entry_bytes in Ha. cbn [app] in Ha. unfold read_entry, read_trigger.
  destruct (u8_ahead _ _ _ Hv Ha) as (d1 & T1 & A1). rewrite (st_bind_ok _ _ _ _ _ T1).
  assert (uint 8 (E.delivery_mode e)) as Hm8 by (unfold uint in *; lia).
  destruct (u8_ahead _ _ _ Hm8 A1) as (d2 & T2 & A2). rewrite (st_bind_ok _ _ _ _ _ T2).
  destruct (bool_ahead _ _ _ A2) as (d3 & T3 & A3). rewrite (st_bind_ok _ _ _ _ _ T3).
  destruct (bool_ahead _ _ _ A3) as (d4 & T4 & A4). rewrite (st_bind_ok _ _ _ _ _ T4).
  destruct (u8_ahead d4 (match E.trigger_mode e with Edge => 0 | Level => 1 end) _
              ltac:(by destruct (E.trigger_mode e)) A4) as (d5 & T5 & A5).
  rewrite (st_bind_ok _ _ d4 (E.trigger_mode e) d5)
    by (rewrite (st_bind_ok _ _ _ _ _ T5); by destruct (E.trigger_mode e)).
  destruct (bool_ahead _ _ _ A5) as (d6 & T6 & A6). rewrite (st_bind_ok _ _ _ _ _ T6).
  destruct (u8_ahead _ _ _ Hd A6) as (d7 & T7 & A7). rewrite (st_bind_ok _ _ _ _ _ T7).
  destruct (bool_ahead _ _ _ A7) as (d8 & T8 & A8). rewrite (st_bind_ok _ _ _ _ _ T8).
  exists d8. split; [|done]. unfold st_ret. f_equal. f_equal. change 7 with (Z.ones 3).
  rewrite land_ones_mod, Z.mod_small by (done || lia). by destruct e.
Qed.

Lemma read_entries_ahead es d rest :
  Forall entry_ok es -> ahead d (concat (map entry_bytes es) ++ rest) ->
  exists d', read_entries (length es) d = (Ok es, d') /\ ahead d' rest.
Proof.
  intros Hes. revert d. induction Hes as [|e es He _ IH]; intros d Ha; [by exists d|].
  cbn [map concat] in Ha. rewrite <- app_assoc in Ha. cbn [length read_entries].
  destruct (read_entry_ahead _ _ _ He Ha) as (d1 & T1 & A1). rewrite (st_bind_ok _ _ _ _ _ T1).
  destruct (IH _ A1) as (d2 & T2 & A2). rewrite (st_bind_ok _ _ _ _ _ T2). by exists d2.
Qed.

Lemma decode_encode_redirection es :
  table_ok es -> (decode_redirection (Decoder.new (encode_redirection es))).1 = Ok es.
Proof.
  intros [Hes Hn]. pose proof usize_max_ge.
  assert (uint 32 (Z.of_nat (length es))) as H32 by (unfold uint; lia).
  assert (ahead (Decoder.new (encode_redirection es))
            (to_le_bytes 4 (Z.of_nat (length es)) ++ concat (map entry_bytes es) ++ [])) as Ha.
  { rewrite app_nil_r, encode_redirection_eq, wrap_small by done. apply ahead_new.
    rewrite length_app, to_le_bytes_length, entries_length. lia. }
  destruct (u32_ahead _ _ _ H32 Ha) as (d1 & T1 & A1). unfold decode_redirection.
  rewrite (st_bind_ok Decoder.u32 _ _ _ _ T1), (proj2 (Z.eqb_neq _ 0)) by lia.
  rewrite (proj2 (Z.ltb_ge _ _)) by (lia). rewrite Nat2Z.id.
  destruct (read_entries_ahead _ _ _ Hes A1) as (d2 & T2 & A2). rewrite (st_bind_ok _ _ _ _ _ T2).
  by rewrite (st_bind_ok _ _ d2 tt d2) by (unfold decoder_end; by rewrite (finish_ahead _ _ A2)).
Qed.

Lemma bools_flags msg bs : bools_of_bytes msg (map flag bs) = Ok bs.
Proof. induction bs as [|[|] bs IH]; simpl; [done|by rewrite IH..]. Qed.

Lemma encode_bools_eq bs : encode_bools bs = to_le_bytes 4 (wrap 32 (Z.of_nat (length bs))) ++ map flag bs.
Proof. unfold encode_bools, Encoder.finish, Encoder.vec_u8, Encoder.u32. by rewrite length_map. Qed.

Lemma decode_encode_bools msg bs :
  Z.of_nat (length bs) <= MAX_SNAPSHOT_REDIRECTION_ENTRIES ->
  (decode_bools msg (Decoder.new (encode_bools bs))).1 = Ok bs.
Proof.
  intros Hn. pose proof usize_max_ge. 
  assert (uint 32 (Z.of_nat (length bs))) as H32 by (unfold uint; lia).
  assert (ahead (Decoder.new (encode_bools bs)) (to_le_bytes 4 (Z.of_nat (length bs)) ++ map flag bs ++ [])) as Ha.
  { rewrite app_nil_r, encode_bools_eq, wrap_small by done. apply ahead_new.
    rewrite length_app, to_le_bytes_length, length_map. lia. }
  destruct (u32_ahead _ _ _ H32 Ha) as (d1 & T1 & A1). unfold decode_bools.
  rewrite (st_bind_ok Decoder.u32 _ _ _ _ T1).
  rewrite (proj2 (Z.ltb_ge _ _)) by (lia).
  destruct (take_ahead _ _ _ A1) as (d2 & T2 & A2). rewrite length_map in T2.
  unfold Decoder.bytes. rewrite (st_bind_ok _ _ _ _ _ T2).
  rewrite (st_bind_ok _ _ d2 tt d2) by (unfold decoder_end; by rewrite (finish_ahead _ _ A2)).
  simpl. apply bools_flags.
Qed.

Definition ioapic_puts io : list (Z * list Z) :=
  [(TAG_ID, [io.(id) &&& 0x0f]); (TAG_IOREGSEL, [io.(ioregsel)]);
   (TAG_REDIRECTION, encode_redirection io.(redirection));
   (TAG_PIN_ACTIVE_LOW, encode_bools io.(pin_active_low)); (TAG_PIN_LEVEL, encode_bools io.(pin_level))].
Definition ioapic_writer io : SnapshotWriter.t := put_all (SnapshotWriter.new DEVICE_ID DEVICE_VERSION) (ioapic_puts io).

Lemma encode_bools_length bs : length (encode_bools bs) = (4 + length bs)%nat.
Proof. by rewrite encode_bools_eq, length_app, to_le_bytes_length, length_map. Qed.
Lemma encode_redirection_length es : length (encode_redirection es) = (4 + 8 * length es)%nat.
Proof. by rewrite encode_redirection_eq, length_app, to_le_bytes_length, entries_length. Qed.

Lemma ioapic_save_parse io :
  ioapic_ok io ->
  SnapshotReader.parse (save_state io) DEVICE_ID =
  Ok (SnapshotReader.mk (SnapshotHeader.mk FORMAT_VERSION DEVICE_ID DEVICE_VERSION) (ioapic_puts io)).
Proof.
  intros [Hw Hp Hn _ _ _]. pose proof usize_max_ge.
  apply (parse_finish (ioapic_writer io)).
  - apply put_all_ok; [by apply new_writer_ok|].
    assert (forall (k : nat), Z.of_nat k <= 40000 -> uint 32 (Z.of_nat k)) as H32 by (unfold uint; lia).
    repeat (apply Forall_cons; split; [split; [done|]|]); try by apply Forall_nil.
    + done.
    + done.
    + cbn [snd]. apply H32. rewrite encode_redirection_length. lia.
    + cbn [snd]. apply H32. rewrite encode_bools_length. lia.
    + cbn [snd]. apply H32. rewrite encode_bools_length. lia.
  - done.
  - change (SnapshotWriter.finish (ioapic_writer io)) with
      (SnapshotWriter.finish (SnapshotWriter.mk DEVICE_ID DEVICE_VERSION (ioapic_puts io))).
    unfold SnapshotWriter.finish, ioapic_puts, SnapshotWriter.field_tlv. cbn [map concat fst snd SnapshotWriter.fields].
    repeat (rewrite ?length_app, ?to_le_bytes_length, ?encode_bools_length, ?encode_redirection_length; cbn [length]).
    cbn [length MAGIC SnapshotWriter.device_id]. lia.
Qed.

Lemma ioapic_save_load io io0 :
  ioapic_ok io -> ioapic_ok io0 -> load_state (save_state io) io0 = (Ok tt, set_lapics io0.(lapics) io).
Proof.
  intros Hio _. pose proof (ioapic_core _ Hio) as [Htab Hid Hsel].
  unfold load_state. rewrite (ioapic_save_parse io Hio). set (r := SnapshotReader.mk _ _).
  change (SnapshotReader.ensure_device_major _ _) with (@Ok unit SnapshotError tt). cbv beta iota.
  assert (SnapshotReader.u8 r TAG_ID = Ok (Some (id io &&& 15))) as E1 by by apply saved_u8.
  assert (SnapshotReader.u8 r TAG_IOREGSEL = Ok (Some (ioregsel io))) as E2 by by apply saved_u8.
  unfold load_fields. rewrite (st_bind_ok _ _ _ _ _ (load_opt_some _ _ _ _ E1)).
  rewrite (st_bind_ok _ _ _ _ _ (load_opt_some _ _ _ _ E2)).
  assert (forall A tag dec (set : A -> t S -> t S) data a io1,
    SnapshotReader.bytes r tag = Some data -> (dec (Decoder.new data)).1 = Ok a ->
    load_field r tag dec set io1 = (Ok tt, set a io1)) as Hf.
  { intros A tag dec set data a io1 Hd Ha. unfold load_field. by rewrite Hd, Ha. }
  erewrite st_bind_ok; [|eapply Hf; [reflexivity|by apply decode_encode_redirection]].
  erewrite st_bind_ok; [|eapply Hf; [reflexivity|apply decode_encode_bools; rewrite (io_wiring _ Hio); apply Htab]].
  erewrite st_bind_ok; [|eapply Hf; [reflexivity|apply decode_encode_bools; rewrite (io_pins _ Hio); apply Htab]].
  f_equal. rewrite <- (fit_pins_same (set_lapics io0.(lapics) io)) by (by destruct Hio).
  f_equal. unfold set_lapics, with_pin_level, with_pin_active_low, with_redirection, with_ioregsel, with_id. simpl.
  f_equal. change 15 with (Z.ones 4). by rewrite !land_ones_mod, Z.mod_mod, Z.mod_small by lia.
Qed.
End Snapshots.

(** From a well-formed state no sequence of device, CPU and wiring
    operations makes the I/O APIC panic, and it stays well formed: as many pins
    as redirection entries, and fields in range. *)
Theorem ioapic_no_panic {S : Type} `{LapicInterruptSink S} (io : t S) os :
  ioapic_ok io ->
  exists io', run io os = Some io' /\ ioapic_ok io' /\ length io'.(redirection) = length io.(redirection).
Proof.
  intros Hio. destruct (foldl_sim (fun io1 (_ : unit) => sized (length io.(redirection)) io1) exec
    (fun _ _ => tt) os io tt) as (io' & Hr & Hok & Hl).
  - intros io1 _ o _ Hs. by apply exec_sized.
  - done.
  - by exists io'.
Qed.

(** A saved I/O APIC is restored exactly onto any other one, which keeps its
    sinks; a load that succeeds, on any bytes, leaves a well-formed state. *)
Theorem ioapic_snapshot `{Target} {S : Type} (io io0 : t S) bs :
  ioapic_ok io -> ioapic_ok io0 -> Forall byte_ok bs ->
  IoApicSnapshot.load_state (IoApicSnapshot.save_state io) io0 = (Ok tt, set_lapics io0.(lapics) io) /\
  ((IoApicSnapshot.load_state bs io0).1 = Ok tt -> ioapic_ok (IoApicSnapshot.load_state bs io0).2).
Proof. intros Hio Hio0 Hb. split; [by apply ioapic_save_load|by apply load_state_ok]. Qed.

(** ** Concrete instances: two local APICs behind an I/O APIC of 24 entries,
    pin 10 level-triggered, active high, unmasked, vector 0x60, broadcast. *)
Definition demo_lapic (i : Z) : Logged.t LocalApic.t :=
  Logged.mk (LocalApic.mk 0 (LapicState.with_svr 0x1FF (LapicState.new i))) [].
Definition demo_entry : E.t := E.mk 0x60 0 false false Level false 0xFF false.
Definition demo_ioapic : t (Logged.t LocalApic.t) :=
  let io := with_lapics 2 [demo_lapic 0; demo_lapic 1] in
  with_redirection (<[10%nat := demo_entry]> io.(redirection)) io.

Lemma demo_ioapic_ok : ioapic_ok demo_ioapic.
Proof.
  split; try done. unfold demo_ioapic. apply Forall_insert; [|by split].
  by apply Forall_replicate.
Qed.

Definition demo_events : list Line.event :=
  [Line.Drive 10 true; Line.Drive 10 true; Line.Sync; Line.End 0x60; Line.Drive 10 false; Line.End 0x60].

Lemma demo_tracks : tracks 10 demo_entry 2 0 demo_ioapic (Line.mk false false 0).
Proof.
  split; try done; [apply demo_ioapic_ok|]. intros i e' Hi He Hv. unfold demo_ioapic in He. simpl in He.
  change (_ :: _) with (<[10%nat := demo_entry]> (replicate 24 E.default)) in He.
  rewrite list_lookup_insert_ne in He by done. apply lookup_replicate in He as [-> _]. done.
Qed.

Lemma ioapic_level_exact_witness :
  (exists io', run demo_ioapic (map op_of demo_events) = Some io' /\
     tracks 10 demo_entry 2 0 io' (Line.mk false false 2)) /\
  (fun io => map Logged.log io.(lapics)) <$> run demo_ioapic (map op_of demo_events)
    = Some [[0x60; 0x60]; [0x60; 0x60]].
Proof.
  split; [|vm_compute; reflexivity].
  apply (ioapic_level_exact 10 demo_entry 0 demo_ioapic (Line.mk false false 0) demo_events);
    [reflexivity|reflexivity|vm_compute; reflexivity|exact demo_tracks].
Defined.

Lemma ioapic_no_panic_witness :
  exists io', run demo_ioapic [MmioWrite 0 4 0x10; MmioWrite 0x10 4 0x8031; SetIrqLevel 0 true;
                               SetIrqLevel 99 true; NotifyEoi 0x31; ClearRemoteIrr] = Some io' /\
    ioapic_ok io' /\ length io'.(redirection) = 24%nat.
Proof. exact (ioapic_no_panic demo_ioapic _ demo_ioapic_ok). Defined.

Lemma ioapic_snapshot_witness :
  @IoApicSnapshot.load_state wasm32 _ (IoApicSnapshot.save_state demo_ioapic) (with_entries 0 (demo_lapic 3) 30)
    = (Ok tt, set_lapics [demo_lapic 3] demo_ioapic).
Proof.
  apply (@ioapic_snapshot wasm32 _ demo_ioapic (with_entries 0 (demo_lapic 3) 30) []);
    [exact demo_ioapic_ok|apply ioapic_new_ok; lia|constructor].
Defined.

(** A snapshot whose table has 25 level-triggered unmasked entries and whose
    wiring flags are invalid. *)
Definition bad_snapshot : list Z :=
  let w := SnapshotWriter.new IoApicSnapshot.DEVICE_ID IoApicSnapshot.DEVICE_VERSION in
  let w := SnapshotWriter.field_bytes w IoApicSnapshot.TAG_REDIRECTION
             (IoApicSnapshot.encode_redirection (replicate 25 demo_entry)) in
  let w := SnapshotWriter.field_bytes w IoApicSnapshot.TAG_PIN_ACTIVE_LOW [1; 0; 0; 0; 7] in
  SnapshotWriter.finish w.

(** A load that fails after the redirection table was read leaves the new
    table beside the old pins: the snapshot below is refused with an error, and
    then looking at the level-triggered pins indexes out of range. *)
Theorem ioapic_load_partial :
  let '(res, io) := @IoApicSnapshot.load_state wasm32 _ bad_snapshot demo_ioapic in
  res = Err (InvalidFieldEncoding "ioapic pin_active_low") /\
  length io.(redirection) = 25%nat /\ length io.(pin_level) = 24%nat /\ sync_level_triggered io = None.
Proof. vm_compute. by split_and!. Qed.
