(* ===== verification/Router.v ===== *)
(** * Platform interrupt router (crates/platform/src/interrupts: pic.rs,
    router.rs, msi.rs; crates/devices/src/irq.rs)

    The complex of PIC, I/O APIC and local APICs behind one object: reference
    counts of the GSI lines, the two routing modes, the wiring of EOI and ICR
    notifications, MSI, and the line handles of the devices.

    The local APICs are shared ([Arc]) between the router, the I/O APIC's sinks
    and the notifier closures, and so are the clock and the [apic_enabled]
    flag: each is stored once, in the router's record.  Locking the I/O APIC
    lends it the local APICs as its sinks; unlocking takes them back.  A panic
    (an index out of range) is [None]. *)

From S2P Require Import Prelude Bytes Collections Snapshot Pic Lapic Ioapic.

(** A [for] loop whose body may panic. *)
Definition foldo {A B} (f : B -> A -> option B) (l : list A) (b : B) : option B :=
  foldl (fun o x => match o with Some b => f b x | None => None end) (Some b) l.

(** ** The PIC with the vector offsets the platform programmed *)
Module PlatformPic.
Record t := mk { inner : DualPic8259.t; master_base : Z; slave_base : Z }.
Definition with_inner d p := mk d p.(master_base) p.(slave_base).

Definition port_read_u8 (p : t) (port : Z) : Z := DualPic8259.port_read_u8 p.(inner) port.
Definition port_write_u8 (p : t) (port value : Z) : t :=
  with_inner (DualPic8259.port_write_u8 p.(inner) port value) p.

Definition set_offsets (p : t) (master_base slave_base : Z) : t :=
  let p := port_write_u8 p MASTER_CMD 0x11 in
  let p := port_write_u8 p MASTER_DATA master_base in
  let p := port_write_u8 p MASTER_DATA 0x04 in
  let p := port_write_u8 p MASTER_DATA 0x01 in
  let p := port_write_u8 p SLAVE_CMD 0x11 in
  let p := port_write_u8 p SLAVE_DATA slave_base in
  let p := port_write_u8 p SLAVE_DATA 0x02 in
  let p := port_write_u8 p SLAVE_DATA 0x01 in
  mk p.(inner) (master_base &&& 0xF8) (slave_base &&& 0xF8).

Definition new (master_base slave_base : Z) : t :=
  set_offsets (mk DualPic8259.new master_base slave_base) master_base slave_base.

Definition offsets (p : t) : Z * Z := (p.(master_base), p.(slave_base)).

Definition set_masked (p : t) (irq : Z) (masked : bool) : t :=
  let write port bit :=
    let imr := port_read_u8 p port in
    let imr := if masked then imr ||| bit else imr &&& unot 8 bit in
    port_write_u8 p port imr in
  if irq <=? 7 then write MASTER_DATA (1 <<< irq)
  else if irq <=? 15 then write SLAVE_DATA (1 <<< (irq - 8))
  else p.

Definition raise_irq (p : t) (irq : Z) : t := with_inner (DualPic8259.raise_irq p.(inner) irq) p.
Definition lower_irq (p : t) (irq : Z) : t := with_inner (DualPic8259.lower_irq p.(inner) irq) p.
Definition get_pending_vector (p : t) : option Z := DualPic8259.get_pending_vector p.(inner).
Definition acknowledge (p : t) (vector : Z) : t :=
  with_inner (DualPic8259.acknowledge p.(inner) vector).2 p.

Definition vector_to_irq (p : t) (vector : Z) : option Z :=
  if (p.(master_base) <=? vector) && (vector <? wrapping_add 8 p.(master_base) 8)
  then Some (wrapping_sub 8 vector p.(master_base))
  else if (p.(slave_base) <=? vector) && (vector <? wrapping_add 8 p.(slave_base) 8)
  then Some (8 + wrapping_sub 8 vector p.(slave_base))
  else None.

Definition eoi (p : t) (vector : Z) : t :=
  match vector_to_irq p vector with
  | None => p
  | Some irq =>
      if irq <? 8 then port_write_u8 p MASTER_CMD (0x60 ||| (irq &&& 0x07))
      else
        let p := port_write_u8 p SLAVE_CMD (0x60 ||| ((irq - 8) &&& 0x07)) in
        port_write_u8 p MASTER_CMD (0x60 ||| 0x02)
  end.

Definition save_state (p : t) : list Z := PicSnapshot.save_state p.(inner).
Definition load_state `{Target} (bytes : list Z) : st t SnapshotError unit := fun p =>
  match PicSnapshot.load_state bytes p.(inner) with
  | (Err e, d) => (Err e, with_inner d p)
  | (Ok _, d) =>
      let '(master, slave) := DualPic8259.vector_bases d in (Ok tt, mk d master slave)
  end.
End PlatformPic.

(** ** Local APICs as sinks of the I/O APIC *)
Inductive PlatformInterruptMode := LegacyPic | Apic.
#[export] Instance platform_interrupt_mode_eq_dec : EqDecision PlatformInterruptMode.
Proof. solve_decision. Defined.

Inductive InterruptInput := IsaIrq (irq : Z) | Gsi (gsi : Z).

Module RoutedLapicSink.
Record t := mk { lapic : LocalApic.t; apic_enabled : bool }.
Definition sink : LapicInterruptSink t := {|
  Lapic.apic_id s := LocalApic.apic_id s.(lapic);
  Lapic.inject_external_interrupt s vector :=
    if s.(apic_enabled) then mk (LocalApic.inject_fixed_interrupt s.(lapic) vector) s.(apic_enabled)
    else s;
  Lapic.processor_priority s := processor_priority s.(lapic);
  Lapic.matches_logical_destination s dest := matches_logical_destination s.(lapic) dest;
|}.
End RoutedLapicSink.
#[global] Existing Instance RoutedLapicSink.sink.

(** aero-pci-routing: the compatibility IRQs of the PCI window. *)
Definition q35_legacy_pic_irq_for_gsi (gsi : Z) : option Z :=
  if (20 <=? gsi) && (gsi <=? 23) then Some (wrap 8 (gsi - 20) + 10) else None.

Module MsiMessage.
Record t := mk { address : Z; data : Z }.
Definition vector (m : t) : Z := m.(data) &&& 0x00ff.
Definition destination_id (m : t) : Z := (m.(address) >>> 12) &&& 0xff.
Definition destination_is_logical (m : t) : bool := nz ((m.(address) >>> 2) &&& 0x1).
Definition is_xapic_address (m : t) : bool :=
  (m.(address) >>> 32 =? 0) && ((m.(address) &&& 0xFFF00000) =? 0xFEE00000).
End MsiMessage.

Module PlatformInterrupts.
Record t := mk {
  mode : PlatformInterruptMode;
  isa_irq_to_gsi : list Z;
  gsi_level : list bool;
  gsi_restore_baseline : list bool;
  gsi_assert_count : list Z;
  irq_line_generation : Z;
  pic : PlatformPic.t;
  ioapic : IoApic.t RoutedLapicSink.t;
  lapics : list LocalApic.t;
  lapic_clock : Z;
  apic_enabled : bool;
  pending_init : list bool;
  pending_sipi : list (option Z);
  imcr_select : Z;
  imcr : Z;
}.

(** Field assignments. *)
Definition with_mode v p := mk v p.(isa_irq_to_gsi) p.(gsi_level) p.(gsi_restore_baseline)
  p.(gsi_assert_count) p.(irq_line_generation) p.(pic) p.(ioapic) p.(lapics) p.(lapic_clock)
  p.(apic_enabled) p.(pending_init) p.(pending_sipi) p.(imcr_select) p.(imcr).
Definition with_isa_irq_to_gsi v p := mk p.(mode) v p.(gsi_level) p.(gsi_restore_baseline)
  p.(gsi_assert_count) p.(irq_line_generation) p.(pic) p.(ioapic) p.(lapics) p.(lapic_clock)
  p.(apic_enabled) p.(pending_init) p.(pending_sipi) p.(imcr_select) p.(imcr).
Definition with_gsi_level v p := mk p.(mode) p.(isa_irq_to_gsi) v p.(gsi_restore_baseline)
  p.(gsi_assert_count) p.(irq_line_generation) p.(pic) p.(ioapic) p.(lapics) p.(lapic_clock)
  p.(apic_enabled) p.(pending_init) p.(pending_sipi) p.(imcr_select) p.(imcr).
Definition with_gsi_restore_baseline v p := mk p.(mode) p.(isa_irq_to_gsi) p.(gsi_level) v
  p.(gsi_assert_count) p.(irq_line_generation) p.(pic) p.(ioapic) p.(lapics) p.(lapic_clock)
  p.(apic_enabled) p.(pending_init) p.(pending_sipi) p.(imcr_select) p.(imcr).
Definition with_gsi_assert_count v p := mk p.(mode) p.(isa_irq_to_gsi) p.(gsi_level)
  p.(gsi_restore_baseline) v p.(irq_line_generation) p.(pic) p.(ioapic) p.(lapics) p.(lapic_clock)
  p.(apic_enabled) p.(pending_init) p.(pending_sipi) p.(imcr_select) p.(imcr).
Definition with_irq_line_generation v p := mk p.(mode) p.(isa_irq_to_gsi) p.(gsi_level)
  p.(gsi_restore_baseline) p.(gsi_assert_count) v p.(pic) p.(ioapic) p.(lapics) p.(lapic_clock)
  p.(apic_enabled) p.(pending_init) p.(pending_sipi) p.(imcr_select) p.(imcr).
Definition with_pic v p := mk p.(mode) p.(isa_irq_to_gsi) p.(gsi_level) p.(gsi_restore_baseline)
  p.(gsi_assert_count) p.(irq_line_generation) v p.(ioapic) p.(lapics) p.(lapic_clock)
  p.(apic_enabled) p.(pending_init) p.(pending_sipi) p.(imcr_select) p.(imcr).
Definition with_ioapic v p := mk p.(mode) p.(isa_irq_to_gsi) p.(gsi_level) p.(gsi_restore_baseline)
  p.(gsi_assert_count) p.(irq_line_generation) p.(pic) v p.(lapics) p.(lapic_clock)
  p.(apic_enabled) p.(pending_init) p.(pending_sipi) p.(imcr_select) p.(imcr).
Definition with_lapics v p := mk p.(mode) p.(isa_irq_to_gsi) p.(gsi_level) p.(gsi_restore_baseline)
  p.(gsi_assert_count) p.(irq_line_generation) p.(pic) p.(ioapic) v p.(lapic_clock)
  p.(apic_enabled) p.(pending_init) p.(pending_sipi) p.(imcr_select) p.(imcr).
Definition with_apic_enabled v p := mk p.(mode) p.(isa_irq_to_gsi) p.(gsi_level)
  p.(gsi_restore_baseline) p.(gsi_assert_count) p.(irq_line_generation) p.(pic) p.(ioapic) p.(lapics)
  p.(lapic_clock) v p.(pending_init) p.(pending_sipi) p.(imcr_select) p.(imcr).
Definition with_pending_init v p := mk p.(mode) p.(isa_irq_to_gsi) p.(gsi_level)
  p.(gsi_restore_baseline) p.(gsi_assert_count) p.(irq_line_generation) p.(pic) p.(ioapic) p.(lapics)
  p.(lapic_clock) p.(apic_enabled) v p.(pending_sipi) p.(imcr_select) p.(imcr).
Definition with_pending_sipi v p := mk p.(mode) p.(isa_irq_to_gsi) p.(gsi_level)
  p.(gsi_restore_baseline) p.(gsi_assert_count) p.(irq_line_generation) p.(pic) p.(ioapic) p.(lapics)
  p.(lapic_clock) p.(apic_enabled) p.(pending_init) v p.(imcr_select) p.(imcr).
Definition with_imcr_select v p := mk p.(mode) p.(isa_irq_to_gsi) p.(gsi_level)
  p.(gsi_restore_baseline) p.(gsi_assert_count) p.(irq_line_generation) p.(pic) p.(ioapic) p.(lapics)
  p.(lapic_clock) p.(apic_enabled) p.(pending_init) p.(pending_sipi) v p.(imcr).
Definition with_imcr v p := mk p.(mode) p.(isa_irq_to_gsi) p.(gsi_level)
  p.(gsi_restore_baseline) p.(gsi_assert_count) p.(irq_line_generation) p.(pic) p.(ioapic) p.(lapics)
  p.(lapic_clock) p.(apic_enabled) p.(pending_init) p.(pending_sipi) p.(imcr_select) v.

(** The clock is read by every local APIC. *)
Definition set_now_ns (now : Z) (p : t) : t :=
  mk p.(mode) p.(isa_irq_to_gsi) p.(gsi_level) p.(gsi_restore_baseline)
    p.(gsi_assert_count) p.(irq_line_generation) p.(pic) p.(ioapic)
    (map (fun l => LocalApic.mk now l.(LocalApic.state)) p.(lapics)) now
    p.(apic_enabled) p.(pending_init) p.(pending_sipi) p.(imcr_select) p.(imcr).
Definition advance_ns (delta_ns : Z) (p : t) : t :=
  set_now_ns (wrapping_add 64 p.(lapic_clock) delta_ns) p.

(** [ioapic.lock()], with the sinks the router gave it; and the end of the
    critical section. *)
Definition lock_ioapic (p : t) : IoApic.t RoutedLapicSink.t :=
  IoApic.set_lapics (map (fun l => RoutedLapicSink.mk l p.(apic_enabled)) p.(lapics)) p.(ioapic).
Definition unlock_ioapic (io : IoApic.t RoutedLapicSink.t) (p : t) : t :=
  with_lapics (map RoutedLapicSink.lapic io.(IoApic.lapics)) (with_ioapic (IoApic.set_lapics [] io) p).
Definition use_ioapic (f : IoApic.t RoutedLapicSink.t -> option (IoApic.t RoutedLapicSink.t)) (p : t) :
    option t :=
  match f (lock_ioapic p) with
  | Some io => Some (unlock_ioapic io p)
  | None => None
  end.

(** The closures registered with [register_eoi_notifier]. *)
Definition eoi_notifier (p : t) (vector : Z) : option t :=
  use_ioapic (fun io => IoApic.notify_eoi io vector) p.

(** The write to the spurious vector register notifies nobody. *)
Definition enable_lapic_software (l : LocalApic.t) : LocalApic.t :=
  let '(buf, l) := LocalApic.mmio_read l 0xF0 4 in
  let svr := from_le_bytes buf in
  let svr := svr ||| (1 <<< 8) in
  (LocalApic.mmio_write l 0xF0 (to_le_bytes 4 svr)).2.

(** ** Inter-processor interrupts *)
(** The targets, as indexes into the shared local APICs. *)
Definition icr_targets (src_apic_id : Z) (icr : Icr.t) (ls : list LocalApic.t) : list nat :=
  match icr.(Icr.destination_shorthand) with
  | DestinationShorthand.NoShorthand =>
      match find_idx (fun l => LocalApic.apic_id l =? icr.(Icr.destination)) ls with
      | Some (i, _) => [i]
      | None => []
      end
  | DestinationShorthand.SelfOnly =>
      match find_idx (fun l => LocalApic.apic_id l =? src_apic_id) ls with
      | Some (i, _) => [i]
      | None => []
      end
  | DestinationShorthand.AllIncludingSelf => seq 0 (length ls)
  | DestinationShorthand.AllExcludingSelf =>
      List.filter (fun i => match ls !! i with
                            | Some l => negb (LocalApic.apic_id l =? src_apic_id)
                            | None => false
                            end) (seq 0 (length ls))
  end.

(** One iteration of the INIT loop. *)
Definition init_target (p : t) (i : nat) : t :=
  match p.(lapics) !! i with
  | None => p
  | Some l =>
      let apic_id := LocalApic.apic_id l in
      let p := with_pending_init (<[Z.to_nat apic_id := true]> p.(pending_init)) p in
      let l := LocalApic.reset_state l apic_id in
      let l := if p.(apic_enabled) then enable_lapic_software l else l in
      with_lapics (<[i := l]> p.(lapics)) p
  end.

Definition handle_icr_ipi (src_apic_id : Z) (icr : Icr.t) (p : t) : t :=
  let targets := icr_targets src_apic_id icr p.(lapics) in
  match icr.(Icr.delivery_mode) with
  | DeliveryMode.Fixed =>
      with_lapics (foldl (fun ls i => alter (fun l => LocalApic.inject_fixed_interrupt l icr.(Icr.vector)) i ls)
                     p.(lapics) targets) p
  | DeliveryMode.Init =>
      match icr.(Icr.level) with
      | Level.Deassert => p
      | Level.Assert => foldl init_target p targets
      end
  | DeliveryMode.Startup =>
      with_pending_sipi
        (foldl (fun sipi i =>
                  match p.(lapics) !! i with
                  | Some l => <[Z.to_nat (LocalApic.apic_id l) := Some icr.(Icr.vector)]> sipi
                  | None => sipi
                  end) p.(pending_sipi) targets) p
  | _ => p
  end.

(** What a local APIC's callbacks do, in the order in which it calls them. *)
Definition notify (src : nat) (p : t) (n : LocalApic.notification) : option t :=
  match n with
  | LocalApic.NotifyEoi vector => eoi_notifier p vector
  | LocalApic.NotifyIcr icr => Some (handle_icr_ipi (Z.of_nat src) icr p)
  end.

(** ** Construction and reset *)
Definition default_isa_irq_to_gsi : list Z := <[0%nat := 2]> (map Z.of_nat (seq 0 16)).

Definition enabled_lapic (l : LocalApic.t) : LocalApic.t :=
  (LocalApic.mmio_write l 0xF0 (to_le_bytes 4 0x1FF)).2.

Definition default_pic : PlatformPic.t :=
  let pic := PlatformPic.new 0x08 0x70 in
  let pic := PlatformPic.port_write_u8 pic MASTER_DATA 0xFF in
  PlatformPic.port_write_u8 pic SLAVE_DATA 0xFF.

Definition new_with_cpu_count (cpu_count : nat) : t :=
  let cpu_count := Nat.max cpu_count 1 in
  let lapics := map (fun apic_id => enabled_lapic (LocalApic.with_clock 0 (Z.of_nat apic_id)))
                  (seq 0 cpu_count) in
  let ioapic := IoApic.with_lapics 0 [] in
  let num_gsis := IoApic.num_redirection_entries ioapic in
  mk LegacyPic default_isa_irq_to_gsi (replicate num_gsis false) (replicate num_gsis false)
    (replicate num_gsis 0) 0 default_pic ioapic lapics 0 false (replicate cpu_count false)
    (replicate cpu_count None) 0 0.

Definition new : t := new_with_cpu_count 1.

Definition reset (p : t) : t :=
  let p := with_irq_line_generation (wrapping_add 64 p.(irq_line_generation) 1) p in
  let p := with_isa_irq_to_gsi default_isa_irq_to_gsi p in
  let p := with_pending_init (map (fun _ => false) p.(pending_init)) p in
  let p := with_pending_sipi (map (fun _ => None) p.(pending_sipi)) p in
  let p := set_now_ns 0 p in
  let p := with_lapics
             (imap (fun idx l =>
                let apic_id := Z.min (Z.of_nat idx) 255 in
                enabled_lapic (LocalApic.reset_state l apic_id)) p.(lapics)) p in
  let p := with_apic_enabled false p in
  let p := with_ioapic (IoApic.with_lapics 0 []) p in
  let num_gsis := IoApic.num_redirection_entries p.(ioapic) in
  let p := with_gsi_level (replicate num_gsis false) p in
  let p := with_gsi_restore_baseline (replicate num_gsis false) p in
  let p := with_gsi_assert_count (replicate num_gsis 0) p in
  let p := with_pic default_pic p in
  let p := with_mode LegacyPic p in
  with_imcr 0 (with_imcr_select 0 p).

(** With debug assertions: the loop resets every local APIC under its index. *)
Definition reset_asserts (p : t) : bool :=
  forallb (fun '(idx, l) => LocalApic.reset_state_asserts l (Z.min (Z.of_nat idx) 255))
    (imap pair p.(lapics)).

Definition cpu_count (p : t) : nat := length p.(lapics).

(** ** Routing mode *)
Definition set_mode (p : t) (mode : PlatformInterruptMode) : option t :=
  let prev := p.(PlatformInterrupts.mode) in
  let p := with_mode mode p in
  let p := with_apic_enabled (bool_decide (mode = Apic)) p in
  if negb (bool_decide (prev = Apic)) && bool_decide (mode = Apic) then
    let p := with_lapics (map enable_lapic_software p.(lapics)) p in
    use_ioapic (fun io =>
      foldo (fun io '(gsi, level) => IoApic.set_irq_level io gsi level)
        (imap pair p.(gsi_level)) (IoApic.clear_remote_irr io)) p
  else Some p.

Definition imcr_port_write (p : t) (port value : Z) : option t :=
  if port =? 0x22 then Some (with_imcr_select value p)
  else if port =? 0x23 then
    if p.(imcr_select) =? 0x70 then
      let p := with_imcr (value &&& 1) p in
      set_mode p (if nz p.(imcr) then Apic else LegacyPic)
    else Some p
  else Some p.

Definition imcr_port_read_u8 (p : t) (port : Z) : Z :=
  if port =? 0x22 then p.(imcr_select)
  else if port =? 0x23 then if p.(imcr_select) =? 0x70 then p.(imcr) else 0
  else 0.

(** The port device: wider accesses repeat the byte access on the same port. *)
Definition imcr_read (p : t) (port size : Z) : Z :=
  if size =? 0 then 0
  else
    let value := imcr_port_read_u8 p port in
    if size =? 2 then value ||| (value <<< 8)
    else if size =? 4 then value ||| (value <<< 8) ||| (value <<< 16) ||| (value <<< 24)
    else value.
Definition imcr_write (p : t) (port size value : Z) : option t :=
  if size =? 0 then Some p
  else if (size =? 2) || (size =? 4) then
    foldo (fun p i => imcr_port_write p port (wrap 8 (value >>> (Z.of_nat i * 8))))
      (seq 0 (Z.to_nat size)) p
  else imcr_port_write p port (wrap 8 value).

(** ** GSI lines *)
Definition set_isa_irq_override (p : t) (isa_irq gsi : Z) : t :=
  if isa_irq <? 16 then with_isa_irq_to_gsi (<[Z.to_nat isa_irq := gsi]> p.(isa_irq_to_gsi)) p else p.

Definition gsi_of_input (p : t) (input : InterruptInput) : Z :=
  match input with
  | IsaIrq irq => default irq (p.(isa_irq_to_gsi) !! Z.to_nat irq)
  | Gsi gsi => gsi
  end.

Definition legacy_pic_irq_for_gsi (p : t) (gsi : Z) : option Z :=
  match q35_legacy_pic_irq_for_gsi gsi with
  | Some irq => Some irq
  | None =>
      if 16 <=? gsi then None
      else
        match find_idx (fun mapped => mapped =? gsi) p.(isa_irq_to_gsi) with
        | Some (irq, _) => Some (wrap 8 (Z.of_nat irq))
        | None => if gsi <? 2 ^ 8 then Some gsi else None
        end
  end.

Definition drive_gsi_effective_level (p : t) (gsi : Z) (level : bool) : option t :=
  match p.(mode) with
  | LegacyPic =>
      match legacy_pic_irq_for_gsi p gsi with
      | Some irq =>
          Some (with_pic (if level then PlatformPic.raise_irq p.(pic) irq
                          else PlatformPic.lower_irq p.(pic) irq) p)
      | None => Some p
      end
  | Apic => use_ioapic (fun io => IoApic.set_irq_level io (Z.to_nat gsi) level) p
  end.

Definition set_gsi_level_internal (p : t) (gsi : Z) (level : bool) : t :=
  with_gsi_level (<[Z.to_nat gsi := level]> p.(gsi_level)) p.

Definition update_gsi_assert_count (p : t) (gsi : Z) (asserted : bool) : option t :=
  let idx := Z.to_nat gsi in
  match p.(gsi_assert_count) !! idx with
  | None => Some p
  | Some count =>
      if negb asserted && (count =? 0) then Some p
      else
        let count := if asserted then saturating_add 32 count 1 else count - 1 in
        let p := with_gsi_assert_count (<[idx := count]> p.(gsi_assert_count)) p in
        let baseline := default false (p.(gsi_restore_baseline) !! idx) in
        let desired_level := baseline || (0 <? count) in
        let prev := default false (p.(gsi_level) !! idx) in
        if eqb desired_level prev then Some p
        else drive_gsi_effective_level (set_gsi_level_internal p gsi desired_level) gsi desired_level
  end.

Definition raise_irq (p : t) (input : InterruptInput) : option t :=
  update_gsi_assert_count p (gsi_of_input p input) true.
Definition lower_irq (p : t) (input : InterruptInput) : option t :=
  update_gsi_assert_count p (gsi_of_input p input) false.

(** [PlatformInterrupts::gsi_level(gsi)] *)
Definition read_gsi_level (p : t) (gsi : Z) : bool := default false (p.(gsi_level) !! Z.to_nat gsi).

(** One iteration of the second loop of [finalize_restore]. *)
Definition finalize_gsi (p : t) (gsi : nat) : option t :=
  match p.(gsi_assert_count) !! gsi, p.(gsi_level) !! gsi with
  | Some count, Some level =>
      let desired := 0 <? count in
      if eqb level desired then Some p
      else drive_gsi_effective_level (with_gsi_level (<[gsi := desired]> p.(gsi_level)) p)
             (Z.of_nat gsi) desired
  | _, _ => None
  end.

Definition finalize_restore (p : t) : option t :=
  let p := with_gsi_assert_count
             (imap (fun idx count =>
                if (idx <? length p.(gsi_level))%nat
                   && default false (p.(gsi_restore_baseline) !! idx) && (count =? 0)
                then 1 else count) p.(gsi_assert_count)) p in
  let p := with_gsi_restore_baseline (map (fun _ => false) p.(gsi_restore_baseline)) p in
  foldo finalize_gsi (seq 0 (length p.(gsi_level))) p.

(** ** Interrupt acceptance by a CPU *)
Definition sync_cr8_tpr_for_cpu (p : t) (cpu : nat) (cr8 : Z) : t :=
  match p.(mode) with
  | Apic => with_lapics (alter (fun l => LocalApic.set_tpr_from_cr8 l cr8) cpu p.(lapics)) p
  | LegacyPic => p
  end.

Definition get_pending_for_cpu (p : t) (cpu : nat) : option Z * t :=
  match p.(mode) with
  | LegacyPic => if (cpu =? 0)%nat then (PlatformPic.get_pending_vector p.(pic), p) else (None, p)
  | Apic =>
      match p.(lapics) !! cpu with
      | None => (None, p)
      | Some l =>
          let '(v, l) := LocalApic.get_pending_vector l in
          (v, with_lapics (<[cpu := l]> p.(lapics)) p)
      end
  end.

Definition acknowledge_for_cpu (p : t) (cpu : nat) (vector : Z) : t :=
  match p.(mode) with
  | LegacyPic => if (cpu =? 0)%nat then with_pic (PlatformPic.acknowledge p.(pic) vector) p else p
  | Apic => with_lapics (alter (fun l => (LocalApic.ack l vector).2) cpu p.(lapics)) p
  end.

(** [lapic.eoi()] on the [cpu]-th local APIC, with its callbacks. *)
Definition lapic_eoi (p : t) (cpu : nat) : option t :=
  match p.(lapics) !! cpu with
  | None => Some p
  | Some l =>
      let '(eois, l) := LocalApic.eoi l in
      foldo eoi_notifier eois (with_lapics (<[cpu := l]> p.(lapics)) p)
  end.

Definition eoi_for_cpu (p : t) (cpu : nat) (vector : Z) : option t :=
  match p.(mode) with
  | LegacyPic => Some (if (cpu =? 0)%nat then with_pic (PlatformPic.eoi p.(pic) vector) p else p)
  | Apic => lapic_eoi p cpu
  end.

(** The first local APIC with that identifier. *)
Definition lapic_for_apic_id (p : t) (apic_id : Z) : option nat :=
  option_map fst (find_idx (fun l => LocalApic.apic_id l =? apic_id) p.(lapics)).

Definition get_pending_for_apic (p : t) (apic_id : Z) : option Z * t :=
  match p.(mode) with
  | LegacyPic => if apic_id =? 0 then (PlatformPic.get_pending_vector p.(pic), p) else (None, p)
  | Apic => match lapic_for_apic_id p apic_id with
            | None => (None, p)
            | Some i => get_pending_for_cpu p i
            end
  end.
Definition acknowledge_for_apic (p : t) (apic_id vector : Z) : t :=
  match p.(mode) with
  | LegacyPic => if apic_id =? 0 then with_pic (PlatformPic.acknowledge p.(pic) vector) p else p
  | Apic => match lapic_for_apic_id p apic_id with
            | None => p
            | Some i => acknowledge_for_cpu p i vector
            end
  end.
Definition eoi_for_apic (p : t) (apic_id vector : Z) : option t :=
  match p.(mode) with
  | LegacyPic => Some (if apic_id =? 0 then with_pic (PlatformPic.eoi p.(pic) vector) p else p)
  | Apic => match lapic_for_apic_id p apic_id with
            | None => Some p
            | Some i => lapic_eoi p i
            end
  end.

(** ** Register windows *)
Definition ioapic_mmio_read (p : t) (offset : Z) : Z :=
  wrap 32 (IoApic.mmio_read (lock_ioapic p) offset 4).

Definition ioapic_mmio_write (p : t) (offset value : Z) : option t :=
  let legacy := negb (bool_decide (p.(mode) = Apic)) in
  match use_ioapic (fun io =>
          match IoApic.mmio_write io offset 4 value with
          | Some io => Some (if legacy then IoApic.clear_remote_irr io else io)
          | None => None
          end) p with
  | None => None
  | Some p =>
      if legacy && IoApic.has_unmasked_redirection_entry p.(ioapic) then set_mode p Apic else Some p
  end.

Definition lapic_mmio_read_for_cpu (p : t) (cpu : nat) (offset : Z) (len : nat) : list Z * t :=
  match p.(lapics) !! cpu with
  | None => (replicate len 0, p)
  | Some l =>
      let '(data, l) := LocalApic.mmio_read l offset len in
      (data, with_lapics (<[cpu := l]> p.(lapics)) p)
  end.

Definition lapic_mmio_write_for_cpu (p : t) (cpu : nat) (offset : Z) (data : list Z) : option t :=
  match p.(lapics) !! cpu with
  | None => Some p
  | Some l =>
      let '(ns, l) := LocalApic.mmio_write l offset data in
      foldo (notify cpu) ns (with_lapics (<[cpu := l]> p.(lapics)) p)
  end.

Definition lapic_mmio_read_for_apic (p : t) (apic_id offset : Z) (len : nat) : list Z * t :=
  match lapic_for_apic_id p apic_id with
  | None => (replicate len 0, p)
  | Some i => lapic_mmio_read_for_cpu p i offset len
  end.
Definition lapic_mmio_write_for_apic (p : t) (apic_id offset : Z) (data : list Z) : option t :=
  match lapic_for_apic_id p apic_id with
  | None => Some p
  | Some i => lapic_mmio_write_for_cpu p i offset data
  end.

(** ** Time, INIT/SIPI events, single local APICs *)
Definition tick (p : t) (delta_ns : Z) : t :=
  let p := advance_ns delta_ns p in
  with_lapics (map LocalApic.poll p.(lapics)) p.

Definition take_pending_init (p : t) (cpu : nat) : bool * t :=
  (default false (p.(pending_init) !! cpu), with_pending_init (<[cpu := false]> p.(pending_init)) p).
Definition take_pending_sipi (p : t) (cpu : nat) : option Z * t :=
  (default None (p.(pending_sipi) !! cpu), with_pending_sipi (<[cpu := None]> p.(pending_sipi)) p).

Definition reset_lapic (p : t) (apic_id : Z) : t :=
  match lapic_for_apic_id p apic_id with
  | None => p
  | Some i =>
      with_lapics
        (alter (fun l =>
           let l := LocalApic.reset_state l apic_id in
           if p.(apic_enabled) then enable_lapic_software l else l) i p.(lapics)) p
  end.

(** With debug assertions: the identifier it looked up. *)
Definition reset_lapic_asserts (p : t) (apic_id : Z) : bool :=
  match lapic_for_apic_id p apic_id with
  | None => true
  | Some i => match p.(lapics) !! i with
              | Some l => LocalApic.reset_state_asserts l apic_id
              | None => true
              end
  end.

(** ** Message-signalled interrupts *)
Definition inject_fixed_for_apic (p : t) (apic_id vector : Z) : t :=
  match lapic_for_apic_id p apic_id with
  | None => p
  | Some i => with_lapics (alter (fun l => LocalApic.inject_fixed_interrupt l vector) i p.(lapics)) p
  end.
Definition inject_fixed_broadcast (p : t) (vector : Z) : t :=
  with_lapics (map (fun l => LocalApic.inject_fixed_interrupt l vector) p.(lapics)) p.

Definition trigger_msi (p : t) (message : MsiMessage.t) : t :=
  if negb (MsiMessage.is_xapic_address message) then p
  else
    let vector := MsiMessage.vector message in
    let dest := MsiMessage.destination_id message in
    if MsiMessage.destination_is_logical message then
      if dest =? 0xFF then inject_fixed_broadcast p vector
      else
        with_lapics
          (map (fun l =>
             let apic_id := LocalApic.apic_id l in
             if (apic_id <? 8) && nz (dest &&& (1 <<< apic_id))
             then LocalApic.inject_fixed_interrupt l vector else l) p.(lapics)) p
    else if dest =? 0xFF then inject_fixed_broadcast p vector
    else inject_fixed_for_apic p dest vector.
End PlatformInterrupts.

(** ** Line handles of the devices (crates/devices/src/irq.rs)

    The state of one handle; the router it points to is passed along. *)
Module PlatformIrqLine.
Record t := mk { input : InterruptInput; last_level : bool; last_generation : Z }.

(** [PlatformIrqLine::isa] and [::gsi] *)
Definition new (p : PlatformInterrupts.t) (input : InterruptInput) : t :=
  mk input false p.(PlatformInterrupts.irq_line_generation).

Definition set_level (l : t) (level : bool) (p : PlatformInterrupts.t) : option (t * PlatformInterrupts.t) :=
  let generation := p.(PlatformInterrupts.irq_line_generation) in
  let l := if l.(last_generation) =? generation then l else mk l.(input) false generation in
  if eqb l.(last_level) level then Some (l, p)
  else
    let l := mk l.(input) level l.(last_generation) in
    match (if level then PlatformInterrupts.raise_irq p l.(input)
           else PlatformInterrupts.lower_irq p l.(input)) with
    | Some p => Some (l, p)
    | None => None
    end.
End PlatformIrqLine.

(** ** Snapshot *)
Module RouterSnapshot.
Import PlatformInterrupts.
Abbreviation TAG_MODE := (1) (only parsing).
Abbreviation TAG_ISA_IRQ_TO_GSI := (2) (only parsing).
Abbreviation TAG_IMCR_SELECT := (3) (only parsing).
Abbreviation TAG_IMCR := (4) (only parsing).
Abbreviation TAG_PIC := (5) (only parsing).
Abbreviation TAG_IOAPIC := (6) (only parsing).
Abbreviation TAG_LAPIC := (7) (only parsing).
Abbreviation TAG_GSI_LEVEL := (8) (only parsing).
Abbreviation TAG_LAPIC_CLOCK_NOW_NS := (9) (only parsing).
Abbreviation TAG_LAPICS := (10) (only parsing).
Abbreviation MAX_SNAPSHOT_LAPICS := (256) (only parsing).
Abbreviation MAX_SNAPSHOT_LAPIC_STATE_LEN := (1024 * 1024) (only parsing).
(** [*b"INTR"] *)
Abbreviation DEVICE_ID := ([0x49; 0x4E; 0x54; 0x52]) (only parsing).
Abbreviation DEVICE_VERSION := (SnapshotVersion.new 1 0) (only parsing).

Section Snapshot.
Context `{Target}.

Definition encode_lapics (ls : list LocalApic.t) : list Z :=
  Encoder.finish (fold_left (fun enc l =>
    let state := LapicSnapshot.save_state l in
    Encoder.bytes state (Encoder.u64 (Z.of_nat (length state)) enc)) ls
    (Encoder.u32 (wrap 32 (Z.of_nat (length ls))) Encoder.new)).

Definition save_state (p : t) : list Z :=
  let w := SnapshotWriter.new DEVICE_ID DEVICE_VERSION in
  let mode := match p.(mode) with LegacyPic => 0 | Apic => 1 end in
  let w := SnapshotWriter.field_u8 w TAG_MODE mode in
  let w := SnapshotWriter.field_bytes w TAG_ISA_IRQ_TO_GSI (LapicSnapshot.encode_words p.(isa_irq_to_gsi)) in
  let w := SnapshotWriter.field_u8 w TAG_IMCR_SELECT p.(imcr_select) in
  let w := SnapshotWriter.field_u8 w TAG_IMCR p.(imcr) in
  let w := SnapshotWriter.field_bytes w TAG_GSI_LEVEL (IoApicSnapshot.encode_bools p.(gsi_level)) in
  let w := SnapshotWriter.field_u64 w TAG_LAPIC_CLOCK_NOW_NS p.(lapic_clock) in
  let w := SnapshotWriter.field_bytes w TAG_PIC (PlatformPic.save_state p.(pic)) in
  let w := SnapshotWriter.field_bytes w TAG_IOAPIC (IoApicSnapshot.save_state p.(ioapic)) in
  let w := match p.(lapics) with
           | [l] => SnapshotWriter.field_bytes w TAG_LAPIC (LapicSnapshot.save_state l)
           | ls => SnapshotWriter.field_bytes w TAG_LAPICS (encode_lapics ls)
           end in
  SnapshotWriter.finish w.

(** A restore ends with an error or, at an index out of range, a panic. *)
Inductive failure := Failed (e : SnapshotError) | Panicked.

Definition lift {A} (m : st t SnapshotError A) : st t failure A := fun p =>
  match m p with (Ok a, p) => (Ok a, p) | (Err e, p) => (Err (Failed e), p) end.
Definition unwrap (f : t -> option t) : st t failure unit := fun p =>
  match f p with Some p => (Ok tt, p) | None => (Err Panicked, p) end.
Definition modify (f : t -> t) : st t failure unit := fun p => (Ok tt, f p).
(** [self.field.load_state(buf)?] *)
Definition load_part {D} (get : t -> D) (set : D -> t -> t) (load : st D SnapshotError unit) :
    st t failure unit := fun p =>
  match load (get p) with
  | (Ok _, d) => (Ok tt, set d p)
  | (Err e, d) => (Err (Failed e), set d p)
  end.
(** [if let Some(buf) = r.bytes(TAG) { .. }] *)
Definition if_field (r : SnapshotReader.t) (tag : Z) (f : list Z -> st t failure unit) : st t failure unit :=
  match SnapshotReader.bytes r tag with Some buf => f buf | None => st_ret tt end.

(** The bookkeeping that every restore starts with. *)
Definition clear_lines (p : t) : t :=
  let p := with_gsi_level (map (fun _ => false) p.(gsi_level)) p in
  let p := with_gsi_restore_baseline (map (fun _ => false) p.(gsi_restore_baseline)) p in
  let p := with_gsi_assert_count (map (fun _ => 0) p.(gsi_assert_count)) p in
  let p := with_pending_init (map (fun _ => false) p.(pending_init)) p in
  with_pending_sipi (map (fun _ => None) p.(pending_sipi)) p.

Definition set_saved_mode (v : option Z) (p : t) : t :=
  let mode := if default 0 v =? 1 then Apic else LegacyPic in
  with_apic_enabled (bool_decide (mode = Apic)) (with_mode mode p).

Definition load_isa_irq_to_gsi (buf : list Z) : st (list Z) SnapshotError unit := fun slots =>
  match LapicSnapshot.read_words slots (Decoder.new buf) with
  | (Err e, slots, _) => (Err e, slots)
  | (Ok _, slots, d) => (Decoder.finish d, slots)
  end.

(** The levels become the baseline and the counts are forgotten. *)
Definition load_gsi_levels (buf : list Z) : st t failure unit := fun p =>
  match (IoApicSnapshot.decode_bools "gsi_level" (Decoder.new buf)).1 with
  | Err e => (Err (Failed e), p)
  | Ok decoded =>
      let p := with_gsi_restore_baseline decoded p in
      let p := with_gsi_level decoded p in
      (Ok tt, with_gsi_assert_count [] p)
  end.

(** The loop over the local APICs; those restored before a failure stay so. *)
Fixpoint load_lapics (ls : list LocalApic.t) (d : Decoder.t) :
    SnapshotResult Decoder.t * list LocalApic.t :=
  match ls with
  | [] => (Ok d, [])
  | l :: rest =>
      match Decoder.u64 d with
      | (Err e, _) => (Err e, l :: rest)
      | (Ok entry_len, d) =>
          if usize_max <? entry_len then (Err (InvalidFieldEncoding "lapic_entry_len"), l :: rest)
          else if (entry_len =? 0) || (MAX_SNAPSHOT_LAPIC_STATE_LEN <? entry_len) then
            (Err (InvalidFieldEncoding "lapic_entry_len"), l :: rest)
          else
            match Decoder.bytes entry_len d with
            | (Err e, _) => (Err e, l :: rest)
            | (Ok entry, d) =>
                match LapicSnapshot.restore_state entry l with
                | (Err e, l) => (Err e, l :: rest)
                | (Ok _, l) => let '(res, rest) := load_lapics rest d in (res, l :: rest)
                end
            end
      end
  end.

Definition load_lapics_field (buf : list Z) : st (list LocalApic.t) SnapshotError unit := fun ls =>
  match Decoder.u32 (Decoder.new buf) with
  | (Err e, _) => (Err e, ls)
  | (Ok lapic_count, d) =>
      if (lapic_count =? 0) || (MAX_SNAPSHOT_LAPICS <? lapic_count) then
        (Err (InvalidFieldEncoding "lapic_count"), ls)
      else if negb (lapic_count =? Z.of_nat (length ls)) then
        (Err (InvalidFieldEncoding "lapic_count_mismatch"), ls)
      else
        match load_lapics ls d with
        | (Err e, ls) => (Err e, ls)
        | (Ok d, ls) => (Decoder.finish d, ls)
        end
  end.

(** Snapshots of a single CPU: [self.lapics[0].restore_state(buf)?] *)
Definition load_lapic0 (buf : list Z) : st t failure unit := fun p =>
  match p.(lapics) with
  | [] => (Err Panicked, p)
  | l :: rest =>
      let '(res, l) := LapicSnapshot.restore_state buf l in
      (map_err Failed res, with_lapics (l :: rest) p)
  end.

(** One slot per redirection entry. *)
Definition fit_lines (p : t) : t :=
  let num_gsis := IoApic.num_redirection_entries p.(ioapic) in
  let p := with_gsi_level (resize num_gsis false p.(gsi_level)) p in
  let p := with_gsi_restore_baseline (resize num_gsis false p.(gsi_restore_baseline)) p in
  with_gsi_assert_count (resize num_gsis 0 p.(gsi_assert_count)) p.

(** The end of [load_state]: entry into APIC mode and redelivery. *)
Definition resync (p : t) : option t :=
  match (if negb (bool_decide (p.(mode) = Apic)) && IoApic.has_unmasked_redirection_entry p.(ioapic)
         then set_mode p Apic else Some p) with
  | None => None
  | Some p =>
      match (if bool_decide (p.(mode) = Apic) then use_ioapic IoApic.sync_level_triggered p else Some p) with
      | None => None
      | Some p => Some (with_irq_line_generation (wrapping_add 64 p.(irq_line_generation) 1) p)
      end
  end.

Definition load_fields (r : SnapshotReader.t) : st t failure unit :=
  let! _ := lift (fun p => match SnapshotReader.u8 r TAG_MODE with
                           | Err e => (Err e, p)
                           | Ok v => (Ok tt, set_saved_mode v p)
                           end) in
  let! _ := modify clear_lines in
  let! _ := if_field r TAG_ISA_IRQ_TO_GSI (fun buf =>
              load_part isa_irq_to_gsi with_isa_irq_to_gsi (load_isa_irq_to_gsi buf)) in
  let! _ := lift (load_opt with_imcr_select (SnapshotReader.u8 r TAG_IMCR_SELECT)) in
  let! _ := lift (load_opt (fun v => with_imcr (v &&& 1)) (SnapshotReader.u8 r TAG_IMCR)) in
  let! _ := if_field r TAG_GSI_LEVEL load_gsi_levels in
  let! _ := lift (load_opt set_now_ns (SnapshotReader.u64 r TAG_LAPIC_CLOCK_NOW_NS)) in
  let! _ := if_field r TAG_PIC (fun buf => load_part pic with_pic (PlatformPic.load_state buf)) in
  let! _ := if_field r TAG_IOAPIC (fun buf =>
              load_part ioapic with_ioapic (IoApicSnapshot.load_state buf)) in
  let! _ := match SnapshotReader.bytes r TAG_LAPICS with
            | Some buf => load_part lapics with_lapics (load_lapics_field buf)
            | None => if_field r TAG_LAPIC load_lapic0
            end in
  let! _ := modify fit_lines in
  unwrap resync.

Definition load_state (bytes : list Z) : st t failure unit := fun p =>
  match SnapshotReader.parse bytes DEVICE_ID with
  | Err e => (Err (Failed e), p)
  | Ok r =>
      match SnapshotReader.ensure_device_major r DEVICE_VERSION.(SnapshotVersion.major) with
      | Err e => (Err (Failed e), p)
      | Ok _ => load_fields r p
      end
  end.
End Snapshot.
End RouterSnapshot.
