(* ===== verification/RouterFacts.v ===== *)
(** * Facts about the interrupt router: sinks, locking, well-formed states, identifiers *)

From S2P Require Import Prelude Bytes Collections Snapshot SnapshotFacts Pic PicFacts Lapic LapicFacts LapicProps Ioapic IoapicFacts.
From S2P Require Import Router.
Module P := PlatformInterrupts.

(** ** Loops that may panic *)
Lemma foldo_inv {A B} (I : B -> Prop) (f : B -> A -> option B) l b :
  (forall b x, x ∈ l -> I b -> exists b', f b x = Some b' /\ I b') ->
  I b -> exists b', foldo f l b = Some b' /\ I b'.
Proof.
  unfold foldo. revert b. induction l as [|x l IH]; intros b Hf Hb; simpl; [by exists b|].
  destruct (Hf b x) as (b1 & -> & Hb1); [set_solver|done|].
  apply IH; [|done]. intros b2 y Hy. apply Hf. set_solver.
Qed.

Lemma foldo_app {A B} (f : B -> A -> option B) l1 l2 b :
  foldo f (l1 ++ l2) b = match foldo f l1 b with Some b => foldo f l2 b | None => None end.
Proof.
  unfold foldo. rewrite foldl_app. destruct (foldl _ (Some b) l1); [done|].
  by induction l2.
Qed.

(** ** What the I/O APIC does to its sinks

    Every operation changes a sink only by injecting vectors into it: a
    preorder that injection respects relates the sinks before and after. *)
Section Sinks.
Context {S : Type} `{LapicInterruptSink S} (R : relation S) `{!PreOrder R}.
Hypothesis Hinj : forall s v, uint 8 v -> R s (inject_external_interrupt s v).
Implicit Types io : IoApic.t S.

Lemma Forall2_map_self (f : S -> S) ls : (forall s, R s (f s)) -> Forall2 R ls (map f ls).
Proof. intros Hf. induction ls as [|s ls IH]; simpl; by constructor. Qed.

Lemma Forall2_alter_self (f : S -> S) i ls : (forall s, R s (f s)) -> Forall2 R ls (alter f i ls).
Proof.
  intros Hf. revert i. induction ls as [|s ls IH]; intros [|i]; simpl; constructor; try done.
  apply IH.
Qed.

Definition moved n io io' : Prop := sized n io' /\ Forall2 R io.(IoApic.lapics) io'.(IoApic.lapics).

Lemma moved_refl n io : sized n io -> moved n io io.
Proof. by split. Qed.

Lemma moved_trans n io1 io2 io3 : moved n io1 io2 -> moved n io2 io3 -> moved n io1 io3.
Proof. intros [_ H12] [Hs H23]. split; [done|by etrans]. Qed.

Lemma moved_sinks n io1 io2 io : io1.(IoApic.lapics) = io2.(IoApic.lapics) -> moved n io1 io -> moved n io2 io.
Proof. unfold moved. by intros ->. Qed.

Lemma deliver_moved n io g : (g < n)%nat -> sized n io -> exists io', IoApic.deliver io g = Some io' /\ moved n io io'.
Proof.
  intros Hg Hs. destruct (deliver_sized n io g Hg Hs) as (io' & Hd & Hs'). exists io'.
  split; [done|]. split; [done|]. destruct (lookup_lt_is_Some_2 io.(IoApic.redirection) g) as [e He].
  { by rewrite (proj2 Hs). }
  destruct (Forall_lookup_1 _ _ _ _ (io_entries _ (proj1 Hs)) He) as [Hv _ _].
  unfold IoApic.deliver in Hd. rewrite He in Hd. case_if_in Hd; [by injection Hd as <-|].
  match type of Hd with context [let '(_, _) := ?x in _] =>
    assert (Forall2 R io.(IoApic.lapics) x.1) as Hls; [|destruct x as [ls b]; simpl in Hls] end.
  { case_if; [|apply Forall2_map_self; intros s; case_if; [by apply Hinj|done]].
    destruct (IoApic.min_by_key _ _ _ _); [|done]. by apply Forall2_alter_self; auto. }
  injection Hd as <-. by case_if.
Qed.

Lemma maybe_deliver_moved n io g :
  (g < n)%nat -> sized n io -> exists io', IoApic.maybe_deliver_level io g = Some io' /\ moved n io io'.
Proof.
  intros Hg Hs. pose proof (moved_refl n io Hs). unfold IoApic.maybe_deliver_level.
  destruct (lookup_lt_is_Some_2 io.(IoApic.redirection) g) as [e ->]; [by rewrite (proj2 Hs)|].
  destruct (lookup_lt_is_Some_2 io.(IoApic.pin_level) g) as [raw ->].
  { by rewrite (io_pins _ (proj1 Hs)), (proj2 Hs). }
  repeat case_if; first [by apply deliver_moved|by exists io].
Qed.

Lemma loop_moved {A} n (f : IoApic.t S -> A -> option (IoApic.t S)) l io :
  (forall io x, x ∈ l -> sized n io -> exists io', f io x = Some io' /\ moved n io io') ->
  sized n io ->
  exists io', foldl (fun o x => match o with Some io => f io x | None => None end) (Some io) l = Some io'
              /\ moved n io io'.
Proof.
  intros Hf Hs. apply (foldo_inv (moved n io)); [|by apply moved_refl].
  intros io1 x Hx Hm. destruct (Hf io1 x Hx) as (io2 & ? & Hm2); [apply Hm|].
  exists io2. split; [done|]. by eapply moved_trans.
Qed.

Lemma exec_moved n io o : sized n io -> exists io', exec io o = Some io' /\ moved n io io'.
Proof.
  intros Hs. destruct (exec_sized n io o Hs) as (io' & Hx & Hs').
  destruct o as [g level|v| |g b| |off sz v]; simpl in *; try (injection Hx as <-; by eexists).
  - clear io' Hx Hs'. unfold IoApic.set_irq_level.
    destruct (io.(IoApic.pin_level) !! g) as [raw|] eqn:Hg; [|by exists io].
    apply lookup_lt_Some in Hg. rewrite (io_pins _ (proj1 Hs)), (proj2 Hs) in Hg.
    set (io1 := IoApic.with_pin_level _ io).
    assert (sized n io1) as Hs1.
    { destruct Hs as [Hok <-]. change io1 with (IoApic.with_pin_level
        (<[g := xorb level (default false (io.(IoApic.pin_active_low) !! g))]> io.(IoApic.pin_level))
        (IoApic.with_pin_active_low io.(IoApic.pin_active_low) io)).
      apply with_pins_sized; [apply Hok|rewrite length_insert; apply Hok|done]. }
    assert (moved n io io1) as Hm1 by (by split).
    destruct (IoApic.redirection io1 !! g) as [e|] eqn:He; [|by exists io1].
    destruct (E.trigger_mode e); destruct (E.mask e); try (by exists io1);
      match goal with |- context [if ?c then _ else _] => destruct c end; try (by exists io1);
      [destruct (deliver_moved n io1 g) as (io' & ? & ?)|
       destruct (maybe_deliver_moved n io1 g) as (io' & ? & ?)]; try done; by exists io'.
  - clear io' Hx Hs'. unfold IoApic.notify_eoi.
    destruct (eoi_scan_spec v io.(IoApic.pin_level) 0 io.(IoApic.redirection)) as (p & -> & _ & Hp).
    { by rewrite (io_pins _ (proj1 Hs)). }
    set (io1 := IoApic.with_redirection _ io).
    destruct (loop_moved n IoApic.deliver p io1) as (io' & -> & Hm).
    + intros io2 x (i & e & raw & -> & Hi & _)%Hp Hs1. apply deliver_moved; [|done].
      apply lookup_lt_Some in Hi. by rewrite (proj2 Hs) in Hi.
    + apply with_redirection_sized; [by rewrite length_map; apply Hs| |done].
      apply Forall_map. eapply Forall_impl; [apply (io_entries _ (proj1 Hs))|].
      intros e He. by apply eoi_clear_ok.
    + exists io'. by split.
  - unfold IoApic.sync_level_triggered. rewrite (proj2 Hs). apply loop_moved; [|done].
    intros io1 x Hx1 Hs1. apply maybe_deliver_moved; [|done]. apply elem_of_seq in Hx1. lia.
  - exists io'. split; [done|]. split; [done|]. clear Hs'. unfold IoApic.mmio_write in Hx.
    case_if_in Hx; [by injection Hx as <-|]. case_if_in Hx; [by injection Hx as <-|].
    case_if_in Hx; [|by injection Hx as <-]. unfold IoApic.write_register in Hx.
    case_if_in Hx; [by injection Hx as <-|]. case_if_in Hx; [|by injection Hx as <-].
    set (j := Z.to_nat _) in Hx. destruct (io.(IoApic.redirection) !! j) as [e|] eqn:Hj; [|by injection Hx as <-].
    case_if_in Hx; [|by injection Hx as <-].
    assert (entry_ok e) as He by (apply (Forall_lookup_1 _ _ _ _ (io_entries _ (proj1 Hs)) Hj)).
    pose proof (write_low_ok e (wrap 32 v) He) as He'. destruct (E.write_low e (wrap 32 v)) as [tr e']. simpl in He'.
    case_if_in Hx; [|by injection Hx as <-].
    destruct (maybe_deliver_moved n (IoApic.with_redirection (<[j := e']> io.(IoApic.redirection)) io) j)
      as (io2 & Hx2 & Hm); [| |].
    + apply lookup_lt_Some in Hj. by rewrite (proj2 Hs) in Hj.
    + apply with_redirection_sized; [by rewrite length_insert; apply Hs| |done].
      by apply Forall_insert; [apply Hs|].
    + rewrite Hx in Hx2. injection Hx2 as <-. apply Hm.
Qed.
End Sinks.

(** ** Well-formed routers *)

(** The level of a line: asserted by a restored baseline or by a device. *)
Definition wired (baseline : list bool) (counts : list Z) : list bool :=
  zip_with (fun b c => b || (0 <? c)) baseline counts.

Record router_ok (p : P.t) : Prop := {
  ro_ioapic : ioapic_ok p.(P.ioapic);
  ro_sinks : p.(P.ioapic).(IoApic.lapics) = [];
  ro_baseline : length p.(P.gsi_restore_baseline) = length p.(P.ioapic).(IoApic.redirection);
  ro_count : length p.(P.gsi_assert_count) = length p.(P.ioapic).(IoApic.redirection);
  ro_counts : Forall (uint 32) p.(P.gsi_assert_count);
  ro_level : p.(P.gsi_level) = wired p.(P.gsi_restore_baseline) p.(P.gsi_assert_count);
  ro_enabled : p.(P.apic_enabled) = bool_decide (p.(P.mode) = Apic);
  ro_lapics : Forall (fun l => apic_ok l /\ l.(L.now) = p.(P.lapic_clock)) p.(P.lapics);
  ro_clock : uint 64 p.(P.lapic_clock);
  ro_cpus : (1 <= length p.(P.lapics) <= 255)%nat;
  ro_init : length p.(P.pending_init) = length p.(P.lapics);
  ro_sipi : length p.(P.pending_sipi) = length p.(P.lapics);
  ro_sipis : Forall (fun o => match o with Some v => uint 8 v | None => True end) p.(P.pending_sipi);
  ro_pic : dual_valid p.(P.pic).(PlatformPic.inner);
  ro_bases : uint 8 p.(P.pic).(PlatformPic.master_base) /\ uint 8 p.(P.pic).(PlatformPic.slave_base);
  ro_isa : length p.(P.isa_irq_to_gsi) = 16%nat /\ Forall (uint 32) p.(P.isa_irq_to_gsi);
  ro_imcr : uint 8 p.(P.imcr_select) /\ 0 <= p.(P.imcr) <= 1;
  ro_gen : uint 64 p.(P.irq_line_generation);
}.

Lemma wired_length b c n : length b = n -> length c = n -> length (wired b c) = n.
Proof. intros. unfold wired. rewrite length_zip_with. lia. Qed.

Lemma ro_levels p : router_ok p -> length p.(P.gsi_level) = length p.(P.ioapic).(IoApic.redirection).
Proof. intros [? ? ? ? ? Hl]. rewrite Hl. by apply wired_length. Qed.

Lemma wired_insert b c i x :
  wired b (<[i:=x]> c) = <[i := default false (b !! i) || (0 <? x)]> (wired b c).
Proof.
  unfold wired. revert b i. induction c as [|y c IH]; intros [|a b] [|i]; simpl; try done.
  by rewrite IH.
Qed.

(** ** Local APICs *)
(** Time passing and interrupts arriving: what they keep. *)
Record lapic_kept (l l' : L.t) : Prop := {
  lk_now : L.now l' = L.now l;
  lk_id : L.apic_id l' = L.apic_id l;
  lk_ldr : LapicState.ldr (L.state l') = LapicState.ldr (L.state l);
  lk_svr : LapicState.svr (L.state l') = LapicState.svr (L.state l);
  lk_tpr : LapicState.tpr (L.state l') = LapicState.tpr (L.state l);
  lk_isr : LapicState.isr (L.state l') = LapicState.isr (L.state l);
  lk_ok : apic_ok l -> apic_ok l' /\
    forall u, vector_ok u -> requested (L.state l) u = true -> requested (L.state l') u = true;
}.

#[export] Instance lapic_kept_preorder : PreOrder lapic_kept.
Proof.
  split; [intros l; by split|]. intros l1 l2 l3 [H1 H2 H3 H4 H5 H6 H7] [K1 K2 K3 K4 K5 K6 K7].
  split; try congruence. intros (Hok & Hr)%H7. destruct (K7 Hok) as [Hok' Hr']. auto.
Qed.

Lemma inner_inject_kept l v : vector_ok v -> lapic_kept l (L.with_state (LapicState.inject_fixed_interrupt_inner (L.state l) v) l).
Proof.
  intros Hv. split; try (unfold L.apic_id, LapicState.inject_fixed_interrupt_inner; simpl; by case_if); [done|].
  intros [Hs Hn]. destruct (inject_spec _ v Hs Hv) as (Hok & _ & Hr). split; [done|].
  intros u Hu Hq. simpl. by rewrite Hr, Hq.
Qed.

Lemma poll_kept l : lapic_kept l (L.poll l).
Proof.
  unfold L.poll. split; try done; try (unfold L.apic_id; simpl; unfold LapicState.poll_timer,
    LapicState.inject_fixed_interrupt_inner; by repeat case_match).
  intros Hl. destruct (poll_ok l Hl) as [Hok _]. split; [done|]. destruct Hl as [Hs Hn]. intros u Hu Hr. simpl.
  rewrite poll_timer_eq by (done || apply Hn). repeat case_match; try done.
  all: unfold tick; case_if; [|done];
    destruct (inject_spec _ _ Hs (timer_vector_ok _ Hs)) as (_ & _ & Hq); specialize (Hq u Hu);
    rewrite Hr in Hq; exact Hq.
Qed.

Lemma inject_kept l v : vector_ok v -> lapic_kept l (L.inject_fixed_interrupt l v).
Proof. intros Hv. etrans; [apply poll_kept|]. by apply inner_inject_kept. Qed.

(** After an injection the vector is requested, if the APIC is enabled. *)
Lemma inject_requested l v :
  apic_ok l -> vector_ok v -> L.enabled l = true -> requested (L.state (L.inject_fixed_interrupt l v)) v = true.
Proof.
  intros Hl Hv He. destruct (poll_ok l Hl) as ([Hs _] & _ & Hen).
  destruct (inject_spec _ v Hs Hv) as (_ & _ & Hr). unfold L.inject_fixed_interrupt. simpl in *.
  rewrite Hr by done. unfold L.enabled in He. rewrite Hen, He, Z.eqb_refl. apply orb_true_r.
Qed.

(** ** Using the I/O APIC *)
Definition sink_kept (s s' : RoutedLapicSink.t) : Prop :=
  lapic_kept s.(RoutedLapicSink.lapic) s'.(RoutedLapicSink.lapic) /\
  s'.(RoutedLapicSink.apic_enabled) = s.(RoutedLapicSink.apic_enabled).

#[export] Instance sink_kept_preorder : PreOrder sink_kept.
Proof.
  split; [intros s; by split|]. intros s1 s2 s3 [H1 H2] [K1 K2]. split; [by etrans|congruence].
Qed.

Lemma sink_kept_inject s v : uint 8 v -> sink_kept s (inject_external_interrupt s v).
Proof.
  intros Hv. cbn. destruct s as [l [|]]; cbn; [|done]. split; [|done]. by apply inject_kept.
Qed.

Lemma with_lapics_ok p ls :
  router_ok p -> length ls = length p.(P.lapics) ->
  Forall (fun l => apic_ok l /\ L.now l = p.(P.lapic_clock)) ls -> router_ok (P.with_lapics ls p).
Proof. intros [] Hl Hls. split; simpl; try done; by rewrite ?Hl. Qed.

Lemma kept_lapics_ok p ls :
  router_ok p -> Forall2 (fun l l' => apic_ok l -> apic_ok l' /\ L.now l' = L.now l) p.(P.lapics) ls ->
  router_ok (P.with_lapics ls p).
Proof.
  intros Hp Hls. apply with_lapics_ok; [done|by rewrite (Forall2_length _ _ _ Hls)|].
  pose proof (ro_lapics p Hp) as Ho. clear -Hls Ho. induction Hls as [|l l' ls ls' Hl _ IH]; [done|].
  apply Forall_cons in Ho as [[Hok Hn] Ho]. constructor; [|by apply IH].
  destruct (Hl Hok) as [? ->]. done.
Qed.

Lemma lapic_kept_forall2 ls ls' :
  Forall2 lapic_kept ls ls' -> Forall2 (fun l l' => apic_ok l -> apic_ok l' /\ L.now l' = L.now l) ls ls'.
Proof. intros Hf. eapply Forall2_impl; [exact Hf|]. intros l l' Hk Hok. by destruct (lk_ok _ _ Hk Hok), Hk. Qed.

Lemma with_ioapic_ok p io :
  router_ok p -> ioapic_ok io -> io.(IoApic.lapics) = [] ->
  length io.(IoApic.redirection) = length p.(P.ioapic).(IoApic.redirection) -> router_ok (P.with_ioapic io p).
Proof. intros [] Hio Hs Hl. split; simpl; try done; by rewrite Hl. Qed.

Lemma set_lapics_sized {S} n (ls : list S) io : sized n io -> sized n (IoApic.set_lapics ls io).
Proof. intros [[] Hn]. by split; [split|]. Qed.

Lemma lock_sized p : router_ok p -> sized (length p.(P.ioapic).(IoApic.redirection)) (P.lock_ioapic p).
Proof. intros Hp. apply set_lapics_sized. by split; [apply Hp|]. Qed.

(** The outcome of a critical section: the local APICs have been injected. *)
Definition ioapic_effect (p p' : P.t) : Prop :=
  exists io ls, p' = P.with_lapics ls (P.with_ioapic io p) /\ Forall2 lapic_kept p.(P.lapics) ls /\
    length io.(IoApic.redirection) = length p.(P.ioapic).(IoApic.redirection).

Lemma use_ioapic_ok f p :
  (forall io, sized (length p.(P.ioapic).(IoApic.redirection)) io ->
     exists io', f io = Some io' /\ moved sink_kept (length p.(P.ioapic).(IoApic.redirection)) io io') ->
  router_ok p ->
  exists p', P.use_ioapic f p = Some p' /\ router_ok p' /\ ioapic_effect p p'.
Proof.
  intros Hf Hp. unfold P.use_ioapic. destruct (Hf (P.lock_ioapic p)) as (io & -> & Hs & Hm); [by apply lock_sized|].
  assert (Forall2 lapic_kept p.(P.lapics) (map RoutedLapicSink.lapic io.(IoApic.lapics))) as Hls.
  { simpl in Hm. change (map ?f ?l) with (f <$> l) in Hm |- *. rewrite Forall2_fmap_l in Hm. apply Forall2_fmap_r. eapply Forall2_impl; [exact Hm|].
    by intros l s [Hk _]. }
  eexists. split; [done|]. split; [|exists (IoApic.set_lapics [] io), (map RoutedLapicSink.lapic io.(IoApic.lapics));
    split; [done|]; split; [done|apply Hs]].
  unfold P.unlock_ioapic. apply kept_lapics_ok.
  - apply with_ioapic_ok; [done| |done|apply Hs]. by apply (set_lapics_sized _ [] _ Hs).
  - by apply lapic_kept_forall2.
Qed.

Lemma exec_sinks n (io : IoApic.t RoutedLapicSink.t) o :
  sized n io -> exists io', exec io o = Some io' /\ moved sink_kept n io io'.
Proof. apply exec_moved; [apply _|apply sink_kept_inject]. Qed.

Lemma exec_ioapic_ok o p :
  router_ok p -> exists p', P.use_ioapic (fun io => exec io o) p = Some p' /\ router_ok p' /\ ioapic_effect p p'.
Proof. intros Hp. apply use_ioapic_ok; [|done]. intros io. apply exec_sinks. Qed.

(** ** Lines *)
Lemma with_pic_ok p d :
  router_ok p -> dual_valid d -> router_ok (P.with_pic (PlatformPic.with_inner d p.(P.pic)) p).
Proof. intros [] Hd. by split. Qed.

Lemma with_lines_ok p counts levels :
  router_ok p -> length counts = length p.(P.gsi_assert_count) -> Forall (uint 32) counts ->
  levels = wired p.(P.gsi_restore_baseline) counts ->
  router_ok (P.with_gsi_level levels (P.with_gsi_assert_count counts p)).
Proof. intros [] Hl Hc ->. split; simpl; try done. congruence. Qed.

Lemma legacy_irq_nonneg p gsi irq : 0 <= gsi -> P.legacy_pic_irq_for_gsi p gsi = Some irq -> 0 <= irq.
Proof.
  intros Hg. unfold P.legacy_pic_irq_for_gsi, q35_legacy_pic_irq_for_gsi. case_if.
  { intros [= <-]. pose proof (uint_wrap 8 (gsi - 20)) as Hw. unfold uint in Hw. lia. }
  case_if; [done|]. destruct (find_idx _ _) as [[i x]|].
  - intros [= <-]. pose proof (uint_wrap 8 (Z.of_nat i)) as Hw. unfold uint in Hw. lia.
  - case_if; [|done]. by intros [= <-].
Qed.

(** Neither controller's change touches the lines themselves. *)
Definition same_lines (p p' : P.t) : Prop :=
  p'.(P.gsi_level) = p.(P.gsi_level) /\ p'.(P.gsi_restore_baseline) = p.(P.gsi_restore_baseline) /\
  p'.(P.gsi_assert_count) = p.(P.gsi_assert_count) /\ p'.(P.isa_irq_to_gsi) = p.(P.isa_irq_to_gsi) /\
  p'.(P.irq_line_generation) = p.(P.irq_line_generation).

#[export] Instance same_lines_preorder : PreOrder same_lines.
Proof.
  split; [by intros p|]. intros p1 p2 p3 (? & ? & ? & ? & ?) (? & ? & ? & ? & ?). split_and!; congruence.
Qed.

Lemma effect_same_lines p p' : ioapic_effect p p' -> same_lines p p'.
Proof. by intros (io & ls & -> & _). Qed.

Lemma drive_ok p gsi level :
  router_ok p -> 0 <= gsi ->
  exists p', P.drive_gsi_effective_level p gsi level = Some p' /\ router_ok p' /\ same_lines p p' /\
    p'.(P.mode) = p.(P.mode).
Proof.
  intros Hp Hg. unfold P.drive_gsi_effective_level. destruct p.(P.mode) eqn:Hm.
  - destruct (P.legacy_pic_irq_for_gsi p gsi) as [irq|] eqn:Hi; [|by exists p].
    apply legacy_irq_nonneg in Hi; [|done]. eexists. split; [done|]. split; [|done].
    destruct level; apply with_pic_ok, set_irq_valid; try done; apply Hp.
  - destruct (exec_ioapic_ok (SetIrqLevel (Z.to_nat gsi) level) p Hp) as (p' & Hx & Hp' & He).
    exists p'. split; [done|]. split; [done|]. split; [by apply effect_same_lines|].
    by destruct He as (io & ls & -> & _).
Qed.

(** The arithmetic of one reference count. *)
Definition count_step (asserted : bool) (c : Z) : Z :=
  if asserted then Z.min (c + 1) (2 ^ 32 - 1) else Z.max (c - 1) 0.

Lemma count_step_uint b c : uint 32 c -> uint 32 (count_step b c).
Proof. unfold uint, count_step. intros. destruct b; lia. Qed.

Definition bump (gsi : Z) (asserted : bool) (counts : list Z) : list Z :=
  alter (count_step asserted) (Z.to_nat gsi) counts.

Lemma alter_as_insert {A} (f : A -> A) i (l : list A) x : l !! i = Some x -> alter f i l = <[i := f x]> l.
Proof.
  revert i. induction l as [|y l IH]; intros [|i] Hi; simplify_eq/=; [done|].
  f_equal. by apply IH.
Qed.

Lemma alter_none {A} (f : A -> A) i (l : list A) : l !! i = None -> alter f i l = l.
Proof.
  revert i. induction l as [|y l IH]; intros [|i] Hi; simplify_eq/=; [done..|].
  f_equal. by apply IH.
Qed.

Lemma update_gsi_ok p gsi b :
  router_ok p -> 0 <= gsi ->
  exists p', P.update_gsi_assert_count p gsi b = Some p' /\ router_ok p' /\ p'.(P.mode) = p.(P.mode) /\
    p'.(P.gsi_assert_count) = bump gsi b p.(P.gsi_assert_count) /\
    p'.(P.gsi_restore_baseline) = p.(P.gsi_restore_baseline) /\
    p'.(P.isa_irq_to_gsi) = p.(P.isa_irq_to_gsi) /\ p'.(P.irq_line_generation) = p.(P.irq_line_generation).
Proof.
  intros Hp Hg. unfold P.update_gsi_assert_count, bump.
  destruct (p.(P.gsi_assert_count) !! Z.to_nat gsi) as [c|] eqn:Hc.
  2:{ exists p. split_and!; try done. by rewrite alter_none. }
  rewrite (alter_as_insert _ _ _ c Hc).
  pose proof (Forall_lookup_1 _ _ _ _ (ro_counts _ Hp) Hc) as Hu.
  destruct (negb b && (c =? 0)) eqn:Hz.
  { apply andb_true_iff in Hz as [->%negb_true_iff ->%Z.eqb_eq]. exists p. split_and!; try done.
    by rewrite list_insert_id. }
  assert ((if b then saturating_add 32 c 1 else c - 1) = count_step b c) as ->.
  { unfold count_step, uint in *. destruct b; [done|]. simpl in Hz. apply Z.eqb_neq in Hz. lia. }
  set (c' := count_step b c). set (counts := <[_ := c']> _).
  set (desired := default false _ || _).
  assert (router_ok (P.set_gsi_level_internal (P.with_gsi_assert_count counts p) gsi desired)) as Hp2.
  { apply with_lines_ok; [done|apply length_insert|apply Forall_insert; [apply Hp|by apply count_step_uint]|].
    unfold counts at 2. rewrite wired_insert, <- (ro_level _ Hp). done. }
  case_if.
  - exists (P.with_gsi_assert_count counts p). split; [done|].
    split; [|done].
    replace (P.with_gsi_assert_count counts p)
      with (P.set_gsi_level_internal (P.with_gsi_assert_count counts p) gsi desired); [done|].
    unfold P.set_gsi_level_internal. change (P.gsi_level (P.with_gsi_assert_count counts p)) with (P.gsi_level p).
    apply eqb_prop in Heqb0. rewrite list_insert_id; [by destruct p|].
    destruct (lookup_lt_is_Some_2 p.(P.gsi_level) (Z.to_nat gsi)) as [lv Hlv].
    { rewrite (ro_levels _ Hp), <- (ro_count _ Hp). by apply lookup_lt_Some in Hc. }
    rewrite Hlv, Heqb0. change (P.gsi_level (P.with_gsi_assert_count counts p)) with (P.gsi_level p). by rewrite Hlv.
  - destruct (drive_ok _ gsi desired Hp2 Hg) as (p' & Hd & Hp' & (_ & Hb & Hct & Hi & Hge) & Hmode).
    by exists p'.
Qed.

(** ** Local APICs behind the register window *)
Lemma svr_word l v :
  apic_ok l -> uint 32 v ->
  L.mmio_read l 0xF0 4 = (to_le_bytes 4 (LapicState.svr (L.state l)), L.poll l) /\
  L.mmio_write l 0xF0 (to_le_bytes 4 v) = ([], L.with_state (LapicState.with_svr v (L.state (L.poll l))) (L.poll l)).
Proof.
  intros Hl Hv. destruct (lapic_mmio_word l 0xF0 v Hl) as [-> ->]; try done.
  split; [|done]. do 2 f_equal. apply (lk_svr _ _ (poll_kept l)).
Qed.

Lemma with_svr_ok v l : uint 32 v -> apic_ok l -> apic_ok (L.with_state (LapicState.with_svr v (L.state l)) l).
Proof. intros Hv [[] Hn]. split; [by split|done]. Qed.

(** Everything but the spurious vector register. *)
Record lapic_same (l l' : L.t) : Prop := {
  ls_now : L.now l' = L.now l;
  ls_id : L.apic_id l' = L.apic_id l;
  ls_ldr : LapicState.ldr (L.state l') = LapicState.ldr (L.state l);
  ls_ok : apic_ok l';
  ls_enabled : L.enabled l' = true;
}.

Lemma bit8_set v : nz ((v ||| (1 <<< 8)) &&& (1 <<< 8)) = true.
Proof.
  change (1 <<< 8) with (2 ^ 8). rewrite nz_land_pow2 by lia. rewrite Z.lor_spec. apply orb_true_iff. right. done.
Qed.

Lemma enable_software_spec l : apic_ok l -> lapic_same l (P.enable_lapic_software l).
Proof.
  intros Hl. unfold P.enable_lapic_software.
  pose proof (lo_svr _ (proj1 Hl)) as Hsvr. destruct (poll_ok l Hl) as [Hpl _].
  assert (uint 32 (LapicState.svr (L.state l) ||| (1 <<< 8))) as Hu by (by apply uint_lor).
  destruct (svr_word l 0 Hl) as [-> _]; [done|]. rewrite from_to_le_bytes_id by done.
  destruct (svr_word (L.poll l) (LapicState.svr (L.state l) ||| (1 <<< 8)) Hpl Hu) as [_ ->]. simpl.
  assert (lapic_kept l (L.poll (L.poll l))) as Hk by (etrans; apply poll_kept).
  split; [apply Hk..| |apply bit8_set]. apply with_svr_ok; [done|]. by apply (lk_ok _ _ Hk).
Qed.

Lemma enabled_lapic_spec l :
  apic_ok l ->
  P.enabled_lapic l = L.with_state (LapicState.with_svr 0x1FF (L.state (L.poll l))) (L.poll l) /\
  lapic_same l (P.enabled_lapic l).
Proof.
  intros Hl. unfold P.enabled_lapic. destruct (svr_word l 0x1FF Hl) as [_ ->]; [done|]. split; [done|].
  pose proof (poll_kept l) as Hk. split; simpl; [apply Hk..| |done].
  apply with_svr_ok; [done|]. by apply (lk_ok _ _ Hk).
Qed.

Lemma reset_state_ok l i : apic_ok l -> apic_ok (L.reset_state l i).
Proof. apply lapic_step_ok, lstep_reset. Qed.

(** Each operation of the object leaves its clock alone. *)
Lemma mmio_write_now l off data : L.now (L.mmio_write l off data).2 = L.now l.
Proof. unfold L.mmio_write. destruct data; [done|]. by destruct (L.write_loop _ _ _ _ _ _) as [[? ?] ?]. Qed.
Lemma mmio_read_now l off n : L.now (L.mmio_read l off n).2 = L.now l.
Proof. by destruct n. Qed.
Lemma ack_now l v : L.now (L.ack l v).2 = L.now l.
Proof. unfold L.ack. by destruct (LapicState.ack _ _). Qed.
Lemma eoi_now l : L.now (L.eoi l).2 = L.now l.
Proof. unfold L.eoi. by destruct (LapicState.eoi _) as [[]]. Qed.
Lemma pending_now l : L.now (L.get_pending_vector l).2 = L.now l.
Proof. unfold L.get_pending_vector. by case_if. Qed.

Definition lapic_now_ok (now : Z) (l : L.t) : Prop := apic_ok l /\ L.now l = now.

Lemma alter_lapic_ok p i f :
  router_ok p -> (forall l, lapic_now_ok p.(P.lapic_clock) l -> lapic_now_ok p.(P.lapic_clock) (f l)) ->
  router_ok (P.with_lapics (alter f i p.(P.lapics)) p).
Proof.
  intros Hp Hf. apply with_lapics_ok; [done|apply length_alter|].
  apply Forall_alter; [apply Hp|]. intros l _ Hl. by apply Hf.
Qed.

Lemma insert_lapic_ok p i l :
  router_ok p -> lapic_now_ok p.(P.lapic_clock) l -> router_ok (P.with_lapics (<[i := l]> p.(P.lapics)) p).
Proof.
  intros Hp Hl. apply with_lapics_ok; [done|apply length_insert|]. by apply Forall_insert; [apply Hp|].
Qed.

Lemma map_lapics_ok p f :
  router_ok p -> (forall l, lapic_now_ok p.(P.lapic_clock) l -> lapic_now_ok p.(P.lapic_clock) (f l)) ->
  router_ok (P.with_lapics (map f p.(P.lapics)) p).
Proof.
  intros Hp Hf. apply with_lapics_ok; [done|apply length_map|].
  apply Forall_map. eapply Forall_impl; [apply (ro_lapics _ Hp)|]. intros l. apply Hf.
Qed.

Lemma lookup_lapic_ok p i l : router_ok p -> p.(P.lapics) !! i = Some l -> lapic_now_ok p.(P.lapic_clock) l.
Proof. intros Hp. apply (Forall_lookup_1 _ _ _ _ (ro_lapics _ Hp)). Qed.

Lemma step_lapic_ok now l l' : lapic_step l l' -> L.now l' = L.now l -> lapic_now_ok now l -> lapic_now_ok now l'.
Proof. intros Hs Hn [Hl Hc]. split; [by eapply lapic_step_ok|congruence]. Qed.

Lemma same_lapic_ok now l f : (apic_ok l -> lapic_same l (f l)) -> lapic_now_ok now l -> lapic_now_ok now (f l).
Proof. intros Hf [Hl Hc]. destruct (Hf Hl). split; [done|congruence]. Qed.

(** ** Operations that leave the lines alone *)
Definition keeps_lines (p p' : P.t) : Prop := router_ok p' /\ same_lines p p'.

Lemma keeps_trans p1 p2 p3 : keeps_lines p1 p2 -> keeps_lines p2 p3 -> keeps_lines p1 p3.
Proof. intros [_ H12] [Hok H23]. split; [done|by etrans]. Qed.

Lemma keeps_loop {A} (f : P.t -> A -> option P.t) l p :
  (forall p x, x ∈ l -> router_ok p -> exists p', f p x = Some p' /\ keeps_lines p p') ->
  router_ok p -> exists p', foldo f l p = Some p' /\ keeps_lines p p'.
Proof.
  intros Hf Hp. apply (foldo_inv (keeps_lines p)); [|by split].
  intros p1 x Hx Hk. destruct (Hf p1 x Hx (proj1 Hk)) as (p2 & ? & Hk2).
  exists p2. split; [done|]. by eapply keeps_trans.
Qed.

Lemma exec_ioapic_keeps o p :
  router_ok p -> exists p', P.use_ioapic (fun io => exec io o) p = Some p' /\ keeps_lines p p'.
Proof.
  intros Hp. destruct (exec_ioapic_ok o p Hp) as (p' & ? & ? & He). exists p'.
  split; [done|]. split; [done|by apply effect_same_lines].
Qed.

Lemma with_mode_ok p m : router_ok p -> router_ok (P.with_apic_enabled (bool_decide (m = Apic)) (P.with_mode m p)).
Proof. intros []. by split. Qed.

Lemma clear_remote_irr_moved n (io : IoApic.t RoutedLapicSink.t) :
  sized n io -> moved sink_kept n io (IoApic.clear_remote_irr io).
Proof. intros Hs. destruct (exec_sinks n io ClearRemoteIrr Hs) as (io' & [= <-] & Hm). done. Qed.

Lemma drive_all_moved n (io : IoApic.t RoutedLapicSink.t) lv :
  sized n io ->
  exists io', foldo (fun io '(gsi, level) => IoApic.set_irq_level io gsi level) lv io = Some io' /\
    moved sink_kept n io io'.
Proof.
  intros Hs. apply (loop_moved sink_kept); [|done]. intros io1 [g b] _ Hs1.
  apply (exec_sinks n io1 (SetIrqLevel g b) Hs1).
Qed.

Lemma set_mode_ok p m :
  router_ok p -> exists p', P.set_mode p m = Some p' /\ keeps_lines p p' /\ p'.(P.mode) = m.
Proof.
  intros Hp. unfold P.set_mode. pose proof (with_mode_ok p m Hp) as Hp1. case_if; [|by eexists].
  set (p1 := P.with_apic_enabled _ _) in *.
  assert (router_ok (P.with_lapics (map P.enable_lapic_software p1.(P.lapics)) p1)) as Hp2.
  { apply map_lapics_ok; [done|]. intros l. apply same_lapic_ok, enable_software_spec. }
  destruct (use_ioapic_ok (fun io => foldo (fun io '(gsi, level) => IoApic.set_irq_level io gsi level)
      (imap pair p1.(P.gsi_level)) (IoApic.clear_remote_irr io))
      (P.with_lapics (map P.enable_lapic_software p1.(P.lapics)) p1)) as (p' & Hx & Hp' & He); [|done|].
  { intros io Hs. pose proof (clear_remote_irr_moved _ _ Hs) as Hc.
    destruct (drive_all_moved _ (IoApic.clear_remote_irr io) (imap pair p1.(P.gsi_level)) (proj1 Hc))
      as (io' & ? & Hm). exists io'. split; [done|]. exact (moved_trans sink_kept _ _ _ _ Hc Hm). }
  exists p'. split; [done|]. split; [split; [done|]|].
  - etrans; [|by apply effect_same_lines]. done.
  - by destruct He as (io & ls & -> & _).
Qed.

Lemma with_imcr_ok p v : router_ok p -> router_ok (P.with_imcr (v &&& 1) p).
Proof.
  intros Hp. pose proof (proj1 (ro_imcr _ Hp)). destruct Hp. split; simpl; try done. split; [done|].
  change (v &&& 1) with (v &&& Z.ones 1). rewrite land_ones_mod by lia. change (2 ^ 1) with 2.
  pose proof (Z.mod_pos_bound v 2). lia.
Qed.

Lemma imcr_port_write_ok p port v :
  router_ok p -> uint 8 v -> exists p', P.imcr_port_write p port v = Some p' /\ keeps_lines p p'.
Proof.
  intros Hp Hv. unfold P.imcr_port_write. case_if.
  { eexists. split; [done|]. split; [|done]. destruct Hp. split; simpl; try done. by destruct ro_imcr0. }
  case_if; [|by exists p]. case_if; [|by exists p].
  pose proof (with_imcr_ok p v Hp) as Hp1.
  destruct (set_mode_ok _ (if nz (P.imcr (P.with_imcr (v &&& 1) p)) then Apic else LegacyPic) Hp1)
    as (p' & ? & Hk & _). by exists p'.
Qed.

Lemma imcr_write_ok p port size v :
  router_ok p -> exists p', P.imcr_write p port size v = Some p' /\ keeps_lines p p'.
Proof.
  intros Hp. unfold P.imcr_write. case_if; [by exists p|]. case_if.
  - apply keeps_loop; [|done]. intros p1 i _ Hp1. apply imcr_port_write_ok; [done|]. apply uint_wrap. lia.
  - apply imcr_port_write_ok; [done|]. apply uint_wrap. lia.
Qed.

(** ** Inter-processor interrupts *)
Lemma fixed_targets_ok p v ts :
  router_ok p -> vector_ok v ->
  router_ok (P.with_lapics (foldl (fun ls i => alter (fun l => L.inject_fixed_interrupt l v) i ls) p.(P.lapics) ts) p).
Proof.
  intros Hp Hv. revert p Hp. induction ts as [|i ts IH]; intros p Hp; simpl; [by destruct p|].
  set (p1 := P.with_lapics (alter (fun l => L.inject_fixed_interrupt l v) i p.(P.lapics)) p).
  apply (IH p1). apply alter_lapic_ok; [done|].
  intros l. by apply step_lapic_ok; [apply lstep_env, env_inject|].
Qed.

Lemma init_target_ok p i : router_ok p -> keeps_lines p (P.init_target p i).
Proof.
  intros Hp. unfold P.init_target. destruct (p.(P.lapics) !! i) as [l|] eqn:Hi; [|done].
  split; [|done]. apply (lookup_lapic_ok _ _ _ Hp) in Hi as Hl.
  apply (insert_lapic_ok (P.with_pending_init (<[Z.to_nat (L.apic_id l) := true]> p.(P.pending_init)) p)).
  - destruct Hp. split; simpl; try done. by rewrite length_insert.
  - simpl. destruct Hl as [Hl Hn]. pose proof (reset_state_ok l (L.apic_id l) Hl).
    case_if; [|done]. by apply same_lapic_ok; [apply enable_software_spec|].
Qed.

Lemma sipi_ok p s :
  router_ok p -> length s = length p.(P.pending_sipi) ->
  Forall (fun o => match o with Some v => uint 8 v | None => True end) s -> router_ok (P.with_pending_sipi s p).
Proof. intros [] Hl Hs. split; simpl; try done. congruence. Qed.

Lemma handle_icr_ok src icr p :
  router_ok p -> uint 8 icr.(Icr.vector) -> keeps_lines p (P.handle_icr_ipi src icr p).
Proof.
  intros Hp Hv. unfold P.handle_icr_ipi. generalize (P.icr_targets src icr (P.lapics p)). intros ts.
  destruct icr.(Icr.delivery_mode); try done.
  - split; [|done]. by apply fixed_targets_ok.
  - destruct icr.(Icr.level); [|done].
    cut (forall q, keeps_lines p q -> keeps_lines p (foldl P.init_target q ts)); [intros Hc; by apply Hc|].
    induction ts as [|i ts IH]; intros q Hq; simpl; [done|]. apply IH. eapply keeps_trans; [exact Hq|].
    by apply init_target_ok, Hq.
  - split; [|done].
    cut (forall s, length s = length p.(P.pending_sipi) ->
           Forall (fun o => match o with Some v => uint 8 v | None => True end) s ->
           router_ok (P.with_pending_sipi (foldl (fun sipi i =>
             match p.(P.lapics) !! i with
             | Some l => <[Z.to_nat (L.apic_id l) := Some icr.(Icr.vector)]> sipi
             | None => sipi
             end) s ts) p)); [intros Hc; apply Hc; [done|apply Hp]|].
    induction ts as [|i ts IH]; intros s Hl Hs; simpl; [by apply sipi_ok|].
    destruct (p.(P.lapics) !! i); apply IH; try done; [by rewrite length_insert|by apply Forall_insert].
Qed.

Lemma decode_vector lo hi : uint 8 (Icr.decode lo hi).(Icr.vector).
Proof. simpl. change 255 with (Z.ones 8). rewrite land_ones_mod by lia. by apply Z.mod_pos_bound. Qed.

Lemma write_loop_icrs fuel offset data now idx s :
  Forall (fun icr => uint 8 icr.(Icr.vector)) (L.write_loop fuel offset data now idx s).1.2.
Proof.
  revert idx s. induction fuel as [|fuel IH]; intros idx s; [done|]. cbn [L.write_loop].
  case_if; [done|]. case_if; [apply IH|]. destruct (L.merge_bytes _ _ _ _ _ _ _) as [j w].
  destruct (LapicState.write_u32 _ _ _ _) as [ev s1]. specialize (IH j s1).
  destruct (L.write_loop fuel offset data now j s1) as [[eois icrs] s2]. simpl in *.
  case_if; [|done]. constructor; [apply decode_vector|done].
Qed.

Definition notification_ok (n : L.notification) : Prop :=
  match n with L.NotifyIcr icr => uint 8 icr.(Icr.vector) | L.NotifyEoi _ => True end.

Lemma notifications_ok l off data : Forall notification_ok (L.mmio_write l off data).1.
Proof.
  unfold L.mmio_write. destruct data as [|b data]; [done|].
  pose proof (write_loop_icrs (length (b :: data)) off (b :: data) (L.now (L.poll l)) 0 (L.state (L.poll l))) as Hi.
  destruct (L.write_loop _ _ _ _ _ _) as [[eois icrs] s]. simpl in *.
  apply Forall_app. split; apply Forall_map; [by apply Forall_true|done].
Qed.

Lemma notify_ok src p n :
  router_ok p -> notification_ok n -> exists p', P.notify src p n = Some p' /\ keeps_lines p p'.
Proof.
  intros Hp Hn. destruct n as [v|icr]; simpl.
  - apply (exec_ioapic_keeps (NotifyEoi v) p Hp).
  - eexists. split; [done|]. by apply handle_icr_ok.
Qed.

Lemma lapic_write_ok p cpu off data :
  router_ok p -> Forall byte_ok data ->
  exists p', P.lapic_mmio_write_for_cpu p cpu off data = Some p' /\ keeps_lines p p'.
Proof.
  intros Hp Hd. unfold P.lapic_mmio_write_for_cpu. destruct (p.(P.lapics) !! cpu) as [l|] eqn:Hl; [|by exists p].
  apply (lookup_lapic_ok _ _ _ Hp) in Hl as Hok. pose proof (notifications_ok l off data) as Hns.
  pose proof (step_lapic_ok _ _ _ (lstep_write l off data Hd) (mmio_write_now l off data) Hok) as Hok'.
  destruct (L.mmio_write l off data) as [ns l']. simpl in *.
  apply (keeps_loop (P.notify cpu)) with (p := P.with_lapics (<[cpu := l']> p.(P.lapics)) p);
    [|by apply insert_lapic_ok].
  intros p1 n Hin Hp1. apply notify_ok; [done|]. by apply (proj1 (Forall_forall _ _) Hns).
Qed.

Lemma lapic_eoi_ok p cpu : router_ok p -> exists p', P.lapic_eoi p cpu = Some p' /\ keeps_lines p p'.
Proof.
  intros Hp. unfold P.lapic_eoi. destruct (p.(P.lapics) !! cpu) as [l|] eqn:Hl; [|by exists p].
  apply (lookup_lapic_ok _ _ _ Hp) in Hl as Hok.
  pose proof (step_lapic_ok _ _ _ (lstep_eoi l) (eoi_now l) Hok) as Hok'.
  destruct (L.eoi l) as [eois l']. simpl in *.
  apply (keeps_loop P.eoi_notifier) with (p := P.with_lapics (<[cpu := l']> p.(P.lapics)) p);
    [|by apply insert_lapic_ok].
  intros p1 v _ Hp1. apply (exec_ioapic_keeps (NotifyEoi v) p1 Hp1).
Qed.

Lemma ioapic_write_ok p off v : router_ok p -> exists p', P.ioapic_mmio_write p off v = Some p' /\ keeps_lines p p'.
Proof.
  intros Hp. unfold P.ioapic_mmio_write. set (legacy := negb _).
  destruct (use_ioapic_ok (fun io => match IoApic.mmio_write io off 4 v with
      | Some io => Some (if legacy then IoApic.clear_remote_irr io else io) | None => None end) p)
    as (p1 & -> & Hp1 & He1); [|done|].
  { intros io Hs. destruct (exec_sinks _ io (MmioWrite off 4 v) Hs) as (io1 & Hx & Hm). simpl in Hx. rewrite Hx.
    eexists. split; [done|]. destruct legacy; [|done].
    exact (moved_trans sink_kept _ _ _ _ Hm (clear_remote_irr_moved _ _ (proj1 Hm))). }
  pose proof (effect_same_lines _ _ He1) as Hl. case_if; [|by exists p1].
  destruct (set_mode_ok p1 Apic Hp1) as (p2 & ? & Hk & _). exists p2. split; [done|].
  eapply keeps_trans; [|exact Hk]. done.
Qed.

(** ** Restore, time, reset *)
Lemma finalize_gsi_ok p gsi :
  router_ok p -> Forall (fun b => b = false) p.(P.gsi_restore_baseline) ->
  (gsi < length p.(P.gsi_level))%nat -> P.finalize_gsi p gsi = Some p.
Proof.
  intros Hp Hb Hlt. unfold P.finalize_gsi.
  destruct (lookup_lt_is_Some_2 p.(P.gsi_assert_count) gsi) as [c Hc].
  { by rewrite (ro_count _ Hp), <- (ro_levels _ Hp). }
  destruct (lookup_lt_is_Some_2 p.(P.gsi_restore_baseline) gsi) as [b Hbg].
  { by rewrite (ro_baseline _ Hp), <- (ro_levels _ Hp). }
  apply (Forall_lookup_1 _ _ _ _ Hb) in Hbg as Hf. subst b.
  assert (p.(P.gsi_level) !! gsi = Some (0 <? c)) as Hl.
  { rewrite (ro_level _ Hp). unfold wired. rewrite lookup_zip_with, Hbg, Hc. done. }
  by rewrite Hc, Hl, eqb_reflx.
Qed.

(** The counts [finalize_restore] leaves: a baseline that no device claimed
    becomes one anonymous assertion. *)
Definition adopted (baseline : list bool) (counts : list Z) : list Z :=
  zip_with (fun (b : bool) c => if b && (c =? 0) then 1 else c) baseline counts.

Lemma adopted_wired b c :
  length b = length c -> Forall (uint 32) c -> wired (map (fun _ => false) b) (adopted b c) = wired b c.
Proof.
  unfold wired, adopted. revert c. induction b as [|x b IH]; intros [|y c] Hl Hc; simplify_eq/=; [done..|].
  apply Forall_cons in Hc as [Hy Hc]. rewrite IH by done. f_equal. unfold uint in Hy.
  destruct x; simpl; [|done]. destruct (Z.eqb_spec y 0); [by subst|]. apply Z.ltb_lt. lia.
Qed.

Lemma adopted_uint b c : Forall (uint 32) c -> Forall (uint 32) (adopted b c).
Proof.
  unfold adopted. revert b. induction c as [|y c IH]; intros [|x b] Hc; simpl; try by constructor.
  apply Forall_cons in Hc as [Hy Hc]. constructor; [|by apply IH]. by case_if.
Qed.

Lemma imap_adopted (n : nat) b c :
  length b = length c -> (length c <= n)%nat ->
  imap (fun idx count => if (idx <? n)%nat && default false (b !! idx) && (count =? 0) then 1 else count) c
  = adopted b c.
Proof.
  intros Hl Hn. apply list_eq. intros i. rewrite list_lookup_imap. unfold adopted. rewrite lookup_zip_with.
  destruct (c !! i) as [y|] eqn:Hy.
  - apply lookup_lt_Some in Hy as Hi. destruct (lookup_lt_is_Some_2 b i) as [x Hx]; [lia|].
    rewrite Hx. cbn [fmap option_fmap option_map]. by rewrite (proj2 (Nat.ltb_lt i n)) by lia.
  - by destruct (b !! i).
Qed.

(** Finalising a restore changes no line, so it drives no controller. *)
Lemma finalize_restore_ok p :
  router_ok p ->
  exists p', P.finalize_restore p = Some p' /\ router_ok p' /\
    p' = P.with_gsi_restore_baseline (map (fun _ => false) p.(P.gsi_restore_baseline))
           (P.with_gsi_assert_count (adopted p.(P.gsi_restore_baseline) p.(P.gsi_assert_count)) p).
Proof.
  intros Hp. unfold P.finalize_restore. rewrite imap_adopted.
  2:{ by rewrite (ro_baseline _ Hp), (ro_count _ Hp). }
  2:{ by rewrite (ro_levels _ Hp), (ro_count _ Hp). }
  set (p' := P.with_gsi_restore_baseline _ _).
  assert (length p.(P.gsi_restore_baseline) = length p.(P.gsi_assert_count)) as Hbc
    by (by rewrite (ro_baseline _ Hp), (ro_count _ Hp)).
  assert (router_ok p') as Hp'.
  { pose proof Hp as []. split; simpl; try done.
    - by rewrite length_map.
    - unfold adopted. rewrite length_zip_with. lia.
    - by apply adopted_uint.
    - rewrite adopted_wired by done. done. }
  exists p'. split; [|done].
  cut (forall l, (forall g, g ∈ l -> (g < length p'.(P.gsi_level))%nat) -> foldo P.finalize_gsi l p' = Some p').
  { intros Hc. apply Hc. intros g Hg%elem_of_seq. lia. }
  induction l as [|g l IH]; intros Hl; [done|]. unfold foldo in *. simpl.
  rewrite finalize_gsi_ok; [apply IH; set_solver|done| |apply Hl; set_solver].
  simpl. apply Forall_map. by apply Forall_true.
Qed.

Lemma set_now_ok p now : router_ok p -> uint 64 now -> router_ok (P.set_now_ns now p).
Proof.
  intros [] Hn. split; simpl; rewrite ?length_map; try done.
  apply Forall_map. eapply Forall_impl; [exact ro_lapics0|]. intros l [[Hl _] _]. done.
Qed.

Lemma tick_ok p d : router_ok p -> router_ok (P.tick p d).
Proof.
  intros Hp. unfold P.tick. apply map_lapics_ok; [apply set_now_ok; [done|apply uint_wrap; lia]|].
  intros l. by apply step_lapic_ok; [apply lstep_env, env_poll|].
Qed.

Lemma default_pic_valid : dual_valid P.default_pic.(PlatformPic.inner).
Proof.
  unfold P.default_pic, PlatformPic.new, PlatformPic.set_offsets, PlatformPic.port_write_u8. simpl.
  repeat (apply port_write_valid; [done|]). split; apply power_on_valid.
Qed.

Lemma init_lapic_ok i : (i <= 255)%nat -> lapic_now_ok 0 (P.enabled_lapic (L.with_clock 0 (Z.of_nat i))).
Proof.
  intros Hi. apply same_lapic_ok; [intros; by apply enabled_lapic_spec|]. split; [|done].
  split; [|done]. apply new_lapic_ok. unfold uint. lia.
Qed.

Lemma new_router_ok n : (n <= 255)%nat -> router_ok (P.new_with_cpu_count n).
Proof.
  intros Hn. unfold P.new_with_cpu_count. set (m := Nat.max n 1).
  split; cbn [P.ioapic P.gsi_level P.gsi_restore_baseline P.gsi_assert_count P.lapics P.pending_init
    P.pending_sipi P.pic P.isa_irq_to_gsi P.imcr P.imcr_select P.irq_line_generation P.lapic_clock
    P.apic_enabled P.mode]; rewrite ?length_map, ?length_replicate, ?length_seq; try done.
  - apply ioapic_new_ok; [lia|]. lia.
  - by apply Forall_replicate.
  - apply Forall_map, Forall_forall. intros i [_ Hi]%elem_of_seq. apply init_lapic_ok. lia.
  - lia.
  - by apply Forall_replicate.
  - split; [done|]. by apply (bool_decide_unpack _).
Qed.

Lemma map_const_replicate {A B} (x : B) (l : list A) : map (fun _ => x) l = replicate (length l) x.
Proof. induction l as [|a l IH]; simpl; by rewrite ?IH. Qed.

Lemma imap_const {A B} (f : A -> B) (l : list A) : imap (fun _ => f) l = map f l.
Proof. induction l as [|a l IH]; simpl; [done|]. f_equal. exact IH. Qed.

Lemma router_ext p p' :
  p.(P.mode) = p'.(P.mode) -> p.(P.isa_irq_to_gsi) = p'.(P.isa_irq_to_gsi) ->
  p.(P.gsi_level) = p'.(P.gsi_level) -> p.(P.gsi_restore_baseline) = p'.(P.gsi_restore_baseline) ->
  p.(P.gsi_assert_count) = p'.(P.gsi_assert_count) ->
  p.(P.irq_line_generation) = p'.(P.irq_line_generation) -> p.(P.pic) = p'.(P.pic) ->
  p.(P.ioapic) = p'.(P.ioapic) -> p.(P.lapics) = p'.(P.lapics) -> p.(P.lapic_clock) = p'.(P.lapic_clock) ->
  p.(P.apic_enabled) = p'.(P.apic_enabled) -> p.(P.pending_init) = p'.(P.pending_init) ->
  p.(P.pending_sipi) = p'.(P.pending_sipi) -> p.(P.imcr_select) = p'.(P.imcr_select) ->
  p.(P.imcr) = p'.(P.imcr) -> p = p'.
Proof. destruct p, p'; simpl; intros; by subst. Qed.

(** Resetting puts every part but the identifiers of the local APICs and the
    generation of the line handles into its initial state. *)
Lemma reset_eq p :
  router_ok p ->
  P.reset p =
    P.with_irq_line_generation (wrapping_add 64 p.(P.irq_line_generation) 1)
      (P.with_lapics (map (fun l => P.enabled_lapic (L.with_clock 0 (L.apic_id l))) p.(P.lapics))
         (P.new_with_cpu_count (length p.(P.lapics)))).
Proof.
  intros Hp. pose proof (ro_cpus _ Hp) as Hn. apply router_ext.
  1-8, 10-11, 14-15: reflexivity.
  - change (P.lapics (P.reset p)) with (imap (fun idx l => P.enabled_lapic (L.reset_state l (Z.min (Z.of_nat idx) 255)))
      ((fun l => L.mk 0 (L.state l)) <$> p.(P.lapics))).
    rewrite imap_fmap. exact (imap_const (fun l => P.enabled_lapic (L.with_clock 0 (L.apic_id l))) p.(P.lapics)).
  - change (map (fun _ => false) p.(P.pending_init) = replicate (Nat.max (length p.(P.lapics)) 1) false).
    rewrite Nat.max_l, <- (ro_init _ Hp) by lia. apply map_const_replicate.
  - change (map (fun _ => None) p.(P.pending_sipi) = replicate (Nat.max (length p.(P.lapics)) 1) (@None Z)).
    rewrite Nat.max_l, <- (ro_sipi _ Hp) by lia. apply map_const_replicate.
Qed.

Lemma reset_ok p : router_ok p -> router_ok (P.reset p).
Proof.
  intros Hp. rewrite reset_eq by done. pose proof (ro_cpus _ Hp) as Hn.
  assert (router_ok (P.with_lapics (map (fun l => P.enabled_lapic (L.with_clock 0 (L.apic_id l))) p.(P.lapics))
            (P.new_with_cpu_count (length p.(P.lapics))))) as Hok.
  { apply with_lapics_ok; [apply new_router_ok; lia| |].
    - simpl. rewrite !length_map, length_seq. lia.
    - apply Forall_map. eapply Forall_impl; [apply (ro_lapics _ Hp)|]. intros l [Hl _].
      apply same_lapic_ok; [intros; by apply enabled_lapic_spec|]. split; [|done]. split; [|done].
      apply new_lapic_ok, (proj1 Hl). }
  destruct Hok. split; simpl in *; try done. apply uint_wrap. lia.
Qed.

(** ** The identifiers of the local APICs

    Only a write to the ID register changes one. *)

(** The write [data] at [offset] reaches a byte of the ID register. *)
Definition touches_id (offset : Z) (data : list Z) : bool :=
  existsb (fun i => wrapping_add 64 offset (Z.of_nat i) &&& unot 64 3 =? REG_ID) (seq 0 (length data)).

(** *** One local APIC *)
Lemma inject_inner_id s v : LapicState.id (LapicState.inject_fixed_interrupt_inner s v) = LapicState.id s.
Proof. unfold LapicState.inject_fixed_interrupt_inner. by case_if. Qed.

Lemma poll_id l : L.apic_id (L.poll l) = L.apic_id l.
Proof. apply poll_kept. Qed.

Lemma inject_id l v : L.apic_id (L.inject_fixed_interrupt l v) = L.apic_id l.
Proof. unfold L.inject_fixed_interrupt. transitivity (L.apic_id (L.poll l)); [apply inject_inner_id|apply poll_id]. Qed.

Lemma pending_id l : L.apic_id (L.get_pending_vector l).2 = L.apic_id l.
Proof. unfold L.get_pending_vector. case_if; apply poll_id. Qed.

Lemma ack_id l v : L.apic_id (L.ack l v).2 = L.apic_id l.
Proof. rewrite <- (poll_id l). unfold L.ack, LapicState.ack. by repeat case_if. Qed.

Lemma eoi_id l : L.apic_id (L.eoi l).2 = L.apic_id l.
Proof. rewrite <- (poll_id l). unfold L.eoi, LapicState.eoi.
  by destruct (bitmap_highest_set_bit _). Qed.

Lemma read_id l off n : L.apic_id (L.mmio_read l off n).2 = L.apic_id l.
Proof. destruct n; [done|apply poll_id]. Qed.

Lemma poll_timer_id s now : LapicState.id (LapicState.poll_timer s now) = LapicState.id s.
Proof. apply (poll_id (L.mk now s)). Qed.

Lemma write_u32_id s now off v : off <> REG_ID -> LapicState.id (LapicState.write_u32 s now off v).2 = LapicState.id s.
Proof.
  intros Hne. apply Z.eqb_neq in Hne.
  unfold LapicState.write_u32, LapicState.eoi, LapicState.write_divide_config, LapicState.write_initial_count.
  rewrite Hne. repeat case_if; try done; try apply (poll_timer_id s now).
  by destruct (bitmap_highest_set_bit _).
Qed.

Lemma write_loop_id fuel offset data now idx s :
  touches_id offset data = false ->
  LapicState.id (L.write_loop fuel offset data now idx s).2 = LapicState.id s.
Proof.
  intros Ht. revert idx s. induction fuel as [|fuel IH]; intros idx s; [done|]. cbn [L.write_loop].
  destruct (Nat.leb_spec (length data) idx) as [|Hlt]; [done|]. case_if; [apply IH|].
  destruct (L.merge_bytes _ _ _ _ _ _ _) as [j w].
  pose proof (write_u32_id s now (wrapping_add 64 offset (Z.of_nat idx) &&& unot 64 3) w) as Hw.
  destruct (LapicState.write_u32 _ _ _ _) as [ev s1]. specialize (IH j s1).
  destruct (L.write_loop fuel offset data now j s1) as [[eois icrs] s2]. simpl in *. rewrite IH. apply Hw.
  intros He. enough (touches_id offset data = true) by congruence. apply existsb_exists.
  exists idx. split; [apply in_seq; lia|]. by apply Z.eqb_eq.
Qed.

Lemma write_id l off data : touches_id off data = false -> L.apic_id (L.mmio_write l off data).2 = L.apic_id l.
Proof.
  intros Ht. rewrite <- (poll_id l). unfold L.mmio_write. destruct data as [|x data]; [by rewrite poll_id|].
  pose proof (write_loop_id (length (x :: data)) off (x :: data) (L.now (L.poll l)) 0 (L.state (L.poll l)) Ht) as Hw.
  by destruct (L.write_loop _ _ _ _ _ _) as [[eois icrs] s].
Qed.

Lemma svr_untouched v : touches_id 0xF0 (to_le_bytes 4 v) = false.
Proof. done. Qed.

Lemma enable_software_id l : L.apic_id (P.enable_lapic_software l) = L.apic_id l.
Proof.
  unfold P.enable_lapic_software. pose proof (read_id l 0xF0 4) as Hr. destruct (L.mmio_read l 0xF0 4) as [buf l1].
  rewrite write_id by apply svr_untouched. exact Hr.
Qed.

Lemma enabled_lapic_id l : L.apic_id (P.enabled_lapic l) = L.apic_id l.
Proof. apply write_id, svr_untouched. Qed.

(** *** The router *)
Definition ids (p : P.t) : list Z := map L.apic_id p.(P.lapics).

Lemma map_ids f ls : (forall l, L.apic_id (f l) = L.apic_id l) -> map L.apic_id (map f ls) = map L.apic_id ls.
Proof. intros Hf. rewrite map_map. by apply map_ext. Qed.

Lemma insert_ids i l l' ls :
  ls !! i = Some l -> L.apic_id l' = L.apic_id l -> map L.apic_id (<[i := l']> ls) = map L.apic_id ls.
Proof.
  intros Hl Hid. change (L.apic_id <$> <[i := l']> ls = L.apic_id <$> ls). rewrite list_fmap_insert, Hid.
  apply list_insert_id. by rewrite list_lookup_fmap, Hl.
Qed.

Lemma alter_ids f i ls : (forall l, L.apic_id (f l) = L.apic_id l) -> map L.apic_id (alter f i ls) = map L.apic_id ls.
Proof.
  intros Hf. destruct (ls !! i) as [l|] eqn:Hl; [|by rewrite alter_none].
  rewrite (alter_as_insert f i ls l Hl). by apply (insert_ids i l).
Qed.

Lemma effect_ids p p' : ioapic_effect p p' -> ids p' = ids p.
Proof.
  intros (io & ls & -> & Hk & _). unfold ids. simpl. induction Hk as [|l l' ls0 ls' Hl _ IH]; [done|].
  simpl. rewrite IH. by rewrite (lk_id _ _ Hl).
Qed.

Lemma use_ioapic_ids f p p' n :
  sized n (P.lock_ioapic p) ->
  (forall io, sized n io -> exists io', f io = Some io' /\ moved sink_kept n io io') ->
  P.use_ioapic f p = Some p' -> ids p' = ids p.
Proof.
  intros Hs Hf. unfold P.use_ioapic. destruct (Hf _ Hs) as (io & -> & _ & Hm). intros [= <-].
  unfold ids. simpl in *. rewrite map_map. revert Hm. generalize (IoApic.lapics io).
  induction (P.lapics p) as [|l ls IH]; intros ss Hm; inversion Hm as [|? s ? ss' [Hk _] Hm']; subst; [done|].
  simpl. rewrite (IH ss' Hm'). by rewrite (lk_id _ _ Hk).
Qed.

Lemma exec_ioapic_ids o p p' n :
  sized n (P.lock_ioapic p) -> P.use_ioapic (fun io => exec io o) p = Some p' -> ids p' = ids p.
Proof. intros Hs. apply (use_ioapic_ids _ _ _ n); [done|]. intros io. apply exec_sinks. Qed.

(** Loops: each step keeps the invariant and the identifiers. *)
Lemma loop_ids {A} (f : P.t -> A -> option P.t) l p p' :
  (forall p x, x ∈ l -> router_ok p -> exists p', f p x = Some p' /\ keeps_lines p p') ->
  (forall p x p', router_ok p -> f p x = Some p' -> ids p' = ids p) ->
  router_ok p -> foldo f l p = Some p' -> ids p' = ids p.
Proof.
  intros Hok Hid Hp Hf.
  destruct (foldo_inv (fun q => router_ok q /\ ids q = ids p) f l p) as (q & Hq & _ & Hi); [|by split|congruence].
  intros q x Hx [Hq Hi]. destruct (Hok q x Hx Hq) as (q' & Hs & Hq' & _).
  exists q'. split; [done|]. split; [done|]. rewrite <- Hi. by apply (Hid q x).
Qed.

Lemma drive_ids p gsi level n p' : sized n (P.lock_ioapic p) -> P.drive_gsi_effective_level p gsi level = Some p' -> ids p' = ids p.
Proof.
  intros Hs. unfold P.drive_gsi_effective_level. destruct p.(P.mode).
  - case_match; by intros [= <-].
  - apply (exec_ioapic_ids (SetIrqLevel (Z.to_nat gsi) level) p p' n Hs).
Qed.

Lemma set_mode_ids p m p' : router_ok p -> P.set_mode p m = Some p' -> ids p' = ids p.
Proof.
  intros Hp. unfold P.set_mode. pose proof (with_mode_ok p m Hp) as Hp1. case_if; [|by intros [= <-]].
  set (p1 := P.with_apic_enabled _ _) in *. set (p2 := P.with_lapics _ p1).
  assert (router_ok p2) as Hp2.
  { apply map_lapics_ok; [done|]. intros l. apply same_lapic_ok, enable_software_spec. }
  intros Hu. transitivity (ids p2); [|apply map_ids, enable_software_id].
  refine (use_ioapic_ids _ p2 p' _ (lock_sized _ Hp2) _ Hu). intros io Hs. pose proof (clear_remote_irr_moved _ _ Hs) as Hc.
  destruct (drive_all_moved _ (IoApic.clear_remote_irr io) (imap pair p1.(P.gsi_level)) (proj1 Hc)) as (io' & ? & Hm).
  exists io'. split; [done|]. exact (moved_trans sink_kept _ _ _ _ Hc Hm).
Qed.

Lemma imcr_port_write_ids p port v p' : router_ok p -> uint 8 v -> P.imcr_port_write p port v = Some p' -> ids p' = ids p.
Proof.
  intros Hp Hv. unfold P.imcr_port_write. case_if; [by intros [= <-]|]. case_if; [|by intros [= <-]].
  case_if; [|by intros [= <-]]. intros Hs.
  apply (set_mode_ids (P.with_imcr (v &&& 1) p) _ _) in Hs; [done|by apply with_imcr_ok].
Qed.

Lemma imcr_write_ids p port size v p' : router_ok p -> P.imcr_write p port size v = Some p' -> ids p' = ids p.
Proof.
  intros Hp. assert (forall x, uint 8 (wrap 8 x)) as Hu by (intros x; apply uint_wrap; lia).
  unfold P.imcr_write. case_if; [by intros [= <-]|]. case_if; [|by apply imcr_port_write_ids].
  apply loop_ids; [| |done].
  - intros q i _ Hq. by apply imcr_port_write_ok.
  - intros q i q' Hq. by apply imcr_port_write_ids.
Qed.

Lemma handle_icr_ids src icr p : ids (P.handle_icr_ipi src icr p) = ids p.
Proof.
  unfold P.handle_icr_ipi. generalize (P.icr_targets src icr (P.lapics p)). intros ts.
  destruct icr.(Icr.delivery_mode); try done.
  - unfold ids. simpl. generalize (P.lapics p) as ls. induction ts as [|i ts IH]; intros ls; [done|]. simpl.
    rewrite IH. apply alter_ids. intros l. apply inject_id.
  - destruct icr.(Icr.level); [|done]. revert p. induction ts as [|i ts IH]; intros p; [done|]. simpl.
    rewrite IH. unfold P.init_target. destruct (p.(P.lapics) !! i) as [l|] eqn:Hl; [|done].
    apply (insert_ids i l); [done|]. case_if; [|done]. by rewrite enable_software_id.
Qed.

Lemma notify_ids src p n p' : router_ok p -> P.notify src p n = Some p' -> ids p' = ids p.
Proof.
  intros Hp. destruct n as [v|icr]; simpl; [apply (exec_ioapic_ids (NotifyEoi v) p p' _ (lock_sized _ Hp))|].
  intros [= <-]. apply handle_icr_ids.
Qed.

Lemma lapic_write_ids p cpu off data p' :
  router_ok p -> Forall byte_ok data -> touches_id off data = false ->
  P.lapic_mmio_write_for_cpu p cpu off data = Some p' -> ids p' = ids p.
Proof.
  intros Hp Hd Ht. unfold P.lapic_mmio_write_for_cpu.
  destruct (p.(P.lapics) !! cpu) as [l|] eqn:Hl; [|by intros [= <-]].
  apply (lookup_lapic_ok _ _ _ Hp) in Hl as Hok. pose proof (notifications_ok l off data) as Hns.
  pose proof (step_lapic_ok _ _ _ (lstep_write l off data Hd) (mmio_write_now l off data) Hok) as Hok'.
  pose proof (write_id l off data Ht) as Hid. destruct (L.mmio_write l off data) as [ns l']. simpl in *.
  intros Hf. transitivity (ids (P.with_lapics (<[cpu := l']> p.(P.lapics)) p)); [|by apply (insert_ids cpu l)].
  refine (loop_ids (P.notify cpu) ns _ p' _ _ _ Hf); [| |by apply insert_lapic_ok].
  - intros q n Hin Hq. apply notify_ok; [done|]. by apply (proj1 (Forall_forall _ _) Hns).
  - intros q n q' Hq. by apply notify_ids.
Qed.

Lemma lapic_eoi_ids p cpu p' : router_ok p -> P.lapic_eoi p cpu = Some p' -> ids p' = ids p.
Proof.
  intros Hp. unfold P.lapic_eoi. destruct (p.(P.lapics) !! cpu) as [l|] eqn:Hl; [|by intros [= <-]].
  apply (lookup_lapic_ok _ _ _ Hp) in Hl as Hok. pose proof (eoi_id l) as Hid.
  pose proof (step_lapic_ok _ _ _ (lstep_eoi l) (eoi_now l) Hok) as Hok'.
  destruct (L.eoi l) as [eois l']. simpl in *. intros Hf.
  transitivity (ids (P.with_lapics (<[cpu := l']> p.(P.lapics)) p)); [|by apply (insert_ids cpu l)].
  refine (loop_ids P.eoi_notifier eois _ p' _ _ _ Hf); [| |by apply insert_lapic_ok].
  - intros q v _ Hq. apply (exec_ioapic_keeps (NotifyEoi v) q Hq).
  - intros q v q' Hq. apply (exec_ioapic_ids (NotifyEoi v) q q' _ (lock_sized _ Hq)).
Qed.

Lemma ioapic_write_ids p off v p' : router_ok p -> P.ioapic_mmio_write p off v = Some p' -> ids p' = ids p.
Proof.
  intros Hp. unfold P.ioapic_mmio_write. set (legacy := negb _).
  destruct (use_ioapic_ok (fun io => match IoApic.mmio_write io off 4 v with
      | Some io => Some (if legacy then IoApic.clear_remote_irr io else io) | None => None end) p)
    as (p1 & -> & Hp1 & He1); [|done|].
  { intros io Hs. destruct (exec_sinks _ io (MmioWrite off 4 v) Hs) as (io1 & Hx & Hm). simpl in Hx. rewrite Hx.
    eexists. split; [done|]. destruct legacy; [|done].
    exact (moved_trans sink_kept _ _ _ _ Hm (clear_remote_irr_moved _ _ (proj1 Hm))). }
  rewrite <- (effect_ids _ _ He1). case_if; [by apply set_mode_ids|by intros [= <-]].
Qed.

Lemma pending_ids p cpu : ids (P.get_pending_for_cpu p cpu).2 = ids p.
Proof.
  unfold P.get_pending_for_cpu. destruct p.(P.mode); [by case_if|].
  destruct (p.(P.lapics) !! cpu) as [l|] eqn:Hl; [|done]. pose proof (pending_id l) as Hid.
  destruct (L.get_pending_vector l). by apply (insert_ids cpu l).
Qed.

Lemma acknowledge_ids p cpu v : ids (P.acknowledge_for_cpu p cpu v) = ids p.
Proof.
  unfold P.acknowledge_for_cpu. destruct p.(P.mode); [by case_if|]. apply alter_ids. intros l. apply ack_id.
Qed.

Lemma lapic_read_ids p cpu off n : ids (P.lapic_mmio_read_for_cpu p cpu off n).2 = ids p.
Proof.
  unfold P.lapic_mmio_read_for_cpu. destruct (p.(P.lapics) !! cpu) as [l|] eqn:Hl; [|done].
  pose proof (read_id l off n) as Hid. destruct (L.mmio_read l off n). by apply (insert_ids cpu l).
Qed.

Lemma trigger_msi_ids p m : ids (P.trigger_msi p m) = ids p.
Proof.
  unfold P.trigger_msi, P.inject_fixed_broadcast, P.inject_fixed_for_apic. repeat case_if; try done.
  - apply map_ids. intros l. apply inject_id.
  - apply map_ids. intros l. case_if; [apply inject_id|done].
  - apply map_ids. intros l. apply inject_id.
  - destruct (P.lapic_for_apic_id _ _); [|done]. apply alter_ids. intros l. apply inject_id.
Qed.

Lemma reset_lapic_ids p i : ids (P.reset_lapic p i) = ids p.
Proof.
  unfold P.reset_lapic. destruct (P.lapic_for_apic_id p i); [|done]. apply alter_ids. intros l.
  case_if; [|done]. by rewrite enable_software_id.
Qed.

Lemma update_gsi_ids p gsi b p' : router_ok p -> P.update_gsi_assert_count p gsi b = Some p' -> ids p' = ids p.
Proof.
  intros Hp. unfold P.update_gsi_assert_count. case_match; [|by intros [= <-]]. case_if; [by intros [= <-]|].
  case_if; [by intros [= <-]|]. intros Hd.
  by apply (drive_ids _ _ _ (length p.(P.ioapic).(IoApic.redirection))) in Hd; [|apply (lock_sized p Hp)].
Qed.

Lemma tick_ids p d : ids (P.tick p d) = ids p.
Proof. unfold P.tick, ids. simpl. rewrite (map_ids L.poll) by apply poll_id. by rewrite map_map. Qed.

(** *** Resets *)
Lemma reset_ids p : router_ok p -> ids (P.reset p) = ids p.
Proof.
  intros Hp. rewrite reset_eq by done. unfold ids. simpl. rewrite map_map. apply map_ext. intros l.
  by rewrite enabled_lapic_id.
Qed.

(** A reset passes its assertions when the identifiers are the indexes. *)
Definition numbered (p : P.t) : Prop := ids p = map Z.of_nat (seq 0 (length p.(P.lapics))).

Lemma numbered_asserts p : router_ok p -> numbered p -> P.reset_asserts p = true.
Proof.
  intros Hp Hn. apply forallb_forall. intros [i l] Hin. apply list_elem_of_In, elem_of_lookup_imap in Hin.
  destruct Hin as (i' & l' & [= <- <-] & Hl). apply Z.eqb_eq.
  pose proof (ro_cpus _ Hp) as Hc. apply lookup_lt_Some in Hl as Hlt. rewrite Z.min_l by lia.
  assert (ids p !! i = Some (L.apic_id l)) as Hi by (unfold ids; change (map ?f ?x) with (f <$> x); by rewrite list_lookup_fmap, Hl).
  rewrite Hn in Hi. change (map ?f ?x) with (f <$> x) in Hi. rewrite list_lookup_fmap, lookup_seq_lt in Hi by lia.
  by injection Hi.
Qed.

(** Resetting the local APIC an identifier names passes its assertion. *)
Lemma reset_lapic_passes p i : P.reset_lapic_asserts p i = true.
Proof.
  unfold P.reset_lapic_asserts, P.lapic_for_apic_id.
  destruct (find_idx _ _) as [[k l]|] eqn:Hf; [|done]. simpl.
  apply find_idx_Some in Hf as (-> & Hk & _). apply Z.eqb_eq in Hk. by apply Z.eqb_eq.
Qed.
