(* ===== verification/RouterProps.v ===== *)
(** * Properties of the platform interrupt router *)

From S2P Require Import Prelude Bytes Collections Snapshot SnapshotFacts Pic PicFacts Lapic LapicFacts LapicProps Ioapic IoapicFacts.
From S2P Require Import Router RouterFacts.

(** ** The public operations *)
Inductive call :=
| RaiseIrq (input : InterruptInput)
| LowerIrq (input : InterruptInput)
| SetMode (mode : PlatformInterruptMode)
| ImcrWrite (port size value : Z)
| SetIsaIrqOverride (isa_irq gsi : Z)
| FinalizeRestore
| SyncCr8 (cpu : nat) (cr8 : Z)
| GetPending (cpu : nat)
| Acknowledge (cpu : nat) (vector : Z)
| Eoi (cpu : nat) (vector : Z)
| GetPendingApic (apic_id : Z)
| AcknowledgeApic (apic_id vector : Z)
| EoiApic (apic_id vector : Z)
| IoapicWrite (offset value : Z)
| LapicRead (cpu : nat) (offset : Z) (len : nat)
| LapicWrite (cpu : nat) (offset : Z) (data : list Z)
| LapicReadApic (apic_id offset : Z) (len : nat)
| LapicWriteApic (apic_id offset : Z) (data : list Z)
| Tick (delta_ns : Z)
| TakeInit (cpu : nat)
| TakeSipi (cpu : nat)
| ResetLapic (apic_id : Z)
| TriggerMsi (message : MsiMessage.t)
| PicPortWrite (port value : Z)
| PicSetOffsets (master_base slave_base : Z)
| PicSetMasked (irq : Z) (masked : bool)
| Reset.

Definition exec_call (p : P.t) (c : call) : option P.t :=
  match c with
  | RaiseIrq input => P.raise_irq p input
  | LowerIrq input => P.lower_irq p input
  | SetMode mode => P.set_mode p mode
  | ImcrWrite port size value => P.imcr_write p port size value
  | SetIsaIrqOverride isa_irq gsi => Some (P.set_isa_irq_override p isa_irq gsi)
  | FinalizeRestore => P.finalize_restore p
  | SyncCr8 cpu cr8 => Some (P.sync_cr8_tpr_for_cpu p cpu cr8)
  | GetPending cpu => Some (P.get_pending_for_cpu p cpu).2
  | Acknowledge cpu vector => Some (P.acknowledge_for_cpu p cpu vector)
  | Eoi cpu vector => P.eoi_for_cpu p cpu vector
  | GetPendingApic apic_id => Some (P.get_pending_for_apic p apic_id).2
  | AcknowledgeApic apic_id vector => Some (P.acknowledge_for_apic p apic_id vector)
  | EoiApic apic_id vector => P.eoi_for_apic p apic_id vector
  | IoapicWrite offset value => P.ioapic_mmio_write p offset value
  | LapicRead cpu offset len => Some (P.lapic_mmio_read_for_cpu p cpu offset len).2
  | LapicWrite cpu offset data => P.lapic_mmio_write_for_cpu p cpu offset data
  | LapicReadApic apic_id offset len => Some (P.lapic_mmio_read_for_apic p apic_id offset len).2
  | LapicWriteApic apic_id offset data => P.lapic_mmio_write_for_apic p apic_id offset data
  | Tick delta_ns => Some (P.tick p delta_ns)
  | TakeInit cpu => Some (P.take_pending_init p cpu).2
  | TakeSipi cpu => Some (P.take_pending_sipi p cpu).2
  | ResetLapic apic_id => Some (P.reset_lapic p apic_id)
  | TriggerMsi message => Some (P.trigger_msi p message)
  | PicPortWrite port value => Some (P.with_pic (PlatformPic.port_write_u8 p.(P.pic) port value) p)
  | PicSetOffsets m s => Some (P.with_pic (PlatformPic.set_offsets p.(P.pic) m s) p)
  | PicSetMasked irq masked => Some (P.with_pic (PlatformPic.set_masked p.(P.pic) irq masked) p)
  | Reset => Some (P.reset p)
  end.

(** Arguments within their Rust types. *)
Definition input_ok (i : InterruptInput) : Prop :=
  match i with IsaIrq irq => uint 8 irq | Gsi gsi => uint 32 gsi end.
Definition call_ok (c : call) : Prop :=
  match c with
  | RaiseIrq i | LowerIrq i => input_ok i
  | SetIsaIrqOverride irq gsi => uint 8 irq /\ uint 32 gsi
  | Acknowledge _ v | AcknowledgeApic _ v => uint 8 v
  | LapicWrite _ _ data | LapicWriteApic _ _ data => Forall byte_ok data
  | PicPortWrite _ v => uint 8 v
  | PicSetOffsets m s => uint 8 m /\ uint 8 s
  | PicSetMasked irq _ => uint 8 irq
  | _ => True
  end.

(** The calls that leave the lines alone. *)
Definition line_neutral (c : call) : bool :=
  match c with
  | RaiseIrq _ | LowerIrq _ | SetIsaIrqOverride _ _ | FinalizeRestore | Reset => false
  | _ => true
  end.

(** *** The legacy controller *)
Lemma port_write_router_ok p port v :
  router_ok p -> uint 8 v -> router_ok (P.with_pic (PlatformPic.port_write_u8 p.(P.pic) port v) p).
Proof. intros Hp Hv. apply with_pic_ok; [done|]. apply port_write_valid; [done|apply Hp]. Qed.

Lemma eoi_pic_valid pc v : dual_valid pc.(PlatformPic.inner) -> dual_valid (PlatformPic.eoi pc v).(PlatformPic.inner).
Proof.
  intros Hv. assert (forall x, uint 8 (0x60 ||| (x &&& 7))) as Hu.
  { intros x. apply uint_lor; [lia|done|]. pose proof (land7_range x). unfold uint. lia. }
  unfold PlatformPic.eoi. destruct (PlatformPic.vector_to_irq pc v) as [irq|]; [|done].
  case_if; simpl; [by apply port_write_valid|]. apply port_write_valid; [done|]. by apply port_write_valid.
Qed.

Lemma eoi_pic_bases pc v :
  (PlatformPic.eoi pc v).(PlatformPic.master_base) = pc.(PlatformPic.master_base) /\
  (PlatformPic.eoi pc v).(PlatformPic.slave_base) = pc.(PlatformPic.slave_base).
Proof. unfold PlatformPic.eoi. destruct (PlatformPic.vector_to_irq pc v); [|done]. by case_if. Qed.

Lemma pic_replace_ok p pc :
  router_ok p -> dual_valid pc.(PlatformPic.inner) ->
  uint 8 pc.(PlatformPic.master_base) -> uint 8 pc.(PlatformPic.slave_base) -> router_ok (P.with_pic pc p).
Proof. intros [] Hd Hm Hs. by split. Qed.

Lemma pic_eoi_ok p v : router_ok p -> router_ok (P.with_pic (PlatformPic.eoi p.(P.pic) v) p).
Proof.
  intros Hp. destruct (eoi_pic_bases p.(P.pic) v) as [Hm Hs].
  apply pic_replace_ok; [done|apply eoi_pic_valid, Hp|rewrite Hm|rewrite Hs]; apply Hp.
Qed.

Lemma pic_ack_ok p v : router_ok p -> router_ok (P.with_pic (PlatformPic.acknowledge p.(P.pic) v) p).
Proof. intros Hp. apply with_pic_ok; [done|]. apply acknowledge_valid, Hp. Qed.

Lemma set_offsets_valid pc m s :
  uint 8 m -> uint 8 s -> dual_valid pc.(PlatformPic.inner) ->
  dual_valid (PlatformPic.set_offsets pc m s).(PlatformPic.inner).
Proof.
  intros Hm Hs Hv. unfold PlatformPic.set_offsets, PlatformPic.port_write_u8, PlatformPic.with_inner.
  cbn [PlatformPic.inner]. by repeat (apply port_write_valid; [done|]).
Qed.

Lemma port_read_uint d port : dual_valid d -> (port = MASTER_DATA \/ port = SLAVE_DATA) ->
  uint 8 (DualPic8259.port_read_u8 d port).
Proof. intros [[Hm _] [Hs _]] [-> | ->]; simpl; [apply (po_imr _ Hm)|apply (po_imr _ Hs)]. Qed.

Lemma set_masked_ok p irq masked :
  router_ok p -> uint 8 irq -> router_ok (P.with_pic (PlatformPic.set_masked p.(P.pic) irq masked) p).
Proof.
  intros Hp Hi. unfold uint in Hi. unfold PlatformPic.set_masked.
  assert (forall port bit, (port = MASTER_DATA \/ port = SLAVE_DATA) -> uint 8 bit ->
    router_ok (P.with_pic (PlatformPic.port_write_u8 p.(P.pic) port
      (if masked then PlatformPic.port_read_u8 p.(P.pic) port ||| bit
       else PlatformPic.port_read_u8 p.(P.pic) port &&& unot 8 bit)) p)) as Hw.
  { intros port bit Hport Hbit. apply port_write_router_ok; [done|].
    pose proof (port_read_uint _ port (ro_pic _ Hp) Hport) as Hr. fold (PlatformPic.port_read_u8 p.(P.pic) port) in Hr.
    destruct masked; [by apply uint_lor|]. apply uint_land_l; [lia|done|]. apply uint_unot. lia. }
  destruct (irq <=? 7) eqn:H7; [|destruct (irq <=? 15) eqn:H15]; bool_hyps; [| |by destruct p].
  - apply Hw; [by left|]. apply uint_bit. lia.
  - apply Hw; [by right|]. apply uint_bit. lia.
Qed.

(** *** Every call *)
Lemma gsi_of_input_nonneg p i : router_ok p -> input_ok i -> 0 <= P.gsi_of_input p i.
Proof.
  intros Hp Hi. destruct i as [irq|gsi]; simpl; [|apply Hi].
  destruct (p.(P.isa_irq_to_gsi) !! Z.to_nat irq) as [g|] eqn:Hg; simpl; [|apply Hi].
  apply (Forall_lookup_1 _ _ _ _ (proj2 (ro_isa _ Hp)) Hg).
Qed.

Lemma acknowledge_ok p cpu v : router_ok p -> uint 8 v -> keeps_lines p (P.acknowledge_for_cpu p cpu v).
Proof.
  intros Hp Hv. unfold P.acknowledge_for_cpu. destruct p.(P.mode).
  - case_if; [|done]. split; [by apply pic_ack_ok|done].
  - split; [|done]. apply alter_lapic_ok; [done|]. intros l.
    by apply step_lapic_ok; [apply lstep_ack|apply ack_now].
Qed.

Lemma get_pending_ok p cpu : router_ok p -> keeps_lines p (P.get_pending_for_cpu p cpu).2.
Proof.
  intros Hp. unfold P.get_pending_for_cpu. destruct p.(P.mode); [by case_if|].
  destruct (p.(P.lapics) !! cpu) as [l|] eqn:Hl; [|done]. apply (lookup_lapic_ok _ _ _ Hp) in Hl as Hok.
  pose proof (step_lapic_ok _ _ _ (lstep_pending l) (pending_now l) Hok) as Hok'.
  destruct (L.get_pending_vector l). split; [by apply insert_lapic_ok|done].
Qed.

Lemma lapic_read_ok p cpu off n : router_ok p -> keeps_lines p (P.lapic_mmio_read_for_cpu p cpu off n).2.
Proof.
  intros Hp. unfold P.lapic_mmio_read_for_cpu.
  destruct (p.(P.lapics) !! cpu) as [l|] eqn:Hl; [|done]. apply (lookup_lapic_ok _ _ _ Hp) in Hl as Hok.
  pose proof (step_lapic_ok _ _ _ (lstep_read l off n) (mmio_read_now l off n) Hok) as Hok'.
  destruct (L.mmio_read l off n). split; [by apply insert_lapic_ok|done].
Qed.

Lemma inject_now_ok now v l : vector_ok v -> lapic_now_ok now l -> lapic_now_ok now (L.inject_fixed_interrupt l v).
Proof. intros Hv. by apply step_lapic_ok; [apply lstep_env, env_inject|]. Qed.

Lemma trigger_msi_ok p m : router_ok p -> keeps_lines p (P.trigger_msi p m).
Proof.
  intros Hp. assert (vector_ok (MsiMessage.vector m)) as Hv.
  { unfold MsiMessage.vector. change 0x00ff with (Z.ones 8). rewrite land_ones_mod by lia. by apply Z.mod_pos_bound. }
  unfold P.trigger_msi, P.inject_fixed_broadcast, P.inject_fixed_for_apic.
  repeat case_if; try done; try (split; [|done]).
  - apply map_lapics_ok; [done|]. intros l. by apply inject_now_ok.
  - apply map_lapics_ok; [done|]. intros l Hl. case_if; [by apply inject_now_ok|done].
  - apply map_lapics_ok; [done|]. intros l. by apply inject_now_ok.
  - destruct (P.lapic_for_apic_id _ _); [|done]. split; [|done]. apply alter_lapic_ok; [done|].
    intros l. by apply inject_now_ok.
Qed.

Lemma reset_lapic_ok p i : router_ok p -> keeps_lines p (P.reset_lapic p i).
Proof.
  intros Hp. unfold P.reset_lapic. destruct (P.lapic_for_apic_id p i); [|done]. split; [|done].
  apply alter_lapic_ok; [done|]. intros l [Hl Hn]. pose proof (reset_state_ok l i Hl).
  case_if; [|done]. by apply same_lapic_ok; [apply enable_software_spec|].
Qed.

Lemma neutral_call_ok p c :
  router_ok p -> call_ok c -> line_neutral c = true -> exists p', exec_call p c = Some p' /\ keeps_lines p p'.
Proof.
  intros Hp Hc Hn. destruct c; try done; cbn [exec_call call_ok] in *;
    try (eexists; split; [reflexivity|]).
  - destruct (set_mode_ok p mode Hp) as (p' & ? & ? & _). by exists p'.
  - by apply imcr_write_ok.
  - unfold P.sync_cr8_tpr_for_cpu. destruct p.(P.mode); [done|]. split; [|done]. apply alter_lapic_ok; [done|].
    intros l. by apply step_lapic_ok; [apply lstep_cr8|].
  - by apply get_pending_ok.
  - by apply acknowledge_ok.
  - unfold P.eoi_for_cpu. destruct p.(P.mode); [|by apply lapic_eoi_ok]. eexists. split; [done|].
    case_if; [|done]. split; [by apply pic_eoi_ok|done].
  - unfold P.get_pending_for_apic. destruct p.(P.mode); [by case_if|].
    destruct (P.lapic_for_apic_id p apic_id); [by apply get_pending_ok|done].
  - unfold P.acknowledge_for_apic. destruct p.(P.mode).
    + case_if; [|done]. split; [by apply pic_ack_ok|done].
    + destruct (P.lapic_for_apic_id p apic_id); [by apply acknowledge_ok|done].
  - unfold P.eoi_for_apic. destruct p.(P.mode).
    + eexists. split; [done|]. case_if; [|done]. split; [by apply pic_eoi_ok|done].
    + destruct (P.lapic_for_apic_id p apic_id); [by apply lapic_eoi_ok|by exists p].
  - by apply ioapic_write_ok.
  - by apply lapic_read_ok.
  - by apply lapic_write_ok.
  - unfold P.lapic_mmio_read_for_apic. destruct (P.lapic_for_apic_id p apic_id); [by apply lapic_read_ok|done].
  - unfold P.lapic_mmio_write_for_apic. destruct (P.lapic_for_apic_id p apic_id); [by apply lapic_write_ok|by exists p].
  - split; [by apply tick_ok|done].
  - split; [|done]. destruct Hp. split; simpl; try done. by rewrite length_insert.
  - split; [|done]. apply sipi_ok; [done|by rewrite length_insert|]. by apply Forall_insert; [apply Hp|].
  - by apply reset_lapic_ok.
  - by apply trigger_msi_ok.
  - split; [by apply port_write_router_ok|done].
  - split; [|done]. destruct Hc as [Hm Hs].
    apply pic_replace_ok; [done|apply set_offsets_valid; try done; apply Hp|apply land_F8, Hm|apply land_F8, Hs].
  - split; [by apply set_masked_ok|done].
Qed.

Lemma call_router_ok p c : router_ok p -> call_ok c -> exists p', exec_call p c = Some p' /\ router_ok p'.
Proof.
  intros Hp Hc. destruct (line_neutral c) eqn:Hn.
  { destruct (neutral_call_ok p c Hp Hc Hn) as (p' & ? & ? & _). by exists p'. }
  destruct c; try done; cbn [exec_call call_ok] in *; try (eexists; split; [reflexivity|]).
  - destruct (update_gsi_ok p (P.gsi_of_input p input) true Hp) as (p' & ? & ? & _); [by apply gsi_of_input_nonneg|].
    by exists p'.
  - destruct (update_gsi_ok p (P.gsi_of_input p input) false Hp) as (p' & ? & ? & _); [by apply gsi_of_input_nonneg|].
    by exists p'.
  - unfold P.set_isa_irq_override. case_if; [|done]. pose proof (ro_isa _ Hp) as [Hl Hi].
    destruct Hp. split; simpl; try done. split; [by rewrite length_insert|].
    apply Forall_insert; [done|apply Hc].
  - destruct (finalize_restore_ok p Hp) as (p' & ? & ? & _). by exists p'.
  - by apply reset_ok.
Qed.

Lemma run_router_ok p cs :
  router_ok p -> Forall call_ok cs -> exists p', foldo exec_call cs p = Some p' /\ router_ok p'.
Proof.
  intros Hp Hcs. apply foldo_inv; [|done]. intros q c Hin Hq. apply call_router_ok; [done|].
  by apply (proj1 (Forall_forall _ _) Hcs).
Qed.

(** The state after some calls on a machine with [n] CPUs. *)
Definition after (n : nat) (cs : list call) : P.t :=
  default P.new (foldo exec_call cs (P.new_with_cpu_count n)).

Lemma after_ok n cs : (n <= 255)%nat -> Forall call_ok cs -> router_ok (after n cs).
Proof.
  intros Hn Hcs. unfold after. by destruct (run_router_ok _ cs (new_router_ok n Hn) Hcs) as (p & -> & ?).
Qed.

Ltac solve_calls := repeat (apply Forall_cons; split; [done || by repeat constructor|]); constructor.

(** *** Debug assertions

    The one assertion of these operations that depends on what the guest did
    is that of [LocalApic::reset_state].  INIT resets each target under the
    identifier it just read. *)
Definition call_asserts (p : P.t) (c : call) : bool :=
  match c with
  | Reset => P.reset_asserts p
  | ResetLapic apic_id => P.reset_lapic_asserts p apic_id
  | _ => true
  end.

(** A call in a build with or without debug assertions. *)
Definition exec_in (debug : bool) (p : P.t) (c : call) : option P.t :=
  if debug && negb (call_asserts p c) then None else exec_call p c.

(** The call writes to a local APIC's ID register. *)
Definition renumbers (c : call) : bool :=
  match c with
  | LapicWrite _ offset data | LapicWriteApic _ offset data => touches_id offset data
  | _ => false
  end.

(** No other call changes an identifier. *)
Lemma call_ids p c p' :
  router_ok p -> call_ok c -> renumbers c = false -> exec_call p c = Some p' -> ids p' = ids p.
Proof.
  intros Hp Hc Hr. destruct c; cbn [exec_call call_ok renumbers] in *; try (by intros [= <-]).
  - by apply update_gsi_ids.
  - by apply update_gsi_ids.
  - by apply set_mode_ids.
  - by apply imcr_write_ids.
  - intros [= <-]. unfold P.set_isa_irq_override. by case_if.
  - destruct (finalize_restore_ok p Hp) as (q & -> & _ & ->). by intros [= <-].
  - intros [= <-]. unfold P.sync_cr8_tpr_for_cpu. destruct p.(P.mode); [done|]. by apply alter_ids.
  - intros [= <-]. apply pending_ids.
  - intros [= <-]. apply acknowledge_ids.
  - unfold P.eoi_for_cpu. destruct p.(P.mode); [intros [= <-]; by case_if|by apply lapic_eoi_ids].
  - intros [= <-]. unfold P.get_pending_for_apic. destruct p.(P.mode); [by case_if|].
    destruct (P.lapic_for_apic_id _ _); [apply pending_ids|done].
  - intros [= <-]. unfold P.acknowledge_for_apic. destruct p.(P.mode); [by case_if|].
    destruct (P.lapic_for_apic_id _ _); [apply acknowledge_ids|done].
  - unfold P.eoi_for_apic. destruct p.(P.mode); [intros [= <-]; by case_if|].
    destruct (P.lapic_for_apic_id _ _); [by apply lapic_eoi_ids|by intros [= <-]].
  - by apply ioapic_write_ids.
  - intros [= <-]. apply lapic_read_ids.
  - by apply lapic_write_ids.
  - intros [= <-]. unfold P.lapic_mmio_read_for_apic. destruct (P.lapic_for_apic_id _ _); [apply lapic_read_ids|done].
  - unfold P.lapic_mmio_write_for_apic.
    destruct (P.lapic_for_apic_id _ _); [by apply lapic_write_ids|by intros [= <-]].
  - intros [= <-]. apply tick_ids.
  - intros [= <-]. apply reset_lapic_ids.
  - intros [= <-]. apply trigger_msi_ids.
  - intros [= <-]. by apply reset_ids.
Qed.

(** With assertions the invariant carries the numbering of the local APICs. *)
Definition debug_ok (debug : bool) (p : P.t) : Prop := router_ok p /\ (debug = true -> numbered p).

Lemma numbered_step p p' : ids p' = ids p -> numbered p -> numbered p'.
Proof.
  unfold numbered. intros Hi Hn. assert (length p'.(P.lapics) = length p.(P.lapics)) as ->; [|congruence].
  apply (f_equal length) in Hi. unfold ids in Hi. by rewrite !length_map in Hi.
Qed.

Lemma exec_in_ok debug p c :
  debug_ok debug p -> call_ok c -> (debug = true -> renumbers c = false) ->
  exists p', exec_in debug p c = Some p' /\ exec_call p c = Some p' /\ debug_ok debug p'.
Proof.
  intros [Hp Hn] Hc Hr. destruct (call_router_ok p c Hp Hc) as (p' & Hx & Hp'). exists p'.
  assert (debug && negb (call_asserts p c) = false) as Ha.
  { destruct debug; [|done]. apply negb_false_iff. destruct c; try done; [apply reset_lapic_passes|].
    apply numbered_asserts; auto. }
  unfold exec_in. rewrite Ha. split; [done|]. split; [done|]. split; [done|]. intros Hd.
  apply (numbered_step p); [|auto]. apply (call_ids p c); auto.
Qed.

Lemma new_numbered n : (n <= 255)%nat -> numbered (P.new_with_cpu_count n).
Proof.
  intros Hn. unfold numbered, ids. simpl. rewrite map_map, length_map, length_seq. apply map_ext. intros i.
  by rewrite enabled_lapic_id.
Qed.

Lemma new_debug_ok debug n : (n <= 255)%nat -> debug_ok debug (P.new_with_cpu_count n).
Proof. intros Hn. split; [by apply new_router_ok|]. intros _. by apply new_numbered. Qed.

(** C7: Whatever sequence of calls devices, guest and CPUs make on a router
    with up to 255 CPUs, no index is out of range and the state stays
    well-formed: one level, baseline and count per redirection entry, each
    line's level exactly what its baseline and its reference count say, the
    APIC flag equal to the mode, and every controller within its own
    invariant.  In a build with debug assertions this holds, and no assertion
    fails, as long as the guest writes to no local APIC's ID register;
    without them it holds for every sequence. *)
Theorem router_invariant debug n cs :
  (n <= 255)%nat -> Forall call_ok cs -> (debug = true -> Forall (fun c => renumbers c = false) cs) ->
  exists p, foldo (exec_in debug) cs (P.new_with_cpu_count n) = Some p /\ router_ok p.
Proof.
  intros Hn Hcs Hr. destruct (foldo_inv (debug_ok debug) (exec_in debug) cs (P.new_with_cpu_count n))
    as (p & ? & Hp & _); [|by apply new_debug_ok|by exists p].
  intros p c Hin Hp. destruct (exec_in_ok debug p c Hp) as (p' & ? & _ & ?); [..|by exists p'].
  - by apply (proj1 (Forall_forall _ _) Hcs).
  - intros Hd. by apply (proj1 (Forall_forall _ _) (Hr Hd)).
Qed.

(** A guest that unmasks the level-triggered entry 10 and goes back to the PIC. *)
Definition demo_setup : list call :=
  [IoapicWrite 0x00 0x24; IoapicWrite 0x10 0x8060; ImcrWrite 0x22 1 0x70; ImcrWrite 0x23 1 0].

Lemma demo_setup_ok : Forall call_ok demo_setup.
Proof. solve_calls. Qed.

Lemma router_invariant_witness :
  exists p, foldo (exec_in true) (demo_setup ++ [RaiseIrq (Gsi 10); ResetLapic 2; Reset]) (P.new_with_cpu_count 4) =
    Some p /\ router_ok p.
Proof. apply (router_invariant true 4); [lia|solve_calls|]. intros _. by repeat constructor. Defined.

(** With debug assertions, a guest that renumbers a local APIC makes the next
    reset panic. *)
Theorem renumbered_reset_panics :
  foldo (exec_in true) [LapicWrite 0 0x20 (to_le_bytes 4 0x05000000); Reset] P.new = None.
Proof. vm_compute. reflexivity. Qed.

(** ** Reset *)
(** A reset is a fresh start: if the guest has left the APIC identifiers
    as they were numbered, the router is bit for bit a new one with the same
    number of CPUs, except for the generation that tells the devices' handles
    to forget what they drove. *)
Theorem router_reset p :
  router_ok p -> map L.apic_id p.(P.lapics) = map Z.of_nat (seq 0 (length p.(P.lapics))) ->
  P.reset p = P.with_irq_line_generation (wrapping_add 64 p.(P.irq_line_generation) 1)
                (P.new_with_cpu_count (length p.(P.lapics))).
Proof.
  intros Hp Hid. rewrite reset_eq by done. f_equal.
  assert (map (fun l => P.enabled_lapic (L.with_clock 0 (L.apic_id l))) p.(P.lapics) =
          map (fun i => P.enabled_lapic (L.with_clock 0 (Z.of_nat i))) (seq 0 (length p.(P.lapics)))) as ->.
  { rewrite <- (map_map L.apic_id (fun i => P.enabled_lapic (L.with_clock 0 i))), Hid. apply map_map. }
  unfold P.new_with_cpu_count. rewrite Nat.max_l by (pose proof (ro_cpus _ Hp); lia). reflexivity.
Qed.

Lemma router_reset_witness :
  P.reset (after 3 (demo_setup ++ [RaiseIrq (IsaIrq 4); Tick 5])) =
  P.with_irq_line_generation 1 (P.new_with_cpu_count 3).
Proof.
  refine (router_reset (after 3 (demo_setup ++ [RaiseIrq (IsaIrq 4); Tick 5])) _ _).
  - apply after_ok; [lia|]. solve_calls.
  - vm_compute. reflexivity.
Defined.

(** After the guest renumbers its local APIC, a reset keeps the number it
    chose, and no local APIC answers to the identifier of the boot CPU. *)
Theorem router_reset_keeps_apic_id :
  let p := P.reset (after 1 [LapicWrite 0 0x20 (to_le_bytes 4 0x05000000)]) in
  map L.apic_id p.(P.lapics) = [5] /\ P.lapic_for_apic_id p 0 = None /\
  P.lapic_for_apic_id P.new 0 = Some 0%nat.
Proof. vm_compute. done. Qed.

(** ** Inter-processor interrupts *)
(** Whether a local APIC is addressed. *)
Definition ipi_for (src : Z) (icr : Icr.t) (l : L.t) : bool :=
  match icr.(Icr.destination_shorthand) with
  | DestinationShorthand.NoShorthand => L.apic_id l =? icr.(Icr.destination)
  | DestinationShorthand.SelfOnly => L.apic_id l =? src
  | DestinationShorthand.AllIncludingSelf => true
  | DestinationShorthand.AllExcludingSelf => negb (L.apic_id l =? src)
  end.

Lemma find_id_targets ls x i l :
  NoDup (map L.apic_id ls) -> ls !! i = Some l ->
  i ∈ match find_idx (fun l => L.apic_id l =? x) ls with Some (j, _) => [j] | None => [] end <->
  (L.apic_id l =? x) = true.
Proof.
  intros Hnd Hi. destruct (find_idx _ ls) as [[j y]|] eqn:Hf.
  - apply find_idx_Some in Hf as (Hj & Hy & _). apply Z.eqb_eq in Hy. rewrite list_elem_of_singleton, Z.eqb_eq. split.
    + intros ->. by simplify_eq.
    + intros Hx. apply (NoDup_lookup (map L.apic_id ls) i j x Hnd); change (map ?f ?l) with (f <$> l);
        rewrite list_lookup_fmap; [rewrite Hi|rewrite Hj]; simpl; congruence.
  - apply find_idx_None in Hf. rewrite elem_of_nil.
    rewrite (Forall_lookup_1 _ _ _ _ Hf Hi). done.
Qed.

Lemma icr_targets_spec src icr ls i l :
  NoDup (map L.apic_id ls) -> ls !! i = Some l -> i ∈ P.icr_targets src icr ls <-> ipi_for src icr l = true.
Proof.
  intros Hnd Hi. unfold P.icr_targets, ipi_for. destruct icr.(Icr.destination_shorthand).
  - by apply find_id_targets.
  - by apply find_id_targets.
  - rewrite elem_of_seq. apply lookup_lt_Some in Hi. split; [done|lia].
  - rewrite list_elem_of_In, filter_In, Hi, <- list_elem_of_In, elem_of_seq. apply lookup_lt_Some in Hi.
    split; [by intros [_ ?]|]. intros ?. split; [lia|done].
Qed.

Lemma icr_targets_nodup src icr ls : NoDup (P.icr_targets src icr ls).
Proof.
  unfold P.icr_targets. destruct icr.(Icr.destination_shorthand); try (destruct (find_idx _ ls) as [[j y]|]);
    try apply NoDup_singleton; try apply NoDup_nil_2; try apply NoDup_seq.
  apply NoDup_ListNoDup, List.NoDup_filter, NoDup_ListNoDup, NoDup_seq.
Qed.

Lemma inject_targets (f : L.t -> L.t) (ts : list nat) (ls : list L.t) (i : nat) l :
  NoDup ts -> ls !! i = Some l ->
  foldl (fun ls j => alter f j ls) ls ts !! i = Some (if decide (i ∈ ts) then f l else l).
Proof.
  revert ls l. induction ts as [|t ts IH]; intros ls l Hnd Hi; cbn [foldl].
  { destruct (decide (i ∈ [])) as [Hin|]; [by apply elem_of_nil in Hin|done]. }
  apply NoDup_cons in Hnd as [Hni Hnd]. destruct (decide (i = t)) as [->|Hne].
  - rewrite (IH _ (f l)) by (done || by rewrite list_lookup_alter_eq, Hi).
    destruct (decide (t ∈ ts)), (decide (t ∈ t :: ts)); set_solver.
  - rewrite (IH _ l) by (done || by rewrite list_lookup_alter_ne).
    destruct (decide (i ∈ ts)), (decide (i ∈ t :: ts)); set_solver.
Qed.

(** The handler of a command-register notification sends a fixed
    inter-processor interrupt to exactly the CPUs it addresses (by identifier,
    itself, all, or all others); every other local APIC is left as it was. *)
Theorem router_fixed_ipi p src icr i l :
  NoDup (map L.apic_id p.(P.lapics)) -> icr.(Icr.delivery_mode) = DeliveryMode.Fixed ->
  p.(P.lapics) !! i = Some l ->
  (P.handle_icr_ipi src icr p).(P.lapics) !! i =
    Some (if ipi_for src icr l then L.inject_fixed_interrupt l icr.(Icr.vector) else l).
Proof.
  intros Hnd Hdm Hi. unfold P.handle_icr_ipi. rewrite Hdm. simpl.
  rewrite (inject_targets (fun l => L.inject_fixed_interrupt l icr.(Icr.vector)) _ _ _ l);
    [|apply icr_targets_nodup|done].
  pose proof (icr_targets_spec src icr _ i l Hnd Hi) as Hs. destruct (ipi_for src icr l).
  - by rewrite decide_True by (by apply Hs).
  - rewrite decide_False; [done|]. intros Hin%Hs. done.
Qed.

Lemma router_fixed_ipi_witness :
  (P.handle_icr_ipi 0 (Icr.decode 0x000C0044 0) (P.new_with_cpu_count 3)).(P.lapics) !! 2%nat =
  Some (L.inject_fixed_interrupt (P.enabled_lapic (L.with_clock 0 2)) 0x44).
Proof.
  refine (router_fixed_ipi (P.new_with_cpu_count 3) 0 (Icr.decode 0x000C0044 0) 2
            (P.enabled_lapic (L.with_clock 0 2)) _ _ _).
  - vm_compute. apply (bool_decide_unpack _). vm_compute. exact I.
  - reflexivity.
  - reflexivity.
Defined.

(** The destination mode is decoded and ignored: a logical-mode message to the
    set of CPU 1 (mask 0x02) arrives at the CPU whose identifier is 2. *)
Theorem router_ipi_logical_misrouted :
  let icr := Icr.decode 0x00000844 0x02000000 in
  let p := P.handle_icr_ipi 0 icr (P.new_with_cpu_count 3) in
  icr.(Icr.destination_mode) = true /\
  map (fun l => matches_logical_destination l icr.(Icr.destination)) p.(P.lapics) = [false; true; false] /\
  map (fun l => requested (L.state l) 0x44) p.(P.lapics) = [false; false; true].
Proof. vm_compute. done. Qed.

(** ** The legacy controller behind the router *)
(** Reprogramming the vector bases through the ports, as every operating
    system does, leaves the bases the wrapper remembers behind: the end of the
    interrupt the controller itself reported is ignored. *)
Theorem router_pic_offsets_stale :
  let remap := [PicPortWrite 0x20 0x11; PicPortWrite 0x21 0x20; PicPortWrite 0x21 0x04; PicPortWrite 0x21 0x01] in
  let p := after 1 (remap ++ [RaiseIrq (IsaIrq 1); Acknowledge 0 0x21]) in
  (P.get_pending_for_cpu (after 1 (remap ++ [RaiseIrq (IsaIrq 1)])) 0).1 = Some 0x21 /\
  p.(P.pic).(PlatformPic.inner).(DualPic8259.master).(Pic8259.isr) = 2 /\
  P.eoi_for_cpu p 0 0x21 = Some p.
Proof. vm_compute. done. Qed.

(** Leaving APIC mode does not bring the PIC's lines up to date: a device that
    lowers its line in APIC mode and raises it again in PIC mode makes no edge,
    and its interrupt is lost; without the excursion it is delivered. *)
Theorem router_pic_edge_lost :
  let taken := [PicSetOffsets 0x20 0x28; RaiseIrq (IsaIrq 1); Acknowledge 0 0x21; Eoi 0 0x21] in
  let again via := after 1 (taken ++ via ++ [LowerIrq (IsaIrq 1)] ++ [SetMode LegacyPic; RaiseIrq (IsaIrq 1)]) in
  P.read_gsi_level (again [SetMode Apic]) 1 = true /\
  (P.get_pending_for_cpu (again [SetMode Apic]) 0).1 = None /\
  (P.get_pending_for_cpu (again []) 0).1 = Some 0x21.
Proof. vm_compute. done. Qed.
