(* ===== verification/RouterLines.v ===== *)
(** * Shared interrupt lines: the device handles and the router's counts
    implement a wired OR *)

From S2P Require Import Prelude Bytes Collections Snapshot Pic Lapic LapicProps Ioapic IoapicFacts Router RouterFacts RouterProps.
Module H := PlatformIrqLine.

(** ** The system: a router and the handles of the devices *)
Inductive event := Drive (i : nat) (level : bool) | Call (c : call).

Definition sys_step (s : P.t * list H.t) (ev : event) : option (P.t * list H.t) :=
  let '(p, handles) := s in
  match ev with
  | Drive i level =>
      match handles !! i with
      | None => Some s
      | Some h =>
          match H.set_level h level p with
          | Some (h, p) => Some (p, <[i := h]> handles)
          | None => None
          end
      end
  | Call c => match exec_call p c with Some p => Some (p, handles) | None => None end
  end.

(** Lines move only through the handles; a reset forgets what they drove. *)
Definition event_ok (ev : event) : Prop :=
  match ev with
  | Drive _ _ => True
  | Call c => call_ok c /\ (line_neutral c = true \/ c = Reset)
  end.

(** ** The specification: one level per handle *)
Definition wire_step (driven : list bool) (ev : event) : list bool :=
  match ev with
  | Drive i level => <[i := level]> driven
  | Call Reset => map (fun _ => false) driven
  | Call _ => driven
  end.

(** ** The simulation *)
Section Wired.
Context (isa : list Z).
Implicit Types (p : P.t) (h : H.t) (hs : list H.t) (ds : list bool).

Definition line_of (i : InterruptInput) : Z :=
  match i with IsaIrq irq => default irq (isa !! Z.to_nat irq) | Gsi gsi => gsi end.

Definition pulls (g : Z) (hd : H.t * bool) : Z :=
  if hd.2 && (line_of hd.1.(H.input) =? g) then 1 else 0.
Definition demand (g : Z) hs ds : Z := sumZ (pulls g) (zip hs ds).

(** What a handle believes it drives. *)
Definition cached (gen : Z) h : bool := (h.(H.last_generation) =? gen) && h.(H.last_level).

Record wired_inv (gen : Z) p hs ds : Prop := {
  wi_ok : router_ok p;
  wi_isa : p.(P.isa_irq_to_gsi) = isa;
  wi_gen : p.(P.irq_line_generation) = gen;
  wi_base : Forall (fun b => b = false) p.(P.gsi_restore_baseline);
  wi_len : length ds = length hs;
  wi_old : Forall (fun h => h.(H.last_generation) <= gen /\ 0 <= line_of h.(H.input)) hs;
  wi_cached : ds = map (cached gen) hs;
  wi_count g c : 0 <= g -> p.(P.gsi_assert_count) !! Z.to_nat g = Some c -> c = demand g hs ds;
}.

Lemma pulls_range g hd : 0 <= pulls g hd <= 1.
Proof. unfold pulls. case_if; lia. Qed.

Lemma demand_bounds g hs ds : 0 <= demand g hs ds <= Z.of_nat (length hs).
Proof.
  pose proof (sumZ_bounds (pulls g) (zip hs ds) 1) as Hs. rewrite length_zip in Hs.
  unfold demand. destruct Hs as [H1 H2]; [intros; apply pulls_range|]. lia.
Qed.

Lemma demand_pos g hs ds :
  0 < demand g hs ds <-> exists i h, hs !! i = Some h /\ ds !! i = Some true /\ line_of h.(H.input) = g.
Proof.
  unfold demand. split.
  - intros Hpos. destruct (decide (Exists (fun hd => pulls g hd = 1) (zip hs ds))) as [He|He].
    + apply Exists_exists in He as ([h d] & Hin & Hp). apply list_elem_of_lookup in Hin as [i Hi].
      apply lookup_zip_Some in Hi as [Hh Hd]. unfold pulls in Hp. simpl in *.
      case_if_in Hp; [|done]. apply andb_true_iff in Heqb as [-> Hg%Z.eqb_eq]. by exists i, h.
    + exfalso. apply not_Exists_Forall in He; [|intros; apply _].
      assert (sumZ (pulls g) (zip hs ds) = 0) as Hz; [clear Hpos|lia].
      induction He as [|hd l Hx _ IH]; simpl in *; [done|]. pose proof (pulls_range g hd). lia.
  - intros (i & h & Hh & Hd & Hg).
    assert (zip hs ds !! i = Some (h, true)) as Hi by (apply lookup_zip_Some; done).
    pose proof (sumZ_insert (pulls g) (zip hs ds) i (h, true) (h, false) Hi) as Hs.
    assert (pulls g (h, true) = 1) as H1 by (unfold pulls; simpl; by rewrite Hg, Z.eqb_refl).
    assert (pulls g (h, false) = 0) as H0 by done.
    pose proof (sumZ_bounds (pulls g) (<[i:=(h, false)]> (zip hs ds)) 1) as [Hb _]; [intros; apply pulls_range|]. lia.
Qed.

Lemma demand_insert g hs ds i h h' d d' :
  hs !! i = Some h -> ds !! i = Some d -> H.input h' = H.input h ->
  demand g (<[i := h']> hs) (<[i := d']> ds) = demand g hs ds - pulls g (h, d) + pulls g (h, d').
Proof.
  intros Hh Hd Hin. unfold demand. rewrite <- (insert_zip_with pair hs ds i h' d').
  rewrite (sumZ_insert _ _ _ (h, d)) by (by apply lookup_zip_Some). unfold pulls. simpl. by rewrite Hin.
Qed.

Lemma gsi_of_input_line p i : p.(P.isa_irq_to_gsi) = isa -> P.gsi_of_input p i = line_of i.
Proof. intros Hi. destruct i; simpl; by rewrite ?Hi. Qed.

Lemma bump_lookup gsi b counts (g c : Z) :
  0 <= g -> 0 <= gsi -> bump gsi b counts !! Z.to_nat g = Some c ->
  exists c0, counts !! Z.to_nat g = Some c0 /\ c = if gsi =? g then count_step b c0 else c0.
Proof.
  intros Hg Hgsi. unfold bump. destruct (Z.eqb_spec gsi g) as [->|Hne].
  - rewrite list_lookup_alter_eq. destruct (counts !! Z.to_nat g) as [c0|]; intros [= <-]. by exists c0.
  - rewrite list_lookup_alter_ne by lia. intros ->. by exists c.
Qed.

(** A level change moves the count by one, without saturation. *)
Lemma demand_drive g hs ds i h b :
  Z.of_nat (length hs) < 2 ^ 32 -> hs !! i = Some h -> ds !! i = Some (negb b) -> line_of (H.input h) = g ->
  count_step b (demand g hs ds) = demand g hs ds - pulls g (h, negb b) + pulls g (h, b).
Proof.
  intros Hn Hh Hd Hg. pose proof (demand_bounds g hs ds) as Hb.
  assert (forall d, pulls g (h, d) = if d then 1 else 0) as Hp.
  { intros d. unfold pulls. simpl. rewrite Hg, Z.eqb_refl. by destruct d. }
  rewrite !Hp. unfold count_step. destruct b; simpl in *.
  - pose proof (demand_insert g hs ds i h h _ true Hh Hd eq_refl) as Hup. rewrite !Hp in Hup.
    rewrite (list_insert_id hs i h Hh) in Hup. pose proof (demand_bounds g hs (<[i:=true]> ds)). lia.
  - assert (0 < demand g hs ds); [|lia]. apply demand_pos. by exists i, h.
Qed.

Lemma drive_sim gen p hs ds i b :
  (Z.of_nat (length hs) < 2 ^ 32) -> wired_inv gen p hs ds ->
  exists p' hs', sys_step (p, hs) (Drive i b) = Some (p', hs') /\ wired_inv gen p' hs' (<[i := b]> ds) /\
    map H.input hs' = map H.input hs.
Proof.
  intros Hn Hw. pose proof Hw as [Hp Hi Hg Hb Hl Ho Hc Hcnt]. simpl.
  destruct (hs !! i) as [h|] eqn:Hh.
  2:{ exists p, hs. split; [done|]. split; [|done]. rewrite list_insert_ge; [done|]. rewrite Hl.
      by apply lookup_ge_None. }
  assert (ds !! i = Some (cached gen h)) as Hd by (rewrite Hc; change (map ?f ?l) with (f <$> l); by rewrite list_lookup_fmap, Hh).
  destruct (Forall_lookup_1 _ _ _ _ Ho Hh) as [Hold Hline].
  unfold H.set_level. rewrite Hg.
  set (h1 := if H.last_generation h =? gen then h else H.mk (H.input h) false gen).
  assert (H.input h1 = H.input h /\ H.last_generation h1 = gen /\ H.last_level h1 = cached gen h) as (Hin & Hge & Hlv).
  { unfold h1, cached. destruct (Z.eqb_spec (H.last_generation h) gen); done. }
  set (h2 := H.mk (H.input h1) b (H.last_generation h1)).
  assert (forall h', H.input h' = H.input h -> H.last_generation h' = gen ->
    Forall (fun h => h.(H.last_generation) <= gen /\ 0 <= line_of h.(H.input)) (<[i := h']> hs)) as Hold'.
  { intros h' Hi' Hg'. apply Forall_insert; [done|]. rewrite Hi', Hg'. split; [lia|done]. }
  assert (forall h', H.input h' = H.input h -> map H.input (<[i := h']> hs) = map H.input hs) as Hins.
  { intros h' Hi'. change (map ?f ?l) with (f <$> l). rewrite list_fmap_insert, list_insert_id; [done|].
    by rewrite list_lookup_fmap, Hh, Hi'. }
  assert (forall h', H.last_generation h' = gen -> H.last_level h' = b ->
    <[i := b]> ds = map (cached gen) (<[i := h']> hs)) as Hds.
  { intros h' Hg' Hl'. change (map ?f ?l) with (f <$> l). rewrite list_fmap_insert, Hc.
    replace (cached gen h') with b; [done|]. unfold cached. by rewrite Hg', Hl', Z.eqb_refl. }
  rewrite Hlv. case_if.
  - apply eqb_prop in Heqb0. exists p, (<[i := h1]> hs). split; [done|]. split; [|by apply Hins].
    split; try done; [by rewrite !length_insert|by apply Hold'|apply Hds; [done|congruence]|].
    intros g c Hg0 Hgc. rewrite (demand_insert g hs ds i h h1 _ b Hh Hd Hin), Heqb0.
    rewrite (Hcnt g c Hg0 Hgc). lia.
  - assert (cached gen h = negb b) as Hneg by (by destruct (cached gen h), b).
    destruct (update_gsi_ok p (line_of (H.input h)) b Hp Hline)
      as (p' & Hu & Hp' & _ & Hct & Hba & His & Hgn).
    assert ((if b then P.raise_irq p (H.input h2) else P.lower_irq p (H.input h2)) = Some p') as Hx.
    { unfold P.raise_irq, P.lower_irq. rewrite !gsi_of_input_line by done. simpl. rewrite Hin. by destruct b. }
    fold h2. rewrite Hx. exists p', (<[i := h2]> hs). split; [done|]. split; [|by apply Hins].
    split; try congruence; [by rewrite !length_insert|by apply Hold'|by apply Hds|].
    intros g c Hg0 Hgc. rewrite Hct in Hgc. apply bump_lookup in Hgc as (c0 & Hc0 & ->); [|done..].
    rewrite (demand_insert g hs ds i h h2 _ b Hh Hd Hin), Hneg, (Hcnt g c0 Hg0 Hc0).
    destruct (Z.eqb_spec (line_of (H.input h)) g) as [Hgl|Hgl].
    + rewrite Hneg in Hd. by apply (demand_drive g hs ds i h).
    + unfold pulls. simpl. rewrite (proj2 (Z.eqb_neq _ _) Hgl), !andb_false_r. lia.
Qed.

Lemma neutral_sim gen p hs ds c :
  wired_inv gen p hs ds -> call_ok c -> line_neutral c = true ->
  exists p', exec_call p c = Some p' /\ wired_inv gen p' hs ds.
Proof.
  intros [Hp Hi Hg Hb Hl Ho Hc Hcnt] Hok Hn.
  destruct (neutral_call_ok p c Hp Hok Hn) as (p' & ? & Hp' & (H1 & H2 & H3 & H4 & H5)). exists p'.
  split; [done|]. split; try done; try congruence. intros g x Hg0. rewrite H3. by apply Hcnt.
Qed.
End Wired.

(** ** Reset *)
Lemma reset_sim gen p hs ds :
  wired_inv P.default_isa_irq_to_gsi gen p hs ds -> 0 <= gen -> gen + 1 < 2 ^ 64 ->
  wired_inv P.default_isa_irq_to_gsi (gen + 1) (P.reset p) hs (map (fun _ => false) ds).
Proof.
  intros [Hp Hi Hg Hb Hl Ho Hc Hcnt] Hg0 Hg1. split.
  - by apply reset_ok.
  - done.
  - change (P.irq_line_generation (P.reset p)) with (wrapping_add 64 p.(P.irq_line_generation) 1).
    rewrite Hg. apply wrap_small. unfold uint. lia.
  - by apply Forall_replicate.
  - by rewrite length_map.
  - eapply Forall_impl; [exact Ho|]. intros h [Hh ?]. split; [lia|done].
  - rewrite Hc, map_map. apply map_ext_in. intros h Hin%list_elem_of_In.
    unfold cached. apply (proj1 (Forall_forall _ _) Ho) in Hin as [Hh _].
    by rewrite (proj2 (Z.eqb_neq _ _)) by lia.
  - intros g c Hg2 Hgc. change (P.gsi_assert_count (P.reset p)) with (replicate 24 0) in Hgc.
    apply lookup_replicate in Hgc as [-> _]. pose proof (demand_bounds P.default_isa_irq_to_gsi g hs (map (fun _ => false) ds)).
    destruct (decide (0 < demand P.default_isa_irq_to_gsi g hs (map (fun _ => false) ds))) as [Hpos|]; [|lia].
    apply demand_pos in Hpos as (i & h & _ & Hd & _). change (map ?f ?l) with (f <$> l) in Hd.
    by apply list_lookup_fmap_Some in Hd as (? & ? & _).
Qed.

Lemma wired_run gen p hs ds evs :
  Z.of_nat (length hs) < 2 ^ 32 -> 0 <= gen -> gen + Z.of_nat (length evs) < 2 ^ 64 -> Forall event_ok evs ->
  wired_inv P.default_isa_irq_to_gsi gen p hs ds ->
  exists gen' p' hs', foldo sys_step evs (p, hs) = Some (p', hs') /\
    wired_inv P.default_isa_irq_to_gsi gen' p' hs' (foldl wire_step ds evs) /\
    map H.input hs' = map H.input hs.
Proof.
  revert gen p hs ds. induction evs as [|ev evs IH]; intros gen p hs ds Hn Hg Hlen Hok Hw.
  { by exists gen, p, hs. }
  apply Forall_cons in Hok as [Hev Hok]. simpl in Hlen.
  assert (exists gen' p' hs', sys_step (p, hs) ev = Some (p', hs') /\ gen <= gen' <= gen + 1 /\
    wired_inv P.default_isa_irq_to_gsi gen' p' hs' (wire_step ds ev) /\ map H.input hs' = map H.input hs)
    as (gen' & p' & hs' & Hs & Hgen & Hw' & Hin).
  { destruct ev as [i b|c].
    - destruct (drive_sim _ gen p hs ds i b Hn Hw) as (p' & hs' & ? & ? & ?). exists gen, p', hs'. by split_and!; try lia.
    - destruct Hev as [Hc [Hne| ->]].
      + destruct (neutral_sim _ gen p hs ds c Hw Hc Hne) as (p' & Hx & ?). exists gen, p', hs. simpl. rewrite Hx.
        split_and!; try lia; try done. by destruct c.
      + exists (gen + 1), (P.reset p), hs. split_and!; try lia; try done. apply reset_sim; [done..|lia]. }
  destruct (IH gen' p' hs' (wire_step ds ev)) as (g2 & p2 & hs2 & Hr & Hw2 & Hin2); try done; try lia.
  { apply (f_equal length) in Hin. rewrite !length_map in Hin. by rewrite Hin. }
  exists g2, p2, hs2. split; [|split; [done|congruence]].
  change (foldo sys_step (ev :: evs) (p, hs)) with
    (foldl (fun o x => match o with Some b => sys_step b x | None => None end) (sys_step (p, hs) ev) evs).
  rewrite Hs. exact Hr.
Qed.

Lemma wired_init n inputs :
  (n <= 255)%nat -> Forall input_ok inputs ->
  let p := P.new_with_cpu_count n in
  wired_inv P.default_isa_irq_to_gsi 0 p (map (H.new p) inputs) (map (fun _ => false) inputs).
Proof.
  intros Hn Hin p. pose proof (new_router_ok n Hn) as Hp. split; try done.
  - by apply Forall_replicate.
  - by rewrite !length_map.
  - apply Forall_map. eapply Forall_impl; [exact Hin|]. intros i Hi. split; [done|].
    cbn [H.input H.new]. rewrite <- (gsi_of_input_line _ p i) by done. by apply gsi_of_input_nonneg.
  - by rewrite map_map.
  - intros g c Hg Hc. change (P.gsi_assert_count p) with (replicate 24 0) in Hc.
    apply lookup_replicate in Hc as [-> _].
    pose proof (demand_bounds P.default_isa_irq_to_gsi g (map (H.new p) inputs) (map (fun _ => false) inputs)).
    destruct (decide (0 < demand P.default_isa_irq_to_gsi g (map (H.new p) inputs) (map (fun _ => false) inputs)))
      as [Hpos|]; [|lia].
    apply demand_pos in Hpos as (i & h & _ & Hd & _). change (map ?f ?l) with (f <$> l) in Hd.
    by apply list_lookup_fmap_Some in Hd as (? & ? & _).
Qed.

Lemma wired_level isa gen p hs ds g :
  wired_inv isa gen p hs ds -> 0 <= g < Z.of_nat (length p.(P.gsi_level)) ->
  P.read_gsi_level p g = (0 <? demand isa g hs ds).
Proof.
  intros [Hp _ _ Hb _ _ _ Hcnt] Hg. unfold P.read_gsi_level. rewrite (ro_level _ Hp). unfold wired.
  assert (Z.to_nat g < length (P.gsi_level p))%nat as Hlt by lia. rewrite (ro_levels _ Hp) in Hlt.
  destruct (lookup_lt_is_Some_2 p.(P.gsi_assert_count) (Z.to_nat g)) as [c Hc]; [by rewrite (ro_count _ Hp)|].
  destruct (lookup_lt_is_Some_2 p.(P.gsi_restore_baseline) (Z.to_nat g)) as [b Hbg]; [by rewrite (ro_baseline _ Hp)|].
  rewrite lookup_zip_with, Hbg, Hc. simpl. rewrite (Forall_lookup_1 _ _ _ _ Hb Hbg).
  by rewrite (Hcnt g c) by (done || lia).
Qed.

(** C5: Lines shared by several devices behave as a wired OR: whatever the
    order in which the devices drive their handles, interleaved with any guest
    accesses, interrupt service, mode changes and resets, a GSI is asserted
    exactly when some device routed to it drives its handle high since the last
    reset. *)
Theorem router_wired_or n inputs evs :
  (n <= 255)%nat -> Forall input_ok inputs -> Z.of_nat (length inputs) < 2 ^ 32 ->
  Z.of_nat (length evs) < 2 ^ 64 -> Forall event_ok evs ->
  let p0 := P.new_with_cpu_count n in
  exists p handles, foldo sys_step evs (p0, map (H.new p0) inputs) = Some (p, handles) /\
    forall g, 0 <= g < Z.of_nat (length p.(P.gsi_level)) ->
      P.read_gsi_level p g = true <->
      exists i input, inputs !! i = Some input /\ P.gsi_of_input p0 input = g /\
        foldl wire_step (map (fun _ => false) inputs) evs !! i = Some true.
Proof.
  intros Hn Hin Hlen Hev Hok p0.
  destruct (wired_run 0 p0 (map (H.new p0) inputs) (map (fun _ => false) inputs) evs)
    as (gen & p & hs & Hr & Hw & Hi); [by rewrite length_map|lia..|done|by apply wired_init|].
  exists p, hs. split; [done|]. intros g Hg. rewrite (wired_level _ _ _ _ _ _ Hw Hg), Z.ltb_lt, demand_pos.
  assert (forall i, inputs !! i = H.input <$> hs !! i) as Hinp.
  { intros i. rewrite map_map in Hi. simpl in Hi. rewrite map_id in Hi. rewrite <- Hi.
    change (map ?f ?l) with (f <$> l). by rewrite list_lookup_fmap. }
  setoid_rewrite Hinp. split.
  - intros (i & h & Hh & Hd & Hl). exists i, (H.input h). rewrite Hh. split_and!; try done.
  - intros (i & inp & Hh & Hl & Hd). destruct (hs !! i) as [h|] eqn:He; [|done]. injection Hh as <-. by exists i, h.
Qed.

(** Two devices on GSI 10 and the timer on ISA IRQ 0, with a reset between. *)
Definition demo_inputs : list InterruptInput := [Gsi 10; Gsi 10; IsaIrq 0].
Definition demo_events : list event :=
  [Drive 0 true; Drive 2 true; Call Reset; Drive 0 true; Drive 1 true; Call (SetMode Apic); Drive 0 false].

Lemma router_wired_or_witness :
  let p0 := P.new_with_cpu_count 2 in
  exists p handles, foldo sys_step demo_events (p0, map (H.new p0) demo_inputs) = Some (p, handles) /\
    forall g, 0 <= g < Z.of_nat (length p.(P.gsi_level)) ->
      P.read_gsi_level p g = true <->
      exists i input, demo_inputs !! i = Some input /\ P.gsi_of_input p0 input = g /\
        foldl wire_step (map (fun _ => false) demo_inputs) demo_events !! i = Some true.
Proof.
  apply (router_wired_or 2 demo_inputs demo_events); [lia| |done|done|].
  - repeat (apply Forall_cons; split; [done|]). constructor.
  - repeat (apply Forall_cons; split; [done || (split; [done|]; (by left) || by right)|]). constructor.
Defined.
