(* ===== verification/RouterLevel.v ===== *)
(** * Level-triggered interrupts through the whole complex

    An asserted, unmasked level-triggered line is always in flight: at some
    destination its vector is requested or in service.  The files on the
    separate controllers show their halves; here the I/O APIC drives the real
    local APICs, whose EOIs come back to it. *)

From S2P Require Import Prelude Bytes Collections Snapshot SnapshotFacts Pic PicFacts Lapic LapicFacts LapicProps Ioapic IoapicFacts.
From S2P Require Import Router RouterFacts RouterProps.
Module Sink := RoutedLapicSink.

(** ** In flight *)
(** Requested or in service. *)
Definition pend (l : L.t) (v : Z) : bool := requested (L.state l) v || in_service (L.state l) v.

(** What the steps of interrupt service keep of a local APIC. *)
Record lapic_mono (l l' : L.t) : Prop := {
  lm_id : L.apic_id l' = L.apic_id l;
  lm_ldr : LapicState.ldr (L.state l') = LapicState.ldr (L.state l);
  lm_svr : LapicState.svr (L.state l') = LapicState.svr (L.state l);
  lm_ok : apic_ok l -> apic_ok l' /\ forall u, vector_ok u -> pend l u = true -> pend l' u = true;
}.

#[export] Instance lapic_mono_preorder : PreOrder lapic_mono.
Proof.
  split; [intros l; by split|]. intros l1 l2 l3 [H1 H2 H3 H4] [K1 K2 K3 K4].
  split; try congruence. intros (Hok & Hr)%H4. destruct (K4 Hok) as [Hok' Hr']. auto.
Qed.

Lemma kept_mono l l' : lapic_kept l l' -> lapic_mono l l'.
Proof.
  intros [H1 H2 H3 H4 H5 H6 H7]. split; try done. intros Hok. destruct (H7 Hok) as [Hok' Hr]. split; [done|].
  unfold pend, in_service. rewrite H6. intros u Hu [Hq|Hs]%orb_true_iff; apply orb_true_iff; auto.
Qed.

Lemma ack_mono l v : vector_ok v -> lapic_mono l (L.ack l v).2.
Proof.
  intros Hv. etrans; [apply kept_mono, poll_kept|]. unfold L.ack. set (l1 := L.poll l).
  assert (forall s', L.apic_id (L.with_state s' l1) = LapicState.id s') as Hid by done.
  destruct (LapicState.ack (L.state l1) v) as [r s'] eqn:Ha. simpl. split; simpl.
  - rewrite Hid. unfold LapicState.ack in Ha. repeat case_if_in Ha; by simplify_eq.
  - unfold LapicState.ack in Ha. repeat case_if_in Ha; by simplify_eq.
  - unfold LapicState.ack in Ha. repeat case_if_in Ha; by simplify_eq.
  - intros [Hs Hn]. pose proof (ack_spec _ v Hs Hv) as Hsp. rewrite Ha in Hsp.
    destruct Hsp as (Hok & _ & _ & _ & Hf & Ht). split; [done|]. intros u Hu Hp.
    destruct r; [|by rewrite (Hf eq_refl)]. destruct (Ht eq_refl u Hu) as [Hr Hi]. unfold pend in *. simpl.
    rewrite Hr, Hi. destruct (requested _ u), (in_service _ u), (u =? v); done.
Qed.

Lemma tpr_mono l v : lapic_mono l (L.set_tpr_from_cr8 l v).
Proof.
  split; try done. intros Hl. split; [|done]. by apply (lapic_step_ok l); [apply lstep_cr8|].
Qed.

Lemma now_mono l now : uint 64 now -> lapic_mono l (L.mk now (L.state l)).
Proof. intros Hn. split; try done. intros [Hs _]. done. Qed.

(** The sinks while interrupts are served. *)
Definition live (s : Sink.t) : Prop :=
  apic_ok s.(Sink.lapic) /\ L.enabled s.(Sink.lapic) = true /\ s.(Sink.apic_enabled) = true.

Definition served (e : E.t) (ls : list Sink.t) : Prop :=
  Exists (fun s => IoApic.matches_destination e s = true /\ pend s.(Sink.lapic) (E.vector e) = true) ls.

Definition sink_mono (s s' : Sink.t) : Prop :=
  lapic_mono s.(Sink.lapic) s'.(Sink.lapic) /\ s'.(Sink.apic_enabled) = s.(Sink.apic_enabled).

Lemma sink_kept_mono s s' : sink_kept s s' -> sink_mono s s'.
Proof. intros [Hk He]. by split; [apply kept_mono|]. Qed.

Lemma matches_mono e s s' : sink_mono s s' -> IoApic.matches_destination e s' = IoApic.matches_destination e s.
Proof.
  intros [[Hid Hldr _ _] _]. unfold IoApic.matches_destination. cbn.
  unfold LapicState.matches_logical_dest. rewrite Hldr. fold (L.apic_id (Sink.lapic s')).
  change (LapicState.id (L.state (Sink.lapic s'))) with (L.apic_id (Sink.lapic s')).
  change (LapicState.id (L.state (Sink.lapic s))) with (L.apic_id (Sink.lapic s)). by rewrite Hid.
Qed.

Lemma live_mono s s' : sink_mono s s' -> live s -> live s'.
Proof.
  intros [[Hid Hldr Hsvr Hok] He] (Hl & Hen & Ha). split_and!; [by apply Hok| |congruence].
  unfold L.enabled, LapicState.enabled in *. by rewrite Hsvr.
Qed.

Lemma lives_mono ls ls' : Forall2 sink_mono ls ls' -> Forall live ls -> Forall live ls'.
Proof. induction 1 as [|s s' ls ls' Hs _ IH]; intros Hl; [done|]. apply Forall_cons in Hl as [? ?]. constructor; [by eapply live_mono|auto]. Qed.

Lemma served_mono e ls ls' :
  uint 8 (E.vector e) -> Forall live ls -> Forall2 sink_mono ls ls' -> served e ls -> served e ls'.
Proof.
  intros Hv Hl Hm Hs. induction Hm as [|s s' ls ls' Hk _ IH]; [done|]. apply Forall_cons in Hl as [Hls Hl].
  apply Exists_cons in Hs as [[Hma Hp]|Hs]; [left|right; by apply IH].
  split; [by rewrite (matches_mono e s s' Hk)|]. apply (lm_ok _ _ (proj1 Hk)); [apply Hls|done|done].
Qed.

Lemma reached_mono e ls ls' :
  Forall2 sink_mono ls ls' ->
  existsb (IoApic.matches_destination e) ls' = existsb (IoApic.matches_destination e) ls.
Proof. induction 1 as [|s s' ls ls' Hk _ IH]; [done|]. simpl. by rewrite IH, (matches_mono e s s' Hk). Qed.

Lemma kept_sinks_mono ls ls' : Forall2 sink_kept ls ls' -> Forall2 sink_mono ls ls'.
Proof. intros Hf. eapply Forall2_impl; [exact Hf|]. apply sink_kept_mono. Qed.

(** ** One delivery *)
Lemma inject_pend s v : live s -> vector_ok v -> pend (inject_external_interrupt s v).(Sink.lapic) v = true.
Proof.
  intros (Hok & Hen & Ha) Hv. cbn. rewrite Ha. cbn. unfold pend. by rewrite inject_requested.
Qed.

Lemma after_delivery_served e ls :
  uint 8 (E.vector e) -> Forall live ls -> existsb (IoApic.matches_destination e) ls = true ->
  served e (after_delivery e ls).1.
Proof.
  intros Hv Hl Hr.
  assert (forall s, live s -> IoApic.matches_destination e s = true ->
    IoApic.matches_destination e (inject_external_interrupt s (E.vector e)) = true /\
    pend (inject_external_interrupt s (E.vector e)).(Sink.lapic) (E.vector e) = true) as Hi.
  { intros s Hs Hm. split; [|by apply inject_pend].
    rewrite (matches_mono e s); [done|]. by apply sink_kept_mono, sink_kept_inject. }
  rewrite <- (after_delivery_reached e ls) in Hr. unfold after_delivery in *. case_if.
  - pose proof (min_by_key_is_Some e 0 ls None) as Hm.
    destruct (IoApic.min_by_key e 0 ls None) as [i|]; simpl in *; [|done].
    destruct Hm as [[k ?]|(j & s & -> & Hj & Hs)]; [done|]. apply Exists_exists.
    exists (inject_external_interrupt s (E.vector e)). split; [|apply Hi; [by apply (Forall_lookup_1 _ _ _ _ Hl Hj)|done]].
    apply list_elem_of_lookup. exists j. by rewrite list_lookup_alter_eq, Hj.
  - simpl in *. apply existsb_exists in Hr as (s & Hin & Hs). apply list_elem_of_In in Hin.
    apply Exists_exists. exists (inject_external_interrupt s (E.vector e)).
    split; [|apply Hi; [by apply (proj1 (Forall_forall _ _) Hl)|done]].
    apply list_elem_of_In, in_map_iff. exists s. rewrite Hs. split; [done|by apply list_elem_of_In].
Qed.

(** ** The I/O APIC with live sinks *)
Abbreviation ioapic := (IoApic.t Sink.t).

Definition level (e : E.t) : Prop := E.trigger_mode e = Ioapic.Level.

(** The line calls for service. *)
Definition due (e : E.t) (raw : bool) : Prop :=
  level e /\ E.mask e = false /\ E.delivery_mode e <= 1 /\ E.interpret_level e raw = true.

(** Pin [g] has been offered, if anyone can take it. *)
Definition settled (io : ioapic) (g : nat) : Prop :=
  forall e raw, io.(IoApic.redirection) !! g = Some e -> io.(IoApic.pin_level) !! g = Some raw -> due e raw ->
    existsb (IoApic.matches_destination e) io.(IoApic.lapics) = true -> E.remote_irr e = true.

(** A set Remote-IRR bit stands for an interrupt in flight, except for the
    vector [x] whose EOI is under way. *)
Definition inflight (x : option Z) (io : ioapic) : Prop :=
  forall g e, io.(IoApic.redirection) !! g = Some e -> level e -> E.remote_irr e = true ->
    x <> Some (E.vector e) -> served e io.(IoApic.lapics).

Record live_ioapic (n : nat) (x : option Z) (io : ioapic) : Prop := {
  li_sized : sized n io;
  li_live : Forall live io.(IoApic.lapics);
  li_flight : inflight x io;
}.

Lemma entry_vector n (io : ioapic) g e : sized n io -> io.(IoApic.redirection) !! g = Some e -> uint 8 (E.vector e).
Proof. intros Hs Hg. apply (Forall_lookup_1 _ _ _ _ (io_entries _ (proj1 Hs)) Hg). Qed.

(** A delivery at [g]: the other entries stay, and the line at [g] is settled. *)
Lemma deliver_live n x (io : ioapic) g :
  (g < n)%nat -> live_ioapic n x io ->
  exists io', IoApic.deliver io g = Some io' /\ live_ioapic n x io' /\ frame g io io' /\
    Forall2 sink_mono io.(IoApic.lapics) io'.(IoApic.lapics) /\ settled io' g.
Proof.
  intros Hlt [Hs Hl Hf].
  destruct (deliver_moved sink_kept sink_kept_inject n io g Hlt Hs) as (io' & Hd & Hs' & Hk).
  apply kept_sinks_mono in Hk. destruct (lookup_lt_is_Some_2 io.(IoApic.redirection) g) as [e He]; [by rewrite (proj2 Hs)|].
  pose proof (entry_vector _ _ _ _ Hs He) as Hv.
  destruct (deliver_frame io g) as (io1 & Hd1 & Hfr); [by rewrite (proj2 Hs)|]. rewrite Hd in Hd1. injection Hd1 as <-.
  assert (exists b, io'.(IoApic.redirection) !! g = Some (E.with_remote_irr b e) /\
    (b = true -> level e -> E.remote_irr e = true \/ served e io'.(IoApic.lapics)) /\
    (level e -> E.delivery_mode e <= 1 ->
     existsb (IoApic.matches_destination e) io.(IoApic.lapics) = true -> b = true)) as (b & Hb & Hb1 & Hb2).
  { unfold IoApic.deliver in Hd. rewrite He in Hd. destruct (Z.ltb_spec 1 (E.delivery_mode e)).
    { injection Hd as <-. exists (E.remote_irr e). split_and!; [by destruct e|by left|lia]. }
    change (if E.delivery_mode e =? 1 then _ else _) with (after_delivery e io.(IoApic.lapics)) in Hd.
    pose proof (after_delivery_reached e io.(IoApic.lapics)) as Hr.
    pose proof (after_delivery_served e io.(IoApic.lapics) Hv Hl) as Hsv.
    destruct (after_delivery e io.(IoApic.lapics)) as [ls b]. simpl in Hr, Hsv. injection Hd as <-.
    case_if.
    - apply andb_true_iff in Heqb0 as [-> _]. exists true. simpl. rewrite list_lookup_alter_eq, He.
      split_and!; [done| |done]. right. by apply Hsv.
    - exists (E.remote_irr e). simpl. rewrite He. split_and!; [by destruct e|by left|].
      intros Hlv _ Hre. rewrite Hre in Hr. subst b. by rewrite bool_decide_true in Heqb0. }
  exists io'. split; [done|]. split_and!; [|done|done|].
  - split; [done|by eapply lives_mono|]. intros g' e' Hg' Hlv Hri Hx. destruct (decide (g' = g)) as [->|Hne].
    + rewrite Hb in Hg'. injection Hg' as <-. destruct (Hb1 Hri Hlv) as [Hre|Hse]; [|by destruct e].
      apply (served_mono (E.with_remote_irr b e) _ _ Hv Hl Hk). by apply (Hf g e).
    + rewrite (fr_other _ _ _ Hfr) in Hg' by done. apply (served_mono e' _ _ (entry_vector _ _ _ _ Hs Hg') Hl Hk).
      by apply (Hf g').
  - intros e' raw Hg' _ (Hlv & _ & Hm & _) Hre. rewrite Hb in Hg'. injection Hg' as <-.
    rewrite (reached_mono _ _ _ Hk) in Hre. by apply Hb2.
Qed.

Lemma settled_frame (io io' : ioapic) g g' :
  frame g io io' -> Forall2 sink_mono io.(IoApic.lapics) io'.(IoApic.lapics) -> g' <> g ->
  settled io g' -> settled io' g'.
Proof.
  intros Hf Hk Hne Hs e raw He Hr Hd Hm. rewrite (fr_other _ _ _ Hf) in He by done.
  rewrite (fr_pins _ _ _ Hf) in Hr. rewrite (reached_mono _ _ _ Hk) in Hm. by apply (Hs e raw).
Qed.

Lemma maybe_deliver_live n x (io : ioapic) g :
  (g < n)%nat -> live_ioapic n x io ->
  exists io', IoApic.maybe_deliver_level io g = Some io' /\ live_ioapic n x io' /\ frame g io io' /\
    Forall2 sink_mono io.(IoApic.lapics) io'.(IoApic.lapics) /\ settled io' g.
Proof.
  intros Hlt Hio. destruct (deliver_live n x io g Hlt Hio) as (io' & Hd & Hrest).
  pose proof Hio as [Hs _ _]. unfold IoApic.maybe_deliver_level.
  destruct (lookup_lt_is_Some_2 io.(IoApic.redirection) g) as [e He]; [by rewrite (proj2 Hs)|].
  destruct (lookup_lt_is_Some_2 io.(IoApic.pin_level) g) as [raw Hraw]; [by rewrite (io_pins _ (proj1 Hs)), (proj2 Hs)|].
  rewrite He, Hraw.
  assert ((level e -> E.mask e = false -> E.interpret_level e raw = true -> E.remote_irr e = true) ->
    exists io', Some io = Some io' /\ live_ioapic n x io' /\ frame g io io' /\
      Forall2 sink_mono io.(IoApic.lapics) io'.(IoApic.lapics) /\ settled io' g) as Hstay.
  { intros Hq. exists io. split_and!; [done|done|apply frame_refl|by apply kept_sinks_mono|].
    intros e' raw' He' Hr' (Hlv & Hm & _ & Hi) _. rewrite He in He'. rewrite Hraw in Hr'. simplify_eq. by apply Hq. }
  case_if; [apply Hstay; intros Hlv; by rewrite (bool_decide_true _ Hlv) in Heqb|].
  case_if; [apply Hstay; intros _ Hm _; by rewrite Hm in Heqb0|].
  case_if; [apply Hstay; intros _ _ Hi; by rewrite Hi in Heqb1|]. by exists io'.
Qed.

Lemma set_irq_live n (io : ioapic) g lvl :
  live_ioapic n None io ->
  exists io', IoApic.set_irq_level io g lvl = Some io' /\ live_ioapic n None io' /\
    Forall2 sink_mono io.(IoApic.lapics) io'.(IoApic.lapics) /\
    (forall g', g' = g \/ settled io g' -> settled io' g') /\
    io'.(IoApic.pin_active_low) = io.(IoApic.pin_active_low) /\
    io'.(IoApic.pin_level) =
      <[g := xorb lvl (default false (io.(IoApic.pin_active_low) !! g))]> io.(IoApic.pin_level).
Proof.
  intros Hio. pose proof Hio as [Hs Hl Hf]. unfold IoApic.set_irq_level.
  destruct (io.(IoApic.pin_level) !! g) as [raw|] eqn:Hg.
  2:{ exists io. split_and!; try done; [by apply kept_sinks_mono| |].
      - intros g' [->|?]; [|done]. intros e raw _ Hraw. by rewrite Hg in Hraw.
      - rewrite list_insert_ge; [done|]. by apply lookup_ge_None. }
  apply lookup_lt_Some in Hg as Hlt. rewrite (io_pins _ (proj1 Hs)), (proj2 Hs) in Hlt.
  set (new := xorb lvl _). set (io1 := IoApic.with_pin_level (<[g := new]> _) io).
  assert (sized n io1) as Hs1.
  { destruct Hs as [Hok <-]. change io1 with (IoApic.with_pin_level (<[g := new]> io.(IoApic.pin_level))
      (IoApic.with_pin_active_low io.(IoApic.pin_active_low) io)).
    apply with_pins_sized; [apply Hok|rewrite length_insert; apply Hok|done]. }
  assert (live_ioapic n None io1) as Hio1 by (by split).
  assert (forall g', g' <> g -> settled io g' -> settled io1 g') as Hset1.
  { intros g' Hne Hst e r He Hr. apply (Hst e r He). simpl in Hr. by rewrite list_lookup_insert_ne in Hr. }
  assert (Forall2 sink_mono io.(IoApic.lapics) io1.(IoApic.lapics)) as Hm1 by (by apply kept_sinks_mono).
  destruct (lookup_lt_is_Some_2 io.(IoApic.redirection) g) as [e He]; [by rewrite (proj2 Hs)|].
  change (IoApic.redirection io1) with (IoApic.redirection io). rewrite He.
  assert (forall o, (exists io', o = Some io' /\ live_ioapic n None io' /\ frame g io1 io' /\
      Forall2 sink_mono io1.(IoApic.lapics) io'.(IoApic.lapics) /\ settled io' g) ->
    exists io', o = Some io' /\ live_ioapic n None io' /\
      Forall2 sink_mono io.(IoApic.lapics) io'.(IoApic.lapics) /\
      (forall g', g' = g \/ settled io g' -> settled io' g') /\
      io'.(IoApic.pin_active_low) = io.(IoApic.pin_active_low) /\
      io'.(IoApic.pin_level) = <[g := new]> io.(IoApic.pin_level)) as Hfin.
  { intros o (io' & -> & Hl' & Hfr & Hk & Hst). exists io'. split_and!; [done|done|exact Hk| |apply Hfr|apply Hfr].
    intros g' Hg'. destruct (decide (g' = g)) as [->|Hne]; [done|]. destruct Hg' as [->|Hg']; [done|].
    by apply (settled_frame io1 io' g); [..|apply Hset1]. }
  assert ((level e -> E.mask e = false -> E.interpret_level e new = true -> False) ->
    exists io', Some io1 = Some io' /\ live_ioapic n None io' /\ frame g io1 io' /\
      Forall2 sink_mono io1.(IoApic.lapics) io'.(IoApic.lapics) /\ settled io' g) as Hstay.
  { intros Hq. exists io1. split_and!; [done|done|apply frame_refl|by apply kept_sinks_mono|].
    intros e' r He' Hr (Hlv & Hm & _ & Hi) _. simpl in He', Hr. rewrite list_lookup_insert_eq in Hr.
    2:{ by apply lookup_lt_Some in Hg. }
    rewrite He in He'. simplify_eq. by destruct Hq. }
  apply Hfin. destruct (E.trigger_mode e) eqn:Ht; destruct (E.mask e) eqn:Hmk.
  - by apply Hstay.
  - case_if; [by apply deliver_live|]. apply Hstay. unfold level. congruence.
  - by apply Hstay.
  - case_if; [by apply maybe_deliver_live|]. apply Hstay. intros _ _ Hi. by rewrite Hi in Heqb.
Qed.

Lemma redeliver_live n p (io : ioapic) :
  live_ioapic n None io -> (forall g, g ∈ p -> (g < n)%nat) -> (forall g, g ∉ p -> settled io g) ->
  exists io', foldl (fun o g => match o with Some io => IoApic.deliver io g | None => None end) (Some io) p = Some io' /\
    live_ioapic n None io' /\ Forall2 sink_mono io.(IoApic.lapics) io'.(IoApic.lapics) /\
    (forall g, settled io' g) /\ io'.(IoApic.pin_active_low) = io.(IoApic.pin_active_low) /\
    io'.(IoApic.pin_level) = io.(IoApic.pin_level).
Proof.
  revert io. induction p as [|x p IH]; intros io Hio Hlt Hset; simpl.
  { exists io. split_and!; try done; [by apply kept_sinks_mono|]. intros g. apply Hset. set_solver. }
  destruct (deliver_live n None io x) as (io1 & -> & Hio1 & Hfr & Hk & Hst); [apply Hlt; set_solver|done|].
  destruct (IH io1) as (io2 & Hx & Hio2 & Hk2 & Hst2 & Hw & Hp); [done|set_solver| |].
  { intros g Hg. destruct (decide (g = x)) as [->|Hne]; [done|].
    apply (settled_frame io io1 x); [done..|]. apply Hset. set_solver. }
  exists io2. split_and!; try done.
  - assert (Transitive sink_mono) as Htr.
    { intros s1 s2 s3 [A1 A2] [B1 B2]. split; [by etrans|congruence]. }
    by etrans.
  - rewrite Hw. apply Hfr.
  - rewrite Hp. apply Hfr.
Qed.

Lemma eoi_clear_same v e :
  level (eoi_clear v e) = level e /\ E.mask (eoi_clear v e) = E.mask e /\
  E.delivery_mode (eoi_clear v e) = E.delivery_mode e /\ E.vector (eoi_clear v e) = E.vector e /\
  (forall raw, E.interpret_level (eoi_clear v e) raw = E.interpret_level e raw) /\
  (forall s : Sink.t, IoApic.matches_destination (eoi_clear v e) s = IoApic.matches_destination e s).
Proof. unfold eoi_clear. by case_if. Qed.

(** The broadcast of an EOI brings everything back in flight. *)
Lemma notify_eoi_live n v (io : ioapic) :
  live_ioapic n (Some v) io -> (forall g, settled io g) ->
  exists io', IoApic.notify_eoi io v = Some io' /\ live_ioapic n None io' /\
    Forall2 sink_mono io.(IoApic.lapics) io'.(IoApic.lapics) /\
    (forall g, settled io' g) /\ io'.(IoApic.pin_active_low) = io.(IoApic.pin_active_low) /\
    io'.(IoApic.pin_level) = io.(IoApic.pin_level).
Proof.
  intros [Hs Hl Hf] Hset. unfold IoApic.notify_eoi.
  destruct (eoi_scan_spec v io.(IoApic.pin_level) 0 io.(IoApic.redirection)) as (p & -> & _ & Hp).
  { by rewrite (io_pins _ (proj1 Hs)). }
  set (io1 := IoApic.with_redirection _ io).
  assert (forall g e', io1.(IoApic.redirection) !! g = Some e' ->
    exists e, io.(IoApic.redirection) !! g = Some e /\ e' = eoi_clear v e) as Hent.
  { intros g e' He. simpl in He. change (map ?f ?l) with (f <$> l) in He.
    apply list_lookup_fmap_Some in He as (e & -> & He). by exists e. }
  apply (redeliver_live n p io1).
  - split; [|done|].
    + apply with_redirection_sized; [by rewrite length_map; apply Hs| |done].
      apply Forall_map. eapply Forall_impl; [apply (io_entries _ (proj1 Hs))|]. intros e He. by apply eoi_clear_ok.
    + intros g e' (e & He & ->)%Hent Hlv Hri _. unfold eoi_clear in *. destruct (eoi_hits v e) eqn:Hh; [done|].
      apply (Hf g e He Hlv Hri). intros [= Hve]. unfold eoi_hits in Hh.
      by rewrite (bool_decide_true _ Hlv), Hri, Hve, Z.eqb_refl in Hh.
  - intros g (i & e & raw & -> & Hi & _)%Hp. apply lookup_lt_Some in Hi. by rewrite (proj2 Hs) in Hi.
  - intros g Hg e' raw (e & He & ->)%Hent Hr Hd Hre.
    destruct (eoi_clear_same v e) as (Hlv & Hmk & Hdm & _ & Hil & Hma). unfold due in Hd. rewrite Hlv, Hmk, Hdm, Hil in Hd.
    assert (E.remote_irr e = true) as Hri.
    { apply (Hset g e raw He Hr Hd). rewrite <- Hre. clear -Hma. change (IoApic.lapics io1) with (IoApic.lapics io).
      induction (IoApic.lapics io) as [|s ls IH]; simpl; [done|]. by rewrite Hma, IH. }
    unfold eoi_clear. destruct (eoi_hits v e) eqn:Hh; [|done]. destruct Hg. apply Hp. exists g, e, raw.
    destruct Hd as (_ & Hm & _ & Hi). unfold eoi_again. by rewrite Hh, Hi, Hm.
Qed.

(** ** The router in APIC mode *)
Record level_inv (p : P.t) : Prop := {
  lv_ok : router_ok p;
  lv_mode : p.(P.mode) = Apic;
  lv_enabled : Forall (fun l => L.enabled l = true) p.(P.lapics);
  lv_flight : inflight None (P.lock_ioapic p);
  lv_settled g : settled (P.lock_ioapic p) g;
  lv_pins g lv : p.(P.gsi_level) !! g = Some lv ->
    p.(P.ioapic).(IoApic.pin_level) !! g =
      Some (xorb lv (default false (p.(P.ioapic).(IoApic.pin_active_low) !! g)));
}.

Definition sinks_of (b : bool) (ls : list L.t) : list Sink.t := map (fun l => Sink.mk l b) ls.

Lemma sinks_live ls now :
  Forall (fun l => apic_ok l /\ L.now l = now) ls -> Forall (fun l => L.enabled l = true) ls ->
  Forall live (sinks_of true ls).
Proof.
  intros Ho He. apply Forall_map. induction Ho as [|l ls [Hl _] _ IH]; [done|].
  apply Forall_cons in He as [? ?]. constructor; [done|by apply IH].
Qed.

Lemma apic_flag p : router_ok p -> p.(P.mode) = Apic -> p.(P.apic_enabled) = true.
Proof. intros Hp Hm. rewrite (ro_enabled _ Hp), Hm. done. Qed.

Lemma level_inv_live p : level_inv p -> live_ioapic (length p.(P.ioapic).(IoApic.redirection)) None (P.lock_ioapic p).
Proof.
  intros [Hp Hm He Hf _ _]. split; [by apply lock_sized| |done].
  simpl. rewrite (apic_flag p Hp Hm). apply (sinks_live _ p.(P.lapic_clock)); [apply Hp|done].
Qed.

Lemma lock_unlock io p :
  Forall (fun s => s.(Sink.apic_enabled) = p.(P.apic_enabled)) io.(IoApic.lapics) ->
  P.lock_ioapic (P.unlock_ioapic io p) = io.
Proof.
  intros Hf. destruct io as [? ? ? ? ? ls]. unfold P.lock_ioapic, P.unlock_ioapic, IoApic.set_lapics. simpl in *.
  f_equal. induction Hf as [|[l b] ls Hs _ IH]; [done|]. simpl in *. by rewrite IH, <- Hs.
Qed.

(** A critical section that ends with everything offered. *)
Lemma level_inv_unlock n p io :
  router_ok (P.unlock_ioapic io p) -> p.(P.mode) = Apic -> p.(P.apic_enabled) = true ->
  live_ioapic n None io -> (forall g, settled io g) ->
  (forall g lv, p.(P.gsi_level) !! g = Some lv ->
     io.(IoApic.pin_level) !! g = Some (xorb lv (default false (io.(IoApic.pin_active_low) !! g)))) ->
  level_inv (P.unlock_ioapic io p).
Proof.
  intros Hok Hm Ha [Hs Hl Hf] Hst Hpins.
  assert (P.lock_ioapic (P.unlock_ioapic io p) = io) as Hlock.
  { apply lock_unlock. rewrite Ha. eapply Forall_impl; [exact Hl|]. by intros s (_ & _ & ?). }
  split; rewrite ?Hlock; try done. simpl. apply Forall_map. eapply Forall_impl; [exact Hl|]. by intros s (_ & ? & _).
Qed.

(** Steps of the local APICs alone. *)
Lemma sinks_mono b ls ls' : Forall2 lapic_mono ls ls' -> Forall2 sink_mono (sinks_of b ls) (sinks_of b ls').
Proof. intros Hf. unfold sinks_of. induction Hf; simpl; constructor; by try split. Qed.

Lemma level_inv_lapics p ls :
  level_inv p -> router_ok (P.with_lapics ls p) -> Forall2 lapic_mono p.(P.lapics) ls ->
  level_inv (P.with_lapics ls p).
Proof.
  intros Hi Hok Hm. pose proof (level_inv_live p Hi) as [Hs Hl _]. destruct Hi as [Hp Hmo He Hf Hst Hpins].
  pose proof (sinks_mono p.(P.apic_enabled) _ _ Hm) as Hsm. split; try done.
  - pose proof (lives_mono _ _ Hsm Hl) as Hl'. unfold sinks_of in Hl'. rewrite Forall_map in Hl'. eapply Forall_impl; [exact Hl'|]. by intros l (_ & ? & _).
  - intros g e Hg Hlv Hri Hx. apply (served_mono e _ _ (entry_vector _ _ _ _ Hs Hg) Hl Hsm). by apply (Hf g e).
  - intros g e raw Hg Hr Hd Hm'. apply (Hst g e raw Hg Hr Hd). rewrite <- Hm'. symmetry. apply (reached_mono _ _ _ Hsm).
Qed.

Lemma alter_mono f i ls : (forall l, lapic_mono l (f l)) -> Forall2 lapic_mono ls (alter f i ls).
Proof.
  intros Hf. revert i. induction ls as [|l ls IH]; intros [|i]; simpl; constructor; try done. apply IH.
Qed.

Lemma insert_mono i ls l l' : ls !! i = Some l -> lapic_mono l l' -> Forall2 lapic_mono ls (<[i := l']> ls).
Proof.
  revert i. induction ls as [|x ls IH]; intros [|i] Hi Hm; simplify_eq/=; constructor; try done. by apply IH.
Qed.

Lemma map_mono f ls : Forall (fun l => lapic_mono l (f l)) ls -> Forall2 lapic_mono ls (map f ls).
Proof. induction 1; simpl; by constructor. Qed.

(** ** Entering APIC mode *)
Lemma drive_list_live n lvs (io : ioapic) :
  live_ioapic n None io -> NoDup (map fst lvs) -> (forall g lv, (g, lv) ∈ lvs -> (g < n)%nat) ->
  exists io', foldo (fun io '(gsi, level) => IoApic.set_irq_level io gsi level) lvs io = Some io' /\
    live_ioapic n None io' /\ io'.(IoApic.pin_active_low) = io.(IoApic.pin_active_low) /\
    (forall g, g ∈ map fst lvs \/ settled io g -> settled io' g) /\
    (forall g, g ∉ map fst lvs -> io'.(IoApic.pin_level) !! g = io.(IoApic.pin_level) !! g) /\
    (forall g lv, (g, lv) ∈ lvs ->
       io'.(IoApic.pin_level) !! g = Some (xorb lv (default false (io.(IoApic.pin_active_low) !! g)))).
Proof.
  revert io. induction lvs as [|[g lv] lvs IH]; intros io Hio Hnd Hlt.
  { exists io. split_and!; try done; [intros g [Hg|?]; [set_solver|done]|set_solver]. }
  simpl in Hnd. apply NoDup_cons in Hnd as [Hni Hnd].
  destruct (set_irq_live n io g lv Hio) as (io1 & Hx & Hio1 & _ & Hst1 & Hw1 & Hp1).
  destruct (IH io1 Hio1 Hnd) as (io2 & Hx2 & Hio2 & Hw2 & Hst2 & Hp2 & Hq2); [set_solver|].
  exists io2. split_and!.
  - unfold foldo in *. simpl. by rewrite Hx.
  - done.
  - congruence.
  - intros g' Hg'. apply Hst2. simpl in Hg'. rewrite elem_of_cons in Hg'.
    destruct Hg' as [[->|?]|?]; [right; apply Hst1; by left|by left|right; apply Hst1; by right].
  - intros g' Hg'. simpl in Hg'. rewrite elem_of_cons in Hg'. rewrite Hp2 by tauto. rewrite Hp1.
    apply list_lookup_insert_ne. naive_solver.
  - intros g' lv' Hin. rewrite elem_of_cons in Hin. destruct Hin as [[= -> ->]|Hin]; [|by rewrite <- Hw1; apply Hq2].
    rewrite Hp2, Hp1 by done. apply list_lookup_insert_eq.
    destruct (li_sized _ _ _ Hio) as [Hok Hn]. rewrite (io_pins _ Hok), Hn. apply (Hlt g lv). set_solver.
Qed.

Lemma imap_pair_fst {A} (l : list A) : map fst (imap pair l) = seq 0 (length l).
Proof.
  apply list_eq. intros i. change (map ?f ?l) with (f <$> l). rewrite list_lookup_fmap, list_lookup_imap.
  destruct (l !! i) as [x|] eqn:Hi.
  - simpl. symmetry. apply lookup_seq. split; [done|]. by apply lookup_lt_Some in Hi.
  - simpl. symmetry. apply lookup_ge_None. rewrite length_seq. by apply lookup_ge_None.
Qed.

Lemma imap_pair_elem {A} (l : list A) g x : (g, x) ∈ imap pair l <-> l !! g = Some x.
Proof.
  rewrite list_elem_of_lookup. setoid_rewrite list_lookup_imap_Some. split.
  - by intros (i & y & Hy & [= -> ->]).
  - intros Hx. by exists g, x.
Qed.

Lemma enter_apic_mode p :
  router_ok p -> p.(P.mode) = LegacyPic -> exists p', P.set_mode p Apic = Some p' /\ level_inv p'.
Proof.
  intros Hp Hm. destruct (set_mode_ok p Apic Hp) as (p' & Hx & [Hp' _] & _). exists p'. split; [done|].
  set (p1 := P.with_apic_enabled (bool_decide (Apic = Apic)) (P.with_mode Apic p)).
  assert (router_ok p1) as Hp1 by (by apply with_mode_ok).
  set (p2 := P.with_lapics (map P.enable_lapic_software p1.(P.lapics)) p1).
  assert (router_ok p2) as Hp2.
  { apply map_lapics_ok; [done|]. intros l. apply same_lapic_ok, enable_software_spec. }
  assert (Forall (fun l => L.enabled l = true) p2.(P.lapics)) as Hen.
  { apply Forall_map. eapply Forall_impl; [apply (ro_lapics _ Hp1)|]. intros l [Hl _]. exact (ls_enabled _ _ (enable_software_spec l Hl)). }
  set (n := length p2.(P.ioapic).(IoApic.redirection)).
  assert (live_ioapic n None (IoApic.clear_remote_irr (P.lock_ioapic p2))) as Hio.
  { destruct (clear_remote_irr_moved n (P.lock_ioapic p2)) as [Hs _]; [by apply lock_sized|]. split; [done| |].
    - apply (sinks_live _ p2.(P.lapic_clock)); [apply Hp2|done].
    - intros g e He _ Hri _. simpl in He. change (map ?f ?l) with (f <$> l) in He.
      by apply list_lookup_fmap_Some in He as (e0 & -> & _). }
  assert (P.set_mode p Apic =
    match foldo (fun io '(gsi, level) => IoApic.set_irq_level io gsi level) (imap pair p1.(P.gsi_level))
            (IoApic.clear_remote_irr (P.lock_ioapic p2)) with
    | Some io => Some (P.unlock_ioapic io p2)
    | None => None
    end) as Heq by (unfold P.set_mode; rewrite Hm; reflexivity).
  rewrite Heq in Hx. clear Heq.
  destruct (drive_list_live n (imap pair p1.(P.gsi_level)) _ Hio) as (io' & Hd & Hio' & Hw & Hst & _ & Hpin).
  { rewrite imap_pair_fst. apply NoDup_seq. }
  { intros g lv Hg%imap_pair_elem%lookup_lt_Some. change (P.gsi_level p1) with (P.gsi_level p2) in Hg.
    by rewrite (ro_levels _ Hp2) in Hg. }
  rewrite Hd in Hx. injection Hx as <-. apply (level_inv_unlock n); try done.
  - intros g. apply Hst. destruct (decide (g < n)%nat) as [Hlt|Hge].
    + left. rewrite imap_pair_fst. apply elem_of_seq. change (P.gsi_level p1) with (P.gsi_level p2).
      rewrite (ro_levels _ Hp2). fold n. lia.
    + right. intros e raw He _ _ _. apply lookup_lt_Some in He. rewrite (proj2 (li_sized _ _ _ Hio)) in He. lia.
  - intros g lv Hg. rewrite Hw. by apply Hpin, imap_pair_elem.
Qed.

(** ** Line changes *)
Lemma update_gsi_cases p gsi b p' :
  P.update_gsi_assert_count p gsi b = Some p' ->
  (exists counts, p' = P.with_gsi_assert_count counts p) \/
  exists counts lv, P.drive_gsi_effective_level
    (P.set_gsi_level_internal (P.with_gsi_assert_count counts p) gsi lv) gsi lv = Some p'.
Proof.
  unfold P.update_gsi_assert_count. destruct (p.(P.gsi_assert_count) !! Z.to_nat gsi) as [c|].
  2:{ intros [= <-]. left. exists p.(P.gsi_assert_count). by destruct p. }
  case_if; [intros [= <-]; left; exists p.(P.gsi_assert_count); by destruct p|].
  case_if; [intros [= <-]; left; by eexists|]. intros Hd. right. eauto.
Qed.

Lemma update_level_inv p gsi b :
  level_inv p -> 0 <= gsi -> exists p', P.update_gsi_assert_count p gsi b = Some p' /\ level_inv p'.
Proof.
  intros Hi Hg. pose proof (level_inv_live p Hi) as Hio. destruct Hi as [Hp Hm He Hf Hst Hpins].
  destruct (update_gsi_ok p gsi b Hp Hg) as (p' & Hu & Hp' & _). exists p'. split; [done|].
  apply update_gsi_cases in Hu as [[counts ->]|(counts & lv & Hd)]; [by split|].
  set (p1 := P.set_gsi_level_internal (P.with_gsi_assert_count counts p) gsi lv) in *.
  unfold P.drive_gsi_effective_level in Hd. change (P.mode p1) with (P.mode p) in Hd. rewrite Hm in Hd.
  unfold P.use_ioapic in Hd. change (P.lock_ioapic p1) with (P.lock_ioapic p) in Hd.
  destruct (set_irq_live _ _ (Z.to_nat gsi) lv Hio) as (io' & Hx & Hio' & _ & Hst' & Hw & Hpl).
  rewrite Hx in Hd. injection Hd as <-.
  apply (level_inv_unlock (length p.(P.ioapic).(IoApic.redirection))); try done.
  - exact (apic_flag p Hp Hm).
  - intros g. apply Hst'. right. apply Hst.
  - intros g lv' Hlv. rewrite Hpl, Hw. change (P.gsi_level p1) with (<[Z.to_nat gsi := lv]> p.(P.gsi_level)) in Hlv.
    destruct (decide (g = Z.to_nat gsi)) as [->|Hne].
    + assert (Z.to_nat gsi < length p.(P.gsi_level))%nat as Hlt.
      { apply lookup_lt_Some in Hlv. by rewrite length_insert in Hlv. }
      rewrite list_lookup_insert_eq in Hlv by done. injection Hlv as ->. apply list_lookup_insert_eq.
      rewrite (ro_levels _ Hp), <- (io_pins _ (ro_ioapic _ Hp)) in Hlt. exact Hlt.
    + rewrite list_lookup_insert_ne in Hlv by done. rewrite list_lookup_insert_ne by done. by apply Hpins.
Qed.

(** ** End of interrupt *)
Lemma eoi_lapic l eois l' :
  apic_ok l -> L.eoi l = (eois, l') ->
  L.apic_id l' = L.apic_id l /\ LapicState.ldr (L.state l') = LapicState.ldr (L.state l) /\
  LapicState.svr (L.state l') = LapicState.svr (L.state l) /\
  ((eois = [] /\ lapic_mono l l') \/
   exists v, eois = [v] /\ forall u, vector_ok u -> u <> v -> pend l u = true -> pend l' u = true).
Proof.
  intros Hl. pose proof (poll_kept l) as Hk. destruct (poll_ok l Hl) as ([Hs _] & _).
  unfold L.eoi. pose proof (eoi_spec (L.state (L.poll l)) Hs) as Hsp.
  destruct (LapicState.eoi (L.state (L.poll l))) as [[v|] s']; intros [= <- <-].
  - destruct Hsp as (_ & Hv & _ & _ & ->). split_and!; [apply Hk|apply Hk|apply Hk|]. right. exists v. split; [done|].
    intros u Hu Hne Hp. apply (lm_ok _ _ (kept_mono _ _ Hk) Hl) in Hp; [|done].
    unfold pend, in_service in *. simpl. rewrite is_set_clear by (done || apply Hs).
    rewrite (proj2 (Z.eqb_neq u v) Hne), andb_true_r. exact Hp.
  - destruct Hsp as (_ & -> & _). split_and!; [apply Hk|apply Hk|apply Hk|]. left. split; [done|].
    etrans; [by apply kept_mono|]. by split.
Qed.

Lemma served_weaken e ls ls' :
  Forall2 (fun s s' => IoApic.matches_destination e s' = IoApic.matches_destination e s /\
             (pend s.(Sink.lapic) (E.vector e) = true -> pend s'.(Sink.lapic) (E.vector e) = true)) ls ls' ->
  served e ls -> served e ls'.
Proof.
  intros Hf Hs. induction Hf as [|s s' ls ls' [Hm Hp] _ IH]; [done|].
  apply Exists_cons in Hs as [[Hma Hpe]|Hs]; [left|right; by apply IH]. rewrite Hm. auto.
Qed.

Lemma matches_same e l l' b :
  L.apic_id l' = L.apic_id l -> LapicState.ldr (L.state l') = LapicState.ldr (L.state l) ->
  IoApic.matches_destination e (Sink.mk l' b) = IoApic.matches_destination e (Sink.mk l b).
Proof.
  intros Hid Hldr. unfold IoApic.matches_destination. cbn. unfold LapicState.matches_logical_dest. rewrite Hldr.
  change (LapicState.id (L.state l')) with (L.apic_id l'). change (LapicState.id (L.state l)) with (L.apic_id l).
  by rewrite Hid.
Qed.

Lemma insert_Forall2 {A} (R : relation A) i (ls : list A) l l' :
  Reflexive R -> ls !! i = Some l -> R l l' -> Forall2 R ls (<[i := l']> ls).
Proof.
  intros Hr. revert i. induction ls as [|x ls IH]; intros [|i] Hi Hm; simplify_eq/=; constructor; try done. by apply IH.
Qed.

Lemma eoi_level_inv p cpu : level_inv p -> exists p', P.lapic_eoi p cpu = Some p' /\ level_inv p'.
Proof.
  intros Hi. pose proof (level_inv_live p Hi) as [Hs Hl _]. pose proof Hi as [Hp Hm He Hf Hst Hpins].
  destruct (lapic_eoi_ok p cpu Hp) as (p' & Hx & [Hp' _]). exists p'. split; [done|]. unfold P.lapic_eoi in Hx.
  destruct (p.(P.lapics) !! cpu) as [l|] eqn:Hc; [|by injection Hx as <-].
  destruct (lookup_lapic_ok _ _ _ Hp Hc) as [Hlok _]. destruct (L.eoi l) as [eois l'] eqn:Heo.
  destruct (eoi_lapic l eois l' Hlok Heo) as (Hid & Hldr & Hsvr & [[-> Hmono]|(v & -> & Hpend)]).
  { injection Hx as <-. apply level_inv_lapics; [done|done|]. by eapply insert_mono. }
  set (p1 := P.with_lapics (<[cpu := l']> p.(P.lapics)) p) in *.
  assert (router_ok p1) as Hp1.
  { apply insert_lapic_ok; [done|]. pose proof (lookup_lapic_ok _ _ _ Hp Hc) as Hln.
    pose proof (step_lapic_ok _ _ _ (lstep_eoi l) (eoi_now l) Hln) as Hln'. by rewrite Heo in Hln'. }
  assert (forall e, Forall2 (fun s s' => IoApic.matches_destination e s' = IoApic.matches_destination e s /\
     (E.vector e <> v -> vector_ok (E.vector e) -> pend s.(Sink.lapic) (E.vector e) = true ->
      pend s'.(Sink.lapic) (E.vector e) = true)) (P.lock_ioapic p).(IoApic.lapics) (P.lock_ioapic p1).(IoApic.lapics)) as Hsinks.
  { intros e. simpl. change (map ?f ?l) with (f <$> l). rewrite list_fmap_insert.
    apply (insert_Forall2 _ _ _ (Sink.mk l p.(P.apic_enabled))); [by intros s|by rewrite list_lookup_fmap, Hc|].
    split; [by apply matches_same|]. intros Hne Hv. by apply Hpend. }
  assert (live_ioapic (length p.(P.ioapic).(IoApic.redirection)) (Some v) (P.lock_ioapic p1)) as Hio1.
  { split; [exact (lock_sized p1 Hp1)| |].
    - simpl. rewrite (apic_flag p Hp Hm). apply (sinks_live _ p1.(P.lapic_clock)); [apply Hp1|].
      apply Forall_insert; [done|]. pose proof (Forall_lookup_1 _ _ _ _ He Hc) as Hle.
      unfold L.enabled, LapicState.enabled in *. by rewrite Hsvr.
    - intros g e Hg Hlv Hri Hx1. apply (served_weaken e (P.lock_ioapic p).(IoApic.lapics)).
      + eapply Forall2_impl; [apply Hsinks|]. intros s s' [? Hpe]. split; [done|]. apply Hpe; [congruence|].
        apply (entry_vector _ _ _ _ Hs Hg).
      + by apply (Hf g e). }
  assert (forall g, settled (P.lock_ioapic p1) g) as Hst1.
  { intros g e raw Hg Hr Hd Hre. apply (Hst g e raw Hg Hr Hd). rewrite <- Hre. specialize (Hsinks e). clear -Hsinks.
    induction Hsinks as [|s s' ls ls' [Hm _] _ IH]; simpl; [done|]. by rewrite IH, Hm. }
  destruct (notify_eoi_live _ v _ Hio1 Hst1) as (io' & Hn & Hio' & _ & Hst' & Hw & Hpl).
  unfold foldo in Hx. simpl in Hx. unfold P.eoi_notifier, P.use_ioapic in Hx. rewrite Hn in Hx. injection Hx as <-.
  apply (level_inv_unlock (length p.(P.ioapic).(IoApic.redirection))); try done; [exact (apic_flag p Hp Hm)|].
  intros g lv Hg. rewrite Hpl, Hw. by apply Hpins.
Qed.

(** ** Interrupt service *)
(** Line changes, time, message-signalled interrupts, and what CPUs do to take
    and end interrupts: through the vCPU interface, or by a write to the EOI
    register. *)
Definition service (c : call) : bool :=
  match c with
  | RaiseIrq _ | LowerIrq _ | GetPending _ | Acknowledge _ _ | Eoi _ _ | SyncCr8 _ _ | LapicRead _ _ _
  | Tick _ | TriggerMsi _ | TakeInit _ | TakeSipi _ => true
  | LapicWrite _ offset data => (offset =? REG_EOI) && (length data =? 4)%nat
  | _ => false
  end.

Lemma eoi_write_eq p cpu data :
  router_ok p -> Forall byte_ok data -> length data = 4%nat ->
  P.lapic_mmio_write_for_cpu p cpu REG_EOI data = P.lapic_eoi p cpu.
Proof.
  intros Hp Hd Hl. unfold P.lapic_mmio_write_for_cpu, P.lapic_eoi.
  destruct (p.(P.lapics) !! cpu) as [l|] eqn:Hc; [|done]. destruct (lookup_lapic_ok _ _ _ Hp Hc) as [Hok _].
  rewrite <- (to_from_le_bytes data) by done. rewrite Hl.
  destruct (lapic_mmio_word l REG_EOI (from_le_bytes data)) as [_ ->]; try done.
  { pose proof (from_le_bytes_uint data Hd) as Hu. by rewrite Hl in Hu. }
  unfold L.eoi. change (LapicState.write_u32 ?s ?t REG_EOI ?v) with (LapicState.eoi s).
  destruct (LapicState.eoi (L.state (L.poll l))) as [[v|] s']; done.
Qed.

Lemma inject_mono l v : vector_ok v -> lapic_mono l (L.inject_fixed_interrupt l v).
Proof. intros Hv. by apply kept_mono, inject_kept. Qed.

Lemma msi_level_inv p m : level_inv p -> level_inv (P.trigger_msi p m).
Proof.
  intros Hi. destruct (trigger_msi_ok p m (lv_ok _ Hi)) as [Hok _]. revert Hok.
  assert (vector_ok (MsiMessage.vector m)) as Hv.
  { unfold MsiMessage.vector. change 0x00ff with (Z.ones 8). rewrite land_ones_mod by lia. by apply Z.mod_pos_bound. }
  unfold P.trigger_msi, P.inject_fixed_broadcast, P.inject_fixed_for_apic.
  repeat case_if; intros Hok; try done; try (apply level_inv_lapics; [done|done|]).
  - apply map_mono, Forall_true. intros l. by apply inject_mono.
  - apply map_mono, Forall_true. intros l. case_if; [by apply inject_mono|done].
  - apply map_mono, Forall_true. intros l. by apply inject_mono.
  - destruct (P.lapic_for_apic_id _ _); [|done]. apply level_inv_lapics; [done|done|].
    apply alter_mono. intros l. by apply inject_mono.
Qed.

Lemma tick_level_inv p d : level_inv p -> level_inv (P.tick p d).
Proof.
  intros Hi. assert (uint 64 (wrapping_add 64 p.(P.lapic_clock) d)) as Hn by (apply uint_wrap; lia).
  pose proof (tick_ok p d (lv_ok _ Hi)) as Hok.
  set (ls := map L.poll (map (fun l => L.mk (wrapping_add 64 p.(P.lapic_clock) d) (L.state l)) p.(P.lapics))).
  assert (Forall2 lapic_mono p.(P.lapics) ls) as Hm.
  { unfold ls. rewrite map_map. apply map_mono, Forall_true. intros l.
    etrans; [by apply (now_mono l _ Hn)|]. apply kept_mono, poll_kept. }
  assert (Forall2 sink_mono (P.lock_ioapic p).(IoApic.lapics) (P.lock_ioapic (P.tick p d)).(IoApic.lapics)) as Hsm
    by (by apply sinks_mono).
  pose proof (level_inv_live p Hi) as [Hs Hl _]. destruct Hi as [Hp Hmo He Hf Hst Hpins]. split; try done.
  - pose proof (lives_mono _ _ Hsm Hl) as Hl'. simpl in Hl'. rewrite Forall_map in Hl'.
    eapply Forall_impl; [exact Hl'|]. by intros l (_ & ? & _).
  - intros g e Hg Hlv Hri Hx. apply (served_mono e _ _ (entry_vector _ _ _ _ Hs Hg) Hl Hsm). by apply (Hf g e).
  - intros g e raw Hg Hr Hd Hm'. apply (Hst g e raw Hg Hr Hd). rewrite <- Hm'. symmetry. apply (reached_mono _ _ _ Hsm).
Qed.

Lemma read_mono l off n : lapic_mono l (L.mmio_read l off n).2.
Proof. unfold L.mmio_read. destruct n; simpl; [done|]. apply kept_mono, poll_kept. Qed.

Lemma service_level_inv p c :
  level_inv p -> call_ok c -> service c = true -> exists p', exec_call p c = Some p' /\ level_inv p'.
Proof.
  intros Hi Hc Hs. pose proof Hi as [Hp Hm _ _ _ _].
  destruct c; try done; cbn [exec_call call_ok] in *; try (eexists; split; [reflexivity|]).
  - apply update_level_inv; [done|]. by apply gsi_of_input_nonneg.
  - apply update_level_inv; [done|]. by apply gsi_of_input_nonneg.
  - destruct (neutral_call_ok p (SyncCr8 cpu cr8) Hp I eq_refl) as (p' & [= <-] & Hok & _). revert Hok.
    unfold P.sync_cr8_tpr_for_cpu. rewrite Hm. intros Hok. apply level_inv_lapics; [done|done|].
    apply alter_mono. intros l. apply tpr_mono.
  - destruct (get_pending_ok p cpu Hp) as [Hok _]. revert Hok. unfold P.get_pending_for_cpu. rewrite Hm.
    destruct (p.(P.lapics) !! cpu) as [l|] eqn:Hl; [|done].
    assert ((L.get_pending_vector l).2 = L.poll l) as Hpo by (unfold L.get_pending_vector; by case_if).
    destruct (L.get_pending_vector l) as [v l']. simpl in *. subst l'. intros Hok.
    apply level_inv_lapics; [done|done|]. eapply insert_mono; [done|]. apply kept_mono, poll_kept.
  - destruct (acknowledge_ok p cpu vector Hp Hc) as [Hok _]. revert Hok. unfold P.acknowledge_for_cpu. rewrite Hm.
    intros Hok. apply level_inv_lapics; [done|done|]. apply alter_mono. intros l. by apply ack_mono.
  - unfold P.eoi_for_cpu. rewrite Hm. by apply eoi_level_inv.
  - destruct (lapic_read_ok p cpu offset len Hp) as [Hok _]. revert Hok. unfold P.lapic_mmio_read_for_cpu.
    destruct (p.(P.lapics) !! cpu) as [l|] eqn:Hl; [|done]. pose proof (read_mono l offset len) as Hr.
    destruct (L.mmio_read l offset len) as [d l']. intros Hok. apply level_inv_lapics; [done|done|]. by eapply insert_mono.
  - simpl in Hs. apply andb_true_iff in Hs as [->%Z.eqb_eq Hl%Nat.eqb_eq].
    rewrite eoi_write_eq by done. by apply eoi_level_inv.
  - by apply tick_level_inv.
  - destruct (neutral_call_ok p (TakeInit cpu) Hp I eq_refl) as (p' & [= <-] & Hok & _). by destruct Hi.
  - destruct (neutral_call_ok p (TakeSipi cpu) Hp I eq_refl) as (p' & [= <-] & Hok & _). by destruct Hi.
  - by apply msi_level_inv.
Qed.

Lemma service_run p cs :
  router_ok p -> p.(P.mode) = LegacyPic -> Forall call_ok cs -> Forall (fun c => service c = true) cs ->
  exists p1 p2, P.set_mode p Apic = Some p1 /\ foldo exec_call cs p1 = Some p2 /\ level_inv p2.
Proof.
  intros Hp Hm Hcs Hsv. destruct (enter_apic_mode p Hp Hm) as (p1 & Hx & Hi). exists p1.
  destruct (foldo_inv level_inv exec_call cs p1) as (p2 & Hr & Hi2); [|done|by exists p2].
  intros q c Hin Hq. apply service_level_inv; [done|by apply (proj1 (Forall_forall _ _) Hcs)|].
  by apply (proj1 (Forall_forall _ _) Hsv).
Qed.

(** C2: No level-triggered interrupt is lost while interrupts are served.  A
    router switches to APIC mode; then lines change, time passes, messages
    arrive and CPUs take and end interrupts, by EOI calls or four-byte writes
    of the EOI register.  At every moment an asserted line whose redirection
    entry is level-triggered, unmasked, fixed or lowest-priority and names at
    least one CPU has its vector requested or in service at a CPU the entry
    names.  The calls of [service] exclude writes of the I/O APIC, other writes
    of the local APICs (so IPIs and INIT), resets and further mode switches,
    which may drop the interrupt. *)
Theorem router_level_not_lost p cs :
  router_ok p -> p.(P.mode) = LegacyPic -> Forall call_ok cs -> Forall (fun c => service c = true) cs ->
  exists p1 p2, P.set_mode p Apic = Some p1 /\ foldo exec_call cs p1 = Some p2 /\
    forall g lv e, p2.(P.gsi_level) !! g = Some lv -> p2.(P.ioapic).(IoApic.redirection) !! g = Some e ->
      E.trigger_mode e = Ioapic.Level -> E.mask e = false -> E.delivery_mode e <= 1 ->
      E.interpret_level e (xorb lv (default false (p2.(P.ioapic).(IoApic.pin_active_low) !! g))) = true ->
      (exists l, l ∈ p2.(P.lapics) /\ IoApic.matches_destination e l = true) ->
      exists l, l ∈ p2.(P.lapics) /\ IoApic.matches_destination e l = true /\ pend l (E.vector e) = true.
Proof.
  intros Hp Hm Hcs Hsv. destruct (service_run p cs Hp Hm Hcs Hsv) as (p1 & p2 & Hx & Hr & Hi2). exists p1.
  exists p2. split; [done|]. split; [done|]. intros g lv e Hg He Hlv Hmk Hdm Hil (l & Hin & Hl).
  destruct Hi2 as [Hp2 Hm2 _ Hf Hst Hpins].
  assert (E.remote_irr e = true) as Hri.
  { apply (Hst g e _ He (Hpins g lv Hg)); [done|]. apply existsb_exists. exists (Sink.mk l p2.(P.apic_enabled)).
    split; [|done]. apply in_map_iff. exists l. split; [done|]. by apply list_elem_of_In. }
  assert (served e (P.lock_ioapic p2).(IoApic.lapics)) as Hse by (by apply (Hf g e)).
  apply Exists_exists in Hse as (s & Hs%list_elem_of_In & Hma & Hpe).
  apply in_map_iff in Hs as (l' & <- & Hl'%list_elem_of_In). by exists l'.
Qed.

(** The interrupt of line 10 after it has been taken and ended, the device
    still asking for service. *)
Definition demo_service : list call :=
  [RaiseIrq (Gsi 10); GetPending 0; Acknowledge 0 0x60; LapicWrite 0 0xB0 [0; 0; 0; 0]].

Definition demo_served : P.t := after 2 (demo_setup ++ SetMode Apic :: demo_service).
Definition demo_entry : E.t := E.mk 0x60 0 false false Ioapic.Level false 0 true.

Lemma demo_served_line :
  demo_served.(P.gsi_level) !! 10%nat = Some true /\
  demo_served.(P.ioapic).(IoApic.redirection) !! 10%nat = Some demo_entry /\
  demo_served.(P.ioapic).(IoApic.pin_active_low) !! 10%nat = Some false /\
  existsb (IoApic.matches_destination demo_entry) demo_served.(P.lapics) = true.
Proof. vm_compute. done. Qed.

Lemma router_level_not_lost_witness :
  exists p1 p2, P.set_mode (after 2 demo_setup) Apic = Some p1 /\ foldo exec_call demo_service p1 = Some p2 /\
    exists l, l ∈ p2.(P.lapics) /\ pend l 0x60 = true.
Proof.
  destruct (router_level_not_lost (after 2 demo_setup) demo_service) as (p1 & p2 & H1 & H2 & Hall).
  - apply after_ok; [lia|apply demo_setup_ok].
  - vm_compute. reflexivity.
  - solve_calls.
  - solve_calls.
  - exists p1, p2. split; [exact H1|]. split; [exact H2|].
    assert (Some p2 = Some demo_served) as Heq.
    { transitivity (match P.set_mode (after 2 demo_setup) Apic with
                    | Some p => foldo exec_call demo_service p | None => None end).
      - by rewrite H1, H2.
      - vm_compute. reflexivity. }
    apply Some_inj in Heq. destruct demo_served_line as (Hg & He & Ha & Hm). rewrite <- Heq in Hg, He, Ha, Hm.
    destruct (Hall 10%nat true demo_entry Hg He) as (l & Hl & _ & Hp); [reflexivity|reflexivity|simpl; lia| |..].
    + rewrite Ha. reflexivity.
    + apply existsb_exists in Hm as (l & Hl%list_elem_of_In & Hm). exists l. split; [exact Hl|exact Hm].
    + exists l. split; [exact Hl|exact Hp].
Defined.
