(* ===== verification/RouterSnap.v ===== *)
(** * Snapshots of the whole interrupt complex

    What [save_state] writes, field by field, is what [load_state] reads back,
    the nested snapshots of the PICs, the I/O APIC and the local APICs
    included; the last step of a load, the redelivery of asserted lines, has
    nothing to do when the saved machine had nothing left to deliver. *)

From S2P Require Import Prelude Bytes Collections Snapshot SnapshotFacts Pic PicFacts PicProps Lapic LapicFacts LapicProps Ioapic.
From S2P Require Import IoapicFacts IoapicProps Router RouterFacts RouterProps RouterLevel.
Import RouterSnapshot.

Section Roundtrip.
Context `{Target}.

(** ** The local APICs *)
Definition lapic_record (l : L.t) : list Z :=
  to_le_bytes 8 (Z.of_nat (length (LapicSnapshot.save_state l))) ++ LapicSnapshot.save_state l.

Lemma encode_lapics_eq ls :
  encode_lapics ls = to_le_bytes 4 (wrap 32 (Z.of_nat (length ls))) ++ concat (map lapic_record ls).
Proof.
  unfold encode_lapics, Encoder.finish, Encoder.u32, Encoder.new. cbn [app].
  generalize (to_le_bytes 4 (wrap 32 (Z.of_nat (length ls)))). induction ls as [|l ls IH]; intros e;
    cbn [fold_left map concat].
  - by rewrite app_nil_r.
  - rewrite IH. unfold lapic_record, Encoder.bytes, Encoder.u64. by rewrite <- !app_assoc.
Qed.

Lemma save_state_length l :
  apic_ok l -> 0 < Z.of_nat (length (LapicSnapshot.save_state l)) <= 1000.
Proof.
  intros [Hs _]. rewrite save_state_eq. split; [|by apply save_length].
  unfold SnapshotWriter.finish. rewrite length_app. cbn [length MAGIC]. lia.
Qed.

Lemma lapic_records_length ls :
  Forall apic_ok ls -> Z.of_nat (length (concat (map lapic_record ls))) <= 1008 * Z.of_nat (length ls).
Proof.
  induction 1 as [|l ls Hl _ IH]; cbn [map concat length]; [lia|]. pose proof (save_state_length l Hl).
  unfold lapic_record at 1. rewrite !length_app, to_le_bytes_length. lia.
Qed.

(** What restoring one local APIC gives: the saved registers on its own clock. *)
Definition restored_lapics (ls ls0 : list L.t) : list L.t :=
  zip_with (fun l l0 => L.with_state (L.state l) l0) ls ls0.

Lemma load_lapics_ahead ls ls0 d rest :
  Forall apic_ok ls -> Forall apic_ok ls0 -> length ls = length ls0 ->
  ahead d (concat (map lapic_record ls) ++ rest) ->
  exists d', load_lapics ls0 d = (Ok d', restored_lapics ls ls0) /\ ahead d' rest.
Proof.
  intros Hls. revert ls0 d. induction Hls as [|l ls Hl _ IH]; intros [|l0 ls0] d Hls0 Hlen Ha; try done.
  { by exists d. }
  apply Forall_cons in Hls0 as [Hl0 Hls0]. pose proof (save_state_length l Hl) as Hsz. pose proof usize_max_ge.
  cbn [map concat] in Ha. unfold lapic_record in Ha at 1. rewrite <- !app_assoc in Ha.
  assert (uint 64 (Z.of_nat (length (LapicSnapshot.save_state l)))) as Hu by (unfold uint; lia).
  destruct (u64_ahead d _ _ Hu Ha) as (d1 & T1 & A1).
  destruct (take_ahead d1 _ _ A1) as (d2 & T2 & A2). cbn [load_lapics].
  assert (Decoder.u64 d = (Ok (Z.of_nat (length (LapicSnapshot.save_state l))), d1)) as -> by exact T1.
  rewrite (proj2 (Z.ltb_ge _ _)) by lia.
  rewrite (proj2 (Z.eqb_neq _ _)), (proj2 (Z.ltb_ge _ _)) by lia. cbn [orb].
  unfold Decoder.bytes. rewrite T2.
  pose proof (lapic_save_load l l0 Hl Hl0) as Hr. unfold LapicSnapshot.load_state in Hr. rewrite Hr.
  destruct (IH ls0 d2 Hls0 ltac:(by injection Hlen) A2) as (d3 & -> & A3). by exists d3.
Qed.

Lemma load_lapics_field_ok ls ls0 :
  Forall apic_ok ls -> Forall apic_ok ls0 -> length ls = length ls0 -> (1 <= length ls <= 255)%nat ->
  load_lapics_field (encode_lapics ls) ls0 = (Ok tt, restored_lapics ls ls0).
Proof.
  intros Hls Hls0 Hlen Hn. pose proof (lapic_records_length ls Hls). pose proof usize_max_ge.
  assert (uint 32 (Z.of_nat (length ls))) as Hu by (unfold uint; lia).
  assert (ahead (Decoder.new (encode_lapics ls))
    (to_le_bytes 4 (Z.of_nat (length ls)) ++ concat (map lapic_record ls) ++ [])) as Ha.
  { rewrite app_nil_r, encode_lapics_eq, wrap_small by done. apply ahead_new.
    rewrite length_app, to_le_bytes_length. lia. }
  destruct (u32_ahead _ _ _ Hu Ha) as (d1 & T1 & A1). unfold load_lapics_field.
  assert (Decoder.u32 (Decoder.new (encode_lapics ls)) = (Ok (Z.of_nat (length ls)), d1)) as -> by exact T1.
  rewrite (proj2 (Z.eqb_neq _ 0)), (proj2 (Z.ltb_ge _ _)) by lia. rewrite Hlen, Z.eqb_refl. cbn [orb negb].
  destruct (load_lapics_ahead ls ls0 d1 [] Hls Hls0 Hlen A1) as (d2 & -> & A2).
  by rewrite (finish_ahead _ _ A2).
Qed.

Lemma load_isa_ok ws ws0 :
  length ws0 = length ws -> Forall (uint 32) ws -> length ws = 16%nat ->
  load_isa_irq_to_gsi (LapicSnapshot.encode_words ws) ws0 = (Ok tt, ws).
Proof.
  intros Hl Hw Hn. pose proof usize_max_ge. unfold load_isa_irq_to_gsi.
  assert (ahead (Decoder.new (LapicSnapshot.encode_words ws)) (concat (map (to_le_bytes 4) ws) ++ [])) as Ha.
  { rewrite app_nil_r, <- encode_words_eq. apply ahead_new. rewrite encode_words_length. lia. }
  destruct (read_words_ahead ws0 ws _ [] Hl Hw Ha) as (d' & -> & Ha').
  by rewrite (finish_ahead _ _ Ha').
Qed.

(** The size of a container. *)
Lemma insert_tlv_length k v m :
  (length (concat (map SnapshotWriter.field_tlv (BTreeMap.insert k v m)))
   <= 6 + length v + length (concat (map SnapshotWriter.field_tlv m)))%nat.
Proof.
  assert (forall f, length (SnapshotWriter.field_tlv f) = (6 + length f.2)%nat) as Hf.
  { intros f. unfold SnapshotWriter.field_tlv. rewrite !length_app, !to_le_bytes_length. lia. }
  induction m as [|[k' v'] m IH]; cbn [BTreeMap.insert map concat].
  - rewrite length_app, Hf. simpl. lia.
  - repeat case_if; cbn [map concat]; rewrite ?length_app, ?Hf; cbn [snd]; lia.
Qed.

Lemma put_all_size w puts :
  Z.of_nat (length (SnapshotWriter.finish (put_all w puts))) <=
  Z.of_nat (length (SnapshotWriter.finish w)) + sumZ (fun f => 6 + Z.of_nat (length f.2)) puts.
Proof.
  revert w. induction puts as [|f puts IH]; intros w; cbn [put_all fold_left sumZ]; [unfold put_all; simpl; lia|].
  specialize (IH (SnapshotWriter.field_bytes w f.1 f.2)). fold (put_all (SnapshotWriter.field_bytes w f.1 f.2) puts).
  pose proof (insert_tlv_length f.1 f.2 w.(SnapshotWriter.fields)) as Hi.
  assert (Z.of_nat (length (SnapshotWriter.finish (SnapshotWriter.field_bytes w f.1 f.2))) <=
          Z.of_nat (length (SnapshotWriter.finish w)) + 6 + Z.of_nat (length f.2)) as Hs; [|lia].
  unfold SnapshotWriter.finish. cbn [SnapshotWriter.field_bytes SnapshotWriter.device_id SnapshotWriter.device_version
    SnapshotWriter.fields]. rewrite !length_app. lia.
Qed.

(** ** The fields *)
Definition router_puts (p : P.t) : list (Z * list Z) :=
  [(TAG_MODE, [match p.(P.mode) with LegacyPic => 0 | Apic => 1 end]);
   (TAG_ISA_IRQ_TO_GSI, LapicSnapshot.encode_words p.(P.isa_irq_to_gsi));
   (TAG_IMCR_SELECT, [p.(P.imcr_select)]); (TAG_IMCR, [p.(P.imcr)]);
   (TAG_GSI_LEVEL, IoApicSnapshot.encode_bools p.(P.gsi_level));
   (TAG_LAPIC_CLOCK_NOW_NS, to_le_bytes 8 p.(P.lapic_clock));
   (TAG_PIC, PicSnapshot.save_state p.(P.pic).(PlatformPic.inner));
   (TAG_IOAPIC, IoApicSnapshot.save_state p.(P.ioapic));
   match p.(P.lapics) with
   | [l] => (TAG_LAPIC, LapicSnapshot.save_state l)
   | ls => (TAG_LAPICS, encode_lapics ls)
   end].

Lemma router_save_eq p :
  save_state p = SnapshotWriter.finish (put_all (SnapshotWriter.new DEVICE_ID DEVICE_VERSION) (router_puts p)).
Proof. unfold save_state, router_puts. by destruct (P.lapics p) as [|l [|]]. Qed.

Lemma router_puts_ok p :
  router_ok p -> Forall field_ok (router_puts p) /\ sumZ (fun f => 6 + Z.of_nat (length f.2)) (router_puts p) <= 1000000.
Proof.
  intros Hp. pose proof (ro_ioapic _ Hp) as Hio. pose proof (io_count _ Hio) as Hc.
  assert (Forall apic_ok p.(P.lapics)) as Hls by (eapply Forall_impl; [apply (ro_lapics _ Hp)|]; by intros l [? _]).
  pose proof (ro_cpus _ Hp) as Hn. pose proof (lapic_records_length _ Hls) as Hrl.
  assert (Z.of_nat (length (IoApicSnapshot.save_state p.(P.ioapic))) <= 50000) as Hil.
  { change (IoApicSnapshot.save_state p.(P.ioapic)) with (SnapshotWriter.finish (ioapic_writer p.(P.ioapic))).
    change (SnapshotWriter.finish (ioapic_writer p.(P.ioapic))) with
      (SnapshotWriter.finish (SnapshotWriter.mk IoApicSnapshot.DEVICE_ID IoApicSnapshot.DEVICE_VERSION (ioapic_puts p.(P.ioapic)))).
    unfold SnapshotWriter.finish, ioapic_puts, SnapshotWriter.field_tlv. cbn [map concat fst snd SnapshotWriter.fields].
    repeat (rewrite ?length_app, ?to_le_bytes_length, ?encode_bools_length, ?encode_redirection_length; cbn [length]).
    pose proof (io_wiring _ Hio). pose proof (io_pins _ Hio).
    cbn [length MAGIC SnapshotWriter.device_id]. lia. }
  assert (length (PicSnapshot.save_state p.(P.pic).(PlatformPic.inner)) = 54%nat) as Hpl by reflexivity.
  assert (exists f, last (router_puts p) = Some f /\ uint 16 f.1 /\ Z.of_nat (length f.2) <= 500000 /\
    router_puts p = take 8 (router_puts p) ++ [f]) as (f & _ & Hf1 & Hf2 & Hf).
  { unfold router_puts. pose proof (ro_lapics _ Hp) as _.
    destruct (p.(P.lapics)) as [|l [|l2 ls]] eqn:El; (eexists; split; [reflexivity|]; split; [done|]; split; [|reflexivity]).
    - cbn [snd]. rewrite encode_lapics_eq, length_app, to_le_bytes_length. simpl in Hn. lia.
    - cbn [snd]. apply Forall_cons in Hls as [Hl _]. pose proof (save_state_length l Hl). lia.
    - cbn [snd]. rewrite encode_lapics_eq, length_app, to_le_bytes_length. lia. }
  pose proof (encode_words_length p.(P.isa_irq_to_gsi)) as Hw. rewrite (proj1 (ro_isa _ Hp)) in Hw.
  pose proof (encode_bools_length p.(P.gsi_level)) as Hb. rewrite (ro_levels _ Hp) in Hb.
  rewrite Hf. unfold router_puts. cbn [take app]. split.
  - repeat (apply Forall_cons; split; [split; [done|]; cbn [snd]; unfold uint; rewrite ?Hw, ?Hb, ?Hpl, ?to_le_bytes_length;
      cbn [length]; lia|]). by apply Forall_nil.
  - cbn [sumZ snd]. rewrite Hw, Hb, Hpl, to_le_bytes_length. cbn [length]. lia.
Qed.

Lemma router_save_parse p :
  router_ok p ->
  SnapshotReader.parse (save_state p) DEVICE_ID =
  Ok (SnapshotReader.mk (SnapshotHeader.mk FORMAT_VERSION DEVICE_ID DEVICE_VERSION)
        (put_all (SnapshotWriter.new DEVICE_ID DEVICE_VERSION) (router_puts p)).(SnapshotWriter.fields)).
Proof.
  intros Hp. destruct (router_puts_ok p Hp) as [Hok Hlen]. pose proof usize_max_ge. rewrite router_save_eq.
  set (w := put_all _ _).
  assert (SnapshotWriter.device_id w = DEVICE_ID /\ SnapshotWriter.device_version w = DEVICE_VERSION) as [Hi Hv]
    by apply put_all_header.
  pose proof (parse_finish w) as Hpf. rewrite Hi, Hv in Hpf. apply Hpf.
  - apply put_all_ok; [by apply new_writer_ok|done].
  - pose proof (put_all_length (SnapshotWriter.new DEVICE_ID DEVICE_VERSION) (router_puts p)) as Hl. fold w in Hl.
    change (length (SnapshotWriter.fields (SnapshotWriter.new DEVICE_ID DEVICE_VERSION))) with 0%nat in Hl.
    change (length (router_puts p)) with 9%nat in Hl. lia.
  - pose proof (put_all_size (SnapshotWriter.new DEVICE_ID DEVICE_VERSION) (router_puts p)) as Hl. fold w in Hl.
    change (length (SnapshotWriter.finish (SnapshotWriter.new DEVICE_ID DEVICE_VERSION))) with 16%nat in Hl. lia.
Qed.

(** ** The restored state, before the final synchronisation *)
Definition restored (p p0 : P.t) : P.t :=
  let d := p.(P.pic).(PlatformPic.inner) in
  P.mk p.(P.mode) p.(P.isa_irq_to_gsi) p.(P.gsi_level) p.(P.gsi_level) (map (fun _ => 0) p.(P.gsi_level))
    p0.(P.irq_line_generation)
    (PlatformPic.mk d (DualPic8259.vector_bases d).1 (DualPic8259.vector_bases d).2)
    p.(P.ioapic) p.(P.lapics) p.(P.lapic_clock) p.(P.apic_enabled)
    (map (fun _ => false) p.(P.lapics)) (map (fun _ => None) p.(P.lapics)) p.(P.imcr_select) p.(P.imcr).

(** The bytes under each tag. *)
Record router_saved (p : P.t) (r : SnapshotReader.t) : Prop := {
  rs_mode : SnapshotReader.bytes r TAG_MODE = Some [match p.(P.mode) with LegacyPic => 0 | Apic => 1 end];
  rs_isa : SnapshotReader.bytes r TAG_ISA_IRQ_TO_GSI = Some (LapicSnapshot.encode_words p.(P.isa_irq_to_gsi));
  rs_select : SnapshotReader.bytes r TAG_IMCR_SELECT = Some [p.(P.imcr_select)];
  rs_imcr : SnapshotReader.bytes r TAG_IMCR = Some [p.(P.imcr)];
  rs_level : SnapshotReader.bytes r TAG_GSI_LEVEL = Some (IoApicSnapshot.encode_bools p.(P.gsi_level));
  rs_clock : SnapshotReader.bytes r TAG_LAPIC_CLOCK_NOW_NS = Some (to_le_bytes 8 p.(P.lapic_clock));
  rs_pic : SnapshotReader.bytes r TAG_PIC = Some (PicSnapshot.save_state p.(P.pic).(PlatformPic.inner));
  rs_ioapic : SnapshotReader.bytes r TAG_IOAPIC = Some (IoApicSnapshot.save_state p.(P.ioapic));
  rs_lapics :
    match p.(P.lapics) with
    | [l] => SnapshotReader.bytes r TAG_LAPICS = None /\
             SnapshotReader.bytes r TAG_LAPIC = Some (LapicSnapshot.save_state l)
    | ls => SnapshotReader.bytes r TAG_LAPICS = Some (encode_lapics ls)
    end;
}.

Lemma saved_fields p h :
  router_saved p (SnapshotReader.mk h
    (put_all (SnapshotWriter.new DEVICE_ID DEVICE_VERSION) (router_puts p)).(SnapshotWriter.fields)).
Proof.
  assert (forall tag, SnapshotReader.bytes (SnapshotReader.mk h
    (put_all (SnapshotWriter.new DEVICE_ID DEVICE_VERSION) (router_puts p)).(SnapshotWriter.fields)) tag =
    last_put (router_puts p) tag) as Hget by (intros tag; apply put_all_get).
  split; [rewrite Hget; unfold router_puts; by destruct (P.lapics p) as [|l [|l2 ls]]..|].
  destruct (P.lapics p) as [|l [|l2 ls]] eqn:El; rewrite ?Hget; unfold router_puts; rewrite El; done.
Qed.

Lemma restored_lapics_same ls ls0 clock :
  length ls = length ls0 -> Forall (fun l => apic_ok l /\ L.now l = clock) ls ->
  restored_lapics ls (map (fun l => L.mk clock (L.state l)) ls0) = ls.
Proof.
  unfold restored_lapics. intros Hl Hf. revert ls0 Hl.
  induction Hf as [|[now s] ls [_ Hn] _ IH]; intros [|l0 ls0] Hl; try done. simpl in *. subst.
  by rewrite IH by (by injection Hl).
Qed.

(** One step of the load. *)
Lemma lift_opt {A} (set : A -> P.t -> P.t) o a p :
  o = Ok (Some a) -> lift (load_opt set o) p = (Ok tt, set a p).
Proof. by intros ->. Qed.

Lemma load_lapic_part p p1 r :
  Forall apic_ok p.(P.lapics) -> Forall apic_ok p1.(P.lapics) -> length p.(P.lapics) = length p1.(P.lapics) ->
  (1 <= length p.(P.lapics) <= 255)%nat -> router_saved p r ->
  match SnapshotReader.bytes r TAG_LAPICS with
  | Some buf => load_part P.lapics P.with_lapics (load_lapics_field buf)
  | None => if_field r TAG_LAPIC load_lapic0
  end p1 = (Ok tt, P.with_lapics (restored_lapics p.(P.lapics) p1.(P.lapics)) p1).
Proof.
  intros Hls Hls1 Hlen Hn Hs. pose proof (rs_lapics _ _ Hs) as Hr.
  pose proof (load_lapics_field_ok _ _ Hls Hls1 Hlen Hn) as Hf.
  destruct (P.lapics p) as [|l [|l2 ls]]; [simpl in Hn; lia| |].
  - destruct Hr as [-> Hr]. unfold if_field. rewrite Hr. unfold load_lapic0.
    destruct (P.lapics p1) as [|l1 [|]]; try done.
    apply Forall_cons in Hls as [Hl _]. apply Forall_cons in Hls1 as [Hl1 _].
    pose proof (lapic_save_load l l1 Hl Hl1) as Hw. unfold LapicSnapshot.load_state in Hw. by rewrite Hw.
  - rewrite Hr. unfold load_part. by rewrite Hf.
Qed.

Lemma load_router_fields p p0 r :
  router_ok p -> router_ok p0 -> length p.(P.lapics) = length p0.(P.lapics) -> router_saved p r ->
  load_fields r p0 = unwrap resync (restored p p0).
Proof.
  intros Hp Hp0 Hlen Hs. pose proof Hs as [E1 E2 E3 E4 E5 E6 E7 E8 _].
  assert (Forall apic_ok p.(P.lapics)) as Hls by (eapply Forall_impl; [apply (ro_lapics _ Hp)|]; by intros l [? _]).
  unfold load_fields.
  erewrite st_bind_ok; [|unfold lift; by rewrite (saved_u8 _ _ _ E1)].
  erewrite st_bind_ok; [|reflexivity].
  erewrite st_bind_ok; [|unfold if_field, load_part; rewrite E2; rewrite load_isa_ok; [reflexivity| |apply Hp..];
    cbn; rewrite (proj1 (ro_isa _ Hp)); apply Hp0].
  erewrite st_bind_ok; [|apply lift_opt, (saved_u8 _ _ _ E3)].
  erewrite st_bind_ok; [|apply lift_opt, (saved_u8 _ _ _ E4)].
  erewrite st_bind_ok; [|unfold if_field, load_gsi_levels; rewrite E5; rewrite decode_encode_bools; [reflexivity|];
    rewrite (ro_levels _ Hp); apply (io_count _ (ro_ioapic _ Hp))].
  erewrite st_bind_ok; [|apply lift_opt; eapply sized_some; [exact E6|apply to_le_bytes_length|];
    apply from_to_le_bytes_id, Hp].
  erewrite st_bind_ok; [|unfold if_field, load_part, PlatformPic.load_state; rewrite E7;
    rewrite pic_save_load by (apply dual_valid_ok, Hp); reflexivity].
  erewrite st_bind_ok; [|unfold if_field, load_part; rewrite E8; rewrite ioapic_save_load by (apply Hp || apply Hp0); reflexivity].
  erewrite st_bind_ok; [|apply (load_lapic_part p); [done| |cbn; by rewrite length_map|apply Hp|done]].
  2:{ cbn. apply Forall_map. eapply Forall_impl; [apply (ro_lapics _ Hp0)|]. intros l [[Hl _] _].
      split; [done|]. apply Hp. }
  erewrite st_bind_ok; [|reflexivity].
  f_equal. apply router_ext.
  2, 6-7, 10, 14: reflexivity.
  - cbn. by destruct (P.mode p).
  - cbn. rewrite <- (ro_levels _ Hp). apply resize_same.
  - cbn. rewrite <- (ro_levels _ Hp). apply resize_same.
  - cbn. unfold resize. rewrite <- (ro_levels _ Hp). simpl. rewrite Nat.sub_0_r, take_nil.
    symmetry. apply map_const_replicate.
  - cbn. pose proof (ro_sinks _ Hp) as Hk. rewrite (ro_sinks _ Hp0).
    destruct (P.ioapic p). simpl in Hk. by subst.
  - cbn. apply restored_lapics_same; [done|apply Hp].
  - cbn. rewrite (ro_enabled _ Hp). by destruct (P.mode p).
  - cbn. rewrite !map_const_replicate, (ro_init _ Hp0). by rewrite Hlen.
  - cbn. rewrite !map_const_replicate, (ro_sipi _ Hp0). by rewrite Hlen.
  - cbn. destruct (ro_imcr _ Hp) as [_ Hi].
    assert (P.imcr p = 0 \/ P.imcr p = 1) as [-> | ->] by lia; done.
Qed.

(** ** The final synchronisation *)
(** A delivery that reaches nobody changes nothing. *)
Lemma deliver_unreached (io : ioapic) g e :
  io.(IoApic.redirection) !! g = Some e -> existsb (IoApic.matches_destination e) io.(IoApic.lapics) = false ->
  IoApic.deliver io g = Some io.
Proof.
  intros He Hm. unfold IoApic.deliver. rewrite He. case_if; [done|].
  assert ((if E.delivery_mode e =? 1 then
             match IoApic.min_by_key e 0 io.(IoApic.lapics) None with
             | Some i => (alter (fun l => inject_external_interrupt l (E.vector e)) i io.(IoApic.lapics), true)
             | None => (io.(IoApic.lapics), false)
             end
           else (map (fun l => if IoApic.matches_destination e l then inject_external_interrupt l (E.vector e) else l)
                   io.(IoApic.lapics), existsb (IoApic.matches_destination e) io.(IoApic.lapics)))
          = (io.(IoApic.lapics), false)) as ->; [|by destruct io].
  pose proof (after_delivery_reached e io.(IoApic.lapics)) as Hr. unfold after_delivery in Hr. rewrite Hm in Hr.
  case_if.
  - destruct (IoApic.min_by_key e 0 io.(IoApic.lapics) None); [done|done].
  - rewrite Hm. f_equal. clear Hr. induction io.(IoApic.lapics) as [|s ls IH]; [done|].
    simpl in *. apply orb_false_iff in Hm as [-> Hm]. by rewrite IH.
Qed.

Lemma settled_maybe_deliver n (io : ioapic) g :
  sized n io -> (g < n)%nat -> settled io g -> IoApic.maybe_deliver_level io g = Some io.
Proof.
  intros Hs Hlt Hst. unfold IoApic.maybe_deliver_level.
  destruct (lookup_lt_is_Some_2 io.(IoApic.redirection) g) as [e He]; [by rewrite (proj2 Hs)|].
  destruct (lookup_lt_is_Some_2 io.(IoApic.pin_level) g) as [raw Hraw]; [by rewrite (io_pins _ (proj1 Hs)), (proj2 Hs)|].
  rewrite He, Hraw. destruct (bool_decide_reflect (E.trigger_mode e = Ioapic.Level)) as [Hlv|]; [|done].
  destruct (E.mask e) eqn:Hmk; [done|]. destruct (E.remote_irr e) eqn:Hri; [done|].
  destruct (E.interpret_level e raw) eqn:Hil; [|done]. cbn [negb orb].
  destruct (existsb (IoApic.matches_destination e) io.(IoApic.lapics)) eqn:Hm; [|by eapply deliver_unreached].
  destruct (Z.ltb_spec 1 (E.delivery_mode e)) as [Hd|Hd].
  - unfold IoApic.deliver. rewrite He. by rewrite (proj2 (Z.ltb_lt _ _) Hd).
  - assert (due e raw) as Hdue by done. by rewrite (Hst e raw He Hraw Hdue Hm) in Hri.
Qed.

Lemma settled_sync n (io : ioapic) :
  sized n io -> (forall g, settled io g) -> IoApic.sync_level_triggered io = Some io.
Proof.
  intros Hs Hst. unfold IoApic.sync_level_triggered. rewrite (proj2 Hs).
  assert (forall g, g ∈ seq 0 n -> (g < n)%nat) as Hl by (intros g ?%elem_of_seq; lia).
  revert Hl. generalize (seq 0 n). induction l as [|g l IH]; intros Hl; [done|]. simpl.
  rewrite (settled_maybe_deliver n); [apply IH; set_solver|done|apply Hl; set_solver|done].
Qed.

(** Nothing is left to deliver: in APIC mode every asserted level-triggered
    line has been offered, in PIC mode the I/O APIC is not in use. *)
Definition quiescent (p : P.t) : Prop :=
  match p.(P.mode) with
  | Apic => forall g, settled (P.lock_ioapic p) g
  | LegacyPic => IoApic.has_unmasked_redirection_entry p.(P.ioapic) = false
  end.

Lemma unlock_lock p : p.(P.ioapic).(IoApic.lapics) = [] -> P.unlock_ioapic (P.lock_ioapic p) p = p.
Proof.
  intros Hs. apply router_ext; try reflexivity.
  - cbn. unfold P.lock_ioapic, IoApic.set_lapics. destruct (P.ioapic p). simpl in Hs. by subst.
  - cbn. unfold P.lock_ioapic. cbn. rewrite map_map. apply map_id.
Qed.

Lemma resync_quiescent p :
  router_ok p -> quiescent p ->
  resync p = Some (P.with_irq_line_generation (wrapping_add 64 p.(P.irq_line_generation) 1) p).
Proof.
  intros Hp Hq. unfold resync, quiescent in *. destruct (P.mode p) eqn:Hm.
  - rewrite Hq. cbn [bool_decide andb negb]. rewrite andb_false_r, Hm. done.
  - cbn [bool_decide negb andb]. change (bool_decide (Apic = Apic)) with true. cbn [negb andb]. rewrite Hm.
    change (bool_decide (Apic = Apic)) with true. unfold P.use_ioapic.
    erewrite settled_sync; [|by apply lock_sized|done]. by rewrite unlock_lock by apply Hp.
Qed.

Lemma restored_ok p p0 : router_ok p -> router_ok p0 -> router_ok (restored p p0).
Proof.
  intros Hp Hp0. pose proof (ro_levels _ Hp) as Hl. pose proof (ro_gen _ Hp0). destruct Hp.
  split; simpl; rewrite ?length_map; try done.
  - apply Forall_map, Forall_true. by intros.
  - unfold wired. clear. induction (P.gsi_level p) as [|b l IH]; [done|]. simpl. rewrite <- IH. by rewrite orb_false_r.
  - apply Forall_map, Forall_true. by intros.
  - destruct ro_pic as [[Hm _] [Hs _]]. split; [apply Hm|apply Hs].
Qed.

Lemma router_save_load p p0 :
  router_ok p -> router_ok p0 -> length p.(P.lapics) = length p0.(P.lapics) -> quiescent p ->
  load_state (save_state p) p0 =
  (Ok tt, P.with_irq_line_generation (wrapping_add 64 p0.(P.irq_line_generation) 1) (restored p p0)).
Proof.
  intros Hp Hp0 Hlen Hq. unfold load_state. rewrite (router_save_parse p Hp).
  unfold SnapshotReader.ensure_device_major. cbn [SnapshotReader.header SnapshotHeader.device_version].
  change (negb _) with false. cbn [negb]. rewrite (load_router_fields p p0) by (done || apply saved_fields).
  unfold unwrap. rewrite resync_quiescent; [done|by apply restored_ok|exact Hq].
Qed.

(** C8: A restored machine resumes where it was saved: loading the snapshot
    of any router with nothing left to deliver, onto any router with the same
    number of CPUs, and finalising it, succeeds and gives back the mode, the
    ISA routing, every line, the PICs, the I/O APIC, the local APICs, their
    clock and the IMCR bit for bit.  Pending INIT and SIPI events are dropped,
    and every asserted line that no device has claimed holds exactly one
    assertion. *)
Theorem router_snapshot p p0 :
  router_ok p -> router_ok p0 -> length p.(P.lapics) = length p0.(P.lapics) -> quiescent p ->
  exists p1 p2, load_state (save_state p) p0 = (Ok tt, p1) /\ P.finalize_restore p1 = Some p2 /\ router_ok p2 /\
    p2.(P.mode) = p.(P.mode) /\ p2.(P.isa_irq_to_gsi) = p.(P.isa_irq_to_gsi) /\
    p2.(P.gsi_level) = p.(P.gsi_level) /\
    p2.(P.gsi_assert_count) = map (fun level : bool => if level then 1 else 0) p.(P.gsi_level) /\
    p2.(P.pic).(PlatformPic.inner) = p.(P.pic).(PlatformPic.inner) /\
    p2.(P.ioapic) = p.(P.ioapic) /\ p2.(P.lapics) = p.(P.lapics) /\ p2.(P.lapic_clock) = p.(P.lapic_clock) /\
    p2.(P.imcr_select) = p.(P.imcr_select) /\ p2.(P.imcr) = p.(P.imcr) /\
    p2.(P.pending_init) = map (fun _ => false) p.(P.lapics) /\
    p2.(P.pending_sipi) = map (fun _ => None) p.(P.lapics) /\
    p2.(P.irq_line_generation) = wrapping_add 64 p0.(P.irq_line_generation) 1.
Proof.
  intros Hp Hp0 Hlen Hq. pose proof (router_save_load p p0 Hp Hp0 Hlen Hq) as Hl.
  set (p1 := P.with_irq_line_generation _ _) in Hl.
  assert (router_ok p1) as Hp1.
  { pose proof (restored_ok p p0 Hp Hp0) as []. split; try done. apply uint_wrap. lia. }
  destruct (finalize_restore_ok p1 Hp1) as (p2 & Hf & Hp2 & Heq). exists p1, p2.
  split; [done|]. split; [done|]. split; [done|]. rewrite Heq. split_and!; try reflexivity.
  simpl. unfold adopted. clear. induction (P.gsi_level p) as [|b l IH]; [done|]. simpl. rewrite IH. by destruct b.
Qed.
End Roundtrip.

(** ** Concrete instances *)
Lemma demo_served_quiescent : router_ok demo_served /\ quiescent demo_served.
Proof.
  destruct (service_run (after 2 demo_setup) demo_service) as (p1 & p2 & H1 & H2 & Hi).
  - apply after_ok; [lia|apply demo_setup_ok].
  - vm_compute. reflexivity.
  - solve_calls.
  - solve_calls.
  - assert (Some p2 = Some demo_served) as Heq%Some_inj.
    { transitivity (match P.set_mode (after 2 demo_setup) Apic with
                    | Some p => foldo exec_call demo_service p | None => None end).
      - by rewrite H1, H2.
      - vm_compute. reflexivity. }
    rewrite <- Heq. split; [apply Hi|]. unfold quiescent. rewrite (lv_mode _ Hi). apply Hi.
Qed.

Lemma router_snapshot_witness :
  exists p1 p2, @load_state wasm32 (save_state demo_served) (P.new_with_cpu_count 2) = (Ok tt, p1) /\
    P.finalize_restore p1 = Some p2 /\ p2.(P.lapics) = demo_served.(P.lapics) /\
    p2.(P.gsi_assert_count) !! 10%nat = Some 1.
Proof.
  destruct demo_served_quiescent as [Hok Hq].
  destruct (@router_snapshot wasm32 demo_served (P.new_with_cpu_count 2)) as
    (p1 & p2 & H1 & H2 & _ & _ & _ & _ & Hc & _ & _ & Hl & _).
  - exact Hok.
  - apply new_router_ok. lia.
  - vm_compute. reflexivity.
  - exact Hq.
  - exists p1, p2. split; [exact H1|]. split; [exact H2|]. split; [exact Hl|]. rewrite Hc. vm_compute. reflexivity.
Defined.

(** A snapshot with the levels of 24 lines and a PIC field that is no snapshot
    of a PIC: the load reports the error but leaves the router with levels and
    no counts, and [finalize_restore] then indexes out of range. *)
Theorem router_failed_load_panics :
  let w := SnapshotWriter.field_bytes (SnapshotWriter.new DEVICE_ID DEVICE_VERSION) TAG_GSI_LEVEL
             (IoApicSnapshot.encode_bools (replicate 24 false)) in
  let bytes := SnapshotWriter.finish (SnapshotWriter.field_bytes w TAG_PIC []) in
  let '(r, p) := @load_state wasm32 bytes P.new in
  match r with Err (Failed _) => True | _ => False end /\
  length p.(P.gsi_level) = 24%nat /\ p.(P.gsi_assert_count) = [] /\ P.finalize_restore p = None.
Proof. vm_compute. done. Qed.
