(* ===== verification/Ring.v ===== *)
(** * Shared-memory ring buffer between workers (crates/aero-ipc/src/ring.rs)

    The ring holds length-prefixed records in a byte buffer shared by several
    producers and one consumer.  A call of [try_push] or [try_pop] is a machine
    that makes one access to shared memory per step, so that the steps of
    several calls can be interleaved (module [System]).  An access outside the
    buffer through the raw pointers has no result ([None]).  The atomics are
    sequentially consistent here; the source orders them with acquire and
    release. *)

From S2P Require Import Prelude Bytes.

Abbreviation RECORD_ALIGN := (4) (only parsing).
Definition WRAP_MARKER : Z := 0xFFFFFFFF.

Inductive PushError := Full | PushTooLarge (* PushError::TooLarge *).
Inductive PopError := Empty | TooLarge (len max : Z) | Corrupt.

#[export] Instance push_error_eq_dec : EqDecision PushError.
Proof. solve_decision. Defined.
#[export] Instance pop_error_eq_dec : EqDecision PopError.
Proof. solve_decision. Defined.

Section Sizes.
Context `{Target}.

(** [v & !(align - 1)] *)
Definition align_up_checked (value align : Z) : option Z :=
  match checked_add usize_bits value (align - 1) with
  | Some v => Some (v &&& unot usize_bits (align - 1))
  | None => None
  end.

Definition record_size_checked (payload_len : Z) : option Z :=
  match checked_add usize_bits 4 payload_len with
  | Some v => align_up_checked v RECORD_ALIGN
  | None => None
  end.

Definition record_size (payload_len : Z) : Z := default usize_max (record_size_checked payload_len).
Definition max_payload_len_for_capacity (capacity_bytes : Z) : Z :=
  saturating_sub capacity_bytes (4 + (RECORD_ALIGN - 1)).
End Sizes.

(** Raw pointer reads and writes of the data region. *)
Definition read_at (data : list Z) (i n : Z) : option (list Z) :=
  if (0 <=? i) && (i + n <=? Z.of_nat (length data)) then Some (take (Z.to_nat n) (drop (Z.to_nat i) data))
  else None.
Definition write_at (data : list Z) (i : Z) (bs : list Z) : option (list Z) :=
  if (0 <=? i) && (i + Z.of_nat (length bs) <=? Z.of_nat (length data))
  then Some (take (Z.to_nat i) data ++ bs ++ drop (Z.to_nat i + length bs) data)
  else None.

Definition read_u32_le (data : list Z) (i : Z) : option Z := from_le_bytes <$> read_at data i 4.
Definition write_u32_le (data : list Z) (i v : Z) : option (list Z) := write_at data i (to_le_bytes 4 v).

Module RingBuffer.
Record t := mk {
  cap : Z;
  head : Z;
  tail_reserve : Z;
  tail_commit : Z;
  data : list Z;
}.

Definition with_head v r := mk r.(cap) v r.(tail_reserve) r.(tail_commit) r.(data).
Definition with_tail_reserve v r := mk r.(cap) r.(head) v r.(tail_commit) r.(data).
Definition with_tail_commit v r := mk r.(cap) r.(head) r.(tail_reserve) v r.(data).
Definition with_data v r := mk r.(cap) r.(head) r.(tail_reserve) r.(tail_commit) v.

(** The assertions of [new] fail: no ring. *)
Definition new (capacity_bytes : Z) : option t :=
  if (0 <? capacity_bytes) && (capacity_bytes mod RECORD_ALIGN =? 0) && (capacity_bytes <? 2 ^ 32 - 1)
  then Some (mk capacity_bytes 0 0 0 (replicate (Z.to_nat capacity_bytes) 0))
  else None.

Definition is_empty (r : t) : bool := r.(head) =? r.(tail_commit).
End RingBuffer.

(** ** [try_push] *)
Module Push.
Record reservation := mk_reservation {
  tail : Z;
  new_tail : Z;
  padding : Z;
  write_wrap_marker : bool;
}.

(** Where the call is: the next shared access it makes. *)
Inductive pc :=
| LoadHead
| LoadTail (head : Z)
| CompareExchange (rv : reservation)
| WriteMarker (rv : reservation)
| WriteLen (rv : reservation)
| WritePayload (rv : reservation)
| Spin (rv : reservation)
| StoreCommit (rv : reservation)
| Done (res : result unit PushError).

Record t := mk { payload : list Z; size : Z; at_ : pc }.

Definition goto (p : pc) (c : t) : t := mk c.(payload) c.(size) p.

Section Steps.
Context `{Target}.

(** The checks before the loop. *)
Definition start (r : RingBuffer.t) (payload : list Z) : t :=
  let payload_len := Z.of_nat (length payload) in
  if saturating_sub (2 ^ 32 - 1) 1 <? payload_len then mk payload 0 (Done (Err PushTooLarge))
  else
    match record_size_checked payload_len with
    | None => mk payload 0 (Done (Err PushTooLarge))
    | Some record_size =>
        if r.(RingBuffer.cap) <? record_size then mk payload 0 (Done (Err PushTooLarge))
        else mk payload record_size LoadHead
    end.

(** From the two loads to the compare-and-exchange. *)
Definition plan (cap head tail record_size : Z) : pc :=
  let used := wrapping_sub 32 tail head in
  if cap <? used then LoadHead
  else
    let free := cap - used in
    let tail_index := tail mod cap in
    let remaining := cap - tail_index in
    let '(padding, write_wrap_marker) :=
      if remaining <? 4 then (remaining, false)
      else if remaining <? record_size then (remaining, true)
      else (0, false) in
    let reserve := padding + record_size in
    if free <? wrap 32 reserve then Done (Err Full)
    else CompareExchange (mk_reservation tail (wrapping_add 32 tail (wrap 32 reserve)) padding write_wrap_marker).

Definition start_index (r : RingBuffer.t) (rv : reservation) : Z :=
  wrapping_add 32 rv.(tail) rv.(padding) mod r.(RingBuffer.cap).

Definition step (r : RingBuffer.t) (c : t) : option (RingBuffer.t * t) :=
  match c.(at_) with
  | LoadHead => Some (r, goto (LoadTail r.(RingBuffer.head)) c)
  | LoadTail head => Some (r, goto (plan r.(RingBuffer.cap) head r.(RingBuffer.tail_reserve) c.(size)) c)
  | CompareExchange rv =>
      if r.(RingBuffer.tail_reserve) =? rv.(tail)
      then Some (RingBuffer.with_tail_reserve rv.(new_tail) r, goto (WriteMarker rv) c)
      else Some (r, goto LoadHead c)
  | WriteMarker rv =>
      if rv.(write_wrap_marker) then
        match write_u32_le r.(RingBuffer.data) (rv.(tail) mod r.(RingBuffer.cap)) WRAP_MARKER with
        | Some d => Some (RingBuffer.with_data d r, goto (WriteLen rv) c)
        | None => None
        end
      else Some (r, goto (WriteLen rv) c)
  | WriteLen rv =>
      match write_u32_le r.(RingBuffer.data) (start_index r rv) (wrap 32 (Z.of_nat (length c.(payload)))) with
      | Some d => Some (RingBuffer.with_data d r, goto (WritePayload rv) c)
      | None => None
      end
  | WritePayload rv =>
      match write_at r.(RingBuffer.data) (start_index r rv + 4) c.(payload) with
      | Some d => Some (RingBuffer.with_data d r, goto (Spin rv) c)
      | None => None
      end
  | Spin rv =>
      Some (r, if r.(RingBuffer.tail_commit) =? rv.(tail) then goto (StoreCommit rv) c else c)
  | StoreCommit rv => Some (RingBuffer.with_tail_commit rv.(new_tail) r, goto (Done (Ok tt)) c)
  | Done _ => Some (r, c)
  end.

Definition result_of (c : t) : option (result unit PushError) :=
  match c.(at_) with Done res => Some res | _ => None end.

(** The call with nobody interfering, at most [fuel] steps. *)
Fixpoint run (fuel : nat) (r : RingBuffer.t) (c : t) : option (RingBuffer.t * t) :=
  match fuel with
  | O => Some (r, c)
  | S fuel =>
      match c.(at_) with
      | Done _ => Some (r, c)
      | _ => match step r c with Some (r, c) => run fuel r c | None => None end
      end
  end.

Definition try_push (r : RingBuffer.t) (payload : list Z) : option (RingBuffer.t * result unit PushError) :=
  match run 8 r (start r payload) with
  | Some (r, c) => match c.(at_) with Done res => Some (r, res) | _ => None end
  | None => None
  end.
End Steps.
End Push.

(** ** [try_pop] and [try_pop_capped] *)
Module Pop.
Inductive pc :=
| LoadHead
| LoadTail (head : Z)
| ReadLen (head tail : Z)
| Skip (new_head : Z)
| ReadPayload (head len total : Z)
| StoreHead (new_head : Z) (res : result (list Z) PopError)
| Done (res : result (list Z) PopError).

(** [max] is the cap of [try_pop_capped], absent for [try_pop]. *)
Record t := mk { max : option Z; at_ : pc }.
Definition goto (p : pc) (c : t) : t := mk c.(max) p.

Definition try_pop : t := mk None LoadHead.
Definition try_pop_capped (max_len : Z) : t := mk (Some (Z.min max_len (2 ^ 32 - 1))) LoadHead.

Section Steps.
Context `{Target}.

Definition after_len (head tail remaining len : Z) (max : option Z) : pc :=
  if len =? WRAP_MARKER then Skip (wrapping_add 32 head remaining)
  else
    match record_size_checked len with
    | None => Done (Err Corrupt)
    | Some total =>
        if remaining <? total then Done (Err Corrupt)
        else if wrapping_sub 32 tail head <? wrap 32 total then Done (Err Corrupt)
        else
          match max with
          | Some m => if m <? len
                      then StoreHead (wrapping_add 32 head (wrap 32 total)) (Err (TooLarge len m))
                      else ReadPayload head len total
          | None => ReadPayload head len total
          end
    end.

Definition step (r : RingBuffer.t) (c : t) : option (RingBuffer.t * t) :=
  let cap := r.(RingBuffer.cap) in
  match c.(at_) with
  | LoadHead => Some (r, goto (LoadTail r.(RingBuffer.head)) c)
  | LoadTail head =>
      let tail := r.(RingBuffer.tail_commit) in
      if head =? tail then Some (r, goto (Done (Err Empty)) c)
      else
        let remaining := cap - head mod cap in
        Some (r, goto (if remaining <? 4 then Skip (wrapping_add 32 head remaining) else ReadLen head tail) c)
  | ReadLen head tail =>
      let head_index := head mod cap in
      match read_u32_le r.(RingBuffer.data) head_index with
      | Some len => Some (r, goto (after_len head tail (cap - head_index) len c.(max)) c)
      | None => None
      end
  | Skip new_head => Some (RingBuffer.with_head new_head r, goto LoadHead c)
  | ReadPayload head len total =>
      match read_at r.(RingBuffer.data) (head mod cap + 4) len with
      | Some out => Some (r, goto (StoreHead (wrapping_add 32 head (wrap 32 total)) (Ok out)) c)
      | None => None
      end
  | StoreHead new_head res => Some (RingBuffer.with_head new_head r, goto (Done res) c)
  | Done _ => Some (r, c)
  end.

Fixpoint run (fuel : nat) (r : RingBuffer.t) (c : t) : option (RingBuffer.t * t) :=
  match fuel with
  | O => Some (r, c)
  | S fuel =>
      match c.(at_) with
      | Done _ => Some (r, c)
      | _ => match step r c with Some (r, c) => run fuel r c | None => None end
      end
  end.

(** The call with nobody interfering: two rounds of the loop are enough. *)
Definition pop_alone (r : RingBuffer.t) (c : t) : option (RingBuffer.t * result (list Z) PopError) :=
  match run 10 r c with
  | Some (r, c) => match c.(at_) with Done res => Some (r, res) | _ => None end
  | None => None
  end.
End Steps.
End Pop.

(** ** Several producers and one consumer on one ring *)
Module System.
(** [lags] holds, per producer, how many bytes were reserved since it last
    loaded [head]. *)
Record t := mk {
  ring : RingBuffer.t;
  producers : list Push.t;
  lags : list Z;
  consumer : Pop.t;
}.

Inductive label :=
| Tau
| Reserved (payload : list Z) (bytes : Z)
| Committed
| Returned (res : result (list Z) PopError).

(** The positions are 32-bit counters; a producer delayed between its loads and
    its compare-and-exchange while 4 GiB pass through the ring would take an old
    position for a new one.  [timely] says that the step is not that late. *)
Definition timely (cap : Z) (c : Push.t) (lag : Z) : bool :=
  match c.(Push.at_) with
  | Push.LoadTail _ | Push.CompareExchange _ => lag + cap <? 2 ^ 32
  | _ => true
  end.

Definition push_label (c c' : Push.t) : label :=
  match c.(Push.at_), c'.(Push.at_) with
  | Push.CompareExchange rv, Push.WriteMarker _ =>
      Reserved c.(Push.payload) (wrapping_sub 32 rv.(Push.new_tail) rv.(Push.tail))
  | Push.StoreCommit _, _ => Committed
  | _, _ => Tau
  end.

Definition next_lags (i : nat) (c : Push.t) (l : label) (lags : list Z) : list Z :=
  match l, c.(Push.at_) with
  | Reserved _ bytes, _ => map (fun lag => lag + bytes) lags
  | _, Push.LoadHead => <[i := 0]> lags
  | _, _ => lags
  end.

Definition pop_label (c c' : Pop.t) : label :=
  match c.(Pop.at_), c'.(Pop.at_) with
  | Pop.Done _, _ => Tau
  | _, Pop.Done res => Returned res
  | _, _ => Tau
  end.

Section Steps.
Context `{Target}.

Inductive step : t -> label -> t -> Prop :=
| push_start s i c payload :
    s.(producers) !! i = Some c -> is_Some (Push.result_of c) -> Forall byte_ok payload ->
    step s Tau (mk s.(ring) (<[i := Push.start s.(ring) payload]> s.(producers)) s.(lags) s.(consumer))
| push_step s i c lag ring' c' :
    s.(producers) !! i = Some c -> s.(lags) !! i = Some lag ->
    timely s.(ring).(RingBuffer.cap) c lag = true -> Push.step s.(ring) c = Some (ring', c') ->
    step s (push_label c c')
      (mk ring' (<[i := c']> s.(producers)) (next_lags i c (push_label c c') s.(lags)) s.(consumer))
| pop_start s res c :
    s.(consumer).(Pop.at_) = Pop.Done res -> c.(Pop.at_) = Pop.LoadHead ->
    step s Tau (mk s.(ring) s.(producers) s.(lags) c)
| pop_step s ring' c' :
    Pop.step s.(ring) s.(consumer) = Some (ring', c') ->
    step s (pop_label s.(consumer) c') (mk ring' s.(producers) s.(lags) c').

Inductive steps : t -> list label -> t -> Prop :=
| steps_nil s : steps s [] s
| steps_cons s1 l s2 ls s3 : step s1 l s2 -> steps s2 ls s3 -> steps s1 (l :: ls) s3.
End Steps.

(** [n] idle producers and an idle consumer on a fresh ring. *)
Definition init (r : RingBuffer.t) (n : nat) : t :=
  mk r (replicate n (Push.mk [] 0 (Push.Done (Ok tt)))) (replicate n 0) (Pop.mk None (Pop.Done (Err Empty))).
End System.

(** ** What the ring promises: a queue of reserved records, the first
    [committed] of which are visible to the consumer. *)
Module QueueSpec.
Record t := mk { records : list (list Z); committed : nat }.
Definition empty : t := mk [] 0.

Definition step (q : t) (l : System.label) : option t :=
  match l with
  | System.Tau => Some q
  | System.Reserved payload _ => Some (mk (q.(records) ++ [payload]) q.(committed))
  | System.Committed =>
      if (q.(committed) <? length q.(records))%nat then Some (mk q.(records) (q.(committed) + 1)) else None
  | System.Returned (Ok out) =>
      match q.(records), q.(committed) with
      | p :: ps, S n => if bool_decide (p = out) then Some (mk ps n) else None
      | _, _ => None
      end
  | System.Returned (Err (TooLarge len max)) =>
      match q.(records), q.(committed) with
      | p :: ps, S n => if (Z.of_nat (length p) =? len) && (max <? len) then Some (mk ps n) else None
      | _, _ => None
      end
  | System.Returned (Err Empty) => Some q
  | System.Returned (Err Corrupt) => None
  end.

Fixpoint accepts (q : t) (ls : list System.label) : option t :=
  match ls with
  | [] => Some q
  | l :: ls => match step q l with Some q => accepts q ls | None => None end
  end.
End QueueSpec.
