(* ===== verification/RingFacts.v ===== *)
(** * Facts about the ring buffer: positions and bytes, and the invariant of
    several producers and one consumer *)

From S2P Require Import Prelude Bytes Ring.

(** ** Record sizes *)
Definition rsize (n : Z) : Z := (n + 7) / 4 * 4.

Lemma rsize_bounds n : 0 <= n -> n + 4 <= rsize n < n + 8 /\ (4 | rsize n) /\ 4 <= rsize n.
Proof.
  intros Hn. unfold rsize. pose proof (Z.div_mod (n + 7) 4 ltac:(lia)). pose proof (Z.mod_pos_bound (n + 7) 4).
  split; [lia|]. split; [by apply Z.divide_factor_r|lia].
Qed.

Lemma record_size_checked_spec `{Target} n :
  0 <= n -> record_size_checked n = if n + 7 <? 2 ^ usize_bits then Some (rsize n) else None.
Proof.
  intros Hn. pose proof usize_bits_ok. assert (0 < 2 ^ usize_bits) by (apply Z.pow_pos_nonneg; lia).
  unfold record_size_checked, align_up_checked, checked_add.
  destruct (Z.ltb_spec (n + 7) (2 ^ usize_bits)).
  - rewrite (proj2 (Z.ltb_lt (4 + n) _)) by lia. cbn iota beta.
    rewrite (proj2 (Z.ltb_lt _ _)) by lia. f_equal. rewrite land_unot by (unfold uint; lia).
    change (4 - 1) with (Z.ones 2). rewrite Z.ldiff_ones_r, Z.shiftr_div_pow2, Z.shiftl_mul_pow2 by lia.
    unfold rsize. change (2 ^ 2) with 4. do 2 f_equal. change (Z.ones 2) with 3. lia.
  - destruct (4 + n <? 2 ^ usize_bits); [|done]. by rewrite (proj2 (Z.ltb_ge _ _)) by lia.
Qed.

Section Geometry.
Context (cap : Z).
Hypothesis Hcap : 4 <= cap <= 2 ^ 31.
Hypothesis Hdiv : (cap | 2 ^ 32).

Lemma idx_wrap v : wrap 32 v mod cap = v mod cap.
Proof. unfold wrap. by rewrite Z.mod_mod_divide by done. Qed.

Lemma wrap_inj a b : a <= b -> b - a < 2 ^ 32 -> wrap 32 a = wrap 32 b -> a = b.
Proof.
  unfold wrap. intros Hab Hlt He. pose proof (Z.div_mod a (2 ^ 32) ltac:(lia)).
  pose proof (Z.div_mod b (2 ^ 32) ltac:(lia)). nia.
Qed.

Lemma wrap_sub a b : a <= b -> b - a < 2 ^ 32 -> wrapping_sub 32 (wrap 32 b) (wrap 32 a) = b - a.
Proof.
  intros Hab Hlt. unfold wrapping_sub, wrap. rewrite <- Zminus_mod. apply Z.mod_small. lia.
Qed.

Lemma wrap_add a n : wrapping_add 32 (wrap 32 a) n = wrap 32 (a + n).
Proof. unfold wrapping_add, wrap. by rewrite Zplus_mod_idemp_l. Qed.

(** ** Where records go *)
Definition room (v : Z) : Z := cap - v mod cap.
Definition marked (v n : Z) : bool := (4 <=? room v) && (room v <? n).
Definition pad (v n : Z) : Z := if room v <? 4 then room v else if room v <? n then room v else 0.
Definition next (v n : Z) : Z := v + pad v n + n.

Lemma room_bounds v : 0 < room v <= cap.
Proof. unfold room. pose proof (Z.mod_pos_bound v cap). lia. Qed.

Lemma pad_bounds v n : n <= cap -> 0 <= pad v n < cap.
Proof.
  intros Hn. pose proof (room_bounds v). unfold pad. destruct (Z.ltb_spec (room v) 4); [lia|].
  destruct (Z.ltb_spec (room v) n); lia.
Qed.

Lemma room_end v : (v + room v) mod cap = 0.
Proof.
  unfold room. replace (v + (cap - v mod cap)) with ((v / cap + 1) * cap).
  - by apply Z.mod_mul; lia.
  - pose proof (Z.div_mod v cap ltac:(lia)). lia.
Qed.

(** The record lies in one piece after the padding. *)
Lemma start_fits v n : n <= cap -> (v + pad v n) mod cap + n <= cap.
Proof.
  intros Hn. pose proof (room_bounds v). unfold pad.
  destruct (Z.ltb_spec (room v) 4); [rewrite room_end; lia|].
  destruct (Z.ltb_spec (room v) n); [rewrite room_end; lia|]. rewrite Z.add_0_r. unfold room in *. lia.
Qed.

Lemma next_after_pad v n : n <= cap -> pad (v + pad v n) n = 0.
Proof.
  intros Hn. pose proof (start_fits v n Hn). unfold pad at 1.
  pose proof (room_bounds v). pose proof (room_bounds (v + pad v n)) as Hb. fold (room v) in *.
  assert (room (v + pad v n) >= n) by (unfold room at 1; lia).
  destruct (Z.ltb_spec (room (v + pad v n)) 4) as [H4|]; [|by rewrite (proj2 (Z.ltb_ge _ _)) by lia].
  exfalso. revert H4. unfold pad.
  destruct (Z.ltb_spec (room v) 4); [unfold room at 1; rewrite room_end; lia|].
  destruct (Z.ltb_spec (room v) n); [unfold room at 1; rewrite room_end; lia|]. rewrite Z.add_0_r. lia.
Qed.

Lemma idx_add v k : 0 <= k -> v mod cap + k < cap -> (v + k) mod cap = v mod cap + k.
Proof.
  intros Hk Hlt. pose proof (Z.mod_pos_bound v cap). rewrite Z.add_mod by lia.
  rewrite (Z.mod_small k) by lia. rewrite Z.mod_small by lia. done.
Qed.

(** ** Bytes by position *)
Definition byte_at (d : list Z) (v : Z) : Z := default 0 (d !! Z.to_nat (v mod cap)).
Definition ring_span (d : list Z) (v : Z) (n : nat) : list Z := span (byte_at d) v n.

Lemma ring_span_index d v (n : nat) :
  v mod cap + Z.of_nat n <= cap ->
  ring_span d v n = span (fun a => default 0 (d !! Z.to_nat a)) (v mod cap) n.
Proof.
  intros Hn. unfold ring_span, span. apply map_ext_in. intros k Hk%in_seq. unfold byte_at.
  by rewrite idx_add by lia.
Qed.

Lemma read_at_span d v n :
  Z.of_nat (length d) = cap -> 0 <= n -> v mod cap + n <= cap ->
  read_at d (v mod cap) n = Some (ring_span d v (Z.to_nat n)).
Proof.
  intros Hl Hn Hle. pose proof (Z.mod_pos_bound v cap). unfold read_at.
  rewrite (proj2 (Z.leb_le _ _)), (proj2 (Z.leb_le _ _)) by lia. cbn [andb]. f_equal.
  rewrite (span_take_drop d 0) by lia. rewrite ring_span_index by lia. by rewrite Z2Nat.id by lia.
Qed.

Lemma write_at_span d v bs :
  Z.of_nat (length d) = cap -> v mod cap + Z.of_nat (length bs) <= cap ->
  exists d', write_at d (v mod cap) bs = Some d' /\ Z.of_nat (length d') = cap /\
    ring_span d' v (length bs) = bs /\
    forall x, v + Z.of_nat (length bs) - cap <= x < v + cap -> ~ (v <= x < v + Z.of_nat (length bs)) ->
      byte_at d' x = byte_at d x.
Proof.
  intros Hl Hle. pose proof (Z.mod_pos_bound v cap ltac:(lia)) as Hm. unfold write_at.
  rewrite (proj2 (Z.leb_le _ _)), (proj2 (Z.leb_le _ _)) by lia. cbn [andb]. eexists. split; [done|].
  set (i := Z.to_nat (v mod cap)). assert (length (take i d) = i) as Hti by (rewrite length_take; lia).
  split; [rewrite !length_app, length_drop, Hti; lia|]. split.
  - rewrite ring_span_index by lia. fold i. apply list_eq. intros k. destruct (decide (k < length bs)%nat).
    + rewrite span_lookup by done. replace (Z.to_nat (v mod cap + Z.of_nat k)) with (i + k)%nat by lia.
      rewrite lookup_app_r by lia. rewrite Hti. replace (i + k - i)%nat with k by lia.
      rewrite lookup_app_l by done. destruct (bs !! k) eqn:E; [done|]. apply lookup_ge_None in E. lia.
    + by rewrite !lookup_ge_None_2 by (rewrite ?span_length; lia).
  - intros x Hx Hout. unfold byte_at. pose proof (Z.mod_pos_bound x cap ltac:(lia)) as Hmx.
    assert (~ (v mod cap <= x mod cap < v mod cap + Z.of_nat (length bs))) as Hi.
    { intros Hin. apply Hout. pose proof (Z.div_mod v cap ltac:(lia)). pose proof (Z.div_mod x cap ltac:(lia)).
      assert (x / cap = v / cap) by nia. nia. }
    f_equal. destruct (Z.lt_ge_cases (x mod cap) (v mod cap)).
    + rewrite lookup_app_l by lia. by rewrite lookup_take_lt by lia.
    + rewrite lookup_app_r by lia. rewrite lookup_app_r by lia. rewrite lookup_drop, Hti. f_equal. lia.
Qed.

Lemma ring_span_same d d' v n :
  (forall x, v <= x < v + Z.of_nat n -> byte_at d' x = byte_at d x) -> ring_span d' v n = ring_span d v n.
Proof. apply span_ext. Qed.
End Geometry.

(** ** Records in the buffer *)
Abbreviation len p := (Z.of_nat (length p)).
Abbreviation psize p := (rsize (len p)).

Section Records.
Context (cap : Z).
Hypothesis Hcap : 4 <= cap <= 2 ^ 31.
Implicit Types (d p : list Z) (v : Z).

(** How much of a record at [v] has been written: 0 nothing, 1 the wrap marker,
    2 the length, 3 the payload. *)
Record stored (stage : nat) d v p : Prop := {
  st_marker : (1 <= stage)%nat -> marked cap v (psize p) = true ->
    ring_span cap d v 4 = to_le_bytes 4 WRAP_MARKER;
  st_len : (2 <= stage)%nat -> ring_span cap d (v + pad cap v (psize p)) 4 = to_le_bytes 4 (len p);
  st_payload : (3 <= stage)%nat -> ring_span cap d (v + pad cap v (psize p) + 4) (length p) = p;
}.

Record fits p : Prop := {
  ft_size : psize p <= cap;
  ft_len : len p <= 2 ^ 32 - 2;
  ft_bytes : Forall byte_ok p;
}.

Lemma psize_bounds p : len p + 4 <= psize p < len p + 8 /\ 4 <= psize p.
Proof. destruct (rsize_bounds (len p)) as (? & _ & ?); [lia|]. lia. Qed.

Lemma next_gt v p : fits p -> v + 4 <= next cap v (psize p) /\ v + psize p <= next cap v (psize p).
Proof.
  intros [Hs _ _]. pose proof (psize_bounds p). pose proof (pad_bounds cap Hcap v (psize p) Hs). unfold next. lia.
Qed.

Lemma marker_room v n : marked cap v n = true -> 4 <= pad cap v n.
Proof.
  unfold marked, pad. intros [H4%Z.leb_le Hn%Z.ltb_lt]%andb_true_iff.
  rewrite (proj2 (Z.ltb_ge _ _)), (proj2 (Z.ltb_lt _ _)); lia.
Qed.

(** A record only depends on the bytes of its own stretch. *)
Lemma stored_same stage d d' v p :
  fits p -> (forall x, v <= x < next cap v (psize p) -> byte_at cap d' x = byte_at cap d x) ->
  stored stage d v p -> stored stage d' v p.
Proof.
  intros Hf Hs [Hm Hl Hp]. pose proof (psize_bounds p). pose proof (pad_bounds cap Hcap v (psize p) (ft_size _ Hf)).
  unfold next in Hs. split.
  - intros H1 H2. rewrite (ring_span_same cap d d'); [by apply Hm|]. intros x Hx. apply Hs.
    pose proof (marker_room _ _ H2). lia.
  - intros H1. rewrite (ring_span_same cap d d'); [by apply Hl|]. intros x Hx. apply Hs. lia.
  - intros H1. rewrite (ring_span_same cap d d'); [by apply Hp|]. intros x Hx. apply Hs. lia.
Qed.

(** The end of a sequence of records. *)
Fixpoint ends v (ps : list (list Z)) : Z :=
  match ps with [] => v | p :: ps => ends (next cap v (psize p)) ps end.

Lemma ends_app v ps qs : ends v (ps ++ qs) = ends (ends v ps) qs.
Proof. revert v. induction ps as [|p ps IH]; intros v; simpl; [done|apply IH]. Qed.

Lemma ends_ge v ps : Forall fits ps -> v + 4 * len ps <= ends v ps.
Proof.
  intros Hf. revert v. induction Hf as [|p ps Hp _ IH]; intros v; simpl; [lia|].
  pose proof (next_gt v p Hp). pose proof (IH (next cap v (psize p))). lia.
Qed.

(** All records of [ps] from [v] on are complete. *)
Fixpoint complete d v (ps : list (list Z)) : Prop :=
  match ps with [] => True | p :: ps => stored 3 d v p /\ complete d (next cap v (psize p)) ps end.

Lemma complete_same d d' v ps :
  Forall fits ps -> (forall x, v <= x < ends v ps -> byte_at cap d' x = byte_at cap d x) ->
  complete d v ps -> complete d' v ps.
Proof.
  intros Hf. revert v. induction Hf as [|p ps Hp Hps IH]; intros v Hs; simpl; [done|]. intros [H1 H2].
  pose proof (next_gt v p Hp). pose proof (ends_ge (next cap v (psize p)) ps Hps). simpl in Hs. split.
  - eapply stored_same; [done| |done]. intros x Hx. apply Hs. lia.
  - apply IH; [|done]. intros x Hx. apply Hs. lia.
Qed.

Lemma complete_app d v ps qs : complete d v (ps ++ qs) <-> complete d v ps /\ complete d (ends v ps) qs.
Proof. revert v. induction ps as [|p ps IH]; intros v; simpl; [naive_solver|]. rewrite IH. naive_solver. Qed.

(** ** Slots: reservations with their owners, and where they are *)
Fixpoint slots v (q : list (nat * list Z)) : list (Z * (nat * list Z)) :=
  match q with [] => [] | o :: q => (v, o) :: slots (next cap v (psize o.2)) q end.

Lemma slots_app v q r : slots v (q ++ r) = slots v q ++ slots (ends v (map snd q)) r.
Proof. revert v. induction q as [|o q IH]; intros v; simpl; [done|by rewrite IH]. Qed.

Lemma slots_owners v q : map (fun s => s.2.1) (slots v q) = map fst q.
Proof. revert v. induction q as [|o q IH]; intros v; simpl; [done|by rewrite IH]. Qed.

(** Each slot lies between the ends of the sequence, and two slots do not
    overlap. *)
Lemma slots_range v q s :
  Forall fits (map snd q) -> s ∈ slots v q ->
  v <= s.1 /\ next cap s.1 (psize s.2.2) <= ends v (map snd q) /\ fits s.2.2 /\ s.2 ∈ q.
Proof.
  revert v. induction q as [|o q IH]; intros v Hf Hs; simpl in *; [set_solver|].
  apply Forall_cons in Hf as [Ho Hf]. pose proof (next_gt v _ Ho).
  apply elem_of_cons in Hs as [->|Hs].
  - pose proof (ends_ge (next cap v (psize o.2)) _ Hf). simpl. split; [lia|]. split; [lia|]. split; [done|set_solver].
  - destruct (IH _ Hf Hs) as (? & ? & ? & ?). split; [lia|]. split; [done|]. split; [done|set_solver].
Qed.

Lemma slots_disjoint v q s s' :
  Forall fits (map snd q) -> NoDup (map fst q) -> s ∈ slots v q -> s' ∈ slots v q ->
  s = s' \/ (s.2.1 <> s'.2.1 /\ (next cap s.1 (psize s.2.2) <= s'.1 \/ next cap s'.1 (psize s'.2.2) <= s.1)).
Proof.
  revert v. induction q as [|o q IH]; intros v Hf Hnd Hs Hs'; simpl in *; [set_solver|].
  apply Forall_cons in Hf as [Ho Hf]. apply NoDup_cons in Hnd as [Hni Hnd].
  assert (forall x, x ∈ slots (next cap v (psize o.2)) q -> next cap v (psize o.2) <= x.1 /\ o.1 <> x.2.1) as Hlater.
  { intros x Hx. destruct (slots_range _ _ _ Hf Hx) as (? & _ & _ & Hin). split; [done|]. intros He.
    apply Hni. rewrite He. apply list_elem_of_fmap. by exists x.2. }
  apply elem_of_cons in Hs as [->|Hs]; apply elem_of_cons in Hs' as [->|Hs'].
  - by left.
  - right. destruct (Hlater _ Hs'). simpl. split; [done|]. by left.
  - right. destruct (Hlater _ Hs). simpl. split; [done|]. by right.
  - by eapply IH.
Qed.
End Records.

(** ** The invariant

    Ghost positions are unbounded; the ring holds them modulo 2^32.  [q0] are
    the committed records from [hv] to [cv], [q1] the reserved ones, with the
    producer that owns each, from [cv] to [tv]. *)
Record ghost := mk_ghost {
  hv : Z; cv : Z; tv : Z;
  q0 : list (list Z);
  q1 : list (nat * list Z);
}.

Section Invariant.
Context `{Target} (cap : Z).

Definition reservation_at (v : Z) (p : list Z) : Push.reservation :=
  Push.mk_reservation (wrap 32 v) (wrap 32 (next cap v (psize p))) (pad cap v (psize p)) (marked cap v (psize p)).

(** The stage of the producer that owns a reservation. *)
Definition stage_of (c : Push.t) : option (nat * Push.reservation) :=
  match c.(Push.at_) with
  | Push.WriteMarker rv => Some (0%nat, rv)
  | Push.WriteLen rv => Some (1%nat, rv)
  | Push.WritePayload rv => Some (2%nat, rv)
  | Push.Spin rv | Push.StoreCommit rv => Some (3%nat, rv)
  | _ => None
  end.

Definition owns (producers : list Push.t) (d : list Z) (s : Z * (nat * list Z)) : Prop :=
  exists c stage, producers !! s.2.1 = Some c /\ c.(Push.payload) = s.2.2 /\
    stage_of c = Some (stage, reservation_at s.1 s.2.2) /\ stored cap stage d s.1 s.2.2.

Record producer_ok (g : ghost) (i : nat) (c : Push.t) (lag : Z) : Prop := {
  po_lag : 0 <= lag;
  po_fits : Push.result_of c = None -> fits cap c.(Push.payload) /\ c.(Push.size) = psize c.(Push.payload);
  po_owner : is_Some (stage_of c) -> i ∈ map fst g.(q1);
  po_at : match c.(Push.at_) with
    | Push.LoadTail h => exists hv', h = wrap 32 hv' /\ hv' <= g.(hv) /\ g.(tv) - hv' <= cap + lag
    | Push.CompareExchange rv =>
        exists tv' hv', rv = reservation_at tv' c.(Push.payload) /\ tv' <= g.(tv) /\ g.(tv) - tv' <= lag /\
          hv' <= g.(hv) /\ next cap tv' (psize c.(Push.payload)) <= hv' + cap
    | Push.StoreCommit _ => exists p rest, g.(q1) = (i, p) :: rest
    | _ => True
    end;
}.

(** What the consumer knows of the first committed record. *)
Definition consumer_ok (g : ghost) (c : Pop.t) : Prop :=
  match c.(Pop.at_) with
  | Pop.LoadHead | Pop.Done _ => True
  | Pop.LoadTail h => h = wrap 32 g.(hv)
  | Pop.ReadLen h t =>
      h = wrap 32 g.(hv) /\ 4 <= room cap g.(hv) /\
      exists p rest cv', g.(q0) = p :: rest /\ t = wrap 32 cv' /\ next cap g.(hv) (psize p) <= cv' <= g.(cv)
  | Pop.Skip n =>
      exists p rest, g.(q0) = p :: rest /\ n = wrap 32 (g.(hv) + pad cap g.(hv) (psize p))
  | Pop.ReadPayload h l total =>
      h = wrap 32 g.(hv) /\
      exists p rest, g.(q0) = p :: rest /\ l = len p /\ total = psize p /\ pad cap g.(hv) (psize p) = 0
  | Pop.StoreHead n res =>
      exists p rest, g.(q0) = p :: rest /\ n = wrap 32 (next cap g.(hv) (psize p)) /\
        (res = Ok p \/ exists m, res = Err (TooLarge (len p) m) /\ m < len p)
  end.

Record inv (s : System.t) (g : ghost) : Prop := {
  iv_cap : s.(System.ring).(RingBuffer.cap) = cap;
  iv_head : s.(System.ring).(RingBuffer.head) = wrap 32 g.(hv);
  iv_commit : s.(System.ring).(RingBuffer.tail_commit) = wrap 32 g.(cv);
  iv_reserve : s.(System.ring).(RingBuffer.tail_reserve) = wrap 32 g.(tv);
  iv_data : len s.(System.ring).(RingBuffer.data) = cap;
  iv_cv : ends cap g.(hv) g.(q0) = g.(cv);
  iv_tv : ends cap g.(cv) (map snd g.(q1)) = g.(tv);
  iv_window : g.(tv) <= g.(hv) + cap;
  iv_fits0 : Forall (fits cap) g.(q0);
  iv_fits1 : Forall (fits cap) (map snd g.(q1));
  iv_complete : complete cap s.(System.ring).(RingBuffer.data) g.(hv) g.(q0);
  iv_owned : forall x, x ∈ slots cap g.(cv) g.(q1) ->
    owns s.(System.producers) s.(System.ring).(RingBuffer.data) x;
  iv_owners : NoDup (map fst g.(q1));
  iv_lags : length s.(System.lags) = length s.(System.producers);
  iv_producers : forall i c lag, s.(System.producers) !! i = Some c -> s.(System.lags) !! i = Some lag ->
    producer_ok g i c lag;
  iv_consumer : consumer_ok g s.(System.consumer);
}.

Definition abstract (g : ghost) : QueueSpec.t :=
  QueueSpec.mk (g.(q0) ++ map snd g.(q1)) (length g.(q0)).

Hypothesis Hcap : 4 <= cap <= 2 ^ 31.
Hypothesis Hdiv : (cap | 2 ^ 32).

Lemma inv_order s g : inv s g -> g.(hv) <= g.(cv) <= g.(tv).
Proof.
  intros Hi. pose proof (ends_ge cap Hcap g.(hv) _ (iv_fits0 _ _ Hi)) as H1. rewrite (iv_cv _ _ Hi) in H1.
  pose proof (ends_ge cap Hcap g.(cv) _ (iv_fits1 _ _ Hi)) as H2. rewrite (iv_tv _ _ Hi) in H2. lia.
Qed.

(** A producer that owns a reservation has exactly one slot. *)
Lemma owner_slot s g i c lag stage rv :
  inv s g -> s.(System.producers) !! i = Some c -> s.(System.lags) !! i = Some lag ->
  stage_of c = Some (stage, rv) ->
  exists v, (v, (i, c.(Push.payload))) ∈ slots cap g.(cv) g.(q1) /\ rv = reservation_at v c.(Push.payload) /\
    stored cap stage s.(System.ring).(RingBuffer.data) v c.(Push.payload) /\ fits cap c.(Push.payload) /\
    c.(Push.size) = psize c.(Push.payload) /\
    g.(cv) <= v /\ next cap v (psize c.(Push.payload)) <= g.(tv).
Proof.
  intros Hi Hp Hl Hs. pose proof (iv_producers _ _ Hi _ _ _ Hp Hl) as Hok.
  assert (i ∈ map fst g.(q1)) as Hin by (apply (po_owner _ _ _ _ Hok); by rewrite Hs).
  rewrite <- (slots_owners cap g.(cv)) in Hin. apply list_elem_of_fmap in Hin as ([v [j p]] & Hj & Hx).
  simpl in Hj. subst j. pose proof (slots_range cap Hcap _ _ _ (iv_fits1 _ _ Hi) Hx) as (Hcv & Hn & Hf & _).
  destruct (iv_owned _ _ Hi _ Hx) as (c' & stage' & Hp' & Hpay & Hst & Hsto). simpl in *.
  rewrite Hp in Hp'. simplify_eq. rewrite (iv_tv _ _ Hi) in Hn. exists v. split_and!; try done.
  apply (po_fits _ _ _ _ Hok). unfold stage_of in Hs. unfold Push.result_of. by destruct (Push.at_ c').
Qed.

(** Replacing the local state of a producer that owns nothing. *)
Lemma inv_local s g i c c' lag lag' :
  inv s g -> s.(System.producers) !! i = Some c -> s.(System.lags) !! i = Some lag ->
  stage_of c = None -> stage_of c' = None -> producer_ok g i c' lag' ->
  inv (System.mk s.(System.ring) (<[i := c']> s.(System.producers)) (<[i := lag']> s.(System.lags)) s.(System.consumer)) g.
Proof.
  intros Hi Hp Hl Hc Hc' Hok. split; try apply Hi; simpl.
  - intros x Hx. destruct (iv_owned _ _ Hi x Hx) as (c0 & stage & Hp0 & ? & Hst & ?).
    exists c0, stage. rewrite list_lookup_insert_ne; [done|]. intros ->. rewrite Hp in Hp0. by simplify_eq.
  - by rewrite !length_insert, (iv_lags _ _ Hi).
  - intros j cj lj. destruct (decide (j = i)) as [->|Hne].
    + rewrite !list_lookup_insert_eq by (by eapply lookup_lt_Some). by intros [= <-] [= <-].
    + rewrite !list_lookup_insert_ne by done. apply (iv_producers _ _ Hi).
Qed.

Lemma inv_local_same s g i c c' lag :
  inv s g -> s.(System.producers) !! i = Some c -> s.(System.lags) !! i = Some lag ->
  stage_of c = None -> stage_of c' = None -> producer_ok g i c' lag ->
  inv (System.mk s.(System.ring) (<[i := c']> s.(System.producers)) s.(System.lags) s.(System.consumer)) g.
Proof.
  intros Hi Hp Hl Hc Hc' Hok. rewrite <- (list_insert_id s.(System.lags) i lag) by done. by eapply inv_local.
Qed.

Lemma start_ok g i r payload lag :
  r.(RingBuffer.cap) = cap -> Forall byte_ok payload -> 0 <= lag ->
  producer_ok g i (Push.start r payload) lag /\ stage_of (Push.start r payload) = None.
Proof.
  intros Hr Hb Hl. unfold Push.start, saturating_sub.
  assert (forall n e, producer_ok g i (Push.mk payload n (Push.Done (Err e))) lag) as Hdone.
  { intros n e. split; simpl; try done. by intros [? ?]. }
  destruct (Z.ltb_spec (Z.max (2 ^ 32 - 1 - 1) 0) (len payload)); [by split|].
  rewrite record_size_checked_spec by lia. case_if; [|by split].
  destruct (Z.ltb_spec (RingBuffer.cap r) (psize payload)); [by split|]. split; [|done].
  split; simpl; try done; [|by intros [? ?]]. intros _. split; [|done]. split; [lia|lia|done].
Qed.

Lemma plan_eq h t p :
  psize p <= cap -> h <= t -> t - h < 2 ^ 32 ->
  Push.plan cap (wrap 32 h) (wrap 32 t) (psize p) =
  if cap <? t - h then Push.LoadHead
  else if cap - (t - h) <? pad cap t (psize p) + psize p then Push.Done (Err Full)
  else Push.CompareExchange (reservation_at t p).
Proof.
  intros Hs Hht Hlt. unfold Push.plan. pose proof (psize_bounds p). pose proof (room_bounds cap Hcap t).
  pose proof (pad_bounds cap Hcap t _ Hs). rewrite wrap_sub by lia. rewrite (idx_wrap cap Hdiv). fold (room cap t).
  destruct (Z.ltb_spec cap (t - h)); [done|]. set (pm := if room cap t <? 4 then _ else _).
  assert (pm = (pad cap t (psize p), marked cap t (psize p))) as ->.
  { unfold pm, pad, marked. destruct (Z.ltb_spec (room cap t) 4).
    - by rewrite (proj2 (Z.leb_gt _ _)) by lia.
    - rewrite (proj2 (Z.leb_le _ _)) by lia. by destruct (_ <? _). }
  cbv beta iota. rewrite (wrap_small 32 (_ + _)) by (unfold uint; lia). case_if; [done|].
  unfold reservation_at. rewrite wrap_add. unfold next. by rewrite Z.add_assoc.
Qed.

(** The two loads, given that they were timely, plan a reservation that ends
    inside the window. *)
Lemma plan_ok g i c h lag :
  Push.at_ c = Push.LoadTail h -> producer_ok g i c lag -> lag + cap < 2 ^ 32 -> g.(hv) <= g.(tv) ->
  let c' := Push.goto (Push.plan cap h (wrap 32 g.(tv)) c.(Push.size)) c in
  producer_ok g i c' lag /\ stage_of c' = None.
Proof.
  intros Hat Hok Hlag Hord c'. pose proof Hok as [Hl0 Hf _ Ha]. rewrite Hat in Ha.
  destruct Ha as (hv' & -> & Hh & Ht). destruct Hf as [Hf Hs]; [by unfold Push.result_of; rewrite Hat|].
  assert (forall p, (match p with Push.LoadHead | Push.Done _ => True | _ => False end) ->
    producer_ok g i (Push.goto p c) lag /\ stage_of (Push.goto p c) = None) as Hsimple.
  { intros p Hp. destruct p; try done; (split; [|done]; split; simpl; try done; by intros [? ?]). }
  unfold c'. rewrite Hs, plan_eq by (try apply Hf; lia). destruct (Z.ltb_spec cap (g.(tv) - hv')); [by apply Hsimple|].
  destruct (Z.ltb_spec (cap - (g.(tv) - hv')) (pad cap g.(tv) (psize (Push.payload c)) + psize (Push.payload c)));
    [by apply Hsimple|].
  split; [|done]. split; simpl; try done; [by intros [? ?]|]. exists g.(tv), hv'. split; [done|]. unfold next. lia.
Qed.

(** ** The compare-and-exchange succeeds: a slot is added. *)
Lemma reserve_ok s g i c lag rv :
  inv s g -> s.(System.producers) !! i = Some c -> s.(System.lags) !! i = Some lag ->
  Push.at_ c = Push.CompareExchange rv -> lag + cap < 2 ^ 32 ->
  RingBuffer.tail_reserve s.(System.ring) = rv.(Push.tail) ->
  let bytes := wrapping_sub 32 rv.(Push.new_tail) rv.(Push.tail) in
  let g' := mk_ghost g.(hv) g.(cv) (g.(tv) + bytes) g.(q0) (g.(q1) ++ [(i, c.(Push.payload))]) in
  inv (System.mk (RingBuffer.with_tail_reserve rv.(Push.new_tail) s.(System.ring))
        (<[i := Push.goto (Push.WriteMarker rv) c]> s.(System.producers))
        (map (fun lag => lag + bytes) s.(System.lags)) s.(System.consumer)) g'.
Proof.
  intros Hi Hp Hl Hat Hlag Hcas bytes g'. pose proof (inv_order s g Hi) as Hord.
  pose proof (iv_producers _ _ Hi _ _ _ Hp Hl) as Hok. pose proof Hok as [Hl0 Hf _ Ha]. rewrite Hat in Ha.
  destruct Ha as (tv' & hv' & Hrv & Ht & Ht' & Hh & Hn). destruct Hf as [Hf Hs]; [by unfold Push.result_of; rewrite Hat|].
  rewrite (iv_reserve _ _ Hi), Hrv in Hcas. simpl in Hcas.
  assert (tv' = g.(tv)) as -> by (symmetry in Hcas; by apply (wrap_inj tv' g.(tv)); [|lia|]).
  set (p := Push.payload c) in *. pose proof (next_gt cap Hcap g.(tv) p Hf).
  assert (bytes = next cap g.(tv) (psize p) - g.(tv)) as Hb.
  { unfold bytes. rewrite Hrv. unfold reservation_at. simpl. apply wrap_sub; [lia|].
    unfold next. pose proof (pad_bounds cap Hcap g.(tv) _ (ft_size _ _ Hf)). pose proof (ft_size _ _ Hf). lia. }
  assert (g.(tv) + bytes = next cap g.(tv) (psize p)) as Htb by lia.
  assert (i ∉ map fst g.(q1)) as Hni.
  { rewrite <- (slots_owners cap g.(cv)). intros ([v [j p']] & Hj & Hx)%list_elem_of_fmap. simpl in Hj. subst j.
    destruct (iv_owned _ _ Hi _ Hx) as (c0 & stage & Hp0 & _ & Hst & _). simpl in Hp0.
    rewrite Hp in Hp0. simplify_eq. unfold stage_of in Hst. by rewrite Hat in Hst. }
  assert (0 <= bytes) as Hb0 by lia. clearbody bytes. clear Hb. split; simpl; try apply Hi.
  - rewrite Hrv. simpl. by rewrite Htb.
  - rewrite map_app, ends_app, (iv_tv _ _ Hi). simpl. by rewrite Htb.
  - lia.
  - rewrite map_app. apply Forall_app. split; [apply Hi|]. by apply Forall_singleton.
  - intros x. rewrite slots_app, (iv_tv _ _ Hi). simpl. rewrite elem_of_app, list_elem_of_singleton.
    intros [Hx| ->].
    + destruct (iv_owned _ _ Hi x Hx) as (c0 & stage & Hp0 & ? & Hst & ?).
      exists c0, stage. rewrite list_lookup_insert_ne; [done|]. intros ->. rewrite Hp in Hp0. simplify_eq.
      unfold stage_of in Hst. by rewrite Hat in Hst.
    + exists (Push.goto (Push.WriteMarker rv) c), 0%nat. simpl.
      rewrite list_lookup_insert_eq by (by eapply lookup_lt_Some). split_and!; try done.
      * unfold stage_of. simpl. by rewrite Hrv.
      * split; lia.
  - rewrite map_app. apply NoDup_app. split; [apply Hi|]. split; [|apply NoDup_singleton].
    intros j Hj ->%list_elem_of_singleton. done.
  - by rewrite length_map, length_insert, (iv_lags _ _ Hi).
  - intros j cj lj Hj Hlj. change (map ?f ?l) with (f <$> l) in Hlj.
    apply list_lookup_fmap_Some in Hlj as (lj0 & -> & Hlj). destruct (decide (j = i)) as [->|Hne].
    + rewrite list_lookup_insert_eq in Hj by (by eapply lookup_lt_Some). rewrite Hl in Hlj. simplify_eq.
      split; simpl; try done; [lia|]. intros _. rewrite map_app. apply elem_of_app. right. simpl. set_solver.
    + rewrite list_lookup_insert_ne in Hj by done.
      pose proof (iv_producers _ _ Hi _ _ _ Hj Hlj) as [? ? Ho Ha]. split; simpl; [lia|done| |].
      * intros Hst. rewrite map_app. apply elem_of_app. left. by apply Ho.
      * destruct (Push.at_ cj); try done.
        -- destruct Ha as (hj & -> & ? & ?). exists hj. split; [done|]. lia.
        -- destruct Ha as (tj & hj & -> & ? & ? & ? & ?). exists tj, hj. split_and!; try done; lia.
        -- destruct Ha as (pj & rest & ->). by eexists _, _.
Qed.

(** ** The owner of a slot writes inside it. *)
Lemma write_ok s g i c lag stage v c' stage' d' :
  inv s g -> s.(System.producers) !! i = Some c -> s.(System.lags) !! i = Some lag ->
  stage_of c = Some (stage, reservation_at v c.(Push.payload)) ->
  (v, (i, c.(Push.payload))) ∈ slots cap g.(cv) g.(q1) ->
  c'.(Push.payload) = c.(Push.payload) -> c'.(Push.size) = c.(Push.size) ->
  stage_of c' = Some (stage', reservation_at v c.(Push.payload)) ->
  (forall rv, Push.at_ c' = Push.StoreCommit rv -> exists p rest, g.(q1) = (i, p) :: rest) ->
  len d' = cap -> stored cap stage' d' v c.(Push.payload) ->
  (forall x, g.(hv) <= x < g.(tv) -> ~ (v <= x < next cap v (psize c.(Push.payload))) ->
     byte_at cap d' x = byte_at cap s.(System.ring).(RingBuffer.data) x) ->
  inv (System.mk (RingBuffer.with_data d' s.(System.ring)) (<[i := c']> s.(System.producers))
        s.(System.lags) s.(System.consumer)) g.
Proof.
  intros Hi Hp Hl Hst Hslot Hpay Hsz Hst' Hsc Hd Hsto Hsame.
  pose proof (slots_range cap Hcap _ _ _ (iv_fits1 _ _ Hi) Hslot) as (Hv & Hn & Hf & _). simpl in Hv, Hn, Hf.
  rewrite (iv_tv _ _ Hi) in Hn. pose proof (inv_order s g Hi) as Hord. split; simpl; try apply Hi; try done.
  - eapply complete_same; [done|apply Hi| |apply Hi]. rewrite (iv_cv _ _ Hi). intros x Hx. apply Hsame; lia.
  - intros x Hx. destruct (slots_disjoint cap Hcap g.(cv) g.(q1) x _ (iv_fits1 _ _ Hi) (iv_owners _ _ Hi) Hx Hslot) as [->|[Hne Hdis]].
    + exists c', stage'. simpl. rewrite list_lookup_insert_eq by (by eapply lookup_lt_Some). done.
    + destruct (iv_owned _ _ Hi x Hx) as (c0 & stage0 & Hp0 & ? & Hst0 & Hsto0).
      exists c0, stage0. rewrite list_lookup_insert_ne by (by simpl in Hne). split; [done|]. split; [done|].
      split; [done|]. pose proof (slots_range cap Hcap _ _ _ (iv_fits1 _ _ Hi) Hx) as (Hvx & Hnx & Hfx & _).
      rewrite (iv_tv _ _ Hi) in Hnx. eapply stored_same; [done|done| |done]. intros y Hy. simpl in Hdis.
      apply Hsame; lia.
  - by rewrite length_insert, (iv_lags _ _ Hi).
  - intros j cj lj Hj Hlj. destruct (decide (j = i)) as [->|Hne].
    + rewrite list_lookup_insert_eq in Hj by (by eapply lookup_lt_Some). injection Hj as <-.
      pose proof (iv_producers _ _ Hi _ _ _ Hp Hlj) as [? Hfi Ho _]. split; [done| | |].
      * intros _. rewrite Hpay, Hsz. apply Hfi. unfold Push.result_of, stage_of in *. by destruct (Push.at_ c).
      * intros _. apply Ho. by rewrite Hst.
      * unfold stage_of in Hst'. destruct (Push.at_ c') eqn:E; try done. by eapply Hsc.
    + rewrite list_lookup_insert_ne in Hj by done. by apply (iv_producers _ _ Hi).
Qed.

(** Writing inside a stretch of the window changes nothing else in it. *)
Lemma window_write s g a bs :
  inv s g -> g.(hv) <= a -> a + len bs <= g.(tv) -> a mod cap + len bs <= cap ->
  exists d', write_at s.(System.ring).(RingBuffer.data) (a mod cap) bs = Some d' /\ len d' = cap /\
    ring_span cap d' a (length bs) = bs /\
    forall x, g.(hv) <= x < g.(tv) -> ~ (a <= x < a + len bs) ->
      byte_at cap d' x = byte_at cap s.(System.ring).(RingBuffer.data) x.
Proof.
  intros Hi Ha Hb Hfit. pose proof (iv_window _ _ Hi).
  destruct (write_at_span cap Hcap _ a bs (iv_data _ _ Hi) Hfit) as (d' & Hw & Hl & Hs & Hx).
  exists d'. split; [done|]. split; [done|]. split; [done|]. intros x Hr Ho. apply Hx; [lia|done].
Qed.

Lemma start_index_eq s g v p :
  inv s g -> Push.start_index s.(System.ring) (reservation_at v p) = (v + pad cap v (psize p)) mod cap.
Proof.
  intros Hi. unfold Push.start_index. rewrite (iv_cap _ _ Hi). simpl. by rewrite wrap_add, (idx_wrap cap Hdiv).
Qed.

(** A step that writes: it does not leave the buffer and keeps the invariant. *)
Lemma writing_step s g i c lag stage rv :
  inv s g -> s.(System.producers) !! i = Some c -> s.(System.lags) !! i = Some lag ->
  stage_of c = Some (stage, rv) -> (stage < 3)%nat ->
  exists ring' c', Push.step s.(System.ring) c = Some (ring', c') /\ System.push_label c c' = System.Tau /\
    System.next_lags i c System.Tau s.(System.lags) = s.(System.lags) /\
    inv (System.mk ring' (<[i := c']> s.(System.producers)) s.(System.lags) s.(System.consumer)) g.
Proof.
  intros Hi Hp Hl Hst Hlt.
  destruct (owner_slot s g i c lag stage rv Hi Hp Hl Hst) as (v & Hslot & -> & Hsto & Hf & Hsz & Hv & Hn).
  set (p := Push.payload c) in *. pose proof (inv_order s g Hi). pose proof (psize_bounds p).
  pose proof (pad_bounds cap Hcap v (psize p) (ft_size _ _ Hf)) as Hpad. pose proof (start_fits cap Hcap v (psize p) (ft_size _ _ Hf)) as Hfit.
  assert (forall c' stage' d', c'.(Push.payload) = p -> c'.(Push.size) = c.(Push.size) ->
    stage_of c' = Some (stage', reservation_at v p) -> (forall rv, Push.at_ c' <> Push.StoreCommit rv) ->
    len d' = cap -> stored cap stage' d' v p ->
    (forall x, g.(hv) <= x < g.(tv) -> ~ (v <= x < next cap v (psize p)) ->
      byte_at cap d' x = byte_at cap s.(System.ring).(RingBuffer.data) x) ->
    inv (System.mk (RingBuffer.with_data d' s.(System.ring)) (<[i := c']> s.(System.producers))
        s.(System.lags) s.(System.consumer)) g) as Hwr.
  { intros c' stage' d' E1 E2 E3 E4 E5 E6 E7. eapply (write_ok s g i c lag stage v c' stage' d'); try done.
    intros rv E. by apply E4 in E. }
  unfold next in Hn. unfold stage_of in Hst. unfold Push.step. rewrite !(iv_cap _ _ Hi).
  destruct (Push.at_ c) eqn:Hat; simplify_eq/=; try lia.
  - destruct (marked cap v (psize p)) eqn:Hm.
    + rewrite (idx_wrap cap Hdiv). pose proof (marker_room cap _ _ Hm) as H4.
      assert (4 <= room cap v) as Hr by (unfold marked in Hm; apply andb_true_iff in Hm as [Hm%Z.leb_le _]; done).
      destruct (window_write s g v (to_le_bytes 4 WRAP_MARKER) Hi) as (d' & Hw & Hld & Hsp & Hx);
        [lia|rewrite to_le_bytes_length; lia|rewrite to_le_bytes_length; unfold room in Hr; lia|].
      unfold write_u32_le. rewrite Hw. eexists _, _. split; [done|]. unfold System.push_label, System.next_lags. rewrite Hat.
      split; [done|]. split; [done|]. eapply (Hwr _ 1%nat); try done.
      * split; [by intros|lia|lia].
      * intros x Hr1 Hr2. apply Hx; [done|]. rewrite to_le_bytes_length. unfold next in Hr2. lia.
    + eexists _, _. split; [done|]. unfold System.push_label, System.next_lags. rewrite Hat. split; [done|]. split; [done|].
      assert (RingBuffer.with_data (RingBuffer.data (System.ring s)) (System.ring s) = System.ring s) as <- by by destruct (System.ring s).
      eapply (Hwr _ 1%nat); try done; [apply Hi|]. split; [by intros; congruence|lia|lia].
  - change (Push.payload c) with p. rewrite (start_index_eq s g v p Hi), (wrap_small 32 (len p)) by (unfold uint; pose proof (ft_len _ _ Hf); lia).
    destruct (window_write s g (v + pad cap v (psize p)) (to_le_bytes 4 (len p)) Hi) as (d' & Hw & Hld & Hsp & Hx);
      [lia|rewrite to_le_bytes_length; lia|rewrite to_le_bytes_length; lia|].
    unfold write_u32_le. rewrite Hw. eexists _, _. split; [done|]. unfold System.push_label, System.next_lags. rewrite Hat.
    rewrite to_le_bytes_length in Hx, Hsp. split; [done|]. split; [done|]. eapply (Hwr _ 2%nat); try done.
    + split; [|by intros|lia]. intros _ Hm. pose proof (marker_room cap _ _ Hm).
      rewrite (ring_span_same cap s.(System.ring).(RingBuffer.data)); [by apply (st_marker _ _ _ _ _ Hsto); [lia|]|].
      intros x Hr. apply Hx; lia.
    + intros x Hr1 Hr2. apply Hx; [done|]. unfold next in Hr2. lia.
  - change (Push.payload c) with p. rewrite (start_index_eq s g v p Hi).
    assert (exists d', write_at (RingBuffer.data (System.ring s)) ((v + pad cap v (psize p)) mod cap + 4) p = Some d' /\
      len d' = cap /\ ring_span cap d' (v + pad cap v (psize p) + 4) (length p) = p /\
      forall x, g.(hv) <= x < g.(tv) -> ~ (v + pad cap v (psize p) + 4 <= x < v + pad cap v (psize p) + 4 + len p) ->
        byte_at cap d' x = byte_at cap s.(System.ring).(RingBuffer.data) x) as (d' & Hw & Hld & Hsp & Hx).
    { destruct (decide (p = [])) as [->|Hne].
      - pose proof (iv_data _ _ Hi). pose proof (Z.mod_pos_bound (v + pad cap v (psize (@nil Z))) cap ltac:(lia)).
        set (a := (v + pad cap v (psize (@nil Z))) mod cap) in *.
        exists (RingBuffer.data (System.ring s)). split; [|done]. unfold write_at.
        rewrite (proj2 (Z.leb_le _ _)) by lia. rewrite (proj2 (Z.leb_le _ _)) by (change (len (@nil Z)) with 0; lia).
        cbn [andb app length]. by rewrite Nat.add_0_r, take_drop.
      - assert (0 < len p) by (destruct p; [done|simpl; lia]).
        rewrite <- (idx_add cap Hcap) by lia. apply window_write; [done|lia|lia|rewrite (idx_add cap Hcap) by lia; lia]. }
    rewrite Hw. eexists _, _. split; [done|]. unfold System.push_label, System.next_lags. rewrite Hat.
    split; [done|]. split; [done|]. eapply (Hwr _ 3%nat); try done.
    + split; [| |by intros].
      * intros _ Hm. pose proof (marker_room cap _ _ Hm).
        rewrite (ring_span_same cap s.(System.ring).(RingBuffer.data)); [by apply (st_marker _ _ _ _ _ Hsto); [lia|]|].
        intros x Hr. apply Hx; lia.
      * intros _. rewrite (ring_span_same cap s.(System.ring).(RingBuffer.data)); [by apply (st_len _ _ _ _ _ Hsto)|].
        intros x Hr. apply Hx; lia.
    + intros x Hr1 Hr2. apply Hx; [done|]. unfold next in Hr2. lia.
Qed.

(** ** Waiting for one's turn, and committing *)
Lemma first_slot g i p :
  Forall (fits cap) (map snd g.(q1)) -> (g.(cv), (i, p)) ∈ slots cap g.(cv) g.(q1) ->
  exists rest, g.(q1) = (i, p) :: rest.
Proof.
  intros Hf Hs. destruct (q1 g) as [|o q] eqn:E; simpl in *; [set_solver|].
  apply Forall_cons in Hf as [Ho Hf]. apply elem_of_cons in Hs as [Hs|Hs]; [simplify_eq; by eexists|].
  pose proof (slots_range cap Hcap _ _ _ Hf Hs) as (Hlt & _). pose proof (next_gt cap Hcap g.(cv) _ Ho). simpl in Hlt. lia.
Qed.

Lemma with_data_id r : RingBuffer.with_data r.(RingBuffer.data) r = r.
Proof. by destruct r. Qed.

Lemma spin_ok s g i c lag rv :
  inv s g -> s.(System.producers) !! i = Some c -> s.(System.lags) !! i = Some lag ->
  Push.at_ c = Push.Spin rv ->
  inv (System.mk s.(System.ring)
        (<[i := if RingBuffer.tail_commit s.(System.ring) =? rv.(Push.tail) then Push.goto (Push.StoreCommit rv) c else c]>
           s.(System.producers)) s.(System.lags) s.(System.consumer)) g.
Proof.
  intros Hi Hp Hl Hat.
  destruct (owner_slot s g i c lag 3 rv Hi Hp Hl ltac:(unfold stage_of; by rewrite Hat))
    as (v & Hslot & -> & Hsto & Hf & Hsz & Hv & Hn).
  destruct (Z.eqb_spec (RingBuffer.tail_commit (System.ring s)) (Push.tail (reservation_at v (Push.payload c)))) as [He|].
  2: { rewrite list_insert_id by done. by destruct s. }
  rewrite (iv_commit _ _ Hi) in He. simpl in He. pose proof (inv_order _ _ Hi). pose proof (iv_window _ _ Hi).
  pose proof (next_gt cap Hcap v _ Hf). apply (wrap_inj g.(cv) v) in He; [|lia|lia]. subst v.
  destruct (first_slot g i _ (iv_fits1 _ _ Hi) Hslot) as [rest Hq].
  rewrite <- (with_data_id s.(System.ring)).
  eapply (write_ok s g i c lag 3 g.(cv) _ 3); try done.
  - unfold stage_of. by rewrite Hat.
  - intros. by eexists _, _.
  - apply Hi.
Qed.

Lemma commit_ok s g i c lag rv :
  inv s g -> s.(System.producers) !! i = Some c -> s.(System.lags) !! i = Some lag ->
  Push.at_ c = Push.StoreCommit rv ->
  exists p rest, g.(q1) = (i, p) :: rest /\
  inv (System.mk (RingBuffer.with_tail_commit rv.(Push.new_tail) s.(System.ring))
        (<[i := Push.goto (Push.Done (Ok tt)) c]> s.(System.producers)) s.(System.lags) s.(System.consumer))
    (mk_ghost g.(hv) (next cap g.(cv) (psize p)) g.(tv) (g.(q0) ++ [p]) rest).
Proof.
  intros Hi Hp Hl Hat. pose proof (iv_producers _ _ Hi _ _ _ Hp Hl) as Hok. pose proof (po_at _ _ _ _ Hok) as Ha.
  rewrite Hat in Ha. destruct Ha as (p & rest & Hq). exists p, rest. split; [done|].
  assert ((g.(cv), (i, p)) ∈ slots cap g.(cv) g.(q1)) as Hslot by (rewrite Hq; simpl; set_solver).
  destruct (iv_owned _ _ Hi _ Hslot) as (c0 & stage & Hp0 & Hpay & Hst & Hsto). simpl in *.
  rewrite Hp in Hp0. injection Hp0 as <-. unfold stage_of in Hst. rewrite Hat in Hst. simplify_eq.
  pose proof (iv_fits1 _ _ Hi) as Hf1. rewrite Hq in Hf1. simpl in Hf1. apply Forall_cons in Hf1 as [Hf Hf1].
  pose proof (iv_owners _ _ Hi) as Hnd. rewrite Hq in Hnd. simpl in Hnd. apply NoDup_cons in Hnd as [Hni Hnd].
  pose proof (iv_tv _ _ Hi) as Htv. rewrite Hq in Htv. simpl in Htv. pose proof (next_gt cap Hcap g.(cv) _ Hf).
  split; simpl; try apply Hi; try done.
  - by rewrite ends_app, (iv_cv _ _ Hi).
  - apply Forall_app. split; [apply Hi|]. by apply Forall_singleton.
  - apply (proj2 (complete_app cap Hcap _ _ _ _)). split; [apply Hi|]. rewrite (iv_cv _ _ Hi). by split.
  - intros x Hx. assert (x ∈ slots cap g.(cv) g.(q1)) as Hx' by (rewrite Hq; simpl; set_solver).
    destruct (iv_owned _ _ Hi x Hx') as (c1 & stage & Hp1 & ? & ? & ?). exists c1, stage.
    rewrite list_lookup_insert_ne; [done|]. intros ->. apply Hni.
    rewrite <- (slots_owners cap (next cap g.(cv) (psize (Push.payload c)))). apply list_elem_of_fmap. by exists x.
  - by rewrite length_insert, (iv_lags _ _ Hi).
  - intros j cj lj Hj Hlj. destruct (decide (j = i)) as [->|Hne].
    + rewrite list_lookup_insert_eq in Hj by (by eapply lookup_lt_Some). rewrite Hl in Hlj. simplify_eq.
      split; simpl; try done; [apply Hok|]. by intros [? ?].
    + rewrite list_lookup_insert_ne in Hj by done.
      pose proof (iv_producers _ _ Hi _ _ _ Hj Hlj) as [? ? Ho Haj]. split; simpl; [done|done| |].
      * intros Hst%Ho. rewrite Hq in Hst. simpl in Hst. set_solver.
      * destruct (Push.at_ cj); try done. destruct Haj as (pj & r & Hr). rewrite Hq in Hr. by simplify_eq.
  - pose proof (iv_consumer _ _ Hi) as Hc. unfold consumer_ok in *. simpl. destruct (Pop.at_ _); try done.
    + destruct Hc as (? & ? & p0 & r0 & cv' & E & ? & ?). split; [done|]. split; [done|].
      exists p0, (r0 ++ [Push.payload c]), cv'. rewrite E. split; [done|]. split; [done|]. lia.
    + destruct Hc as (p0 & r0 & E & ?). exists p0, (r0 ++ [Push.payload c]). by rewrite E.
    + destruct Hc as (? & p0 & r0 & E & ?). split; [done|]. exists p0, (r0 ++ [Push.payload c]). by rewrite E.
    + destruct Hc as (p0 & r0 & E & ?). exists p0, (r0 ++ [Push.payload c]). by rewrite E.
Qed.

(** One step of a producer: never outside the buffer, and what the
    specification allows. *)
Lemma push_step_ok s g i c lag :
  inv s g -> s.(System.producers) !! i = Some c -> s.(System.lags) !! i = Some lag ->
  System.timely s.(System.ring).(RingBuffer.cap) c lag = true ->
  exists ring' c' g', Push.step s.(System.ring) c = Some (ring', c') /\
    inv (System.mk ring' (<[i := c']> s.(System.producers))
          (System.next_lags i c (System.push_label c c') s.(System.lags)) s.(System.consumer)) g' /\
    QueueSpec.step (abstract g) (System.push_label c c') = Some (abstract g').
Proof.
  intros Hi Hp Hl Ht. pose proof (inv_order _ _ Hi) as Hord. pose proof (iv_producers _ _ Hi _ _ _ Hp Hl) as Hok.
  destruct (stage_of c) as [[stage rv]|] eqn:Hst.
  - destruct (decide (stage < 3)%nat).
    + destruct (writing_step s g i c lag stage rv) as (ring' & c' & Hs & Hlb & Hlg & Hi'); try done.
      exists ring', c', g. rewrite Hlb, Hlg. done.
    + unfold stage_of in Hst. destruct (Push.at_ c) eqn:Hat; simplify_eq; try lia.
      * pose proof (spin_ok s g i c lag rv Hi Hp Hl Hat) as Hi'. unfold Push.step. rewrite Hat.
        eexists _, _, g. split; [done|]. unfold System.push_label, System.next_lags. rewrite Hat.
        destruct (_ =? _); simpl; rewrite ?Hat; done.
      * destruct (commit_ok s g i c lag rv Hi Hp Hl Hat) as (p & rest & Hq & Hi'). unfold Push.step. rewrite Hat.
        eexists _, _, _. split; [done|]. unfold System.push_label, System.next_lags. rewrite Hat. split; [exact Hi'|].
        unfold QueueSpec.step, abstract. simpl. rewrite length_app, Hq. simpl.
        rewrite (proj2 (Nat.ltb_lt _ _)) by lia. by rewrite length_app, <- app_assoc.
  - unfold Push.step, System.timely in *. rewrite (iv_cap _ _ Hi), (iv_reserve _ _ Hi), (iv_head _ _ Hi) in *.
    unfold stage_of in Hst. destruct (Push.at_ c) eqn:Hat; simplify_eq; unfold System.push_label, System.next_lags; rewrite Hat.
    + eexists _, _, g. split; [done|]. split; [|done]. eapply inv_local; try done; [by unfold stage_of; rewrite Hat|].
      pose proof (po_fits _ _ _ _ Hok) as Hf. unfold Push.result_of in Hf. rewrite Hat in Hf.
      split; simpl; [lia|done|by intros [? ?]|]. exists g.(hv). pose proof (iv_window _ _ Hi). split; [done|]. lia.
    + apply Z.ltb_lt in Ht. destruct (plan_ok g i c head lag Hat Hok Ht ltac:(lia)) as [Hok' Hst'].
      eexists _, _, g. split; [done|]. set (c' := Push.goto _ c) in *.
      assert (inv (System.mk s.(System.ring) (<[i := c']> s.(System.producers)) s.(System.lags) s.(System.consumer)) g)
        by (eapply inv_local_same; try done; unfold stage_of; by rewrite Hat).
      done.
    + apply Z.ltb_lt in Ht. destruct (Z.eqb_spec (wrap 32 (tv g)) (Push.tail rv)) as [He|].
      * pose proof (reserve_ok s g i c lag rv Hi Hp Hl Hat Ht ltac:(by rewrite (iv_reserve _ _ Hi))) as Hi'.
        eexists _, _, _. split; [done|]. simpl. split; [exact Hi'|]. unfold QueueSpec.step, abstract. simpl.
        by rewrite map_app, app_assoc.
      * eexists _, _, g. split; [done|]. split; [|done]. eapply inv_local_same; try done; [by unfold stage_of; rewrite Hat|].
        pose proof (po_fits _ _ _ _ Hok) as Hf. unfold Push.result_of in Hf. rewrite Hat in Hf.
        split; simpl; [apply Hok|done|by intros [? ?]|done].
    + eexists _, _, g. split; [done|]. rewrite list_insert_id by done. by destruct s.
Qed.

(** ** The consumer *)
Lemma inv_consumer s g c' :
  inv s g -> consumer_ok g c' -> inv (System.mk s.(System.ring) s.(System.producers) s.(System.lags) c') g.
Proof. intros Hi Hc. split; try apply Hi. done. Qed.

(** Moving the head within or past the first record. *)
Lemma advance_ok s g h' q' c' :
  inv s g -> g.(hv) <= h' -> ends cap h' q' = g.(cv) -> Forall (fits cap) q' ->
  complete cap s.(System.ring).(RingBuffer.data) h' q' ->
  consumer_ok (mk_ghost h' g.(cv) g.(tv) q' g.(q1)) c' ->
  inv (System.mk (RingBuffer.with_head (wrap 32 h') s.(System.ring)) s.(System.producers) s.(System.lags) c')
    (mk_ghost h' g.(cv) g.(tv) q' g.(q1)).
Proof.
  intros Hi Hh He Hf Hc Hok. pose proof (iv_window _ _ Hi). split; simpl; try apply Hi; try done; [lia|].
  intros i c lag Hp Hl. pose proof (iv_producers _ _ Hi _ _ _ Hp Hl) as [? ? ? Ha]. split; simpl; try done.
  destruct (Push.at_ c); try done.
  - destruct Ha as (hj & -> & ? & ?). exists hj. split; [done|]. lia.
  - destruct Ha as (tj & hj & -> & ? & ? & ? & ?). exists tj, hj. split_and!; try done; lia.
Qed.

(** The first committed record, seen from the head. *)
Lemma first_record s g p rest :
  inv s g -> g.(q0) = p :: rest ->
  fits cap p /\ Forall (fits cap) rest /\ next cap g.(hv) (psize p) <= g.(cv) /\
  ends cap (next cap g.(hv) (psize p)) rest = g.(cv) /\
  stored cap 3 s.(System.ring).(RingBuffer.data) g.(hv) p /\
  complete cap s.(System.ring).(RingBuffer.data) (next cap g.(hv) (psize p)) rest.
Proof.
  intros Hi Hq. pose proof (iv_fits0 _ _ Hi) as Hf. pose proof (iv_cv _ _ Hi) as He.
  pose proof (iv_complete _ _ Hi) as Hc. rewrite Hq in *. apply Forall_cons in Hf as [Hp Hr]. simpl in He, Hc.
  destruct Hc. pose proof (ends_ge cap Hcap (next cap g.(hv) (psize p)) _ Hr). split_and!; try done. lia.
Qed.

Lemma skip_ok s g p rest c' :
  inv s g -> g.(q0) = p :: rest -> Pop.at_ c' = Pop.LoadHead ->
  let h' := g.(hv) + pad cap g.(hv) (psize p) in
  inv (System.mk (RingBuffer.with_head (wrap 32 h') s.(System.ring)) s.(System.producers) s.(System.lags) c')
    (mk_ghost h' g.(cv) g.(tv) g.(q0) g.(q1)).
Proof.
  intros Hi Hq Hc h'. destruct (first_record s g p rest Hi Hq) as (Hf & Hr & _ & He & [Hm Hln Hpl] & Hcm).
  pose proof (pad_bounds cap Hcap g.(hv) _ (ft_size _ _ Hf)). pose proof (next_after_pad cap Hcap g.(hv) _ (ft_size _ _ Hf)) as Hz.
  assert (next cap h' (psize p) = next cap g.(hv) (psize p)) as Hn by (unfold next, h'; lia).
  apply advance_ok; try done; unfold h'; [lia|..]; fold h'.
  - rewrite Hq. simpl. by rewrite Hn.
  - apply Hi.
  - rewrite Hq. simpl. rewrite Hn. split; [|done]. fold h' in Hz. split.
    + intros _ Hmk. pose proof (marker_room cap _ _ Hmk). lia.
    + intros _. rewrite Hz, Z.add_0_r. unfold h'. apply Hln. lia.
    + intros _. rewrite Hz, Z.add_0_r. unfold h'. apply Hpl. lia.
  - unfold consumer_ok. by rewrite Hc.
Qed.

Lemma read_len_step s g p rest cv' c :
  inv s g -> Pop.at_ c = Pop.ReadLen (wrap 32 g.(hv)) (wrap 32 cv') -> 4 <= room cap g.(hv) ->
  g.(q0) = p :: rest -> next cap g.(hv) (psize p) <= cv' <= g.(cv) ->
  (pad cap g.(hv) (psize p) = 0 <-> marked cap g.(hv) (psize p) = false) /\
  Pop.step s.(System.ring) c = Some (s.(System.ring), Pop.goto
    (if marked cap g.(hv) (psize p) then Pop.Skip (wrap 32 (g.(hv) + pad cap g.(hv) (psize p)))
     else match c.(Pop.max) with
          | Some m => if m <? len p
                      then Pop.StoreHead (wrap 32 (next cap g.(hv) (psize p))) (Err (TooLarge (len p) m))
                      else Pop.ReadPayload (wrap 32 g.(hv)) (len p) (psize p)
          | None => Pop.ReadPayload (wrap 32 g.(hv)) (len p) (psize p)
          end) c).
Proof.
  intros Hi Hat H4 Hq [Hle Hcv']. destruct (first_record s g p rest Hi Hq) as (Hf & _ & Hn & _ & [Hm Hln Hpl] & _).
  pose proof (inv_order _ _ Hi). pose proof (iv_window _ _ Hi). pose proof (psize_bounds p). pose proof (ft_size _ _ Hf).
  pose proof usize_max_ge as Hub. unfold usize_max in Hub.
  unfold Pop.step. rewrite Hat, (iv_cap _ _ Hi), !(idx_wrap cap Hdiv). unfold read_u32_le.
  rewrite (read_at_span cap Hcap) by (try apply Hi; unfold room in H4; lia). change (Z.to_nat 4) with 4%nat.
  cbn [fmap option_fmap option_map]. fold (room cap g.(hv)). unfold Pop.after_len, pad.
  rewrite (proj2 (Z.ltb_ge (room cap g.(hv)) 4)) by lia.
  destruct (marked cap g.(hv) (psize p)) eqn:Hmk; unfold marked in Hmk.
  - apply andb_true_iff in Hmk as [_ Hlt%Z.ltb_lt]. rewrite (proj2 (Z.ltb_lt _ _)) by lia. split; [split; [lia|done]|].
    rewrite Hm by (lia || done). rewrite (from_to_le_bytes_id 4 WRAP_MARKER) by (unfold uint, WRAP_MARKER; simpl; lia).
    by rewrite Z.eqb_refl, wrap_add.
  - rewrite (proj2 (Z.leb_le _ _)) in Hmk by lia. cbn [andb] in Hmk. apply Z.ltb_ge in Hmk as Hroom.
    assert (pad cap g.(hv) (psize p) = 0) as Hp0 by (unfold pad; by rewrite !(proj2 (Z.ltb_ge _ _)) by lia).
    rewrite (proj2 (Z.ltb_ge (room cap g.(hv)) (psize p))) by lia. split; [done|].
    rewrite Hp0, Z.add_0_r in Hln. rewrite Hln by lia. pose proof (ft_len _ _ Hf). pose proof (next_gt cap Hcap g.(hv) p Hf).
    rewrite from_to_le_bytes_id by (unfold uint; simpl; lia).
    rewrite (proj2 (Z.eqb_neq _ _)) by (unfold WRAP_MARKER; lia).
    rewrite record_size_checked_spec, (proj2 (Z.ltb_lt _ _)) by lia. cbv beta iota.
    rewrite (proj2 (Z.ltb_ge (room cap g.(hv)) _)) by lia. rewrite wrap_sub by lia.
    rewrite !(wrap_small 32 (psize p)) by (unfold uint; lia). unfold next in Hle. rewrite (proj2 (Z.ltb_ge _ _)) by lia.
    rewrite wrap_add. unfold next. rewrite Hp0, Z.add_0_r. done.
Qed.

Lemma read_len_ok s g h t c :
  inv s g -> Pop.at_ c = Pop.ReadLen h t -> consumer_ok g c ->
  exists c', Pop.step s.(System.ring) c = Some (s.(System.ring), c') /\ consumer_ok g c' /\
    System.pop_label c c' = System.Tau.
Proof.
  intros Hi Hat Hc. unfold consumer_ok in Hc. rewrite Hat in Hc.
  destruct Hc as (-> & H4 & p & rest & cv' & Hq & -> & Hle).
  destruct (read_len_step s g p rest cv' c Hi Hat H4 Hq Hle) as [Hmk Hs]. eexists. split; [exact Hs|].
  unfold System.pop_label. rewrite Hat. destruct (marked cap g.(hv) (psize p)).
  { split; [|done]. unfold consumer_ok. cbn. by exists p, rest. }
  destruct (Pop.max c) as [m|]; [destruct (Z.ltb_spec m (len p))|]; cbn; (split; [|done]); unfold consumer_ok; cbn.
  - exists p, rest. split; [done|]. split; [done|]. right. by exists m.
  - split; [done|]. exists p, rest. by rewrite (proj2 Hmk).
  - split; [done|]. exists p, rest. by rewrite (proj2 Hmk).
Qed.

Lemma read_payload_step s g p rest c :
  inv s g -> Pop.at_ c = Pop.ReadPayload (wrap 32 g.(hv)) (len p) (psize p) -> g.(q0) = p :: rest ->
  pad cap g.(hv) (psize p) = 0 ->
  Pop.step s.(System.ring) c =
    Some (s.(System.ring), Pop.goto (Pop.StoreHead (wrap 32 (next cap g.(hv) (psize p))) (Ok p)) c).
Proof.
  intros Hi Hat Hq Hp0.
  destruct (first_record s g p rest Hi Hq) as (Hf & _ & Hn & _ & [_ _ Hpl] & _).
  pose proof (psize_bounds p). pose proof (ft_size _ _ Hf). pose proof (start_fits cap Hcap g.(hv) _ (ft_size _ _ Hf)) as Hfit.
  rewrite Hp0, Z.add_0_r in Hfit. rewrite Hp0, Z.add_0_r in Hpl. pose proof (iv_data _ _ Hi) as Hd.
  pose proof (Z.mod_pos_bound g.(hv) cap ltac:(lia)).
  assert (read_at (RingBuffer.data (System.ring s)) (g.(hv) mod cap + 4) (len p) = Some p) as Hr.
  { destruct (decide (p = [])) as [->|Hne].
    - unfold read_at. rewrite (proj2 (Z.leb_le _ _)) by lia. rewrite (proj2 (Z.leb_le _ _)) by (change (len (@nil Z)) with 0; lia). done.
    - assert (0 < len p) by (destruct p; [done|simpl; lia]). rewrite <- (idx_add cap Hcap) by lia.
      rewrite (read_at_span cap Hcap) by (rewrite ?(idx_add cap Hcap) by lia; lia). rewrite Nat2Z.id. f_equal. apply Hpl. lia. }
  unfold Pop.step. rewrite Hat, (iv_cap _ _ Hi), (idx_wrap cap Hdiv), Hr.
  rewrite (wrap_small 32 (psize p)) by (unfold uint; lia). rewrite wrap_add. unfold next. by rewrite Hp0, Z.add_0_r.
Qed.

Lemma read_payload_ok s g h l total c :
  inv s g -> Pop.at_ c = Pop.ReadPayload h l total -> consumer_ok g c ->
  exists c', Pop.step s.(System.ring) c = Some (s.(System.ring), c') /\ consumer_ok g c' /\
    System.pop_label c c' = System.Tau.
Proof.
  intros Hi Hat Hc. unfold consumer_ok in Hc. rewrite Hat in Hc.
  destruct Hc as (-> & p & rest & Hq & -> & -> & Hp0). eexists.
  split; [by apply (read_payload_step s g p rest)|]. unfold System.pop_label. rewrite Hat. split; [|done].
  unfold consumer_ok. cbn. exists p, rest. split; [done|]. split; [done|]. by left.
Qed.

Lemma pop_step_ok s g :
  inv s g ->
  exists ring' c' g', Pop.step s.(System.ring) s.(System.consumer) = Some (ring', c') /\
    inv (System.mk ring' s.(System.producers) s.(System.lags) c') g' /\
    QueueSpec.step (abstract g) (System.pop_label s.(System.consumer) c') = Some (abstract g').
Proof.
  intros Hi. pose proof (iv_consumer _ _ Hi) as Hc. set (c := System.consumer s) in *.
  pose proof (inv_order _ _ Hi). pose proof (iv_window _ _ Hi).
  destruct (Pop.at_ c) as [|h|h t|n|h l total|n res|res] eqn:Hat.
  - unfold Pop.step, System.pop_label. rewrite Hat. eexists _, _, g. split; [done|]. split; [|done].
    apply inv_consumer; [done|]. apply Hi.
  - unfold consumer_ok in Hc. rewrite Hat in Hc. subst h. unfold Pop.step, System.pop_label.
    rewrite Hat, (iv_cap _ _ Hi), (iv_commit _ _ Hi), !(idx_wrap cap Hdiv). fold (room cap g.(hv)).
    destruct (Z.eqb_spec (wrap 32 g.(hv)) (wrap 32 g.(cv))) as [He|Hne].
    { eexists _, _, g. split; [done|]. split; [|done]. by apply inv_consumer. }
    destruct (q0 g) as [|p rest] eqn:Hq.
    { exfalso. apply Hne. pose proof (iv_cv _ _ Hi) as Hcv. rewrite Hq in Hcv. simpl in Hcv. by rewrite Hcv. }
    destruct (first_record s g p rest Hi Hq) as (Hf & _ & Hn & _). eexists _, _, g. split; [done|].
    split; [|by destruct (_ <? _)]. apply inv_consumer; [done|].
    destruct (Z.ltb_spec (room cap g.(hv)) 4); unfold consumer_ok; cbn.
    + exists p, rest. split; [done|]. rewrite wrap_add. do 2 f_equal. unfold pad.
      by rewrite (proj2 (Z.ltb_lt _ _)) by lia.
    + split; [done|]. split; [done|]. exists p, rest, g.(cv). split; [done|]. split; [done|]. lia.
  - destruct (read_len_ok s g h t c Hi Hat Hc) as (c' & Hs & Hc' & Hlb). exists s.(System.ring), c', g.
    rewrite Hlb. split; [done|]. split; [by apply inv_consumer|done].
  - unfold consumer_ok in Hc. rewrite Hat in Hc. destruct Hc as (p & rest & Hq & ->).
    unfold Pop.step, System.pop_label. rewrite Hat. eexists _, _, _. split; [done|].
    split; [by eapply skip_ok|]. done.
  - destruct (read_payload_ok s g h l total c Hi Hat Hc) as (c' & Hs & Hc' & Hlb). exists s.(System.ring), c', g.
    rewrite Hlb. split; [done|]. split; [by apply inv_consumer|done].
  - unfold consumer_ok in Hc. rewrite Hat in Hc. destruct Hc as (p & rest & Hq & -> & Hres).
    destruct (first_record s g p rest Hi Hq) as (Hf & Hfr & Hn & He & _ & Hcm). pose proof (next_gt cap Hcap g.(hv) _ Hf).
    unfold Pop.step, System.pop_label. rewrite Hat. eexists _, _, _. split; [done|]. split.
    + apply (advance_ok s g _ rest); try done. lia.
    + unfold QueueSpec.step, abstract. cbn. rewrite Hq. cbn. destruct Hres as [->|(m & -> & Hm)].
      * by rewrite bool_decide_true.
      * rewrite Z.eqb_refl, (proj2 (Z.ltb_lt _ _)) by done. done.
  - unfold Pop.step, System.pop_label. rewrite Hat. eexists _, _, g. split; [done|]. split; [|done].
    by apply inv_consumer.
Qed.
End Invariant.
