(* ===== verification/RingProps.v ===== *)
(** * Properties of the ring buffer

    Any interleaving of producers and the consumer implements the queue of
    [QueueSpec] and stays inside the buffer; a reservation is always completed
    by its owner; a pop alone terminates.  Two limits of the code are shown on
    concrete runs. *)

From S2P Require Import Prelude Bytes Ring RingFacts.

(** The capacities the ring works for: accepted by [new], at most 2 GiB, and
    dividing 2^32, so that positions and indices wrap together. *)
Record capacity_ok (cap : Z) (r : RingBuffer.t) : Prop := {
  ck_new : RingBuffer.new cap = Some r;
  ck_max : cap <= 2 ^ 31;
  ck_div : (cap | 2 ^ 32);
}.

Section Refinement.
Context `{Target}.

Lemma capacity_bounds cap r : capacity_ok cap r -> 4 <= cap <= 2 ^ 31.
Proof.
  intros [Hn Hm _]. unfold RingBuffer.new in Hn. case_if_in Hn; [|done]. bool_hyps.
  pose proof (Z.div_mod cap 4 ltac:(lia)). lia.
Qed.

Lemma init_inv cap r n : capacity_ok cap r -> inv cap (System.init r n) (mk_ghost 0 0 0 [] []).
Proof.
  intros Hok. pose proof (capacity_bounds _ _ Hok) as Hcap. pose proof (ck_new _ _ Hok) as Hr.
  unfold RingBuffer.new in Hr. case_if_in Hr; [|done]. simplify_eq. split; simpl; try done.
  - rewrite length_replicate. lia.
  - lia.
  - set_solver.
  - constructor.
  - by rewrite !length_replicate.
  - intros i c lag [-> _]%lookup_replicate [-> _]%lookup_replicate. split; simpl; try done. by intros [? ?].
Qed.

(** One step of the system is one step of the specification. *)
Lemma system_step_ok cap r s g l s' :
  capacity_ok cap r -> inv cap s g -> System.step s l s' ->
  exists g', inv cap s' g' /\ QueueSpec.step (abstract g) l = Some (abstract g').
Proof.
  intros Hok Hi Hs. pose proof (capacity_bounds _ _ Hok) as Hcap. pose proof (ck_div _ _ Hok) as Hdiv.
  destruct Hs as [s i c payload Hp [res Hres] Hb|s i c lag ring' c' Hp Hl Ht Hst|s res c Hc Hat|s ring' c' Hst].
  - exists g. split; [|done].
    destruct (lookup_lt_is_Some_2 s.(System.lags) i) as [lag Hl].
    { rewrite (iv_lags _ _ _ Hi). by eapply lookup_lt_Some. }
    pose proof (iv_producers _ _ _ Hi _ _ _ Hp Hl) as Hpo.
    destruct (start_ok cap g i s.(System.ring) payload lag (iv_cap _ _ _ Hi) Hb (po_lag _ _ _ _ _ Hpo)) as [Hok' Hst].
    eapply inv_local_same; try done. unfold Push.result_of in Hres. unfold stage_of. by destruct (Push.at_ c).
  - destruct (push_step_ok cap Hcap Hdiv s g i c lag Hi Hp Hl Ht) as (ring1 & c1 & g' & Hst1 & Hi' & Hsp).
    rewrite Hst in Hst1. simplify_eq. by exists g'.
  - exists g. split; [|done]. apply inv_consumer; [done|]. unfold consumer_ok. by rewrite Hat.
  - destruct (pop_step_ok cap Hcap Hdiv s g Hi) as (ring1 & c1 & g' & Hst1 & Hi' & Hsp).
    rewrite Hst in Hst1. simplify_eq. by exists g'.
Qed.

Lemma system_steps_ok cap r s g ls s' :
  capacity_ok cap r -> inv cap s g -> System.steps s ls s' ->
  exists g', inv cap s' g' /\ QueueSpec.accepts (abstract g) ls = Some (abstract g').
Proof.
  intros Hok Hi Hs. revert g Hi. induction Hs as [s|s1 l s2 ls s3 Hst _ IH]; intros g Hi; [by exists g|].
  destruct (system_step_ok cap r s1 g l s2 Hok Hi Hst) as (g1 & Hi1 & Hsp).
  destruct (IH g1 Hi1) as (g' & Hi' & Hacc). exists g'. split; [done|]. simpl. by rewrite Hsp.
Qed.

Lemma reachable_inv cap r n ls s :
  capacity_ok cap r -> System.steps (System.init r n) ls s ->
  exists g, inv cap s g /\ QueueSpec.accepts QueueSpec.empty ls = Some (abstract g).
Proof. intros Hok Hs. by apply (system_steps_ok cap r (System.init r n) (mk_ghost 0 0 0 [] []) ls s Hok); [eapply init_inv|]. Qed.

(** ** FIFO order *)

(** The records the producers reserved, and what the consumer took: a record,
    or the length of one it dropped. *)
Definition reserved (ls : list System.label) : list (list Z) :=
  omap (fun l => match l with System.Reserved p _ => Some p | _ => None end) ls.
Definition taken (ls : list System.label) : list (list Z + Z) :=
  omap (fun l => match l with
                 | System.Returned (Ok p) => Some (inl p)
                 | System.Returned (Err (TooLarge n _)) => Some (inr n)
                 | _ => None end) ls.
Definition took (x : list Z + Z) (p : list Z) : Prop :=
  match x with inl p' => p' = p | inr n => n = len p end.

Lemma accepts_fifo q ls q' :
  QueueSpec.accepts q ls = Some q' ->
  exists out, Forall2 took (taken ls) out /\
    q.(QueueSpec.records) ++ reserved ls = out ++ q'.(QueueSpec.records).
Proof.
  revert q. induction ls as [|l ls IH]; intros q; simpl.
  { intros [= <-]. exists []. split; [constructor|]. by rewrite app_nil_r. }
  destruct (QueueSpec.step q l) as [q1|] eqn:Hst; [|done]. intros Hacc.
  destruct (IH q1 Hacc) as (out & Ht & Hr). destruct l as [|p b| |res]; simpl in Hst.
  - simplify_eq. by exists out.
  - simplify_eq. simpl in *. exists out. split; [done|]. by rewrite <- app_assoc in Hr.
  - case_if_in Hst; [|done]. simplify_eq. by exists out.
  - destruct res as [p|[|n m|]]; try done.
    + destruct (QueueSpec.records q) as [|p0 ps], (QueueSpec.committed q); try done.
      case_bool_decide; [|done]. simplify_eq. exists (p :: out). simpl in *. split; [by constructor|]. by rewrite Hr.
    + simplify_eq. by exists out.
    + destruct (QueueSpec.records q) as [|p0 ps], (QueueSpec.committed q); try done.
      case_if_in Hst; [|done]. bool_hyps. simplify_eq. exists (p0 :: out). simpl in *.
      split; [by constructor|]. by rewrite Hr.
Qed.
(** C4: For a capacity that divides 2^32 and is at most 2^31, every interleaving
    of the atomic steps of any number of producers and the consumer behaves as
    the queue: the records are taken in the order in which they were reserved,
    each once, complete and only after its commit, the consumer never finds the
    ring corrupt, and no access leaves the buffer.  Memory is sequentially
    consistent, and no producer is overtaken by 2^32 bytes, less the capacity,
    between its loads and its compare-and-exchange ([timely]). *)
Theorem ring_refines_queue cap r n ls s :
  capacity_ok cap r -> System.steps (System.init r n) ls s ->
  (exists q out, QueueSpec.accepts QueueSpec.empty ls = Some q /\
     reserved ls = out ++ q.(QueueSpec.records) /\ Forall2 took (taken ls) out) /\
  (forall i c lag, s.(System.producers) !! i = Some c -> s.(System.lags) !! i = Some lag ->
     System.timely cap c lag = true -> is_Some (Push.step s.(System.ring) c)) /\
  is_Some (Pop.step s.(System.ring) s.(System.consumer)).
Proof.
  intros Hok Hs. pose proof (capacity_bounds _ _ Hok) as Hcap. pose proof (ck_div _ _ Hok) as Hdiv.
  destruct (reachable_inv cap r n ls s Hok Hs) as (g & Hi & Hacc). split; [|split].
  - destruct (accepts_fifo _ _ _ Hacc) as (out & Ht & Hr). by eexists _, out.
  - intros i c lag Hp Hl Ht. rewrite <- (iv_cap _ _ _ Hi) in Ht.
    destruct (push_step_ok cap Hcap Hdiv s g i c lag Hi Hp Hl Ht) as (? & ? & ? & -> & _). by eexists.
  - destruct (pop_step_ok cap Hcap Hdiv s g Hi) as (? & ? & ? & -> & _). by eexists.
Qed.

(** ** Progress *)

(** The steps a producer that owns the oldest reservation has left. *)
Definition steps_left (c : Push.t) : nat :=
  match c.(Push.at_) with
  | Push.WriteMarker _ => 5 | Push.WriteLen _ => 4 | Push.WritePayload _ => 3
  | Push.Spin _ => 2 | Push.StoreCommit _ => 1 | _ => 0
  end.

Lemma oldest_owner cap s g i p rest c :
  inv cap s g -> g.(q1) = (i, p) :: rest -> s.(System.producers) !! i = Some c ->
  exists stage lag, s.(System.lags) !! i = Some lag /\ c.(Push.payload) = p /\
    stage_of c = Some (stage, reservation_at cap g.(cv) p) /\ (0 < steps_left c)%nat.
Proof.
  intros Hi Hq Hp. assert ((g.(cv), (i, p)) ∈ slots cap g.(cv) g.(q1)) as Hslot by (rewrite Hq; simpl; set_solver).
  destruct (iv_owned _ _ _ Hi _ Hslot) as (c0 & stage & Hp0 & Hpay & Hst & _). simpl in *.
  rewrite Hp in Hp0. injection Hp0 as <-.
  destruct (lookup_lt_is_Some_2 s.(System.lags) i) as [lag Hl]; [rewrite (iv_lags _ _ _ Hi); by eapply lookup_lt_Some|].
  exists stage, lag. split; [done|]. split; [done|]. split; [done|].
  unfold stage_of in Hst. unfold steps_left. destruct (Push.at_ c); try done; lia.
Qed.

(** The owner of the oldest reservation moves on by itself. *)
Lemma oldest_moves cap r s g i p rest c k :
  capacity_ok cap r -> inv cap s g -> g.(q1) = (i, p) :: rest -> s.(System.producers) !! i = Some c ->
  steps_left c = Datatypes.S (Datatypes.S k) ->
  exists ring' pc', let c' := Push.goto pc' c in
    let s' := System.mk ring' (<[i := c']> s.(System.producers)) s.(System.lags) s.(System.consumer) in
    Push.step s.(System.ring) c = Some (ring', c') /\ System.step s System.Tau s' /\ inv cap s' g /\
    steps_left c' = Datatypes.S k.
Proof.
  intros Hok Hi Hq Hp Hk. pose proof (capacity_bounds _ _ Hok) as Hcap. pose proof (ck_div _ _ Hok) as Hdiv.
  destruct (oldest_owner cap s g i p rest c Hi Hq Hp) as (stage & lag & Hl & Hpay & Hst & _).
  assert (System.timely s.(System.ring).(RingBuffer.cap) c lag = true) as Ht.
  { unfold System.timely. unfold stage_of in Hst. by destruct (Push.at_ c). }
  destruct (decide (stage < 3)%nat) as [Hlt|].
  - destruct (writing_step cap Hcap Hdiv s g i c lag stage _ Hi Hp Hl Hst Hlt) as (ring1 & c1 & Hs1 & Hlb & Hlg & Hi1).
    pose proof (System.push_step s i c lag ring1 c1 Hp Hl Ht Hs1) as Hstep. rewrite Hlb, Hlg in Hstep.
    assert (exists pc', c1 = Push.goto pc' c /\ steps_left (Push.goto pc' c) = Datatypes.S k) as (pc' & -> & Hleft).
    { unfold Push.step, steps_left in *. unfold stage_of in Hst.
      destruct (Push.at_ c); simplify_eq; try lia; repeat case_match; simplify_eq; by eexists. }
    by exists ring1, pc'.
  - unfold stage_of in Hst. unfold steps_left in Hk. destruct (Push.at_ c) eqn:Hat; simplify_eq; try lia.
    pose proof (spin_ok cap Hcap Hdiv s g i c lag _ Hi Hp Hl Hat) as Hi1.
    simpl in Hi1. rewrite (iv_commit _ _ _ Hi), Z.eqb_refl in Hi1.
    assert (Push.step s.(System.ring) c =
      Some (s.(System.ring), Push.goto (Push.StoreCommit (reservation_at cap (cv g) (Push.payload c))) c)) as Hs1.
    { unfold Push.step. rewrite Hat. simpl. by rewrite (iv_commit _ _ _ Hi), Z.eqb_refl. }
    eexists s.(System.ring), _. split; [exact Hs1|]. split; [|split; [exact Hi1|done]].
    pose proof (System.push_step s i c lag s.(System.ring) (Push.goto (Push.StoreCommit (reservation_at cap (cv g) (Push.payload c))) c)
      Hp Hl Ht) as Hstep.
    unfold System.push_label, System.next_lags in Hstep. rewrite Hat in Hstep. by apply Hstep.
Qed.

Lemma oldest_finishes cap r s g i p rest c :
  capacity_ok cap r -> inv cap s g -> g.(q1) = (i, p) :: rest -> s.(System.producers) !! i = Some c ->
  exists ls s', System.steps s (ls ++ [System.Committed]) s' /\ (length ls < 5)%nat /\
    s'.(System.producers) = <[i := Push.goto (Push.Done (Ok tt)) c]> s.(System.producers) /\
    s'.(System.consumer) = s.(System.consumer).
Proof.
  intros Hok Hi Hq Hp. pose proof (capacity_bounds _ _ Hok) as Hcap.
  enough (exists ls s', System.steps s (ls ++ [System.Committed]) s' /\ Datatypes.S (length ls) = steps_left c /\
    s'.(System.producers) = <[i := Push.goto (Push.Done (Ok tt)) c]> s.(System.producers) /\
    s'.(System.consumer) = s.(System.consumer)) as (ls & s' & Hs & Hlen & Hr).
  { exists ls, s'. split; [done|]. split; [|done]. unfold steps_left in Hlen. destruct (Push.at_ c); lia. }
  destruct (steps_left c) as [|k] eqn:Hk.
  { destruct (oldest_owner cap s g i p rest c Hi Hq Hp) as (? & ? & _ & _ & _ & ?). lia. }
  revert s c Hk Hi Hp. induction k as [|k IH]; intros s c Hk Hi Hp.
  - destruct (oldest_owner cap s g i p rest c Hi Hq Hp) as (stage & lag & Hl & Hpay & Hst & _).
    unfold stage_of in Hst. unfold steps_left in Hk. destruct (Push.at_ c) eqn:Hat; simplify_eq.
    set (rv := reservation_at cap (cv g) (Push.payload c)) in *.
    assert (Push.step s.(System.ring) c =
      Some (RingBuffer.with_tail_commit rv.(Push.new_tail) s.(System.ring), Push.goto (Push.Done (Ok tt)) c)) as Hst
      by (unfold Push.step; by rewrite Hat).
    assert (System.timely s.(System.ring).(RingBuffer.cap) c lag = true) as Ht by (unfold System.timely; by rewrite Hat).
    pose proof (System.push_step s i c lag _ _ Hp Hl Ht Hst) as Hstep.
    assert (System.push_label c (Push.goto (Push.Done (Ok tt)) c) = System.Committed) as Hlb
      by (unfold System.push_label; by rewrite Hat).
    rewrite Hlb in Hstep. exists []. eexists. split; [econstructor; [exact Hstep|constructor]|]. done.
  - destruct (oldest_moves cap r s g i p rest c k Hok Hi Hq Hp Hk) as (ring1 & pc' & _ & Hstep & Hi1 & Hk1).
    simpl in Hstep, Hi1, Hk1. set (s1 := System.mk _ _ _ _) in *.
    assert (System.producers s1 !! i = Some (Push.goto pc' c)) as Hp1
      by (apply list_lookup_insert_eq; by eapply lookup_lt_Some).
    destruct (IH s1 _ Hk1 Hi1 Hp1) as (ls & s' & Hs & Hlen & Hpr & Hcn).
    exists (System.Tau :: ls), s'. split; [by econstructor|]. split; [simpl; lia|]. split; [|done].
    rewrite Hpr. simpl. by rewrite list_insert_insert_eq.
Qed.

(** Nobody waits forever on a reservation: in every reachable state with a
    reservation that is not yet committed, one producer commits it within five
    steps of its own, whatever the other producers and the consumer are in the
    middle of. *)
Theorem ring_progress cap r n ls s j cj :
  capacity_ok cap r -> System.steps (System.init r n) ls s ->
  s.(System.producers) !! j = Some cj -> is_Some (stage_of cj) ->
  exists i ci ls' s', s.(System.producers) !! i = Some ci /\ is_Some (stage_of ci) /\
    System.steps s (ls' ++ [System.Committed]) s' /\ (length ls' < 5)%nat /\
    s'.(System.producers) = <[i := Push.goto (Push.Done (Ok tt)) ci]> s.(System.producers).
Proof.
  intros Hok Hs Hp Hst. destruct (reachable_inv cap r n ls s Hok Hs) as (g & Hi & _).
  destruct (lookup_lt_is_Some_2 s.(System.lags) j) as [lag Hl]; [rewrite (iv_lags _ _ _ Hi); by eapply lookup_lt_Some|].
  pose proof (po_owner _ _ _ _ _ (iv_producers _ _ _ Hi _ _ _ Hp Hl) Hst) as Hin.
  destruct (q1 g) as [|[i p] rest] eqn:Hq; [set_solver|].
  assert ((g.(cv), (i, p)) ∈ slots cap g.(cv) g.(q1)) as Hslot by (rewrite Hq; simpl; set_solver).
  destruct (iv_owned _ _ _ Hi _ Hslot) as (ci & stage & Hpi & _ & Hsti & _). simpl in Hpi.
  destruct (oldest_finishes cap r s g i p rest ci Hok Hi Hq Hpi) as (ls' & s' & Hs' & Hlen & Hpr & _).
  exists i, ci, ls', s'. rewrite Hsti. by split_and!.
Qed.

(** ** A pop that is not interfered with *)
Lemma pop_run_step fuel r c r' c' :
  (forall res, Pop.at_ c <> Pop.Done res) -> Pop.step r c = Some (r', c') ->
  Pop.run (Datatypes.S fuel) r c = Pop.run fuel r' c'.
Proof. intros Hc Hs. simpl. rewrite Hs. destruct (Pop.at_ c); try done. by destruct (Hc res). Qed.

Lemma pop_run_done fuel r c res : Pop.at_ c = Pop.Done res -> Pop.run fuel r c = Some (r, c).
Proof. intros Hc. destruct fuel; simpl; [done|by rewrite Hc]. Qed.

(** What [try_pop_capped] answers for a record. *)
Definition answer (max : option Z) (p : list Z) : result (list Z) PopError :=
  match max with
  | Some m => if m <? len p then Err (TooLarge (len p) m) else Ok p
  | None => Ok p
  end.

Lemma pop_run_record cap r s g p rest fuel max :
  capacity_ok cap r -> inv cap s g -> g.(q0) = p :: rest -> pad cap g.(hv) (psize p) = 0 ->
  exists ring', Pop.run (5 + fuel) s.(System.ring) (Pop.mk max Pop.LoadHead) =
    Some (ring', Pop.mk max (Pop.Done (answer max p))).
Proof.
  intros Hok Hi Hq Hp0. pose proof (capacity_bounds _ _ Hok) as Hcap. pose proof (ck_div _ _ Hok) as Hdiv.
  destruct (first_record cap Hcap s g p rest Hi Hq) as (Hf & _ & Hn & _). pose proof (next_gt cap Hcap g.(hv) p Hf).
  pose proof (inv_order cap Hcap s g Hi). pose proof (iv_window _ _ _ Hi). pose proof (room_bounds cap Hcap g.(hv)).
  assert (4 <= room cap g.(hv)) as H4.
  { revert Hp0. unfold pad. destruct (Z.ltb_spec (room cap (hv g)) 4); lia. }
  cbn [Nat.add]. erewrite pop_run_step; [|done|reflexivity]. unfold Pop.goto; cbn [Pop.max]. rewrite (iv_head _ _ _ Hi).
  erewrite pop_run_step; [|done|].
  2: { unfold Pop.step, Pop.goto. cbn [Pop.at_ Pop.max]. cbv zeta. rewrite (iv_commit _ _ _ Hi), (iv_cap _ _ _ Hi), !(idx_wrap cap Hdiv). fold (room cap g.(hv)).
       rewrite (proj2 (Z.eqb_neq _ _)); [|intros He; apply wrap_inj in He; lia].
       by rewrite (proj2 (Z.ltb_ge _ _)) by lia. }
  destruct (read_len_step cap Hcap Hdiv s g p rest g.(cv) (Pop.mk max (Pop.ReadLen (wrap 32 g.(hv)) (wrap 32 g.(cv)))) Hi)
    as [Hmk Hs]; [done|done|done|lia|].
  rewrite (proj1 Hmk Hp0) in Hs. unfold Pop.goto; cbn [Pop.max] in *. erewrite pop_run_step; [|done|exact Hs].
  unfold answer. destruct max as [m|]; [destruct (m <? len p)|].
  - eexists. erewrite pop_run_step; [|done|reflexivity]. by apply pop_run_done with (res := Err (TooLarge (len p) m)).
  - eexists. erewrite pop_run_step; [|done|eapply (read_payload_step cap Hcap Hdiv); done].
    erewrite pop_run_step; [|done|reflexivity]. by apply pop_run_done with (res := Ok p).
  - eexists. erewrite pop_run_step; [|done|eapply (read_payload_step cap Hcap Hdiv); done].
    erewrite pop_run_step; [|done|reflexivity]. by apply pop_run_done with (res := Ok p).
Qed.

Lemma pop_run_skip cap r s g p rest max :
  capacity_ok cap r -> inv cap s g -> g.(q0) = p :: rest -> pad cap g.(hv) (psize p) <> 0 ->
  exists k, (k <= 4)%nat /\ forall fuel, Pop.run (k + fuel) s.(System.ring) (Pop.mk max Pop.LoadHead) =
    Pop.run fuel (RingBuffer.with_head (wrap 32 (g.(hv) + pad cap g.(hv) (psize p))) s.(System.ring)) (Pop.mk max Pop.LoadHead).
Proof.
  intros Hok Hi Hq Hp0. pose proof (capacity_bounds _ _ Hok) as Hcap. pose proof (ck_div _ _ Hok) as Hdiv.
  destruct (first_record cap Hcap s g p rest Hi Hq) as (Hf & _ & Hn & _). pose proof (next_gt cap Hcap g.(hv) p Hf).
  pose proof (inv_order cap Hcap s g Hi). pose proof (iv_window _ _ _ Hi).
  assert (forall f, Pop.run (2 + f) s.(System.ring) (Pop.mk max Pop.LoadHead) =
    Pop.run f s.(System.ring) (Pop.mk max (if room cap g.(hv) <? 4 then Pop.Skip (wrap 32 (g.(hv) + room cap g.(hv)))
      else Pop.ReadLen (wrap 32 g.(hv)) (wrap 32 g.(cv))))) as Htwo.
  { intros f. cbn [Nat.add]. erewrite pop_run_step; [|done|reflexivity]. unfold Pop.goto; cbn [Pop.max]. rewrite (iv_head _ _ _ Hi).
    erewrite pop_run_step; [done|done|]. unfold Pop.step, Pop.goto. cbn [Pop.at_ Pop.max]. cbv zeta.
    rewrite (iv_commit _ _ _ Hi), (iv_cap _ _ _ Hi), !(idx_wrap cap Hdiv). fold (room cap g.(hv)).
    rewrite (proj2 (Z.eqb_neq _ _)); [|intros He; apply wrap_inj in He; lia]. by rewrite wrap_add. }
  destruct (Z.ltb_spec (room cap g.(hv)) 4) as [Hlt|Hge].
  - exists 3%nat. split; [lia|]. intros fuel. change (3 + fuel)%nat with (2 + Datatypes.S fuel)%nat. rewrite Htwo.
    erewrite pop_run_step; [|done|reflexivity]. unfold Pop.goto; cbn [Pop.max]. unfold pad. by rewrite (proj2 (Z.ltb_lt _ _)) by lia.
  - exists 4%nat. split; [lia|]. intros fuel. change (4 + fuel)%nat with (2 + Datatypes.S (Datatypes.S fuel))%nat. rewrite Htwo.
    destruct (read_len_step cap Hcap Hdiv s g p rest g.(cv) (Pop.mk max (Pop.ReadLen (wrap 32 g.(hv)) (wrap 32 g.(cv)))) Hi)
      as [Hmk Hs]; [done|done|done|lia|].
    destruct (marked cap g.(hv) (psize p)); [|by destruct (Hp0 (proj2 Hmk eq_refl))].
    erewrite pop_run_step; [|done|exact Hs]. unfold Pop.goto; cbn [Pop.max]. by erewrite pop_run_step.
Qed.

(** A pop that is not interfered with returns, after at most two rounds of
    its loop: [Empty] exactly if no record is committed, otherwise the first
    committed record, or [TooLarge] if that is longer than the given bound. *)
Theorem ring_pop_terminates cap r n ls s max :
  capacity_ok cap r -> System.steps (System.init r n) ls s ->
  exists q ring', QueueSpec.accepts QueueSpec.empty ls = Some q /\
    Pop.pop_alone s.(System.ring) (Pop.mk max Pop.LoadHead) =
      Some (ring', match take q.(QueueSpec.committed) q.(QueueSpec.records) with
                   | [] => Err Empty
                   | p :: _ => answer max p
                   end).
Proof.
  intros Hok Hs. pose proof (capacity_bounds _ _ Hok) as Hcap. pose proof (ck_div _ _ Hok) as Hdiv.
  destruct (reachable_inv cap r n ls s Hok Hs) as (g & Hi & Hacc). exists (abstract g).
  unfold abstract. simpl. rewrite take_app_length. unfold Pop.pop_alone.
  destruct (q0 g) as [|p rest] eqn:Hq.
  - exists s.(System.ring). split; [unfold abstract in Hacc; by rewrite Hq in Hacc|].
    erewrite (pop_run_step 9); [|done|reflexivity]. unfold Pop.goto; cbn [Pop.max].
    erewrite (pop_run_step 8); [|done|].
    2: { unfold Pop.step, Pop.goto. cbn [Pop.at_ Pop.max]. cbv zeta. pose proof (iv_cv _ _ _ Hi) as Hcv. rewrite Hq in Hcv. simpl in Hcv.
         rewrite (iv_commit _ _ _ Hi), (iv_head _ _ _ Hi), Hcv, Z.eqb_refl. done. }
    by erewrite pop_run_done.
  - assert (QueueSpec.accepts QueueSpec.empty ls = Some (QueueSpec.mk ((p :: rest) ++ map snd g.(q1)) (length (p :: rest)))) as Hacc'
      by (unfold abstract in Hacc; by rewrite Hq in Hacc).
    destruct (decide (pad cap g.(hv) (psize p) = 0)) as [Hp0|Hp0].
    + destruct (pop_run_record cap r s g p rest 5 max Hok Hi Hq Hp0) as [ring' Hr]. exists ring'. split; [done|].
      by rewrite (Hr : Pop.run 10 _ _ = _).
    + destruct (pop_run_skip cap r s g p rest max Hok Hi Hq Hp0) as (k & Hk & Hr).
      destruct (first_record cap Hcap s g p rest Hi Hq) as (Hf & _).
      pose proof (skip_ok cap Hcap s g p rest (Pop.mk max Pop.LoadHead) Hi Hq eq_refl) as Hi1. simpl in Hi1.
      set (s1 := System.mk _ _ _ _) in *. pose proof (next_after_pad cap Hcap g.(hv) _ (ft_size _ _ Hf)) as Hz.
      destruct (pop_run_record cap r s1 _ p rest (5 - k) max Hok Hi1 Hq Hz) as [ring' Hr1].
      exists ring'. split; [done|]. replace 10%nat with (k + (5 + (5 - k)))%nat by lia.
      rewrite Hr. unfold s1 in Hr1. cbn [System.ring hv] in Hr1. by rewrite Hr1.
Qed.

(** ** A push that is not interfered with *)
Lemma push_run_step fuel r c r' c' :
  (forall res, Push.at_ c <> Push.Done res) -> Push.step r c = Some (r', c') ->
  Push.run (Datatypes.S fuel) r c = Push.run fuel r' c'.
Proof. intros Hc Hs. simpl. rewrite Hs. destruct (Push.at_ c); try done. by destruct (Hc res). Qed.

Lemma push_run_done fuel r c res : Push.at_ c = Push.Done res -> Push.run fuel r c = Some (r, c).
Proof. intros Hc. destruct fuel; simpl; [done|by rewrite Hc]. Qed.

(** From the reservation on, the only producer completes its push. *)
Lemma push_run_reserved cap r s g c lag rv :
  capacity_ok cap r -> inv cap s g -> s.(System.producers) = [c] -> s.(System.lags) = [lag] ->
  Push.at_ c = Push.WriteMarker rv ->
  exists ring', Push.run 5 s.(System.ring) c = Some (ring', Push.goto (Push.Done (Ok tt)) c).
Proof.
  intros Hok Hi Hp Hl Hat. pose proof (capacity_bounds _ _ Hok) as Hcap. pose proof (ck_div _ _ Hok) as Hdiv.
  assert (s.(System.producers) !! 0%nat = Some c) as Hp0 by by rewrite Hp.
  assert (s.(System.lags) !! 0%nat = Some lag) as Hl0 by by rewrite Hl.
  assert (is_Some (stage_of c)) as Hst by (unfold stage_of; rewrite Hat; done).
  pose proof (po_owner _ _ _ _ _ (iv_producers _ _ _ Hi _ _ _ Hp0 Hl0) Hst) as Hin.
  assert (exists p, g.(q1) = [(0%nat, p)]) as (p & Hq).
  { destruct (q1 g) as [|[i p] rest] eqn:Hq; [set_solver|].
    assert (forall j, j ∈ map fst g.(q1) -> j = 0%nat) as Hz.
    { intros j. rewrite <- (slots_owners cap g.(cv)). intros (x & -> & Hx)%list_elem_of_fmap.
      destruct (iv_owned _ _ _ Hi _ Hx) as (c0 & ? & Hp1 & _). rewrite Hp in Hp1.
      destruct (x.2.1) as [|j]; [done|]. by destruct j. }
    rewrite Hq in Hz. simpl in Hz. pose proof (iv_owners _ _ _ Hi) as Hnd. rewrite Hq in Hnd. simpl in Hnd.
    apply NoDup_cons in Hnd as [Hni _]. rewrite (Hz i) in * by set_solver. destruct rest as [|[j p'] rest]; [by exists p|].
    exfalso. apply Hni. simpl. rewrite (Hz j) by set_solver. set_solver. }
  enough (forall k s c, steps_left c = k -> inv cap s g -> s.(System.producers) = [c] ->
    exists ring', Push.run k s.(System.ring) c = Some (ring', Push.goto (Push.Done (Ok tt)) c)) as Hgen
    by (apply (Hgen 5%nat); [unfold steps_left; by rewrite Hat|done|done]).
  clear s c Hi Hp Hl Hat Hp0 Hl0 Hst Hin. intros k. induction k as [|k IH]; intros s c Hk Hi Hp.
  all: assert (s.(System.producers) !! 0%nat = Some c) as Hp0 by by rewrite Hp.
  all: destruct (oldest_owner cap s g 0 p [] c Hi Hq Hp0) as (stage & lag0 & Hl0 & Hpay & Hst & Hpos).
  { lia. }
  destruct k as [|k].
  - unfold stage_of in Hst. unfold steps_left in Hk. destruct (Push.at_ c) eqn:Hat; try done.
    eexists. erewrite push_run_step; [reflexivity|by rewrite Hat|]. unfold Push.step. by rewrite Hat.
  - destruct (oldest_moves cap r s g 0 p [] c k Hok Hi Hq Hp0 Hk) as (ring1 & pc' & Hs & _ & Hi1 & Hk1).
    simpl in Hi1, Hk1. rewrite Hp in Hi1. simpl in Hi1.
    destruct (IH (System.mk ring1 [Push.goto pc' c] s.(System.lags) s.(System.consumer)) (Push.goto pc' c) Hk1 Hi1 eq_refl) as [ring' Hr].
    exists ring'. erewrite push_run_step; [exact Hr| |exact Hs].
    unfold steps_left in Hk. intros res Hres. by rewrite Hres in Hk.
Qed.

(** C34: A push that is not interfered with returns, and fails exactly for a
    record larger than the buffer, or when the record and the padding in front
    of it exceed the free bytes. *)
Theorem ring_push_exact cap r n ls s payload :
  capacity_ok cap r -> System.steps (System.init r n) ls s ->
  (forall i c, s.(System.producers) !! i = Some c -> is_Some (Push.result_of c)) -> Forall byte_ok payload ->
  let used := wrapping_sub 32 s.(System.ring).(RingBuffer.tail_reserve) s.(System.ring).(RingBuffer.head) in
  let size := record_size (len payload) in
  exists ring', Push.try_push s.(System.ring) payload = Some (ring',
    if cap <? size then Err PushTooLarge
    else if cap - used <? pad cap s.(System.ring).(RingBuffer.tail_reserve) size + size then Err Full
    else Ok tt).
Proof.
  intros Hok Hs Hidle Hb used size. pose proof (capacity_bounds _ _ Hok) as Hcap. pose proof (ck_div _ _ Hok) as Hdiv.
  destruct (reachable_inv cap r n ls s Hok Hs) as (g & Hi & _).
  set (c := Push.start s.(System.ring) payload).
  assert (g.(q1) = []) as Hq.
  { destruct (q1 g) as [|[i p] rest] eqn:Hq; [done|]. exfalso.
    assert ((g.(cv), (i, p)) ∈ slots cap g.(cv) g.(q1)) as Hslot by (rewrite Hq; simpl; set_solver).
    destruct (iv_owned _ _ _ Hi _ Hslot) as (c0 & stage & Hp0 & _ & Hst & _). simpl in Hp0.
    destruct (Hidle _ _ Hp0) as [res Hres]. unfold Push.result_of in Hres. unfold stage_of in Hst. by destruct (Push.at_ c0). }
  destruct (start_ok cap g 0 s.(System.ring) payload 0 (iv_cap _ _ _ Hi) Hb ltac:(lia)) as [Hpo Hst0]. fold c in Hpo, Hst0.
  assert (forall c', producer_ok cap g 0 c' 0 -> inv cap (System.mk s.(System.ring) [c'] [0] s.(System.consumer)) g) as Hi1.
  { intros c' Hc'. destruct Hi. split; simpl; try done.
    - intros x Hx. rewrite Hq in Hx. simpl in Hx. set_solver.
    - intros [|i] c0 lag0; simpl; [by intros [= <-] [= <-]|done]. }
  unfold Push.try_push. fold c. pose proof usize_max_ge as Hub.
  assert (c.(Push.payload) = payload) as Hpay by (unfold c, Push.start; by repeat case_match).
  destruct (Push.at_ c) as [| | | | | | | |res] eqn:Hat; try by (exfalso; revert Hat; unfold c, Push.start; repeat case_match).
  2: { exists s.(System.ring). rewrite (push_run_done _ _ _ _ Hat), Hat. do 2 f_equal. unfold size, record_size.
       unfold c, Push.start, saturating_sub in Hat. rewrite (iv_cap _ _ _ Hi), record_size_checked_spec in Hat by lia.
       rewrite record_size_checked_spec by lia. unfold usize_max in *. pose proof (psize_bounds payload).
       destruct (Z.ltb_spec (Z.max (2 ^ 32 - 1 - 1) 0) (len payload)).
       - simpl in Hat. rewrite (proj2 (Z.ltb_lt cap _)); [congruence|]. case_if; simpl; lia.
       - destruct (Z.ltb_spec (len payload + 7) (2 ^ usize_bits)); simpl in *.
         + destruct (cap <? psize payload); simpl in *; congruence.
         + rewrite (proj2 (Z.ltb_lt cap _)) by lia. congruence. }
  destruct (po_fits _ _ _ _ _ Hpo) as [Hf Hsz]; [unfold Push.result_of; by rewrite Hat|]. rewrite Hpay in Hf, Hsz.
  pose proof (ft_size _ _ Hf). pose proof (psize_bounds payload).
  assert (size = psize payload) as Hsize.
  { unfold size, record_size. rewrite record_size_checked_spec by lia. unfold usize_max in Hub. by rewrite (proj2 (Z.ltb_lt _ _)) by lia. }
  rewrite Hsize, (proj2 (Z.ltb_ge cap _)) by lia. clear size Hsize.
  pose proof (inv_order cap Hcap _ _ Hi). pose proof (iv_window _ _ _ Hi).
  unfold used. rewrite (iv_reserve _ _ _ Hi), (iv_head _ _ _ Hi), wrap_sub by lia. clear used.
  assert (pad cap (wrap 32 g.(tv)) (psize payload) = pad cap g.(tv) (psize payload)) as ->
    by (unfold pad, room; by rewrite (idx_wrap cap Hdiv)).
  erewrite push_run_step; [|by rewrite Hat|unfold Push.step; by rewrite Hat].
  erewrite push_run_step; [|done|reflexivity]. unfold Push.goto. cbn [Push.payload Push.size].
  rewrite (iv_cap _ _ _ Hi), (iv_reserve _ _ _ Hi), (iv_head _ _ _ Hi), Hsz, plan_eq by (done || lia).
  rewrite (proj2 (Z.ltb_ge cap _)) by lia.
  destruct (Z.ltb_spec (cap - (tv g - hv g)) (pad cap (tv g) (psize payload) + psize payload)) as [Hfull|Hroom].
  { exists s.(System.ring). by erewrite push_run_done. }
  set (rv := reservation_at cap g.(tv) payload). set (c1 := Push.mk (Push.payload c) (psize payload) (Push.CompareExchange rv)).
  assert (producer_ok cap g 0 c1 0) as Hpo1.
  { split; simpl; [lia|by rewrite Hpay|by intros [? ?]|]. rewrite Hpay. exists g.(tv), g.(hv). split_and!; try done; try lia. unfold next. lia. }
  pose proof (reserve_ok cap Hcap Hdiv (System.mk s.(System.ring) [c1] [0] s.(System.consumer)) g 0 c1 0 rv
    (Hi1 _ Hpo1) eq_refl eq_refl eq_refl ltac:(lia) (iv_reserve _ _ _ Hi)) as Hi2.
  cbv zeta in Hi2. set (s2 := System.mk _ _ _ _) in Hi2.
  destruct (push_run_reserved cap r s2 _ (Push.goto (Push.WriteMarker rv) c1) _ rv Hok Hi2 eq_refl eq_refl eq_refl) as [ring' Hr].
  exists ring'. erewrite push_run_step; [|done|].
  2: { unfold Push.step. cbn [Push.at_ c1]. rewrite (iv_reserve _ _ _ Hi). cbn [Push.tail rv reservation_at]. by rewrite Z.eqb_refl. }
  unfold s2 in Hr. cbn [System.ring] in Hr. rewrite Hr. done.
Qed.
End Refinement.

(** ** Limits *)
Section Limits.
#[local] Existing Instance wasm32.

(** What one thread reaches by calling the operations one after the other. *)
Inductive sequential : RingBuffer.t -> Prop :=
| seq_new cap r : RingBuffer.new cap = Some r -> sequential r
| seq_push r p r' res : sequential r -> Push.try_push r p = Some (r', res) -> sequential r'
| seq_pop r c r' res : sequential r -> Pop.pop_alone r c = Some (r', res) -> sequential r'.

Definition half_way : RingBuffer.t := RingBuffer.mk 64 32 32 32 (to_le_bytes 4 28 ++ replicate 28 7 ++ replicate 32 0).

(** An empty ring can refuse a record for good: with 64 bytes, after one
    record of 32 bytes was pushed and popped, a payload of 36 bytes (well below
    [max_payload_len_for_capacity]) gets [Full] and the ring is unchanged, since
    the padding to the end of the buffer is charged to the record. *)
Theorem ring_full_when_empty :
  sequential half_way /\ RingBuffer.is_empty half_way = true /\
  36 <= max_payload_len_for_capacity 64 /\
  Push.try_push half_way (replicate 36 1) = Some (half_way, Err Full).
Proof.
  split; [|split; [reflexivity|split; [vm_compute; discriminate|vm_compute; reflexivity]]].
  apply (seq_pop (RingBuffer.mk 64 0 32 32 half_way.(RingBuffer.data)) Pop.try_pop _ (Ok (replicate 28 7))).
  - apply (seq_push (RingBuffer.mk 64 0 0 0 (replicate 64 0)) (replicate 28 7) _ (Ok tt)).
    + apply (seq_new 64). vm_compute. reflexivity.
    + vm_compute. reflexivity.
  - vm_compute. reflexivity.
Qed.

(** A ring of 12 zero bytes, empty at position [p]. *)
Definition twelve (h t : Z) : RingBuffer.t := RingBuffer.mk 12 h t t (replicate 12 0).

Lemma zero_word i : i = 0 \/ i = 4 \/ i = 8 ->
  write_u32_le (replicate 12 0) i 0 = Some (replicate 12 0) /\ write_at (replicate 12 0) (i + 4) [] = Some (replicate 12 0) /\
  read_u32_le (replicate 12 0) i = Some 0 /\ read_at (replicate 12 0) (i + 4) 0 = Some [].
Proof. intros [->|[->| ->]]; vm_compute; done. Qed.

Lemma twelve_bounce p :
  0 <= p < 2 ^ 32 - 4 -> p mod 4 = 0 ->
  Push.try_push (twelve p p) [] = Some (twelve p (p + 4), Ok tt) /\
  Pop.pop_alone (twelve p (p + 4)) Pop.try_pop = Some (twelve (p + 4) (p + 4), Ok []).
Proof.
  intros Hp H4. assert (p mod 12 = 0 \/ p mod 12 = 4 \/ p mod 12 = 8) as Hm.
  { pose proof (Z.mod_pos_bound p 12). pose proof (Z.div_mod p 12 ltac:(lia)). pose proof (Z.div_mod p 4 ltac:(lia)). lia. }
  destruct (zero_word _ Hm) as (W1 & W2 & R1 & R2).
  assert (wrapping_add 32 p 0 = p) as A0 by (unfold wrapping_add; rewrite Z.add_0_r; apply wrap_small; unfold uint; lia).
  assert (wrapping_add 32 p 4 = p + 4) as A4 by (unfold wrapping_add; apply wrap_small; unfold uint; lia).
  assert (wrapping_sub 32 (p + 4) p = 4) as S4 by (unfold wrapping_sub; replace (p + 4 - p) with 4 by lia; done).
  assert (Push.plan 12 p p 4 = Push.CompareExchange (Push.mk_reservation p (p + 4) 0 false)) as Hpl.
  { unfold Push.plan. assert (wrapping_sub 32 p p = 0) as -> by (unfold wrapping_sub; by rewrite Z.sub_diag).
    change (wrap 32 (0 + 4)) with 4. rewrite <- A4. by destruct Hm as [->|[->| ->]]. }
  assert (Push.start (twelve p p) [] = Push.mk [] 4 Push.LoadHead) as Hstart by reflexivity.
  set (rv := Push.mk_reservation p (p + 4) 0 false) in *. set (z := replicate 12 0) in *.
  assert (forall h t c, Push.start_index (RingBuffer.mk 12 h t c z) rv = p mod 12) as Hsi
    by (intros h t c; unfold Push.start_index; cbn [RingBuffer.cap Push.tail Push.padding rv]; by rewrite A0).
  split.
  - unfold Push.try_push. rewrite Hstart. unfold twelve. fold z.
    rewrite (push_run_step 7 _ _ (RingBuffer.mk 12 p p p z) (Push.mk [] 4 (Push.LoadTail p))); [|by intros|reflexivity].
    rewrite (push_run_step 6 _ _ (RingBuffer.mk 12 p p p z) (Push.mk [] 4 (Push.CompareExchange rv))); [|by intros|].
    2: { unfold Push.step. cbn [Push.at_ Push.size RingBuffer.cap RingBuffer.tail_reserve]. by rewrite Hpl. }
    rewrite (push_run_step 5 _ _ (RingBuffer.mk 12 p (p + 4) p z) (Push.mk [] 4 (Push.WriteMarker rv))); [|by intros|].
    2: { unfold Push.step. cbn [Push.at_ Push.tail rv RingBuffer.tail_reserve]. by rewrite Z.eqb_refl. }
    rewrite (push_run_step 4 _ _ (RingBuffer.mk 12 p (p + 4) p z) (Push.mk [] 4 (Push.WriteLen rv))); [|by intros|reflexivity].
    rewrite (push_run_step 3 _ _ (RingBuffer.mk 12 p (p + 4) p z) (Push.mk [] 4 (Push.WritePayload rv))); [|by intros|].
    2: { unfold Push.step. cbn [Push.at_ Push.payload length RingBuffer.data]. rewrite Hsi.
         change (wrap 32 (Z.of_nat 0)) with 0. by rewrite W1. }
    rewrite (push_run_step 2 _ _ (RingBuffer.mk 12 p (p + 4) p z) (Push.mk [] 4 (Push.Spin rv))); [|by intros|].
    2: { unfold Push.step. cbn [Push.at_ Push.payload length RingBuffer.data]. by rewrite Hsi, W2. }
    rewrite (push_run_step 1 _ _ (RingBuffer.mk 12 p (p + 4) p z) (Push.mk [] 4 (Push.StoreCommit rv))); [|by intros|].
    2: { unfold Push.step. cbn [Push.at_ Push.tail rv RingBuffer.tail_commit]. by rewrite Z.eqb_refl. }
    rewrite (push_run_step 0 _ _ (RingBuffer.mk 12 p (p + 4) (p + 4) z) (Push.mk [] 4 (Push.Done (Ok tt)))); [|by intros|reflexivity].
    reflexivity.
  - unfold Pop.pop_alone, Pop.try_pop, twelve. fold z.
    rewrite (pop_run_step 9 _ _ (RingBuffer.mk 12 p (p + 4) (p + 4) z) (Pop.mk None (Pop.LoadTail p))); [|by intros|reflexivity].
    rewrite (pop_run_step 8 _ _ (RingBuffer.mk 12 p (p + 4) (p + 4) z) (Pop.mk None (Pop.ReadLen p (p + 4)))); [|by intros|].
    2: { unfold Pop.step. cbn [Pop.at_ RingBuffer.cap RingBuffer.tail_commit]. rewrite (proj2 (Z.eqb_neq _ _)) by lia.
         by rewrite (proj2 (Z.ltb_ge _ 4)) by lia. }
    rewrite (pop_run_step 7 _ _ (RingBuffer.mk 12 p (p + 4) (p + 4) z) (Pop.mk None (Pop.ReadPayload p 0 4))); [|by intros|].
    2: { unfold Pop.step. cbn [Pop.at_ RingBuffer.cap RingBuffer.data Pop.max]. rewrite R1.
         unfold Pop.after_len. change (record_size_checked 0) with (Some 4). cbv beta iota. change (0 =? WRAP_MARKER) with false.
         rewrite (proj2 (Z.ltb_ge _ 4)) by lia. rewrite S4. change (4 <? wrap 32 4) with false. reflexivity. }
    rewrite (pop_run_step 6 _ _ (RingBuffer.mk 12 p (p + 4) (p + 4) z) (Pop.mk None (Pop.StoreHead (p + 4) (Ok [])))); [|by intros|].
    2: { unfold Pop.step. cbn [Pop.at_ RingBuffer.cap RingBuffer.data]. rewrite R2. change (wrap 32 4) with 4. by rewrite A4. }
    rewrite (pop_run_step 5 _ _ (RingBuffer.mk 12 (p + 4) (p + 4) (p + 4) z) (Pop.mk None (Pop.Done (Ok [])))); [|by intros|reflexivity].
    reflexivity.
Qed.

Lemma twelve_reached (k : nat) : 4 * Z.of_nat k < 2 ^ 32 -> sequential (twelve (4 * Z.of_nat k) (4 * Z.of_nat k)).
Proof.
  induction k as [|k IH]; intros Hk; [apply (seq_new 12); vm_compute; reflexivity|].
  destruct (twelve_bounce (4 * Z.of_nat k)) as [H1 H2]; [lia|rewrite Z.mul_comm; by apply Z.mod_mul|].
  replace (4 * Z.of_nat (Datatypes.S k)) with (4 * Z.of_nat k + 4) by lia.
  eapply seq_pop; [|exact H2]. eapply seq_push; [|exact H1]. apply IH. lia.
Qed.

(** [new] accepts capacities that do not divide 2^32, and then the ring
    breaks when its positions wrap: a 12-byte ring reaches, after 4 GiB of
    traffic, an empty state in which the second of two accepted records is
    written over the first; the consumer gets the second record first and then
    finds the ring corrupt. *)
Theorem ring_wrap_breaks :
  exists r r1 r2 r3 r4, sequential r /\ RingBuffer.cap r = 12 /\ RingBuffer.is_empty r = true /\
    Push.try_push r [] = Some (r1, Ok tt) /\ Push.try_push r1 [1; 2; 3; 4] = Some (r2, Ok tt) /\
    Pop.pop_alone r2 Pop.try_pop = Some (r3, Ok [1; 2; 3; 4]) /\
    Pop.pop_alone r3 Pop.try_pop = Some (r4, Err Corrupt).
Proof.
  eexists (twelve (2 ^ 32 - 4) (2 ^ 32 - 4)), _, _, _, _. split.
  { pose proof (twelve_reached (Z.to_nat (2 ^ 30 - 1))) as Hr. rewrite Z2Nat.id in Hr by lia.
    replace (2 ^ 32 - 4) with (4 * (2 ^ 30 - 1)) by lia. apply Hr. lia. }
  split; [reflexivity|]. split; [vm_compute; reflexivity|]. do 3 (split; [vm_compute; reflexivity|]). vm_compute. reflexivity.
Qed.
End Limits.

(** ** Schedules: an executable counterpart of [System.step] *)
Inductive choice := StartPush (i : nat) (payload : list Z) | StepPush (i : nat) | StartPop (max : option Z) | StepPop.

Section Schedules.
Context `{Target}.

Definition exec (s : System.t) (ch : choice) : option (System.label * System.t) :=
  match ch with
  | StartPush i payload =>
      match s.(System.producers) !! i with
      | Some c =>
          match Push.result_of c with
          | Some _ =>
              if forallb (fun b => (0 <=? b) && (b <? 256)) payload
              then Some (System.Tau, System.mk s.(System.ring)
                     (<[i := Push.start s.(System.ring) payload]> s.(System.producers)) s.(System.lags) s.(System.consumer))
              else None
          | None => None
          end
      | None => None
      end
  | StepPush i =>
      match s.(System.producers) !! i, s.(System.lags) !! i with
      | Some c, Some lag =>
          if System.timely s.(System.ring).(RingBuffer.cap) c lag then
            match Push.step s.(System.ring) c with
            | Some (ring', c') =>
                let l := System.push_label c c' in
                Some (l, System.mk ring' (<[i := c']> s.(System.producers))
                           (System.next_lags i c l s.(System.lags)) s.(System.consumer))
            | None => None
            end
          else None
      | _, _ => None
      end
  | StartPop max =>
      match s.(System.consumer).(Pop.at_) with
      | Pop.Done _ => Some (System.Tau, System.mk s.(System.ring) s.(System.producers) s.(System.lags) (Pop.mk max Pop.LoadHead))
      | _ => None
      end
  | StepPop =>
      match Pop.step s.(System.ring) s.(System.consumer) with
      | Some (ring', c') =>
          Some (System.pop_label s.(System.consumer) c', System.mk ring' s.(System.producers) s.(System.lags) c')
      | None => None
      end
  end.

Fixpoint exec_all (s : System.t) (chs : list choice) : option (list System.label * System.t) :=
  match chs with
  | [] => Some ([], s)
  | ch :: chs =>
      match exec s ch with
      | Some (l, s) =>
          match exec_all s chs with Some (ls, s) => Some (l :: ls, s) | None => None end
      | None => None
      end
  end.

Lemma exec_sound s ch l s' : exec s ch = Some (l, s') -> System.step s l s'.
Proof.
  destruct ch as [i payload|i|max|]; simpl; intros He.
  - destruct (s.(System.producers) !! i) as [c|] eqn:Hp; [|done]. destruct (Push.result_of c) eqn:Hr; [|done].
    destruct (forallb _ payload) eqn:Hb; [|done]. simplify_eq. eapply System.push_start; [done|by rewrite Hr|].
    apply Forall_forall. intros b Hin%list_elem_of_In. rewrite forallb_forall in Hb. apply Hb in Hin.
    unfold byte_ok, uint. bool_hyps. lia.
  - destruct (s.(System.producers) !! i) as [c|] eqn:Hp; [|done]. destruct (s.(System.lags) !! i) as [lag|] eqn:Hl; [|done].
    destruct (System.timely _ _ _) eqn:Ht; [|done]. destruct (Push.step _ _) as [[ring' c']|] eqn:Hs; [|done].
    simplify_eq. by eapply System.push_step.
  - destruct (Pop.at_ _) eqn:Hc; try done. simplify_eq. by eapply System.pop_start.
  - destruct (Pop.step _ _) as [[ring' c']|] eqn:Hs; [|done]. simplify_eq. by apply System.pop_step.
Qed.

Lemma exec_all_sound s chs ls s' : exec_all s chs = Some (ls, s') -> System.steps s ls s'.
Proof.
  revert s ls. induction chs as [|ch chs IH]; intros s ls; simpl; [intros [= <- <-]; constructor|].
  destruct (exec s ch) as [[l s1]|] eqn:He; [|done]. destruct (exec_all s1 chs) as [[ls1 s2]|] eqn:Ha; [|done].
  intros [= <- <-]. econstructor; [by apply exec_sound with (ch := ch)|by apply IH].
Qed.
End Schedules.

(** ** Concrete runs: 32 bytes, two producers that overlap, one consumer. *)
Definition ring32 : RingBuffer.t := RingBuffer.mk 32 0 0 0 (replicate 32 0).
Lemma ring32_ok : capacity_ok 32 ring32.
Proof. split; [vm_compute; reflexivity|lia|]. by exists (2 ^ 27). Qed.

Definition demo_schedule : list choice :=
  [StartPush 0 [1; 2; 3]; StartPush 1 [9]] ++ replicate 3 (StepPush 0) ++ replicate 7 (StepPush 1)
  ++ replicate 3 (StepPush 0).
Definition demo_finish : list choice := replicate 2 (StepPush 0) ++ replicate 2 (StepPush 1) ++ [StartPop None] ++ replicate 5 StepPop.

Definition demo_mid : list System.label * System.t :=
  default ([], System.init ring32 2) (@exec_all wasm32 (System.init ring32 2) demo_schedule).
Definition demo_end : list System.label * System.t :=
  default ([], System.init ring32 2) (@exec_all wasm32 (System.init ring32 2) (demo_schedule ++ demo_finish)).

Lemma demo_mid_steps : @System.steps wasm32 (System.init ring32 2) demo_mid.1 demo_mid.2.
Proof. apply exec_all_sound with (chs := demo_schedule). vm_compute. reflexivity. Qed.
Lemma demo_end_steps : @System.steps wasm32 (System.init ring32 2) demo_end.1 demo_end.2.
Proof. apply exec_all_sound with (chs := demo_schedule ++ demo_finish). vm_compute. reflexivity. Qed.

Lemma ring_refines_queue_witness :
  taken demo_end.1 = [inl [1; 2; 3]] /\ reserved demo_end.1 = [[1; 2; 3]; [9]] /\
  exists q out, QueueSpec.accepts QueueSpec.empty demo_end.1 = Some q /\
    reserved demo_end.1 = out ++ q.(QueueSpec.records) /\ Forall2 took (taken demo_end.1) out.
Proof.
  split; [vm_compute; reflexivity|]. split; [vm_compute; reflexivity|].
  exact (proj1 (@ring_refines_queue wasm32 32 ring32 2 demo_end.1 demo_end.2 ring32_ok demo_end_steps)).
Defined.

Lemma ring_progress_witness :
  exists i ci ls' s', demo_mid.2.(System.producers) !! i = Some ci /\ is_Some (stage_of ci) /\
    @System.steps wasm32 demo_mid.2 (ls' ++ [System.Committed]) s' /\ (length ls' < 5)%nat /\
    s'.(System.producers) = <[i := Push.goto (Push.Done (Ok tt)) ci]> demo_mid.2.(System.producers).
Proof.
  eapply (@ring_progress wasm32 32 ring32 2 demo_mid.1 demo_mid.2 1); [exact ring32_ok|exact demo_mid_steps|vm_compute; reflexivity|].
  vm_compute. eexists. reflexivity.
Defined.

Lemma ring_pop_terminates_witness :
  exists q ring', QueueSpec.accepts QueueSpec.empty demo_end.1 = Some q /\
    @Pop.pop_alone wasm32 demo_end.2.(System.ring) (Pop.mk (Some 0) Pop.LoadHead) =
      Some (ring', match take q.(QueueSpec.committed) q.(QueueSpec.records) with
                   | [] => Err Empty | p :: _ => answer (Some 0) p end).
Proof. exact (@ring_pop_terminates wasm32 32 ring32 2 demo_end.1 demo_end.2 (Some 0) ring32_ok demo_end_steps). Defined.

Lemma ring_push_exact_witness :
  exists ring', @Push.try_push wasm32 demo_end.2.(System.ring) (replicate 20 5) = Some (ring', Err Full).
Proof.
  apply (@ring_push_exact wasm32 32 ring32 2 demo_end.1 demo_end.2 (replicate 20 5)); [exact ring32_ok|exact demo_end_steps| |].
  - intros i c Hc. destruct i as [|[|i]]; vm_compute in Hc; [injection Hc as <-; vm_compute; eexists; reflexivity..|discriminate].
  - by apply Forall_replicate.
Defined.
