(* ===== verification/Virtq.v ===== *)
(** * Split virtqueues (crates/aero-virtio/src/queue.rs, memory.rs)

    The guest memory trait of the crate as a class with its contract, [GuestRam]
    as the instance that meets it, descriptor chains, the queue's operations and
    the transport's loop that drains a queue (pci.rs).  A loop that follows
    guest-written links runs on fuel; running out of it is [None], which the
    theorems exclude. *)

From S2P Require Import Prelude Bytes GuestMem.

Abbreviation VIRTQ_DESC_F_NEXT := (1) (only parsing).
Abbreviation VIRTQ_DESC_F_WRITE := (2) (only parsing).
Abbreviation VIRTQ_DESC_F_INDIRECT := (4) (only parsing).
Definition MAX_INDIRECT_DESC_TABLE_ENTRIES : Z := 4096.
Abbreviation VIRTQ_AVAIL_F_NO_INTERRUPT := (1) (only parsing).

(** ** Guest memory as the virtio crate sees it *)
Module VMem.
Inductive GuestMemoryError := OutOfBounds (addr len : Z).

#[global] Instance error_eq_dec : EqDecision GuestMemoryError.
Proof. solve_decision. Defined.

(** [read] returns the bytes it copies into a buffer of length [n]. *)
Class GuestMemory (M : Type) := {
  len : M -> Z;
  read : M -> Z -> nat -> result (list Z) GuestMemoryError;
  write : M -> Z -> list Z -> result unit GuestMemoryError * M;
}.

Class View (M : Type) := { ok : M -> Prop; byte : M -> Z -> Z }.

(** The contract: one contiguous array of bytes. *)
Class Spec (M : Type) `{GuestMemory M} `{View M} : Prop := {
  len_ok : forall m, ok m -> uint 64 (len m);
  byte_u8 : forall m a, ok m -> byte_ok (byte m a);
  read_spec : forall m p n, ok m -> uint 64 p ->
    read m p n = if p + Z.of_nat n <=? len m then Ok (span (byte m) p n) else Err (OutOfBounds p (Z.of_nat n));
  write_in : forall m p src, ok m -> uint 64 p -> Forall byte_ok src -> p + Z.of_nat (length src) <= len m ->
    exists m', write m p src = (Ok tt, m') /\ ok m' /\ len m' = len m /\
      forall a, 0 <= a < len m -> byte m' a = splice (byte m) p src a;
  write_out : forall m p src, ok m -> uint 64 p -> len m < p + Z.of_nat (length src) ->
    write m p src = (Err (OutOfBounds p (Z.of_nat (length src))), m);
}.

Section Words.
Context `{GuestMemory M}.
Definition read_u16_le (m : M) (addr : Z) : result Z GuestMemoryError :=
  let? buf := read m addr 2 in Ok (from_le_bytes buf).
Definition write_u16_le (m : M) (addr value : Z) : result unit GuestMemoryError * M :=
  write m addr (to_le_bytes 2 value).
End Words.

Definition check_range (size addr : Z) (len : nat) : result unit GuestMemoryError :=
  let? end_ := ok_or (OutOfBounds addr (Z.of_nat len)) (checked_add 64 addr (Z.of_nat len)) in
  if size <? end_ then Err (OutOfBounds addr (Z.of_nat len)) else Ok tt.
End VMem.

(** Contiguous guest RAM.  The slices after the range check use [usize]
    indices; a [Vec] is never longer than [usize::MAX]. *)
Module GuestRam.
Record t := mk { data : list Z }.
Definition new (size : nat) : t := mk (replicate size 0).
Definition len (m : t) : Z := Z.of_nat (length m.(data)).
Definition read (m : t) (addr : Z) (n : nat) : result (list Z) VMem.GuestMemoryError :=
  let? _ := VMem.check_range (len m) addr n in
  if (n =? 0)%nat then Ok [] else Ok (take n (drop (Z.to_nat addr) m.(data))).
Definition write (m : t) (addr : Z) (src : list Z) : result unit VMem.GuestMemoryError * t :=
  match VMem.check_range (len m) addr (length src) with
  | Err e => (Err e, m)
  | Ok _ =>
      if (length src =? 0)%nat then (Ok tt, m)
      else let start := Z.to_nat addr in
           (Ok tt, mk (take start m.(data) ++ src ++ drop (start + length src) m.(data)))
  end.
#[global] Instance guest_memory : VMem.GuestMemory t := { len := len; read := read; write := write }.
End GuestRam.

(** ** Descriptors *)
Inductive VirtQueueError :=
| GuestMemoryErr (e : VMem.GuestMemoryError)
| QueueSizeZero
| DescriptorIndexOutOfRange (index table_size : Z)
| DescriptorChainLoop
| IndirectDescriptorHasNext
| NestedIndirectDescriptor
| IndirectDescriptorLenNotMultipleOf16 (len : Z)
| IndirectDescriptorTableTooLarge (count : Z).

#[export] Instance vq_error_eq_dec : EqDecision VirtQueueError.
Proof. solve_decision. Defined.

Module Descriptor.
Record t := mk { addr : Z; len : Z; flags : Z; next : Z }.
Definition is_write_only (d : t) : bool := nz (d.(flags) &&& VIRTQ_DESC_F_WRITE).
End Descriptor.

#[export] Instance descriptor_eq_dec : EqDecision Descriptor.t.
Proof. solve_decision. Defined.

Definition slice (bs : list Z) (a b : nat) : list Z := take (b - a) (drop a bs).

Section Chains.
Context `{VMem.GuestMemory M}.

(** [checked_add] on an address; the failure names the base. *)
Definition offset_addr (base off len : Z) : result Z VirtQueueError :=
  ok_or (GuestMemoryErr (VMem.OutOfBounds base len)) (checked_add 64 base off).

(** [RawDescriptor::read_from]; a raw descriptor has the fields of a parsed one. *)
Definition read_from (mem : M) (table_addr index : Z) : result Descriptor.t VirtQueueError :=
  let? base := offset_addr table_addr (index * 16) 16 in
  let? bytes := map_err GuestMemoryErr (VMem.read mem base 16) in
  Ok (Descriptor.mk (from_le_bytes (slice bytes 0 8)) (from_le_bytes (slice bytes 8 12))
        (from_le_bytes (slice bytes 12 14)) (from_le_bytes (slice bytes 14 16))).

Abbreviation chain_result := (option (result (list Descriptor.t) VirtQueueError)).

Definition push_front (d : Descriptor.t) (r : chain_result) : chain_result :=
  match r with Some (Ok ds) => Some (Ok (d :: ds)) | _ => r end.

(** The loop of [read_chain]; [indirect] is the call of [read_indirect]. *)
Fixpoint chain_loop (indirect : Z -> Z -> chain_result) (mem : M) (table_addr table_size : Z)
    (allow_indirect : bool) (fuel : nat) (visited : list bool) (index : Z) : chain_result :=
  match fuel with
  | O => None
  | S fuel =>
      if table_size <=? index then Some (Err (DescriptorIndexOutOfRange index table_size))
      else if default false (visited !! Z.to_nat index) then Some (Err DescriptorChainLoop)
      else
        let visited := <[Z.to_nat index := true]> visited in
        match read_from mem table_addr index with
        | Err e => Some (Err e)
        | Ok raw =>
            if nz (raw.(Descriptor.flags) &&& VIRTQ_DESC_F_INDIRECT) then
              if negb allow_indirect then Some (Err NestedIndirectDescriptor)
              else if nz (raw.(Descriptor.flags) &&& VIRTQ_DESC_F_NEXT) then Some (Err IndirectDescriptorHasNext)
              else indirect raw.(Descriptor.addr) raw.(Descriptor.len)
            else if negb (nz (raw.(Descriptor.flags) &&& VIRTQ_DESC_F_NEXT)) then Some (Ok [raw])
            else push_front raw
                   (chain_loop indirect mem table_addr table_size allow_indirect fuel visited raw.(Descriptor.next))
        end
  end.

Definition chain_from (indirect : Z -> Z -> chain_result) (mem : M) (table_addr table_size head_index : Z)
    (allow_indirect : bool) : chain_result :=
  if table_size =? 0 then Some (Err QueueSizeZero)
  else if table_size <=? head_index then Some (Err (DescriptorIndexOutOfRange head_index table_size))
  else chain_loop indirect mem table_addr table_size allow_indirect (Z.to_nat table_size + 1)
         (replicate (Z.to_nat table_size) false) head_index.

(** Inside an indirect table no further table is followed. *)
Definition read_indirect (mem : M) (table_addr len : Z) : chain_result :=
  if negb (len mod 16 =? 0) then Some (Err (IndirectDescriptorLenNotMultipleOf16 len))
  else
    let count := len / 16 in
    if MAX_INDIRECT_DESC_TABLE_ENTRIES <? count then Some (Err (IndirectDescriptorTableTooLarge count))
    else if 2 ^ 16 <=? count then Some (Err (IndirectDescriptorTableTooLarge count))
    else chain_from (fun _ _ => None) mem table_addr count 0 false.

Definition read_chain (mem : M) (table_addr table_size head_index : Z) : chain_result :=
  chain_from (read_indirect mem) mem table_addr table_size head_index true.
End Chains.

(** ** The queue *)
Module VirtQueueConfig.
Record t := mk { size : Z; desc_addr : Z; avail_addr : Z; used_addr : Z }.
End VirtQueueConfig.

Inductive PoppedDescriptorChain :=
| Chain (head_index : Z) (descriptors : list Descriptor.t)
| Invalid (head_index : Z) (error : VirtQueueError).

Definition popped_head (p : PoppedDescriptorChain) : Z :=
  match p with Chain h _ => h | Invalid h _ => h end.

Definition vring_need_event (event new old : Z) : bool :=
  wrapping_sub 16 new (wrapping_add 16 event 1) <? wrapping_sub 16 new old.

Module VirtQueue.
Record t := mk { config : VirtQueueConfig.t; next_avail : Z; next_used : Z; event_idx : bool }.

Definition with_next_avail v q := mk q.(config) v q.(next_used) q.(event_idx).
Definition with_next_used v q := mk q.(config) q.(next_avail) v q.(event_idx).

Definition new (config : VirtQueueConfig.t) (event_idx : bool) : result t VirtQueueError :=
  if config.(VirtQueueConfig.size) =? 0 then Err QueueSizeZero else Ok (mk config 0 0 event_idx).
Definition size (q : t) : Z := q.(config).(VirtQueueConfig.size).
Definition set_event_idx (enabled : bool) (q : t) : t := mk q.(config) q.(next_avail) q.(next_used) enabled.
Definition restore_progress (next_avail next_used : Z) (event_idx : bool) (q : t) : t :=
  mk q.(config) next_avail next_used event_idx.

Section Ops.
Context `{VMem.GuestMemory M}.

Definition avail_addr (q : t) : Z := q.(config).(VirtQueueConfig.avail_addr).
Definition used_addr (q : t) : Z := q.(config).(VirtQueueConfig.used_addr).

(** The avail index and, when there is a new entry, its head. *)
Definition next_head (mem : M) (q : t) : result (option Z) VirtQueueError :=
  let? avail_idx_addr := offset_addr (avail_addr q) 2 2 in
  let? avail_idx := map_err GuestMemoryErr (VMem.read_u16_le mem avail_idx_addr) in
  if avail_idx =? q.(next_avail) then Ok None
  else
    let ring_index := q.(next_avail) mod size q in
    let? elem_addr := offset_addr (avail_addr q) (4 + ring_index * 2) 2 in
    let? head := map_err GuestMemoryErr (VMem.read_u16_le mem elem_addr) in
    Ok (Some head).

Definition pop_descriptor_chain (mem : M) (q : t) :
    option (result (option PoppedDescriptorChain) VirtQueueError * t) :=
  match next_head mem q with
  | Err e => Some (Err e, q)
  | Ok None => Some (Ok None, q)
  | Ok (Some head) =>
      let q := with_next_avail (wrapping_add 16 q.(next_avail) 1) q in
      match read_chain mem q.(config).(VirtQueueConfig.desc_addr) (size q) head with
      | Some (Ok descriptors) => Some (Ok (Some (Chain head descriptors)), q)
      | Some (Err err) => Some (Ok (Some (Invalid head err)), q)
      | None => None
      end
  end.

Definition needs_interrupt (mem : M) (q : t) (old_used new_used : Z) : result bool VirtQueueError :=
  if q.(event_idx) then
    let? used_event_addr := offset_addr (avail_addr q) (4 + size q * 2) 2 in
    let? event := map_err GuestMemoryErr (VMem.read_u16_le mem used_event_addr) in
    Ok (vring_need_event event new_used old_used)
  else
    let? flags := map_err GuestMemoryErr (VMem.read_u16_le mem (avail_addr q)) in
    Ok (flags &&& VIRTQ_AVAIL_F_NO_INTERRUPT =? 0).

Definition add_used (head_index len : Z) (q : t) (mem : M) : result bool VirtQueueError * t * M :=
  let old_used := q.(next_used) in
  let used_elem_index := old_used mod size q in
  match offset_addr (used_addr q) (4 + used_elem_index * 8) 8 with
  | Err e => (Err e, q, mem)
  | Ok elem_addr =>
      match VMem.write mem elem_addr (to_le_bytes 4 head_index ++ to_le_bytes 4 len) with
      | (Err e, mem) => (Err (GuestMemoryErr e), q, mem)
      | (Ok _, mem) =>
          let q := with_next_used (wrapping_add 16 q.(next_used) 1) q in
          match offset_addr (used_addr q) 2 2 with
          | Err e => (Err e, q, mem)
          | Ok used_idx_addr =>
              match VMem.write_u16_le mem used_idx_addr q.(next_used) with
              | (Err e, mem) => (Err (GuestMemoryErr e), q, mem)
              | (Ok _, mem) => (needs_interrupt mem q old_used q.(next_used), q, mem)
              end
          end
      end
  end.

Definition update_avail_event (q : t) (mem : M) : result unit VirtQueueError * M :=
  if negb q.(event_idx) then (Ok tt, mem)
  else
    match offset_addr (used_addr q) (4 + size q * 8) 2 with
    | Err e => (Err e, mem)
    | Ok avail_event_addr =>
        match VMem.write_u16_le mem avail_event_addr q.(next_avail) with
        | (Err e, mem) => (Err (GuestMemoryErr e), mem)
        | (Ok _, mem) => (Ok tt, mem)
        end
    end.
End Ops.
End VirtQueue.

(** ** The transport's drain loop (pci.rs, [process_queue_activity])

    A device model is its state and the two methods the loop calls. *)
Inductive VirtioDeviceError := BadDescriptorChain | Unsupported | IoError.

Class VirtioDevice (D M : Type) := {
  process_queue : Z -> Z -> list Descriptor.t -> D -> VirtQueue.t -> M -> result bool VirtioDeviceError * D * VirtQueue.t * M;
  poll_queue : Z -> D -> VirtQueue.t -> M -> result bool VirtioDeviceError * D * VirtQueue.t * M;
}.

Definition unwrap_or_false {E} (r : result bool E) : bool := match r with Ok b => b | Err _ => false end.

Section Transport.
Context `{VMem.GuestMemory M} `{VirtioDevice D M}.

(** What is done with one popped chain. *)
Definition serve (queue_index : Z) (p : PoppedDescriptorChain) (d : D) (q : VirtQueue.t) (mem : M) : bool * D * VirtQueue.t * M :=
  match p with
  | Chain head ds =>
      match process_queue queue_index head ds d q mem with
      | (Ok irq, d, q, mem) => (irq, d, q, mem)
      | (Err _, d, q, mem) =>
          let '(r, q, mem) := VirtQueue.add_used head 0 q mem in (unwrap_or_false r, d, q, mem)
      end
  | Invalid head _ =>
      let '(r, q, mem) := VirtQueue.add_used head 0 q mem in (unwrap_or_false r, d, q, mem)
  end.

(** [for _ in 0..max_chains]; [None] only if a chain ran out of fuel. *)
Fixpoint drain (queue_index : Z) (max_chains : nat) (need_irq : bool) (d : D) (q : VirtQueue.t) (mem : M) :
    option (bool * D * VirtQueue.t * M) :=
  match max_chains with
  | O => Some (need_irq, d, q, mem)
  | S n =>
      match VirtQueue.pop_descriptor_chain mem q with
      | None => None
      | Some (Ok (Some p), q) =>
          let '(irq, d, q, mem) := serve queue_index p d q mem in
          drain queue_index n (need_irq || irq) d q mem
      | Some (_, q) => Some (need_irq, d, q, mem)
      end
  end.

(** The part of [process_queue_activity] that works on an enabled queue; the
    flag asks for the queue's interrupt. *)
Definition process_queue_activity (queue_index : Z) (d : D) (q : VirtQueue.t) (mem : M) :
    option (bool * D * VirtQueue.t * M) :=
  match drain queue_index (Z.to_nat (VirtQueue.size q)) false d q mem with
  | None => None
  | Some (need_irq, d, q, mem) =>
      let '(r, d, q, mem) := poll_queue queue_index d q mem in
      let '(_, mem) := VirtQueue.update_avail_event q mem in
      Some (need_irq || unwrap_or_false r, d, q, mem)
  end.
End Transport.
