(* ===== verification/VirtioInput.v ===== *)
(** * The virtio keyboard, mouse and tablet (crates/aero-virtio/src/devices/input.rs)

    Events injected by the host wait in [pending] until the guest has posted
    buffers on queue 0; queue 1 carries LED events from the guest.  The
    identification strings and capability bitmaps, which only feed reads of the
    configuration space, are left out. *)

From S2P Require Import Prelude Bytes Virtq.

Abbreviation EV_SYN := (0) (only parsing).
Abbreviation EV_KEY := (1) (only parsing).
Abbreviation EV_REL := (2) (only parsing).
Abbreviation EV_ABS := (3) (only parsing).
Abbreviation EV_LED := (0x11) (only parsing).
Abbreviation SYN_REPORT := (0) (only parsing).
Abbreviation REL_X := (0) (only parsing).
Abbreviation REL_Y := (1) (only parsing).
Abbreviation REL_HWHEEL := (6) (only parsing).
Abbreviation REL_WHEEL := (8) (only parsing).
Abbreviation ABS_X := (0) (only parsing).
Abbreviation ABS_Y := (1) (only parsing).
Abbreviation VIRTIO_INPUT_CFG_UNSET := (0) (only parsing).
Definition MAX_PENDING_EVENTS : nat := Z.to_nat 4096.
Abbreviation MAX_STATUSQ_BYTES := (4096) (only parsing).

Inductive VirtioInputDeviceKind := Keyboard | Mouse | Tablet.

(** [value] is an [i32]. *)
Module VirtioInputEvent.
Record t := mk { type_ : Z; code : Z; value : Z }.
Definition to_le_bytes (e : t) : list Z :=
  Bytes.to_le_bytes 2 e.(type_) ++ Bytes.to_le_bytes 2 e.(code) ++ Bytes.to_le_bytes 4 (wrap 32 e.(value)).
Definition from_le_bytes (bytes : list Z) : t :=
  mk (Bytes.from_le_bytes (slice bytes 0 2)) (Bytes.from_le_bytes (slice bytes 2 4))
     (to_signed 32 (Bytes.from_le_bytes (slice bytes 4 8))).
End VirtioInputEvent.

Module Status.
(** The locals of [process_statusq_chain]; [partial] is the first
    [pending_len] bytes of its buffer for an incomplete event. *)
Record t := mk { staged : Z; leds : Z; budget : Z; partial : list Z }.
End Status.

Module VirtioInput.
Record t := mk {
  kind : VirtioInputDeviceKind;
  config_select : Z;
  config_subsel : Z;
  pending : list VirtioInputEvent.t;
  buffers : list (Z * list Descriptor.t);
  leds_mask : Z;
}.

Definition with_pending v s := mk s.(kind) s.(config_select) s.(config_subsel) v s.(buffers) s.(leds_mask).
Definition with_buffers v s := mk s.(kind) s.(config_select) s.(config_subsel) s.(pending) v s.(leds_mask).
Definition with_leds_mask v s := mk s.(kind) s.(config_select) s.(config_subsel) s.(pending) s.(buffers) v.
Definition with_config_select v s := mk s.(kind) v s.(config_subsel) s.(pending) s.(buffers) s.(leds_mask).
Definition with_config_subsel v s := mk s.(kind) s.(config_select) v s.(pending) s.(buffers) s.(leds_mask).

Definition new (kind : VirtioInputDeviceKind) : t := mk kind VIRTIO_INPUT_CFG_UNSET 0 [] [] 0.

Definition push_event (event : VirtioInputEvent.t) (s : t) : t :=
  let s := if (MAX_PENDING_EVENTS <=? length s.(pending))%nat then with_pending (tail s.(pending)) s else s in
  with_pending (s.(pending) ++ [event]) s.

Definition syn_report (s : t) : t := push_event (VirtioInputEvent.mk EV_SYN SYN_REPORT 0) s.
Definition inject_key (code : Z) (pressed : bool) (s : t) : t :=
  if code =? 0 then s
  else syn_report (push_event (VirtioInputEvent.mk EV_KEY code (if pressed then 1 else 0)) s).
Definition inject_button := inject_key.
Definition push_nonzero (code value : Z) (s : t) : t :=
  if value =? 0 then s else push_event (VirtioInputEvent.mk EV_REL code value) s.
Definition inject_rel_move (dx dy : Z) (s : t) : t :=
  if (dx =? 0) && (dy =? 0) then s else syn_report (push_nonzero REL_Y dy (push_nonzero REL_X dx s)).
Definition inject_wheel2 (wheel hwheel : Z) (s : t) : t :=
  if (wheel =? 0) && (hwheel =? 0) then s
  else syn_report (push_nonzero REL_HWHEEL hwheel (push_nonzero REL_WHEEL wheel s)).
Definition inject_wheel (delta : Z) (s : t) : t := inject_wheel2 delta 0 s.
Definition inject_hwheel (delta : Z) (s : t) : t := inject_wheel2 0 delta s.
Definition inject_abs_move (x y : Z) (s : t) : t :=
  syn_report (push_event (VirtioInputEvent.mk EV_ABS ABS_Y y) (push_event (VirtioInputEvent.mk EV_ABS ABS_X x) s)).

(** ** Queue 0: events to the guest *)
Section Queues.
Context `{VMem.GuestMemory M}.

(** The [for d in descs] loop of [flush_events]; the number of bytes written. *)
Fixpoint write_event (bytes : list Z) (descs : list Descriptor.t) (written : nat) (mem : M) :
    result nat VirtioDeviceError * M :=
  match descs with
  | [] => (Ok written, mem)
  | d :: ds =>
      if negb (Descriptor.is_write_only d) then (Err BadDescriptorChain, mem)
      else if (written =? length bytes)%nat then (Ok written, mem)
      else
        let take := Nat.min (Z.to_nat d.(Descriptor.len)) (length bytes - written) in
        match VMem.write mem d.(Descriptor.addr) (slice bytes written (written + take)) with
        | (Err _, mem) => (Err IoError, mem)
        | (Ok _, mem) => write_event bytes ds (written + take) mem
        end
  end.

(** The loop of [flush_events], which takes a buffer per round. *)
Fixpoint flush_loop (buffers : list (Z * list Descriptor.t)) (need_irq : bool) (s : t) (q : VirtQueue.t) (mem : M) :
    result bool VirtioDeviceError * t * VirtQueue.t * M :=
  match buffers with
  | [] => (Ok need_irq, with_buffers [] s, q, mem)
  | (head, descs) :: rest =>
      match s.(pending) with
      | [] => (Ok need_irq, with_buffers ((head, descs) :: rest) s, q, mem)
      | event :: later =>
          match descs with
          | [] => (Err BadDescriptorChain, with_buffers rest s, q, mem)
          | _ =>
              match write_event (VirtioInputEvent.to_le_bytes event) descs 0 mem with
              | (Err e, mem) => (Err e, with_buffers rest s, q, mem)
              | (Ok written, mem) =>
                  let s := with_pending later s in
                  match VirtQueue.add_used head (wrap 32 (Z.of_nat written)) q mem with
                  | (Err _, q, mem) => (Err IoError, with_buffers rest s, q, mem)
                  | (Ok irq, q, mem) => flush_loop rest (need_irq || irq) s q mem
                  end
              end
          end
      end
  end.

Definition flush_events (s : t) (q : VirtQueue.t) (mem : M) : result bool VirtioDeviceError * t * VirtQueue.t * M :=
  flush_loop s.(buffers) false s q mem.

(** ** Queue 1: LED events from the guest *)
Definition led_bit (code : Z) : option Z :=
  if (0 <=? code) && (code <=? 4) then Some code else None.

(** The staged mask, and the device's when a report ends. *)
Definition process_statusq_event (event : VirtioInputEvent.t) (staged leds : Z) : Z * Z :=
  if event.(VirtioInputEvent.type_) =? EV_LED then
    match led_bit event.(VirtioInputEvent.code) with
    | None => (staged, leds)
    | Some bit =>
        let flag := 1 <<< bit in
        (if nz event.(VirtioInputEvent.value) then staged ||| flag else staged &&& unot 8 flag, leds)
    end
  else if (event.(VirtioInputEvent.type_) =? EV_SYN) && (event.(VirtioInputEvent.code) =? SYN_REPORT) then (staged, staged)
  else (staged, leds).

Definition status_event (bytes : list Z) (c : Status.t) : Status.t :=
  let '(staged, leds) := process_statusq_event (VirtioInputEvent.from_le_bytes bytes) c.(Status.staged) c.(Status.leds) in
  Status.mk staged leds c.(Status.budget) c.(Status.partial).

(** [while slice.len() >= 8], and the rest of the slice. *)
Fixpoint whole_events (slice : list Z) (c : Status.t) : list Z * Status.t :=
  match slice with
  | b0 :: b1 :: b2 :: b3 :: b4 :: b5 :: b6 :: b7 :: rest =>
      whole_events rest (status_event [b0; b1; b2; b3; b4; b5; b6; b7] c)
  | _ => (slice, c)
  end.

Definition status_chunk (chunk : list Z) (c : Status.t) : Status.t :=
  let '(chunk, c) :=
    if nz (Z.of_nat (length c.(Status.partial))) then
      let n := Nat.min (8 - length c.(Status.partial)) (length chunk) in
      let filled := c.(Status.partial) ++ take n chunk in
      if (length filled =? 8)%nat
      then (drop n chunk, status_event filled (Status.mk c.(Status.staged) c.(Status.leds) c.(Status.budget) []))
      else (drop n chunk, Status.mk c.(Status.staged) c.(Status.leds) c.(Status.budget) filled)
    else (chunk, c) in
  let '(rest, c) := whole_events chunk c in
  if (length rest =? 0)%nat then c else Status.mk c.(Status.staged) c.(Status.leds) c.(Status.budget) rest.

(** The [while remaining != 0] loop of one descriptor; [false] is
    [break 'descs].  Every round uses at least a byte of the budget. *)
Fixpoint status_desc (fuel : nat) (mem : M) (addr remaining : Z) (c : Status.t) : bool * Status.t :=
  if remaining =? 0 then (true, c)
  else
    match fuel with
    | O => (false, c)
    | S fuel =>
        if c.(Status.budget) =? 0 then (false, c)
        else
          let take := Z.min (Z.min remaining 256) c.(Status.budget) in
          match VMem.read mem addr (Z.to_nat take) with
          | Err _ => (false, c)
          | Ok chunk =>
              let c := status_chunk chunk c in
              match checked_add 64 addr take with
              | None => (false, c)
              | Some addr =>
                  status_desc fuel mem addr (remaining - take)
                    (Status.mk c.(Status.staged) c.(Status.leds) (c.(Status.budget) - take) c.(Status.partial))
              end
          end
    end.

Fixpoint status_descs (mem : M) (descs : list Descriptor.t) (c : Status.t) : Status.t :=
  match descs with
  | [] => c
  | d :: ds =>
      match status_desc (Z.to_nat c.(Status.budget) + 1) mem d.(Descriptor.addr) d.(Descriptor.len) c with
      | (true, c) => status_descs mem ds c
      | (false, c) => c
      end
  end.

Definition process_statusq_chain (descs : list Descriptor.t) (mem : M) (s : t) : t :=
  match s.(kind) with
  | Keyboard =>
      let c := status_descs mem descs (Status.mk s.(leds_mask) s.(leds_mask) MAX_STATUSQ_BYTES []) in
      with_leds_mask c.(Status.staged) s
  | _ => s
  end.

(** ** The device *)
Definition map_io {A} (r : result A VirtQueueError) : result A VirtioDeviceError := map_err (fun _ => IoError) r.

Definition process_queue (queue_index head : Z) (descs : list Descriptor.t) (s : t) (q : VirtQueue.t) (mem : M) :
    result bool VirtioDeviceError * t * VirtQueue.t * M :=
  if queue_index =? 0 then
    let max_buffers := Z.to_nat (VirtQueue.size q) in
    if negb (max_buffers =? 0)%nat && (max_buffers <=? length s.(buffers))%nat then
      let '(r, q, mem) := VirtQueue.add_used head 0 q mem in (map_io r, s, q, mem)
    else flush_events (with_buffers (s.(buffers) ++ [(head, descs)]) s) q mem
  else if queue_index =? 1 then
    let s := process_statusq_chain descs mem s in
    let '(r, q, mem) := VirtQueue.add_used head 0 q mem in (map_io r, s, q, mem)
  else (Err Unsupported, s, q, mem).

Definition poll_queue (queue_index : Z) (s : t) (q : VirtQueue.t) (mem : M) :
    result bool VirtioDeviceError * t * VirtQueue.t * M :=
  if negb (queue_index =? 0) then (Ok false, s, q, mem) else flush_events s q mem.
End Queues.

#[global] Instance virtio_device `{VMem.GuestMemory M} : VirtioDevice t M :=
  { process_queue := process_queue; poll_queue := poll_queue }.

(** ** Configuration, reset and snapshot *)
Fixpoint write_config (offset : Z) (i : Z) (data : list Z) (s : t) : t :=
  match data with
  | [] => s
  | byte :: data =>
      let at_ := saturating_add 64 offset i in
      let s := if at_ =? 0 then with_config_select byte s else if at_ =? 1 then with_config_subsel byte s else s in
      write_config offset (i + 1) data s
  end.

Definition reset (s : t) : t := mk s.(kind) VIRTIO_INPUT_CFG_UNSET 0 [] [] 0.

Definition snapshot_device_state (s : t) : list Z := [1; s.(config_select); s.(config_subsel); s.(leds_mask)].
Definition restore_device_state (bytes : list Z) (s : t) : t :=
  match bytes with
  | version :: select :: subsel :: leds :: _ =>
      if version =? 1 then with_leds_mask (leds &&& 0x1F) (with_config_subsel subsel (with_config_select select s)) else s
  | _ => s
  end.
End VirtioInput.
