(* ===== verification/VirtqFacts.v ===== *)
(** * Facts about virtqueues

    Termination and size of descriptor chains for any memory, what a chain is,
    the contract of [GuestRam], and the effect of the queue's operations on a
    memory that meets the contract. *)

From S2P Require Import Prelude Bytes GuestMem Virtq.

(** ** Loops over guest-written links *)

(** How many table entries have not been visited. *)
Fixpoint unvisited (v : list bool) : nat :=
  match v with [] => 0 | b :: v => (if b then 0 else 1) + unvisited v end.

Lemma unvisited_replicate n : unvisited (replicate n false) = n.
Proof. induction n as [|n IH]; simpl; lia. Qed.

Lemma unvisited_insert v i : v !! i = Some false -> unvisited v = S (unvisited (<[i := true]> v)).
Proof.
  revert i. induction v as [|b v IH]; intros [|i] Hi; simplify_eq/=; [done|]. rewrite (IH _ Hi). lia.
Qed.

Lemma default_unvisited v index :
  index < Z.of_nat (length v) -> (0 < length v)%nat -> default false (v !! Z.to_nat index) = false ->
  v !! Z.to_nat index = Some false.
Proof.
  intros Hi Hl Hv. destruct (lookup_lt_is_Some_2 v (Z.to_nat index)) as [b Hb]; [lia|]. rewrite Hb in *. simpl in Hv. by subst.
Qed.

Section Loops.
Context `{VMem.GuestMemory M}.
Implicit Types (mem : M) (ds : list Descriptor.t).

(** The loop ends within one round per table entry, whatever the memory holds. *)
Lemma chain_loop_total indirect mem ta ts allow fuel v index :
  (allow = true -> forall a l, is_Some (indirect a l)) ->
  0 < ts -> length v = Z.to_nat ts -> (unvisited v < fuel)%nat ->
  is_Some (chain_loop indirect mem ta ts allow fuel v index).
Proof.
  intros Hind Hts. revert v index. induction fuel as [|fuel IH]; intros v index Hl Hf; [lia|]. simpl.
  destruct (ts <=? index) eqn:Hi; [by eexists|]. destruct (default false _) eqn:Hv; [by eexists|]. bool_hyps.
  assert (v !! Z.to_nat index = Some false) as Hu by (apply default_unvisited; [lia|lia|done]).
  destruct (read_from _ _ _) as [raw|e]; [|by eexists].
  case_if; [destruct allow; simpl; [case_if; [by eexists|by apply Hind]|by eexists]|].
  case_if; [by eexists|].
  destruct (IH (<[Z.to_nat index:=true]> v) (Descriptor.next raw)) as [r Hr].
  { by rewrite length_insert. }
  { apply unvisited_insert in Hu. lia. }
  rewrite Hr. destruct r as [ds|e]; by eexists.
Qed.

(** A chain has a descriptor, and at most one per unvisited entry, plus what an
    indirect table adds. *)
Lemma chain_loop_length indirect mem ta ts allow fuel v index ds (B : nat) :
  (1 <= B)%nat ->
  (forall a l ds, indirect a l = Some (Ok ds) -> (1 <= length ds <= B)%nat) ->
  0 < ts -> length v = Z.to_nat ts ->
  chain_loop indirect mem ta ts allow fuel v index = Some (Ok ds) ->
  (1 <= unvisited v /\ 1 <= length ds <= unvisited v - 1 + B)%nat.
Proof.
  intros HB Hind Hts. revert v index ds. induction fuel as [|fuel IH]; intros v index ds Hl; simpl; [done|].
  destruct (ts <=? index) eqn:Hi; [done|]. destruct (default false _) eqn:Hv; [done|]. bool_hyps.
  assert (v !! Z.to_nat index = Some false) as Hu by (apply default_unvisited; [lia|lia|done]).
  apply unvisited_insert in Hu. destruct (read_from _ _ _) as [raw|e]; [|done].
  case_if.
  { case_if; [done|]. case_if; [done|]. intros Hr. apply Hind in Hr. lia. }
  case_if; [intros [= <-]; simpl; lia|].
  destruct (chain_loop _ _ _ _ _ _ _ _) as [[ds'|e]|] eqn:Hr; simpl; try done. intros [= <-]. simpl.
  apply IH in Hr; [lia|]. by rewrite length_insert.
Qed.

Lemma chain_from_total indirect mem ta ts head allow :
  (allow = true -> forall a l, is_Some (indirect a l)) -> 0 <= ts \/ 0 <= head ->
  is_Some (chain_from indirect mem ta ts head allow).
Proof.
  intros Hind Hts. unfold chain_from. case_if; [by eexists|]. case_if; [by eexists|]. bool_hyps.
  apply chain_loop_total; [done|lia|by rewrite length_replicate|rewrite unvisited_replicate; lia].
Qed.

Lemma chain_from_length indirect mem ta ts head allow ds (B : nat) :
  (1 <= B)%nat -> (forall a l ds, indirect a l = Some (Ok ds) -> (1 <= length ds <= B)%nat) -> 0 <= ts ->
  chain_from indirect mem ta ts head allow = Some (Ok ds) -> (1 <= length ds <= Z.to_nat ts - 1 + B)%nat.
Proof.
  intros HB Hind Hts. unfold chain_from. case_if; [done|]. case_if; [done|]. bool_hyps. intros Hr.
  apply (chain_loop_length _ _ _ _ _ _ _ _ _ B) in Hr; [|done|done|lia|by rewrite length_replicate].
  rewrite unvisited_replicate in Hr. lia.
Qed.

Lemma read_indirect_total mem ta l : is_Some (read_indirect mem ta l).
Proof.
  unfold read_indirect. repeat (case_if; [by eexists|]). apply chain_from_total; [done|by right].
Qed.

Lemma read_chain_total mem ta ts head : 0 <= ts -> is_Some (read_chain mem ta ts head).
Proof. intros Hts. apply chain_from_total; [intros _ a l; apply read_indirect_total|by left]. Qed.

Lemma read_indirect_length mem ta l ds :
  read_indirect mem ta l = Some (Ok ds) -> (1 <= length ds <= 4096)%nat.
Proof.
  unfold read_indirect, MAX_INDIRECT_DESC_TABLE_ENTRIES. repeat (case_if; [done|]). bool_hyps. intros Hr.
  assert (0 <= l / 16) as H0.
  { destruct (Z.leb_spec 0 (l / 16)); [done|]. unfold chain_from in Hr.
    case_if_in Hr; [done|]. case_if_in Hr; [done|]. bool_hyps. lia. }
  apply (chain_from_length _ _ _ _ _ _ _ 1) in Hr; [lia|lia|done|done].
Qed.
End Loops.

(** ** What a descriptor chain is *)
Definition has (f : Z) (d : Descriptor.t) : bool := nz (d.(Descriptor.flags) &&& f).

(** From entry [i] of a table the links visit the entries [vs], without
    repetition, and give the descriptors [ds].  Only the last entry lacks NEXT;
    in the queue's own table it may instead name an indirect table, whose chain
    from entry 0 takes its place. *)
Inductive chain_spec `{VMem.GuestMemory M} (mem : M) : Z -> Z -> bool -> Z -> list Z -> list Descriptor.t -> Prop :=
| chain_last ta ts allow i d :
    0 <= i < ts -> read_from mem ta i = Ok d -> has VIRTQ_DESC_F_INDIRECT d = false -> has VIRTQ_DESC_F_NEXT d = false ->
    chain_spec mem ta ts allow i [i] [d]
| chain_next ta ts allow i d vs ds :
    0 <= i < ts -> read_from mem ta i = Ok d -> has VIRTQ_DESC_F_INDIRECT d = false -> has VIRTQ_DESC_F_NEXT d = true ->
    i ∉ vs -> chain_spec mem ta ts allow d.(Descriptor.next) vs ds ->
    chain_spec mem ta ts allow i (i :: vs) (d :: ds)
| chain_indirect ta ts i d count vs ds :
    0 <= i < ts -> read_from mem ta i = Ok d -> has VIRTQ_DESC_F_INDIRECT d = true -> has VIRTQ_DESC_F_NEXT d = false ->
    d.(Descriptor.len) = 16 * count -> 0 < count <= MAX_INDIRECT_DESC_TABLE_ENTRIES ->
    chain_spec mem d.(Descriptor.addr) count false 0 vs ds ->
    chain_spec mem ta ts true i [i] ds.

Section ChainSpec.
Context `{VMem.Spec M}.
Implicit Types (mem : M) (ds : list Descriptor.t).

Lemma mem_slice_uint mem p (n a b : nat) :
  VMem.ok mem -> (a <= b <= n)%nat -> uint (8 * Z.of_nat (b - a)) (from_le_bytes (slice (span (VMem.byte mem) p n) a b)).
Proof.
  intros Hok Hab. assert (length (slice (span (VMem.byte mem) p n) a b) = b - a)%nat as Hl
    by (unfold slice; rewrite length_take, length_drop, span_length; lia).
  rewrite <- Hl. apply from_le_bytes_uint. unfold slice. apply Forall_take, Forall_drop, Forall_span.
  intros x. by apply VMem.byte_u8.
Qed.

Lemma read_from_uint mem ta i d :
  VMem.ok mem -> uint 64 ta -> 0 <= i -> read_from mem ta i = Ok d ->
  uint 64 d.(Descriptor.addr) /\ uint 32 d.(Descriptor.len) /\ uint 16 d.(Descriptor.next).
Proof.
  intros Hok Hta Hi. unfold read_from, offset_addr, checked_add. case_if; simpl; [|done]. bool_hyps.
  rewrite VMem.read_spec by (done || (unfold uint in *; lia)). case_if; simpl; [|done].
  intros [= <-]. cbn [Descriptor.addr Descriptor.len Descriptor.next].
  split_and!; [apply (mem_slice_uint mem _ 16 0 8)|apply (mem_slice_uint mem _ 16 8 12)|apply (mem_slice_uint mem _ 16 14 16)]; done || lia.
Qed.

Lemma chain_spec_visits mem ta ts allow i vs ds :
  chain_spec mem ta ts allow i vs ds -> NoDup vs /\ Forall (fun j => 0 <= j < ts) vs.
Proof.
  induction 1 as [| ta ts allow i d vs ds Hi _ _ _ Hn _ [IH1 IH2] |]; [| |].
  - split; [apply NoDup_singleton|by apply Forall_singleton].
  - split; [by constructor|by constructor].
  - split; [apply NoDup_singleton|by apply Forall_singleton].
Qed.

Lemma visits_length (vs : list Z) ts : 0 <= ts -> NoDup vs -> Forall (fun j => 0 <= j < ts) vs -> (length vs <= Z.to_nat ts)%nat.
Proof.
  intros Hts Hnd Hf. rewrite <- (length_seqZ 0 ts). apply submseteq_length, NoDup_submseteq; [done|].
  intros x Hx. rewrite elem_of_seqZ. rewrite Forall_forall in Hf. specialize (Hf x Hx). lia.
Qed.

Lemma chain_loop_sound indirect mem ta ts allow fuel v i ds :
  VMem.ok mem -> uint 64 ta -> 0 <= i -> length v = Z.to_nat ts ->
  (forall i d ds, 0 <= i < ts -> allow = true -> read_from mem ta i = Ok d -> has VIRTQ_DESC_F_INDIRECT d = true ->
     has VIRTQ_DESC_F_NEXT d = false -> indirect d.(Descriptor.addr) d.(Descriptor.len) = Some (Ok ds) ->
     chain_spec mem ta ts allow i [i] ds) ->
  chain_loop indirect mem ta ts allow fuel v i = Some (Ok ds) ->
  exists vs, chain_spec mem ta ts allow i vs ds /\ Forall (fun j => v !! Z.to_nat j = Some false) vs.
Proof.
  intros Hok Hta Hi Hl Hind. revert v i ds Hi Hl. induction fuel as [|fuel IH]; intros v i ds Hi Hl; simpl; [done|].
  destruct (ts <=? i) eqn:Hts; [done|]. destruct (default false _) eqn:Hv; [done|]. bool_hyps.
  assert (v !! Z.to_nat i = Some false) as Hu by (apply default_unvisited; [lia|lia|done]).
  destruct (read_from mem ta i) as [raw|e] eqn:Hr; [|done].
  destruct (nz (_ &&& VIRTQ_DESC_F_INDIRECT)) eqn:Hin.
  { destruct allow; [|done]. simpl. destruct (nz (_ &&& VIRTQ_DESC_F_NEXT)) eqn:Hn; [done|]. intros Hd.
    exists [i]. split; [by apply (Hind i raw)|by apply Forall_singleton]. }
  destruct (nz (_ &&& VIRTQ_DESC_F_NEXT)) eqn:Hn; simpl.
  2: { intros [= <-]. exists [i]. split; [by apply chain_last|by apply Forall_singleton]. }
  destruct (chain_loop _ _ _ _ _ _ _ _) as [[ds'|e]|] eqn:Hc; simpl; try done. intros [= <-].
  destruct (read_from_uint mem ta i raw Hok Hta Hi Hr) as (_ & _ & Hnx).
  apply IH in Hc as (vs & Hs & Hf); [|apply Hnx|by rewrite length_insert].
  assert (i ∉ vs) as Hni.
  { intros Hel. rewrite Forall_forall in Hf. specialize (Hf i Hel).
    rewrite list_lookup_insert_eq in Hf; [done|]. by eapply lookup_lt_Some. }
  exists (i :: vs). split; [by eapply chain_next|]. constructor; [done|].
  destruct (chain_spec_visits _ _ _ _ _ _ _ Hs) as [_ Hb].
  rewrite Forall_forall in Hf, Hb |- *. intros j Hj. specialize (Hf j Hj). specialize (Hb j Hj).
  rewrite list_lookup_insert_ne in Hf; [done|]. intros Heq. apply Hni. by replace i with j by lia.
Qed.

Lemma chain_loop_complete indirect mem ta ts allow i vs ds fuel v :
  (forall d ds vs count, allow = true -> d.(Descriptor.len) = 16 * count -> 0 < count <= MAX_INDIRECT_DESC_TABLE_ENTRIES ->
     chain_spec mem d.(Descriptor.addr) count false 0 vs ds -> indirect d.(Descriptor.addr) d.(Descriptor.len) = Some (Ok ds)) ->
  chain_spec mem ta ts allow i vs ds -> (length vs <= fuel)%nat ->
  Forall (fun j => default false (v !! Z.to_nat j) = false) vs ->
  chain_loop indirect mem ta ts allow fuel v i = Some (Ok ds).
Proof.
  intros Hind Hs. revert fuel v.
  induction Hs as [ta ts allow i d Hi Hr Hin Hn|ta ts allow i d vs ds Hi Hr Hin Hn Hni Hs IH|ta ts i d count vs ds Hi Hr Hin Hn Hlen Hc Hs _];
    intros [|fuel] v Hf Hv; simpl in Hf; try lia; apply Forall_cons in Hv as [Hv0 Hv]; simpl;
    rewrite (proj2 (Z.leb_gt _ _)), Hv0, Hr by lia; unfold has in Hin, Hn; rewrite Hin, Hn; simpl; [done| |by eapply Hind].
  rewrite (IH Hind fuel); [done|lia|].
  destruct (chain_spec_visits _ _ _ _ _ _ _ Hs) as [_ Hb]. rewrite Forall_forall in Hv, Hb |- *. intros j Hj.
  rewrite list_lookup_insert_ne; [by apply Hv|]. intros Heq. apply Hni. specialize (Hb j Hj). by replace i with j by lia.
Qed.

Lemma replicate_unvisited (vs : list Z) n : Forall (fun j => default false (replicate n false !! Z.to_nat j) = false) vs.
Proof. apply Forall_true. intros j. by destruct (replicate n false !! Z.to_nat j) eqn:E; [apply lookup_replicate in E as [-> _]|]. Qed.

Lemma chain_from_complete indirect mem ta ts allow i vs ds :
  (forall d ds vs count, allow = true -> d.(Descriptor.len) = 16 * count -> 0 < count <= MAX_INDIRECT_DESC_TABLE_ENTRIES ->
     chain_spec mem d.(Descriptor.addr) count false 0 vs ds -> indirect d.(Descriptor.addr) d.(Descriptor.len) = Some (Ok ds)) ->
  chain_spec mem ta ts allow i vs ds -> chain_from indirect mem ta ts i allow = Some (Ok ds).
Proof.
  intros Hind Hs. assert (0 <= i < ts) as Hi by (by destruct Hs). destruct (chain_spec_visits _ _ _ _ _ _ _ Hs) as [Hnd Hb].
  unfold chain_from. rewrite (proj2 (Z.eqb_neq _ _)), (proj2 (Z.leb_gt _ _)) by lia.
  eapply chain_loop_complete; [done|done| |apply replicate_unvisited].
  pose proof (visits_length vs ts ltac:(lia) Hnd Hb). lia.
Qed.

Lemma chain_from_sound indirect mem ta ts allow i ds :
  VMem.ok mem -> uint 64 ta -> 0 <= i ->
  (forall i d ds, 0 <= i < ts -> allow = true -> read_from mem ta i = Ok d -> has VIRTQ_DESC_F_INDIRECT d = true ->
     has VIRTQ_DESC_F_NEXT d = false -> indirect d.(Descriptor.addr) d.(Descriptor.len) = Some (Ok ds) ->
     chain_spec mem ta ts allow i [i] ds) ->
  chain_from indirect mem ta ts i allow = Some (Ok ds) -> exists vs, chain_spec mem ta ts allow i vs ds.
Proof.
  intros Hok Hta Hi Hind. unfold chain_from. case_if; [done|]. case_if; [done|]. intros Hc.
  apply chain_loop_sound in Hc as (vs & Hs & _); [by exists vs|done..| |done]. by rewrite length_replicate.
Qed.

(** The parser accepts exactly the chains. *)
Lemma read_chain_iff mem ta ts head ds :
  VMem.ok mem -> uint 64 ta -> 0 <= head ->
  read_chain mem ta ts head = Some (Ok ds) <-> exists vs, chain_spec mem ta ts true head vs ds.
Proof.
  intros Hok Hta Hh. split.
  - apply chain_from_sound; [done..|]. intros i d ds' Hi _ Hr Hin Hn. unfold read_indirect.
    destruct (read_from_uint mem ta i d Hok Hta ltac:(lia) Hr) as (Ha & Hl & _).
    repeat (case_if; [done|]). bool_hyps. intros Hc.
    assert (Descriptor.len d = 16 * (Descriptor.len d / 16)) as Hd by (pose proof (Z.div_mod (Descriptor.len d) 16 ltac:(lia)); lia).
    assert (0 < Descriptor.len d / 16) as Hpos.
    { unfold chain_from in Hc. case_if_in Hc; [done|]. bool_hyps. pose proof (Z.div_pos (Descriptor.len d) 16). unfold uint in Hl. lia. }
    apply chain_from_sound in Hc as [vs Hs]; [|done..]. eapply chain_indirect; done || lia.
  - intros [vs Hs]. eapply chain_from_complete; [|exact Hs]. intros d ds' vs' count _ Hl Hc Hs'. unfold read_indirect.
    unfold MAX_INDIRECT_DESC_TABLE_ENTRIES in *. rewrite Hl, Z.mul_comm, Z.mod_mul, Z.div_mul by lia. simpl.
    rewrite (proj2 (Z.ltb_ge _ _)), (proj2 (Z.leb_gt _ _)) by lia. eapply chain_from_complete; [done|exact Hs'].
Qed.
End ChainSpec.

(** ** [GuestRam] meets the contract of guest memory *)
Module GuestRamFacts.
Definition ok (m : GuestRam.t) : Prop := uint 64 (GuestRam.len m) /\ Forall byte_ok m.(GuestRam.data).
Definition byte (m : GuestRam.t) (a : Z) : Z := default 0 (m.(GuestRam.data) !! Z.to_nat a).
#[global] Instance view : VMem.View GuestRam.t := { ok := ok; byte := byte }.

Lemma check_range_eq sz p n :
  uint 64 sz -> uint 64 p ->
  VMem.check_range sz p n = if p + Z.of_nat n <=? sz then Ok tt else Err (VMem.OutOfBounds p (Z.of_nat n)).
Proof.
  unfold VMem.check_range, checked_add, uint. intros Hs Hp.
  destruct (Z.ltb_spec (p + Z.of_nat n) (2 ^ 64)), (Z.leb_spec (p + Z.of_nat n) sz); simpl;
    try destruct (Z.ltb_spec sz (p + Z.of_nat n)); done || lia.
Qed.

Lemma splice_data (d : list Z) p src a :
  0 <= p -> p + Z.of_nat (length src) <= Z.of_nat (length d) -> 0 <= a ->
  default 0 ((take (Z.to_nat p) d ++ src ++ drop (Z.to_nat p + length src) d) !! Z.to_nat a) =
  splice (fun a => default 0 (d !! Z.to_nat a)) p src a.
Proof.
  intros Hp Hl Ha. unfold splice.
  assert (length (take (Z.to_nat p) d) = Z.to_nat p) as Ht by (rewrite length_take; lia).
  destruct (Z.leb_spec p a); simpl.
  2: { rewrite lookup_app_l by lia. by rewrite lookup_take_lt by lia. }
  rewrite lookup_app_r, Ht by lia. destruct (Z.ltb_spec a (p + Z.of_nat (length src))).
  - rewrite lookup_app_l by lia. do 2 f_equal. lia.
  - rewrite lookup_app_r, lookup_drop by lia. do 2 f_equal. lia.
Qed.

#[global] Instance guest_ram_spec : VMem.Spec GuestRam.t.
Proof.
  split.
  - by intros m [Hl _].
  - intros m a [_ Hb]. simpl. unfold byte. destruct (_ !! Z.to_nat a) eqn:E; [|done]. by eapply Forall_lookup in Hb.
  - intros m p n [Hl _] Hp. simpl. unfold GuestRam.read. rewrite check_range_eq by done.
    destruct (Z.leb_spec (p + Z.of_nat n) (GuestRam.len m)); simpl; [|done].
    unfold GuestRam.len, uint in *. destruct n as [|n]; simpl; [done|].
    rewrite (span_take_drop _ 0) by lia. rewrite Z2Nat.id by lia. done.
  - intros m p src [Hl Hb] Hp Hsrc Hin. simpl in *. unfold GuestRam.write. rewrite check_range_eq, (proj2 (Z.leb_le _ _)) by done.
    destruct (Nat.eqb_spec (length src) 0) as [H0|_].
    { apply nil_length_inv in H0 as ->. exists m. split_and!; try done. intros a Ha. by rewrite splice_other by (simpl; lia). }
    unfold GuestRam.len, uint in *. eexists. split_and!; [done|..]; simpl; unfold ok, GuestRam.len, uint; simpl.
    + rewrite !length_app, length_take, length_drop. split; [lia|].
      apply Forall_app; split; [by apply Forall_take|]. apply Forall_app; split; [done|by apply Forall_drop].
    + rewrite !length_app, length_take, length_drop. lia.
    + intros a Ha. apply splice_data; lia.
  - intros m p src [Hl _] Hp Hout. simpl in *. unfold GuestRam.write. by rewrite check_range_eq, (proj2 (Z.leb_gt _ _)) by done.
Qed.
End GuestRamFacts.

(** ** The rings in memory *)
Section Rings.
Context `{VMem.Spec M}.
Implicit Types (m : M) (q : VirtQueue.t).

Definition field (n : nat) m (a : Z) : Z := from_le_bytes (span (VMem.byte m) a n).
Definition agree (a n : Z) m m' : Prop := forall x, a <= x < a + n -> VMem.byte m' x = VMem.byte m x.

(** The rings lie in memory, apart from each other, and the size divides 2^16
    as the specification of virtio requires (a power of two). *)
Record layout m q : Prop := {
  lay_size : 0 < VirtQueue.size q < 2 ^ 16;
  lay_div : (VirtQueue.size q | 2 ^ 16);
  lay_used : 0 <= VirtQueue.used_addr q /\ VirtQueue.used_addr q + (6 + 8 * VirtQueue.size q) <= VMem.len m;
  lay_avail : 0 <= VirtQueue.avail_addr q /\ VirtQueue.avail_addr q + (6 + 2 * VirtQueue.size q) <= VMem.len m;
  lay_apart : VirtQueue.used_addr q + (6 + 8 * VirtQueue.size q) <= VirtQueue.avail_addr q \/
              VirtQueue.avail_addr q + (6 + 2 * VirtQueue.size q) <= VirtQueue.used_addr q;
  lay_next_avail : uint 16 q.(VirtQueue.next_avail);
  lay_next_used : uint 16 q.(VirtQueue.next_used);
}.

Definition avail_idx m q : Z := field 2 m (VirtQueue.avail_addr q + 2).
Definition avail_head m q (i : Z) : Z := field 2 m (VirtQueue.avail_addr q + 4 + 2 * (i mod VirtQueue.size q)).
Definition used_idx m q : Z := field 2 m (VirtQueue.used_addr q + 2).
Definition used_slot q (i : Z) : Z := VirtQueue.used_addr q + 4 + 8 * (i mod VirtQueue.size q).
Definition used_head m q (i : Z) : Z := field 4 m (used_slot q i).
Definition used_len m q (i : Z) : Z := field 4 m (used_slot q i + 4).
Definition wants_irq m q : bool :=
  if q.(VirtQueue.event_idx)
  then vring_need_event (field 2 m (VirtQueue.avail_addr q + 4 + 2 * VirtQueue.size q))
         (wrapping_add 16 q.(VirtQueue.next_used) 1) q.(VirtQueue.next_used)
  else field 2 m (VirtQueue.avail_addr q) &&& VIRTQ_AVAIL_F_NO_INTERRUPT =? 0.

Lemma field_agree n a m m' : agree a (Z.of_nat n) m m' -> field n m' a = field n m a.
Proof. intros Ha. unfold field. f_equal. by apply span_ext. Qed.

Lemma field_uint n m a : VMem.ok m -> uint (8 * Z.of_nat n) (field n m a).
Proof.
  intros Hok. unfold field. rewrite <- (span_length (VMem.byte m) a n) at 1. apply from_le_bytes_uint, Forall_span.
  intros x. by apply VMem.byte_u8.
Qed.

Lemma read_field m a : VMem.ok m -> 0 <= a -> a + 2 <= VMem.len m -> VMem.read_u16_le m a = Ok (field 2 m a).
Proof.
  intros Hok Ha Hl. pose proof (VMem.len_ok m Hok). unfold VMem.read_u16_le. rewrite VMem.read_spec by (done || (unfold uint in *; lia)).
  by rewrite (proj2 (Z.leb_le _ _)) by lia.
Qed.

Lemma offset_ok m base off l : VMem.ok m -> 0 <= off -> base + off < VMem.len m -> offset_addr base off l = Ok (base + off).
Proof.
  intros Hok Ho Hl. pose proof (VMem.len_ok m Hok) as Hu. unfold offset_addr, checked_add, uint in *.
  by rewrite (proj2 (Z.ltb_lt _ _)) by lia.
Qed.

(** A write in range: the bytes written, and nothing else. *)
Lemma write_bytes m a src :
  VMem.ok m -> 0 <= a -> Forall byte_ok src -> a + Z.of_nat (length src) <= VMem.len m -> (0 < length src)%nat ->
  exists m', VMem.write m a src = (Ok tt, m') /\ VMem.ok m' /\ VMem.len m' = VMem.len m /\
    span (VMem.byte m') a (length src) = src /\
    (forall x, 0 <= x < VMem.len m -> ~ (a <= x < a + Z.of_nat (length src)) -> VMem.byte m' x = VMem.byte m x).
Proof.
  intros Hok Ha Hb Hl Hn. pose proof (VMem.len_ok m Hok) as Hu.
  destruct (VMem.write_in m a src) as (m' & Hw & Hok' & Hlen & Hbytes); [done|unfold uint in *; lia|done|done|].
  exists m'. split_and!; try done.
  - rewrite <- (splice_span (VMem.byte m) a src) at 2. apply span_ext. intros x Hx. apply Hbytes. lia.
  - intros x Hx Hout. rewrite Hbytes by done. by rewrite splice_other.
Qed.

Lemma ring_index_bound q i : 0 < VirtQueue.size q -> 0 <= i mod VirtQueue.size q < VirtQueue.size q.
Proof. intros Hs. by apply Z.mod_pos_bound. Qed.

Lemma next_head_spec m q :
  VMem.ok m -> layout m q ->
  VirtQueue.next_head m q =
    Ok (if avail_idx m q =? q.(VirtQueue.next_avail) then None else Some (avail_head m q q.(VirtQueue.next_avail))).
Proof.
  intros Hok [Hs _ _ Ha _ _ _]. pose proof (ring_index_bound q q.(VirtQueue.next_avail) ltac:(lia)) as Hr. unfold VirtQueue.next_head.
  rewrite (offset_ok m) by (done || lia). cbn [result_bind]. rewrite read_field by (done || lia). cbn [map_err result_bind].
  unfold avail_idx, avail_head. case_if; [done|]. rewrite (offset_ok m) by (done || lia). cbn [result_bind].
  rewrite read_field by (done || lia). cbn [map_err result_bind]. do 3 f_equal. lia.
Qed.

Definition bump q : VirtQueue.t := VirtQueue.with_next_used (wrapping_add 16 q.(VirtQueue.next_used) 1) q.

(** [m'] is [m] with one more entry published in the used ring of [q]. *)
Record published q (head len : Z) m m' : Prop := {
  pub_ok : VMem.ok m';
  pub_len : VMem.len m' = VMem.len m;
  pub_head : used_head m' q q.(VirtQueue.next_used) = head;
  pub_bytes : used_len m' q q.(VirtQueue.next_used) = len;
  pub_idx : used_idx m' q = wrapping_add 16 q.(VirtQueue.next_used) 1;
  pub_frame : forall x, 0 <= x < VMem.len m ->
    ~ (used_slot q q.(VirtQueue.next_used) <= x < used_slot q q.(VirtQueue.next_used) + 8) ->
    ~ (VirtQueue.used_addr q + 2 <= x < VirtQueue.used_addr q + 4) -> VMem.byte m' x = VMem.byte m x;
}.

Lemma needs_interrupt_spec m q :
  VMem.ok m -> layout m q ->
  VirtQueue.needs_interrupt m (bump q) q.(VirtQueue.next_used) (bump q).(VirtQueue.next_used) = Ok (wants_irq m q).
Proof.
  intros Hok [Hs _ _ Ha _ _ _]. unfold VirtQueue.needs_interrupt, wants_irq, VirtQueue.size, VirtQueue.avail_addr in *. simpl.
  case_if.
  - rewrite (offset_ok m) by (done || lia). cbn [result_bind]. rewrite read_field by (done || lia). cbn [map_err result_bind].
    do 3 f_equal; lia.
  - by rewrite read_field by (done || lia).
Qed.

Lemma add_used_spec m q head len :
  VMem.ok m -> layout m q -> uint 16 head -> uint 32 len ->
  exists m', VirtQueue.add_used head len q m = (Ok (wants_irq m q), bump q, m') /\ published q head len m m'.
Proof.
  intros Hok Hlay Hh Hlen. pose proof Hlay as [Hs _ Hu Ha Hap _ _].
  pose proof (ring_index_bound q q.(VirtQueue.next_used) ltac:(lia)) as Hr.
  set (slot := used_slot q q.(VirtQueue.next_used)). assert (slot = VirtQueue.used_addr q + (4 + q.(VirtQueue.next_used) mod VirtQueue.size q * 8)) as Hsl
    by (unfold slot, used_slot; lia).
  destruct (write_bytes m slot (to_le_bytes 4 head ++ to_le_bytes 4 len)) as (m1 & Hw1 & Hok1 & Hl1 & Hb1 & Hf1);
    [done|lia|apply Forall_app; split; apply to_le_bytes_ok|rewrite length_app, !to_le_bytes_length; lia..|].
  rewrite length_app, !to_le_bytes_length in Hb1, Hf1. change (Z.of_nat (4 + 4)) with 8 in Hf1.
  destruct (write_bytes m1 (VirtQueue.used_addr q + 2) (to_le_bytes 2 (bump q).(VirtQueue.next_used))) as (m2 & Hw2 & Hok2 & Hl2 & Hb2 & Hf2);
    [done|lia|apply to_le_bytes_ok|rewrite to_le_bytes_length; lia..|].
  rewrite to_le_bytes_length in Hb2, Hf2. change (Z.of_nat 2) with 2 in Hf2.
  assert (forall x, 0 <= x < VMem.len m -> ~ (slot <= x < slot + 8) ->
    ~ (VirtQueue.used_addr q + 2 <= x < VirtQueue.used_addr q + 4) -> VMem.byte m2 x = VMem.byte m x) as Hfr.
  { intros x Hx Hx1 Hx2. rewrite Hf2 by lia. by apply Hf1. }
  assert (agree slot 8 m1 m2) as Hag by (intros x Hx; apply Hf2; lia).
  rewrite (span_app _ slot 4 4) in Hb1. change (Z.of_nat 4) with 4 in Hb1.
  apply app_inj_1 in Hb1 as [Hb1 Hb1']; [|by rewrite span_length, to_le_bytes_length].
  exists m2. split.
  - unfold VirtQueue.add_used. rewrite (offset_ok m) by (done || lia). rewrite <- Hsl, Hw1. fold (bump q).
    change (VirtQueue.used_addr (bump q)) with (VirtQueue.used_addr q).
    rewrite (offset_ok m) by (done || lia). unfold VMem.write_u16_le. rewrite Hw2.
    rewrite needs_interrupt_spec; [|done|].
    2: { destruct Hlay; split; try done; rewrite Hl2, Hl1; done. }
    do 3 f_equal. unfold wants_irq.
    by rewrite !(field_agree 2 _ m m2) by (intros x Hx; apply Hfr; lia).
  - split; [done|congruence| | | |done].
    + unfold used_head. fold slot. rewrite field_agree with (m := m1) by (intros x Hx; apply Hag; lia). unfold field. rewrite Hb1.
      apply from_to_le_bytes_id. unfold uint in *. lia.
    + unfold used_len. fold slot. rewrite field_agree with (m := m1) by (intros x Hx; apply Hag; lia). unfold field. rewrite Hb1'.
      by apply from_to_le_bytes_id.
    + unfold used_idx, field. rewrite Hb2. apply from_to_le_bytes_id. by apply uint_wrap.
Qed.
End Rings.
