(* ===== verification/VirtqProps.v ===== *)
(** * Properties of virtqueues

    Chains are parsed exactly and in bounded time for any guest memory, the
    event test is the one of the virtio specification, and the transport
    completes every chain the driver made available, in order, for every device
    that keeps its contract. *)

From S2P Require Import Prelude Bytes GuestMem Virtq VirtqFacts VirtioInput.

(** C35: Popping ends for every memory, also one a hostile guest wrote: within
    the table's size the loop finds an end, an error or a repetition; a chain
    that is returned has at least one and at most [size - 1 + 4096] descriptors. *)
Theorem virtq_pop_terminates `{VMem.GuestMemory M} (m : M) q :
  0 <= VirtQueue.size q ->
  exists r q', VirtQueue.pop_descriptor_chain m q = Some (r, q') /\
    match r with
    | Ok (Some (Chain _ ds)) => (1 <= length ds <= Z.to_nat (VirtQueue.size q) - 1 + 4096)%nat
    | _ => True
    end.
Proof.
  intros Hs. unfold VirtQueue.pop_descriptor_chain. destruct (VirtQueue.next_head m q) as [[head|]|e]; [|by do 2 eexists..].
  set (q' := VirtQueue.with_next_avail _ q).
  destruct (read_chain_total m q'.(VirtQueue.config).(VirtQueueConfig.desc_addr) (VirtQueue.size q') head Hs) as [r Hr].
  rewrite Hr. destruct r as [ds|e]; do 2 eexists; (split; [done|]); [|done].
  by apply (chain_from_length _ _ _ _ _ _ _ 4096) in Hr; [|lia|apply read_indirect_length|].
Qed.

(** C36: The parser returns exactly the chains of the specification: the
    entries that the NEXT links visit from the head, all inside the table and
    without repetition, the last one possibly replaced by the chain of one
    indirect table. *)
Theorem virtq_chain_exact `{VMem.Spec M} (m : M) ta ts head ds :
  VMem.ok m -> uint 64 ta -> 0 <= head ->
  read_chain m ta ts head = Some (Ok ds) <-> exists vs, chain_spec m ta ts true head vs ds.
Proof. apply read_chain_iff. Qed.

(** With EVENT_IDX an interrupt is wanted exactly when the index the driver
    asked for is among those just published, modulo 2^16. *)
Theorem virtq_need_event_exact event new old :
  uint 16 event -> uint 16 new -> uint 16 old ->
  vring_need_event event new old = true <->
  exists k, 0 <= k < wrapping_sub 16 new old /\ event = wrapping_add 16 old k.
Proof.
  unfold vring_need_event, wrapping_sub, wrapping_add, wrap, uint. intros He Hn Ho. rewrite Z.ltb_lt.
  rewrite Zminus_mod_idemp_r.
  assert ((new - old) mod 2 ^ 16 = if old <=? new then new - old else new - old + 2 ^ 16) as ->.
  { destruct (Z.leb_spec old new); [apply Z.mod_small; lia|].
    rewrite <- (Z.mod_add _ 1) by lia. rewrite Z.mod_small; lia. }
  assert ((new - (event + 1)) mod 2 ^ 16 = if event <? new then new - event - 1 else new - event - 1 + 2 ^ 16) as ->.
  { destruct (Z.ltb_spec event new); [rewrite Z.mod_small; lia|].
    rewrite <- (Z.mod_add _ 1) by lia. rewrite Z.mod_small; lia. }
  split.
  - intros Hlt. exists (if old <=? event then event - old else event - old + 2 ^ 16).
    destruct (Z.leb_spec old new), (Z.ltb_spec event new), (Z.leb_spec old event); try lia; split; try lia.
    all: try (rewrite Z.mod_small; lia). all: symmetry; rewrite <- (Z.mod_add _ (-1)) by lia; rewrite Z.mod_small; lia.
  - intros (k & Hk & ->). assert ((old + k) mod 2 ^ 16 = if old + k <? 2 ^ 16 then old + k else old + k - 2 ^ 16) as ->.
    { destruct (Z.ltb_spec (old + k) (2 ^ 16)); [rewrite Z.mod_small; [done|]|rewrite <- (Z.mod_add _ (-1)) by lia; rewrite Z.mod_small];
        destruct (Z.leb_spec old new); lia. }
    destruct (Z.leb_spec old new), (Z.ltb_spec (old + k) (2 ^ 16)); case_match; bool_hyps; lia.
Qed.

(** ** Draining a queue *)

(** [m'] differs from [m] outside the rings of [q] only. *)
Record frame `{VMem.Spec M} q (m m' : M) : Prop := {
  fr_ok : VMem.ok m';
  fr_len : VMem.len m' = VMem.len m;
  fr_avail : agree (VirtQueue.avail_addr q) (6 + 2 * VirtQueue.size q) m m';
  fr_used : agree (VirtQueue.used_addr q) (6 + 8 * VirtQueue.size q) m m';
}.

(** What the transport expects of a device on queue [qi]: a chain that is
    accepted is completed once, with its own head; a chain that is refused is
    left to the transport; the rings are not touched otherwise; [poll_queue]
    has nothing to do. *)
Class Completes (D M : Type) `{VMem.Spec M} `{VirtioDevice D M} (qi : Z) : Prop := {
  process_completes : forall head ds (d : D) q (m : M), VMem.ok m -> layout m q -> uint 16 head ->
    exists m1 l, frame q m m1 /\ uint 32 l /\
      match process_queue qi head ds d q m with
      | (Ok irq, _, q', m') => VirtQueue.add_used head l q m1 = (Ok irq, q', m')
      | (Err _, _, q', m') => q' = q /\ m' = m1
      end;
  poll_idle : forall (d : D) q (m : M), exists r d', poll_queue qi d q m = (r, d', q, m);
}.

Section Drain.
Context `{HC : Completes D M qi}.
Implicit Types (m : M) (q : VirtQueue.t).

(** [m'] has the avail ring of [m]. *)
Definition same_avail q m m' : Prop :=
  VMem.ok m' /\ VMem.len m' = VMem.len m /\ agree (VirtQueue.avail_addr q) (6 + 2 * VirtQueue.size q) m m'.

Lemma layout_same m m' q q' :
  layout m q -> VMem.len m' = VMem.len m -> q'.(VirtQueue.config) = q.(VirtQueue.config) ->
  uint 16 q'.(VirtQueue.next_avail) -> uint 16 q'.(VirtQueue.next_used) -> layout m' q'.
Proof.
  intros [] Hl Hc Ha Hu. split; unfold VirtQueue.size, VirtQueue.used_addr, VirtQueue.avail_addr in *;
    rewrite ?Hc, ?Hl; done.
Qed.

Lemma published_same_avail q head len m m' : layout m q -> published q head len m m' -> same_avail q m m'.
Proof.
  intros [Hs _ Hu Ha Hap _ _] [Hok Hl _ _ _ Hf]. split; [done|]. split; [done|]. intros x Hx.
  pose proof (ring_index_bound q q.(VirtQueue.next_used) ltac:(lia)). unfold used_slot in Hf. apply Hf; lia.
Qed.

(** One chain: exactly one entry is published, for that chain's head. *)
Lemma serve_spec p d q m :
  VMem.ok m -> layout m q -> uint 16 (popped_head p) ->
  exists irq d' m1 m' l, serve qi p d q m = (irq, d', bump q, m') /\ frame q m m1 /\ published q (popped_head p) l m1 m'.
Proof.
  intros Hok Hlay Hh. assert (frame q m m) as Hrefl by (by split).
  assert (forall m1, frame q m m1 -> layout m1 q) as Hl1.
  { intros m1 [_ Hl _ _]. by eapply layout_same; [done|done|done|apply Hlay..]. }
  destruct p as [head ds|head e]; simpl in *.
  - destruct (process_completes head ds d q m Hok Hlay Hh) as (m1 & l & Hf & Hl & Hp).
    destruct (process_queue qi head ds d q m) as [[[[irq|e] d'] q'] m'].
    + destruct (add_used_spec m1 q head l (fr_ok _ _ _ Hf) (Hl1 _ Hf) Hh Hl) as (m2 & Hu & Hpub).
      rewrite Hu in Hp. simplify_eq. by exists (wants_irq m1 q), d', m1, m', l.
    + destruct Hp as [-> ->].
      destruct (add_used_spec m1 q head 0 (fr_ok _ _ _ Hf) (Hl1 _ Hf) Hh ltac:(done)) as (m2 & Hu & Hpub).
      rewrite Hu. by eexists _, d', m1, m2, 0.
  - destruct (add_used_spec m q head 0 Hok Hlay Hh ltac:(done)) as (m2 & Hu & Hpub). rewrite Hu. by eexists _, d, m, m2, 0.
Qed.

Definition waiting m q : Z := wrapping_sub 16 (avail_idx m q) q.(VirtQueue.next_avail).
Definition after (i : Z) (k : nat) : Z := wrapping_add 16 i (Z.of_nat k).

Lemma slots_differ sz i (j k : nat) :
  0 < sz -> (sz | 2 ^ 16) -> (j < k)%nat -> (k - j < Z.to_nat sz)%nat -> after i j mod sz <> after i k mod sz.
Proof.
  intros Hs [c Hc] Hjk Hk. unfold after, wrapping_add, wrap. rewrite Hc, !(Z.mul_comm c sz).
  rewrite !Z.rem_mul_r by nia. rewrite !(Z.mul_comm sz (_ mod c)), !Z.mod_add, !Z.mod_mod by lia. intros He.
  assert ((i + Z.of_nat k - (i + Z.of_nat j)) mod sz = 0) as Hm by (rewrite Zminus_mod, He, Z.sub_diag; by apply Z.mod_0_l; lia).
  replace (i + Z.of_nat k - (i + Z.of_nat j)) with (Z.of_nat (k - j)) in Hm by lia. rewrite Z.mod_small in Hm; lia.
Qed.

(** What a run of the loop leaves behind, [n] chains later. *)
Record drained (n : nat) q m q' m' : Prop := {
  dr_avail : same_avail q m m';
  dr_config : q'.(VirtQueue.config) = q.(VirtQueue.config) /\ q'.(VirtQueue.event_idx) = q.(VirtQueue.event_idx);
  dr_next_avail : q'.(VirtQueue.next_avail) = after q.(VirtQueue.next_avail) n;
  dr_next_used : q'.(VirtQueue.next_used) = after q.(VirtQueue.next_used) n;
  dr_heads : forall k, (k < n)%nat ->
    used_head m' q (after q.(VirtQueue.next_used) k) = avail_head m q (after q.(VirtQueue.next_avail) k);
  dr_others : forall i, (forall k, (k < n)%nat -> i mod VirtQueue.size q <> after q.(VirtQueue.next_used) k mod VirtQueue.size q) ->
    used_head m' q i = used_head m q i;
  dr_idx : used_idx m' q = match n with O => used_idx m q | S _ => q'.(VirtQueue.next_used) end;
}.

Lemma after_S i k : after (wrapping_add 16 i 1) k = after i (S k).
Proof. unfold after, wrapping_add, wrap. rewrite Zplus_mod_idemp_l. f_equal. lia. Qed.
Lemma after_0 i : uint 16 i -> after i 0 = i.
Proof. intros Hi. unfold after, wrapping_add. rewrite Z.add_0_r. by apply wrap_small. Qed.

Lemma waiting_step m q :
  VMem.ok m -> uint 16 q.(VirtQueue.next_avail) -> avail_idx m q <> q.(VirtQueue.next_avail) ->
  0 < waiting m q /\ wrapping_sub 16 (avail_idx m q) (wrapping_add 16 q.(VirtQueue.next_avail) 1) = waiting m q - 1.
Proof.
  intros Hok Hn Hne. pose proof (field_uint 2 m (VirtQueue.avail_addr q + 2) Hok) as Hu. fold (avail_idx m q) in Hu.
  change (8 * Z.of_nat 2) with 16 in Hu. unfold waiting, wrapping_sub, wrapping_add, wrap, uint in *.
  rewrite Zminus_mod_idemp_r. set (a := avail_idx m q) in *. set (b := VirtQueue.next_avail q) in *.
  assert ((a - b) mod 2 ^ 16 <> 0) as Hnz.
  { intros Hz. apply Hne. apply Z.mod_divide in Hz as [c Hc]; [|lia]. assert (c = 0) as -> by lia. lia. }
  pose proof (Z.mod_pos_bound (a - b) (2 ^ 16) ltac:(lia)). split; [lia|].
  replace (a - (b + 1)) with ((a - b) - 1) by lia. rewrite <- Zminus_mod_idemp_l. apply Z.mod_small. lia.
Qed.

(** A drained tail after one served chain is a drained run. *)
Lemma drained_cons n q m m1 m2 l q' m' :
  layout m q -> (S n <= Z.to_nat (VirtQueue.size q))%nat ->
  frame q m m1 -> published q (avail_head m q q.(VirtQueue.next_avail)) l m1 m2 ->
  drained n (VirtQueue.with_next_avail (wrapping_add 16 q.(VirtQueue.next_avail) 1) (bump q)) m2 q' m' ->
  drained (S n) q m q' m'.
Proof.
  intros Hlay Hn Hf Hpub [Hav Hcf Hna Hnu Hh Ho Hi].
  set (q1 := VirtQueue.with_next_avail _ (bump q)) in *.
  assert (layout m1 q) as Hlay1 by (eapply layout_same; [done|apply Hf|done|apply Hlay..]).
  pose proof (published_same_avail _ _ _ _ _ Hlay1 Hpub) as (Hok2 & Hlen2 & Hag2).
  destruct Hav as (Hok' & Hlen' & Hag'). change (VirtQueue.avail_addr q1) with (VirtQueue.avail_addr q) in *.
  change (VirtQueue.size q1) with (VirtQueue.size q) in *.
  assert (agree (VirtQueue.avail_addr q) (6 + 2 * VirtQueue.size q) m m2) as Hm2.
  { intros x Hx. rewrite Hag2 by done. by apply (fr_avail _ _ _ Hf). }
  assert (forall i, avail_head m2 q i = avail_head m q i) as Hheads.
  { intros i. apply field_agree. intros x Hx. apply Hm2. pose proof (ring_index_bound q i (proj1 (lay_size _ _ Hlay))). lia. }
  pose proof (lay_size _ _ Hlay) as Hs. pose proof (lay_div _ _ Hlay) as Hd.
  pose proof (lay_next_used _ _ Hlay) as Hu16. pose proof (lay_next_avail _ _ Hlay) as Ha16.
  assert (forall k, after q1.(VirtQueue.next_used) k = after q.(VirtQueue.next_used) (S k)) as Eu by (intros k; apply after_S).
  assert (forall k, after q1.(VirtQueue.next_avail) k = after q.(VirtQueue.next_avail) (S k)) as Ea by (intros k; apply after_S).
  split.
  - split; [done|]. split; [rewrite Hlen', Hlen2; apply Hf|]. intros x Hx. rewrite Hag' by done. by apply Hm2.
  - done.
  - by rewrite Hna, Ea.
  - by rewrite Hnu, Eu.
  - intros [|k] Hk.
    + rewrite !after_0 by done. rewrite <- (pub_head _ _ _ _ _ Hpub). apply Ho. intros k Hk'. rewrite Eu.
      rewrite <- (after_0 q.(VirtQueue.next_used)) at 1 by done. apply slots_differ; [lia|done|lia|lia].
    + specialize (Hh k ltac:(lia)). rewrite Eu, Ea in Hh. etrans; [exact Hh|]. apply Hheads.
  - intros i Hne. etrans; [apply (Ho i); intros k Hk; rewrite Eu; apply Hne; lia|].
    pose proof (Hne 0%nat ltac:(lia)) as Hz. rewrite after_0 in Hz by done.
    pose proof (ring_index_bound q i ltac:(lia)). pose proof (ring_index_bound q q.(VirtQueue.next_used) ltac:(lia)).
    destruct (lay_used _ _ Hlay1). change (used_head m2 q1 i) with (used_head m2 q i). etrans.
    + apply field_agree with (m := m1). intros x Hx. apply (pub_frame _ _ _ _ _ Hpub); unfold used_slot in *; lia.
    + apply field_agree. intros x Hx. apply (fr_used _ _ _ Hf). unfold used_slot in *. lia.
  - change (used_idx m' q1) with (used_idx m' q) in Hi. rewrite Hi. destruct n as [|n]; [|done].
    change (used_idx m2 q1) with (used_idx m2 q). by rewrite Hnu, Eu, (pub_idx _ _ _ _ _ Hpub).
Qed.

Lemma frame_advance v q m m' : frame (VirtQueue.with_next_avail v q) m m' -> frame q m m'.
Proof. by intros []. Qed.
Lemma published_advance v q h l m m' : published (VirtQueue.with_next_avail v q) h l m m' -> published q h l m m'.
Proof. by intros []. Qed.

Lemma drain_spec n irq d q m :
  VMem.ok m -> layout m q -> (n <= Z.to_nat (VirtQueue.size q))%nat ->
  exists irq' d' q' m', drain qi n irq d q m = Some (irq', d', q', m') /\
    drained (Nat.min n (Z.to_nat (waiting m q))) q m q' m'.
Proof.
  revert irq d q m. induction n as [|n IH]; intros irq d q m Hok Hlay Hn.
  { exists irq, d, q, m. split; [done|]. simpl. pose proof (lay_next_avail _ _ Hlay). pose proof (lay_next_used _ _ Hlay).
    split; [done|done|by rewrite after_0|by rewrite after_0|lia|done|done]. }
  cbn [drain]. unfold VirtQueue.pop_descriptor_chain. rewrite next_head_spec by done.
  destruct (avail_idx m q =? q.(VirtQueue.next_avail)) eqn:He; bool_hyps.
  { exists irq, d, q, m. split; [done|]. pose proof (lay_next_avail _ _ Hlay). pose proof (lay_next_used _ _ Hlay).
    unfold waiting, wrapping_sub. rewrite He, Z.sub_diag. change (Z.to_nat (wrap 16 0)) with 0%nat. rewrite Nat.min_0_r.
    split; [done|done|by rewrite after_0|by rewrite after_0|lia|done|done]. }
  destruct (waiting_step m q Hok (lay_next_avail _ _ Hlay) He) as [Hw Hw1].
  set (v := wrapping_add 16 q.(VirtQueue.next_avail) 1) in *. set (q1 := VirtQueue.with_next_avail v q).
  set (head := avail_head m q q.(VirtQueue.next_avail)).
  assert (uint 16 v) as Hv by (by apply uint_wrap).
  assert (layout m q1) as Hlay1 by (eapply layout_same; [done|done|done|done|apply Hlay]).
  assert (uint 16 head) as Hh by (apply (field_uint 2); done).
  assert (exists p, popped_head p = head /\
    match read_chain m q1.(VirtQueue.config).(VirtQueueConfig.desc_addr) (VirtQueue.size q1) head with
    | Some (Ok ds) => Some (Ok (Some (Chain head ds)), q1) | Some (Err e) => Some (Ok (Some (Invalid head e)), q1) | None => None
    end = Some (Ok (E := VirtQueueError) (Some p), q1)) as (p & Hp & ->).
  { destruct (read_chain_total m q1.(VirtQueue.config).(VirtQueueConfig.desc_addr) (VirtQueue.size q1) head) as [[ds|e] ->];
      [apply Z.lt_le_incl, Hlay1|by exists (Chain head ds)|by exists (Invalid head e)]. }
  rewrite <- Hp in Hh. destruct (serve_spec p d q1 m Hok Hlay1 Hh) as (irq1 & d1 & m1 & m2 & l & -> & Hf & Hpub).
  rewrite Hp in Hpub. apply frame_advance in Hf. apply published_advance in Hpub.
  assert (layout m1 q) as Hlaym1 by (eapply layout_same; [done|apply Hf|done|apply Hlay..]).
  pose proof (published_same_avail _ _ _ _ _ Hlaym1 Hpub) as (Hok2 & Hlen2 & Hag2).
  assert (layout m2 (bump q1)) as Hlay2.
  { eapply layout_same; [exact Hlaym1|done|done|done|by apply uint_wrap]. }
  destruct (IH (irq || irq1) d1 (bump q1) m2 Hok2 Hlay2) as (irq' & d' & q' & m' & -> & Hd); [change (VirtQueue.size (bump q1)) with (VirtQueue.size q); lia|].
  exists irq', d', q', m'. split; [done|].
  assert (avail_idx m2 q = avail_idx m q) as Hai.
  { apply field_agree. intros x Hx. pose proof (lay_size _ _ Hlay). rewrite Hag2 by lia. apply (fr_avail _ _ _ Hf). lia. }
  assert (waiting m2 (bump q1) = waiting m q - 1) as Hw2.
  { unfold waiting at 1. change (avail_idx m2 (bump q1)) with (avail_idx m2 q). rewrite Hai. exact Hw1. }
  rewrite Hw2 in Hd. replace (Nat.min (S n) (Z.to_nat (waiting m q))) with (S (Nat.min n (Z.to_nat (waiting m q - 1)))) by lia.
  eapply drained_cons; [done|lia|exact Hf|exact Hpub|exact Hd].
Qed.

(** C13: One round of the transport over a queue ends and completes every chain
    the driver has made available, up to the queue's size, whatever the
    descriptors contain and whichever chains the device refuses: the used ring
    holds their heads in the order of the avail ring, each once, the used index
    counts them, and both device indices advance by their number.  The device
    keeps the contract [Completes] for every chain, wherever its buffers lie,
    so it writes none of them; the status queue of the input device is one. *)
Theorem virtq_drain_completes d q m :
  VMem.ok m -> layout m q ->
  exists irq d' q' m',
    drain qi (Z.to_nat (VirtQueue.size q)) false d q m = Some (irq, d', q', m') /\
    drained (Z.to_nat (Z.min (VirtQueue.size q) (waiting m q))) q m q' m'.
Proof.
  intros Hok Hlay. destruct (drain_spec (Z.to_nat (VirtQueue.size q)) false d q m Hok Hlay ltac:(lia)) as (irq & d' & q' & m' & Hd & Hr).
  exists irq, d', q', m'. split; [done|]. rewrite Z2Nat.inj_min. exact Hr.
Qed.
End Drain.

(** ** The status queue of the input device keeps the contract *)
#[export] Instance input_status_completes `{VMem.Spec M} : Completes VirtioInput.t M 1.
Proof.
  split.
  - intros head ds d q m Hok Hlay Hh. exists m, 0. split; [by split|]. split; [done|].
    destruct (add_used_spec m q head 0 Hok Hlay Hh ltac:(done)) as (m' & Hu & _).
    simpl. unfold VirtioInput.process_queue. simpl. by rewrite Hu.
  - intros d q m. by eexists _, d.
Qed.

(** ** Concrete guests *)
Definition desc_bytes (addr len flags next : Z) : list Z :=
  to_le_bytes 8 addr ++ to_le_bytes 4 len ++ to_le_bytes 2 flags ++ to_le_bytes 2 next.
Definition poke (a : Z) (bs : list Z) (m : GuestRam.t) : GuestRam.t := snd (GuestRam.write m a bs).

(** A queue of four entries: descriptors at 0, avail ring at 64, used ring at
    128.  Entry 0 is a buffer the device may only read, entry 1 one it may write. *)
Definition demo_queue (avail : Z) (event_idx : bool) : VirtQueue.t :=
  VirtQueue.mk (VirtQueueConfig.mk 4 0 avail 128) 0 0 event_idx.
Definition post (avail count : Z) (head : Z) (m : GuestRam.t) : GuestRam.t :=
  poke (avail + 2) (to_le_bytes 2 count) (poke (avail + 4 + 2 * (count - 1)) (to_le_bytes 2 head) m).
Definition demo_guest (size : nat) : GuestRam.t :=
  poke 16 (desc_bytes 264 8 VIRTQ_DESC_F_WRITE 0) (poke 0 (desc_bytes 256 8 0 0) (GuestRam.new size)).

Definition demo_memory : GuestRam.t := post 64 2 0 (post 64 1 1 (demo_guest 272)).

Lemma demo_ok : VMem.ok demo_memory.
Proof. split; [vm_compute; split; [discriminate|reflexivity]|]. apply (bool_decide_unpack _). vm_compute. exact I. Qed.
Lemma demo_layout : layout demo_memory (demo_queue 64 false).
Proof.
  split; [vm_compute; split; reflexivity|exists (2 ^ 14); reflexivity|..]; try (vm_compute; split; discriminate || reflexivity).
  right. vm_compute. discriminate.
Qed.

Lemma virtq_pop_terminates_witness :
  exists r q', VirtQueue.pop_descriptor_chain demo_memory (demo_queue 64 false) = Some (r, q') /\
    match r with
    | Ok (Some (Chain _ ds)) => (1 <= length ds <= Z.to_nat (VirtQueue.size (demo_queue 64 false)) - 1 + 4096)%nat
    | _ => True
    end.
Proof. apply (virtq_pop_terminates demo_memory (demo_queue 64 false)). vm_compute. discriminate. Defined.

Lemma virtq_chain_exact_witness :
  exists vs, chain_spec demo_memory 0 4 true 1 vs [Descriptor.mk 264 8 2 0].
Proof.
  apply (proj1 (virtq_chain_exact demo_memory 0 4 1 [Descriptor.mk 264 8 2 0] demo_ok ltac:(done) ltac:(done))).
  vm_compute. reflexivity.
Defined.

Lemma virtq_need_event_exact_witness : exists k, 0 <= k < wrapping_sub 16 1 65535 /\ 0 = wrapping_add 16 65535 k.
Proof. apply (proj1 (virtq_need_event_exact 0 1 65535 ltac:(done) ltac:(done) ltac:(done))). vm_compute. reflexivity. Defined.

Lemma virtq_drain_completes_witness :
  exists irq d' q' m',
    drain 1 4 false (VirtioInput.new Keyboard) (demo_queue 64 false) demo_memory = Some (irq, d', q', m') /\
    drained 2 (demo_queue 64 false) demo_memory q' m'.
Proof.
  exact (virtq_drain_completes (D := VirtioInput.t) (qi := 1) (VirtioInput.new Keyboard) (demo_queue 64 false) demo_memory demo_ok demo_layout).
Defined.

(** A device error can make the transport complete the wrong chain.  The
    guest posts buffer 0, which is not writable; the host injects a key; the
    guest posts the good buffer 1.  The device fails on buffer 0 while it is
    handed buffer 1, so the transport completes 1, which the device still holds
    and completes again: the used ring says 1 twice and never 0. *)
Theorem input_wrong_chain_completed :
  exists irq1 d1 q1 m1 irq2 d2 q2 m2,
    process_queue_activity 0 (VirtioInput.new Keyboard) (demo_queue 64 false) (post 64 1 0 (demo_guest 272)) = Some (irq1, d1, q1, m1) /\
    used_idx m1 q1 = 0 /\
    process_queue_activity 0 (VirtioInput.inject_key 30 true d1) q1 (post 64 2 1 m1) = Some (irq2, d2, q2, m2) /\
    q2.(VirtQueue.next_avail) = 2 /\ used_idx m2 q2 = 2 /\ used_head m2 q2 0 = 1 /\ used_head m2 q2 1 = 1.
Proof. do 8 eexists. split; [vm_compute; reflexivity|]. split; [vm_compute; reflexivity|]. split; [vm_compute; reflexivity|]. vm_compute. done. Qed.

(** [add_used] can fail after it has published the entry.  With EVENT_IDX
    and an avail ring whose last word lies beyond the end of memory, the device
    reports that failure and the transport completes the chain once more: one
    chain made available, two used entries for it. *)
Theorem virtq_double_completion :
  exists irq d q m,
    drain 1 4 false (VirtioInput.new Keyboard) (demo_queue 260 true) (post 260 1 1 (demo_guest 272)) = Some (irq, d, q, m) /\
    q.(VirtQueue.next_avail) = 1 /\ used_idx m q = 2 /\ used_head m q 0 = 1 /\ used_head m q 1 = 1.
Proof. do 4 eexists. split; [vm_compute; reflexivity|]. vm_compute. done. Qed.
