(* ===== verification/InputProps.v ===== *)
(** * Properties of the virtio input device

    The chunked parser of the status queue computes the events of the
    concatenated buffers; the device's queues stay bounded. *)

From S2P Require Import Prelude Bytes GuestMem Virtq VirtqFacts VirtioInput.

(** ** The status queue as a stream *)

(** The events of a byte stream: its whole groups of eight bytes. *)
Fixpoint stream_events (bs : list Z) : list VirtioInputEvent.t :=
  match bs with
  | b0 :: b1 :: b2 :: b3 :: b4 :: b5 :: b6 :: b7 :: rest =>
      VirtioInputEvent.from_le_bytes [b0; b1; b2; b3; b4; b5; b6; b7] :: stream_events rest
  | _ => []
  end.

(** What one event does to the mask. *)
Definition led_step (mask : Z) (e : VirtioInputEvent.t) : Z :=
  if (e.(VirtioInputEvent.type_) =? EV_LED) && (0 <=? e.(VirtioInputEvent.code)) && (e.(VirtioInputEvent.code) <=? 4) then
    if e.(VirtioInputEvent.value) =? 0 then Z.clearbit mask e.(VirtioInputEvent.code)
    else Z.setbit mask e.(VirtioInputEvent.code)
  else mask.

(** Strong induction in steps of eight. *)
Lemma eights_ind (P : list Z -> Prop) :
  (forall bs, (length bs < 8)%nat -> P bs) ->
  (forall b0 b1 b2 b3 b4 b5 b6 b7 rest, P rest -> P (b0 :: b1 :: b2 :: b3 :: b4 :: b5 :: b6 :: b7 :: rest)) ->
  forall bs, P bs.
Proof.
  intros Hs Hc bs.
  remember (length bs) as n eqn:Hn. revert bs Hn. induction n as [n IH] using lt_wf_ind. intros bs ->.
  do 8 (destruct bs as [|? bs]; [apply Hs; simpl; lia|]). apply Hc. eapply IH; [|done]. simpl. lia.
Qed.

Lemma whole_events_short bs c : (length bs < 8)%nat -> VirtioInput.whole_events bs c = (bs, c).
Proof. intros Hl. do 8 (destruct bs as [|? bs]; [done|]). simpl in Hl. lia. Qed.

Lemma whole_events_rest bs c : (length (fst (VirtioInput.whole_events bs c)) < 8)%nat.
Proof.
  revert c. induction bs as [bs Hl|b0 b1 b2 b3 b4 b5 b6 b7 rest IH] using eights_ind; intros c; [by rewrite whole_events_short by done; simpl; lia|]. apply IH.
Qed.

Lemma whole_events_app bs bs' c :
  VirtioInput.whole_events (bs ++ bs') c =
  let '(rest, c') := VirtioInput.whole_events bs c in VirtioInput.whole_events (rest ++ bs') c'.
Proof.
  revert c. induction bs as [bs Hl|b0 b1 b2 b3 b4 b5 b6 b7 rest IH] using eights_ind; intros c; [by rewrite (whole_events_short bs) by done|]. apply IH.
Qed.

Definition set_partial p (c : Status.t) := Status.mk c.(Status.staged) c.(Status.leds) c.(Status.budget) p.
Definition set_budget b (c : Status.t) := Status.mk c.(Status.staged) c.(Status.leds) b c.(Status.partial).

(** Feeding bytes to the parser. *)
Definition feed (bs : list Z) (c : Status.t) : Status.t :=
  let '(rest, c') := VirtioInput.whole_events (c.(Status.partial) ++ bs) (set_partial [] c) in set_partial rest c'.

Lemma whole_events_frame bs c :
  (snd (VirtioInput.whole_events bs c)).(Status.budget) = c.(Status.budget) /\
  (snd (VirtioInput.whole_events bs c)).(Status.partial) = c.(Status.partial).
Proof.
  revert c. induction bs as [bs Hl|b0 b1 b2 b3 b4 b5 b6 b7 rest IH] using eights_ind; intros c; [by rewrite whole_events_short by done|].
  cbn [VirtioInput.whole_events]. destruct (IH (VirtioInput.status_event [b0; b1; b2; b3; b4; b5; b6; b7] c)) as [-> ->].
  unfold VirtioInput.status_event. by destruct (VirtioInput.process_statusq_event _ _ _).
Qed.

Lemma whole_events_budget bs c b :
  VirtioInput.whole_events bs (set_budget b c) =
  (fst (VirtioInput.whole_events bs c), set_budget b (snd (VirtioInput.whole_events bs c))).
Proof.
  revert c. induction bs as [bs Hl|b0 b1 b2 b3 b4 b5 b6 b7 rest IH] using eights_ind; intros c; [by rewrite !whole_events_short by done|].
  cbn [VirtioInput.whole_events].
  replace (VirtioInput.status_event [b0; b1; b2; b3; b4; b5; b6; b7] (set_budget b c))
    with (set_budget b (VirtioInput.status_event [b0; b1; b2; b3; b4; b5; b6; b7] c)); [apply IH|].
  unfold VirtioInput.status_event, set_budget. simpl. by destruct (VirtioInput.process_statusq_event _ _ _).
Qed.

Lemma feed_partial bs c : (length (feed bs c).(Status.partial) < 8)%nat.
Proof. unfold feed. pose proof (whole_events_rest (c.(Status.partial) ++ bs) (set_partial [] c)) as Hr. by destruct (VirtioInput.whole_events _ _). Qed.

Lemma feed_budget bs c : (feed bs c).(Status.budget) = c.(Status.budget).
Proof.
  unfold feed. destruct (whole_events_frame (c.(Status.partial) ++ bs) (set_partial [] c)) as [Hb _].
  by destruct (VirtioInput.whole_events _ _).
Qed.

Lemma feed_set_budget bs b c : feed bs (set_budget b c) = set_budget b (feed bs c).
Proof.
  unfold feed. change (Status.partial (set_budget b c)) with (Status.partial c).
  change (set_partial [] (set_budget b c)) with (set_budget b (set_partial [] c)). rewrite whole_events_budget.
  by destruct (VirtioInput.whole_events _ _).
Qed.

Lemma feed_app bs bs' c : feed (bs ++ bs') c = feed bs' (feed bs c).
Proof.
  unfold feed. rewrite app_assoc, whole_events_app.
  pose proof (whole_events_frame (c.(Status.partial) ++ bs) (set_partial [] c)) as [_ Hp].
  destruct (VirtioInput.whole_events _ _) as [rest c']. simpl in Hp.
  change (Status.partial (set_partial rest c')) with rest.
  replace (set_partial [] (set_partial rest c')) with c'; [done|]. destruct c'. simpl in *. by subst.
Qed.

(** The source's handling of one chunk is feeding it. *)
Lemma status_chunk_feed chunk c : (length c.(Status.partial) < 8)%nat -> VirtioInput.status_chunk chunk c = feed chunk c.
Proof.
  destruct c as [st leds bud part]. intros Hp. unfold VirtioInput.status_chunk, feed, set_partial. simpl in *.
  assert (forall bs c, c.(Status.partial) = [] ->
    (let '(rest, c') := VirtioInput.whole_events bs c in
     if (length rest =? 0)%nat then c' else set_partial rest c') =
    (let '(rest, c') := VirtioInput.whole_events bs c in set_partial rest c')) as Hfin.
  { intros bs c Hc. destruct (whole_events_frame bs c) as [_ Hf]. destruct (VirtioInput.whole_events bs c) as [rest c'].
    simpl in Hf. destruct rest; [|done]. destruct c'. unfold set_partial. simpl in *. congruence. }
  destruct part as [|p part]; [by apply (Hfin chunk (Status.mk st leds bud []))|].
  cbn [nz length Z.of_nat Z.eqb negb]. set (n := Nat.min _ _). set (filled := (p :: part) ++ take n chunk).
  assert ((p :: part) ++ chunk = filled ++ drop n chunk) as -> by (unfold filled; by rewrite <- app_assoc, take_drop).
  destruct (Nat.eqb_spec (length filled) 8) as [H8|Hn8].
  - assert (VirtioInput.whole_events (filled ++ drop n chunk) (Status.mk st leds bud []) =
      VirtioInput.whole_events (drop n chunk) (VirtioInput.status_event filled (Status.mk st leds bud []))) as ->.
    { clearbody filled. do 8 (destruct filled as [|? filled]; [done|]). by destruct filled. }
    apply Hfin. unfold VirtioInput.status_event. by destruct (VirtioInput.process_statusq_event _ _ _).
  - assert (length filled < 8)%nat as Hlt.
    { unfold filled in *. rewrite length_app, length_take in *. simpl in *. lia. }
    assert (drop n chunk = []) as ->.
    { apply drop_ge. unfold filled in *. rewrite length_app, length_take in *. simpl in *. lia. }
    rewrite app_nil_r, whole_events_short by done. simpl. done.
Qed.

Lemma feed_nil c : (length c.(Status.partial) < 8)%nat -> feed [] c = c.
Proof.
  intros Hp. unfold feed. rewrite app_nil_r, whole_events_short by done. by destruct c.
Qed.

Lemma led_step_spec e mask leds :
  uint 8 mask -> fst (VirtioInput.process_statusq_event e mask leds) = led_step mask e /\ uint 8 (led_step mask e).
Proof.
  intros Hm. unfold VirtioInput.process_statusq_event, led_step, VirtioInput.led_bit.
  destruct (VirtioInputEvent.type_ e =? EV_LED); simpl; [|by case_if].
  destruct ((0 <=? VirtioInputEvent.code e) && (VirtioInputEvent.code e <=? 4)) eqn:Hc; [|done]. bool_hyps.
  rewrite Z.shiftl_mul_pow2, Z.mul_1_l by lia. destruct (VirtioInputEvent.value e =? 0); simpl.
  - rewrite land_unot by (done || lia). unfold Z.clearbit. rewrite Z.shiftl_mul_pow2, Z.mul_1_l by lia. split; [done|].
    by apply uint_ldiff.
  - unfold Z.setbit. rewrite Z.shiftl_mul_pow2, Z.mul_1_l by lia. split; [done|]. apply uint_lor; [lia|done|].
    split; [by apply Z.pow_nonneg|]. apply Z.pow_lt_mono_r; lia.
Qed.

Lemma whole_events_staged bs c :
  uint 8 c.(Status.staged) ->
  (snd (VirtioInput.whole_events bs c)).(Status.staged) = foldl led_step c.(Status.staged) (stream_events bs).
Proof.
  revert c. induction bs as [bs Hl|b0 b1 b2 b3 b4 b5 b6 b7 rest IH] using eights_ind; intros c Hc.
  { rewrite whole_events_short by done. do 8 (destruct bs as [|? bs]; [done|]). simpl in Hl. lia. }
  cbn [VirtioInput.whole_events stream_events foldl].
  set (e := VirtioInputEvent.from_le_bytes [b0; b1; b2; b3; b4; b5; b6; b7]).
  destruct (led_step_spec e c.(Status.staged) c.(Status.leds) Hc) as [He Hu].
  assert ((VirtioInput.status_event [b0; b1; b2; b3; b4; b5; b6; b7] c).(Status.staged) = led_step c.(Status.staged) e) as Hs.
  { unfold VirtioInput.status_event. fold e. rewrite <- He. by destruct (VirtioInput.process_statusq_event _ _ _). }
  rewrite IH by (by rewrite Hs). by rewrite Hs.
Qed.

Section Streams.
Context `{VMem.Spec M}.
Implicit Types m : M.

Definition buffer m (d : Descriptor.t) : list Z := span (VMem.byte m) d.(Descriptor.addr) (Z.to_nat d.(Descriptor.len)).
Definition in_memory m (d : Descriptor.t) : Prop :=
  0 <= d.(Descriptor.addr) /\ 0 <= d.(Descriptor.len) /\ d.(Descriptor.addr) + d.(Descriptor.len) <= VMem.len m.

Lemma status_desc_feed fuel m addr remaining c :
  VMem.ok m -> 0 <= addr -> 0 <= remaining -> addr + remaining <= VMem.len m ->
  0 <= c.(Status.budget) < Z.of_nat fuel -> (length c.(Status.partial) < 8)%nat ->
  VirtioInput.status_desc fuel m addr remaining c =
    (remaining <=? c.(Status.budget),
     set_budget (c.(Status.budget) - Z.min remaining c.(Status.budget))
       (feed (span (VMem.byte m) addr (Z.to_nat (Z.min remaining c.(Status.budget)))) c)).
Proof.
  intros Hok. revert addr remaining c. induction fuel as [|fuel IH]; intros addr remaining c Ha Hr Hl Hb Hp; [lia|].
  cbn [VirtioInput.status_desc]. destruct (Z.eqb_spec remaining 0) as [->|Hr0].
  { rewrite (proj2 (Z.leb_le _ _)), Z.min_l, Z.sub_0_r by lia. cbn [Z.to_nat span]. rewrite feed_nil by done. by destruct c. }
  destruct (Z.eqb_spec c.(Status.budget) 0) as [Hb0|Hb0].
  { rewrite Hb0, (proj2 (Z.leb_gt _ _)), Z.min_r by lia. cbn [Z.to_nat span]. rewrite feed_nil by done. destruct c; simpl in *. by subst. }
  set (n := Z.min (Z.min remaining 256) c.(Status.budget)). pose proof (VMem.len_ok m Hok) as Hu. unfold uint in Hu.
  rewrite VMem.read_spec, (proj2 (Z.leb_le _ _)) by (done || (unfold uint; lia)).
  rewrite status_chunk_feed by done. unfold checked_add. rewrite (proj2 (Z.ltb_lt _ _)) by lia.
  set (c1 := feed (span (VMem.byte m) addr (Z.to_nat n)) c). fold (set_budget (c1.(Status.budget) - n) c1).
  assert (c1.(Status.budget) = c.(Status.budget)) as Hc1 by apply feed_budget.
  rewrite IH; [|lia..|simpl; lia|apply feed_partial]. cbn [Status.budget set_budget]. rewrite Hc1.
  rewrite feed_set_budget. unfold c1. rewrite <- feed_app. f_equal.
  - destruct (Z.leb_spec (remaining - n) (c.(Status.budget) - n)), (Z.leb_spec remaining c.(Status.budget)); done || lia.
  - unfold set_budget. cbn [Status.staged Status.leds Status.partial].
    replace (Z.to_nat (Z.min remaining (Status.budget c)))
      with (Z.to_nat n + Z.to_nat (Z.min (remaining - n) (Status.budget c - n)))%nat by lia.
    rewrite span_app, Z2Nat.id by lia. f_equal. lia.
Qed.

Lemma status_descs_feed m ds c :
  VMem.ok m -> Forall (in_memory m) ds -> 0 <= c.(Status.budget) -> (length c.(Status.partial) < 8)%nat ->
  exists b, VirtioInput.status_descs m ds c = set_budget b (feed (take (Z.to_nat c.(Status.budget)) (concat (map (buffer m) ds))) c).
Proof.
  intros Hok Hds. revert c. induction Hds as [|d ds (Ha & Hl & Hin) _ IH]; intros c Hb Hp.
  { exists c.(Status.budget). cbn [map concat]. rewrite take_nil, feed_nil by done. by destruct c. }
  cbn [VirtioInput.status_descs map concat]. rewrite status_desc_feed by (done || lia).
  set (B := c.(Status.budget)) in *. set (L := d.(Descriptor.len)) in *.
  assert (length (buffer m d) = Z.to_nat L) as Hbl by apply span_length.
  destruct (Z.leb_spec L B).
  - rewrite Z.min_l by lia. change (span (VMem.byte m) (Descriptor.addr d) (Z.to_nat L)) with (buffer m d).
    destruct (IH (set_budget (B - L) (feed (buffer m d) c))) as [b Hb']; [simpl; lia|apply feed_partial|].
    exists b. rewrite Hb'. cbn [Status.budget set_budget]. rewrite feed_set_budget, <- feed_app.
    rewrite take_app, Hbl, (take_ge (buffer m d)) by lia. by replace (Z.to_nat B - Z.to_nat L)%nat with (Z.to_nat (B - L)) by lia.
  - rewrite Z.min_r, Z.sub_diag by lia. exists 0. rewrite take_app, Hbl.
    replace (Z.to_nat B - Z.to_nat L)%nat with 0%nat by lia. rewrite take_0, app_nil_r. unfold buffer. fold L.
    replace (Z.to_nat L) with (Z.to_nat B + (Z.to_nat L - Z.to_nat B))%nat by lia.
    by rewrite span_app, take_app_length' by (by rewrite span_length).
Qed.

(** C37: The LED state after a chain on the status queue is that of the events
    in the concatenation of the chain's buffers, up to 4096 bytes, however the
    bytes are split over descriptors and read in pieces; everything else of the
    device is unchanged. *)
Theorem input_status_exact m ds s :
  VMem.ok m -> Forall (in_memory m) ds -> s.(VirtioInput.kind) = Keyboard -> uint 8 s.(VirtioInput.leds_mask) ->
  VirtioInput.process_statusq_chain ds m s =
  VirtioInput.with_leds_mask
    (foldl led_step s.(VirtioInput.leds_mask) (stream_events (take 4096 (concat (map (buffer m) ds))))) s.
Proof.
  intros Hok Hds Hk Hu. unfold VirtioInput.process_statusq_chain. rewrite Hk. f_equal.
  destruct (status_descs_feed m ds (Status.mk s.(VirtioInput.leds_mask) s.(VirtioInput.leds_mask) MAX_STATUSQ_BYTES [])) as [b ->];
    [done|done|done|simpl; lia|]. cbn [Status.budget].
  change (Z.to_nat MAX_STATUSQ_BYTES) with 4096%nat. set (bs := take 4096 _). unfold feed. cbn [Status.partial app].
  pose proof (whole_events_staged bs (set_partial [] (Status.mk s.(VirtioInput.leds_mask) s.(VirtioInput.leds_mask) MAX_STATUSQ_BYTES [])) Hu) as Hs.
  by destruct (VirtioInput.whole_events _ _).
Qed.
End Streams.

(** ** Bounded queues *)
Section Bounded.
Context `{VMem.GuestMemory M}.

(** What the host, the guest and the snapshot loader can make the device do. *)
Inductive op :=
| Key (code : Z) (pressed : bool) | RelMove (dx dy : Z) | Wheel (wheel hwheel : Z) | AbsMove (x y : Z)
| Process (queue_index head : Z) (descs : list Descriptor.t) (mem : M) | Poll (queue_index : Z) (mem : M)
| WriteConfig (offset : Z) (data : list Z) | Reset | Restore (bytes : list Z).

Definition exec (o : op) (s : VirtioInput.t) (q : VirtQueue.t) : VirtioInput.t * VirtQueue.t :=
  match o with
  | Key code pressed => (VirtioInput.inject_key code pressed s, q)
  | RelMove dx dy => (VirtioInput.inject_rel_move dx dy s, q)
  | Wheel w h => (VirtioInput.inject_wheel2 w h s, q)
  | AbsMove x y => (VirtioInput.inject_abs_move x y s, q)
  | Process qi head ds mem => let '(_, s, q, _) := VirtioInput.process_queue qi head ds s q mem in (s, q)
  | Poll qi mem => let '(_, s, q, _) := VirtioInput.poll_queue qi s q mem in (s, q)
  | WriteConfig offset data => (VirtioInput.write_config offset 0 data s, q)
  | Reset => (VirtioInput.reset s, q)
  | Restore bytes => (VirtioInput.restore_device_state bytes s, q)
  end.

Fixpoint run (os : list op) (s : VirtioInput.t) (q : VirtQueue.t) : VirtioInput.t * VirtQueue.t :=
  match os with [] => (s, q) | o :: os => let '(s, q) := exec o s q in run os s q end.

(** At most 4096 events and a queue's worth of buffers are held. *)
Definition bounded (n : nat) (s : VirtioInput.t) : Prop :=
  (length s.(VirtioInput.pending) <= 4096 /\ length s.(VirtioInput.buffers) <= n)%nat.

Lemma push_event_bounded n e s : bounded n s -> bounded n (VirtioInput.push_event e s).
Proof.
  unfold bounded, VirtioInput.push_event. change MAX_PENDING_EVENTS with 4096%nat. intros [Hp Hb].
  destruct (Nat.leb_spec 4096 (length s.(VirtioInput.pending))); simpl; rewrite length_app; simpl; [|lia].
  destruct s.(VirtioInput.pending); simpl in *; lia.
Qed.

Lemma push_nonzero_bounded n code v s : bounded n s -> bounded n (VirtioInput.push_nonzero code v s).
Proof. intros Hb. unfold VirtioInput.push_nonzero. case_if; [done|by apply push_event_bounded]. Qed.

Lemma add_used_config h l q (m : M) r q' m' :
  VirtQueue.add_used h l q m = (r, q', m') -> q'.(VirtQueue.config) = q.(VirtQueue.config).
Proof. unfold VirtQueue.add_used. intros Hu. repeat case_match; by simplify_eq. Qed.

Lemma flush_loop_bounded bufs irq s q (m : M) r s' q' m' :
  VirtioInput.flush_loop bufs irq s q m = (r, s', q', m') ->
  (length s'.(VirtioInput.pending) <= length s.(VirtioInput.pending))%nat /\
  (length s'.(VirtioInput.buffers) <= length bufs)%nat /\ q'.(VirtQueue.config) = q.(VirtQueue.config).
Proof.
  revert irq s q m. induction bufs as [|[h ds] bufs IH]; intros irq s q m; simpl; [by intros [= <- <- <- <-]|].
  destruct s.(VirtioInput.pending) as [|e es] eqn:Hp; [intros [= <- <- <- <-]; simpl; by rewrite Hp|].
  destruct ds as [|d ds]; [intros [= <- <- <- <-]; simpl; rewrite Hp; split_and!; simpl; lia || done|].
  destruct (VirtioInput.write_event _ _ _ _) as [[w|e'] m1]; [|intros [= <- <- <- <-]; simpl; rewrite Hp; split_and!; simpl; lia || done].
  destruct (VirtQueue.add_used _ _ _ _) as [[[i|e'] q1] m2] eqn:Hu; apply add_used_config in Hu.
  - intros Hf. apply IH in Hf as (Hf1 & Hf2 & Hf3). simpl in *. rewrite Hf3, Hu. split_and!; lia || done.
  - intros [= <- <- <- <-]. simpl. split_and!; lia || done.
Qed.

Lemma exec_bounded o s q n :
  VirtQueue.size q = Z.of_nat n -> (0 < n)%nat -> bounded n s ->
  bounded n (fst (exec o s q)) /\ (snd (exec o s q)).(VirtQueue.config) = q.(VirtQueue.config).
Proof.
  intros Hs Hn Hb. destruct o as [code pr|dx dy|w h|x y|qi head ds mem|qi mem|off data| |bs]; simpl.
  - split; [|done]. unfold VirtioInput.inject_key. case_if; [done|]. by do 2 apply push_event_bounded.
  - split; [|done]. unfold VirtioInput.inject_rel_move. case_if; [done|]. by apply push_event_bounded, push_nonzero_bounded, push_nonzero_bounded.
  - split; [|done]. unfold VirtioInput.inject_wheel2. case_if; [done|]. by apply push_event_bounded, push_nonzero_bounded, push_nonzero_bounded.
  - split; [|done]. by do 3 apply push_event_bounded.
  - unfold VirtioInput.process_queue, VirtioInput.flush_events. rewrite Hs, Nat2Z.id. case_if.
    + destruct (negb _ && _) eqn:Hfull.
      * destruct (VirtQueue.add_used _ _ _ _) as [[r q1] m1] eqn:Hu. apply add_used_config in Hu. done.
      * destruct (VirtioInput.flush_loop _ _ _ _ _) as [[[r s1] q1] m1] eqn:Hf. apply flush_loop_bounded in Hf as (Hf1 & Hf2 & Hf3).
        simpl in *. rewrite length_app in Hf2. simpl in Hf2. split; [|done]. destruct Hb. split; [lia|].
        apply andb_false_iff in Hfull as [Hz|Hz]; [apply negb_false_iff, Nat.eqb_eq in Hz|apply Nat.leb_gt in Hz]; lia.
    + case_if; [|done]. destruct (VirtQueue.add_used _ _ _ _) as [[r q1] m1] eqn:Hu. apply add_used_config in Hu.
      split; [|done]. simpl. unfold VirtioInput.process_statusq_chain. by destruct (VirtioInput.kind s).
  - unfold VirtioInput.poll_queue, VirtioInput.flush_events. case_if; [done|].
    destruct (VirtioInput.flush_loop _ _ _ _ _) as [[[r s1] q1] m1] eqn:Hf. apply flush_loop_bounded in Hf as (Hf1 & Hf2 & Hf3).
    simpl. destruct Hb. split; [split; lia|done].
  - split; [|done]. generalize 0 as i. revert s Hb. induction data as [|b data IH]; intros s Hb i; simpl; [done|].
    apply IH. by repeat case_if.
  - split; [|done]. split; simpl; lia.
  - split; [|done]. unfold VirtioInput.restore_device_state. by repeat case_match.
Qed.

(** C38: However the host injects events and whatever the guest posts, the
    device holds at most 4096 events and at most a queue's worth of buffers. *)
Theorem input_bounded os kind q n :
  VirtQueue.size q = Z.of_nat n -> (0 < n)%nat -> bounded n (fst (run os (VirtioInput.new kind) q)).
Proof.
  intros Hs Hn. assert (bounded n (VirtioInput.new kind)) as Hb by (split; simpl; lia).
  revert Hb. generalize (VirtioInput.new kind) as s. revert q Hs. induction os as [|o os IH]; intros q Hs s Hb; simpl; [done|].
  destruct (exec_bounded o s q n Hs Hn Hb) as [Hb' Hc]. destruct (exec o s q) as [s' q']. simpl in *.
  apply IH; [|done]. unfold VirtQueue.size in *. by rewrite Hc.
Qed.
End Bounded.

(** ** Concrete inputs *)
Definition led_memory : GuestRam.t :=
  GuestRam.mk ([0x11; 0; 1; 0; 1; 0; 0; 0] ++ [0x11; 0; 4; 0; 1; 0; 0; 0]).
Definition led_chain : list Descriptor.t := [Descriptor.mk 0 3 0 0; Descriptor.mk 3 13 0 0].

Lemma input_status_exact_witness :
  VirtioInput.leds_mask (VirtioInput.process_statusq_chain led_chain led_memory (VirtioInput.new Keyboard)) = 18.
Proof.
  rewrite (input_status_exact led_memory led_chain (VirtioInput.new Keyboard)); [vm_compute; reflexivity| | |reflexivity|done].
  - split; [done|]. apply (bool_decide_unpack _). vm_compute. exact I.
  - repeat constructor; vm_compute; discriminate.
Defined.

Lemma input_bounded_witness :
  bounded 4 (fst (run [Key 30 true; Poll 0 led_memory; AbsMove 1 2]
                   (VirtioInput.new Tablet) (VirtQueue.mk (VirtQueueConfig.mk 4 0 64 128) 0 0 false))).
Proof. apply (input_bounded (M := GuestRam.t)); [reflexivity|lia]. Defined.
