(* ===== verification/TcpMux.v ===== *)
(** * TCP multiplexing frames (crates/aero-tcp-mux-protocol/src/lib.rs)

    A frame is a nine-byte header (type, stream, length, big-endian) and its
    payload.  The one-shot codec, and the streaming parser that accepts the
    bytes in chunks.  The codecs of the payloads of OPEN, CLOSE and ERROR frames,
    which carry UTF-8 strings, are left out. *)

From S2P Require Import Prelude Bytes.

Definition to_be_bytes (n : nat) (v : Z) : list Z := rev (to_le_bytes n v).
Definition from_be_bytes (bs : list Z) : Z := from_le_bytes (rev bs).

Definition TCP_MUX_HEADER_LEN : nat := 9.
Abbreviation TCP_MUX_DEFAULT_MAX_PAYLOAD_LEN := (16 * 1024 * 1024) (only parsing).

Module Limits.
Record t := mk { max_payload_len : Z }.
Definition default : t := mk TCP_MUX_DEFAULT_MAX_PAYLOAD_LEN.
End Limits.

Module Frame.
Record t := mk { msg_type : Z; stream_id : Z; payload : list Z }.
End Frame.

(** The errors of frames; those of the payload codecs are left out. *)
Inductive MuxError :=
| FrameTooLarge (len max : Z)
| FrameTooShort (len : Z)
| FrameTruncatedPayload (expected got : Z)
| FrameTrailingBytes (trailing : Z)
| TruncatedStreamHeader (pending : Z)
| TruncatedStreamPayload (pending payload_len : Z).

Abbreviation blen l := (Z.of_nat (length l)).

Definition encode_frame_with_limits (msg_type stream_id : Z) (payload : list Z) (limits : Limits.t) : result (list Z) MuxError :=
  if limits.(Limits.max_payload_len) <? blen payload then Err (FrameTooLarge (blen payload) limits.(Limits.max_payload_len))
  else if 2 ^ 32 - 1 <? blen payload then Err (FrameTooLarge (blen payload) (2 ^ 32 - 1))
  else Ok ([msg_type] ++ to_be_bytes 4 stream_id ++ to_be_bytes 4 (wrap 32 (blen payload)) ++ payload).

(** The three fields of a header. *)
Definition header_type (buf : list Z) : Z := default 0 (buf !! 0%nat).
Definition header_stream (buf : list Z) : Z := from_be_bytes (take 4 (drop 1 buf)).
Definition header_len (buf : list Z) : Z := from_be_bytes (take 4 (drop 5 buf)).

Definition decode_frame_with_limits `{Target} (buf : list Z) (limits : Limits.t) : result Frame.t MuxError :=
  if (length buf <? TCP_MUX_HEADER_LEN)%nat then Err (FrameTooShort (blen buf))
  else
    let payload_len := header_len buf in
    let max := limits.(Limits.max_payload_len) in
    if max <? payload_len then Err (FrameTooLarge payload_len max)
    else
      let? expected_total := ok_or (FrameTooLarge payload_len max)
                               (checked_add usize_bits (Z.of_nat TCP_MUX_HEADER_LEN) payload_len) in
      if blen buf <? expected_total then Err (FrameTruncatedPayload expected_total (blen buf))
      else if expected_total <? blen buf then Err (FrameTrailingBytes (blen buf - expected_total))
      else Ok (Frame.mk (header_type buf) (header_stream buf) (drop TCP_MUX_HEADER_LEN buf)).

(** ** The streaming parser *)
(** A header buffer is the bytes filled so far. *)
Inductive ParserState :=
| Header (buf : list Z)
| Payload (msg_type stream_id payload_len : Z) (buf : list Z).

Module FrameParser.
Record t := mk { limits : Limits.t; state : ParserState }.
Definition with_limits (l : Limits.t) : t := mk l (Header []).
Definition new : t := with_limits Limits.default.

(** One round of the loop of [push]: the frame it completes, the new state and
    the rest of the chunk.  An error leaves the filled header. *)
Definition round (l : Limits.t) (s : ParserState) (chunk : list Z) :
    result (option Frame.t) MuxError * ParserState * list Z :=
  match s with
  | Header buf =>
      let take_ := Nat.min (TCP_MUX_HEADER_LEN - length buf) (length chunk) in
      let buf := buf ++ take take_ chunk in
      let chunk := drop take_ chunk in
      if (length buf <? TCP_MUX_HEADER_LEN)%nat then (Ok None, Header buf, chunk)
      else
        let payload_len := header_len buf in
        if l.(Limits.max_payload_len) <? payload_len
        then (Err (FrameTooLarge payload_len l.(Limits.max_payload_len)), Header buf, chunk)
        else if payload_len =? 0
        then (Ok (Some (Frame.mk (header_type buf) (header_stream buf) [])), Header [], chunk)
        else (Ok None, Payload (header_type buf) (header_stream buf) payload_len [], chunk)
  | Payload msg_type stream_id payload_len buf =>
      let need := Z.to_nat (saturating_sub payload_len (blen buf)) in
      let take_ := Nat.min need (length chunk) in
      let buf := buf ++ take take_ chunk in
      let chunk := drop take_ chunk in
      if blen buf <? payload_len then (Ok None, Payload msg_type stream_id payload_len buf, chunk)
      else (Ok (Some (Frame.mk msg_type stream_id buf)), Header [], chunk)
  end.

(** [while !chunk.is_empty()]; the frames found before an error are lost. *)
Fixpoint push_loop (fuel : nat) (l : Limits.t) (s : ParserState) (chunk : list Z) (frames : list Frame.t) :
    option (result (list Frame.t) MuxError * ParserState) :=
  match chunk with
  | [] => Some (Ok frames, s)
  | _ =>
      match fuel with
      | O => None
      | S fuel =>
          match round l s chunk with
          | (Err e, s, _) => Some (Err e, s)
          | (Ok None, s, chunk) => push_loop fuel l s chunk frames
          | (Ok (Some f), s, chunk) => push_loop fuel l s chunk (frames ++ [f])
          end
      end
  end.

Definition push (chunk : list Z) (p : t) : option (result (list Frame.t) MuxError * t) :=
  match push_loop (length chunk) p.(limits) p.(state) chunk [] with
  | Some (r, s) => Some (r, mk p.(limits) s)
  | None => None
  end.

Definition finish (p : t) : result unit MuxError :=
  match p.(state) with
  | Header buf => if (length buf =? 0)%nat then Ok tt else Err (TruncatedStreamHeader (blen buf))
  | Payload _ _ payload_len buf => Err (TruncatedStreamPayload (blen buf) payload_len)
  end.
End FrameParser.
