(* ===== verification/TcpMuxProps.v ===== *)
(** * Properties of the TCP multiplexing codec

    The one-shot codec round-trips both ways; the streaming parser returns the
    frames of the stream however it is cut into chunks, and stays at the first
    error. *)

From S2P Require Import Prelude Bytes TcpMux.
Import FrameParser.

(** ** Headers *)
Lemma to_be_bytes_length n v : length (to_be_bytes n v) = n.
Proof. unfold to_be_bytes. by rewrite length_rev, to_le_bytes_length. Qed.

Lemma from_to_be_bytes n v : uint (8 * Z.of_nat n) v -> from_be_bytes (to_be_bytes n v) = v.
Proof. intros Hv. unfold from_be_bytes, to_be_bytes. rewrite rev_involutive. by apply from_to_le_bytes_id. Qed.

Lemma to_from_be_bytes bs : Forall byte_ok bs -> to_be_bytes (length bs) (from_be_bytes bs) = bs.
Proof.
  intros Hb. unfold from_be_bytes, to_be_bytes. rewrite <- (length_rev bs), to_from_le_bytes, rev_involutive; [done|].
  rewrite Forall_forall in *. intros x Hx. apply Hb. rewrite list_elem_of_In in *. by apply in_rev.
Qed.

Lemma from_be_bytes_uint bs : Forall byte_ok bs -> uint (8 * Z.of_nat (length bs)) (from_be_bytes bs).
Proof.
  intros Hb. unfold from_be_bytes. rewrite <- length_rev. apply from_le_bytes_uint.
  rewrite Forall_forall in *. intros x Hx. apply Hb. rewrite list_elem_of_In in *. by apply in_rev.
Qed.

Definition header (f : Frame.t) : list Z :=
  [f.(Frame.msg_type)] ++ to_be_bytes 4 f.(Frame.stream_id) ++ to_be_bytes 4 (blen f.(Frame.payload)).
Definition wire (f : Frame.t) : list Z := header f ++ f.(Frame.payload).

(** Frames that fit the limits. *)
Record frame_ok (l : Limits.t) (f : Frame.t) : Prop := {
  fo_stream : uint 32 f.(Frame.stream_id);
  fo_len : blen f.(Frame.payload) <= l.(Limits.max_payload_len);
  fo_u32 : blen f.(Frame.payload) < 2 ^ 32;
}.

Lemma header_length f : length (header f) = 9%nat.
Proof. unfold header. rewrite !length_app, !to_be_bytes_length. done. Qed.

Lemma header_fields l f rest :
  frame_ok l f ->
  header_type (header f ++ rest) = f.(Frame.msg_type) /\ header_stream (header f ++ rest) = f.(Frame.stream_id) /\
  header_len (header f ++ rest) = blen f.(Frame.payload).
Proof.
  intros [Hs _ Hl]. unfold header, header_type, header_stream, header_len. split; [done|].
  set (a := to_be_bytes 4 f.(Frame.stream_id)). set (b := to_be_bytes 4 (blen f.(Frame.payload))).
  assert (length a = 4%nat /\ length b = 4%nat) as [Ha Hb] by (split; apply to_be_bytes_length).
  change (drop 1 (([Frame.msg_type f] ++ a ++ b) ++ rest)) with ((a ++ b) ++ rest).
  change (drop 5 (([Frame.msg_type f] ++ a ++ b) ++ rest)) with (drop 4 ((a ++ b) ++ rest)).
  rewrite <- app_assoc, drop_app_length', !take_app_length' by done.
  split; apply from_to_be_bytes; [done|unfold uint; lia].
Qed.

Lemma encode_wire l f :
  frame_ok l f -> encode_frame_with_limits f.(Frame.msg_type) f.(Frame.stream_id) f.(Frame.payload) l = Ok (wire f).
Proof.
  intros [_ Hm Hl]. unfold encode_frame_with_limits. rewrite (proj2 (Z.ltb_ge _ _)), (proj2 (Z.ltb_ge _ _)) by lia.
  rewrite wrap_small by (unfold uint; lia). unfold wire, header. by rewrite <- !app_assoc.
Qed.

(** Bytes of at least a header are the header's fields and the rest. *)
Lemma header_wire buf :
  (9 <= length buf)%nat -> Forall byte_ok buf ->
  uint 32 (header_stream buf) /\ uint 32 (header_len buf) /\
  ([header_type buf] ++ to_be_bytes 4 (header_stream buf) ++ to_be_bytes 4 (header_len buf)) ++ drop 9 buf = buf.
Proof.
  intros Hl Hb. unfold header_stream, header_len.
  assert (Forall byte_ok (take 4 (drop 1 buf)) /\ Forall byte_ok (take 4 (drop 5 buf))) as [Hs Hn]
    by (split; by apply Forall_take, Forall_drop).
  assert (length (take 4 (drop 1 buf)) = 4%nat /\ length (take 4 (drop 5 buf)) = 4%nat) as [Ls Ln]
    by (rewrite !length_take, !length_drop; lia).
  pose proof (from_be_bytes_uint _ Hs) as Us. pose proof (from_be_bytes_uint _ Hn) as Un.
  pose proof (to_from_be_bytes _ Hs) as Es. pose proof (to_from_be_bytes _ Hn) as En.
  rewrite Ls in Us, Es. rewrite Ln in Un, En. split_and!; [done|done|]. rewrite Es, En. unfold header_type.
  clear - Hl. do 9 (destruct buf as [|? buf]; [simpl in Hl; lia|]). done.
Qed.

(** C40: Encoding a frame within the limits and decoding it gives the frame
    back, and whatever the decoder accepts is the encoding of its result: the
    wire format is canonical. *)
Theorem mux_roundtrip `{Target} l f buf :
  Z.of_nat (length buf) <= usize_max -> Forall byte_ok buf ->
  decode_frame_with_limits buf l = Ok f <-> frame_ok l f /\
    encode_frame_with_limits f.(Frame.msg_type) f.(Frame.stream_id) f.(Frame.payload) l = Ok buf.
Proof.
  intros Hmax Hb. unfold usize_max in Hmax. split.
  - unfold decode_frame_with_limits, TCP_MUX_HEADER_LEN. case_if; [done|]. apply Nat.ltb_ge in Heqb.
    case_if; [done|]. unfold checked_add. case_if; simpl; [|done]. repeat (case_if; [done|]). intros [= <-]. bool_hyps.
    destruct (header_wire buf ltac:(lia) Hb) as (Us & Ul & Hw).
    assert (blen (drop 9 buf) = header_len buf) as Hlen by (rewrite length_drop; lia). rewrite <- Hlen in Hw, Ul.
    assert (frame_ok l (Frame.mk (header_type buf) (header_stream buf) (drop 9 buf))) as Hok.
    { split; simpl; [done|lia|apply Ul]. }
    split; [done|]. rewrite (encode_wire l _ Hok). f_equal. exact Hw.
  - intros [Hok He]. rewrite encode_wire in He by done. injection He as <-. unfold decode_frame_with_limits, TCP_MUX_HEADER_LEN.
    unfold wire in *. rewrite length_app, header_length in *. destruct (header_fields l f f.(Frame.payload) Hok) as (-> & -> & ->).
    destruct Hok as [_ Hm Hl]. rewrite (proj2 (Nat.ltb_ge _ _)), (proj2 (Z.ltb_ge _ _)) by lia.
    unfold checked_add. rewrite (proj2 (Z.ltb_lt _ _)) by lia. cbn [ok_or result_bind]. rewrite !(proj2 (Z.ltb_ge _ _)) by lia.
    rewrite drop_app_length' by (by rewrite header_length). by destruct f.
Qed.

(** ** The streaming parser *)

(** How many bytes the current header or payload still needs. *)
Definition need (s : ParserState) : nat :=
  match s with
  | Header buf => 9 - length buf
  | Payload _ _ n buf => Z.to_nat (saturating_sub n (blen buf))
  end.
Definition extend (s : ParserState) (bs : list Z) : ParserState :=
  match s with Header buf => Header (buf ++ bs) | Payload t i n buf => Payload t i n (buf ++ bs) end.

(** States in which the parser waits for more bytes. *)
Definition running (s : ParserState) : Prop :=
  match s with Header buf => (length buf < 9)%nat /\ Forall byte_ok buf | Payload _ _ n buf => blen buf < n end.

Lemma running_need s : running s -> (0 < need s)%nat.
Proof. unfold running, need, saturating_sub. destruct s; lia. Qed.

Lemma need_extend s bs : need (extend s bs) = (need s - length bs)%nat.
Proof. destruct s; simpl; unfold saturating_sub; rewrite length_app; lia. Qed.

Lemma round_short l s c :
  running s -> Forall byte_ok c -> (length c < need s)%nat -> round l s c = (Ok None, extend s c, []) /\ running (extend s c).
Proof.
  unfold round, need, running, extend, TCP_MUX_HEADER_LEN. intros Hr Hc Hl. destruct s as [buf|t i n buf]; cbv zeta.
  - rewrite Nat.min_r by lia. rewrite take_ge, drop_ge by lia. rewrite length_app, (proj2 (Nat.ltb_lt _ _)) by lia. split; [done|].
    split; [lia|]. apply Forall_app. split; [apply Hr|done].
  - rewrite Nat.min_r by lia. rewrite take_ge, drop_ge by lia. rewrite length_app. unfold saturating_sub in Hl.
    rewrite (proj2 (Z.ltb_lt _ _)) by lia. split; [done|lia].
Qed.

Lemma round_split l s c c' :
  (need s <= length c)%nat -> round l s (c ++ c') = (let '(r, s', rest) := round l s c in (r, s', rest ++ c')).
Proof.
  unfold round, need, TCP_MUX_HEADER_LEN. intros Hl. destruct s as [buf|t i n buf]; cbv zeta;
    rewrite (length_app c c'), (Nat.min_l _ (length c + length c')), (Nat.min_l _ (length c)) by lia;
    rewrite take_app_le, drop_app_le by lia; by repeat case_if.
Qed.

Lemma round_extend l s c c' :
  (length c < need s)%nat -> round l s (c ++ c') = round l (extend s c) c'.
Proof.
  intros Hl. pose proof (need_extend s c) as Hn. unfold round, extend, need, TCP_MUX_HEADER_LEN in *.
  destruct s as [buf|t i n buf]; cbv zeta; rewrite Hn;
    match goal with |- context [Nat.min ?a (length (c ++ c'))] =>
      assert (Nat.min a (length (c ++ c')) = length c + Nat.min (a - length c) (length c'))%nat as -> by (rewrite length_app; lia) end;
    rewrite take_app_add, drop_app_add, app_assoc; done.
Qed.

(** A round that has the bytes it needs uses them. *)
Lemma round_full l s c :
  running s -> Forall byte_ok c -> (need s <= length c)%nat ->
  match round l s c with
  | (Ok _, s', rest) => running s' /\ (length rest < length c)%nat /\ Forall byte_ok rest
  | (Err e, s', _) => exists buf, s' = Header buf /\ length buf = 9%nat /\
      l.(Limits.max_payload_len) < header_len buf /\ e = FrameTooLarge (header_len buf) l.(Limits.max_payload_len)
  end.
Proof.
  intros Hr Hc Hl. pose proof (running_need s Hr). unfold round, need, running, TCP_MUX_HEADER_LEN in *.
  destruct s as [buf|t i n buf]; cbv zeta; rewrite Nat.min_l by lia.
  - set (b := buf ++ take (9 - length buf) c).
    assert (length b = 9%nat) as Hb by (unfold b; rewrite length_app, length_take; lia).
    assert (Forall byte_ok b) as Hbb by (apply Forall_app; split; [apply Hr|by apply Forall_take]).
    destruct (header_wire b ltac:(lia) Hbb) as (_ & [Hn _] & _). rewrite Hb. cbv beta iota delta [Nat.ltb Nat.leb].
    case_if; bool_hyps; [by eexists|]. case_if; bool_hyps; simpl; rewrite length_drop.
    + split_and!; [lia|done|lia|by apply Forall_drop].
    + split_and!; [lia|lia|by apply Forall_drop].
  - unfold saturating_sub in *. rewrite (proj2 (Z.ltb_ge _ _)) by (rewrite length_app, length_take; lia).
    rewrite length_drop. simpl. split_and!; [lia|done|lia|by apply Forall_drop].
Qed.

(** The loop: enough fuel, an accumulator, and chunks one after the other. *)
Lemma push_loop_acc fuel l s c fs :
  push_loop fuel l s c fs =
  match push_loop fuel l s c [] with Some (Ok fs', s') => Some (Ok (fs ++ fs'), s') | r => r end.
Proof.
  revert s c fs. induction fuel as [|fuel IH]; intros s c fs; (destruct c as [|b c]; [by simpl; rewrite app_nil_r|]); [done|].
  cbn [push_loop]. destruct (round l s (b :: c)) as [[[[f|]|e] s'] rest]; [|apply IH|done].
  rewrite IH, (IH _ _ ([] ++ [f])). destruct (push_loop fuel l s' rest []) as [[[fs'|e] s'']|]; [|done..].
  by rewrite <- app_assoc.
Qed.

Definition feed_bytes l s c := push_loop (length c) l s c [].

Lemma push_loop_fuel fuel l s c fs :
  running s -> Forall byte_ok c -> (length c <= fuel)%nat -> push_loop fuel l s c fs = push_loop (length c) l s c fs.
Proof.
  revert s c fs. induction fuel as [fuel IH] using lt_wf_ind. intros s c fs Hr Hc Hf.
  destruct c as [|b c]; [by destruct fuel|]. destruct fuel as [|fuel]; [simpl in Hf; lia|]. cbn [length push_loop].
  destruct (decide (length (b :: c) < need s)%nat) as [Hs|Hs].
  { destruct (round_short l s (b :: c) Hr Hc Hs) as [-> _]. by destruct fuel, (length c). }
  pose proof (round_full l s (b :: c) Hr Hc ltac:(lia)) as Hround.
  destruct (round l s (b :: c)) as [[[o|e] s'] rest]; [|done]. destruct Hround as (Hr' & Hl & Hrest). simpl in Hl, Hf.
  assert (forall fs, push_loop fuel l s' rest fs = push_loop (length c) l s' rest fs) as Heq.
  { intros fs'. rewrite (IH fuel) by (done || lia). symmetry. apply IH; done || lia. }
  by destruct o.
Qed.

Lemma feed_bytes_step l s c :
  running s -> Forall byte_ok c -> c <> [] -> (need s <= length c)%nat ->
  feed_bytes l s c =
  match round l s c with
  | (Err e, s', _) => Some (Err e, s')
  | (Ok None, s', rest) => feed_bytes l s' rest
  | (Ok (Some f), s', rest) =>
      match feed_bytes l s' rest with Some (Ok fs, s'') => Some (Ok (f :: fs), s'') | r => r end
  end.
Proof.
  intros Hr Hc Hne Hn. pose proof (round_full l s c Hr Hc Hn) as Hround. unfold feed_bytes.
  destruct c as [|b c]; [done|]. cbn [length push_loop].
  destruct (round l s (b :: c)) as [[[[f|]|e] s'] rest]; [| |done]; destruct Hround as (Hr' & Hl & Hrest); simpl in Hl.
  - rewrite push_loop_fuel by (done || lia). by rewrite push_loop_acc.
  - by rewrite push_loop_fuel by (done || lia).
Qed.

(** Feeding two chunks is feeding their concatenation. *)
Lemma feed_bytes_app l s c c' :
  running s -> Forall byte_ok c -> Forall byte_ok c' ->
  feed_bytes l s (c ++ c') =
  match feed_bytes l s c with
  | Some (Ok fs, s') => match feed_bytes l s' c' with Some (Ok fs', s'') => Some (Ok (fs ++ fs'), s'') | r => r end
  | r => r
  end.
Proof.
  remember (length c) as n eqn:Hlen. revert s c Hlen. induction n as [n IH] using lt_wf_ind. intros s c -> Hr Hc Hc'.
  destruct c as [|b c]; [simpl; by destruct (feed_bytes l s c') as [[[]]|]|].
  destruct (decide (length (b :: c) < need s)%nat) as [Hs|Hs].
  - destruct (round_short l s (b :: c) Hr Hc Hs) as [Hround Hr'].
    assert (feed_bytes l s (b :: c) = Some (Ok [], extend s (b :: c))) as ->.
    { unfold feed_bytes. cbn [length push_loop]. rewrite Hround. by destruct (length c). }
    assert (feed_bytes l s ((b :: c) ++ c') = feed_bytes l (extend s (b :: c)) c') as ->.
    { destruct c' as [|b' c']; [rewrite app_nil_r; unfold feed_bytes; cbn [length push_loop]; rewrite Hround; by destruct (length c)|].
      destruct (decide (length ((b :: c) ++ b' :: c') < need s)%nat) as [Hs'|Hs'].
      + destruct (round_short l s ((b :: c) ++ b' :: c') Hr ltac:(by apply Forall_app) Hs') as [Hr1 _].
        assert (round l (extend s (b :: c)) (b' :: c') = (Ok None, extend s ((b :: c) ++ b' :: c'), [])) as Hr2
          by (rewrite <- round_extend by done; exact Hr1).
        unfold feed_bytes. cbn [length push_loop app] in *. rewrite Hr1, Hr2. by destruct (length (c ++ b' :: c')), (length c').
      + rewrite feed_bytes_step; [|done|by apply Forall_app|done|lia].
        rewrite feed_bytes_step; [|done|done|done|rewrite need_extend; rewrite length_app in Hs'; lia].
        by rewrite round_extend. }
    by destruct (feed_bytes l (extend s (b :: c)) c') as [[[]]|].
  - rewrite feed_bytes_step; [|done|by apply Forall_app|done|rewrite length_app; lia].
    rewrite round_split by lia. rewrite (feed_bytes_step l s (b :: c)) by (done || lia).
    pose proof (round_full l s (b :: c) Hr Hc ltac:(lia)) as Hround.
    destruct (round l s (b :: c)) as [[[o|e] s'] rest]; [|done]. destruct Hround as (Hr' & Hl & Hrest).
    rewrite (IH (length rest) Hl s' rest eq_refl Hr' Hrest Hc').
    destruct o as [f|]; destruct (feed_bytes l s' rest) as [[[fs|e] s1]|]; try done.
    by destruct (feed_bytes l s1 c') as [[[]]|].
Qed.

(** Pushing chunks one after the other, collecting the frames. *)
Fixpoint push_all (chunks : list (list Z)) (p : t) : option (result (list Frame.t) MuxError * t) :=
  match chunks with
  | [] => Some (Ok [], p)
  | c :: chunks =>
      match push c p with
      | Some (Ok fs, p) =>
          match push_all chunks p with Some (Ok fs', p) => Some (Ok (fs ++ fs'), p) | r => r end
      | r => r
      end
  end.

Lemma feed_running l s c fs s' :
  running s -> Forall byte_ok c -> feed_bytes l s c = Some (Ok fs, s') -> running s'.
Proof.
  remember (length c) as n eqn:Hlen. revert s c fs Hlen. induction n as [n IH] using lt_wf_ind. intros s c fs -> Hr Hc Hf.
  destruct c as [|b c]; [by injection Hf as <- <-|]. destruct (decide (length (b :: c) < need s)%nat) as [Hs|Hs].
  - destruct (round_short l s (b :: c) Hr Hc Hs) as [Hround Hr']. unfold feed_bytes in Hf. cbn [length push_loop] in Hf.
    rewrite Hround in Hf. destruct (length c); by injection Hf as <- <-.
  - rewrite feed_bytes_step in Hf by (done || lia). pose proof (round_full l s (b :: c) Hr Hc ltac:(lia)) as Hround.
    destruct (round l s (b :: c)) as [[[o|e] s1] rest]; [|done]. destruct Hround as (Hr1 & Hl & Hrest).
    destruct o as [f|]; [|by eapply (IH _ Hl s1 rest)].
    destruct (feed_bytes l s1 rest) as [[[fs'|e] s2]|] eqn:Hf'; try done. injection Hf as <- <-. by eapply (IH _ Hl s1 rest).
Qed.

(** However the bytes are cut, [push] sees their concatenation. *)
Lemma push_all_concat l chunks s fs s' :
  running s -> Forall (Forall byte_ok) chunks -> feed_bytes l s (concat chunks) = Some (Ok fs, s') ->
  push_all chunks (mk l s) = Some (Ok fs, mk l s').
Proof.
  intros Hr Hc. revert s fs Hr. induction Hc as [|c chunks Hc Hcs IH]; intros s fs Hr Hf; [by injection Hf as <- <-|].
  cbn [concat] in Hf. rewrite feed_bytes_app in Hf; [|done|done|by apply Forall_concat].
  cbn [push_all]. unfold push. cbn [limits state]. fold (feed_bytes l s c).
  destruct (feed_bytes l s c) as [[[fs1|e] s1]|] eqn:H1; try done.
  destruct (feed_bytes l s1 (concat chunks)) as [[[fs2|e] s2]|] eqn:H2; try done. injection Hf as <- <-.
  rewrite (IH s1 fs2); [done| |done]. by eapply feed_running.
Qed.

Lemma feed_wire l f :
  frame_ok l f -> Forall byte_ok (wire f) -> feed_bytes l (Header []) (wire f) = Some (Ok [f], Header []).
Proof.
  intros Hok Hb. destruct (header_fields l f [] Hok) as (Ht & Hi & Hn). rewrite app_nil_r in Ht, Hi, Hn.
  pose proof (header_length f) as Hh. pose proof Hb as [Hbh Hbp]%Forall_app. destruct Hok as [_ Hm _].
  assert (running (Header [])) as Hrun by (split; [simpl; lia|constructor]).
  rewrite feed_bytes_step; [|done|done|by unfold wire, header|unfold wire; rewrite length_app, Hh; simpl; lia].
  unfold round, TCP_MUX_HEADER_LEN, wire. cbn [length app]. rewrite length_app, Hh, Nat.min_l by lia.
  rewrite take_app_length', drop_app_length' by lia. rewrite Hh. cbv beta iota zeta delta [Nat.ltb Nat.leb Nat.sub].
  rewrite Hn, Ht, Hi, (proj2 (Z.ltb_ge _ _)) by lia.
  destruct f as [ty st [|b p]]; simpl in *; [done|].
  rewrite feed_bytes_step; [|simpl; lia|done|done|simpl; unfold saturating_sub; simpl; lia].
  unfold round. cbv zeta. cbn [length]. unfold saturating_sub. rewrite Nat.min_l by (simpl; lia).
  rewrite take_ge, drop_ge by (simpl; lia). cbn [app length]. rewrite Z.ltb_irrefl. done.
Qed.

(** C39: The parser returns exactly the frames of a stream, in order, however
    the stream is cut into chunks, and is then ready for the next frame. *)
Theorem mux_stream l chunks frames :
  Forall (frame_ok l) frames -> Forall (Forall byte_ok) chunks -> concat chunks = concat (map wire frames) ->
  push_all chunks (with_limits l) = Some (Ok frames, with_limits l) /\ finish (with_limits l) = Ok tt.
Proof.
  intros Hf Hb Hc. split; [|done]. apply push_all_concat; [split; [simpl; lia|constructor]|done|].
  apply Forall_concat in Hb. rewrite Hc in *. clear Hc. induction Hf as [|f frames Hok _ IH]; [done|].
  cbn [map concat] in *. apply Forall_app in Hb as [Hbf Hbs].
  rewrite feed_bytes_app by (done || (split; [simpl; lia|constructor])). rewrite feed_wire by done. by rewrite (IH Hbs).
Qed.

(** The parser always answers, and an error is final: a header that
    announces too long a payload is reported, and every later chunk gets the
    same answer and changes nothing. *)
Theorem mux_push_error l s chunk :
  running s -> Forall byte_ok chunk ->
  exists r p, push chunk (mk l s) = Some (r, p) /\
    match r with
    | Ok _ => running p.(state)
    | Err e => forall later, later <> [] -> push later p = Some (Err e, p)
    end.
Proof.
  intros Hr Hc. unfold push. cbn [limits state]. fold (feed_bytes l s chunk).
  enough (exists r s', feed_bytes l s chunk = Some (r, s') /\ (forall e, r = Err e -> exists buf,
    s' = Header buf /\ length buf = 9%nat /\ l.(Limits.max_payload_len) < header_len buf /\
    e = FrameTooLarge (header_len buf) l.(Limits.max_payload_len))) as (r & s' & Hf & He).
  { rewrite Hf. eexists _, _. split; [done|]. destruct r as [fs|e]; [by eapply feed_running|].
    destruct (He e eq_refl) as (buf & -> & Hl & Hm & ->). intros [|b later] Hne; [done|].
    unfold push. cbn [limits state length push_loop]. unfold round, TCP_MUX_HEADER_LEN. rewrite Hl. cbn [Nat.sub Nat.min take].
    rewrite app_nil_r, Hl. cbv beta iota zeta delta [Nat.ltb Nat.leb]. by rewrite (proj2 (Z.ltb_lt _ _)) by lia. }
  remember (length chunk) as n eqn:Hlen. revert s chunk Hlen Hr Hc. induction n as [n IH] using lt_wf_ind.
  intros s [|b c] -> Hr Hc; [by eexists _, _|]. destruct (decide (length (b :: c) < need s)%nat) as [Hs|Hs].
  - destruct (round_short l s (b :: c) Hr Hc Hs) as [Hround _]. unfold feed_bytes. cbn [length push_loop]. rewrite Hround.
    eexists _, _. by destruct (length c).
  - rewrite feed_bytes_step by (done || lia). pose proof (round_full l s (b :: c) Hr Hc ltac:(lia)) as Hround.
    destruct (round l s (b :: c)) as [[[o|e] s1] rest]; [|eexists _, _; split; [done|]; by intros ? [= <-]].
    destruct Hround as (Hr1 & Hl & Hrest). destruct (IH _ Hl s1 rest eq_refl Hr1 Hrest) as (r & s2 & -> & He).
    destruct o, r; eexists _, _; (split; [done|]); done || exact He.
Qed.

(** ** Concrete streams *)
Definition demo_limits : Limits.t := Limits.mk 4.
Definition demo_frames : list Frame.t := [Frame.mk 2 7 [10; 20; 30]; Frame.mk 5 0 []].
Definition demo_bytes : list Z := [2; 0; 0; 0; 7; 0; 0; 0; 3; 10; 20; 30; 5; 0; 0; 0; 0; 0; 0; 0; 0].

Lemma demo_bytes_ok : Forall byte_ok demo_bytes.
Proof. apply (bool_decide_unpack _). vm_compute. exact I. Qed.
Lemma demo_frames_ok : Forall (frame_ok demo_limits) demo_frames.
Proof. repeat constructor; vm_compute; discriminate || reflexivity. Qed.

Lemma mux_roundtrip_witness : decode_frame_with_limits (H := wasm32) (take 12 demo_bytes) demo_limits = Ok (Frame.mk 2 7 [10; 20; 30]).
Proof.
  apply (proj2 (@mux_roundtrip wasm32 demo_limits (Frame.mk 2 7 [10; 20; 30]) (take 12 demo_bytes)
    ltac:(vm_compute; discriminate) (Forall_take _ _ _ demo_bytes_ok))).
  split; [exact (proj1 (proj1 (Forall_cons _ _ _) demo_frames_ok))|vm_compute; reflexivity].
Defined.

Lemma mux_stream_witness :
  push_all [take 5 demo_bytes; drop 5 demo_bytes] (with_limits demo_limits) = Some (Ok demo_frames, with_limits demo_limits).
Proof.
  apply (mux_stream demo_limits [take 5 demo_bytes; drop 5 demo_bytes] demo_frames demo_frames_ok).
  - apply Forall_cons. split; [apply Forall_take, demo_bytes_ok|]. apply Forall_singleton, Forall_drop, demo_bytes_ok.
  - vm_compute. reflexivity.
Defined.

Lemma mux_push_error_witness :
  exists r p, push [2; 0; 0; 0; 7; 0; 0; 0; 9; 1] (mk demo_limits (Header [])) = Some (r, p) /\
    match r with
    | Ok _ => running p.(state)
    | Err e => forall later, later <> [] -> push later p = Some (Err e, p)
    end.
Proof.
  apply (mux_push_error demo_limits (Header [])); [split; [simpl; lia|constructor]|].
  apply (bool_decide_unpack _). vm_compute. exact I.
Defined.
