(* ===== verification/Storage.v ===== *)
(** * Storage: backends and virtual disks (crates/aero-storage/src: error.rs,
      util.rs, backend.rs, disk.rs)

    The two interfaces of the disk stack, a resizable byte store below and a
    disk of fixed capacity above, with what each promises; the in-memory
    backend and the raw disk.  A method on [&mut self] passes the state on,
    also when it fails; a read returns the bytes instead of filling a buffer. *)

From S2P Require Import Prelude Bytes GuestMem.

(** Error texts are kept as strings. *)
Inductive DiskError :=
| UnalignedLength (len alignment : Z)
| OutOfBounds (offset len capacity : Z)
| OffsetOverflow
| CorruptImage (msg : string)
| Unsupported (msg : string)
| InvalidSparseHeader (msg : string)
| InvalidConfig (msg : string)
| CorruptSparseImage (msg : string)
| NotSupported (msg : string)
| QuotaExceeded
| InUse
| InvalidState (msg : string)
| BackendUnavailable
| Io (msg : string).

(** [.ok_or(DiskError::OffsetOverflow)?] *)
Abbreviation or_overflow o := (ok_or OffsetOverflow o).
(** [if !cond { return Err(e) }] *)
Definition ensure {E} (cond : bool) (e : E) : result unit E := if cond then Ok tt else Err e.

(** ** Checked arithmetic (util.rs) *)
Definition align_up_u64 (value alignment : Z) : result Z DiskError :=
  if alignment =? 0 then Err OffsetOverflow
  else
    let rem := value mod alignment in
    if rem =? 0 then Ok value else or_overflow (checked_add 64 value (alignment - rem)).

Definition div_ceil_u64 (n d : Z) : result Z DiskError :=
  if d =? 0 then Err OffsetOverflow
  else Ok (if n mod d =? 0 then n / d else n / d + 1).

Definition checked_range (offset len capacity : Z) : result unit DiskError :=
  let? end_ := or_overflow (checked_add 64 offset len) in
  ensure (end_ <=? capacity) (OutOfBounds offset len capacity).

(** ** Backends *)
Class StorageBackend (B : Type) := {
  backend_len : st B DiskError Z;
  backend_set_len : Z -> st B DiskError unit;
  backend_read_at : Z -> nat -> st B DiskError (list Z);
  backend_write_at : Z -> list Z -> st B DiskError unit;
  backend_flush : st B DiskError unit;
}.

(** The contract of a working backend: a byte store of up to [be_limit] bytes,
    with zeros where it grows. *)
Class BackendView (B : Type) := {
  be_ok : B -> Prop;
  be_size : B -> Z;
  be_byte : B -> Z -> Z;
  be_limit : Z;
}.
Class BackendSpec (B : Type) `{StorageBackend B} `{BackendView B} : Prop := {
  be_limit_ok : be_limit < 2 ^ 64;
  be_size_ok : forall b, be_ok b -> 0 <= be_size b <= be_limit;
  be_byte_ok : forall b a, be_ok b -> byte_ok (be_byte b a);
  be_byte_out : forall b a, be_ok b -> be_size b <= a -> be_byte b a = 0;
  be_len : forall b, be_ok b -> backend_len b = (Ok (be_size b), b);
  be_set_len : forall b n, be_ok b -> 0 <= n <= be_limit ->
    exists b', backend_set_len n b = (Ok tt, b') /\ be_ok b' /\ be_size b' = n /\
      forall a, 0 <= a -> be_byte b' a = if a <? n then be_byte b a else 0;
  be_read : forall b off n, be_ok b -> uint 64 off -> off + Z.of_nat n <= be_size b ->
    backend_read_at off n b = (Ok (span (be_byte b) off n), b);
  be_read_out : forall b off n, be_ok b -> uint 64 off -> be_size b < off + Z.of_nat n ->
    exists e, backend_read_at off n b = (Err e, b);
  be_write : forall b off src, be_ok b -> uint 64 off -> Forall byte_ok src ->
    off + Z.of_nat (length src) <= be_limit ->
    exists b', backend_write_at off src b = (Ok tt, b') /\ be_ok b' /\
      be_size b' = Z.max (be_size b) (off + Z.of_nat (length src)) /\
      forall a, 0 <= a -> be_byte b' a = splice (be_byte b) off src a;
  be_flush : forall b, be_ok b -> backend_flush b = (Ok tt, b);
}.

(** ** The in-memory backend *)
Module MemBackend.
Record t := mk { data : list Z }.

Section Ops.
Context `{Target}.

Definition set_len (len : Z) : st t DiskError unit := fun b =>
  match try_usize len with
  | None => (Err OffsetOverflow, b)
  | Some len_usize => (Ok tt, mk (resize len_usize 0 b.(data)))
  end.

Definition read_at (offset : Z) (n : nat) : st t DiskError (list Z) := fun b =>
  match try_usize offset with
  | None => (Err OffsetOverflow, b)
  | Some offset_usize =>
      match try_usize (Z.of_nat (offset_usize + n)) with
      | None => (Err OffsetOverflow, b)
      | Some end_ =>
          if (length b.(data) <? end_)%nat
          then (Err (OutOfBounds offset (Z.of_nat n) (Z.of_nat (length b.(data)))), b)
          else (Ok (take n (drop offset_usize b.(data))), b)
      end
  end.

Definition write_at (offset : Z) (buf : list Z) : st t DiskError unit := fun b =>
  match try_usize offset with
  | None => (Err OffsetOverflow, b)
  | Some offset_usize =>
      match try_usize (Z.of_nat (offset_usize + length buf)) with
      | None => (Err OffsetOverflow, b)
      | Some end_ =>
          let '(r, b) := if (length b.(data) <? end_)%nat then set_len (Z.of_nat end_) b else (Ok tt, b) in
          match r with
          | Err e => (Err e, b)
          | Ok _ => (Ok tt, mk (take offset_usize b.(data) ++ buf ++ drop end_ b.(data)))
          end
      end
  end.

Definition with_len (len : Z) : result t DiskError :=
  let? len_usize := or_overflow (try_usize len) in Ok (mk (replicate len_usize 0)).

#[global] Instance backend : StorageBackend t := {|
  backend_len := fun b => (Ok (Z.of_nat (length b.(data))), b);
  backend_set_len := set_len;
  backend_read_at := read_at;
  backend_write_at := write_at;
  backend_flush := fun b => (Ok tt, b);
|}.
End Ops.
End MemBackend.

(** ** The read-only backend *)
Module ReadOnlyBackend.
Record t (B : Type) := new { inner : B }.
Arguments new {B} _.
Arguments inner {B} _.

Section Ops.
Context `{StorageBackend B}.
Definition on_inner {A} (m : st B DiskError A) : st (t B) DiskError A := zoom inner (fun b _ => new b) m.

#[global] Instance backend : StorageBackend (t B) := {|
  backend_len := on_inner backend_len;
  backend_set_len := fun _ => st_err (NotSupported "read-only");
  backend_read_at := fun offset n => on_inner (backend_read_at offset n);
  backend_write_at := fun _ _ => st_err (NotSupported "read-only");
  backend_flush := on_inner backend_flush;
|}.
End Ops.
End ReadOnlyBackend.

(** ** Disks *)
Class VirtualDisk (D : Type) := {
  capacity_bytes : D -> Z;
  read_at : Z -> nat -> st D DiskError (list Z);
  write_at : Z -> list Z -> st D DiskError unit;
  flush : st D DiskError unit;
  discard_range : Z -> Z -> st D DiskError unit;
}.

Abbreviation SECTOR_SIZE := (512) (only parsing).

(** The bounds check that every [discard_range] starts with. *)
Definition check_discard `{Target} (offset len capacity : Z) : result unit DiskError :=
  if len =? 0 then ensure (offset <=? capacity) (OutOfBounds offset 0 capacity)
  else
    let? end_ := or_overflow (checked_add 64 offset len) in
    ensure (end_ <=? capacity) (OutOfBounds offset (Z.min len usize_max) capacity).

Section Sectors.
Context `{VirtualDisk D}.

Definition read_sectors (lba : Z) (n : nat) : st D DiskError (list Z) := fun d =>
  if negb (Z.of_nat n mod SECTOR_SIZE =? 0) then (Err (UnalignedLength (Z.of_nat n) SECTOR_SIZE), d)
  else
    match (let? offset := or_overflow (checked_mul 64 lba SECTOR_SIZE) in
           let? _ := checked_range offset (Z.of_nat n) (capacity_bytes d) in Ok offset) with
    | Err e => (Err e, d)
    | Ok offset => read_at offset n d
    end.

Definition write_sectors (lba : Z) (buf : list Z) : st D DiskError unit := fun d =>
  let n := Z.of_nat (length buf) in
  if negb (n mod SECTOR_SIZE =? 0) then (Err (UnalignedLength n SECTOR_SIZE), d)
  else
    match (let? offset := or_overflow (checked_mul 64 lba SECTOR_SIZE) in
           let? _ := checked_range offset n (capacity_bytes d) in Ok offset) with
    | Err e => (Err e, d)
    | Ok offset => write_at offset buf d
    end.
End Sectors.

(** The contract of a disk: what its bytes are, and that an operation within
    the capacity acts on them as on an array.  Only the errors in [vd_fault]
    interrupt it; an interrupted write has written a prefix, an interrupted
    discard has done nothing. *)
Class DiskView (D : Type) := {
  vd_ok : D -> Prop;
  vd_byte : D -> Z -> Z;
  vd_fault : DiskError -> Prop;
}.

Section Contract.
Context `{VirtualDisk D} `{DiskView D}.

Definition holds (d d' : D) (f : Z -> Z) : Prop :=
  vd_ok d' /\ capacity_bytes d' = capacity_bytes d /\
  forall a, 0 <= a < capacity_bytes d -> vd_byte d' a = f a.

Definition in_disk (d : D) (off len : Z) : Prop := 0 <= off /\ 0 <= len /\ off + len <= capacity_bytes d.
Definition faulty {A} (r : result A DiskError) : Prop := match r with Ok _ => False | Err e => vd_fault e end.
End Contract.

Class DiskSpec (D : Type) `{VirtualDisk D} `{DiskView D} : Prop := {
  vd_capacity : forall d, vd_ok d -> uint 64 (capacity_bytes d);
  vd_byte_ok : forall d a, vd_ok d -> byte_ok (vd_byte d a);
  vd_read : forall d off n, vd_ok d -> in_disk d off (Z.of_nat n) ->
    let '(r, d') := read_at off n d in
    holds d d' (vd_byte d) /\ (r = Ok (span (vd_byte d) off n) \/ faulty r);
  vd_read_out : forall d off n, vd_ok d -> 0 <= off -> capacity_bytes d < off + Z.of_nat n ->
    exists e, read_at off n d = (Err e, d);
  vd_write : forall d off src, vd_ok d -> Forall byte_ok src -> in_disk d off (Z.of_nat (length src)) ->
    let '(r, d') := write_at off src d in
    exists k, holds d d' (splice (vd_byte d) off (take k src)) /\
      (r = Ok tt /\ k = length src \/ faulty r);
  vd_write_out : forall d off src, vd_ok d -> 0 <= off -> capacity_bytes d < off + Z.of_nat (length src) ->
    exists e, write_at off src d = (Err e, d);
  vd_flush : forall d, vd_ok d ->
    let '(r, d') := flush d in holds d d' (vd_byte d) /\ (r = Ok tt \/ faulty r);
  vd_discard : forall d off len, vd_ok d -> in_disk d off len ->
    let '(r, d') := discard_range off len d in
    r = Ok tt /\ vd_ok d' /\ capacity_bytes d' = capacity_bytes d /\
      (forall a, 0 <= a < capacity_bytes d -> a < off \/ off + len <= a -> vd_byte d' a = vd_byte d a) \/
    faulty r /\ holds d d' (vd_byte d);
  vd_discard_out : forall d off len, vd_ok d -> 0 <= off -> 0 <= len -> capacity_bytes d < off + len ->
    exists e, discard_range off len d = (Err e, d);
}.
(** A disk on which an operation within the capacity never fails. *)
Class ReliableDisk (D : Type) `{DiskView D} : Prop := {
  vd_reliable : forall e, ~ vd_fault e;
}.

(** What a layer needs of a disk it only reads. *)
Class BaseSpec (D : Type) `{VirtualDisk D} `{DiskView D} : Prop := {
  bd_capacity : forall d, vd_ok d -> uint 64 (capacity_bytes d);
  bd_byte_ok : forall d a, vd_ok d -> byte_ok (vd_byte d a);
  bd_read : forall d off n, vd_ok d -> in_disk d off (Z.of_nat n) ->
    exists d', read_at off n d = (Ok (span (vd_byte d) off n), d') /\ holds d d' (vd_byte d);
  bd_flush : forall d, vd_ok d -> exists d', flush d = (Ok tt, d') /\ holds d d' (vd_byte d);
}.

(** *** Read-only disks *)
Module ReadOnlyDisk.
Record t (D : Type) := new { inner : D }.
Arguments new {D} _.
Arguments inner {D} _.

#[global] Instance disk `{Target} `{VirtualDisk D} : VirtualDisk (t D) := {|
  capacity_bytes := fun d => capacity_bytes d.(inner);
  read_at := fun offset n => zoom inner (fun x _ => new x) (read_at offset n);
  write_at := fun _ _ => st_err (NotSupported "read-only");
  flush := st_ret tt;
  discard_range := fun offset len d => (check_discard offset len (capacity_bytes d.(inner)), d);
|}.
End ReadOnlyDisk.

(** *** Raw images *)
Module RawDisk.
Record t (B : Type) := mk { backend : B; capacity : Z }.
Arguments mk {B} _ _.
Arguments backend {B} _.
Arguments capacity {B} _.
Definition with_backend {B} (b : B) (d : t B) : t B := mk b d.(capacity).

Section Ops.
Context `{Target} `{StorageBackend B}.

Definition create (backend : B) (capacity_bytes : Z) : result (t B) DiskError :=
  match backend_set_len capacity_bytes backend with
  | (Ok _, backend) => Ok (mk backend capacity_bytes)
  | (Err e, _) => Err e
  end.

Definition open (backend : B) : result (t B) DiskError :=
  match backend_len backend with
  | (Ok capacity, backend) => Ok (mk backend capacity)
  | (Err e, _) => Err e
  end.

#[global] Instance disk : VirtualDisk (t B) := {|
  capacity_bytes := capacity;
  read_at := fun offset n d =>
    (let! _ := st_of_result (checked_range offset (Z.of_nat n) d.(capacity)) in
     zoom backend with_backend (backend_read_at offset n)) d;
  write_at := fun offset buf d =>
    (let! _ := st_of_result (checked_range offset (Z.of_nat (length buf)) d.(capacity)) in
     zoom backend with_backend (backend_write_at offset buf)) d;
  flush := zoom backend with_backend backend_flush;
  discard_range := fun offset len d => (check_discard offset len d.(capacity), d);
|}.
End Ops.
End RawDisk.

(** ** The loop over blocks

    The methods of the block-based disks cut a range into the parts that lie
    in one block each.  [abs] is where the next part starts; the fuel is the
    number of bytes left, of which every round takes at least one. *)
Section Blocks.
Context {S : Type}.

Definition chunk_len (block_size abs : Z) (remaining : nat) : nat :=
  Nat.min (Z.to_nat (block_size - abs mod block_size)) remaining.

Fixpoint read_blocks (fuel : nat) (block_size : Z)
    (body : Z -> nat -> st S DiskError (list Z)) (abs : Z) (remaining : nat) : st S DiskError (list Z) :=
  match fuel with
  | O => st_ret []
  | Datatypes.S fuel =>
      if (remaining =? 0)%nat then st_ret []
      else
        let n := chunk_len block_size abs remaining in
        let! part := body abs n in
        let! rest := read_blocks fuel block_size body (abs + Z.of_nat n) (remaining - n) in
        st_ret (part ++ rest)
  end.

Fixpoint write_blocks (fuel : nat) (block_size : Z)
    (body : Z -> list Z -> st S DiskError unit) (abs : Z) (buf : list Z) : st S DiskError unit :=
  match fuel with
  | O => st_ret tt
  | Datatypes.S fuel =>
      match buf with
      | [] => st_ret tt
      | _ =>
          let n := chunk_len block_size abs (length buf) in
          let! _ := body abs (take n buf) in
          write_blocks fuel block_size body (abs + Z.of_nat n) (drop n buf)
      end
  end.
End Blocks.
