(* ===== verification/SparseDisk.v ===== *)
(** * Sparse disk images (crates/aero-storage/src/sparse.rs)

    The image: a header of 64 bytes, an allocation table with the byte offset
    of each block's data or 0, and the data blocks.  The table, and a bit set
    of the data slots in use, are kept in memory and written through. *)

From S2P Require Import Prelude Bytes GuestMem Storage.

Abbreviation SPARSE_VERSION := (1) (only parsing).
Abbreviation HEADER_SIZE := (64) (only parsing).
Abbreviation MAX_TABLE_BYTES := (128 * 1024 * 1024) (only parsing).
Abbreviation MAX_TABLE_ENTRIES := (16 * 1024 * 1024) (only parsing).
Abbreviation MAX_BLOCK_SIZE_BYTES := (64 * 1024 * 1024) (only parsing).
Abbreviation is_power_of_two := SparseMemory.is_power_of_two.
Abbreviation trailing_zeros := SparseMemory.trailing_zeros.

Module AeroSparseConfig.
Record t := mk { disk_size_bytes : Z; block_size_bytes : Z }.
End AeroSparseConfig.

(** ** The header *)
Module AeroSparseHeader.
Record t := mk {
  version : Z;
  block_size_bytes : Z;
  disk_size_bytes : Z;
  table_entries : Z;
  data_offset : Z;
  allocated_blocks : Z;
}.
Definition with_allocated_blocks n h :=
  mk h.(version) h.(block_size_bytes) h.(disk_size_bytes) h.(table_entries) h.(data_offset) n.

(** [b"AEROSPAR"] *)
Abbreviation MAGIC := [0x41; 0x45; 0x52; 0x4F; 0x53; 0x50; 0x41; 0x52] (only parsing).

Definition encode (h : t) : list Z :=
  MAGIC ++ to_le_bytes 4 h.(version) ++ to_le_bytes 4 HEADER_SIZE ++ to_le_bytes 4 h.(block_size_bytes)
  ++ to_le_bytes 4 0 ++ to_le_bytes 8 h.(disk_size_bytes) ++ to_le_bytes 8 HEADER_SIZE
  ++ to_le_bytes 8 h.(table_entries) ++ to_le_bytes 8 h.(data_offset) ++ to_le_bytes 8 h.(allocated_blocks).

(** [bytes.get(a..a + n)] *)
Definition get (bytes : list Z) (a n : nat) : result (list Z) DiskError :=
  if (a + n <=? length bytes)%nat then Ok (take n (drop a bytes))
  else Err (InvalidSparseHeader "header too small").
Definition get_int (bytes : list Z) (a n : nat) : result Z DiskError :=
  result_map from_le_bytes (get bytes a n).

Definition decode (bytes : list Z) : result t DiskError :=
  let? magic := get bytes 0 8 in
  let? _ := ensure (bool_decide (magic = MAGIC)) (InvalidSparseHeader "bad magic") in
  let? version := get_int bytes 8 4 in
  let? _ := ensure (version =? SPARSE_VERSION) (InvalidSparseHeader "unsupported version") in
  let? header_size := get_int bytes 12 4 in
  let? _ := ensure (header_size =? HEADER_SIZE) (InvalidSparseHeader "unexpected header size") in
  let? block_size := get_int bytes 16 4 in
  let? disk_size_bytes := get_int bytes 24 8 in
  let? table_offset := get_int bytes 32 8 in
  let? _ := ensure (table_offset =? HEADER_SIZE) (InvalidSparseHeader "unsupported table offset") in
  let? table_entries := get_int bytes 40 8 in
  let? data_offset := get_int bytes 48 8 in
  let? allocated_blocks := get_int bytes 56 8 in
  let? _ := ensure (nz block_size && (block_size mod SECTOR_SIZE =? 0))
              (InvalidSparseHeader "block_size must be a non-zero multiple of 512") in
  let? _ := ensure (is_power_of_two block_size) (InvalidSparseHeader "block_size must be power of two") in
  let? _ := ensure (block_size <=? MAX_BLOCK_SIZE_BYTES) (InvalidSparseHeader "block_size too large") in
  let? _ := ensure (nz disk_size_bytes && (disk_size_bytes mod SECTOR_SIZE =? 0))
              (InvalidSparseHeader "disk_size must be a non-zero multiple of 512") in
  let? _ := ensure (nz table_entries) (InvalidSparseHeader "table_entries must be non-zero") in
  let? expected_table_entries := div_ceil_u64 disk_size_bytes block_size in
  let? _ := ensure (expected_table_entries =? table_entries) (InvalidSparseHeader "unexpected table_entries") in
  let? expected_table_bytes := or_overflow (checked_mul 64 table_entries 8) in
  let? _ := ensure ((expected_table_bytes <=? MAX_TABLE_BYTES) && (table_entries <=? MAX_TABLE_ENTRIES))
              (Unsupported "aerosparse allocation table too large") in
  let? table_end := or_overflow (checked_add 64 HEADER_SIZE expected_table_bytes) in
  let? expected_data_offset := align_up_u64 table_end block_size in
  let? _ := ensure (expected_data_offset =? data_offset) (InvalidSparseHeader "unexpected data_offset") in
  let? _ := ensure (allocated_blocks <=? table_entries)
              (InvalidSparseHeader "allocated_blocks exceeds table_entries") in
  Ok (mk version block_size disk_size_bytes table_entries data_offset allocated_blocks).
End AeroSparseHeader.

(** ** The disk *)
Module AeroSparseDisk.
Module Header := AeroSparseHeader.
Record t (B : Type) := mk {
  backend : B;
  header : Header.t;
  table : list Z;
  phys_used : list Z;
  mapped_blocks : Z;
}.
Arguments mk {B} _ _ _ _ _.
Arguments backend {B} _.
Arguments header {B} _.
Arguments table {B} _.
Arguments phys_used {B} _.
Arguments mapped_blocks {B} _.

Section Ops.
Context `{Target} `{StorageBackend B}.
Implicit Types d : t B.

Definition with_backend (b : B) d : t B := mk b d.(header) d.(table) d.(phys_used) d.(mapped_blocks).
Definition with_allocated_blocks n d : t B :=
  mk d.(backend) (Header.with_allocated_blocks n d.(header)) d.(table) d.(phys_used) d.(mapped_blocks).
Definition with_table v d : t B := mk d.(backend) d.(header) v d.(phys_used) d.(mapped_blocks).
Definition with_phys_used v d : t B := mk d.(backend) d.(header) d.(table) v d.(mapped_blocks).
Definition with_mapped_blocks v d : t B := mk d.(backend) d.(header) d.(table) d.(phys_used) v.
Definition on_backend {A} (m : st B DiskError A) : st (t B) DiskError A := zoom backend with_backend m.
Definition block_size d : Z := d.(header).(Header.block_size_bytes).

(** *** Creation *)
Definition create (backend : B) (cfg : AeroSparseConfig.t) : result (t B) DiskError :=
  let block_size := cfg.(AeroSparseConfig.block_size_bytes) in
  let disk_size := cfg.(AeroSparseConfig.disk_size_bytes) in
  let? _ := ensure (nz block_size && (block_size mod SECTOR_SIZE =? 0))
              (InvalidSparseHeader "block_size must be a non-zero multiple of 512") in
  let? _ := ensure (is_power_of_two block_size) (InvalidSparseHeader "block_size must be power of two") in
  let? _ := ensure (block_size <=? MAX_BLOCK_SIZE_BYTES) (InvalidSparseHeader "block_size too large") in
  let? _ := ensure (nz disk_size && (disk_size mod SECTOR_SIZE =? 0))
              (InvalidSparseHeader "disk_size must be a non-zero multiple of 512") in
  let? table_entries := div_ceil_u64 disk_size block_size in
  let? table_entries_usize := ok_or (InvalidConfig "aerosparse allocation table too large")
                                (try_usize table_entries) in
  let? table_bytes := or_overflow (checked_mul 64 table_entries 8) in
  let? _ := ensure (table_bytes <=? MAX_TABLE_BYTES) (InvalidConfig "aerosparse allocation table too large") in
  let? table_end := or_overflow (checked_add 64 HEADER_SIZE table_bytes) in
  let? data_offset := align_up_u64 table_end block_size in
  let header := Header.mk SPARSE_VERSION block_size disk_size table_entries data_offset 0 in
  match (let! _ := backend_set_len data_offset in backend_write_at 0 (Header.encode header)) backend with
  | (Err e, _) => Err e
  | (Ok _, backend) => Ok (mk backend header (replicate table_entries_usize 0) [] 0)
  end.

(** *** Opening an image *)
(** The table entries read so far, the slots they use, and their number. *)
Definition scan : Type := list Z * list Z * Z.

(** One entry of the allocation table. *)
Definition check_entry (h : Header.t) (expected_min_len : Z) (phys : Z) (s : scan) : result scan DiskError :=
  let '(table, seen, mapped) := s in
  let table := table ++ [phys] in
  if phys =? 0 then Ok (table, seen, mapped)
  else
    let? mapped := or_overflow (checked_add 64 mapped 1) in
    let? _ := ensure (h.(Header.data_offset) <=? phys)
                (CorruptSparseImage "data block offset before data region") in
    let rel := phys - h.(Header.data_offset) in
    let? _ := ensure (rel mod h.(Header.block_size_bytes) =? 0)
                (CorruptSparseImage "misaligned data block offset") in
    let phys_idx := rel / h.(Header.block_size_bytes) in
    let? _ := ensure (phys_idx <? h.(Header.allocated_blocks))
                (CorruptSparseImage "data block offset out of bounds") in
    let? phys_end := ok_or (CorruptSparseImage "data block offset out of bounds")
                       (checked_add 64 phys h.(Header.block_size_bytes)) in
    let? _ := ensure (phys_end <=? expected_min_len) (CorruptSparseImage "data block offset out of bounds") in
    let? idx := ok_or (CorruptSparseImage "data block offset out of bounds") (try_usize phys_idx) in
    let mask := 1 <<< Z.of_nat (idx mod 64) in
    let? word := ok_or (CorruptSparseImage "data block offset out of bounds") (seen !! (idx / 64)%nat) in
    let? _ := ensure (word &&& mask =? 0) (CorruptSparseImage "duplicate data block offset") in
    Ok (table, <[(idx / 64)%nat := word ||| mask]> seen, mapped).

(** [for chunk in buf.chunks_exact(8)] *)
Fixpoint check_entries (h : Header.t) (expected_min_len : Z) (n : nat) (buf : list Z) (s : scan) :
    result scan DiskError :=
  match n with
  | O => Ok s
  | S n =>
      let? s := check_entry h expected_min_len (from_le_bytes (take 8 buf)) s in
      check_entries h expected_min_len n (drop 8 buf) s
  end.

(** The error for an image that ends early. *)
Definition truncated (msg : string) (e : DiskError) : DiskError :=
  match e with OutOfBounds _ _ _ => CorruptSparseImage msg | _ => e end.

(** The loop over the table, 64 KiB at a time. *)
Fixpoint read_table (fuel : nat) (h : Header.t) (expected_min_len offset : Z) (remaining : nat) (s : scan) :
    st B DiskError scan :=
  match fuel with
  | O => st_ret s
  | S fuel =>
      if (remaining =? 0)%nat then st_ret s
      else
        let read_len := Nat.min remaining (Z.to_nat (64 * 1024)) in
        let! buf := fun b => let '(r, b) := backend_read_at offset read_len b in
                             (map_err (truncated "allocation table out of bounds") r, b) in
        let! s := st_of_result (check_entries h expected_min_len (read_len / 8) buf s) in
        let! offset := st_of_result (or_overflow (checked_add 64 offset (Z.of_nat read_len))) in
        read_table fuel h expected_min_len offset (remaining - read_len) s
  end.

Definition open_image : st B DiskError (Header.t * scan) :=
  let! header_bytes := fun b => let '(r, b) := backend_read_at 0 (Z.to_nat HEADER_SIZE) b in
                                (map_err (truncated "truncated sparse header") r, b) in
  let! header := st_of_result (Header.decode header_bytes) in
  let block_size := header.(Header.block_size_bytes) in
  let! expected_table_bytes := st_of_result (or_overflow (checked_mul 64 header.(Header.table_entries) 8)) in
  let! _ := st_of_result (ensure ((expected_table_bytes <=? MAX_TABLE_BYTES)
                                  && (header.(Header.table_entries) <=? MAX_TABLE_ENTRIES))
                            (Unsupported "aerosparse allocation table too large")) in
  let! expected_table_bytes_usize := st_of_result
         (ok_or (Unsupported "aerosparse allocation table too large") (try_usize expected_table_bytes)) in
  let! _ := st_of_result
         (ok_or (Unsupported "aerosparse allocation table too large") (try_usize header.(Header.table_entries))) in
  let! table_end := st_of_result (or_overflow (checked_add 64 HEADER_SIZE expected_table_bytes)) in
  let! backend_len := backend_len in
  let! _ := st_of_result (ensure (table_end <=? backend_len) (CorruptSparseImage "allocation table out of bounds")) in
  let! _ := st_of_result (ensure (header.(Header.data_offset) <=? backend_len)
                            (CorruptSparseImage "data region out of bounds")) in
  let! data_bytes := st_of_result (or_overflow (checked_mul 64 header.(Header.allocated_blocks) block_size)) in
  let! expected_min_len := st_of_result (or_overflow (checked_add 64 header.(Header.data_offset) data_bytes)) in
  let! _ := st_of_result (ensure (expected_min_len <=? backend_len)
                            (CorruptSparseImage "allocated blocks extend beyond end of image")) in
  let! allocated_blocks_usize := st_of_result
         (ok_or (CorruptSparseImage "allocated_blocks out of range") (try_usize header.(Header.allocated_blocks))) in
  let! padded := st_of_result (or_overflow (checked_add usize_bits (Z.of_nat allocated_blocks_usize) 63)) in
  let seen := replicate (Z.to_nat (padded / 64)) 0 in
  let! s := read_table expected_table_bytes_usize header expected_min_len HEADER_SIZE expected_table_bytes_usize
              ([], seen, 0) in
  st_ret (header, s).

Definition open (backend : B) : result (t B) DiskError :=
  match open_image backend with
  | (Err e, _) => Err e
  | (Ok (header, (table, seen, mapped_blocks)), backend) => Ok (mk backend header table seen mapped_blocks)
  end.

(** *** The bit set of data slots *)
Definition is_block_allocated d (block_idx : Z) : bool :=
  match try_usize block_idx with
  | None => false
  | Some idx => match d.(table) !! idx with Some off => nz off | None => false end
  end.

Definition phys_offset_for_idx d (phys_idx : Z) : result Z DiskError :=
  let? rel := or_overflow (checked_mul 64 phys_idx (block_size d)) in
  or_overflow (checked_add 64 d.(header).(Header.data_offset) rel).

Definition set_phys_used (phys_idx : Z) (used : bool) : st (t B) DiskError unit := fun d =>
  match try_usize phys_idx with
  | None => (Err (CorruptSparseImage "data block offset out of bounds"), d)
  | Some idx =>
      let mask := 1 <<< Z.of_nat (idx mod 64) in
      match d.(phys_used) !! (idx / 64)%nat with
      | None => (Err (CorruptSparseImage "data block offset out of bounds"), d)
      | Some word =>
          let word := if used then word ||| mask else word &&& unot 64 mask in
          (Ok tt, with_phys_used (<[(idx / 64)%nat := word]> d.(phys_used)) d)
      end
  end.

Definition is_phys_used d (phys_idx : Z) : result bool DiskError :=
  let? idx := ok_or (CorruptSparseImage "data block offset out of bounds") (try_usize phys_idx) in
  let? word := ok_or (CorruptSparseImage "data block offset out of bounds") (d.(phys_used) !! (idx / 64)%nat) in
  Ok (nz (word &&& (1 <<< Z.of_nat (idx mod 64)))).

(** The loop over the words; the bit found is set. *)
Fixpoint find_free (total : Z) (word_idx : nat) (words : list Z) : result (option Z) DiskError * list Z :=
  match words with
  | [] => (Ok None, [])
  | word :: rest =>
      if word =? 2 ^ 64 - 1 then
        let '(r, rest) := find_free total (S word_idx) rest in (r, word :: rest)
      else
        let bit := trailing_zeros (unot 64 word) in
        match (let? v := or_overflow (checked_mul usize_bits (Z.of_nat word_idx) 64) in
               or_overflow (checked_add usize_bits v bit)) with
        | Err e => (Err e, words)
        | Ok idx => if total <=? idx then (Ok None, words) else (Ok (Some idx), (word ||| (1 <<< bit)) :: rest)
        end
  end.

Definition find_free_phys_idx : st (t B) DiskError (option Z) := fun d =>
  let '(r, words) := find_free d.(header).(Header.allocated_blocks) 0 d.(phys_used) in
  (r, with_phys_used words d).

(** [while new_allocated > 0]: drop the free slots at the end. *)
Fixpoint trim_loop d (new_allocated : nat) : result nat DiskError :=
  match new_allocated with
  | O => Ok O
  | S last =>
      let? used := is_phys_used d (Z.of_nat last) in
      if used then Ok new_allocated else trim_loop d last
  end.

Definition trim_trailing_free_phys : st (t B) DiskError unit := fun d =>
  let allocated := d.(header).(Header.allocated_blocks) in
  if allocated =? 0 then (Ok tt, d)
  else
    match trim_loop d (Z.to_nat allocated) with
    | Err e => (Err e, d)
    | Ok n =>
        let new_allocated := Z.of_nat n in
        if new_allocated =? allocated then (Ok tt, d)
        else
          (let! _ := st_modify (with_allocated_blocks new_allocated) in
           let! words := st_of_result (or_overflow (try_usize ((new_allocated + 63) / 64))) in
           let! _ := st_modify (fun d => with_phys_used (take words d.(phys_used)) d) in
           let! _ := fun d => on_backend (backend_write_at 0 (Header.encode d.(header))) d in
           let! data_bytes := st_of_result (or_overflow (checked_mul 64 new_allocated (block_size d))) in
           let! new_end := st_of_result (or_overflow (checked_add 64 d.(header).(Header.data_offset) data_bytes)) in
           let! cur_len := on_backend backend_len in
           if new_end <? cur_len then on_backend (backend_set_len new_end) else st_ret tt) d
    end.

(** *** Allocation *)
(** The offset of the entry of a block in the image. *)
Definition table_entry_off (block_idx : Z) : result Z DiskError :=
  let? rel := or_overflow (checked_mul 64 block_idx 8) in or_overflow (checked_add 64 HEADER_SIZE rel).

(** A new slot at the end of the data area. *)
Definition append_slot : st (t B) DiskError Z := fun d =>
  (let phys_idx := d.(header).(Header.allocated_blocks) in
   let! phys := st_of_result (phys_offset_for_idx d phys_idx) in
   let! allocated := st_of_result (or_overflow (checked_add 64 phys_idx 1)) in
   let! _ := st_modify (with_allocated_blocks allocated) in
   let! words := st_of_result (or_overflow (try_usize ((allocated + 63) / 64))) in
   let! _ := st_modify (fun d => if (length d.(phys_used) <? words)%nat
                                 then with_phys_used (resize words 0 d.(phys_used)) d else d) in
   let! _ := set_phys_used phys_idx true in
   st_ret phys) d.

(** A free slot if there is one, and whether it is new. *)
Definition take_slot : st (t B) DiskError (Z * bool) :=
  let! free := find_free_phys_idx in
  match free with
  | Some phys_idx => fun d => (let? phys := phys_offset_for_idx d phys_idx in Ok (phys, false), d)
  | None => let! phys := append_slot in st_ret (phys, true)
  end.

Definition ensure_block_allocated (block_idx : Z) : st (t B) DiskError (Z * bool) := fun d =>
  match (let? idx := ok_or (CorruptSparseImage "block index out of range") (try_usize block_idx) in
         let? entry := ok_or (CorruptSparseImage "block index out of range") (d.(table) !! idx) in
         Ok (idx, entry)) with
  | Err e => (Err e, d)
  | Ok (idx, entry) =>
      if nz entry then (Ok (entry, true), d)
      else
        (let! (phys, new_phys_slot) := take_slot in
         let! _ := st_modify (fun d => with_table (<[idx := phys]> d.(table)) d) in
         let! mapped := fun d => (or_overflow (checked_add 64 d.(mapped_blocks) 1), d) in
         let! _ := st_modify (with_mapped_blocks mapped) in
         let! _ := fun d => if new_phys_slot then on_backend (backend_write_at 0 (Header.encode d.(header))) d
                            else (Ok tt, d) in
         let! off := st_of_result (table_entry_off block_idx) in
         let! _ := on_backend (backend_write_at off (to_le_bytes 8 phys)) in
         let! end_ := st_of_result (or_overflow (checked_add 64 phys (block_size d))) in
         let! len := on_backend backend_len in
         let! _ := if len <? end_ then on_backend (backend_set_len end_) else st_ret tt in
         st_ret (phys, false)) d
  end.

Definition deallocate_block_inner (block_idx : Z) : st (t B) DiskError bool := fun d =>
  match (let? idx := ok_or (CorruptSparseImage "block index out of range") (try_usize block_idx) in
         let? phys := ok_or (CorruptSparseImage "block index out of range") (d.(table) !! idx) in
         Ok (idx, phys)) with
  | Err e => (Err e, d)
  | Ok (idx, phys) =>
      if phys =? 0 then (Ok false, d)
      else
        (let! _ := st_modify (with_table (<[idx := 0]> d.(table))) in
         let! off := st_of_result (table_entry_off block_idx) in
         let! _ := on_backend (backend_write_at off (to_le_bytes 8 0)) in
         let! _ := st_of_result (ensure (d.(header).(Header.data_offset) <=? phys)
                                   (CorruptSparseImage "data block offset before data region")) in
         let rel := phys - d.(header).(Header.data_offset) in
         let! _ := st_of_result (ensure (rel mod block_size d =? 0)
                                   (CorruptSparseImage "misaligned data block offset")) in
         let phys_idx := rel / block_size d in
         let! _ := st_of_result (ensure (phys_idx <? d.(header).(Header.allocated_blocks))
                                   (CorruptSparseImage "data block offset out of bounds")) in
         let! _ := set_phys_used phys_idx false in
         let! mapped := st_of_result (ok_or (CorruptSparseImage "allocated_blocks out of range")
                                        (checked_sub d.(mapped_blocks) 1)) in
         let! _ := st_modify (with_mapped_blocks mapped) in
         st_ret true) d
  end.

Definition deallocate_block (block_idx : Z) : st (t B) DiskError bool :=
  let! existed := deallocate_block_inner block_idx in
  let! _ := if existed : bool then trim_trailing_free_phys else st_ret tt in
  st_ret existed.

(** [for block_idx in start_block..end_block] *)
Fixpoint deallocate_blocks (n : nat) (block_idx : Z) : st (t B) DiskError unit :=
  match n with
  | O => st_ret tt
  | S n =>
      let! _ := deallocate_block_inner block_idx in
      deallocate_blocks n (block_idx + 1)
  end.

Definition discard_range (offset len : Z) : st (t B) DiskError unit := fun d =>
  match check_discard offset len d.(header).(Header.disk_size_bytes) with
  | Err e => (Err e, d)
  | Ok _ =>
      if len =? 0 then (Ok tt, d)
      else
        (let! start_block := st_of_result (div_ceil_u64 offset (block_size d)) in
         let end_block := (offset + len) / block_size d in
         if end_block <=? start_block then st_ret tt
         else
           let! _ := deallocate_blocks (Z.to_nat (end_block - start_block)) start_block in
           trim_trailing_free_phys) d
  end.

(** *** Data *)
Definition read_from_alloc_table (phys : Z) (offset_in_block : Z) (n : nat) : st (t B) DiskError (list Z) :=
  let! phys_off := st_of_result (or_overflow (checked_add 64 phys offset_in_block)) in
  on_backend (backend_read_at phys_off n).

Definition write_to_alloc_table (phys : Z) (offset_in_block : Z) (src : list Z) : st (t B) DiskError unit :=
  let! phys_off := st_of_result (or_overflow (checked_add 64 phys offset_in_block)) in
  on_backend (backend_write_at phys_off src).

(** Zeros, at most 4096 at a time. *)
Fixpoint write_zeros_in_block (fuel : nat) (phys off : Z) (remaining : nat) : st (t B) DiskError unit :=
  match fuel with
  | O => st_ret tt
  | S fuel =>
      if (remaining =? 0)%nat then st_ret tt
      else
        let n := Nat.min remaining (Z.to_nat 4096) in
        let! _ := write_to_alloc_table phys off (replicate n 0) in
        write_zeros_in_block fuel phys (off + Z.of_nat n) (remaining - n)
  end.

(** The entry of the block at [abs]. *)
Definition entry_at d (abs : Z) : result Z DiskError :=
  let? idx := ok_or (CorruptSparseImage "block index out of range") (try_usize (abs / block_size d)) in
  ok_or (CorruptSparseImage "block index out of range") (d.(table) !! idx).

Definition read_at (offset : Z) (n : nat) : st (t B) DiskError (list Z) := fun d =>
  (let! _ := st_of_result (checked_range offset (Z.of_nat n) d.(header).(Header.disk_size_bytes)) in
   let! _ := st_of_result (or_overflow (try_usize (block_size d))) in
   read_blocks n (block_size d) (fun abs n =>
     let! phys := fun d => (entry_at d abs, d) in
     if phys =? 0 then st_ret (replicate n 0)
     else read_from_alloc_table phys (abs mod block_size d) n) offset n) d.

(** One round of [write_at]. *)
Definition write_block (abs : Z) (src : list Z) : st (t B) DiskError unit := fun d =>
  let within := abs mod block_size d in
  let end_ := within + Z.of_nat (length src) in
  (let! entry := st_of_result (entry_at d abs) in
   if (entry =? 0) && forallb (fun b => b =? 0) src then st_ret tt
   else
     let! (phys, existed) := if nz entry then st_ret (entry, true)
                              else ensure_block_allocated (abs / block_size d) in
     let! _ := if existed : bool then st_ret tt
               else
                 let! _ := if 0 <? within then write_zeros_in_block (Z.to_nat within) phys 0 (Z.to_nat within)
                           else st_ret tt in
                 if end_ <? block_size d
                 then write_zeros_in_block (Z.to_nat (block_size d - end_)) phys end_ (Z.to_nat (block_size d - end_))
                 else st_ret tt in
     write_to_alloc_table phys within src) d.

Definition write_at (offset : Z) (buf : list Z) : st (t B) DiskError unit := fun d =>
  (let! _ := st_of_result (checked_range offset (Z.of_nat (length buf)) d.(header).(Header.disk_size_bytes)) in
   let! _ := st_of_result (or_overflow (try_usize (block_size d))) in
   write_blocks (length buf) (block_size d) write_block offset buf) d.

#[global] Instance disk : VirtualDisk (t B) := {|
  capacity_bytes := fun d => d.(header).(Header.disk_size_bytes);
  Storage.read_at := read_at;
  Storage.write_at := write_at;
  flush := on_backend backend_flush;
  Storage.discard_range := discard_range;
|}.
End Ops.
End AeroSparseDisk.
