(* ===== verification/CowDisk.v ===== *)
(** * Copy-on-write disks (crates/aero-storage/src/cow.rs)

    A base disk that is only read and a sparse overlay that takes the writes. *)

From S2P Require Import Prelude Bytes GuestMem Storage SparseDisk.

Module AeroCowDisk.
Module Header := AeroSparseHeader.
Module Sparse := AeroSparseDisk.
Record t (Base B : Type) := mk { base : Base; overlay : Sparse.t B }.
Arguments mk {Base B} _ _.
Arguments base {Base B} _.
Arguments overlay {Base B} _.

Section Ops.
Context `{Target} `{VirtualDisk Base} `{StorageBackend B}.
Implicit Types d : t Base B.

Definition with_base (b : Base) d : t Base B := mk b d.(overlay).
Definition with_overlay (o : Sparse.t B) d : t Base B := mk d.(base) o.
Definition on_base {A} (m : st Base DiskError A) : st (t Base B) DiskError A := zoom base with_base m.
Definition on_overlay {A} (m : st (Sparse.t B) DiskError A) : st (t Base B) DiskError A :=
  zoom overlay with_overlay m.

Definition create (base : Base) (overlay_backend : B) (block_size_bytes : Z) : result (t Base B) DiskError :=
  let? overlay := Sparse.create overlay_backend (AeroSparseConfig.mk (capacity_bytes base) block_size_bytes) in
  Ok (mk base overlay).

Definition open (base : Base) (overlay_backend : B) : result (t Base B) DiskError :=
  let? overlay := Sparse.open overlay_backend in
  let? _ := ensure (capacity_bytes overlay =? capacity_bytes base)
              (InvalidSparseHeader "overlay size does not match base disk size") in
  Ok (mk base overlay).

Definition read_at (offset : Z) (n : nat) : st (t Base B) DiskError (list Z) := fun d =>
  let block_size := Sparse.block_size d.(overlay) in
  (let! _ := st_of_result (checked_range offset (Z.of_nat n) (capacity_bytes d.(base))) in
   read_blocks n block_size (fun abs n d =>
     if Sparse.is_block_allocated d.(overlay) (abs / block_size)
     then on_overlay (Sparse.read_at abs n) d
     else on_base (Storage.read_at abs n) d) offset n) d.

(** Bytes of the base copied into a new block, at most 4096 at a time. *)
Fixpoint copy_base (fuel : nat) (phys base_off overlay_off : Z) (remaining : nat) :
    st (t Base B) DiskError unit :=
  match fuel with
  | O => st_ret tt
  | S fuel =>
      if (remaining =? 0)%nat then st_ret tt
      else
        let chunk := Nat.min remaining (Z.to_nat 4096) in
        let! scratch := on_base (Storage.read_at base_off chunk) in
        let! _ := on_overlay (Sparse.write_to_alloc_table phys overlay_off scratch) in
        let! base_off := st_of_result (or_overflow (checked_add 64 base_off (Z.of_nat chunk))) in
        copy_base fuel phys base_off (overlay_off + Z.of_nat chunk) (remaining - chunk)
  end.

(** A write into part of a new block: the rest of it comes from the base. *)
Definition write_seeded (block_idx phys within : Z) (src : list Z) : st (t Base B) DiskError unit := fun d =>
  let block_size := Sparse.block_size d.(overlay) in
  (let! block_start := st_of_result (or_overflow (checked_mul 64 block_idx block_size)) in
   let! max_len := st_of_result
     (or_overflow (try_usize (Z.min (capacity_bytes d.(base) - block_start) block_size))) in
   let prefix := Nat.min (Z.to_nat within) max_len in
   let! _ := copy_base prefix phys block_start 0 prefix in
   let! _ := on_overlay (Sparse.write_to_alloc_table phys within src) in
   let write_end := within + Z.of_nat (length src) in
   if write_end <? Z.of_nat max_len then
     let! base_off := st_of_result (or_overflow (checked_add 64 block_start write_end)) in
     let suffix := (max_len - Z.to_nat write_end)%nat in
     copy_base suffix phys base_off write_end suffix
   else st_ret tt) d.

(** One round of [write_at]. *)
Definition write_block (abs : Z) (src : list Z) : st (t Base B) DiskError unit := fun d =>
  let block_size := Sparse.block_size d.(overlay) in
  let block_idx := abs / block_size in
  let within := abs mod block_size in
  let len := Z.of_nat (length src) in
  (let! (phys, existed) := on_overlay (Sparse.ensure_block_allocated block_idx) in
   if (within =? 0) && (len =? block_size) then on_overlay (Sparse.write_to_alloc_table phys 0 src)
   else if existed : bool then on_overlay (Sparse.write_to_alloc_table phys within src)
   else write_seeded block_idx phys within src) d.

Definition write_at (offset : Z) (buf : list Z) : st (t Base B) DiskError unit := fun d =>
  let block_size := Sparse.block_size d.(overlay) in
  (let! _ := st_of_result (checked_range offset (Z.of_nat (length buf)) (capacity_bytes d.(base))) in
   let! _ := st_of_result (or_overflow (try_usize block_size)) in
   write_blocks (length buf) block_size write_block offset buf) d.

Definition flush : st (t Base B) DiskError unit :=
  let! _ := on_base Storage.flush in on_overlay Storage.flush.

Definition discard_range (offset len : Z) : st (t Base B) DiskError unit := fun d =>
  (let! _ := st_of_result (checked_range offset (Z.min len usize_max) (capacity_bytes d.(base))) in
   on_overlay (Sparse.discard_range offset len)) d.

#[global] Instance disk : VirtualDisk (t Base B) := {|
  capacity_bytes := fun d => capacity_bytes d.(base);
  Storage.read_at := read_at;
  Storage.write_at := write_at;
  Storage.flush := flush;
  Storage.discard_range := discard_range;
|}.
End Ops.
End AeroCowDisk.
