(* ===== verification/BlockCache.v ===== *)
(** * Write-back block cache (crates/aero-storage/src/cache.rs)

    The recency list comes from a library outside the repository; it is a
    parameter, of which the correctness of the cache needs only that it is a
    finite map of bounded size that says which entry it gives up. *)

From S2P Require Import Prelude Bytes GuestMem Storage.

(** ** The LRU map *)
Class LruCache (V C : Type) := {
  lru_new : nat -> C;
  lru_len : C -> nat;
  (** [get_mut(&k)], with what is then written through the reference *)
  lru_get_mut : Z -> (V -> V) -> C -> option V * C;
  lru_put : Z -> V -> C -> C;
  lru_pop_lru : C -> option (Z * V) * C;
  lru_pop : Z -> C -> C;
  (** the keys, as [iter()] visits them *)
  lru_keys : C -> list Z;
}.

Class LruView (V C : Type) := {
  lru_ok : C -> Prop;
  lru_cap : C -> nat;
  lru_map : C -> gmap Z V;
}.
Class LruSpec (V C : Type) `{LruCache V C} `{LruView V C} : Prop := {
  lru_new_ok : forall n, (0 < n)%nat ->
    lru_ok (lru_new n) /\ lru_cap (lru_new n) = n /\ lru_map (lru_new n) = ∅;
  lru_len_ok : forall c, lru_ok c -> lru_len c = base.size (lru_map c);
  lru_get_mut_ok : forall c k f, lru_ok c ->
    (lru_get_mut k f c).1 = lru_map c !! k /\
    lru_ok (lru_get_mut k f c).2 /\ lru_cap (lru_get_mut k f c).2 = lru_cap c /\
    lru_map (lru_get_mut k f c).2 = alter f k (lru_map c);
  lru_put_ok : forall c k v, lru_ok c -> (base.size (lru_map c) < lru_cap c)%nat ->
    lru_ok (lru_put k v c) /\ lru_cap (lru_put k v c) = lru_cap c /\
    lru_map (lru_put k v c) = <[k := v]> (lru_map c);
  lru_pop_lru_ok : forall c, lru_ok c ->
    lru_ok (lru_pop_lru c).2 /\ lru_cap (lru_pop_lru c).2 = lru_cap c /\
    match (lru_pop_lru c).1 with
    | None => lru_map c = ∅
    | Some (k, v) => lru_map c !! k = Some v /\ lru_map (lru_pop_lru c).2 = delete k (lru_map c)
    end;
  lru_pop_ok : forall c k, lru_ok c ->
    lru_ok (lru_pop k c) /\ lru_cap (lru_pop k c) = lru_cap c /\ lru_map (lru_pop k c) = delete k (lru_map c);
  lru_keys_ok : forall c k, lru_ok c -> k ∈ lru_keys c <-> is_Some (lru_map c !! k);
}.

Module CacheEntry.
Record t := mk { data : list Z; dirty : bool }.
End CacheEntry.

(** ** The cache; its statistics are left out *)
Module BlockCachedDisk.
Record t (D C : Type) := mk { inner : D; block_size : nat; max_cached_blocks : nat; cache : C }.
Arguments mk {D C} _ _ _ _.
Arguments inner {D C} _.
Arguments block_size {D C} _.
Arguments max_cached_blocks {D C} _.
Arguments cache {D C} _.

Section Ops.
Context `{Target} `{VirtualDisk D} `{LruCache CacheEntry.t C}.
Implicit Types d : t D C.

Definition with_inner (x : D) d : t D C := mk x d.(block_size) d.(max_cached_blocks) d.(cache).
Definition with_cache (c : C) d : t D C := mk d.(inner) d.(block_size) d.(max_cached_blocks) c.
Definition on_inner {A} (m : st D DiskError A) : st (t D C) DiskError A := zoom inner with_inner m.

Definition new (inner : D) (block_size max_cached_blocks : nat) : result (t D C) DiskError :=
  let? _ := ensure (negb (block_size =? 0)%nat) (InvalidConfig "block_size must be > 0") in
  let? _ := ensure (negb (max_cached_blocks =? 0)%nat) (InvalidConfig "max_cached_blocks must be > 0") in
  Ok (mk inner block_size max_cached_blocks (lru_new max_cached_blocks)).

(** Where a block starts, and how much of it lies on the disk. *)
Definition block_start d (block_idx : Z) : result Z DiskError :=
  or_overflow (checked_mul 64 block_idx (Z.of_nat d.(block_size))).
Definition max_len d (start : Z) : nat :=
  Z.to_nat (Z.min (capacity_bytes d.(inner) - start) (Z.of_nat d.(block_size))).

Definition write_back_block (block_idx : Z) (entry : CacheEntry.t) : st (t D C) DiskError unit := fun d =>
  if negb entry.(CacheEntry.dirty) then (Ok tt, d)
  else
    match block_start d block_idx with
    | Err e => (Err e, d)
    | Ok start =>
        if capacity_bytes d.(inner) <=? start then (Ok tt, d)
        else on_inner (write_at start (take (max_len d start) entry.(CacheEntry.data))) d
    end.

(** The fuel is the number of cached blocks, of which each round drops one. *)
Fixpoint ensure_space_for_block (fuel : nat) : st (t D C) DiskError unit := fun d =>
  match fuel with
  | O => (Ok tt, d)
  | S fuel =>
      if (lru_len d.(cache) <? d.(max_cached_blocks))%nat then (Ok tt, d)
      else
        match lru_pop_lru d.(cache) with
        | (None, c) => (Ok tt, with_cache c d)
        | (Some (evicted_idx, evicted), c) =>
            match write_back_block evicted_idx evicted (with_cache c d) with
            | (Err e, d) => (Err e, with_cache (lru_put evicted_idx evicted d.(cache)) d)
            | (Ok _, d) => ensure_space_for_block fuel d
            end
        end
  end.

Definition insert_cache_entry (block_idx : Z) (entry : CacheEntry.t) : st (t D C) DiskError unit := fun d =>
  (let! _ := ensure_space_for_block (lru_len d.(cache)) in
   st_modify (fun d => with_cache (lru_put block_idx entry d.(cache)) d)) d.

Definition ensure_block_cached (block_idx : Z) : st (t D C) DiskError unit := fun d =>
  let '(hit, c) := lru_get_mut block_idx (fun e => e) d.(cache) in
  let d := with_cache c d in
  match hit with
  | Some _ => (Ok tt, d)
  | None =>
      (let! start := st_of_result (block_start d block_idx) in
       let! data :=
         if start <? capacity_bytes d.(inner) then
           let! head := on_inner (read_at start (max_len d start)) in
           st_ret (head ++ replicate (d.(block_size) - length head) 0)
         else st_ret (replicate d.(block_size) 0) in
       insert_cache_entry block_idx (CacheEntry.mk data false)) d
  end.

Definition read_at (offset : Z) (n : nat) : st (t D C) DiskError (list Z) := fun d =>
  let block_size := Z.of_nat d.(block_size) in
  (let! _ := st_of_result (checked_range offset (Z.of_nat n) (capacity_bytes d.(inner))) in
   read_blocks n block_size (fun abs n =>
     let! _ := ensure_block_cached (abs / block_size) in
     fun d =>
       let '(hit, c) := lru_get_mut (abs / block_size) (fun e => e) d.(cache) in
       (match hit with
        | None => Err (Io "cache missing block after ensure_block_cached")
        | Some entry => Ok (take n (drop (Z.to_nat (abs mod block_size)) entry.(CacheEntry.data)))
        end, with_cache c d)) offset n) d.

(** [entry.data[within..].copy_from_slice(src); entry.dirty = true] *)
Definition overwrite (within : nat) (src : list Z) (entry : CacheEntry.t) : CacheEntry.t :=
  let data := entry.(CacheEntry.data) in
  CacheEntry.mk (take within data ++ src ++ drop (within + length src) data) true.

(** One round of [write_at]. *)
Definition write_block (abs : Z) (src : list Z) : st (t D C) DiskError unit := fun d =>
  let block_size := Z.of_nat d.(block_size) in
  let block_idx := abs / block_size in
  let within := Z.to_nat (abs mod block_size) in
  if (within =? 0)%nat && (length src =? d.(BlockCachedDisk.block_size))%nat then
    let '(hit, c) := lru_get_mut block_idx (overwrite 0 src) d.(cache) in
    let d := with_cache c d in
    match hit with
    | Some _ => (Ok tt, d)
    | None => insert_cache_entry block_idx (CacheEntry.mk src true) d
    end
  else
    (let! _ := ensure_block_cached block_idx in
     fun d =>
       let '(hit, c) := lru_get_mut block_idx (overwrite within src) d.(cache) in
       (match hit with
        | None => Err (Io "cache missing block after ensure_block_cached")
        | Some _ => Ok tt
        end, with_cache c d)) d.

Definition write_at (offset : Z) (buf : list Z) : st (t D C) DiskError unit := fun d =>
  (let! _ := st_of_result (checked_range offset (Z.of_nat (length buf)) (capacity_bytes d.(inner))) in
   write_blocks (length buf) (Z.of_nat d.(block_size)) write_block offset buf) d.

(** The body of the loops of [flush] and [discard_range].  The reference that
    [get_mut] returned is written after the call on the inner disk: a second
    access to the entry that is already the most recent. *)
Definition clean_block (msg : string) (key : Z) : st (t D C) DiskError unit := fun d =>
  match block_start d key with
  | Err e => (Err e, d)
  | Ok start =>
      if capacity_bytes d.(inner) <=? start then (Ok tt, d)
      else
        let max_len := max_len d start in
        let '(hit, c) := lru_get_mut key (fun e => e) d.(cache) in
        let d := with_cache c d in
        match hit with
        | None => (Err (Io msg), d)
        | Some entry =>
            if negb entry.(CacheEntry.dirty) then (Ok tt, d)
            else
              (let! _ := on_inner (Storage.write_at start (take max_len entry.(CacheEntry.data))) in
               st_modify (fun d => with_cache
                 (lru_get_mut key (fun e => CacheEntry.mk e.(CacheEntry.data) false) d.(cache)).2 d)) d
        end
  end.

Fixpoint clean_blocks (msg : string) (keys : list Z) : st (t D C) DiskError unit :=
  match keys with
  | [] => st_ret tt
  | key :: keys => let! _ := clean_block msg key in clean_blocks msg keys
  end.

Definition flush : st (t D C) DiskError unit := fun d =>
  (let! _ := clean_blocks "cache missing key during flush" (lru_keys d.(cache)) in
   on_inner Storage.flush) d.

Definition discard_range (offset len : Z) : st (t D C) DiskError unit := fun d =>
  match check_discard offset len (capacity_bytes d.(inner)) with
  | Err e => (Err e, d)
  | Ok _ =>
      if len =? 0 then (Ok tt, d)
      else
        let block_size := Z.of_nat d.(block_size) in
        let start_block := offset / block_size in
        let end_block := (offset + len - 1) / block_size in
        let keys := List.filter (fun k => (start_block <=? k) && (k <=? end_block)) (lru_keys d.(cache)) in
        (let! _ := clean_blocks "cache missing block during discard_range" keys in
         let! _ := on_inner (Storage.discard_range offset len) in
         st_modify (fun d => with_cache (fold_left (fun c key => lru_pop key c) keys d.(cache)) d)) d
  end.

#[global] Instance disk : VirtualDisk (t D C) := {|
  capacity_bytes := fun d => capacity_bytes d.(inner);
  Storage.read_at := read_at;
  Storage.write_at := write_at;
  Storage.flush := flush;
  Storage.discard_range := discard_range;
|}.
End Ops.
End BlockCachedDisk.
