(* ===== verification/StorageFacts.v ===== *)
(** * Facts on backends, raw disks and the loop over blocks *)

From S2P Require Import Prelude Bytes GuestMem Storage.

(** ** Checked arithmetic *)
Lemma checked_add_ok w x y : x + y < 2 ^ w -> checked_add w x y = Some (x + y).
Proof. intros Hx. unfold checked_add. by rewrite (proj2 (Z.ltb_lt _ _) Hx). Qed.

Lemma checked_mul_ok w x y : x * y < 2 ^ w -> checked_mul w x y = Some (x * y).
Proof. intros Hx. unfold checked_mul. by rewrite (proj2 (Z.ltb_lt _ _) Hx). Qed.

Lemma try_usize_ok `{Target} x : x < 2 ^ 32 -> try_usize x = Some (Z.to_nat x).
Proof.
  intros Hx. pose proof usize_max_ge. unfold try_usize. by rewrite (proj2 (Z.leb_le _ _)) by lia.
Qed.

Lemma checked_range_ok off len cap : off + len <= cap -> cap < 2 ^ 64 -> checked_range off len cap = Ok tt.
Proof.
  intros Ho Hc. unfold checked_range. rewrite checked_add_ok by lia. cbn [ok_or result_bind].
  unfold ensure. by rewrite (proj2 (Z.leb_le _ _) Ho).
Qed.

Lemma checked_range_out off len cap : cap < off + len -> exists e, checked_range off len cap = Err e.
Proof.
  intros Ho. unfold checked_range, checked_add. case_if; cbn [ok_or result_bind]; [|by eexists].
  unfold ensure. rewrite (proj2 (Z.leb_gt _ _) Ho). by eexists.
Qed.

Lemma check_discard_ok `{Target} off len cap :
  0 <= len -> off + len <= cap -> cap < 2 ^ 64 -> check_discard off len cap = Ok tt.
Proof.
  intros Hl Ho Hc. unfold check_discard. case_if.
  - apply Z.eqb_eq in Heqb. unfold ensure. by rewrite (proj2 (Z.leb_le off cap)) by lia.
  - rewrite checked_add_ok by lia. cbn [ok_or result_bind]. unfold ensure. by rewrite (proj2 (Z.leb_le _ _) Ho).
Qed.

Lemma check_discard_out `{Target} off len cap :
  0 <= len -> cap < off + len -> exists e, check_discard off len cap = Err e.
Proof.
  intros Hl Ho. unfold check_discard. destruct (Z.eqb_spec len 0) as [->|Hne].
  - unfold ensure. rewrite (proj2 (Z.leb_gt off cap)) by lia. by eexists.
  - unfold checked_add. case_if; cbn [ok_or result_bind]; [|by eexists].
    unfold ensure. rewrite (proj2 (Z.leb_gt _ _) Ho). by eexists.
Qed.

(** ** Arrays after a write *)
Lemma splice_nil f p a : splice f p [] a = f a.
Proof. unfold splice. simpl. case_if; [|done]. bool_hyps. lia. Qed.

Lemma splice_in f p src a :
  p <= a < p + Z.of_nat (length src) -> src !! Z.to_nat (a - p) = Some (splice f p src a).
Proof.
  intros Ha. unfold splice. rewrite (proj2 (Z.leb_le p a)), (proj2 (Z.ltb_lt a _)) by lia. cbn [andb].
  destruct (src !! Z.to_nat (a - p)) eqn:E; [done|]. apply lookup_ge_None in E. lia.
Qed.

Lemma splice_span_self f p n a : splice f p (span f p n) a = f a.
Proof.
  destruct (decide (p <= a < p + Z.of_nat n)) as [Ha|Ha].
  - pose proof (splice_in f p (span f p n) a ltac:(rewrite span_length; lia)) as Hs.
    rewrite span_lookup in Hs by lia. injection Hs as <-. f_equal. lia.
  - rewrite splice_other; [done|]. rewrite span_length. lia.
Qed.

Lemma splice_byte_ok f p src a : Forall byte_ok src -> byte_ok (f a) -> byte_ok (splice f p src a).
Proof.
  intros Hs Hf. destruct (decide (p <= a < p + Z.of_nat (length src))) as [Ha|Ha].
  - exact (Forall_lookup_1 _ _ _ _ Hs (splice_in f p src a Ha)).
  - by rewrite splice_other by lia.
Qed.

(** ** The block of an address *)
Lemma block_of bs k a : 0 < bs -> a / bs = k <-> k * bs <= a < k * bs + bs.
Proof.
  intros Hbs. pose proof (Z.div_mod a bs ltac:(lia)). pose proof (Z.mod_pos_bound a bs Hbs). split.
  - intros <-. lia.
  - intros Ha. symmetry. apply (Z.div_unique_pos _ _ _ (a - k * bs)); lia.
Qed.

Lemma block_mod bs k a : 0 < bs -> a / bs = k -> a mod bs = a - k * bs.
Proof. intros Hbs <-. rewrite Z.mod_eq by lia. lia. Qed.

Lemma same_block bs abs i : 0 < bs -> 0 <= i -> abs mod bs + i < bs -> (abs + i) / bs = abs / bs.
Proof.
  intros Hbs Hi Hm. apply block_of; [done|]. pose proof (Z.div_mod abs bs ltac:(lia)).
  pose proof (Z.mod_pos_bound abs bs Hbs). lia.
Qed.

Lemma span_shift (f g : Z -> Z) a b n :
  (forall i, 0 <= i < Z.of_nat n -> f (a + i) = g (b + i)) -> span f a n = span g b n.
Proof. intros Hfg. apply map_ext_in. intros k [_ Hk]%in_seq. apply Hfg. lia. Qed.

(** ** The loop over blocks *)
Section Blocks.
Context {S : Type} (bs : Z) (Hbs : 0 < bs).

Lemma block_part_bounds abs n :
  (0 < n)%nat ->
  (0 < chunk_len bs abs n <= n)%nat /\ abs mod bs + Z.of_nat (chunk_len bs abs n) <= bs.
Proof.
  intros Hn. unfold chunk_len. pose proof (Z.mod_pos_bound abs bs Hbs). lia.
Qed.

(** A read cut into blocks. *)
Lemma read_blocks_ok (P : S -> Prop) (F : DiskError -> Prop) (f : Z -> Z) (body : Z -> nat -> st S DiskError (list Z))
    fuel abs n s :
  (forall s abs' m, P s -> abs <= abs' -> abs' + Z.of_nat m <= abs + Z.of_nat n -> (0 < m)%nat ->
     abs' mod bs + Z.of_nat m <= bs ->
     let '(r, s') := body abs' m s in
     P s' /\ (r = Ok (span f abs' m) \/ exists e, r = Err e /\ F e)) ->
  (n <= fuel)%nat -> P s ->
  let '(r, s') := read_blocks fuel bs body abs n s in
  P s' /\ (r = Ok (span f abs n) \/ exists e, r = Err e /\ F e).
Proof.
  revert abs n s. induction fuel as [|fuel IH]; intros abs n s Hb Hf Hs; cbn [read_blocks].
  { destruct n; [|lia]. split; [done|]. by left. }
  destruct (Nat.eqb_spec n 0) as [->|Hn]; [split; [done|by left]|].
  pose proof (block_part_bounds abs n ltac:(lia)) as [Hc1 Hc2]. set (m := chunk_len bs abs n) in *.
  pose proof (Hb s abs m Hs ltac:(lia) ltac:(lia) ltac:(lia) Hc2) as Hbody.
  unfold st_bind at 1. destruct (body abs m s) as [r1 s1]. destruct Hbody as [Hs1 [-> | (e & -> & He)]].
  2:{ split; [done|]. right. by exists e. }
  specialize (IH (abs + Z.of_nat m) (n - m)%nat s1). unfold st_bind.
  destruct (read_blocks fuel bs body (abs + Z.of_nat m) (n - m) s1) as [r2 s2].
  destruct IH as [Hs2 [-> | (e & -> & He)]].
  { intros s' abs' m' ?????. apply Hb; try done; lia. }
  { lia. }
  { done. }
  - split; [done|]. left. unfold st_ret. f_equal. rewrite <- span_app. f_equal. lia.
  - split; [done|]. right. by exists e.
Qed.

(** A write cut into blocks, on the bytes in [R]. *)
Lemma write_blocks_ok (P : S -> Prop) (F : DiskError -> Prop) (R : Z -> Prop) (c : S -> Z -> Z)
    (body : Z -> list Z -> st S DiskError unit) fuel abs src s :
  (forall s abs' part, P s -> Forall byte_ok part -> abs <= abs' ->
     abs' + Z.of_nat (length part) <= abs + Z.of_nat (length src) -> (0 < length part)%nat ->
     abs' mod bs + Z.of_nat (length part) <= bs ->
     let '(r, s') := body abs' part s in
     P s' /\ exists k, (forall a, R a -> c s' a = splice (c s) abs' (take k part) a) /\
       (r = Ok tt /\ k = length part \/ exists e, r = Err e /\ F e)) ->
  (length src <= fuel)%nat -> Forall byte_ok src -> P s ->
  let '(r, s') := write_blocks fuel bs body abs src s in
  P s' /\ exists k, (forall a, R a -> c s' a = splice (c s) abs (take k src) a) /\
    (r = Ok tt /\ k = length src \/ exists e, r = Err e /\ F e).
Proof.
  revert abs src s. induction fuel as [|fuel IH]; intros abs src s Hb Hf Hok Hs; cbn [write_blocks].
  { destruct src; [|simpl in Hf; lia]. split; [done|]. exists 0%nat. split; [|by left].
    intros a _. by rewrite splice_nil. }
  destruct src as [|x src'] eqn:Esrc.
  { split; [done|]. exists 0%nat. split; [|by left]. intros a _. by rewrite splice_nil. }
  rewrite <- Esrc in *. assert (0 < length src)%nat as Hn by (rewrite Esrc; simpl; lia). clear x src' Esrc.
  pose proof (block_part_bounds abs (length src) Hn) as [Hc1 Hc2]. set (m := chunk_len bs abs (length src)) in *.
  assert (length (take m src) = m) as Hm by (rewrite length_take; lia).
  pose proof (Hb s abs (take m src) Hs) as Hbody. rewrite Hm in Hbody.
  unfold st_bind. destruct (body abs (take m src) s) as [r1 s1].
  destruct Hbody as [Hs1 (k & Hk & Hr)]; [by apply Forall_take|lia..|].
  destruct Hr as [[-> ->] | (e & -> & He)].
  2:{ split; [done|]. exists (Nat.min k m). split; [|right; by exists e]. intros a Ha. rewrite Hk by done.
      by rewrite take_take. }
  specialize (IH (abs + Z.of_nat m) (drop m src) s1). rewrite length_drop in IH.
  destruct (write_blocks fuel bs body (abs + Z.of_nat m) (drop m src) s1) as [r2 s2].
  destruct IH as [Hs2 (k & Hk2 & Hr)].
  { intros s' abs' part ??????. apply Hb; try done; lia. }
  { lia. }
  { by apply Forall_drop. }
  { done. }
  split; [done|]. exists (m + k)%nat. split.
  - intros a Ha. rewrite Hk2 by done. rewrite <- (take_drop m (take (m + k) src)).
    rewrite take_take, Nat.min_l by lia. rewrite <- splice_app, Hm, skipn_firstn_comm.
    replace (m + k - m)%nat with k by lia. apply splice_ext. rewrite Hk by done.
    by rewrite (take_ge (take m src)) by lia.
  - destruct Hr as [[-> ->]|?]; [left; split; [done|lia]|by right].
Qed.
End Blocks.

(** ** The in-memory backend keeps the contract *)
Module MemFacts.
Import MemBackend.
Section Mem.
Context `{Target}.

#[global] Instance mem_view : BackendView t := {|
  be_ok b := Forall byte_ok b.(data) /\ Z.of_nat (length b.(data)) <= usize_max;
  be_size b := Z.of_nat (length b.(data));
  be_byte b a := default 0 (b.(data) !! Z.to_nat a);
  be_limit := usize_max;
|}.

Lemma try_usize_in x : x <= usize_max -> try_usize x = Some (Z.to_nat x).
Proof. intros Hx. unfold try_usize. by rewrite (proj2 (Z.leb_le _ _) Hx). Qed.

Lemma byte_default (l : list Z) i : Forall byte_ok l -> byte_ok (default 0 (l !! i)).
Proof.
  intros Hl. destruct (l !! i) eqn:E; [exact (Forall_lookup_1 _ _ _ _ Hl E)|]. by unfold byte_ok, uint; simpl; lia.
Qed.

Lemma resize_byte n (l : list Z) i :
  default 0 (resize n 0 l !! i) = if (i <? n)%nat then default 0 (l !! i) else 0.
Proof.
  destruct (Nat.ltb_spec i n); [by rewrite resize_lookup|].
  by rewrite lookup_ge_None_2 by (rewrite length_resize; lia).
Qed.

Lemma resize_ok n (l : list Z) : Forall byte_ok l -> Forall byte_ok (resize n 0 l).
Proof.
  intros Hl. unfold resize. apply Forall_app. split; [by apply Forall_take|]. by apply Forall_replicate.
Qed.

(** The store after a write within its size. *)
Lemma patch_byte (l src : list Z) off i :
  (off + length src <= length l)%nat ->
  default 0 ((take off l ++ src ++ drop (off + length src) l) !! i) =
  splice (fun a => default 0 (l !! Z.to_nat a)) (Z.of_nat off) src (Z.of_nat i).
Proof.
  intros Hl. destruct (decide (i < off)%nat) as [Hi|Hi].
  { rewrite splice_other by lia. rewrite lookup_app_l by (rewrite length_take; lia).
    by rewrite lookup_take_lt, Nat2Z.id by lia. }
  rewrite lookup_app_r by (rewrite length_take; lia). rewrite length_take, Nat.min_l by lia.
  destruct (decide (i < off + length src)%nat) as [Hi2|Hi2].
  - rewrite lookup_app_l by lia. pose proof (splice_in (fun a => default 0 (l !! Z.to_nat a)) (Z.of_nat off) src
      (Z.of_nat i) ltac:(lia)) as Hs. replace (Z.to_nat (Z.of_nat i - Z.of_nat off)) with (i - off)%nat in Hs by lia.
    by rewrite Hs.
  - rewrite splice_other, lookup_app_r, lookup_drop, Nat2Z.id by lia. do 2 f_equal. lia.
Qed.

#[global] Instance mem_spec : BackendSpec t.
Proof.
  pose proof DenseMemory.usize_max_bound as [Hu Hu']. split; simpl.
  - lia.
  - intros b [_ Hl]. lia.
  - intros b a [Hb _]. by apply byte_default.
  - intros b a _ Ha. rewrite lookup_ge_None_2; [done|lia].
  - done.
  - intros b n [Hb Hl] Hn. unfold set_len. rewrite try_usize_in by lia. eexists. split; [done|]. simpl.
    rewrite length_resize. split; [split; [by apply resize_ok|lia]|]. split; [lia|]. intros a Ha.
    rewrite resize_byte. destruct (Nat.ltb_spec (Z.to_nat a) (Z.to_nat n)), (Z.ltb_spec a n); (done || lia).
  - intros b off n [Hb Hl] Ho Hn. unfold uint in Ho. unfold read_at.
    rewrite try_usize_in by lia. rewrite try_usize_in by lia.
    destruct (Nat.ltb_spec (length (data b)) (Z.to_nat (Z.of_nat (Z.to_nat off + n)))); [lia|]. f_equal. f_equal.
    rewrite (span_take_drop _ 0) by lia. f_equal. lia.
  - intros b off n [Hb Hl] Ho Hn. unfold read_at. destruct (try_usize off) as [o|] eqn:Eo; [|by eexists].
    destruct (try_usize (Z.of_nat (o + n))) as [e|] eqn:Ee; [|by eexists].
    unfold try_usize in Eo, Ee. case_if_in Eo; [|done]. case_if_in Ee; [|done]. simplify_eq. unfold uint in Ho.
    destruct (Nat.ltb_spec (length (data b)) (Z.to_nat (Z.of_nat (Z.to_nat off + n)))); [by eexists|lia].
  - intros b off src [Hb Hl] Ho Hs Hn. unfold uint in Ho. unfold write_at.
    rewrite try_usize_in by lia. rewrite try_usize_in by lia. rewrite Nat2Z.id.
    set (e := (Z.to_nat off + length src)%nat).
    assert (exists b1, (if (length (data b) <? e)%nat then set_len (Z.of_nat e) b else (Ok tt, b)) = (Ok tt, b1) /\
      Forall byte_ok (data b1) /\ length (data b1) = Nat.max (length (data b)) e /\
      forall i, default 0 (data b1 !! i) = default 0 (data b !! i)) as (b1 & -> & Hb1 & Hl1 & Hd).
    { destruct (Nat.ltb_spec (length (data b)) e); [|exists b; split_and!; try done; lia].
      unfold set_len. rewrite try_usize_in, Nat2Z.id by lia. eexists. split; [done|]. simpl. rewrite length_resize.
      split_and!; [by apply resize_ok|lia|]. intros i. rewrite resize_byte. destruct (Nat.ltb_spec i e); [done|].
      by rewrite lookup_ge_None_2 by lia. }
    eexists. split; [done|]. simpl. rewrite !length_app, length_take, length_drop.
    split; [split; [|lia]|split; [lia|]].
    { apply Forall_app. split; [by apply Forall_take|]. apply Forall_app. split; [done|by apply Forall_drop]. }
    intros a Ha. rewrite patch_byte by lia. rewrite !Z2Nat.id by lia. apply splice_ext. apply Hd.
  - done.
Qed.
End Mem.
End MemFacts.

(** ** The raw disk keeps the contract *)
Module RawFacts.
Section Raw.
Context `{Target} `{BackendSpec B}.

#[global] Instance raw_view : DiskView (RawDisk.t B) := {|
  vd_ok d := be_ok d.(RawDisk.backend) /\ 0 <= d.(RawDisk.capacity) <= be_size d.(RawDisk.backend);
  vd_byte d := be_byte d.(RawDisk.backend);
  vd_fault _ := False;
|}.

#[global] Instance raw_reliable : ReliableDisk (RawDisk.t B).
Proof. split. by intros e []. Qed.

#[global] Instance raw_spec : DiskSpec (RawDisk.t B).
Proof.
  assert (forall d, vd_ok d -> uint 64 (capacity_bytes d)) as Hcap.
  { intros d [Hb Hc]. pose proof (be_size_ok _ Hb). pose proof be_limit_ok. simpl. unfold uint. lia. }
  split; [exact Hcap|..]; intros d.
  - intros a [Hb _]. by apply be_byte_ok.
  - intros off n [Hb Hc] (Ho & _ & Hn). pose proof (Hcap d (conj Hb Hc)) as Hu. simpl in *. unfold uint in Hu.
    erewrite st_bind_ok; [|unfold st_of_result; by rewrite checked_range_ok by lia].
    erewrite zoom_eq; [|apply be_read; [done|unfold uint; lia|lia]]. by split; [|left].
  - intros off n [Hb Hc] Ho Hn. simpl in *. destruct (checked_range_out _ _ _ Hn) as [e He]. exists e.
    unfold st_bind, st_of_result. by rewrite He.
  - intros off src [Hb Hc] Hs (Ho & _ & Hn). pose proof (Hcap d (conj Hb Hc)) as Hu. simpl in *. unfold uint in Hu.
    pose proof (be_size_ok _ Hb) as Hz.
    erewrite st_bind_ok; [|unfold st_of_result; by rewrite checked_range_ok by lia].
    destruct (be_write d.(RawDisk.backend) off src Hb) as (b' & Hw & Hb' & Hsz & Hby); [unfold uint; lia|done|lia|].
    erewrite zoom_eq; [|exact Hw]. exists (length src). rewrite firstn_all. split; [|by left].
    unfold holds. simpl. split_and!; [done|lia|lia|done|]. intros a Ha. apply Hby. lia.
  - intros off src [Hb Hc] Ho Hn. simpl in *. destruct (checked_range_out _ _ _ Hn) as [e He]. exists e.
    unfold st_bind, st_of_result. by rewrite He.
  - intros [Hb Hc]. simpl. erewrite zoom_eq; [|by apply be_flush]. by split; [|left].
  - intros off len [Hb Hc] (Ho & Hl & Hn). pose proof (Hcap d (conj Hb Hc)) as Hu. simpl in *. unfold uint in Hu.
    rewrite check_discard_ok by lia. left. by split_and!; try done; lia.
  - intros off len _ _ Hl Hn. simpl in *. destruct (check_discard_out _ _ _ Hl Hn) as [e He]. exists e. by rewrite He.
Qed.
End Raw.
End RawFacts.

(** ** Disks that are only read *)
#[export] Instance reliable_base `{DiskSpec D} `{!ReliableDisk D} : BaseSpec D.
Proof.
  assert (forall A (r : result A DiskError) (P : Prop), P \/ faulty r -> P) as Hok.
  { intros A r P [?|Hf]; [done|]. destruct r as [|e]; [done|]. by apply vd_reliable in Hf. }
  split; [apply vd_capacity|apply vd_byte_ok|..].
  - intros d off n Hd Hin. pose proof (vd_read d off n Hd Hin) as Hr. destruct (read_at off n d) as [r d'].
    destruct Hr as [Hs Hr%Hok]. exists d'. by rewrite Hr.
  - intros d Hd. pose proof (vd_flush d Hd) as Hr. destruct (flush d) as [r d']. destruct Hr as [Hs Hr%Hok]. exists d'. by rewrite Hr.
Qed.

(** A read-only disk can be a base, and no request changes the disk behind it. *)
Module ReadOnlyFacts.
Import ReadOnlyDisk.
Section ReadOnly.
Context `{Target} `{BaseSpec D}.

#[global] Instance readonly_view : DiskView (t D) := {|
  vd_ok d := vd_ok d.(inner);
  vd_byte d := vd_byte d.(inner);
  vd_fault := vd_fault (D := D);
|}.

#[global] Instance readonly_base : BaseSpec (t D).
Proof.
  split; intros d; simpl.
  - apply bd_capacity.
  - intros a. apply bd_byte_ok.
  - intros off n Hd Hin. destruct (bd_read d.(inner) off n Hd Hin) as (x & E & Hh). exists (new x). split; [|done].
    by apply zoom_eq with (x := x).
  - intros Hd. by exists d.
Qed.
End ReadOnly.
End ReadOnlyFacts.
