(* ===== verification/CacheFacts.v ===== *)
(** * The block cache over any disk *)

From S2P Require Import Prelude Bytes GuestMem Storage StorageFacts BlockCache.
Import BlockCachedDisk.

Section Cache.
Context `{Target} `{DiskSpec D} `{LruSpec CacheEntry.t C}.
Implicit Types (x : D) (m : gmap Z CacheEntry.t) (d : t D C).

(** ** Blocks *)
(** The byte of a cached block at address [a]. *)
Definition entry_byte (bs : Z) (e : CacheEntry.t) (a : Z) : Z := default 0 (e.(CacheEntry.data) !! Z.to_nat (a mod bs)).

(** What is read at [a] through the cached blocks [m]. *)
Definition content (bs : Z) m x (a : Z) : Z :=
  match m !! (a / bs) with Some e => entry_byte bs e a | None => vd_byte x a end.

Record entry_ok (bs : Z) x (k : Z) (e : CacheEntry.t) : Prop := {
  en_block : 0 <= k /\ k * bs < capacity_bytes x;
  en_length : Z.of_nat (length e.(CacheEntry.data)) = bs;
  en_bytes : Forall byte_ok e.(CacheEntry.data);
  en_clean : e.(CacheEntry.dirty) = false ->
    forall a, 0 <= a < capacity_bytes x -> a / bs = k -> vd_byte x a = entry_byte bs e a;
}.
Record core_ok (bs : Z) m x : Prop := {
  co_disk : vd_ok x;
  co_entries : forall k e, m !! k = Some e -> entry_ok bs x k e;
}.

(** A disk that agrees on the blocks of the clean entries. *)
Lemma core_ok_moved bs m x x' :
  core_ok bs m x -> vd_ok x' -> capacity_bytes x' = capacity_bytes x ->
  (forall k e a, m !! k = Some e -> e.(CacheEntry.dirty) = false -> a / bs = k -> 0 <= a < capacity_bytes x ->
     vd_byte x' a = vd_byte x a) ->
  core_ok bs m x'.
Proof.
  intros [Hx Hm] Hx' Hc Hb. split; [done|]. intros k e Hk. destruct (Hm k e Hk) as [J1 J2 J3 J4].
  split; rewrite ?Hc; try done. intros Hd a Ha Hak. rewrite (Hb k e) by done. by apply J4.
Qed.

(** Writing a dirty block back. *)
Lemma write_back_ok bs m x k e :
  0 < bs -> core_ok bs m x -> m !! k = Some e -> e.(CacheEntry.dirty) = true ->
  let ml := Z.to_nat (Z.min (capacity_bytes x - k * bs) bs) in
  let '(r, x') := Storage.write_at (k * bs) (take ml e.(CacheEntry.data)) x in
  core_ok bs m x' /\ capacity_bytes x' = capacity_bytes x /\
  (forall a, 0 <= a < capacity_bytes x -> content bs m x' a = content bs m x a) /\
  (r = Ok tt /\ (forall a, 0 <= a < capacity_bytes x -> a / bs = k -> vd_byte x' a = entry_byte bs e a) \/ faulty r).
Proof.
  intros Hbs Hco Hk Hd ml. pose proof Hco as [Hx Hm]. destruct (Hm k e Hk) as [[Hk0 Hkc] Hlen Hby _].
  assert (length (take ml e.(CacheEntry.data)) = ml) as Hml by (rewrite length_take; lia).
  pose proof (vd_write x (k * bs) (take ml e.(CacheEntry.data)) Hx) as Hw. rewrite Hml in Hw.
  destruct (Storage.write_at _ _ x) as [r x'].
  destruct Hw as (n & (Hx' & Hc & Hbyte) & Hr); [by apply Forall_take|split; lia|].
  assert (forall a, 0 <= a < capacity_bytes x -> a / bs <> k -> vd_byte x' a = vd_byte x a) as Hother.
  { intros a Ha Hne. rewrite Hbyte by done. apply splice_other. rewrite length_take, Hml. intros Hin. apply Hne.
    apply block_of; lia. }
  split; [|split; [done|split]].
  - apply (core_ok_moved bs m x); try done. intros k' e' a Hk' Hd' Ha Hac. apply Hother; [done|].
    intros Heq. rewrite Heq in Ha. subst k'. rewrite Hk in Hk'. congruence.
  - intros a Ha. unfold content. destruct (m !! (a / bs)) eqn:Ea; [done|]. apply Hother; [done|]. intros Heq. congruence.
  - destruct Hr as [[-> ->]|Hr]; [|by right]. left. split; [done|]. intros a Ha Hak. rewrite Hbyte by done.
    rewrite take_take, Nat.min_id. apply block_of in Hak as Hb; [|done].
    pose proof (splice_in (vd_byte x) (k * bs) (take ml (CacheEntry.data e)) a ltac:(rewrite Hml; lia)) as Hs.
    unfold entry_byte. rewrite (block_mod bs k) by done. rewrite lookup_take_lt in Hs by lia. by rewrite Hs.
Qed.

(** ** The invariant *)
Record cache_ok d : Prop := {
  ca_block_size : (0 < d.(block_size))%nat;
  ca_max : (0 < d.(max_cached_blocks))%nat;
  ca_lru : lru_ok d.(cache);
  ca_cap : lru_cap d.(cache) = d.(max_cached_blocks);
  ca_size : (base.size (lru_map d.(cache)) <= d.(max_cached_blocks))%nat;
  ca_core : core_ok (Z.of_nat d.(block_size)) (lru_map d.(cache)) d.(inner);
}.

#[global] Instance cached_view : DiskView (t D C) := {|
  vd_ok := cache_ok;
  vd_byte d := content (Z.of_nat d.(block_size)) (lru_map d.(cache)) d.(inner);
  vd_fault := vd_fault (D := D);
|}.

(** The step from one state of the cache to another with the same bytes. *)
Record step d d' : Prop := {
  sp_ok : cache_ok d';
  sp_capacity : capacity_bytes d'.(inner) = capacity_bytes d.(inner);
  sp_bs : d'.(block_size) = d.(block_size);
  sp_bytes a : 0 <= a < capacity_bytes d.(inner) -> vd_byte d' a = vd_byte d a;
}.

Lemma step_refl d : cache_ok d -> step d d.
Proof. by split. Qed.

Lemma step_trans d1 d2 d3 : step d1 d2 -> step d2 d3 -> step d1 d3.
Proof.
  intros [J1 J2 J3 J4] [K1 K2 K3 K4]. split; try congruence. intros a Ha. rewrite K4 by congruence. by apply J4.
Qed.

(** A change of the map of cached blocks and of the disk behind them. *)
Lemma step_core d x c :
  cache_ok d -> lru_ok c -> lru_cap c = lru_cap d.(cache) ->
  (base.size (lru_map c) <= base.size (lru_map d.(cache)))%nat ->
  core_ok (Z.of_nat d.(block_size)) (lru_map c) x -> capacity_bytes x = capacity_bytes d.(inner) ->
  (forall a, 0 <= a < capacity_bytes d.(inner) ->
     content (Z.of_nat d.(block_size)) (lru_map c) x a = vd_byte d a) ->
  step d (with_inner x (with_cache c d)).
Proof.
  intros [? ? ? ? ?] Hl Hcap Hs Hco Hc Hb. split; [split; simpl; try done; try lia|done..].
Qed.

Lemma get_same d k :
  cache_ok d -> let '(hit, c) := lru_get_mut k (fun e => e) d.(cache) in
  hit = lru_map d.(cache) !! k /\ step d (with_cache c d) /\ lru_map c = lru_map d.(cache).
Proof.
  intros Hd. destruct (lru_get_mut_ok d.(cache) k (fun e => e) (ca_lru _ Hd)) as (J1 & J2 & J3 & J4).
  destruct (lru_get_mut k (fun e => e) d.(cache)) as [hit c]. simpl in *.
  assert (lru_map c = lru_map d.(cache)) as Hm by (rewrite J4; apply alter_id; done).
  split; [done|]. split; [|done]. pose proof Hd as [? ? ? ? ? Hco].
  apply (step_core d d.(inner) c); rewrite ?Hm; done.
Qed.

(** Dropping a block whose bytes are on the disk. *)
Lemma content_delete bs m x k e :
  m !! k = Some e -> (forall a, 0 <= a < capacity_bytes x -> a / bs = k -> vd_byte x a = entry_byte bs e a) ->
  forall a, 0 <= a < capacity_bytes x -> content bs (delete k m) x a = content bs m x a.
Proof.
  intros Hk Hb a Ha. unfold content. destruct (decide (a / bs = k)) as [<-|Hne].
  - rewrite lookup_delete_eq, Hk. by apply Hb.
  - by rewrite lookup_delete_ne.
Qed.

Lemma core_ok_delete bs m x k : core_ok bs m x -> core_ok bs (delete k m) x.
Proof. intros [Hx Hm]. split; [done|]. intros k' e [_ Hk]%lookup_delete_Some. by apply Hm. Qed.

Lemma core_ok_insert bs m x k e : core_ok bs m x -> entry_ok bs x k e -> core_ok bs (<[k := e]> m) x.
Proof. intros [Hx Hm] He. split; [done|]. intros k' e' [[<- <-]|[_ ?]]%lookup_insert_Some; auto. Qed.

Lemma size_delete_lt m k e : m !! k = Some e -> (base.size (delete k m) < base.size m)%nat.
Proof.
  intros Hk. rewrite map_size_delete, Hk. assert (base.size m <> 0%nat); [|lia].
  intros Hz%map_size_empty_inv. by rewrite Hz in Hk.
Qed.

(** One eviction. *)
Lemma evict_ok d k e c :
  cache_ok d -> lru_map d.(cache) !! k = Some e -> lru_ok c -> lru_cap c = lru_cap d.(cache) ->
  lru_map c = delete k (lru_map d.(cache)) ->
  let '(r, d') := write_back_block k e (with_cache c d) in
  d'.(max_cached_blocks) = d.(max_cached_blocks) /\ d'.(cache) = c /\
  (r = Ok tt /\ step d d' \/ faulty r /\ step d (with_cache (lru_put k e c) d')).
Proof.
  intros Hd Hk Hc Hcap Hmap. pose proof Hd as [Hbs _ _ Hlc Hsz Hco]. pose proof (co_entries _ _ _ Hco k e Hk) as He.
  assert (base.size (lru_map c) < base.size (lru_map d.(cache)))%nat as Hlt.
  { rewrite Hmap. by apply (size_delete_lt _ _ e). }
  assert (forall x, core_ok (Z.of_nat d.(block_size)) (lru_map d.(cache)) x ->
    capacity_bytes x = capacity_bytes d.(inner) ->
    (forall a, 0 <= a < capacity_bytes d.(inner) ->
       content (Z.of_nat d.(block_size)) (lru_map d.(cache)) x a = vd_byte d a) ->
    (forall a, 0 <= a < capacity_bytes x -> a / Z.of_nat d.(block_size) = k ->
       vd_byte x a = entry_byte (Z.of_nat d.(block_size)) e a) ->
    step d (with_inner x (with_cache c d))) as Hdrop.
  { intros x Hx Hcx Hb Hon. apply step_core; try done; [lia|..].
    - rewrite Hmap. by apply core_ok_delete.
    - intros a Ha. rewrite Hmap, (content_delete _ _ _ _ e) by (done || lia). by apply Hb. }
  unfold write_back_block. destruct (CacheEntry.dirty e) eqn:Hdirty; cbn [negb].
  2:{ split; [done|]. split; [done|]. left. split; [done|]. apply (Hdrop d.(inner)); try done.
      intros a Ha Hak. by apply (en_clean _ _ _ _ He). }
  unfold block_start. simpl. destruct (en_block _ _ _ _ He) as [Hk0 Hkc].
  pose proof (vd_capacity _ (co_disk _ _ _ Hco)) as Hu. unfold uint in Hu.
  rewrite checked_mul_ok by lia. cbn [ok_or]. rewrite (proj2 (Z.leb_gt _ _)) by lia.
  pose proof (write_back_ok (Z.of_nat (block_size d)) _ _ _ _ ltac:(lia) Hco Hk Hdirty) as Hw. simpl in Hw. unfold on_inner, zoom, max_len.
  cbn [inner with_cache block_size]. destruct (Storage.write_at _ _ d.(inner)) as [r x']. simpl.
  destruct Hw as (Hco' & Hcx & Hb & Hr). split; [done|]. split; [done|]. destruct Hr as [[-> Hon]|Hr].
  - left. split; [done|]. apply Hdrop; try done. by rewrite Hcx.
  - right. split; [done|]. destruct (lru_put_ok c k e Hc ltac:(lia)) as (J1 & J2 & J3).
    assert (lru_map (lru_put k e c) = lru_map d.(cache)) as Hback by (by rewrite J3, Hmap, insert_delete_id).
    apply (step_core d x' (lru_put k e c)); rewrite ?Hback; try done. congruence.
Qed.

Lemma ensure_space_ok fuel d :
  cache_ok d -> (base.size (lru_map d.(cache)) <= fuel)%nat ->
  let '(r, d') := ensure_space_for_block fuel d in
  step d d' /\ d'.(max_cached_blocks) = d.(max_cached_blocks) /\
  (forall k, lru_map d.(cache) !! k = None -> lru_map d'.(cache) !! k = None) /\
  (r = Ok tt /\ (base.size (lru_map d'.(cache)) < d'.(max_cached_blocks))%nat \/ faulty r).
Proof.
  revert d. induction fuel as [|fuel IH]; intros d Hd Hf; cbn [ensure_space_for_block].
  { split; [by apply step_refl|]. split_and!; try done. left. split; [done|]. pose proof (ca_max _ Hd). lia. }
  rewrite lru_len_ok by apply Hd. destruct (Nat.ltb_spec (base.size (lru_map d.(cache))) d.(max_cached_blocks)) as [Hlt|Hge].
  { split; [by apply step_refl|]. split_and!; try done. by left. }
  destruct (lru_pop_lru_ok d.(cache) (ca_lru _ Hd)) as (J1 & J2 & J3).
  destruct (lru_pop_lru d.(cache)) as [[[k e]|] c]; simpl in *.
  2:{ exfalso. rewrite J3, map_size_empty in Hge. pose proof (ca_max _ Hd). lia. }
  destruct J3 as [Hk Hmap]. pose proof (evict_ok d k e c Hd Hk J1 J2 Hmap) as Hev.
  destruct (write_back_block k e (with_cache c d)) as [r d1]. destruct Hev as (Hmax & Hcc & [[-> Hst]|[Hr Hst]]).
  - assert (base.size (lru_map d1.(cache)) < base.size (lru_map d.(cache)))%nat as Hlt.
    { rewrite Hcc, Hmap. by apply (size_delete_lt _ _ e). }
    specialize (IH d1 (sp_ok _ _ Hst) ltac:(lia)). destruct (ensure_space_for_block fuel d1) as [r2 d2].
    destruct IH as (Hst2 & Hmax2 & Hnone & Hr). split; [by eapply step_trans|]. split; [congruence|]. split; [|done].
    intros k' Hk'. apply Hnone. rewrite Hcc, Hmap. by apply lookup_delete_None; right.
  - destruct r as [|err]; [done|]. rewrite Hcc. split; [done|]. split; [done|]. split; [|by right].
    intros k' Hk'. simpl. destruct (lru_put_ok c k e J1) as (_ & _ & ->).
    { rewrite Hmap. pose proof (size_delete_lt _ _ _ Hk). pose proof (ca_size _ Hd). pose proof (ca_cap _ Hd). lia. }
    rewrite lookup_insert_None, Hmap. split; [by apply lookup_delete_None; right|]. intros ->. congruence.
Qed.

(** An uncached block is read from the disk. *)
Lemma uncached_byte d k a :
  lru_map d.(cache) !! k = None -> a / Z.of_nat d.(block_size) = k -> vd_byte d a = vd_byte d.(inner) a.
Proof. intros Hk Ha. simpl. unfold content. by rewrite Ha, Hk. Qed.

Lemma insert_ok d k e :
  cache_ok d -> lru_map d.(cache) !! k = None -> entry_ok (Z.of_nat d.(block_size)) d.(inner) k e ->
  let '(r, d') := insert_cache_entry k e d in
  r = Ok tt /\ cache_ok d' /\ capacity_bytes d'.(inner) = capacity_bytes d.(inner) /\
    d'.(block_size) = d.(block_size) /\ lru_map d'.(cache) !! k = Some e /\
    (forall a, 0 <= a < capacity_bytes d.(inner) ->
       vd_byte d' a = if a / Z.of_nat d.(block_size) =? k then entry_byte (Z.of_nat d.(block_size)) e a else vd_byte d a) \/
  faulty r /\ step d d'.
Proof.
  intros Hd Hk He. unfold insert_cache_entry. rewrite lru_len_ok by apply Hd.
  pose proof (ensure_space_ok (base.size (lru_map d.(cache))) d Hd ltac:(lia)) as Hs. unfold st_bind.
  destruct (ensure_space_for_block _ d) as [r d1]. destruct Hs as (Hst & Hmax & Hnone & [[-> Hlt]|Hr]).
  2:{ destruct r as [|err]; [done|]. by right. }
  left. simpl. pose proof Hst as [Hd1 Hcap Hbs Hby]. pose proof Hd1 as [J1 J2 J3 J4 J5 J6].
  destruct (lru_put_ok d1.(cache) k e J3 ltac:(lia)) as (K1 & K2 & K3).
  assert (entry_ok (Z.of_nat d1.(block_size)) d1.(inner) k e) as He1.
  { destruct He as [E1 E2 E3 E4]. split; rewrite ?Hcap, ?Hbs; try done. intros Hdirty a Ha Hak.
    rewrite <- E4 by done. rewrite <- (uncached_byte d1 k), <- (uncached_byte d k); try done.
    - by apply Hby.
    - by apply Hnone.
    - by rewrite Hbs. }
  split; [done|]. split; [|split; [done|split; [done|split]]].
  - split; simpl; try done; try congruence.
    + rewrite K3, map_size_insert_None by (by apply Hnone). lia.
    + rewrite K3. by apply core_ok_insert.
  - rewrite K3. apply lookup_insert_eq.
  - intros a Ha. unfold content. rewrite K3, Hbs.
    destruct (Z.eqb_spec (a / Z.of_nat d.(block_size)) k) as [->|Hne].
    + by rewrite lookup_insert_eq.
    + rewrite lookup_insert_ne by done. pose proof (Hby a Ha) as Hq. simpl in Hq. unfold content in Hq.
      rewrite Hbs in Hq. exact Hq.
Qed.

(** A block as it is loaded. *)
Lemma loaded_ok bs x k :
  0 < bs -> vd_ok x -> 0 <= k -> k * bs < capacity_bytes x ->
  let ml := Z.to_nat (Z.min (capacity_bytes x - k * bs) bs) in
  entry_ok bs x k (CacheEntry.mk (span (vd_byte x) (k * bs) ml ++ replicate (Z.to_nat bs - ml) 0) false).
Proof.
  intros Hbs Hx Hk Hc ml. split; simpl.
  - done.
  - rewrite length_app, span_length, length_replicate. lia.
  - apply Forall_app. split; [apply Forall_span; intros a; by apply vd_byte_ok|by apply Forall_replicate].
  - intros _ a Ha Hak. apply block_of in Hak as Hb; [|done]. unfold entry_byte. simpl.
    rewrite (block_mod bs k) by done. rewrite lookup_app_l by (rewrite span_length; lia).
    rewrite span_lookup by lia. simpl. f_equal. lia.
Qed.

Lemma ensure_cached_ok d k :
  cache_ok d -> 0 <= k -> k * Z.of_nat d.(block_size) < capacity_bytes d.(inner) ->
  let '(r, d') := ensure_block_cached k d in
  step d d' /\ (r = Ok tt /\ is_Some (lru_map d'.(cache) !! k) \/ faulty r).
Proof.
  intros Hd Hk Hc. pose proof (get_same d k Hd) as Hg. unfold ensure_block_cached.
  destruct (lru_get_mut k (fun e => e) d.(cache)) as [hit c]. destruct Hg as (-> & Hst & Hm).
  destruct (lru_map d.(cache) !! k) as [e|] eqn:Ek.
  { split; [done|]. left. split; [done|]. simpl. rewrite Hm, Ek. by eexists. }
  set (d1 := with_cache c d) in *. pose proof (sp_ok _ _ Hst) as [Hb Hmx Hl Hlc Hsz Hco].
  pose proof (vd_capacity _ (co_disk _ _ _ Hco)) as Hu. unfold uint in Hu. simpl in Hu, Hco, Hb, Hl, Hlc, Hsz.
  unfold block_start. erewrite st_bind_ok; [|unfold st_of_result; simpl; by rewrite checked_mul_ok by lia].
  cbn [inner block_size with_cache d1]. rewrite (proj2 (Z.ltb_lt _ _) Hc). unfold st_bind, on_inner, zoom, max_len.
  cbn [inner block_size with_cache d1].
  pose proof (vd_read d.(inner) (k * Z.of_nat d.(block_size))
    (Z.to_nat (Z.min (capacity_bytes d.(inner) - k * Z.of_nat d.(block_size)) (Z.of_nat d.(block_size))))
    (co_disk _ _ _ Hco) ltac:(split; lia)) as Hrd.
  destruct (Storage.read_at _ _ d.(inner)) as [r x]. destruct Hrd as ((Hx & Hcx & Hbx) & Hr).
  assert (step d (with_inner x d1)) as Hst1.
  { apply (step_core d x c); rewrite ?Hm; try done; [by rewrite (ca_cap _ Hd)|..].
    - apply (core_ok_moved _ _ d.(inner)); try done; [apply Hd|]. intros k' e' a _ _ _ Ha. by apply Hbx.
    - intros a Ha. simpl. unfold content. case_match; [done|]. by apply Hbx. }
  destruct Hr as [-> |Hr]; [|destruct r as [|err]; [done|]; split; [done|by right]].
  cbn [st_ret]. rewrite span_length.
  pose proof (insert_ok (with_inner x d1) k (CacheEntry.mk
    (span (vd_byte d.(inner)) (k * Z.of_nat d.(block_size))
       (Z.to_nat (Z.min (capacity_bytes d.(inner) - k * Z.of_nat d.(block_size)) (Z.of_nat d.(block_size)))) ++
     replicate (d.(block_size) - Z.to_nat (Z.min (capacity_bytes d.(inner) - k * Z.of_nat d.(block_size))
       (Z.of_nat d.(block_size)))) 0) false) (sp_ok _ _ Hst1)) as Hins.
  simpl in Hins. rewrite Hm in Hins. specialize (Hins Ek).
  pose proof (loaded_ok (Z.of_nat d.(block_size)) x k ltac:(lia) Hx Hk ltac:(lia)) as Hlo. simpl in Hlo.
  rewrite Hcx, Nat2Z.id in Hlo.
  rewrite (span_ext (vd_byte x) (vd_byte d.(inner))) in Hlo by (intros a Ha; apply Hbx; lia).
  specialize (Hins Hlo). destruct (insert_cache_entry _ _ _) as [r2 d2].
  destruct Hins as [(-> & J1 & J2 & J3 & J4 & J5)|[Hr Hst2]].
  2:{ split; [by eapply step_trans|by right]. }
  split; [|left; split; [done|by eexists]]. eapply step_trans; [exact Hst1|]. split; try done.
  intros a Ha. simpl in Ha |- *. rewrite J5 by lia. case_if; [|by rewrite Hm]. apply Z.eqb_eq in Heqb.
  rewrite <- (en_clean _ _ _ _ Hlo) by (done || lia). symmetry. apply (uncached_byte (with_inner x d1) k); [|done].
  simpl. by rewrite Hm.
Qed.

(** Part of a block. *)
Lemma cached_slice d e abs n :
  cache_ok d -> lru_map d.(cache) !! (abs / Z.of_nat d.(block_size)) = Some e ->
  abs mod Z.of_nat d.(block_size) + Z.of_nat n <= Z.of_nat d.(block_size) ->
  take n (drop (Z.to_nat (abs mod Z.of_nat d.(block_size))) e.(CacheEntry.data)) = span (vd_byte d) abs n.
Proof.
  intros Hd He Hn. pose proof (ca_block_size _ Hd) as Hb. set (bs := Z.of_nat d.(block_size)) in *.
  pose proof (Z.mod_pos_bound abs bs ltac:(lia)) as Hm.
  pose proof (en_length _ _ _ _ (co_entries _ _ _ (ca_core _ Hd) _ _ He)) as Hl. fold bs in Hl.
  rewrite (span_take_drop _ 0) by lia. apply span_shift. intros i Hi. simpl. unfold content. fold bs.
  rewrite same_block, He by lia. unfold entry_byte. do 2 f_equal. f_equal.
  rewrite (block_mod bs (abs / bs) (abs + i)) by (lia || apply same_block; lia). pose proof (Z.div_mod abs bs ltac:(lia)). lia.
Qed.

(** ** Reads *)
Lemma cached_read_block d0 abs n d :
  step d0 d -> 0 <= abs -> abs < capacity_bytes d0.(inner) ->
  abs mod Z.of_nat d0.(block_size) + Z.of_nat n <= Z.of_nat d0.(block_size) ->
  abs + Z.of_nat n <= capacity_bytes d0.(inner) ->
  let '(r, d') := (let! _ := ensure_block_cached (abs / Z.of_nat d0.(block_size)) in
     fun d =>
       let '(hit, c) := lru_get_mut (abs / Z.of_nat d0.(block_size)) (fun e => e) d.(cache) in
       (match hit with
        | None => Err (Io "cache missing block after ensure_block_cached")
        | Some entry => Ok (take n (drop (Z.to_nat (abs mod Z.of_nat d0.(block_size))) entry.(CacheEntry.data)))
        end, with_cache c d)) d in
  step d0 d' /\ (r = Ok (span (vd_byte d0) abs n) \/ exists e, r = Err e /\ vd_fault (D := D) e).
Proof.
  intros Hst Ha Hac Hm Hn. pose proof Hst as [Hd Hcap Hbs Hby]. rewrite <- Hbs in *.
  pose proof (ca_block_size _ Hd) as Hpos. set (k := abs / Z.of_nat d.(block_size)).
  assert (0 <= k) as Hk by (apply Z.div_pos; lia).
  assert (k * Z.of_nat d.(block_size) <= abs) as Hka.
  { pose proof (Z.div_mod abs (Z.of_nat d.(block_size)) ltac:(lia)).
    pose proof (Z.mod_pos_bound abs (Z.of_nat d.(block_size)) ltac:(lia)). unfold k. lia. }
  pose proof (ensure_cached_ok d k Hd Hk ltac:(lia)) as Hen. unfold st_bind.
  destruct (ensure_block_cached k d) as [r d1]. destruct Hen as [Hst1 [[-> [e He]]|Hr]].
  2:{ destruct r as [|err]; [done|]. split; [by eapply step_trans|]. right. by exists err. }
  pose proof (get_same d1 k (sp_ok _ _ Hst1)) as Hg.
  destruct (lru_get_mut k (fun e => e) d1.(cache)) as [hit c]. destruct Hg as (-> & Hst2 & Hmap). rewrite He.
  split; [eapply step_trans; [|exact Hst2]; by eapply step_trans|]. left. f_equal.
  subst k. rewrite <- (sp_bs _ _ Hst1) in *. rewrite cached_slice; [|apply Hst1|exact He|done].
  apply span_ext. intros x Hx. rewrite (sp_bytes _ _ Hst1) by (rewrite Hcap; lia). apply Hby. lia.
Qed.

Lemma cached_read_ok d off n :
  cache_ok d -> in_disk d off (Z.of_nat n) ->
  let '(r, d') := read_at off n d in
  step d d' /\ (r = Ok (span (vd_byte d) off n) \/ faulty r).
Proof.
  intros Hd (Ho & _ & Hn). simpl in Hn. pose proof (ca_block_size _ Hd) as Hpos.
  pose proof (vd_capacity _ (co_disk _ _ _ (ca_core _ Hd))) as Hu. unfold uint in Hu. unfold read_at.
  erewrite st_bind_ok; [|unfold st_of_result; by rewrite checked_range_ok by lia].
  match goal with |- context [read_blocks n ?bs ?body off n d] =>
    pose proof (read_blocks_ok bs ltac:(lia) (step d) (vd_fault (D := D)) (vd_byte d) body n off n d) as Hr
  end.
  destruct (read_blocks n _ _ off n d) as [r d']. destruct Hr as [Hst Hr]; [|lia|by apply step_refl|].
  - intros s abs m Hs Hab Hm H0m Hmod. apply cached_read_block; try done; lia.
  - split; [done|]. destruct Hr as [->|(e & -> & He)]; [by left|by right].
Qed.

(** ** Writes *)
(** The bytes of a block after part of it is overwritten. *)
Lemma overwrite_byte bs e abs src a :
  0 < bs -> Z.of_nat (length e.(CacheEntry.data)) = bs -> abs mod bs + Z.of_nat (length src) <= bs -> a / bs = abs / bs ->
  entry_byte bs (overwrite (Z.to_nat (abs mod bs)) src e) a = splice (entry_byte bs e) abs src a.
Proof.
  intros Hbs Hl Hs Ha. pose proof (Z.mod_pos_bound abs bs Hbs) as Hm. pose proof (Z.mod_pos_bound a bs Hbs) as Hma.
  pose proof (Z.div_mod abs bs ltac:(lia)) as Hd. pose proof (Z.div_mod a bs ltac:(lia)) as Hda. rewrite Ha in Hda.
  unfold entry_byte, overwrite. simpl. rewrite MemFacts.patch_byte by lia. rewrite !Z2Nat.id by lia.
  destruct (decide (abs <= a < abs + Z.of_nat (length src))) as [Hin|Hout].
  - pose proof (splice_in (entry_byte bs e) abs src a Hin) as J1.
    pose proof (splice_in (fun a => default 0 (CacheEntry.data e !! Z.to_nat a)) (abs mod bs) src (a mod bs) ltac:(lia)) as J2.
    replace (a mod bs - abs mod bs) with (a - abs) in J2 by lia. unfold entry_byte in J1. congruence.
  - rewrite !splice_other by lia. done.
Qed.

Lemma overwrite_ok d e abs src :
  let bs := Z.of_nat d.(block_size) in
  cache_ok d -> lru_map d.(cache) !! (abs / bs) = Some e -> 0 <= abs -> Forall byte_ok src ->
  abs mod bs + Z.of_nat (length src) <= bs ->
  let '(hit, c) := lru_get_mut (abs / bs) (overwrite (Z.to_nat (abs mod bs)) src) d.(cache) in
  hit = Some e /\ cache_ok (with_cache c d) /\
  forall a, 0 <= a < capacity_bytes d.(inner) -> vd_byte (with_cache c d) a = splice (vd_byte d) abs src a.
Proof.
  intros bs Hd He Ha Hs Hm. pose proof Hd as [Hb Hmx Hl Hlc Hsz Hco].
  destruct (co_entries _ _ _ Hco _ _ He) as [E1 E2 E3 _]. fold bs in E1, E2.
  pose proof (Z.mod_pos_bound abs bs ltac:(lia)) as Hmod.
  destruct (lru_get_mut_ok d.(cache) (abs / bs) (overwrite (Z.to_nat (abs mod bs)) src) Hl) as (J1 & J2 & J3 & J4).
  destruct (lru_get_mut _ _ d.(cache)) as [hit c]. simpl in *. rewrite He in J1. split; [done|].
  assert (lru_map c = <[abs / bs := overwrite (Z.to_nat (abs mod bs)) src e]> (lru_map d.(cache))) as Hmap.
  { rewrite J4. apply map_eq. intros k. destruct (decide (k = abs / bs)) as [->|Hne].
    - by rewrite lookup_alter_eq, He, lookup_insert_eq.
    - by rewrite lookup_alter_ne, lookup_insert_ne by done. }
  split.
  - split; simpl; try done; [congruence|..]; rewrite Hmap.
    + rewrite map_size_insert, He. done.
    + apply core_ok_insert; [done|]. split; [done|..|done].
      * simpl. rewrite !length_app, length_take, length_drop. fold bs. lia.
      * simpl. rewrite !Forall_app. split; [by apply Forall_take|]. split; [done|by apply Forall_drop].
  - intros a Hac. unfold content. fold bs. rewrite Hmap. destruct (decide (a / bs = abs / bs)) as [Heq|Hne].
    + rewrite Heq, lookup_insert_eq, overwrite_byte by (done || lia). apply splice_ext.
      by rewrite Heq, He.
    + rewrite lookup_insert_ne by done. rewrite splice_other; [done|]. intros Hin. apply Hne.
      replace a with (abs + (a - abs)) by lia. apply same_block; lia.
Qed.

(** The states met during a write. *)
Definition during d d' : Prop :=
  cache_ok d' /\ capacity_bytes d'.(inner) = capacity_bytes d.(inner) /\ d'.(block_size) = d.(block_size).

Lemma step_during d d1 d2 : during d d1 -> step d1 d2 -> during d d2.
Proof. intros (J1 & J2 & J3) [K1 K2 K3 K4]. split; [done|]. split; congruence. Qed.

Lemma cached_write_block d0 abs src d :
  during d0 d -> Forall byte_ok src -> 0 <= abs -> (0 < length src)%nat ->
  abs mod Z.of_nat d0.(block_size) + Z.of_nat (length src) <= Z.of_nat d0.(block_size) ->
  abs + Z.of_nat (length src) <= capacity_bytes d0.(inner) ->
  let '(r, d') := write_block abs src d in
  during d0 d' /\ exists k, (forall a, 0 <= a < capacity_bytes d0.(inner) ->
      vd_byte d' a = splice (vd_byte d) abs (take k src) a) /\
    (r = Ok tt /\ k = length src \/ exists e, r = Err e /\ vd_fault (D := D) e).
Proof.
  intros Hdu Hs Ha Hlen Hm Hac. pose proof Hdu as (Hd & Hcap & Hbs). rewrite <- Hbs, <- Hcap in *.
  pose proof (ca_block_size _ Hd) as Hpos. unfold write_block. set (bs := Z.of_nat d.(block_size)) in *.
  pose proof (Z.mod_pos_bound abs bs ltac:(lia)) as Hmod. pose proof (Z.div_mod abs bs ltac:(lia)) as Hdm.
  assert (0 <= abs / bs) as Hk by (apply Z.div_pos; lia).
  assert (forall d' r, step d d' -> faulty (D := D) r -> during d0 d' /\ exists k,
    (forall a, 0 <= a < capacity_bytes d.(inner) -> vd_byte d' a = splice (vd_byte d) abs (take k src) a) /\
    (r = Ok tt /\ k = length src \/ exists e, r = Err e /\ vd_fault (D := D) e)) as Hfail.
  { intros d' [|e] Hst Hr; [done|]. split; [by eapply step_during|]. exists 0%nat. split; [|right; by exists e].
    intros a Hac'. rewrite splice_nil. by apply (sp_bytes _ _ Hst). }
  destruct ((Z.to_nat (abs mod bs) =? 0)%nat && (length src =? d.(block_size))%nat) eqn:Hfull.
  - apply andb_true_iff in Hfull as [Hw%Nat.eqb_eq Hl%Nat.eqb_eq]. assert (abs mod bs = 0) as Hw0 by lia.
    destruct (lru_map d.(cache) !! (abs / bs)) as [e|] eqn:He.
    + pose proof (overwrite_ok d e abs src Hd He Ha Hs Hm) as Ho. fold bs in Ho. rewrite Hw in Ho.
      destruct (lru_get_mut _ _ d.(cache)) as [hit c]. destruct Ho as (-> & Hok & Hby).
      split; [split; [done|by split]|]. exists (length src). rewrite firstn_all. split; [done|by left].
    + destruct (lru_get_mut_ok d.(cache) (abs / bs) (overwrite 0 src) (ca_lru _ Hd)) as (J1 & J2 & J3 & J4).
      destruct (lru_get_mut _ _ d.(cache)) as [hit c]. simpl in J1, J2, J3, J4. rewrite He in J1. subst hit.
      assert (lru_map c = lru_map d.(cache)) as Hmap.
      { rewrite J4. apply map_eq. intros k. destruct (decide (k = abs / bs)) as [->|Hne].
        - by rewrite lookup_alter_eq, He.
        - by rewrite lookup_alter_ne by done. }
      assert (step d (with_cache c d)) as Hst.
      { pose proof Hd as [? ? ? ? ? ?]. apply (step_core d d.(inner) c); rewrite ?Hmap; done. }
      pose proof (insert_ok (with_cache c d) (abs / bs) (CacheEntry.mk src true) (sp_ok _ _ Hst)) as Hins.
      simpl in Hins. rewrite Hmap in Hins. specialize (Hins He). fold bs in Hins.
      assert (entry_ok bs d.(inner) (abs / bs) (CacheEntry.mk src true)) as Hent.
      { split; [split; [done|lia]|simpl; lia|done|done]. }
      specialize (Hins Hent). destruct (insert_cache_entry _ _ _) as [r d2].
      destruct Hins as [(-> & K1 & K2 & K3 & K4 & K5)|[Hr Hst2]]; [|apply Hfail; [by eapply step_trans|done]].
      split; [split; [done|split; congruence]|]. exists (length src). rewrite firstn_all. split; [|by left].
      intros a Hain. simpl. rewrite K5 by done. destruct (Z.eqb_spec (a / bs) (abs / bs)) as [Heq|Hne].
      * apply block_of in Heq as Hb; [|lia]. unfold entry_byte. simpl.
        pose proof (splice_in (content bs (lru_map d.(cache)) d.(inner)) abs src a ltac:(lia)) as Hsp.
        rewrite (block_mod bs (abs / bs)) by (done || lia). replace (a - abs / bs * bs) with (a - abs) by lia. by rewrite Hsp.
      * rewrite splice_other; [done|]. intros Hin. apply Hne. apply block_of; lia.
  - pose proof (ensure_cached_ok d (abs / bs) Hd Hk ltac:(unfold bs in *; lia)) as Hen. unfold st_bind.
    destruct (ensure_block_cached (abs / bs) d) as [r d1]. destruct Hen as [Hst1 [[-> [e He]]|Hr]].
    2:{ destruct r as [|err]; [done|]. by apply Hfail. }
    pose proof (overwrite_ok d1 e abs src (sp_ok _ _ Hst1)) as Ho. simpl in Ho. rewrite (sp_bs _ _ Hst1) in Ho. fold bs in Ho.
    specialize (Ho He Ha Hs Hm). destruct (lru_get_mut _ _ d1.(cache)) as [hit c]. destruct Ho as (-> & Hok & Hby).
    pose proof (sp_capacity _ _ Hst1) as Hc1. pose proof (sp_bs _ _ Hst1) as Hb1.
    split; [split; [done|simpl; split; congruence]|]. exists (length src). rewrite firstn_all. split; [|by left].
    intros a Hain. simpl. rewrite Hb1. fold bs. rewrite Hby by (rewrite Hc1; done). apply splice_ext.
    pose proof (sp_bytes _ _ Hst1 a Hain) as Hq. simpl in Hq. by rewrite Hb1 in Hq.
Qed.

Lemma cached_write_ok d off src :
  cache_ok d -> Forall byte_ok src -> in_disk d off (Z.of_nat (length src)) ->
  let '(r, d') := write_at off src d in
  exists k, holds d d' (splice (vd_byte d) off (take k src)) /\ (r = Ok tt /\ k = length src \/ faulty r).
Proof.
  intros Hd Hs (Ho & _ & Hn). simpl in Hn. pose proof (ca_block_size _ Hd) as Hpos.
  pose proof (vd_capacity _ (co_disk _ _ _ (ca_core _ Hd))) as Hu. unfold uint in Hu. unfold write_at.
  erewrite st_bind_ok; [|unfold st_of_result; by rewrite checked_range_ok by lia].
  pose proof (write_blocks_ok (Z.of_nat d.(block_size)) ltac:(lia) (during d) (vd_fault (D := D))
    (fun a => 0 <= a < capacity_bytes d.(inner)) vd_byte write_block (length src) off src d) as Hr.
  destruct (write_blocks _ _ _ off src d) as [r d'].
  destruct Hr as [(J1 & J2 & J3) (k & Hk & Hr)]; [|lia|done|done|].
  - intros s abs part Hdu Hp Hab Hpl Hp0 Hmod. apply cached_write_block; try done; lia.
  - exists k. split; [by split|]. destruct Hr as [?|(e & -> & He)]; [by left|by right].
Qed.

(** ** Cleaning *)
Definition clean_at d (k : Z) : Prop := forall e, lru_map d.(cache) !! k = Some e -> e.(CacheEntry.dirty) = false.

(** The cached blocks stay, and the clean ones stay clean. *)
Record cleans d d' : Prop := {
  cl_step : step d d';
  cl_keys k : is_Some (lru_map d'.(cache) !! k) <-> is_Some (lru_map d.(cache) !! k);
  cl_clean k : clean_at d k -> clean_at d' k;
}.

Lemma cleans_refl d : cache_ok d -> cleans d d.
Proof. intros Hd. split; [by apply step_refl|done|done]. Qed.

Lemma cleans_trans d1 d2 d3 : cleans d1 d2 -> cleans d2 d3 -> cleans d1 d3.
Proof.
  intros [J1 J2 J3] [K1 K2 K3]. split; [by eapply step_trans|intros k; by rewrite K2|auto].
Qed.

Lemma cleans_same d d' : step d d' -> lru_map d'.(cache) = lru_map d.(cache) -> cleans d d'.
Proof. intros Hst Hm. split; [done|..]; intros k; unfold clean_at; by rewrite Hm. Qed.

Lemma clean_block_ok msg key d :
  cache_ok d -> is_Some (lru_map d.(cache) !! key) ->
  let '(r, d') := clean_block msg key d in
  cleans d d' /\ (r = Ok tt /\ clean_at d' key \/ faulty r).
Proof.
  intros Hd [e He]. pose proof Hd as [Hb Hmx Hl Hlc Hsz Hco]. pose proof (co_entries _ _ _ Hco _ _ He) as Hent.
  destruct (en_block _ _ _ _ Hent) as [Hk0 Hkc]. pose proof (vd_capacity _ (co_disk _ _ _ Hco)) as Hu. unfold uint in Hu.
  unfold clean_block, block_start. rewrite checked_mul_ok by lia. cbn [ok_or].
  rewrite (proj2 (Z.leb_gt _ (key * Z.of_nat d.(block_size)))) by lia.
  pose proof (get_same d key Hd) as Hg. destruct (lru_get_mut key (fun e => e) d.(cache)) as [hit c].
  destruct Hg as (-> & Hst & Hm). rewrite He. destruct (CacheEntry.dirty e) eqn:Hdirty; cbn [negb].
  2:{ split; [by apply cleans_same|]. left. split; [done|]. intros e' He'. simpl in He'. rewrite Hm, He in He'.
      by injection He' as <-. }
  pose proof (write_back_ok (Z.of_nat d.(block_size)) _ _ _ _ ltac:(lia) Hco He Hdirty) as Hw. simpl in Hw.
  unfold st_bind, on_inner, zoom, max_len. cbn [inner with_cache].
  destruct (Storage.write_at _ _ d.(inner)) as [r x]. destruct Hw as (Hco' & Hcx & Hby & Hr).
  assert (step d (with_inner x (with_cache c d))) as Hst1.
  { apply step_core; rewrite ?Hm; try done; [apply (sp_ok _ _ Hst)|].
    rewrite (ca_cap _ Hd). exact (ca_cap _ (sp_ok _ _ Hst)). }
  destruct Hr as [[-> Hon]|Hr].
  2:{ destruct r as [|err]; [done|]. split; [by apply cleans_same|by right]. }
  simpl. pose proof (sp_ok _ _ Hst1) as [_ _ Hl1 Hlc1 Hsz1 _]. simpl in Hl1, Hlc1, Hsz1.
  set (clean := fun e => CacheEntry.mk e.(CacheEntry.data) false).
  destruct (lru_get_mut_ok c key clean Hl1) as (_ & J2 & J3 & J4).
  set (c' := (lru_get_mut key clean c).2) in *.
  assert (lru_map c' = <[key := clean e]> (lru_map d.(cache))) as Hmap.
  { rewrite J4, Hm. apply map_eq. intros k. destruct (decide (k = key)) as [->|Hne].
    - by rewrite lookup_alter_eq, He, lookup_insert_eq.
    - by rewrite lookup_alter_ne, lookup_insert_ne by done. }
  split.
  - split.
    + apply (step_core d x c'); try done; [congruence|..]; rewrite Hmap.
      * rewrite map_size_insert, He. done.
      * apply core_ok_insert; [done|]. destruct Hent as [E1 E2 E3 _]. split; rewrite ?Hcx; try done.
      * intros a Ha. simpl. rewrite <- Hby by done. unfold content. destruct (decide (a / Z.of_nat d.(block_size) = key)) as [->|Hne].
        -- by rewrite lookup_insert_eq, He.
        -- by rewrite lookup_insert_ne.
    + intros k. simpl. rewrite Hmap. destruct (decide (k = key)) as [->|Hne].
      * rewrite lookup_insert_eq, He. split; intros _; by eexists.
      * by rewrite lookup_insert_ne.
    + intros k Hk e' He'. simpl in He'. rewrite Hmap in He'. apply lookup_insert_Some in He' as [[<- <-]|[_ He']]; [done|].
      by apply Hk.
  - left. split; [done|]. intros e' He'. simpl in He'. rewrite Hmap, lookup_insert_eq in He'. by injection He' as <-.
Qed.

Lemma clean_blocks_ok msg keys d :
  cache_ok d -> (forall k, k ∈ keys -> is_Some (lru_map d.(cache) !! k)) ->
  let '(r, d') := clean_blocks msg keys d in
  cleans d d' /\ (r = Ok tt /\ (forall k, k ∈ keys -> clean_at d' k) \/ faulty r).
Proof.
  revert d. induction keys as [|key keys IH]; intros d Hd Hk; cbn [clean_blocks].
  { split; [by apply cleans_refl|]. left. split; [done|]. by intros k ?%elem_of_nil. }
  pose proof (clean_block_ok msg key d Hd (Hk key ltac:(set_solver))) as Hc. unfold st_bind.
  destruct (clean_block msg key d) as [r d1]. destruct Hc as [Hcl [[-> Hkey]|Hr]].
  2:{ destruct r as [|err]; [done|]. split; [done|by right]. }
  specialize (IH d1 (sp_ok _ _ (cl_step _ _ Hcl))). destruct (clean_blocks msg keys d1) as [r2 d2].
  destruct IH as [Hcl2 Hr]; [intros k Hin; apply (cl_keys _ _ Hcl), Hk; set_solver|].
  split; [by eapply cleans_trans|]. destruct Hr as [[-> Hall]|Hr]; [left|by right]. split; [done|].
  intros k [-> |Hin]%elem_of_cons; [by apply (cl_clean _ _ Hcl2)|by apply Hall].
Qed.

(** After a flush the disk behind the cache holds everything. *)
Lemma cached_flush_ok d :
  cache_ok d ->
  let '(r, d') := flush d in
  step d d' /\ (r = Ok tt /\ (forall a, 0 <= a < capacity_bytes d.(inner) -> vd_byte d'.(inner) a = vd_byte d a) \/ faulty r).
Proof.
  intros Hd. pose proof (clean_blocks_ok "cache missing key during flush" (lru_keys d.(cache)) d Hd) as Hc.
  unfold flush, st_bind. destruct (clean_blocks _ _ d) as [r d1].
  destruct Hc as [Hcl Hr]; [intros k Hk; by apply (lru_keys_ok _ _ (ca_lru _ Hd))|].
  pose proof (cl_step _ _ Hcl) as Hst. pose proof (sp_ok _ _ Hst) as [K1 K2 K3 K4 K5 Hco].
  destruct Hr as [[-> Hall]|Hr]; [|destruct r as [|err]; [done|]; split; [done|by right]].
  pose proof (vd_flush d1.(inner) (co_disk _ _ _ Hco)) as Hf. unfold on_inner, zoom.
  destruct (Storage.flush d1.(inner)) as [r x]. destruct Hf as [(Hx & Hcx & Hbx) Hr].
  assert (step d (with_inner x d1)) as Hst2.
  { eapply step_trans; [exact Hst|]. apply (step_core d1 x d1.(cache)); [exact (sp_ok _ _ Hst)|done|done|done| |done|].
    - apply (core_ok_moved _ _ d1.(inner)); try done. intros k e a _ _ _ Ha. by apply Hbx.
    - intros a Ha. simpl. unfold content. case_match; [done|]. by apply Hbx. }
  split; [done|]. destruct Hr as [->|Hr]; [|by right]. left. split; [done|]. intros a Ha.
  cbn [inner with_inner]. rewrite Hbx by (rewrite (sp_capacity _ _ Hst); done). rewrite <- (sp_bytes _ _ Hst) by done. simpl. unfold content.
  case_match eqn:Ea; [|done]. symmetry. apply (co_entries _ _ _ Hco) in Ea as He. symmetry.
  apply (en_clean _ _ _ _ He); [|rewrite (sp_capacity _ _ Hst); done|done].
  apply (Hall (a / Z.of_nat d1.(block_size))); [|done]. apply lru_keys_ok; [apply Hd|]. apply (cl_keys _ _ Hcl). by eexists.
Qed.

(** ** Discards *)
Lemma pop_all_ok keys c :
  lru_ok c -> let c' := fold_left (fun c key => lru_pop key c) keys c in
  lru_ok c' /\ lru_cap c' = lru_cap c /\
  forall k, lru_map c' !! k = if bool_decide (k ∈ keys) then None else lru_map c !! k.
Proof.
  revert c. induction keys as [|key keys IH]; intros c Hc; simpl; [done|].
  destruct (lru_pop_ok c key Hc) as (J1 & J2 & J3). destruct (IH _ J1) as (K1 & K2 & K3).
  split; [done|]. split; [congruence|]. intros k. rewrite K3, J3.
  destruct (decide (k ∈ keys)) as [Hin|Hin].
  { rewrite !bool_decide_true by (done || by right). done. }
  rewrite bool_decide_false by done. destruct (decide (k = key)) as [->|Hne].
  - rewrite bool_decide_true by (by left). apply lookup_delete_eq.
  - rewrite bool_decide_false by (by intros [?|?]%elem_of_cons). by apply lookup_delete_ne.
Qed.

Lemma map_size_subset m m' : (forall k e, m' !! k = Some e -> m !! k = Some e) -> (base.size m' <= base.size m)%nat.
Proof. intros Hs. apply map_subseteq_size. by apply map_subseteq_spec. Qed.

Lemma cached_discard_ok d off len :
  cache_ok d -> in_disk d off len ->
  let '(r, d') := discard_range off len d in
  r = Ok tt /\ during d d' /\
    (forall a, 0 <= a < capacity_bytes d.(inner) -> a < off \/ off + len <= a -> vd_byte d' a = vd_byte d a) \/
  faulty r /\ step d d'.
Proof.
  intros Hd (Ho & Hl & Hn). simpl in Hn. pose proof (ca_block_size _ Hd) as Hpos. unfold discard_range.
  pose proof (vd_capacity _ (co_disk _ _ _ (ca_core _ Hd))) as Hu. unfold uint in Hu.
  rewrite check_discard_ok by lia. destruct (Z.eqb_spec len 0) as [->|Hne].
  { left. split; [done|]. split; [by split|done]. }
  set (bs := Z.of_nat d.(block_size)) in *. set (keys := List.filter _ _).
  assert (forall k, k ∈ keys <-> is_Some (lru_map d.(cache) !! k) /\ off / bs <= k <= (off + len - 1) / bs) as Hkeys.
  { intros k. unfold keys. rewrite list_elem_of_In, filter_In, <- list_elem_of_In.
    rewrite lru_keys_ok by apply Hd. rewrite andb_true_iff, !Z.leb_le. done. }
  pose proof (clean_blocks_ok "cache missing block during discard_range" keys d Hd) as Hc. unfold st_bind.
  destruct (clean_blocks _ _ d) as [r d1]. destruct Hc as [Hcl Hr]; [by intros k [? _]%Hkeys|].
  pose proof (cl_step _ _ Hcl) as Hst. pose proof (sp_ok _ _ Hst) as [K1 K2 K3 K4 K5 Hco].
  pose proof (sp_capacity _ _ Hst) as Hcap. pose proof (sp_bs _ _ Hst) as Hbs.
  destruct Hr as [[-> Hall]|Hr]; [|destruct r as [|err]; [done|]; by right].
  pose proof (vd_discard d1.(inner) off len (co_disk _ _ _ Hco) ltac:(split; lia)) as Hdi. unfold on_inner, zoom.
  destruct (Storage.discard_range off len d1.(inner)) as [r x]. destruct Hdi as [(-> & Hx & Hcx & Hbx)|[Hr (Hx & Hcx & Hbx)]].
  2:{ destruct r as [|err]; [done|]. right. split; [done|]. eapply step_trans; [exact Hst|].
      apply (step_core d1 x d1.(cache)); [exact (sp_ok _ _ Hst)|done|done|done| |done|].
      - apply (core_ok_moved _ _ d1.(inner)); try done. intros k e a _ _ _ Ha. by apply Hbx.
      - intros a Ha. simpl. unfold content. case_match; [done|]. by apply Hbx. }
  cbn [st_modify]. left. split; [done|]. destruct (pop_all_ok keys d1.(cache) K3) as (J1 & J2 & J3).
  set (c' := fold_left _ keys d1.(cache)) in *.
  assert (forall k e, lru_map c' !! k = Some e -> lru_map d1.(cache) !! k = Some e /\ k ∉ keys) as Hsub.
  { intros k e. rewrite J3. by case_bool_decide. }
  assert (forall a k e, lru_map c' !! k = Some e -> a / bs = k -> 0 <= a < capacity_bytes d1.(inner) ->
    vd_byte x a = vd_byte d1.(inner) a) as Hfar.
  { intros a k e [Hk Hnk]%Hsub Hak Ha. apply Hbx; [done|]. rewrite Hkeys in Hnk.
    destruct (decide (a < off \/ off + len <= a)) as [|Hin]; [done|]. exfalso. apply Hnk.
    split; [apply (cl_keys _ _ Hcl); by eexists|]. subst k. split; apply Z.div_le_mono; lia. }
  split.
  - split; [|split; simpl; congruence]. split; simpl; fold c'; try done; [congruence|..].
    + etrans; [|exact K5]. apply map_size_subset. intros k e He. by apply Hsub.
    + split; [done|]. intros k e He. destruct (Hsub k e He) as [He1 _]. destruct (co_entries _ _ _ Hco _ _ He1) as [E1 E2 E3 E4].
      split; rewrite ?Hcx; try done. intros Hdirty a Ha Hak. rewrite Hbs in Hak. rewrite (Hfar a k e) by done.
      apply E4; [done|done|]. by rewrite Hbs.
  - intros a Ha Hout. rewrite <- (sp_bytes _ _ Hst) by done. simpl. fold c'. unfold content. rewrite Hbs. fold bs. rewrite J3.
    case_bool_decide as Hin.
    + rewrite Hbx by (done || lia). case_match eqn:Ea; [|done]. apply (co_entries _ _ _ Hco) in Ea as He.
      rewrite Hbs in He. apply (en_clean _ _ _ _ He); [by apply (Hall (a / bs))|lia|done].
    + case_match; [done|]. apply Hbx; [lia|done].
Qed.

(** ** The contract *)
#[global] Instance cached_spec : DiskSpec (t D C).
Proof.
  assert (forall d d', step d d' -> holds d d' (vd_byte d)) as Hholds by (by intros d d' [J1 J2 J3 J4]).
  split; intros d.
  - intros Hd. apply (vd_capacity (D := D)), (co_disk _ _ _ (ca_core _ Hd)).
  - intros a Hd. simpl. unfold content. case_match eqn:Ea.
    + apply (co_entries _ _ _ (ca_core _ Hd)) in Ea as He. apply MemFacts.byte_default, He.
    + apply (vd_byte_ok (D := D)), (co_disk _ _ _ (ca_core _ Hd)).
  - intros off n Hd Hin. pose proof (cached_read_ok d off n Hd Hin) as Hr. simpl.
    destruct (read_at off n d) as [r d']. destruct Hr as [Hst Hr]. split; [by apply Hholds|done].
  - intros off n Hd Ho Hn. destruct (checked_range_out _ _ _ Hn) as [e He]. exists e. simpl. unfold read_at, st_bind, st_of_result.
    simpl in He. by rewrite He.
  - intros off src Hd Hs Hin. apply (cached_write_ok d off src Hd Hs Hin).
  - intros off src Hd Ho Hn. destruct (checked_range_out _ _ _ Hn) as [e He]. exists e. simpl. unfold write_at, st_bind, st_of_result.
    simpl in He. by rewrite He.
  - intros Hd. pose proof (cached_flush_ok d Hd) as Hf. simpl. destruct (flush d) as [r d'].
    destruct Hf as [Hst Hr]. split; [by apply Hholds|]. destruct Hr as [[-> _]|Hr]; [by left|by right].
  - intros off len Hd Hin. pose proof (cached_discard_ok d off len Hd Hin) as Hr. simpl.
    destruct (discard_range off len d) as [r d']. destruct Hr as [(-> & (J1 & J2 & J3) & Hb)|[Hr Hst]]; [left|right].
    + by split_and!.
    + split; [done|by apply Hholds].
  - intros off len _ _ Hl Hn. destruct (check_discard_out _ _ _ Hl Hn) as [e He]. exists e. simpl. unfold discard_range.
    simpl in He. by rewrite He.
Qed.

#[global] Instance cached_reliable `{!ReliableDisk D} : ReliableDisk (t D C).
Proof. split. apply (vd_reliable (D := D)). Qed.
End Cache.
