(* ===== verification/SparseFacts.v ===== *)
(** * Facts on sparse images: the bit set of slots, the header, the invariant *)

From S2P Require Import Prelude Bytes GuestMem Storage StorageFacts SparseDisk.
Import AeroSparseDisk.

(** ** The bit set of slots *)
Definition used_bit (words : list Z) (s : Z) : bool :=
  match words !! Z.to_nat (s / 64) with Some w => Z.testbit w (s mod 64) | None => false end.

Lemma pos_trailing_zeros_spec p :
  let b := SparseMemory.pos_trailing_zeros p in
  0 <= b /\ Z.testbit (Zpos p) b = true /\ forall j, 0 <= j < b -> Z.testbit (Zpos p) j = false.
Proof.
  induction p as [p IH|p IH|]; simpl; [split; [lia|]; split; [done|lia]| |split; [lia|]; split; [done|lia]].
  destruct IH as (H0 & Hb & Hl). rewrite (Pos2Z.inj_xO p). split; [lia|]. split.
  - rewrite Z.add_comm. change (?b + 1) with (Z.succ b). by rewrite Z.testbit_even_succ.
  - intros j Hj. destruct (decide (j = 0)) as [->|Hj0]; [apply Z.testbit_even_0|].
    replace j with (Z.succ (j - 1)) by lia. rewrite Z.testbit_even_succ by lia. apply Hl. lia.
Qed.

(** The lowest clear bit of a word that is not full. *)
Lemma lowest_clear w :
  uint 64 w -> w <> 2 ^ 64 - 1 ->
  let b := trailing_zeros (unot 64 w) in
  0 <= b < 64 /\ Z.testbit w b = false /\ forall j, 0 <= j < b -> Z.testbit w j = true.
Proof.
  intros Hw Hne. pose proof (uint_unot 64 w ltac:(lia)) as Hu.
  assert (forall i, 0 <= i -> Z.testbit (unot 64 w) i = (i <? 64) && negb (Z.testbit w i)) as Hbit
    by (intros i Hi; by apply unot_spec).
  destruct (unot 64 w) as [|p|p] eqn:E; [|..|unfold uint in Hu; lia].
  { exfalso. apply Hne. apply Z.bits_inj'. intros i Hi. specialize (Hbit i Hi). rewrite Z.bits_0 in Hbit.
    change (2 ^ 64 - 1) with (Z.ones 64). destruct (Z.ltb_spec i 64); simpl in Hbit.
    - rewrite Z.ones_spec_low by lia. by destruct (Z.testbit w i).
    - rewrite Z.ones_spec_high by lia. apply (testbit_high 64); [done|lia]. }
  destruct (pos_trailing_zeros_spec p) as (H0 & Hb & Hl). simpl.
  set (b := SparseMemory.pos_trailing_zeros p) in *.
  rewrite Hbit in Hb by lia. apply andb_true_iff in Hb as [Hb1%Z.ltb_lt Hb2%negb_true_iff].
  split; [lia|]. split; [done|]. intros j Hj. specialize (Hl j Hj). rewrite Hbit in Hl by lia.
  rewrite (proj2 (Z.ltb_lt _ _)) in Hl by lia. by apply negb_false_iff in Hl.
Qed.

Lemma shiftl_1 b : 0 <= b -> 1 <<< b = 2 ^ b.
Proof. intros Hb. by rewrite Z.shiftl_1_l. Qed.

Lemma set_bit_ok w b : 0 <= b < 64 -> uint 64 w -> uint 64 (w ||| (1 <<< b)).
Proof.
  intros Hb Hw. apply uint_lor; [lia|done|]. rewrite shiftl_1 by lia. split; [lia|]. apply Z.pow_lt_mono_r; lia.
Qed.

Lemma testbit_set_bit w b j : 0 <= b -> 0 <= j -> Z.testbit (w ||| (1 <<< b)) j = (b =? j) || Z.testbit w j.
Proof. intros Hb Hj. by rewrite Z.lor_spec, shiftl_1, testbit_pow2, orb_comm by lia. Qed.

Lemma testbit_clear64 w b j :
  0 <= b -> 0 <= j < 64 -> Z.testbit (w &&& unot 64 (1 <<< b)) j = negb (b =? j) && Z.testbit w j.
Proof.
  intros Hb Hj. rewrite Z.land_spec, unot_spec, shiftl_1, testbit_pow2 by lia.
  rewrite (proj2 (Z.ltb_lt j 64)) by lia. cbn [andb]. apply andb_comm.
Qed.

(** A word replaced. *)
Lemma used_bit_insert words i w w' s :
  words !! i = Some w -> 0 <= s ->
  used_bit (<[i := w']> words) s =
  if s / 64 =? Z.of_nat i then Z.testbit w' (s mod 64) else used_bit words s.
Proof.
  intros Hi Hs. unfold used_bit. assert (0 <= s / 64) by (apply Z.div_pos; lia).
  destruct (Z.eqb_spec (s / 64) (Z.of_nat i)) as [->|Hne].
  - rewrite Nat2Z.id, list_lookup_insert_eq; [done|]. by eapply lookup_lt_Some.
  - rewrite list_lookup_insert_ne by lia. done.
Qed.

(** Bit [s] of word [s / 64]. *)
Lemma slot_split s x : 0 <= s -> 0 <= x -> (x / 64 =? s / 64) && (s mod 64 =? x mod 64) = (x =? s).
Proof.
  intros Hs Hx. destruct (Z.eqb_spec x s) as [->|Hne]; [by rewrite !Z.eqb_refl|].
  destruct (Z.eqb_spec (x / 64) (s / 64)), (Z.eqb_spec (s mod 64) (x mod 64)); try done.
  pose proof (Z.div_mod x 64 ltac:(lia)). pose proof (Z.div_mod s 64 ltac:(lia)). lia.
Qed.

Lemma used_bit_set words s w x :
  words !! Z.to_nat (s / 64) = Some w -> 0 <= s -> 0 <= x ->
  used_bit (<[Z.to_nat (s / 64) := w ||| (1 <<< (s mod 64))]> words) x = (x =? s) || used_bit words x.
Proof.
  intros Hw Hs Hx. assert (0 <= s / 64) by (apply Z.div_pos; lia).
  pose proof (Z.mod_pos_bound s 64 ltac:(lia)). pose proof (Z.mod_pos_bound x 64 ltac:(lia)).
  rewrite (used_bit_insert _ _ w) by done. rewrite Z2Nat.id by lia. rewrite <- (slot_split s x) by lia.
  rewrite testbit_set_bit by lia. destruct (Z.eqb_spec (x / 64) (s / 64)) as [Heq|]; [|done]. cbn [andb].
  unfold used_bit. by rewrite Heq, Hw.
Qed.

Lemma used_bit_clear words s w x :
  words !! Z.to_nat (s / 64) = Some w -> 0 <= s -> 0 <= x ->
  used_bit (<[Z.to_nat (s / 64) := w &&& unot 64 (1 <<< (s mod 64))]> words) x = negb (x =? s) && used_bit words x.
Proof.
  intros Hw Hs Hx. assert (0 <= s / 64) by (apply Z.div_pos; lia).
  pose proof (Z.mod_pos_bound s 64 ltac:(lia)). pose proof (Z.mod_pos_bound x 64 ltac:(lia)).
  rewrite (used_bit_insert _ _ w) by done. rewrite Z2Nat.id by lia. rewrite <- (slot_split s x) by lia.
  rewrite testbit_clear64 by lia. destruct (Z.eqb_spec (x / 64) (s / 64)) as [Heq|]; [|done]. cbn [andb].
  unfold used_bit. by rewrite Heq, Hw.
Qed.

Lemma used_bit_out words s : 64 * Z.of_nat (length words) <= s -> used_bit words s = false.
Proof.
  intros Hs. unfold used_bit. rewrite lookup_ge_None_2; [done|].
  pose proof (Z.div_mod s 64 ltac:(lia)). pose proof (Z.mod_pos_bound s 64 ltac:(lia)). lia.
Qed.

Lemma word_lookup (words : list Z) n s :
  length words = Z.to_nat ((n + 63) / 64) -> 0 <= s < n -> exists w, words !! Z.to_nat (s / 64) = Some w.
Proof.
  intros Hl Hs. apply lookup_lt_is_Some_2. rewrite Hl. pose proof (Z.div_mod s 64 ltac:(lia)).
  pose proof (Z.div_mod (n + 63) 64 ltac:(lia)). pose proof (Z.mod_pos_bound s 64 ltac:(lia)).
  pose proof (Z.mod_pos_bound (n + 63) 64 ltac:(lia)). lia.
Qed.

(** Bit sets with the same bits are equal. *)
Lemma used_bit_ext ws1 ws2 :
  Forall (uint 64) ws1 -> Forall (uint 64) ws2 -> length ws1 = length ws2 ->
  (forall s, 0 <= s -> used_bit ws1 s = used_bit ws2 s) -> ws1 = ws2.
Proof.
  intros H1 H2 Hl Hb. apply list_eq. intros i. destruct (ws1 !! i) as [w1|] eqn:E1.
  - destruct (lookup_lt_is_Some_2 ws2 i) as [w2 E2]; [rewrite <- Hl; by eapply lookup_lt_Some|]. rewrite E2. f_equal.
    pose proof (Forall_lookup_1 _ _ _ _ H1 E1) as U1. pose proof (Forall_lookup_1 _ _ _ _ H2 E2) as U2.
    apply Z.bits_inj'. intros j Hj. destruct (Z.ltb_spec j 64) as [Hlt|Hge].
    + specialize (Hb (64 * Z.of_nat i + j) ltac:(lia)). unfold used_bit in Hb.
      replace ((64 * Z.of_nat i + j) / 64) with (Z.of_nat i) in Hb by (apply (Z.div_unique_pos _ _ _ j); lia).
      replace ((64 * Z.of_nat i + j) mod 64) with j in Hb by (apply (Z.mod_unique_pos _ _ (Z.of_nat i)); lia).
      by rewrite Nat2Z.id, E1, E2 in Hb.
    + by rewrite !(testbit_high 64) by (done || lia).
  - symmetry. apply lookup_ge_None. apply lookup_ge_None in E1. lia.
Qed.

Lemma used_bit_head w ws x : 0 <= x < 64 -> used_bit (w :: ws) x = Z.testbit w x.
Proof. intros Hx. unfold used_bit. by rewrite Z.div_small, Z.mod_small by lia. Qed.

Lemma used_bit_tail w ws x : 64 <= x -> used_bit (w :: ws) x = used_bit ws (x - 64).
Proof.
  intros Hx. unfold used_bit. replace (x - 64) with (x + (-1) * 64) by lia. rewrite Z.div_add, Z.mod_add by lia.
  assert (1 <= x / 64) by (apply (Z.div_le_mono 64 x 64); lia).
  by replace (Z.to_nat (x / 64)) with (S (Z.to_nat (x / 64 + -1))) by lia.
Qed.

(** The first free slot. *)
Lemma find_free_ok `{Target} total i words :
  Forall (uint 64) words -> 64 * Z.of_nat (i + length words) <= 2 ^ 32 ->
  match find_free total i words with
  | (Ok (Some idx), words') =>
      let s := idx - 64 * Z.of_nat i in
      0 <= s /\ idx < total /\ used_bit words s = false /\ length words' = length words /\ Forall (uint 64) words' /\
      forall x, 0 <= x -> used_bit words' x = (x =? s) || used_bit words x
  | (Ok None, words') =>
      words' = words /\
      forall s, 0 <= s < 64 * Z.of_nat (length words) -> 64 * Z.of_nat i + s < total -> used_bit words s = true
  | (Err _, _) => False
  end.
Proof.
  revert i. induction words as [|w ws IH]; intros i Hw Hlen; cbn [find_free].
  { split; [done|]. simpl. lia. }
  apply Forall_cons in Hw as [Hw0 Hws]. cbn [length] in Hlen.
  destruct (Z.eqb_spec w (2 ^ 64 - 1)) as [Hfull|Hfull].
  - specialize (IH (S i) Hws ltac:(lia)). destruct (find_free total (S i) ws) as [[[idx|]|e] ws']; [| |done].
    + destruct IH as (H0 & Ht & Hb & Hl & Hu & Hbits). cbn [length].
      split; [lia|]. split; [done|]. split; [|split; [lia|split; [by apply Forall_cons|]]].
      * rewrite used_bit_tail by lia. rewrite <- Hb. f_equal. lia.
      * intros x Hx. destruct (decide (64 <= x)) as [Hx64|Hx64].
        -- rewrite !used_bit_tail, Hbits by lia. f_equal. destruct (Z.eqb_spec (x - 64) (idx - 64 * Z.of_nat (S i))),
             (Z.eqb_spec x (idx - 64 * Z.of_nat i)); (done || lia).
        -- rewrite !used_bit_head by lia. by rewrite (proj2 (Z.eqb_neq x (idx - 64 * Z.of_nat i))) by lia.
    + destruct IH as [-> Hall]. split; [done|]. cbn [length]. intros s Hs Ht.
      destruct (decide (64 <= s)) as [Hs64|Hs64]; [rewrite used_bit_tail by done; apply Hall; lia|].
      rewrite used_bit_head by lia. rewrite Hfull. change (2 ^ 64 - 1) with (Z.ones 64). apply Z.ones_spec_low. lia.
  - destruct (lowest_clear w Hw0 Hfull) as (Hb & Hclear & Hbelow). set (b := trailing_zeros (unot 64 w)) in *.
    pose proof usize_max_ge as Hp. unfold usize_max in Hp.
    rewrite checked_mul_ok by lia. cbn [ok_or result_bind]. rewrite checked_add_ok by lia. cbn [ok_or].
    destruct (Z.leb_spec total (Z.of_nat i * 64 + b)) as [Hge|Hlt].
    + split; [done|]. intros s Hs Ht. rewrite used_bit_head by lia. apply Hbelow. lia.
    + replace (Z.of_nat i * 64 + b - 64 * Z.of_nat i) with b by lia.
      split; [lia|]. split; [lia|]. split; [by rewrite used_bit_head by lia|]. split; [done|].
      split; [apply Forall_cons; split; [by apply set_bit_ok|done]|].
      intros x Hx. destruct (decide (64 <= x)) as [Hx64|Hx64].
      * rewrite (proj2 (Z.eqb_neq x b)) by lia. cbn [orb]. by rewrite !used_bit_tail by lia.
      * rewrite !used_bit_head, testbit_set_bit by lia. by rewrite (Z.eqb_sym b x).
Qed.

(** ** Geometry *)
Lemma div_ceil_spec n d q :
  0 <= n -> 0 < d -> div_ceil_u64 n d = Ok q -> (q - 1) * d < n <= q * d /\ 0 <= q.
Proof.
  intros Hn Hd. unfold div_ceil_u64. rewrite (proj2 (Z.eqb_neq d 0)) by lia. intros [= <-].
  pose proof (Z.div_mod n d ltac:(lia)). pose proof (Z.mod_pos_bound n d Hd).
  assert (0 <= n / d) by (apply Z.div_pos; lia). destruct (Z.eqb_spec (n mod d) 0); nia.
Qed.

Lemma align_up_spec v a r :
  0 <= v -> 0 < a -> align_up_u64 v a = Ok r -> v <= r < v + a /\ r mod a = 0.
Proof.
  intros Hv Ha. unfold align_up_u64. rewrite (proj2 (Z.eqb_neq a 0)) by lia.
  pose proof (Z.div_mod v a ltac:(lia)). pose proof (Z.mod_pos_bound v a Ha).
  destruct (Z.eqb_spec (v mod a) 0) as [Hz|Hz]; [intros [= <-]; lia|].
  unfold checked_add. case_if; cbn [ok_or]; [|done]. intros [= <-]. split; [lia|].
  replace (v + (a - v mod a)) with ((v / a + 1) * a) by lia. apply Z.mod_mul. lia.
Qed.

(** A header that [decode] accepts. *)
Record geometry_ok (h : Header.t) : Prop := {
  ge_version : h.(Header.version) = 1;
  ge_block : uint 32 h.(Header.block_size_bytes) /\ nz h.(Header.block_size_bytes) = true /\
    (h.(Header.block_size_bytes) mod 512 =? 0) = true /\ is_power_of_two h.(Header.block_size_bytes) = true /\
    (h.(Header.block_size_bytes) <=? 64 * 1024 * 1024) = true;
  ge_disk : uint 64 h.(Header.disk_size_bytes) /\ nz h.(Header.disk_size_bytes) = true /\
    (h.(Header.disk_size_bytes) mod 512 =? 0) = true;
  ge_entries : uint 64 h.(Header.table_entries) /\ nz h.(Header.table_entries) = true /\
    div_ceil_u64 h.(Header.disk_size_bytes) h.(Header.block_size_bytes) = Ok h.(Header.table_entries) /\
    h.(Header.table_entries) <= 16 * 1024 * 1024;
  ge_data : uint 64 h.(Header.data_offset) /\
    align_up_u64 (64 + h.(Header.table_entries) * 8) h.(Header.block_size_bytes) = Ok h.(Header.data_offset);
  ge_allocated : 0 <= h.(Header.allocated_blocks) <= h.(Header.table_entries);
}.

#[global] Arguments Header.decode : simpl never.
#[global] Arguments Header.encode : simpl never.

(** The same facts as inequalities. *)
Record layout (bs disk te doff : Z) : Prop := {
  la_bs : 512 <= bs <= 2 ^ 26;
  la_disk : 0 < disk < 2 ^ 64;
  la_te : 0 < te <= 2 ^ 24;
  la_cover : (te - 1) * bs < disk <= te * bs;
  la_doff : 64 + te * 8 <= doff < 64 + te * 8 + bs;
  la_size : doff + te * bs < 2 ^ 60;
}.
Lemma geometry_layout h :
  geometry_ok h ->
  layout h.(Header.block_size_bytes) h.(Header.disk_size_bytes) h.(Header.table_entries) h.(Header.data_offset).
Proof.
  intros [_ ((Hb0 & _) & Hbn & Hbm & _ & Hbl) ((Hd0 & Hd1) & Hdn & _) ((He0 & _) & Hen & Hce & Hem) (_ & Hal) _].
  bool_hyps. assert (512 <= h.(Header.block_size_bytes)) as Hbs.
  { pose proof (Z.div_mod h.(Header.block_size_bytes) 512 ltac:(lia)). lia. }
  apply div_ceil_spec in Hce as [Hce _]; [|lia..]. apply align_up_spec in Hal as [Hal _]; [|lia..].
  split; try lia. nia.
Qed.

Lemma get_ok bs a n x : take n (drop a bs) = x -> (a + n <=? length bs)%nat = true -> Header.get bs a n = Ok x.
Proof. intros <- Hl. unfold Header.get. by rewrite Hl. Qed.

Lemma get_int_le bs a n x :
  take n (drop a bs) = to_le_bytes n x -> (a + n <=? length bs)%nat = true -> uint (8 * Z.of_nat n) x ->
  Header.get_int bs a n = Ok x.
Proof.
  intros Ht Hl Hx. unfold Header.get_int. rewrite (get_ok _ _ _ _ Ht Hl). simpl. by rewrite from_to_le_bytes_id.
Qed.

Lemma encode_length h : length (Header.encode h) = 64%nat.
Proof. reflexivity. Qed.

Lemma encode_ok h : Forall byte_ok (Header.encode h).
Proof.
  unfold Header.encode. repeat (apply Forall_app; split); try apply to_le_bytes_ok.
  by repeat (apply Forall_cons; split).
Qed.

Lemma ensure_true {E} (e : E) b : b = true -> ensure b e = Ok tt.
Proof. by intros ->. Qed.

Lemma header_decode_encode h : geometry_ok h -> Header.decode (Header.encode h) = Ok h.
Proof.
  intros Hg. pose proof (geometry_layout h Hg) as [L1 L2 L3 L4 L5 L6].
  destruct Hg as [Hv (Hb & Hbn & Hbm & Hbp & Hbl) (Hd & Hdn & Hdm) (He & Hen & Hce & Hem) (Ho & Hal) Ha].
  unfold Header.decode.
  rewrite (get_ok (Header.encode h) 0 8 _ eq_refl eq_refl). cbn [result_bind].
  rewrite (ensure_true _ (bool_decide _)) by (by apply bool_decide_true). cbn [result_bind].
  rewrite (get_int_le (Header.encode h) 8 4 h.(Header.version) eq_refl eq_refl) by (rewrite Hv; done). cbn [result_bind].
  rewrite Hv. rewrite (ensure_true _ (1 =? 1)) by done. cbn [result_bind].
  rewrite (get_int_le (Header.encode h) 12 4 64 eq_refl eq_refl) by done. cbn [result_bind].
  rewrite (ensure_true _ (64 =? 64)) by done. cbn [result_bind].
  rewrite (get_int_le (Header.encode h) 16 4 h.(Header.block_size_bytes) eq_refl eq_refl) by done. cbn [result_bind].
  rewrite (get_int_le (Header.encode h) 24 8 h.(Header.disk_size_bytes) eq_refl eq_refl) by done. cbn [result_bind].
  rewrite (get_int_le (Header.encode h) 32 8 64 eq_refl eq_refl) by done. cbn [result_bind].
  rewrite (ensure_true _ (64 =? 64)) by done. cbn [result_bind].
  rewrite (get_int_le (Header.encode h) 40 8 h.(Header.table_entries) eq_refl eq_refl) by done. cbn [result_bind].
  rewrite (get_int_le (Header.encode h) 48 8 h.(Header.data_offset) eq_refl eq_refl) by done. cbn [result_bind].
  rewrite (get_int_le (Header.encode h) 56 8 h.(Header.allocated_blocks) eq_refl eq_refl) by (unfold uint in *; lia). cbn [result_bind].
  rewrite Hbn, Hbm, Hbp, Hbl, Hdn, Hdm, Hen, Hce. cbn [andb ensure result_bind].
  rewrite Z.eqb_refl. cbn [ensure result_bind]. rewrite checked_mul_ok by lia. cbn [ok_or result_bind].
  rewrite (proj2 (Z.leb_le (h.(Header.table_entries) * 8) _)), (proj2 (Z.leb_le h.(Header.table_entries) _)) by lia.
  cbn [andb ensure result_bind]. rewrite checked_add_ok by lia. cbn [ok_or result_bind]. rewrite Hal. cbn [result_bind].
  rewrite Z.eqb_refl, (proj2 (Z.leb_le h.(Header.allocated_blocks) _)) by lia. cbn [ensure result_bind].
  rewrite <- Hv. by destruct h.
Qed.

Lemma ensure_ok {E} (e : E) b u : ensure b e = Ok u -> b = true.
Proof. by destruct b. Qed.

Lemma get_int_uint bs a n x : Forall byte_ok bs -> Header.get_int bs a n = Ok x -> uint (8 * Z.of_nat n) x.
Proof.
  intros Hb. unfold Header.get_int, Header.get. destruct (Nat.leb_spec (a + n) (length bs)); [|done]. simpl. intros [= <-].
  pose proof (from_le_bytes_uint (take n (drop a bs)) ltac:(by apply Forall_take, Forall_drop)) as Hu.
  by rewrite length_take, length_drop, Nat.min_l in Hu by lia.
Qed.

Ltac inv_bind H x Hx :=
  apply result_bind_ok in H; destruct H as (x & Hx & H).

Lemma decode_geometry bs h : Forall byte_ok bs -> Header.decode bs = Ok h -> geometry_ok h.
Proof.
  intros Hby Hd. unfold Header.decode in Hd.
  inv_bind Hd magic E1. inv_bind Hd u1 E2. inv_bind Hd v E3. inv_bind Hd u2 E4. inv_bind Hd hs E5. inv_bind Hd u3 E6.
  inv_bind Hd bsz E7. inv_bind Hd dsk E8. inv_bind Hd toff E9. inv_bind Hd u4 E10. inv_bind Hd te E11.
  inv_bind Hd doff E12. inv_bind Hd al E13. inv_bind Hd u5 E14. inv_bind Hd u6 E15. inv_bind Hd u7 E16.
  inv_bind Hd u8 E17. inv_bind Hd u9 E18. inv_bind Hd ete E19. inv_bind Hd u10 E20. inv_bind Hd tb E21.
  inv_bind Hd u11 E22. inv_bind Hd tend E23. inv_bind Hd edo E24. inv_bind Hd u12 E25. inv_bind Hd u13 E26.
  injection Hd as <-. apply ensure_ok in E4, E14, E15, E16, E17, E18, E20, E22, E25, E26.
  apply (get_int_uint _ _ _ _ Hby) in E7, E8, E11, E12, E13. bool_hyps. subst.
  unfold checked_mul in E21. case_if_in E21; [|done]. injection E21 as <-.
  unfold checked_add in E23. case_if_in E23; [|done]. injection E23 as <-.
  split; simpl; [done|..].
  - split; [done|]. split; [by apply negb_true_iff, Z.eqb_neq|]. split; [by apply Z.eqb_eq|]. split; [done|by apply Z.leb_le].
  - split; [done|]. split; [by apply negb_true_iff, Z.eqb_neq|by apply Z.eqb_eq].
  - split; [done|]. split; [by apply negb_true_iff, Z.eqb_neq|]. split; [done|lia].
  - done.
  - unfold uint in *. lia.
Qed.
