(* ===== verification/SparseInv.v ===== *)
(** * Sparse disks: the invariant, and what each operation does to the bytes *)

From S2P Require Import Prelude Bytes GuestMem Storage StorageFacts SparseDisk SparseFacts.
Import AeroSparseDisk.

Abbreviation bsz d := (d.(header).(Header.block_size_bytes)).
Abbreviation doff d := (d.(header).(Header.data_offset)).
Abbreviation entries d := (d.(header).(Header.table_entries)).
Abbreviation slots d := (d.(header).(Header.allocated_blocks)).
Abbreviation bytes d := (be_byte d.(backend)).

Definition used_slots (table : list Z) : list Z := List.filter (fun e => nz e) table.

(** What the copy of the metadata in memory satisfies: each slot is the data of
    at most one block, and the bit set and the counter agree with the table. *)
Record meta_ok (h : Header.t) (tb words : list Z) (mapped : Z) : Prop := {
  so_geo : geometry_ok h;
  so_length : Z.of_nat (length tb) = h.(Header.table_entries);
  so_slots : forall i e, tb !! i = Some e -> e <> 0 ->
    exists s, 0 <= s < h.(Header.allocated_blocks) /\ e = h.(Header.data_offset) + s * h.(Header.block_size_bytes);
  so_nodup : NoDup (used_slots tb);
  so_words : Forall (uint 64) words;
  so_words_length : length words = Z.to_nat ((h.(Header.allocated_blocks) + 63) / 64);
  so_used : forall s, 0 <= s -> used_bit words s = true <->
    s < h.(Header.allocated_blocks) /\ h.(Header.data_offset) + s * h.(Header.block_size_bytes) ∈ tb;
  so_mapped : mapped = Z.of_nat (length (used_slots tb));
}.

Section Image.
Context `{BackendView B}.
Implicit Types (d : t B) (h : Header.t).

(** What the metadata in the image satisfies: it is the copy in memory. *)
Record image_ok h (tb : list Z) (b : B) : Prop := {
  so_backend : be_ok b;
  so_header : Header.decode (span (be_byte b) 0 64) = Ok h;
  so_table : forall i e, tb !! i = Some e -> from_le_bytes (span (be_byte b) (64 + 8 * Z.of_nat i) 8) = e;
}.

Record sparse_ok d : Prop := {
  so_meta : meta_ok d.(header) d.(table) d.(phys_used) d.(mapped_blocks);
  so_image : image_ok d.(header) d.(table) d.(backend);
  so_room : doff d + entries d * bsz d <= be_limit;
  so_size : doff d + slots d * bsz d <= be_size d.(backend);
}.
End Image.
Coercion so_meta : sparse_ok >-> meta_ok.
Coercion so_image : sparse_ok >-> image_ok.
Arguments so_geo {_ _ _ _}.
Arguments so_length {_ _ _ _}.
Arguments so_slots {_ _ _ _}.
Arguments so_nodup {_ _ _ _}.
Arguments so_words {_ _ _ _}.
Arguments so_words_length {_ _ _ _}.
Arguments so_used {_ _ _ _}.
Arguments so_mapped {_ _ _ _}.
Arguments so_backend {_ _ _ _ _}.
Arguments so_header {_ _ _ _ _}.
Arguments so_table {_ _ _ _ _}.
Arguments so_meta {_ _ _}.
Arguments so_image {_ _ _}.
Arguments so_room {_ _ _}.
Arguments so_size {_ _ _}.

Section Inv.
Context `{Target} `{BackendSpec B}.
Implicit Types (d : t B) (h : Header.t).

Lemma so_layout d : sparse_ok d -> layout (bsz d) d.(header).(Header.disk_size_bytes) (entries d) (doff d).
Proof. intros Hd. apply geometry_layout, (so_geo Hd). Qed.

(** The byte at address [a] of the disk. *)
Definition sparse_byte d (a : Z) : Z :=
  match d.(table) !! Z.to_nat (a / bsz d) with
  | Some e => if e =? 0 then 0 else bytes d (e + a mod bsz d)
  | None => 0
  end.

(** ** The table *)
Lemma used_slots_elem (tb : list Z) e : e ∈ used_slots tb <-> e ∈ tb /\ e <> 0.
Proof.
  unfold used_slots. rewrite list_elem_of_In, filter_In, <- list_elem_of_In, negb_true_iff, Z.eqb_neq. done.
Qed.

Lemma used_slots_app tb1 tb2 : used_slots (tb1 ++ tb2) = used_slots tb1 ++ used_slots tb2.
Proof. apply List.filter_app. Qed.

(** Two blocks with the same data. *)
Lemma slot_unique (tb : list Z) i j e :
  NoDup (used_slots tb) -> tb !! i = Some e -> tb !! j = Some e -> e <> 0 -> i = j.
Proof.
  intros Hn Hi Hj He. destruct (decide (i = j)) as [|Hne]; [done|exfalso].
  assert (forall i j, (i < j)%nat -> tb !! i = Some e -> tb !! j = Some e -> False) as Hlt.
  { clear i j Hi Hj Hne. intros i j Hij Hi Hj. rewrite <- (take_drop_middle _ _ _ Hi) in Hn.
    rewrite used_slots_app in Hn. apply NoDup_app in Hn as (_ & _ & Hn).
    change (used_slots (e :: ?l)) with (if nz e then e :: used_slots l else used_slots l) in Hn.
    rewrite (proj2 (Z.eqb_neq e 0) He) in Hn. apply NoDup_cons in Hn as [Hn _]. apply Hn, used_slots_elem. split; [|done].
    apply list_elem_of_lookup. exists (j - S i)%nat. rewrite lookup_drop. by replace (S i + (j - S i))%nat with j by lia. }
  destruct (decide (i < j)%nat); [by apply (Hlt i j)|apply (Hlt j i); [lia|done..]].
Qed.

(** An entry filled or cleared. *)
Lemma used_slots_insert (tb : list Z) i x y :
  tb !! i = Some x -> exists l1 l2, tb = l1 ++ x :: l2 /\ <[i := y]> tb = l1 ++ y :: l2.
Proof.
  intros Hi. exists (take i tb), (drop (S i) tb). split; [by rewrite take_drop_middle|].
  apply insert_take_drop. by eapply lookup_lt_Some.
Qed.

Lemma used_slots_fill (tb : list Z) i y :
  tb !! i = Some 0 -> y <> 0 -> used_slots (<[i := y]> tb) ≡ₚ y :: used_slots tb.
Proof.
  intros Hi Hy. destruct (used_slots_insert tb i 0 y Hi) as (l1 & l2 & -> & ->). rewrite !used_slots_app.
  change (used_slots (y :: l2)) with (if nz y then y :: used_slots l2 else used_slots l2).
  change (used_slots (0 :: l2)) with (used_slots l2). rewrite (proj2 (Z.eqb_neq y 0) Hy). cbn [negb].
  by rewrite Permutation_middle.
Qed.

Lemma used_slots_clear (tb : list Z) i y :
  tb !! i = Some y -> y <> 0 -> used_slots tb ≡ₚ y :: used_slots (<[i := 0]> tb).
Proof.
  intros Hi Hy. destruct (used_slots_insert tb i y 0 Hi) as (l1 & l2 & -> & ->). rewrite !used_slots_app.
  change (used_slots (y :: l2)) with (if nz y then y :: used_slots l2 else used_slots l2).
  change (used_slots (0 :: l2)) with (used_slots l2). rewrite (proj2 (Z.eqb_neq y 0) Hy). cbn [negb].
  by rewrite Permutation_middle.
Qed.

Lemma used_slots_le (tb : list Z) i : tb !! i = Some 0 -> (length (used_slots tb) < length tb)%nat.
Proof.
  intros Hi. destruct (used_slots_insert tb i 0 0 Hi) as (l1 & l2 & -> & _). rewrite used_slots_app, !length_app.
  change (used_slots (0 :: l2)) with (used_slots l2). cbn [length].
  pose proof (List.filter_length_le (fun e => nz e) l1). pose proof (List.filter_length_le (fun e => nz e) l2).
  unfold used_slots. lia.
Qed.

(** If every slot is in use and some block has none, there are fewer slots
    than blocks. *)
Lemma slots_full (tb : list Z) i n doff bs :
  0 < bs -> 0 < doff -> 0 <= n -> tb !! i = Some 0 ->
  (forall s, 0 <= s < n -> doff + s * bs ∈ tb) -> n < Z.of_nat (length tb).
Proof.
  intros Hbs Hdo Hn Hi Hall. pose proof (used_slots_le tb i Hi) as Hlt.
  set (l := map (fun k => doff + Z.of_nat k * bs) (seq 0 (Z.to_nat n))).
  assert (length l <= length (used_slots tb))%nat as Hle.
  { apply NoDup_incl_length.
    - apply NoDup_ListNoDup. apply NoDup_fmap_2_strong; [|apply NoDup_seq]. intros x y _ _ Hxy. nia.
    - intros e (k & <- & Hk)%in_map_iff. apply in_seq in Hk. apply list_elem_of_In, used_slots_elem. split; [apply Hall; lia|nia]. }
  unfold l in Hle. rewrite length_map, length_seq in Hle. lia.
Qed.

(** ** Reading and writing data *)
Lemma entry_block d i e :
  sparse_ok d -> d.(table) !! i = Some e -> e <> 0 ->
  64 + entries d * 8 <= e /\ e + bsz d <= be_size d.(backend) /\ e + bsz d < 2 ^ 60 /\ Z.of_nat i < entries d.
Proof.
  intros Hd Hi He. destruct (so_slots Hd i e Hi He) as (s & Hs & ->). pose proof (so_layout _ Hd) as [].
  pose proof (so_size Hd). pose proof (ge_allocated _ (so_geo Hd)). apply lookup_lt_Some in Hi.
  pose proof (so_length Hd). assert (0 <= s * bsz d) by (apply Z.mul_nonneg_nonneg; lia).
  assert ((s + 1) * bsz d <= slots d * bsz d) by (apply Z.mul_le_mono_nonneg_r; lia).
  assert (slots d * bsz d <= entries d * bsz d) by (apply Z.mul_le_mono_nonneg_r; lia). lia.
Qed.

(** The bytes of a backend whose metadata did not change. *)
Lemma sparse_ok_backend d b :
  sparse_ok d -> be_ok b -> be_size d.(backend) <= be_size b ->
  (forall a, 0 <= a < 64 + entries d * 8 -> be_byte b a = bytes d a) -> sparse_ok (with_backend b d).
Proof.
  intros Hd Hb Hsz Hby. pose proof (so_layout _ Hd) as []. pose proof (so_length Hd) as Hl.
  split; cbn [backend header table phys_used mapped_blocks with_backend].
  - exact (so_meta Hd).
  - split; [exact Hb|..].
    + rewrite (span_ext (be_byte b) (bytes d)); [exact (so_header Hd)|]. intros x Hx. apply Hby. lia.
    + intros i e Hi. rewrite (span_ext (be_byte b) (bytes d)); [exact (so_table Hd i e Hi)|]. intros x Hx. apply Hby.
      apply lookup_lt_Some in Hi. lia.
  - exact (so_room Hd).
  - exact (Z.le_trans _ _ _ (so_size Hd) Hsz).
Qed.

Lemma slot_apart bs s s' : 0 < bs -> s <> s' -> s * bs + bs <= s' * bs \/ s' * bs + bs <= s * bs.
Proof.
  intros Hbs Hne. destruct (decide (s < s')).
  - left. pose proof (Z.mul_le_mono_nonneg_r (s + 1) s' bs). lia.
  - right. pose proof (Z.mul_le_mono_nonneg_r (s' + 1) s bs). lia.
Qed.

Lemma read_data d i e within n :
  sparse_ok d -> d.(table) !! i = Some e -> e <> 0 -> 0 <= within -> within + Z.of_nat n <= bsz d ->
  read_from_alloc_table e within n d = (Ok (span (sparse_byte d) (Z.of_nat i * bsz d + within) n), d).
Proof.
  intros Hd Hi He Hw Hn. destruct (entry_block d i e Hd Hi He) as (E1 & E2 & E3 & E4). pose proof (so_layout _ Hd) as [].
  unfold read_from_alloc_table. erewrite st_bind_ok; [|unfold st_of_result; by rewrite checked_add_ok by lia].
  unfold on_backend. erewrite zoom_eq; [|apply be_read; [apply (so_backend Hd)|unfold uint; lia|lia]].
  f_equal; [|by destruct d]. f_equal. unfold span. apply map_ext_in. intros k Hk%in_seq.
  assert ((Z.of_nat i * bsz d + within + Z.of_nat k) / bsz d = Z.of_nat i) as Hq
    by (symmetry; apply (Z.div_unique_pos _ _ _ (within + Z.of_nat k)); lia).
  unfold sparse_byte. rewrite (block_mod (bsz d) _ _ ltac:(lia) Hq), Hq, Nat2Z.id, Hi, (proj2 (Z.eqb_neq e 0) He). f_equal. lia.
Qed.

Lemma write_data d i e within src :
  sparse_ok d -> d.(table) !! i = Some e -> e <> 0 -> 0 <= within -> within + Z.of_nat (length src) <= bsz d ->
  Forall byte_ok src ->
  exists b, write_to_alloc_table e within src d = (Ok tt, with_backend b d) /\ sparse_ok (with_backend b d) /\
    forall a, 0 <= a -> sparse_byte (with_backend b d) a = splice (sparse_byte d) (Z.of_nat i * bsz d + within) src a.
Proof.
  intros Hd Hi He Hw Hn Hs. destruct (entry_block d i e Hd Hi He) as (E1 & E2 & E3 & E4). pose proof (so_layout _ Hd) as [].
  pose proof (be_size_ok _ (so_backend Hd)) as Hsz.
  destruct (be_write d.(backend) (e + within) src (so_backend Hd)) as (b & Hwr & Hb & Hbs & Hby); [unfold uint; lia|done|lia|].
  exists b. split; [|split].
  - unfold write_to_alloc_table. erewrite st_bind_ok; [|unfold st_of_result; by rewrite checked_add_ok by lia].
    by apply zoom_eq.
  - apply sparse_ok_backend; [done|done|lia|]. intros a Ha. rewrite Hby by lia. apply splice_other. lia.
  - intros a Ha. unfold sparse_byte. simpl. change (bsz (with_backend b d)) with (bsz d).
    pose proof (Z.mod_pos_bound a (bsz d) ltac:(lia)) as Hm. pose proof (Z.div_mod a (bsz d) ltac:(lia)) as Hdm.
    assert (0 <= a / bsz d) as Hq by (apply Z.div_pos; lia).
    assert (a / bsz d <> Z.of_nat i -> ~ Z.of_nat i * bsz d + within <= a < Z.of_nat i * bsz d + within + Z.of_nat (length src)) as Hout.
    { intros Hne Hin. apply Hne. apply block_of; lia. }
    destruct (d.(table) !! Z.to_nat (a / bsz d)) as [e'|] eqn:Ht.
    2:{ rewrite splice_other; [by rewrite Ht|]. apply Hout. intros Hc. rewrite Hc, Nat2Z.id in Ht. congruence. }
    destruct (Z.eqb_spec e' 0) as [->|He'].
    { rewrite splice_other; [by rewrite Ht|]. apply Hout. intros Hc. rewrite Hc, Nat2Z.id in Ht. congruence. }
    destruct (decide (Z.to_nat (a / bsz d) = i)) as [Heq|Hne].
    + rewrite Heq in Ht. rewrite Hi in Ht. injection Ht as <-.
      destruct (entry_block d i e Hd Hi He) as (F1 & _ & F3 & _). rewrite Hby by lia.
      assert (a = Z.of_nat i * bsz d + a mod bsz d) as Ha' by lia.
      destruct (decide (within <= a mod bsz d < within + Z.of_nat (length src))) as [Hin|Hno].
      * pose proof (splice_in (bytes d) (e + within) src (e + a mod bsz d) ltac:(lia)) as J1.
        pose proof (splice_in (fun a => match d.(table) !! Z.to_nat (a / bsz d) with
          | Some e => if e =? 0 then 0 else bytes d (e + a mod bsz d) | None => 0 end)
          (Z.of_nat i * bsz d + within) src a ltac:(lia)) as J2.
        replace (e + a mod bsz d - (e + within)) with (a - (Z.of_nat i * bsz d + within)) in J1 by lia. congruence.
      * rewrite !splice_other by lia. by rewrite Heq, Hi, (proj2 (Z.eqb_neq e 0) He).
    + destruct (so_slots Hd _ _ Ht He') as (s' & Hs' & ->). destruct (so_slots Hd _ _ Hi He) as (s & Hss & ->).
      assert (s <> s') as Hne' by (intros ->; apply Hne; by eapply slot_unique; [apply (so_nodup Hd)|exact Ht|exact Hi|]).
      pose proof (slot_apart (bsz d) s s' ltac:(lia) Hne'). pose proof (Z.mul_nonneg_nonneg s' (bsz d)).
      rewrite Hby by lia. rewrite !splice_other by (lia || apply Hout; lia).
      by rewrite Ht, (proj2 (Z.eqb_neq _ 0) He').
Qed.

(** Zeros. *)
Lemma write_zeros_ok fuel d i e off n :
  sparse_ok d -> d.(table) !! i = Some e -> e <> 0 -> 0 <= off -> off + Z.of_nat n <= bsz d -> (n <= fuel)%nat ->
  exists b, write_zeros_in_block fuel e off n d = (Ok tt, with_backend b d) /\ sparse_ok (with_backend b d) /\
    forall a, 0 <= a -> sparse_byte (with_backend b d) a = splice (sparse_byte d) (Z.of_nat i * bsz d + off) (replicate n 0) a.
Proof.
  revert d off n. induction fuel as [|fuel IH]; intros d off n Hd Hi He Ho Hn Hf; cbn [write_zeros_in_block].
  { destruct n; [|lia]. exists d.(backend). split; [by destruct d|]. replace (with_backend d.(backend) d) with d by (by destruct d).
    split; [done|]. intros a Ha. by rewrite splice_nil. }
  destruct (Nat.eqb_spec n 0) as [->|Hn0].
  { exists d.(backend). split; [by destruct d|]. replace (with_backend d.(backend) d) with d by (by destruct d).
    split; [done|]. intros a Ha. by rewrite splice_nil. }
  set (m := Nat.min n (Z.to_nat 4096)). assert (0 < m <= n)%nat as Hm by lia.
  destruct (write_data d i e off (replicate m 0) Hd Hi He Ho) as (b1 & Hw & Hd1 & Hb1).
  { rewrite length_replicate. lia. }
  { by apply Forall_replicate. }
  erewrite st_bind_ok; [|exact Hw].
  destruct (IH (with_backend b1 d) (off + Z.of_nat m) (n - m)%nat Hd1 Hi He) as (b2 & Hz & Hd2 & Hb2); [lia..|change (bsz (with_backend b1 d)) with (bsz d); lia|lia|].
  exists b2. split; [exact Hz|]. split; [exact Hd2|]. intros a Ha.
  change (with_backend b2 d) with (with_backend b2 (with_backend b1 d)). rewrite Hb2 by done.
  replace (replicate n 0) with (replicate m 0 ++ replicate (n - m) 0) by (rewrite <- replicate_add; f_equal; lia).
  rewrite <- splice_app, length_replicate. change (bsz (with_backend b1 d)) with (bsz d).
  replace (Z.of_nat i * bsz d + (off + Z.of_nat m)) with (Z.of_nat i * bsz d + off + Z.of_nat m) by lia.
  apply splice_ext. by apply Hb1.
Qed.
End Inv.
