(* ===== verification/SparseAlloc.v ===== *)
(** * Sparse disks: allocating and freeing blocks *)

From S2P Require Import Prelude Bytes GuestMem Storage StorageFacts SparseDisk SparseFacts SparseInv.
Import AeroSparseDisk.

(** ** The metadata in memory *)
Section Meta.
Implicit Types (h : Header.t) (tb words : list Z).

Lemma geometry_allocated h n :
  geometry_ok h -> 0 <= n <= h.(Header.table_entries) -> geometry_ok (Header.with_allocated_blocks n h).
Proof. by intros [] Hn. Qed.

(** A block gets a slot. *)
Lemma meta_alloc h tb words m i s n words' :
  meta_ok h tb words m -> tb !! i = Some 0 -> 0 <= s < n ->
  h.(Header.allocated_blocks) <= n <= h.(Header.table_entries) ->
  h.(Header.data_offset) + s * h.(Header.block_size_bytes) ∉ tb ->
  Forall (uint 64) words' -> length words' = Z.to_nat ((n + 63) / 64) ->
  (forall x, 0 <= x -> used_bit words' x = (x =? s) || used_bit words x) ->
  meta_ok (Header.with_allocated_blocks n h) (<[i := h.(Header.data_offset) + s * h.(Header.block_size_bytes)]> tb)
    words' (m + 1).
Proof.
  intros Hm Hi Hs Hn Hnew Hw Hl Hbits. pose proof (geometry_layout _ (so_geo Hm)) as [].
  set (bs := h.(Header.block_size_bytes)) in *. set (o := h.(Header.data_offset)) in *.
  assert (0 <= s * bs) as Hsb by (apply Z.mul_nonneg_nonneg; lia).
  pose proof (used_slots_fill tb i (o + s * bs) Hi ltac:(lia)) as Hp.
  split; cbn [Header.with_allocated_blocks Header.table_entries Header.allocated_blocks Header.data_offset
              Header.block_size_bytes]; fold bs o.
  - apply geometry_allocated; [apply (so_geo Hm)|]. pose proof (ge_allocated _ (so_geo Hm)). lia.
  - rewrite length_insert. apply (so_length Hm).
  - intros j e Hj He. destruct (decide (j = i)) as [->|Hne].
    + rewrite list_lookup_insert_eq in Hj by (by eapply lookup_lt_Some). injection Hj as <-. by exists s.
    + rewrite list_lookup_insert_ne in Hj by done. destruct (so_slots Hm j e Hj He) as (s' & Hs' & ->).
      exists s'. split; [lia|done].
  - rewrite Hp. apply NoDup_cons. split; [|apply (so_nodup Hm)]. by rewrite used_slots_elem; intros [? _].
  - done.
  - done.
  - intros x Hx. rewrite Hbits, orb_true_iff, Z.eqb_eq, (so_used Hm x Hx) by done. fold bs o.
    assert (0 <= x * bs) as Hxb by (apply Z.mul_nonneg_nonneg; lia).
    assert (o + x * bs ∈ <[i := o + s * bs]> tb <-> o + x * bs = o + s * bs \/ o + x * bs ∈ tb) as ->.
    { transitivity (o + x * bs ∈ used_slots (<[i := o + s * bs]> tb)).
      - rewrite used_slots_elem. split; [intros ?; split; [done|lia]|by intros [? _]].
      - rewrite Hp, elem_of_cons, used_slots_elem. split; intros [?|?]; [by left| |by left|].
        + right. tauto.
        + right. split; [done|lia]. }
    split.
    + intros [->|[Hx1 Hx2]]; [split; [lia|by left]|split; [lia|by right]].
    + intros [Hx1 [Heq|Hx2]]; [left; assert (x * bs = s * bs) as Hxs by lia; apply Z.mul_reg_r in Hxs; lia|].
      apply list_elem_of_lookup in Hx2 as (j & Hj).
      destruct (so_slots Hm j _ Hj ltac:(lia)) as (s' & Hs' & Heq). fold bs o in Heq.
      assert (x * bs = s' * bs) as Hxs by lia. apply Z.mul_reg_r in Hxs; [|lia]. subst x.
      right. split; [lia|]. by eapply list_elem_of_lookup_2.
  - rewrite Hp. cbn [length]. rewrite (so_mapped Hm). lia.
Qed.

(** A block gives its slot back. *)
Lemma meta_free h tb words m i s words' :
  meta_ok h tb words m -> 0 <= s < h.(Header.allocated_blocks) ->
  tb !! i = Some (h.(Header.data_offset) + s * h.(Header.block_size_bytes)) ->
  Forall (uint 64) words' -> length words' = length words ->
  (forall x, 0 <= x -> used_bit words' x = negb (x =? s) && used_bit words x) ->
  meta_ok h (<[i := 0]> tb) words' (m - 1).
Proof.
  intros Hm Hs Hi Hw Hl Hbits. pose proof (geometry_layout _ (so_geo Hm)) as [].
  set (bs := h.(Header.block_size_bytes)) in *. set (o := h.(Header.data_offset)) in *.
  assert (0 <= s * bs) as Hsb by (apply Z.mul_nonneg_nonneg; lia).
  pose proof (used_slots_clear tb i (o + s * bs) Hi ltac:(lia)) as Hp.
  pose proof (so_nodup Hm) as Hnd. rewrite Hp in Hnd. apply NoDup_cons in Hnd as [Hnin Hnd].
  split; fold bs o.
  - apply (so_geo Hm).
  - rewrite length_insert. apply (so_length Hm).
  - intros j e Hj He. destruct (decide (j = i)) as [->|Hne].
    + rewrite list_lookup_insert_eq in Hj by (by eapply lookup_lt_Some). injection Hj as <-. done.
    + rewrite list_lookup_insert_ne in Hj by done. by apply (so_slots Hm j e).
  - done.
  - done.
  - rewrite Hl. apply (so_words_length Hm).
  - intros x Hx. rewrite Hbits, andb_true_iff, negb_true_iff, Z.eqb_neq, (so_used Hm x Hx) by done. fold bs o.
    assert (0 <= x * bs) as Hxb by (apply Z.mul_nonneg_nonneg; lia).
    assert (forall l, o + x * bs ∈ l <-> o + x * bs ∈ used_slots l) as Hu.
    { intros l. rewrite used_slots_elem. split; [intros ?; split; [done|lia]|by intros [? _]]. }
    rewrite (Hu tb), (Hu (<[i := 0]> tb)), Hp, elem_of_cons. split.
    + intros (Hne & Hlt & [Heq|Hin]); [|done]. exfalso. apply Hne. apply (Z.mul_reg_r _ _ bs); lia.
    + intros [Hlt Hin]. split; [|by auto]. by intros ->.
  - rewrite (so_mapped Hm), Hp. cbn [length]. lia.
Qed.

(** Free slots at the end are dropped. *)
Lemma meta_trim h tb words m n :
  meta_ok h tb words m -> 0 <= n <= h.(Header.allocated_blocks) ->
  (forall x, n <= x < h.(Header.allocated_blocks) -> used_bit words x = false) ->
  meta_ok (Header.with_allocated_blocks n h) tb (take (Z.to_nat ((n + 63) / 64)) words) m.
Proof.
  intros Hm Hn Hfree. pose proof (geometry_layout _ (so_geo Hm)) as [].
  pose proof (ge_allocated _ (so_geo Hm)) as Hal.
  set (bs := h.(Header.block_size_bytes)) in *. set (o := h.(Header.data_offset)) in *.
  assert ((n + 63) / 64 <= (h.(Header.allocated_blocks) + 63) / 64) as Hle by (apply Z.div_le_mono; lia).
  split; cbn [Header.with_allocated_blocks Header.table_entries Header.allocated_blocks Header.data_offset
              Header.block_size_bytes]; fold bs o.
  - apply geometry_allocated; [apply (so_geo Hm)|]. lia.
  - apply (so_length Hm).
  - intros j e Hj He. destruct (so_slots Hm j e Hj He) as (s & Hs & ->). exists s. split; [|done]. split; [lia|].
    destruct (Z.lt_ge_cases s n); [done|]. exfalso.
    assert (used_bit words s = true) as Hu by (apply (so_used Hm s); [lia|]; split; [lia|by eapply list_elem_of_lookup_2]).
    rewrite Hfree in Hu by lia. done.
  - apply (so_nodup Hm).
  - apply Forall_take, (so_words Hm).
  - rewrite length_take, (so_words_length Hm). lia.
  - intros x Hx. pose proof (Z.div_mod (n + 63) 64 ltac:(lia)) as D1. pose proof (Z.mod_pos_bound (n + 63) 64 ltac:(lia)) as D2.
    pose proof (Z.div_mod x 64 ltac:(lia)) as D3. pose proof (Z.mod_pos_bound x 64 ltac:(lia)) as D4.
    assert (used_bit (take (Z.to_nat ((n + 63) / 64)) words) x = if x <? n then used_bit words x else false) as ->.
    { destruct (Z.ltb_spec x n) as [Hlt|Hge].
      - unfold used_bit. rewrite lookup_take_lt by lia. done.
      - destruct (decide (Z.to_nat (x / 64) < Z.to_nat ((n + 63) / 64))%nat) as [Hlt|Hge'].
        + transitivity (used_bit words x); [unfold used_bit; by rewrite lookup_take_lt by lia|].
          destruct (Z.lt_ge_cases x h.(Header.allocated_blocks)); [apply Hfree; lia|].
          apply not_true_iff_false. rewrite (so_used Hm x Hx). lia.
        + unfold used_bit. rewrite lookup_take_ge by lia. done. }
    fold bs o. destruct (Z.ltb_spec x n) as [Hlt|Hge].
    + rewrite (so_used Hm x Hx). split; intros [? ?]; (split; [lia|done]).
    + split; [done|lia].
  - apply (so_mapped Hm).
Qed.
End Meta.

(** ** The metadata in the image *)
Section Image.
Context `{BackendSpec B}.
Implicit Types (h : Header.t) (tb : list Z) (b : B).

Lemma image_header h h' tb b :
  image_ok h tb b -> geometry_ok h' -> 64 <= be_limit ->
  exists b', backend_write_at 0 (Header.encode h') b = (Ok tt, b') /\ image_ok h' tb b' /\
    be_size b' = Z.max (be_size b) 64 /\ forall a, 64 <= a -> be_byte b' a = be_byte b a.
Proof.
  intros Hi Hg Hl. destruct (be_write b 0 (Header.encode h') (so_backend Hi)) as (b' & Hw & Hb & Hsz & Hby);
    rewrite ?encode_length in *; [done|apply encode_ok|lia|].
  assert (forall a, 64 <= a -> be_byte b' a = be_byte b a) as Hout.
  { intros a Ha. rewrite Hby by lia. apply splice_other. rewrite encode_length. lia. }
  exists b'. split; [done|]. split; [|split; [lia|done]]. split; [done|..].
  - rewrite (span_ext (be_byte b') (splice (be_byte b) 0 (Header.encode h'))) by (intros; apply Hby; lia).
    rewrite <- (encode_length h') at 1. rewrite splice_span. by apply header_decode_encode.
  - intros i e He. rewrite (span_ext (be_byte b') (be_byte b)) by (intros; apply Hout; lia). by apply (so_table Hi).
Qed.

Lemma image_entry h tb b i v :
  image_ok h tb b -> (i < length tb)%nat -> uint 64 v -> 64 + 8 * Z.of_nat (length tb) <= be_limit ->
  exists b', backend_write_at (64 + Z.of_nat i * 8) (to_le_bytes 8 v) b = (Ok tt, b') /\
    image_ok h (<[i := v]> tb) b' /\ be_size b <= be_size b' /\
    forall a, 64 + 8 * Z.of_nat (length tb) <= a -> be_byte b' a = be_byte b a.
Proof.
  intros Hi Hlt Hv Hl. pose proof be_limit_ok as Hlim.
  destruct (be_write b (64 + Z.of_nat i * 8) (to_le_bytes 8 v) (so_backend Hi)) as (b' & Hw & Hb & Hsz & Hby);
    rewrite ?to_le_bytes_length in *; [unfold uint; lia|apply to_le_bytes_ok|lia|].
  assert (forall a, 0 <= a -> ~ 64 + Z.of_nat i * 8 <= a < 64 + Z.of_nat i * 8 + 8 -> be_byte b' a = be_byte b a) as Hout.
  { intros a Ha Hn. rewrite Hby by lia. apply splice_other. rewrite to_le_bytes_length. lia. }
  exists b'. split; [done|]. split; [|split; [lia|intros a Ha; apply Hout; lia]]. split; [done|..].
  - rewrite (span_ext (be_byte b') (be_byte b)) by (intros; apply Hout; lia). apply (so_header Hi).
  - intros j e He. destruct (decide (j = i)) as [->|Hne].
    + rewrite list_lookup_insert_eq in He by done. injection He as <-.
      rewrite (span_ext (be_byte b') (splice (be_byte b) (64 + Z.of_nat i * 8) (to_le_bytes 8 v))) by (intros; apply Hby; lia).
      replace (64 + 8 * Z.of_nat i) with (64 + Z.of_nat i * 8) by lia.
      rewrite <- (to_le_bytes_length 8 v) at 2. rewrite splice_span. by apply from_to_le_bytes_id.
    + rewrite list_lookup_insert_ne in He by done.
      rewrite (span_ext (be_byte b') (be_byte b)) by (intros; apply Hout; lia). by apply (so_table Hi).
Qed.

Lemma image_resize h tb b n :
  image_ok h tb b -> 64 + 8 * Z.of_nat (length tb) <= n <= be_limit ->
  exists b', backend_set_len n b = (Ok tt, b') /\ image_ok h tb b' /\ be_size b' = n /\
    forall a, 0 <= a -> a < n \/ be_size b <= a -> be_byte b' a = be_byte b a.
Proof.
  intros Hi Hn. destruct (be_set_len b n (so_backend Hi) ltac:(lia)) as (b' & Hw & Hb & Hsz & Hby).
  assert (forall a, 0 <= a -> a < n \/ be_size b <= a -> be_byte b' a = be_byte b a) as Hsame.
  { intros a Ha Hor. rewrite Hby by done. destruct (Z.ltb_spec a n); [done|]. symmetry.
    apply be_byte_out; [apply (so_backend Hi)|lia]. }
  exists b'. split; [done|]. split; [|done]. split; [done|..].
  - rewrite (span_ext (be_byte b') (be_byte b)) by (intros; apply Hsame; lia). apply (so_header Hi).
  - intros i e He. pose proof (lookup_lt_Some _ _ _ He).
    rewrite (span_ext (be_byte b') (be_byte b)) by (intros; apply Hsame; lia). by apply (so_table Hi).
Qed.
End Image.

(** ** Allocating *)
Section Alloc.
Context `{Target} `{BackendSpec B}.
Implicit Types (d : t B).

Lemma phys_offset_ok d s :
  geometry_ok d.(header) -> 0 <= s < entries d -> phys_offset_for_idx d s = Ok (doff d + s * bsz d).
Proof.
  intros Hd Hs. pose proof (geometry_layout _ Hd) as []. unfold phys_offset_for_idx, block_size.
  assert (s * bsz d <= entries d * bsz d) by (apply Z.mul_le_mono_nonneg_r; lia).
  rewrite checked_mul_ok by lia. cbn [ok_or result_bind]. by rewrite checked_add_ok by lia.
Qed.

Lemma usize_div s : 0 <= s < 2 ^ 32 -> try_usize s = Some (Z.to_nat s) /\
  (Z.to_nat s / 64)%nat = Z.to_nat (s / 64) /\ Z.of_nat (Z.to_nat s mod 64) = s mod 64.
Proof.
  intros Hs. split; [apply try_usize_ok; lia|]. split.
  - rewrite Z2Nat.inj_div by lia. done.
  - rewrite Nat2Z.inj_mod, Z2Nat.id by lia. done.
Qed.

Lemma set_phys_used_ok d s w (used : bool) :
  0 <= s < 2 ^ 32 -> d.(phys_used) !! Z.to_nat (s / 64) = Some w ->
  set_phys_used s used d =
  (Ok tt, with_phys_used (<[Z.to_nat (s / 64) := if used then w ||| (1 <<< (s mod 64)) else w &&& unot 64 (1 <<< (s mod 64))]>
                            d.(phys_used)) d).
Proof.
  intros Hs Hw. destruct (usize_div s Hs) as (E1 & E2 & E3). unfold set_phys_used. rewrite E1, E2, E3, Hw. by destruct used.
Qed.

(** A slot after the last one, when every slot is in use. *)
Lemma append_slot_ok d i :
  sparse_ok d -> d.(table) !! i = Some 0 ->
  (forall s, 0 <= s < slots d -> used_bit d.(phys_used) s = true) ->
  slots d < entries d /\
  exists words, append_slot d = (Ok (doff d + slots d * bsz d), with_phys_used words (with_allocated_blocks (slots d + 1) d)) /\
    Forall (uint 64) words /\ length words = Z.to_nat ((slots d + 1 + 63) / 64) /\
    forall x, 0 <= x -> used_bit words x = (x =? slots d) || used_bit d.(phys_used) x.
Proof.
  intros Hd Hi Hall. pose proof (so_layout _ Hd) as []. pose proof (ge_allocated _ (so_geo Hd)) as Hal.
  assert (slots d < entries d) as Hlt.
  { rewrite <- (so_length Hd). apply (slots_full d.(table) i (slots d) (doff d) (bsz d)); [lia..|done|].
    intros s Hs. apply (so_used Hd s); [lia|by apply Hall]. }
  split; [done|]. set (n := slots d) in *. set (W := Z.to_nat ((n + 1 + 63) / 64)).
  assert (length d.(phys_used) <= W)%nat as Hle.
  { rewrite (so_words_length Hd). fold n. unfold W. pose proof (Z.div_le_mono (n + 63) (n + 1 + 63) 64). lia. }
  set (ws := resize W 0 d.(phys_used)).
  assert (length ws = W) as Hws by apply length_resize.
  assert (forall x, used_bit ws x = used_bit d.(phys_used) x) as Hbit.
  { intros x. unfold used_bit, ws. destruct (decide (Z.to_nat (x / 64) < length d.(phys_used))%nat) as [Hx|Hx].
    - unfold resize. rewrite take_ge by done. by rewrite lookup_app_l by done.
    - rewrite (lookup_ge_None_2 d.(phys_used)) by lia. unfold resize. rewrite take_ge by done.
      rewrite lookup_app_r by lia. destruct (decide (Z.to_nat (x / 64) - length d.(phys_used) < W - length d.(phys_used))%nat).
      + rewrite lookup_replicate_2 by lia. apply Z.bits_0.
      + by rewrite lookup_ge_None_2 by (rewrite length_replicate; lia). }
  destruct (word_lookup ws (n + 1) n Hws ltac:(lia)) as [w Hw].
  assert (Forall (uint 64) ws) as Hu by (apply Forall_app; split; [apply Forall_take, (so_words Hd)|by apply Forall_replicate]).
  pose proof (Forall_lookup_1 _ _ _ _ Hu Hw) as Hu1. pose proof (Z.mod_pos_bound n 64 ltac:(lia)).
  exists (<[Z.to_nat (n / 64) := w ||| (1 <<< (n mod 64))]> ws). split; [|split; [|split]].
  - unfold append_slot. fold n. rewrite (phys_offset_ok d n (so_geo Hd)) by lia.
    erewrite st_bind_ok; [|reflexivity].
    erewrite st_bind_ok; [|unfold st_of_result; by rewrite checked_add_ok by lia].
    erewrite st_bind_ok; [|reflexivity].
    pose proof (Z.div_mod (n + 1 + 63) 64 ltac:(lia)). pose proof (Z.mod_pos_bound (n + 1 + 63) 64 ltac:(lia)).
    erewrite st_bind_ok; [|unfold st_of_result; by rewrite try_usize_ok by lia].
    erewrite st_bind_ok; [|reflexivity]. fold W. cbn [with_allocated_blocks phys_used].
    replace (if (length d.(phys_used) <? W)%nat then with_phys_used (resize W 0 d.(phys_used)) (with_allocated_blocks (n + 1) d)
             else with_allocated_blocks (n + 1) d) with (with_phys_used ws (with_allocated_blocks (n + 1) d)).
    2:{ destruct (Nat.ltb_spec (length d.(phys_used)) W); [done|]. unfold ws. replace W with (length d.(phys_used)) by lia. rewrite resize_same. by destruct d. }
    erewrite st_bind_ok; [|apply (set_phys_used_ok _ n w true); [lia|exact Hw]]. done.
  - apply Forall_insert; [done|]. by apply set_bit_ok.
  - by rewrite length_insert.
  - intros x Hx. rewrite used_bit_set by (done || lia). by rewrite Hbit.
Qed.

Lemma take_slot_ok d i :
  sparse_ok d -> d.(table) !! i = Some 0 ->
  exists s n words (new : bool), take_slot d = (Ok (doff d + s * bsz d, new), with_phys_used words (with_allocated_blocks n d)) /\
    0 <= s < n /\ slots d <= n <= entries d /\ (if new then n = s + 1 else n = slots d) /\ (doff d + s * bsz d ∉ d.(table)) /\
    Forall (uint 64) words /\ length words = Z.to_nat ((n + 63) / 64) /\
    forall x, 0 <= x -> used_bit words x = (x =? s) || used_bit d.(phys_used) x.
Proof.
  intros Hd Hi. pose proof (so_layout _ Hd) as []. pose proof (ge_allocated _ (so_geo Hd)) as Hal.
  pose proof (so_words_length Hd) as Hwl. pose proof (Z.div_mod (slots d + 63) 64 ltac:(lia)).
  pose proof (Z.mod_pos_bound (slots d + 63) 64 ltac:(lia)).
  pose proof (find_free_ok (slots d) 0 d.(phys_used) (so_words Hd) ltac:(lia)) as Hff.
  unfold take_slot, st_bind at 1, find_free_phys_idx. destruct (find_free (slots d) 0 d.(phys_used)) as [[[idx|]|e] ws]; [| |done].
  - replace (idx - 64 * Z.of_nat 0) with idx in Hff by lia. destruct Hff as (J1 & J2 & J3 & J4 & J5 & J6).
    exists idx, (slots d), ws, false. rewrite (phys_offset_ok (with_phys_used ws d) idx (so_geo Hd)) by (cbn [header with_phys_used]; lia).
    split; [|split_and!; try lia; try done].
    + cbn [result_bind]. do 2 f_equal. by destruct d as [? [] ? ? ?].
    + intros Hin. destruct (so_used Hd idx J1) as [_ Hu]. rewrite Hu in J3 by (split; [lia|done]). done.
  - destruct Hff as [-> Hall]. destruct (append_slot_ok d i Hd Hi) as (Hlt & ws & Ha & Hu & Hl & Hb).
    { intros s Hs. apply Hall; lia. }
    exists (slots d), (slots d + 1), ws, true. replace (with_phys_used d.(phys_used) d) with d by (by destruct d).
    erewrite st_bind_ok; [|exact Ha]. split; [done|]. split_and!; try lia; try done.
    intros Hin. apply list_elem_of_lookup in Hin as (j & Hj).
    assert (0 <= slots d * bsz d) by (apply Z.mul_nonneg_nonneg; lia).
    destruct (so_slots Hd j _ Hj ltac:(lia)) as (s & Hs & Heq).
    assert (slots d * bsz d = s * bsz d) as Hm by lia. apply Z.mul_reg_r in Hm; lia.
Qed.

(** The same bytes in a block that kept its slot and its data. *)
Lemma sparse_byte_same d d' a :
  bsz d' = bsz d -> 0 < bsz d -> d'.(table) !! Z.to_nat (a / bsz d) = d.(table) !! Z.to_nat (a / bsz d) ->
  (forall e x, d.(table) !! Z.to_nat (a / bsz d) = Some e -> e <> 0 -> e <= x < e + bsz d -> bytes d' x = bytes d x) ->
  sparse_byte d' a = sparse_byte d a.
Proof.
  intros Hb Hp Ht Hx. unfold sparse_byte. rewrite Hb, Ht. destruct (d.(table) !! Z.to_nat (a / bsz d)) as [e|] eqn:E; [|done].
  destruct (Z.eqb_spec e 0) as [|He]; [done|]. pose proof (Z.mod_pos_bound a (bsz d) Hp). apply (Hx e); [done|done|lia].
Qed.

Lemma block_index (d : t B) (i : nat) :
  sparse_ok d -> (i < length d.(table))%nat -> try_usize (Z.of_nat i) = Some i.
Proof.
  intros Hd Hi. pose proof (so_layout _ Hd) as []. pose proof (so_length Hd).
  rewrite try_usize_ok by lia. by rewrite Nat2Z.id.
Qed.

Lemma table_entry_off_ok d i :
  sparse_ok d -> (i < length d.(table))%nat -> table_entry_off (Z.of_nat i) = Ok (64 + Z.of_nat i * 8).
Proof.
  intros Hd Hi. pose proof (so_layout _ Hd) as []. pose proof (so_length Hd). unfold table_entry_off.
  rewrite checked_mul_ok by lia. cbn [ok_or result_bind]. by rewrite checked_add_ok by lia.
Qed.

Lemma ensure_existing d i e :
  sparse_ok d -> d.(table) !! i = Some e -> e <> 0 -> ensure_block_allocated (Z.of_nat i) d = (Ok (e, true), d).
Proof.
  intros Hd Hi He. unfold ensure_block_allocated. rewrite (block_index d i Hd) by (by eapply lookup_lt_Some).
  cbn [ok_or result_bind]. rewrite Hi. cbn [ok_or result_bind]. by rewrite (proj2 (Z.eqb_neq e 0) He).
Qed.

(** The image after a block got a slot: header if the slot is new, entry, length. *)
Lemma publish_ok h n tb b i phys (new : bool) endp :
  image_ok h tb b -> geometry_ok (Header.with_allocated_blocks n h) -> 64 + 8 * Z.of_nat (length tb) <= endp ->
  64 + 8 * Z.of_nat (length tb) <= be_limit -> endp <= be_limit -> uint 64 phys -> (i < length tb)%nat ->
  (new = false -> n = h.(Header.allocated_blocks)) ->
  exists b1 b2 b3,
    (if new then backend_write_at 0 (Header.encode (Header.with_allocated_blocks n h)) b else (Ok tt, b)) = (Ok tt, b1) /\
    backend_write_at (64 + Z.of_nat i * 8) (to_le_bytes 8 phys) b1 = (Ok tt, b2) /\ be_ok b2 /\
    (if be_size b2 <? endp then backend_set_len endp b2 else (Ok tt, b2)) = (Ok tt, b3) /\
    image_ok (Header.with_allocated_blocks n h) (<[i := phys]> tb) b3 /\
    be_size b <= be_size b3 /\ endp <= be_size b3 /\
    forall a, 64 + 8 * Z.of_nat (length tb) <= a -> be_byte b3 a = be_byte b a.
Proof.
  intros Hi Hg Hend Hl Hl2 Hp Hlt Hnew.
  assert (exists b1, (if new then backend_write_at 0 (Header.encode (Header.with_allocated_blocks n h)) b else (Ok tt, b)) = (Ok tt, b1) /\
    image_ok (Header.with_allocated_blocks n h) tb b1 /\ be_size b <= be_size b1 /\
    forall a, 64 <= a -> be_byte b1 a = be_byte b a) as (b1 & E1 & I1 & S1 & B1).
  { destruct new.
    - destruct (image_header h _ tb b Hi Hg ltac:(lia)) as (b1 & ? & ? & ? & ?). exists b1. split_and!; try done. lia.
    - exists b. rewrite Hnew by done. split; [done|]. split; [by destruct h|]. split; [lia|done]. }
  destruct (image_entry _ tb b1 i phys I1 Hlt Hp Hl) as (b2 & E2 & I2 & S2 & B2).
  assert (exists b3, (if be_size b2 <? endp then backend_set_len endp b2 else (Ok tt, b2)) = (Ok tt, b3) /\
    image_ok (Header.with_allocated_blocks n h) (<[i := phys]> tb) b3 /\ be_size b2 <= be_size b3 /\ endp <= be_size b3 /\
    forall a, 0 <= a -> be_byte b3 a = be_byte b2 a) as (b3 & E3 & I3 & S3 & S4 & B3).
  { destruct (Z.ltb_spec (be_size b2) endp) as [Hlt2|Hge].
    - destruct (image_resize _ _ b2 endp I2) as (b3 & ? & ? & ? & Hby); [rewrite length_insert; lia|].
      exists b3. split; [done|]. split; [done|]. split; [lia|]. split; [lia|]. intros a Ha. apply Hby; lia.
    - exists b2. split; [done|]. split; [done|]. split; [lia|]. split; [lia|done]. }
  exists b1, b2, b3. split; [done|]. split; [done|]. split; [apply (so_backend I2)|]. split; [done|]. split; [done|].
  split; [lia|]. split; [lia|]. intros a Ha. rewrite B3, B2, B1 by lia. done.
Qed.

(** What allocation does: block [i] gets a slot of its own, with bytes that are
    not specified; every other block keeps its bytes. *)
Lemma ensure_new d i :
  sparse_ok d -> d.(table) !! i = Some 0 ->
  exists e n d', ensure_block_allocated (Z.of_nat i) d = (Ok (e, false), d') /\ sparse_ok d' /\ e <> 0 /\
    d'.(table) = <[i := e]> d.(table) /\ d'.(header) = Header.with_allocated_blocks n d.(header) /\
    forall a, 0 <= a -> a / bsz d <> Z.of_nat i -> sparse_byte d' a = sparse_byte d a.
Proof.
  intros Hd Hi. pose proof (so_layout _ Hd) as []. pose proof (so_length Hd) as Hlen. pose proof (so_room Hd) as Hroom.
  pose proof be_limit_ok as Hlim. pose proof (ge_allocated _ (so_geo Hd)) as Hal.
  assert (i < length d.(table))%nat as Hlt by (by eapply lookup_lt_Some).
  destruct (take_slot_ok d i Hd Hi) as (s & n & ws & new & Ht & Hs & Hn & Hnew & Hnin & Hu & Hl & Hbits).
  assert (0 <= s * bsz d) as Hsb by (apply Z.mul_nonneg_nonneg; lia).
  assert ((s + 1) * bsz d <= n * bsz d) as Hsn by (apply Z.mul_le_mono_nonneg_r; lia).
  assert (n * bsz d <= entries d * bsz d) as Hnn by (apply Z.mul_le_mono_nonneg_r; lia).
  assert (0 <= entries d * bsz d) as Hnz by (apply Z.mul_nonneg_nonneg; lia).
  set (phys := doff d + s * bsz d) in *.
  destruct (publish_ok d.(header) n d.(table) d.(backend) i phys new (phys + bsz d) (so_image Hd))
    as (b1 & b2 & b3 & E1 & E2 & Hb2 & E3 & I3 & S3 & S4 & B3); [apply geometry_allocated; [apply (so_geo Hd)|lia]|lia..|unfold uint; lia|done|by intros ->|].
  pose proof (meta_alloc _ _ _ _ i s n ws (so_meta Hd) Hi Hs Hn Hnin Hu Hl Hbits) as Hm. fold phys in Hm.
  pose proof (List.filter_length_le (fun e => nz e) d.(table)) as Hmb. fold (used_slots d.(table)) in Hmb.
  pose proof (so_mapped Hd) as Hmap.
  set (d' := mk b3 (Header.with_allocated_blocks n d.(header)) (<[i := phys]> d.(table)) ws (d.(mapped_blocks) + 1)).
  exists phys, n, d'. split; [|split; [|split; [lia|split; [done|split; [done|]]]]].
  - unfold ensure_block_allocated. rewrite (block_index d i Hd Hlt). cbn [ok_or result_bind]. rewrite Hi. cbn [ok_or result_bind nz].
    change (nz 0) with false. cbn iota.
    erewrite st_bind_ok; [|exact Ht]. cbv beta iota.
    erewrite st_bind_ok; [|reflexivity]. unfold with_table, with_phys_used, with_allocated_blocks.
    cbn [backend header table phys_used mapped_blocks].
    erewrite st_bind_ok; [|cbn [mapped_blocks]; by rewrite checked_add_ok by lia].
    erewrite st_bind_ok; [|reflexivity]. unfold with_mapped_blocks. cbn [backend header table phys_used].
    erewrite (st_bind_ok _ _ _ tt (mk b1 (Header.with_allocated_blocks n d.(header)) (<[i := phys]> d.(table)) ws (d.(mapped_blocks) + 1))).
    2:{ destruct new; [|by injection E1 as <-]. unfold on_backend, zoom. cbn [backend header]. by rewrite E1. }
    rewrite (table_entry_off_ok d i Hd Hlt). erewrite st_bind_ok; [|reflexivity].
    erewrite st_bind_ok; [|apply zoom_eq; exact E2]. unfold with_backend. cbn [backend header table phys_used mapped_blocks].
    unfold block_size. erewrite st_bind_ok; [|unfold st_of_result; by rewrite checked_add_ok by lia].
    erewrite st_bind_ok; [|apply zoom_eq, be_len; exact Hb2]. unfold with_backend. cbn [backend header table phys_used mapped_blocks].
    erewrite (st_bind_ok _ _ _ tt d'); [done|]. destruct (be_size b2 <? phys + bsz d).
    + unfold on_backend, zoom. cbn [backend]. by rewrite E3.
    + injection E3 as ->. done.
  - split; [exact Hm|exact I3|exact Hroom|]. unfold d'. cbn [header backend].
    change (doff d + n * bsz d <= be_size b3). pose proof (so_size Hd).
    destruct new; [|rewrite Hnew]; lia.
  - intros a Ha Hq. apply sparse_byte_same; [done|lia|..].
    + unfold d'. cbn [table]. assert (0 <= a / bsz d) by (apply Z.div_pos; lia). rewrite list_lookup_insert_ne by lia. done.
    + intros e x He Hne Hx. destruct (entry_block d _ e Hd He Hne) as (F1 & _). apply B3. lia.
Qed.

(** ** Freeing *)
(** Block [i] reads as zeros afterwards; every other block keeps its bytes. *)
Lemma deallocate_ok d i :
  sparse_ok d -> (i < length d.(table))%nat ->
  exists r d', deallocate_block_inner (Z.of_nat i) d = (Ok r, d') /\ sparse_ok d' /\
    d'.(table) = <[i := 0]> d.(table) /\ d'.(header) = d.(header) /\ r = is_block_allocated d (Z.of_nat i) /\
    forall a, 0 <= a -> sparse_byte d' a = if a / bsz d =? Z.of_nat i then 0 else sparse_byte d a.
Proof.
  intros Hd Hlt. pose proof (so_layout _ Hd) as []. pose proof (so_length Hd) as Hlen. pose proof (so_room Hd) as Hroom.
  destruct (lookup_lt_is_Some_2 d.(table) i Hlt) as [e Hi].
  unfold deallocate_block_inner, is_block_allocated. rewrite (block_index d i Hd Hlt). cbn [ok_or result_bind]. rewrite Hi. cbn [ok_or result_bind].
  destruct (Z.eqb_spec e 0) as [->|He].
  - exists false, d. split; [done|]. split; [done|]. split; [by rewrite list_insert_id|]. split; [done|]. split; [done|].
    intros a Ha. destruct (Z.eqb_spec (a / bsz d) (Z.of_nat i)) as [Heq|]; [|done]. unfold sparse_byte.
    by rewrite Heq, Nat2Z.id, Hi.
  - destruct (so_slots Hd i e Hi He) as (s & Hs & ->). pose proof (ge_allocated _ (so_geo Hd)) as Hal.
    assert (0 <= s * bsz d) as Hsb by (apply Z.mul_nonneg_nonneg; lia).
    assert (0 <= entries d * bsz d) as Hnz by (apply Z.mul_nonneg_nonneg; lia).
    destruct (image_entry _ _ _ i 0 (so_image Hd) Hlt) as (b & E1 & I1 & S1 & B1); [done|lia|].
    destruct (word_lookup _ _ s (so_words_length Hd) Hs) as [w Hw].
    pose proof (Forall_lookup_1 _ _ _ _ (so_words Hd) Hw) as Hu.
    set (ws := <[Z.to_nat (s / 64) := w &&& unot 64 (1 <<< (s mod 64))]> d.(phys_used)).
    assert (meta_ok d.(header) (<[i := 0]> d.(table)) ws (d.(mapped_blocks) - 1)) as Hm.
    { apply (meta_free _ _ d.(phys_used) _ i s); [apply (so_meta Hd)|lia|done|..].
      - apply Forall_insert; [apply (so_words Hd)|]. apply uint_land_l; [lia|done|]. apply (uint_unot 64). lia.
      - apply length_insert.
      - intros x Hx. apply used_bit_clear; [done|lia..]. }
    pose proof (so_mapped Hm) as Hmap.
    exists true, (mk b d.(header) (<[i := 0]> d.(table)) ws (d.(mapped_blocks) - 1)). split; [|split; [|split; [done|split; [done|split; [done|]]]]].
    + erewrite st_bind_ok; [|reflexivity]. rewrite (table_entry_off_ok d i Hd Hlt). erewrite st_bind_ok; [|reflexivity].
      erewrite st_bind_ok; [|apply zoom_eq; exact E1]. unfold with_table, with_backend, block_size.
      replace (doff d + s * bsz d - doff d) with (s * bsz d) by lia. rewrite Z.mod_mul, Z.div_mul by lia.
      rewrite (proj2 (Z.leb_le (doff d) (doff d + s * bsz d))), (proj2 (Z.ltb_lt s (slots d))) by lia.
      cbn [ensure Z.eqb]. erewrite st_bind_ok; [|reflexivity]. erewrite st_bind_ok; [|reflexivity]. erewrite st_bind_ok; [|reflexivity].
      erewrite st_bind_ok; [|apply (set_phys_used_ok _ s w false); [lia|exact Hw]].
      erewrite st_bind_ok; [|unfold st_of_result, checked_sub; by rewrite (proj2 (Z.leb_le 1 d.(mapped_blocks))) by lia].
      erewrite st_bind_ok; [|reflexivity]. done.
    + split; [exact Hm|exact I1|exact Hroom|]. pose proof (so_size Hd). cbn [header backend]. lia.
    + intros a Ha. assert (0 <= a / bsz d) by (apply Z.div_pos; lia).
      destruct (Z.eqb_spec (a / bsz d) (Z.of_nat i)) as [Heq|Hne].
      * unfold sparse_byte. cbn [header table]. by rewrite Heq, Nat2Z.id, list_lookup_insert_eq.
      * apply sparse_byte_same; [done|lia|..]; cbn [table backend].
        -- by rewrite list_lookup_insert_ne by lia.
        -- intros e x He' Hne' Hx. destruct (entry_block d _ e Hd He' Hne') as (F1 & _). apply B1. lia.
Qed.

Lemma is_phys_used_ok d s : sparse_ok d -> 0 <= s < slots d -> is_phys_used d s = Ok (used_bit d.(phys_used) s).
Proof.
  intros Hd Hs. pose proof (so_layout _ Hd) as []. pose proof (ge_allocated _ (so_geo Hd)) as Hal.
  destruct (word_lookup _ _ s (so_words_length Hd) Hs) as [w Hw].
  destruct (usize_div s ltac:(lia)) as (E1 & E2 & E3). unfold is_phys_used, used_bit. rewrite E1. cbn [ok_or result_bind].
  rewrite E2, E3, Hw. cbn [ok_or result_bind]. f_equal. pose proof (Z.mod_pos_bound s 64 ltac:(lia)).
  rewrite shiftl_1 by lia. apply nz_land_pow2. lia.
Qed.

Lemma trim_loop_ok d n :
  sparse_ok d -> Z.of_nat n <= slots d ->
  exists m, trim_loop d n = Ok m /\ (m <= n)%nat /\
    (forall x, Z.of_nat m <= x < Z.of_nat n -> used_bit d.(phys_used) x = false) /\
    (m <> 0%nat -> used_bit d.(phys_used) (Z.of_nat m - 1) = true).
Proof.
  intros Hd. induction n as [|n IH]; intros Hn; cbn [trim_loop].
  { exists 0%nat. split; [done|]. split; [lia|]. split; [lia|done]. }
  rewrite is_phys_used_ok by (done || lia). cbn [result_bind]. destruct (used_bit d.(phys_used) (Z.of_nat n)) eqn:E.
  - exists (S n). split; [done|]. split; [lia|]. split; [lia|]. intros _. by replace (Z.of_nat (S n) - 1) with (Z.of_nat n) by lia.
  - destruct IH as (m & -> & Hm & Hf & Hl); [lia|]. exists m. split; [done|]. split; [lia|]. split; [|done].
    intros x Hx. destruct (decide (x = Z.of_nat n)) as [->|]; [done|]. apply Hf. lia.
Qed.

(** Trimming changes no byte of the disk, and leaves the last slot in use. *)
Lemma trim_ok d :
  sparse_ok d ->
  exists n d', trim_trailing_free_phys d = (Ok tt, d') /\ sparse_ok d' /\ d'.(table) = d.(table) /\
    d'.(header) = Header.with_allocated_blocks n d.(header) /\
    (0 < n -> used_bit d'.(phys_used) (n - 1) = true) /\
    forall a, 0 <= a -> sparse_byte d' a = sparse_byte d a.
Proof.
  intros Hd. pose proof (so_layout _ Hd) as []. pose proof (ge_allocated _ (so_geo Hd)) as Hal. pose proof (so_room Hd) as Hroom.
  unfold trim_trailing_free_phys. destruct (Z.eqb_spec (slots d) 0) as [Hz|Hnz].
  { exists (slots d), d. split; [done|]. split; [done|]. split; [done|]. split; [by destruct d as [? []]|]. split; [lia|done]. }
  destruct (trim_loop_ok d (Z.to_nat (slots d)) Hd ltac:(lia)) as (m & -> & Hm & Hfree & Hlast).
  destruct (Z.eqb_spec (Z.of_nat m) (slots d)) as [Heq|Hne].
  { exists (slots d), d. split; [done|]. split; [done|]. split; [done|]. split; [by destruct d as [? []]|]. split; [|done].
    intros _. rewrite <- Heq. apply Hlast. lia. }
  set (n := Z.of_nat m) in *.
  assert (0 <= n * bsz d) as Hnb by (apply Z.mul_nonneg_nonneg; lia).
  assert (n * bsz d <= entries d * bsz d) as Hne2 by (apply Z.mul_le_mono_nonneg_r; lia).
  assert (n * bsz d <= slots d * bsz d) as Hne3 by (apply Z.mul_le_mono_nonneg_r; lia).
  pose proof (meta_trim _ _ _ _ n (so_meta Hd) ltac:(lia) ltac:(intros x Hx; apply Hfree; lia)) as Hmt.
  destruct (image_header _ (Header.with_allocated_blocks n d.(header)) _ _ (so_image Hd) (so_geo Hmt) ltac:(lia)) as (b1 & E1 & I1 & S1 & B1).
  pose proof (so_length Hd) as Hlen. pose proof (so_size Hd) as Hsz.
  destruct (image_resize _ _ b1 (doff d + n * bsz d) I1 ltac:(lia)) as (b2 & E2 & I2 & S2 & B2).
  assert (doff d + n * bsz d <= be_size b1) as Hle by lia.
  assert (exists b3, (if doff d + n * bsz d <? be_size b1 then backend_set_len (doff d + n * bsz d) b1 else (Ok tt, b1)) = (Ok tt, b3) /\
    image_ok (Header.with_allocated_blocks n d.(header)) d.(table) b3 /\ be_size b3 = doff d + n * bsz d /\
    forall a, 64 <= a < doff d + n * bsz d -> be_byte b3 a = bytes d a) as (b3 & E3 & I3 & S3 & B3).
  { destruct (Z.ltb_spec (doff d + n * bsz d) (be_size b1)).
    - exists b2. split; [done|]. split; [done|]. split; [done|]. intros a Ha. rewrite B2, B1 by lia. done.
    - exists b1. split; [done|]. split; [done|]. split; [lia|]. intros a Ha. apply B1. lia. }
  pose proof (Z.div_mod (n + 63) 64 ltac:(lia)). pose proof (Z.mod_pos_bound (n + 63) 64 ltac:(lia)).
  set (ws := take (Z.to_nat ((n + 63) / 64)) d.(phys_used)) in *.
  exists n, (mk b3 (Header.with_allocated_blocks n d.(header)) d.(table) ws d.(mapped_blocks)).
  split; [|split; [|split; [done|split; [done|split]]]].
  - erewrite st_bind_ok; [|reflexivity]. erewrite st_bind_ok; [|unfold st_of_result; by rewrite try_usize_ok by lia].
    erewrite st_bind_ok; [|reflexivity]. unfold with_phys_used, with_allocated_blocks. cbn [backend header table phys_used mapped_blocks].
    fold ws. erewrite st_bind_ok; [|apply zoom_eq; exact E1]. unfold block_size.
    erewrite st_bind_ok; [|unfold st_of_result; by rewrite checked_mul_ok by lia].
    erewrite st_bind_ok; [|unfold st_of_result; by rewrite checked_add_ok by lia].
    erewrite st_bind_ok; [|apply zoom_eq, be_len; exact (so_backend I1)].
    unfold with_backend. cbn [backend header table phys_used mapped_blocks].
    destruct (doff d + n * bsz d <? be_size b1).
    + unfold on_backend, zoom. cbn [backend]. by rewrite E3.
    + by injection E3 as ->.
  - split; [exact Hmt|exact I3|exact Hroom|]. cbn [header backend]. rewrite S3. done.
  - intros Hn0. cbn [phys_used]. unfold ws, used_bit. pose proof (Z.div_mod (n - 1) 64 ltac:(lia)).
    pose proof (Z.mod_pos_bound (n - 1) 64 ltac:(lia)). rewrite lookup_take_lt by lia. apply Hlast. lia.
  - intros a Ha. apply sparse_byte_same; [done|lia|done|]. intros e x He Hne' Hx. apply B3.
    destruct (entry_block d _ e Hd He Hne') as (F1 & _). destruct (so_slots Hmt _ e He Hne') as (s & Hs & ->).
    cbn [Header.with_allocated_blocks Header.allocated_blocks Header.data_offset Header.block_size_bytes] in *.
    assert ((s + 1) * bsz d <= n * bsz d) by (apply Z.mul_le_mono_nonneg_r; lia). lia.
Qed.
End Alloc.
