(* ===== verification/SparseContract.v ===== *)
(** * Sparse disks keep the contract of a disk *)

From S2P Require Import Prelude Bytes GuestMem Storage StorageFacts SparseDisk SparseFacts SparseInv SparseAlloc.
Import AeroSparseDisk.

Section Contract.
Context `{Target} `{BackendSpec B}.
Implicit Types (d : t B).

Abbreviation disk_size d := (d.(header).(Header.disk_size_bytes)).

(** Every operation keeps the invariant and the geometry; only the number of
    slots in the header changes. *)
Definition evolves d d' : Prop :=
  sparse_ok d' /\ exists n, d'.(header) = Header.with_allocated_blocks n d.(header).

Lemma evolves_refl d : sparse_ok d -> evolves d d.
Proof. intros Hd. split; [done|]. exists (slots d). by destruct d as [? []]. Qed.

Lemma evolves_trans d1 d2 d3 : evolves d1 d2 -> evolves d2 d3 -> evolves d1 d3.
Proof. intros [_ (n & E1)] [K3 (m & E2)]. split; [done|]. exists m. by rewrite E2, E1. Qed.

Lemma evolves_geometry d d' : evolves d d' ->
  bsz d' = bsz d /\ disk_size d' = disk_size d /\ entries d' = entries d /\ doff d' = doff d.
Proof. intros [_ (n & ->)]. done. Qed.

(** The block of an address of the disk. *)
Lemma sparse_block d a :
  sparse_ok d -> 0 <= a < disk_size d ->
  0 <= a / bsz d < entries d /\ exists e, d.(table) !! Z.to_nat (a / bsz d) = Some e.
Proof.
  intros Hd Ha. pose proof (so_layout _ Hd) as []. pose proof (so_length Hd).
  assert (0 <= a / bsz d) by (apply Z.div_pos; lia).
  assert (a / bsz d < entries d) by (apply Z.div_lt_upper_bound; lia).
  split; [lia|]. apply lookup_lt_is_Some_2. lia.
Qed.

Lemma entry_at_ok d a e :
  sparse_ok d -> 0 <= a < disk_size d -> d.(table) !! Z.to_nat (a / bsz d) = Some e -> entry_at d a = Ok e.
Proof.
  intros Hd Ha He. destruct (sparse_block d a Hd Ha) as [Hq _]. pose proof (so_layout _ Hd) as [].
  unfold entry_at, block_size. rewrite try_usize_ok by lia. cbn [ok_or result_bind]. by rewrite He.
Qed.

(** ** Discarding *)
Lemma deallocate_blocks_ok n d k :
  sparse_ok d -> 0 <= k -> k + Z.of_nat n <= entries d ->
  exists d', deallocate_blocks n k d = (Ok tt, d') /\ evolves d d' /\
    (forall i : nat, d'.(table) !! i = (fun e => if (k <=? Z.of_nat i) && (Z.of_nat i <? k + Z.of_nat n) then 0 else e) <$> d.(table) !! i) /\
    forall a, 0 <= a -> sparse_byte d' a = if (k <=? a / bsz d) && (a / bsz d <? k + Z.of_nat n) then 0 else sparse_byte d a.
Proof.
  revert d k. induction n as [|n IH]; intros d k Hd Hk Hn; cbn [deallocate_blocks].
  { exists d. split; [done|]. split; [by apply evolves_refl|]. split.
    - intros i. destruct (Z.leb_spec k (Z.of_nat i)), (Z.ltb_spec (Z.of_nat i) (k + Z.of_nat 0)); cbn [andb];
        rewrite ?option_fmap_id; (done || lia).
    - intros a Ha. destruct (Z.leb_spec k (a / bsz d)), (Z.ltb_spec (a / bsz d) (k + Z.of_nat 0)); (done || lia). }
  pose proof (so_length Hd). destruct (deallocate_ok d (Z.to_nat k) Hd ltac:(lia)) as (r & d1 & E1 & K1 & Ht & Hh & _ & Hb1).
  rewrite Z2Nat.id in E1, Hb1 by lia. erewrite st_bind_ok; [|exact E1].
  destruct (IH d1 (k + 1) K1 ltac:(lia)) as (d2 & E2 & Hev & Ht2 & Hb2); [rewrite Hh; lia|].
  exists d2. split; [done|]. split; [|split].
  - apply (evolves_trans d d1); [|done]. split; [done|]. exists (slots d). rewrite Hh. by destruct d as [? []].
  - intros i. rewrite Ht2, Ht. destruct (decide (i = Z.to_nat k)) as [->|Hne].
    + rewrite Z2Nat.id by lia. rewrite list_lookup_insert_eq by lia.
      destruct (lookup_lt_is_Some_2 d.(table) (Z.to_nat k)) as [e ->]; [lia|]. cbn [fmap option_fmap option_map].
      rewrite (proj2 (Z.leb_le k k)), (proj2 (Z.ltb_lt k (k + Z.of_nat (S n)))) by lia. cbn [andb]. by case_if.
    + rewrite list_lookup_insert_ne by done. destruct (d.(table) !! i) as [e|]; [|done]. cbn [fmap option_fmap option_map].
      destruct (Z.leb_spec (k + 1) (Z.of_nat i)), (Z.ltb_spec (Z.of_nat i) (k + 1 + Z.of_nat n)), (Z.leb_spec k (Z.of_nat i)),
        (Z.ltb_spec (Z.of_nat i) (k + Z.of_nat (S n))); (done || lia).
  - intros a Ha. rewrite Hb2, Hb1, Hh by done.
    destruct (Z.leb_spec (k + 1) (a / bsz d)), (Z.ltb_spec (a / bsz d) (k + 1 + Z.of_nat n)), (Z.leb_spec k (a / bsz d)),
      (Z.ltb_spec (a / bsz d) (k + Z.of_nat (S n))), (Z.eqb_spec (a / bsz d) k); try done; lia.
Qed.

(** Block [q] lies in the range. *)
Definition covered d (off len q : Z) : bool :=
  (off <=? q * bsz d) && (q * bsz d + bsz d <=? off + len) && (0 <? len).

(** The blocks that lie in the range read as zeros, the other bytes stay. *)
Lemma sparse_discard_ok d off len :
  sparse_ok d -> 0 <= off -> 0 <= len -> off + len <= disk_size d ->
  exists d', discard_range off len d = (Ok tt, d') /\ evolves d d' /\
    (forall i : nat, d'.(table) !! i = (fun e => if covered d off len (Z.of_nat i) then 0 else e) <$> d.(table) !! i) /\
    forall a, 0 <= a -> sparse_byte d' a = if covered d off len (a / bsz d) then 0 else sparse_byte d a.
Proof.
  intros Hd Ho Hl Hn. pose proof (so_layout _ Hd) as []. unfold discard_range, block_size.
  rewrite check_discard_ok by lia. destruct (Z.eqb_spec len 0) as [->|Hlen].
  { exists d. split; [done|]. split; [by apply evolves_refl|]. unfold covered. split.
    - intros i. rewrite andb_false_r. by rewrite option_fmap_id.
    - intros a _. by rewrite andb_false_r. }
  destruct (div_ceil_u64 off (bsz d)) as [sb|e] eqn:Esb.
  2:{ unfold div_ceil_u64 in Esb. by rewrite (proj2 (Z.eqb_neq (bsz d) 0)) in Esb by lia. }
  apply div_ceil_spec in Esb as [Hsb1 Hsb2]; [|lia..].
  erewrite st_bind_ok; [|reflexivity]. set (eb := (off + len) / bsz d).
  pose proof (Z.div_mod (off + len) (bsz d) ltac:(lia)) as Dm. pose proof (Z.mod_pos_bound (off + len) (bsz d) ltac:(lia)) as Dp.
  fold eb in Dm.
  assert (forall q, 0 <= q -> covered d off len q = (sb <=? q) && (q <? eb)) as Hrange.
  { intros q Hq. unfold covered. rewrite (proj2 (Z.ltb_lt 0 len)) by lia. rewrite andb_true_r. f_equal; apply eq_true_iff_eq.
    - rewrite !Z.leb_le. split; intros J.
      + destruct (Z.le_gt_cases sb q); [done|]. pose proof (Z.mul_le_mono_nonneg_r q (sb - 1) (bsz d) ltac:(lia) ltac:(lia)). lia.
      + pose proof (Z.mul_le_mono_nonneg_r sb q (bsz d) ltac:(lia) ltac:(lia)). lia.
    - rewrite Z.leb_le, Z.ltb_lt. split; intros J.
      + destruct (Z.lt_ge_cases q eb); [done|]. pose proof (Z.mul_le_mono_nonneg_r eb q (bsz d) ltac:(lia) ltac:(lia)). lia.
      + pose proof (Z.mul_le_mono_nonneg_r (q + 1) eb (bsz d) ltac:(lia) ltac:(lia)). lia. }
  destruct (Z.leb_spec eb sb) as [Hle|Hgt].
  { exists d. split; [done|]. split; [by apply evolves_refl|]. split.
    - intros i. rewrite Hrange by lia. destruct (Z.leb_spec sb (Z.of_nat i)), (Z.ltb_spec (Z.of_nat i) eb); cbn [andb];
        rewrite ?option_fmap_id; (done || lia).
    - intros a Ha. rewrite Hrange by (apply Z.div_pos; lia).
      destruct (Z.leb_spec sb (a / bsz d)), (Z.ltb_spec (a / bsz d) eb); (done || lia). }
  assert (eb <= entries d) as Heb.
  { destruct (Z.le_gt_cases eb (entries d)); [done|].
    pose proof (Z.mul_le_mono_nonneg_r (entries d + 1) eb (bsz d) ltac:(lia) ltac:(lia)). lia. }
  destruct (deallocate_blocks_ok (Z.to_nat (eb - sb)) d sb Hd ltac:(lia) ltac:(lia)) as (d1 & E1 & Hev1 & Ht1 & Hb1).
  erewrite st_bind_ok; [|exact E1].
  destruct (trim_ok d1 (proj1 Hev1)) as (n & d2 & E2 & K2 & Ht2 & Hh2 & _ & Hb2).
  exists d2. split; [done|]. split; [apply (evolves_trans d d1); [done|]; split; [done|by exists n]|].
  replace (sb + Z.of_nat (Z.to_nat (eb - sb))) with eb in * by lia. split.
  - intros i. by rewrite Ht2, Ht1, Hrange by lia.
  - intros a Ha. by rewrite Hb2, Hb1, Hrange by (done || apply Z.div_pos; lia).
Qed.

(** ** Reading *)
Lemma sparse_read_ok d off n :
  sparse_ok d -> 0 <= off -> off + Z.of_nat n <= disk_size d ->
  read_at off n d = (Ok (span (sparse_byte d) off n), d).
Proof.
  intros Hd Ho Hn. pose proof (so_layout _ Hd) as []. unfold read_at, block_size.
  erewrite st_bind_ok; [|unfold st_of_result; by rewrite checked_range_ok by lia].
  erewrite st_bind_ok; [|unfold st_of_result; by rewrite try_usize_ok by lia].
  set (body := fun abs n => _).
  pose proof (read_blocks_ok (bsz d) ltac:(lia) (eq d) (fun _ => False) (sparse_byte d) body n off n d) as Hrb.
  destruct (read_blocks n (bsz d) body off n d) as [r d']. destruct Hrb as [<- [->|(e & _ & [])]]; [|done..|done].
  intros ? abs m <- Ha Hm Hm0 Hc. unfold body. destruct (sparse_block d abs Hd ltac:(lia)) as [Hq [e He]].
  erewrite st_bind_ok; [|by rewrite (entry_at_ok d abs e Hd ltac:(lia) He)].
  pose proof (Z.div_mod abs (bsz d) ltac:(lia)) as Dm. pose proof (Z.mod_pos_bound abs (bsz d) ltac:(lia)) as Dp.
  destruct (Z.eqb_spec e 0) as [->|Hne].
  - split; [done|left]. unfold st_ret. f_equal. apply replicate_span. intros x Hx.
    unfold sparse_byte. replace (x / bsz d) with (abs / bsz d); [by rewrite He|].
    apply (Z.div_unique_pos _ _ _ (abs mod bsz d + (x - abs))); lia.
  - rewrite (read_data d _ e _ _ Hd He Hne) by lia. split; [done|left]. do 2 f_equal. rewrite Z2Nat.id by lia. lia.
Qed.

(** ** Writing *)
Lemma sparse_byte_zero d a : d.(table) !! Z.to_nat (a / bsz d) = Some 0 -> sparse_byte d a = 0.
Proof. intros He. unfold sparse_byte. by rewrite He. Qed.

Lemma evolves_data d b : sparse_ok (with_backend b d) -> evolves d (with_backend b d).
Proof. intros Hd. split; [done|]. exists (slots d). by destruct d as [? []]. Qed.

(** Zeros in the part of a new block that is not written. *)
Lemma zero_fill_ok d i e (lo hi : Z) :
  sparse_ok d -> d.(table) !! i = Some e -> e <> 0 -> 0 <= lo <= hi -> hi <= bsz d ->
  exists d', write_zeros_in_block (Z.to_nat (hi - lo)) e lo (Z.to_nat (hi - lo)) d = (Ok tt, d') /\ evolves d d' /\ d'.(table) = d.(table) /\
    forall a, 0 <= a -> sparse_byte d' a = if (Z.of_nat i * bsz d + lo <=? a) && (a <? Z.of_nat i * bsz d + hi) then 0 else sparse_byte d a.
Proof.
  intros Hd Hi He Hlo Hhi.
  destruct (write_zeros_ok (Z.to_nat (hi - lo)) d i e lo (Z.to_nat (hi - lo)) Hd Hi He) as (b & E & Hd' & Hb); [lia..|].
  exists (with_backend b d). split; [done|]. split; [by apply evolves_data|]. split; [done|].
  intros a Ha. rewrite Hb by done.
  destruct (Z.leb_spec (Z.of_nat i * bsz d + lo) a), (Z.ltb_spec a (Z.of_nat i * bsz d + hi)); cbn [andb].
  2-4: apply splice_other; rewrite length_replicate; lia.
  pose proof (splice_in (sparse_byte d) (Z.of_nat i * bsz d + lo) (replicate (Z.to_nat (hi - lo)) 0) a) as Hs.
  rewrite length_replicate in Hs. specialize (Hs ltac:(lia)). apply lookup_replicate in Hs as [Hs _]. done.
Qed.

Lemma sparse_write_block_ok d abs src :
  sparse_ok d -> Forall byte_ok src -> 0 <= abs -> (0 < length src)%nat -> abs + Z.of_nat (length src) <= disk_size d ->
  abs mod bsz d + Z.of_nat (length src) <= bsz d ->
  exists d', write_block abs src d = (Ok tt, d') /\ evolves d d' /\
    forall a, 0 <= a -> sparse_byte d' a = splice (sparse_byte d) abs src a.
Proof.
  intros Hd Hsrc Ha Hs0 Hn Hc. pose proof (so_layout _ Hd) as []. destruct (sparse_block d abs Hd ltac:(lia)) as [Hq [e He]].
  pose proof (Z.div_mod abs (bsz d) ltac:(lia)) as Dm. pose proof (Z.mod_pos_bound abs (bsz d) ltac:(lia)) as Dp.
  set (i := Z.to_nat (abs / bsz d)) in *. set (w := abs mod bsz d) in *.
  assert (Z.of_nat i = abs / bsz d) as Ei by (unfold i; lia). assert (abs = Z.of_nat i * bsz d + w) as Eabs by lia.
  unfold write_block, block_size. fold w. rewrite (entry_at_ok d abs e Hd ltac:(lia) He).
  erewrite st_bind_ok; [|reflexivity]. rewrite <- Ei.
  destruct (Z.eqb_spec e 0) as [->|Hne].
  2:{ cbn [andb negb]. erewrite st_bind_ok; [|reflexivity]. cbv beta iota. erewrite st_bind_ok; [|reflexivity].
      destruct (write_data d i e w src Hd He Hne) as (b & E & Hd' & Hb); [lia..|done|].
      exists (with_backend b d). split; [done|]. split; [by apply evolves_data|]. intros a Ha'. rewrite Hb by done. by rewrite Eabs. }
  assert (forall a, 0 <= a -> a / bsz d = Z.of_nat i -> sparse_byte d a = 0) as Hzero.
  { intros a _ Hqa. apply sparse_byte_zero. by rewrite Hqa, Nat2Z.id. }
  assert (forall a, abs <= a < abs + Z.of_nat (length src) -> a / bsz d = Z.of_nat i) as Hin.
  { intros a Hra. apply block_of; lia. }
  cbn [andb negb]. destruct (forallb (fun b => b =? 0) src) eqn:Hz.
  { exists d. split; [done|]. split; [by apply evolves_refl|]. intros a Ha'.
    destruct (decide (abs <= a < abs + Z.of_nat (length src))) as [Hr|Hr]; [|by rewrite splice_other by lia].
    rewrite (Hzero a Ha' (Hin a Hr)). pose proof (splice_in (sparse_byte d) abs src a Hr) as Hs. rewrite forallb_forall in Hz.
    symmetry. apply Z.eqb_eq, Hz. by eapply list_elem_of_In, list_elem_of_lookup_2. }
  destruct (ensure_new d i Hd He) as (e & n & d1 & E1 & K1 & Hne & Ht1 & Hh1 & Hb1).
  erewrite st_bind_ok; [|exact E1]. cbv beta iota.
  assert (d1.(table) !! i = Some e) as He1.
  { rewrite Ht1. apply list_lookup_insert_eq. by eapply lookup_lt_Some. }
  assert (bsz d1 = bsz d) as Hbs1 by (by rewrite Hh1).
  destruct (zero_fill_ok d1 i e 0 w K1 He1 Hne ltac:(lia) ltac:(lia)) as (d2 & E2 & Hev2 & Ht2 & Hb2).
  rewrite Z.sub_0_r in E2. destruct (evolves_geometry d1 d2 Hev2) as (Hbs2 & _).
  destruct (zero_fill_ok d2 i e (w + Z.of_nat (length src)) (bsz d) (proj1 Hev2)) as (d3 & E3 & Hev3 & Ht3 & Hb3);
    [by rewrite Ht2|done|lia|lia|]. destruct (evolves_geometry d2 d3 Hev3) as (Hbs3 & _).
  destruct (write_data d3 i e w src (proj1 Hev3)) as (b & E4 & K4 & Hb4); [by rewrite Ht3, Ht2|done|lia|lia|done|].
  exists (with_backend b d3). split; [|split].
  - erewrite (st_bind_ok _ _ _ tt d3); [exact E4|].
    erewrite (st_bind_ok _ _ _ tt d2).
    2:{ destruct (Z.ltb_spec 0 w); [exact E2|]. replace (Z.to_nat w) with 0%nat in E2 by lia. injection E2 as <-. done. }
    destruct (Z.ltb_spec (w + Z.of_nat (length src)) (bsz d)); [exact E3|].
    replace (Z.to_nat (bsz d - (w + Z.of_nat (length src)))) with 0%nat in E3 by lia. injection E3 as <-. done.
  - apply (evolves_trans d d1); [by split; [|exists n]|]. apply (evolves_trans d1 d2); [done|]. apply (evolves_trans d2 d3); [done|].
    by apply evolves_data.
  - intros a Ha'. rewrite Hb4 by done. rewrite Hbs3, Hbs2, Hbs1, <- Eabs.
    destruct (decide (abs <= a < abs + Z.of_nat (length src))) as [Hr|Hr].
    { pose proof (splice_in (sparse_byte d) abs src a Hr). pose proof (splice_in (sparse_byte d3) abs src a Hr). congruence. }
    rewrite !splice_other by lia. rewrite Hb3, Hb2, Hbs2, Hbs1 by done.
    destruct (decide (a / bsz d = Z.of_nat i)) as [Hqa|Hqa].
    + rewrite (Hzero a Ha' Hqa). pose proof (Z.div_mod a (bsz d) ltac:(lia)). pose proof (Z.mod_pos_bound a (bsz d) ltac:(lia)).
      rewrite Hqa in *. destruct (Z.leb_spec (Z.of_nat i * bsz d + (w + Z.of_nat (length src))) a), (Z.ltb_spec a (Z.of_nat i * bsz d + bsz d)),
        (Z.leb_spec (Z.of_nat i * bsz d + 0) a), (Z.ltb_spec a (Z.of_nat i * bsz d + w)); try done; lia.
    + rewrite Hb1 by done.
      assert (~ Z.of_nat i * bsz d <= a < Z.of_nat i * bsz d + bsz d) as Hout.
      { intros Hx. apply Hqa. apply block_of; lia. }
      destruct (Z.leb_spec (Z.of_nat i * bsz d + (w + Z.of_nat (length src))) a), (Z.ltb_spec a (Z.of_nat i * bsz d + bsz d)),
        (Z.leb_spec (Z.of_nat i * bsz d + 0) a), (Z.ltb_spec a (Z.of_nat i * bsz d + w)); try done; lia.
Qed.
Lemma sparse_write_ok d off src :
  sparse_ok d -> Forall byte_ok src -> 0 <= off -> off + Z.of_nat (length src) <= disk_size d ->
  exists d', write_at off src d = (Ok tt, d') /\ evolves d d' /\
    forall a, 0 <= a -> sparse_byte d' a = splice (sparse_byte d) off src a.
Proof.
  intros Hd Hs Ho Hn. pose proof (so_layout _ Hd) as []. unfold write_at, block_size.
  erewrite st_bind_ok; [|unfold st_of_result; by rewrite checked_range_ok by lia].
  erewrite st_bind_ok; [|unfold st_of_result; by rewrite try_usize_ok by lia].
  pose proof (write_blocks_ok (bsz d) ltac:(lia) (evolves d) (fun _ => False) (fun a => 0 <= a) sparse_byte write_block
    (length src) off src d) as Hwb.
  destruct (write_blocks (length src) (bsz d) write_block off src d) as [r d'].
  destruct Hwb as [Hev (k & Hk & [[-> ->]|(e & _ & [])])]; [|done|done|by apply evolves_refl|].
  2:{ exists d'. split; [done|]. split; [done|]. intros a Ha. rewrite Hk by done. by rewrite firstn_all. }
  intros d1 abs part Hev Hp Ha Hl Hp0 Hc. destruct (evolves_geometry d d1 Hev) as (Hb & Hz & _).
  destruct (sparse_write_block_ok d1 abs part (proj1 Hev) Hp) as (d2 & -> & Hev2 & Hb2); [lia|done|lia|by rewrite Hb|].
  split; [by apply (evolves_trans d d1)|]. exists (length part). split; [|by left]. intros a Ha'. rewrite firstn_all. by apply Hb2.
Qed.

(** ** The contract *)
#[global] Instance sparse_view : DiskView (t B) := {|
  vd_ok := sparse_ok;
  vd_byte := sparse_byte;
  vd_fault _ := False;
|}.

#[global] Instance sparse_reliable : ReliableDisk (t B).
Proof. split. by intros e []. Qed.

Lemma sparse_byte_ok d a : sparse_ok d -> byte_ok (sparse_byte d a).
Proof.
  intros Hd. unfold sparse_byte. assert (byte_ok 0) by done. destruct (_ !! _) as [e|]; [|done].
  destruct (e =? 0); [done|]. apply be_byte_ok, (so_backend Hd).
Qed.

Lemma evolves_holds d d' f :
  evolves d d' -> (forall a, 0 <= a -> sparse_byte d' a = f a) -> holds d d' f.
Proof.
  intros Hev Hf. destruct (evolves_geometry d d' Hev) as (_ & Hz & _). split; [apply Hev|]. split; [exact Hz|].
  intros a Ha. apply Hf. lia.
Qed.

#[global] Instance sparse_spec : DiskSpec (t B).
Proof.
  split; intros d.
  - intros Hd. pose proof (so_layout _ Hd) as []. unfold uint. simpl. lia.
  - intros a Hd. by apply sparse_byte_ok.
  - intros off n Hd (Ho & _ & Hn). simpl. rewrite sparse_read_ok by done. split; [|by left].
    by apply evolves_holds; [apply evolves_refl|].
  - intros off n Hd Ho Hn. simpl. destruct (checked_range_out _ _ _ Hn) as [e He]. exists e.
    simpl in He. unfold read_at, st_bind, st_of_result. by rewrite He.
  - intros off src Hd Hs (Ho & _ & Hn). simpl. destruct (sparse_write_ok d off src Hd Hs Ho Hn) as (d' & -> & Hev & Hb).
    exists (length src). split; [|by left]. apply evolves_holds; [done|]. intros a Ha. rewrite firstn_all. by apply Hb.
  - intros off src Hd Ho Hn. simpl. destruct (checked_range_out _ _ _ Hn) as [e He]. exists e.
    simpl in He. unfold write_at, st_bind, st_of_result. by rewrite He.
  - intros Hd. simpl. unfold on_backend. erewrite zoom_eq; [|apply be_flush, (so_backend Hd)].
    replace (with_backend d.(backend) d) with d by (by destruct d). split; [|by left].
    by apply evolves_holds; [apply evolves_refl|].
  - intros off len Hd (Ho & Hl & Hn). simpl. destruct (sparse_discard_ok d off len Hd Ho Hl Hn) as (d' & -> & Hev & _ & Hb).
    pose proof (so_layout _ Hd) as [L1]. destruct (evolves_geometry d d' Hev) as (_ & Hz & _).
    left. split; [done|]. split; [apply Hev|]. split; [exact Hz|]. intros a Ha Hout. simpl. rewrite Hb by lia. unfold covered.
    pose proof (Z.div_mod a (bsz d) ltac:(lia)). pose proof (Z.mod_pos_bound a (bsz d) ltac:(lia)).
    destruct (Z.leb_spec off (a / bsz d * bsz d)), (Z.leb_spec (a / bsz d * bsz d + bsz d) (off + len)); try done. lia.
  - intros off len _ _ Hl Hn. destruct (check_discard_out _ _ _ Hl Hn) as [e He]. exists e. simpl. unfold discard_range.
    simpl in He. by rewrite He.
Qed.
End Contract.
