(* ===== verification/SparseOpen.v ===== *)
(** * Sparse disks: creating and opening images *)

From S2P Require Import Prelude Bytes GuestMem Storage StorageFacts SparseDisk SparseFacts SparseInv SparseAlloc SparseContract.
Import AeroSparseDisk.

(** ** The scan of the allocation table *)
Section Scan.
Context `{Target}.
Variable h : Header.t.
Hypothesis Hg : geometry_ok h.
Abbreviation bs := (h.(Header.block_size_bytes)).
Abbreviation o := (h.(Header.data_offset)).
Abbreviation n := (h.(Header.allocated_blocks)).
Abbreviation min_len := (o + n * bs).

(** A table in which each entry is 0 or a slot of its own. *)
Definition table_ok (tb : list Z) : Prop :=
  (forall i e, tb !! i = Some e -> e <> 0 -> exists s, 0 <= s < n /\ e = o + s * bs) /\ NoDup (used_slots tb).

(** What the scan knows after the entries [tb]. *)
Record scan_ok (tb seen : list Z) (mapped : Z) : Prop := {
  sc_table : table_ok tb;
  sc_words : Forall (uint 64) seen;
  sc_words_length : length seen = Z.to_nat ((n + 63) / 64);
  sc_used : forall s, 0 <= s -> used_bit seen s = true <-> s < n /\ o + s * bs ∈ tb;
  sc_mapped : mapped = Z.of_nat (length (used_slots tb));
}.

Lemma scan_meta tb seen mapped :
  scan_ok tb seen mapped -> Z.of_nat (length tb) = h.(Header.table_entries) -> meta_ok h tb seen mapped.
Proof. intros [[]] Hl. by split. Qed.

Lemma meta_scan tb seen mapped : meta_ok h tb seen mapped -> scan_ok tb seen mapped.
Proof. intros []. by split. Qed.

(** The bit set and the counter are those of the table. *)
Lemma scan_unique tb ws1 m1 ws2 m2 : scan_ok tb ws1 m1 -> scan_ok tb ws2 m2 -> ws1 = ws2 /\ m1 = m2.
Proof.
  intros S1 S2. split; [|by rewrite (sc_mapped _ _ _ S1), (sc_mapped _ _ _ S2)].
  apply used_bit_ext; [apply S1|apply S2|by rewrite (sc_words_length _ _ _ S1), (sc_words_length _ _ _ S2)|].
  intros s Hs. apply eq_true_iff_eq. by rewrite (sc_used _ _ _ S1), (sc_used _ _ _ S2).
Qed.

Lemma table_ok_prefix l1 l2 : table_ok (l1 ++ l2) -> table_ok l1.
Proof.
  intros [Hs Hn]. split.
  - intros i e Hi. apply (Hs i). by apply lookup_app_l_Some.
  - rewrite used_slots_app in Hn. by apply NoDup_app in Hn as (? & _).
Qed.

Lemma used_slots_single e : e <> 0 -> used_slots [e] = [e].
Proof.
  intros He. change (used_slots [e]) with (if nz e then [e] else []). by rewrite (proj2 (Z.eqb_neq e 0) He).
Qed.

Lemma check_entry_ok tb seen mapped phys :
  scan_ok tb seen mapped -> uint 64 phys -> Z.of_nat (length tb) < 2 ^ 24 ->
  match check_entry h min_len phys (tb, seen, mapped) with
  | Ok (tb', seen', mapped') => tb' = tb ++ [phys] /\ scan_ok tb' seen' mapped'
  | Err _ => ~ table_ok (tb ++ [phys])
  end.
Proof.
  intros Hsc Hp Hlen. pose proof (geometry_layout h Hg) as []. pose proof (ge_allocated _ Hg) as Hal.
  destruct Hsc as [[Hslots Hnd] Hw Hwl Hu Hm]. unfold uint in Hp.
  assert (n * bs <= h.(Header.table_entries) * bs) as Hnb by (apply Z.mul_le_mono_nonneg_r; lia).
  assert ((tb ++ [phys]) !! length tb = Some phys) as Hlast by (by apply list_lookup_middle).
  unfold check_entry. destruct (Z.eqb_spec phys 0) as [->|Hp0].
  { split; [done|]. assert (used_slots (tb ++ [0]) = used_slots tb) as Hus by (by rewrite used_slots_app, app_nil_r).
    split; [split|..]; rewrite ?Hus; try done.
    - intros i e Hi He. apply lookup_app_Some in Hi as [Hi|[_ Hi]]; [by apply (Hslots i)|].
      apply list_lookup_singleton_Some in Hi as [_ <-]. done.
    - intros s Hs. rewrite (Hu s Hs), elem_of_app, list_elem_of_singleton.
      assert (0 <= s * bs) by (apply Z.mul_nonneg_nonneg; lia). split; [tauto|]. intros (? & [?|?]); [done|lia]. }
  pose proof (List.filter_length_le (fun e => nz e) tb) as Hle. fold (used_slots tb) in Hle.
  rewrite checked_add_ok by lia. cbn [ok_or result_bind].
  assert (forall s, 0 <= s < n -> phys = o + s * bs -> (phys - o) mod bs = 0 /\ (phys - o) / bs = s /\ o <= phys) as Hcalc.
  { intros s Hs ->. replace (o + s * bs - o) with (s * bs) by lia. rewrite Z.mod_mul, Z.div_mul by lia.
    assert (0 <= s * bs) by (apply Z.mul_nonneg_nonneg; lia). split; [done|]. split; [done|lia]. }
  assert (forall P : Prop, (forall s, 0 <= s < n -> phys = o + s * bs -> ~ P) -> P -> ~ table_ok (tb ++ [phys])) as Hbad.
  { intros P Hno HP [Hall _]. destruct (Hall _ _ Hlast Hp0) as (s & Hs & E). exact (Hno s Hs E HP). }
  destruct (Z.leb_spec o phys) as [H1|H1]; cbn [ensure result_bind].
  2:{ apply (Hbad _ (fun s Hs E => ltac:(destruct (Hcalc s Hs E); lia)) H1). }
  destruct (Z.eqb_spec ((phys - o) mod bs) 0) as [H2|H2]; cbn [ensure result_bind].
  2:{ apply (Hbad _ (fun s Hs E => ltac:(destruct (Hcalc s Hs E); tauto)) H2). }
  set (s := (phys - o) / bs) in *. pose proof (Z.div_mod (phys - o) bs ltac:(lia)) as Dm. fold s in Dm. rewrite H2 in Dm.
  assert (phys = o + s * bs) as Ephys by lia.
  assert (0 <= s) as Hs0 by (apply Z.div_pos; lia).
  destruct (Z.ltb_spec s n) as [H3|H3]; cbn [ensure result_bind].
  2:{ apply (Hbad _ (fun s' Hs E => ltac:(destruct (Hcalc s' Hs E); lia)) H3). }
  assert ((s + 1) * bs <= n * bs) as Hsn by (apply Z.mul_le_mono_nonneg_r; lia).
  rewrite checked_add_ok by lia. cbn [ok_or result_bind]. rewrite (proj2 (Z.leb_le (phys + bs) min_len)) by lia. cbn [ensure result_bind].
  destruct (usize_div s ltac:(lia)) as (E1 & E2 & E3). rewrite E1. cbn [ok_or result_bind]. rewrite E2, E3.
  destruct (word_lookup _ _ s Hwl ltac:(lia)) as [w Hlw]. rewrite Hlw. cbn [ok_or result_bind].
  pose proof (Z.mod_pos_bound s 64 ltac:(lia)) as Hms. rewrite shiftl_1 by lia.
  assert ((w &&& 2 ^ (s mod 64) =? 0) = negb (used_bit seen s)) as ->.
  { unfold used_bit. rewrite Hlw, <- (nz_land_pow2 w (s mod 64)), negb_involutive by lia. done. }
  assert (used_bit seen s = true <-> phys ∈ tb) as Hus.
  { rewrite (Hu s Hs0), <- Ephys. split; [by intros [_ ?]|done]. }
  destruct (used_bit seen s) eqn:Eu; cbn [negb ensure result_bind].
  { intros [_ Hn]. rewrite used_slots_app, used_slots_single in Hn by done. apply NoDup_app in Hn as (_ & Hn & _).
    apply (Hn phys); [|by apply list_elem_of_singleton]. apply used_slots_elem. split; [by apply Hus|done]. }
  assert (phys ∉ tb) as Hnin by (intros Hin; apply Hus in Hin; congruence).
  split; [done|]. split; [split|..].
  - intros i e Hi He. apply lookup_app_Some in Hi as [Hi|[_ Hi]]; [by apply (Hslots i)|].
    apply list_lookup_singleton_Some in Hi as [_ <-]. by exists s.
  - rewrite used_slots_app, used_slots_single by done. apply NoDup_app. split; [done|]. split; [|apply NoDup_singleton].
    intros x Hx ->%list_elem_of_singleton. by apply used_slots_elem in Hx as [? _].
  - apply Forall_insert; [done|]. rewrite <- shiftl_1 by lia. apply set_bit_ok; [lia|]. by eapply Forall_lookup_1.
  - by rewrite length_insert.
  - intros x Hx. rewrite <- shiftl_1 by lia. rewrite used_bit_set by (done || lia).
    rewrite orb_true_iff, Z.eqb_eq, (Hu x Hx), elem_of_app, list_elem_of_singleton, Ephys.
    split; [intros [->|[? ?]]; [split; [lia|by right]|split; [lia|by left]]|].
    intros (? & [?|Heq]); [by right|]. left. apply (Z.mul_reg_r _ _ bs); lia.
  - rewrite used_slots_app, used_slots_single, length_app, Hm by done. cbn [length]. lia.
Qed.

(** The entries in the image. *)
Definition entry_of (f : Z -> Z) (k : nat) : Z := from_le_bytes (span f (64 + 8 * Z.of_nat k) 8).
Definition table_of (f : Z -> Z) (k len : nat) : list Z := map (entry_of f) (seq k len).

Lemma table_of_app f k m1 m2 : table_of f k (m1 + m2) = table_of f k m1 ++ table_of f (k + m1) m2.
Proof. unfold table_of. by rewrite seq_app, map_app. Qed.

Lemma entry_of_uint f k : (forall x, byte_ok (f x)) -> uint 64 (entry_of f k).
Proof.
  intros Hf. pose proof (from_le_bytes_uint (span f (64 + 8 * Z.of_nat k) 8) (Forall_span _ _ _ _ Hf)) as Hu.
  by rewrite span_length in Hu.
Qed.

Lemma check_entries_ok f len tb seen mapped :
  (forall x, byte_ok (f x)) -> scan_ok tb seen mapped -> Z.of_nat (length tb + len) <= 2 ^ 24 ->
  match check_entries h min_len len (span f (64 + 8 * Z.of_nat (length tb)) (8 * len)) (tb, seen, mapped) with
  | Ok (tb', seen', mapped') => tb' = tb ++ table_of f (length tb) len /\ scan_ok tb' seen' mapped'
  | Err _ => ~ table_ok (tb ++ table_of f (length tb) len)
  end.
Proof.
  intros Hf. revert tb seen mapped. induction len as [|len IH]; intros tb seen mapped Hsc Hl; cbn [check_entries].
  { unfold table_of. cbn [seq map]. by rewrite app_nil_r. }
  replace (8 * S len)%nat with (8 + 8 * len)%nat by lia. rewrite span_app.
  rewrite take_app_length', drop_app_length' by (by rewrite span_length). fold (entry_of f (length tb)).
  pose proof (check_entry_ok tb seen mapped _ Hsc (entry_of_uint f (length tb) Hf) ltac:(lia)) as Hce.
  assert (table_of f (length tb) (S len) = [entry_of f (length tb)] ++ table_of f (length tb + 1) len) as Ht
    by (apply (table_of_app f (length tb) 1 len)).
  rewrite Ht. destruct (check_entry h min_len (entry_of f (length tb)) (tb, seen, mapped)) as [[[tb1 seen1] m1]|e]; cbn [result_bind].
  - destruct Hce as [-> Hsc1]. specialize (IH _ _ _ Hsc1). rewrite length_app in IH. cbn [length] in IH.
    replace (64 + 8 * Z.of_nat (length tb) + Z.of_nat 8) with (64 + 8 * Z.of_nat (length tb + 1)) by lia.
    rewrite <- app_assoc in IH. apply IH. lia.
  - intros Hok. apply Hce. rewrite app_assoc in Hok. by apply table_ok_prefix in Hok.
Qed.
End Scan.

Section Table.
Context `{Target} `{BackendSpec B}.
Implicit Types (b : B) (d : t B).

Lemma read_table_ok h b fuel len tb seen mapped :
  geometry_ok h -> be_ok b -> scan_ok h tb seen mapped -> Z.of_nat (length tb + len) <= 2 ^ 24 ->
  64 + 8 * Z.of_nat (length tb + len) <= be_size b -> (8 * len <= fuel)%nat ->
  match read_table fuel h (h.(Header.data_offset) + h.(Header.allocated_blocks) * h.(Header.block_size_bytes))
          (64 + 8 * Z.of_nat (length tb)) (8 * len) (tb, seen, mapped) b with
  | (Ok (tb', seen', mapped'), b') =>
      b' = b /\ tb' = tb ++ table_of (be_byte b) (length tb) len /\ scan_ok h tb' seen' mapped'
  | (Err _, _) => ~ table_ok h (tb ++ table_of (be_byte b) (length tb) len)
  end.
Proof.
  intros Hg Hb. revert len tb seen mapped. induction fuel as [|fuel IH]; intros len tb seen mapped Hsc Hl Hsz Hf; cbn [read_table].
  { assert (len = 0%nat) as -> by lia. unfold st_ret, table_of. cbn [seq map]. by rewrite app_nil_r. }
  destruct (Nat.eqb_spec (8 * len) 0) as [Hz|Hz].
  { assert (len = 0%nat) as -> by lia. unfold st_ret, table_of. cbn [seq map]. by rewrite app_nil_r. }
  set (m := Nat.min len (Z.to_nat 8192)). assert (0 < m <= len)%nat as Hm by lia.
  replace (Nat.min (8 * len) (Z.to_nat (64 * 1024))) with (8 * m)%nat by lia.
  pose proof (be_size_ok b Hb) as Hbs. pose proof be_limit_ok.
  unfold st_bind at 1. rewrite (be_read b) by (done || unfold uint; lia). cbn [map_err].
  unfold st_bind at 1. unfold st_of_result at 1. replace (8 * m / 8)%nat with m by (symmetry; rewrite Nat.mul_comm; apply Nat.div_mul; lia).
  pose proof (check_entries_ok h Hg (be_byte b) m tb seen mapped (fun x => be_byte_ok b x Hb) Hsc ltac:(lia)) as Hce.
  assert (table_of (be_byte b) (length tb) len = table_of (be_byte b) (length tb) m ++ table_of (be_byte b) (length tb + m) (len - m)) as Ht
    by (rewrite <- table_of_app; f_equal; lia).
  destruct (check_entries _ _ m _ _) as [[[tb1 seen1] m1]|e].
  - destruct Hce as [Etb1 Hsc1]. assert (length tb1 = length tb + m)%nat as Hl1
      by (rewrite Etb1, length_app; unfold table_of; rewrite length_map, length_seq; lia).
    erewrite st_bind_ok; [|unfold st_of_result; by rewrite checked_add_ok by lia].
    specialize (IH (len - m)%nat tb1 seen1 m1 Hsc1). rewrite Hl1 in IH.
    replace (64 + 8 * Z.of_nat (length tb) + Z.of_nat (8 * m)) with (64 + 8 * Z.of_nat (length tb + m)) by lia.
    replace (8 * len - 8 * m)%nat with (8 * (len - m))%nat by lia.
    rewrite Ht, app_assoc, <- Etb1. apply IH; lia.
  - intros Hok. apply Hce. rewrite Ht, app_assoc in Hok. by apply table_ok_prefix in Hok.
Qed.

(** ** Opening *)
Lemma scan_empty h : geometry_ok h -> scan_ok h [] (replicate (Z.to_nat ((h.(Header.allocated_blocks) + 63) / 64)) 0) 0.
Proof.
  intros Hg. split; [split; [done|constructor]|by apply Forall_replicate|apply length_replicate| |done].
  intros s Hs. unfold used_bit. split; [|by intros [_ ?%elem_of_nil]].
  destruct (_ !! _) as [w|] eqn:E; [|done]. apply lookup_replicate in E as [-> _]. by rewrite Z.bits_0.
Qed.

Lemma decode_backend b h : be_ok b -> Header.decode (span (be_byte b) 0 64) = Ok h -> geometry_ok h.
Proof. intros Hb. apply decode_geometry, Forall_span. intros x. by apply be_byte_ok. Qed.

(** The checks before the scan, passed. *)
Lemma open_image_eq b h :
  be_ok b -> Header.decode (span (be_byte b) 0 64) = Ok h ->
  h.(Header.data_offset) + h.(Header.allocated_blocks) * h.(Header.block_size_bytes) <= be_size b ->
  open_image b =
  (let! s := read_table (8 * Z.to_nat h.(Header.table_entries)) h
               (h.(Header.data_offset) + h.(Header.allocated_blocks) * h.(Header.block_size_bytes)) 64
               (8 * Z.to_nat h.(Header.table_entries))
               ([], replicate (Z.to_nat ((h.(Header.allocated_blocks) + 63) / 64)) 0, 0) in
   st_ret (h, s)) b.
Proof.
  intros Hb Hh Hsz. pose proof (decode_backend b h Hb Hh) as Hg. pose proof (geometry_layout h Hg) as [].
  pose proof (ge_allocated _ Hg) as Hal. pose proof (be_size_ok b Hb). pose proof be_limit_ok. pose proof usize_max_ge as Hu. unfold usize_max in Hu.
  assert (0 <= h.(Header.allocated_blocks) * h.(Header.block_size_bytes)) by (apply Z.mul_nonneg_nonneg; lia).
  unfold open_image. erewrite st_bind_ok; [|change (Z.to_nat 64) with 64%nat; by rewrite (be_read b) by (done || lia)].
  erewrite st_bind_ok; [|unfold st_of_result; by rewrite Hh].
  erewrite st_bind_ok; [|unfold st_of_result; by rewrite checked_mul_ok by lia].
  rewrite (proj2 (Z.leb_le (h.(Header.table_entries) * 8) (128 * 1024 * 1024))),
    (proj2 (Z.leb_le h.(Header.table_entries) (16 * 1024 * 1024))) by lia.
  erewrite st_bind_ok; [|reflexivity].
  erewrite st_bind_ok; [|unfold st_of_result; by rewrite try_usize_ok by lia].
  erewrite st_bind_ok; [|unfold st_of_result; by rewrite try_usize_ok by lia].
  erewrite st_bind_ok; [|unfold st_of_result; by rewrite checked_add_ok by lia].
  erewrite st_bind_ok; [|by apply be_len].
  rewrite (proj2 (Z.leb_le (64 + h.(Header.table_entries) * 8) (be_size b))), (proj2 (Z.leb_le h.(Header.data_offset) (be_size b))) by lia.
  erewrite st_bind_ok; [|reflexivity]. erewrite st_bind_ok; [|reflexivity].
  erewrite st_bind_ok; [|unfold st_of_result; by rewrite checked_mul_ok by lia].
  erewrite st_bind_ok; [|unfold st_of_result; by rewrite checked_add_ok by lia].
  rewrite (proj2 (Z.leb_le _ (be_size b)) Hsz). erewrite st_bind_ok; [|reflexivity].
  erewrite st_bind_ok; [|unfold st_of_result; by rewrite try_usize_ok by lia].
  erewrite st_bind_ok; [|unfold st_of_result; by rewrite checked_add_ok by lia].
  replace (Z.to_nat (h.(Header.table_entries) * 8)) with (8 * Z.to_nat h.(Header.table_entries))%nat by lia.
  by rewrite Z2Nat.id by lia.
Qed.

Lemma st_bind_inv {S E A C} (m : st S E A) (k : A -> st S E C) s c s' :
  st_bind m k s = (Ok c, s') -> exists a s1, m s = (Ok a, s1) /\ k a s1 = (Ok c, s').
Proof. unfold st_bind. destruct (m s) as [[a|e] s1]; [by eauto|done]. Qed.

Lemma st_of_result_inv {S E A} (r : result A E) (s : S) a s' : st_of_result r s = (Ok a, s') -> r = Ok a /\ s' = s.
Proof. unfold st_of_result. by intros [= -> ->]. Qed.

Lemma open_image_inv b x b' :
  be_ok b -> open_image b = (Ok x, b') ->
  exists h, Header.decode (span (be_byte b) 0 64) = Ok h /\
    h.(Header.data_offset) + h.(Header.allocated_blocks) * h.(Header.block_size_bytes) <= be_size b.
Proof.
  intros Hb Ho. unfold open_image in Ho. apply st_bind_inv in Ho as (hb & b1 & E1 & Ho).
  change (Z.to_nat 64) with 64%nat in E1.
  destruct (Z.le_gt_cases 64 (be_size b)) as [H64|H64].
  2:{ destruct (be_read_out b 0 64 Hb ltac:(done) ltac:(lia)) as [e He]. by rewrite He in E1. }
  rewrite (be_read b) in E1 by (done || lia). injection E1 as <- <-.
  apply st_bind_inv in Ho as (h & b1 & [Hh ->]%st_of_result_inv & Ho). exists h. split; [done|].
  repeat (apply st_bind_inv in Ho as (? & ? & [?E ->]%st_of_result_inv & Ho)).
  apply st_bind_inv in Ho as (blen & b1 & El & Ho). rewrite be_len in El by done. injection El as <- <-.
  apply st_bind_inv in Ho as (u1 & b1 & [F1 ->]%st_of_result_inv & Ho).
  apply st_bind_inv in Ho as (u2 & b1 & [F2 ->]%st_of_result_inv & Ho).
  apply st_bind_inv in Ho as (db & b1 & [F3 ->]%st_of_result_inv & Ho).
  apply st_bind_inv in Ho as (ml & b1 & [F4 ->]%st_of_result_inv & Ho).
  apply st_bind_inv in Ho as (u3 & b1 & [F5%ensure_ok ->]%st_of_result_inv & Ho).
  unfold checked_mul in F3. case_if_in F3; [|done]. injection F3 as <-.
  unfold checked_add in F4. case_if_in F4; [|done]. injection F4 as <-. by apply Z.leb_le in F5.
Qed.

Lemma table_of_image h tb b : image_ok h tb b -> tb = table_of (be_byte b) 0 (length tb).
Proof.
  intros Hi. apply list_eq. intros k. destruct (tb !! k) as [e|] eqn:E.
  - pose proof (lookup_lt_Some _ _ _ E). unfold table_of. rewrite list_lookup_fmap, lookup_seq_lt by done. simpl.
    unfold entry_of. by rewrite (so_table Hi k e E).
  - apply lookup_ge_None in E. symmetry. apply lookup_ge_None. unfold table_of. by rewrite length_map, length_seq.
Qed.

(** [open] returns a disk exactly when the image is one that the operations
    keep, and then it is the disk that was written. *)
Lemma open_iff b d :
  be_ok b -> doff d + entries d * bsz d <= be_limit ->
  open b = Ok d <-> d.(backend) = b /\ sparse_ok d.
Proof.
  intros Hb Hroom. pose proof (be_size_ok b Hb) as Hbsz. split.
  - intros Ho. unfold open in Ho. destruct (open_image b) as [[[h [[tb seen] mapped]]|e] b'] eqn:Eo; [|done]. injection Ho as <-.
    simpl in Hroom. destruct (open_image_inv b _ _ Hb Eo) as (h0 & Hh & Hsz). rewrite (open_image_eq b h0 Hb Hh Hsz) in Eo.
    pose proof (decode_backend b h0 Hb Hh) as Hg. pose proof (geometry_layout _ Hg) as [].
    pose proof (ge_allocated _ Hg). assert (0 <= h0.(Header.allocated_blocks) * h0.(Header.block_size_bytes)) by (apply Z.mul_nonneg_nonneg; lia).
    pose proof (read_table_ok h0 b (8 * Z.to_nat h0.(Header.table_entries)) (Z.to_nat h0.(Header.table_entries)) _ _ _ Hg Hb (scan_empty h0 Hg)) as Hrt.
    cbn [length app] in Hrt. change (64 + 8 * Z.of_nat 0) with 64 in Hrt. unfold st_bind in Eo.
    destruct (read_table _ _ _ _ _ _ _) as [[[[tb' seen'] m']|e] b1]; [|done]. unfold st_ret in Eo. simplify_eq.
    destruct Hrt as (-> & -> & Hsc); [lia..|]. assert (length (table_of (be_byte b) 0 (Z.to_nat h.(Header.table_entries))) = Z.to_nat h.(Header.table_entries)) as Hl
      by (unfold table_of; by rewrite length_map, length_seq).
    split; [done|]. split; cbn [header backend table phys_used mapped_blocks]; [apply scan_meta; [done..|lia]| |done|done].
    split; [done|done|]. intros i e Hi. pose proof (lookup_lt_Some _ _ _ Hi) as Hlt. unfold table_of in Hi.
    rewrite list_lookup_fmap, lookup_seq_lt in Hi by lia. simpl in Hi. by injection Hi as <-.
  - intros [<- Hd]. pose proof (so_layout _ Hd) as []. unfold open.
    pose proof (so_geo Hd) as Hg. pose proof (ge_allocated _ Hg) as Hal.
    assert (0 <= slots d * bsz d) by (apply Z.mul_nonneg_nonneg; lia). pose proof (so_size Hd).
    rewrite (open_image_eq _ _ Hb (so_header Hd) (so_size Hd)).
    pose proof (read_table_ok d.(header) d.(backend) (8 * Z.to_nat (entries d)) (Z.to_nat (entries d)) _ _ _ Hg Hb (scan_empty _ Hg)) as Hrt.
    cbn [length app] in Hrt. change (64 + 8 * Z.of_nat 0) with 64 in Hrt. pose proof (so_length Hd).
    replace (table_of (bytes d) 0 (Z.to_nat (entries d))) with d.(table) in Hrt.
    2:{ rewrite (table_of_image _ _ _ (so_image Hd)) at 1. f_equal. lia. }
    pose proof (meta_scan _ _ _ _ (so_meta Hd)) as Hms. unfold st_bind.
    destruct (read_table _ _ _ _ _ _ _) as [[[[tb' seen'] m']|e] b1].
    + destruct Hrt as (-> & -> & Hsc); [lia..|]. destruct (scan_unique _ _ _ _ _ _ Hsc Hms) as [-> ->]. unfold st_ret. by destruct d.
    + exfalso. apply Hrt; [lia..|]. apply (sc_table _ _ _ _ Hms).
Qed.

(** ** Creating *)
(** On a backend whose table area reads as zeros, such as a new one. *)
Lemma create_ok b cfg d :
  be_ok b -> uint 32 cfg.(AeroSparseConfig.block_size_bytes) -> uint 64 cfg.(AeroSparseConfig.disk_size_bytes) ->
  create b cfg = Ok d -> doff d + entries d * bsz d <= be_limit ->
  (forall a, 64 <= a < doff d -> be_byte b a = 0) ->
  sparse_ok d /\ capacity_bytes d = cfg.(AeroSparseConfig.disk_size_bytes) /\ forall a, sparse_byte d a = 0.
Proof.
  intros Hb Hc1 Hc2 Hcr Hroom Hz. unfold create in Hcr.
  inv_bind Hcr u1 E1. inv_bind Hcr u2 E2. inv_bind Hcr u3 E3. inv_bind Hcr u4 E4. inv_bind Hcr te E5. inv_bind Hcr teu E6.
  inv_bind Hcr tb E7. inv_bind Hcr u5 E8. inv_bind Hcr tend E9. inv_bind Hcr off E10.
  apply ensure_ok in E1, E2, E3, E4, E8. set (h := Header.mk 1 _ _ te off 0) in Hcr.
  unfold checked_mul in E7. case_if_in E7; [|done]. injection E7 as <-.
  unfold checked_add in E9. case_if_in E9; [|done]. injection E9 as <-.
  unfold try_usize in E6. case_if_in E6; [|done]. injection E6 as <-.
  assert (0 < cfg.(AeroSparseConfig.block_size_bytes) <= 2 ^ 26) as Hbs by (bool_hyps; unfold uint in Hc1; lia).
  assert (0 < cfg.(AeroSparseConfig.disk_size_bytes)) as Hds by (bool_hyps; unfold uint in Hc2; lia).
  apply Z.leb_le in E8. pose proof (div_ceil_spec _ _ _ (Z.lt_le_incl _ _ Hds) (proj1 Hbs) E5) as [Hte Hte0].
  assert (te <> 0) as Hten by (intros ->; lia).
  pose proof (align_up_spec (64 + te * 8) _ _ ltac:(lia) (proj1 Hbs) E10) as [Hoff _].
  apply andb_true_iff in E1 as [E1a E1b]. apply andb_true_iff in E4 as [E4a E4b].
  assert (geometry_ok h) as Hg.
  { split; cbn [h Header.version Header.block_size_bytes Header.disk_size_bytes Header.table_entries Header.data_offset Header.allocated_blocks];
      [done|done|done| | |lia].
    - split; [unfold uint; lia|]. split; [by apply negb_true_iff, Z.eqb_neq|]. split; [done|lia].
    - split; [unfold uint; lia|done]. }
  pose proof (geometry_layout h Hg) as [L1 L2 L3 L4 L5 L6]. cbn [h Header.block_size_bytes Header.disk_size_bytes Header.table_entries Header.data_offset] in L1, L2, L3, L4, L5, L6.
  assert (0 <= te * cfg.(AeroSparseConfig.block_size_bytes)) by (apply Z.mul_nonneg_nonneg; lia).
  unfold st_bind in Hcr.
  destruct (backend_set_len off b) as [[u6|e] b1] eqn:Es; [|done].
  destruct (backend_write_at 0 (Header.encode h) b1) as [[u7|e] b2] eqn:Ew; [|done]. injection Hcr as <-.
  cbn [header h Header.data_offset Header.table_entries Header.block_size_bytes] in Hroom, Hz.
  destruct (be_set_len b off Hb ltac:(lia)) as (b1' & Es' & Hb1 & Hs1 & Hy1). rewrite Es' in Es. injection Es as _ ->.
  destruct (be_write b1 0 (Header.encode h) Hb1) as (b2' & Ew' & Hb2 & Hs2 & Hy2); [done|apply encode_ok|rewrite encode_length; lia|].
  rewrite Ew' in Ew. injection Ew as _ ->. rewrite encode_length in Hs2.
  assert (forall tbz, used_slots (replicate tbz 0) = []) as Hus by (intros tbz; induction tbz; done).
  split; [|split; [done|]].
  - split; cbn [header backend table phys_used mapped_blocks].
    + apply scan_meta; [done| |rewrite length_replicate; cbn [h Header.table_entries]; lia].
      split; [split|constructor|done| |by rewrite Hus].
      * intros i e Hi He. apply lookup_replicate in Hi as [-> _]. done.
      * rewrite Hus. constructor.
      * intros s Hs. split; [done|]. cbn [h Header.allocated_blocks]. lia.
    + split; [done|..].
      * rewrite (span_ext (be_byte b2) (splice (be_byte b1) 0 (Header.encode h))) by (intros; apply Hy2; lia).
        rewrite <- (encode_length h) at 1. rewrite splice_span. by apply header_decode_encode.
      * intros i e Hi. apply lookup_replicate in Hi as [-> Hi].
        rewrite (span_ext (be_byte b2) (fun _ => 0)); [done|]. intros x Hx. rewrite Hy2 by lia.
        rewrite splice_other by (rewrite encode_length; lia). rewrite Hy1 by lia. case_if; [|done]. apply Hz. lia.
    + exact Hroom.
    + cbn [h Header.data_offset Header.allocated_blocks]. lia.
  - intros a. unfold sparse_byte. cbn [table]. destruct (_ !! _) as [e|] eqn:E; [|done]. apply lookup_replicate in E as [-> _]. done.
Qed.

Lemma create_empty b cfg d : create b cfg = Ok d -> forall i e, d.(table) !! i = Some e -> e = 0.
Proof.
  intros Hcr. unfold create in Hcr.
  inv_bind Hcr u1 E1. inv_bind Hcr u2 E2. inv_bind Hcr u3 E3. inv_bind Hcr u4 E4. inv_bind Hcr te E5. inv_bind Hcr teu E6.
  inv_bind Hcr tb E7. inv_bind Hcr u5 E8. inv_bind Hcr tend E9. inv_bind Hcr off E10. case_match. case_match; [|done].
  injection Hcr as <-. intros i e Hi. by apply lookup_replicate in Hi as [-> _].
Qed.

(** The configurations [create] takes. *)
Definition valid_config (cfg : AeroSparseConfig.t) : bool :=
  let bs := cfg.(AeroSparseConfig.block_size_bytes) in
  let disk := cfg.(AeroSparseConfig.disk_size_bytes) in
  (nz bs && (bs mod 512 =? 0)) && is_power_of_two bs && (bs <=? 2 ^ 26) &&
  (nz disk && (disk mod 512 =? 0)) && (disk <=? 2 ^ 24 * bs).

Lemma create_valid b cfg d :
  uint 32 cfg.(AeroSparseConfig.block_size_bytes) -> uint 64 cfg.(AeroSparseConfig.disk_size_bytes) ->
  create b cfg = Ok d -> valid_config cfg = true.
Proof.
  intros Hc1 Hc2 Hcr. unfold create in Hcr.
  inv_bind Hcr u1 E1. inv_bind Hcr u2 E2. inv_bind Hcr u3 E3. inv_bind Hcr u4 E4. inv_bind Hcr te E5. inv_bind Hcr teu E6.
  inv_bind Hcr tb E7. inv_bind Hcr u5 E8. apply ensure_ok in E1, E2, E3, E4, E8.
  unfold checked_mul in E7. case_if_in E7; [|done]. injection E7 as <-. apply Z.leb_le in E8.
  unfold valid_config. change (2 ^ 26) with (64 * 1024 * 1024). rewrite E1, E2, E3, E4. cbn [andb]. apply Z.leb_le.
  unfold uint in *. apply div_ceil_spec in E5 as [Hte _]; [|lia|bool_hyps; lia].
  assert (te * cfg.(AeroSparseConfig.block_size_bytes) <= 2 ^ 24 * cfg.(AeroSparseConfig.block_size_bytes)) by (apply Z.mul_le_mono_nonneg_r; lia).
  lia.
Qed.

Lemma create_returns b cfg :
  let bs := cfg.(AeroSparseConfig.block_size_bytes) in
  let blocks := (cfg.(AeroSparseConfig.disk_size_bytes) + bs - 1) / bs in
  be_ok b -> uint 32 bs -> uint 64 cfg.(AeroSparseConfig.disk_size_bytes) ->
  64 + 8 * blocks + bs + blocks * bs <= be_limit -> valid_config cfg = true ->
  exists d, create b cfg = Ok d /\ doff d + entries d * bsz d <= be_limit.
Proof.
  intros bs blocks Hb Hbs Hds Hroom Hv. unfold valid_config in Hv. fold bs in Hv.
  apply andb_true_iff in Hv as [Hv V6]. apply andb_true_iff in Hv as [Hv V45]. apply andb_true_iff in Hv as [Hv V3].
  apply andb_true_iff in Hv as [V1 V2]. apply Z.leb_le in V6. unfold uint in *.
  assert (0 < bs <= 2 ^ 26) as Hbs' by (bool_hyps; lia). assert (0 < cfg.(AeroSparseConfig.disk_size_bytes)) as Hds' by (bool_hyps; lia).
  pose proof be_limit_ok as Hlim.
  unfold create. fold bs. rewrite V1, V2, V45. change (64 * 1024 * 1024) with (2 ^ 26). rewrite V3. cbn [ensure result_bind].
  destruct (div_ceil_u64 cfg.(AeroSparseConfig.disk_size_bytes) bs) as [te|e] eqn:E5.
  2:{ unfold div_ceil_u64 in E5. by rewrite (proj2 (Z.eqb_neq bs 0)) in E5 by lia. }
  apply div_ceil_spec in E5 as [Hte Hte0]; [|lia..]. cbn [result_bind].
  assert (te = blocks) as Hteb.
  { unfold blocks. apply (Z.div_unique_pos _ _ _ (cfg.(AeroSparseConfig.disk_size_bytes) + bs - 1 - bs * te)); lia. }
  assert (te <= 2 ^ 24) as Hte24.
  { destruct (Z.le_gt_cases te (2 ^ 24)); [done|]. pose proof (Z.mul_le_mono_nonneg_r (2 ^ 24) (te - 1) bs ltac:(lia) ltac:(lia)). lia. }
  rewrite try_usize_ok by lia. cbn [ok_or result_bind]. rewrite checked_mul_ok by lia. cbn [ok_or result_bind].
  rewrite (proj2 (Z.leb_le (te * 8) (128 * 1024 * 1024))) by lia. cbn [ensure result_bind].
  rewrite checked_add_ok by lia. cbn [ok_or result_bind].
  destruct (align_up_u64 (64 + te * 8) bs) as [off|e] eqn:E10.
  2:{ unfold align_up_u64 in E10. rewrite (proj2 (Z.eqb_neq bs 0)) in E10 by lia. pose proof (Z.mod_pos_bound (64 + te * 8) bs ltac:(lia)).
      case_if_in E10; [done|]. by rewrite checked_add_ok in E10 by lia. }
  apply align_up_spec in E10 as [Hoff _]; [|lia..]. cbn [result_bind].
  assert (0 <= te * bs) by (apply Z.mul_nonneg_nonneg; lia). rewrite <- Hteb in Hroom.
  destruct (be_set_len b off Hb ltac:(lia)) as (b1 & Es & Hb1 & Hs1 & _). unfold st_bind. rewrite Es.
  set (h := Header.mk 1 _ _ te off 0).
  destruct (be_write b1 0 (Header.encode h) Hb1) as (b2 & Ew & _); [done|apply encode_ok|rewrite encode_length; lia|]. rewrite Ew.
  eexists. split; [done|]. cbn [header h Header.data_offset Header.table_entries Header.block_size_bytes]. lia.
Qed.
End Table.
