(* ===== verification/CowFacts.v ===== *)
(** * Copy-on-write disks keep the contract of a disk *)

From S2P Require Import Prelude Bytes GuestMem Storage StorageFacts SparseDisk CowDisk SparseFacts SparseInv SparseAlloc SparseContract.
Import AeroCowDisk.

Section Cow.
Context `{Target} `{BaseSpec Base} `{BackendSpec B}.
Implicit Types (d : t Base B) (b : Base).

Abbreviation ov d := (d.(overlay)).
Abbreviation bs d := (bsz d.(overlay)).
Abbreviation cap d := (capacity_bytes d.(base)).

(** ** The base *)
Lemma same_refl b : vd_ok b -> holds b b (vd_byte b).
Proof. by intros Hb. Qed.

Lemma same_trans b1 b2 b3 : holds b1 b2 (vd_byte b1) -> holds b2 b3 (vd_byte b2) -> holds b1 b3 (vd_byte b1).
Proof.
  intros (_ & C2 & B2) (O3 & C3 & B3). split; [done|]. split; [congruence|]. intros a Ha. rewrite B3 by lia. by apply B2.
Qed.

(** ** The state *)
Definition cow_ok d : Prop := vd_ok d.(base) /\ sparse_ok d.(overlay) /\ capacity_bytes d.(overlay) = cap d.

Definition cow_byte d (a : Z) : Z :=
  if Sparse.is_block_allocated d.(overlay) (a / bs d) then sparse_byte d.(overlay) a else vd_byte d.(base) a.

Lemma allocated_entry (s : Sparse.t B) q :
  sparse_ok s -> 0 <= q < entries s ->
  exists e, s.(Sparse.table) !! Z.to_nat q = Some e /\ Sparse.is_block_allocated s q = nz e.
Proof.
  intros Hs Hq. pose proof (so_layout _ Hs) as []. pose proof (so_length Hs).
  destruct (lookup_lt_is_Some_2 s.(Sparse.table) (Z.to_nat q)) as [e He]; [lia|]. exists e. split; [done|].
  unfold Sparse.is_block_allocated. rewrite try_usize_ok by lia. by rewrite He.
Qed.

(** ** Reading *)
Lemma cow_read_ok d off n :
  cow_ok d -> 0 <= off -> off + Z.of_nat n <= cap d ->
  exists b', read_at off n d = (Ok (span (cow_byte d) off n), with_base b' d) /\ holds d.(base) b' (vd_byte d.(base)).
Proof.
  intros (Hb & Hs & Hc) Ho Hn. pose proof (so_layout _ Hs) as []. pose proof (bd_capacity _ Hb) as Hcap. unfold uint in Hcap.
  simpl in Hc. unfold read_at. erewrite st_bind_ok; [|unfold st_of_result; by rewrite checked_range_ok by lia].
  change (Sparse.block_size d.(overlay)) with (bs d). set (body := fun abs n d => _).
  pose proof (read_blocks_ok (bs d) ltac:(lia) (fun d' => exists b', d' = with_base b' d /\ holds d.(base) b' (vd_byte d.(base)))
    (fun _ => False) (cow_byte d) body n off n d) as Hrb.
  destruct (read_blocks n (bs d) body off n d) as [r d']. destruct Hrb as [(b' & -> & Hb') [->|(e & _ & [])]]; [|done| |by exists b'].
  2:{ exists d.(base). split; [by destruct d|by apply same_refl]. }
  intros ? abs m (b1 & -> & Hb1) Ha Hm Hm0 Hcm. unfold body. cbn [overlay with_base].
  assert (forall x, abs <= x < abs + Z.of_nat m -> x / bs d = abs / bs d) as Hq.
  { intros x Hx. pose proof (Z.div_mod abs (bs d) ltac:(lia)). pose proof (Z.mod_pos_bound abs (bs d) ltac:(lia)). symmetry.
    apply (Z.div_unique_pos _ _ _ (abs mod bs d + (x - abs))); lia. }
  destruct (Sparse.is_block_allocated d.(overlay) (abs / bs d)) eqn:Eal.
  - unfold on_overlay. erewrite zoom_eq; [|cbn [overlay with_base]; apply sparse_read_ok; [done|lia..]].
    split; [by exists b1|left]. f_equal. apply span_ext. intros x Hx. unfold cow_byte. by rewrite Hq, Eal by lia.
  - destruct Hb1 as (O1 & C1 & B1). destruct (bd_read b1 abs m O1) as (b2 & E2 & K2); [unfold in_disk; lia|].
    unfold on_base. erewrite zoom_eq; [|exact E2]. split.
    + exists b2. split; [done|]. by apply (same_trans _ b1).
    + left. f_equal. apply span_ext. intros x Hx. rewrite B1 by lia. unfold cow_byte. by rewrite Hq, Eal by lia.
Qed.

(** ** Writing *)
(** Bytes of the base copied into a block. *)
Lemma copy_base_ok fuel d i e base_off o n :
  vd_ok d.(base) -> sparse_ok d.(overlay) -> d.(overlay).(Sparse.table) !! i = Some e -> e <> 0 ->
  0 <= base_off -> base_off + Z.of_nat n <= cap d -> 0 <= o -> o + Z.of_nat n <= bs d -> (n <= fuel)%nat ->
  exists b' x, copy_base fuel e base_off o n d = (Ok tt, mk b' (Sparse.with_backend x d.(overlay))) /\
    holds d.(base) b' (vd_byte d.(base)) /\ sparse_ok (Sparse.with_backend x d.(overlay)) /\
    forall a, 0 <= a -> sparse_byte (Sparse.with_backend x d.(overlay)) a =
      splice (sparse_byte d.(overlay)) (Z.of_nat i * bs d + o) (span (vd_byte d.(base)) base_off n) a.
Proof.
  revert d base_off o n. induction fuel as [|fuel IH]; intros d boff o n Hb Hs Hi He Hbo Hbn Ho Hn Hf; cbn [copy_base].
  all: assert (sparse_ok (Sparse.with_backend d.(overlay).(Sparse.backend) d.(overlay))) as Hs' by (by destruct d as [? []]).
  { destruct n; [|lia]. exists d.(base), d.(overlay).(Sparse.backend). split; [by destruct d as [? []]|]. split; [by apply same_refl|].
    split; [done|]. intros a Ha. by rewrite splice_nil; destruct d as [? []]. }
  destruct (Nat.eqb_spec n 0) as [->|Hn0].
  { exists d.(base), d.(overlay).(Sparse.backend). split; [by destruct d as [? []]|]. split; [by apply same_refl|].
    split; [done|]. intros a Ha. by rewrite splice_nil; destruct d as [? []]. }
  set (m := Nat.min n (Z.to_nat 4096)). assert (0 < m <= n)%nat as Hm by lia. pose proof (bd_capacity _ Hb) as Hcap. unfold uint in Hcap.
  destruct (bd_read d.(base) boff m Hb) as (b1 & E1 & Hb1); [unfold in_disk; lia|].
  erewrite st_bind_ok; [|apply zoom_eq; exact E1].
  destruct (write_data d.(overlay) i e o (span (vd_byte d.(base)) boff m) Hs Hi He Ho) as (x1 & E2 & Hs1 & Hx1).
  { rewrite span_length. lia. }
  { apply Forall_span. intros x. by apply bd_byte_ok. }
  erewrite st_bind_ok; [|apply zoom_eq; exact E2]. unfold with_base, with_overlay. cbn [base overlay].
  erewrite st_bind_ok; [|unfold st_of_result; by rewrite checked_add_ok by lia].
  pose proof Hb1 as (O1 & C1 & B1).
  destruct (IH (mk b1 (Sparse.with_backend x1 d.(overlay))) (boff + Z.of_nat m) (o + Z.of_nat m) (n - m)%nat O1 Hs1 Hi He)
    as (b2 & x2 & E3 & Hb2 & Hs2 & Hx2); cbn [base overlay] in *; [lia..|change (bsz (Sparse.with_backend x1 d.(overlay))) with (bs d); lia|lia|].
  change (Sparse.with_backend x2 (Sparse.with_backend x1 d.(overlay))) with (Sparse.with_backend x2 d.(overlay)) in *.
  exists b2, x2. split; [done|]. split; [by apply (same_trans _ b1)|]. split; [done|].
  intros a Ha. rewrite Hx2 by done. change (bsz (Sparse.with_backend x1 d.(overlay))) with (bs d).
  replace (span (vd_byte d.(base)) boff n) with (span (vd_byte d.(base)) boff m ++ span (vd_byte d.(base)) (boff + Z.of_nat m) (n - m))
    by (rewrite <- span_app; f_equal; lia).
  rewrite <- splice_app, span_length.
  replace (Z.of_nat i * bs d + (o + Z.of_nat m)) with (Z.of_nat i * bs d + o + Z.of_nat m) by lia.
  rewrite (span_ext (vd_byte b1) (vd_byte d.(base))) by (intros; apply B1; lia).
  apply splice_ext. by apply Hx1.
Qed.

Lemma splice_span_in f g p n a : p <= a < p + Z.of_nat n -> splice f p (span g p n) a = g a.
Proof.
  intros Ha. pose proof (splice_in f p (span g p n) a ltac:(rewrite span_length; lia)) as Hs.
  rewrite span_lookup in Hs by lia. injection Hs as <-. f_equal. lia.
Qed.

Lemma write_seeded_ok d i e w src :
  cow_ok d -> d.(overlay).(Sparse.table) !! i = Some e -> e <> 0 -> Forall byte_ok src -> (0 < length src)%nat ->
  0 <= w -> w + Z.of_nat (length src) <= bs d -> Z.of_nat i * bs d + w + Z.of_nat (length src) <= cap d ->
  exists b' x, write_seeded (Z.of_nat i) e w src d = (Ok tt, mk b' (Sparse.with_backend x d.(overlay))) /\
    holds d.(base) b' (vd_byte d.(base)) /\ sparse_ok (Sparse.with_backend x d.(overlay)) /\
    forall a, 0 <= a < cap d -> sparse_byte (Sparse.with_backend x d.(overlay)) a =
      if a / bs d =? Z.of_nat i then splice (vd_byte d.(base)) (Z.of_nat i * bs d + w) src a else sparse_byte d.(overlay) a.
Proof.
  intros (Hb & Hs & Hc) Hi He Hsrc Hs0 Hw Hwl Hcapn. simpl in Hc. pose proof (so_layout _ Hs) as [].
  pose proof (bd_capacity _ Hb) as Hcap. unfold uint in Hcap. unfold write_seeded. change (Sparse.block_size d.(overlay)) with (bs d).
  set (start := Z.of_nat i * bs d) in *. assert (0 <= start) by (apply Z.mul_nonneg_nonneg; lia).
  erewrite st_bind_ok; [|unfold st_of_result; fold start; by rewrite checked_mul_ok by lia]. fold start.
  erewrite st_bind_ok; [|unfold st_of_result; by rewrite try_usize_ok by lia].
  set (ml := Z.min (cap d - start) (bs d)). replace (Nat.min (Z.to_nat w) (Z.to_nat ml)) with (Z.to_nat w) by lia.
  destruct (copy_base_ok (Z.to_nat w) d i e start 0 (Z.to_nat w) Hb Hs Hi He) as (b1 & x1 & E1 & Hb1 & Hs1 & Hx1); [lia..|].
  erewrite st_bind_ok; [|exact E1]. pose proof Hb1 as (O1 & C1 & B1).
  destruct (write_data (Sparse.with_backend x1 d.(overlay)) i e w src Hs1 Hi He Hw) as (x2 & E2 & Hs2 & Hx2); [exact Hwl|done|].
  erewrite st_bind_ok; [|apply zoom_eq; exact E2]. unfold with_overlay. cbn [base overlay].
  change (Sparse.with_backend x2 (Sparse.with_backend x1 d.(overlay))) with (Sparse.with_backend x2 d.(overlay)) in *.
  rewrite Z2Nat.id by lia. set (we := w + Z.of_nat (length src)) in *.
  destruct (copy_base_ok (Z.to_nat ml - Z.to_nat we) (mk b1 (Sparse.with_backend x2 d.(overlay))) i e (start + we) we (Z.to_nat ml - Z.to_nat we)
    O1 Hs2 Hi He) as (b3 & x3 & E3 & Hb3 & Hs3 & Hx3); cbn [base overlay] in *;
    change (bsz (Sparse.with_backend x2 d.(overlay))) with (bs d) in *; [lia..|].
  change (bsz (Sparse.with_backend x1 d.(overlay))) with (bs d) in *.
  change (Sparse.with_backend x3 (Sparse.with_backend x2 d.(overlay))) with (Sparse.with_backend x3 d.(overlay)) in *.
  exists b3, x3. split; [|split; [by apply (same_trans _ b1)|split; [done|]]].
  - destruct (Z.ltb_spec we ml) as [Hlt|Hge].
    + erewrite st_bind_ok; [|unfold st_of_result; by rewrite checked_add_ok by lia]. exact E3.
    + replace (Z.to_nat ml - Z.to_nat we)%nat with 0%nat in E3 by lia. cbn [copy_base] in E3. exact E3.
  - intros a Ha. rewrite Hx3 by lia. fold start in Hx2, Hx1 |- *. rewrite Z.add_0_r in Hx1.
    rewrite (splice_ext _ _ _ _ _ (Hx2 a ltac:(lia))).
    rewrite (span_ext (vd_byte b1) (vd_byte d.(base))) by (intros; apply B1; lia).
    pose proof (Z.div_mod a (bs d) ltac:(lia)) as Dm. pose proof (Z.mod_pos_bound a (bs d) ltac:(lia)) as Dp.
    destruct (Z.eqb_spec (a / bs d) (Z.of_nat i)) as [Hq|Hq].
    + assert (start <= a < start + ml) as Hr by (rewrite Hq in Dm; lia).
      destruct (decide (start + we <= a)) as [Q3|Q3].
      { rewrite splice_span_in by lia. by rewrite splice_other by lia. }
      rewrite splice_other by (rewrite span_length; lia). destruct (decide (start + w <= a)) as [Q2|Q2].
      { pose proof (splice_in (vd_byte d.(base)) (start + w) src a ltac:(lia)).
        pose proof (splice_in (sparse_byte (Sparse.with_backend x1 d.(overlay))) (start + w) src a ltac:(lia)). congruence. }
      rewrite !splice_other by lia. rewrite Hx1 by lia. rewrite splice_span_in by lia. done.
    + assert (~ start <= a < start + bs d) as Hr.
      { intros Hr. apply Hq. apply block_of; lia. }
      rewrite !splice_other by (rewrite ?span_length; lia). rewrite Hx1 by lia. apply splice_other. rewrite span_length. lia.
Qed.

(** What an operation keeps. *)
Definition cow_step d d' : Prop :=
  cow_ok d' /\ holds d.(base) d'.(base) (vd_byte d.(base)) /\ evolves d.(overlay) d'.(overlay).

Lemma cow_step_intro d d' :
  cow_ok d -> holds d.(base) d'.(base) (vd_byte d.(base)) -> evolves d.(overlay) d'.(overlay) -> cow_step d d'.
Proof.
  intros (Hb & Hs & Hc) Hh Hev. split; [|done]. destruct (evolves_geometry _ _ Hev) as (_ & Hz & _). destruct Hh as (O & C & _).
  split; [done|]. split; [apply Hev|]. simpl in *. lia.
Qed.

Lemma cow_step_refl d : cow_ok d -> cow_step d d.
Proof. intros Hd. pose proof Hd as (Hb & Hs & _). apply cow_step_intro; [done|by apply same_refl|by apply evolves_refl]. Qed.

Lemma cow_step_trans d1 d2 d3 : cow_step d1 d2 -> cow_step d2 d3 -> cow_step d1 d3.
Proof.
  intros (_ & B2 & E2) (O3 & B3 & E3). split; [done|]. split; [by apply (same_trans _ d2.(base))|by apply (evolves_trans _ d2.(overlay))].
Qed.

Lemma cow_step_geometry d d' : cow_step d d' -> bs d' = bs d /\ cap d' = cap d.
Proof. intros (_ & (_ & C & _) & Hev). by destruct (evolves_geometry _ _ Hev) as (-> & _). Qed.

(** A write into block [i], seen from the overlay. *)
Lemma cow_patch d d' i e abs src :
  cow_ok d -> holds d.(base) d'.(base) (vd_byte d.(base)) -> evolves d.(overlay) d'.(overlay) ->
  d'.(overlay).(Sparse.table) = <[i := e]> d.(overlay).(Sparse.table) -> (i < length d.(overlay).(Sparse.table))%nat -> e <> 0 ->
  Z.of_nat i * bs d <= abs -> abs + Z.of_nat (length src) <= Z.of_nat i * bs d + bs d ->
  (forall a, 0 <= a < cap d -> a / bs d = Z.of_nat i -> sparse_byte d'.(overlay) a = splice (cow_byte d) abs src a) ->
  (forall a, 0 <= a < cap d -> a / bs d <> Z.of_nat i -> sparse_byte d'.(overlay) a = sparse_byte d.(overlay) a) ->
  cow_step d d' /\ forall a, 0 <= a < cap d -> cow_byte d' a = splice (cow_byte d) abs src a.
Proof.
  intros Hd Hh Hev Ht Hi He Hlo Hhi Hin Hout. split; [by apply cow_step_intro|]. intros a Ha.
  destruct Hd as (Hb & Hs & Hc). simpl in Hc. pose proof (so_layout _ Hs) as []. destruct (evolves_geometry _ _ Hev) as (Hbs & _ & Hen & _).
  destruct (sparse_block d.(overlay) a Hs ltac:(lia)) as [Hq _]. destruct Hh as (_ & _ & Hbb).
  destruct (allocated_entry d.(overlay) (a / bs d) Hs Hq) as (e1 & Ht1 & Hal1).
  destruct (allocated_entry d'.(overlay) (a / bs d) (proj1 Hev) ltac:(lia)) as (e2 & Ht2 & Hal2).
  unfold cow_byte at 1. rewrite Hbs, Hal2. rewrite Ht in Ht2. destruct (decide (a / bs d = Z.of_nat i)) as [Hqi|Hqi].
  - rewrite Hqi, Nat2Z.id, list_lookup_insert_eq in Ht2 by done. injection Ht2 as <-.
    rewrite (proj2 (Z.eqb_neq e 0) He). cbn [negb]. by apply Hin.
  - rewrite list_lookup_insert_ne in Ht2 by lia. assert (e2 = e1) as -> by congruence.
    rewrite splice_other.
    + unfold cow_byte. rewrite Hal1, Hout, Hbb by (done || lia). done.
    + intros Hr. apply Hqi. apply block_of; lia.
Qed.

Lemma cow_write_block_ok d abs src :
  cow_ok d -> Forall byte_ok src -> 0 <= abs -> (0 < length src)%nat -> abs + Z.of_nat (length src) <= cap d ->
  abs mod bs d + Z.of_nat (length src) <= bs d ->
  exists d', write_block abs src d = (Ok tt, d') /\ cow_step d d' /\
    forall a, 0 <= a < cap d -> cow_byte d' a = splice (cow_byte d) abs src a.
Proof.
  intros Hd Hsrc Ha Hs0 Hn Hcm. pose proof Hd as (Hb & Hs & Hc). simpl in Hc. pose proof (so_layout _ Hs) as [].
  pose proof (bd_capacity _ Hb) as Hcap. unfold uint in Hcap.
  destruct (sparse_block d.(overlay) abs Hs ltac:(lia)) as [Hq [e0 He0]].
  pose proof (Z.div_mod abs (bs d) ltac:(lia)) as Dm. pose proof (Z.mod_pos_bound abs (bs d) ltac:(lia)) as Dp.
  set (i := Z.to_nat (abs / bs d)) in *. set (w := abs mod bs d) in *.
  assert (Z.of_nat i = abs / bs d) as Ei by (unfold i; lia). assert (abs = Z.of_nat i * bs d + w) as Eabs by lia.
  assert (i < length d.(overlay).(Sparse.table))%nat as Hlt by (by eapply lookup_lt_Some).
  unfold write_block. change (Sparse.block_size d.(overlay)) with (bs d). fold w. rewrite <- Ei.
  assert (Z.of_nat i * bs d <= abs) as Hlo by lia. assert (abs + Z.of_nat (length src) <= Z.of_nat i * bs d + bs d) as Hhi by lia.
  assert (forall a, a / bs d = Z.of_nat i -> cow_byte d a = if nz e0 then sparse_byte d.(overlay) a else vd_byte d.(base) a) as Hcb.
  { intros a Hqa. unfold cow_byte. rewrite Hqa, Ei. destruct (allocated_entry d.(overlay) (abs / bs d) Hs Hq) as (e1 & Ht1 & ->).
    fold i in Ht1. by assert (e1 = e0) as -> by congruence. }
  assert (forall a, a / bs d <> Z.of_nat i -> ~ abs <= a < abs + Z.of_nat (length src)) as Hno.
  { intros a Hqa Hr. apply Hqa. apply block_of; lia. }
  destruct (decide (e0 = 0)) as [->|Hne0].
  - destruct (ensure_new d.(overlay) i Hs He0) as (e & n & o1 & E1 & Ho1 & Hne & Ht1 & Hh1 & Hb1).
    assert (evolves d.(overlay) o1) as Hev1 by (split; [done|by exists n]).
    destruct (evolves_geometry _ _ Hev1) as (Hbs1 & _).
    assert (o1.(Sparse.table) !! i = Some e) as He1 by (by rewrite Ht1, list_lookup_insert_eq).
    erewrite st_bind_ok; [|apply zoom_eq; exact E1]. cbv beta iota. unfold with_overlay.
    destruct ((w =? 0) && (Z.of_nat (length src) =? bs d)) eqn:Efull.
    + apply andb_true_iff in Efull as [Hw0%Z.eqb_eq Hlen%Z.eqb_eq].
      destruct (write_data o1 i e 0 src Ho1 He1 Hne) as (x & E2 & Ho2 & Hb2); [lia..|done|].
      exists (mk d.(base) (Sparse.with_backend x o1)). split; [unfold on_overlay; erewrite zoom_eq; [|exact E2]; done|].
      apply (cow_patch _ _ i e); cbn [base overlay]; [exact Hd|by apply same_refl| |exact Ht1|exact Hlt|exact Hne|exact Hlo|exact Hhi| |].
      * apply (evolves_trans _ o1); [done|by apply evolves_data].
      * intros a Ha' Hqa. rewrite Hb2, Hbs1 by lia. replace (Z.of_nat i * bs d + 0) with abs by lia.
        pose proof (Z.div_mod a (bs d) ltac:(lia)). pose proof (Z.mod_pos_bound a (bs d) ltac:(lia)).
        assert (abs <= a < abs + Z.of_nat (length src)) as Hr by (rewrite Hqa in *; lia).
        pose proof (splice_in (sparse_byte o1) abs src a Hr). pose proof (splice_in (cow_byte d) abs src a Hr). congruence.
      * intros a Ha' Hqa. rewrite Hb2, Hbs1 by lia. rewrite splice_other; [apply Hb1; [lia|done]|].
        replace (Z.of_nat i * bs d + 0) with abs by lia. by apply Hno.
    + destruct (write_seeded_ok (mk d.(base) o1) i e w src) as (b' & x & E2 & Hh & Hs2 & Hx);
        cbn [base overlay] in *; rewrite ?Hbs1 in *; try done; [|lia..|].
      { split; [done|]. split; [done|]. cbn [base overlay]. rewrite <- Hc. simpl. by rewrite Hh1. }
      exists (mk b' (Sparse.with_backend x o1)). split; [exact E2|].
      apply (cow_patch _ _ i e); cbn [base overlay]; [exact Hd|exact Hh| |exact Ht1|exact Hlt|exact Hne|exact Hlo|exact Hhi| |].
      * apply (evolves_trans _ o1); [done|by apply evolves_data].
      * intros a Ha' Hqa. rewrite Hx, (proj2 (Z.eqb_eq _ _) Hqa), <- Eabs by lia. apply splice_ext. symmetry. by rewrite Hcb.
      * intros a Ha' Hqa. rewrite Hx, (proj2 (Z.eqb_neq _ _) Hqa) by lia. apply Hb1; [lia|done].
  - erewrite st_bind_ok; [|apply zoom_eq; by apply (ensure_existing d.(overlay) i e0)]. cbv beta iota.
    replace (with_overlay d.(overlay) d) with d by (by destruct d).
    destruct (write_data d.(overlay) i e0 w src Hs He0 Hne0) as (x & E2 & Ho2 & Hb2); [lia..|done|].
    exists (mk d.(base) (Sparse.with_backend x d.(overlay))). split.
    { destruct ((w =? 0) && (Z.of_nat (length src) =? bs d)) eqn:Efull.
      - apply andb_true_iff in Efull as [Hw0%Z.eqb_eq _]. rewrite Hw0 in E2. unfold on_overlay. erewrite zoom_eq; [|exact E2]. done.
      - unfold on_overlay. erewrite zoom_eq; [|exact E2]. done. }
    apply (cow_patch _ _ i e0); cbn [base overlay]; [exact Hd|by apply same_refl|by apply evolves_data| |exact Hlt|exact Hne0|exact Hlo|exact Hhi| |].
    * by rewrite list_insert_id.
    * intros a Ha' Hqa. rewrite Hb2, <- Eabs by lia. apply splice_ext. rewrite Hcb by done.
      by rewrite (proj2 (Z.eqb_neq e0 0) Hne0).
    * intros a Ha' Hqa. rewrite Hb2, <- Eabs by lia. apply splice_other. by apply Hno.
Qed.

Lemma cow_write_ok d off src :
  cow_ok d -> Forall byte_ok src -> 0 <= off -> off + Z.of_nat (length src) <= cap d ->
  exists d', write_at off src d = (Ok tt, d') /\ cow_step d d' /\
    forall a, 0 <= a < cap d -> cow_byte d' a = splice (cow_byte d) off src a.
Proof.
  intros Hd Hs Ho Hn. pose proof Hd as (Hb & Hso & Hc). simpl in Hc. pose proof (so_layout _ Hso) as [].
  pose proof (bd_capacity _ Hb) as Hcap. unfold uint in Hcap.
  unfold write_at. change (Sparse.block_size d.(overlay)) with (bs d).
  erewrite st_bind_ok; [|unfold st_of_result; by rewrite checked_range_ok by lia].
  erewrite st_bind_ok; [|unfold st_of_result; by rewrite try_usize_ok by lia].
  pose proof (write_blocks_ok (bs d) ltac:(lia) (cow_step d) (fun _ => False) (fun a => 0 <= a < cap d) cow_byte write_block
    (length src) off src d) as Hwb.
  destruct (write_blocks (length src) (bs d) write_block off src d) as [r d'].
  destruct Hwb as [Hst (k & Hk & [[-> ->]|(e & _ & [])])]; [|done|done|by apply cow_step_refl|].
  2:{ exists d'. split; [done|]. split; [done|]. intros a Ha. rewrite Hk by done. by rewrite firstn_all. }
  intros d1 abs part Hst Hp Ha Hl Hp0 Hcm. destruct (cow_step_geometry d d1 Hst) as (Hb1 & Hz).
  destruct (cow_write_block_ok d1 abs part (proj1 Hst) Hp) as (d2 & -> & Hst2 & Hb2); [lia|done|lia|by rewrite Hb1|].
  split; [by apply (cow_step_trans d d1)|]. exists (length part). split; [|by left]. intros a Ha'. rewrite firstn_all. apply Hb2. lia.
Qed.

(** ** Discarding: a block in the range is that of the base again *)
Lemma cow_discard_ok d off len :
  cow_ok d -> 0 <= off -> 0 <= len -> off + len <= cap d ->
  exists d', discard_range off len d = (Ok tt, d') /\ cow_step d d' /\ d'.(base) = d.(base) /\
    forall a, 0 <= a < cap d -> cow_byte d' a = if covered d.(overlay) off len (a / bs d) then vd_byte d.(base) a else cow_byte d a.
Proof.
  intros Hd Ho Hl Hn. pose proof Hd as (Hb & Hs & Hc). simpl in Hc. pose proof (so_layout _ Hs) as [].
  pose proof (bd_capacity _ Hb) as Hcap. unfold uint in Hcap. unfold discard_range.
  erewrite st_bind_ok; [|unfold st_of_result; by rewrite checked_range_ok by lia].
  destruct (sparse_discard_ok d.(overlay) off len Hs Ho Hl ltac:(lia)) as (o1 & E1 & Hev & Ht & Hby).
  exists (with_overlay o1 d). split; [unfold on_overlay; erewrite zoom_eq; [|exact E1]; done|].
  split; [by apply cow_step_intro; [|apply same_refl|]|]. split; [done|]. intros a Ha.
  destruct (evolves_geometry _ _ Hev) as (Hbs & _ & Hen & _). destruct (sparse_block d.(overlay) a Hs ltac:(lia)) as [Hq _].
  destruct (allocated_entry d.(overlay) (a / bs d) Hs Hq) as (e1 & Ht1 & Hal1).
  destruct (allocated_entry o1 (a / bs d) (proj1 Hev) ltac:(lia)) as (e2 & Ht2 & Hal2).
  rewrite Ht, Ht1 in Ht2. cbn [fmap option_fmap option_map] in Ht2. rewrite Z2Nat.id in Ht2 by lia. injection Ht2 as <-.
  unfold cow_byte. cbn [overlay base with_overlay]. rewrite Hbs, Hal1, Hal2, Hby by lia.
  by destruct (covered d.(overlay) off len (a / bs d)).
Qed.

Lemma uncovered d off len a :
  sparse_ok d.(overlay) -> a < off \/ off + len <= a -> covered d.(overlay) off len (a / bs d) = false.
Proof.
  intros Hs Hout. pose proof (so_layout _ Hs) as [L1]. unfold covered.
  pose proof (Z.div_mod a (bs d) ltac:(lia)). pose proof (Z.mod_pos_bound a (bs d) ltac:(lia)).
  destruct (Z.leb_spec off (a / bs d * bs d)), (Z.leb_spec (a / bs d * bs d + bs d) (off + len)); try done. lia.
Qed.

(** ** Flushing *)
Lemma cow_flush_ok d :
  cow_ok d ->
  exists d', flush d = (Ok tt, d') /\ cow_step d d' /\ forall a, 0 <= a < cap d -> cow_byte d' a = cow_byte d a.
Proof.
  intros Hd. pose proof Hd as (Hb & Hs & Hc). destruct (bd_flush d.(base) Hb) as (b' & Hf & Hh). unfold flush, on_base, zoom, st_bind.
  rewrite Hf. cbn [overlay with_base].
  unfold on_overlay, zoom. simpl. unfold Sparse.on_backend, zoom. rewrite be_flush by apply (so_backend Hs).
  replace (Sparse.with_backend _ d.(overlay)) with d.(overlay) by (by destruct d as [? []]).
  eexists. split; [done|]. split; [apply cow_step_intro; [done|exact Hh|by apply evolves_refl]|].
  intros a Ha. destruct Hh as (_ & _ & By). unfold cow_byte. cbn [overlay base with_base with_overlay]. by rewrite By.
Qed.

(** ** The contract *)
#[global] Instance cow_view : DiskView (t Base B) := {|
  vd_ok := cow_ok;
  vd_byte := cow_byte;
  vd_fault _ := False;
|}.

#[global] Instance cow_reliable : ReliableDisk (t Base B).
Proof. split. by intros e []. Qed.

#[global] Instance cow_spec : DiskSpec (t Base B).
Proof.
  split; intros d.
  - intros (Hb & _). exact (bd_capacity d.(base) Hb).
  - intros a (Hb & Hs & _). simpl. unfold cow_byte. case_if; [by apply sparse_byte_ok|exact (bd_byte_ok d.(base) a Hb)].
  - intros off n Hd (Ho & _ & Hn). destruct (cow_read_ok d off n Hd Ho Hn) as (b' & E & Hh).
    change (Storage.read_at off n d) with (read_at off n d). rewrite E. split; [|by left].
    pose proof Hd as (Hb & Hs & Hc). pose proof Hh as (O & C & By). split; [split; [done|split; [done|]]|split; [exact C|]].
    + simpl in *. congruence.
    + intros a Ha. simpl. unfold cow_byte. cbn [overlay base with_base]. by rewrite By.
  - intros off n Hd Ho Hn. destruct (checked_range_out _ _ _ Hn) as [e He]. exists e.
    simpl in He |- *. unfold read_at, st_bind, st_of_result. by rewrite He.
  - intros off src Hd Hs (Ho & _ & Hn). destruct (cow_write_ok d off src Hd Hs Ho Hn) as (d' & E & Hst & By).
    change (Storage.write_at off src d) with (write_at off src d). rewrite E. exists (length src). split; [|by left].
    split; [apply Hst|]. destruct (cow_step_geometry d d' Hst) as [_ C]. split; [exact C|]. intros a Ha. rewrite firstn_all. by apply By.
  - intros off src Hd Ho Hn. destruct (checked_range_out _ _ _ Hn) as [e He]. exists e.
    simpl in He |- *. unfold write_at, st_bind, st_of_result. by rewrite He.
  - intros Hd. destruct (cow_flush_ok d Hd) as (d' & E & Hst & By). change (Storage.flush d) with (flush d). rewrite E.
    split; [|by left]. split; [apply Hst|]. destruct (cow_step_geometry d d' Hst) as [_ C]. by split.
  - intros off len Hd (Ho & Hl & Hn). destruct (cow_discard_ok d off len Hd Ho Hl Hn) as (d' & E & Hst & _ & By).
    change (Storage.discard_range off len d) with (discard_range off len d). rewrite E. left. split; [done|]. split; [apply Hst|].
    destruct (cow_step_geometry d d' Hst) as [_ C]. split; [exact C|]. intros a Ha Hout. simpl. rewrite By by done.
    by rewrite (uncovered d off len a) by (done || apply Hd).
  - intros off len (_ & Hs & Hc) Ho Hl Hn. simpl in *. unfold discard_range, st_bind, st_of_result.
    destruct (checked_range _ _ _) as [[]|e]; [|by exists e].
    rewrite <- Hc in Hn. destruct (check_discard_out _ _ _ Hl Hn) as [e He]. exists e.
    unfold on_overlay, zoom, Sparse.discard_range. rewrite He. by destruct d.
Qed.

(** ** The contract over a base that stays what it was

    The same contract with one more clause in the invariant: the base holds
    the bytes of [x]. *)
Section Over.
Variable x : Base.
Definition base_kept d : Prop := holds x d.(base) (vd_byte x).

Lemma step_base_kept d d' : cow_step d d' -> base_kept d -> base_kept d'.
Proof. intros (_ & Hh & _) Hk. by apply (same_trans x d.(base)). Qed.

Definition over_view : DiskView (t Base B) := {|
  vd_ok d := cow_ok d /\ base_kept d;
  vd_byte := cow_byte;
  vd_fault _ := False;
|}.

Lemma over_reliable : @ReliableDisk _ over_view.
Proof. split. by intros e []. Qed.

Lemma over_holds d d' f :
  base_kept d -> cow_step d d' -> (forall a, 0 <= a < cap d -> cow_byte d' a = f a) ->
  @holds _ _ over_view d d' f.
Proof.
  intros Hk Hst Hf. split; [split; [apply Hst|by apply (step_base_kept d)]|]. split; [|done].
  by destruct (cow_step_geometry d d' Hst).
Qed.

Lemma over_spec : @DiskSpec _ _ over_view.
Proof.
  split; intros d.
  - intros [(Hb & _) _]. exact (bd_capacity d.(base) Hb).
  - intros a [Hd _]. exact (vd_byte_ok (DiskSpec := cow_spec) d a Hd).
  - intros off n [Hd Hk] (Ho & _ & Hn). destruct (cow_read_ok d off n Hd Ho Hn) as (b' & E & Hh).
    change (Storage.read_at off n d) with (read_at off n d). rewrite E. split; [|by left]. apply over_holds; [done|..].
    + apply cow_step_intro; [done|done|]. apply evolves_refl, Hd.
    + intros a Ha. destruct Hh as (_ & _ & Hby). unfold cow_byte. cbn [overlay base with_base]. by rewrite Hby.
  - intros off n [Hd _]. exact (vd_read_out (DiskSpec := cow_spec) d off n Hd).
  - intros off src [Hd Hk] Hs (Ho & _ & Hn). destruct (cow_write_ok d off src Hd Hs Ho Hn) as (d' & E & Hst & By).
    change (Storage.write_at off src d) with (write_at off src d). rewrite E. exists (length src). split; [|by left].
    apply over_holds; [done|done|]. intros a Ha. rewrite firstn_all. by apply By.
  - intros off src [Hd _]. exact (vd_write_out (DiskSpec := cow_spec) d off src Hd).
  - intros [Hd Hk]. destruct (cow_flush_ok d Hd) as (d' & E & Hst & By). change (Storage.flush d) with (flush d). rewrite E.
    split; [|by left]. by apply over_holds.
  - intros off len [Hd Hk] (Ho & Hl & Hn). destruct (cow_discard_ok d off len Hd Ho Hl Hn) as (d' & E & Hst & _ & By).
    change (Storage.discard_range off len d) with (discard_range off len d). rewrite E. left. split; [done|].
    split; [split; [apply Hst|by apply (step_base_kept d)]|]. split; [by destruct (cow_step_geometry d d' Hst)|].
    intros a Ha Hout. etrans; [exact (By a Ha)|]. by rewrite (uncovered d off len a) by (done || apply Hd).
  - intros off len [Hd _]. exact (vd_discard_out (DiskSpec := cow_spec) d off len Hd).
Qed.
End Over.
End Cow.
