(* ===== verification/StorageArray.v ===== *)
(** * The disk stack as an array

    The interface a guest device sees: sequences of reads, writes, flushes and
    discards on a disk, against an array of bytes.  Every disk that keeps the
    contract implements the array; the constructors of the stack start from
    the array of the base disk.  Also a recency list that keeps the contract
    of the cache's LRU map. *)

From S2P Require Import Prelude Bytes GuestMem Storage StorageFacts BlockCache CacheFacts.
From S2P Require Import SparseDisk SparseFacts SparseInv SparseAlloc SparseContract SparseOpen CowDisk CowFacts.

(** ** Sequences of operations *)
Inductive disk_op :=
| Read (off : Z) (n : nat)
| Write (off : Z) (src : list Z)
| Flush
| Discard (off len : Z).

Definition op_ok (o : disk_op) : Prop :=
  match o with
  | Read off _ => 0 <= off
  | Write off src => 0 <= off /\ Forall byte_ok src
  | Flush => True
  | Discard off len => 0 <= off /\ 0 <= len
  end.

(** The operation reaches past the end of the disk. *)
Definition past_end (cap : Z) (o : disk_op) : Prop :=
  match o with
  | Read off n => cap < off + Z.of_nat n
  | Write off src => cap < off + Z.of_nat (length src)
  | Flush => False
  | Discard off len => cap < off + len
  end.

Section Run.
Context `{VirtualDisk D}.

Definition run_op (o : disk_op) (d : D) : result (list Z) DiskError * D :=
  match o with
  | Read off n => read_at off n d
  | Write off src => let '(r, d) := write_at off src d in (result_map (fun _ => []) r, d)
  | Flush => let '(r, d) := flush d in (result_map (fun _ => []) r, d)
  | Discard off len => let '(r, d) := discard_range off len d in (result_map (fun _ => []) r, d)
  end.

Fixpoint run_ops (ops : list disk_op) (d : D) : list (result (list Z) DiskError) * D :=
  match ops with
  | [] => ([], d)
  | o :: ops =>
      let '(r, d) := run_op o d in
      let '(rs, d) := run_ops ops d in
      (r :: rs, d)
  end.
End Run.

(** ** The array *)
Definition agree (cap : Z) (f g : Z -> Z) : Prop := forall a, 0 <= a < cap -> f a = g a.

(** What a discard leaves in its range is not specified. *)
Inductive array_step (cap : Z) (f : Z -> Z) : disk_op -> result (list Z) DiskError -> (Z -> Z) -> Prop :=
| array_read off n f' :
    off + Z.of_nat n <= cap -> agree cap f' f -> array_step cap f (Read off n) (Ok (span f off n)) f'
| array_write off src f' :
    off + Z.of_nat (length src) <= cap -> agree cap f' (splice f off src) -> array_step cap f (Write off src) (Ok []) f'
| array_flush f' : agree cap f' f -> array_step cap f Flush (Ok []) f'
| array_discard off len f' :
    off + len <= cap -> (forall a, 0 <= a < cap -> a < off \/ off + len <= a -> f' a = f a) ->
    array_step cap f (Discard off len) (Ok []) f'
| array_refused o e f' : past_end cap o -> agree cap f' f -> array_step cap f o (Err e) f'.

Inductive array_run (cap : Z) : (Z -> Z) -> list disk_op -> list (result (list Z) DiskError) -> (Z -> Z) -> Prop :=
| array_done f : array_run cap f [] [] f
| array_next f o r f1 ops rs f2 :
    array_step cap f o r f1 -> array_run cap f1 ops rs f2 -> array_run cap f (o :: ops) (r :: rs) f2.

Section Refine.
Context `{DiskSpec D} `{!ReliableDisk D}.
Implicit Types d : D.

Lemma reliable {A} (r : result A DiskError) : ~ faulty (D := D) r.
Proof. destruct r as [|e]; [by intros []|]. apply vd_reliable. Qed.

Lemma run_op_ok o d :
  vd_ok d -> op_ok o ->
  let '(r, d') := run_op o d in
  vd_ok d' /\ capacity_bytes d' = capacity_bytes d /\ array_step (capacity_bytes d) (vd_byte d) o r (vd_byte d').
Proof.
  intros Hd Ho. destruct o as [off n|off src| |off len]; simpl in Ho |- *.
  - destruct (Z.le_gt_cases (off + Z.of_nat n) (capacity_bytes d)) as [Hin|Hout].
    + pose proof (vd_read d off n Hd) as Hr. destruct (read_at off n d) as [r d'].
      destruct Hr as [(J1 & J2 & J3) [->|[]%reliable]]; [split; lia|]. split; [done|]. split; [done|]. by apply array_read.
    + destruct (vd_read_out d off n Hd Ho Hout) as [e ->]. split; [done|]. split; [done|]. by apply array_refused.
  - destruct Ho as [Ho Hs]. destruct (Z.le_gt_cases (off + Z.of_nat (length src)) (capacity_bytes d)) as [Hin|Hout].
    + pose proof (vd_write d off src Hd Hs) as Hr. destruct (write_at off src d) as [r d'].
      destruct Hr as (k & (J1 & J2 & J3) & [[-> ->]|[]%reliable]); [split; lia|]. rewrite firstn_all in J3.
      split; [done|]. split; [done|]. by apply array_write.
    + destruct (vd_write_out d off src Hd Ho Hout) as [e ->]. split; [done|]. split; [done|]. by apply array_refused.
  - pose proof (vd_flush d Hd) as Hr. destruct (flush d) as [r d']. destruct Hr as [(J1 & J2 & J3) [->|[]%reliable]].
    split; [done|]. split; [done|]. by apply array_flush.
  - destruct Ho as [Ho Hl]. destruct (Z.le_gt_cases (off + len) (capacity_bytes d)) as [Hin|Hout].
    + pose proof (vd_discard d off len Hd) as Hr. destruct (discard_range off len d) as [r d'].
      destruct Hr as [(-> & J1 & J2 & J3)|[[]%reliable _]]; [split; lia|]. split; [done|]. split; [done|]. by apply array_discard.
    + destruct (vd_discard_out d off len Hd Ho Hl Hout) as [e ->]. split; [done|]. split; [done|]. by apply array_refused.
Qed.

(** A disk that keeps the contract and does not fail is an array. *)
Lemma run_ops_ok ops d :
  vd_ok d -> Forall op_ok ops ->
  let '(rs, d') := run_ops ops d in
  vd_ok d' /\ capacity_bytes d' = capacity_bytes d /\ array_run (capacity_bytes d) (vd_byte d) ops rs (vd_byte d').
Proof.
  intros Hd Hops. revert d Hd. induction Hops as [|o ops Ho Hops IH]; intros d Hd; simpl.
  { split; [done|]. split; [done|]. constructor. }
  pose proof (run_op_ok o d Hd Ho) as H1'. destruct (run_op o d) as [r d1]. destruct H1' as (O1 & C1 & S1).
  specialize (IH d1 O1). destruct (run_ops ops d1) as [rs d2]. destruct IH as (O2 & C2 & S2). rewrite C1 in *.
  split; [done|]. split; [done|]. by eapply array_next.
Qed.
End Refine.

Section Agree.
Context (cap : Z).

Lemma agree_trans f g k : agree cap f g -> agree cap g k -> agree cap f k.
Proof. intros E1 E2 a Ha. rewrite E1 by done. by apply E2. Qed.

Lemma agree_sym f g : agree cap f g -> agree cap g f.
Proof. intros E1 a Ha. symmetry. by apply E1. Qed.

(** The array only matters up to the capacity. *)
Lemma array_step_agree f g o r f' :
  op_ok o -> agree cap f g -> array_step cap f o r f' -> array_step cap g o r f'.
Proof.
  intros Ho Hfg Hs. inversion Hs; subst; simpl in Ho.
  - rewrite (span_ext f g) by (intros; apply Hfg; lia). apply array_read; [done|]. by eapply agree_trans.
  - apply array_write; [done|]. eapply agree_trans; [done|]. intros a Ha. apply splice_ext. by apply Hfg.
  - apply array_flush. by eapply agree_trans.
  - apply array_discard; [done|]. intros a Ha Hout. rewrite <- Hfg by done. auto.
  - apply array_refused; [done|]. by eapply agree_trans.
Qed.

Lemma array_run_agree f g ops rs f' :
  Forall op_ok ops -> agree cap f g -> array_run cap f ops rs f' ->
  exists g', agree cap f' g' /\ array_run cap g ops rs g'.
Proof.
  intros Hops Hfg Hr. destruct Hr as [f|f o r f1 ops rs f2 Hs Hr].
  - exists g. split; [done|]. constructor.
  - exists f2. split; [done|]. apply Forall_cons in Hops as [Ho _]. econstructor; [|done]. by eapply array_step_agree.
Qed.
End Agree.

(** ** Building the stack *)
Section Build.
Context `{Target} `{BaseSpec Base} `{BackendSpec B}.

(** A new overlay: every byte is that of the base. *)
Lemma cow_create_ok (x : Base) (b : B) blk d :
  vd_ok x -> be_ok b -> uint 32 blk -> AeroCowDisk.create x b blk = Ok d ->
  doff d.(AeroCowDisk.overlay) + entries d.(AeroCowDisk.overlay) * bsz d.(AeroCowDisk.overlay) <= be_limit ->
  (forall a, 64 <= a < doff d.(AeroCowDisk.overlay) -> be_byte b a = 0) ->
  vd_ok d /\ d.(AeroCowDisk.base) = x /\ agree (capacity_bytes x) (vd_byte d) (vd_byte x).
Proof.
  intros Hx Hb Hblk Hcr Hroom Hz. unfold AeroCowDisk.create in Hcr. inv_bind Hcr o Eo. injection Hcr as <-.
  destruct (create_ok b (AeroSparseConfig.mk (capacity_bytes x) blk) o Hb Hblk (bd_capacity x Hx) Eo Hroom Hz) as (Ho & Hc & Hby).
  assert (cow_ok (AeroCowDisk.mk x o)) as Hok by (split; [done|]; split; done).
  split; [done|]. split; [done|]. intros a Ha. simpl. unfold cow_byte. cbn [AeroCowDisk.overlay AeroCowDisk.base].
  pose proof (create_empty b _ o Eo) as Ht.
  unfold AeroSparseDisk.is_block_allocated. destruct (try_usize _) as [k|]; [|done].
  destruct (_ !! k) as [e|] eqn:E; [|done]. apply (Ht k) in E as ->. done.
Qed.

(** An overlay opened again. *)
Lemma cow_reopen (d : AeroCowDisk.t Base B) :
  vd_ok d -> AeroCowDisk.open d.(AeroCowDisk.base) d.(AeroCowDisk.overlay).(AeroSparseDisk.backend) = Ok d.
Proof.
  intros (Hx & Ho & Hc). unfold AeroCowDisk.open.
  rewrite (proj2 (open_iff _ d.(AeroCowDisk.overlay) (so_backend Ho) (so_room Ho)) (conj eq_refl Ho)).
  cbn [result_bind]. rewrite Hc, Z.eqb_refl. cbn [ensure result_bind]. by destruct d.
Qed.
End Build.

Section BuildCache.
Context `{Target} `{DiskSpec D} `{LruSpec CacheEntry.t C}.

Lemma cache_new_ok (x : D) bs n d :
  vd_ok x -> BlockCachedDisk.new (C := C) x bs n = Ok d ->
  vd_ok d /\ d.(BlockCachedDisk.inner) = x /\ forall a, vd_byte d a = vd_byte x a.
Proof.
  intros Hx Hn. unfold BlockCachedDisk.new in Hn. inv_bind Hn u1 E1. inv_bind Hn u2 E2. injection Hn as <-.
  apply ensure_ok in E1, E2. apply negb_true_iff, Nat.eqb_neq in E1, E2.
  destruct (lru_new_ok (C := C) n ltac:(lia)) as (J1 & J2 & J3). split; [|split; [done|]].
  - split; cbn; [lia..|done|done|rewrite J3, map_size_empty; lia|]. rewrite J3. split; [done|]. intros k e He. by rewrite lookup_empty in He.
  - intros a. simpl. unfold content. by rewrite J3, lookup_empty.
Qed.
End BuildCache.

(** ** A recency list *)
Module RecencyList.
Section List.
Context {V : Type}.
Record t := mk { cap : nat; items : list (Z * V) }.

Definition find (k : Z) (l : list (Z * V)) : option V := list_to_map (M := gmap Z V) l !! k.
Definition remove (k : Z) (l : list (Z * V)) : list (Z * V) := List.filter (fun p => negb (p.1 =? k)) l.

#[global] Instance lru : LruCache V t := {|
  lru_new n := mk n [];
  lru_len c := length c.(items);
  lru_get_mut k f c :=
    match find k c.(items) with
    | Some v => (Some v, mk c.(cap) ((k, f v) :: remove k c.(items)))
    | None => (None, c)
    end;
  lru_put k v c := mk c.(cap) (take c.(cap) ((k, v) :: remove k c.(items)));
  lru_pop_lru c :=
    match last c.(items) with
    | Some p => (Some p, mk c.(cap) (take (length c.(items) - 1) c.(items)))
    | None => (None, c)
    end;
  lru_pop k c := mk c.(cap) (remove k c.(items));
  lru_keys c := c.(items).*1;
|}.

#[global] Instance lru_view : LruView V t := {|
  lru_ok c := NoDup c.(items).*1;
  lru_cap := cap;
  lru_map c := list_to_map c.(items);
|}.

Lemma remove_elem k (l : list (Z * V)) p : p ∈ remove k l <-> p ∈ l /\ p.1 <> k.
Proof.
  unfold remove. rewrite list_elem_of_In, filter_In, <- list_elem_of_In, negb_true_iff, Z.eqb_neq. done.
Qed.

Lemma remove_NoDup k (l : list (Z * V)) : NoDup l.*1 -> NoDup (remove k l).*1.
Proof.
  induction l as [|[x v] l IH]; [done|]. cbn [fmap list_fmap fst]. intros [Hn Hl]%NoDup_cons. simpl.
  destruct (negb (x =? k)); [|by apply IH]. cbn [fmap list_fmap fst]. apply NoDup_cons. split; [|by apply IH].
  intros (p & Hp & Hin)%list_elem_of_fmap. apply Hn. apply list_elem_of_fmap. exists p. split; [done|]. by apply remove_elem in Hin as [? _].
Qed.

Lemma remove_map k (l : list (Z * V)) : list_to_map (M := gmap Z V) (remove k l) = delete k (list_to_map l).
Proof.
  induction l as [|[x v] l IH]; [simpl; symmetry; apply delete_empty|]. simpl. destruct (Z.eqb_spec x k) as [->|Hne]; simpl.
  - by rewrite IH, delete_insert_eq.
  - by rewrite IH, delete_insert_ne.
Qed.

Lemma remove_fresh k (l : list (Z * V)) : k ∉ (remove k l).*1.
Proof. intros (p & Hp & Hin)%list_elem_of_fmap. apply remove_elem in Hin as [_ ?]. congruence. Qed.

Lemma length_items (l : list (Z * V)) : NoDup l.*1 -> base.size (list_to_map (M := gmap Z V) l) = length l.
Proof.
  induction l as [|[x v] l IH]; [done|]. cbn [fmap list_fmap fst]. intros [Hn Hl]%NoDup_cons. simpl.
  rewrite map_size_insert_None; [by rewrite IH|]. by apply not_elem_of_list_to_map_1.
Qed.

Lemma remove_length k (l : list (Z * V)) : (length (remove k l) <= length l)%nat.
Proof. apply List.filter_length_le. Qed.

#[global] Instance lru_spec : LruSpec V t.
Proof.
  split; simpl.
  - intros n _. split; [constructor|done].
  - intros c Hc. symmetry. by apply length_items.
  - intros c k f Hc. unfold find. destruct (list_to_map c.(items) !! k) as [v|] eqn:E; simpl.
    + split; [done|]. split; [|split; [done|]].
      * apply NoDup_cons. split; [apply remove_fresh|by apply remove_NoDup].
      * rewrite remove_map, insert_delete_eq. apply map_eq. intros j. destruct (decide (j = k)) as [->|Hne].
        -- by rewrite lookup_insert_eq, lookup_alter_eq, E.
        -- by rewrite lookup_insert_ne, lookup_alter_ne.
    + split; [done|]. split; [done|]. split; [done|]. apply map_eq. intros j. destruct (decide (j = k)) as [->|Hne].
      * by rewrite lookup_alter_eq, E.
      * by rewrite lookup_alter_ne.
  - intros c k v Hc Hlt. rewrite length_items in Hlt by done. pose proof (remove_length k c.(items)).
    rewrite take_ge by (simpl; lia). split; [|split; [done|]].
    + apply NoDup_cons. split; [apply remove_fresh|by apply remove_NoDup].
    + simpl. rewrite remove_map. apply insert_delete_eq.
  - intros c Hc. destruct (last c.(items)) as [[k v]|] eqn:E; simpl.
    + apply last_Some in E as [l El]. rewrite El in *. rewrite length_app. cbn [length].
      replace (length l + 1 - 1)%nat with (length l) by lia. rewrite take_app_length. rewrite fmap_app in Hc.
      apply NoDup_app in Hc as (Hl & Hd & _). assert (k ∉ l.*1) as Hk by (intros Hin; by apply (Hd k Hin), list_elem_of_singleton).
      split; [done|]. split; [done|]. rewrite list_to_map_app. simpl.
      assert (list_to_map (M := gmap Z V) l !! k = None) as HN by (by apply not_elem_of_list_to_map_1).
      split; [by rewrite lookup_union_r, lookup_insert_eq|]. apply map_eq. intros j. destruct (decide (j = k)) as [->|Hne].
      * by rewrite lookup_delete_eq.
      * rewrite lookup_delete_ne, lookup_union_l by (done || by rewrite lookup_insert_ne). done.
    + apply last_None in E. split; [exact Hc|]. split; [done|]. by rewrite E.
  - intros c k Hc. split; [by apply remove_NoDup|]. split; [done|apply remove_map].
  - intros c k Hc. rewrite list_elem_of_fmap. split.
    + intros ([x v] & -> & Hin). exists v. by apply elem_of_list_to_map_1.
    + intros [v Hv]. exists (k, v). split; [done|]. by apply elem_of_list_to_map_2.
Qed.
End List.
Arguments t : clear implicits.
End RecencyList.

(** ** A disk that fails on demand *)
(** Each request within the disk fails, without effect, if the script says so. *)
Module FlakyDisk.
Record t (D : Type) := mk { inner : D; script : list bool }.
Arguments mk {D} _ _.
Arguments inner {D} _.
Arguments script {D} _.
Abbreviation fault := (Io "device error") (only parsing).

Section Ops.
Context `{VirtualDisk D}.
Definition with_inner (x : D) (d : t D) : t D := mk x d.(script).

Definition attempt {A} (len : Z) (m : st D DiskError A) : st (t D) DiskError A := fun d =>
  if capacity_bytes d.(inner) <? len then zoom inner with_inner m d
  else match d.(script) with
       | true :: s => (Err fault, mk d.(inner) s)
       | _ :: s => zoom inner with_inner m (mk d.(inner) s)
       | [] => zoom inner with_inner m d
       end.

#[global] Instance disk : VirtualDisk (t D) := {|
  capacity_bytes d := capacity_bytes d.(inner);
  read_at off n := attempt (off + Z.of_nat n) (read_at off n);
  write_at off src := attempt (off + Z.of_nat (length src)) (write_at off src);
  flush := attempt 0 flush;
  discard_range off len := attempt (off + len) (discard_range off len);
|}.
End Ops.

Section Facts.
Context `{DiskSpec D}.

#[global] Instance flaky_view : DiskView (t D) := {|
  vd_ok d := vd_ok d.(inner);
  vd_byte d := vd_byte d.(inner);
  vd_fault e := e = fault \/ vd_fault (D := D) e;
|}.

(** A request that fits fails or is passed on. *)
Lemma attempt_in {A} len (m : st D DiskError A) d :
  len <= capacity_bytes d.(inner) ->
  (exists s, attempt len m d = (Err fault, mk d.(inner) s)) \/
  (exists s, attempt len m d = let '(r, x) := m d.(inner) in (r, mk x s)).
Proof.
  intros Hl. unfold attempt. rewrite (proj2 (Z.ltb_ge _ _) Hl). unfold zoom, with_inner.
  destruct d.(script) as [|[] s]; [right|left|right]; simpl; eexists; by destruct (m d.(inner)).
Qed.

Lemma attempt_out {A} len (m : st D DiskError A) d e :
  capacity_bytes d.(inner) < len -> m d.(inner) = (Err e, d.(inner)) -> attempt len m d = (Err e, d).
Proof.
  intros Hl Hm. unfold attempt. rewrite (proj2 (Z.ltb_lt _ _) Hl). erewrite zoom_eq; [|exact Hm]. by destruct d.
Qed.

Lemma faulty_inner {A} (r : result A DiskError) : faulty (D := D) r -> faulty (D := t D) r.
Proof. destruct r; [done|]. simpl. by right. Qed.

#[global] Instance flaky_spec : DiskSpec (t D).
Proof.
  split; intros d; simpl.
  - apply vd_capacity.
  - intros a. apply vd_byte_ok.
  - intros off n Hd (Ho & Hz & Hn). destruct (attempt_in (off + Z.of_nat n) (read_at off n) d Hn) as [[s ->]|[s ->]].
    { split; [done|right; by left]. }
    pose proof (vd_read d.(inner) off n Hd (conj Ho (conj Hz Hn))) as Hr. destruct (read_at off n d.(inner)) as [r x].
    destruct Hr as [Hh [->|Hf]]; (split; [done|]); [by left|right; by apply faulty_inner].
  - intros off n Hd Ho Hn. destruct (vd_read_out d.(inner) off n Hd Ho Hn) as [e He]. exists e. by apply attempt_out.
  - intros off src Hd Hs (Ho & Hz & Hn). destruct (attempt_in (off + Z.of_nat (length src)) (write_at off src) d Hn) as [[s ->]|[s ->]].
    { exists 0%nat. split; [|right; by left]. split; [done|]. split; [done|]. intros a Ha. by rewrite splice_nil. }
    pose proof (vd_write d.(inner) off src Hd Hs (conj Ho (conj Hz Hn))) as Hr. destruct (write_at off src d.(inner)) as [r x].
    destruct Hr as (k & Hh & [[-> ->]|Hf]); [exists (length src)|exists k]; (split; [done|]); [by left|right; by apply faulty_inner].
  - intros off src Hd Ho Hn. destruct (vd_write_out d.(inner) off src Hd Ho Hn) as [e He]. exists e. by apply attempt_out.
  - intros Hd. pose proof (vd_capacity _ Hd) as Hc. unfold uint in Hc.
    destruct (attempt_in 0 flush d ltac:(lia)) as [[s ->]|[s ->]].
    { split; [done|right; by left]. }
    pose proof (vd_flush d.(inner) Hd) as Hr. destruct (flush d.(inner)) as [r x].
    destruct Hr as [Hh [->|Hf]]; (split; [done|]); [by left|right; by apply faulty_inner].
  - intros off len Hd (Ho & Hz & Hn). destruct (attempt_in (off + len) (discard_range off len) d Hn) as [[s ->]|[s ->]].
    { right. split; [by left|done]. }
    pose proof (vd_discard d.(inner) off len Hd (conj Ho (conj Hz Hn))) as Hr. destruct (discard_range off len d.(inner)) as [r x].
    destruct Hr as [Hr|[Hf Hh]]; [by left|right; split; [by apply faulty_inner|done]].
  - intros off len Hd Ho Hl Hn. destruct (vd_discard_out d.(inner) off len Hd Ho Hl Hn) as [e He]. exists e. by apply attempt_out.
Qed.
End Facts.
End FlakyDisk.
