(* ===== verification/StorageProps.v ===== *)
(** * Properties of the disk stack *)

From S2P Require Import Prelude Bytes GuestMem Storage StorageFacts BlockCache CacheFacts.
From S2P Require Import SparseDisk SparseFacts SparseInv SparseAlloc SparseContract SparseOpen CowDisk CowFacts StorageArray.

(** ** The stack: a cache over an overlay over a base *)
Section Stack.
Context `{Target} `{BaseSpec Base} `{BackendSpec B} `{LruSpec CacheEntry.t C}.
Abbreviation cow_disk := (AeroCowDisk.t Base B).
Abbreviation stack := (BlockCachedDisk.t cow_disk C).

(** The cache over an overlay whose base stays [x]. *)
Section Over.
Variable x : Base.
#[local] Existing Instance over_view.
#[local] Existing Instance over_spec.
#[local] Existing Instance over_reliable.

Lemma stack_run (cow : cow_disk) bs n (d : stack) ops :
  cow_ok cow -> base_kept x cow -> BlockCachedDisk.new cow bs n = Ok d -> Forall op_ok ops ->
  let '(rs, d1) := run_ops ops d in
  let '(r, d2) := BlockCachedDisk.flush d1 in
  exists f, array_run (capacity_bytes cow) (cow_byte cow) ops rs f /\ r = Ok tt /\
    cow_ok d2.(BlockCachedDisk.inner) /\ base_kept x d2.(BlockCachedDisk.inner) /\
    agree (capacity_bytes cow) (cow_byte d2.(BlockCachedDisk.inner)) f.
Proof.
  intros Hc Hk Hn Hops.
  destruct (cache_new_ok (H1 := over_view x) cow bs n d (conj Hc Hk) Hn) as (Hd & Hi & Hby).
  pose proof (run_ops_ok ops d Hd Hops) as Hr. destruct (run_ops ops d) as [rs d1]. destruct Hr as (Hd1 & Hc1 & Hr).
  pose proof (cached_flush_ok d1 Hd1) as Hf. destruct (BlockCachedDisk.flush d1) as [r d2].
  destruct Hf as [Hst Hf]. pose proof (sp_capacity _ _ Hst) as Hc2. pose proof (co_disk _ _ _ (ca_core _ (sp_ok _ _ Hst))) as [Hcow Hkept].
  assert (capacity_bytes d = capacity_bytes cow) as Hcap by (simpl; by rewrite Hi).
  destruct Hf as [[-> Hall]|[]%reliable]. rewrite Hcap in *.
  destruct (array_run_agree _ _ (cow_byte cow) _ _ _ Hops (fun a _ => Hby a) Hr) as (f & Hag & Hrun).
  exists f. split; [done|]. split; [done|]. split; [done|]. split; [done|].
  intros a Ha. rewrite <- (Hag a Ha). apply Hall. by rewrite <- Hc1 in Ha.
Qed.
End Over.

(** C9: A disk of the machine, a write-back cache over a copy-on-write overlay
    over a base image, behaves as an array of bytes that starts as the base:
    every sequence of reads, writes, flushes and discards is answered as the
    array answers it, requests past the end are refused without effect, the
    base image keeps its bytes, and after a flush the overlay opened again
    over the base holds the bytes of the array. *)
Theorem disk_stack_array (x : Base) (b : B) blk (cow : cow_disk) bs n (d : stack) ops :
  vd_ok x -> be_ok b -> uint 32 blk ->
  AeroCowDisk.create x b blk = Ok cow -> BlockCachedDisk.new cow bs n = Ok d ->
  doff cow.(AeroCowDisk.overlay) + entries cow.(AeroCowDisk.overlay) * bsz cow.(AeroCowDisk.overlay) <= be_limit ->
  (forall a, 64 <= a < doff cow.(AeroCowDisk.overlay) -> be_byte b a = 0) -> Forall op_ok ops ->
  let '(rs, d1) := run_ops ops d in
  let '(r, d2) := BlockCachedDisk.flush d1 in
  let base := d2.(BlockCachedDisk.inner).(AeroCowDisk.base) in
  exists f cow', array_run (capacity_bytes x) (vd_byte x) ops rs f /\ r = Ok tt /\
    holds x base (vd_byte x) /\
    AeroCowDisk.open base d2.(BlockCachedDisk.inner).(AeroCowDisk.overlay).(AeroSparseDisk.backend) = Ok cow' /\
    agree (capacity_bytes x) (cow_byte cow') f.
Proof.
  intros Hx Hb Hblk Hcr Hn Hroom Hz Hops.
  destruct (cow_create_ok x b blk cow Hx Hb Hblk Hcr Hroom Hz) as (Hc & Hbase & Hag).
  assert (base_kept x cow) as Hk by (unfold base_kept; rewrite Hbase; done).
  pose proof (stack_run x cow bs n d ops Hc Hk Hn Hops) as Hrun.
  destruct (run_ops ops d) as [rs d1]. destruct (BlockCachedDisk.flush d1) as [r d2].
  destruct Hrun as (f & Hrun & -> & Hc2 & Hk2 & Hag2).
  assert (capacity_bytes cow = capacity_bytes x) as Hcap by (simpl; by rewrite Hbase). rewrite Hcap in *.
  destruct (array_run_agree _ _ (vd_byte x) _ _ _ Hops Hag Hrun) as (f' & Hag' & Hrun').
  exists f', d2.(BlockCachedDisk.inner). split; [done|]. split; [done|]. split; [done|]. split; [by apply cow_reopen|].
  by eapply agree_trans.
Qed.
End Stack.

(** ** The cache over a disk that may fail *)
Section Cache.
Context `{Target} `{DiskSpec D} `{LruSpec CacheEntry.t C}.

(** C16: Over a disk that may fail at any request the cache loses nothing: a
    read returns the bytes or the disk's error and changes none, a write that
    fails has written a prefix, a flush that fails leaves every byte readable,
    and after a flush that succeeds the disk below holds every byte. *)
Theorem cache_tolerates_faults (d : BlockCachedDisk.t D C) :
  vd_ok d ->
  (forall off n, in_disk d off (Z.of_nat n) ->
     let '(r, d') := BlockCachedDisk.read_at off n d in
     holds d d' (vd_byte d) /\ (r = Ok (span (vd_byte d) off n) \/ faulty (D := D) r)) /\
  (forall off src, Forall byte_ok src -> in_disk d off (Z.of_nat (length src)) ->
     let '(r, d') := BlockCachedDisk.write_at off src d in
     exists k, holds d d' (splice (vd_byte d) off (take k src)) /\ (r = Ok tt /\ k = length src \/ faulty (D := D) r)) /\
  let '(r, d') := BlockCachedDisk.flush d in
  holds d d' (vd_byte d) /\
  (r = Ok tt /\ agree (capacity_bytes d) (vd_byte d'.(BlockCachedDisk.inner)) (vd_byte d) \/ faulty (D := D) r).
Proof.
  intros Hd. split; [|split].
  - intros off n Hin. exact (vd_read d off n Hd Hin).
  - intros off src Hs Hin. exact (vd_write d off src Hd Hs Hin).
  - pose proof (cached_flush_ok d Hd) as Hf. destruct (BlockCachedDisk.flush d) as [r d']. destruct Hf as [[J1 J2 J3 J4] Hf].
    by split; [split; [|split]|].
Qed.
End Cache.

(** ** Sparse images *)
Section Sparse.
Context `{Target} `{BackendSpec B}.
Import AeroSparseDisk.

(** C15: [open] returns a disk exactly when the image is well formed: valid
    header, every entry of the table 0 or a data block of its own within the
    file.  The disk is then the one that was written: same header, table, set
    of used slots and counter. *)
Theorem sparse_open_exact (b : B) (d : t B) :
  be_ok b -> doff d + entries d * bsz d <= be_limit ->
  open b = Ok d <-> d.(backend) = b /\ sparse_ok d.
Proof. apply open_iff. Qed.

(** C14: A sparse disk behaves as an array under every sequence of requests,
    and its image can be opened again at any point, without a flush, giving
    the very same disk. *)
Theorem sparse_reopen (d : t B) ops :
  sparse_ok d -> Forall op_ok ops ->
  let '(rs, d') := run_ops ops d in
  array_run (capacity_bytes d) (sparse_byte d) ops rs (sparse_byte d') /\ open d'.(backend) = Ok d'.
Proof.
  intros Hd Hops. pose proof (run_ops_ok ops d Hd Hops) as Hr. destruct (run_ops ops d) as [rs d'].
  destruct Hr as (Hd' & _ & Hr). split; [done|]. apply open_iff; [apply (so_backend Hd')|apply (so_room Hd')|done].
Qed.

(** [create] succeeds exactly on block sizes that are powers of two from
    512 to 64 MiB and disk sizes that are positive multiples of 512 with at
    most 2^24 blocks; on a backend whose table area is zero the result is a
    well-formed disk of that size that reads as zeros. *)
Theorem sparse_create (b : B) (cfg : AeroSparseConfig.t) :
  let bs := cfg.(AeroSparseConfig.block_size_bytes) in
  let blocks := (cfg.(AeroSparseConfig.disk_size_bytes) + bs - 1) / bs in
  be_ok b -> uint 32 bs -> uint 64 cfg.(AeroSparseConfig.disk_size_bytes) ->
  64 + 8 * blocks + bs + blocks * bs <= be_limit ->
  match create b cfg with
  | Ok d =>
      valid_config cfg = true /\
      ((forall a, 64 <= a < doff d -> be_byte b a = 0) ->
       sparse_ok d /\ capacity_bytes d = cfg.(AeroSparseConfig.disk_size_bytes) /\ forall a, sparse_byte d a = 0)
  | Err _ => valid_config cfg = false
  end.
Proof.
  intros bs blocks Hb Hbs Hds Hroom. destruct (create b cfg) as [d|e] eqn:E.
  - pose proof (create_valid b cfg d Hbs Hds E) as Hv. split; [done|]. intros Hz.
    destruct (create_returns b cfg Hb Hbs Hds Hroom Hv) as (d' & E' & Hd'). assert (d' = d) as -> by congruence.
    by apply (create_ok b cfg d).
  - destruct (valid_config cfg) eqn:Hv; [|done]. destruct (create_returns b cfg Hb Hbs Hds Hroom Hv) as (d' & E' & _). congruence.
Qed.
End Sparse.

(** ** Copy-on-write *)
Section Cow.
Context `{Target} `{BaseSpec Base} `{BackendSpec B}.

(** After any sequence of requests, discarding a range gives every block
    that lies in it the bytes the base had at the start, and changes no byte
    of the other blocks. *)
Theorem cow_discard_reverts (d : AeroCowDisk.t Base B) ops off len :
  cow_ok d -> Forall op_ok ops -> 0 <= off -> 0 <= len -> off + len <= capacity_bytes d ->
  let '(rs, d1) := run_ops ops d in
  let '(r, d2) := AeroCowDisk.discard_range off len d1 in
  r = Ok tt /\ cow_ok d2 /\
  forall a, 0 <= a < capacity_bytes d ->
    cow_byte d2 a = if covered d1.(AeroCowDisk.overlay) off len (a / bsz d1.(AeroCowDisk.overlay))
                    then vd_byte d.(AeroCowDisk.base) a else cow_byte d1 a.
Proof.
  intros Hd Hops Ho Hl Hn. pose proof Hd as (Hb & _).
  pose proof (run_ops_ok (H0 := over_view d.(AeroCowDisk.base)) (H1 := over_spec _) (ReliableDisk0 := over_reliable _)
    ops d (conj Hd (same_refl _ Hb)) Hops) as Hr.
  destruct (run_ops ops d) as [rs d1]. destruct Hr as ([Hd1 (_ & _ & Hkept)] & Hc1 & _).
  destruct (cow_discard_ok d1 off len Hd1 Ho Hl ltac:(simpl in *; lia)) as (d2 & -> & Hst & _ & Hby).
  split; [done|]. split; [apply Hst|]. intros a Ha. rewrite Hby by (simpl in *; lia). by rewrite Hkept.
Qed.
End Cow.

(** A base of 1024 bytes, and requests that cross blocks and reach past the end. *)
Definition demo_base : RawDisk.t MemBackend.t := RawDisk.mk (MemBackend.mk (replicate 1024 7)) 1024.
Definition demo_ops : list disk_op :=
  [Write 500 [1; 2; 3]; Read 498 6; Discard 0 512; Write 254 [9; 9; 9]; Flush; Read 1020 9].

Section Demo.
#[local] Existing Instance wasm32.

Lemma demo_base_ok : vd_ok demo_base.
Proof. split; [split; [by apply Forall_replicate|done]|done]. Qed.

Lemma demo_ops_ok : Forall op_ok demo_ops.
Proof. repeat constructor; done. Qed.

Lemma disk_stack_array_witness :
  exists cow (d : BlockCachedDisk.t (AeroCowDisk.t (ReadOnlyDisk.t (RawDisk.t MemBackend.t)) MemBackend.t) (RecencyList.t CacheEntry.t)),
  AeroCowDisk.create (ReadOnlyDisk.new demo_base) (MemBackend.mk []) 512 = Ok cow /\ BlockCachedDisk.new cow 256 2 = Ok d /\
  let '(rs, d1) := run_ops demo_ops d in
  let '(r, d2) := BlockCachedDisk.flush d1 in
  let base := d2.(BlockCachedDisk.inner).(AeroCowDisk.base) in
  exists f cow', array_run (capacity_bytes (ReadOnlyDisk.new demo_base)) (vd_byte (ReadOnlyDisk.new demo_base)) demo_ops rs f /\ r = Ok tt /\
    holds (ReadOnlyDisk.new demo_base) base (vd_byte (ReadOnlyDisk.new demo_base)) /\
    AeroCowDisk.open base d2.(BlockCachedDisk.inner).(AeroCowDisk.overlay).(AeroSparseDisk.backend) = Ok cow' /\
    agree (capacity_bytes (ReadOnlyDisk.new demo_base)) (cow_byte cow') f.
Proof.
  eexists. eexists. split; [vm_compute; reflexivity|]. split; [vm_compute; reflexivity|].
  eapply (disk_stack_array (ReadOnlyDisk.new demo_base) (MemBackend.mk []) 512 _ 256 2 _ demo_ops).
  - exact demo_base_ok.
  - split; [constructor|done].
  - done.
  - vm_compute. reflexivity.
  - vm_compute. reflexivity.
  - done.
  - intros a Ha. done.
  - exact demo_ops_ok.
Defined.

Lemma cache_tolerates_faults_witness :
  exists d : BlockCachedDisk.t (FlakyDisk.t (RawDisk.t MemBackend.t)) (RecencyList.t CacheEntry.t),
  BlockCachedDisk.new (FlakyDisk.mk demo_base [true; false; true]) 256 2 = Ok d /\
  (let '(r, d') := BlockCachedDisk.read_at 0 4 d in holds d d' (vd_byte d) /\ r = Err FlakyDisk.fault) /\
  let '(r, d') := BlockCachedDisk.flush d in
  holds d d' (vd_byte d) /\
  (r = Ok tt /\ agree (capacity_bytes d) (vd_byte d'.(BlockCachedDisk.inner)) (vd_byte d) \/ faulty (D := FlakyDisk.t (RawDisk.t MemBackend.t)) r).
Proof.
  assert (vd_ok (FlakyDisk.mk demo_base [true; false; true])) as Hx by exact demo_base_ok.
  eexists. split; [reflexivity|].
  match goal with |- context [BlockCachedDisk.flush ?d] => set (dd := d) end.
  assert (vd_ok dd) as Hd by exact (proj1 (cache_new_ok _ 256 2 dd Hx eq_refl)).
  destruct (cache_tolerates_faults dd Hd) as (Hr & _ & Hf). split; [|exact Hf].
  specialize (Hr 0 4%nat ltac:(split; vm_compute; done)). destruct (BlockCachedDisk.read_at 0 4 dd) as [r d'] eqn:E.
  split; [apply Hr|]. vm_compute in E. injection E as <- _. done.
Defined.

Abbreviation demo_cfg := (AeroSparseConfig.mk 1536 512).

Lemma sparse_create_witness :
  match AeroSparseDisk.create (MemBackend.mk []) demo_cfg with
  | Ok d => valid_config demo_cfg = true /\
      ((forall a, 64 <= a < doff d -> be_byte (MemBackend.mk []) a = 0) ->
       sparse_ok d /\ capacity_bytes d = 1536 /\ forall a, sparse_byte d a = 0)
  | Err _ => valid_config demo_cfg = false
  end.
Proof. apply (sparse_create (MemBackend.mk []) demo_cfg); [split; [constructor|done]|done|done|vm_compute; done]. Defined.

(** A disk after some requests. *)
Lemma demo_sparse :
  exists d : AeroSparseDisk.t MemBackend.t, AeroSparseDisk.create (MemBackend.mk []) demo_cfg = Ok d /\ sparse_ok d.
Proof.
  eexists. split; [vm_compute; reflexivity|].
  refine (proj1 (create_ok (MemBackend.mk []) demo_cfg _ _ _ _ _ _ _)); [split; [constructor|done]|done|done|vm_compute; reflexivity|vm_compute; done|].
  intros a Ha. done.
Qed.

Lemma sparse_reopen_witness :
  exists d : AeroSparseDisk.t MemBackend.t, AeroSparseDisk.create (MemBackend.mk []) demo_cfg = Ok d /\
  let '(rs, d') := run_ops demo_ops d in
  array_run (capacity_bytes d) (sparse_byte d) demo_ops rs (sparse_byte d') /\ AeroSparseDisk.open d'.(AeroSparseDisk.backend) = Ok d'.
Proof.
  destruct demo_sparse as (d & E & Hd). exists d. split; [exact E|]. apply (sparse_reopen d demo_ops Hd demo_ops_ok).
Defined.

Lemma sparse_open_exact_witness :
  exists d : AeroSparseDisk.t MemBackend.t, AeroSparseDisk.create (MemBackend.mk []) demo_cfg = Ok d /\
  (AeroSparseDisk.open d.(AeroSparseDisk.backend) = Ok d <-> d.(AeroSparseDisk.backend) = d.(AeroSparseDisk.backend) /\ sparse_ok d).
Proof.
  destruct demo_sparse as (d & E & Hd). exists d. split; [exact E|].
  apply (sparse_open_exact d.(AeroSparseDisk.backend) d (so_backend Hd) (so_room Hd)).
Defined.

Lemma cow_discard_reverts_witness :
  exists d : AeroCowDisk.t (RawDisk.t MemBackend.t) MemBackend.t, AeroCowDisk.create demo_base (MemBackend.mk []) 512 = Ok d /\
  let '(rs, d1) := run_ops demo_ops d in
  let '(r, d2) := AeroCowDisk.discard_range 0 1024 d1 in
  r = Ok tt /\ cow_ok d2 /\
  forall a, 0 <= a < capacity_bytes d ->
    cow_byte d2 a = if covered d1.(AeroCowDisk.overlay) 0 1024 (a / bsz d1.(AeroCowDisk.overlay))
                    then vd_byte d.(AeroCowDisk.base) a else cow_byte d1 a.
Proof.
  assert (exists d : AeroCowDisk.t (RawDisk.t MemBackend.t) MemBackend.t,
    AeroCowDisk.create demo_base (MemBackend.mk []) 512 = Ok d /\ cow_ok d /\ capacity_bytes d = 1024) as (d & E & Hd & Hc).
  { eexists. split; [vm_compute; reflexivity|]. split; [|reflexivity].
    refine (proj1 (cow_create_ok demo_base (MemBackend.mk []) 512 _ demo_base_ok _ _ _ _ _));
      [split; [constructor|done]|done|vm_compute; reflexivity|vm_compute; done|]. intros a Ha. done. }
  exists d. split; [exact E|]. apply (cow_discard_reverts d demo_ops 0 1024 Hd demo_ops_ok); lia.
Defined.

(** *** What the code does not keep *)
(** A copy-on-write write into part of a new block allocates the block before
    it reads the rest of it from the base.  If that read fails, the block stays
    allocated, and its bytes are no longer those of the base. *)
Theorem cow_failed_seed_loses_data :
  exists d : AeroCowDisk.t (FlakyDisk.t (RawDisk.t MemBackend.t)) MemBackend.t,
  AeroCowDisk.create (FlakyDisk.mk demo_base [false; true]) (MemBackend.mk []) 512 = Ok d /\
  (run_ops [Read 0 4; Write 10 [1]; Read 0 4] d).1 = [Ok [7; 7; 7; 7]; Err FlakyDisk.fault; Ok [0; 0; 0; 0]].
Proof. eexists. split; [vm_compute; reflexivity|]. vm_compute. reflexivity. Qed.

(** [create] on a backend that holds an older image keeps the older entries of
    the table: the new image cannot be opened after its first write. *)
Theorem sparse_create_keeps_stale_table :
  exists d0 d1 d2 d3 : AeroSparseDisk.t MemBackend.t,
  AeroSparseDisk.create (MemBackend.mk []) demo_cfg = Ok d0 /\ AeroSparseDisk.write_at 512 [1] d0 = (Ok tt, d1) /\
  AeroSparseDisk.create d1.(AeroSparseDisk.backend) demo_cfg = Ok d2 /\ AeroSparseDisk.write_at 0 [2] d2 = (Ok tt, d3) /\
  AeroSparseDisk.open d3.(AeroSparseDisk.backend) = Err (CorruptSparseImage "duplicate data block offset").
Proof.
  eexists. eexists. eexists. eexists. split; [vm_compute; reflexivity|]. split; [vm_compute; reflexivity|].
  split; [vm_compute; reflexivity|]. split; [vm_compute; reflexivity|]. vm_compute. reflexivity.
Qed.
End Demo.
