(* ===== verification/VirtioBlk.v ===== *)
(** * The virtio block device (crates/aero-virtio/src/devices/blk.rs)

    A request is one descriptor chain: a header of 16 bytes, data buffers and a
    status byte in the last descriptor.  The device copies between the guest
    memory of [Virtq] and a disk of [Storage], writes the status and completes
    the chain.  The locals [status] and the early exits of the source's nested
    loops are the error of the monad [st]: an operation on the disk and the
    memory that stops with a status stops the request.  A scratch buffer is not
    state: its content is the bytes that are passed on. *)

From S2P Require Import Prelude Bytes GuestMem Virtq Storage.

Abbreviation VIRTIO_DEVICE_TYPE_BLK := (2) (only parsing).
Abbreviation VIRTIO_BLK_SECTOR_SIZE := (512) (only parsing).
Abbreviation VIRTIO_F_RING_INDIRECT_DESC := (2 ^ 28) (only parsing).
Abbreviation VIRTIO_F_VERSION_1 := (2 ^ 32) (only parsing).
Abbreviation VIRTIO_BLK_F_SEG_MAX := (2 ^ 2) (only parsing).
Abbreviation VIRTIO_BLK_F_BLK_SIZE := (2 ^ 6) (only parsing).
Abbreviation VIRTIO_BLK_F_FLUSH := (2 ^ 9) (only parsing).
Abbreviation VIRTIO_BLK_F_DISCARD := (2 ^ 13) (only parsing).
Abbreviation VIRTIO_BLK_F_WRITE_ZEROES := (2 ^ 14) (only parsing).
Abbreviation VIRTIO_BLK_T_IN := (0) (only parsing).
Abbreviation VIRTIO_BLK_T_OUT := (1) (only parsing).
Abbreviation VIRTIO_BLK_T_FLUSH := (4) (only parsing).
Abbreviation VIRTIO_BLK_T_GET_ID := (8) (only parsing).
Abbreviation VIRTIO_BLK_T_DISCARD := (11) (only parsing).
Abbreviation VIRTIO_BLK_T_WRITE_ZEROES := (13) (only parsing).
Abbreviation VIRTIO_BLK_WRITE_ZEROES_FLAG_UNMAP := (1) (only parsing).
Abbreviation VIRTIO_BLK_S_OK := (0) (only parsing).
Abbreviation VIRTIO_BLK_S_IOERR := (1) (only parsing).
Abbreviation VIRTIO_BLK_S_UNSUPP := (2) (only parsing).
Definition VIRTIO_BLK_MAX_REQUEST_DESCRIPTORS : Z := 1024.
Definition VIRTIO_BLK_MAX_REQUEST_DATA_BYTES : Z := 4 * 1024 * 1024.
Definition VIRTIO_BLK_MAX_REQUEST_SECTORS : Z := VIRTIO_BLK_MAX_REQUEST_DATA_BYTES / VIRTIO_BLK_SECTOR_SIZE.
(** The chunk of a copy, [64 * 1024]. *)
Definition SCRATCH_LEN : Z := 64 * 1024.

(** ** Configuration space *)
Module VirtioBlkConfig.
Record t := mk { capacity : Z; size_max : Z; seg_max : Z; blk_size : Z }.
Abbreviation SIZE := (60%nat) (only parsing).

(** The array [cfg]: geometry, topology and the fields from 0x24 on are zero. *)
Definition bytes (c : t) : list Z :=
  to_le_bytes 8 c.(capacity) ++ to_le_bytes 4 c.(size_max) ++ to_le_bytes 4 c.(seg_max) ++
  replicate 4 0 ++ to_le_bytes 4 c.(blk_size) ++ replicate 36 0.

(** The content of a buffer of [n] bytes after [read]. *)
Definition read `{Target} (c : t) (offset : Z) (n : nat) : list Z :=
  match try_usize offset with
  | None => replicate n 0
  | Some start =>
      if (SIZE <=? start)%nat then replicate n 0
      else
        let end_ := Nat.min (match checked_add usize_bits (Z.of_nat start) (Z.of_nat n) with
                             | Some e => Z.to_nat e | None => SIZE end) SIZE in
        slice (bytes c) start end_ ++ replicate (n - (end_ - start)) 0
  end.
End VirtioBlkConfig.

(** ** The in-memory disk *)
Module MemDisk.
Record t := mk { data : list Z }.
Definition new (size : nat) : t := mk (replicate size 0).

#[global] Instance disk `{Target} : VirtualDisk t := {|
  capacity_bytes := fun d => Z.of_nat (length d.(data));
  read_at := fun offset n d =>
    let capacity := Z.of_nat (length d.(data)) in
    match (let? end_ := or_overflow (checked_add 64 offset (Z.of_nat n)) in
           ensure (end_ <=? capacity) (OutOfBounds offset (Z.of_nat n) capacity)) with
    | Err e => (Err e, d)
    | Ok _ => (Ok (slice d.(data) (Z.to_nat offset) (Z.to_nat offset + n)), d)
    end;
  write_at := fun offset buf d =>
    let capacity := Z.of_nat (length d.(data)) in
    match (let? end_ := or_overflow (checked_add 64 offset (Z.of_nat (length buf))) in
           ensure (end_ <=? capacity) (OutOfBounds offset (Z.of_nat (length buf)) capacity)) with
    | Err e => (Err e, d)
    | Ok _ => (Ok tt, mk (take (Z.to_nat offset) d.(data) ++ buf ++ drop (Z.to_nat offset + length buf) d.(data)))
    end;
  flush := st_ret tt;
  discard_range := fun offset len d => (check_discard offset len (Z.of_nat (length d.(data))), d);
|}.
End MemDisk.

(** ** Buffers of a chain *)

(** A descriptor with the part of its buffer that is meant: offset and length. *)
Abbreviation segment := (Descriptor.t * Z * Z)%type.
Definition whole (d : Descriptor.t) : segment := (d, 0, d.(Descriptor.len)).
Definition seg_desc (s : segment) : Descriptor.t := s.1.1.

Module DiscardWriteZeroesSegment.
Record t := mk { sector : Z; num_sectors : Z; flags : Z }.
End DiscardWriteZeroesSegment.
Abbreviation dwz := DiscardWriteZeroesSegment.t.

Section Buffers.
Context `{VMem.GuestMemory M}.

(** The loop that fills a buffer of [n] bytes from the segments, used for the
    header and for the entries of a segment table.  [guard] is the test that a
    descriptor must pass.  The result has the cursor behind the last byte: the
    segments left, and the offset in the first of them, which is inside it only
    when the buffer is full. *)
Fixpoint gather (guard : Descriptor.t -> bool) (mem : M) (n : Z) (rest : list segment) (d_off : Z) (buf : list Z) :
    option (list Z * list segment * Z) :=
  if n <=? Z.of_nat (length buf) then Some (buf, rest, d_off)
  else
    match rest with
    | [] => None
    | (d, seg_off, seg_len) :: tl =>
        if negb (guard d) then None
        else
          let avail := saturating_sub seg_len d_off in
          if avail =? 0 then gather guard mem n tl 0 buf
          else
            let take := Z.min avail (n - Z.of_nat (length buf)) in
            match checked_add 64 d.(Descriptor.addr) (seg_off + d_off) with
            | None => None
            | Some addr =>
                match VMem.read mem addr (Z.to_nat take) with
                | Err _ => None
                | Ok bytes =>
                    let d_off := d_off + take in
                    if d_off =? seg_len then gather guard mem n tl 0 (buf ++ bytes)
                    else Some (buf ++ bytes, rest, d_off)
                end
            end
    end.

Definition read_header (mem : M) (descs : list Descriptor.t) : option (list Z * list segment * Z) :=
  gather (fun d => negb (Descriptor.is_write_only d)) mem 16 (map whole descs) 0 [].

(** The data segments from the cursor on, and their total length. *)
Fixpoint data_segments (rest : list Descriptor.t) (seg_off total_data_len : Z) : option (list segment * Z) :=
  match rest with
  | [] => Some ([], total_data_len)
  | d :: tl =>
      let d_len := d.(Descriptor.len) in
      if d_len <? seg_off then None
      else
        let seg_len := d_len - seg_off in
        if seg_len =? 0 then data_segments tl 0 total_data_len
        else
          match checked_add 64 total_data_len seg_len with
          | None => None
          | Some total =>
              if VIRTIO_BLK_MAX_REQUEST_DATA_BYTES <? total then None
              else
                match data_segments tl 0 total with
                | None => None
                | Some (segs, total) => Some ((d, seg_off, seg_len) :: segs, total)
                end
          end
  end.

Fixpoint parse_table (mem : M) (seg_count : nat) (rest : list segment) (d_off : Z) : option (list dwz) :=
  match seg_count with
  | O => Some []
  | S seg_count =>
      match gather (fun _ => true) mem 16 rest d_off [] with
      | None => None
      | Some (buf, rest, d_off) =>
          let seg := DiscardWriteZeroesSegment.mk (from_le_bytes (slice buf 0 8))
                       (from_le_bytes (slice buf 8 12)) (from_le_bytes (slice buf 12 16)) in
          match parse_table mem seg_count rest d_off with
          | None => None
          | Some segs => Some (seg :: segs)
          end
      end
  end.

Definition total_len (segs : list segment) : Z := foldr (fun s n => s.2 + n) 0 segs.

Definition parse_discard_write_zeroes_segments (mem : M) (data_segs : list segment) (max_segs : Z) :
    option (list dwz) :=
  if existsb (fun s => Descriptor.is_write_only (seg_desc s)) data_segs then None
  else
    let total_len := total_len data_segs in
    if (total_len =? 0) || negb (total_len mod 16 =? 0) then None
    else
      let seg_count := total_len / 16 in
      if 2 ^ 32 <=? seg_count then None
      else if max_segs <? seg_count then None
      else parse_table mem (Z.to_nat seg_count) data_segs 0.
End Buffers.

(** ** Requests *)
Section Requests.
Context `{Target} `{VMem.GuestMemory M} `{VirtualDisk D}.

(** The disk and the guest memory; an error is the status of the request. *)
Definition io (A : Type) : Type := st (D * M) Z A.

Definition fail {A} : io A := st_err VIRTIO_BLK_S_IOERR.
Definition or_fail {A} (o : option A) : io A := st_of_result (ok_or VIRTIO_BLK_S_IOERR o).
Definition require (cond : bool) : io unit := if cond then st_ret tt else fail.
(** A call on the disk that may not fail. *)
Definition on_disk {A} (m : st D DiskError A) : io A := fun '(d, mem) =>
  let '(r, d) := m d in (map_err (fun _ => VIRTIO_BLK_S_IOERR) r, (d, mem)).
(** A call on the disk whose failure is handled. *)
Definition try_disk {A} (m : st D DiskError A) : io (option A) := fun '(d, mem) =>
  let '(r, d) := m d in (Ok (match r with Ok a => Some a | Err _ => None end), (d, mem)).
Definition guest_read (addr : Z) (n : nat) : io (list Z) := fun '(d, mem) =>
  (map_err (fun _ => VIRTIO_BLK_S_IOERR) (VMem.read mem addr n), (d, mem)).
Definition guest_write (addr : Z) (bs : list Z) : io unit := fun '(d, mem) =>
  let '(r, mem) := VMem.write mem addr bs in (map_err (fun _ => VIRTIO_BLK_S_IOERR) r, (d, mem)).

(** *** IN and OUT *)
Definition in_chunk (offset cur_addr : Z) (take : nat) : io unit :=
  let! scratch := on_disk (read_at offset take) in guest_write cur_addr scratch.
Definition out_chunk (offset cur_addr : Z) (take : nat) : io unit :=
  let! scratch := guest_read cur_addr take in on_disk (write_at offset scratch).

(** One segment in chunks; the result is the disk offset behind it. *)
Fixpoint copy_chunks (fuel : nat) (chunk : Z -> Z -> nat -> io unit) (offset cur_addr remaining : Z) : io Z :=
  match fuel with
  | O => st_ret offset
  | S fuel =>
      if remaining =? 0 then st_ret offset
      else
        let take := Z.min remaining SCRATCH_LEN in
        let! _ := chunk offset cur_addr (Z.to_nat take) in
        let! offset := or_fail (checked_add 64 offset take) in
        let! cur_addr := or_fail (checked_add 64 cur_addr take) in
        copy_chunks fuel chunk offset cur_addr (saturating_sub remaining take)
  end.

(** Chunks of [len] bytes needed for [n] bytes. *)
Definition chunks_of (len n : Z) : nat := Z.to_nat ((n + len - 1) / len).

Fixpoint copy_segments (guard : Descriptor.t -> bool) (chunk : Z -> Z -> nat -> io unit) (segs : list segment)
    (offset : Z) : io unit :=
  match segs with
  | [] => st_ret tt
  | (d, seg_off, seg_len) :: segs =>
      let! _ := require (guard d) in
      let! addr := or_fail (checked_add 64 d.(Descriptor.addr) seg_off) in
      let! offset := copy_chunks (chunks_of SCRATCH_LEN seg_len) chunk offset addr seg_len in
      copy_segments guard chunk segs offset
  end.

(** The checks before a transfer; the result is the offset of the sector. *)
Definition transfer_start (sector : Z) (segs : list segment) (total_data_len : Z) : io Z := fun s =>
  (let! _ := require (negb (bool_decide (segs = []) || negb (total_data_len mod VIRTIO_BLK_SECTOR_SIZE =? 0))) in
   let! sector_off := or_fail (checked_mul 64 sector VIRTIO_BLK_SECTOR_SIZE) in
   let! end_off := or_fail (checked_add 64 sector_off total_data_len) in
   let! _ := require (end_off <=? capacity_bytes s.1) in
   st_ret sector_off) s.

Definition do_in (sector : Z) (segs : list segment) (total_data_len : Z) : io unit :=
  let! offset := transfer_start sector segs total_data_len in
  copy_segments Descriptor.is_write_only in_chunk segs offset.
Definition do_out (sector : Z) (segs : list segment) (total_data_len : Z) : io unit :=
  let! offset := transfer_start sector segs total_data_len in
  copy_segments (fun d => negb (Descriptor.is_write_only d)) out_chunk segs offset.

(** *** GET_ID *)
Fixpoint put_id (segs : list segment) (remaining : list Z) : io unit :=
  match segs with
  | [] => st_ret tt
  | (d, seg_off, seg_len) :: segs =>
      if bool_decide (remaining = []) then st_ret tt
      else
        let! _ := require (Descriptor.is_write_only d) in
        let write_len := Nat.min (Z.to_nat seg_len) (length remaining) in
        if (write_len =? 0)%nat then put_id segs remaining
        else
          let! addr := or_fail (checked_add 64 d.(Descriptor.addr) seg_off) in
          let! _ := guest_write addr (take write_len remaining) in
          put_id segs (drop write_len remaining)
  end.

Definition do_get_id (device_id : list Z) (segs : list segment) : io unit :=
  if bool_decide (segs = []) then fail else put_id segs device_id.

(** *** DISCARD and WRITE_ZEROES *)

(** The ranges of a request as (offset, length, flags) in bytes. *)
Fixpoint validate (disk_len align_sectors : Z) (segs : list dwz) (total_sectors : Z) : option (list (Z * Z * Z)) :=
  match segs with
  | [] => Some []
  | seg :: segs =>
      let num_sectors := seg.(DiscardWriteZeroesSegment.num_sectors) in
      match checked_add 64 total_sectors num_sectors with
      | None => None
      | Some total_sectors =>
          if VIRTIO_BLK_MAX_REQUEST_SECTORS <? total_sectors then None
          else if nz (seg.(DiscardWriteZeroesSegment.sector) mod align_sectors) || nz (num_sectors mod align_sectors) then None
          else
            match checked_mul 64 seg.(DiscardWriteZeroesSegment.sector) VIRTIO_BLK_SECTOR_SIZE,
                  checked_mul 64 num_sectors VIRTIO_BLK_SECTOR_SIZE with
            | Some byte_off, Some byte_len =>
                match checked_add 64 byte_off byte_len with
                | None => None
                | Some end_off =>
                    if disk_len <? end_off then None
                    else
                      match validate disk_len align_sectors segs total_sectors with
                      | None => None
                      | Some validated => Some ((byte_off, byte_len, seg.(DiscardWriteZeroesSegment.flags)) :: validated)
                      end
                end
            | _, _ => None
            end
      end
  end.

Fixpoint zero_chunks (fuel : nat) (zero_len cur_off remaining : Z) : io unit :=
  match fuel with
  | O => st_ret tt
  | S fuel =>
      if remaining =? 0 then st_ret tt
      else
        let take := Z.min remaining zero_len in
        let! _ := on_disk (write_at cur_off (replicate (Z.to_nat take) 0)) in
        let! cur_off := or_fail (checked_add 64 cur_off take) in
        zero_chunks fuel zero_len cur_off (saturating_sub remaining take)
  end.

(** Zeros only the chunks that do not read as zero; [true] asks for the
    fallback, when a chunk cannot be read. *)
Fixpoint scan_chunks (fuel : nat) (read_len scan_off scan_remaining : Z) : io bool :=
  match fuel with
  | O => st_ret false
  | S fuel =>
      if scan_remaining =? 0 then st_ret false
      else
        let take := Z.min scan_remaining read_len in
        let! r := try_disk (read_at scan_off (Z.to_nat take)) in
        match r with
        | None => st_ret true
        | Some buf =>
            let! _ := (if existsb (fun b => nz b) buf
                       then on_disk (write_at scan_off (replicate (Z.to_nat take) 0)) else st_ret tt) in
            match checked_add 64 scan_off take with
            | None => st_ret true
            | Some scan_off => scan_chunks fuel read_len scan_off (saturating_sub scan_remaining take)
            end
        end
  end.

(** Hole punching first, then whatever is needed to make the range zero. *)
Definition unmap_range (zero_len read_len byte_off byte_len : Z) : io unit :=
  let! discard_result := try_disk (discard_range byte_off byte_len) in
  let! needs_zero_fallback :=
    match discard_result with
    | None => st_ret true
    | Some _ => scan_chunks (chunks_of read_len byte_len) read_len byte_off byte_len
    end in
  if needs_zero_fallback then zero_chunks (chunks_of zero_len byte_len) zero_len byte_off byte_len
  else st_ret tt.

(** The size of the zero buffer: whole blocks, about 64 KiB. *)
Definition zero_buf_len (blk_size : Z) : Z :=
  let blk_usize := match try_usize blk_size with Some n => Z.of_nat n | None => VIRTIO_BLK_SECTOR_SIZE end in
  let max_chunk := 64 * 1024 in
  let chunk_size := if max_chunk <? blk_usize then blk_usize
                    else saturating_mul usize_bits (max_chunk / blk_usize) blk_usize in
  Z.max (Z.max chunk_size blk_usize) VIRTIO_BLK_SECTOR_SIZE.

Fixpoint discard_ranges (chunk_size : Z) (validated : list (Z * Z * Z)) : io unit :=
  match validated with
  | [] => st_ret tt
  | (byte_off, byte_len, _) :: validated =>
      if byte_len =? 0 then discard_ranges chunk_size validated
      else
        let! _ := unmap_range chunk_size chunk_size byte_off byte_len in
        discard_ranges chunk_size validated
  end.

Definition wants_unmap (flags : Z) : bool := nz (flags &&& VIRTIO_BLK_WRITE_ZEROES_FLAG_UNMAP).

Fixpoint zero_ranges (chunk_size read_len : Z) (validated : list (Z * Z * Z)) : io unit :=
  match validated with
  | [] => st_ret tt
  | (byte_off, byte_len, flags) :: validated =>
      if byte_len =? 0 then zero_ranges chunk_size read_len validated
      else
        let! _ := (if wants_unmap flags then unmap_range chunk_size read_len byte_off byte_len
                   else zero_chunks (chunks_of chunk_size byte_len) chunk_size byte_off byte_len) in
        zero_ranges chunk_size read_len validated
  end.

(** Parsing and checking, before anything is changed. *)
Definition requested_ranges (config : VirtioBlkConfig.t) (segs : list segment) : io (list (Z * Z * Z)) := fun s =>
  (let! segs := or_fail (parse_discard_write_zeroes_segments s.2 segs config.(VirtioBlkConfig.seg_max)) in
   let blk_size := Z.max config.(VirtioBlkConfig.blk_size) VIRTIO_BLK_SECTOR_SIZE in
   let align_sectors := Z.max (blk_size / VIRTIO_BLK_SECTOR_SIZE) 1 in
   or_fail (validate (capacity_bytes s.1) align_sectors segs 0)) s.

Definition do_discard (config : VirtioBlkConfig.t) (segs : list segment) : io unit :=
  let! validated := requested_ranges config segs in
  discard_ranges (zero_buf_len (Z.max config.(VirtioBlkConfig.blk_size) VIRTIO_BLK_SECTOR_SIZE)) validated.

Definition do_write_zeroes (config : VirtioBlkConfig.t) (segs : list segment) : io unit :=
  let! validated := requested_ranges config segs in
  let chunk_size := zero_buf_len (Z.max config.(VirtioBlkConfig.blk_size) VIRTIO_BLK_SECTOR_SIZE) in
  let read_len := if existsb (fun v => wants_unmap v.2) validated then chunk_size else 0 in
  zero_ranges chunk_size read_len validated.
End Requests.
Arguments io : clear implicits.

(** ** The device *)
Module VirtioBlk.
Record t (D : Type) := mk { disk : D; device_id : list Z; features : Z; config : VirtioBlkConfig.t }.
Arguments mk {D} _ _ _ _.
Arguments disk {D} _.
Arguments device_id {D} _.
Arguments features {D} _.
Arguments config {D} _.

(** ["aero-virtio-blk-id!!"] *)
Definition DEFAULT_DEVICE_ID : list Z :=
  [97; 101; 114; 111; 45; 118; 105; 114; 116; 105; 111; 45; 98; 108; 107; 45; 105; 100; 33; 33].

Section Device.
Context `{Target} `{VMem.GuestMemory M} `{VirtualDisk D}.
Implicit Type b : t D.

Definition with_disk (d : D) b : t D := mk d b.(device_id) b.(features) b.(config).

Definition new (disk : D) : t D :=
  let queue_max_size := 128 in
  mk disk DEFAULT_DEVICE_ID 0
    (VirtioBlkConfig.mk (capacity_bytes disk / VIRTIO_BLK_SECTOR_SIZE) 0 (saturating_sub queue_max_size 2)
       VIRTIO_BLK_SECTOR_SIZE).

Definition device_type b : Z := VIRTIO_DEVICE_TYPE_BLK.
Definition device_features b : Z :=
  VIRTIO_F_VERSION_1 ||| VIRTIO_F_RING_INDIRECT_DESC ||| VIRTIO_BLK_F_SEG_MAX ||| VIRTIO_BLK_F_BLK_SIZE |||
  VIRTIO_BLK_F_FLUSH.
Definition set_features (features : Z) b : t D := mk b.(disk) b.(device_id) features b.(config).
Definition num_queues b : Z := 1.
Definition queue_max_size b (queue : Z) : Z := 128.
Definition read_config b (offset : Z) (n : nat) : list Z := VirtioBlkConfig.read b.(config) offset n.
Definition write_config (offset : Z) (data : list Z) b : t D := b.
Definition reset b : t D := set_features 0 b.

Definition negotiated b (feature : Z) : bool := nz (b.(features) &&& feature).

(** The [match] on the type of the request. *)
Definition request b (typ sector : Z) (segs : list segment) (total_data_len : Z) : io M D unit :=
  if typ =? VIRTIO_BLK_T_IN then do_in sector segs total_data_len
  else if typ =? VIRTIO_BLK_T_OUT then do_out sector segs total_data_len
  else if typ =? VIRTIO_BLK_T_FLUSH then
    if negotiated b VIRTIO_BLK_F_FLUSH then on_disk flush else st_err VIRTIO_BLK_S_UNSUPP
  else if typ =? VIRTIO_BLK_T_GET_ID then do_get_id b.(device_id) segs
  else if typ =? VIRTIO_BLK_T_DISCARD then
    if negotiated b VIRTIO_BLK_F_DISCARD then do_discard b.(config) segs else st_err VIRTIO_BLK_S_UNSUPP
  else if typ =? VIRTIO_BLK_T_WRITE_ZEROES then
    if negotiated b VIRTIO_BLK_F_WRITE_ZEROES then do_write_zeroes b.(config) segs else st_err VIRTIO_BLK_S_UNSUPP
  else st_err VIRTIO_BLK_S_UNSUPP.

Definition status_of (r : result unit Z) : Z := match r with Ok _ => VIRTIO_BLK_S_OK | Err status => status end.

Abbreviation answer := (result bool VirtioDeviceError * t D * VirtQueue.t * M)%type.

(** The end of every path: a failed write of the status is ignored. *)
Definition complete (head_index : Z) (status_desc : Descriptor.t) (status : option Z) b (queue : VirtQueue.t) (mem : M) : answer :=
  let mem := match status with
             | Some status => (VMem.write mem status_desc.(Descriptor.addr) [status]).2
             | None => mem
             end in
  let '(r, queue, mem) := VirtQueue.add_used head_index 0 queue mem in
  (map_err (fun _ => IoError) r, b, queue, mem).

Definition process_queue (queue_index head_index : Z) (descs : list Descriptor.t) b (queue : VirtQueue.t) (mem : M) : answer :=
  if nz queue_index then (Err Virtq.Unsupported, b, queue, mem)
  else
    match last descs with
    | None => (Ok false, b, queue, mem)
    | Some status_desc =>
        let can_write_status := Descriptor.is_write_only status_desc && nz status_desc.(Descriptor.len) in
        let finish status b mem :=
          complete head_index status_desc (if can_write_status then Some status else None) b queue mem in
        if VIRTIO_BLK_MAX_REQUEST_DESCRIPTORS <? Z.of_nat (length descs) then finish VIRTIO_BLK_S_IOERR b mem
        else if negb can_write_status then complete head_index status_desc None b queue mem
        else
          match read_header mem (removelast descs) with
          | None => finish VIRTIO_BLK_S_IOERR b mem
          | Some (hdr, rest, d_off) =>
              match data_segments (map seg_desc rest) d_off 0 with
              | None => finish VIRTIO_BLK_S_IOERR b mem
              | Some (data_segs, total_data_len) =>
                  let typ := from_le_bytes (slice hdr 0 4) in
                  let sector := from_le_bytes (slice hdr 8 16) in
                  let '(r, (d, mem)) := request b typ sector data_segs total_data_len (b.(disk), mem) in
                  finish (status_of r) (with_disk d b) mem
              end
          end
    end.

#[global] Instance device : VirtioDevice (t D) M := {|
  Virtq.process_queue := process_queue;
  poll_queue := fun _ b q m => (Ok false, b, q, m);
|}.
End Device.
End VirtioBlk.
