(* ===== verification/BlkFacts.v ===== *)
(** * Facts on the virtio block device

    Scatter-gather lists as lists of cells, what the copy loops and the zeroing
    loops do to a disk and a memory that keep their contracts, and how the
    header, the data segments and the segment table are cut out of a chain. *)

From stdpp Require Import functions.
From S2P Require Import Prelude Bytes GuestMem Virtq VirtqFacts Storage StorageFacts VirtioBlk.

Lemma take_more {A} (k n : nat) (l : list A) : take (k + n) l = take k l ++ take n (drop k l).
Proof.
  revert l. induction k as [|k IH]; intros [|x l]; simpl; [done..|by rewrite !take_nil|]. f_equal. apply IH.
Qed.

(** ** Writing bytes to a list of addresses *)
Definition scatter (f : Z -> Z) (cs bs : list Z) : Z -> Z :=
  foldl (fun f p => <[p.1 := p.2]> f) f (zip cs bs).

Lemma scatter_app f cs1 cs2 bs1 bs2 :
  length cs1 = length bs1 -> scatter f (cs1 ++ cs2) (bs1 ++ bs2) = scatter (scatter f cs1 bs1) cs2 bs2.
Proof. intros Hl. unfold scatter. by rewrite zip_with_app, foldl_app. Qed.

Lemma scatter_ext f g cs bs a : f a = g a -> scatter f cs bs a = scatter g cs bs a.
Proof.
  unfold scatter. revert f g. induction (zip cs bs) as [|[c b] l IH]; intros f g Hf; [done|]. simpl. apply IH.
  destruct (decide (c = a)) as [->|Hc]; [by rewrite !fn_lookup_insert|by rewrite !fn_lookup_insert_ne].
Qed.

Lemma scatter_other f cs bs a : a ∉ cs -> scatter f cs bs a = f a.
Proof.
  revert f bs. induction cs as [|c cs IH]; intros f bs Ha; [done|]. destruct bs as [|b bs]; [done|].
  apply not_elem_of_cons in Ha as [Hc Ha]. change (scatter (<[c := b]> f) cs bs a = f a).
  rewrite IH by done. by rewrite fn_lookup_insert_ne.
Qed.

Lemma scatter_at f cs bs i a v :
  NoDup cs -> cs !! i = Some a -> bs !! i = Some v -> scatter f cs bs a = v.
Proof.
  revert f bs i. induction cs as [|c cs IH]; intros f bs i Hn Hc Hb; [done|]. destruct bs as [|b bs]; [done|].
  apply NoDup_cons in Hn as [Hni Hn]. change (scatter (<[c := b]> f) cs bs a = v). destruct i as [|i]; simplify_eq/=.
  - rewrite scatter_other by done. by rewrite fn_lookup_insert.
  - by eapply IH.
Qed.

Lemma seqZ_S a n : seqZ a (Z.of_nat (S n)) = a :: seqZ (a + 1) (Z.of_nat n).
Proof. rewrite seqZ_cons by lia. f_equal. f_equal; lia. Qed.

(** A write of consecutive bytes. *)
Lemma splice_scatter f p src a : splice f p src a = scatter f (seqZ p (Z.of_nat (length src))) src a.
Proof.
  revert f p. induction src as [|b src IH]; intros f p.
  { unfold splice. simpl. case_if; [bool_hyps; lia|done]. }
  cbn [length]. rewrite seqZ_S. change (scatter f (p :: ?cs) (b :: src)) with (scatter (<[p := b]> f) cs src).
  change (b :: src) with ([b] ++ src). rewrite <- splice_app. cbn [length]. change (Z.of_nat 1) with 1. rewrite <- IH.
  apply splice_ext. unfold splice. cbn [length]. destruct (decide (p = a)) as [->|Hne].
  - rewrite fn_lookup_insert. rewrite (proj2 (Z.leb_le _ _)), (proj2 (Z.ltb_lt _ _)) by lia. simpl. by rewrite Z.sub_diag.
  - rewrite fn_lookup_insert_ne by done. case_if; [|done]. bool_hyps. lia.
Qed.

Lemma span_seqZ f a n : span f a n = f <$> seqZ a (Z.of_nat n).
Proof.
  revert a. induction n as [|n IH]; intros a; [done|]. rewrite seqZ_S. change (S n) with (1 + n)%nat.
  rewrite span_app, IH. simpl. by rewrite Z.add_0_r.
Qed.

(** ** Cells *)

(** A byte of a guest buffer: whether the device may write it, and its address. *)
Abbreviation cell := (bool * Z)%type.
Definition seg_cells (s : segment) : list cell :=
  pair (Descriptor.is_write_only s.1.1) <$> seqZ (s.1.1.(Descriptor.addr) + s.1.2) s.2.
Definition cells (segs : list segment) : list cell := segs ≫= seg_cells.
Arguments cells : simpl never.
Arguments seg_cells : simpl never.

Lemma length_seg_cells s : length (seg_cells s) = Z.to_nat s.2.
Proof. unfold seg_cells. by rewrite length_fmap, length_seqZ. Qed.

Lemma cells_cons s segs : cells (s :: segs) = seg_cells s ++ cells segs.
Proof. done. Qed.

Lemma cells_app s1 s2 : cells (s1 ++ s2) = cells s1 ++ cells s2.
Proof. unfold cells. by rewrite bind_app. Qed.

Lemma length_cells segs : Forall (fun s => 0 <= s.2) segs -> Z.of_nat (length (cells segs)) = total_len segs.
Proof.
  induction 1 as [|s segs Hs _ IH]; [done|]. rewrite cells_cons, length_app, length_seg_cells.
  cbn [total_len foldr]. fold (total_len segs). lia.
Qed.

(** Descriptors as a chain has them, and parts of their buffers. *)
Definition desc_ok (d : Descriptor.t) : Prop := uint 64 d.(Descriptor.addr) /\ uint 32 d.(Descriptor.len).
Definition seg_ok (s : segment) : Prop := desc_ok s.1.1 /\ 0 <= s.1.2 /\ 0 <= s.2 /\ s.1.2 + s.2 <= s.1.1.(Descriptor.len).

Lemma whole_ok d : desc_ok d -> seg_ok (whole d).
Proof. intros [Ha Hl]. unfold seg_ok, whole, uint in *. simpl. split; [done|]. lia. Qed.

Section Memory.
Context `{VMem.Spec M}.
Implicit Types m : M.

Definition usable (write : bool) m (c : cell) : Prop := c.1 = write /\ 0 <= c.2 < VMem.len m.

(** [m'] is [m] with the content [g]. *)
Definition mem_holds m m' (g : Z -> Z) : Prop :=
  VMem.ok m' /\ VMem.len m' = VMem.len m /\ forall a, 0 <= a < VMem.len m -> VMem.byte m' a = g a.

Lemma mem_holds_refl m g : VMem.ok m -> (forall a, g a = VMem.byte m a) -> mem_holds m m g.
Proof. intros Hm Hg. split_and!; [done..|]. intros a _. by rewrite Hg. Qed.

Lemma mem_holds_trans m m1 m2 g1 g2 :
  mem_holds m m1 g1 -> mem_holds m1 m2 g2 -> mem_holds m m2 g2.
Proof. intros (O1 & L1 & _) (O2 & L2 & B2). split; [done|]. rewrite L1 in *. by split. Qed.

Lemma read_in m a n :
  VMem.ok m -> 0 <= a -> a + Z.of_nat n <= VMem.len m -> VMem.read m a n = Ok (span (VMem.byte m) a n).
Proof.
  intros Hm Ha Hl. pose proof (VMem.len_ok m Hm) as Hu. unfold uint in Hu. destruct n as [|n].
  - destruct (Z.eq_dec a (2 ^ 64)); [lia|]. rewrite VMem.read_spec by (done || (unfold uint; lia)).
    by rewrite (proj2 (Z.leb_le _ _)) by lia.
  - rewrite VMem.read_spec by (done || (unfold uint; lia)). by rewrite (proj2 (Z.leb_le _ _)) by lia.
Qed.

(** A read succeeds exactly when its cells are in memory. *)
Lemma read_out m a n :
  VMem.ok m -> uint 64 a -> VMem.len m < a + Z.of_nat n -> exists e, VMem.read m a n = Err e.
Proof. intros Hm Ha Hl. rewrite VMem.read_spec by done. rewrite (proj2 (Z.leb_gt _ _)) by lia. by eexists. Qed.
End Memory.

(** ** Loops in chunks *)
Lemma chunks_of_0 len : 0 < len -> chunks_of len 0 = 0%nat.
Proof. intros Hl. unfold chunks_of. rewrite Z.div_small by lia. done. Qed.

Lemma chunks_of_pos len n : 0 < len -> 0 < n -> (0 < chunks_of len n)%nat.
Proof. intros Hl Hn. unfold chunks_of. pose proof (Z.div_le_lower_bound (n + len - 1) len 1). lia. Qed.

Lemma chunks_of_step len n fuel :
  0 < len -> 0 < n -> (chunks_of len n <= S fuel)%nat -> (chunks_of len (saturating_sub n (Z.min n len)) <= fuel)%nat.
Proof.
  intros Hl Hn Hf. unfold saturating_sub. destruct (Z.le_gt_cases n len) as [Hle|Hgt].
  - rewrite Z.min_l, Z.sub_diag, Z.max_id by lia. rewrite chunks_of_0 by done. lia.
  - rewrite Z.min_r, Z.max_l by lia. unfold chunks_of in *.
    replace (n + len - 1) with (n - len + len - 1 + 1 * len) in Hf by lia. rewrite Z.div_add in Hf by lia.
    pose proof (Z.div_pos (n - len + len - 1) len). lia.
Qed.

Lemma take_drop_seqZ {A} (g : Z -> A) l addr n j :
  0 <= j <= n -> l = g <$> seqZ addr n ->
  take (Z.to_nat j) l = (g <$> seqZ addr j) /\ drop (Z.to_nat j) l = (g <$> seqZ (addr + j) (n - j)).
Proof.
  intros Hj ->. assert (seqZ addr n = seqZ addr j ++ seqZ (addr + j) (n - j)) as ->.
  { rewrite <- seqZ_app by lia. f_equal. lia. }
  rewrite fmap_app, take_app_length', drop_app_length' by (rewrite length_fmap, length_seqZ; lia). done.
Qed.

(** *** Copying

    [Inv k s]: the first [k] bytes of the request are done.  A copy that stops
    early has a reason and has done a prefix. *)
Section Copy.
Context `{VMem.GuestMemory M} `{VirtualDisk D}.
Context (Inv : nat -> D * M -> Prop) (bad : Prop) (chunk : Z -> Z -> nat -> io M D unit).
Context (off : Z) (write : bool) (C : list cell).

Definition stopped (e : Z) (s : D * M) : Prop := e = VIRTIO_BLK_S_IOERR /\ bad /\ exists k, Inv k s.

Definition chunk_ok : Prop := forall k addr n s,
  Inv k s -> 0 < n -> uint 64 addr -> (k + Z.to_nat n <= length C)%nat ->
  take (Z.to_nat n) (drop k C) = (pair write <$> seqZ addr n) ->
  match chunk (off + Z.of_nat k) addr (Z.to_nat n) s with
  | (Ok _, s') => Inv (k + Z.to_nat n) s' /\ addr + n < 2 ^ 64
  | (Err e, s') => stopped e s'
  end.

Context (Hchunk : chunk_ok) (Hoff : 0 <= off) (Hend : off + Z.of_nat (length C) < 2 ^ 64).

Lemma copy_chunks_ok fuel k addr n s :
  (chunks_of SCRATCH_LEN n <= fuel)%nat -> 0 <= n -> Inv k s -> uint 64 addr -> (k + Z.to_nat n <= length C)%nat ->
  take (Z.to_nat n) (drop k C) = (pair write <$> seqZ addr n) ->
  match copy_chunks fuel chunk (off + Z.of_nat k) addr n s with
  | (Ok o, s') => o = off + Z.of_nat (k + Z.to_nat n) /\ Inv (k + Z.to_nat n) s'
  | (Err e, s') => stopped e s'
  end.
Proof.
  revert k addr n s. induction fuel as [|fuel IH]; intros k addr n s Hf Hn Hs Ha Hk Hc; simpl.
  { destruct (Z.eq_dec n 0) as [->|Hne]; [by rewrite Nat.add_0_r|].
    pose proof (chunks_of_pos SCRATCH_LEN n ltac:(done) ltac:(lia)). lia. }
  destruct (Z.eqb_spec n 0) as [->|Hne]; [by rewrite Nat.add_0_r|].
  set (j := Z.min n SCRATCH_LEN). assert (0 < j <= n) as Hj by (unfold j, SCRATCH_LEN; lia).
  destruct (take_drop_seqZ (pair write) _ addr n j ltac:(lia) Hc) as [Ht Hd].
  rewrite take_take, Nat.min_l in Ht by lia. rewrite skipn_firstn_comm, drop_drop in Hd.
  replace (Z.to_nat n - Z.to_nat j)%nat with (Z.to_nat (n - j)) in Hd by lia.
  pose proof (Hchunk k addr j s Hs ltac:(lia) Ha ltac:(lia) Ht) as Hstep. unfold st_bind at 1.
  destruct (chunk _ _ _ s) as [[u|e] s1]; [|done]. destruct Hstep as [Hs1 Hlt].
  unfold or_fail, st_bind, st_of_result. rewrite checked_add_ok by lia. cbn [ok_or].
  rewrite checked_add_ok by lia. cbn [ok_or].
  replace (off + Z.of_nat k + j) with (off + Z.of_nat (k + Z.to_nat j)) by lia.
  replace (saturating_sub n j) with (n - j) by (unfold saturating_sub; lia).
  specialize (IH (k + Z.to_nat j)%nat (addr + j) (n - j) s1).
  replace (k + Z.to_nat j + Z.to_nat (n - j))%nat with (k + Z.to_nat n)%nat in IH by lia. apply IH; try done; try lia.
  - replace (n - j) with (saturating_sub n j) by (unfold saturating_sub; lia). by apply chunks_of_step; [done|lia|].
  - unfold uint in *. lia.
Qed.

Lemma copy_segments_ok guard k segs s :
  (forall d, guard d = true <-> Descriptor.is_write_only d = write) ->
  (forall c, c ∈ C -> c.1 <> write \/ 2 ^ 64 <= c.2 -> bad) ->
  Forall seg_ok segs -> Forall (fun s => 0 < s.2) segs -> Inv k s -> (k <= length C)%nat -> drop k C = cells segs ->
  match copy_segments guard chunk segs (off + Z.of_nat k) s with
  | (Ok _, s') => Inv (length C) s'
  | (Err e, s') => stopped e s'
  end.
Proof.
  intros Hg Hbad Hok Hpos. revert k s. induction Hpos as [|[[d o] l] segs Hl Hpos IH]; intros k s Hs Hk Hc; simpl.
  { assert (length (drop k C) = 0%nat) as Hz by by rewrite Hc. rewrite length_drop in Hz.
    by replace (length C) with k by lia. }
  apply Forall_cons in Hok as [[[Ha Hlen] (Ho & _ & Hol)] Hok]. simpl in *. unfold uint in Ha, Hlen.
  assert (length (drop k C) = (Z.to_nat l + length (cells segs))%nat) as Hlen'
    by (rewrite Hc, cells_cons, length_app, length_seg_cells; done).
  rewrite length_drop in Hlen'.
  assert (forall c, c ∈ seg_cells (d, o, l) -> c ∈ C) as Hin.
  { intros c Hc'. rewrite <- (take_drop k C), Hc, cells_cons. apply elem_of_app. right. apply elem_of_app. by left. }
  assert ((Descriptor.is_write_only d, d.(Descriptor.addr) + o) ∈ seg_cells (d, o, l)) as Hfirst.
  { unfold seg_cells. simpl. apply list_elem_of_fmap. eexists. split; [done|]. apply elem_of_seqZ. lia. }
  unfold require. destruct (guard d) eqn:Hgd; unfold st_bind at 1, st_ret, fail, st_err.
  2:{ split; [done|]. split; [|by eexists]. eapply Hbad; [apply Hin, Hfirst|]. left. simpl. intros E%Hg. congruence. }
  apply Hg in Hgd. unfold or_fail, st_of_result. unfold st_bind at 1. unfold checked_add.
  destruct (Z.ltb_spec (d.(Descriptor.addr) + o) (2 ^ 64)) as [Hlt|Hge]; cbn [ok_or].
  2:{ split; [done|]. split; [|by eexists]. eapply Hbad; [apply Hin, Hfirst|]. by right. }
  pose proof (copy_chunks_ok (chunks_of SCRATCH_LEN l) k (d.(Descriptor.addr) + o) l s ltac:(lia) ltac:(lia) Hs) as Hcp.
  unfold st_bind. destruct (copy_chunks _ _ _ _ _ s) as [[o'|e] s1].
  2:{ apply Hcp; [unfold uint; lia|lia|]. rewrite Hc, cells_cons, take_app_length'; [|by rewrite length_seg_cells].
      unfold seg_cells. simpl. by rewrite Hgd. }
  destruct Hcp as [-> Hs1]; [unfold uint; lia|lia| |].
  { rewrite Hc, cells_cons, take_app_length'; [|by rewrite length_seg_cells]. unfold seg_cells. simpl. by rewrite Hgd. }
  apply IH; [done|done|lia|]. rewrite <- drop_drop, Hc, cells_cons. apply drop_app_length'. by rewrite length_seg_cells.
Qed.
End Copy.

(** *** Transfers between the disk and the guest *)
Section Transfer.
Context `{VMem.Spec M} `{DiskSpec D}.
Context (d0 : D) (m0 : M) (Hd0 : vd_ok d0) (Hm0 : VMem.ok m0).
Context (off : Z) (C : list cell) (Hoff : in_disk d0 off (Z.of_nat (length C))).

(** What can keep a transfer from ending: a fault of the disk, or a cell of the
    wrong direction or outside memory. *)
Definition faults : Prop := exists e, vd_fault (D := D) e.
Definition blocked (write : bool) : Prop := faults \/ ~ Forall (usable write m0) C.

Definition reached (write : bool) (k : nat) : Prop := (k <= length C)%nat /\ Forall (usable write m0) (take k C).

(** Read requests: a prefix of the cells has the bytes of the disk. *)
Definition in_done (k : nat) (s : D * M) : Prop :=
  reached true k /\ holds d0 s.1 (vd_byte d0) /\
  mem_holds m0 s.2 (scatter (VMem.byte m0) (take k C.*2) (span (vd_byte d0) off k)).

Lemma cell_of k addr n write i :
  take (Z.to_nat n) (drop k C) = (pair write <$> seqZ addr n) -> 0 <= i < n -> (write, addr + i) ∈ C.
Proof.
  intros Hc Hi. rewrite <- (take_drop k C). apply elem_of_app. right.
  rewrite <- (take_drop (Z.to_nat n) (drop k C)), Hc. apply elem_of_app. left.
  apply list_elem_of_fmap. eexists. split; [done|]. apply elem_of_seqZ. lia.
Qed.

Lemma out_of_memory k addr n write :
  take (Z.to_nat n) (drop k C) = (pair write <$> seqZ addr n) -> 0 < n -> VMem.len m0 < addr + n -> blocked write.
Proof.
  intros Hc Hn Hl. right. intros Hu. rewrite Forall_forall in Hu.
  destruct (Hu _ (cell_of k addr n write (n - 1) Hc ltac:(lia))) as [_ Hu']. simpl in Hu'. lia.
Qed.

Lemma reached_more k addr n write :
  reached write k -> 0 < n -> (k + Z.to_nat n <= length C)%nat -> 0 <= addr -> addr + n <= VMem.len m0 ->
  take (Z.to_nat n) (drop k C) = (pair write <$> seqZ addr n) -> reached write (k + Z.to_nat n).
Proof.
  intros [_ Hr] Hn Hk Ha Hl Hc. split; [done|]. rewrite take_more, Hc. apply Forall_app. split; [done|].
  apply Forall_fmap, Forall_forall. intros x Hx%elem_of_seqZ. split; simpl; [done|lia].
Qed.

Lemma reached_less k k' write : reached write k -> (k' <= k)%nat -> reached write k'.
Proof.
  intros [Hl Hr] Hk. split; [lia|]. replace k' with (k' `min` k)%nat by lia. rewrite <- take_take. by apply Forall_take.
Qed.

Lemma in_chunk_ok : chunk_ok in_done (blocked true) in_chunk off true C.
Proof.
  destruct Hoff as (Ho & _ & He). pose proof (vd_capacity d0 Hd0) as Hcap. unfold uint in Hcap.
  intros k addr n [d m] (Hk & Hd & Hm) Hn Ha Hkn Hc. simpl in Hd, Hm. destruct Hd as (D1 & D2 & D3). pose proof (proj1 Hk) as Hk'.
  unfold in_chunk. unfold st_bind at 1. unfold on_disk.
  pose proof (vd_read d (off + Z.of_nat k) (Z.to_nat n) D1 ltac:(unfold in_disk; lia)) as Hr.
  destruct (read_at _ _ d) as [r d']. destruct Hr as ((E1 & E2 & E3) & Hr).
  assert (holds d0 d' (vd_byte d0)) as Hd'.
  { split_and!; [done|lia|]. intros a Ha'. rewrite E3 by lia. by apply D3. }
  destruct Hr as [->|Hf].
  2:{ destruct r as [|e]; [done|]. cbn [map_err]. split; [done|]. split; [left; by exists e|]. by exists k. }
  cbn [map_err]. unfold guest_write. destruct Hm as (M1 & M2 & M3).
  rewrite (span_ext _ (vd_byte d0)) by (intros x Hx; apply D3; lia).
  set (bs := span (vd_byte d0) (off + Z.of_nat k) (Z.to_nat n)).
  assert (length bs = Z.to_nat n) as Hbs by (unfold bs; apply span_length).
  destruct (Z.le_gt_cases (addr + n) (VMem.len m)) as [Hin|Hout].
  - destruct (VMem.write_in m addr bs) as (m' & -> & W1 & W2 & W3); [done|done|apply Forall_span; intros x; by apply vd_byte_ok|lia|].
    cbn [map_err]. pose proof (VMem.len_ok m M1) as Hlen. unfold uint in Hlen. split; [|lia]. split; [|split; [done|]].
    { unfold uint in Ha. apply (reached_more k addr n); (done || lia). }
    split_and!; [done|by simpl; lia|]. intros a Ha'. cbn [snd]. rewrite W3, splice_scatter by lia.
    rewrite span_app, take_more, <- fmap_drop, <- (fmap_take _ (Z.to_nat n)), Hc, scatter_app by (rewrite length_take, span_length, length_fmap; lia).
    rewrite <- list_fmap_compose. rewrite Hbs, Z2Nat.id by lia.
    replace (snd ∘ pair true <$> seqZ addr n) with (seqZ addr n) by (symmetry; apply list_fmap_id).
    apply scatter_ext. apply M3. lia.
  - rewrite (VMem.write_out m addr bs) by (done || lia). cbn [map_err]. split; [done|].
    split; [by eapply (out_of_memory k addr n); [|lia..]|]. by exists k.
Qed.

(** Write requests: the disk has a prefix of the bytes in the cells. *)
Definition cell_bytes : list Z := VMem.byte m0 <$> C.*2.
Definition out_done (k : nat) (s : D * M) : Prop :=
  reached false k /\ s.2 = m0 /\ holds d0 s.1 (splice (vd_byte d0) off (take k cell_bytes)).

Lemma out_chunk_ok : chunk_ok out_done (blocked false) out_chunk off false C.
Proof.
  destruct Hoff as (Ho & _ & He). pose proof (vd_capacity d0 Hd0) as Hcap. unfold uint in Hcap.
  intros k addr n [d m] (Hk & Hm & Hd) Hn Ha Hkn Hc. simpl in Hd, Hm. subst m. pose proof (proj1 Hk) as Hk'. destruct Hd as (D1 & D2 & D3).
  unfold out_chunk. unfold st_bind at 1. unfold guest_read.
  destruct (Z.le_gt_cases (addr + n) (VMem.len m0)) as [Hin|Hout].
  2:{ destruct (read_out m0 addr (Z.to_nat n)) as [e ->]; [done|done|lia|]. cbn [map_err]. split; [done|].
      split; [by eapply (out_of_memory k addr n)|]. by exists k. }
  unfold uint in Ha. rewrite read_in by (done || lia). cbn [map_err]. unfold on_disk.
  set (bs := span (VMem.byte m0) addr (Z.to_nat n)).
  assert (length bs = Z.to_nat n) as Hbs by (unfold bs; apply span_length).
  pose proof (vd_write d (off + Z.of_nat k) bs D1 ltac:(apply Forall_span; intros x; by apply VMem.byte_u8) ltac:(unfold in_disk; lia)) as Hr.
  destruct (write_at _ _ d) as [r d']. destruct Hr as (j & (E1 & E2 & E3) & Hr).
  assert (take (Z.to_nat n) (drop k cell_bytes) = bs) as Hsub.
  { unfold cell_bytes, bs. rewrite <- !fmap_drop, <- !fmap_take, Hc, span_seqZ, Z2Nat.id by lia.
    by rewrite <- !list_fmap_compose. }
  assert (out_done (k + j `min` Z.to_nat n) (d', m0)) as Hdone.
  { split; [eapply reached_less; [apply (reached_more k addr n); (done || lia)|lia]|]. split; [done|]. split_and!; [done|simpl; lia|].
    intros a Ha'. cbn [fst]. rewrite E3 by lia.
    rewrite take_more, <- splice_app. rewrite length_take, Nat.min_l by (unfold cell_bytes; rewrite !length_fmap; lia).
    rewrite <- take_take, Hsub.
    apply splice_ext. apply D3. lia. }
  pose proof (VMem.len_ok m0 Hm0) as Hlen. unfold uint in Hlen.
  destruct Hr as [[-> ->]|Hf]; cbn [map_err].
  - rewrite Hbs, Nat.min_id in Hdone. split; [done|lia].
  - destruct r as [|e]; [done|]. split; [done|]. split; [left; by exists e|]. by eexists.
Qed.
End Transfer.

(** The request passes the checks before a transfer. *)
Definition transfer_valid (cap sector : Z) (segs : list segment) : Prop :=
  segs <> [] /\ total_len segs mod VIRTIO_BLK_SECTOR_SIZE = 0 /\
  sector * VIRTIO_BLK_SECTOR_SIZE + total_len segs <= cap.

#[export] Instance transfer_valid_dec cap sector segs : Decision (transfer_valid cap sector segs).
Proof. unfold transfer_valid. apply _. Defined.

Section TransferRequests.
Context `{VMem.Spec M} `{DiskSpec D}.
Implicit Types (d : D) (m : M).

Lemma transfer_start_eq sector segs d m :
  vd_ok d -> 0 <= sector -> 0 <= total_len segs ->
  transfer_start sector segs (total_len segs) (d, m) =
    (if decide (transfer_valid (capacity_bytes d) sector segs)
     then Ok (sector * VIRTIO_BLK_SECTOR_SIZE) else Err VIRTIO_BLK_S_IOERR, (d, m)).
Proof.
  intros Hd Hs Ht. pose proof (vd_capacity d Hd) as Hcap. unfold uint in Hcap. unfold transfer_start, require.
  destruct (decide (transfer_valid _ _ _)) as [(V1 & V2 & V3)|Hv].
  - rewrite bool_decide_false, V2 by done. simpl. unfold st_bind, or_fail, st_of_result, st_ret.
    rewrite checked_mul_ok by lia. simpl. rewrite checked_add_ok by lia. simpl.
    by rewrite (proj2 (Z.leb_le _ _)) by lia.
  - destruct (negb _) eqn:E; [|done]. apply negb_true_iff, orb_false_iff in E as [E1 E2].
    apply bool_decide_eq_false in E1. apply negb_false_iff, Z.eqb_eq in E2.
    unfold st_bind, or_fail, st_of_result, st_ret, checked_mul, checked_add.
    destruct (sector * 512 <? 2 ^ 64); cbn [ok_or]; [|done]. case_if; cbn [ok_or fst]; [|done].
    destruct (Z.leb_spec (sector * 512 + total_len segs) (capacity_bytes d)); [|done]. by destruct Hv.
Qed.

(** What a transfer leaves when the checks have passed. *)
Definition transferred (Done : nat -> D * M -> Prop) (bad : Prop) (n : nat) (o : result unit Z * (D * M)) : Prop :=
  match o with
  | (Ok _, s) => Done n s
  | (Err e, s) => stopped Done bad e s
  end.

Context (d : D) (m : M) (sector : Z) (segs : list segment).
Context (Hd : vd_ok d) (Hm : VMem.ok m) (Hs : 0 <= sector) (Hok : Forall seg_ok segs) (Hpos : Forall (fun s => 0 < s.2) segs).
Abbreviation off := (sector * VIRTIO_BLK_SECTOR_SIZE).

Lemma total_cells : Z.of_nat (length (cells segs)) = total_len segs.
Proof. apply length_cells. eapply Forall_impl; [exact Hpos|]. simpl. lia. Qed.

Lemma cell_bad write c :
  c ∈ cells segs -> c.1 <> write \/ 2 ^ 64 <= c.2 -> blocked (D := D) m (cells segs) write.
Proof.
  intros Hc Hb. right. intros Hu. rewrite Forall_forall in Hu. destruct (Hu c Hc) as [U1 U2].
  pose proof (VMem.len_ok m Hm) as Hl. unfold uint in Hl. destruct Hb; [done|lia].
Qed.

Lemma do_in_ok :
  do_in sector segs (total_len segs) (d, m) = (Err VIRTIO_BLK_S_IOERR, (d, m)) /\ ~ transfer_valid (capacity_bytes d) sector segs \/
  transfer_valid (capacity_bytes d) sector segs /\
  transferred (in_done d m off (cells segs)) (blocked (D := D) m (cells segs) true) (length (cells segs))
    (do_in sector segs (total_len segs) (d, m)).
Proof.
  pose proof total_cells as Ht. pose proof (vd_capacity d Hd) as Hcap. unfold uint in Hcap.
  unfold do_in, st_bind. rewrite transfer_start_eq by (done || lia).
  destruct (decide (transfer_valid _ _ _)) as [Hv|Hv]; [right|by left]. split; [done|]. pose proof Hv as (_ & _ & V3).
  replace off with (off + Z.of_nat 0) at 2 by lia.
  apply (copy_segments_ok _ _ _ off true (cells segs)); try done; try lia.
  - apply in_chunk_ok; [done|]. unfold in_disk. lia.
  - intros c. apply cell_bad.
  - split; [split; [lia|constructor]|]. split; [by split_and!|]. by apply mem_holds_refl.
Qed.

Lemma do_out_ok :
  do_out sector segs (total_len segs) (d, m) = (Err VIRTIO_BLK_S_IOERR, (d, m)) /\ ~ transfer_valid (capacity_bytes d) sector segs \/
  transfer_valid (capacity_bytes d) sector segs /\
  transferred (out_done d m off (cells segs)) (blocked (D := D) m (cells segs) false) (length (cells segs))
    (do_out sector segs (total_len segs) (d, m)).
Proof.
  pose proof total_cells as Ht. pose proof (vd_capacity d Hd) as Hcap. unfold uint in Hcap.
  unfold do_out, st_bind. rewrite transfer_start_eq by (done || lia).
  destruct (decide (transfer_valid _ _ _)) as [Hv|Hv]; [right|by left]. split; [done|]. pose proof Hv as (_ & _ & V3).
  replace off with (off + Z.of_nat 0) at 2 by lia.
  apply (copy_segments_ok _ _ _ off false (cells segs)); try done; try lia.
  - apply out_chunk_ok; [done|done|]. unfold in_disk. lia.
  - intros d'. apply negb_true_iff.
  - intros c. apply cell_bad.
  - split; [split; [lia|constructor]|]. split; [done|]. split_and!; [done..|]. intros a _. by rewrite splice_nil.
Qed.
End TransferRequests.

(** *** Zeroing *)

(** Ranges as (offset, length). *)
Definition in_ranges (rs : list (Z * Z)) (a : Z) : bool := existsb (fun r => (r.1 <=? a) && (a <? r.1 + r.2)) rs.
Definition zeros (rs : list (Z * Z)) (f : Z -> Z) (a : Z) : Z := if in_ranges rs a then 0 else f a.

Lemma zeros_app rs1 rs2 f a : zeros (rs1 ++ rs2) f a = zeros rs2 (zeros rs1 f) a.
Proof. unfold zeros, in_ranges. rewrite existsb_app. by destruct (existsb _ rs1), (existsb _ rs2). Qed.

Lemma zeros_ext rs f g a : f a = g a -> zeros rs f a = zeros rs g a.
Proof. unfold zeros. by intros ->. Qed.

Lemma in_ranges_one off n a : in_ranges [(off, n)] a = (off <=? a) && (a <? off + n).
Proof. unfold in_ranges. simpl. apply orb_false_r. Qed.

Lemma in_ranges_split off j n a :
  0 <= j <= n -> in_ranges [(off, n)] a = in_ranges ([(off, j)] ++ [(off + j, n - j)]) a.
Proof.
  intros Hj. unfold in_ranges. simpl. rewrite !orb_false_r.
  destruct (Z.leb_spec off a), (Z.ltb_spec a (off + n)), (Z.ltb_spec a (off + j)), (Z.leb_spec (off + j) a),
    (Z.ltb_spec a (off + j + (n - j))); simpl; (done || lia).
Qed.

Lemma splice_zeros f off n a : splice f off (replicate n 0) a = zeros [(off, Z.of_nat n)] f a.
Proof.
  unfold zeros. rewrite in_ranges_one. unfold splice. rewrite length_replicate. case_if; [|done]. bool_hyps.
  by rewrite lookup_replicate_2 by lia.
Qed.

Section Zeroing.
Context `{DiskSpec D} {M : Type} `{VMem.GuestMemory M}.
Implicit Types (d : D) (m : M).

(** [d'] is [d] outside the ranges. *)
Definition spares (rs : list (Z * Z)) d d' : Prop :=
  vd_ok d' /\ capacity_bytes d' = capacity_bytes d /\
  forall a, 0 <= a < capacity_bytes d -> in_ranges rs a = false -> vd_byte d' a = vd_byte d a.

Lemma spares_refl rs d : vd_ok d -> spares rs d d.
Proof. intros Hd. split; [done|]. by split. Qed.

Lemma holds_spares rs d d' : holds d d' (zeros rs (vd_byte d)) -> spares rs d d'.
Proof. intros (O & C & B). split; [done|]. split; [done|]. intros a Ha Hr. rewrite B by done. unfold zeros. by rewrite Hr. Qed.

Lemma spares_trans rs1 rs2 d d1 d2 : spares rs1 d d1 -> spares rs2 d1 d2 -> spares (rs1 ++ rs2) d d2.
Proof.
  intros (O1 & C1 & B1) (O2 & C2 & B2). split; [done|]. split; [congruence|]. intros a Ha Hr. unfold in_ranges in *.
  rewrite existsb_app in Hr. apply orb_false_iff in Hr as [R1 R2]. rewrite B2 by (done || lia). by apply B1.
Qed.

Lemma spares_weaken rs1 rs2 d d' :
  (forall a, in_ranges rs1 a = true -> in_ranges rs2 a = true) -> spares rs1 d d' -> spares rs2 d d'.
Proof.
  intros Hr (O & C & B). split; [done|]. split; [done|]. intros a Ha Ha'. apply B; [done|]. destruct (in_ranges rs1 a) eqn:E; [|done].
  apply Hr in E. congruence.
Qed.

Lemma zeros_trans rs1 rs2 d d1 d2 :
  holds d d1 (zeros rs1 (vd_byte d)) -> holds d1 d2 (zeros rs2 (vd_byte d1)) ->
  holds d d2 (zeros (rs1 ++ rs2) (vd_byte d)).
Proof.
  intros (O1 & C1 & B1) (O2 & C2 & B2). split; [done|]. split; [congruence|]. intros a Ha. rewrite B2, zeros_app by lia.
  apply zeros_ext. by apply B1.
Qed.

(** After zeroing the ranges; the guest's memory is not touched. *)
Definition zeroed (rs : list (Z * Z)) d m (o : result unit Z * (D * M)) : Prop :=
  match o with
  | (Ok _, (d', m')) => m' = m /\ holds d d' (zeros rs (vd_byte d))
  | (Err e, (d', m')) => e = VIRTIO_BLK_S_IOERR /\ faults (D := D) /\ m' = m /\ spares rs d d'
  end.

Lemma zeroed_nil d m : vd_ok d -> zeroed [] d m (Ok tt, (d, m)).
Proof. intros Hd. split; [done|]. split; [done|]. by split. Qed.

Lemma zeroed_ext rs1 rs2 d m o :
  (forall a, in_ranges rs1 a = in_ranges rs2 a) -> zeroed rs1 d m o -> zeroed rs2 d m o.
Proof.
  intros Hr. destruct o as [[u|e] [d' m']].
  - intros (-> & O & C & B). split; [done|]. split; [done|]. split; [done|]. intros a Ha. unfold zeros. rewrite <- Hr. by apply B.
  - intros (-> & Hf & -> & Hs). split; [done|]. split; [done|]. split; [done|]. eapply spares_weaken; [|exact Hs]. intros a. by rewrite Hr.
Qed.

Lemma zeroed_empty off d m : vd_ok d -> zeroed [(off, 0)] d m (Ok tt, (d, m)).
Proof.
  intros Hd. eapply zeroed_ext; [|by apply zeroed_nil]. intros a. rewrite in_ranges_one. unfold in_ranges. simpl.
  destruct (Z.leb_spec off a), (Z.ltb_spec a (off + 0)); (done || lia).
Qed.

(** One step and the rest. *)
Lemma zeroed_seq rs1 rs2 d m (step : io M D unit) (rest : io M D unit) :
  zeroed rs1 d m (step (d, m)) ->
  (forall d1, vd_ok d1 -> capacity_bytes d1 = capacity_bytes d -> zeroed rs2 d1 m (rest (d1, m))) ->
  zeroed (rs1 ++ rs2) d m ((let! _ := step in rest) (d, m)).
Proof.
  intros Hs Hr. unfold st_bind. destruct (step (d, m)) as [[u|e] [d1 m1]].
  - destruct Hs as (-> & Hh). pose proof Hh as (O1 & C1 & _). specialize (Hr d1 O1 C1). destruct (rest (d1, m)) as [[u'|e] [d2 m2]].
    + destruct Hr as (-> & Hh2). split; [done|]. by eapply zeros_trans.
    + destruct Hr as (-> & Hf & -> & Hsp). split; [done|]. split; [done|]. split; [done|]. eapply spares_trans; [by apply holds_spares|done].
  - destruct Hs as (-> & Hf & -> & Hsp). split; [done|]. split; [done|]. split; [done|]. eapply spares_weaken; [|exact Hsp]. intros a Ha.
    unfold in_ranges in *. rewrite existsb_app. by rewrite Ha.
Qed.

Lemma zero_write_ok d m off n :
  vd_ok d -> in_disk d off (Z.of_nat n) -> zeroed [(off, Z.of_nat n)] d m (on_disk (write_at off (replicate n 0)) (d, m)).
Proof.
  intros Hd Hin. unfold on_disk. pose proof (vd_write d off (replicate n 0) Hd) as Hw. rewrite length_replicate in Hw.
  destruct (write_at _ _ d) as [r d']. destruct Hw as (k & Hh & Hr); [by apply Forall_replicate|done|].
  rewrite take_replicate in Hh. destruct Hr as [[-> ->]|Hf]; cbn [map_err].
  - split; [done|]. rewrite Nat.min_id in Hh. destruct Hh as (O & C & B). split; [done|]. split; [done|]. intros a Ha.
    by rewrite B, splice_zeros.
  - destruct r as [|e]; [done|]. split; [done|]. split; [by exists e|]. split; [done|]. destruct Hh as (O & C & B).
    split; [done|]. split; [done|]. intros a Ha Hr. rewrite B, splice_zeros by done. unfold zeros. rewrite in_ranges_one in *.
    case_if; [|done]. bool_hyps. rewrite (proj2 (Z.leb_le _ _)), (proj2 (Z.ltb_lt _ _)) in Hr by lia. done.
Qed.

Lemma zero_chunks_ok fuel len d m off n :
  0 < len -> (chunks_of len n <= fuel)%nat -> vd_ok d -> in_disk d off n -> zeroed [(off, n)] d m (zero_chunks fuel len off n (d, m)).
Proof.
  intros Hl. revert d off n. induction fuel as [|fuel IH]; intros d off n Hf Hd Hin; simpl.
  { destruct (Z.eq_dec n 0) as [->|Hne]; [|pose proof (chunks_of_pos len n Hl ltac:(unfold in_disk in Hin; lia)); lia].
    by apply zeroed_empty. }
  destruct (Z.eqb_spec n 0) as [->|Hne].
  { by apply zeroed_empty. }
  pose proof Hin as (Ho & Hn & He). pose proof (vd_capacity d Hd) as Hcap. unfold uint in Hcap.
  set (j := Z.min n len). assert (0 < j <= n) as Hj by (unfold j; lia).
  eapply zeroed_ext; [intros a; symmetry; apply (in_ranges_split off j n); lia|].
  apply zeroed_seq.
  - pose proof (zero_write_ok d m off (Z.to_nat j) Hd) as Hw. rewrite Z2Nat.id in Hw by lia. apply Hw. unfold in_disk. lia.
  - intros d1 Hd1 Hc1. unfold st_bind, or_fail, st_of_result. rewrite checked_add_ok by lia. cbn [ok_or].
    replace (saturating_sub n j) with (n - j) by (unfold saturating_sub; lia). apply IH; [|done|unfold in_disk; lia].
    replace (n - j) with (saturating_sub n j) by (unfold saturating_sub; lia). by apply chunks_of_step; [done|lia|].
Qed.
Lemma in_ranges_sub off j n a : 0 <= j <= n -> in_ranges [(off, j)] a = true -> in_ranges [(off, n)] a = true.
Proof. intros Hj Ha. rewrite (in_ranges_split off j n) by done. unfold in_ranges in *. rewrite existsb_app. by rewrite Ha. Qed.

(** A chunk that reads as zero is zero; another one is overwritten. *)
Lemma scan_step_ok d d' m off n :
  vd_ok d -> in_disk d off (Z.of_nat n) -> holds d d' (vd_byte d) ->
  zeroed [(off, Z.of_nat n)] d m
    ((if existsb (fun b => nz b) (span (vd_byte d) off n) then on_disk (write_at off (replicate n 0)) else st_ret tt) (d', m)).
Proof.
  intros Hd (Ho & Hn & He) (O & C & B). destruct (existsb _ _) eqn:Hnz.
  - pose proof (zero_write_ok d' m off n O ltac:(unfold in_disk; lia)) as Hw.
    destruct (on_disk _ (d', m)) as [[u|e] [d2 m2]].
    + destruct Hw as (-> & O2 & C2 & B2). split; [done|]. split; [done|]. split; [congruence|]. intros a Ha.
      rewrite B2 by lia. apply zeros_ext. by apply B.
    + destruct Hw as (-> & Hf & -> & O2 & C2 & B2). split; [done|]. split; [done|]. split; [done|]. split; [done|].
      split; [congruence|]. intros a Ha Hr. rewrite B2 by (done || lia). by apply B.
  - split; [done|]. split; [done|]. split; [done|]. intros a Ha. rewrite B by done. unfold zeros. rewrite in_ranges_one.
    case_if; [|done]. bool_hyps. destruct (Z.eqb_spec (vd_byte d a) 0) as [|Hne]; [done|exfalso].
    apply not_true_iff_false in Hnz. apply Hnz. apply existsb_exists. exists (vd_byte d a). split.
    + unfold span. apply in_map_iff. exists (Z.to_nat (a - off)). split; [f_equal; lia|]. apply in_seq. lia.
    + by apply negb_true_iff, Z.eqb_neq.
Qed.

(** [true] asks for the fallback. *)
Definition scanned (rs : list (Z * Z)) d m (o : result bool Z * (D * M)) : Prop :=
  match o with
  | (Ok false, s) => zeroed rs d m (Ok tt, s)
  | (Ok true, (d', m')) => faults (D := D) /\ m' = m /\ spares rs d d'
  | (Err e, s) => zeroed rs d m (Err e, s)
  end.

Lemma scan_chunks_ok fuel len d m off n :
  0 < len -> (chunks_of len n <= fuel)%nat -> vd_ok d -> in_disk d off n -> scanned [(off, n)] d m (scan_chunks fuel len off n (d, m)).
Proof.
  intros Hl. revert d off n. induction fuel as [|fuel IH]; intros d off n Hf Hd Hin; simpl.
  { destruct (Z.eq_dec n 0) as [->|Hne]; [|pose proof (chunks_of_pos len n Hl ltac:(unfold in_disk in Hin; lia)); lia].
    by apply zeroed_empty. }
  destruct (Z.eqb_spec n 0) as [->|Hne]; [by apply zeroed_empty|].
  pose proof Hin as (Ho & Hn & He). pose proof (vd_capacity d Hd) as Hcap. unfold uint in Hcap.
  set (j := Z.min n len). assert (0 < j <= n) as Hj by (unfold j; lia).
  unfold st_bind at 1. unfold try_disk.
  pose proof (vd_read d off (Z.to_nat j) Hd ltac:(unfold in_disk; lia)) as Hr. destruct (read_at _ _ d) as [r d'].
  destruct Hr as (Hh & [->|Hff]).
  2:{ destruct r as [|e]; [done|]. split; [by exists e|]. split; [done|]. destruct Hh as (O & C & B). split; [done|]. split; [done|].
      intros a Ha _. by apply B. }
  pose proof (scan_step_ok d d' m off (Z.to_nat j) Hd ltac:(unfold in_disk; lia) Hh) as Hs. rewrite Z2Nat.id in Hs by lia.
  unfold st_bind. destruct (_ (d', m)) as [[u|e] [d1 m1]] eqn:Estep.
  2:{ eapply zeroed_ext; [intros a; symmetry; apply (in_ranges_split off j n); lia|].
      destruct Hs as (-> & Hff & -> & Hsp). split; [done|]. split; [done|]. split; [done|].
      eapply spares_weaken; [|exact Hsp]. intros a Ha. unfold in_ranges in *. rewrite existsb_app. by rewrite Ha. }
  rewrite checked_add_ok by lia. destruct Hs as (-> & Hz). pose proof Hz as (O1 & C1 & B1).
  replace (saturating_sub n j) with (n - j) by (unfold saturating_sub; lia).
  assert (scanned [(off + j, n - j)] d1 m (scan_chunks fuel len (off + j) (n - j) (d1, m))) as Hrest.
  { apply IH; [|done|unfold in_disk; lia]. replace (n - j) with (saturating_sub n j) by (unfold saturating_sub; lia).
    by apply chunks_of_step; [done|lia|]. }
  destruct (scan_chunks _ _ _ _ _) as [[[|]|e] [d2 m2]].
  - destruct Hrest as (Hff & -> & Hsp). split; [done|]. split; [done|].
    eapply spares_weaken; [|eapply spares_trans; [by apply holds_spares|exact Hsp]].
    intros a. by rewrite <- (in_ranges_split off j n) by lia.
  - destruct Hrest as (-> & Hz2). eapply zeroed_ext; [intros a; symmetry; apply (in_ranges_split off j n); lia|].
    split; [done|]. by eapply zeros_trans.
  - eapply zeroed_ext; [intros a; symmetry; apply (in_ranges_split off j n); lia|].
    destruct Hrest as (-> & Hff & -> & Hsp). split; [done|]. split; [done|]. split; [done|].
    eapply spares_trans; [by apply holds_spares|done].
Qed.
(** Whatever the range held before, zeroing it gives the same disk. *)
Lemma zeroed_after rs d d1 m o : spares rs d d1 -> zeroed rs d1 m o -> zeroed rs d m o.
Proof.
  intros Hs. pose proof Hs as (O & C & B). destruct o as [[u|e] [d2 m2]].
  - intros (-> & O2 & C2 & B2). split; [done|]. split; [done|]. split; [congruence|]. intros a Ha. rewrite B2 by lia.
    unfold zeros. case_if; [done|]. by apply B.
  - intros (-> & Hf & -> & Hs2). split; [done|]. split; [done|]. split; [done|].
    eapply spares_weaken; [|exact (spares_trans _ _ _ _ _ Hs Hs2)]. intros a. unfold in_ranges. rewrite existsb_app.
    by intros [?|?]%orb_true_iff.
Qed.

Lemma unmap_range_ok zl rl d m off n :
  0 < zl -> 0 < rl -> vd_ok d -> in_disk d off n -> zeroed [(off, n)] d m (unmap_range zl rl off n (d, m)).
Proof.
  intros Hz Hr Hd Hin. pose proof Hin as (Ho & Hn & He). unfold unmap_range. unfold st_bind at 1. unfold try_disk.
  assert (forall d1, spares [(off, n)] d d1 -> zeroed [(off, n)] d m (zero_chunks (chunks_of zl n) zl off n (d1, m))) as Hfall.
  { intros d1 Hs. pose proof Hs as (O1 & C1 & _). eapply zeroed_after; [exact Hs|].
    apply zero_chunks_ok; try done. unfold in_disk. lia. }
  pose proof (vd_discard d off n Hd Hin) as Hdis. destruct (discard_range off n d) as [r d1].
  destruct Hdis as [(-> & O1 & C1 & B1)|(Hf & O1 & C1 & B1)].
  - assert (spares [(off, n)] d d1) as Hs.
    { split; [done|]. split; [done|]. intros a Ha Hr'. rewrite in_ranges_one in Hr'. apply B1; [done|].
      destruct (Z.leb_spec off a), (Z.ltb_spec a (off + n)); (done || lia). }
    pose proof (scan_chunks_ok (chunks_of rl n) rl d1 m off n Hr ltac:(lia) O1 ltac:(unfold in_disk; lia)) as Hsc.
    unfold st_bind. destruct (scan_chunks _ _ _ _ _) as [[[|]|e] [d2 m2]].
    + destruct Hsc as (_ & -> & Hs2). apply Hfall. eapply spares_weaken; [|exact (spares_trans _ _ _ _ _ Hs Hs2)].
      intros a. unfold in_ranges. rewrite existsb_app. by intros [?|?]%orb_true_iff.
    + by eapply zeroed_after.
    + by eapply zeroed_after.
  - destruct r as [|e]; [done|]. unfold st_bind, st_ret. apply Hfall. split; [done|]. split; [done|]. intros a Ha _. by apply B1.
Qed.

(** *** Lists of ranges *)
Definition range_of (v : Z * Z * Z) : Z * Z := v.1.
Definition ranges_ok d (vs : list (Z * Z * Z)) : Prop := Forall (fun v => in_disk d v.1.1 v.1.2) vs.

Lemma ranges_ok_same d d' vs : capacity_bytes d' = capacity_bytes d -> ranges_ok d vs -> ranges_ok d' vs.
Proof. intros Hc Hv. eapply Forall_impl; [exact Hv|]. intros v (Ho & Hl & He). unfold in_disk. lia. Qed.

Lemma skip_empty_range off rs d m o : zeroed rs d m o -> zeroed ((off, 0) :: rs) d m o.
Proof.
  apply zeroed_ext. intros a. change ((off, 0) :: rs) with ([(off, 0)] ++ rs). unfold in_ranges. rewrite existsb_app. simpl.
  destruct (Z.leb_spec off a), (Z.ltb_spec a (off + 0)); (done || lia).
Qed.

Lemma discard_ranges_ok len vs d m :
  0 < len -> vd_ok d -> ranges_ok d vs -> zeroed (range_of <$> vs) d m (discard_ranges len vs (d, m)).
Proof.
  intros Hl. revert d. induction vs as [|[[off n] fl] vs IH]; intros d Hd Hv; simpl; [by apply zeroed_nil|].
  apply Forall_cons in Hv as [Hin Hv]. simpl in Hin. destruct (Z.eqb_spec n 0) as [->|Hne].
  { apply skip_empty_range. by apply IH. }
  apply (zeroed_seq [(off, n)]); [by apply unmap_range_ok|]. intros d1 Hd1 Hc1. apply IH; [done|]. by eapply ranges_ok_same.
Qed.

Lemma zero_ranges_ok len rl vs d m :
  0 < len -> (existsb (fun v => wants_unmap v.2) vs = true -> 0 < rl) -> vd_ok d -> ranges_ok d vs ->
  zeroed (range_of <$> vs) d m (zero_ranges len rl vs (d, m)).
Proof.
  intros Hl. revert d. induction vs as [|[[off n] fl] vs IH]; intros d Hr Hd Hv; simpl; [by apply zeroed_nil|].
  apply Forall_cons in Hv as [Hin Hv]. simpl in Hin, Hr.
  assert (existsb (fun v => wants_unmap v.2) vs = true -> 0 < rl) as Hr'.
  { intros E. apply Hr. rewrite E. apply orb_true_r. }
  destruct (Z.eqb_spec n 0) as [->|Hne].
  { apply skip_empty_range. by apply IH. }
  apply (zeroed_seq [(off, n)]).
  - destruct (wants_unmap fl) eqn:Hw; [apply unmap_range_ok; try done; by apply Hr; rewrite ?Hw|by apply zero_chunks_ok].
  - intros d1 Hd1 Hc1. apply IH; [done|done|]. by eapply ranges_ok_same.
Qed.
End Zeroing.

Lemma zero_buf_len_pos `{Target} blk : 0 < zero_buf_len blk.
Proof. unfold zero_buf_len. lia. Qed.

(** ** The in-memory disk keeps the contract *)
Section MemDiskFacts.
Context `{Target}.

#[global] Instance mem_disk_view : DiskView MemDisk.t := {|
  vd_ok d := Forall byte_ok d.(MemDisk.data) /\ Z.of_nat (length d.(MemDisk.data)) < 2 ^ 64;
  vd_byte d a := default 0 (d.(MemDisk.data) !! Z.to_nat a);
  vd_fault _ := False;
|}.

#[global] Instance mem_disk_reliable : ReliableDisk MemDisk.t.
Proof. split. by intros e []. Qed.

#[global] Instance mem_disk_spec : DiskSpec MemDisk.t.
Proof.
  split; intros d.
  - intros [_ Hl]. unfold uint. simpl. lia.
  - intros a [Hb _]. by apply MemFacts.byte_default.
  - intros off n [Hb Hl] (Ho & _ & He). simpl in *. rewrite checked_add_ok by lia. cbn [ok_or result_bind]. unfold ensure.
    rewrite (proj2 (Z.leb_le _ _)) by lia. split; [by split_and!|]. left. f_equal. unfold slice.
    replace (Z.to_nat off + n - Z.to_nat off)%nat with n by lia. rewrite (span_take_drop _ 0) by lia. f_equal. lia.
  - intros off n [Hb Hl] Ho He. simpl in *. destruct (checked_range_out off (Z.of_nat n) _ He) as [e E]. unfold checked_range in E.
    exists e. by rewrite E.
  - intros off src [Hb Hl] Hs (Ho & _ & He). simpl in *. rewrite checked_add_ok by lia. cbn [ok_or result_bind]. unfold ensure.
    rewrite (proj2 (Z.leb_le _ _)) by lia. exists (length src). rewrite firstn_all. split; [|by left].
    unfold holds. simpl. rewrite !length_app, length_take, length_drop. split; [split|split].
    + apply Forall_app. split; [by apply Forall_take|]. apply Forall_app. split; [done|by apply Forall_drop].
    + lia.
    + lia.
    + intros a Ha. rewrite MemFacts.patch_byte by lia. by rewrite !Z2Nat.id by lia.
  - intros off src [Hb Hl] Ho He. simpl in *. destruct (checked_range_out off (Z.of_nat (length src)) _ He) as [e E]. unfold checked_range in E.
    exists e. by rewrite E.
  - intros [Hb Hl]. simpl. unfold st_ret. split; [by split_and!|by left].
  - intros off len [Hb Hl] (Ho & Hn & He). simpl in *. rewrite check_discard_ok by lia. left. by split_and!.
  - intros off len _ Ho Hn He. simpl in *. destruct (check_discard_out _ _ _ Hn He) as [e E]. exists e. by rewrite E.
Qed.
End MemDiskFacts.

(** ** Configuration space *)
Lemma config_length c : length (VirtioBlkConfig.bytes c) = 60%nat.
Proof. unfold VirtioBlkConfig.bytes. by rewrite !length_app, !to_le_bytes_length, !length_replicate. Qed.

(** A read at any offset and of any length sees the structure followed by zeros. *)
Lemma config_read_exact `{Target} c offset n k :
  0 <= offset -> (k < n)%nat ->
  VirtioBlkConfig.read c offset n !! k = Some (default 0 (VirtioBlkConfig.bytes c !! (Z.to_nat offset + k)%nat)).
Proof.
  intros Ho Hk. pose proof (config_length c) as Hl. unfold VirtioBlkConfig.read.
  assert ((60 <= Z.to_nat offset)%nat -> replicate n 0 !! k = Some (default 0 (VirtioBlkConfig.bytes c !! (Z.to_nat offset + k)%nat))) as Hzero.
  { intros Hge. by rewrite lookup_replicate_2, lookup_ge_None_2 by lia. }
  unfold try_usize. pose proof usize_max_ge. destruct (Z.leb_spec offset usize_max) as [Hu|Hu]; [|apply Hzero; lia].
  destruct (Nat.leb_spec 60 (Z.to_nat offset)) as [Hge|Hlt]; [by apply Hzero|].
  set (e := Nat.min _ 60). assert (e = Nat.min (Z.to_nat offset + n) 60) as ->.
  { unfold e, checked_add. destruct (Z.ltb_spec (Z.of_nat (Z.to_nat offset) + Z.of_nat n) (2 ^ usize_bits)); [lia|].
    unfold usize_max in *. lia. }
  unfold slice. destruct (decide (Z.to_nat offset + k < 60)%nat) as [Hin|Hout].
  - rewrite lookup_app_l by (rewrite length_take, length_drop; lia). rewrite lookup_take_lt, lookup_drop by lia.
    destruct (lookup_lt_is_Some_2 (VirtioBlkConfig.bytes c) (Z.to_nat offset + k)) as [x ->]; [lia|done].
  - rewrite lookup_app_r by (rewrite length_take, length_drop; lia). rewrite lookup_replicate_2 by (rewrite length_take, length_drop; lia).
    by rewrite lookup_ge_None_2 by lia.
Qed.
