(* ===== verification/BlkChain.v ===== *)
(** * The parts of a virtio block chain

    How the device cuts a chain into the header, the data segments and the
    entries of a segment table, stated on the cells of the chain: the result
    depends on the bytes only, not on how they are spread over descriptors. *)

From S2P Require Import Prelude Bytes GuestMem Virtq VirtqFacts Storage StorageFacts VirtioBlk BlkFacts.

(** ** Cursors *)

(** A position in a list of segments, and the cells from there on. *)
Definition cursor_ok (rest : list segment) (off : Z) : Prop :=
  0 <= off /\ match rest with [] => off = 0 | s :: _ => off <= s.2 end.
Definition from (rest : list segment) (off : Z) : list cell := drop (Z.to_nat off) (cells rest).

Lemma from_0 rest : from rest 0 = cells rest.
Proof. done. Qed.

Lemma from_cons s tl off : 0 <= off <= s.2 -> from (s :: tl) off = drop (Z.to_nat off) (seg_cells s) ++ cells tl.
Proof. intros Ho. unfold from. rewrite cells_cons, drop_app_le; [done|]. rewrite length_seg_cells. lia. Qed.

Lemma cursor_ok_0 rest : Forall seg_ok rest -> cursor_ok rest 0.
Proof. intros Hr. split; [done|]. destruct Hr as [|s tl (_ & _ & Hs & _)]; [done|lia]. Qed.

Lemma seg_cells_drop s off :
  0 <= off <= s.2 ->
  drop (Z.to_nat off) (seg_cells s) =
    (pair (Descriptor.is_write_only s.1.1) <$> seqZ (s.1.1.(Descriptor.addr) + s.1.2 + off) (s.2 - off)).
Proof. intros Ho. by destruct (take_drop_seqZ (pair (Descriptor.is_write_only s.1.1)) (seg_cells s) _ s.2 off Ho eq_refl). Qed.

Section Gather.
Context `{VMem.Spec M} (m : M) (Hm : VMem.ok m) (guard : Descriptor.t -> bool).

Definition present (c : cell) : Prop := 0 <= c.2 < VMem.len m.
Definition values (cs : list cell) : list Z := VMem.byte m <$> cs.*2.

(** The first [k] cells behind the cursor lie in memory, in segments that pass
    the test. *)
Definition fits (k : nat) (off : Z) (rest : list segment) : Prop :=
  exists hs tl, rest = hs ++ tl /\ Forall (fun s => guard (seg_desc s) = true) hs /\
    (k <= length (from hs off))%nat /\ Forall present (take k (from hs off)).

Lemma fits_0 off rest : fits 0 off rest.
Proof. exists [], rest. split; [done|]. split; [done|]. split; [simpl; lia|done]. Qed.

Lemma fits_nil k off : fits k off [] -> k = 0%nat.
Proof.
  intros (hs & tl & E & _ & Hk & _). symmetry in E. apply app_nil in E as [-> ->]. unfold from in Hk.
  rewrite length_drop in Hk. simpl in Hk. lia.
Qed.

Lemma fits_cons k off s tl :
  (0 < k)%nat -> 0 <= off <= s.2 ->
  let j := Nat.min k (Z.to_nat (s.2 - off)) in
  fits k off (s :: tl) <->
  guard (seg_desc s) = true /\ Forall present (take j (drop (Z.to_nat off) (seg_cells s))) /\ fits (k - j) 0 tl.
Proof.
  intros Hk Ho j. assert (length (drop (Z.to_nat off) (seg_cells s)) = Z.to_nat (s.2 - off)) as Hl
    by (rewrite length_drop, length_seg_cells; lia).
  assert (forall hs, take k (from (s :: hs) off) = take j (drop (Z.to_nat off) (seg_cells s)) ++ take (k - j) (cells hs)) as Htk.
  { intros hs. rewrite from_cons, take_app, Hl by done. f_equal; [|f_equal; lia].
    destruct (decide (k <= Z.to_nat (s.2 - off))%nat); [f_equal; lia|]. by rewrite !take_ge by lia. }
  split.
  - intros (hs & tl' & E & Hg & Hlen & Hp). destruct hs as [|s' hs].
    { unfold from in Hlen. rewrite length_drop in Hlen. simpl in Hlen. lia. }
    simplify_eq/=. apply Forall_cons in Hg as [Hgs Hg]. rewrite Htk in Hp. apply Forall_app in Hp as [Hp1 Hp2].
    split; [done|]. split; [done|]. exists hs, tl'. rewrite from_cons, length_app, Hl in Hlen by done. rewrite from_0.
    split; [done|]. split; [done|]. split; [lia|done].
  - intros (Hgs & Hp1 & hs & tl' & -> & Hg & Hlen & Hp2). rewrite from_0 in *. exists (s :: hs), tl'. split; [done|].
    split; [by apply Forall_cons|]. rewrite Htk. split; [|by apply Forall_app]. rewrite from_cons, length_app, Hl by done. lia.
Qed.

(** The bytes behind the cursor, and the new cursor. *)
Record gathered (k : nat) (rest : list segment) (off : Z) (buf buf' : list Z) (rest' : list segment) (off' : Z) : Prop := {
  g_fits : fits k off rest;
  g_len : (k <= length (from rest off))%nat;
  g_buf : buf' = buf ++ values (take k (from rest off));
  g_from : from rest' off' = drop k (from rest off);
  g_cursor : cursor_ok rest' off';
  g_suffix : exists pre, rest = pre ++ rest';
}.

Lemma seg_read s off (j : nat) :
  seg_ok s -> 0 <= off <= s.2 -> (0 < j)%nat -> Z.of_nat j <= s.2 - off ->
  let cs := take j (drop (Z.to_nat off) (seg_cells s)) in
  match checked_add 64 s.1.1.(Descriptor.addr) (s.1.2 + off) with
  | None => ~ Forall present cs
  | Some addr =>
      match VMem.read m addr j with
      | Ok bytes => bytes = values cs /\ Forall present cs
      | Err _ => ~ Forall present cs
      end
  end.
Proof.
  intros [[Ha Hl] (So & Sl & Se)] Ho Hj Hjl. unfold uint in Ha, Hl. pose proof (VMem.len_ok m Hm) as Hlen. unfold uint in Hlen.
  set (base := s.1.1.(Descriptor.addr) + s.1.2 + off). intros cs.
  assert (cs = (pair (Descriptor.is_write_only s.1.1) <$> seqZ base (Z.of_nat j))) as Hcs.
  { unfold cs. rewrite seg_cells_drop by done. fold base.
    destruct (take_drop_seqZ (pair (Descriptor.is_write_only s.1.1)) _ base (s.2 - off) (Z.of_nat j) ltac:(lia) eq_refl) as [Ht _].
    by rewrite Nat2Z.id in Ht. }
  assert (forall i, 0 <= i < Z.of_nat j -> VMem.len m <= base + i -> ~ Forall present cs) as Hout.
  { intros i Hi Hge Hp. rewrite Forall_forall in Hp. destruct (Hp (Descriptor.is_write_only s.1.1, base + i)) as [_ Hp'].
    - rewrite Hcs. apply list_elem_of_fmap. eexists. split; [done|]. apply elem_of_seqZ. lia.
    - simpl in Hp'. lia. }
  unfold checked_add. rewrite Z.add_assoc. fold base. destruct (Z.ltb_spec base (2 ^ 64)) as [Hlt|Hge]; [|apply (Hout 0); lia].
  destruct (Z.le_gt_cases (base + Z.of_nat j) (VMem.len m)) as [Hin|Hgt].
  - rewrite read_in by (done || lia). split.
    + rewrite span_seqZ, Hcs. unfold values. by rewrite <- !list_fmap_compose.
    + rewrite Hcs. apply Forall_fmap, Forall_forall. intros x Hx%elem_of_seqZ. unfold present. simpl. lia.
  - destruct (read_out m base j) as [e ->]; [done|unfold uint; lia|done|]. apply (Hout (Z.of_nat j - 1)); lia.
Qed.
(** The segment is used up. *)
Lemma gathered_next s tl k off buf buf' rest' off' :
  let cs := drop (Z.to_nat off) (seg_cells s) in
  (0 < k)%nat -> 0 <= off <= s.2 -> (length cs <= k)%nat -> guard (seg_desc s) = true -> Forall present cs ->
  gathered (k - length cs) tl 0 (buf ++ values cs) buf' rest' off' -> gathered k (s :: tl) off buf buf' rest' off'.
Proof.
  intros cs Hk Ho Hj Hg Hp [G1 G2 G3 G4 G5 [pre ->]]. rewrite from_0 in *.
  assert (length cs = Z.to_nat (s.2 - off)) as Hl by (unfold cs; rewrite length_drop, length_seg_cells; lia). split.
  - apply fits_cons; [done|done|]. rewrite <- Hl, Nat.min_r by done. fold cs. split; [done|]. split; [by apply Forall_take|done].
  - rewrite from_cons, length_app by done. fold cs. lia.
  - rewrite from_cons by done. fold cs. rewrite take_app, (take_ge cs) by done. unfold values in *.
    by rewrite !fmap_app, app_assoc.
  - rewrite G4, from_cons by done. fold cs. by rewrite drop_app, (drop_ge cs) by done.
  - done.
  - by exists (s :: pre).
Qed.

(** The buffer is full before the segment ends. *)
Lemma gathered_inside s tl k off buf :
  (0 < k)%nat -> 0 <= off -> off + Z.of_nat k < s.2 -> guard (seg_desc s) = true ->
  Forall present (take k (drop (Z.to_nat off) (seg_cells s))) ->
  gathered k (s :: tl) off buf (buf ++ values (take k (drop (Z.to_nat off) (seg_cells s)))) (s :: tl) (off + Z.of_nat k).
Proof.
  intros Hk Ho Hin Hg Hp. set (cs := drop (Z.to_nat off) (seg_cells s)) in *.
  assert (length cs = Z.to_nat (s.2 - off)) as Hl by (unfold cs; rewrite length_drop, length_seg_cells; lia). split.
  - apply fits_cons; [done|lia|]. rewrite Nat.min_l, Nat.sub_diag by lia. split; [done|]. split; [done|apply fits_0].
  - rewrite from_cons, length_app by lia. fold cs. lia.
  - rewrite from_cons by lia. fold cs. by rewrite take_app_le by lia.
  - unfold from. rewrite drop_drop. f_equal. lia.
  - split; lia.
  - by exists [].
Qed.

Lemma gather_spec n rest off buf :
  Forall seg_ok rest -> cursor_ok rest off ->
  let k := (Z.to_nat n - length buf)%nat in
  match gather guard m n rest off buf with
  | Some (buf', rest', off') => gathered k rest off buf buf' rest' off'
  | None => ~ fits k off rest
  end.
Proof.
  intros Hok. revert off buf. induction Hok as [|[[d o] l] tl Hs Hok IH]; intros off buf Hc k; simpl.
  - destruct (Z.leb_spec n (Z.of_nat (length buf))) as [Hn|Hn].
    + assert (k = 0%nat) as -> by lia. split; [apply fits_0|lia|by rewrite app_nil_r|done|done|by exists []].
    + intros Hf%fits_nil. lia.
  - destruct (Z.leb_spec n (Z.of_nat (length buf))) as [Hn|Hn].
    { assert (k = 0%nat) as -> by lia. split; [apply fits_0|lia|by rewrite app_nil_r|done|done|by exists []]. }
    assert (0 < k)%nat as Hk by lia. destruct Hc as [Ho Hol]. simpl in Hol.
    pose proof (fits_cons k off (d, o, l) tl Hk ltac:(simpl; lia)) as Hcons. cbn [fst snd] in Hcons. change (seg_desc (d, o, l)) with d in Hcons.
    destruct (guard d) eqn:Hg; simpl; [|by rewrite Hcons; intros [? _]].
    set (cs := drop (Z.to_nat off) (seg_cells (d, o, l))) in *.
    assert (length cs = Z.to_nat (l - off)) as Hl by (unfold cs; rewrite length_drop, length_seg_cells; simpl; lia).
    replace (saturating_sub l off) with (l - off) by (unfold saturating_sub; lia).
    destruct (Z.eqb_spec (l - off) 0) as [Hz|Hz].
    { specialize (IH 0 buf (cursor_ok_0 _ Hok)). cbn zeta in IH.
      assert (cs = []) as Hnil by (apply nil_length_inv; lia). destruct (gather _ _ _ tl 0 buf) as [[[buf' rest'] off']|].
      - apply gathered_next; [done|simpl; lia|fold cs; lia|done|fold cs; by rewrite Hnil|]. fold cs. rewrite Hnil. simpl.
        by rewrite app_nil_r, Nat.sub_0_r.
      - rewrite Hcons. intros (_ & _ & Hf). apply IH. by rewrite Hz, Nat.min_0_r, Nat.sub_0_r in Hf. }
    set (tk := Z.min (l - off) (n - Z.of_nat (length buf))).
    assert (Z.to_nat tk = Nat.min k (Z.to_nat (l - off))) as Htk by lia.
    pose proof (seg_read (d, o, l) off (Z.to_nat tk) Hs ltac:(simpl; lia) ltac:(lia) ltac:(simpl; lia)) as Hrd. cbn [fst snd] in Hrd. fold cs in Hrd.
    rewrite <- Htk in Hcons.
    destruct (checked_add _ _ _) as [addr|]; [|rewrite Hcons; tauto].
    destruct (VMem.read m addr (Z.to_nat tk)) as [bytes|e]; [|rewrite Hcons; tauto]. destruct Hrd as [-> Hp].
    destruct (Z.eqb_spec (off + tk) l) as [Hend|Hend].
    + rewrite (take_ge cs) in * by lia. specialize (IH 0 (buf ++ values cs) (cursor_ok_0 _ Hok)). cbn zeta in IH.
      assert (Z.to_nat n - length (buf ++ values cs) = k - length cs)%nat as Hrem
        by (unfold values; rewrite length_app, !length_fmap; lia). rewrite !Hrem in IH.
      destruct (gather _ _ _ tl 0 _) as [[[buf' rest'] off']|].
      * apply gathered_next; [done|simpl; lia|fold cs; lia|done|done|done].
      * rewrite Hcons. intros (_ & _ & Hf). apply IH. by replace (k - Z.to_nat tk)%nat with (k - length cs)%nat in Hf by lia.
    + assert (Z.to_nat tk = k) as Htk' by lia. rewrite Htk' in *. replace tk with (Z.of_nat k) by lia.
      apply gathered_inside; (done || simpl; lia).
Qed.
End Gather.

(** ** Data segments *)
Definition nonempty (s : segment) : Prop := 0 < s.2.

Lemma data_segments_spec ds off total :
  Forall desc_ok ds -> cursor_ok (map whole ds) off -> 0 <= total <= VIRTIO_BLK_MAX_REQUEST_DATA_BYTES ->
  let cs := from (map whole ds) off in
  match data_segments ds off total with
  | Some (segs, t) => cells segs = cs /\ Forall seg_ok segs /\ Forall nonempty segs /\
      t = total + total_len segs /\ t <= VIRTIO_BLK_MAX_REQUEST_DATA_BYTES
  | None => VIRTIO_BLK_MAX_REQUEST_DATA_BYTES < total + Z.of_nat (length cs)
  end.
Proof.
  intros Hds. revert off total. induction Hds as [|d ds Hd Hds IH]; intros off total [Ho Hc] Ht cs.
  { simpl in Hc. subst off. split_and!; try done; simpl; lia. }
  cbn [map] in Hc. simpl in Hc. cbn [data_segments]. rewrite (proj2 (Z.ltb_ge _ _)) by lia.
  assert (cs = drop (Z.to_nat off) (seg_cells (whole d)) ++ cells (map whole ds)) as Ecs by (apply from_cons; simpl; lia).
  pose proof (seg_cells_drop (whole d) off ltac:(simpl; lia)) as Ed. cbn [whole fst snd] in Ed. rewrite Z.add_0_r in Ed.
  specialize (IH 0). cbv zeta in IH. change (from (map whole ds) 0) with (cells (map whole ds)) in IH.
  assert (cursor_ok (map whole ds) 0) as Hc0 by (apply cursor_ok_0, Forall_fmap; eapply Forall_impl; [exact Hds|apply whole_ok]).
  destruct (Z.eqb_spec (d.(Descriptor.len) - off) 0) as [Hz|Hz].
  { specialize (IH total Hc0 Ht). replace cs with (cells (map whole ds)); [exact IH|]. rewrite Ecs, Ed, Hz. done. }
  assert (length cs = Z.to_nat (Descriptor.len d - off) + length (cells (map whole ds)))%nat as Hlen
    by (rewrite Ecs, Ed, length_app, length_fmap, length_seqZ; done).
  destruct Hd as [Ha Hl]. unfold uint in Ha, Hl. unfold VIRTIO_BLK_MAX_REQUEST_DATA_BYTES in *.
  rewrite checked_add_ok by lia. destruct (Z.ltb_spec (4 * 1024 * 1024) (total + (Descriptor.len d - off))) as [Hgt|Hle]; [lia|].
  specialize (IH (total + (Descriptor.len d - off)) Hc0 ltac:(lia)). destruct (data_segments ds 0 _) as [[segs t]|]; [|lia].
  destruct IH as (I1 & I2 & I3 & I4 & I5). split_and!.
  - rewrite cells_cons, I1, Ecs. f_equal. by rewrite Ed.
  - apply Forall_cons. split; [|done]. unfold seg_ok, desc_ok, uint. simpl. lia.
  - apply Forall_cons. split; [unfold nonempty; simpl; lia|done].
  - cbn [total_len foldr snd]. fold (total_len segs). lia.
  - lia.
Qed.

(** ** Segment tables *)
Definition entry_of (buf : list Z) : dwz :=
  DiscardWriteZeroesSegment.mk (from_le_bytes (slice buf 0 8)) (from_le_bytes (slice buf 8 12)) (from_le_bytes (slice buf 12 16)).

Fixpoint table_entries (n : nat) (bs : list Z) : list dwz :=
  match n with
  | O => []
  | S n => entry_of (take 16 bs) :: table_entries n (drop 16 bs)
  end.

Section Table.
Context `{VMem.Spec M} (m : M) (Hm : VMem.ok m).

Lemma fits_any k rest off :
  cursor_ok rest off ->
  fits m (fun _ => true) k off rest <-> (k <= length (from rest off))%nat /\ Forall (present m) (take k (from rest off)).
Proof.
  intros [Ho _]. split.
  - intros (hs & tl & -> & _ & Hk & Hp). unfold from in *. rewrite cells_app. rewrite !length_drop in *. rewrite length_app.
    split; [lia|]. rewrite drop_app, take_app_le; [done|]. rewrite length_drop. lia.
  - intros [Hk Hp]. exists rest, []. rewrite app_nil_r. split; [done|]. split; [by apply Forall_true|done].
Qed.

Lemma parse_table_spec n rest off :
  Forall seg_ok rest -> cursor_ok rest off -> (16 * n <= length (from rest off))%nat ->
  match parse_table m n rest off with
  | Some es => es = table_entries n (values m (from rest off)) /\ Forall (present m) (take (16 * n) (from rest off))
  | None => ~ Forall (present m) (take (16 * n) (from rest off))
  end.
Proof.
  revert rest off. induction n as [|n IH]; intros rest off Hok Hc Hn; [done|]. cbn [parse_table].
  assert (take (16 * S n) (from rest off) = take 16 (from rest off) ++ take (16 * n) (drop 16 (from rest off))) as Htk.
  { rewrite <- (take_drop 16 (from rest off)) at 1. rewrite take_app, length_take, Nat.min_l by lia.
    rewrite take_ge by (rewrite length_take; lia). do 2 f_equal. lia. }
  rewrite Htk.
  pose proof (gather_spec m Hm (fun _ => true) 16 rest off [] Hok Hc) as Hg. cbn [length] in Hg.
  change (Z.to_nat 16 - 0)%nat with 16%nat in Hg. cbv zeta in Hg.
  destruct (gather _ m 16 rest off []) as [[[buf rest'] off']|].
  2:{ rewrite fits_any in Hg by done. intros [Hp _]%Forall_app. apply Hg. split; [lia|done]. }
  destruct Hg as [G1 G2 G3 G4 G5 [pre ->]]. apply fits_any in G1 as [_ Gp]; [|done].
  apply Forall_app in Hok as [_ Hok].
  specialize (IH rest' off' Hok G5). rewrite G4, length_drop in IH. specialize (IH ltac:(lia)).
  destruct (parse_table m n rest' off') as [es|]; [|by intros [_ Hp]%Forall_app].
  destruct IH as [-> Hp]. split; [|by apply Forall_app]. cbn [table_entries]. f_equal.
  - subst buf. unfold entry_of, values. by rewrite !fmap_take.
  - unfold values. by rewrite !fmap_drop.
Qed.

(** The table is acceptable: read-only buffers in memory that hold between one
    and [max_segs] whole entries. *)
Definition table_ok (segs : list segment) (max_segs : Z) : Prop :=
  Forall (usable false m) (cells segs) /\ total_len segs <> 0 /\ total_len segs mod 16 = 0 /\ total_len segs / 16 <= max_segs.

Definition table (segs : list segment) : list dwz := table_entries (Z.to_nat (total_len segs / 16)) (values m (cells segs)).

Lemma parse_spec segs max_segs :
  Forall seg_ok segs -> Forall nonempty segs -> uint 32 max_segs ->
  match parse_discard_write_zeroes_segments m segs max_segs with
  | Some es => table_ok segs max_segs /\ es = table segs
  | None => ~ table_ok segs max_segs
  end.
Proof.
  intros Hok Hne Hmax. unfold uint in Hmax. unfold parse_discard_write_zeroes_segments.
  assert (Z.of_nat (length (cells segs)) = total_len segs) as Hlen.
  { apply length_cells. eapply Forall_impl; [exact Hne|]. unfold nonempty. lia. }
  destruct (existsb _ segs) eqn:Hw.
  { intros (Hu & _). apply existsb_exists in Hw as (s & Hin & Hws). apply list_elem_of_In in Hin.
    pose proof (proj1 (Forall_forall _ _) Hne s Hin) as Hs. unfold nonempty in Hs.
    destruct (proj1 (Forall_forall _ _) Hu (Descriptor.is_write_only s.1.1, s.1.1.(Descriptor.addr) + s.1.2)) as [E _].
    - unfold cells. apply list_elem_of_bind. exists s. split; [|done]. unfold seg_cells. apply list_elem_of_fmap. eexists. split; [done|].
      apply elem_of_seqZ. lia.
    - simpl in E. unfold seg_desc in Hws. congruence. }
  destruct (Z.eqb_spec (total_len segs) 0) as [Hz|Hz]; simpl; [by intros (_ & ? & _)|].
  destruct (Z.eqb_spec (total_len segs mod 16) 0) as [H16|H16]; simpl; [|by intros (_ & _ & ? & _)].
  destruct (Z.leb_spec (2 ^ 32) (total_len segs / 16)); [intros (_ & _ & _ & ?); lia|].
  destruct (Z.ltb_spec max_segs (total_len segs / 16)); [intros (_ & _ & _ & ?); lia|].
  pose proof (Z.div_mod (total_len segs) 16 ltac:(lia)) as Hdm. pose proof (Z.div_pos (total_len segs) 16 ltac:(lia) ltac:(lia)).
  pose proof (parse_table_spec (Z.to_nat (total_len segs / 16)) segs 0 Hok (cursor_ok_0 _ Hok)) as Hp. rewrite from_0 in Hp.
  specialize (Hp ltac:(lia)). rewrite (take_ge (cells segs)) in Hp by lia.
  assert (Forall (present m) (cells segs) -> Forall (usable false m) (cells segs)) as Hread.
  { rewrite !Forall_forall. intros Hp' c Hc. split; [|by apply Hp']. unfold cells in Hc. apply list_elem_of_bind in Hc as (s & Hc & Hs).
    unfold seg_cells in Hc. apply list_elem_of_fmap in Hc as (a & -> & _). simpl.
    destruct (Descriptor.is_write_only s.1.1) eqn:E; [|done]. rewrite <- Hw. symmetry. apply existsb_exists. exists s.
    split; [by apply list_elem_of_In|done]. }
  destruct (parse_table m _ segs 0) as [es|].
  - destruct Hp as [-> Hp]. split; [|done]. split_and!; [by apply Hread|done..].
  - intros (Hu & _). apply Hp. eapply Forall_impl; [exact Hu|]. by intros c [_ ?].
Qed.
End Table.

(** ** The ranges of a table *)
Definition sectors_of (es : list dwz) : Z := foldr (fun e n => e.(DiscardWriteZeroesSegment.num_sectors) + n) 0 es.
Definition bytes_range (e : dwz) : Z * Z * Z :=
  (e.(DiscardWriteZeroesSegment.sector) * VIRTIO_BLK_SECTOR_SIZE,
   e.(DiscardWriteZeroesSegment.num_sectors) * VIRTIO_BLK_SECTOR_SIZE, e.(DiscardWriteZeroesSegment.flags)).
Definition entry_fits (cap align : Z) (e : dwz) : Prop :=
  e.(DiscardWriteZeroesSegment.sector) mod align = 0 /\ e.(DiscardWriteZeroesSegment.num_sectors) mod align = 0 /\
  (e.(DiscardWriteZeroesSegment.sector) + e.(DiscardWriteZeroesSegment.num_sectors)) * VIRTIO_BLK_SECTOR_SIZE <= cap.
Definition entry_ok (e : dwz) : Prop :=
  0 <= e.(DiscardWriteZeroesSegment.sector) /\ uint 32 e.(DiscardWriteZeroesSegment.num_sectors).

Lemma le_slice_uint bs a b : Forall byte_ok bs -> (b <= length bs)%nat -> (a <= b)%nat ->
  uint (8 * Z.of_nat (b - a)) (from_le_bytes (slice bs a b)).
Proof.
  intros Hb Hl Hab. replace (b - a)%nat with (length (slice bs a b)) by (unfold slice; rewrite length_take, length_drop; lia).
  apply from_le_bytes_uint. unfold slice. by apply Forall_take, Forall_drop.
Qed.

Lemma entries_ok n bs : Forall byte_ok bs -> (16 * n <= length bs)%nat -> Forall entry_ok (table_entries n bs).
Proof.
  revert bs. induction n as [|n IH]; intros bs Hb Hn; [constructor|]. cbn [table_entries]. constructor.
  - assert (Forall byte_ok (take 16 bs)) as Ht by (by apply Forall_take).
    assert (length (take 16 bs) = 16%nat) as Hl by (rewrite length_take; lia).
    split; simpl.
    + pose proof (le_slice_uint (take 16 bs) 0 8 Ht ltac:(lia) ltac:(lia)) as [? _]. done.
    + exact (le_slice_uint (take 16 bs) 8 12 Ht ltac:(lia) ltac:(lia)).
  - apply IH; [by apply Forall_drop|]. rewrite length_drop. lia.
Qed.

Lemma sectors_of_pos es : Forall entry_ok es -> 0 <= sectors_of es.
Proof. induction 1 as [|e es [_ He] _ IH]; [done|]. cbn [sectors_of foldr]. fold (sectors_of es). unfold uint in He. lia. Qed.

Lemma validate_spec cap align es total :
  0 <= cap < 2 ^ 64 -> Forall entry_ok es -> 0 <= total <= VIRTIO_BLK_MAX_REQUEST_SECTORS ->
  match validate cap align es total with
  | Some vs => vs = (bytes_range <$> es) /\ total + sectors_of es <= VIRTIO_BLK_MAX_REQUEST_SECTORS /\ Forall (entry_fits cap align) es
  | None => ~ (total + sectors_of es <= VIRTIO_BLK_MAX_REQUEST_SECTORS /\ Forall (entry_fits cap align) es)
  end.
Proof.
  intros Hcap Hes. revert total. induction Hes as [|e es [Hs Hn] Hes IH]; intros total Ht; cbn [validate].
  { split_and!; try done. simpl. lia. }
  pose proof (sectors_of_pos es Hes) as Hp. unfold uint in Hn.
  change (VIRTIO_BLK_MAX_REQUEST_SECTORS) with 8192 in *. cbn [sectors_of foldr]. fold (sectors_of es).
  rewrite checked_add_ok by lia.
  destruct (Z.ltb_spec 8192 (total + DiscardWriteZeroesSegment.num_sectors e)); [intros [? _]; lia|].
  destruct (_ || _) eqn:Ha.
  { intros [_ [(F1 & F2 & _) _]%Forall_cons]. rewrite F1, F2 in Ha. done. }
  apply orb_false_iff in Ha as [A1%negb_false_iff%Z.eqb_eq A2%negb_false_iff%Z.eqb_eq].
  assert (entry_fits cap align e -> DiscardWriteZeroesSegment.sector e * 512 + DiscardWriteZeroesSegment.num_sectors e * 512 <= cap) as Hf.
  { intros (_ & _ & ?). lia. }
  unfold checked_mul, checked_add. destruct (Z.ltb_spec (DiscardWriteZeroesSegment.sector e * 512) (2 ^ 64)).
  2:{ intros [_ [?%Hf _]%Forall_cons]. lia. }
  rewrite (proj2 (Z.ltb_lt (DiscardWriteZeroesSegment.num_sectors e * 512) _)) by lia.
  destruct (Z.ltb_spec (DiscardWriteZeroesSegment.sector e * 512 + DiscardWriteZeroesSegment.num_sectors e * 512) (2 ^ 64)).
  2:{ intros [_ [?%Hf _]%Forall_cons]. lia. }
  destruct (Z.ltb_spec cap (DiscardWriteZeroesSegment.sector e * 512 + DiscardWriteZeroesSegment.num_sectors e * 512)).
  { intros [_ [?%Hf _]%Forall_cons]. lia. }
  specialize (IH (total + DiscardWriteZeroesSegment.num_sectors e) ltac:(lia)).
  destruct (validate cap align es _) as [vs|].
  - destruct IH as (-> & I1 & I2). split_and!; [done|lia|]. apply Forall_cons. split; [|done]. unfold entry_fits. split_and!; [done..|lia].
  - intros [I1 [_ I2]%Forall_cons]. apply IH. split; [lia|done].
Qed.

(** ** The identification string *)
Section GetId.
Context `{VMem.Spec M} {D : Type} (d : D) (m : M) (Hm : VMem.ok m) (id : list Z) (Hid : Forall byte_ok id) (C : list cell).

Definition id_done (k : nat) (s : D * M) : Prop :=
  (k <= length id)%nat /\ reached m C true k /\ s.1 = d /\ mem_holds m s.2 (scatter (VMem.byte m) (take k C.*2) (take k id)).

Definition id_blocked : Prop := ~ Forall (usable true m) (take (length id) C).

Lemma id_cell_bad k w addr write i :
  (k + w <= length id)%nat -> take w (drop k C) = (pair write <$> seqZ addr (Z.of_nat w)) -> 0 <= i < Z.of_nat w ->
  ~ usable true m (write, addr + i) -> id_blocked.
Proof.
  intros Hk Hc Hi Hn Hf. apply Hn. rewrite Forall_forall in Hf. apply Hf.
  replace (length id) with (k + (w + (length id - k - w)))%nat by lia. rewrite !take_more, Hc. apply elem_of_app. right.
  apply elem_of_app. left. apply list_elem_of_fmap. eexists. split; [done|]. apply elem_of_seqZ. lia.
Qed.

(** One piece of the string. *)
Lemma id_write_ok k w addr s :
  id_done k s -> (0 < w)%nat -> (k + w <= length id)%nat -> (k + w <= length C)%nat -> uint 64 addr ->
  take w (drop k C) = (pair true <$> seqZ addr (Z.of_nat w)) ->
  match guest_write addr (take w (drop k id)) s with
  | (Ok _, s') => id_done (k + w) s'
  | (Err e, s') => stopped id_done id_blocked e s'
  end.
Proof.
  intros Hs Hw Hi HC Ha Hc. pose proof Hs as (Hk & Hr & Hsd & M1 & M2 & M3). destruct s as [sd sm]. simpl in *. subst sd.
  set (bs := take w (drop k id)). assert (length bs = w) as Hbs by (unfold bs; rewrite length_take, length_drop; lia).
  unfold guest_write. destruct (Z.le_gt_cases (addr + Z.of_nat w) (VMem.len sm)) as [Hin|Hout].
  2:{ rewrite (VMem.write_out sm) by (done || lia). cbn [map_err]. split; [done|]. split; [|by exists k].
      apply (id_cell_bad k w addr true (Z.of_nat w - 1)); [done|done|lia|]. intros [_ ?]. simpl in *. lia. }
  destruct (VMem.write_in sm addr bs) as (m' & -> & W1 & W2 & W3); [done|done|by apply Forall_take, Forall_drop|lia|].
  cbn [map_err]. unfold uint in Ha. split; [lia|]. split.
  { replace w with (Z.to_nat (Z.of_nat w)) by lia. apply (reached_more m C k addr); (done || lia || by rewrite Nat2Z.id). }
  split; [done|]. split_and!; [done|by simpl; lia|]. intros a Ha'. cbn [snd]. rewrite W3, splice_scatter, Hbs by lia.
  rewrite !take_more, <- fmap_drop, <- (fmap_take _ w), Hc, scatter_app
    by (rewrite !length_take, length_fmap; destruct Hr as [Hr _]; lia).
  rewrite <- list_fmap_compose. fold bs.
  replace (snd ∘ pair true <$> _) with (seqZ addr (Z.of_nat w)) by (symmetry; apply list_fmap_id). apply scatter_ext. apply M3. lia.
Qed.

Lemma put_id_ok k segs s :
  Forall seg_ok segs -> Forall nonempty segs -> id_done k s -> drop k C = cells segs \/ k = length id ->
  match put_id segs (drop k id) s with
  | (Ok _, s') => id_done (Nat.min (length C) (length id)) s'
  | (Err e, s') => stopped id_done id_blocked e s'
  end.
Proof.
  intros Hok Hne. revert k s. induction Hne as [|[[de o] l] segs Hl Hne IH]; intros k s Hs Hc; cbn [put_id];
    pose proof Hs as (Hk & [Hr _] & _).
  { replace (Nat.min (length C) (length id)) with k; [done|]. destruct Hc as [Hc|Hc]; [|lia].
    apply (f_equal length) in Hc. rewrite length_drop in Hc. simpl in Hc. lia. }
  case_bool_decide as Hrem.
  { apply (f_equal length) in Hrem. rewrite length_drop in Hrem. simpl in Hrem.
    by replace (Nat.min (length C) (length id)) with k by lia. }
  assert (k < length id)%nat as Hlt.
  { destruct (decide (k < length id)%nat); [done|]. by rewrite drop_ge in Hrem by lia. }
  destruct Hc as [Hc|Hc]; [|lia]. apply Forall_cons in Hok as [Hso Hok]. unfold nonempty in Hl. simpl in Hl.
  rewrite cells_cons in Hc. assert (length C - k = Z.to_nat l + length (cells segs))%nat as Hlc.
  { rewrite <- length_drop, Hc, length_app, length_seg_cells. done. }
  rewrite length_drop. set (w := Nat.min (Z.to_nat l) (length id - k)).
  assert (0 < w <= Z.to_nat l /\ k + w <= length id /\ (w = Z.to_nat l \/ k + w = length id))%nat as Hwb by lia. clearbody w.
  assert (Hsc : take w (drop k C) = (pair (Descriptor.is_write_only de) <$> seqZ (de.(Descriptor.addr) + o) (Z.of_nat w))).
  { rewrite Hc, take_app_le by (rewrite length_seg_cells; simpl; lia).
    destruct (take_drop_seqZ (pair (Descriptor.is_write_only de)) (seg_cells (de, o, l)) _ l (Z.of_nat w) ltac:(lia) eq_refl) as [Ht _].
    by rewrite Nat2Z.id in Ht. }
  pose proof (fun Hn => id_cell_bad k w _ _ 0 ltac:(lia) Hsc ltac:(lia) Hn) as Hbad. rewrite Z.add_0_r in Hbad.
  unfold require. destruct (Descriptor.is_write_only de) eqn:Hw; unfold st_bind at 1, st_ret, fail, st_err.
  2:{ split; [done|]. split; [|by exists k]. apply Hbad. by intros [? _]. }
  destruct (Nat.eqb_spec w 0) as [|Hw0]; [lia|]. destruct Hso as [[Ha Hlen] (So & _ & Se)]. simpl in Ha, Hlen, So, Se.
  pose proof (VMem.len_ok m Hm) as Hml. unfold uint in Ha, Hlen, Hml.
  unfold or_fail, st_of_result. unfold st_bind at 1. unfold checked_add.
  destruct (Z.ltb_spec (de.(Descriptor.addr) + o) (2 ^ 64)) as [Hlt'|Hge]; cbn [ok_or].
  2:{ split; [done|]. split; [|by exists k]. apply Hbad. intros [_ ?]. simpl in *. lia. }
  pose proof (id_write_ok k w (de.(Descriptor.addr) + o) s Hs ltac:(lia) ltac:(lia) ltac:(lia) ltac:(unfold uint; lia) Hsc) as Hstep.
  unfold st_bind. destruct (guest_write _ _ s) as [[u|e] s']; [|done]. rewrite drop_drop. apply IH; [done|done|].
  destruct (decide (w = Z.to_nat l)) as [Hwl|Hwl]; [left|right; lia].
  rewrite <- drop_drop, Hc, Hwl. apply drop_app_length'. by rewrite length_seg_cells.
Qed.
End GetId.
