(* ===== verification/BlkSpec.v ===== *)
(** * What a virtio block device does

    The specification of the device, on an array of bytes and a guest memory,
    independent of how the disk is stored, how the driver cuts a request into
    descriptors and how the device cuts its copies into chunks. *)

From S2P Require Import Prelude Bytes GuestMem Virtq VirtqFacts Storage StorageArray VirtioBlk BlkFacts BlkChain.

(** The parameters of a device: what it was built and negotiated with, and
    whether its disk can fail on an operation within its capacity. *)
Record params := {
  p_capacity : Z;
  p_features : Z;
  p_id : list Z;
  p_seg_max : Z;
  p_align : Z;
  p_faults : Prop;
}.

Section Spec.
Context `{VMem.Spec M} (p : params).
Implicit Types (m : M) (f : Z -> Z) (C : list cell).

(** ** Requests *)
Definition has_feature (f : Z) : Prop := nz (p.(p_features) &&& f) = true.

(** The data cells are whole sectors within the capacity. *)
Definition in_range (sector : Z) C : Prop :=
  C <> [] /\ Z.of_nat (length C) mod VIRTIO_BLK_SECTOR_SIZE = 0 /\
  sector * VIRTIO_BLK_SECTOR_SIZE + Z.of_nat (length C) <= p.(p_capacity).

(** The data cells of DISCARD and WRITE_ZEROES are a table of entries. *)
Definition table_of m C : list dwz := table_entries (Z.to_nat (Z.of_nat (length C) / 16)) (values m C).
Definition ranges_of m C : list (Z * Z) := (range_of ∘ bytes_range) <$> table_of m C.
Definition table_valid m C : Prop :=
  Forall (usable false m) C /\ C <> [] /\ Z.of_nat (length C) mod 16 = 0 /\ Z.of_nat (length C) / 16 <= p.(p_seg_max) /\
  sectors_of (table_of m C) <= VIRTIO_BLK_MAX_REQUEST_SECTORS /\
  Forall (entry_fits p.(p_capacity) p.(p_align)) (table_of m C).

(** The request is known, and the driver has negotiated it where it must. *)
Definition zeroing (typ : Z) : Prop :=
  typ = VIRTIO_BLK_T_DISCARD /\ has_feature VIRTIO_BLK_F_DISCARD \/
  typ = VIRTIO_BLK_T_WRITE_ZEROES /\ has_feature VIRTIO_BLK_F_WRITE_ZEROES.
Definition flushing (typ : Z) : Prop := typ = VIRTIO_BLK_T_FLUSH /\ has_feature VIRTIO_BLK_F_FLUSH.

(** A transfer that cannot be finished. *)
Definition cut (write : bool) m C : Prop := p.(p_faults) \/ ~ Forall (usable write m) C.

Abbreviation same := (StorageArray.agree p.(p_capacity)).

(** One request on the array [f]: its status, the array it leaves and the bytes
    it answers.  [C] are the data cells of the chain.  A request that is cut
    short has done a prefix of its work. *)
Inductive request_step m f (typ sector : Z) C : Z -> (Z -> Z) -> list Z -> Prop :=
| step_in f' :
    typ = VIRTIO_BLK_T_IN -> in_range sector C -> Forall (usable true m) C -> same f' f ->
    request_step m f typ sector C VIRTIO_BLK_S_OK f' (span f (sector * VIRTIO_BLK_SECTOR_SIZE) (length C))
| step_in_cut f' k :
    typ = VIRTIO_BLK_T_IN -> in_range sector C -> cut true m C -> (k <= length C)%nat -> Forall (usable true m) (take k C) ->
    same f' f ->
    request_step m f typ sector C VIRTIO_BLK_S_IOERR f' (span f (sector * VIRTIO_BLK_SECTOR_SIZE) k)
| step_out f' :
    typ = VIRTIO_BLK_T_OUT -> in_range sector C -> Forall (usable false m) C ->
    same f' (splice f (sector * VIRTIO_BLK_SECTOR_SIZE) (values m C)) ->
    request_step m f typ sector C VIRTIO_BLK_S_OK f' []
| step_out_cut f' k :
    typ = VIRTIO_BLK_T_OUT -> in_range sector C -> cut false m C ->
    same f' (splice f (sector * VIRTIO_BLK_SECTOR_SIZE) (take k (values m C))) ->
    request_step m f typ sector C VIRTIO_BLK_S_IOERR f' []
| step_range f' :
    typ = VIRTIO_BLK_T_IN \/ typ = VIRTIO_BLK_T_OUT -> ~ in_range sector C -> same f' f ->
    request_step m f typ sector C VIRTIO_BLK_S_IOERR f' []
| step_flush f' :
    flushing typ -> same f' f -> request_step m f typ sector C VIRTIO_BLK_S_OK f' []
| step_flush_fault f' :
    flushing typ -> p.(p_faults) -> same f' f -> request_step m f typ sector C VIRTIO_BLK_S_IOERR f' []
| step_id f' :
    typ = VIRTIO_BLK_T_GET_ID -> C <> [] -> Forall (usable true m) (take (length p.(p_id)) C) -> same f' f ->
    request_step m f typ sector C VIRTIO_BLK_S_OK f' (take (length C) p.(p_id))
| step_id_cut f' k :
    typ = VIRTIO_BLK_T_GET_ID -> C = [] \/ ~ Forall (usable true m) (take (length p.(p_id)) C) ->
    (k <= length C)%nat -> Forall (usable true m) (take k C) -> same f' f ->
    request_step m f typ sector C VIRTIO_BLK_S_IOERR f' (take k p.(p_id))
| step_zero f' :
    zeroing typ -> table_valid m C -> same f' (zeros (ranges_of m C) f) ->
    request_step m f typ sector C VIRTIO_BLK_S_OK f' []
| step_zero_fault f' :
    zeroing typ -> table_valid m C -> p.(p_faults) ->
    (forall a, 0 <= a < p.(p_capacity) -> in_ranges (ranges_of m C) a = false -> f' a = f a) ->
    request_step m f typ sector C VIRTIO_BLK_S_IOERR f' []
| step_zero_rejected f' :
    zeroing typ -> ~ table_valid m C -> same f' f -> request_step m f typ sector C VIRTIO_BLK_S_IOERR f' []
| step_unsupported f' :
    typ <> VIRTIO_BLK_T_IN -> typ <> VIRTIO_BLK_T_OUT -> typ <> VIRTIO_BLK_T_GET_ID -> ~ flushing typ -> ~ zeroing typ ->
    same f' f -> request_step m f typ sector C VIRTIO_BLK_S_UNSUPP f' [].

(** ** Chains

    All buffers but the last are the header and the data, wherever the driver
    cuts them. *)
Definition body_cells (ds : list Descriptor.t) : list cell := cells (map whole (removelast ds)).
Definition header_bytes m ds : list Z := values m (take 16 (body_cells ds)).
Definition data_cells ds : list cell := drop 16 (body_cells ds).
Definition request_type m ds : Z := from_le_bytes (slice (header_bytes m ds) 0 4).
Definition request_sector m ds : Z := from_le_bytes (slice (header_bytes m ds) 8 16).

Definition readable (d : Descriptor.t) : bool := negb (Descriptor.is_write_only d).
Definition well_formed m ds : Prop :=
  Z.of_nat (length ds) <= VIRTIO_BLK_MAX_REQUEST_DESCRIPTORS /\
  fits m readable 16 0 (map whole (removelast ds)) /\
  Z.of_nat (length (data_cells ds)) <= VIRTIO_BLK_MAX_REQUEST_DATA_BYTES.
Definition status_cell_ok (sd : Descriptor.t) : Prop :=
  Descriptor.is_write_only sd = true /\ sd.(Descriptor.len) <> 0.

(** The bytes a request with the answer [reply] and the status [st] writes. *)
Definition answered m ds (sd : Descriptor.t) (st : Z) (reply : list Z) : Z -> Z :=
  scatter (VMem.byte m) (take (length reply) (data_cells ds).*2 ++ [sd.(Descriptor.addr)]) (reply ++ [st]).

(** What becomes of a chain whose last descriptor is [sd]: the status that is
    reported, the array and the memory before the chain is completed. *)
Inductive served m f ds (sd : Descriptor.t) : option Z -> (Z -> Z) -> M -> Prop :=
| served_silent f' m1 :
    ~ status_cell_ok sd -> same f' f -> mem_holds m m1 (VMem.byte m) -> served m f ds sd None f' m1
| served_malformed f' m1 :
    status_cell_ok sd -> ~ well_formed m ds -> same f' f ->
    mem_holds m m1 (answered m ds sd VIRTIO_BLK_S_IOERR []) -> served m f ds sd (Some VIRTIO_BLK_S_IOERR) f' m1
| served_request st f' reply m1 :
    status_cell_ok sd -> well_formed m ds ->
    request_step m f (request_type m ds) (request_sector m ds) (data_cells ds) st f' reply ->
    mem_holds m m1 (answered m ds sd st reply) -> served m f ds sd (Some st) f' m1.

(** ** Sequences of chains

    Between two requests the guest does what it likes: each request comes with
    the queue and the memory it finds. *)
Record kick := { k_queue : VirtQueue.t; k_memory : M; k_head : Z; k_chain : list Descriptor.t }.

Record kick_ok (k : kick) : Prop := {
  ko_memory : VMem.ok k.(k_memory);
  ko_layout : layout k.(k_memory) k.(k_queue);
  ko_head : uint 16 k.(k_head);
  ko_chain : Forall desc_ok k.(k_chain);
  ko_nonempty : k.(k_chain) <> [];
}.

(** What the device gives back: its result, the queue and the memory. *)
Definition reply : Type := result bool VirtioDeviceError * VirtQueue.t * M.

(** A chain is served and completed exactly once, under its own head. *)
Definition kick_step (f : Z -> Z) (k : kick) (o : reply) (f' : Z -> Z) : Prop :=
  exists sd st m1 m', last k.(k_chain) = Some sd /\ served k.(k_memory) f k.(k_chain) sd st f' m1 /\
    o = (Ok (wants_irq m1 k.(k_queue)), bump k.(k_queue), m') /\ published k.(k_queue) k.(k_head) 0 m1 m'.

Inductive kicks_run : (Z -> Z) -> list kick -> list reply -> (Z -> Z) -> Prop :=
| kicks_done f : kicks_run f [] [] f
| kicks_next f k o f1 ks os f2 : kick_step f k o f1 -> kicks_run f1 ks os f2 -> kicks_run f (k :: ks) (o :: os) f2.
End Spec.
Arguments kick : clear implicits.
Arguments reply : clear implicits.
