(* ===== verification/BlkProps.v ===== *)
(** * Theorems on the virtio block device

    The device against its specification, with the virtqueue below and any disk
    that keeps its contract behind it. *)

From S2P Require Import Prelude Bytes GuestMem Virtq VirtqFacts Storage StorageFacts StorageArray VirtioBlk BlkFacts BlkChain BlkSpec.
From S2P Require Import VirtqProps.

(** ** The device implements the specification *)
Section Refine.
Context `{Target} `{VMem.Spec M} `{DiskSpec D}.
Implicit Types (m : M) (d : D) (b : VirtioBlk.t D).

Record blk_ok b : Prop := {
  bo_disk : vd_ok b.(VirtioBlk.disk);
  bo_id : Forall byte_ok b.(VirtioBlk.device_id);
  bo_seg_max : uint 32 b.(VirtioBlk.config).(VirtioBlkConfig.seg_max);
}.

Definition params_of b : params := {|
  p_capacity := capacity_bytes b.(VirtioBlk.disk);
  p_features := b.(VirtioBlk.features);
  p_id := b.(VirtioBlk.device_id);
  p_seg_max := b.(VirtioBlk.config).(VirtioBlkConfig.seg_max);
  p_align := Z.max (Z.max b.(VirtioBlk.config).(VirtioBlkConfig.blk_size) VIRTIO_BLK_SECTOR_SIZE / VIRTIO_BLK_SECTOR_SIZE) 1;
  p_faults := faults (D := D);
|}.

(** The same disk with other bytes. *)
Definition succeeds d d' : Prop := vd_ok d' /\ capacity_bytes d' = capacity_bytes d.

(** The outcome of a request on the disk and the memory. *)
Definition outcome b m typ sector (C : list cell) (o : result unit Z * (D * M)) : Prop :=
  exists reply,
    request_step (params_of b) m (vd_byte b.(VirtioBlk.disk)) typ sector C (VirtioBlk.status_of o.1) (vd_byte o.2.1) reply /\
    succeeds b.(VirtioBlk.disk) o.2.1 /\ (length reply <= length C)%nat /\
    mem_holds m o.2.2 (scatter (VMem.byte m) (take (length reply) C.*2) reply).

(** A request without an answer. *)
Lemma quiet b m typ sector C r d' g :
  VMem.ok m -> holds b.(VirtioBlk.disk) d' g ->
  (StorageArray.agree (capacity_bytes b.(VirtioBlk.disk)) (vd_byte d') g ->
   request_step (params_of b) m (vd_byte b.(VirtioBlk.disk)) typ sector C (VirtioBlk.status_of r) (vd_byte d') []) ->
  outcome b m typ sector C (r, (d', m)).
Proof.
  intros Hm (O & Hc & B) Hs. exists []. split; [by apply Hs|]. split; [by split|]. split; [simpl; lia|].
  by apply mem_holds_refl.
Qed.

Lemma holds_self d : vd_ok d -> holds d d (vd_byte d).
Proof. intros Hd. split; [done|]. by split. Qed.

Section Request.
Context b m (sector : Z) (segs : list segment).
Context (Hb : blk_ok b) (Hm : VMem.ok m) (Hs : 0 <= sector) (Hok : Forall seg_ok segs) (Hne : Forall nonempty segs).
Abbreviation C := (cells segs).
Abbreviation d0 := b.(VirtioBlk.disk).

Lemma disk_kept : holds d0 d0 (vd_byte d0).
Proof. apply holds_self, Hb. Qed.

Lemma cells_total : total_len segs = Z.of_nat (length C).
Proof. symmetry. apply length_cells. eapply Forall_impl; [exact Hne|]. unfold nonempty. lia. Qed.

Lemma no_cells : C = [] <-> segs = [].
Proof.
  split; [|by intros ->]. intros HC. destruct segs as [|s tl]; [done|]. apply Forall_cons in Hne as [Hs' _]. unfold nonempty in Hs'.
  rewrite cells_cons in HC. apply app_nil in HC as [HC _]. apply (f_equal length) in HC. rewrite length_seg_cells in HC. simpl in HC. lia.
Qed.

Lemma in_range_iff : transfer_valid (capacity_bytes d0) sector segs <-> in_range (params_of b) sector C.
Proof. unfold transfer_valid, in_range. by rewrite no_cells, cells_total. Qed.

Lemma in_outcome : outcome b m VIRTIO_BLK_T_IN sector C (do_in sector segs (total_len segs) (d0, m)).
Proof.
  destruct (do_in_ok d0 m sector segs (bo_disk _ Hb) Hm Hs Hok Hne) as [[-> Hv]|[Hv Hd]].
  { eapply quiet; [done|exact disk_kept|]. intros Ha. apply step_range; [by left| |done]. by rewrite <- in_range_iff. }
  rewrite in_range_iff in Hv. destruct (do_in _ _ _ _) as [[u|e] [d' m']].
  - destruct Hd as ([_ Hr] & (O & Hc & B) & Hw). rewrite firstn_all in Hr. eexists. split; [by eapply step_in|].
    rewrite span_length. split; [by split|]. done.
  - destruct Hd as (-> & Hbl & k & [Hk Hr] & (O & Hc & B) & Hw). eexists. split; [by eapply (step_in_cut _ _ _ _ _ _ _ k)|].
    rewrite span_length. split; [by split|]. done.
Qed.

Lemma out_outcome : outcome b m VIRTIO_BLK_T_OUT sector C (do_out sector segs (total_len segs) (d0, m)).
Proof.
  destruct (do_out_ok d0 m sector segs (bo_disk _ Hb) Hm Hs Hok Hne) as [[-> Hv]|[Hv Hd]].
  { eapply quiet; [done|exact disk_kept|]. intros Ha. apply step_range; [by right| |done]. by rewrite <- in_range_iff. }
  rewrite in_range_iff in Hv. destruct (do_out _ _ _ _) as [[u|e] [d' m']].
  - destruct Hd as ([_ Hr] & Hm' & Hh). simpl in Hm'. subst m'. rewrite firstn_all in Hr. unfold cell_bytes in Hh.
    rewrite take_ge in Hh by (rewrite !length_fmap; lia). eapply quiet; [done|exact Hh|]. intros Ha. by eapply step_out.
  - destruct Hd as (-> & Hbl & k & [Hk Hr] & Hm' & Hh). simpl in Hm'. subst m'. eapply quiet; [done|exact Hh|].
    intros Ha. by eapply step_out_cut.
Qed.

Lemma flush_outcome :
  VirtioBlk.negotiated b VIRTIO_BLK_F_FLUSH = true -> outcome b m VIRTIO_BLK_T_FLUSH sector C (on_disk flush (d0, m)).
Proof.
  intros Hn. unfold on_disk. pose proof (vd_flush d0 (bo_disk _ Hb)) as Hf. destruct (flush d0) as [r d'].
  destruct Hf as [Hh [->|Hf]]; cbn [map_err]; (eapply quiet; [done|exact Hh|intros Ha]).
  - by apply step_flush.
  - destruct r as [|e]; [done|]. apply step_flush_fault; [done|by exists e|done].
Qed.

Lemma id_outcome : outcome b m VIRTIO_BLK_T_GET_ID sector C (do_get_id b.(VirtioBlk.device_id) segs (d0, m)).
Proof.
  unfold do_get_id. case_bool_decide as Hz.
  { rewrite <- no_cells in Hz. eapply quiet; [done|exact disk_kept|]. intros Ha.
    apply (step_id_cut _ _ _ _ _ _ _ 0); [done|by left|lia|constructor|done]. }
  set (id := b.(VirtioBlk.device_id)).
  pose proof (put_id_ok d0 m Hm id (bo_id _ Hb) C 0 segs (d0, m) Hok Hne) as Hp. change (drop 0 id) with id in Hp.
  assert (id_done d0 m id C 0 (d0, m)) as J0.
  { split; [lia|]. split; [split; [lia|constructor]|]. split; [done|]. by apply mem_holds_refl. }
  specialize (Hp J0 ltac:(by left)). assert (succeeds d0 d0) as Hsame by (split; [apply Hb|done]).
  destruct (put_id segs id (d0, m)) as [[u|e] [d' m']].
  - destruct Hp as (Hk & [_ Hr] & Hd & Hw). simpl in Hd. subst d'. exists (take (length C) id).
    rewrite Nat.min_comm, <- take_take, (take_ge C) in Hr by lia. split.
    { apply (step_id (params_of b)); [done|by rewrite no_cells|done|done]. }
    split; [done|]. rewrite length_take. split; [lia|].
    replace (take (length C) id) with (take (length C `min` length id) id); [done|]. by rewrite <- take_take, (take_ge id) by done.
  - destruct Hp as (-> & Hbl & k & Hk & [HkC Hr] & Hd & Hw). simpl in Hd. subst d'. exists (take k id). split.
    { apply (step_id_cut (params_of b) _ _ _ _ _ _ k); [done|by right|done..]. }
    split; [done|]. rewrite length_take, Nat.min_l by done. done.
Qed.

Lemma table_eq : table m segs = table_of m C.
Proof. unfold table, table_of. by rewrite cells_total. Qed.

Lemma table_entries_ok : Z.of_nat (length C) mod 16 = 0 -> Forall entry_ok (table_of m C).
Proof.
  intros H16. apply entries_ok.
  - unfold values. apply Forall_fmap, Forall_true. intros x. by apply VMem.byte_u8.
  - unfold values. rewrite !length_fmap. pose proof (Z.div_mod (Z.of_nat (length C)) 16 ltac:(lia)). lia.
Qed.

Lemma requested_ranges_spec :
  match requested_ranges b.(VirtioBlk.config) segs (d0, m) with
  | (Ok vs, s) => s = (d0, m) /\ table_valid (params_of b) m C /\ (range_of <$> vs) = ranges_of m C /\ ranges_ok d0 vs
  | (Err e, s) => e = VIRTIO_BLK_S_IOERR /\ s = (d0, m) /\ ~ table_valid (params_of b) m C
  end.
Proof.
  pose proof (vd_capacity d0 (bo_disk _ Hb)) as Hcap. unfold requested_ranges, st_bind, or_fail, st_of_result. cbn [fst snd].
  pose proof (parse_spec m Hm segs _ Hok Hne (bo_seg_max _ Hb)) as Hp. unfold table_ok in Hp. rewrite cells_total, table_eq in Hp.
  assert (C <> [] <-> Z.of_nat (length C) <> 0) as Hnil.
  { split; intros Hn E; apply Hn; [apply nil_length_inv; lia|by rewrite E]. }
  destruct (parse_discard_write_zeroes_segments m segs _) as [es|]; cbn [ok_or].
  2:{ split; [done|]. split; [done|]. intros (T1 & T2 & T3 & T4 & _). apply Hp. by rewrite <- Hnil. }
  destruct Hp as [(T1 & T2 & T3 & T4) ->]. rewrite <- Hnil in T2. pose proof (table_entries_ok T3) as He.
  pose proof (validate_spec (capacity_bytes d0) (p_align (params_of b)) (table_of m C) 0 Hcap He ltac:(done)) as Hv.
  simpl p_align in Hv. destruct (validate _ _ _ 0) as [vs|]; cbn [ok_or].
  - destruct Hv as (-> & V1 & V2). split; [done|]. split; [by split_and!|]. split; [by rewrite <- list_fmap_compose|].
    apply Forall_fmap. rewrite Forall_forall in V2, He |- *. intros e Hin. destruct (V2 e Hin) as (_ & _ & V3), (He e Hin) as (E1 & E2 & _).
    unfold in_disk. simpl. lia.
  - split; [done|]. split; [done|]. intros (_ & _ & _ & _ & V1 & V2). by apply Hv.
Qed.

(** Both requests for zeros, once the table is accepted. *)
Lemma zero_outcome typ vs o :
  zeroing (params_of b) typ -> table_valid (params_of b) m C -> (range_of <$> vs) = ranges_of m C ->
  zeroed (range_of <$> vs) d0 m o -> outcome b m typ sector C o.
Proof.
  intros Hz Ht Hr Ho. rewrite Hr in Ho. destruct o as [[u|e] [d' m']].
  - destruct Ho as (-> & Hh). eapply quiet; [done|exact Hh|]. intros Ha. by apply step_zero.
  - destruct Ho as (-> & Hf & -> & O & Hc & B). exists []. split; [by apply step_zero_fault|]. split; [by split|].
    split; [simpl; lia|]. by apply mem_holds_refl.
Qed.

Lemma discard_outcome :
  zeroing (params_of b) VIRTIO_BLK_T_DISCARD ->
  outcome b m VIRTIO_BLK_T_DISCARD sector C (do_discard b.(VirtioBlk.config) segs (d0, m)).
Proof.
  intros Hz. unfold do_discard, st_bind. pose proof requested_ranges_spec as Hr.
  destruct (requested_ranges _ _ _) as [[vs|e] s].
  - destruct Hr as (-> & Ht & Hvs & Hin). eapply zero_outcome; [done|done|done|].
    apply discard_ranges_ok; [apply zero_buf_len_pos|apply Hb|done].
  - destruct Hr as (-> & -> & Ht). eapply quiet; [done|exact disk_kept|]. intros Ha. by apply step_zero_rejected.
Qed.

Lemma write_zeroes_outcome :
  zeroing (params_of b) VIRTIO_BLK_T_WRITE_ZEROES ->
  outcome b m VIRTIO_BLK_T_WRITE_ZEROES sector C (do_write_zeroes b.(VirtioBlk.config) segs (d0, m)).
Proof.
  intros Hz. unfold do_write_zeroes, st_bind. pose proof requested_ranges_spec as Hr.
  destruct (requested_ranges _ _ _) as [[vs|e] s].
  - destruct Hr as (-> & Ht & Hvs & Hin). eapply zero_outcome; [done|done|done|].
    apply zero_ranges_ok; [apply zero_buf_len_pos| |apply Hb|done]. intros ->. apply zero_buf_len_pos.
  - destruct Hr as (-> & -> & Ht). eapply quiet; [done|exact disk_kept|]. intros Ha. by apply step_zero_rejected.
Qed.

Lemma request_outcome typ : outcome b m typ sector C (VirtioBlk.request b typ sector segs (total_len segs) (d0, m)).
Proof.
  unfold VirtioBlk.request, VirtioBlk.negotiated.
  destruct (Z.eqb_spec typ 0) as [->|N0]; [apply in_outcome|]. destruct (Z.eqb_spec typ 1) as [->|N1]; [apply out_outcome|].
  assert (~ flushing (params_of b) typ -> ~ zeroing (params_of b) typ -> typ <> 8 ->
    outcome b m typ sector C (Err VIRTIO_BLK_S_UNSUPP, (d0, m))) as Hun.
  { intros Hf Hz N8. eapply quiet; [done|exact disk_kept|]. intros Ha. by apply step_unsupported. }
  unfold flushing, zeroing, has_feature in Hun. simpl p_features in Hun.
  destruct (Z.eqb_spec typ 4) as [->|N4].
  { case_if; [by apply flush_outcome|]. apply Hun; [by intros [_ ?]|intros [[? _]|[? _]]; lia|lia]. }
  destruct (Z.eqb_spec typ 8) as [->|N8]; [apply id_outcome|].
  destruct (Z.eqb_spec typ 11) as [->|N11].
  { case_if; [apply discard_outcome; by left|]. apply Hun; [intros [? _]; lia|intros [[_ ?]|[? _]]; [done|lia]|lia]. }
  destruct (Z.eqb_spec typ 13) as [->|N13].
  { case_if; [apply write_zeroes_outcome; by right|]. apply Hun; [intros [? _]; lia|intros [[? _]|[_ ?]]; [lia|done]|lia]. }
  apply Hun; [intros [? _]; lia|intros [[? _]|[? _]]; lia|lia].
Qed.
End Request.

Lemma status_written m sd st :
  VMem.ok m -> desc_ok sd -> byte_ok st ->
  mem_holds m (VMem.write m sd.(Descriptor.addr) [st]).2 (scatter (VMem.byte m) [sd.(Descriptor.addr)] [st]).
Proof.
  intros Hm [Ha _] Hst. destruct (Z.le_gt_cases (sd.(Descriptor.addr) + 1) (VMem.len m)) as [Hin|Hout].
  - destruct (VMem.write_in m sd.(Descriptor.addr) [st]) as (m' & -> & W1 & W2 & W3); [done|done|by constructor|done|].
    split_and!; [done..|]. intros a Ha'. rewrite W3 by done. apply splice_scatter.
  - rewrite VMem.write_out by (done || simpl; lia). split_and!; [done..|]. intros a Ha'. symmetry. apply scatter_other.
    intros ->%list_elem_of_singleton. simpl in Ha'. lia.
Qed.

Lemma status_byte p m f typ sector C st f' reply : request_step p m f typ sector C st f' reply -> byte_ok st.
Proof. by destruct 1. Qed.

Lemma request_sector_pos m ds : VMem.ok m -> 0 <= request_sector m ds.
Proof.
  intros Hm. apply from_le_bytes_uint. unfold slice. apply Forall_take, Forall_drop. unfold header_bytes, values.
  apply Forall_fmap, Forall_true. intros x. by apply VMem.byte_u8.
Qed.

(** The parts the device finds in a chain. *)
Lemma chain_parts m ds :
  VMem.ok m -> Forall desc_ok ds -> Z.of_nat (length ds) <= VIRTIO_BLK_MAX_REQUEST_DESCRIPTORS ->
  match read_header m (removelast ds) with
  | None => ~ well_formed m ds
  | Some (hdr, rest, off) =>
      match data_segments (map seg_desc rest) off 0 with
      | None => ~ well_formed m ds
      | Some (segs, total) =>
          well_formed m ds /\ hdr = header_bytes m ds /\ cells segs = data_cells ds /\ total = total_len segs /\
          Forall seg_ok segs /\ Forall nonempty segs
      end
  end.
Proof.
  intros Hm Hds Hlen. set (body := map whole (removelast ds)).
  assert (Forall desc_ok (removelast ds)) as Hbd.
  { destruct ds as [|d ds']; [done|]. rewrite (app_removelast_last d) in Hds by done. by apply Forall_app in Hds as [? _]. }
  assert (Forall seg_ok body) as Hbok by (apply Forall_fmap; eapply Forall_impl; [exact Hbd|apply whole_ok]).
  pose proof (gather_spec m Hm readable 16 body 0 [] Hbok (cursor_ok_0 _ Hbok)) as Hg. cbv zeta in Hg.
  change (Z.to_nat 16 - length [])%nat with 16%nat in Hg. change (gather readable m 16 body 0 []) with (read_header m (removelast ds)) in Hg.
  destruct (read_header m (removelast ds)) as [[[hdr rest] off]|]; [|by intros (_ & Hf & _)].
  destruct Hg as [G1 _ G3 G4 G5 [pre Hpre]]. rewrite from_0 in *.
  assert (map whole (map seg_desc rest) = rest /\ Forall desc_ok (map seg_desc rest)) as [Hrest Hrok].
  { assert (Forall (fun s => whole (seg_desc s) = s /\ desc_ok (seg_desc s)) body) as Hall.
    { apply Forall_fmap. eapply Forall_impl; [exact Hbd|]. done. }
    rewrite Hpre in Hall. apply Forall_app in Hall as [_ Hall]. split.
    - rewrite map_map. rewrite <- (map_id rest) at 2. apply map_ext_in. intros x Hx%list_elem_of_In.
      by apply (proj1 (Forall_forall _ _) Hall).
    - apply Forall_fmap. eapply Forall_impl; [exact Hall|]. by intros x [_ ?]. }
  pose proof (data_segments_spec (map seg_desc rest) off 0 Hrok) as Hd. rewrite Hrest in Hd.
  specialize (Hd G5 ltac:(done)). cbv zeta in Hd. rewrite G4 in Hd. change (drop 16 (cells body)) with (data_cells ds) in Hd.
  destruct (data_segments _ off 0) as [[segs total]|]; [|intros (_ & _ & ?); lia].
  destruct Hd as (D1 & D2 & D3 & D4 & D5). split_and!; try done.
  unfold well_formed. split; [done|]. split; [done|]. rewrite <- D1.
  rewrite length_cells; [lia|]. eapply Forall_impl; [exact D3|]. unfold nonempty. lia.
Qed.

(** The end of every path. *)
Lemma complete_ok b (q : VirtQueue.t) m m1 sd head st :
  layout m q -> VMem.ok m1 -> VMem.len m1 = VMem.len m -> uint 16 head -> desc_ok sd -> (forall s, st = Some s -> byte_ok s) ->
  exists m2 m', VirtioBlk.complete head sd st b q m1 = (Ok (wants_irq m2 q), b, bump q, m') /\ published q head 0 m2 m' /\
    mem_holds m1 m2 (match st with Some s => scatter (VMem.byte m1) [sd.(Descriptor.addr)] [s] | None => VMem.byte m1 end).
Proof.
  intros Hlay Hm1 Hlen Hh Hsd Hst. unfold VirtioBlk.complete. set (m2 := match st with Some _ => _ | None => m1 end).
  assert (mem_holds m1 m2 (match st with Some s => scatter (VMem.byte m1) [sd.(Descriptor.addr)] [s] | None => VMem.byte m1 end)) as J2.
  { destruct st as [s|]; [by apply status_written; [..|apply Hst]|by apply mem_holds_refl]. }
  pose proof J2 as (O2 & L2 & _).
  destruct (add_used_spec m2 q head 0 O2) as (m' & -> & Hp); [|done|done|by exists m2, m'].
  destruct Hlay. split; try done; rewrite L2, Hlen; done.
Qed.

Lemma with_disk_self b : VirtioBlk.with_disk b.(VirtioBlk.disk) b = b.
Proof. by destruct b. Qed.

(** A chain that is completed without being looked at further. *)
Lemma refused_ok b (q : VirtQueue.t) m ds sd head st :
  blk_ok b -> VMem.ok m -> layout m q -> uint 16 head -> desc_ok sd ->
  st = None /\ ~ status_cell_ok sd \/ st = Some VIRTIO_BLK_S_IOERR /\ status_cell_ok sd /\ ~ well_formed m ds ->
  exists d' st' m1 m',
    VirtioBlk.complete head sd st b q m = (Ok (wants_irq m1 q), VirtioBlk.with_disk d' b, bump q, m') /\
    succeeds b.(VirtioBlk.disk) d' /\
    served (params_of b) m (vd_byte b.(VirtioBlk.disk)) ds sd st' (vd_byte d') m1 /\ published q head 0 m1 m'.
Proof.
  intros Hb Hm Hlay Hh Hsd Hst. destruct (complete_ok b q m m sd head st) as (m2 & m' & -> & Hp & Hm2); [done..| |].
  { intros s ->. destruct Hst as [[? _]|[[= ->] _]]; done. }
  exists b.(VirtioBlk.disk), st, m2, m'. rewrite with_disk_self. split; [done|]. split; [split; [apply Hb|done]|]. split; [|done].
  destruct Hst as [[-> Hno]|(-> & Hyes & Hw)]; [by apply served_silent|by apply served_malformed].
Qed.

(** One chain. *)
Lemma process_served b (q : VirtQueue.t) m ds sd head :
  blk_ok b -> VMem.ok m -> layout m q -> uint 16 head -> Forall desc_ok ds -> last ds = Some sd ->
  exists d' st m1 m',
    VirtioBlk.process_queue 0 head ds b q m = (Ok (wants_irq m1 q), VirtioBlk.with_disk d' b, bump q, m') /\
    succeeds b.(VirtioBlk.disk) d' /\
    served (params_of b) m (vd_byte b.(VirtioBlk.disk)) ds sd st (vd_byte d') m1 /\ published q head 0 m1 m'.
Proof.
  intros Hb Hm Hlay Hh Hds Hlast. assert (desc_ok sd) as Hsd.
  { apply last_Some in Hlast as [l ->]. apply Forall_app in Hds as [_ Hds]. by inversion Hds. }
  unfold VirtioBlk.process_queue. cbn [Z.eqb negb]. rewrite Hlast.
  assert (Descriptor.is_write_only sd && nz sd.(Descriptor.len) = true <-> status_cell_ok sd) as Hok.
  { unfold status_cell_ok. rewrite andb_true_iff, negb_true_iff, Z.eqb_neq. done. }
  destruct (Descriptor.is_write_only sd && nz _) eqn:Hcan; cbn [negb].
  2:{ assert (~ status_cell_ok sd) as Hno by (rewrite <- Hok; done). destruct (_ <? _); (apply refused_ok; [done..|by left]). }
  assert (status_cell_ok sd) as Hyes by by apply Hok.
  pose proof (fun Hw => refused_ok b q m ds sd head _ Hb Hm Hlay Hh Hsd (or_intror (conj eq_refl (conj Hyes Hw)))) as Hbad.
  destruct (Z.ltb_spec VIRTIO_BLK_MAX_REQUEST_DESCRIPTORS (Z.of_nat (length ds))) as [Hmany|Hmany].
  { apply Hbad. intros [? _]. lia. }
  pose proof (chain_parts m ds Hm Hds Hmany) as Hparts.
  destruct (read_header m (removelast ds)) as [[[hdr rest] off]|]; [|by apply Hbad].
  destruct (data_segments (map seg_desc rest) off 0) as [[segs total]|]; [|by apply Hbad].
  destruct Hparts as (Hw & -> & HC & -> & Hso & Hne).
  assert (0 <= request_sector m ds) as Hsec by by apply request_sector_pos.
  pose proof (request_outcome b m (request_sector m ds) segs Hb Hm Hsec Hso Hne (request_type m ds)) as Ho. rewrite HC in Ho.
  fold (request_type m ds) (request_sector m ds). destruct (VirtioBlk.request _ _ _ _ _ _) as [r [d' m1]].
  destruct Ho as (reply & Hstep & Hsuc & Hlen & Hm1). simpl in Hstep, Hm1, Hsuc. pose proof Hm1 as (O1 & L1 & B1).
  destruct (complete_ok (VirtioBlk.with_disk d' b) q m m1 sd head (Some (VirtioBlk.status_of r))) as (m2 & m' & -> & Hp & O2 & L2 & B2);
    [done..|intros s [= <-]; by eapply status_byte|].
  exists d', (Some (VirtioBlk.status_of r)), m2, m'. split; [done|]. split; [done|]. split; [|done].
  eapply served_request; [done|done|exact Hstep|].
  split; [done|]. split; [lia|]. intros a Ha. rewrite B2 by lia. unfold answered. rewrite scatter_app.
  2:{ rewrite length_take, length_fmap. lia. }
  apply scatter_ext. by apply B1.
Qed.

(** A sequence of chains, each with the queue and the memory it finds. *)
Fixpoint run_kicks (ks : list (kick M)) b : list (reply M) * VirtioBlk.t D :=
  match ks with
  | [] => ([], b)
  | k :: ks =>
      let '(r, b, q, m) := VirtioBlk.process_queue 0 k.(k_head) k.(k_chain) b k.(k_queue) k.(k_memory) in
      let '(os, b) := run_kicks ks b in ((r, q, m) :: os, b)
  end.

Lemma run_served ks b :
  blk_ok b -> Forall kick_ok ks ->
  let '(os, b') := run_kicks ks b in
  blk_ok b' /\ params_of b' = params_of b /\
  kicks_run (params_of b) (vd_byte b.(VirtioBlk.disk)) ks os (vd_byte b'.(VirtioBlk.disk)).
Proof.
  intros Hb Hks. revert b Hb. induction Hks as [|k ks [K1 K2 K3 K4 K5] Hks IH]; intros b Hb; simpl.
  { split; [done|]. split; [done|]. constructor. }
  destruct (last k.(k_chain)) as [sd|] eqn:Hlast; [|by apply last_None in Hlast].
  destruct (process_served b k.(k_queue) k.(k_memory) k.(k_chain) sd k.(k_head)) as (d' & st & m1 & m' & -> & [O Hc] & Hsv & Hp); [done..|].
  assert (blk_ok (VirtioBlk.with_disk d' b)) as Hb' by (destruct Hb; split; done).
  specialize (IH _ Hb'). destruct (run_kicks ks _) as [os b2]. destruct IH as (Hb2 & Hp2 & Hr).
  assert (params_of (VirtioBlk.with_disk d' b) = params_of b) as Hpar by (unfold params_of; simpl; by rewrite Hc).
  rewrite Hpar in Hp2, Hr. split; [done|]. split; [done|]. eapply kicks_next; [|exact Hr]. by exists sd, st, m1, m'.
Qed.

(** C10: The block device implements its specification.  For every sequence of
    descriptor chains, whatever the driver puts into them and however it cuts
    its buffers, over any disk that keeps the disk contract, also one that
    fails: each chain is completed exactly once under its own head, the answer,
    the status byte and the disk are those of the specification on an array of
    bytes, and nothing else in guest memory is written. *)
Theorem blk_refines ks b :
  blk_ok b -> Forall kick_ok ks ->
  let '(os, b') := run_kicks ks b in
  blk_ok b' /\ params_of b' = params_of b /\
  kicks_run (params_of b) (vd_byte b.(VirtioBlk.disk)) ks os (vd_byte b'.(VirtioBlk.disk)).
Proof. intros Hb Hks. exact (run_served ks b Hb Hks). Qed.
End Refine.

(** ** Consequences of the specification *)
Section Consequences.
Context `{VMem.Spec M} (p : params).
Implicit Types (m : M) (f : Z -> Z).

(** The bytes of the disk that a chain may change. *)
Definition changes m ds (a : Z) : Prop :=
  request_type m ds = VIRTIO_BLK_T_OUT /\
    request_sector m ds * VIRTIO_BLK_SECTOR_SIZE <= a <
      request_sector m ds * VIRTIO_BLK_SECTOR_SIZE + Z.of_nat (length (data_cells ds)) \/
  (request_type m ds = VIRTIO_BLK_T_DISCARD \/ request_type m ds = VIRTIO_BLK_T_WRITE_ZEROES) /\
    in_ranges (ranges_of m (data_cells ds)) a = true.

Lemma served_frame m f ds sd st f' m1 a :
  served p m f ds sd st f' m1 -> 0 <= a < p.(p_capacity) -> ~ changes m ds a -> f' a = f a.
Proof.
  intros Hs Ha Hn. destruct Hs as [f' m1 _ Hf _|f' m1 _ _ Hf _|st f' rp m1 _ _ Hstep _]; [by apply Hf..|].
  assert (forall k, request_type m ds = VIRTIO_BLK_T_OUT ->
    splice f (request_sector m ds * VIRTIO_BLK_SECTOR_SIZE) (take k (values m (data_cells ds))) a = f a) as Hout.
  { intros k Ht. apply splice_other. rewrite length_take. unfold values. rewrite !length_fmap. intros Hr. apply Hn. left. split; [done|]. lia. }
  assert (zeroing p (request_type m ds) -> in_ranges (ranges_of m (data_cells ds)) a = false) as Hzero.
  { intros Hz. apply not_true_iff_false. intros E. apply Hn. right. split; [|done]. by destruct Hz as [[? _]|[? _]]; [left|right]. }
  inversion Hstep; subst; try match goal with J : StorageArray.agree _ _ _ |- _ => rewrite (J a Ha) end; try done.
  - rewrite <- (firstn_all (values m (data_cells ds))). by apply Hout.
  - by apply Hout.
  - unfold zeros. by rewrite Hzero.
  - match goal with J : forall a, _ -> _ -> f' a = f a |- _ => apply J; [done|by apply Hzero] end.
Qed.

(** An answer fits the data cells. *)
Lemma step_reply m f typ sector C st f' rp :
  request_step p m f typ sector C st f' rp ->
  (length rp <= length C)%nat /\ Forall (fun a => 0 <= a < VMem.len m) ((take (length rp) C).*2).
Proof.
  assert (forall n C', Forall (usable true m) (take n C') -> forall k, (k <= n)%nat -> Forall (fun a => 0 <= a < VMem.len m) ((take k C').*2)) as Hu.
  { intros n C' HC k Hk. apply Forall_fmap. replace k with (k `min` n)%nat by lia. rewrite <- take_take.
    eapply Forall_impl; [by apply Forall_take|]. by intros c [_ ?]. }
  destruct 1; simpl; rewrite ?span_length, ?length_take; (split; [lia|]); try constructor.
  - apply (Hu (length C)); [by rewrite firstn_all|done].
  - by apply (Hu k).
  - by apply (Hu (length (p_id p))); [|lia].
  - by apply (Hu k); [|lia].
Qed.

Lemma out_step_ok m f sector C f' rp :
  request_step p m f VIRTIO_BLK_T_OUT sector C VIRTIO_BLK_S_OK f' rp ->
  in_range p sector C /\ StorageArray.agree p.(p_capacity) f' (splice f (sector * VIRTIO_BLK_SECTOR_SIZE) (values m C)).
Proof. intros Hs. inversion Hs; subst; try done; unfold flushing, zeroing in *; naive_solver. Qed.

Lemma in_step_ok m f sector C f' rp :
  request_step p m f VIRTIO_BLK_T_IN sector C VIRTIO_BLK_S_OK f' rp -> rp = span f (sector * VIRTIO_BLK_SECTOR_SIZE) (length C).
Proof. intros Hs. inversion Hs; subst; try done; unfold flushing, zeroing in *; naive_solver. Qed.

Lemma kicks_run_frame f (ks : list (kick M)) os f' a :
  kicks_run p f ks os f' -> 0 <= a < p.(p_capacity) -> Forall (fun k => ~ changes k.(k_memory) k.(k_chain) a) ks -> f' a = f a.
Proof.
  intros Hr Ha. induction Hr as [|f k o f1 ks os f2 (sd & st & m1 & m' & _ & Hs & _) _ IH]; intros Hk; [done|].
  apply Forall_cons in Hk as [Hk1 Hk2]. rewrite (IH Hk2). by eapply served_frame.
Qed.

Lemma kicks_run_app f (ks1 ks2 : list (kick M)) os f' :
  kicks_run p f (ks1 ++ ks2) os f' <->
  exists os1 os2 f1, os = os1 ++ os2 /\ kicks_run p f ks1 os1 f1 /\ kicks_run p f1 ks2 os2 f'.
Proof.
  revert f os. induction ks1 as [|k ks1 IH]; intros f os; simpl.
  - split; [intros Hr; exists [], os, f; split; [done|]; split; [constructor|done]|].
    intros (os1 & os2 & f1 & -> & H1' & H2'). by inversion H1'; subst.
  - split.
    + intros Hr. inversion Hr as [|? ? o g ? os' ? Hk Hr']; subst. apply IH in Hr' as (os1 & os2 & g' & -> & R1 & R2).
      exists (o :: os1), os2, g'. split; [done|]. split; [by eapply kicks_next|done].
    + intros (os1 & os2 & g & -> & R1 & R2). inversion R1 as [|? ? o g' ? os' ? Hk Hr']; subst. simpl.
      eapply kicks_next; [done|]. apply IH. by exists os', os2, g.
Qed.

(** The buffers of a chain do not overlap each other, the status or the used ring. *)
Definition apart (q : VirtQueue.t) ds (sd : Descriptor.t) : Prop :=
  NoDup ((data_cells ds).*2 ++ [sd.(Descriptor.addr)]) /\
  Forall (fun a => a < VirtQueue.used_addr q \/ VirtQueue.used_addr q + (6 + 8 * VirtQueue.size q) <= a)
    ((data_cells ds).*2 ++ [sd.(Descriptor.addr)]).

Lemma published_other q m m1 m' head len a :
  layout m q -> VMem.len m1 = VMem.len m -> published q head len m1 m' -> 0 <= a < VMem.len m ->
  a < VirtQueue.used_addr q \/ VirtQueue.used_addr q + (6 + 8 * VirtQueue.size q) <= a -> VMem.byte m' a = VMem.byte m1 a.
Proof.
  intros [Hs _ _ _ _ _ _] Hl Hp Ha Hout. pose proof (ring_index_bound q q.(VirtQueue.next_used) ltac:(lia)) as Hr.
  apply (pub_frame _ _ _ _ _ Hp); [lia|unfold used_slot; lia|lia].
Qed.

(** What the guest finds in its buffers after the chain has been completed. *)
Lemma answer_seen q m m1 m' ds sd head st reply :
  layout m q -> mem_holds m m1 (answered m ds sd st reply) -> published q head 0 m1 m' -> apart q ds sd ->
  (length reply <= length (data_cells ds))%nat -> Forall (fun a => 0 <= a < VMem.len m) ((take (length reply) (data_cells ds)).*2) ->
  values m' (take (length reply) (data_cells ds)) = reply /\
  (0 <= sd.(Descriptor.addr) < VMem.len m -> VMem.byte m' sd.(Descriptor.addr) = st).
Proof.
  intros Hlay (O & L & B) Hp [Hnd Hout] Hlen Hin. apply NoDup_app in Hnd as (Hn1 & Hn2 & _).
  assert (NoDup (take (length reply) (data_cells ds).*2 ++ [sd.(Descriptor.addr)])) as Hn.
  { apply NoDup_app. rewrite <- (take_drop (length reply) (data_cells ds).*2) in Hn1, Hn2.
    apply NoDup_app in Hn1 as (Hn1 & _). split; [done|]. split; [|by apply NoDup_singleton].
    intros x Hx. apply Hn2. apply elem_of_app. by left. }
  apply Forall_app in Hout as [Ho1 Ho2%Forall_inv]. split.
  - apply list_eq_same_length with (length reply); [done|unfold values; rewrite !length_fmap, length_take; lia|].
    intros i x y Hi Hx Hy. unfold values in Hx. apply list_lookup_fmap_Some in Hx as (a & -> & Ha).
    assert (a ∈ (take (length reply) (data_cells ds)).*2) as Hel by by eapply list_elem_of_lookup_2.
    rewrite (published_other q m m1 m' head 0); [|done|done|done|by apply (proj1 (Forall_forall _ _) Hin)|].
    + rewrite B by (by apply (proj1 (Forall_forall _ _) Hin)). unfold answered. eapply (scatter_at _ _ _ i); [done| |].
      * rewrite fmap_take in Ha. by apply lookup_app_l_Some.
      * by apply lookup_app_l_Some.
    + rewrite fmap_take in Hel. apply (proj1 (Forall_forall _ _) Ho1). apply elem_of_take in Hel as (j & Hj & _). by eapply list_elem_of_lookup_2.
  - intros Hsd. rewrite (published_other q m m1 m' head 0) by done. rewrite B by done. unfold answered.
    eapply (scatter_at _ _ _ (length reply)); [done| |].
    + rewrite lookup_app_r; rewrite length_take, length_fmap, Nat.min_l by lia; [by rewrite Nat.sub_diag|done].
    + rewrite lookup_app_r, Nat.sub_diag by done. done.
Qed.
End Consequences.

(** ** Requests on a disk that does not fail *)
Section Reliable.
Context `{Target} `{VMem.Spec M} `{DiskSpec D} `{!ReliableDisk D}.
Implicit Types (b : VirtioBlk.t D) (k : kick M).

Lemma no_faults : ~ faults (D := D).
Proof. intros [e He]. by apply vd_reliable in He. Qed.

(** The request can be carried out. *)
Definition acceptable (p : params) (m : M) (typ sector : Z) (C : list cell) : Prop :=
  typ = VIRTIO_BLK_T_IN /\ in_range p sector C /\ Forall (usable true m) C \/
  typ = VIRTIO_BLK_T_OUT /\ in_range p sector C /\ Forall (usable false m) C \/
  flushing p typ \/
  typ = VIRTIO_BLK_T_GET_ID /\ C <> [] /\ Forall (usable true m) (take (length p.(p_id)) C) \/
  zeroing p typ /\ table_valid p m C.

(** A transfer to the disk runs into a buffer it cannot use. *)
Definition half_written (p : params) (m : M) (typ sector : Z) (C : list cell) : Prop :=
  typ = VIRTIO_BLK_T_OUT /\ in_range p sector C /\ ~ Forall (usable false m) C.

Lemma step_exact (p : params) (m : M) f typ sector C st f' rp :
  ~ p.(p_faults) -> request_step p m f typ sector C st f' rp ->
  (st = VIRTIO_BLK_S_OK <-> acceptable p m typ sector C) /\
  (st <> VIRTIO_BLK_S_OK -> ~ half_written p m typ sector C -> StorageArray.agree p.(p_capacity) f' f).
Proof.
  intros Hnf Hstep. unfold acceptable, half_written.
  assert (forall P : Prop, p.(p_faults) \/ P -> P) as Hcut by tauto.
  destruct Hstep; unfold cut, flushing, zeroing in *;
    repeat match goal with J : p_faults p \/ _ |- _ => apply Hcut in J end.
  all: split; [|intuition (done || lia)].
  all: intuition (done || lia).
Qed.

(** C17: The status is exact.  On a disk that does not fail the status byte of a
    request is OK exactly when its chain is well formed and the request is
    acceptable: a transfer of whole sectors within the capacity with buffers of
    the right direction in memory, a negotiated flush, an identification, or a
    table of ranges that are aligned, in bounds and not too many.  A request
    with another status has left the disk as it was, unless it is a transfer
    to the disk that ran into an unusable buffer. *)
Theorem blk_status_exact b (q : VirtQueue.t) (m : M) ds sd head :
  blk_ok b -> VMem.ok m -> layout m q -> uint 16 head -> Forall desc_ok ds -> last ds = Some sd ->
  status_cell_ok sd -> apart q ds sd -> 0 <= sd.(Descriptor.addr) < VMem.len m ->
  let p := params_of b in
  let typ := request_type m ds in
  let sector := request_sector m ds in
  let C := data_cells ds in
  let '(_, b', _, m') := VirtioBlk.process_queue 0 head ds b q m in
  (VMem.byte m' sd.(Descriptor.addr) = VIRTIO_BLK_S_OK <-> well_formed m ds /\ acceptable p m typ sector C) /\
  (VMem.byte m' sd.(Descriptor.addr) <> VIRTIO_BLK_S_OK -> ~ (well_formed m ds /\ half_written p m typ sector C) ->
   StorageArray.agree (capacity_bytes b.(VirtioBlk.disk)) (vd_byte b'.(VirtioBlk.disk)) (vd_byte b.(VirtioBlk.disk))).
Proof.
  intros Hb Hm Hlay Hh Hds Hlast Hst Hap Hsd p typ sector C.
  destruct (process_served b q m ds sd head) as (d' & st & m1 & m' & -> & [O Hc] & Hsv & Hp); [done..|]. simpl.
  destruct Hsv as [f' m1 Hno _ _|f' m1 _ Hw Hf Hm1|st f' rp m1 _ Hw Hstep Hm1]; [done|..].
  - destruct (answer_seen q m m1 m' ds sd head _ [] Hlay Hm1 Hp Hap) as [_ Hbyte]; [simpl; lia|constructor|].
    rewrite Hbyte by done. split; [|done]. split; [done|by intros [? _]].
  - destruct (answer_seen q m m1 m' ds sd head _ rp Hlay Hm1 Hp Hap) as [_ Hbyte].
    1,2: by apply step_reply in Hstep as [? ?].
    rewrite Hbyte by done. destruct (step_exact p m _ _ _ _ _ _ _ no_faults Hstep) as [E1 E2]. fold typ sector C in E1, E2. tauto.
Qed.

(** A request of the given type that can be carried out. *)
Definition requests (p : params) k (sd : Descriptor.t) (typ : Z) : Prop :=
  last k.(k_chain) = Some sd /\ status_cell_ok sd /\ well_formed k.(k_memory) k.(k_chain) /\
  request_type k.(k_memory) k.(k_chain) = typ /\
  acceptable p k.(k_memory) typ (request_sector k.(k_memory) k.(k_chain)) (data_cells k.(k_chain)).

Lemma requests_step (p : params) k sd typ f o f' :
  ~ p.(p_faults) -> requests p k sd typ -> kick_step p f k o f' ->
  exists rp m1,
    request_step p k.(k_memory) f typ (request_sector k.(k_memory) k.(k_chain)) (data_cells k.(k_chain)) VIRTIO_BLK_S_OK f' rp /\
    mem_holds k.(k_memory) m1 (answered k.(k_memory) k.(k_chain) sd VIRTIO_BLK_S_OK rp) /\
    published k.(k_queue) k.(k_head) 0 m1 o.2.
Proof.
  intros Hnf (Hl & Hst & Hw & Ht & Hacc) (sd' & st & m1 & m' & Hl' & Hs & -> & Hp). rewrite Hl in Hl'. injection Hl' as <-.
  destruct Hs as [f' m1 Hno _ _|f' m1 _ Hw' _ _|st f' rp m1 _ _ Hstep Hm1]; [done..|].
  rewrite Ht in Hstep. destruct (step_exact p _ _ _ _ _ _ _ _ Hnf Hstep) as [[_ E] _].
  assert (st = VIRTIO_BLK_S_OK) as -> by by apply E. by exists rp, m1.
Qed.

(** C11: The guest reads what it has written.  After a write request for some
    sectors and any chains that do not change them, a read request for these
    sectors puts the bytes that were written into the buffers of its chain. *)
Theorem blk_write_read b w ks r sdw sdr :
  blk_ok b -> Forall kick_ok (w :: ks ++ [r]) ->
  requests (params_of b) w sdw VIRTIO_BLK_T_OUT -> requests (params_of b) r sdr VIRTIO_BLK_T_IN ->
  request_sector r.(k_memory) r.(k_chain) = request_sector w.(k_memory) w.(k_chain) ->
  length (data_cells r.(k_chain)) = length (data_cells w.(k_chain)) ->
  (forall a, request_sector w.(k_memory) w.(k_chain) * VIRTIO_BLK_SECTOR_SIZE <= a <
       request_sector w.(k_memory) w.(k_chain) * VIRTIO_BLK_SECTOR_SIZE + Z.of_nat (length (data_cells w.(k_chain))) ->
     Forall (fun k => ~ changes k.(k_memory) k.(k_chain) a) ks) ->
  apart r.(k_queue) r.(k_chain) sdr ->
  let '(os, _) := run_kicks (w :: ks ++ [r]) b in
  exists o, last os = Some o /\ values o.2 (data_cells r.(k_chain)) = values w.(k_memory) (data_cells w.(k_chain)).
Proof.
  intros Hb Hks Hw Hr Hsec Hlen Hmid Hap. pose proof (run_served (w :: ks ++ [r]) b Hb Hks) as Hrun.
  destruct (run_kicks _ b) as [os b']. destruct Hrun as (_ & _ & Hrun). apply Forall_cons in Hks as [Hkw [_ Hkr%Forall_inv]%Forall_app].
  change (w :: ks ++ [r]) with ([w] ++ ks ++ [r]) in Hrun. apply kicks_run_app in Hrun as (os1 & os2 & f1 & -> & R1 & R2).
  apply kicks_run_app in R2 as (os3 & os4 & f2 & -> & R2 & R3).
  inversion R1 as [|? ? ow g1 ? ? ? Kw Kw']; subst. inversion Kw'; subst.
  inversion R3 as [|? ? o g2 ? ? ? Kr Kr']; subst. inversion Kr'; subst.
  exists o. split; [by rewrite !app_assoc, last_snoc|].
  destruct (requests_step (params_of b) w sdw _ _ _ _ no_faults Hw Kw) as (rpw & mw & [(_ & _ & Hfit) Hsame]%out_step_ok & _).
  destruct (requests_step (params_of b) r sdr _ _ _ _ no_faults Hr Kr) as (rp & m1 & Sr & Hm1 & Hp).
  pose proof (step_reply _ _ _ _ _ _ _ _ _ Sr) as [Hl Hin]. apply in_step_ok in Sr. rewrite Hsec, Hlen in Sr.
  destruct (answer_seen _ _ _ _ _ _ _ _ _ (ko_layout _ Hkr) Hm1 Hp Hap Hl Hin) as [Hv _].
  rewrite Sr, span_length, <- Hlen, firstn_all in Hv. rewrite Hv, Hlen.
  pose proof (request_sector_pos w.(k_memory) w.(k_chain) (ko_memory _ Hkw)) as Hpos.
  set (off := request_sector _ _ * _) in *. assert (length (data_cells w.(k_chain)) = length (values w.(k_memory) (data_cells w.(k_chain)))) as Hlv
    by (unfold values; by rewrite !length_fmap).
  rewrite Hlv. etransitivity; [|apply (splice_span (vd_byte b.(VirtioBlk.disk)) off)]. apply span_ext. intros a Ha. rewrite <- Hlv in Ha.
  rewrite (kicks_run_frame _ _ _ _ _ a R2); [apply Hsame|..]; simpl in *; [lia|lia|by apply Hmid].
Qed.
End Reliable.

(** ** A concrete guest

    The queue of [VirtqProps]; a header in two buffers at 256 and 264, a sector
    at 512 and the status at 300. *)
Definition blk_memory (typ sector : Z) (data : list Z) : GuestRam.t :=
  poke 512 data (poke 256 (to_le_bytes 4 typ ++ to_le_bytes 4 0 ++ to_le_bytes 8 sector) (GuestRam.new (Z.to_nat 1100))).
Definition header_descs : list Descriptor.t :=
  [Descriptor.mk 256 8 VIRTQ_DESC_F_NEXT 1; Descriptor.mk 264 8 VIRTQ_DESC_F_NEXT 2].
Definition status_desc : Descriptor.t := Descriptor.mk 300 1 VIRTQ_DESC_F_WRITE 0.
Definition blk_kick (typ sector flags : Z) (data : list Z) : kick GuestRam.t := {|
  k_queue := demo_queue 64 false;
  k_memory := blk_memory typ sector data;
  k_head := 0;
  k_chain := header_descs ++ [Descriptor.mk 512 512 (flags ||| VIRTQ_DESC_F_NEXT) 3; status_desc];
|}.
Definition write_kick : kick GuestRam.t := blk_kick VIRTIO_BLK_T_OUT 1 0 (replicate (Z.to_nat 512) 7).
Definition read_kick : kick GuestRam.t := blk_kick VIRTIO_BLK_T_IN 1 VIRTQ_DESC_F_WRITE [].
Definition flush_kick : kick GuestRam.t := {|
  k_queue := demo_queue 64 false;
  k_memory := blk_memory VIRTIO_BLK_T_FLUSH 0 [];
  k_head := 0;
  k_chain := header_descs ++ [status_desc];
|}.

Lemma demo_kick_ok (k : kick GuestRam.t) :
  k.(k_queue) = demo_queue 64 false -> k.(k_head) = 0 -> GuestRam.len k.(k_memory) = 1100 ->
  forallb (fun x => bool_decide (byte_ok x)) k.(k_memory).(GuestRam.data) = true ->
  forallb (fun d => bool_decide (desc_ok d)) k.(k_chain) = true -> k.(k_chain) <> [] -> kick_ok k.
Proof.
  intros Hq Hh Hl Hd Hc Hn.
  assert (VMem.ok k.(k_memory)) as Hok.
  { split; [by rewrite Hl|]. apply Forall_forall. intros x Hx%list_elem_of_In. rewrite forallb_forall in Hd. by apply (bool_decide_unpack _), Is_true_true, Hd. }
  split; try done.
  - rewrite Hq. split; try done; try (change (VMem.len k.(k_memory)) with (GuestRam.len k.(k_memory)); rewrite Hl; vm_compute; split; discriminate || reflexivity).
    + exists (2 ^ 14). done.
    + right. vm_compute. discriminate.
  - by rewrite Hh.
  - apply Forall_forall. intros x Hx%list_elem_of_In. rewrite forallb_forall in Hc. by apply (bool_decide_unpack _), Is_true_true, Hc.
Qed.

Section Demo.
#[local] Existing Instance wasm32.

Definition demo_blk : VirtioBlk.t (RawDisk.t MemBackend.t) :=
  VirtioBlk.set_features VIRTIO_BLK_F_FLUSH (VirtioBlk.new (RawDisk.mk (MemBackend.mk (replicate (Z.to_nat 1024) 0)) 1024)).

Lemma demo_blk_ok : blk_ok demo_blk.
Proof. split; [split; [split; [by apply Forall_replicate|done]|done]|by repeat constructor|done]. Qed.

Definition demo_kicks : list (kick GuestRam.t) := write_kick :: [flush_kick] ++ [read_kick].

Lemma demo_kicks_ok : Forall kick_ok demo_kicks.
Proof.
  unfold demo_kicks. simpl. rewrite !Forall_cons. split_and!; [apply demo_kick_ok..|constructor].
  all: try (vm_compute; reflexivity). all: discriminate.
Qed.

Lemma demo_header_fits (m : GuestRam.t) rest : GuestRam.len m = 1100 -> fits m readable 16 0 (map whole (header_descs ++ rest)).
Proof.
  intros Hl. exists (map whole header_descs), (map whole rest). split; [by rewrite map_app|]. split; [by repeat constructor|].
  split; [vm_compute; lia|]. change (take 16 _) with (pair false <$> seqZ 256 16). apply Forall_fmap, Forall_forall.
  intros x Hx%elem_of_seqZ. unfold present. simpl. change (VMem.len m) with (GuestRam.len m). lia.
Qed.

Lemma demo_requests p typ sector flags data (write : bool) :
  GuestRam.len (blk_memory typ sector data) = 1100 -> p.(p_capacity) = 1024 ->
  request_type (blk_memory typ sector data) (blk_kick typ sector flags data).(k_chain) = typ ->
  request_sector (blk_memory typ sector data) (blk_kick typ sector flags data).(k_chain) = 1 ->
  data_cells (blk_kick typ sector flags data).(k_chain) = (pair write <$> seqZ 512 512) ->
  typ = VIRTIO_BLK_T_IN /\ write = true \/ typ = VIRTIO_BLK_T_OUT /\ write = false ->
  requests p (blk_kick typ sector flags data) status_desc typ.
Proof.
  intros Hl Hcap Ht Hs Hd Hty. split; [done|]. split; [done|]. split.
  { split; [vm_compute; discriminate|]. split; [by apply demo_header_fits|]. rewrite Hd, length_fmap, length_seqZ. vm_compute. discriminate. }
  split; [done|]. cbn [k_memory blk_kick] in *. rewrite Hs, Hd.
  assert (in_range p 1 (pair write <$> seqZ 512 512)) as Hr.
  { split; [done|]. rewrite length_fmap, length_seqZ. split; [done|]. rewrite Hcap. simpl. lia. }
  assert (forall w, w = write -> Forall (usable w (blk_memory typ sector data)) (pair write <$> seqZ 512 512)) as Hu.
  { intros w ->. apply Forall_fmap, Forall_forall. intros x Hx%elem_of_seqZ. split; [done|]. simpl.
    change (VMem.len (blk_memory typ sector data)) with (GuestRam.len (blk_memory typ sector data)). lia. }
  destruct Hty as [[-> ->]|[-> ->]]; [left|right; left]; (split; [done|]; split; [done|]; by apply Hu).
Qed.

Lemma read_apart : apart read_kick.(k_queue) read_kick.(k_chain) status_desc.
Proof. split; apply (bool_decide_unpack _); vm_compute; exact I. Qed.

Lemma blk_refines_witness :
  let '(os, b') := run_kicks demo_kicks demo_blk in
  blk_ok b' /\ params_of b' = params_of demo_blk /\
  kicks_run (params_of demo_blk) (vd_byte demo_blk.(VirtioBlk.disk)) demo_kicks os (vd_byte b'.(VirtioBlk.disk)).
Proof. pose proof (blk_refines demo_kicks demo_blk demo_blk_ok demo_kicks_ok) as Hr. exact Hr. Defined.

Lemma blk_write_read_witness :
  let '(os, _) := run_kicks (write_kick :: [flush_kick] ++ [read_kick]) demo_blk in
  exists o, last os = Some o /\ values o.2 (data_cells read_kick.(k_chain)) = values write_kick.(k_memory) (data_cells write_kick.(k_chain)).
Proof.
  apply (blk_write_read demo_blk write_kick [flush_kick] read_kick status_desc status_desc demo_blk_ok demo_kicks_ok).
  - apply (demo_requests _ _ _ _ _ false); try (vm_compute; reflexivity). by right.
  - apply (demo_requests _ _ _ _ _ true); try (vm_compute; reflexivity). by left.
  - vm_compute. reflexivity.
  - vm_compute. reflexivity.
  - intros a _. constructor; [|constructor]. intros [[E _]|[[E|E] _]]; vm_compute in E; discriminate.
  - exact read_apart.
Defined.

Lemma blk_status_exact_witness :
  let p := params_of demo_blk in
  let typ := request_type read_kick.(k_memory) read_kick.(k_chain) in
  let sector := request_sector read_kick.(k_memory) read_kick.(k_chain) in
  let C := data_cells read_kick.(k_chain) in
  let '(_, b', _, m') := VirtioBlk.process_queue 0 read_kick.(k_head) read_kick.(k_chain) demo_blk read_kick.(k_queue) read_kick.(k_memory) in
  (VMem.byte m' status_desc.(Descriptor.addr) = VIRTIO_BLK_S_OK <->
   well_formed read_kick.(k_memory) read_kick.(k_chain) /\ acceptable p read_kick.(k_memory) typ sector C) /\
  (VMem.byte m' status_desc.(Descriptor.addr) <> VIRTIO_BLK_S_OK ->
   ~ (well_formed read_kick.(k_memory) read_kick.(k_chain) /\ half_written p read_kick.(k_memory) typ sector C) ->
   StorageArray.agree (capacity_bytes demo_blk.(VirtioBlk.disk)) (vd_byte b'.(VirtioBlk.disk)) (vd_byte demo_blk.(VirtioBlk.disk))).
Proof.
  destruct (Forall_inv (Forall_inv_tail (Forall_inv_tail demo_kicks_ok))) as [K1 K2 K3 K4 K5].
  assert (last read_kick.(k_chain) = Some status_desc) as Hl by reflexivity.
  assert (status_cell_ok status_desc) as Hs by done.
  assert (0 <= status_desc.(Descriptor.addr) < VMem.len read_kick.(k_memory)) as Ha by (vm_compute; split; [discriminate|reflexivity]).
  pose proof (blk_status_exact demo_blk read_kick.(k_queue) read_kick.(k_memory) read_kick.(k_chain) status_desc read_kick.(k_head)
    demo_blk_ok K1 K2 K3 K4 Hl Hs read_apart Ha) as Hr.
  exact Hr.
Defined.
End Demo.
