(* ===== verification/BlkStack.v ===== *)
(** * The block device over the disk stack

    The virtio block device in front of a write-back cache over a copy-on-write
    overlay over a base image, as the machine attaches a disk. *)

From S2P Require Import Prelude Bytes GuestMem Virtq VirtqFacts Storage StorageFacts BlockCache CacheFacts.
From S2P Require Import SparseDisk SparseFacts SparseInv SparseAlloc SparseContract SparseOpen CowDisk CowFacts StorageArray.
From S2P Require Import VirtioBlk BlkFacts BlkChain BlkSpec BlkProps.

(** ** The specification depends on the array up to the capacity only *)
Section Agree.
Context `{VMem.Spec M} (p : params).
Implicit Types (m : M) (f g : Z -> Z).

(** The same device on a disk that does not fail. *)
Definition steady : params := {|
  p_capacity := p.(p_capacity); p_features := p.(p_features); p_id := p.(p_id); p_seg_max := p.(p_seg_max);
  p_align := p.(p_align); p_faults := False;
|}.

Context (Hnf : ~ p.(p_faults)).

Lemma step_agree m f g typ sector C st f' rp :
  0 <= sector -> StorageArray.agree p.(p_capacity) f g ->
  request_step p m f typ sector C st f' rp -> request_step steady m g typ sector C st f' rp.
Proof.
  intros Hs Hfg Hstep. pose proof (fun h => agree_trans p.(p_capacity) h f g) as Htr.
  assert (forall k, (k <= length C)%nat -> in_range p sector C -> span f (sector * 512) k = span g (sector * 512) k) as Hspan.
  { intros k Hk (_ & _ & Hc). apply span_ext. intros a Ha. apply Hfg. lia. }
  assert (forall h src, StorageArray.agree p.(p_capacity) h (splice f (sector * 512) src) ->
    StorageArray.agree p.(p_capacity) h (splice g (sector * 512) src)) as Hsp.
  { intros h src Hh a Ha. rewrite Hh by done. apply splice_ext. by apply Hfg. }
  assert (forall P, p.(p_faults) \/ P -> False \/ P) as Hcut by tauto.
  destruct Hstep; try done.
  - rewrite Hspan by done. apply (step_in steady); auto.
  - rewrite Hspan by done. apply (step_in_cut steady); auto. by apply Hcut.
  - apply (step_out steady); auto.
  - apply (step_out_cut steady _ _ _ _ _ _ k); auto. by apply Hcut.
  - apply (step_range steady); auto.
  - apply (step_flush steady); auto.
  - apply (step_id steady); auto.
  - apply (step_id_cut steady); auto.
  - apply (step_zero steady); auto. intros a Ha. rewrite H4 by done. apply zeros_ext. by apply Hfg.
  - apply (step_zero_rejected steady); auto.
  - apply (step_unsupported steady); auto.
Qed.

Lemma kicks_run_agree f g (ks : list (kick M)) os f' :
  Forall kick_ok ks -> StorageArray.agree p.(p_capacity) f g -> kicks_run p f ks os f' ->
  exists g', StorageArray.agree p.(p_capacity) f' g' /\ kicks_run steady g ks os g'.
Proof.
  intros Hks Hfg Hr. revert g Hfg Hks. induction Hr as [f|f k o f1 ks os f2 Hk Hr IH]; intros g Hfg Hks.
  { exists g. split; [done|]. constructor. }
  apply Forall_cons in Hks as [Hk1 Hks].
  destruct (IH f1 ltac:(done) Hks) as (g' & Hag & Hrun). exists g'. split; [done|]. eapply kicks_next; [|exact Hrun].
  destruct Hk as (sd & st & m1 & m' & Hl & Hs & Ho & Hp). exists sd, st, m1, m'. split; [done|]. split; [|done].
  destruct Hs as [f' m1 Hno Hf Hm|f' m1 Hst Hw Hf Hm|st f' rp m1 Hst Hw Hstep Hm].
  - apply (served_silent steady); [done| |done]. by eapply (agree_trans p.(p_capacity)).
  - apply (served_malformed steady); [done|done| |done]. by eapply (agree_trans p.(p_capacity)).
  - eapply (served_request steady); [done|done| |done]. eapply step_agree; [|done|done]. apply request_sector_pos, Hk1.
Qed.
End Agree.

(** ** A flush *)
Section Flush.
Context `{Target} `{VMem.Spec M} `{DiskSpec D}.
Implicit Types b : VirtioBlk.t D.

Lemma run_kicks_app (ks1 ks2 : list (kick M)) b :
  run_kicks (ks1 ++ ks2) b =
    let '(os1, b1) := run_kicks ks1 b in let '(os2, b2) := run_kicks ks2 b1 in (os1 ++ os2, b2).
Proof.
  revert b. induction ks1 as [|k ks1 IH]; intros b; simpl; [by destruct (run_kicks ks2 b)|].
  destruct (VirtioBlk.process_queue _ _ _ b _ _) as [[[r b1] q] m]. rewrite IH.
  destruct (run_kicks ks1 b1) as [os1 b2]. by destruct (run_kicks ks2 b2).
Qed.

(** A FLUSH request flushes the disk. *)
Lemma flush_disk b (k : kick M) sd :
  kick_ok k -> requests (params_of b) k sd VIRTIO_BLK_T_FLUSH ->
  (run_kicks [k] b).2 = VirtioBlk.with_disk (flush b.(VirtioBlk.disk)).2 b.
Proof.
  intros [K1 K2 K3 K4 K5] (Hl & Hst & Hw & Ht & Hacc). cbn [run_kicks]. unfold VirtioBlk.process_queue. cbn [Z.eqb negb].
  rewrite Hl. destruct Hst as [Hwo Hlen]. rewrite Hwo. apply Z.eqb_neq in Hlen. rewrite Hlen. cbn [andb negb].
  pose proof Hw as (Hmany & _). rewrite (proj2 (Z.ltb_ge _ _)) by done.
  pose proof (chain_parts k.(k_memory) k.(k_chain) K1 K4 Hmany) as Hparts.
  destruct (read_header _ _) as [[[hdr rest] off]|]; [|done].
  destruct (data_segments _ off 0) as [[segs total]|]; [|done]. destruct Hparts as (_ & -> & _).
  fold (request_type k.(k_memory) k.(k_chain)) (request_sector k.(k_memory) k.(k_chain)). rewrite Ht.
  assert (VirtioBlk.negotiated b VIRTIO_BLK_F_FLUSH = true) as Hneg.
  { unfold acceptable, zeroing in Hacc. destruct Hacc as [[? _]|[[? _]|[[_ Hf]|[[? _]|[[[? _]|[? _]] _]]]]]; done. }
  replace (VirtioBlk.request b 4 _ segs total) with (on_disk (M := M) (flush (D := D))) by (unfold VirtioBlk.request; by rewrite Hneg).
  unfold on_disk. destruct (flush b.(VirtioBlk.disk)) as [r d]. unfold VirtioBlk.complete.
  by match goal with |- context [VirtQueue.add_used ?h ?l ?q ?m] => destruct (VirtQueue.add_used h l q m) as [[r' q'] m'] end.
Qed.
End Flush.

(** ** The device of the machine *)
Definition device_params (cap feats : Z) : params := {|
  p_capacity := cap; p_features := feats; p_id := VirtioBlk.DEFAULT_DEVICE_ID; p_seg_max := 126; p_align := 1; p_faults := False;
|}.

Section Machine.
Context `{Target} `{VMem.Spec M} `{BaseSpec Base} `{BackendSpec B} `{LruSpec CacheEntry.t L}.
Abbreviation cow_disk := (AeroCowDisk.t Base B).
Abbreviation stack := (BlockCachedDisk.t cow_disk L).

Definition attach (feats : Z) (d : stack) : VirtioBlk.t stack := VirtioBlk.set_features feats (VirtioBlk.new d).

Section Over.
Variable x : Base.
#[local] Instance kept_view : DiskView cow_disk := over_view x.
#[local] Instance kept_spec : DiskSpec cow_disk := over_spec x.
#[local] Instance kept_reliable : ReliableDisk cow_disk := over_reliable x.

Lemma attach_run (cow : cow_disk) bs n (d : stack) feats (ks : list (kick M)) k sd :
  cow_ok cow -> base_kept x cow -> BlockCachedDisk.new cow bs n = Ok d -> Forall kick_ok (ks ++ [k]) ->
  requests (device_params (capacity_bytes cow) feats) k sd VIRTIO_BLK_T_FLUSH ->
  let '(os, b') := run_kicks (ks ++ [k]) (attach feats d) in
  let inner := b'.(VirtioBlk.disk).(BlockCachedDisk.inner) in
  exists f, kicks_run (device_params (capacity_bytes cow) feats) (cow_byte cow) (ks ++ [k]) os f /\
    cow_ok inner /\ base_kept x inner /\ agree (capacity_bytes cow) (cow_byte inner) f.
Proof.
  intros Hc Hk Hn Hks Hreq.
  destruct (cache_new_ok (H1 := kept_view) cow bs n d (conj Hc Hk) Hn) as (Hd & Hi & Hby).
  assert (capacity_bytes d = capacity_bytes cow) as Hcap by (simpl; by rewrite Hi).
  assert (steady (params_of (attach feats d)) = device_params (capacity_bytes cow) feats) as Hpar by (by rewrite <- Hcap).
  assert (blk_ok (attach feats d)) as Hb by (split; [done|by repeat constructor|done]).
  pose proof (run_served (ks ++ [k]) (attach feats d) Hb Hks) as Hrun.
  rewrite run_kicks_app in *. pose proof Hks as Hks2. apply Forall_app in Hks2 as [Hks1 Hkk%Forall_inv].
  pose proof (run_served ks (attach feats d) Hb Hks1) as Hrun1.
  destruct (run_kicks ks (attach feats d)) as [os1 b1]. destruct Hrun1 as (Hb1 & Hp1 & _).
  pose proof (flush_disk b1 k sd Hkk) as Hfl. destruct (run_kicks [k] b1) as [os2 b2]. destruct Hrun as (_ & Hp2 & Hrun).
  rewrite Hp1 in Hfl. rewrite <- Hpar in Hreq. specialize (Hfl Hreq). simpl in Hfl. subst b2.
  destruct (kicks_run_agree (params_of (attach feats d)) (no_faults (D := stack)) _ (cow_byte cow) _ _ _ Hks
    (fun a _ => Hby a) Hrun) as (f & Hag & Hrun').
  rewrite Hpar in Hrun'. change (p_capacity (params_of (attach feats d))) with (capacity_bytes d) in Hag. rewrite Hcap in Hag.
  pose proof (cached_flush_ok b1.(VirtioBlk.disk) (bo_disk _ Hb1)) as Hf. pose proof (vd_flush b1.(VirtioBlk.disk) (bo_disk _ Hb1)) as Hv.
  assert (capacity_bytes b1.(VirtioBlk.disk) = capacity_bytes cow) as Hc1.
  { rewrite <- Hcap. exact (f_equal p_capacity Hp1). }
  change (Storage.flush b1.(VirtioBlk.disk)) with (BlockCachedDisk.flush b1.(VirtioBlk.disk)) in *.
  cbn [VirtioBlk.disk VirtioBlk.with_disk] in Hag |- *. destruct (BlockCachedDisk.flush b1.(VirtioBlk.disk)) as [r d2]. cbn [snd] in Hag |- *.
  destruct Hf as [Hst [[_ Hall]|[]%reliable]]. destruct Hv as [(_ & _ & Hby2) _].
  pose proof (co_disk _ _ _ (ca_core _ (sp_ok _ _ Hst))) as [Hcow Hkept].
  exists f. split; [done|]. split; [done|]. split; [done|].
  intros a Ha. rewrite <- (Hag a Ha), Hby2 by (by rewrite Hc1). apply Hall. by rewrite <- Hc1 in Ha.
Qed.
End Over.

(** C3: What the guest has flushed is on the overlay.  A block device in front of
    a write-back cache over a copy-on-write overlay over a base image: after any
    sequence of chains that ends in a FLUSH the driver has negotiated, each
    chain has been served as the specification says, on an array that starts as
    the base image; the base image has kept its bytes; and the overlay, opened
    again over the base, holds the array, with every write the device has
    completed. *)
Theorem blk_flush_durable (x : Base) (bk : B) blk (cow : cow_disk) bs n (d : stack) feats (ks : list (kick M)) k sd :
  vd_ok x -> be_ok bk -> uint 32 blk ->
  AeroCowDisk.create x bk blk = Ok cow -> BlockCachedDisk.new cow bs n = Ok d ->
  doff cow.(AeroCowDisk.overlay) + entries cow.(AeroCowDisk.overlay) * bsz cow.(AeroCowDisk.overlay) <= be_limit ->
  (forall a, 64 <= a < doff cow.(AeroCowDisk.overlay) -> be_byte bk a = 0) ->
  Forall kick_ok (ks ++ [k]) -> requests (device_params (capacity_bytes x) feats) k sd VIRTIO_BLK_T_FLUSH ->
  let '(os, b') := run_kicks (ks ++ [k]) (attach feats d) in
  let inner := b'.(VirtioBlk.disk).(BlockCachedDisk.inner) in
  exists f cow', kicks_run (device_params (capacity_bytes x) feats) (vd_byte x) (ks ++ [k]) os f /\
    holds x inner.(AeroCowDisk.base) (vd_byte x) /\
    AeroCowDisk.open inner.(AeroCowDisk.base) inner.(AeroCowDisk.overlay).(AeroSparseDisk.backend) = Ok cow' /\
    agree (capacity_bytes x) (cow_byte cow') f.
Proof.
  intros Hx Hb Hblk Hcr Hn Hroom Hz Hks Hreq.
  destruct (cow_create_ok x bk blk cow Hx Hb Hblk Hcr Hroom Hz) as (Hc & Hbase & Hag).
  assert (base_kept x cow) as Hk by (unfold base_kept; rewrite Hbase; done).
  assert (capacity_bytes cow = capacity_bytes x) as Hcap by (simpl; by rewrite Hbase).
  pose proof (attach_run x cow bs n d feats ks k sd Hc Hk Hn Hks) as Hrun. rewrite Hcap in Hrun. specialize (Hrun Hreq).
  destruct (run_kicks _ _) as [os b']. destruct Hrun as (f & Hrun & Hc2 & Hk2 & Hag2).
  destruct (kicks_run_agree (device_params (capacity_bytes x) feats) (fun h => h) _ (vd_byte x) _ _ _ Hks Hag Hrun) as (f' & Hag' & Hrun').
  exists f', b'.(VirtioBlk.disk).(BlockCachedDisk.inner). split; [exact Hrun'|]. split; [done|]. split; [by apply cow_reopen|].
  by eapply agree_trans.
Qed.
End Machine.

(** ** A concrete disk *)
Section Demo.
#[local] Existing Instance wasm32.

Definition demo_image : ReadOnlyDisk.t (RawDisk.t MemBackend.t) :=
  ReadOnlyDisk.new (RawDisk.mk (MemBackend.mk (replicate (Z.to_nat 1024) 5)) 1024).

Lemma demo_image_ok : vd_ok demo_image.
Proof. split; [split; [by apply Forall_replicate|done]|done]. Qed.

Lemma flush_requested : requests (device_params (capacity_bytes demo_image) VIRTIO_BLK_F_FLUSH) flush_kick status_desc VIRTIO_BLK_T_FLUSH.
Proof.
  split; [done|]. split; [done|]. split.
  { split; [vm_compute; discriminate|]. split; [by apply (demo_header_fits _ [])|vm_compute; discriminate]. }
  split; [vm_compute; reflexivity|]. right. right. left. by split.
Qed.

Lemma blk_flush_durable_witness :
  exists cow (d : BlockCachedDisk.t (AeroCowDisk.t (ReadOnlyDisk.t (RawDisk.t MemBackend.t)) MemBackend.t) (RecencyList.t CacheEntry.t)),
  AeroCowDisk.create demo_image (MemBackend.mk []) 512 = Ok cow /\ BlockCachedDisk.new cow 256 2 = Ok d /\
  let '(os, b') := run_kicks ([write_kick; read_kick] ++ [flush_kick]) (attach VIRTIO_BLK_F_FLUSH d) in
  let inner := b'.(VirtioBlk.disk).(BlockCachedDisk.inner) in
  exists f cow', kicks_run (device_params (capacity_bytes demo_image) VIRTIO_BLK_F_FLUSH) (vd_byte demo_image) ([write_kick; read_kick] ++ [flush_kick]) os f /\
    holds demo_image inner.(AeroCowDisk.base) (vd_byte demo_image) /\
    AeroCowDisk.open inner.(AeroCowDisk.base) inner.(AeroCowDisk.overlay).(AeroSparseDisk.backend) = Ok cow' /\
    agree (capacity_bytes demo_image) (cow_byte cow') f.
Proof.
  eexists. eexists. split; [vm_compute; reflexivity|]. split; [vm_compute; reflexivity|].
  eapply (blk_flush_durable demo_image (MemBackend.mk []) 512 _ 256 2 _ VIRTIO_BLK_F_FLUSH [write_kick; read_kick] flush_kick status_desc).
  - exact demo_image_ok.
  - split; [constructor|done].
  - done.
  - vm_compute. reflexivity.
  - vm_compute. reflexivity.
  - done.
  - intros a Ha. done.
  - pose proof demo_kicks_ok as [Kw [Kf [Kr _]%Forall_cons]%Forall_cons]%Forall_cons. by repeat (apply Forall_cons; split).
  - exact flush_requested.
Defined.
End Demo.
