(* ===== verification/Pit.v ===== *)
(** * 8254 programmable interval timer (crates/devices/src/pit8254.rs)

    A counter ([Channel]), the timer of the PC with its three counters and the
    line to IRQ 0 ([Pit8254]), the ports and the snapshot.  The connected
    callback closes over state that the timer shares with others; [E] is that
    state, and a call of the callback is a function on it ([None]: the callback
    panicked).  The sums that have no overflow check in the source wrap, as in a
    release build. *)

From S2P Require Import Prelude Bytes Collections Snapshot Router.

Abbreviation PIT_CH0 := (0x40) (only parsing).
Abbreviation PIT_CH1 := (0x41) (only parsing).
Abbreviation PIT_CH2 := (0x42) (only parsing).
Abbreviation PIT_CMD := (0x43) (only parsing).

(** The input clock in Hz. *)
Definition PIT_HZ : Z := 1193182.
Definition NS_PER_SEC : Z := 1000000000.

Module AccessMode.
Inductive t := LatchCount | LobyteOnly | HibyteOnly | LobyteHibyte.
#[global] Instance eq_dec : EqDecision t.
Proof. solve_decision. Defined.

Definition from_bits (bits : Z) : t :=
  let bits := bits &&& 3 in
  if bits =? 0 then LatchCount
  else if bits =? 1 then LobyteOnly
  else if bits =? 2 then HibyteOnly
  else LobyteHibyte.

Definition status_bits (a : t) : Z :=
  match a with LatchCount => 0 | LobyteOnly => 1 | HibyteOnly => 2 | LobyteHibyte => 3 end.
End AccessMode.

Module BytePhase.
Inductive t := Low | High.
#[global] Instance eq_dec : EqDecision t.
Proof. solve_decision. Defined.
End BytePhase.

Module LatchedValue.
Record t := mk { value : Z; phase : BytePhase.t }.
Definition new (value : Z) : t := mk value BytePhase.Low.
End LatchedValue.

Module Channel.
Record t := mk {
  mode : Z;
  bcd : bool;
  access_mode : AccessMode.t;
  write_phase : BytePhase.t;
  read_phase : BytePhase.t;
  write_latch_low : Z;
  null_count : bool;
  (** 0 stands for a counter that was not programmed. *)
  reload : Z;
  phase_ticks : Z;
  latched_count : option LatchedValue.t;
  latched_status : option Z;
}.

Definition default : t :=
  mk 0 false AccessMode.LobyteHibyte BytePhase.Low BytePhase.Low 0 true 0 0 None None.

(** Field assignments. *)
Definition with_mode v c := mk v c.(bcd) c.(access_mode) c.(write_phase) c.(read_phase)
  c.(write_latch_low) c.(null_count) c.(reload) c.(phase_ticks) c.(latched_count) c.(latched_status).
Definition with_bcd v c := mk c.(mode) v c.(access_mode) c.(write_phase) c.(read_phase)
  c.(write_latch_low) c.(null_count) c.(reload) c.(phase_ticks) c.(latched_count) c.(latched_status).
Definition with_access_mode v c := mk c.(mode) c.(bcd) v c.(write_phase) c.(read_phase)
  c.(write_latch_low) c.(null_count) c.(reload) c.(phase_ticks) c.(latched_count) c.(latched_status).
Definition with_write_phase v c := mk c.(mode) c.(bcd) c.(access_mode) v c.(read_phase)
  c.(write_latch_low) c.(null_count) c.(reload) c.(phase_ticks) c.(latched_count) c.(latched_status).
Definition with_read_phase v c := mk c.(mode) c.(bcd) c.(access_mode) c.(write_phase) v
  c.(write_latch_low) c.(null_count) c.(reload) c.(phase_ticks) c.(latched_count) c.(latched_status).
Definition with_write_latch_low v c := mk c.(mode) c.(bcd) c.(access_mode) c.(write_phase)
  c.(read_phase) v c.(null_count) c.(reload) c.(phase_ticks) c.(latched_count) c.(latched_status).
Definition with_null_count v c := mk c.(mode) c.(bcd) c.(access_mode) c.(write_phase) c.(read_phase)
  c.(write_latch_low) v c.(reload) c.(phase_ticks) c.(latched_count) c.(latched_status).
Definition with_reload v c := mk c.(mode) c.(bcd) c.(access_mode) c.(write_phase) c.(read_phase)
  c.(write_latch_low) c.(null_count) v c.(phase_ticks) c.(latched_count) c.(latched_status).
Definition with_phase_ticks v c := mk c.(mode) c.(bcd) c.(access_mode) c.(write_phase)
  c.(read_phase) c.(write_latch_low) c.(null_count) c.(reload) v c.(latched_count)
  c.(latched_status).
Definition with_latched_count v c := mk c.(mode) c.(bcd) c.(access_mode) c.(write_phase)
  c.(read_phase) c.(write_latch_low) c.(null_count) c.(reload) c.(phase_ticks) v c.(latched_status).
Definition with_latched_status v c := mk c.(mode) c.(bcd) c.(access_mode) c.(write_phase)
  c.(read_phase) c.(write_latch_low) c.(null_count) c.(reload) c.(phase_ticks) c.(latched_count) v.

Definition effective_reload (c : t) : option Z := if c.(reload) =? 0 then None else Some c.(reload).

(** [mode_bits] has three bits; the alias of a mode is folded onto it. *)
Definition set_mode (c : t) (access : AccessMode.t) (mode_bits : Z) (bcd : bool) : t :=
  let mode := if mode_bits <=? 5 then mode_bits else if mode_bits =? 6 then 2 else 3 in
  mk mode bcd access BytePhase.Low BytePhase.Low c.(write_latch_low) true c.(reload) 0 None None.

Definition load_count_raw (c : t) (raw : Z) : t :=
  let divisor := if raw =? 0 then 65536 else raw in
  with_null_count false (with_phase_ticks 0 (with_reload divisor c)).

(** [x.div_ceil(2)] *)
Definition half_up (x : Z) : Z := (x + 1) / 2.

Definition current_out (c : t) : bool :=
  match effective_reload c with
  | None => true
  | Some reload =>
      if c.(mode) =? 2 then negb (c.(phase_ticks) =? reload - 1)
      else if c.(mode) =? 3 then
        let reload := if reload =? 1 then 2 else reload in
        c.(phase_ticks) <? half_up reload
      else true
  end.

Definition current_count_raw (c : t) : Z :=
  match effective_reload c with
  | None => 0
  | Some reload =>
      if c.(mode) =? 2 then
        let remaining := saturating_sub reload c.(phase_ticks) in
        if remaining =? 65536 then 0 else wrap 16 remaining
      else if c.(mode) =? 3 then
        let reload := if reload =? 1 then 2 else reload in
        let high_ticks := half_up reload in
        let low_ticks := reload / 2 in
        let '(ticks_into_half, half_len) :=
          if c.(phase_ticks) <? high_ticks then (c.(phase_ticks), high_ticks)
          else (c.(phase_ticks) - high_ticks, Z.max low_ticks 1) in
        let counter := saturating_mul 32 (saturating_sub half_len ticks_into_half) 2 in
        if counter =? 65536 then 0 else wrap 16 counter
      else 0
  end.

Definition latch_count (c : t) : t :=
  match c.(latched_count) with
  | Some _ => c
  | None =>
      with_read_phase BytePhase.Low
        (with_latched_count (Some (LatchedValue.new (current_count_raw c))) c)
  end.

Definition status_byte (c : t) : Z :=
  (Z.b2z (current_out c) <<< 7) ||| (Z.b2z c.(null_count) <<< 6)
  ||| (AccessMode.status_bits c.(access_mode) <<< 4) ||| ((c.(mode) &&& 7) <<< 1) ||| Z.b2z c.(bcd).

Definition latch_status (c : t) : t :=
  match c.(latched_status) with
  | Some _ => c
  | None => with_read_phase BytePhase.Low (with_latched_status (Some (status_byte c)) c)
  end.

(** The pulses of the output in [ticks] clock ticks, and the counter after them. *)
Definition advance_ticks (c : t) (ticks : Z) : Z * t :=
  match effective_reload c with
  | None => (0, c)
  | Some reload =>
      if (c.(mode) =? 2) || (c.(mode) =? 3) then
        let reload := if (c.(mode) =? 3) && (reload =? 1) then 2 else reload in
        let total := wrap 64 (c.(phase_ticks) + ticks) in
        (total / reload, with_phase_ticks (wrap 32 (total mod reload)) c)
      else (0, c)
  end.

Definition read_data (c : t) : Z * t :=
  match c.(latched_status) with
  | Some status => (status, with_read_phase BytePhase.Low (with_latched_status None c))
  | None =>
      let raw := match c.(latched_count) with
                 | Some latched => latched.(LatchedValue.value)
                 | None => current_count_raw c
                 end in
      let lo := raw &&& 0xFF in
      let hi := (raw >>> 8) &&& 0xFF in
      let '(byte, next_phase) :=
        match c.(access_mode) with
        | AccessMode.LobyteOnly => (lo, BytePhase.Low)
        | AccessMode.HibyteOnly => (hi, BytePhase.Low)
        | AccessMode.LobyteHibyte =>
            match c.(read_phase) with
            | BytePhase.Low => (lo, BytePhase.High)
            | BytePhase.High => (hi, BytePhase.Low)
            end
        | AccessMode.LatchCount => (lo, BytePhase.Low)
        end in
      (byte,
       match c.(access_mode) with
       | AccessMode.LobyteHibyte =>
           let c := with_read_phase next_phase c in
           match c.(latched_count) with
           | Some latched =>
               match next_phase with
               | BytePhase.Low => with_latched_count None c
               | BytePhase.High =>
                   with_latched_count (Some (LatchedValue.mk latched.(LatchedValue.value) next_phase)) c
               end
           | None => c
           end
       | _ => with_latched_count None (with_read_phase BytePhase.Low c)
       end)
  end.

Definition write_data (c : t) (val : Z) : t :=
  match c.(access_mode) with
  | AccessMode.LatchCount => load_count_raw c val
  | AccessMode.LobyteOnly => load_count_raw c ((wrap 16 c.(reload) &&& 0xFF00) ||| val)
  | AccessMode.HibyteOnly => load_count_raw c ((wrap 16 c.(reload) &&& 0x00FF) ||| wrap 16 (val <<< 8))
  | AccessMode.LobyteHibyte =>
      match c.(write_phase) with
      | BytePhase.Low => with_write_phase BytePhase.High (with_write_latch_low val c)
      | BytePhase.High =>
          with_write_phase BytePhase.Low
            (load_count_raw c (from_le_bytes [c.(write_latch_low); val]))
      end
  end.
End Channel.

Module Pit8254.
Section Timer.
Context {E : Type}.

Record t := mk {
  channels : list Channel.t;
  ns_remainder : Z;
  irq0_pulses : Z;
  irq0_callback : option (E -> option E);
}.

Definition default : t := mk (replicate 3 Channel.default) 0 0 None.
Definition new : t := default.
Definition with_channels v p := mk v p.(ns_remainder) p.(irq0_pulses) p.(irq0_callback).
Definition with_ns_remainder v p := mk p.(channels) v p.(irq0_pulses) p.(irq0_callback).
Definition with_irq0_pulses v p := mk p.(channels) p.(ns_remainder) v p.(irq0_callback).
Definition with_irq0_callback v p := mk p.(channels) p.(ns_remainder) p.(irq0_pulses) v.

Definition reset (p : t) : t := with_irq0_callback p.(irq0_callback) default.

Definition connect_irq0 (p : t) (callback : E -> option E) : t := with_irq0_callback (Some callback) p.

Definition take_irq0_pulses (p : t) : Z * t := (p.(irq0_pulses), with_irq0_pulses 0 p).

(** [self.channels[i]]: the array has three elements, and every index is below
    three. *)
Definition channel (p : t) (i : nat) : Channel.t := nth i p.(channels) Channel.default.
Definition upd_channel (i : nat) (f : Channel.t -> Channel.t) (p : t) : t :=
  with_channels (alter f i p.(channels)) p.

(** [for _ in 0..n { cb(); }] *)
Fixpoint call_n (cb : E -> option E) (n : nat) (e : E) : option E :=
  match n with
  | O => Some e
  | S n => cb e ≫= call_n cb n
  end.

Definition advance_ticks (p : t) (ticks : Z) (e : E) : option (t * E) :=
  if ticks =? 0 then Some (p, e)
  else
    let '(pulses, ch0) := Channel.advance_ticks (channel p 0) ticks in
    let p := upd_channel 0 (fun _ => ch0) p in
    let p := if nz pulses then with_irq0_pulses (saturating_add 64 p.(irq0_pulses) pulses) p else p in
    e ← (match p.(irq0_callback) with
         | Some cb => if nz pulses then call_n cb (Z.to_nat pulses) e else Some e
         | None => Some e
         end);
    let p := upd_channel 1 (fun c => (Channel.advance_ticks c ticks).2) p in
    let p := upd_channel 2 (fun c => (Channel.advance_ticks c ticks).2) p in
    Some (p, e).

(** [total] has 128 bits and cannot overflow. *)
Definition advance_ns (p : t) (ns : Z) (e : E) : option (t * E) :=
  let total := p.(ns_remainder) + ns * PIT_HZ in
  let ticks := total / NS_PER_SEC in
  advance_ticks (with_ns_remainder (total mod NS_PER_SEC) p) (wrap 64 ticks) e.

Definition read_channel (p : t) (i : nat) : Z * t :=
  let '(b, c) := Channel.read_data (channel p i) in (b, upd_channel i (fun _ => c) p).

Definition port_read_u8 (p : t) (port : Z) : Z * t :=
  if port =? PIT_CH0 then read_channel p 0
  else if port =? PIT_CH1 then read_channel p 1
  else if port =? PIT_CH2 then read_channel p 2
  else if port =? PIT_CMD then (0, p)
  else (0xFF, p).

(** The body of the loop of the read-back command. *)
Definition read_back (val : Z) (p : t) (i : nat) : t :=
  let sel_bit := 1 <<< (Z.of_nat i + 1) in
  if val &&& sel_bit =? 0 then
    let p := if val &&& 0x20 =? 0 then upd_channel i Channel.latch_count p else p in
    if val &&& 0x10 =? 0 then upd_channel i Channel.latch_status p else p
  else p.

Definition write_control (p : t) (val : Z) : t :=
  let sel := (val >>> 6) &&& 3 in
  if sel =? 3 then fold_left (read_back val) [0; 1; 2]%nat p
  else
    let i := Z.to_nat sel in
    let access := AccessMode.from_bits ((val >>> 4) &&& 3) in
    if decide (access = AccessMode.LatchCount) then upd_channel i Channel.latch_count p
    else
      let mode_bits := (val >>> 1) &&& 7 in
      let bcd := nz (val &&& 1) in
      upd_channel i (fun c => Channel.set_mode c access mode_bits bcd) p.

Definition port_write_u8 (p : t) (port val : Z) : t :=
  if port =? PIT_CH0 then upd_channel 0 (fun c => Channel.write_data c val) p
  else if port =? PIT_CH1 then upd_channel 1 (fun c => Channel.write_data c val) p
  else if port =? PIT_CH2 then upd_channel 2 (fun c => Channel.write_data c val) p
  else if port =? PIT_CMD then write_control p val
  else p.

Definition port_read (p : t) (port size : Z) : Z * t :=
  if size =? 0 then (0, p)
  else if size =? 1 then port_read_u8 p port
  else if size =? 2 then
    let '(lo, p) := port_read_u8 p port in
    let '(hi, p) := port_read_u8 p port in
    (lo ||| (hi <<< 8), p)
  else if size =? 4 then
    let '(b0, p) := port_read_u8 p port in
    let '(b1, p) := port_read_u8 p port in
    let '(b2, p) := port_read_u8 p port in
    let '(b3, p) := port_read_u8 p port in
    (b0 ||| (b1 <<< 8) ||| (b2 <<< 16) ||| (b3 <<< 24), p)
  else port_read_u8 p port.

Definition port_write (p : t) (port size val : Z) : t :=
  if size =? 0 then p
  else if size =? 1 then port_write_u8 p port (wrap 8 val)
  else if size =? 2 then
    let p := port_write_u8 p port (val &&& 0xFF) in
    port_write_u8 p port ((val >>> 8) &&& 0xFF)
  else if size =? 4 then
    let p := port_write_u8 p port (val &&& 0xFF) in
    let p := port_write_u8 p port ((val >>> 8) &&& 0xFF) in
    let p := port_write_u8 p port ((val >>> 16) &&& 0xFF) in
    port_write_u8 p port ((val >>> 24) &&& 0xFF)
  else port_write_u8 p port (wrap 8 val).
End Timer.
Arguments t : clear implicits.

(** The line to the interrupt router: the callback pulses ISA IRQ 0. *)
Definition pulse_irq0 (interrupts : PlatformInterrupts.t) : option PlatformInterrupts.t :=
  interrupts ← PlatformInterrupts.raise_irq interrupts (IsaIrq 0);
  PlatformInterrupts.lower_irq interrupts (IsaIrq 0).

Definition connect_irq0_to_platform_interrupts (p : t PlatformInterrupts.t) : t PlatformInterrupts.t :=
  connect_irq0 p pulse_irq0.
End Pit8254.

(** ** Snapshot *)
Module PitSnapshot.
Abbreviation TAG_NS_REMAINDER := (1) (only parsing).
Abbreviation TAG_IRQ0_PULSES := (2) (only parsing).
Abbreviation TAG_CHANNELS := (3) (only parsing).
(** [*b"PIT4"] *)
Abbreviation DEVICE_ID := ([0x50; 0x49; 0x54; 0x34]) (only parsing).
Abbreviation DEVICE_VERSION := (SnapshotVersion.new 1 0) (only parsing).
Abbreviation MAX_SNAPSHOT_CHANNELS := (32) (only parsing).

Definition phase_code (p : BytePhase.t) : Z := match p with BytePhase.Low => 0 | BytePhase.High => 1 end.
Definition phase_of (v : Z) : BytePhase.t := if v =? 1 then BytePhase.High else BytePhase.Low.

Definition encode_latched (l : option LatchedValue.t) (enc : Encoder.t) : Encoder.t :=
  match l with
  | Some latched =>
      Encoder.u8 (phase_code latched.(LatchedValue.phase))
        (Encoder.u16 latched.(LatchedValue.value) (Encoder.bool true enc))
  | None => Encoder.bool false enc
  end.

Definition encode_status (s : option Z) (enc : Encoder.t) : Encoder.t :=
  match s with
  | Some status => Encoder.u8 status (Encoder.bool true enc)
  | None => Encoder.bool false enc
  end.

Definition encode_channel (enc : Encoder.t) (ch : Channel.t) : Encoder.t :=
  let enc :=
    Encoder.u32 ch.(Channel.phase_ticks)
    (Encoder.u32 ch.(Channel.reload)
    (Encoder.bool ch.(Channel.null_count)
    (Encoder.u8 ch.(Channel.write_latch_low)
    (Encoder.u8 (phase_code ch.(Channel.read_phase))
    (Encoder.u8 (phase_code ch.(Channel.write_phase))
    (Encoder.u8 (AccessMode.status_bits ch.(Channel.access_mode))
    (Encoder.bool ch.(Channel.bcd)
    (Encoder.u8 ch.(Channel.mode) enc)))))))) in
  encode_status ch.(Channel.latched_status) (encode_latched ch.(Channel.latched_count) enc).

Section Codec.
Context `{Target} {E : Type}.

Definition save_state (p : Pit8254.t E) : list Z :=
  let w := SnapshotWriter.new DEVICE_ID DEVICE_VERSION in
  let w := SnapshotWriter.field_u64 w TAG_NS_REMAINDER (wrap 64 p.(Pit8254.ns_remainder)) in
  let w := SnapshotWriter.field_u64 w TAG_IRQ0_PULSES p.(Pit8254.irq0_pulses) in
  let enc := Encoder.u32 (wrap 32 (Z.of_nat (length p.(Pit8254.channels)))) Encoder.new in
  let enc := fold_left encode_channel p.(Pit8254.channels) enc in
  let w := SnapshotWriter.field_bytes w TAG_CHANNELS (Encoder.finish enc) in
  SnapshotWriter.finish w.

Definition decode_latched : st Decoder.t SnapshotError (option LatchedValue.t) :=
  let! present := Decoder.bool in
  if present then
    let! value := Decoder.u16 in
    let! phase := Decoder.u8 in
    st_ret (Some (LatchedValue.mk value (phase_of phase)))
  else st_ret None.

Definition decode_status : st Decoder.t SnapshotError (option Z) :=
  let! present := Decoder.bool in
  if present then (let! status := Decoder.u8 in st_ret (Some status)) else st_ret None.

Definition decode_channel : st Decoder.t SnapshotError Channel.t :=
  let! mode := Decoder.u8 in
  let! bcd := Decoder.bool in
  let! access_bits := Decoder.u8 in
  let! write_phase := Decoder.u8 in
  let! read_phase := Decoder.u8 in
  let! write_latch_low := Decoder.u8 in
  let! null_count := Decoder.bool in
  let! reload := Decoder.u32 in
  let! phase_ticks := Decoder.u32 in
  let! latched_count := decode_latched in
  let! latched_status := decode_status in
  st_ret (Channel.mk mode bcd (AccessMode.from_bits access_bits) (phase_of write_phase)
            (phase_of read_phase) write_latch_low null_count reload phase_ticks
            latched_count latched_status).

(** The loop over the saved counters: those beyond the array are skipped, and
    the ones before a failure stay assigned. *)
Fixpoint decode_channels (n idx : nat) : st (list Channel.t * Decoder.t) SnapshotError unit :=
  match n with
  | O => st_ret tt
  | S n =>
      let! _ := assign (fun ch chs => <[idx := ch]> chs) decode_channel in
      decode_channels n (S idx)
  end.

Definition load_channels : st (list Channel.t * Decoder.t) SnapshotError unit := fun '(chs, d) =>
  match Decoder.u32 d with
  | (Err e, d) => (Err e, (chs, d))
  | (Ok count, d) =>
      if MAX_SNAPSHOT_CHANNELS <? count then (Err (InvalidFieldEncoding "channels"), (chs, d))
      else
        (let! _ := decode_channels (Z.to_nat count) 0 in
         fun '(chs, d) => (Decoder.finish d, (chs, d))) (chs, d)
  end.

Definition load_channels_field (r : SnapshotReader.t) : st (Pit8254.t E) SnapshotError unit := fun p =>
  match SnapshotReader.bytes r TAG_CHANNELS with
  | None => (Ok tt, p)
  | Some buf =>
      let '(res, (chs, _)) := load_channels (p.(Pit8254.channels), Decoder.new buf) in
      (res, Pit8254.with_channels chs p)
  end.

Definition load_state (bytes : list Z) : st (Pit8254.t E) SnapshotError unit := fun p =>
  match SnapshotReader.parse bytes DEVICE_ID with
  | Err e => (Err e, p)
  | Ok r =>
      match SnapshotReader.ensure_device_major r DEVICE_VERSION.(SnapshotVersion.major) with
      | Err e => (Err e, p)
      | Ok _ =>
          (let! _ := load_opt Pit8254.with_ns_remainder (SnapshotReader.u64 r TAG_NS_REMAINDER) in
           let! _ := load_opt Pit8254.with_irq0_pulses (SnapshotReader.u64 r TAG_IRQ0_PULSES) in
           load_channels_field r) (Pit8254.reset p)
      end
  end.

Definition io_snapshot : IoSnapshot (Pit8254.t E) := {|
  Snapshot.DEVICE_ID := DEVICE_ID;
  Snapshot.DEVICE_VERSION := DEVICE_VERSION;
  Snapshot.save_state := save_state;
  Snapshot.load_state := load_state;
|}.
End Codec.
End PitSnapshot.
