(* ===== verification/PitFacts.v ===== *)
(** * Facts about the interval timer

    The well-formed states ([pit_ok]) and what every operation does to the
    counters: advancing in one go or in slices, port accesses byte by byte. *)

From S2P Require Import Prelude Bytes Snapshot Pit.
Import Pit8254.

Module C := Channel.

Lemma land_byte x : uint 8 (x &&& 0xFF).
Proof. change 0xFF with (Z.ones 8). rewrite land_ones_mod by lia. by apply (uint_wrap 8). Qed.

(** ** One counter *)
Record chan_ok (c : C.t) : Prop := {
  co_mode : uint 8 c.(C.mode);
  co_low : uint 8 c.(C.write_latch_low);
  co_reload : uint 32 c.(C.reload);
  co_phase : uint 32 c.(C.phase_ticks);
  co_count : match c.(C.latched_count) with Some l => uint 16 l.(LatchedValue.value) | None => True end;
  co_status : match c.(C.latched_status) with Some s => uint 8 s | None => True end;
}.

(** The counter runs, and how long its period is. *)
Definition counting (c : C.t) : bool :=
  nz c.(C.reload) && ((c.(C.mode) =? 2) || (c.(C.mode) =? 3)).
Definition period (c : C.t) : Z :=
  if (c.(C.mode) =? 3) && (c.(C.reload) =? 1) then 2 else c.(C.reload).

Lemma period_bounds c : chan_ok c -> counting c = true -> 0 < period c < 2 ^ 32.
Proof.
  intros [_ _ Hr _ _ _] Hc. unfold counting, uint in *. apply andb_true_iff in Hc as [Hc _].
  apply negb_true_iff, Z.eqb_neq in Hc. unfold period. case_if; lia.
Qed.

Definition chan_after (c : C.t) (ticks : Z) : C.t :=
  if counting c then C.with_phase_ticks ((c.(C.phase_ticks) + ticks) mod period c) c else c.
Definition chan_pulses (c : C.t) (ticks : Z) : Z :=
  if counting c then (c.(C.phase_ticks) + ticks) / period c else 0.

Lemma chan_advance c ticks :
  chan_ok c -> 0 <= ticks -> c.(C.phase_ticks) + ticks < 2 ^ 64 ->
  C.advance_ticks c ticks = (chan_pulses c ticks, chan_after c ticks).
Proof.
  intros Hok Ht Hw. pose proof (period_bounds c Hok) as Hp. destruct Hok as [_ _ Hr Hph _ _].
  unfold C.advance_ticks, C.effective_reload, chan_pulses, chan_after. unfold counting in *.
  destruct (c.(C.reload) =? 0) eqn:Hz; [done|]. simpl in *.
  destruct ((c.(C.mode) =? 2) || _) eqn:Hm; [|done]. specialize (Hp eq_refl). unfold uint in *.
  change (if (c.(C.mode) =? 3) && (c.(C.reload) =? 1) then 2 else c.(C.reload)) with (period c).
  rewrite wrap_small by (unfold uint; lia).
  rewrite (wrap_small 32); [done|]. pose proof (Z.mod_pos_bound (C.phase_ticks c + ticks) (period c)).
  unfold uint. lia.
Qed.

Lemma chan_after_frame c ticks :
  counting (chan_after c ticks) = counting c /\ period (chan_after c ticks) = period c.
Proof. unfold chan_after. destruct (counting c) eqn:E; [|done]. split; [exact E|done]. Qed.

(** Ticks in two slices are the ticks in one. *)
Lemma chan_after_add c a b : chan_after (chan_after c a) b = chan_after c (a + b).
Proof.
  destruct (chan_after_frame c a) as [Hc Hp]. unfold chan_after at 1. rewrite Hc, Hp.
  unfold chan_after. destruct (counting c); [|done]. simpl.
  rewrite Zplus_mod_idemp_l, <- Z.add_assoc. by destruct c.
Qed.

Lemma chan_pulses_add c a b :
  chan_ok c -> chan_pulses c (a + b) = chan_pulses c a + chan_pulses (chan_after c a) b.
Proof.
  intros Hok. destruct (chan_after_frame c a) as [Hc Hp]. unfold chan_pulses. rewrite Hc, Hp.
  destruct (counting c) eqn:Hcc; [|done]. pose proof (period_bounds c Hok Hcc).
  unfold chan_after. rewrite Hcc. simpl. set (x := C.phase_ticks c). set (n := period c) in *.
  rewrite (Z.div_mod (x + a) n) at 2 by lia.
  replace (x + (a + b)) with ((x + a) mod n + b + (x + a) / n * n) by (pose proof (Z.div_mod (x + a) n); lia).
  rewrite Z.div_add by lia. rewrite <- (Z.div_mod (x + a) n) by lia. lia.
Qed.

Lemma chan_pulses_nonneg c ticks : chan_ok c -> 0 <= ticks -> 0 <= chan_pulses c ticks.
Proof.
  intros Hok Ht. unfold chan_pulses. destruct (counting c) eqn:Hc; [|done].
  pose proof (period_bounds c Hok Hc). destruct Hok as [_ _ _ Hph _ _]. unfold uint in *.
  apply Z.div_pos; lia.
Qed.

Lemma chan_after_ok c ticks : chan_ok c -> chan_ok (chan_after c ticks).
Proof.
  intros Hok. unfold chan_after. destruct (counting c) eqn:Hc; [|done].
  pose proof (period_bounds c Hok Hc). pose proof (Z.mod_pos_bound (C.phase_ticks c + ticks) (period c)).
  destruct Hok. split; try done. simpl. unfold uint. lia.
Qed.

Lemma count_uint c : uint 16 (C.current_count_raw c).
Proof.
  unfold C.current_count_raw. repeat case_match; try done; by apply uint_wrap.
Qed.

Lemma latch_count_ok c : chan_ok c -> chan_ok (C.latch_count c).
Proof.
  intros []. unfold C.latch_count. destruct (C.latched_count c) eqn:E; [by split; rewrite ?E|].
  split; try done. simpl. apply count_uint.
Qed.

Lemma status_uint c : uint 8 (C.status_byte c).
Proof.
  unfold C.status_byte. assert (0 <= C.mode c &&& 7 < 8) as Hm.
  { change 7 with (Z.ones 3); rewrite land_ones_mod by lia. apply Z.mod_pos_bound. lia. }
  repeat apply uint_lor; try done.
  - by destruct (C.current_out c).
  - by destruct (C.null_count c).
  - by destruct (C.access_mode c).
  - unfold uint. rewrite Z.shiftl_mul_pow2 by lia. lia.
  - by destruct (C.bcd c).
Qed.

Lemma latch_status_ok c : chan_ok c -> chan_ok (C.latch_status c).
Proof.
  intros []. unfold C.latch_status. destruct (C.latched_status c) eqn:E; [by split; rewrite ?E|].
  split; try done. simpl. apply status_uint.
Qed.

Lemma chan_mode_ok c a m b : uint 3 m -> chan_ok c -> chan_ok (C.set_mode c a m b).
Proof.
  intros Hm []. split; try done. simpl. unfold uint in *. repeat case_if; lia.
Qed.

Lemma load_count_ok c raw : uint 16 raw -> chan_ok c -> chan_ok (C.load_count_raw c raw).
Proof.
  intros Hr []. split; try done. simpl. unfold uint in *. case_if; lia.
Qed.

Lemma write_data_ok c v : uint 8 v -> chan_ok c -> chan_ok (C.write_data c v).
Proof.
  intros Hv Hok. unfold C.write_data. pose proof (co_low c Hok) as Hlow.
  destruct (C.access_mode c); [..|destruct (C.write_phase c)].
  - apply load_count_ok; [|done]. unfold uint in *. lia.
  - apply load_count_ok; [|done]. apply uint_lor; [done|apply uint_land_r; [done|done|by apply (uint_wrap 16)]|unfold uint in *; lia].
  - apply load_count_ok; [|done]. apply uint_lor; [done|apply uint_land_r; [done|done|by apply (uint_wrap 16)]|by apply uint_wrap].
  - destruct Hok. by split.
  - assert (chan_ok (C.load_count_raw c (from_le_bytes [C.write_latch_low c; v]))) as Hl.
    { apply load_count_ok; [|done]. apply (from_le_bytes_uint [C.write_latch_low c; v]).
      by rewrite !Forall_cons. }
    destruct Hl. by split.
Qed.

Lemma read_data_ok c : chan_ok c -> uint 8 (C.read_data c).1 /\ chan_ok (C.read_data c).2.
Proof.
  destruct c as [m b a wp rp wl nc r ph lc ls]. intros [Hm Hl Hr Hp Hc Hs]. simpl in *.
  unfold C.read_data. simpl. destruct ls as [s|]; [by split|].
  destruct a, rp, lc as [l|]; simpl; (split; [apply land_byte|by split]).
Qed.

(** ** The timer *)
Section Timer.
Context {E : Type}.
Implicit Types (p : t E) (e : E).
#[local] Arguments C.advance_ticks : simpl never.
#[local] Arguments chan_pulses : simpl never.
#[local] Arguments chan_after : simpl never.

Record pit_ok p : Prop := {
  po_three : length p.(channels) = 3%nat;
  po_channels : Forall chan_ok p.(channels);
  po_rem : uint 64 p.(ns_remainder);
  po_pulses : uint 64 p.(irq0_pulses);
}.

(** The effect of the callback for [n] pulses. *)
Definition fire (cb : option (E -> option E)) (n : Z) e : option E :=
  match cb with Some cb => call_n cb (Z.to_nat n) e | None => Some e end.

Lemma call_n_add (cb : E -> option E) n m e : call_n cb (n + m) e = call_n cb n e ≫= call_n cb m.
Proof.
  revert e. induction n as [|n IH]; intros e; simpl; [done|].
  destruct (cb e); simpl; [apply IH|done].
Qed.

Lemma fire_add cb a b e : 0 <= a -> 0 <= b -> fire cb (a + b) e = fire cb a e ≫= fire cb b.
Proof.
  intros. unfold fire. destruct cb as [cb|]; [|done]. rewrite Z2Nat.inj_add by done. apply call_n_add.
Qed.

Lemma fire_0 cb e : fire cb 0 e = Some e.
Proof. by destruct cb. Qed.

(** The counters after [ticks], and the pulses on IRQ 0 in them. *)
Definition pulses p (ticks : Z) : Z := chan_pulses (channel p 0) ticks.
Definition after p (ticks : Z) : t E :=
  with_irq0_pulses (saturating_add 64 p.(irq0_pulses) (pulses p ticks))
    (with_channels (map (fun c => chan_after c ticks) p.(channels)) p).

Lemma channel_ok p i : pit_ok p -> chan_ok (channel p i).
Proof.
  intros Hp. unfold channel. destruct (nth_in_or_default i p.(channels) Channel.default) as [Hi| ->].
  - apply (proj1 (Forall_forall _ _) (po_channels _ Hp)). by apply list_elem_of_In.
  - done.
Qed.

Lemma pulses_nonneg p ticks : pit_ok p -> 0 <= ticks -> 0 <= pulses p ticks.
Proof. intros Hp Ht. by apply chan_pulses_nonneg; [apply channel_ok|]. Qed.

(** [advance_ticks] in closed form. *)
Lemma advance_ticks_eq p ticks e :
  pit_ok p -> 0 < ticks -> ticks + 2 ^ 32 <= 2 ^ 64 ->
  advance_ticks p ticks e = (e ← fire p.(irq0_callback) (pulses p ticks) e; Some (after p ticks, e)).
Proof.
  intros Hp Ht Hb. unfold advance_ticks. rewrite (proj2 (Z.eqb_neq ticks 0)) by lia.
  assert (forall c, chan_ok c -> C.advance_ticks c ticks = (chan_pulses c ticks, chan_after c ticks)) as Hadv.
  { intros c Hc. apply chan_advance; [done|lia|]. pose proof (co_phase c Hc). unfold uint in *. lia. }
  pose proof (pulses_nonneg p ticks Hp ltac:(lia)) as Hn. pose proof (po_pulses _ Hp) as Hq.
  rewrite Hadv by (by apply channel_ok). fold (pulses p ticks).
  assert (saturating_add 64 p.(irq0_pulses) 0 = p.(irq0_pulses)) as Hs0.
  { unfold saturating_add, uint in *. lia. }
  destruct p as [chs rem q cb]. destruct Hp as [Hl Hc _ _]. simpl in *.
  destruct chs as [|c0 [|c1 [|c2 [|]]]]; simplify_eq/=. rewrite !Forall_cons in Hc. destruct Hc as (H0 & H1 & H2 & _).
  destruct (nz (pulses _ ticks)) eqn:Hz.
  - unfold after, fire, upd_channel, with_channels, with_irq0_pulses. cbn. destruct cb as [cb|]; cbn.
    + destruct (call_n _ _ _); [|done]. cbn. by rewrite !Hadv by done.
    + by rewrite !Hadv by done.
  - apply negb_false_iff, Z.eqb_eq in Hz. unfold after. rewrite Hz, fire_0.
    unfold upd_channel, with_channels, with_irq0_pulses. cbn. rewrite Hs0.
    destruct cb; cbn; by rewrite !Hadv by done.
Qed.

Lemma pit_after_ok p ticks : pit_ok p -> 0 <= ticks -> pit_ok (after p ticks).
Proof.
  intros Hp Ht. pose proof (pulses_nonneg p ticks Hp Ht). destruct Hp as [Hl Hc Hr Hq]. split; try done.
  - simpl. by rewrite length_map.
  - simpl. apply Forall_map. eapply Forall_impl; [exact Hc|]. intros c. by apply chan_after_ok.
  - simpl. unfold saturating_add, uint in *. lia.
Qed.

Lemma channel_after p ticks i : (i < 3)%nat -> pit_ok p -> channel (after p ticks) i = chan_after (channel p i) ticks.
Proof.
  intros Hi Hp. pose proof (po_three _ Hp) as Hl. unfold channel, after. simpl.
  rewrite (nth_indep _ _ (chan_after C.default ticks)) by (rewrite length_map; lia).
  apply (map_nth (fun c => chan_after c ticks)).
Qed.

Lemma pulses_add p a b : pit_ok p -> pulses p (a + b) = pulses p a + pulses (after p a) b.
Proof.
  intros Hp. unfold pulses. rewrite channel_after by (done || lia). by apply chan_pulses_add, channel_ok.
Qed.

Lemma after_add p a b : pit_ok p -> 0 <= a -> 0 <= b -> after (after p a) b = after p (a + b).
Proof.
  intros Hp Ha Hb. pose proof (pulses_nonneg p a Hp Ha).
  pose proof (pulses_nonneg (after p a) b ltac:(by apply pit_after_ok) Hb). pose proof (po_pulses _ Hp).
  unfold after at 1 3. rewrite pulses_add by done. cbn. unfold with_irq0_pulses. cbn. f_equal.
  - rewrite map_map. apply map_ext. intros c. apply chan_after_add.
  - unfold saturating_add, uint in *. lia.
Qed.

(** ** Time *)
Definition ticks_in p (ns : Z) : Z := (p.(ns_remainder) + ns * PIT_HZ) / NS_PER_SEC.
Definition elapse p (ns : Z) : t E :=
  with_ns_remainder ((p.(ns_remainder) + ns * PIT_HZ) mod NS_PER_SEC)
    (if ticks_in p ns =? 0 then p else after p (ticks_in p ns)).

Lemma ticks_bounds p ns : pit_ok p -> uint 64 ns -> 0 <= ticks_in p ns < 2 ^ 56.
Proof.
  intros Hp Hn. pose proof (po_rem _ Hp). unfold ticks_in, uint, PIT_HZ, NS_PER_SEC in *.
  split; [apply Z.div_pos; lia|apply Z.div_lt_upper_bound; lia].
Qed.

Lemma with_rem_ok p r : uint 64 r -> pit_ok p -> pit_ok (with_ns_remainder r p).
Proof. intros Hr []. by split. Qed.

Lemma rem_uint x : uint 64 (x mod NS_PER_SEC).
Proof. pose proof (Z.mod_pos_bound x NS_PER_SEC). unfold uint, NS_PER_SEC in *. lia. Qed.

(** The pulses in a span of time; a tick count of zero returns early. *)
Definition pulses_in p (ns : Z) : Z := if ticks_in p ns =? 0 then 0 else pulses p (ticks_in p ns).

Lemma advance_ns_eq p ns e :
  pit_ok p -> uint 64 ns ->
  advance_ns p ns e = (e ← fire p.(irq0_callback) (pulses_in p ns) e; Some (elapse p ns, e)).
Proof.
  intros Hp Hn. pose proof (ticks_bounds p ns Hp Hn) as Ht.
  unfold advance_ns, elapse, pulses_in. fold (ticks_in p ns).
  rewrite (wrap_small 64) by (unfold uint; lia). case_if.
  - apply Z.eqb_eq in Heqb. rewrite Heqb, fire_0. done.
  - apply Z.eqb_neq in Heqb. rewrite advance_ticks_eq; [done|by apply with_rem_ok; [apply rem_uint|]|lia..].
Qed.

Lemma elapse_ok p ns : pit_ok p -> uint 64 ns -> pit_ok (elapse p ns).
Proof.
  intros Hp Hn. pose proof (ticks_bounds p ns Hp Hn). unfold elapse.
  apply with_rem_ok; [apply rem_uint|]. case_if; [done|]. apply pit_after_ok; [done|lia].
Qed.

Lemma pulses_in_nonneg p ns : pit_ok p -> uint 64 ns -> 0 <= pulses_in p ns.
Proof.
  intros Hp Hn. pose proof (ticks_bounds p ns Hp Hn). unfold pulses_in. case_if; [done|].
  apply pulses_nonneg; [done|lia].
Qed.

Lemma ticks_in_add p a b : ticks_in p (a + b) = ticks_in p a + ticks_in (elapse p a) b.
Proof.
  unfold ticks_in, elapse. cbn. set (x := p.(ns_remainder)).
  rewrite <- Z.div_add_l by done. f_equal.
  pose proof (Z.div_mod (x + a * PIT_HZ) NS_PER_SEC ltac:(done)). lia.
Qed.

Lemma elapse_add p a b :
  pit_ok p -> uint 64 a -> uint 64 b ->
  elapse (elapse p a) b = elapse p (a + b) /\ pulses_in p (a + b) = pulses_in p a + pulses_in (elapse p a) b.
Proof.
  intros Hp Ha Hb. pose proof (ticks_bounds p a Hp Ha). pose proof (ticks_in_add p a b) as Hadd.
  pose proof (ticks_bounds (elapse p a) b (elapse_ok p a Hp Ha) Hb).
  assert ((ns_remainder (elapse p a) + b * PIT_HZ) mod NS_PER_SEC
          = (p.(ns_remainder) + (a + b) * PIT_HZ) mod NS_PER_SEC) as Hrem.
  { unfold elapse. cbn. rewrite Zplus_mod_idemp_l. f_equal. lia. }
  split.
  - unfold elapse at 1 3. rewrite Hrem, Hadd. clear Hrem.
    set (y := ticks_in (elapse p a) b) in *. unfold elapse.
    destruct (Z.eqb_spec (ticks_in p a) 0) as [Hx|Hx]; rewrite ?Hx, ?Z.add_0_l.
    + destruct (y =? 0); done.
    + rewrite (proj2 (Z.eqb_neq (ticks_in p a + y) 0)) by lia. destruct (Z.eqb_spec y 0) as [->|Hy].
      * by rewrite Z.add_0_r.
      * rewrite <- after_add by (done || lia). done.
  - unfold pulses_in. rewrite Hadd. clear Hrem. set (y := ticks_in (elapse p a) b) in *. unfold elapse.
    destruct (Z.eqb_spec (ticks_in p a) 0) as [Hx|Hx]; rewrite ?Hx, ?Z.add_0_l.
    + destruct (y =? 0); done.
    + rewrite (proj2 (Z.eqb_neq (ticks_in p a + y) 0)) by lia. destruct (Z.eqb_spec y 0) as [->|Hy].
      * by rewrite !Z.add_0_r.
      * by rewrite pulses_add.
Qed.
End Timer.
