(* ===== verification/PitEvents.v ===== *)
(** * Histories of the interval timer

    What one byte on a port does to each counter ([out_effect]), and runs of
    arbitrary events: time passing, port accesses of any width, and the drain of
    the pulse count. *)

From S2P Require Import Prelude Bytes Snapshot Router RouterFacts Pit PitFacts.
Import Pit8254.

(** The three data ports, each against the counter [i] of the goal. *)
Ltac each_counter :=
  match goal with H : (?i < 3)%nat |- _ => by (destruct i as [|[|[|]]]; [| | |lia]) end.
Ltac data_port_case port n tac := destruct (Z.eqb_spec port n); [subst; cbv iota; tac; each_counter|].
Ltac data_ports port tac :=
  data_port_case port 0x40 tac; data_port_case port 0x41 tac; data_port_case port 0x42 tac.

(** ** Effects on one counter *)
Definition selected (b : Z) : Z := (b >>> 6) &&& 3.
Definition access_of (b : Z) : AccessMode.t := AccessMode.from_bits ((b >>> 4) &&& 3).

Definition control_effect (i : nat) (b : Z) (c : C.t) : C.t :=
  if selected b =? 3 then
    if b &&& (1 <<< (Z.of_nat i + 1)) =? 0 then
      let c := if b &&& 0x20 =? 0 then C.latch_count c else c in
      if b &&& 0x10 =? 0 then C.latch_status c else c
    else c
  else if decide (Z.to_nat (selected b) = i) then
    if decide (access_of b = AccessMode.LatchCount) then C.latch_count c
    else C.set_mode c (access_of b) ((b >>> 1) &&& 7) (nz (b &&& 1))
  else c.

Definition data_port (i : nat) : Z := 0x40 + Z.of_nat i.

Definition out_effect (i : nat) (port b : Z) (c : C.t) : C.t :=
  if port =? data_port i then C.write_data c b
  else if port =? PIT_CMD then control_effect i b c
  else c.

Section Ports.
Context {E : Type}.
Implicit Types (p : t E) (e : E).

Lemma upd_three i f p : length (upd_channel i f p).(channels) = length p.(channels).
Proof. apply length_alter. Qed.

Lemma channel_lookup p i c : p.(channels) !! i = Some c -> channel p i = c.
Proof. intros Hc. unfold channel. by rewrite nth_lookup, Hc. Qed.

Lemma channel_upd p i j f :
  (j < length p.(channels))%nat ->
  channel (upd_channel i f p) j = if decide (i = j) then f (channel p j) else channel p j.
Proof.
  intros [c Hc]%lookup_lt_is_Some_2. rewrite (channel_lookup p j c Hc). apply channel_lookup. simpl.
  case_decide as Hd.
  - subst. by rewrite list_lookup_alter_eq, Hc.
  - by rewrite list_lookup_alter_ne.
Qed.
Lemma read_back_channel b p j i :
  (i < length p.(channels))%nat -> selected b = 3 ->
  channel (read_back b p j) i = if decide (j = i) then control_effect i b (channel p i) else channel p i.
Proof.
  intros Hi Hs. unfold read_back, control_effect. rewrite Hs. cbn [Z.eqb Pos.eqb].
  destruct (decide (j = i)) as [->|Hd]; repeat case_if; rewrite ?channel_upd by (rewrite ?upd_three; done);
    by rewrite ?decide_True, ?decide_False by done.
Qed.

Lemma read_back_three b p j : length (read_back b p j).(channels) = length p.(channels).
Proof. unfold read_back. repeat case_if; by rewrite ?upd_three. Qed.

Lemma selected_bounds b : 0 <= selected b < 4.
Proof.
  unfold selected. change 3 with (Z.ones 2). rewrite land_ones_mod by lia. by apply Z.mod_pos_bound.
Qed.

(** A control byte acts on each counter by itself. *)
Lemma write_control_channel p b i :
  length p.(channels) = 3%nat -> (i < 3)%nat ->
  channel (write_control p b) i = control_effect i b (channel p i) /\
  length (write_control p b).(channels) = 3%nat.
Proof.
  intros Hl Hi. unfold write_control. fold (selected b) (access_of b). destruct (Z.eqb_spec (selected b) 3) as [Hs|Hs].
  - cbn [fold_left]. rewrite !read_back_three. split; [|done].
    rewrite !read_back_channel by (rewrite ?read_back_three; done || lia).
    destruct i as [|[|[|]]]; [done..|lia].
  - unfold control_effect. rewrite (proj2 (Z.eqb_neq (selected b) 3)) by done.
    destruct (decide (access_of b = _)); rewrite upd_three, channel_upd by lia; (split; [|done]);
      by destruct (decide (Z.to_nat _ = i)).
Qed.

Lemma port_write_u8_channel p port b i :
  length p.(channels) = 3%nat -> (i < 3)%nat ->
  channel (port_write_u8 p port b) i = out_effect i port b (channel p i) /\
  length (port_write_u8 p port b).(channels) = 3%nat.
Proof.
  intros Hl Hi. unfold port_write_u8, out_effect, data_port.
  data_ports port ltac:(rewrite upd_three, channel_upd by lia).
  rewrite (proj2 (Z.eqb_neq port (64 + Z.of_nat i))) by lia.
  case_if; [by apply write_control_channel|done].
Qed.

Lemma read_channel_channel p j i :
  length p.(channels) = 3%nat -> (i < 3)%nat -> 
  channel (read_channel p j).2 i = (if decide (j = i) then (C.read_data (channel p i)).2 else channel p i) /\
  (read_channel p j).1 = (C.read_data (channel p j)).1 /\
  length (read_channel p j).2.(channels) = 3%nat.
Proof.
  intros Hl Hi. unfold read_channel. destruct (C.read_data (channel p j)) as [b c] eqn:Hr. simpl.
  rewrite channel_upd, length_alter by lia. split; [|done]. case_decide; [|done]. subst. by rewrite Hr.
Qed.

Lemma port_read_u8_channel p port i :
  length p.(channels) = 3%nat -> (i < 3)%nat ->
  channel (port_read_u8 p port).2 i
  = (if port =? data_port i then (C.read_data (channel p i)).2 else channel p i) /\
  (port = data_port i -> (port_read_u8 p port).1 = (C.read_data (channel p i)).1) /\
  length (port_read_u8 p port).2.(channels) = 3%nat.
Proof.
  intros Hl Hi. unfold port_read_u8, data_port.
  data_ports port ltac:(idtac; match goal with |- context [read_channel p ?j] =>
                          destruct (read_channel_channel p j i Hl Hi) as (-> & -> & ->) end).
  rewrite (proj2 (Z.eqb_neq port (64 + Z.of_nat i))) by lia.
  case_if; (split; [done|]); (split; [lia|done]).
Qed.

(** What no byte on a port touches. *)
Definition frame p p' : Prop :=
  p'.(ns_remainder) = p.(ns_remainder) /\ p'.(irq0_pulses) = p.(irq0_pulses) /\
  p'.(irq0_callback) = p.(irq0_callback).

Lemma port_write_u8_frame p port b : frame p (port_write_u8 p port b).
Proof.
  unfold port_write_u8, write_control, read_back. cbn [fold_left]. by repeat case_match.
Qed.

Lemma port_read_u8_frame p port : frame p (port_read_u8 p port).2.
Proof. unfold port_read_u8, read_channel. repeat case_if; try done; by destruct (C.read_data _). Qed.

(** The bytes of a write, in order; a read takes one byte after the other. *)
Definition write_bytes (size val : Z) : list Z :=
  if size =? 0 then []
  else if size =? 2 then [val &&& 0xFF; (val >>> 8) &&& 0xFF]
  else if size =? 4 then
    [val &&& 0xFF; (val >>> 8) &&& 0xFF; (val >>> 16) &&& 0xFF; (val >>> 24) &&& 0xFF]
  else [wrap 8 val].

Lemma port_write_eq p port size val :
  port_write p port size val = fold_left (fun p b => port_write_u8 p port b) (write_bytes size val) p.
Proof.
  unfold port_write, write_bytes. case_if; [done|]. case_if; [|by repeat case_if].
  apply Z.eqb_eq in Heqb0. by subst.
Qed.

Lemma write_bytes_uint size val : Forall (uint 8) (write_bytes size val).
Proof.
  unfold write_bytes. repeat case_if; rewrite ?Forall_cons; split_and?; try apply land_byte; try done.
  by apply uint_wrap.
Qed.

Lemma port_read_keeps (I : t E -> Prop) p port size :
  (forall p, I p -> I (port_read_u8 p port).2) -> I p -> I (port_read p port size).2.
Proof.
  intros Hk Hp. unfold port_read. repeat case_if; [done|by apply Hk|..|by apply Hk].
  - pose proof (Hk p Hp) as H1. destruct (port_read_u8 p port) as [lo p1].
    pose proof (Hk p1 H1) as H2. by destruct (port_read_u8 p1 port).
  - pose proof (Hk p Hp) as H1. destruct (port_read_u8 p port) as [b0 p1].
    pose proof (Hk p1 H1) as H2. destruct (port_read_u8 p1 port) as [b1 p2].
    pose proof (Hk p2 H2) as H3. destruct (port_read_u8 p2 port) as [b2 p3].
    pose proof (Hk p3 H3) as H4. by destruct (port_read_u8 p3 port).
Qed.

Lemma port_write_keeps (I : t E -> Prop) p port size val :
  (forall p b, b ∈ write_bytes size val -> I p -> I (port_write_u8 p port b)) ->
  I p -> I (port_write p port size val).
Proof.
  rewrite port_write_eq. generalize (write_bytes size val). intros l. revert p.
  induction l as [|b l IH]; intros p Hk Hp; [done|]. simpl. apply IH.
  - intros q x Hx. apply Hk. by right.
  - apply Hk; [by left|done].
Qed.
End Ports.

(** ** Events *)
Inductive event :=
| Advance (ns : Z)
| In (port size : Z)
| Out (port size val : Z)
| Drain.

Definition event_ok (ev : event) : Prop := match ev with Advance ns => uint 64 ns | _ => True end.

(** The time a history takes. *)
Definition duration (ev : event) : Z := match ev with Advance ns => ns | _ => 0 end.
Definition total (evs : list event) : Z := sumZ duration evs.

Section Runs.
Context {E : Type}.
Implicit Types (p : t E) (e : E).

Definition step (s : t E * E) (ev : event) : option (t E * E) :=
  let '(p, e) := s in
  match ev with
  | Advance ns => advance_ns p ns e
  | In port size => Some ((port_read p port size).2, e)
  | Out port size val => Some (port_write p port size val, e)
  | Drain => Some ((take_irq0_pulses p).2, e)
  end.
Definition run (evs : list event) (s : t E * E) : option (t E * E) := foldo step evs s.

Lemma run_cons ev evs s : run (ev :: evs) s = step s ev ≫= run evs.
Proof. unfold run. rewrite (foldo_app step [ev] evs s : foldo step (ev :: evs) s = _). done. Qed.

(** ** Invariants of runs *)
Lemma out_effect_ok i port b c : uint 8 b -> chan_ok c -> chan_ok (out_effect i port b c).
Proof.
  intros Hb Hc. unfold out_effect, control_effect. repeat case_match; try done;
    try (by apply write_data_ok); repeat first [apply latch_status_ok|apply latch_count_ok]; try done.
  apply chan_mode_ok; [|done]. change 7 with (Z.ones 3). rewrite land_ones_mod by lia. by apply (uint_wrap 3).
Qed.

Lemma channels_ok p :
  length p.(channels) = 3%nat -> (forall i, (i < 3)%nat -> chan_ok (channel p i)) -> Forall chan_ok p.(channels).
Proof.
  intros Hl Hc. apply Forall_lookup. intros i c Hi. rewrite <- (channel_lookup p i c Hi). apply Hc.
  apply lookup_lt_Some in Hi. lia.
Qed.

Lemma pit_frame_ok p p' :
  pit_ok p -> frame p p' -> length p'.(channels) = 3%nat ->
  (forall i, (i < 3)%nat -> chan_ok (channel p' i)) -> pit_ok p'.
Proof. intros [_ _ Hr Hq] (Er & Eq & _) Hl Hc. split; [done|by apply channels_ok|congruence..]. Qed.

Lemma port_write_u8_ok p port b : uint 8 b -> pit_ok p -> pit_ok (port_write_u8 p port b).
Proof.
  intros Hb Hp. pose proof (po_three _ Hp) as Hl.
  apply (pit_frame_ok p); [done|apply port_write_u8_frame|by apply (port_write_u8_channel p port b 0); [|lia]|].
  intros i Hi. rewrite (proj1 (port_write_u8_channel p port b i Hl Hi)).
  by apply out_effect_ok; [|apply channel_ok].
Qed.

Lemma port_read_u8_ok p port : pit_ok p -> pit_ok (port_read_u8 p port).2.
Proof.
  intros Hp. pose proof (po_three _ Hp) as Hl.
  apply (pit_frame_ok p); [done|apply port_read_u8_frame|by apply (port_read_u8_channel p port 0); [|lia]|].
  intros i Hi. rewrite (proj1 (port_read_u8_channel p port i Hl Hi)).
  pose proof (channel_ok p i Hp). case_if; [by apply read_data_ok|done].
Qed.

Lemma port_write_ok p port size val : pit_ok p -> pit_ok (port_write p port size val).
Proof.
  apply port_write_keeps. intros q b Hb. apply port_write_u8_ok.
  by apply (proj1 (Forall_forall _ _) (write_bytes_uint size val)).
Qed.

Lemma port_read_ok p port size : pit_ok p -> pit_ok (port_read p port size).2.
Proof. apply port_read_keeps. intros q. apply port_read_u8_ok. Qed.

(** An event that returns leaves a well-formed timer, whatever the callback. *)
Lemma step_ok p e ev p' e' : pit_ok p -> event_ok ev -> step (p, e) ev = Some (p', e') -> pit_ok p'.
Proof.
  intros Hp Hev Hs. destruct ev as [ns|port size|port size val|]; simpl in *.
  - rewrite advance_ns_eq in Hs by done. destruct (fire _ _ _); [|done]. simplify_eq/=. by apply elapse_ok.
  - simplify_eq. by apply port_read_ok.
  - simplify_eq. by apply port_write_ok.
  - simplify_eq. by destruct Hp.
Qed.
End Runs.
