(* ===== verification/PitProps.v ===== *)
(** * Theorems about the interval timer

    Time in slices, the rate of IRQ 0 over whole histories, counts that are
    latched and read back, the ticks that reach the interrupt controller, and
    snapshots. *)

From S2P Require Import Prelude Bytes Snapshot SnapshotFacts Pic PicFacts PicProps Router RouterFacts RouterProps.
From S2P Require Import Pit PitFacts PitEvents.
Import Pit8254.

Section Timer.
Context {E : Type}.
Implicit Types (p : t E) (e : E).

(** ** Slices of time *)
Fixpoint advance_all (p : t E) (l : list Z) (e : E) : option (t E * E) :=
  match l with
  | [] => Some (p, e)
  | ns :: l => '(p, e) ← advance_ns p ns e; advance_all p l e
  end.

Lemma advance_two p a b e :
  pit_ok p -> uint 64 a -> uint 64 b -> uint 64 (a + b) ->
  ('(p, e) ← advance_ns p a e; advance_ns p b e) = advance_ns p (a + b) e.
Proof.
  intros Hp Ha Hb Hab. destruct (elapse_add p a b Hp Ha Hb) as [Hel Hpu].
  rewrite !advance_ns_eq by done. rewrite Hpu, fire_add by (apply pulses_in_nonneg; try done; by apply elapse_ok).
  destruct (fire _ (pulses_in p a) e) as [e1|]; [|done]. simpl.
  rewrite advance_ns_eq by (try done; by apply elapse_ok). rewrite Hel.
  replace (irq0_callback (elapse p a)) with (irq0_callback p); [done|].
  unfold elapse. by case_if.
Qed.

(** However time is cut into slices, the timer ends in the same state, has
    counted the same pulses and has called the interrupt callback the same
    number of times, as if the whole span had passed in one step; neither the
    conversion from nanoseconds nor a counter loses a fraction. *)
Theorem pit_slicing p ns l e :
  pit_ok p -> Forall (uint 64) (ns :: l) -> uint 64 (sumZ id (ns :: l)) ->
  advance_all p (ns :: l) e = advance_ns p (sumZ id (ns :: l)) e.
Proof.
  revert p ns e. induction l as [|b l IH]; intros p a e Hp Hl Hs.
  { simpl. rewrite Z.add_0_r. by destruct (advance_ns p a e) as [[]|]. }
  apply Forall_cons in Hl as [Ha Hl]. pose proof Hl as [Hb Hl']%Forall_cons.
  assert (0 <= sumZ id l) as Hn.
  { clear -Hl'. induction Hl' as [|x l' [? ?] _ IH]; simpl in *; unfold id in *; lia. }
  assert (uint 64 (a + b)) as Hab by (unfold uint, id in *; simpl in Hs; unfold id in Hs; lia).
  assert (advance_all p (a :: b :: l) e = advance_all p (a + b :: l) e) as ->.
  { cbn [advance_all]. rewrite <- advance_two by done.
    destruct (advance_ns p a e) as [[p1 e1]|]; [|done]. done. }
  rewrite IH; [|done|by apply Forall_cons|].
  - f_equal. simpl. unfold id. lia.
  - simpl in *. unfold id in *. by rewrite <- Z.add_assoc.
Qed.

(** ** The rate of IRQ 0

    [paces i ev]: the event does not program counter [i]; it may read it, latch
    it, ask for its status, and do anything to the other counters. *)
Definition paces_byte (i : nat) (port b : Z) : Prop :=
  port <> data_port i /\
  (port = PIT_CMD -> selected b = Z.of_nat i -> access_of b = AccessMode.LatchCount).
Definition paces (i : nat) (ev : event) : Prop :=
  match ev with Out port size val => Forall (paces_byte i port) (write_bytes size val) | _ => True end.

Definition timing (c : C.t) : Z * Z * Z := (c.(C.mode), c.(C.reload), c.(C.phase_ticks)).

Lemma latch_timing c : timing (C.latch_count c) = timing c /\ timing (C.latch_status c) = timing c.
Proof. unfold C.latch_count, C.latch_status. split; by case_match. Qed.

Lemma out_effect_timing i port b c : (i < 3)%nat -> paces_byte i port b -> timing (out_effect i port b c) = timing c.
Proof.
  intros Hi [Hd Hc]. unfold out_effect. rewrite (proj2 (Z.eqb_neq _ _) Hd).
  destruct (Z.eqb_spec port PIT_CMD) as [->|]; [|done]. unfold control_effect.
  destruct (selected b =? 3).
  { repeat case_if; rewrite ?(proj2 (latch_timing _)), ?(proj1 (latch_timing _)); done. }
  case_decide as Hsel; [|done]. pose proof (selected_bounds b).
  rewrite decide_True by (apply Hc; [done|lia]). apply latch_timing.
Qed.

Lemma read_timing c : timing (C.read_data c).2 = timing c.
Proof.
  unfold C.read_data. destruct (C.latched_status c); [done|].
  destruct (C.access_mode c), (C.read_phase c); try done; simpl; by case_match.
Qed.

(** The state of the pace of counter 0: wiring, mode, reload, phase, fraction
    of a tick. *)
Record paced p (cb : option (E -> option E)) (m r ph x : Z) : Prop := {
  pa_ok : pit_ok p;
  pa_cb : p.(irq0_callback) = cb;
  pa_timing : timing (channel p 0) = (m, r, ph);
  pa_rem : p.(ns_remainder) = x;
}.

Lemma paced_frame p p' cb m r ph x :
  paced p cb m r ph x -> pit_ok p' -> frame p p' -> timing (channel p' 0) = timing (channel p 0) ->
  paced p' cb m r ph x.
Proof. intros [_ <- Ht <-] Hok (Er & _ & Ec) Hti. split; congruence. Qed.

Lemma paced_other p ev cb m r ph x :
  paced p cb m r ph x -> paces 0 ev -> (forall ns, ev <> Advance ns) ->
  exists p', (forall e, step (p, e) ev = Some (p', e)) /\ paced p' cb m r ph x.
Proof.
  intros Hpa Hpc Hna. destruct ev as [ns|port size|port size val|]; [by destruct (Hna ns)|..]; simpl.
  - eexists. split; [done|]. apply (port_read_keeps (fun q => paced q cb m r ph x)); [|done]. intros q Hq.
    pose proof (pa_ok _ _ _ _ _ _ Hq) as Hok.
    eapply paced_frame; [exact Hq|by apply port_read_u8_ok|apply port_read_u8_frame|].
    rewrite (proj1 (port_read_u8_channel q port 0 (po_three _ Hok) ltac:(lia))). case_if; [apply read_timing|done].
  - eexists. split; [done|]. apply (port_write_keeps (fun q => paced q cb m r ph x)); [|done]. intros q b Hb Hq.
    pose proof (pa_ok _ _ _ _ _ _ Hq) as Hok. simpl in Hpc.
    pose proof (proj1 (Forall_forall _ _) Hpc b Hb) as Hpb.
    pose proof (proj1 (Forall_forall _ _) (write_bytes_uint size val) b Hb).
    eapply paced_frame; [exact Hq|by apply port_write_u8_ok|apply port_write_u8_frame|].
    rewrite (proj1 (port_write_u8_channel q port b 0 (po_three _ Hok) ltac:(lia))).
    apply out_effect_timing; [lia|done].
  - eexists. split; [done|]. destruct Hpa as [[] ? ? ?]. by split; [split|..].
Qed.

(** The period of a running counter with reload [r] in mode [m]. *)
Definition period_of (m r : Z) : Z := if (m =? 3) && (r =? 1) then 2 else r.
Definition ticks_after (x ns : Z) : Z := (x + ns * PIT_HZ) / NS_PER_SEC.

Lemma paced_advance p ns cb m r ph x :
  paced p cb m r ph x -> uint 64 ns -> m = 2 \/ m = 3 -> 0 < r -> 0 <= ph < period_of m r ->
  exists p', (forall e, step (p, e) (Advance ns)
                = (e ← fire cb ((ph + ticks_after x ns) / period_of m r) e; Some (p', e))) /\
    paced p' cb m r ((ph + ticks_after x ns) mod period_of m r) ((x + ns * PIT_HZ) mod NS_PER_SEC).
Proof.
  intros [Hok Hcb Hti Hx] Hns Hm Hr Hph. exists (elapse p ns).
  pose proof (ticks_bounds p ns Hok Hns) as Htb.
  assert (ticks_in p ns = ticks_after x ns) as Htk by (unfold ticks_in, ticks_after; by rewrite Hx).
  unfold timing in Hti. set (c := channel p 0) in *. injection Hti as Em Er Ep.
  assert (counting c = true) as Hc.
  { unfold counting. rewrite Em, Er. rewrite (proj2 (Z.eqb_neq r 0)) by lia. by destruct Hm as [-> | ->]. }
  assert (period c = period_of m r) as Hper by (unfold period; by rewrite Em, Er).
  assert (pulses_in p ns = (ph + ticks_after x ns) / period_of m r) as Hpul.
  { unfold pulses_in. rewrite Htk. case_if.
    - apply Z.eqb_eq in Heqb. rewrite Heqb, Z.add_0_r. by rewrite Z.div_small.
    - unfold pulses, chan_pulses. fold c. by rewrite Hc, Hper, Ep. }
  split; [intros e; simpl; by rewrite advance_ns_eq, Hpul, Hcb|]. split; [by apply elapse_ok|rewrite <- Hcb; unfold elapse; by case_if| |unfold elapse; cbn; by rewrite Hx].
  unfold elapse. rewrite Htk. case_if.
  - apply Z.eqb_eq in Heqb. rewrite Heqb, Z.add_0_r, (Z.mod_small ph) by done.
    unfold timing. change (channel (with_ns_remainder _ p) 0) with c. congruence.
  - change (channel (with_ns_remainder _ ?q) 0) with (channel q 0).
    rewrite channel_after by (done || lia). fold c. unfold chan_after. rewrite Hc. unfold timing. simpl.
    by rewrite Hper, Ep, Em, Er.
Qed.

(** A span of time in two parts: ticks, pulses, phase and fraction. *)
Lemma pace_split n ph x a b :
  0 < n -> 0 <= ph -> 0 <= x -> 0 <= a ->
  let t1 := ticks_after x a in
  let x1 := (x + a * PIT_HZ) mod NS_PER_SEC in
  (ph + ticks_after x (a + b)) / n = (ph + t1) / n + ((ph + t1) mod n + ticks_after x1 b) / n /\
  (ph + ticks_after x (a + b)) mod n = ((ph + t1) mod n + ticks_after x1 b) mod n /\
  (x + (a + b) * PIT_HZ) mod NS_PER_SEC = (x1 + b * PIT_HZ) mod NS_PER_SEC /\
  (0 <= b -> 0 <= (ph + t1) / n /\ 0 <= ((ph + t1) mod n + ticks_after x1 b) / n).
Proof.
  intros Hn Hph Hx Ha t1 x1.
  assert (ticks_after x (a + b) = t1 + ticks_after x1 b) as Htk.
  { unfold ticks_after, t1, x1. unfold ticks_after. rewrite <- Z.div_add_l by done. f_equal.
    pose proof (Z.div_mod (x + a * PIT_HZ) NS_PER_SEC). unfold NS_PER_SEC, PIT_HZ in *. lia. }
  rewrite Htk, Z.add_assoc. split_and!.
  - rewrite <- Z.div_add_l by lia. f_equal. pose proof (Z.div_mod (ph + t1) n). lia.
  - by rewrite Zplus_mod_idemp_l.
  - unfold x1. rewrite Zplus_mod_idemp_l. f_equal. lia.
  - intros Hb. assert (0 <= t1) by (apply Z.div_pos; unfold PIT_HZ, NS_PER_SEC; lia).
    pose proof (Z.mod_pos_bound (x + a * PIT_HZ) NS_PER_SEC ltac:(done)) as Hx1. fold x1 in Hx1.
    assert (0 <= ticks_after x1 b) by (apply Z.div_pos; unfold PIT_HZ, NS_PER_SEC in *; lia).
    pose proof (Z.mod_pos_bound (ph + t1) n Hn). split; apply Z.div_pos; lia.
Qed.

Lemma total_nonneg evs : Forall event_ok evs -> 0 <= total evs.
Proof.
  induction 1 as [|ev evs He _ IH]; [done|]. unfold total in *. simpl.
  destruct ev; simpl in *; unfold uint in *; lia.
Qed.

Lemma run_paced evs p cb m r ph x :
  paced p cb m r ph x -> m = 2 \/ m = 3 -> 0 < r -> 0 <= ph < period_of m r -> 0 <= x < NS_PER_SEC ->
  Forall event_ok evs -> Forall (paces 0) evs ->
  let ticks := ticks_after x (total evs) in
  exists p', (forall e, run evs (p, e) = (e ← fire cb ((ph + ticks) / period_of m r) e; Some (p', e))) /\
    paced p' cb m r ((ph + ticks) mod period_of m r) ((x + total evs * PIT_HZ) mod NS_PER_SEC).
Proof.
  intros Hpa Hm Hr Hph Hx Hev Hpc. revert p ph x Hpa Hph Hx Hev Hpc.
  induction evs as [|ev evs IH]; intros p ph x Hpa Hph Hx Hev Hpc ticks.
  { exists p. unfold ticks, ticks_after. simpl. rewrite !Z.add_0_r.
    rewrite (Z.div_small x), (Z.mod_small x), Z.add_0_r, (Z.div_small ph), (Z.mod_small ph) by done.
    split; [|done]. intros e. by rewrite fire_0. }
  apply Forall_cons in Hev as [He Hev]. apply Forall_cons in Hpc as [Hp Hpc].
  assert (0 < period_of m r) as Hpos by (unfold period_of; case_if; lia).
  assert ((exists ns, ev = Advance ns) \/ forall ns, ev <> Advance ns) as [[ns ->]|Hna].
  { destruct ev; [left; by eexists|by right..]. }
  - destruct (paced_advance p ns cb m r ph x Hpa He Hm Hr Hph) as (p1 & Hst & Hpa1).
    destruct (pace_split (period_of m r) ph x ns (total evs) Hpos) as (Ed & Em & Ex & Hnn); [lia|lia|apply He|].
    destruct (IH p1 _ _ Hpa1) as (p' & Hrun & Hpa'); [by apply Z.mod_pos_bound|by apply Z.mod_pos_bound|done|done|].
    exists p'. change (total (Advance ns :: evs)) with (ns + total evs) in *. unfold ticks.
    rewrite Em, Ex. split; [|done]. intros e. rewrite Ed, fire_add, run_cons, Hst by (apply Hnn; apply total_nonneg, Hev).
    destruct (fire cb _ e); [|done]. simpl. by rewrite Hrun.
  - destruct (paced_other p ev cb m r ph x Hpa Hp Hna) as (p1 & Hst & Hpa1).
    destruct (IH p1 ph x Hpa1 Hph Hx Hev Hpc) as (p' & Hrun & Hpa').
    exists p'. assert (total (ev :: evs) = total evs) as Ht by (destruct ev as [ns| | |]; [by destruct (Hna ns)|done..]).
    unfold ticks. rewrite Ht. split; [|done]. intros e. rewrite run_cons, Hst. apply Hrun.
Qed.

(** The guest programs counter 0 for mode [m] with divisor [n]: the control
    word, the low byte, the high byte (65536 is written as zero). *)
Definition program (m n : Z) : list event :=
  [Out PIT_CMD 1 (0x30 ||| (m <<< 1)); Out PIT_CH0 1 (n mod 256); Out PIT_CH0 1 (n / 256)].

#[local] Arguments from_le_bytes : simpl never.

Lemma program_paced p m n :
  pit_ok p -> m = 2 \/ m = 3 -> 1 <= n <= 65536 ->
  exists p', (forall e, run (program m n) (p, e) = Some (p', e)) /\
    paced p' p.(irq0_callback) m n 0 p.(ns_remainder).
Proof.
  intros Hp Hm Hn. set (ctl := 0x30 ||| (m <<< 1)). set (lo := wrap 8 (n mod 256)). set (hi := wrap 8 (n / 256)).
  set (p1 := port_write_u8 p PIT_CMD ctl). set (p2 := port_write_u8 p1 PIT_CH0 lo).
  set (p3 := port_write_u8 p2 PIT_CH0 hi).
  assert (uint 8 ctl) as Hctl by (destruct Hm as [-> | ->]; done).
  assert (pit_ok p3) as Hp3 by (repeat (apply port_write_u8_ok; [try done; by apply uint_wrap|]); done).
  pose proof (port_write_u8_channel p PIT_CMD ctl 0 (po_three _ Hp) ltac:(lia)) as [E1 L1]. fold p1 in E1, L1.
  pose proof (port_write_u8_channel p1 PIT_CH0 lo 0 L1 ltac:(lia)) as [E2 L2]. fold p2 in E2, L2.
  pose proof (port_write_u8_channel p2 PIT_CH0 hi 0 L2 ltac:(lia)) as [E3 _]. fold p3 in E3.
  assert (from_le_bytes [lo; hi] = n mod 65536) as Hraw.
  { change (n mod 65536) with (wrap (8 * Z.of_nat 2) n). rewrite <- from_to_le_bytes. f_equal. simpl.
    unfold lo, hi, wrap. change (2 ^ 8) with 256. rewrite Z.mod_mod by done.
    by rewrite Z.shiftr_div_pow2. }
  exists p3. split.
  - intros e. unfold run, program, foldo, step. cbn [foldl]. rewrite !port_write_eq. cbn [write_bytes fold_left Z.eqb Pos.eqb].
    change (wrap 8 (0x30 ||| (m <<< 1))) with (wrap 8 ctl). by rewrite (wrap_small 8 ctl).
  - destruct (port_write_u8_frame p PIT_CMD ctl) as (R1 & _ & B1). fold p1 in R1, B1.
    destruct (port_write_u8_frame p1 PIT_CH0 lo) as (R2 & _ & B2). fold p2 in R2, B2.
    destruct (port_write_u8_frame p2 PIT_CH0 hi) as (R3 & _ & B3). fold p3 in R3, B3.
    split; [done|congruence| |congruence].
    assert (channel p1 0 = C.set_mode (channel p 0) AccessMode.LobyteHibyte m false) as Ec1.
    { rewrite E1. destruct Hm as [-> | ->]; done. }
    rewrite E3, E2, Ec1. unfold timing, out_effect. change (PIT_CH0 =? data_port 0) with true. cbn.
    rewrite Hraw. f_equal. f_equal; [by destruct Hm as [-> | ->]|].
    destruct (Z.eq_dec n 65536) as [->|]; [done|]. rewrite Z.mod_small by lia.
    by rewrite (proj2 (Z.eqb_neq n 0)) by lia.
Qed.

Lemma count_paced p cb n ph x :
  paced p cb 2 n ph x -> 1 <= n <= 65536 -> 0 <= ph < n -> C.current_count_raw (channel p 0) = (n - ph) mod 65536.
Proof.
  intros [_ _ Ht _] Hn Hph. unfold timing in Ht. injection Ht as Em Er Ep.
  unfold C.current_count_raw, C.effective_reload. rewrite Em, Er, Ep, (proj2 (Z.eqb_neq n 0)) by lia. cbn [Z.eqb Pos.eqb].
  unfold saturating_sub. rewrite Z.max_l by lia. destruct (Z.eqb_spec (n - ph) 65536) as [->|]; [done|].
  done.
Qed.

Lemma programmed_run p m n evs :
  pit_ok p -> p.(ns_remainder) < NS_PER_SEC -> m = 2 \/ m = 3 -> 1 <= n <= 65536 ->
  Forall event_ok evs -> Forall (paces 0) evs ->
  let ticks := ticks_after p.(ns_remainder) (total evs) in
  exists p',
    (forall e, run (program m n ++ evs) (p, e)
               = (e ← fire p.(irq0_callback) (ticks / period_of m n) e; Some (p', e))) /\
    paced p' p.(irq0_callback) m n (ticks mod period_of m n)
      ((p.(ns_remainder) + total evs * PIT_HZ) mod NS_PER_SEC).
Proof.
  intros Hp Hx Hm Hn Hev Hpc ticks. destruct (program_paced p m n Hp Hm Hn) as (p1 & Hr1 & Hpa1).
  assert (0 < period_of m n) as Hpos by (unfold period_of; case_if; lia). pose proof (po_rem _ Hp) as Hrem.
  destruct (run_paced evs p1 _ m n 0 _ Hpa1 Hm ltac:(lia) ltac:(lia) ltac:(unfold uint in Hrem; lia) Hev Hpc)
    as (p' & Hr & Hpa).
  exists p'. split; [|done]. intros e. unfold run in *. rewrite foldo_app, Hr1. apply Hr.
Qed.

(** C22: The rate of the timer interrupt is exact over any history.  Once the
    guest has programmed counter 0 with divisor [n] (mode 2 or 3), let time pass
    in slices of any length, between port accesses of any kind that do not
    program counter 0 again: the callback has run once for every [n] ticks of
    the 1.193182 MHz clock, no pulse is lost or added, and in mode 2 the counter
    shows what is left of the current period. *)
Theorem pit_rate p m n evs :
  pit_ok p -> p.(ns_remainder) < NS_PER_SEC -> m = 2 \/ m = 3 -> 1 <= n <= 65536 ->
  Forall event_ok evs -> Forall (paces 0) evs ->
  let ticks := (p.(ns_remainder) + total evs * PIT_HZ) / NS_PER_SEC in
  exists p',
    (forall e, run (program m n ++ evs) (p, e)
               = (e ← fire p.(irq0_callback) (ticks / period_of m n) e; Some (p', e))) /\
    (m = 2 -> C.current_count_raw (channel p' 0) = (n - ticks mod n) mod 65536).
Proof.
  intros Hp Hx Hm Hn Hev Hpc ticks.
  destruct (programmed_run p m n evs Hp Hx Hm Hn Hev Hpc) as (p' & Hr & Hpa).
  exists p'. split; [exact Hr|]. intros ->. eapply count_paced; [exact Hpa|done|].
  apply Z.mod_pos_bound. unfold period_of. simpl. lia.
Qed.

(** ** Latched counts *)
Definition keeps_latch_byte (i : nat) (port b : Z) : Prop :=
  port = PIT_CMD ->
  (selected b = Z.of_nat i -> access_of b = AccessMode.LatchCount) /\
  (selected b = 3 -> b &&& (1 <<< (Z.of_nat i + 1)) = 0 -> b &&& 0x10 <> 0).

(** The event neither reads counter [i], nor sets its mode, nor latches its
    status; it may load a new count, latch the count again, let time pass. *)
Definition keeps_latch (i : nat) (ev : event) : Prop :=
  match ev with
  | In port _ => port <> data_port i
  | Out port size val => Forall (keeps_latch_byte i port) (write_bytes size val)
  | _ => True
  end.

Definition latch (c : C.t) : AccessMode.t * BytePhase.t * option LatchedValue.t * option Z :=
  (c.(C.access_mode), c.(C.read_phase), c.(C.latched_count), c.(C.latched_status)).

Lemma out_effect_latch i port b c l :
  (i < 3)%nat -> keeps_latch_byte i port b -> c.(C.latched_count) = Some l -> latch (out_effect i port b c) = latch c.
Proof.
  intros Hi Hk Hl. unfold out_effect. case_if.
  { unfold C.write_data. by repeat case_match. }
  destruct (Z.eqb_spec port PIT_CMD) as [->|]; [|done]. destruct (Hk eq_refl) as [Hm Hs].
  assert (C.latch_count c = c) as Hlc by (unfold C.latch_count; by rewrite Hl).
  unfold control_effect. destruct (Z.eqb_spec (selected b) 3) as [Hsel|Hsel].
  - destruct (Z.eqb_spec (b &&& (1 <<< (Z.of_nat i + 1))) 0) as [Hb|]; [|done].
    rewrite Hlc, (proj2 (Z.eqb_neq (b &&& 16) 0)) by auto. by case_if.
  - case_decide as Hd; [|done]. pose proof (selected_bounds b).
    rewrite decide_True by (apply Hm; lia). by rewrite Hlc.
Qed.

Lemma step_latch p e ev p' e' i l :
  (i < 3)%nat -> pit_ok p -> event_ok ev -> keeps_latch i ev -> (channel p i).(C.latched_count) = Some l ->
  step (p, e) ev = Some (p', e') -> latch (channel p' i) = latch (channel p i).
Proof.
  intros Hi Hp Hev Hk Hl Hs. destruct ev as [ns|port size|port size val|]; simpl in *.
  - rewrite advance_ns_eq in Hs by done. destruct (fire _ _ _); [|done]. simplify_eq/=.
    unfold elapse. case_if; [done|]. change (channel (with_ns_remainder _ ?q) i) with (channel q i).
    rewrite channel_after by done. unfold chan_after. by case_if.
  - simplify_eq. set (J (q : t E) := pit_ok q /\ latch (channel q i) = latch (channel p i)).
    apply (port_read_keeps J p port size); [|by split]. intros q [Hq Ej].
    destruct (port_read_u8_channel q port i (po_three _ Hq) Hi) as (Ec & _).
    split; [by apply port_read_u8_ok|]. by rewrite Ec, (proj2 (Z.eqb_neq _ _) Hk).
  - simplify_eq. set (J (q : t E) := pit_ok q /\ latch (channel q i) = latch (channel p i)).
    apply (port_write_keeps J p port size val); [|by split]. intros q b Hb [Hq Ej].
    destruct (port_write_u8_channel q port b i (po_three _ Hq) Hi) as (Ec & _).
    pose proof (proj1 (Forall_forall _ _) (write_bytes_uint size val) b Hb).
    split; [by apply port_write_u8_ok|]. rewrite Ec, <- Ej. apply (out_effect_latch i port b _ l); [done| |].
    + exact (proj1 (Forall_forall _ _) Hk b Hb).
    + unfold latch in Ej. congruence.
  - by simplify_eq.
Qed.

(** ** Runs return

    [safe I cb]: the callback returns and keeps [I]. *)
Definition safe (I : E -> Prop) (cb : option (E -> option E)) : Prop :=
  match cb with Some cb => forall e, I e -> exists e', cb e = Some e' /\ I e' | None => True end.

Lemma fire_safe I cb n e : safe I cb -> I e -> exists e', fire cb n e = Some e' /\ I e'.
Proof.
  intros Hs He. unfold fire. destruct cb as [cb|]; [|by exists e]. generalize (Z.to_nat n). intros k.
  revert e He. induction k as [|k IH]; intros e He; simpl; [by exists e|].
  destruct (Hs e He) as (e1 & -> & He1). by apply IH.
Qed.

Lemma step_safe I p e ev :
  pit_ok p -> event_ok ev -> safe I p.(irq0_callback) -> I e ->
  exists p' e', step (p, e) ev = Some (p', e') /\ pit_ok p' /\ I e' /\ p'.(irq0_callback) = p.(irq0_callback).
Proof.
  intros Hp Hev Hs He.
  assert (exists p' e', step (p, e) ev = Some (p', e') /\ I e' /\ p'.(irq0_callback) = p.(irq0_callback))
    as (p' & e' & Hst & He' & Hcb).
  { destruct ev as [ns|port size|port size val|]; simpl in *.
    - rewrite advance_ns_eq by done. destruct (fire_safe I _ (pulses_in p ns) e Hs He) as (e' & -> & He').
      eexists _, _. split; [done|]. split; [done|]. unfold elapse. by case_if.
    - eexists _, _. split; [done|]. split; [done|].
      apply (port_read_keeps (fun q => q.(irq0_callback) = p.(irq0_callback))); [|done].
      intros q <-. apply port_read_u8_frame.
    - eexists _, _. split; [done|]. split; [done|].
      apply (port_write_keeps (fun q => q.(irq0_callback) = p.(irq0_callback))); [|done].
      intros q b _ <-. apply port_write_u8_frame.
    - by eexists _, _. }
  exists p', e'. split_and!; [done| |done|done]. by eapply step_ok.
Qed.

Lemma run_safe I evs p e :
  pit_ok p -> Forall event_ok evs -> safe I p.(irq0_callback) -> I e ->
  exists p' e', run evs (p, e) = Some (p', e') /\ pit_ok p' /\ I e' /\ p'.(irq0_callback) = p.(irq0_callback).
Proof.
  intros Hp Hev. revert p e Hp. induction Hev as [|ev evs He Hev IH]; intros p e Hp Hs Hi; [by exists p, e|].
  destruct (step_safe I p e ev Hp He Hs Hi) as (p1 & e1 & Hst & Hp1 & Hi1 & Hcb).
  rewrite run_cons, Hst. simpl. rewrite <- Hcb in *. destruct (IH p1 e1 Hp1) as (p' & e' & ? & ? & ? & ?); [done|done|].
  by exists p', e'.
Qed.

Lemma run_latch evs p e p' e' i l :
  (i < 3)%nat -> pit_ok p -> Forall event_ok evs -> Forall (keeps_latch i) evs ->
  (channel p i).(C.latched_count) = Some l -> run evs (p, e) = Some (p', e') ->
  latch (channel p' i) = latch (channel p i).
Proof.
  intros Hi Hp Hev Hk. revert p e Hp Hk. induction Hev as [|ev evs He Hev IH]; intros p e Hp Hk Hl Hr.
  { unfold run, foldo in Hr. simpl in Hr. by simplify_eq. }
  apply Forall_cons in Hk as [Hk1 Hk]. rewrite run_cons in Hr.
  destruct (step (p, e) ev) as [[p1 e1]|] eqn:Hst; [|done]. simpl in Hr.
  pose proof (step_latch p e ev p1 e1 i l Hi Hp He Hk1 Hl Hst) as El.
  rewrite <- El. apply (IH p1 e1); try done; [by eapply step_ok|]. unfold latch in El. congruence.
Qed.

Lemma run_held I evs p e i a rp l s :
  (i < 3)%nat -> pit_ok p -> safe I p.(irq0_callback) -> I e -> Forall event_ok evs -> Forall (keeps_latch i) evs ->
  latch (channel p i) = (a, rp, Some l, s) ->
  exists p' e', run evs (p, e) = Some (p', e') /\ pit_ok p' /\ I e' /\
    p'.(irq0_callback) = p.(irq0_callback) /\ latch (channel p' i) = (a, rp, Some l, s).
Proof.
  intros Hi Hp Hs He Ho Hk Hl. destruct (run_safe I evs p e Hp Ho Hs He) as (p' & e' & Hr & Hp' & He' & Hcb).
  exists p', e'. split_and!; try done. rewrite <- Hl. apply (run_latch evs p e p' e' i l); try done. unfold latch in Hl. congruence.
Qed.

(** A one-byte read of the counter's own port. *)
Lemma read_own p i :
  (i < 3)%nat -> pit_ok p ->
  let r := port_read p (data_port i) 1 in
  r.1 = (C.read_data (channel p i)).1 /\ channel r.2 i = (C.read_data (channel p i)).2 /\
  pit_ok r.2 /\ r.2.(irq0_callback) = p.(irq0_callback).
Proof.
  intros Hi Hp r. change r with (port_read_u8 p (data_port i)).
  destruct (port_read_u8_channel p (data_port i) i (po_three _ Hp) Hi) as (Ec & Eb & _).
  rewrite Z.eqb_refl in Ec. split_and!; [by apply Eb|done|by apply port_read_u8_ok|apply port_read_u8_frame].
Qed.

#[local] Arguments C.current_count_raw : simpl never.

Lemma latch_command p i :
  (i < 3)%nat -> pit_ok p ->
  let p' := port_write p PIT_CMD 1 (Z.of_nat i <<< 6) in
  pit_ok p' /\ channel p' i = C.latch_count (channel p i).
Proof.
  intros Hi Hp p'. split; [by apply port_write_ok|]. unfold p'. rewrite port_write_eq.
  assert (uint 8 (Z.of_nat i <<< 6)) by (destruct i as [|[|[|]]]; [done..|lia]).
  unfold write_bytes. cbn [Z.eqb Pos.eqb fold_left]. rewrite wrap_small by done.
  rewrite (proj1 (port_write_u8_channel p _ _ i (po_three _ Hp) Hi)). unfold out_effect, data_port.
  rewrite (proj2 (Z.eqb_neq _ _)) by lia. by destruct i as [|[|[|]]]; [..|lia].
Qed.

(** The two reads of a latched count in low/high mode. *)
Lemma read_latched c v :
  uint 16 v -> latch c = (AccessMode.LobyteHibyte, BytePhase.Low, Some (LatchedValue.new v), None) ->
  (C.read_data c).1 = v mod 256 /\
  latch (C.read_data c).2
  = (AccessMode.LobyteHibyte, BytePhase.High, Some (LatchedValue.mk v BytePhase.High), None).
Proof.
  intros Hv [= Ha Hr Hc Hs]. unfold C.read_data. rewrite Hs, Hc, Ha, Hr. cbn.
  split; [change 0xFF with (Z.ones 8); by rewrite land_ones_mod|]. rewrite Hc. unfold latch. cbn. congruence.
Qed.

Lemma read_latched_high c v ph :
  uint 16 v -> latch c = (AccessMode.LobyteHibyte, BytePhase.High, Some (LatchedValue.mk v ph), None) ->
  (C.read_data c).1 = v / 256 /\
  latch (C.read_data c).2 = (AccessMode.LobyteHibyte, BytePhase.Low, None, None).
Proof.
  intros Hv [= Ha Hr Hc Hs]. unfold C.read_data. rewrite Hs, Hc, Ha, Hr. cbn. split.
  - change 0xFF with (Z.ones 8). rewrite land_ones_mod, Z.shiftr_div_pow2 by done.
    apply Z.mod_small. unfold uint in *. split; [apply Z.div_pos; lia|apply Z.div_lt_upper_bound; lia].
  - rewrite Hc. unfold latch. cbn. congruence.
Qed.

(** C25: A latched count is read as one value.  After the latch command for a
    counter in low/high mode that holds no latch yet, two one-byte reads give
    the low and the high byte of the count at the moment of the latch, however
    much time passes before and between them.  Meanwhile the guest may load a
    new count, latch the count again, and program and read the other counters;
    it does not set this counter's mode, latch its status or read it.  The
    second read releases the latch. *)
Theorem pit_latch (I : E -> Prop) p e i evs1 evs2 :
  (i < 3)%nat -> pit_ok p -> safe I p.(irq0_callback) -> I e ->
  (channel p i).(C.access_mode) = AccessMode.LobyteHibyte ->
  (channel p i).(C.latched_count) = None -> (channel p i).(C.latched_status) = None ->
  Forall event_ok (evs1 ++ evs2) -> Forall (keeps_latch i) (evs1 ++ evs2) ->
  exists p1 e1 p2 e2,
    run (Out PIT_CMD 1 (Z.of_nat i <<< 6) :: evs1) (p, e) = Some (p1, e1) /\
    run evs2 ((port_read p1 (data_port i) 1).2, e1) = Some (p2, e2) /\
    (port_read p1 (data_port i) 1).1 + 256 * (port_read p2 (data_port i) 1).1
    = C.current_count_raw (channel p i) /\
    (channel (port_read p2 (data_port i) 1).2 i).(C.latched_count) = None.
Proof.
  intros Hi Hp Hs He Ha Hc Hst [Ho1 Ho2]%Forall_app [Hk1 Hk2]%Forall_app.
  destruct (latch_command p i Hi Hp) as [Hp0 Ech]. set (v := C.current_count_raw (channel p i)).
  assert (uint 16 v) as Hv by apply count_uint.
  destruct (step_safe I p e (Out PIT_CMD 1 (Z.of_nat i <<< 6)) Hp ltac:(done) Hs He)
    as (? & ? & [= <- <-] & _ & _ & Hcb0). set (p0 := port_write p _ _ _) in *.
  destruct (run_held I evs1 p0 e i AccessMode.LobyteHibyte BytePhase.Low (LatchedValue.new v) None)
    as (p1 & e1 & Hr1 & Hp1 & He1 & Hcb1 & L1); try done.
  { by rewrite Hcb0. }
  { rewrite Ech. unfold C.latch_count. rewrite Hc. unfold latch. cbn. by rewrite Ha, Hst. }
  destruct (read_own p1 i Hi Hp1) as (B1 & C1 & Hq & Hcbq). set (r := port_read p1 _ _) in *.
  destruct (read_latched (channel p1 i) v Hv L1) as [V1 L1'].
  destruct (run_held I evs2 r.2 e1 i AccessMode.LobyteHibyte BytePhase.High (LatchedValue.mk v BytePhase.High) None)
    as (p2 & e2 & Hr2 & Hp2 & _ & _ & L2); try done.
  { by rewrite Hcbq, Hcb1, Hcb0. }
  { by rewrite C1. }
  destruct (read_own p2 i Hi Hp2) as (B2 & C2 & _ & _).
  destruct (read_latched_high (channel p2 i) v BytePhase.High Hv L2) as [V2 L2'].
  exists p1, e1, p2, e2. fold r. rewrite B1, B2, C2, V1, V2. split_and!; [by rewrite run_cons|done| |].
  - pose proof (Z.div_mod v 256). lia.
  - unfold latch in L2'. congruence.
Qed.
End Timer.
