(* ===== verification/PitIrq.v ===== *)
(** * The interval timer on the interrupt router, and its snapshots

    The line of IRQ 0 through the router in PIC mode: what a pulse leaves in the
    controller, and the ticks of a whole history.  Then the snapshot contract
    and concrete runs. *)

From S2P Require Import Prelude Bytes Snapshot SnapshotFacts Pic PicFacts Router RouterFacts RouterProps.
From S2P Require Import Pit PitFacts PitEvents PitProps.
Import Pit8254.

(** ** One pulse *)
Definition gsi0 (r : P.t) : Z := P.gsi_of_input r (IsaIrq 0).

Abbreviation master r := ((PlatformPic.inner (P.pic r)).(DualPic8259.master)).

(** No device holds the line of IRQ 0, the router drives the PIC, and the
    controller takes the line as an edge-triggered input that is low. *)
Record irq0_idle (r : P.t) : Prop := {
  id_mode : r.(P.mode) = LegacyPic;
  id_count : r.(P.gsi_assert_count) !! Z.to_nat (gsi0 r) = Some 0;
  id_base : r.(P.gsi_restore_baseline) !! Z.to_nat (gsi0 r) = Some false;
  id_irq : P.legacy_pic_irq_for_gsi r (gsi0 r) = Some 0;
  id_edge : (master r).(Pic8259.level_triggered) = false;
  id_low : (master r).(Pic8259.line_level) &&& 1 = 0;
}.

(** IRQ 0 requested, nothing else changed. *)
Definition request_irq0 (r : P.t) : P.t :=
  P.with_pic
    (PlatformPic.with_inner
       (DualPic8259.with_master
          (Pic8259.with_irr ((master r).(Pic8259.irr) ||| 1) (master r)) (PlatformPic.inner (P.pic r)))
       (P.pic r)) r.

Lemma edge_pulse m :
  uint 8 m.(Pic8259.line_level) -> m.(Pic8259.level_triggered) = false -> m.(Pic8259.line_level) &&& 1 = 0 ->
  Pic8259.set_irq_level (Pic8259.set_irq_level m 0 true) 0 false
  = Pic8259.with_irr (m.(Pic8259.irr) ||| 1) m.
Proof.
  intros Hu Hl Hb. unfold Pic8259.set_irq_level. change (1 <<< 0) with 1.
  rewrite Hb, Hl. cbn. rewrite Hl. cbn. rewrite Hl.
  assert ((m.(Pic8259.line_level) ||| 1) &&& unot 8 1 = m.(Pic8259.line_level)) as ->; [|by destruct m].
  rewrite land_unot by (lia || by apply uint_lor). bitwise.
  pose proof (f_equal (fun x => Z.testbit x i) Hb) as Hbi. simpl in Hbi. rewrite Z.land_spec, Z.bits_0 in Hbi.
  rewrite Z.lor_spec. by destruct (Z.testbit 1 i), (Z.testbit (Pic8259.line_level m) i).
Qed.

Lemma update_gsi_edge r gsi c b :
  r.(P.gsi_assert_count) !! Z.to_nat gsi = Some c ->
  r.(P.gsi_restore_baseline) !! Z.to_nat gsi = Some false -> r.(P.gsi_level) !! Z.to_nat gsi = Some (negb b) ->
  (if b then c = 0 else c = 1) ->
  P.update_gsi_assert_count r gsi b
  = P.drive_gsi_effective_level
      (P.set_gsi_level_internal
         (P.with_gsi_assert_count (<[Z.to_nat gsi := 1 - c]> r.(P.gsi_assert_count)) r) gsi b) gsi b.
Proof.
  intros Hc Hb Hl Hcb. unfold P.update_gsi_assert_count. rewrite Hc.
  assert (negb b && (c =? 0) = false) as -> by (destruct b; subst; done). cbn zeta.
  assert ((if b then saturating_add 32 c 1 else c - 1) = 1 - c) as -> by (destruct b; subst; done).
  cbn. rewrite Hb, Hl. cbn.
  assert ((0 <? 1 - c) = b) as -> by (destruct b; subst; done). by destruct b.
Qed.

Lemma idle_level r : router_ok r -> irq0_idle r -> r.(P.gsi_level) !! Z.to_nat (gsi0 r) = Some false.
Proof.
  intros Hr [_ Hc Hb _ _ _]. rewrite (ro_level _ Hr). unfold wired. by rewrite lookup_zip_with, Hb, Hc.
Qed.

(** The state while the line is high. *)
Definition raised (r : P.t) : P.t :=
  P.with_pic (PlatformPic.raise_irq r.(P.pic) 0)
    (P.set_gsi_level_internal
       (P.with_gsi_assert_count (<[Z.to_nat (gsi0 r) := 1]> r.(P.gsi_assert_count)) r) (gsi0 r) true).

Lemma drive_pic r gsi irq b :
  r.(P.mode) = LegacyPic -> P.legacy_pic_irq_for_gsi r gsi = Some irq ->
  P.drive_gsi_effective_level r gsi b
  = Some (P.with_pic (if b then PlatformPic.raise_irq r.(P.pic) irq else PlatformPic.lower_irq r.(P.pic) irq) r).
Proof. intros Hm Hi. unfold P.drive_gsi_effective_level. by rewrite Hm, Hi. Qed.

Lemma pulse_idle r : router_ok r -> irq0_idle r -> pulse_irq0 r = Some (request_irq0 r).
Proof.
  intros Hr Hi. pose proof (idle_level r Hr Hi) as Hl. destruct Hi as [Hm Hc Hb Hq He Hlow].
  pose proof (ro_pic _ Hr) as [[Hmo _] _].
  assert (P.raise_irq r (IsaIrq 0) = Some (raised r)) as Hup.
  { unfold P.raise_irq. fold (gsi0 r). rewrite (update_gsi_edge r _ 0 true Hc Hb Hl eq_refl).
    by rewrite (drive_pic _ _ 0). }
  unfold pulse_irq0. rewrite Hup. simpl. unfold P.lower_irq. change (P.gsi_of_input (raised r) _) with (gsi0 r).
  assert (gsi0 r = gsi0 (raised r)) as Hg by done.
  rewrite (update_gsi_edge (raised r) _ 1 false); [|..|done].
  - rewrite (drive_pic _ _ 0) by done. f_equal. apply router_ext; try done; simpl.
    + by rewrite list_insert_insert_eq, list_insert_id.
    + by rewrite list_insert_insert_eq, list_insert_id.
    + by rewrite <- (edge_pulse _ (po_line _ Hmo) He Hlow).
  - simpl. apply list_lookup_insert_eq. by apply lookup_lt_Some in Hc.
  - done.
  - simpl. apply list_lookup_insert_eq. by apply lookup_lt_Some in Hl.
Qed.

(** A pulse never panics and keeps the router well formed, in every mode. *)
Lemma pulse_safe r : router_ok r -> exists r', pulse_irq0 r = Some r' /\ router_ok r'.
Proof.
  intros Hr. unfold pulse_irq0.
  destruct (update_gsi_ok r (gsi0 r) true Hr) as (r1 & H1 & Hr1 & _); [by apply gsi_of_input_nonneg|].
  change (P.raise_irq r (IsaIrq 0)) with (P.update_gsi_assert_count r (gsi0 r) true). rewrite H1. simpl.
  destruct (update_gsi_ok r1 (gsi0 r1) false Hr1) as (r2 & H2 & Hr2 & _); [by apply gsi_of_input_nonneg|].
  by exists r2.
Qed.

Lemma request_idle r : router_ok r -> irq0_idle r -> router_ok (request_irq0 r) /\ irq0_idle (request_irq0 r).
Proof.
  intros Hr Hi. split.
  - destruct (pulse_safe r Hr) as (r' & Hp & Hr'). rewrite pulse_idle in Hp by done. by simplify_eq.
  - by destruct Hi.
Qed.

Lemma request_idem r : request_irq0 (request_irq0 r) = request_irq0 r.
Proof. apply router_ext; try done. simpl. unfold Pic8259.with_irr. simpl. by rewrite <- Z.lor_assoc. Qed.

Lemma pulses_idle r n :
  router_ok r -> irq0_idle r -> 0 <= n ->
  fire (Some pulse_irq0) n r = Some (if n =? 0 then r else request_irq0 r).
Proof.
  intros Hr Hi Hn. simpl. destruct (Z.eqb_spec n 0) as [->|Hnz]; [done|].
  replace (Z.to_nat n) with (S (Z.to_nat (n - 1))) by lia. simpl. rewrite pulse_idle by done. simpl.
  destruct (request_idle r Hr Hi) as [Hr1 Hi1]. generalize (Z.to_nat (n - 1)). intros k.
  induction k as [|k IH]; [done|]. simpl. rewrite pulse_idle by done. simpl. by rewrite request_idem.
Qed.

(** ** What the CPU sees *)

(** IRQ 0 is unmasked and nothing is in service, in the priority order of the
    PC, and the slave is not wired to input 0. *)
Record irq0_open (r : P.t) : Prop := {
  op_mask : (master r).(Pic8259.imr) &&& 1 = 0;
  op_idle : (master r).(Pic8259.isr) = 0;
  op_order : (master r).(Pic8259.lowest_priority) = 7;
  op_wire : DualPic8259.cascade_line (PlatformPic.inner (P.pic r)) <> Some 0;
}.

Lemma first_pending m extra :
  m.(Pic8259.imr) &&& 1 = 0 -> m.(Pic8259.isr) = 0 -> m.(Pic8259.lowest_priority) = 7 ->
  Pic8259.pending_irq_with_extra_irr (Pic8259.with_irr (m.(Pic8259.irr) ||| 1) m) extra = Some 0.
Proof.
  intros Hm Hi Hl. set (m' := Pic8259.with_irr _ m). unfold Pic8259.pending_irq_with_extra_irr.
  change (Pic8259.imr m') with (Pic8259.imr m). change (Pic8259.irr m') with (m.(Pic8259.irr) ||| 1).
  set (pend := (m.(Pic8259.irr) ||| 1 ||| extra) &&& unot 8 m.(Pic8259.imr)).
  assert (nz (pend &&& (1 <<< 0)) = true) as Hb.
  { change (1 <<< 0) with (2 ^ 0). rewrite nz_land_pow2 by done. unfold pend.
    rewrite Z.land_spec, !Z.lor_spec, unot_spec by done.
    pose proof (f_equal (fun x => Z.testbit x 0) Hm) as Hm0. cbn beta in Hm0. rewrite Z.land_spec, Z.bits_0 in Hm0.
    change (Z.testbit 1 0) with true in *. rewrite andb_true_r in Hm0. by rewrite Hm0, orb_true_r. }
  destruct (Z.eqb_spec pend 0) as [H0|_]; [by rewrite H0 in Hb|].
  assert (Pic8259.irq_priority_order m' = [0; 1; 2; 3; 4; 5; 6; 7]) as Hord.
  { unfold Pic8259.irq_priority_order. simpl. by rewrite Hl. }
  assert (Pic8259.highest_in_service m' = None) as ->.
  { unfold Pic8259.highest_in_service. rewrite Hord. simpl. by rewrite Hi. }
  rewrite Hord. cbn [Pic8259.pending_loop]. by rewrite bool_decide_false, Hb.
Qed.

Lemma request_pending r :
  irq0_idle r -> irq0_open r ->
  (P.get_pending_for_cpu (request_irq0 r) 0).1 = Some (master r).(Pic8259.vector_base).
Proof.
  intros Hi [Hm Hs Ho Hw]. unfold P.get_pending_for_cpu. simpl. rewrite (id_mode _ Hi). simpl.
  unfold PlatformPic.get_pending_vector, DualPic8259.get_pending_vector. simpl.
  change (DualPic8259.cascade_line _) with (DualPic8259.cascade_line (PlatformPic.inner (P.pic r))).
  destruct (DualPic8259.cascade_line _) as [l|]; rewrite first_pending by done; cbn [fst snd].
  - rewrite (proj2 (Z.eqb_neq 0 l)) by congruence. rewrite andb_false_r. by rewrite Z.lor_0_r.
  - by rewrite Z.lor_0_r.
Qed.

(** C18: The timer interrupt reaches the CPU.  A timer is wired to a router in
    PIC mode; the line of IRQ 0 is idle and edge-triggered, its input is
    unmasked and nothing is in service.  The guest programs counter 0 in mode 2
    or 3 and then does whatever it likes to the timer, short of programming
    counter 0 again, while time passes in any slices; the router has no other
    caller.  No call panics; as long as no period is over the router is
    untouched, and from then on IRQ 0 is requested, with no other change to the
    router (pulses that are not yet served coalesce), and the CPU is offered
    the vector of IRQ 0. *)
Theorem pit_tick_delivered p r m n evs :
  pit_ok p -> p.(ns_remainder) < NS_PER_SEC -> m = 2 \/ m = 3 -> 1 <= n <= 65536 ->
  Forall event_ok evs -> Forall (paces 0) evs -> router_ok r -> irq0_idle r -> irq0_open r ->
  let ticks := (p.(ns_remainder) + total evs * PIT_HZ) / NS_PER_SEC in
  exists p' r',
    run (program m n ++ evs) (connect_irq0_to_platform_interrupts p, r) = Some (p', r') /\
    (ticks < period_of m n -> r' = r) /\
    (period_of m n <= ticks ->
       r' = request_irq0 r /\ (P.get_pending_for_cpu r' 0).1 = Some (master r).(Pic8259.vector_base)).
Proof.
  intros Hp Hx Hm Hn Hev Hpc Hr Hi Ho ticks. set (q := connect_irq0_to_platform_interrupts p).
  assert (pit_ok q) as Hq by (by destruct Hp).
  assert (0 < period_of m n) as Hpos by (unfold period_of; case_if; lia). pose proof (po_rem _ Hp) as Hrem.
  assert (0 <= ticks) as Ht.
  { apply Z.div_pos; [|done]. pose proof (total_nonneg evs Hev). unfold uint, PIT_HZ in *. lia. }
  destruct (programmed_run q m n evs Hq Hx Hm Hn Hev Hpc) as (p' & Hrun & _).
  specialize (Hrun r). change (irq0_callback q) with (Some pulse_irq0) in Hrun.
  change (ticks_after _ _) with ticks in Hrun.
  rewrite (pulses_idle r (ticks / period_of m n)) in Hrun by (try done; by apply Z.div_pos).
  eexists _, _. split; [exact Hrun|]. split; intros Hper.
  - by rewrite Z.div_small.
  - assert (1 <= ticks / period_of m n) by (apply Z.div_le_lower_bound; lia).
    rewrite (proj2 (Z.eqb_neq _ _)) by lia. split; [done|by apply request_pending].
Qed.

(** ** Concrete instances

    A timer programmed for about 1 kHz, whose callback counts pulses, and a
    history with a latch command and reads between the slices of time. *)
Definition counter : Z -> option Z := fun e => Some (e + 1).
Definition demo_pit : t Z := connect_irq0 new counter.
Definition demo_events : list event :=
  [Advance 400000; Out PIT_CMD 1 0; In PIT_CH0 2; Out PIT_CMD 1 0x76; Advance 1300000; Drain].

Lemma pit_new_ok {E} cb : pit_ok (with_irq0_callback cb (@new E)).
Proof.
  assert (chan_ok C.default) by done. split; try done. simpl. by rewrite !Forall_cons.
Qed.

Lemma demo_events_ok : Forall event_ok demo_events.
Proof. unfold demo_events. by rewrite !Forall_cons. Qed.

Lemma demo_paces : Forall (paces 0) demo_events.
Proof.
  unfold demo_events. rewrite !Forall_cons. split_and!; try done;
    (apply Forall_cons; split; [|by apply Forall_nil]); by split.
Qed.

Lemma pit_slicing_witness :
  advance_all demo_pit [400000; 600001; 5] 0 = advance_ns demo_pit (sumZ id [400000; 600001; 5]) 0.
Proof.
  apply (pit_slicing demo_pit 400000 [600001; 5] 0); [exact (pit_new_ok (Some counter))|by repeat constructor|done].
Defined.

Lemma pit_rate_witness :
  exists p',
    (forall e, run (program 2 1193 ++ demo_events) (demo_pit, e)
               = (e ← fire (Some counter) (2028 / 1193) e; Some (p', e))) /\
    (2 = 2 -> C.current_count_raw (channel p' 0) = (1193 - 2028 mod 1193) mod 65536).
Proof.
  exact (pit_rate demo_pit 2 1193 demo_events (pit_new_ok (Some counter)) eq_refl (or_introl eq_refl)
           ltac:(lia) demo_events_ok demo_paces).
Defined.

(** Counter 1 programmed for mode 2, latched, read low, then high much later. *)
Definition demo_latch : t Z :=
  port_write (port_write (port_write demo_pit PIT_CMD 1 0x74) PIT_CH1 1 0x34) PIT_CH1 1 0x12.

Lemma pit_latch_witness :
  exists p1 e1 p2 e2,
    run (Out PIT_CMD 1 (Z.of_nat 1 <<< 6) :: [Advance 1000000]) (demo_latch, 0) = Some (p1, e1) /\
    run [Out PIT_CH1 1 7; Advance 5000000] ((port_read p1 (data_port 1) 1).2, e1) = Some (p2, e2) /\
    (port_read p1 (data_port 1) 1).1 + 256 * (port_read p2 (data_port 1) 1).1
    = C.current_count_raw (channel demo_latch 1) /\
    (channel (port_read p2 (data_port 1) 1).2 1).(C.latched_count) = None.
Proof.
  apply (pit_latch (fun _ => True) demo_latch 0 1 [Advance 1000000] [Out PIT_CH1 1 7; Advance 5000000]).
  - lia.
  - do 3 apply port_write_ok. exact (pit_new_ok (Some counter)).
  - intros e _. by exists (e + 1).
  - done.
  - reflexivity.
  - reflexivity.
  - reflexivity.
  - cbn [app]. by rewrite !Forall_cons.
  - cbn [app]. rewrite !Forall_cons. split_and!; try done.
    apply Forall_cons. split; [done|by apply Forall_nil].
Defined.

(** The platform at power-on (PIC mode, IRQ 0 on line 2) with IRQ 0 unmasked. *)
Definition demo_router : P.t :=
  let r := P.new_with_cpu_count 1 in P.with_pic (PlatformPic.set_masked r.(P.pic) 0 false) r.

Lemma demo_router_ok : router_ok demo_router.
Proof. apply set_masked_ok; [apply new_router_ok; lia|done]. Qed.

Lemma demo_router_idle : irq0_idle demo_router.
Proof. by split; vm_compute. Qed.

Lemma demo_router_open : irq0_open demo_router.
Proof. split; [reflexivity..|vm_compute; discriminate]. Qed.

Lemma pit_tick_delivered_witness :
  exists p' r',
    run (program 3 1193 ++ demo_events) (connect_irq0_to_platform_interrupts new, demo_router) = Some (p', r') /\
    (2028 < 1193 -> r' = demo_router) /\
    (1193 <= 2028 ->
       r' = request_irq0 demo_router /\
       (P.get_pending_for_cpu r' 0).1 = Some (master demo_router).(Pic8259.vector_base)).
Proof.
  pose proof (pit_tick_delivered new demo_router 3 1193 demo_events (pit_new_ok None) eq_refl (or_intror eq_refl)
                ltac:(lia) demo_events_ok demo_paces demo_router_ok demo_router_idle demo_router_open) as Hw.
  exact Hw.
Defined.

(** A counter that already runs is not stopped by a new control word, although
    no count was written for the new mode: with the status byte saying that the
    count is not loaded, pulses of the old rate keep coming. *)
Theorem pit_runs_without_count :
  let p := fold_left (fun p w => port_write p w.1 1 w.2)
             [(PIT_CMD, 0x34); (PIT_CH0, 100); (PIT_CH0, 0); (PIT_CMD, 0x36)] demo_pit in
  (channel p 0).(C.null_count) = true /\
  snd <$> advance_ticks p 1000 0 = Some 10.
Proof. by vm_compute. Qed.

(** Programmed for the low byte alone, a counter keeps the high byte of its
    earlier divisor. *)
Theorem pit_stale_high_byte :
  let p := fold_left (fun p w => port_write p w.1 1 w.2)
             [(PIT_CMD, 0x34); (PIT_CH0, 0x34); (PIT_CH0, 0x12); (PIT_CMD, 0x14); (PIT_CH0, 0x10)] demo_pit in
  (channel p 0).(C.reload) = 0x1210.
Proof. by vm_compute. Qed.
