(* ===== verification/PitSnap.v ===== *)
(** * Snapshots of the interval timer

    The timer keeps the snapshot contract: what is saved is restored on any
    receiver, whose callback stays connected; loading arbitrary bytes leaves a
    well-formed timer. *)

From S2P Require Import Prelude Bytes Collections Snapshot SnapshotFacts PicProps RouterSnap.
From S2P Require Import Pit PitFacts.
Import Pit8254 PitSnapshot.

Section Codec.
Context `{Target}.

(** ** One counter *)
Definition latched_bytes (l : option LatchedValue.t) : list Z :=
  match l with
  | Some l => 1 :: to_le_bytes 2 l.(LatchedValue.value) ++ [phase_code l.(LatchedValue.phase)]
  | None => [0]
  end.
Definition status_bytes (s : option Z) : list Z := match s with Some s => [1; s] | None => [0] end.

Definition chan_bytes (c : C.t) : list Z :=
  [c.(C.mode); if c.(C.bcd) then 1 else 0; AccessMode.status_bits c.(C.access_mode);
   phase_code c.(C.write_phase); phase_code c.(C.read_phase); c.(C.write_latch_low);
   if c.(C.null_count) then 1 else 0]
  ++ to_le_bytes 4 c.(C.reload) ++ to_le_bytes 4 c.(C.phase_ticks)
  ++ latched_bytes c.(C.latched_count) ++ status_bytes c.(C.latched_status).

Lemma encode_channel_eq enc c : encode_channel enc c = enc ++ chan_bytes c.
Proof.
  unfold encode_channel, encode_status, encode_latched, chan_bytes, latched_bytes, status_bytes,
    Encoder.bool, Encoder.u8, Encoder.u16, Encoder.u32.
  destruct (C.latched_count c), (C.latched_status c); by rewrite <- ?app_assoc.
Qed.

Lemma chan_bytes_length c : (length (chan_bytes c) <= 21)%nat.
Proof.
  unfold chan_bytes, latched_bytes, status_bytes. rewrite !length_app, !to_le_bytes_length.
  destruct (C.latched_count c), (C.latched_status c); simpl; rewrite ?length_app, ?to_le_bytes_length; simpl; lia.
Qed.

Lemma phase_code_uint p : uint 8 (phase_code p).
Proof. by destruct p. Qed.
Lemma phase_of_code p : phase_of (phase_code p) = p.
Proof. by destruct p. Qed.
Lemma from_status_bits a : AccessMode.from_bits (AccessMode.status_bits a) = a.
Proof. by destruct a. Qed.

Lemma decode_latched_ahead d l rest :
  match l with Some l => uint 16 l.(LatchedValue.value) | None => True end ->
  ahead d (latched_bytes l ++ rest) -> exists d', decode_latched d = (Ok l, d') /\ ahead d' rest.
Proof.
  intros Hl Ha. destruct l as [[v ph]|]; cbn [latched_bytes app LatchedValue.value LatchedValue.phase] in *.
  - destruct (bool_ahead d true _ Ha) as (d1 & T1 & A1). rewrite <- app_assoc in A1.
    destruct (u16_ahead d1 v _ Hl A1) as (d2 & T2 & A2).
    destruct (u8_ahead d2 _ _ (phase_code_uint ph) A2) as (d3 & T3 & A3).
    exists d3. split; [|done]. unfold decode_latched.
    rewrite (st_bind_ok _ _ _ _ _ T1), (st_bind_ok _ _ _ _ _ T2), (st_bind_ok _ _ _ _ _ T3).
    by rewrite phase_of_code.
  - destruct (bool_ahead d false _ Ha) as (d1 & T1 & A1). exists d1. split; [|done].
    unfold decode_latched. by rewrite (st_bind_ok _ _ _ _ _ T1).
Qed.

Lemma decode_status_ahead d s rest :
  match s with Some s => uint 8 s | None => True end ->
  ahead d (status_bytes s ++ rest) -> exists d', decode_status d = (Ok s, d') /\ ahead d' rest.
Proof.
  intros Hs Ha. destruct s as [s|]; simpl in *.
  - destruct (bool_ahead d true _ Ha) as (d1 & T1 & A1).
    destruct (u8_ahead d1 _ _ Hs A1) as (d2 & T2 & A2).
    exists d2. split; [|done]. unfold decode_status.
    by rewrite (st_bind_ok _ _ _ _ _ T1), (st_bind_ok _ _ _ _ _ T2).
  - destruct (bool_ahead d false _ Ha) as (d1 & T1 & A1). exists d1. split; [|done].
    unfold decode_status. by rewrite (st_bind_ok _ _ _ _ _ T1).
Qed.

(** One read of [decode_channel]. *)
Local Tactic Notation "field" uconstr(lem) :=
  match goal with
  | Ha : ahead ?d _ |- _ =>
      let d' := fresh "d" in let Ht := fresh in let Ha' := fresh in
      let t := constr:(lem Ha) in destruct t as (d' & Ht & Ha'); clear Ha;
      rewrite (st_bind_ok _ _ _ _ _ Ht); clear Ht
  end.

Lemma decode_channel_ahead d c rest :
  chan_ok c -> ahead d (chan_bytes c ++ rest) -> exists d', decode_channel d = (Ok c, d') /\ ahead d' rest.
Proof.
  intros [Hm Hw Hr Hp Hc Hs] Ha. unfold chan_bytes in Ha. rewrite <- !app_assoc in Ha. cbn [app] in Ha.
  assert (uint 8 (AccessMode.status_bits c.(C.access_mode))) as Hacc by (by destruct (C.access_mode c)).
  unfold decode_channel. field (u8_ahead _ _ _ Hm). field (bool_ahead _ (C.bcd c) _). field (u8_ahead _ _ _ Hacc).
  field (u8_ahead _ _ _ (phase_code_uint _)). field (u8_ahead _ _ _ (phase_code_uint _)).
  field (u8_ahead _ _ _ Hw). field (bool_ahead _ (C.null_count c) _). field (u32_ahead _ _ _ Hr).
  field (u32_ahead _ _ _ Hp). field (decode_latched_ahead _ _ _ Hc). field (decode_status_ahead _ _ _ Hs).
  eexists. split; [|eassumption]. rewrite !phase_of_code, from_status_bits. by destruct c.
Qed.

(** ** The loop over the counters *)
Lemma decode_channels_ahead cs pre old d rest :
  Forall chan_ok cs -> length old = length cs -> ahead d (concat (map chan_bytes cs) ++ rest) ->
  exists d', decode_channels (length cs) (length pre) (pre ++ old, d) = (Ok tt, (pre ++ cs, d')) /\ ahead d' rest.
Proof.
  revert pre old d. induction cs as [|c cs IH]; intros pre old d Hcs Hl Ha.
  { destruct old; [|done]. by exists d. }
  destruct old as [|o old]; [done|]. apply Forall_cons in Hcs as [Hc Hcs]. simpl in Ha. rewrite <- app_assoc in Ha.
  destruct (decode_channel_ahead d c _ Hc Ha) as (d1 & T1 & A1). cbn [decode_channels length].
  rewrite (st_bind_ok _ _ _ _ _ (assign_ok _ _ (pre ++ o :: old) _ _ _ T1)).
  rewrite (insert_app_r_alt pre (o :: old) (length pre)), Nat.sub_diag by lia. cbn [list_insert].
  destruct (IH (pre ++ [c]) old d1 Hcs ltac:(simpl in Hl; lia) A1) as (d' & T & A).
  rewrite length_app, Nat.add_comm in T. rewrite <- !app_assoc in T. by exists d'.
Qed.

Definition channels_bytes (cs : list C.t) : list Z :=
  to_le_bytes 4 (wrap 32 (Z.of_nat (length cs))) ++ concat (map chan_bytes cs).

Lemma encode_loop cs e : fold_left encode_channel cs e = e ++ concat (map chan_bytes cs).
Proof.
  revert e. induction cs as [|c cs IH]; intros e; simpl; [by rewrite app_nil_r|].
  by rewrite IH, encode_channel_eq, <- app_assoc.
Qed.

Lemma records_length cs : (length (concat (map chan_bytes cs)) <= 21 * length cs)%nat.
Proof.
  induction cs as [|c cs IH]; cbn [map concat length]; [lia|]. rewrite length_app.
  pose proof (chan_bytes_length c). lia.
Qed.

Lemma load_channels_ahead cs old :
  Forall chan_ok cs -> length old = length cs -> (length cs <= 3)%nat ->
  exists d', load_channels (old, Decoder.new (channels_bytes cs)) = (Ok tt, (cs, d')).
Proof.
  intros Hcs Hl Hn. pose proof usize_max_ge.
  pose proof (records_length cs) as Hcl.
  set (d0 := Decoder.new _).
  assert (ahead d0 (channels_bytes cs)) as Ha.
  { apply ahead_new. unfold channels_bytes. rewrite length_app, to_le_bytes_length. lia. }
  clearbody d0. unfold channels_bytes in Ha. rewrite wrap_small in Ha by (unfold uint; lia).
  rewrite <- (app_nil_r (concat _)) in Ha.
  assert (uint 32 (Z.of_nat (length cs))) as Hu by (unfold uint; lia).
  destruct (u32_ahead d0 _ _ Hu Ha) as (d1 & T1 & A1). unfold load_channels.
  change (Decoder.u32 d0) with ((let! b := Decoder.take (Z.of_nat 4) in st_ret (from_le_bytes b)) d0). rewrite T1.
  rewrite (proj2 (Z.ltb_ge _ _)), Nat2Z.id by lia.
  destruct (decode_channels_ahead cs [] old d1 [] Hcs Hl A1) as (d2 & T2 & A2).
  rewrite (st_bind_ok _ _ _ _ _ T2). exists d2. rewrite (finish_ahead d2 [] A2). done.
Qed.

(** ** Arbitrary bytes *)
Lemma decode_channel_yields : yields dec_ok chan_ok decode_channel.
Proof.
  assert (yields dec_ok (fun l => match l with Some l => uint 16 l.(LatchedValue.value) | None => True end)
            decode_latched) as Hl.
  { unfold decode_latched. eapply yields_bind; [apply bool_yields|]. intros [] _; [|by apply yields_ret].
    eapply yields_bind; [apply u16_yields|]. intros v Hv. eapply yields_bind; [apply u8_yields|].
    intros ph _. by apply yields_ret. }
  assert (yields dec_ok (fun s => match s with Some s => uint 8 s | None => True end) decode_status) as Hs.
  { unfold decode_status. eapply yields_bind; [apply bool_yields|]. intros [] _; [|by apply yields_ret].
    eapply yields_bind; [apply u8_yields|]. intros v Hv. by apply yields_ret. }
  unfold decode_channel.
  repeat (eapply yields_bind; [first [apply u8_yields|apply bool_yields|apply u32_yields|apply Hl|apply Hs]|intros ? ?]).
  apply yields_ret. by split.
Qed.

Definition three_ok (s : list C.t * Decoder.t) : Prop :=
  (length s.1 = 3%nat /\ Forall chan_ok s.1) /\ dec_ok s.2.

Lemma decode_channels_keeps n idx : keeps three_ok (decode_channels n idx).
Proof.
  revert idx. induction n as [|n IH]; intros idx; simpl; [by intros s|]. apply keeps_bind; [|intros _; apply IH].
  assert (keeps (fun '(p, d) => (length p = 3%nat /\ Forall chan_ok p) /\ dec_ok d)
            (assign (fun ch chs => <[idx := ch]> chs) decode_channel)) as Hk.
  { eapply assign_keeps; [apply decode_channel_yields|]. intros c cs Hc [Hl Hcs].
    split; [by rewrite length_insert|by apply Forall_insert]. }
  intros [cs d] Hs. specialize (Hk (cs, d) Hs). by destruct (assign _ _ _) as [r [cs' d']].
Qed.

Lemma load_channels_keeps : keeps three_ok load_channels.
Proof.
  intros [cs d] [Hcs Hd]. unfold load_channels. pose proof (u32_yields d Hd) as [Hd1 _].
  destruct (Decoder.u32 d) as [[n|e] d1]; [|done]. case_if; [done|].
  refine (keeps_bind three_ok _ _ (decode_channels_keeps _ _) _ (cs, d1) _); [|done].
  by intros _ [cs' d'].
Qed.
End Codec.

(** ** The timer *)
Section Timer.
Context `{Target} {E : Type}.

Definition onto (p p0 : t E) : t E := with_irq0_callback p0.(irq0_callback) p.

Lemma reset_pit_ok (p : t E) : pit_ok (reset p).
Proof. split; try done. simpl. by repeat constructor. Qed.

Definition pit_puts (p : t E) : list (Z * list Z) :=
  [(TAG_NS_REMAINDER, to_le_bytes 8 (wrap 64 p.(ns_remainder)));
   (TAG_IRQ0_PULSES, to_le_bytes 8 p.(irq0_pulses)); (TAG_CHANNELS, channels_bytes p.(channels))].

Lemma pit_save_eq p :
  save_state p = SnapshotWriter.finish (put_all (SnapshotWriter.new DEVICE_ID DEVICE_VERSION) (pit_puts p)).
Proof. unfold save_state, Encoder.finish. rewrite encode_loop. done. Qed.

Lemma channels_bytes_length cs : (length cs <= 3)%nat -> (length (channels_bytes cs) <= 67)%nat.
Proof.
  intros Hn. unfold channels_bytes. rewrite length_app, to_le_bytes_length.
  pose proof (records_length cs). lia.
Qed.

(** What the reader finds in a saved timer. *)
Lemma pit_save_parse p :
  pit_ok p ->
  exists r, SnapshotReader.parse (save_state p) DEVICE_ID = Ok r /\
    r.(SnapshotReader.header) = SnapshotHeader.mk FORMAT_VERSION DEVICE_ID DEVICE_VERSION /\
    forall tag, SnapshotReader.bytes r tag = last_put (pit_puts p) tag.
Proof.
  intros Hp. rewrite pit_save_eq. pose proof (channels_bytes_length p.(channels)) as Hl.
  rewrite (po_three _ Hp) in Hl. specialize (Hl ltac:(lia)). pose proof usize_max_ge.
  apply put_all_parse; try done.
  - unfold pit_puts. rewrite !Forall_cons. unfold field_ok, uint. cbn [fst snd]. rewrite !to_le_bytes_length.
    split_and!; try lia; by apply Forall_nil.
  - pose proof (put_all_size (SnapshotWriter.new DEVICE_ID DEVICE_VERSION) (pit_puts p)) as Hs.
    change (length (SnapshotWriter.finish (SnapshotWriter.new DEVICE_ID DEVICE_VERSION))) with 16%nat in Hs.
    unfold pit_puts in Hs at 2. cbn [sumZ snd] in Hs. rewrite !to_le_bytes_length in Hs. lia.
Qed.

Lemma saved_u64 r tag v :
  SnapshotReader.bytes r tag = Some (to_le_bytes 8 v) -> uint 64 v -> SnapshotReader.u64 r tag = Ok (Some v).
Proof. intros Hb Hv. by eapply sized_some; [exact Hb|apply to_le_bytes_length|apply from_to_le_bytes_id]. Qed.

Lemma pit_save_load p p0 : pit_ok p -> load_state (save_state p) p0 = (Ok tt, onto p p0).
Proof.
  intros Hp. destruct (pit_save_parse p Hp) as (r & Hr & Hh & Hb). destruct Hp as [Hl Hc Hrem Hq].
  unfold load_state. rewrite Hr. unfold SnapshotReader.ensure_device_major. rewrite Hh. cbn -[load_opt SnapshotReader.u64].
  unfold st_bind. rewrite (load_opt_some _ _ p.(ns_remainder)).
  2:{ apply saved_u64; [|done]. rewrite Hb. unfold pit_puts. by rewrite (wrap_small 64). }
  rewrite (load_opt_some _ _ p.(irq0_pulses)).
  2:{ apply saved_u64; [|done]. by rewrite Hb. }
  unfold load_channels_field. rewrite Hb. unfold pit_puts. cbn -[load_channels channels_bytes].
  destruct (load_channels_ahead p.(channels) (replicate 3 C.default) Hc) as (d' & Hd); [by rewrite Hl|lia|].
  change [C.default; C.default; C.default] with (replicate 3 C.default). rewrite Hd. by destruct p.
Qed.

Lemma pit_load_ok bs (p : t E) : Forall byte_ok bs -> pit_ok p -> pit_ok (load_state bs p).2.
Proof.
  intros Hb Hp. unfold load_state. destruct (SnapshotReader.parse bs _) as [r|e] eqn:Hr; [|done].
  destruct (parse_ok _ _ _ Hb Hr) as (_ & _ & _ & Hf).
  destruct (SnapshotReader.ensure_device_major _ _); [|done].
  assert (forall m : st (t E) SnapshotError unit, keeps pit_ok m -> pit_ok (m (reset p)).2) as Hk
    by (intros m Hm; apply Hm, reset_pit_ok).
  apply Hk. apply keeps_bind; [|intros _; apply keeps_bind; [|intros _]].
  - apply (load_opt_keeps _ (uint 64)); [intros v Hv; by eapply (sized_uint 8); [apply Hf|exact Hv]|intros v q Hv Hq; destruct Hq; by split].
  - apply (load_opt_keeps _ (uint 64)); [intros v Hv; by eapply (sized_uint 8); [apply Hf|exact Hv]|intros v q Hv Hq; destruct Hq; by split].
  - intros q [Hl Hc Hrem Hq]. unfold load_channels_field.
    destruct (SnapshotReader.bytes r TAG_CHANNELS) as [buf|] eqn:Hbuf; [|by split].
    pose proof (load_channels_keeps (channels q, Decoder.new buf)) as Hlc.
    destruct (load_channels _) as [res [cs d]]. destruct Hlc as [[Hl' Hc'] _]; [|by split].
    split; [done|]. split; [by apply (Hf TAG_CHANNELS)|done].
Qed.

(** The timer keeps the snapshot contract: a saved timer is restored
    exactly, latched values and the fraction of a tick included, on any receiver,
    which keeps its own interrupt callback; loading arbitrary bytes, even when it
    fails half-way, leaves a well-formed timer. *)
Theorem pit_snapshot : @IoSnapshotSpec (t E) io_snapshot pit_ok onto.
Proof. split; [intros p p0 Hp _; by apply pit_save_load|apply pit_load_ok]. Qed.
End Timer.
