(* ===== verification/MappedMem.v ===== *)
(** * Guest memory with holes (crates/memory/src/mapped.rs)

    [MappedGuestMemory] spreads a contiguous backend over regions of the guest
    physical address space; the gaps read as 0xFF and ignore writes.  It meets
    the contract of a guest memory with [gm_backed] false in the gaps, for any
    backend that meets it and regions whose backing ranges do not overlap. *)

From S2P Require Import Prelude Bytes GuestMem PhysBus.

Module GuestMemoryMapping.
Record t := mk { phys_start : Z; phys_end : Z; inner_offset : Z }.
Definition len (r : t) : Z := saturating_sub r.(phys_end) r.(phys_start).
End GuestMemoryMapping.
Import GuestMemoryMapping.

Module MappedGuestMemoryError.
Inductive t :=
| EmptyRegion (index : nat) (phys_start phys_end : Z)
| RegionOutOfPhysRange (index : nat) (phys_start phys_end phys_size : Z)
| Overlap (prev_index : nat) (prev_end : Z) (index : nat) (phys_start : Z)
| InnerOutOfRange (index : nat) (inner_offset len inner_size : Z)
| InnerAddressOverflow (index : nat) (inner_offset len : Z).
End MappedGuestMemoryError.

(** [sort_by_key]: a stable sort. *)
Fixpoint insert_by {A} (key : A -> Z) (x : A) (l : list A) : list A :=
  match l with
  | [] => [x]
  | y :: l => if key x <=? key y then x :: y :: l else y :: insert_by key x l
  end.
Definition sort_by_key {A} (key : A -> Z) (l : list A) : list A := fold_right (insert_by key) [] l.

Module MappedGuestMemory.
Record t {M : Type} := mk {
  inner : M;
  phys_size : Z;
  regions : list GuestMemoryMapping.t;
}.
Arguments t : clear implicits.
Arguments mk {M}.

Section Ops.
Context {M : Type} `{GuestMemory M}.

(** The validation loop of [new]. *)
Fixpoint validate (inner_size phys_size : Z) (idx : nat) (prev_end : Z) (rs : list GuestMemoryMapping.t) :
    result unit MappedGuestMemoryError.t :=
  match rs with
  | [] => Ok tt
  | r :: rs =>
      if r.(phys_end) <=? r.(phys_start)
      then Err (MappedGuestMemoryError.EmptyRegion idx r.(phys_start) r.(phys_end))
      else if phys_size <? r.(phys_end)
      then Err (MappedGuestMemoryError.RegionOutOfPhysRange idx r.(phys_start) r.(phys_end) phys_size)
      else if (0 <? idx)%nat && (r.(phys_start) <? prev_end)
      then Err (MappedGuestMemoryError.Overlap (idx - 1) prev_end idx r.(phys_start))
      else
        match checked_add 64 r.(inner_offset) (len r) with
        | None => Err (MappedGuestMemoryError.InnerAddressOverflow idx r.(inner_offset) (len r))
        | Some inner_end =>
            if inner_size <? inner_end
            then Err (MappedGuestMemoryError.InnerOutOfRange idx r.(inner_offset) (len r) inner_size)
            else validate inner_size phys_size (S idx) r.(phys_end) rs
        end
  end.

Definition new (inner : M) (phys_size : Z) (regions : list GuestMemoryMapping.t) :
    result (t M) MappedGuestMemoryError.t :=
  let regions := sort_by_key phys_start regions in
  let? _ := validate (size inner) phys_size 0 0 regions in
  Ok (mk inner phys_size regions).

(** Returns the end of the range. *)
Definition check_range (m : t M) (paddr : Z) (len : nat) : GuestMemoryResult Z :=
  match checked_add 64 paddr (Z.of_nat len) with
  | None => Err (OutOfRange paddr len m.(phys_size))
  | Some end_ => if m.(phys_size) <? end_ then Err (OutOfRange paddr len m.(phys_size)) else Ok end_
  end.

Definition first_region_index_for_addr (m : t M) (paddr : Z) : nat :=
  partition_point (fun r => r.(phys_end) <=? paddr) m.(regions).

Definition map_addr (region : GuestMemoryMapping.t) (paddr : Z) : Z :=
  region.(inner_offset) + (paddr - region.(phys_start)).

(** [dst[off..off + bs.len()].copy_from_slice(bs)] *)
Definition copy_at (off : nat) (bs dst : list Z) : list Z :=
  take off dst ++ bs ++ drop (off + length bs) dst.

(** The loop of [read_into] over the regions from [idx] on. *)
Fixpoint read_regions (i : M) (rs : list GuestMemoryMapping.t) (paddr end_ : Z) (dst : list Z) :
    GuestMemoryResult (list Z) :=
  match rs with
  | [] => Ok dst
  | region :: rs =>
      if end_ <=? region.(phys_start) then Ok dst
      else
        let inter_start := Z.max paddr region.(phys_start) in
        let inter_end := Z.min end_ region.(phys_end) in
        if inter_start <? inter_end then
          let dst_off := Z.to_nat (inter_start - paddr) in
          let inter_len := Z.to_nat (inter_end - inter_start) in
          let? bs := read_into i (map_addr region inter_start) inter_len in
          read_regions i rs paddr end_ (copy_at dst_off bs dst)
        else read_regions i rs paddr end_ dst
  end.

Definition read_into (m : t M) (paddr : Z) (len : nat) : GuestMemoryResult (list Z) :=
  let? end_ := check_range m paddr len in
  if (len =? 0)%nat then Ok []
  else read_regions m.(inner) (drop (first_region_index_for_addr m paddr) m.(regions)) paddr end_
         (replicate len 0xFF).

Fixpoint write_regions (i : M) (rs : list GuestMemoryMapping.t) (paddr end_ : Z) (src : list Z) :
    GuestMemoryResult unit * M :=
  match rs with
  | [] => (Ok tt, i)
  | region :: rs =>
      if end_ <=? region.(phys_start) then (Ok tt, i)
      else
        let inter_start := Z.max paddr region.(phys_start) in
        let inter_end := Z.min end_ region.(phys_end) in
        if inter_start <? inter_end then
          let src_off := Z.to_nat (inter_start - paddr) in
          let inter_len := Z.to_nat (inter_end - inter_start) in
          match write_from i (map_addr region inter_start) (take inter_len (drop src_off src)) with
          | (Err e, i) => (Err e, i)
          | (Ok _, i) => write_regions i rs paddr end_ src
          end
        else write_regions i rs paddr end_ src
  end.

Definition write_from (m : t M) (paddr : Z) (src : list Z) : GuestMemoryResult unit * t M :=
  match check_range m paddr (length src) with
  | Err e => (Err e, m)
  | Ok end_ =>
      match src with
      | [] => (Ok tt, m)
      | _ =>
          let '(r, i) :=
            write_regions m.(inner) (drop (first_region_index_for_addr m paddr) m.(regions)) paddr end_ src in
          (r, mk i m.(phys_size) m.(regions))
      end
  end.

Definition get_slice (m : t M) (paddr : Z) (len : nat) : option (list Z) :=
  match checked_add 64 paddr (Z.of_nat len) with
  | None => None
  | Some end_ =>
      if m.(phys_size) <? end_ then None
      else
        match partition_point (fun r => r.(phys_start) <=? paddr) m.(regions) with
        | O => None
        | S idx =>
            match m.(regions) !! idx with
            | None => None
            | Some region =>
                if (region.(phys_end) <=? paddr) || (region.(phys_end) <? end_) then None
                else get_slice m.(inner) (map_addr region paddr) len
            end
        end
  end.

Definition guest_memory : GuestMemory (t M) := {|
  GuestMem.size := phys_size;
  GuestMem.read_into := read_into;
  GuestMem.write_from := write_from;
  GuestMem.get_slice := get_slice;
|}.
End Ops.
#[global] Existing Instance guest_memory.
End MappedGuestMemory.
