(* ===== verification/MappedFacts.v ===== *)
(** * Facts about guest memory with holes: the contract, and construction *)

From S2P Require Import Prelude Bytes GuestMem PhysBus MappedMem.
Import GuestMemoryMapping MappedGuestMemory.

Abbreviation mapping := GuestMemoryMapping.t.

#[export] Instance mapping_eq_dec : EqDecision mapping.
Proof. solve_decision. Defined.

(** ** Regions *)
Definition contains (a : Z) (r : mapping) : bool := (r.(phys_start) <=? a) && (a <? r.(phys_end)).
Definition region_at (rs : list mapping) (a : Z) : option mapping := List.find (contains a) rs.
Definition extent (r : mapping) : Z := r.(phys_end) - r.(phys_start).

Definition before (r1 r2 : mapping) : Prop := r1.(phys_end) <= r2.(phys_start).
Definition apart (r1 r2 : mapping) : Prop :=
  r1.(inner_offset) + extent r1 <= r2.(inner_offset) \/ r2.(inner_offset) + extent r2 <= r1.(inner_offset).

Record region_ok (isize psize : Z) (r : mapping) : Prop := {
  rg_start : 0 <= r.(phys_start);
  rg_nonempty : r.(phys_start) < r.(phys_end);
  rg_phys : r.(phys_end) <= psize;
  rg_off : 0 <= r.(inner_offset);
  rg_inner : r.(inner_offset) + extent r <= isize;
}.

Record regions_ok (isize psize : Z) (rs : list mapping) : Prop := {
  ra_each : Forall (region_ok isize psize) rs;
  ra_sorted : StronglySorted before rs;
  ra_apart : StronglySorted apart rs;
}.

Lemma contains_iff a r : contains a r = true <-> r.(phys_start) <= a < r.(phys_end).
Proof. unfold contains. rewrite andb_true_iff, Z.leb_le, Z.ltb_lt. done. Qed.

Lemma contains_false a r : contains a r = false <-> ~ (r.(phys_start) <= a < r.(phys_end)).
Proof. rewrite <- contains_iff. by destruct (contains a r). Qed.

Lemma region_at_Some rs a r : region_at rs a = Some r -> r ∈ rs /\ r.(phys_start) <= a < r.(phys_end).
Proof.
  intros Hf. apply find_some in Hf as [Hin Hc]. split; [by apply list_elem_of_In|by apply contains_iff].
Qed.

Lemma region_at_None rs a r : region_at rs a = None -> r ∈ rs -> ~ (r.(phys_start) <= a < r.(phys_end)).
Proof.
  intros Hf Hin. apply contains_false. eapply (find_none (contains a)); [exact Hf|by apply list_elem_of_In].
Qed.

Lemma region_at_none_intro rs a :
  (forall r, r ∈ rs -> ~ (r.(phys_start) <= a < r.(phys_end))) -> region_at rs a = None.
Proof.
  intros Hn. destruct (region_at rs a) as [r|] eqn:E; [|done].
  apply region_at_Some in E as [Hin Hc]. by destruct (Hn r Hin).
Qed.

Lemma before_all r rs : StronglySorted before (r :: rs) -> forall r', r' ∈ rs -> r.(phys_end) <= r'.(phys_start).
Proof. intros [_ Hf]%StronglySorted_inv r' Hr'. exact (proj1 (Forall_forall _ _) Hf r' Hr'). Qed.

Lemma region_at_drop rs k a :
  (forall r, r ∈ take k rs -> r.(phys_end) <= a) -> region_at (drop k rs) a = region_at rs a.
Proof.
  intros Ht. rewrite <- (take_drop k rs) at 2. unfold region_at.
  assert (List.find (contains a) (take k rs) = None) as Hn.
  { apply region_at_none_intro. intros r Hr. pose proof (Ht r Hr). lia. }
  induction (take k rs) as [|r l IH]; simpl in *; [done|]. destruct (contains a r); [done|].
  apply IH; [|done]. intros x Hx. apply Ht. by right.
Qed.

Lemma partition_take {A} (f : A -> bool) l x : x ∈ take (partition_point f l) l -> f x = true.
Proof.
  induction l as [|y l IH]; simpl; [by rewrite elem_of_nil|]. destruct (f y) eqn:E; simpl.
  - intros [->|Hx]%elem_of_cons; [done|by apply IH].
  - by rewrite elem_of_nil.
Qed.

(** ** Reads *)
Lemma copy_at_span f p n off bs :
  (off + length bs <= n)%nat ->
  copy_at off bs (span f p n) = span (splice f (p + Z.of_nat off) bs) p n.
Proof.
  intros Hle. unfold copy_at. apply list_eq. intros k. destruct (decide (k < n)%nat) as [Hk|Hk].
  - rewrite span_lookup by done. unfold splice. destruct (Nat.lt_ge_cases k off).
    + rewrite lookup_app_l by (rewrite length_take, span_length; lia).
      rewrite lookup_take_lt, span_lookup by lia.
      rewrite (proj2 (Z.leb_gt _ _)) by lia. done.
    + rewrite lookup_app_r by (rewrite length_take, span_length; lia).
      rewrite length_take, span_length, Nat.min_l by lia. rewrite (proj2 (Z.leb_le _ _)) by lia. simpl.
      destruct (Nat.lt_ge_cases (k - off) (length bs)).
      * rewrite lookup_app_l by done. rewrite (proj2 (Z.ltb_lt _ _)) by lia.
        replace (Z.to_nat _) with (k - off)%nat by lia.
        by destruct (lookup_lt_is_Some_2 bs (k - off)) as [x ->].
      * rewrite lookup_app_r, lookup_drop by lia. rewrite (proj2 (Z.ltb_ge _ _)) by lia.
        rewrite span_lookup by lia. do 2 f_equal. lia.
  - rewrite !lookup_ge_None_2; [done|rewrite span_length; lia|].
    rewrite !length_app, length_take, length_drop, span_length. lia.
Qed.

Lemma gm_written_nil {M} `{GuestMemory M} `{GuestMemoryView M} (m : M) p : gm_ok m -> gm_written m p [] m.
Proof.
  intros Hm. split; try done.
  - intros c. split; [by left|]. intros [?|(x & Hx & _)]; [done|simpl in Hx; lia].
  - intros a Ha. rewrite splice_other by (simpl; lia). by case_if.
Qed.

Lemma StronglySorted_drop {A} (R : relation A) k l : StronglySorted R l -> StronglySorted R (drop k l).
Proof.
  revert k. induction l as [|x l IH]; intros [|k] Hs; try done. simpl.
  apply StronglySorted_inv in Hs as [Hs _]. by apply IH.
Qed.

Section Mapped.
Context {M : Type} `{GMS : GuestMemorySpec M}.

Lemma region_at_in rs r a :
  StronglySorted before rs -> r ∈ rs -> r.(phys_start) <= a < r.(phys_end) -> region_at rs a = Some r.
Proof.
  induction rs as [|r' rs IH]; intros Hs Hin Ha; [by apply elem_of_nil in Hin|]. simpl.
  pose proof (before_all r' rs Hs) as Hb. apply StronglySorted_inv in Hs as [Hs _].
  apply elem_of_cons in Hin as [->|Hin]; [by rewrite (proj2 (contains_iff a r')) by done|].
  specialize (Hb r Hin). rewrite (proj2 (contains_false a r')) by lia. by apply IH.
Qed.


(** The bytes of the regions [rs] over those of [f]. *)
Definition over (i : M) (rs : list mapping) (f : Z -> Z) (a : Z) : Z :=
  match region_at rs a with Some r => gm_byte i (map_addr r a) | None => f a end.

Lemma inner_bounds psize (i : M) r a :
  region_ok (size i) psize r -> r.(phys_start) <= a < r.(phys_end) -> 0 <= map_addr r a < size i.
Proof. intros [] Ha. unfold map_addr, extent in *. lia. Qed.

Lemma read_regions_spec (i : M) psize rs p n f :
  gm_ok i -> uint 64 p -> Forall (region_ok (size i) psize) rs -> StronglySorted before rs ->
  read_regions i rs p (p + Z.of_nat n) (span f p n) = Ok (span (over i rs f) p n).
Proof.
  intros Hi Hp Hok Hs. revert f Hok Hs. induction rs as [|r rs IH]; intros f Hok Hs; [done|].
  apply Forall_cons in Hok as [Hr Hok]. pose proof (before_all r rs Hs) as Hb.
  apply StronglySorted_inv in Hs as [Hs _]. simpl. pose proof (gm_size_ok i Hi) as Hsz.
  case_if; [|case_if]; bool_hyps.
  - f_equal. apply span_ext. intros x Hx. unfold over. rewrite region_at_none_intro; [done|].
    intros r' [->|Hr']%elem_of_cons; [lia|]. pose proof (Hb r' Hr'). destruct Hr. lia.
  - set (s := Z.max p r.(phys_start)) in *. set (e := Z.min (p + Z.of_nat n) r.(phys_end)) in *.
    assert (r.(phys_start) <= s < r.(phys_end)) as Hse by lia.
    pose proof (inner_bounds psize i r s Hr Hse) as Hin.
    rewrite gm_read by (try done; unfold uint in *; lia).
    rewrite (proj2 (Z.leb_le _ _)) by (destruct Hr; unfold map_addr, extent in *; lia). simpl.
    rewrite copy_at_span by (rewrite span_length; lia). rewrite IH by done. f_equal.
    apply span_ext. intros x Hx. unfold over. simpl.
    destruct (contains x r) eqn:Hc.
    + apply contains_iff in Hc. rewrite region_at_none_intro.
      2:{ intros r' Hr'. pose proof (Hb r' Hr'). lia. }
      unfold splice. rewrite span_length. rewrite (proj2 (Z.leb_le _ _)), (proj2 (Z.ltb_lt _ _)) by lia. simpl.
      rewrite span_lookup by lia. simpl. f_equal. unfold map_addr. lia.
    + apply contains_false in Hc. destruct (region_at rs x); [done|].
      rewrite splice_other; [done|]. rewrite span_length. lia.
  - rewrite IH by done. f_equal. apply span_ext. intros x Hx. unfold over. simpl.
    assert (contains x r = false) as ->; [|done]. apply contains_false. lia.
Qed.

(** ** Writes *)

(** What the writes to the regions [rs] have done to the backend [i]. *)
Record spread (all rs : list mapping) (p : Z) (src : list Z) (i i' : M) : Prop := {
  sp_ok : gm_ok i';
  sp_size : size i' = size i;
  sp_backed : forall a, gm_backed i' a = gm_backed i a;
  sp_page : forall a, gm_page i' a = gm_page i a;
  sp_mark : forall c, gm_mark i' c = true <-> gm_mark i c = true \/
    exists x r, p <= x < p + Z.of_nat (length src) /\ region_at rs x = Some r /\ gm_page i (map_addr r x) = Some c;
  sp_byte : forall r a, r ∈ all -> r.(phys_start) <= a < r.(phys_end) ->
    gm_byte i' (map_addr r a) =
    if bool_decide (is_Some (region_at rs a)) && gm_backed i (map_addr r a)
    then splice (fun a => gm_byte i (map_addr r a)) p src a else gm_byte i (map_addr r a);
}.

Lemma spread_none all rs p src i :
  gm_ok i -> (forall x, p <= x < p + Z.of_nat (length src) -> region_at rs x = None) -> spread all rs p src i i.
Proof.
  intros Hi Hn. split; try done.
  - intros c. split; [by left|]. intros [?|(x & r & Hx & Hr & _)]; [done|]. by rewrite Hn in Hr.
  - intros r a Hr Ha. case_if; [|done]. apply andb_true_iff in Heqb as [[r' Hr']%bool_decide_eq_true _].
    rewrite splice_other; [done|]. intros Hx. by rewrite Hn in Hr'.
Qed.

(** The part of the source that falls into a region. *)
Definition part (r : mapping) (p : Z) (src : list Z) : list Z :=
  let s := Z.max p r.(phys_start) in
  let e := Z.min (p + Z.of_nat (length src)) r.(phys_end) in
  take (Z.to_nat (e - s)) (drop (Z.to_nat (s - p)) src).

Lemma part_splice r p src f g a :
  r.(phys_start) <= a < r.(phys_end) -> g (map_addr r a) = f a ->
  splice g (map_addr r (Z.max p r.(phys_start))) (part r p src) (map_addr r a) = splice f p src a.
Proof.
  intros Ha Hg. unfold splice, part. set (s := Z.max _ _). set (e := Z.min _ _).
  rewrite length_take, length_drop. unfold map_addr. unfold map_addr in Hg. 
  destruct (Z.leb_spec p a); simpl.
  - destruct (Z.ltb_spec a (p + Z.of_nat (length src))).
    + rewrite (proj2 (Z.leb_le _ _)), (proj2 (Z.ltb_lt _ _)) by lia. simpl.
      rewrite lookup_take_lt, lookup_drop by lia. do 2 f_equal. lia.
    + rewrite (proj2 (Z.ltb_ge _ _)) by lia. rewrite andb_false_r. done.
  - rewrite (proj2 (Z.leb_gt _ _)) by lia. done.
Qed.

Lemma part_length r p src :
  Z.max p r.(phys_start) <= Z.min (p + Z.of_nat (length src)) r.(phys_end) ->
  Z.of_nat (length (part r p src)) =
  Z.min (p + Z.of_nat (length src)) r.(phys_end) - Z.max p r.(phys_start).
Proof. intros Hle. unfold part. rewrite length_take, length_drop. lia. Qed.

Lemma others_apart pre r rs r' :
  StronglySorted before (pre ++ r :: rs) -> StronglySorted apart (pre ++ r :: rs) ->
  r' ∈ pre ++ r :: rs -> r' <> r -> (before r' r \/ before r r') /\ apart r' r.
Proof.
  intros Hs Ha [Hin|[->|Hin]%elem_of_cons]%elem_of_app Hne; [|done|].
  - split; [left|]; (eapply StronglySorted_app_1_elem_of; [eassumption|done|by left]).
  - assert (apart r r') as [|].
    { apply (StronglySorted_app_1_elem_of apart (pre ++ [r]) rs); [by rewrite <- app_assoc|set_solver|done]. }
    all: split; [right; apply (StronglySorted_app_1_elem_of before (pre ++ [r]) rs);
      [by rewrite <- app_assoc|set_solver|done]|by (left + right)].
Qed.

(** One region, then the others. *)
Lemma spread_cons pre r rs p src i i1 i' psize :
  regions_ok (size i) psize (pre ++ r :: rs) ->
  Z.max p r.(phys_start) < Z.min (p + Z.of_nat (length src)) r.(phys_end) ->
  gm_written i (map_addr r (Z.max p r.(phys_start))) (part r p src) i1 ->
  spread (pre ++ r :: rs) rs p src i1 i' -> spread (pre ++ r :: rs) (r :: rs) p src i i'.
Proof.
  intros [Heach Hsort Hap] Hne [Hok1 Hs1 Hk1 Hp1 Hm1 Hb1] [Hok' Hs' Hk' Hp' Hm' Hb'].
  pose proof (part_length r p src ltac:(lia)) as Hpl.
  assert (forall x, r.(phys_start) <= x < r.(phys_end) -> region_at rs x = None) as Hself.
  { intros x Hx. apply region_at_none_intro. intros r' Hr'.
    assert (before r r') as Hb; [|unfold before in Hb; lia].
    apply (StronglySorted_app_1_elem_of before (pre ++ [r]) rs); [by rewrite <- app_assoc|set_solver|done]. }
  split; [done|congruence|intros a; congruence|intros a; congruence| |].
  - intros c. rewrite Hm', Hm1, Hpl. split.
    + intros [[?|(y & Hy & Hc)]|(x & r' & Hx & Hr' & Hc)]; [by left|right..].
      * exists (r.(phys_start) + (y - r.(inner_offset))), r. unfold map_addr in *. simpl.
        rewrite (proj2 (contains_iff _ r)) by lia. split_and!; [lia|lia|done|].
        rewrite <- Hc. f_equal. lia.
      * exists x, r'. rewrite Hp1 in Hc. split_and!; [lia|lia| |done]. simpl. destruct (contains x r) eqn:Hcx; [|done].
        apply contains_iff in Hcx. by rewrite (Hself x Hcx) in Hr'.
    + intros [?|(x & r' & Hx & Hr' & Hc)]; [by left; left|]. simpl in Hr'. destruct (contains x r) eqn:Hcx.
      * injection Hr' as <-. apply contains_iff in Hcx. left. right. exists (map_addr r x).
        split; [unfold map_addr; lia|done].
      * right. exists x, r'. rewrite Hp1. done.
  - intros r' a Hr' Ha. rewrite Hb', Hk1 by done.
    pose proof (inner_bounds psize i r' a (proj1 (Forall_forall _ _) Heach r' Hr') Ha) as Hin.
    destruct (decide (r' = r)) as [->|Hne'].
    + rewrite Hself by done. rewrite bool_decide_false by (by intros []). simpl.
      rewrite (proj2 (contains_iff a r)) by done. rewrite bool_decide_true by done. simpl.
      rewrite Hb1 by done. case_if; [|done]. by apply part_splice.
    + destruct (others_apart pre r rs r' Hsort Hap Hr' Hne') as [Hbf Hapt]. unfold before, apart in *. simpl.
      rewrite (proj2 (contains_false a r)) by lia.
      assert (gm_byte i1 (map_addr r' a) = gm_byte i (map_addr r' a)) as Hsame.
      { rewrite Hb1 by done. case_if; [|done]. rewrite splice_other; [done|].
        rewrite Hpl. unfold map_addr, extent in *. lia. }
      case_if; [by apply splice_ext|done].
Qed.

Lemma write_regions_spec psize p src : Forall byte_ok src -> uint 64 p -> 
  forall rs pre i, gm_ok i -> regions_ok (size i) psize (pre ++ rs) ->
  exists i', write_regions i rs p (p + Z.of_nat (length src)) src = (Ok tt, i') /\
    spread (pre ++ rs) rs p src i i'.
Proof.
  intros Hsrc Hp. induction rs as [|r rs IH]; intros pre i Hi Hok.
  { exists i. split; [done|]. by apply spread_none. }
  pose proof Hok as [Heach Hsort _].
  assert (region_ok (size i) psize r) as Hr by (apply (proj1 (Forall_forall _ _) Heach); set_solver).
  assert (forall r', r' ∈ rs -> r.(phys_end) <= r'.(phys_start)) as Hb.
  { intros r' Hr'. apply (StronglySorted_app_1_elem_of before (pre ++ [r]) rs); [by rewrite <- app_assoc|set_solver|done]. }
  simpl. case_if; [|case_if]; bool_hyps.
  - exists i. split; [done|]. apply spread_none; [done|]. intros x Hx. apply region_at_none_intro.
    intros r' [->|Hr']%elem_of_cons; [lia|]. pose proof (Hb r' Hr'). destruct Hr. lia.
  - fold (part r p src). set (s := Z.max p r.(phys_start)) in *. pose proof (gm_size_ok i Hi) as Hsz.
    assert (r.(phys_start) <= s < r.(phys_end)) as Hse by lia.
    pose proof (inner_bounds psize i r s Hr Hse) as Hin. pose proof (part_length r p src ltac:(lia)) as Hpl.
    destruct (gm_write_in i (map_addr r s) (part r p src)) as (i1 & -> & Hw);
      [done|unfold uint in *; lia|by apply Forall_take, Forall_drop
      |rewrite Hpl; destruct Hr; unfold map_addr, extent in *; lia|].
    destruct (IH (pre ++ [r]) i1 (gw_ok _ _ _ _ Hw)) as (i' & -> & Hsp).
    { rewrite (gw_size _ _ _ _ Hw), <- app_assoc. done. }
    exists i'. split; [done|]. rewrite <- app_assoc in Hsp. by eapply spread_cons.
  - destruct (IH (pre ++ [r]) i Hi) as (i' & -> & Hsp); [by rewrite <- app_assoc|]. exists i'. split; [done|].
    rewrite <- app_assoc in Hsp. simpl in Hsp.
    assert (forall x, p <= x < p + Z.of_nat (length src) -> region_at (r :: rs) x = region_at rs x) as Heq.
    { intros x Hx. simpl. by rewrite (proj2 (contains_false x r)) by lia. }
    destruct Hsp as [? ? ? ? Hm Hby]. split; try done.
    + intros c. rewrite Hm. apply or_iff_compat_l.
      split; intros (x & r' & Hx & Hr' & Hc); exists x, r'; rewrite Heq in *; done.
    + intros r' a Hr' Ha. rewrite Hby by done.
      destruct (decide (p <= a < p + Z.of_nat (length src))) as [Hin|Hout]; [by rewrite Heq|].
      rewrite splice_other by done. by repeat case_if.
Qed.

(** ** The contract *)
Definition mapped_ok (m : MappedGuestMemory.t M) : Prop :=
  gm_ok m.(inner) /\ uint 64 m.(phys_size) /\ regions_ok (size m.(inner)) m.(phys_size) m.(regions).

Definition mapped_view : GuestMemoryView (MappedGuestMemory.t M) := {|
  gm_ok := mapped_ok;
  gm_byte m a := over m.(inner) m.(regions) (fun _ => 0xFF) a;
  gm_backed m a := match region_at m.(regions) a with Some r => gm_backed m.(inner) (map_addr r a) | None => false end;
  gm_page m a := region_at m.(regions) a ≫= fun r => gm_page m.(inner) (map_addr r a);
  gm_mark m := gm_mark m.(inner);
|}.
#[local] Existing Instance mapped_view.

Lemma mapped_check_range (m : MappedGuestMemory.t M) p n :
  uint 64 m.(phys_size) -> uint 64 p ->
  MappedGuestMemory.check_range m p n =
  if p + Z.of_nat n <=? m.(phys_size) then Ok (p + Z.of_nat n) else Err (OutOfRange p n m.(phys_size)).
Proof.
  intros Hs Hp. unfold MappedGuestMemory.check_range, checked_add, uint in *.
  destruct (Z.ltb_spec (p + Z.of_nat n) (2 ^ 64)); destruct (Z.leb_spec (p + Z.of_nat n) m.(phys_size)); try lia.
  - by rewrite (proj2 (Z.ltb_ge _ _)).
  - by rewrite (proj2 (Z.ltb_lt _ _)).
  - done.
Qed.

(** The regions skipped by the binary search end before the access. *)
Lemma skip_regions rs p x :
  p <= x -> region_at (drop (partition_point (fun r => r.(phys_end) <=? p) rs) rs) x = region_at rs x.
Proof.
  intros Hx. apply region_at_drop. intros r Hr%partition_take. apply Z.leb_le in Hr. lia.
Qed.

Lemma mapped_read (m : MappedGuestMemory.t M) p n :
  mapped_ok m -> uint 64 p ->
  MappedGuestMemory.read_into m p n =
  if p + Z.of_nat n <=? m.(phys_size) then Ok (span (gm_byte m) p n) else Err (OutOfRange p n m.(phys_size)).
Proof.
  intros (Hi & Hs & [Heach Hsort _]) Hp. unfold MappedGuestMemory.read_into. rewrite mapped_check_range by done.
  case_if; [|done]. simpl. destruct (Nat.eqb_spec n 0) as [->|Hn]; [done|].
  rewrite (replicate_span (fun _ => 0xFF) 0xFF p n) by done. unfold first_region_index_for_addr.
  rewrite (read_regions_spec m.(inner) m.(phys_size)); try done.
  - f_equal. apply span_ext. intros x Hx. unfold over. by rewrite skip_regions by lia.
  - by apply Forall_drop.
  - by apply StronglySorted_drop.
Qed.

Lemma mapped_write (m : MappedGuestMemory.t M) p src :
  mapped_ok m -> uint 64 p -> Forall byte_ok src -> p + Z.of_nat (length src) <= m.(phys_size) ->
  exists m', MappedGuestMemory.write_from m p src = (Ok tt, m') /\ gm_written m p src m'.
Proof.
  intros Hmo Hp Hsrc Hle. pose proof Hmo as (Hi & Hs & Hok). unfold MappedGuestMemory.write_from.
  rewrite mapped_check_range, (proj2 (Z.leb_le _ _)) by done. simpl.
  destruct (decide (src = [])) as [->|Hne]; [exists m; split; [done|by apply gm_written_nil]|].
  set (k := first_region_index_for_addr m p).
  destruct (write_regions_spec m.(phys_size) p src Hsrc Hp (drop k m.(regions)) (take k m.(regions)) m.(inner) Hi)
    as (i' & Hw & [Hok' Hs' Hk' Hp' Hm' Hb']); [by rewrite take_drop|].
  rewrite take_drop in Hb'.
  assert (forall x, p <= x -> region_at (drop k m.(regions)) x = region_at m.(regions) x) as Hskip
    by (intros; by apply skip_regions).
  set (m' := MappedGuestMemory.mk i' m.(phys_size) m.(regions)).
  assert (gm_written m p src m') as Hgw.
  { split; simpl.
    - split_and!; [done|done|]. simpl. by rewrite Hs'.
    - done.
    - intros a. by destruct (region_at _ a).
    - intros a. destruct (region_at _ a); simpl; [apply Hp'|done].
    - intros c. rewrite Hm'. apply or_iff_compat_l. split.
      + intros (x & r & Hx & Hr & Hc). exists x. rewrite Hskip in Hr by lia. by rewrite Hr.
      + intros (x & Hx & Hc). destruct (region_at m.(regions) x) as [r|] eqn:Hr; [|done]. exists x, r.
        by rewrite Hskip by lia.
    - intros a Ha. unfold over. destruct (region_at m.(regions) a) as [r|] eqn:Hr; [|done].
      apply region_at_Some in Hr as Hr'. destruct Hr' as [Hin Hc]. rewrite Hb' by done.
      destruct (Z.le_gt_cases p a) as [Hpa|Hpa].
      + rewrite Hskip, Hr by done. rewrite bool_decide_true by done. simpl. case_if; [|done].
        unfold splice. case_if; [done|]. by rewrite Hr.
      + rewrite !splice_other by lia. rewrite Hr. by repeat case_if. }
  exists m'. split; [|done]. destruct src as [|x xs]; [done|]. by rewrite Hw.
Qed.

Lemma mapped_slice (m : MappedGuestMemory.t M) p n s :
  mapped_ok m -> uint 64 p -> MappedGuestMemory.get_slice m p n = Some s ->
  p + Z.of_nat n <= m.(phys_size) /\ s = span (gm_byte m) p n.
Proof.
  intros (Hi & Hs & [Heach Hsort _]) Hp. unfold MappedGuestMemory.get_slice, checked_add.
  case_if; [|done]. destruct (Z.ltb_spec m.(phys_size) (p + Z.of_nat n)); [done|].
  destruct (partition_point _ _) as [|idx] eqn:Hpp; [done|].
  destruct (m.(regions) !! idx) as [r|] eqn:Hr; [|done]. case_if; [done|]. bool_hyps.
  assert (r.(phys_start) <= p) as Hst.
  { apply Z.leb_le. apply (partition_take (fun r => r.(phys_start) <=? p) m.(regions)). rewrite Hpp.
    apply elem_of_take. exists idx. split; [done|lia]. }
  assert (region_ok (size m.(inner)) m.(phys_size) r) as Hrok
    by (apply (proj1 (Forall_forall _ _) Heach); by eapply list_elem_of_lookup_2).
  pose proof (inner_bounds m.(phys_size) m.(inner) r p Hrok ltac:(lia)) as Hin. pose proof (gm_size_ok _ Hi) as Hsz.
  intros Hg. apply gm_slice in Hg as [_ ->]; [|done|unfold uint in *; lia]. split; [done|].
  apply list_eq. intros k. destruct (decide (k < n)%nat) as [Hk|Hk];
    [|by rewrite !lookup_ge_None_2 by (rewrite span_length; lia)].
  rewrite !span_lookup by done. f_equal. cbn [gm_byte mapped_view]. unfold over.
  rewrite (region_at_in m.(regions) r) by (try done; try lia; by eapply list_elem_of_lookup_2).
  f_equal. unfold map_addr. lia.
Qed.

Lemma mapped_memory_spec : GuestMemorySpec (MappedGuestMemory.t M).
Proof.
  split.
  - by intros m (_ & ? & _).
  - intros m a (Hi & _). simpl. unfold over. case_match; [by apply gm_byte_ok|done].
  - intros m p n Hok Hp. by apply mapped_read.
  - intros m p src Hok Hp Hsrc Hn. by apply mapped_write.
  - intros m p src (Hi & Hs & _) Hp Hsrc Hn. simpl in *. unfold MappedGuestMemory.write_from.
    by rewrite mapped_check_range, (proj2 (Z.leb_gt _ _)) by done.
  - intros m p n s Hok Hp Hg. by apply mapped_slice.
Qed.
End Mapped.
#[export] Existing Instance mapped_view.
#[export] Existing Instance mapped_memory_spec.

(** ** Construction *)
Definition mapping_uint (r : mapping) : Prop :=
  uint 64 r.(phys_start) /\ uint 64 r.(phys_end) /\ uint 64 r.(inner_offset).

Lemma mapped_validate_spec isize psize idx prev rs :
  uint 64 isize -> Forall mapping_uint rs ->
  validate isize psize idx prev rs = Ok tt <->
  Forall (region_ok isize psize) rs /\ StronglySorted before rs /\
  (idx <> 0%nat -> forall r, r ∈ rs -> prev <= r.(phys_start)).
Proof.
  intros Hi Hu. revert idx prev. induction Hu as [|r rs (Hs & He & Ho) Hu IH]; intros idx prev; simpl.
  { split; [|done]. intros _. split_and!; [done|constructor|]. intros _ r Hr. by apply elem_of_nil in Hr. }
  assert (len r = extent r \/ r.(phys_end) <= r.(phys_start)) as Hlen.
  { unfold len, saturating_sub, extent. lia. }
  unfold checked_add, uint in *. split.
  - intros Hv. repeat (case_if_in Hv; [done|]). case_if_in Hv; [|done]. case_if_in Hv; [done|]. bool_hyps.
    apply IH in Hv as (Hok & Hsort & Hprev). destruct Hlen as [Hlen|]; [|lia]. rewrite Hlen in *.
    assert (Forall (before r) rs) as Hbr by (apply Forall_forall; intros x Hx; by apply Hprev).
    split_and!; [|by constructor|].
    + apply Forall_cons. split; [|done]. split; lia.
    + intros Hidx x [->|Hx]%elem_of_cons.
      * destruct idx as [|idx]; [done|]. simpl in *. bool_hyps. lia.
      * pose proof (proj1 (Forall_forall _ _) Hbr x Hx) as Hb. unfold before in Hb.
        destruct idx as [|idx]; [done|]. simpl in *. bool_hyps. lia.
  - intros (Hok & Hsort & Hprev). apply Forall_cons in Hok as [[] Hok].
    pose proof (before_all r rs Hsort) as Hb. apply StronglySorted_inv in Hsort as [Hsort _].
    destruct Hlen as [Hlen|]; [|lia]. rewrite Hlen.
    rewrite (proj2 (Z.leb_gt _ _)), (proj2 (Z.ltb_ge psize _)) by lia.
    assert ((0 <? idx)%nat && (r.(phys_start) <? prev) = false) as ->.
    { destruct idx as [|idx]; [done|]. simpl. apply Z.ltb_ge, Hprev; [done|by left]. }
    rewrite (proj2 (Z.ltb_lt _ (2 ^ 64))), (proj2 (Z.ltb_ge isize _)) by lia.
    apply IH. split_and!; [done|done|]. intros _ x Hx. by apply Hb.
Qed.

Lemma insert_by_perm {A} (key : A -> Z) x l : insert_by key x l ≡ₚ x :: l.
Proof.
  induction l as [|y l IH]; simpl; [done|]. case_if; [done|]. rewrite IH. constructor.
Qed.

Lemma sort_by_key_perm {A} (key : A -> Z) l : sort_by_key key l ≡ₚ l.
Proof. induction l as [|x l IH]; simpl; [done|]. by rewrite insert_by_perm, IH. Qed.

(** [new] accepts exactly the regions that, in the order of their addresses, do
    not overlap, are not empty, and lie in the address space and the backend. *)
Lemma mapped_new_spec {M} `{GMS : GuestMemorySpec M} (i : M) psize rs :
  gm_ok i -> Forall mapping_uint rs ->
  let sorted := sort_by_key phys_start rs in
  let good := Forall (region_ok (size i) psize) sorted /\ StronglySorted before sorted in
  match MappedGuestMemory.new i psize rs with
  | Ok m => m = MappedGuestMemory.mk i psize sorted /\ good
  | Err _ => ~ good
  end.
Proof.
  intros Hi Hu sorted good. unfold MappedGuestMemory.new. fold sorted.
  pose proof (mapped_validate_spec (size i) psize 0 0 sorted (gm_size_ok i Hi)) as Hv.
  specialize (Hv ltac:(unfold sorted; by rewrite sort_by_key_perm)).
  destruct (validate _ _ _ _ _) as [[]|e]; simpl.
  - split; [done|]. destruct (proj1 Hv eq_refl) as (? & ? & _). done.
  - intros [Hok Hs]. assert (@Err unit _ e = Ok tt) as He; [|done]. apply Hv. done.
Qed.
