(* ===== verification/DirtyMem.v ===== *)
(** * Dirty-page tracking (crates/platform/src/dirty_memory.rs)

    [DirtyTrackingMemory] wraps a guest memory and marks the pages of every
    write in a bitmap that snapshots drain.  The bitmap is shared with the
    handles given out; it is stored once, in the memory, and an operation of a
    handle is an operation on it.  The mutex is not modelled: no operation that
    holds it panics.

    The wrapper meets the contract of a guest memory, with one tracked page per
    [page_size] bytes, and draining returns exactly the marked pages, in order. *)

From S2P Require Import Prelude Bytes GuestMem.

Module DirtyBitmap.
Record t := mk { bits : list Z; pages : Z; page_size : Z }.
Definition with_bits v b := mk v b.(pages) b.(page_size).

Section Ops.
Context `{Target}.

Definition new (mem_len page_size : Z) : t :=
  let rounded := default mem_len (checked_add 64 mem_len (saturating_sub page_size 1)) in
  let pages := match try_usize (rounded / page_size) with Some n => Z.of_nat n | None => 0 end in
  mk (replicate (Z.to_nat ((pages + 63) / 64)) 0) pages page_size.

(** [usize::try_from(x).unwrap_or(usize::MAX)] *)
Definition saturate_usize (x : Z) : Z :=
  match try_usize x with Some n => Z.of_nat n | None => usize_max end.

(** [if let Some(slot) = self.bits.get_mut(word) { *slot |= 1u64 << bit; }] *)
Definition mark_page (bits : list Z) (page : Z) : list Z :=
  alter (fun slot => slot ||| (1 <<< (page mod 64))) (Z.to_nat (page / 64)) bits.

Definition mark_range (b : t) (start : Z) (len : nat) : t :=
  if (len =? 0)%nat || (b.(pages) =? 0) then b
  else
    let end_ := saturating_sub (saturating_add 64 start (Z.of_nat len)) 1 in
    let first_page := saturate_usize (start / b.(page_size)) in
    if b.(pages) <=? first_page then b
    else
      let last_page := Z.min (saturate_usize (end_ / b.(page_size))) (saturating_sub b.(pages) 1) in
      with_bits (fold_left mark_page (seqZ first_page (last_page + 1 - first_page)) b.(bits)) b.

(** The inner loop of [take]: the set bits of one word, lowest first. *)
Fixpoint scan_word (fuel : nat) (pages word_idx w : Z) : list Z :=
  match fuel with
  | O => []
  | S fuel =>
      if w =? 0 then []
      else
        let bit := SparseMemory.trailing_zeros w in
        let page := word_idx * 64 + bit in
        let rest := scan_word fuel pages word_idx (w &&& unot 64 (1 <<< bit)) in
        if page <? pages then page :: rest else rest
  end.

Fixpoint scan_words (pages word_idx : Z) (bits : list Z) : list Z :=
  match bits with
  | [] => []
  | w :: bits => scan_word 64 pages word_idx w ++ scan_words pages (word_idx + 1) bits
  end.

Definition take (b : t) : list Z * t :=
  (scan_words b.(pages) 0 b.(bits), with_bits (map (fun _ => 0) b.(bits)) b).

Definition clear (b : t) : t := with_bits (map (fun _ => 0) b.(bits)) b.
End Ops.
End DirtyBitmap.

Module DirtyTrackingMemory.
Record t {M : Type} := mk { inner : M; page_size : Z; bitmap : DirtyBitmap.t }.
Arguments t : clear implicits.
Arguments mk {M}.

Section Ops.
Context `{Target} {M : Type} `{GuestMemory M}.

(** Panics on a page size of zero. *)
Definition new (inner : M) (page_size : Z) : option (t M) :=
  if page_size =? 0 then None
  else Some (mk inner page_size (DirtyBitmap.new (size inner) page_size)).

Definition take_dirty_pages (m : t M) : list Z * t M :=
  let '(pages, b) := DirtyBitmap.take m.(bitmap) in (pages, mk m.(inner) m.(page_size) b).
Definition clear_dirty (m : t M) : t M := mk m.(inner) m.(page_size) (DirtyBitmap.clear m.(bitmap)).

Definition write_from (m : t M) (paddr : Z) (src : list Z) : GuestMemoryResult unit * t M :=
  match write_from m.(inner) paddr src with
  | (Err e, i) => (Err e, mk i m.(page_size) m.(bitmap))
  | (Ok _, i) => (Ok tt, mk i m.(page_size) (DirtyBitmap.mark_range m.(bitmap) paddr (length src)))
  end.

Definition guest_memory : GuestMemory (t M) := {|
  GuestMem.size m := size m.(inner);
  GuestMem.read_into m := read_into m.(inner);
  GuestMem.write_from := write_from;
  GuestMem.get_slice m := get_slice m.(inner);
|}.
End Ops.
#[global] Existing Instance guest_memory.
End DirtyTrackingMemory.
