(* ===== verification/DirtyFacts.v ===== *)
(** * Facts about dirty-page tracking: the bitmap and the contract *)

From S2P Require Import Prelude Bytes GuestMem DirtyMem SparseFacts.

(** ** The bitmap *)
Import DirtyBitmap.

Section Bitmap.
Context `{Target}.

(** A page is marked when its bit is set. *)
Definition marked (b : DirtyBitmap.t) (page : Z) : bool :=
  (0 <=? page) && (page <? b.(pages)) && used_bit b.(bits) page.

Record bitmap_ok (b : DirtyBitmap.t) : Prop := {
  bm_size : 0 < b.(page_size);
  bm_pages : 0 <= b.(pages) <= usize_max;
  bm_words : Z.of_nat (length b.(bits)) = (b.(pages) + 63) / 64;
  bm_word : Forall (uint 64) b.(bits);
}.

Lemma mark_page_bit ws p q :
  0 <= p -> 0 <= q -> p / 64 < Z.of_nat (length ws) ->
  used_bit (mark_page ws p) q = (p =? q) || used_bit ws q.
Proof.
  intros Hp Hq Hl. unfold used_bit, mark_page.
  pose proof (Z.mod_pos_bound p 64). pose proof (Z.mod_pos_bound q 64).
  assert (0 <= p / 64 /\ 0 <= q / 64) as [Hp0 Hq0] by (split; apply Z.div_pos; lia).
  destruct (lookup_lt_is_Some_2 ws (Z.to_nat (p / 64))) as [w Hw]; [lia|].
  destruct (decide (p / 64 = q / 64)) as [E|E].
  - rewrite <- E, list_lookup_alter_eq, Hw. simpl. rewrite testbit_set_bit by lia. f_equal.
    pose proof (Z.div_mod p 64). pose proof (Z.div_mod q 64).
    destruct (Z.eqb_spec (p mod 64) (q mod 64)), (Z.eqb_spec p q); try done; lia.
  - rewrite list_lookup_alter_ne by lia. destruct (Z.eqb_spec p q) as [->|]; [done|]. done.
Qed.

Lemma mark_page_ok ws p : 0 <= p -> Forall (uint 64) ws -> Forall (uint 64) (mark_page ws p).
Proof.
  intros Hp Hw. apply Forall_alter; [done|]. intros w _ Hu. apply set_bit_ok; [|done].
  by apply Z.mod_pos_bound.
Qed.

Lemma mark_pages_spec n ws a q :
  0 <= a -> 0 <= q -> (a + Z.of_nat n - 1) / 64 < Z.of_nat (length ws) -> Forall (uint 64) ws ->
  let ws' := fold_left mark_page (seqZ a (Z.of_nat n)) ws in
  used_bit ws' q = ((a <=? q) && (q <? a + Z.of_nat n)) || used_bit ws q /\
  length ws' = length ws /\ Forall (uint 64) ws'.
Proof.
  revert a ws. induction n as [|n IH]; intros a ws Ha Hq Hl Hw ws'.
  { subst ws'. simpl. split; [|done]. destruct (Z.leb_spec a q), (Z.ltb_spec q (a + Z.of_nat 0)); try done; lia. }
  subst ws'. replace (seqZ a (Z.of_nat (S n))) with (a :: seqZ (a + 1) (Z.of_nat n)).
  2:{ rewrite (seqZ_cons a (Z.of_nat (S n))) by lia. f_equal. f_equal; lia. }
  assert (a / 64 <= (a + Z.of_nat (S n) - 1) / 64) by (apply Z.div_le_mono; lia).
  simpl fold_left. destruct (IH (a + 1) (mark_page ws a)) as (Hu & Hlen & Hf); [lia|done| |by apply mark_page_ok|].
  { unfold mark_page. rewrite length_alter. replace (a + 1 + Z.of_nat n - 1) with (a + Z.of_nat (S n) - 1) by lia. done. }
  split_and!; [|by rewrite Hlen; unfold mark_page; rewrite length_alter|done].
  rewrite Hu, mark_page_bit by lia.
  destruct (Z.leb_spec (a + 1) q), (Z.ltb_spec q (a + 1 + Z.of_nat n)), (Z.leb_spec a q),
    (Z.ltb_spec q (a + Z.of_nat (S n))), (Z.eqb_spec a q); simpl; try done; lia.
Qed.

Lemma saturate_small x : 0 <= x <= usize_max -> saturate_usize x = x.
Proof. intros Hx. unfold saturate_usize, try_usize. rewrite (proj2 (Z.leb_le _ _)) by lia. lia. Qed.

(** The units of a range. *)
Lemma touched u s e q :
  0 < u -> s < e -> (exists x, s <= x < e /\ x / u = q) <-> s / u <= q <= (e - 1) / u.
Proof.
  intros Hu Hse. split.
  - intros (x & Hx & <-). split; apply Z.div_le_mono; lia.
  - intros [Hl Hr]. exists (Z.max s (q * u)).
    pose proof (Z.div_mod s u ltac:(lia)). pose proof (Z.mod_pos_bound s u Hu).
    pose proof (Z.div_mod (e - 1) u ltac:(lia)). pose proof (Z.mod_pos_bound (e - 1) u Hu).
    assert (q * u <= e - 1) by nia. split; [lia|]. destruct (Z.max_spec s (q * u)) as [[? ->]|[? ->]].
    + apply Z.div_mul; lia.
    + symmetry. apply (Z.div_unique_pos s u q (s - q * u)); nia.
Qed.

(** Marking a range marks exactly the pages it touches. *)
Lemma mark_range_spec b start len q :
  bitmap_ok b -> uint 64 start -> start + Z.of_nat len <= b.(pages) * b.(page_size) ->
  start + Z.of_nat len <= 2 ^ 64 - 1 ->
  bitmap_ok (mark_range b start len) /\ (mark_range b start len).(pages) = b.(pages) /\
  (mark_range b start len).(page_size) = b.(page_size) /\
  (marked (mark_range b start len) q = true <->
   marked b q = true \/ exists x, start <= x < start + Z.of_nat len /\ x / b.(page_size) = q).
Proof.
  intros Hb Hs Hle Hmax. pose proof Hb as [Hps Hpg Hlw Hw]. unfold mark_range.
  destruct (Nat.eqb_spec len 0) as [->|Hlen]; simpl.
  { split_and!; try done. split; [by left|]. intros [?|(x & Hx & _)]; [done|lia]. }
  destruct (Z.eqb_spec b.(pages) 0) as [E|E]; [rewrite E in Hle; unfold uint in Hs; lia|].
  unfold saturating_sub, saturating_add, uint in *.
  rewrite (Z.min_l (start + Z.of_nat len)), !Z.max_l by lia.
  set (ps := b.(page_size)) in *. set (f := start / ps). set (e := start + Z.of_nat len - 1).
  assert (0 <= f) as Hf by (apply Z.div_pos; lia).
  assert (e / ps < b.(pages)) as He by (apply Z.div_lt_upper_bound; unfold e; lia).
  assert (f <= e / ps) as Hfe by (apply Z.div_le_mono; unfold e; lia).
  rewrite !saturate_small by lia. rewrite (proj2 (Z.leb_gt _ _)) by lia. rewrite Z.min_l by lia.
  set (n := Z.to_nat (e / ps + 1 - f)). replace (e / ps + 1 - f) with (Z.of_nat n) by lia.
  assert ((f + Z.of_nat n - 1) / 64 < Z.of_nat (length b.(bits))) as Hin.
  { rewrite Hlw. replace (f + Z.of_nat n - 1) with (e / ps) by lia.
    pose proof (Z.div_le_mono (e / ps + 64) (b.(pages) + 63) 64 ltac:(lia) ltac:(lia)) as Hm.
    replace (e / ps + 64) with (e / ps + 1 * 64) in Hm by lia. rewrite Z.div_add in Hm by lia. lia. }
  assert (forall q, 0 <= q ->
    used_bit (fold_left mark_page (seqZ f (Z.of_nat n)) b.(bits)) q
    = ((f <=? q) && (q <? f + Z.of_nat n)) || used_bit b.(bits) q) as Hu
    by (intros q' Hq'; by apply mark_pages_spec).
  destruct (mark_pages_spec n b.(bits) f 0 Hf ltac:(lia) Hin Hw) as (_ & Hl' & Hw').
  split_and!; [split; try done; simpl; by rewrite Hl'|done|done|].
  assert ((exists x, start <= x < start + Z.of_nat len /\ x / ps = q) <-> f <= q < f + Z.of_nat n) as ->.
  { unfold f, n. rewrite touched by lia. fold e. lia. }
  unfold marked. simpl. destruct (Z.leb_spec 0 q); simpl.
  2:{ split; [done|]. intros [?|?]; [done|lia]. }
  rewrite Hu by done. destruct (Z.ltb_spec q b.(pages)); simpl.
  2:{ split; [done|]. intros [?|?]; [done|lia]. }
  rewrite orb_true_iff, andb_true_iff, Z.leb_le, Z.ltb_lt. tauto.
Qed.

(** ** Draining *)
Lemma filter_none (f : Z -> bool) l : (forall x, x ∈ l -> f x = false) -> List.filter f l = [].
Proof.
  induction l as [|x l IH]; intros Hf; [done|]. simpl. rewrite Hf by left. apply IH. intros y Hy. apply Hf. by right.
Qed.

Lemma filter_same (f g : Z -> bool) l : (forall x, x ∈ l -> f x = g x) -> List.filter f l = List.filter g l.
Proof. intros Hf. apply List.filter_ext_in. intros x Hx. apply Hf. by apply list_elem_of_In. Qed.

Lemma seqZ_split a n k : 0 <= k <= n -> seqZ a n = seqZ a k ++ seqZ (a + k) (n - k).
Proof. intros Hk. rewrite <- seqZ_app by lia. f_equal. lia. Qed.

Lemma trailing_zeros_spec w :
  uint 64 w -> w <> 0 ->
  let b := SparseMemory.trailing_zeros w in
  0 <= b < 64 /\ Z.testbit w b = true /\ forall j, 0 <= j < b -> Z.testbit w j = false.
Proof.
  intros Hw Hne. destruct w as [|p|p]; [done| |unfold uint in Hw; lia].
  destruct (pos_trailing_zeros_spec p) as (H0 & Hb & Hl). simpl. split_and!; try done.
  destruct (Z.ltb_spec (SparseMemory.pos_trailing_zeros p) 64); [done|].
  rewrite (testbit_high 64) in Hb; [done|done|lia].
Qed.

Lemma scan_word_spec pages i fuel : forall w k,
  uint 64 w -> 0 <= k <= 64 -> 64 - k <= Z.of_nat fuel -> (forall j, 0 <= j < k -> Z.testbit w j = false) ->
  scan_word fuel pages i w
  = List.filter (fun p => (p <? pages) && Z.testbit w (p - i * 64)) (seqZ (i * 64 + k) (64 - k)).
Proof.
  induction fuel as [|fuel IH]; intros w k Hw Hk Hf Hlow.
  { by replace (64 - k) with 0 by lia. }
  cbn [scan_word]. destruct (Z.eqb_spec w 0) as [->|Hne].
  { symmetry. apply filter_none. intros p _. by rewrite Z.bits_0, andb_false_r. }
  destruct (trailing_zeros_spec w Hw Hne) as (Hb & Hset & Hclr).
  set (b := SparseMemory.trailing_zeros w) in *.
  assert (k <= b) by (destruct (Z.le_gt_cases k b); [done|]; by rewrite Hlow in Hset by lia).
  rewrite (seqZ_split _ _ (b - k)) by lia. rewrite List.filter_app, filter_none.
  2:{ intros p Hp%elem_of_seqZ. rewrite Hclr by lia. by rewrite andb_false_r. }
  rewrite (seqZ_cons (i * 64 + k + (b - k))) by lia. cbn [app List.filter].
  replace (i * 64 + k + (b - k)) with (i * 64 + b) by lia.
  replace (i * 64 + b - i * 64) with b by lia. rewrite Hset, andb_true_r.
  rewrite (IH _ (b + 1)); [|apply uint_land_l; [lia|done|]; apply (uint_unot 64); lia|lia|lia|].
  2:{ intros j Hj. rewrite testbit_clear64 by lia. destruct (Z.eqb_spec b j); [done|]. rewrite Hclr by lia. done. }
  replace (Z.succ (i * 64 + b)) with (i * 64 + (b + 1)) by lia.
  replace (Z.pred (64 - k - (b - k))) with (64 - (b + 1)) by lia.
  assert (forall p, p ∈ seqZ (i * 64 + (b + 1)) (64 - (b + 1)) ->
    (p <? pages) && Z.testbit (w &&& unot 64 (1 <<< b)) (p - i * 64) = (p <? pages) && Z.testbit w (p - i * 64)) as Hsame.
  { intros p Hp%elem_of_seqZ. f_equal. rewrite testbit_clear64 by lia.
    by rewrite (proj2 (Z.eqb_neq b (p - i * 64))) by lia. }
  by rewrite (filter_same _ _ _ Hsame).
Qed.

Lemma scan_words_spec pages ws : forall i,
  0 <= i -> Forall (uint 64) ws ->
  scan_words pages i ws
  = List.filter (fun p => (p <? pages) && used_bit ws (p - i * 64)) (seqZ (i * 64) (64 * Z.of_nat (length ws))).
Proof.
  induction ws as [|w ws IH]; intros i Hi Hws; [done|]. apply Forall_cons in Hws as [Hw Hws].
  cbn [scan_words length]. rewrite (seqZ_split _ _ 64), List.filter_app by lia. f_equal.
  - rewrite (scan_word_spec pages i 64 w 0), Z.add_0_r by (try done; lia).
    apply filter_same. intros p Hp%elem_of_seqZ. f_equal. unfold used_bit.
    rewrite Z.div_small, Z.mod_small by lia. done.
  - rewrite IH by (try done; lia). replace ((i + 1) * 64) with (i * 64 + 64) by lia.
    replace (64 * Z.of_nat (S (length ws)) - 64) with (64 * Z.of_nat (length ws)) by lia.
    apply filter_same. intros p Hp%elem_of_seqZ. f_equal. unfold used_bit.
    replace (p - i * 64) with ((p - (i * 64 + 64)) + 1 * 64) by lia.
    rewrite Z.div_add, Z.mod_add by lia.
    assert (0 <= (p - (i * 64 + 64)) / 64) by (apply Z.div_pos; lia).
    by rewrite Z2Nat.inj_add, Nat.add_comm by lia.
Qed.

(** Draining returns the marked pages, each once and in ascending order, and
    leaves none marked. *)
Lemma take_spec b :
  bitmap_ok b ->
  exists b', take b = (List.filter (marked b) (seqZ 0 b.(pages)), b') /\ bitmap_ok b' /\
    b'.(pages) = b.(pages) /\ b'.(page_size) = b.(page_size) /\ forall q, marked b' q = false.
Proof.
  intros [Hps Hpg Hlw Hw]. exists (clear b).
  assert (bits (clear b) = replicate (length b.(bits)) 0) as Hz
    by (unfold clear; simpl; clear; induction b.(bits); simpl; [done|by f_equal]).
  split_and!; [..|done|done|].
  - unfold take. f_equal. rewrite scan_words_spec by (try done; lia).
    pose proof (Z.div_mod (b.(pages) + 63) 64 ltac:(lia)). pose proof (Z.mod_pos_bound (b.(pages) + 63) 64 ltac:(lia)).
    change (0 * 64) with 0. rewrite (seqZ_split 0 (64 * _) b.(pages)), List.filter_app by lia.
    rewrite (filter_none _ (seqZ (0 + b.(pages)) _)), app_nil_r.
    + apply filter_same. intros p Hp%elem_of_seqZ. unfold marked.
      rewrite (proj2 (Z.leb_le 0 p)) by lia. by rewrite Z.sub_0_r.
    + intros p Hp%elem_of_seqZ. by rewrite (proj2 (Z.ltb_ge p b.(pages))) by lia.
  - split; try done; rewrite Hz; [by rewrite length_replicate|].
    apply Forall_replicate. unfold uint. lia.
  - intros q. unfold marked, used_bit. rewrite Hz.
    destruct (replicate _ 0 !! _) as [w|] eqn:E; [|by rewrite andb_false_r].
    apply lookup_replicate in E as [-> _]. by rewrite Z.bits_0, andb_false_r.
Qed.

Lemma bitmap_new_ok mem_len page_size :
  0 < page_size -> 0 <= mem_len -> mem_len + page_size - 1 < 2 ^ 64 ->
  (mem_len + page_size - 1) / page_size <= usize_max ->
  let b := DirtyBitmap.new mem_len page_size in
  bitmap_ok b /\ b.(DirtyBitmap.page_size) = page_size /\ mem_len <= b.(pages) * page_size /\
  (forall q, marked b q = false).
Proof.
  intros Hps Hm Hmax Hus b. unfold b, DirtyBitmap.new, checked_add, saturating_sub.
  rewrite Z.max_l, (proj2 (Z.ltb_lt _ _)) by lia. cbn [default id]. unfold id.
  replace (mem_len + (page_size - 1)) with (mem_len + page_size - 1) by lia.
  pose proof (Z.div_mod (mem_len + page_size - 1) page_size ltac:(lia)).
  pose proof (Z.mod_pos_bound (mem_len + page_size - 1) page_size Hps).
  set (n := (mem_len + page_size - 1) / page_size) in *.
  assert (0 <= n) by (apply Z.div_pos; lia).
  unfold try_usize. rewrite (proj2 (Z.leb_le _ _)) by lia.
  rewrite Z2Nat.id by lia. split_and!; simpl.
  - assert (0 <= (n + 63) / 64) by (apply Z.div_pos; lia).
    split; simpl; [done|lia|rewrite length_replicate; lia|]. apply Forall_replicate. unfold uint. lia.
  - done.
  - nia.
  - intros q. unfold marked, used_bit. simpl.
    destruct (replicate _ 0 !! _) as [w|] eqn:E; [|by rewrite andb_false_r].
    apply lookup_replicate in E as [-> _]. by rewrite Z.bits_0, andb_false_r.
Qed.
End Bitmap.

(** ** The contract *)
Section Tracking.
Context `{Target} {M : Type} `{GuestMemorySpec M}.
Import DirtyTrackingMemory.

Definition dirty_ok (m : DirtyTrackingMemory.t M) : Prop :=
  gm_ok m.(inner) /\ bitmap_ok m.(bitmap) /\
  size m.(inner) <= m.(bitmap).(pages) * m.(bitmap).(DirtyBitmap.page_size).

#[global] Instance dirty_view : GuestMemoryView (DirtyTrackingMemory.t M) := {|
  gm_ok := dirty_ok;
  gm_byte m := gm_byte m.(inner);
  gm_backed m := gm_backed m.(inner);
  gm_page m a :=
    if (0 <=? a) && (a <? size m.(inner)) then Some (a / m.(bitmap).(DirtyBitmap.page_size)) else None;
  gm_mark m := marked m.(bitmap);
|}.

Lemma dirty_write m p src :
  dirty_ok m -> uint 64 p -> Forall byte_ok src -> p + Z.of_nat (length src) <= size m ->
  exists m', write_from m p src = (Ok tt, m') /\ gm_written m p src m'.
Proof.
  intros (Hi & Hb & Hsz) Hp Hsrc Hn. cbn [GuestMem.size guest_memory] in Hn.
  pose proof (gm_size_ok _ Hi) as Hu.
  destruct (gm_write_in m.(inner) p src Hi Hp Hsrc Hn) as (i & Hw & [Gok Gsize Gback Gpage Gmark Gbyte]).
  unfold uint in *.
  pose proof (fun q => mark_range_spec m.(bitmap) p (length src) q Hb ltac:(done) ltac:(lia) ltac:(lia)) as Hmr.
  destruct (Hmr 0) as (Hb' & Hpg & Hps & _).
  eexists. split.
  { cbn [GuestMem.write_from guest_memory]. unfold write_from. rewrite Hw. done. }
  split; cbn [gm_ok gm_byte gm_backed gm_page gm_mark dirty_view GuestMem.size guest_memory inner bitmap];
    try done.
  - split; [done|]. split; [done|]. cbn [inner bitmap]. by rewrite Gsize, Hpg, Hps.
  - intros a. by rewrite Gsize, Hps.
  - intros c. destruct (Hmr c) as (_ & _ & _ & ->). f_equiv. f_equiv. intros x. split.
    + intros [Hx <-]. split; [done|]. by rewrite (proj2 (Z.leb_le 0 x)), (proj2 (Z.ltb_lt _ _)) by lia.
    + intros [Hx Hc]. split; [done|]. destruct (_ && _); [by injection Hc|done].
Qed.

(** The tracking memory is a guest memory with one tracked page per
    [page_size] bytes. *)
Lemma dirty_memory_spec : GuestMemorySpec (DirtyTrackingMemory.t M).
Proof.
  split; cbn [gm_ok gm_byte dirty_view GuestMem.size GuestMem.read_into GuestMem.get_slice guest_memory].
  - intros m (Hi & _). by apply gm_size_ok.
  - intros m a (Hi & _). by apply gm_byte_ok.
  - intros m p n (Hi & _) Hp. by apply gm_read.
  - intros m p src Hm Hp Hsrc Hn. by apply dirty_write.
  - intros m p src (Hi & _) Hp Hsrc Hn. cbn [GuestMem.write_from guest_memory]. unfold write_from.
    rewrite gm_write_out by done. by destruct m.
  - intros m p n s (Hi & _) Hp. by apply gm_slice.
Qed.

Lemma take_dirty_pages_spec m :
  dirty_ok m ->
  exists m', take_dirty_pages m
    = (List.filter (gm_mark m) (seqZ 0 m.(bitmap).(pages)), m') /\ dirty_ok m' /\
    m'.(inner) = m.(inner) /\ m'.(bitmap).(DirtyBitmap.page_size) = m.(bitmap).(DirtyBitmap.page_size) /\
    forall c, gm_mark m' c = false.
Proof.
  intros (Hi & Hb & Hsz). destruct (take_spec _ Hb) as (b' & Ht & Hb' & Hpg & Hps & Hm).
  eexists. unfold take_dirty_pages. rewrite Ht. split; [done|]. split_and!; simpl; try done.
  split; [done|]. split; [done|]. simpl. by rewrite Hpg, Hps.
Qed.

Lemma dirty_new_ok (i : M) page_size :
  gm_ok i -> 0 < page_size < 2 ^ 32 -> size i + page_size - 1 < 2 ^ 64 ->
  (size i + page_size - 1) / page_size <= usize_max ->
  exists m, DirtyTrackingMemory.new i page_size = Some m /\ dirty_ok m /\ m.(inner) = i /\
    m.(bitmap).(DirtyBitmap.page_size) = page_size /\ forall c, gm_mark m c = false.
Proof.
  intros Hi Hps Hmax Hus. pose proof (gm_size_ok _ Hi) as Hsz. unfold uint in Hsz.
  destruct (bitmap_new_ok (size i) page_size) as (Hb & Hbp & Hle & Hm); [lia..|done|].
  unfold DirtyTrackingMemory.new. rewrite (proj2 (Z.eqb_neq page_size 0)) by lia.
  eexists. split; [done|]. split_and!; try done.
Qed.
End Tracking.
#[export] Existing Instance dirty_memory_spec.
