(* ===== verification/PlatformMem.v ===== *)
(** * The PC memory bus (crates/platform/src/memory.rs, address_filter.rs, chipset.rs)

    [MemoryBus] puts the A20 gate in front of a [PhysicalMemoryBus] whose RAM is
    the guest RAM, tracked for dirty pages or not, laid out around the PCI hole
    when it is larger than the ECAM base.

    A [Box<dyn GuestMemory>] that holds one of two implementations is a sum, and
    a sum of guest memories is one.  The A20 cell and the dirty bitmap are shared
    with handles given to other devices; each is stored once, the cell in the
    filter and the bitmap in the RAM. *)

From S2P Require Import Prelude Bytes GuestMem PhysBus GuestPhys MappedMem DirtyMem.

(** ** Boxed guest memories *)
Definition boxed_memory {A B} `{GuestMemory A} `{GuestMemory B} : GuestMemory (A + B) := {|
  size m := match m with inl a => size a | inr b => size b end;
  read_into m p n := match m with inl a => read_into a p n | inr b => read_into b p n end;
  write_from m p src :=
    match m with
    | inl a => let '(r, a) := write_from a p src in (r, inl a)
    | inr b => let '(r, b) := write_from b p src in (r, inr b)
    end;
  get_slice m p n := match m with inl a => get_slice a p n | inr b => get_slice b p n end;
|}.
#[global] Existing Instance boxed_memory.

(** ** The A20 gate *)
Module AddressFilter.
(** The cell of the [A20GateHandle]. *)
Record t := mk { a20_enabled : bool }.
Definition set_enabled (enabled : bool) (_ : t) : t := mk enabled.
Definition filter_paddr (f : t) (paddr : Z) : Z :=
  if f.(a20_enabled) then paddr else paddr &&& unot 64 (1 <<< 20).
End AddressFilter.

Definition A20_BIT : Z := 1 <<< 20.
Definition A20_BOUNDARY_MASK : Z := A20_BIT - 1.
Definition BIOS_ROM_BASE : Z := 0xF0000.
Definition BIOS_ROM_SIZE : nat := Z.to_nat 0x10000.
Definition BIOS_ROM_ALIAS_BASE : Z := 0xFFFF0000.
Definition DEFAULT_DIRTY_PAGE_SIZE : Z := 4096.

(** ** The bus *)
Module MemoryBus.
Section Ops.
Context `{Target} {M H0 : Type} `{GuestMemory M} `{MmioHandler H0}.

(** The RAM given to the bus, tracked or not, and its layout, flat or mapped. *)
Definition Backing : Type := M + DirtyTrackingMemory.t M.
Definition PcRam : Type := Backing + MappedGuestMemory.t Backing.

(** [dirty] holds the page size of the tracking handle. *)
Record t := mk {
  filter : AddressFilter.t;
  bus : PhysicalMemoryBus.t PcRam H0;
  dirty : option Z;
}.
Definition with_filter v m := mk v m.(bus) m.(dirty).
Definition with_bus v m := mk m.(filter) v m.(dirty).

Definition HIGH_RAM_BASE : Z := 0x100000000.

(** [None] when one of the [expect]s panics. *)
Definition wrap_pc_high_memory (ram : Backing) : option PcRam :=
  let ram_bytes := size ram in
  if ram_bytes <=? PCIE_ECAM_BASE then Some (inl ram)
  else
    let high_len := ram_bytes - PCIE_ECAM_BASE in
    match checked_add 64 HIGH_RAM_BASE high_len with
    | None => None
    | Some phys_size =>
        match MappedGuestMemory.new ram phys_size
                [GuestMemoryMapping.mk 0 PCIE_ECAM_BASE 0;
                 GuestMemoryMapping.mk HIGH_RAM_BASE phys_size PCIE_ECAM_BASE] with
        | Ok mapped => Some (inr mapped)
        | Err _ => None
        end
    end.

Definition with_ram (filter : AddressFilter.t) (ram : M) : option t :=
  match wrap_pc_high_memory (inl ram) with
  | Some ram => Some (mk filter (PhysicalMemoryBus.new ram) None)
  | None => None
  end.

Definition with_ram_dirty_tracking (filter : AddressFilter.t) (ram : M) (page_size : Z) : option t :=
  match DirtyTrackingMemory.new ram page_size with
  | None => None
  | Some dirty_ram =>
      match wrap_pc_high_memory (inr dirty_ram) with
      | Some ram => Some (mk filter (PhysicalMemoryBus.new ram) (Some page_size))
      | None => None
      end
  end.

Definition dirty_page_size (m : t) : Z := default DEFAULT_DIRTY_PAGE_SIZE m.(dirty).

(** An operation of the tracking handle, on the bitmap in the RAM. *)
Definition on_backing {A} (f : Backing -> A * Backing) (r : PcRam) : A * PcRam :=
  match r with
  | inl b => let '(a, b) := f b in (a, inl b)
  | inr m =>
      let '(a, b) := f m.(MappedGuestMemory.inner) in
      (a, inr (MappedGuestMemory.mk b m.(MappedGuestMemory.phys_size) m.(MappedGuestMemory.regions)))
  end.
Definition on_tracked {A} (x : A) (f : DirtyTrackingMemory.t M -> A * DirtyTrackingMemory.t M)
    (b : Backing) : A * Backing :=
  match b with
  | inl r => (x, inl r)
  | inr d => let '(a, d) := f d in (a, inr d)
  end.
Definition on_handle {A} (x : A) (f : DirtyTrackingMemory.t M -> A * DirtyTrackingMemory.t M) (m : t) : A * t :=
  let '(a, r) := on_backing (on_tracked x f) m.(bus).(PhysicalMemoryBus.ram) in
  (a, with_bus (PhysicalMemoryBus.with_ram m.(bus) r) m).

Definition take_dirty_pages (m : t) : option (list Z) * t :=
  match m.(dirty) with
  | None => (None, m)
  | Some _ => let '(pages, m) := on_handle [] DirtyTrackingMemory.take_dirty_pages m in (Some pages, m)
  end.
Definition clear_dirty (m : t) : t :=
  match m.(dirty) with
  | None => m
  | Some _ => snd (on_handle tt (fun d => (tt, DirtyTrackingMemory.clear_dirty d)) m)
  end.

Definition map_rom (m : t) (start : Z) (data : list Z) : result unit MapError * t :=
  match PhysicalMemoryBus.map_rom m.(bus) start data with
  | Ok b => (Ok tt, with_bus b m)
  | Err Overlap =>
      let already_mapped :=
        existsb (fun r => (r.(RomRegion.start) =? start) && (length r.(RomRegion.data) =? length data)%nat)
          m.(bus).(PhysicalMemoryBus.rom_regions) in
      if already_mapped then (Ok tt, m) else (Err Overlap, m)
  | Err AddressOverflow => (Err AddressOverflow, m)
  end.

Definition map_mmio (m : t) (start len : Z) (handler : H0) : result unit MapError * t :=
  match PhysicalMemoryBus.map_mmio m.(bus) start len handler with
  | Ok b => (Ok tt, with_bus b m)
  | Err e => (Err e, m)
  end.

(** Panics unless the image is 64 KiB. *)
Definition map_system_bios_rom (m : t) (rom : list Z) : option (result unit MapError * t) :=
  if (length rom =? BIOS_ROM_SIZE)%nat then
    Some (match map_rom m BIOS_ROM_BASE rom with
          | (Err e, m) => (Err e, m)
          | (Ok _, m) => map_rom m BIOS_ROM_ALIAS_BASE rom
          end)
  else None.

(** The length of the chunk at [addr]: to the next 1 MiB boundary at most. *)
Definition chunk_len (addr : Z) (rem : nat) : nat :=
  let offset_in_1mib := addr &&& A20_BOUNDARY_MASK in
  let to_boundary := A20_BIT - offset_in_1mib in
  Z.to_nat (Z.min (wrap usize_bits to_boundary) (Z.of_nat rem)).

(** A chunk is never empty, so the buffer length is enough fuel. *)
Fixpoint read_chunks (fuel : nat) (b : PhysicalMemoryBus.t PcRam H0) (paddr pos : Z) (rem : nat) :
    list Z * PhysicalMemoryBus.t PcRam H0 :=
  match fuel, rem with
  | S fuel, S _ =>
      match checked_add 64 paddr pos with
      | None => (replicate rem 0xFF, b)
      | Some addr =>
          let n := chunk_len addr rem in
          let filtered := addr &&& unot 64 A20_BIT in
          let '(bs, b) := PhysicalMemoryBus.read_physical b filtered n in
          let '(rest, b) := read_chunks fuel b paddr (pos + Z.of_nat n) (rem - n) in
          (bs ++ rest, b)
      end
  | _, _ => ([], b)
  end.

Definition read_physical (m : t) (paddr : Z) (len : nat) : list Z * t :=
  if (len =? 0)%nat then ([], m)
  else
    let '(bs, b) :=
      if m.(filter).(AddressFilter.a20_enabled) then PhysicalMemoryBus.read_physical m.(bus) paddr len
      else read_chunks len m.(bus) paddr 0 len in
    (bs, with_bus b m).

Fixpoint write_chunks (fuel : nat) (b : PhysicalMemoryBus.t PcRam H0) (paddr pos : Z) (src : list Z) :
    PhysicalMemoryBus.t PcRam H0 :=
  match fuel, src with
  | S fuel, _ :: _ =>
      match checked_add 64 paddr pos with
      | None => b
      | Some addr =>
          let n := chunk_len addr (length src) in
          let filtered := addr &&& unot 64 A20_BIT in
          let b := PhysicalMemoryBus.write_physical b filtered (take n src) in
          write_chunks fuel b paddr (pos + Z.of_nat n) (drop n src)
      end
  | _, _ => b
  end.

Definition write_physical (m : t) (paddr : Z) (src : list Z) : t :=
  match src with
  | [] => m
  | _ =>
      with_bus
        (if m.(filter).(AddressFilter.a20_enabled) then PhysicalMemoryBus.write_physical m.(bus) paddr src
         else write_chunks (length src) m.(bus) paddr 0 src) m
  end.

(** [read_u8] .. [read_u64] of the bus traits, on [n] bytes. *)
Definition read_uN (n : nat) (m : t) (paddr : Z) : Z * t :=
  if m.(filter).(AddressFilter.a20_enabled) then
    let '(v, b) := PhysicalMemoryBus.read_uN n m.(bus) paddr in (v, with_bus b m)
  else
    let '(bs, m) := read_physical m paddr n in (from_le_bytes bs, m).
Definition write_uN (n : nat) (m : t) (paddr value : Z) : t :=
  write_physical m paddr (to_le_bytes n value).
End Ops.
Arguments t : clear implicits.
Arguments Backing : clear implicits.
Arguments PcRam : clear implicits.
End MemoryBus.
