(* ===== verification/PlatformFacts.v ===== *)
(** * Facts about the PC memory bus: boxes, the RAM layout, the A20 gate, tracking *)

From S2P Require Import Prelude Bytes GuestMem PhysBus PhysBusFacts GuestPhys.
From S2P Require Import MappedMem MappedFacts DirtyMem DirtyFacts PlatformMem.

(** ** A box of two guest memories is a guest memory *)
Section Boxed.
Context {A B : Type} `{GuestMemorySpec A} `{GuestMemorySpec B}.

#[global] Instance boxed_view : GuestMemoryView (A + B) := {|
  gm_ok m := match m with inl a => gm_ok a | inr b => gm_ok b end;
  gm_byte m := match m with inl a => gm_byte a | inr b => gm_byte b end;
  gm_backed m := match m with inl a => gm_backed a | inr b => gm_backed b end;
  gm_page m := match m with inl a => gm_page a | inr b => gm_page b end;
  gm_mark m := match m with inl a => gm_mark a | inr b => gm_mark b end;
|}.

Lemma boxed_memory_spec : GuestMemorySpec (A + B).
Proof.
  split; intros [m|m]; cbn [gm_ok gm_byte boxed_view GuestMem.size GuestMem.read_into GuestMem.get_slice
    GuestMem.write_from boxed_memory].
  1,2: by apply gm_size_ok.
  1,2: by apply gm_byte_ok.
  1,2: intros; by apply gm_read.
  1,2: intros p src Hm Hp Hs Hn; destruct (gm_write_in m p src Hm Hp Hs Hn) as (m' & -> & []);
    eexists; (split; [reflexivity|]); by split.
  1,2: intros p src Hm Hp Hs Hn; by rewrite (gm_write_out m p src).
  1,2: intros; by eapply gm_slice.
Qed.
End Boxed.
#[export] Existing Instance boxed_memory_spec.

(** ** The A20 gate *)
Definition a20_mask (x : Z) : Z := x &&& unot 64 A20_BIT.

(** The address that reaches the bus; nothing is mapped beyond 2^64. *)
Definition a20_addr (f : AddressFilter.t) (x : Z) : Z :=
  if x <? 2 ^ 64 then AddressFilter.filter_paddr f x else x.

Lemma a20_mask_eq x : uint 64 x -> a20_mask x = x - (if Z.testbit x 20 then A20_BIT else 0).
Proof.
  intros Hx. unfold a20_mask. rewrite land_unot by (try done; lia).
  assert (forall i, 0 <= i -> Z.testbit A20_BIT i = (20 =? i)) as Hbit
    by (intros i Hi; unfold A20_BIT; rewrite Z.shiftl_1_l; by apply testbit_pow2).
  destruct (Z.testbit x 20) eqn:E.
  - symmetry. apply Z.sub_nocarry_ldiff. apply Z.bits_inj'. intros i Hi. rewrite Z.ldiff_spec, Hbit, Z.bits_0 by done.
    destruct (Z.eqb_spec 20 i) as [<-|]; [by rewrite E|done].
  - rewrite Z.sub_0_r. apply Z.bits_inj'. intros i Hi. rewrite Z.ldiff_spec, Hbit by done.
    destruct (Z.eqb_spec 20 i) as [<-|]; [by rewrite E|apply andb_true_r].
Qed.

Lemma a20_mask_uint x : uint 64 x -> uint 64 (a20_mask x).
Proof. intros Hx. unfold a20_mask. apply uint_land_l; [lia|done|]. apply (uint_unot 64); lia. Qed.

(** Within a 1 MiB window the mask is a shift. *)
Lemma a20_window a x :
  uint 64 a -> uint 64 x -> a / 2 ^ 20 = x / 2 ^ 20 -> a20_mask x = a20_mask a + (x - a).
Proof.
  intros Ha Hx Hw. rewrite !a20_mask_eq by done.
  assert (Z.testbit x 20 = Z.testbit a 20) as ->; [|lia].
  by rewrite !Z.testbit_odd, !Z.shiftr_div_pow2, Hw by lia.
Qed.

Lemma a20_chunk `{Target} a rem :
  uint 64 a -> (0 < rem)%nat ->
  let n := MemoryBus.chunk_len a rem in
  (1 <= n <= rem)%nat /\ a + Z.of_nat n <= 2 ^ 64 /\
  forall i, 0 <= i < Z.of_nat n -> (a + i) / 2 ^ 20 = a / 2 ^ 20.
Proof.
  intros Ha Hr n. unfold uint in Ha.
  assert (Z.of_nat n = Z.min (2 ^ 20 - a mod 2 ^ 20) (Z.of_nat rem)) as Hn.
  { unfold n, MemoryBus.chunk_len, A20_BOUNDARY_MASK. change (A20_BIT - 1) with (Z.ones 20).
    change A20_BIT with (2 ^ 20). rewrite Z.land_ones by lia. pose proof (Z.mod_pos_bound a (2 ^ 20) ltac:(lia)).
    pose proof usize_bits_ok. assert (2 ^ 32 <= 2 ^ usize_bits) by (apply Z.pow_le_mono_r; lia).
    rewrite (wrap_small usize_bits) by (unfold uint; lia). lia. }
  pose proof (Z.mod_pos_bound a (2 ^ 20) ltac:(lia)). pose proof (Z.div_mod a (2 ^ 20) ltac:(lia)).
  split; [lia|]. split.
  - assert (a / 2 ^ 20 < 2 ^ 44) by (apply Z.div_lt_upper_bound; lia). lia.
  - intros i Hi. symmetry. apply (Z.div_unique_pos _ _ _ (a mod 2 ^ 20 + i)); lia.
Qed.

Lemma a20_off x : uint 64 x -> a20_addr (AddressFilter.mk false) x = a20_mask x.
Proof. intros [_ Hx]. unfold a20_addr. by rewrite (proj2 (Z.ltb_lt _ _)). Qed.

Lemma a20_on x : a20_addr (AddressFilter.mk true) x = x.
Proof. unfold a20_addr, AddressFilter.filter_paddr. simpl. by case_if. Qed.

Lemma a20_high f x : 2 ^ 64 <= x -> a20_addr f x = x.
Proof. intros Hx. unfold a20_addr. by rewrite (proj2 (Z.ltb_ge _ _)). Qed.

Lemma a20_nonneg f x : 0 <= x -> 0 <= a20_addr f x.
Proof.
  intros Hx. destruct (Z.ltb_spec x (2 ^ 64)); [|by rewrite a20_high].
  destruct f as [[]]; [by rewrite a20_on|]. rewrite a20_off by done. by apply a20_mask_uint.
Qed.

Lemma a20_off_window a n :
  uint 64 a -> a + n <= 2 ^ 64 -> (forall i, 0 <= i < n -> (a + i) / 2 ^ 20 = a / 2 ^ 20) ->
  forall i, 0 <= i < n -> a20_addr (AddressFilter.mk false) (a + i) = a20_mask a + i.
Proof.
  intros Ha Hn Hwin i Hi. unfold uint in Ha. rewrite a20_off by (unfold uint; lia).
  rewrite (a20_window a (a + i)) by (unfold uint; try lia; symmetry; by apply Hwin). lia.
Qed.

(** ** Bytes stored one at a time through an address map *)
Fixpoint store_via (g f : Z -> Z) (p : Z) (src : list Z) : Z -> Z :=
  match src with
  | [] => f
  | x :: src => store_via g (fun a => if a =? g p then x else f a) (p + 1) src
  end.

Lemma store_via_ext g f1 f2 p src a : (f1 a = f2 a) -> store_via g f1 p src a = store_via g f2 p src a.
Proof. revert f1 f2 p. induction src as [|x src IH]; intros f1 f2 p Hf; simpl; [done|]. apply IH. by case_if. Qed.

Lemma store_via_app g f p s1 s2 :
  store_via g f p (s1 ++ s2) = store_via g (store_via g f p s1) (p + Z.of_nat (length s1)) s2.
Proof.
  revert f p. induction s1 as [|x s1 IH]; intros f p; simpl; [by rewrite Z.add_0_r|].
  rewrite IH. f_equal. lia.
Qed.

Lemma store_via_other g f p src a :
  (forall x, p <= x < p + Z.of_nat (length src) -> g x <> a) -> store_via g f p src a = f a.
Proof.
  revert f p. induction src as [|x src IH]; intros f p Hg; cbn [store_via length] in *; [done|].
  rewrite IH by (intros; apply Hg; lia). by rewrite (proj2 (Z.eqb_neq a (g p))) by (apply not_eq_sym, Hg; lia).
Qed.

(** A run of consecutive images is a splice. *)
Lemma store_via_splice g f p q src a :
  (forall i, 0 <= i < Z.of_nat (length src) -> g (p + i) = q + i) ->
  store_via g f p src a = splice f q src a.
Proof.
  revert f p q. induction src as [|x src IH]; intros f p q Hg; cbn [store_via].
  { by rewrite splice_other by (simpl; lia). }
  rewrite (IH _ _ (q + 1)).
  2:{ intros i Hi. replace (p + 1 + i) with (p + (i + 1)) by lia. rewrite Hg by (simpl; lia). lia. }
  rewrite <- (splice_app f q [x] src). apply splice_ext. unfold splice. simpl length.
  pose proof (Hg 0 ltac:(simpl; lia)) as Hp. rewrite !Z.add_0_r in Hp. rewrite Hp.
  destruct (Z.eqb_spec a q) as [->|Hne].
  - by rewrite Z.leb_refl, (proj2 (Z.ltb_lt _ _)), Z.sub_diag by lia.
  - destruct (Z.leb_spec q a), (Z.ltb_spec a (q + Z.of_nat 1)); simpl; try done; lia.
Qed.

Section Bus.
Context `{Target} {M H0 : Type} `{GMS : GuestMemorySpec M} `{MH : MmioHandler H0}.
Abbreviation pbus := (PhysicalMemoryBus.t (MemoryBus.PcRam M) H0).
Import PhysicalMemoryBus.
Implicit Types b : pbus.

(** No byte of the access reaches an MMIO region. *)
Definition quiet (g : Z -> Z) b (p : Z) (n : nat) : Prop :=
  forall x, p <= x < p + Z.of_nat n -> ~ in_mmio b (g x).

Lemma mmio_high b x : bus_ok b -> 2 ^ 64 <= x -> ~ in_mmio b x.
Proof.
  intros Hb Hx (r & Hr & Ha). pose proof (bo_mmio _ Hb) as [Hbd _].
  pose proof (proj1 (Forall_forall _ _) Hbd r Hr). simpl in *. lia.
Qed.

(** *** Reads *)
Lemma read_chunks_spec fuel b paddr pos rem :
  let g := a20_addr (AddressFilter.mk false) in
  bus_ok b -> uint 64 paddr -> 0 <= pos -> (rem <= fuel)%nat -> quiet g b (paddr + pos) rem ->
  MemoryBus.read_chunks fuel b paddr pos rem = (span (fun x => bus_byte b (g x)) (paddr + pos) rem, b).
Proof.
  intros g Hb Hp. revert pos rem. induction fuel as [|fuel IH]; intros pos rem Hpos Hf Hq.
  { destruct rem; [done|lia]. }
  destruct rem as [|rem']; [done|]. cbn [MemoryBus.read_chunks]. set (rem := S rem') in *.
  unfold checked_add. destruct (Z.ltb_spec (paddr + pos) (2 ^ 64)) as [Hlt|Hge].
  2:{ f_equal. apply list_eq. intros k. destruct (decide (k < rem)%nat).
      - rewrite lookup_replicate_2, span_lookup by done. unfold g. rewrite a20_high by lia.
        by rewrite bus_byte_high by (try done; lia).
      - by rewrite !lookup_ge_None_2 by (rewrite ?length_replicate, ?span_length; lia). }
  set (a := paddr + pos) in *. assert (uint 64 a) as Ha by (unfold uint in *; lia).
  destruct (a20_chunk a rem Ha ltac:(lia)) as (Hn & Hend & Hwin). set (n := MemoryBus.chunk_len a rem) in *.
  assert (forall i, 0 <= i < Z.of_nat n -> g (a + i) = a20_mask a + i) as Hg.
  { by apply a20_off_window. }
  rewrite (read_physical_spec b (a &&& unot 64 A20_BIT) n Hb).
  2: by apply a20_mask_uint.
  2:{ intros x Hx. specialize (Hg (x - a20_mask a) ltac:(unfold a20_mask; lia)).
      replace x with (g (a + (x - a20_mask a))) by (unfold a20_mask in *; lia). apply Hq. unfold a20_mask. lia. }
  rewrite IH; [|lia|lia|intros x Hx; apply Hq; lia].
  f_equal. replace rem with (n + (rem - n))%nat at 2 by lia. rewrite span_app. f_equal; [|f_equal; lia].
  apply list_eq. intros k. destruct (decide (k < n)%nat).
  - rewrite !span_lookup by done. f_equal. rewrite Hg by lia. done.
  - by rewrite !lookup_ge_None_2 by (rewrite ?span_length; lia).
Qed.

(** *** Writes *)
(** Some byte of a write of [src] at [p] reaches RAM in the tracked page [c]. *)
Definition reaches (g : Z -> Z) b (p : Z) (src : list Z) (c : Z) : Prop :=
  exists x, p <= x < p + Z.of_nat (length src) /\ rom_at b.(rom_regions) (g x) = None /\
    g x < b.(ram_size) /\ gm_page b.(ram) (g x) = Some c.

(** The bus after the bytes of [src] are stored at [p], each at its image. *)
Record stored_via (g : Z -> Z) b (p : Z) (src : list Z) b' : Prop := {
  sv_ok : bus_ok b';
  sv_rom : b'.(rom_regions) = b.(rom_regions);
  sv_mmio : b'.(mmio_regions) = b.(mmio_regions);
  sv_size : b'.(ram_size) = b.(ram_size);
  sv_backed : forall a, gm_backed b'.(ram) a = gm_backed b.(ram) a;
  sv_page : forall a, gm_page b'.(ram) a = gm_page b.(ram) a;
  sv_mark : forall c, gm_mark b'.(ram) c = true <-> gm_mark b.(ram) c = true \/ reaches g b p src c;
  sv_byte : forall a, 0 <= a < b.(ram_size) ->
    gm_byte b'.(ram) a = if stored b a then store_via g (gm_byte b.(ram)) p src a else gm_byte b.(ram) a;
}.

(** A write whose images are consecutive. *)
Lemma written_via g b p q src b' :
  (forall i, 0 <= i < Z.of_nat (length src) -> g (p + i) = q + i) ->
  written b q src b' -> stored_via g b p src b'.
Proof.
  intros Hg [Wok Wrom Wmmio Wsize Wback Wpage Wmark Wbyte]. split; try done.
  - intros c. rewrite Wmark. f_equiv. unfold marked_by, reaches. split.
    + intros (x & Hx & Hr). exists (p + (x - q)). rewrite Hg by lia. replace (q + (x - q)) with x by lia.
      split; [lia|done].
    + intros (x & Hx & Hr). exists (q + (x - p)). split; [lia|]. rewrite <- Hg by lia.
      by replace (p + (x - p)) with x by lia.
  - intros a Ha. rewrite Wbyte by done. case_if; [|done]. by rewrite (store_via_splice g _ p q).
Qed.

(** Images beyond the RAM change nothing. *)
Lemma stored_via_beyond g b p src :
  bus_ok b -> (forall x, p <= x < p + Z.of_nat (length src) -> b.(ram_size) <= g x) -> stored_via g b p src b.
Proof.
  intros Hb Hg. split; try done.
  - intros c. split; [by left|]. intros [?|(x & Hx & _ & Hlt & _)]; [done|]. specialize (Hg x Hx). lia.
  - intros a Ha. rewrite store_via_other; [by case_if|]. intros x Hx. specialize (Hg x Hx). lia.
Qed.

Lemma stored_via_app g b p s1 s2 b1 b2 :
  stored_via g b p s1 b1 -> stored_via g b1 (p + Z.of_nat (length s1)) s2 b2 ->
  stored_via g b p (s1 ++ s2) b2.
Proof.
  intros [? Hr1 ? Hz1 Hk1 Hp1 Hm1 Hb1] [? Hr2 ? Hz2 Hk2 Hp2 Hm2 Hb2]. split; [done|congruence..| |].
  - intros c. rewrite Hm2, Hm1. unfold reaches. rewrite Hr1, Hz1, length_app, Nat2Z.inj_add. setoid_rewrite Hp1.
    split; [intros [[?|(x & ? & ?)]|(x & ? & ?)]|intros [?|(x & Hx & ?)]].
    + by left.
    + right. exists x. split; [lia|done].
    + right. exists x. split; [lia|done].
    + by do 2 left.
    + destruct (Z.ltb_spec x (p + Z.of_nat (length s1)));
        [left; right; exists x; split; [lia|done]|right; exists x; split; [lia|done]].
  - intros a Ha. rewrite store_via_app, Hb2 by lia. specialize (Hb1 a Ha).
    assert (stored b1 a = stored b a) as -> by (unfold stored; by rewrite Hr1, Hk1).
    destruct (stored b a); [|done]. by apply store_via_ext.
Qed.

Lemma quiet_same g b b' p n : b'.(mmio_regions) = b.(mmio_regions) -> quiet g b p n -> quiet g b' p n.
Proof. intros Hm Hq x Hx (r & Hr & Ha). apply (Hq x Hx). exists r. by rewrite <- Hm. Qed.

Lemma write_chunks_spec fuel b paddr pos src :
  let g := a20_addr (AddressFilter.mk false) in
  bus_ok b -> uint 64 paddr -> 0 <= pos -> (length src <= fuel)%nat -> Forall byte_ok src ->
  quiet g b (paddr + pos) (length src) ->
  stored_via g b (paddr + pos) src (MemoryBus.write_chunks fuel b paddr pos src).
Proof.
  intros g Hb Hp. revert b Hb pos src. induction fuel as [|fuel IH]; intros b Hb pos src Hpos Hf Hsrc Hq.
  { destruct src; [|simpl in *; lia]. apply stored_via_beyond; [done|]. simpl. lia. }
  destruct src as [|x xs].
  { apply stored_via_beyond; [done|]. simpl. lia. }
  cbn [MemoryBus.write_chunks]. set (src := x :: xs) in *.
  unfold checked_add. destruct (Z.ltb_spec (paddr + pos) (2 ^ 64)) as [Hlt|Hge].
  2:{ apply stored_via_beyond; [done|]. intros y Hy. unfold g. rewrite a20_high by lia.
      pose proof (ram_size_uint b Hb) as Hz. unfold uint in Hz. lia. }
  set (a := paddr + pos) in *. assert (uint 64 a) as Ha by (unfold uint in *; lia).
  destruct (a20_chunk a (length src) Ha ltac:(simpl; lia)) as (Hn & Hend & Hwin).
  set (n := MemoryBus.chunk_len a (length src)) in *.
  assert (forall i, 0 <= i < Z.of_nat n -> g (a + i) = a20_mask a + i) as Hg by (by apply a20_off_window).
  assert (length (take n src) = n) as Hlen by (rewrite length_take; lia).
  assert (written b (a20_mask a) (take n src) (write_physical b (a20_mask a) (take n src))) as Hw.
  { apply write_physical_spec; [done|by apply a20_mask_uint|by apply Forall_take|]. rewrite Hlen.
    intros y Hy. specialize (Hg (y - a20_mask a) ltac:(lia)). replace y with (g (a + (y - a20_mask a))) by lia.
    apply Hq. lia. }
  apply (written_via g b a) in Hw; [|by rewrite Hlen].
  rewrite <- (take_drop n src) at 1. eapply stored_via_app; [exact Hw|].
  rewrite Hlen. replace (a + Z.of_nat n) with (paddr + (pos + Z.of_nat n)) by lia.
  apply IH; [apply Hw|lia|rewrite length_drop; lia|by apply Forall_drop|].
  eapply quiet_same; [apply Hw|]. intros y Hy. rewrite length_drop in Hy. apply Hq. lia.
Qed.
End Bus.

(** ** The operations of the bus *)
Abbreviation addr_of m := (a20_addr (MemoryBus.filter m)).
Abbreviation ram_of m := (PhysicalMemoryBus.ram (MemoryBus.bus m)).

Section Memory.
Context `{Target} {M H0 : Type} `{GMS : GuestMemorySpec M} `{MH : MmioHandler H0}.
Import MemoryBus.
Implicit Types m : MemoryBus.t M H0.

(** What the byte at [x] reads as, outside MMIO. *)
Definition seen m (x : Z) : Z := bus_byte m.(bus) (addr_of m x).

Lemma platform_read_spec m p n :
  bus_ok m.(bus) -> uint 64 p -> quiet (addr_of m) m.(bus) p n ->
  read_physical m p n = (span (seen m) p n, m).
Proof.
  intros Hb Hp Hq. unfold read_physical. destruct (Nat.eqb_spec n 0) as [->|Hn]; [done|].
  destruct m as [[[]] b d]; cbn [filter bus AddressFilter.a20_enabled] in *.
  - rewrite (read_physical_spec b p n Hb Hp) by (intros x Hx; rewrite <- (a20_on x); by apply Hq).
    f_equal. apply span_ext. intros x Hx. unfold seen. cbn [filter bus]. by rewrite a20_on.
  - rewrite (read_chunks_spec n b p 0 n Hb Hp) by (try done; rewrite ?Z.add_0_r; done || lia).
    by rewrite Z.add_0_r.
Qed.

Lemma platform_read_uN_spec n m p :
  bus_ok m.(bus) -> uint 64 p -> quiet (addr_of m) m.(bus) p n ->
  read_uN n m p = (from_le_bytes (span (seen m) p n), m).
Proof.
  intros Hb Hp Hq. unfold read_uN. rewrite (platform_read_spec m p n Hb Hp Hq).
  destruct m as [[[]] b d]; cbn [filter bus AddressFilter.a20_enabled] in *; [|done].
  rewrite (read_uN_spec n b p Hb Hp) by (intros x Hx; rewrite <- (a20_on x); by apply Hq).
  f_equal. f_equal. apply span_ext. intros x Hx. unfold seen. cbn [filter bus]. by rewrite a20_on.
Qed.

Lemma platform_write_spec m p src :
  bus_ok m.(bus) -> uint 64 p -> Forall byte_ok src -> quiet (addr_of m) m.(bus) p (length src) ->
  exists b', write_physical m p src = with_bus b' m /\ stored_via (addr_of m) m.(bus) p src b'.
Proof.
  intros Hb Hp Hsrc Hq. destruct m as [[e] b d]; cbn [filter bus] in *. destruct src as [|x xs].
  { exists b. split; [done|]. apply stored_via_beyond; [done|]. simpl. lia. }
  unfold write_physical. cbn [filter bus AddressFilter.a20_enabled]. set (src := x :: xs) in *.
  eexists. split; [reflexivity|]. destruct e.
  - apply (written_via _ b p p); [intros i _; apply a20_on|]. apply write_physical_spec; try done.
    intros y Hy. rewrite <- (a20_on y). by apply Hq.
  - pose proof (write_chunks_spec (length src) b p 0 src Hb Hp) as Hw. rewrite Z.add_0_r in Hw.
    apply Hw; done || lia.
Qed.

(** ** The layout of RAM *)
Definition backing_of (r : PcRam M) : Backing M :=
  match r with inl b => b | inr m => m.(MappedGuestMemory.inner) end.

(** RAM of [sz] bytes seen at guest physical addresses. *)
Record pc_layout (b : Backing M) (r : PcRam M) : Prop := {
  pl_size : size r = guest_ram_phys_end_exclusive (size b);
  pl_byte : forall a, 0 <= a < size r ->
    gm_byte r a = match ram_offset_of (size b) a with Some o => gm_byte b o | None => 0xFF end;
  pl_backed : forall a, 0 <= a < size r ->
    gm_backed r a = match ram_offset_of (size b) a with Some o => gm_backed b o | None => false end;
  pl_page : forall a, 0 <= a < size r -> gm_page r a = ram_offset_of (size b) a ≫= gm_page b;
  pl_mark : forall c, gm_mark r c = gm_mark b c;
}.

Definition pc_regions (sz : Z) : list GuestMemoryMapping.t :=
  [GuestMemoryMapping.mk 0 PCIE_ECAM_BASE 0;
   GuestMemoryMapping.mk HIGH_RAM_BASE (HIGH_RAM_BASE + (sz - PCIE_ECAM_BASE)) PCIE_ECAM_BASE].

Lemma pc_regions_ok sz :
  ram_size_ok sz -> PCIE_ECAM_BASE < sz ->
  MappedFacts.regions_ok sz (HIGH_RAM_BASE + (sz - PCIE_ECAM_BASE)) (pc_regions sz).
Proof.
  unfold ram_size_ok, PCIE_ECAM_BASE, pc_regions, HIGH_RAM_BASE. intros Hsz Hlt. split.
  - apply Forall_cons; split; [|apply Forall_singleton]; split; cbv [extent GuestMemoryMapping.phys_start
      GuestMemoryMapping.phys_end GuestMemoryMapping.inner_offset PCIE_ECAM_BASE]; lia.
  - constructor; [by repeat constructor|]. apply Forall_singleton. unfold before. simpl. unfold PCIE_ECAM_BASE. lia.
  - constructor; [by repeat constructor|]. apply Forall_singleton. left. cbv [extent GuestMemoryMapping.phys_start
      GuestMemoryMapping.phys_end GuestMemoryMapping.inner_offset PCIE_ECAM_BASE]; lia.
Qed.

Lemma pc_regions_uint sz : ram_size_ok sz -> PCIE_ECAM_BASE < sz -> Forall mapping_uint (pc_regions sz).
Proof.
  unfold ram_size_ok, PCIE_ECAM_BASE, pc_regions, HIGH_RAM_BASE. intros Hsz Hlt.
  apply Forall_cons; split; [|apply Forall_singleton]; unfold mapping_uint, uint; simpl; unfold PCIE_ECAM_BASE; lia.
Qed.

(** The remapping is the byte-wise layout of aero-guest-phys. *)
Lemma pc_regions_at sz a :
  ram_size_ok sz -> PCIE_ECAM_BASE < sz -> 0 <= a ->
  option_map (fun r => MappedGuestMemory.map_addr r a) (region_at (pc_regions sz) a) = ram_offset_of sz a.
Proof.
  unfold ram_size_ok, region_at, contains, pc_regions, ram_offset_of, LOW_RAM_END, HIGH_RAM_START, HIGH_RAM_BASE,
    PCIE_ECAM_BASE. intros Hsz Hlt Ha. simpl.
  repeat case_match; bool_hyps; simpl; try done; try lia; unfold MappedGuestMemory.map_addr; simpl; f_equal; lia.
Qed.

Lemma wrap_pc_high_memory_spec (b : Backing M) :
  gm_ok b -> ram_size_ok (size b) ->
  exists r, wrap_pc_high_memory b = Some r /\ gm_ok r /\ backing_of r = b /\ pc_layout b r.
Proof.
  intros Hb Hsz. unfold wrap_pc_high_memory. destruct (Z.leb_spec (size b) PCIE_ECAM_BASE) as [Hle|Hgt].
  - exists (inl b). split_and!; try done.
    assert (forall a, 0 <= a < size b -> ram_offset_of (size b) a = Some a) as Ho.
    { intros a Ha. unfold ram_offset_of, LOW_RAM_END. by rewrite (proj2 (Z.ltb_lt _ _)) by lia. }
    split; simpl; try done; try (intros a Ha; by rewrite Ho).
    unfold guest_ram_phys_end_exclusive, LOW_RAM_END. by rewrite (proj2 (Z.leb_le _ _)).
  - pose proof Hsz as Hsz'. unfold ram_size_ok in Hsz'.
    assert (checked_add 64 HIGH_RAM_BASE (size b - PCIE_ECAM_BASE)
            = Some (HIGH_RAM_BASE + (size b - PCIE_ECAM_BASE))) as ->.
    { unfold checked_add, HIGH_RAM_BASE, PCIE_ECAM_BASE. by rewrite (proj2 (Z.ltb_lt _ _)) by lia. }
    set (ps := HIGH_RAM_BASE + (size b - PCIE_ECAM_BASE)).
    pose proof (pc_regions_ok (size b) Hsz Hgt) as Hrok. fold ps in Hrok.
    pose proof (mapped_new_spec b ps (pc_regions (size b)) Hb) as Hnew.
    assert (sort_by_key GuestMemoryMapping.phys_start (pc_regions (size b)) = pc_regions (size b)) as Hsort by done.
    rewrite Hsort in Hnew. specialize (Hnew (pc_regions_uint (size b) Hsz Hgt)).
    unfold pc_regions in Hnew at 1. fold ps in Hnew. destruct (MappedGuestMemory.new _ _ _) as [m|e].
    2:{ exfalso. apply Hnew. split; apply Hrok. }
    destruct Hnew as [-> _]. eexists. split; [done|]. split_and!; [|done|].
    + split; [done|]. split; [|done]. cbn [MappedGuestMemory.phys_size]. unfold uint, ps, HIGH_RAM_BASE, PCIE_ECAM_BASE in *. lia.
    + assert (ps = guest_ram_phys_end_exclusive (size b)) as Hps.
      { unfold guest_ram_phys_end_exclusive, saturating_add, saturating_sub, LOW_RAM_END, HIGH_RAM_START, ps,
          HIGH_RAM_BASE, PCIE_ECAM_BASE in *. rewrite (proj2 (Z.leb_gt _ _)) by lia. lia. }
      split; [exact Hps|..|done]; cbn [gm_byte gm_backed gm_page boxed_view mapped_view MappedGuestMemory.regions
        MappedGuestMemory.inner]; intros a Ha.
      * unfold over. rewrite <- (pc_regions_at (size b) a) by (try done; lia).
        by destruct (region_at _ a).
      * rewrite <- (pc_regions_at (size b) a) by (try done; lia). by destruct (region_at _ a).
      * rewrite <- (pc_regions_at (size b) a) by (try done; lia). by destruct (region_at _ a).
Qed.
End Memory.
