(* ===== verification/PlatformProps.v ===== *)
(** * Properties of the PC memory bus: A20, dirty pages, BIOS windows *)

From S2P Require Import Prelude Bytes GuestMem PhysBus PhysBusFacts GuestPhys.
From S2P Require Import MappedMem MappedFacts DirtyMem DirtyFacts PlatformMem PlatformFacts.
Import MemoryBus.

(** ** The shape of the RAM *)
Section Shape.
Context `{Target} {M H0 : Type} `{GMS : GuestMemorySpec M} `{MH : MmioHandler H0}.

Definition tracked (b : Backing M) : Prop := match b with inl _ => False | inr _ => True end.

Lemma write_from_tracked (b : Backing M) p src : tracked b -> tracked (snd (write_from b p src)).
Proof. destruct b as [m|d]; [done|]. simpl. by destruct (DirtyTrackingMemory.write_from d p src). Qed.

Lemma write_regions_tracked rs (i : Backing M) p e src :
  tracked i -> tracked (snd (MappedGuestMemory.write_regions i rs p e src)).
Proof.
  revert i. induction rs as [|r rs IH]; intros i Hi; cbn [MappedGuestMemory.write_regions]; [done|].
  case_if; [done|]. case_if; [|by apply IH]. cbv zeta.
  match goal with |- context [write_from i ?a ?s] => pose proof (write_from_tracked i a s Hi);
    destruct (write_from i a s) as [[[]|err] i'] end; [by apply IH|done].
Qed.

Lemma pc_write_tracked (r : PcRam M) p src :
  tracked (backing_of r) -> tracked (backing_of (snd (write_from r p src))).
Proof.
  destruct r as [b|m]; cbn [backing_of]; intros Ht.
  - pose proof (write_from_tracked b p src Ht) as Hw.
    change (tracked (backing_of (snd (let '(r, a) := write_from b p src in (r, inl a))))).
    by destruct (write_from b p src).
  - cbn [GuestMem.write_from boxed_memory MappedGuestMemory.guest_memory]. unfold MappedGuestMemory.write_from.
    destruct (MappedGuestMemory.check_range m p (length src)) as [e|e]; [|done].
    destruct src as [|x xs]; [done|].
    match goal with |- context [MappedGuestMemory.write_regions ?i ?rs ?p ?e ?s] =>
      pose proof (write_regions_tracked rs i p e s Ht); destruct (MappedGuestMemory.write_regions i rs p e s) end.
    done.
Qed.

Lemma write_loop_keeps {M'} `{GuestMemory M'} (P : M' -> Prop) fuel (b : PhysicalMemoryBus.t M' H0) paddr pos src :
  (forall r p s, P r -> P (snd (write_from r p s))) -> P b.(PhysicalMemoryBus.ram) ->
  P (PhysicalMemoryBus.write_loop fuel b paddr pos src).(PhysicalMemoryBus.ram).
Proof.
  intros HP. revert b pos src. induction fuel as [|fuel IH]; intros b pos src Hb; [done|].
  destruct src as [|x xs]; [done|]. cbn [PhysicalMemoryBus.write_loop]. case_match; [|done].
  case_match; apply IH; try done. simpl. by apply HP.
Qed.

Lemma write_chunks_tracked fuel (b : PhysicalMemoryBus.t (PcRam M) H0) paddr pos src :
  tracked (backing_of b.(PhysicalMemoryBus.ram)) ->
  tracked (backing_of (write_chunks fuel b paddr pos src).(PhysicalMemoryBus.ram)).
Proof.
  revert b pos src. induction fuel as [|fuel IH]; intros b pos src Hb; [done|].
  destruct src as [|x xs]; [done|]. cbn [write_chunks]. case_match; [|done].
  apply IH. unfold PhysicalMemoryBus.write_physical.
  apply (write_loop_keeps (fun r => tracked (backing_of r))); [apply pc_write_tracked|done].
Qed.

Lemma platform_write_tracked (m : MemoryBus.t M H0) p src :
  tracked (backing_of (ram_of m)) -> tracked (backing_of (ram_of (write_physical m p src))).
Proof.
  intros Hm. unfold write_physical. destruct src as [|x xs]; [done|]. cbn [bus with_bus]. case_if.
  - apply (write_loop_keeps (fun r => tracked (backing_of r))); [apply pc_write_tracked|done].
  - by apply write_chunks_tracked.
Qed.
End Shape.

(** ** Draining *)
Lemma seqZ_sorted n : forall a, StronglySorted Z.lt (seqZ a (Z.of_nat n)).
Proof.
  induction n as [|n IH]; intros a; [constructor|].
  rewrite seqZ_cons by lia. replace (Z.pred (Z.of_nat (S n))) with (Z.of_nat n) by lia.
  constructor; [apply IH|]. apply Forall_forall. intros x Hx%elem_of_seqZ. lia.
Qed.

Lemma filter_sorted (f : Z -> bool) l : StronglySorted Z.lt l -> StronglySorted Z.lt (List.filter f l).
Proof.
  induction 1 as [|x l Hs IH Hx]; simpl; [constructor|]. case_if; [|done]. constructor; [done|].
  apply Forall_forall. intros y Hy%list_elem_of_In%filter_In. destruct Hy as [Hy _].
  apply (proj1 (Forall_forall _ _) Hx). by apply list_elem_of_In.
Qed.

Section Drain.
Context `{Target} {M H0 : Type} `{GMS : GuestMemorySpec M} `{MH : MmioHandler H0}.

(** The same RAM, up to the marks of its pages. *)
Record same_ram (r r' : PcRam M) : Prop := {
  sr_ok : gm_ok r';
  sr_size : size r' = size r;
  sr_byte : forall a, gm_byte r' a = gm_byte r a;
  sr_backed : forall a, gm_backed r' a = gm_backed r a;
  sr_page : forall a, gm_page r' a = gm_page r a;
  sr_tracked : tracked (backing_of r');
}.

(** Two states of the tracked memory that differ in their marks only. *)
Definition same_tracked (d d' : DirtyTrackingMemory.t M) : Prop :=
  dirty_ok d' /\ d'.(DirtyTrackingMemory.inner) = d.(DirtyTrackingMemory.inner) /\
  d'.(DirtyTrackingMemory.bitmap).(DirtyBitmap.page_size) = d.(DirtyTrackingMemory.bitmap).(DirtyBitmap.page_size).

Lemma on_backing_same {A} (x : A) f (r : PcRam M) :
  gm_ok r -> tracked (backing_of r) ->
  exists d, backing_of r = inr d /\ dirty_ok d /\ (forall c, gm_mark r c = gm_mark d c) /\
    (same_tracked d (snd (f d)) ->
     exists r', on_backing (on_tracked x f) r = (fst (f d), r') /\ same_ram r r' /\
       forall c, gm_mark r' c = gm_mark (snd (f d)) c).
Proof.
  destruct r as [[b|d]|[[b|d] ps rs]]; try done; intros Hok _; exists d; (split; [done|]).
  - split; [done|]. split; [done|]. unfold same_tracked. simpl. destruct (f d) as [y d']. simpl.
    intros (Hd & Hi & Hp). eexists. split; [done|]. split; [|done]. split; simpl; try done; try by rewrite Hi.
    intros a. by rewrite Hi, Hp.
  - destruct Hok as (Hd0 & Hps & Hrs). split; [done|]. split; [done|]. unfold same_tracked. simpl.
    destruct (f d) as [y d']. simpl. intros (Hd & Hi & Hp).
    eexists. split; [done|]. split; [|done]. split; simpl; try done.
    + split; [done|]. split; [done|]. simpl. by rewrite Hi.
    + intros a. unfold over. simpl. by rewrite Hi.
    + intros a. by rewrite Hi.
    + intros a. by rewrite Hi, Hp.
Qed.

Implicit Types m : MemoryBus.t M H0.

(** The bus with its RAM replaced by the same RAM. *)
Lemma bus_ok_same m r : bus_ok m.(bus) -> same_ram (ram_of m) r -> bus_ok (PhysicalMemoryBus.with_ram m.(bus) r).
Proof. intros [? Hs] [? Hz]. split; try done. exact (eq_trans Hs (eq_sym Hz)). Qed.

Lemma take_dirty_pages_ok m ps :
  bus_ok m.(bus) -> tracked (backing_of (ram_of m)) -> m.(dirty) = Some ps ->
  exists pages r', take_dirty_pages m = (Some pages, with_bus (PhysicalMemoryBus.with_ram m.(bus) r') m) /\
    same_ram (ram_of m) r' /\ (forall c, gm_mark r' c = false) /\
    StronglySorted Z.lt pages /\ forall c, c ∈ pages <-> gm_mark (ram_of m) c = true.
Proof.
  intros Hb Ht Hd. unfold take_dirty_pages, on_handle. rewrite Hd.
  destruct (on_backing_same (@nil Z) DirtyTrackingMemory.take_dirty_pages (ram_of m) (bo_ram _ Hb) Ht)
    as (d & _ & Hok & Hmk & Hr).
  pose proof Hok as Hok'. destruct Hok' as (_ & [_ Hpg _ _] & _).
  destruct (take_dirty_pages_spec d Hok) as (d' & Htk & Hok' & Hi & Hp & Hnone).
  rewrite Htk in Hr. simpl in Hr. destruct Hr as (r' & -> & Hsame & Hmk').
  { by split. }
  eexists _, r'. split; [done|]. split; [done|]. split_and!.
  - intros c. rewrite Hmk'. apply Hnone.
  - apply filter_sorted. rewrite <- (Z2Nat.id (DirtyBitmap.pages _)) by lia. apply seqZ_sorted.
  - intros c. rewrite Hmk, list_elem_of_In, filter_In, <- list_elem_of_In, elem_of_seqZ.
    split; [by intros [_ ?]|]. intros Hc. split; [|done]. simpl in Hc. unfold marked in Hc.
    bool_hyps. lia.
Qed.

Lemma clear_dirty_take m : clear_dirty m = snd (take_dirty_pages m).
Proof.
  unfold clear_dirty, take_dirty_pages, on_handle. destruct (m.(dirty)); [|done].
  by destruct (ram_of m) as [[b|d]|[[b|d] ps rs]].
Qed.
End Drain.

(** ** Histories *)
Section History.
Context `{Target} {M H0 : Type} `{GMS : GuestMemorySpec M} `{MH : MmioHandler H0}.
Implicit Types m : MemoryBus.t M H0.

(** What guest, devices and firmware do to the bus. *)
Inductive event :=
| Read (paddr : Z) (len : nat)
| Write (paddr : Z) (src : list Z)
| SetA20 (enabled : bool)
| MapRom (start : Z) (data : list Z)
| MapMmio (start len : Z) (handler : H0)
| TakeDirty
| ClearDirty.

Definition step m (e : event) : MemoryBus.t M H0 :=
  match e with
  | Read p n => snd (read_physical m p n)
  | Write p src => write_physical m p src
  | SetA20 b => with_filter (AddressFilter.set_enabled b m.(filter)) m
  | MapRom start data => snd (map_rom m start data)
  | MapMmio start len h => snd (map_mmio m start len h)
  | TakeDirty => snd (take_dirty_pages m)
  | ClearDirty => clear_dirty m
  end.
Definition run m (es : list event) : MemoryBus.t M H0 := fold_left step es m.

(** Accesses stay off MMIO; arguments fit their types. *)
Definition event_ok m (e : event) : Prop :=
  match e with
  | Read p n => uint 64 p /\ quiet (addr_of m) m.(bus) p n
  | Write p src => uint 64 p /\ Forall byte_ok src /\ quiet (addr_of m) m.(bus) p (length src)
  | MapRom start data => 0 <= start /\ Forall byte_ok data
  | MapMmio start len _ => 0 <= start /\ 0 <= len
  | _ => True
  end.
Fixpoint run_ok m (es : list event) : Prop :=
  match es with [] => True | e :: es => event_ok m e /\ run_ok (step m e) es end.

(** A write dirties page [c] of a RAM of [sz] bytes when one of its bytes, at
    the address A20 leaves, is RAM that no ROM shadows, at an offset in [c]. *)
Definition dirties (sz ps : Z) m (p : Z) (src : list Z) (c : Z) : Prop :=
  exists x o, p <= x < p + Z.of_nat (length src) /\
    rom_at m.(bus).(PhysicalMemoryBus.rom_regions) (addr_of m x) = None /\
    ram_offset_of sz (addr_of m x) = Some o /\ o / ps = c.

(** The pages dirtied since the last drain. *)
Definition after_event (sz ps : Z) m (e : event) (S : Z -> Prop) : Z -> Prop :=
  match e with
  | Write p src => fun c => S c \/ dirties sz ps m p src c
  | TakeDirty | ClearDirty => fun _ => False
  | _ => S
  end.
Fixpoint dirtied (sz ps : Z) m (es : list event) (S : Z -> Prop) : Z -> Prop :=
  match es with [] => S | e :: es => dirtied sz ps (step m e) es (after_event sz ps m e S) end.

(** The bus tracks the pages of [S] in a RAM of [sz] bytes. *)
Record tracks (sz ps : Z) m (S : Z -> Prop) : Prop := {
  tk_ok : bus_ok m.(bus);
  tk_dirty : m.(dirty) = Some ps;
  tk_tracked : tracked (backing_of (ram_of m));
  tk_size : m.(bus).(PhysicalMemoryBus.ram_size) = guest_ram_phys_end_exclusive sz;
  tk_backed : forall a, 0 <= a < m.(bus).(PhysicalMemoryBus.ram_size) -> ram_offset_of sz a = None ->
    gm_backed (ram_of m) a = false;
  tk_page : forall a, 0 <= a < m.(bus).(PhysicalMemoryBus.ram_size) ->
    gm_page (ram_of m) a = option_map (fun o => o / ps) (ram_offset_of sz a);
  tk_mark : forall c, gm_mark (ram_of m) c = true <-> S c;
}.

Lemma ram_offset_end sz a o :
  ram_size_ok sz -> ram_offset_of sz a = Some o -> a < guest_ram_phys_end_exclusive sz.
Proof.
  unfold ram_size_ok, ram_offset_of, guest_ram_phys_end_exclusive, saturating_add, saturating_sub, LOW_RAM_END,
    HIGH_RAM_START, PCIE_ECAM_BASE. intros Hsz. repeat case_match; bool_hyps; try done; lia.
Qed.

Lemma ram_offset_bounds sz a o : 0 <= a -> ram_offset_of sz a = Some o -> 0 <= o /\ o < sz.
Proof.
  unfold ram_offset_of, LOW_RAM_END, HIGH_RAM_START, PCIE_ECAM_BASE. intros Ha.
  repeat case_match; bool_hyps; intros [= <-]; lia.
Qed.

Lemma reaches_dirties sz ps m S p src c :
  ram_size_ok sz -> tracks sz ps m S -> 0 <= p ->
  reaches (addr_of m) m.(bus) p src c <-> dirties sz ps m p src c.
Proof.
  intros Hsz [Hok _ _ Hz _ Hpage _] Hp. unfold reaches, dirties. split.
  - intros (x & Hx & Hr & Hlt & Hc). rewrite Hpage in Hc by (split; [apply a20_nonneg|]; lia).
    destruct (ram_offset_of sz _) as [o|] eqn:E; [|done]. simpl in Hc. exists x, o. split_and!; try done; lia || congruence.
  - intros (x & o & Hx & Hr & Ho & <-). pose proof (ram_offset_end sz _ o Hsz Ho) as Hend.
    exists x. split_and!; try done; try lia.
    rewrite Hpage by (split; [apply a20_nonneg|]; lia). by rewrite Ho.
Qed.

Lemma tracks_write sz ps m S p src :
  ram_size_ok sz -> tracks sz ps m S -> event_ok m (Write p src) ->
  tracks sz ps (write_physical m p src) (fun c => S c \/ dirties sz ps m p src c).
Proof.
  intros Hsz Ht (Hp & Hsrc & Hq). pose proof Ht as [Hok Hd Htr Hz Hback Hpage Hmark].
  pose proof (platform_write_tracked m p src Htr) as Htr'.
  destruct (platform_write_spec m p src Hok Hp Hsrc Hq) as (b' & Hw & [Vok Vrom Vmmio Vsize Vback Vpage Vmark _]).
  rewrite Hw in *. cbn [with_bus bus] in *.
  split; cbn [with_bus bus dirty]; try done; try congruence.
  - intros a. rewrite Vsize, Vback. apply Hback.
  - intros a. rewrite Vsize, Vpage. apply Hpage.
  - intros c. unfold uint in Hp. rewrite Vmark, Hmark, (reaches_dirties sz ps m S) by (try done; lia). done.
Qed.

Lemma tracks_take sz ps m S : tracks sz ps m S -> tracks sz ps (snd (take_dirty_pages m)) (fun _ => False).
Proof.
  intros [Hok Hd Htr Hz Hback Hpage Hmark].
  destruct (take_dirty_pages_ok m ps Hok Htr Hd) as (pages & r' & -> & Hs & Hnone & _).
  pose proof (bus_ok_same m r' Hok Hs) as Hok'. destruct Hs as [_ _ _ Sback Spage Strk].
  split; cbn [snd with_bus bus dirty PhysicalMemoryBus.with_ram PhysicalMemoryBus.ram PhysicalMemoryBus.ram_size];
    try done.
  - intros a. rewrite Sback. apply Hback.
  - intros a. rewrite Spage. apply Hpage.
  - intros c. by rewrite Hnone.
Qed.

(** An operation that leaves the RAM alone. *)
Lemma tracks_same sz ps m S f b :
  tracks sz ps m S -> bus_ok b -> b.(PhysicalMemoryBus.ram) = ram_of m ->
  tracks sz ps (MemoryBus.mk f b m.(dirty)) S.
Proof.
  intros [Hok Hd Htr Hz Hback Hpage Hmark] Hb Hr.
  assert (b.(PhysicalMemoryBus.ram_size) = m.(bus).(PhysicalMemoryBus.ram_size)) as Hsz
    by (rewrite (bo_size _ Hb), Hr; symmetry; apply (bo_size _ Hok)).
  by split; cbn [bus dirty]; rewrite ?Hr, ?Hsz.
Qed.

Lemma tracks_step sz ps m S e :
  ram_size_ok sz -> tracks sz ps m S -> event_ok m e -> tracks sz ps (step m e) (after_event sz ps m e S).
Proof.
  intros Hsz Ht He. pose proof (tk_ok _ _ _ _ Ht) as Hok.
  destruct e as [p n|p src|b|start data|start len h| |]; cbn [step after_event].
  - destruct He as [Hp Hq]. by rewrite (platform_read_spec m p n Hok Hp Hq).
  - by apply tracks_write.
  - by apply (tracks_same sz ps m).
  - unfold map_rom. destruct He as [Hs Hd]. pose proof (map_rom_ok m.(bus) start data Hok Hs Hd) as Hm.
    destruct (PhysicalMemoryBus.map_rom _ _ _) as [b|[]]; [|done|by case_if].
    apply (tracks_same sz ps m); [done|apply Hm..].
  - unfold map_mmio. destruct He as [Hs Hl]. pose proof (map_mmio_ok m.(bus) start len h Hok Hs Hl) as Hm.
    destruct (PhysicalMemoryBus.map_mmio _ _ _ _) as [b|[]]; [|done|done].
    apply (tracks_same sz ps m); [done|apply Hm..].
  - by eapply tracks_take.
  - rewrite clear_dirty_take. by eapply tracks_take.
Qed.

Lemma tracks_run sz ps es : forall m S,
  ram_size_ok sz -> tracks sz ps m S -> run_ok m es -> tracks sz ps (run m es) (dirtied sz ps m es S).
Proof.
  induction es as [|e es IH]; intros m S Hsz Ht Hes; [done|]. destruct Hes as [He Hes].
  cbn [run fold_left dirtied]. apply IH; [done|by apply tracks_step|done].
Qed.

Lemma tracking_new_ok f (ram : M) ps :
  gm_ok ram -> 0 < ps < 2 ^ 32 -> ram_size_ok (size ram) -> (size ram + ps - 1) / ps <= usize_max ->
  exists m, with_ram_dirty_tracking f ram ps = Some m /\ tracks (size ram) ps m (fun _ => False).
Proof.
  intros Hram Hps Hsz Hus. pose proof Hsz as Hsz'. unfold ram_size_ok in Hsz'.
  destruct (dirty_new_ok ram ps) as (d & Hnew & Hd & Hin & Hpsz & Hnone); [done|done|lia|done|].
  assert (size (inr d : Backing M) = size ram) as Hsd by (simpl; by rewrite Hin).
  destruct (wrap_pc_high_memory_spec (inr d)) as (r & Hwrap & Hr & Hbk & [Lsize _ Lback Lpage Lmark]);
    [done|by rewrite Hsd|].
  unfold with_ram_dirty_tracking. rewrite Hnew, Hwrap. eexists. split; [done|].
  rewrite Hsd in *. split; cbn [bus dirty PhysicalMemoryBus.new PhysicalMemoryBus.ram PhysicalMemoryBus.ram_size];
    try done.
  - by apply new_ok.
  - by rewrite Hbk.
  - intros a Ha Hno. by rewrite Lback, Hno.
  - intros a Ha. rewrite Lpage by done. destruct (ram_offset_of (size ram) a) as [o|] eqn:E; [|done].
    simpl. rewrite Hpsz, Hin.
    destruct (ram_offset_bounds _ _ _ ltac:(apply Ha) E).
    by rewrite (proj2 (Z.leb_le 0 o)), (proj2 (Z.ltb_lt o (size ram))).
  - intros c. rewrite Lmark. split; [|done]. intros Hc. change (gm_mark d c = true) in Hc.
    by rewrite Hnone in Hc.
Qed.

(** ** The theorems *)

(** C29: Accesses to the PC memory bus act byte by byte at the address the A20 gate
    leaves: a read returns, for every byte, ROM, RAM or open bus at that
    address, and a write stores the bytes one after another at theirs (so that
    of two bytes the gate aliases the later one stays).  The chunked loops, the
    bulk path and the typed reads agree on it.  This is for accesses no byte of
    which reaches a device register ([quiet]). *)
Theorem platform_bytes m p n src a :
  bus_ok m.(bus) -> uint 64 p -> Forall byte_ok src ->
  quiet (addr_of m) m.(bus) p n -> quiet (addr_of m) m.(bus) p (length src) -> 0 <= a ->
  read_physical m p n = (span (fun x => bus_byte m.(bus) (addr_of m x)) p n, m) /\
  read_uN n m p = (from_le_bytes (span (fun x => bus_byte m.(bus) (addr_of m x)) p n), m) /\
  (let m' := write_physical m p src in
   bus_ok m'.(bus) /\ m'.(filter) = m.(filter) /\
   bus_byte m'.(bus) a =
   if lands m.(bus) a then store_via (addr_of m) (gm_byte (ram_of m)) p src a else bus_byte m.(bus) a).
Proof.
  intros Hb Hp Hsrc Hq Hq' Ha. split; [by apply platform_read_spec|]. split; [by apply platform_read_uN_spec|].
  destruct (platform_write_spec m p src Hb Hp Hsrc Hq') as (b' & -> & [Vok Vrom Vmmio Vsize Vback Vpage _ Vbyte]).
  cbv zeta. cbn [with_bus bus filter]. split; [done|]. split; [done|].
  unfold bus_byte, lands. rewrite Vrom, Vsize. destruct (rom_at _ a) eqn:E; [by unfold stored; rewrite E|].
  destruct (Z.ltb_spec a m.(bus).(PhysicalMemoryBus.ram_size)); [|by rewrite andb_false_r].
  rewrite andb_true_r. by apply Vbyte.
Qed.

(** C21: Draining a bus with dirty tracking returns, in ascending order, exactly the
    RAM pages that a byte of some write reached since the last drain: through
    the A20 gate as it stood, not under a ROM, and at the RAM offset that the
    layout around the PCI hole gives the address.  No access of the history
    reaches a device register. *)
Theorem dirty_pages_exact f (ram : M) ps :
  gm_ok ram -> 0 < ps < 2 ^ 32 -> ram_size_ok (size ram) -> (size ram + ps - 1) / ps <= usize_max ->
  exists m0, with_ram_dirty_tracking f ram ps = Some m0 /\
    forall es, run_ok m0 es ->
      exists pages m', take_dirty_pages (run m0 es) = (Some pages, m') /\
        StronglySorted Z.lt pages /\
        forall c, c ∈ pages <-> dirtied (size ram) ps m0 es (fun _ => False) c.
Proof.
  intros Hram Hps Hsz Hus. destruct (tracking_new_ok f ram ps Hram Hps Hsz Hus) as (m0 & Hnew & Ht).
  exists m0. split; [done|]. intros es Hes.
  pose proof (tracks_run _ _ es m0 _ Hsz Ht Hes) as [Hok Hd Htr _ _ _ Hmark].
  destruct (take_dirty_pages_ok _ ps Hok Htr Hd) as (pages & r' & -> & _ & _ & Hs & Hin).
  eexists _, _. split; [done|]. split; [done|]. intros c. by rewrite Hin, Hmark.
Qed.

Lemma store_via_hit g h p src a :
  store_via g h p src a <> h a -> exists x, p <= x < p + Z.of_nat (length src) /\ g x = a.
Proof.
  revert h p. induction src as [|v src IH]; intros h p Hne; cbn [store_via length] in *; [done|].
  destruct (Z.eqb_spec a (g p)) as [->|Hg]; [exists p; split; [lia|done]|].
  destruct (IH (fun a => if a =? g p then v else h a) (p + 1)) as (x & Hx & Hgx).
  { by rewrite (proj2 (Z.eqb_neq a (g p)) Hg). }
  exists x. split; [lia|done].
Qed.

(** A RAM byte that a write changed is in a page the write dirtied. *)
Lemma changed_dirtied sz ps m S p src a :
  ram_size_ok sz -> tracks sz ps m S -> event_ok m (Write p src) ->
  0 <= a < m.(bus).(PhysicalMemoryBus.ram_size) ->
  gm_byte (ram_of (write_physical m p src)) a <> gm_byte (ram_of m) a ->
  exists o, ram_offset_of sz a = Some o /\ dirties sz ps m p src (o / ps).
Proof.
  intros Hsz [Hok _ _ _ Hback _ _] (Hp & Hsrc & Hq) Ha Hne.
  destruct (platform_write_spec m p src Hok Hp Hsrc Hq) as (b' & Hw & [_ _ _ _ _ _ _ Vbyte]).
  rewrite Hw in Hne. cbn [with_bus bus] in Hne. rewrite Vbyte in Hne by done. unfold stored in Hne.
  case_bool_decide as Hrom; [|done]. destruct (gm_backed (ram_of m) a) eqn:Hbk; [|done].
  apply store_via_hit in Hne as (x & Hx & <-).
  destruct (ram_offset_of sz (addr_of m x)) as [o|] eqn:Ho; [|by rewrite Hback in Hbk].
  exists o. split; [done|]. by exists x, o.
Qed.

(** Events other than writes keep the bytes of RAM; drains do not happen. *)
Definition no_drain (e : event) : bool := match e with TakeDirty | ClearDirty => false | _ => true end.

Lemma step_bytes sz ps m S e a :
  ram_size_ok sz -> tracks sz ps m S -> event_ok m e -> no_drain e = true ->
  0 <= a < m.(bus).(PhysicalMemoryBus.ram_size) ->
  gm_byte (ram_of (step m e)) a <> gm_byte (ram_of m) a ->
  exists o, ram_offset_of sz a = Some o /\ after_event sz ps m e S (o / ps).
Proof.
  intros Hsz Ht He Hnd Ha Hne. pose proof (tk_ok _ _ _ _ Ht) as Hok.
  destruct e as [p n|p src|b|start data|start len h| |]; cbn [step after_event no_drain] in *; try done.
  - destruct He as [Hp Hq]. by rewrite (platform_read_spec m p n Hok Hp Hq) in Hne.
  - destruct (changed_dirtied sz ps m S p src a) as (o & Ho & Hd); try done. exists o. split; [done|by right].
  - unfold map_rom in Hne. destruct He as [Hs Hd]. pose proof (map_rom_ok m.(bus) start data Hok Hs Hd) as Hm.
    destruct (PhysicalMemoryBus.map_rom _ _ _) as [b|[]]; [|done|by case_if_in Hne].
    exfalso. apply Hne. cbn [snd with_bus bus]. by destruct Hm as (_ & -> & _).
  - unfold map_mmio in Hne. destruct He as [Hs Hl]. pose proof (map_mmio_ok m.(bus) start len h Hok Hs Hl) as Hm.
    destruct (PhysicalMemoryBus.map_mmio _ _ _ _) as [b|[]]; [|done|done].
    exfalso. apply Hne. cbn [snd with_bus bus]. by destruct Hm as (_ & -> & _).
Qed.

Lemma run_ok_app es1 es2 : forall m, run_ok m (es1 ++ es2) <-> run_ok m es1 /\ run_ok (run m es1) es2.
Proof.
  induction es1 as [|e es1 IH]; intros m; [naive_solver|]. cbn [app run_ok]. rewrite IH. unfold run. cbn [fold_left]. tauto.
Qed.

Lemma dirtied_mono sz ps es : forall m (S : Z -> Prop) c,
  forallb no_drain es = true -> S c -> dirtied sz ps m es S c.
Proof.
  induction es as [|e es IH]; intros m S c Hnd Hc; [done|]. simpl in Hnd. bool_hyps.
  cbn [dirtied]. apply IH; [done|]. destruct e; simpl; try done. by left.
Qed.

Lemma run_bytes sz ps es a : forall m S,
  ram_size_ok sz -> tracks sz ps m S -> run_ok m es -> forallb no_drain es = true ->
  0 <= a < guest_ram_phys_end_exclusive sz ->
  gm_byte (ram_of (run m es)) a <> gm_byte (ram_of m) a ->
  exists o, ram_offset_of sz a = Some o /\ dirtied sz ps m es S (o / ps).
Proof.
  induction es as [|e es IH]; intros m S Hsz Ht Hes Hnd Ha Hne; [done|].
  destruct Hes as [He Hes]. simpl in Hnd. apply andb_true_iff in Hnd as [Hnd1 Hnd2].
  cbn [run fold_left dirtied] in *. fold (run (step m e) es) in Hne.
  pose proof (tracks_step sz ps m S e Hsz Ht He) as Ht'.
  destruct (decide (gm_byte (ram_of (step m e)) a = gm_byte (ram_of m) a)) as [Heq|Hd].
  - apply (IH (step m e)); try done. by rewrite Heq.
  - destruct (step_bytes sz ps m S e a) as (o & Ho & Hc); try done; [by rewrite (tk_size _ _ _ _ Ht)|].
    exists o. split; [done|]. by apply dirtied_mono.
Qed.

(** C12: An incremental snapshot is complete: whatever happened on the bus since the
    last drain, a byte of guest RAM that is not what it was then lies in one of
    the pages the next drain returns.  No access of the history reaches a device
    register. *)
Theorem dirty_snapshot_complete f (ram : M) ps :
  gm_ok ram -> 0 < ps < 2 ^ 32 -> ram_size_ok (size ram) -> (size ram + ps - 1) / ps <= usize_max ->
  exists m0, with_ram_dirty_tracking f ram ps = Some m0 /\
    forall before since a, run_ok m0 (before ++ TakeDirty :: since) -> forallb no_drain since = true ->
      0 <= a < guest_ram_phys_end_exclusive (size ram) ->
      let old := run m0 before in
      let now := run m0 (before ++ TakeDirty :: since) in
      exists pages m', take_dirty_pages now = (Some pages, m') /\
        (gm_byte (ram_of now) a <> gm_byte (ram_of old) a ->
         exists o, ram_offset_of (size ram) a = Some o /\ o / ps ∈ pages).
Proof.
  intros Hram Hps Hsz Hus. destruct (tracking_new_ok f ram ps Hram Hps Hsz Hus) as (m0 & Hnew & Ht).
  exists m0. split; [done|]. intros before since a Hes Hnd Ha old now.
  apply run_ok_app in Hes as [Hb [_ Hs]]. fold old in Hs. cbn [step] in Hs.
  pose proof (tracks_run _ _ before m0 _ Hsz Ht Hb) as Hold. fold old in Hold.
  pose proof (tracks_take _ _ _ _ Hold) as Hmid.
  pose proof (tracks_run _ _ since _ _ Hsz Hmid Hs) as Hnow.
  assert (run (snd (take_dirty_pages old)) since = now) as E
    by (unfold now, old, run; by rewrite fold_left_app).
  rewrite E in Hnow. destruct Hnow as [Hok Hd Htr _ _ _ Hmark].
  destruct (take_dirty_pages_ok now ps Hok Htr Hd) as (pages & r' & -> & _ & _ & _ & Hin).
  eexists _, _. split; [done|]. intros Hne.
  destruct (run_bytes (size ram) ps since a _ _ Hsz Hmid Hs Hnd Ha) as (o & Ho & Hc).
  { rewrite E. intros Heq. apply Hne. rewrite Heq.
    destruct (take_dirty_pages_ok old ps (tk_ok _ _ _ _ Hold) (tk_tracked _ _ _ _ Hold) (tk_dirty _ _ _ _ Hold))
      as (pg & r & -> & Hsame & _). apply Hsame. }
  exists o. split; [done|]. by rewrite Hin, Hmark.
Qed.
End History.

(** ** The BIOS windows *)
Section Bios.
Context `{Target} {M H0 : Type} `{GMS : GuestMemorySpec M} `{MH : MmioHandler H0}.
Implicit Types m : MemoryBus.t M H0.

Definition bios_mapped (rom : list Z) m : Prop :=
  bus_ok m.(bus) /\
  RomRegion.mk BIOS_ROM_BASE rom ∈ m.(bus).(PhysicalMemoryBus.rom_regions) /\
  RomRegion.mk BIOS_ROM_ALIAS_BASE rom ∈ m.(bus).(PhysicalMemoryBus.rom_regions).

(** A mapped ROM region is what the bus reads. *)
Lemma rom_reads m r i :
  bus_ok m.(bus) -> r ∈ m.(bus).(PhysicalMemoryBus.rom_regions) -> (i < length r.(RomRegion.data))%nat ->
  Some (bus_byte m.(bus) (r.(RomRegion.start) + Z.of_nat i)) = r.(RomRegion.data) !! i.
Proof.
  intros Hb Hr Hi. apply list_elem_of_lookup in Hr as [k Hk].
  pose proof (Forall_lookup_1 _ _ _ _ (bo_rom_ok _ Hb) Hk) as Hok.
  unfold bus_byte, rom_at.
  rewrite (find_region_unique RomRegion.start RomRegion.end_ _ k r _ (bo_rom _ Hb) Hk).
  2:{ rewrite (rom_end r Hok). unfold RomRegion.len. lia. }
  replace (Z.to_nat _) with i by lia. destruct (lookup_lt_is_Some_2 (r.(RomRegion.data)) i Hi) as [x ->]. done.
Qed.

(** A window of the same place and length is taken as already mapped. *)
Lemma map_rom_again m start data r :
  bus_ok m.(bus) -> 0 <= start -> Forall byte_ok data -> start + Z.of_nat (length data) < 2 ^ 64 ->
  (0 < length data)%nat ->
  r ∈ m.(bus).(PhysicalMemoryBus.rom_regions) -> r.(RomRegion.start) = start ->
  length r.(RomRegion.data) = length data -> map_rom m start data = (Ok tt, m).
Proof.
  intros Hb Hs Hd Hle Hpos Hr Hst Hl. unfold map_rom.
  pose proof (map_rom_ok m.(bus) start data Hb Hs Hd) as Hm.
  destruct (PhysicalMemoryBus.map_rom _ _ _) as [b|[]].
  - exfalso. destruct Hm as (_ & _ & _ & _ & _ & Hno). apply (Hno r Hr). right. simpl.
    pose proof (proj1 (Forall_forall _ _) (bo_rom_ok _ Hb) r Hr) as Hok.
    unfold RomRegion.end_, RomRegion.len, saturating_add. simpl. lia.
  - lia.
  - assert (existsb (fun r => (r.(RomRegion.start) =? start) && (length r.(RomRegion.data) =? length data)%nat)
      m.(bus).(PhysicalMemoryBus.rom_regions) = true) as ->; [|done].
    apply existsb_exists. exists r. split; [by apply list_elem_of_In|].
    by rewrite Hst, Hl, Z.eqb_refl, Nat.eqb_refl.
Qed.

Lemma map_rom_fresh m start data :
  bus_ok m.(bus) -> 0 <= start -> Forall byte_ok data -> start + Z.of_nat (length data) < 2 ^ 64 ->
  (forall r, r ∈ m.(bus).(PhysicalMemoryBus.rom_regions) ->
     r.(RomRegion.start) < start /\ RomRegion.end_ r <= start \/
     start + Z.of_nat (length data) <= r.(RomRegion.start)) ->
  exists m', map_rom m start data = (Ok tt, m') /\ bus_ok m'.(bus) /\
    forall r, r ∈ m'.(bus).(PhysicalMemoryBus.rom_regions) <->
      r = RomRegion.mk start data \/ r ∈ m.(bus).(PhysicalMemoryBus.rom_regions).
Proof.
  intros Hb Hs Hd Hle Hfree. unfold map_rom. pose proof (map_rom_ok m.(bus) start data Hb Hs Hd) as Hm.
  destruct (PhysicalMemoryBus.map_rom _ _ _) as [b|[]].
  - eexists. split; [done|]. cbn [with_bus bus]. destruct Hm as (? & _ & _ & _ & ? & _). done.
  - lia.
  - exfalso. destruct Hm as (r & Hr & Hc). destruct (Hfree r Hr) as [Hf|Hf];
      destruct Hc as [Hc|Hc]; simpl in Hc; unfold RomRegion.end_, RomRegion.len, saturating_add in *;
      simpl in *; lia.
Qed.

Lemma bios_rom_size : Z.of_nat BIOS_ROM_SIZE = 0x10000.
Proof. unfold BIOS_ROM_SIZE. lia. Qed.

(** Mapping a system BIOS of 64 KiB on a bus without ROM succeeds and makes the
    image readable in the legacy window and, with the same bytes, below 4 GiB
    where the reset vector is.  Mapping an image again, as every reset does,
    succeeds and changes nothing. *)
Theorem bios_rom_mapped m rom again :
  bus_ok m.(bus) -> m.(bus).(PhysicalMemoryBus.rom_regions) = [] ->
  length rom = BIOS_ROM_SIZE -> Forall byte_ok rom -> length again = BIOS_ROM_SIZE -> Forall byte_ok again ->
  exists m', map_system_bios_rom m rom = Some (Ok tt, m') /\ bus_ok m'.(bus) /\
    (forall i, (i < BIOS_ROM_SIZE)%nat ->
       Some (bus_byte m'.(bus) (BIOS_ROM_BASE + Z.of_nat i)) = rom !! i /\
       Some (bus_byte m'.(bus) (BIOS_ROM_ALIAS_BASE + Z.of_nat i)) = rom !! i) /\
    map_system_bios_rom m' again = Some (Ok tt, m').
Proof.
  intros Hb Hnone Hl Hrom Hl2 Hagain. unfold map_system_bios_rom. rewrite Hl, Hl2, Nat.eqb_refl.
  pose proof bios_rom_size as Hsz. generalize dependent BIOS_ROM_SIZE. intros N Hl Hl2 Hsz.
  destruct (map_rom_fresh m BIOS_ROM_BASE rom Hb) as (m1 & -> & Hb1 & Hr1);
    [done|done|rewrite Hl, Hsz; done|by intros r Hr; rewrite Hnone in Hr; apply elem_of_nil in Hr|].
  destruct (map_rom_fresh m1 BIOS_ROM_ALIAS_BASE rom Hb1) as (m2 & -> & Hb2 & Hr2);
    [done|done|rewrite Hl, Hsz; done| |].
  { intros r [->|Hr]%Hr1; [|by rewrite Hnone in Hr; apply elem_of_nil in Hr]. left. split; [done|].
    unfold RomRegion.end_, RomRegion.len, saturating_add. simpl. rewrite Hl, Hsz. by vm_compute. }
  assert (RomRegion.mk BIOS_ROM_ALIAS_BASE rom ∈ m2.(bus).(PhysicalMemoryBus.rom_regions)) as Hin2
    by (apply Hr2; by left).
  assert (RomRegion.mk BIOS_ROM_BASE rom ∈ m2.(bus).(PhysicalMemoryBus.rom_regions)) as Hin1
    by (apply Hr2; right; apply Hr1; by left).
  exists m2. split; [done|]. split; [done|]. split.
  - intros i Hi. rewrite <- Hl in Hi.
    pose proof (rom_reads m2 _ i Hb2 Hin1 Hi) as R1. by pose proof (rom_reads m2 _ i Hb2 Hin2 Hi) as R2.
  - rewrite (map_rom_again m2 BIOS_ROM_BASE again (RomRegion.mk BIOS_ROM_BASE rom));
      [|done|done|done|rewrite Hl2, Hsz; done|lia|done|done|simpl; congruence].
    rewrite (map_rom_again m2 BIOS_ROM_ALIAS_BASE again (RomRegion.mk BIOS_ROM_ALIAS_BASE rom));
      [done|done|done|done|rewrite Hl2, Hsz; done|lia|done|done|simpl; congruence].
Qed.
End Bios.

(** ** Witnesses *)
Section Witnesses.
#[local] Existing Instance x86_64.

Definition small_ram : DenseMemory.t := DenseMemory.mk [1; 2; 3; 4; 5; 6; 7; 8; 9; 10; 11; 12].

Lemma small_ram_ok : gm_ok small_ram.
Proof. split; [by vm_compute|]. by repeat constructor. Qed.

(** The A20 gate is shut. *)
Definition gated : option (MemoryBus.t DenseMemory.t no_mmio) := with_ram (AddressFilter.mk false) small_ram.

Lemma quiet_no_mmio {M} g (b : PhysicalMemoryBus.t (PcRam M) no_mmio) p n : quiet g b p n.
Proof. intros x _ (r & _). by destruct (MmioRegion.handler r). Qed.

Lemma platform_bytes_witness :
  exists m, gated = Some m /\
    fst (read_physical m 0xFFFFE 6) = [0xFF; 0xFF; 1; 2; 3; 4] /\
    bus_byte (write_physical m 0xFFFFF [0x11; 0x22; 0x33]).(bus) 1 = 0x33.
Proof.
  eexists. split; [reflexivity|]. match goal with |- fst (read_physical ?m _ _) = _ /\ _ => set (mm := m) end.
  assert (bus_ok mm.(bus)) as Hb by (apply new_ok, small_ram_ok).
  destruct (platform_bytes mm 0xFFFFE 6 [] 1) as (Hr & _);
    [done|by split|constructor|apply quiet_no_mmio|apply quiet_no_mmio|lia|].
  destruct (platform_bytes mm 0xFFFFF 0 [0x11; 0x22; 0x33] 1) as (_ & _ & _ & _ & Hw);
    [done|by split|by repeat constructor|apply quiet_no_mmio|apply quiet_no_mmio|lia|].
  rewrite Hr, Hw. split; reflexivity.
Defined.

(** With the gate shut, four bytes at 1 MiB + 2 reach pages 0 and 1 of four
    bytes; after a drain, a write past the end of RAM reaches none. *)
Definition four_bytes : list event := [SetA20 (H0 := no_mmio) false; Write 0x100002 [1; 2; 3; 4]].

Lemma dirty_pages_exact_witness :
  exists m0, with_ram_dirty_tracking (H0 := no_mmio) (AddressFilter.mk true) small_ram 4 = Some m0 /\
    exists pages m', take_dirty_pages (run m0 four_bytes) = (Some pages, m') /\ pages = [0; 1] /\
      dirtied 12 4 m0 four_bytes (fun _ => False) 1.
Proof.
  destruct (dirty_pages_exact (H0 := no_mmio) (AddressFilter.mk true) small_ram 4) as (m0 & Hm & Hall);
    [apply small_ram_ok|by split|by split|by vm_compute|].
  exists m0. split; [exact Hm|].
  destruct (Hall four_bytes) as (pages & m' & Ht & _ & Hin).
  { split; [done|]. split; [|done]. split; [by split|]. split; [by repeat constructor|]. apply quiet_no_mmio. }
  vm_compute in Hm. injection Hm as <-. exists pages, m'. split; [exact Ht|].
  assert (pages = [0; 1]) as Hp by (vm_compute in Ht; congruence). split; [exact Hp|].
  apply Hin. rewrite Hp. right. left.
Defined.

Lemma dirty_snapshot_complete_witness :
  exists m0, with_ram_dirty_tracking (H0 := no_mmio) (AddressFilter.mk true) small_ram 4 = Some m0 /\
    let old := run m0 [Write 0 [9]] in
    let now := run m0 ([Write 0 [9]] ++ TakeDirty :: four_bytes) in
    gm_byte (ram_of now) 5 <> gm_byte (ram_of old) 5 /\
    exists pages m', take_dirty_pages now = (Some pages, m') /\ 1 ∈ pages.
Proof.
  destruct (dirty_snapshot_complete (H0 := no_mmio) (AddressFilter.mk true) small_ram 4) as (m0 & Hm & Hall);
    [apply small_ram_ok|by split|by split|by vm_compute|].
  exists m0. split; [exact Hm|].
  destruct (Hall [Write 0 [9]] four_bytes 5) as (pages & m' & Ht & Hch); [|done|by split|].
  { split; [|split; [done|split; [done|split; [|done]]]];
      (split; [by split|]; split; [by repeat constructor|apply quiet_no_mmio]). }
  vm_compute in Hm. injection Hm as <-. cbv zeta.
  match type of Hch with ?P -> _ => assert P as Hne by (vm_compute; discriminate) end.
  split; [exact Hne|]. destruct (Hch Hne) as (o & Ho & Hin). vm_compute in Ho. injection Ho as <-.
  exists pages, m'. split; [exact Ht|exact Hin].
Defined.

Lemma bios_rom_mapped_witness :
  exists m m', with_ram (H0 := no_mmio) (AddressFilter.mk true) small_ram = Some m /\
    map_system_bios_rom m (replicate BIOS_ROM_SIZE 0xEA) = Some (Ok tt, m') /\
    map_system_bios_rom m' (replicate BIOS_ROM_SIZE 0) = Some (Ok tt, m') /\
    bus_byte m'.(bus) 0xFFFFFFF0 = 0xEA.
Proof.
  destruct (bios_rom_mapped (H0 := no_mmio)
    (MemoryBus.mk (AddressFilter.mk true) (PhysicalMemoryBus.new (inl (inl small_ram))) None)
    (replicate BIOS_ROM_SIZE 0xEA) (replicate BIOS_ROM_SIZE 0)) as (m' & Hm & _ & Hb & Hag);
    [apply new_ok, small_ram_ok|reflexivity|apply length_replicate|by apply Forall_replicate
    |apply length_replicate|by apply Forall_replicate|].
  eexists _, m'. split; [reflexivity|]. split; [exact Hm|]. split; [exact Hag|].
  assert (Z.to_nat 0xFFF0 < BIOS_ROM_SIZE)%nat as Hi by (unfold BIOS_ROM_SIZE; lia).
  destruct (Hb (Z.to_nat 0xFFF0) Hi) as [_ Hx]. rewrite lookup_replicate_2 in Hx by exact Hi.
  injection Hx as Hx. rewrite Z2Nat.id in Hx by lia. exact Hx.
Defined.
End Witnesses.
