(* ===== verification/Hpet.v ===== *)
(** * High-precision event timer (crates/devices/src/hpet.rs)

    The main counter, the comparators, the registers and the snapshot.  The
    clock is the [ManualClock] the machine uses (crates/aero-interrupts/src/
    clock.rs): a shared cell with the time in nanoseconds, stored in the device.

    The device only calls [raise_gsi] and [lower_gsi] of its interrupt sink and
    reads nothing back, so an operation returns the calls it makes, in order;
    [drive] makes them on a sink ([None]: the sink panicked).  Sums and products
    without an overflow check wrap, as in a release build. *)

From S2P Require Import Prelude Bytes Collections Snapshot Lapic Ioapic Router.

(** ** The interrupt sink (crates/devices/src/ioapic.rs) *)
Inductive GsiCall := RaiseGsi (gsi : Z) | LowerGsi (gsi : Z).
#[export] Instance gsi_call_eq_dec : EqDecision GsiCall.
Proof. solve_decision. Defined.

Class GsiSink (S : Type) := {
  raise_gsi : S -> Z -> option S;
  lower_gsi : S -> Z -> option S;
}.
(** [pulse_gsi]. *)
Definition pulse_gsi (gsi : Z) : list GsiCall := [RaiseGsi gsi; LowerGsi gsi].

#[export] Instance platform_sink : GsiSink PlatformInterrupts.t := {|
  raise_gsi p gsi := PlatformInterrupts.raise_irq p (Gsi gsi);
  lower_gsi p gsi := PlatformInterrupts.lower_irq p (Gsi gsi);
|}.

#[export] Instance ioapic_sink {S} `{LapicInterruptSink S} : GsiSink (IoApic.t S) := {|
  raise_gsi io gsi := IoApic.set_irq_level io (Z.to_nat gsi) true;
  lower_gsi io gsi := IoApic.set_irq_level io (Z.to_nat gsi) false;
|}.

(** The sink that records the changes of its lines. *)
Module RecordingSink.
Record t := mk { asserted : gset Z; events : list GsiCall }.
Definition is_asserted (s : t) (gsi : Z) : bool := bool_decide (gsi ∈ s.(asserted)).
Definition take_events (s : t) : list GsiCall * t := (s.(events), mk s.(asserted) []).
Definition raise (s : t) (gsi : Z) : t :=
  if is_asserted s gsi then s else mk ({[gsi]} ∪ s.(asserted)) (s.(events) ++ [RaiseGsi gsi]).
Definition lower (s : t) (gsi : Z) : t :=
  if is_asserted s gsi then mk (s.(asserted) ∖ {[gsi]}) (s.(events) ++ [LowerGsi gsi]) else s.
#[global] Instance sink : GsiSink t := {| raise_gsi s gsi := Some (raise s gsi); lower_gsi s gsi := Some (lower s gsi) |}.
End RecordingSink.

Definition make_call {S} `{GsiSink S} (s : S) (c : GsiCall) : option S :=
  match c with RaiseGsi gsi => raise_gsi s gsi | LowerGsi gsi => lower_gsi s gsi end.
Definition drive {S} `{GsiSink S} (calls : list GsiCall) (s : S) : option S := foldo make_call calls s.

(** ** Registers *)
Definition HPET_MMIO_SIZE : Z := 0x400.
Abbreviation REG_GENERAL_CAP_ID := (0x000) (only parsing).
Abbreviation REG_GENERAL_CONFIG := (0x010) (only parsing).
Abbreviation REG_GENERAL_INT_STATUS := (0x020) (only parsing).
Abbreviation REG_MAIN_COUNTER := (0x0F0) (only parsing).
Abbreviation REG_TIMER0_BASE := (0x100) (only parsing).
Abbreviation TIMER_STRIDE := (0x20) (only parsing).
Abbreviation REG_TIMER_CONFIG := (0x00) (only parsing).
Abbreviation REG_TIMER_COMPARATOR := (0x08) (only parsing).
Abbreviation REG_TIMER_FSB_ROUTE := (0x10) (only parsing).

Definition GEN_CONF_ENABLE : Z := 0x1.
Definition GEN_CONF_LEGACY_ROUTE : Z := 0x2.
Definition TIMER_CFG_INT_LEVEL : Z := 0x2.
Definition TIMER_CFG_INT_ENABLE : Z := 0x4.
Definition TIMER_CFG_PERIODIC : Z := 0x8.
Definition TIMER_CAP_PERIODIC : Z := 0x10.
Definition TIMER_CAP_SIZE_64 : Z := 0x20.
Definition TIMER_CFG_SETVAL : Z := 0x40.
Definition TIMER_CFG_32MODE : Z := 0x100.
Definition TIMER_CFG_INT_ROUTE_SHIFT : Z := 9.
Definition TIMER_CFG_INT_ROUTE_MASK : Z := 0x1F <<< TIMER_CFG_INT_ROUTE_SHIFT.
Definition TIMER_CFG_FSB_ENABLE : Z := 0x4000.
Definition TIMER_WRITABLE_MASK : Z :=
  TIMER_CFG_INT_LEVEL ||| TIMER_CFG_INT_ENABLE ||| TIMER_CFG_PERIODIC ||| TIMER_CFG_SETVAL
  ||| TIMER_CFG_32MODE ||| TIMER_CFG_INT_ROUTE_MASK ||| TIMER_CFG_FSB_ENABLE.

Definition LEGACY_TIMER_GSI : Z := 2.
Definition LEGACY_RTC_GSI : Z := 8.
Definition U32_MAX : Z := 2 ^ 32 - 1.

Definition apply_legacy_replacement_route (legacy : bool) (timer_index : nat) (programmed_route : Z) : Z :=
  if negb legacy then programmed_route
  else
    match timer_index with
    | 0%nat => LEGACY_TIMER_GSI
    | 1%nat => LEGACY_RTC_GSI
    | _ => programmed_route
    end.

Module HpetCapabilities.
Record t := mk {
  vendor_id : Z;
  revision_id : Z;
  counter_size_64 : bool;
  legacy_route_capable : bool;
  num_timers : nat;
  counter_clk_period_fs : Z;
}.
End HpetCapabilities.

Module HpetTimer.
Record t := mk {
  cap_bits : Z;
  config : Z;
  comparator : Z;
  deadline : Z;
  period : Z;
  fsb_route : Z;
  armed : bool;
  irq_asserted : bool;
}.
Definition with_config v x := mk x.(cap_bits) v x.(comparator) x.(deadline) x.(period) x.(fsb_route) x.(armed)
  x.(irq_asserted).
Definition with_comparator v x := mk x.(cap_bits) x.(config) v x.(deadline) x.(period) x.(fsb_route) x.(armed)
  x.(irq_asserted).
Definition with_deadline v x := mk x.(cap_bits) x.(config) x.(comparator) v x.(period) x.(fsb_route) x.(armed)
  x.(irq_asserted).
Definition with_period v x := mk x.(cap_bits) x.(config) x.(comparator) x.(deadline) v x.(fsb_route) x.(armed)
  x.(irq_asserted).
Definition with_fsb_route v x := mk x.(cap_bits) x.(config) x.(comparator) x.(deadline) x.(period) v x.(armed)
  x.(irq_asserted).
Definition with_armed v x := mk x.(cap_bits) x.(config) x.(comparator) x.(deadline) x.(period) x.(fsb_route) v
  x.(irq_asserted).
Definition with_irq_asserted v x := mk x.(cap_bits) x.(config) x.(comparator) x.(deadline) x.(period) x.(fsb_route)
  x.(armed) v.

Definition new (route_cap_mask default_route : Z) (periodic_capable : bool) : t :=
  let cap_bits := route_cap_mask <<< 32 in
  let cap_bits := if periodic_capable then cap_bits ||| TIMER_CAP_PERIODIC else cap_bits in
  let cap_bits := cap_bits ||| TIMER_CAP_SIZE_64 in
  let config := (default_route <<< TIMER_CFG_INT_ROUTE_SHIFT) &&& TIMER_CFG_INT_ROUTE_MASK in
  mk cap_bits config 0 0 0 0 false false.

Definition full_config (x : t) : Z := x.(cap_bits) ||| x.(config).
Definition is_periodic (x : t) : bool := nz (x.(config) &&& TIMER_CFG_PERIODIC).
Definition int_enabled (x : t) : bool := nz (x.(config) &&& TIMER_CFG_INT_ENABLE).
Definition is_level_triggered (x : t) : bool := nz (x.(config) &&& TIMER_CFG_INT_LEVEL).
Definition is_32bit (x : t) : bool := nz (x.(config) &&& TIMER_CFG_32MODE).
Definition route (x : t) : Z := (x.(config) &&& TIMER_CFG_INT_ROUTE_MASK) >>> TIMER_CFG_INT_ROUTE_SHIFT.

Definition comparator_deadline (x : t) (main_counter : Z) : Z :=
  if negb (is_32bit x) then x.(comparator)
  else
    let deadline := (main_counter &&& unot 64 U32_MAX) ||| (x.(comparator) &&& U32_MAX) in
    if deadline <? main_counter then wrapping_add 64 deadline (1 <<< 32) else deadline.

(** [if cfg & 32MODE { v & u32::MAX } else { v }] *)
Definition comparator_of (x : t) (v : Z) : Z := if is_32bit x then v &&& U32_MAX else v.

(** The dynamic state cleared, the route kept. *)
Definition clear (x : t) : t :=
  mk x.(cap_bits) (x.(config) &&& TIMER_CFG_INT_ROUTE_MASK) 0 0 0 0 false false.
End HpetTimer.

Module Hpet.
Import HpetTimer.
Record t := mk {
  clock : Z;
  caps : HpetCapabilities.t;
  general_config : Z;
  general_int_status : Z;
  main_counter : Z;
  last_update_ns : Z;
  remainder_fs : Z;
  timers : list HpetTimer.t;
}.
Definition with_clock v h := mk v h.(caps) h.(general_config) h.(general_int_status) h.(main_counter)
  h.(last_update_ns) h.(remainder_fs) h.(timers).
Definition with_general_config v h := mk h.(clock) h.(caps) v h.(general_int_status) h.(main_counter)
  h.(last_update_ns) h.(remainder_fs) h.(timers).
Definition with_general_int_status v h := mk h.(clock) h.(caps) h.(general_config) v h.(main_counter)
  h.(last_update_ns) h.(remainder_fs) h.(timers).
Definition with_main_counter v h := mk h.(clock) h.(caps) h.(general_config) h.(general_int_status) v
  h.(last_update_ns) h.(remainder_fs) h.(timers).
Definition with_last_update_ns v h := mk h.(clock) h.(caps) h.(general_config) h.(general_int_status)
  h.(main_counter) v h.(remainder_fs) h.(timers).
Definition with_remainder_fs v h := mk h.(clock) h.(caps) h.(general_config) h.(general_int_status)
  h.(main_counter) h.(last_update_ns) v h.(timers).
Definition with_timers v h := mk h.(clock) h.(caps) h.(general_config) h.(general_int_status) h.(main_counter)
  h.(last_update_ns) h.(remainder_fs) v.

Definition new (clock : Z) (caps : HpetCapabilities.t) : t :=
  let route_cap_mask := 0x00ffffff in
  let timer timer_idx :=
    let default_route := match timer_idx with 0%nat => 2 | 1%nat => 8 | _ => 10 end in
    HpetTimer.new route_cap_mask default_route true in
  mk clock caps 0 0 0 clock 0 (map timer (seq 0 caps.(HpetCapabilities.num_timers))).

Definition default_caps : HpetCapabilities.t := HpetCapabilities.mk 0x8086 1 true true 3 100000000.
Definition new_default (clock : Z) : t := new clock default_caps.

(** [ManualClock::advance_ns] on the shared cell. *)
Definition advance_ns (delta_ns : Z) (h : t) : t := with_clock (wrapping_add 64 h.(clock) delta_ns) h.

Definition reset (h : t) : t :=
  mk h.(clock) h.(caps) 0 0 0 h.(clock) 0 (map HpetTimer.clear h.(timers)).

Definition enabled (h : t) : bool := nz (h.(general_config) &&& GEN_CONF_ENABLE).
Definition legacy (h : t) : bool := nz (h.(general_config) &&& GEN_CONF_LEGACY_ROUTE).

Definition update_main_counter (h : t) : t :=
  if negb (enabled h) then h
  else
    let now_ns := h.(clock) in
    let elapsed_ns := wrapping_sub 64 now_ns h.(last_update_ns) in
    let h := with_last_update_ns now_ns h in
    let elapsed_fs := elapsed_ns * 1000000 + h.(remainder_fs) in
    let period_fs := h.(caps).(HpetCapabilities.counter_clk_period_fs) in
    if period_fs =? 0 then h
    else
      let ticks := wrap 64 (elapsed_fs / period_fs) in
      let h := with_remainder_fs (wrap 64 (elapsed_fs mod period_fs)) h in
      with_main_counter (wrapping_add 64 h.(main_counter) ticks) h.

(** ** The timers *)

(** What an operation does to one timer and to the status register. *)
Definition timer_step : Type := nat -> Z -> HpetTimer.t -> Z * HpetTimer.t * list GsiCall.

(** [for (idx, timer) in self.timers.iter_mut().enumerate()] *)
Fixpoint for_timers (step : timer_step) (idx : nat) (status : Z) (timers : list HpetTimer.t) :
    Z * list HpetTimer.t * list GsiCall :=
  match timers with
  | [] => (status, [], [])
  | timer :: timers =>
      let '(status, timer, calls) := step idx status timer in
      let '(status, timers, rest) := for_timers step (S idx) status timers in
      (status, timer :: timers, calls ++ rest)
  end.
Definition on_timers (step : timer_step) (h : t) : t * list GsiCall :=
  let '(status, timers, calls) := for_timers step 0 h.(general_int_status) h.(timers) in
  (with_timers timers (with_general_int_status status h), calls).

Definition status_bit (idx : nat) : Z := 1 <<< Z.of_nat idx.

(** The level part of one iteration: follow the status bit. *)
Definition follow_status (gsi : Z) (pending : bool) (timer : HpetTimer.t) : HpetTimer.t * list GsiCall :=
  match pending, timer.(irq_asserted) with
  | true, false => (with_irq_asserted true timer, [RaiseGsi gsi])
  | false, true => (with_irq_asserted false timer, [LowerGsi gsi])
  | _, _ => (timer, [])
  end.

(** The end of one iteration: the next deadline of a timer that fired. *)
Definition rearm (main_counter : Z) (timer : HpetTimer.t) : HpetTimer.t :=
  if is_periodic timer && nz timer.(period) then
    let delta := wrapping_sub 64 main_counter timer.(deadline) in
    let skips := delta / timer.(period) + 1 in
    let timer := with_deadline (wrapping_add 64 timer.(deadline) (wrapping_mul 64 timer.(period) skips)) timer in
    with_comparator (comparator_of timer timer.(deadline)) timer
  else with_armed false timer.

Definition service_timer (legacy : bool) (main_counter : Z) : timer_step := fun idx status timer =>
  let gsi := apply_legacy_replacement_route legacy idx (route timer) in
  let pending := nz (status &&& status_bit idx) in
  let '(timer, calls) :=
    if is_level_triggered timer && int_enabled timer then follow_status gsi pending timer else (timer, []) in
  if negb (int_enabled timer) then (status, timer, calls)
  else if negb timer.(armed) then (status, timer, calls)
  else if main_counter <? timer.(deadline) then (status, timer, calls)
  else
    let status := status ||| status_bit idx in
    let '(timer, fired) :=
      if is_level_triggered timer then
        if negb timer.(irq_asserted) then (with_irq_asserted true timer, [RaiseGsi gsi]) else (timer, [])
      else (timer, pulse_gsi gsi) in
    (status, rearm main_counter timer, calls ++ fired).

Definition service_timers (h : t) : t * list GsiCall :=
  if negb (enabled h) then (h, [])
  else on_timers (service_timer (legacy h) h.(main_counter)) h.

Definition poll (h : t) : t * list GsiCall := service_timers (update_main_counter h).

Definition sync_timer (legacy enabled : bool) : timer_step := fun idx status timer =>
  let pending := nz (status &&& status_bit idx) in
  let gsi := apply_legacy_replacement_route legacy idx (route timer) in
  if negb (is_level_triggered timer) || negb (int_enabled timer) then
    (status, with_irq_asserted false timer, if timer.(irq_asserted) then [LowerGsi gsi] else [])
  else
    let should_assert := enabled && pending in
    let '(timer, calls) := follow_status gsi should_assert timer in
    (status, timer, calls).

Definition sync_levels_to_sink (h : t) : t * list GsiCall :=
  on_timers (sync_timer (legacy h) (enabled h)) h.

(** ** Register access *)
Definition capabilities_reg (h : t) : Z :=
  let c := h.(caps) in
  let timers_minus_one := saturating_sub (Z.of_nat c.(HpetCapabilities.num_timers)) 1 in
  let reg := c.(HpetCapabilities.revision_id) in
  let reg := reg ||| wrap 64 (timers_minus_one <<< 8) in
  let reg := if c.(HpetCapabilities.counter_size_64) then reg ||| (1 <<< 13) else reg in
  let reg := if c.(HpetCapabilities.legacy_route_capable) then reg ||| (1 <<< 15) else reg in
  let reg := reg ||| (c.(HpetCapabilities.vendor_id) <<< 16) in
  reg ||| (c.(HpetCapabilities.counter_clk_period_fs) <<< 32).

Definition read_aligned_u64 (h : t) (offset : Z) : Z :=
  if offset =? REG_GENERAL_CAP_ID then capabilities_reg h
  else if offset =? REG_GENERAL_CONFIG then h.(general_config)
  else if offset =? REG_GENERAL_INT_STATUS then h.(general_int_status)
  else if offset =? REG_MAIN_COUNTER then h.(main_counter)
  else if REG_TIMER0_BASE <=? offset then
    let timer_idx := (offset - REG_TIMER0_BASE) / TIMER_STRIDE in
    let reg := (offset - REG_TIMER0_BASE) mod TIMER_STRIDE in
    match h.(timers) !! Z.to_nat timer_idx with
    | None => 0
    | Some timer =>
        if reg =? REG_TIMER_CONFIG then full_config timer
        else if reg =? REG_TIMER_COMPARATOR then timer.(comparator)
        else if reg =? REG_TIMER_FSB_ROUTE then timer.(fsb_route)
        else 0
    end
  else 0.

(** [(old & !write_mask) | (value & write_mask)] *)
Definition merge (old value write_mask : Z) : Z := (old &&& unot 64 write_mask) ||| (value &&& write_mask).

(** *** General configuration *)
Definition release_timer (before_legacy : bool) : timer_step := fun idx status timer =>
  if negb timer.(irq_asserted) then (status, timer, [])
  else
    (status, with_irq_asserted false timer,
     [LowerGsi (apply_legacy_replacement_route before_legacy idx (route timer))]).

Definition move_timer (before_legacy after_legacy : bool) : timer_step := fun idx status timer =>
  if negb timer.(irq_asserted) then (status, timer, [])
  else
    let before_gsi := apply_legacy_replacement_route before_legacy idx (route timer) in
    let after_gsi := apply_legacy_replacement_route after_legacy idx (route timer) in
    (status, timer, if negb (before_gsi =? after_gsi) then [LowerGsi before_gsi; RaiseGsi after_gsi] else []).

Definition extend_deadline (main_counter : Z) (timer : HpetTimer.t) : HpetTimer.t :=
  if timer.(armed) then with_deadline (comparator_deadline timer main_counter) timer else timer.

Definition write_general_config (h : t) (value write_mask : Z) : t * list GsiCall :=
  let before := h.(general_config) in
  let before_legacy := nz (before &&& GEN_CONF_LEGACY_ROUTE) in
  let new := merge before value write_mask &&& (GEN_CONF_ENABLE ||| GEN_CONF_LEGACY_ROUTE) in
  let was_enabled := nz (before &&& GEN_CONF_ENABLE) in
  let now_enabled := nz (new &&& GEN_CONF_ENABLE) in
  let after_legacy := nz (new &&& GEN_CONF_LEGACY_ROUTE) in
  let legacy_changed := negb (eqb before_legacy after_legacy) in
  let h := with_general_config new h in
  let h :=
    if negb was_enabled && now_enabled then
      with_timers (map (extend_deadline h.(main_counter)) h.(timers))
        (with_remainder_fs 0 (with_last_update_ns h.(clock) h))
    else h in
  if was_enabled && negb now_enabled then on_timers (release_timer before_legacy) h
  else if legacy_changed then on_timers (move_timer before_legacy after_legacy) h
  else (h, []).

(** *** Interrupt status *)
Definition ack_timer (legacy : bool) (cleared : Z) : timer_step := fun idx status timer =>
  if negb (nz (cleared &&& status_bit idx)) then (status, timer, [])
  else if is_level_triggered timer && timer.(irq_asserted) then
    (status, with_irq_asserted false timer, [LowerGsi (apply_legacy_replacement_route legacy idx (route timer))])
  else (status, timer, []).

Definition write_int_status (h : t) (value write_mask : Z) : t * list GsiCall :=
  let clear := value &&& write_mask in
  let before := h.(general_int_status) in
  let h := with_general_int_status (before &&& unot 64 clear) h in
  let cleared := before &&& clear in
  on_timers (ack_timer (legacy h) cleared) h.

(** *** Timer registers *)
Definition write_timer_config (legacy : bool) (main_counter value write_mask : Z) (timer_idx : nat)
    (timer : HpetTimer.t) : HpetTimer.t * list GsiCall :=
  let before := timer.(config) in
  let before_gsi := apply_legacy_replacement_route legacy timer_idx (route timer) in
  let new := merge before value write_mask &&& TIMER_WRITABLE_MASK &&& unot 64 TIMER_CFG_FSB_ENABLE in
  let timer := with_config ((timer.(config) &&& unot 64 TIMER_WRITABLE_MASK) ||| new) timer in
  let after_gsi := apply_legacy_replacement_route legacy timer_idx (route timer) in
  let before_int := nz (before &&& TIMER_CFG_INT_ENABLE) in
  let after_int := nz (timer.(config) &&& TIMER_CFG_INT_ENABLE) in
  let before_level := nz (before &&& TIMER_CFG_INT_LEVEL) in
  let after_level := is_level_triggered timer in
  let timer :=
    if is_32bit timer
    then with_period (timer.(period) &&& U32_MAX) (with_comparator (timer.(comparator) &&& U32_MAX) timer)
    else timer in
  let timer := extend_deadline main_counter timer in
  let '(timer, calls) :=
    if timer.(irq_asserted) then
      if (before_int && negb after_int) || (before_level && negb after_level)
      then (with_irq_asserted false timer, [LowerGsi before_gsi])
      else if negb (before_gsi =? after_gsi) then
        if after_level then (timer, [LowerGsi before_gsi; RaiseGsi after_gsi])
        else (with_irq_asserted false timer, [LowerGsi before_gsi])
      else (timer, [])
    else (timer, []) in
  (if nz (timer.(config) &&& TIMER_CFG_PERIODIC) then timer else with_period 0 timer, calls).

Definition write_timer_comparator (main_counter value write_mask : Z) (timer : HpetTimer.t) : HpetTimer.t :=
  let effective_write_mask := if is_32bit timer then write_mask &&& U32_MAX else write_mask in
  let new_value := merge timer.(comparator) value effective_write_mask in
  let timer :=
    if is_periodic timer then
      if nz (timer.(config) &&& TIMER_CFG_SETVAL) || (timer.(period) =? 0) then
        let timer := with_period new_value timer in
        let timer := with_deadline (wrapping_add 64 main_counter timer.(period)) timer in
        let timer := with_comparator (comparator_of timer timer.(deadline)) timer in
        with_config (timer.(config) &&& unot 64 TIMER_CFG_SETVAL) timer
      else
        let timer := with_comparator new_value timer in
        with_deadline (comparator_deadline timer main_counter) timer
    else
      let timer := with_comparator new_value (with_period 0 timer) in
      with_deadline (comparator_deadline timer main_counter) timer in
  with_armed true timer.

Definition write_timer_register (legacy : bool) (main_counter : Z) (timer_idx : nat)
    (reg value write_mask : Z) (timer : HpetTimer.t) : HpetTimer.t * list GsiCall :=
  if reg =? REG_TIMER_CONFIG then write_timer_config legacy main_counter value write_mask timer_idx timer
  else if reg =? REG_TIMER_COMPARATOR then (write_timer_comparator main_counter value write_mask timer, [])
  else if reg =? REG_TIMER_FSB_ROUTE then (with_fsb_route (merge timer.(fsb_route) value write_mask) timer, [])
  else (timer, []).

Definition write_aligned_u64 (h : t) (offset value write_mask : Z) : t * list GsiCall :=
  if offset =? REG_GENERAL_CONFIG then write_general_config h value write_mask
  else if offset =? REG_GENERAL_INT_STATUS then write_int_status h value write_mask
  else if offset =? REG_MAIN_COUNTER then
    let new := merge h.(main_counter) value write_mask in
    (with_remainder_fs 0 (with_last_update_ns h.(clock) (with_main_counter new h)), [])
  else if REG_TIMER0_BASE <=? offset then
    let timer_idx := Z.to_nat ((offset - REG_TIMER0_BASE) / TIMER_STRIDE) in
    let reg := (offset - REG_TIMER0_BASE) mod TIMER_STRIDE in
    match h.(timers) !! timer_idx with
    | None => (h, [])
    | Some timer =>
        let '(timer, calls) :=
          write_timer_register (legacy h) h.(main_counter) timer_idx reg value write_mask timer in
        (with_timers (<[timer_idx := timer]> h.(timers)) h, calls)
    end
  else (h, []).

(** The assertions on offset and size; [None] is the panic. *)
Definition access_ok (offset : Z) (size : nat) : bool :=
  existsb (Nat.eqb size) [1; 2; 4; 8]%nat && (offset <? HPET_MMIO_SIZE)
  && (negb (size =? 8)%nat || (offset &&& 7 =? 0)).
Definition access_mask (size : nat) : Z :=
  if (size =? 8)%nat then 2 ^ 64 - 1 else (1 <<< (Z.of_nat size * 8)) - 1.

Definition mmio_read (h : t) (offset : Z) (size : nat) : option (Z * t * list GsiCall) :=
  if access_ok offset size then
    let '(h, calls) := poll h in
    let aligned := offset &&& unot 64 7 in
    let shift := (offset - aligned) * 8 in
    let reg := read_aligned_u64 h aligned in
    Some ((reg >>> shift) &&& access_mask size, h, calls)
  else None.

Definition mmio_write (h : t) (offset : Z) (size : nat) (value : Z) : option (t * list GsiCall) :=
  if access_ok offset size then
    let '(h, calls) := poll h in
    let aligned := offset &&& unot 64 7 in
    let shift := (offset - aligned) * 8 in
    let mask := access_mask size in
    let write_value := wrap 64 ((value &&& mask) <<< shift) in
    let write_mask := wrap 64 (mask <<< shift) in
    let '(h, calls1) := write_aligned_u64 h aligned write_value write_mask in
    let '(h, calls2) := service_timers h in
    Some (h, calls ++ calls1 ++ calls2)
  else None.
End Hpet.

(** ** The MMIO adapter *)
Module HpetMmio.
Record t {S : Type} := mk { hpet : Hpet.t; sink : S }.
Arguments t : clear implicits.
Arguments mk {S}.

Section Ops.
Context {S : Type} `{GsiSink S}.

Definition valid_size (size : nat) : bool := existsb (Nat.eqb size) [1; 2; 4; 8]%nat.

Definition read (m : t S) (offset : Z) (size : nat) : option (Z * t S) :=
  if negb (valid_size size) then Some (0, m)
  else
    match Hpet.mmio_read m.(hpet) offset size with
    | None => None
    | Some (v, h, calls) => option_map (fun s => (v, mk h s)) (drive calls m.(sink))
    end.

Definition write (m : t S) (offset : Z) (size : nat) (value : Z) : option (t S) :=
  if negb (valid_size size) then Some m
  else
    match Hpet.mmio_write m.(hpet) offset size value with
    | None => None
    | Some (h, calls) => option_map (mk h) (drive calls m.(sink))
    end.
End Ops.
End HpetMmio.

(** ** Snapshot *)
Module HpetSnapshot.
Import HpetTimer Hpet.
Abbreviation TAG_GENERAL_CONFIG := (1) (only parsing).
Abbreviation TAG_GENERAL_INT_STATUS := (2) (only parsing).
Abbreviation TAG_MAIN_COUNTER := (3) (only parsing).
Abbreviation TAG_REMAINDER_FS := (4) (only parsing).
Abbreviation TAG_TIMERS := (5) (only parsing).
(** [*b"HPET"] *)
Abbreviation DEVICE_ID := ([0x48; 0x50; 0x45; 0x54]) (only parsing).
Abbreviation DEVICE_VERSION := (SnapshotVersion.new 1 0) (only parsing).
Abbreviation MAX_SNAPSHOT_TIMERS := (32) (only parsing).

Section Codec.
Context `{Target}.

Definition encode_timer (enc : Encoder.t) (x : HpetTimer.t) : Encoder.t :=
  Encoder.bool x.(armed)
  (Encoder.u64 x.(fsb_route)
  (Encoder.u64 x.(period)
  (Encoder.u64 x.(comparator)
  (Encoder.u64 x.(config) enc)))).

Definition save_state (h : Hpet.t) : list Z :=
  let w := SnapshotWriter.new DEVICE_ID DEVICE_VERSION in
  let w := SnapshotWriter.field_u64 w TAG_GENERAL_CONFIG h.(general_config) in
  let w := SnapshotWriter.field_u64 w TAG_GENERAL_INT_STATUS h.(general_int_status) in
  let w := SnapshotWriter.field_u64 w TAG_MAIN_COUNTER h.(main_counter) in
  let w := SnapshotWriter.field_u64 w TAG_REMAINDER_FS h.(remainder_fs) in
  let enc := Encoder.u32 (wrap 32 (Z.of_nat (length h.(timers)))) Encoder.new in
  let enc := fold_left encode_timer h.(timers) enc in
  let w := SnapshotWriter.field_bytes w TAG_TIMERS (Encoder.finish enc) in
  SnapshotWriter.finish w.

(** A saved timer put into a cleared one. *)
Definition restore_timer (main_counter config comparator period fsb_route : Z) (armed : bool)
    (x : HpetTimer.t) : HpetTimer.t :=
  let x := with_config (config &&& TIMER_WRITABLE_MASK &&& unot 64 TIMER_CFG_FSB_ENABLE) x in
  let x := with_comparator (comparator_of x comparator) x in
  let x := with_deadline (comparator_deadline x main_counter) x in
  let x := with_period (if is_periodic x then period else 0) x in
  with_irq_asserted false (with_armed armed (with_fsb_route fsb_route x)).

Fixpoint decode_timers (n idx : nat) (main_counter : Z) (timers : list HpetTimer.t) :
    st Decoder.t SnapshotError (list HpetTimer.t) :=
  match n with
  | O => st_ret timers
  | S n =>
      let! config := Decoder.u64 in
      let! comparator := Decoder.u64 in
      let! period := Decoder.u64 in
      let! fsb_route := Decoder.u64 in
      let! armed := Decoder.bool in
      decode_timers n (S idx) main_counter
        (alter (restore_timer main_counter config comparator period fsb_route armed) idx timers)
  end.

Definition load_timers (r : SnapshotReader.t) (main_counter : Z) (timers : list HpetTimer.t) :
    SnapshotResult (list HpetTimer.t) :=
  match SnapshotReader.bytes r TAG_TIMERS with
  | None => Ok timers
  | Some buf =>
      fst ((let! count := Decoder.u32 in
            if MAX_SNAPSHOT_TIMERS <? count then st_err (InvalidFieldEncoding "timers")
            else
              let! timers := decode_timers (Z.to_nat count) 0 main_counter timers in
              let! _ := (fun d => (Decoder.finish d, d)) in
              st_ret timers) (Decoder.new buf))
  end.

(** All fields are decoded before the device changes. *)
Definition load_state (bytes : list Z) (h : Hpet.t) : SnapshotResult unit * Hpet.t :=
  match
    (let? r := SnapshotReader.parse bytes DEVICE_ID in
     let? _ := SnapshotReader.ensure_device_major r (DEVICE_VERSION).(SnapshotVersion.major) in
     let? gc := SnapshotReader.u64 r TAG_GENERAL_CONFIG in
     let? gs := SnapshotReader.u64 r TAG_GENERAL_INT_STATUS in
     let? mc := SnapshotReader.u64 r TAG_MAIN_COUNTER in
     let? rf := SnapshotReader.u64 r TAG_REMAINDER_FS in
     let general_config := default 0 gc &&& (GEN_CONF_ENABLE ||| GEN_CONF_LEGACY_ROUTE) in
     let main_counter := default 0 mc in
     let? timers := load_timers r main_counter (map HpetTimer.clear h.(timers)) in
     Ok (Hpet.mk h.(clock) h.(caps) general_config (default 0 gs) main_counter h.(clock) (default 0 rf) timers))
  with
  | Ok h' => (Ok tt, h')
  | Err e => (Err e, h)
  end.

Definition io_snapshot : IoSnapshot Hpet.t := {|
  Snapshot.DEVICE_ID := DEVICE_ID;
  Snapshot.DEVICE_VERSION := DEVICE_VERSION;
  Snapshot.save_state := save_state;
  Snapshot.load_state := load_state;
|}.
End Codec.
End HpetSnapshot.
