(* ===== verification/HpetFacts.v ===== *)
(** * Facts about the event timer: interrupt lines and the status register *)

From S2P Require Import Prelude Bytes Collections PicFacts Hpet.
Import HpetTimer Hpet.
Abbreviation timer := HpetTimer.t.

(** ** Calls on the sink *)
Definition count_call (g : Z) (c : GsiCall) : Z :=
  match c with
  | RaiseGsi g' => if g' =? g then 1 else 0
  | LowerGsi g' => if g' =? g then -1 else 0
  end.
(** Raises less lowers of a line. *)
Definition net (calls : list GsiCall) (g : Z) : Z := sumZ (count_call g) calls.

(** Made when [f] assertions of each line are held, no call lowers a line that
    is not; line numbers are not negative. *)
Fixpoint held (f : Z -> Z) (calls : list GsiCall) : Prop :=
  match calls with
  | [] => True
  | c :: calls =>
      match c with LowerGsi g => 0 <= g /\ 0 < f g | RaiseGsi g => 0 <= g end /\
      held (fun g => f g + count_call g c) calls
  end.

Lemma sumZ_app {A} (f : A -> Z) l1 l2 : sumZ f (l1 ++ l2) = sumZ f l1 + sumZ f l2.
Proof. induction l1 as [|x l1 IH]; simpl; [done|]. rewrite IH. lia. Qed.

Lemma net_app c1 c2 g : net (c1 ++ c2) g = net c1 g + net c2 g.
Proof. apply sumZ_app. Qed.

Lemma held_mono f f' calls : (forall g, f g <= f' g) -> held f calls -> held f' calls.
Proof.
  revert f f'. induction calls as [|c calls IH]; intros f f' Hle; [done|]. intros [Hc Hr]. split.
  - destruct c as [g|g]; [done|]. specialize (Hle g). lia.
  - eapply IH; [|exact Hr]. intros g. cbv beta. specialize (Hle g). lia.
Qed.

Lemma held_app f c1 c2 : held f (c1 ++ c2) <-> held f c1 /\ held (fun g => f g + net c1 g) c2.
Proof.
  revert f. induction c1 as [|c c1 IH]; intros f.
  - split; [intros Hh; split; [done|]|intros [_ Hh]]; (eapply held_mono; [|exact Hh]); intros g; unfold net; simpl; lia.
  - cbn [app held]. rewrite IH.
    split; [intros (H1 & H2 & H3)|intros ((H1 & H2) & H3)]; split_and!; try done;
      (eapply held_mono; [|exact H3]); intros g; unfold net; simpl; lia.
Qed.

(** ** What the timers hold *)
Definition gsi_of (l : bool) (idx : nat) (x : timer) : Z := apply_legacy_replacement_route l idx (route x).
Definition pull (l : bool) (idx : nat) (x : timer) (g : Z) : Z :=
  if x.(irq_asserted) && (gsi_of l idx x =? g) then 1 else 0.
Fixpoint pulls (l : bool) (idx : nat) (xs : list timer) (g : Z) : Z :=
  match xs with [] => 0 | x :: xs => pull l idx x g + pulls l (S idx) xs g end.
Definition holds (h : Hpet.t) (g : Z) : Z := pulls (legacy h) 0 h.(timers) g.

Lemma route_nonneg x : 0 <= route x.
Proof. unfold route. apply Z.shiftr_nonneg. apply Z.land_nonneg. by right. Qed.

Lemma gsi_of_nonneg l idx x : 0 <= gsi_of l idx x.
Proof.
  unfold gsi_of, apply_legacy_replacement_route. pose proof (route_nonneg x).
  destruct l; simpl; [|done]. by destruct idx as [|[|]].
Qed.

Lemma pull_range l idx x g : 0 <= pull l idx x g <= 1.
Proof. unfold pull. case_if; lia. Qed.

Lemma pulls_nonneg l xs g : forall idx, 0 <= pulls l idx xs g.
Proof.
  induction xs as [|x xs IH]; intros idx; simpl; [lia|]. pose proof (pull_range l idx x g). specialize (IH (S idx)). lia.
Qed.

Lemma pulls_app l xs1 xs2 g : forall idx, pulls l idx (xs1 ++ xs2) g = pulls l idx xs1 g + pulls l (idx + length xs1) xs2 g.
Proof.
  induction xs1 as [|x xs1 IH]; intros idx; simpl; [by rewrite Nat.add_0_r|]. rewrite IH.
  replace (S idx + length xs1)%nat with (idx + S (length xs1))%nat by lia. lia.
Qed.

Lemma pulls_insert l xs i x y g :
  xs !! i = Some x -> pulls l 0 (<[i := y]> xs) g = pulls l 0 xs g - pull l i x g + pull l i y g.
Proof.
  intros Hi. pose proof (lookup_lt_Some _ _ _ Hi) as Hlt. rewrite insert_take_drop by done.
  rewrite <- (take_drop_middle xs i x Hi) at 3.
  rewrite !pulls_app, length_take. simpl. replace (i `min` length xs)%nat with i by lia. lia.
Qed.

Lemma pulls_ext l l' xs xs' g : forall idx,
  Forall2 (fun x y => y.(irq_asserted) = x.(irq_asserted) /\ route y = route x) xs xs' -> l = l' ->
  pulls l' idx xs' g = pulls l idx xs g.
Proof.
  intros idx Hall ->. revert idx. induction Hall as [|x y xs ys [Ha Hr] _ IH]; intros idx; [done|]. simpl.
  rewrite IH. unfold pull, gsi_of. by rewrite Ha, Hr.
Qed.

(** ** Steps of the timers *)
(** The calls are exactly the changes of what the timer holds. *)
Definition accounted (before after : Z -> Z) (calls : list GsiCall) : Prop :=
  held before calls /\ forall g, net calls g = after g - before g.

Definition step_accounted (l l' : bool) (step : timer_step) : Prop :=
  forall idx status x,
    let '(_, x', calls) := step idx status x in accounted (pull l idx x) (pull l' idx x') calls.

Lemma accounted_app f1 f2 f3 c1 c2 : accounted f1 f2 c1 -> accounted f2 f3 c2 -> accounted f1 f3 (c1 ++ c2).
Proof.
  intros [Hh1 Hn1] [Hh2 Hn2]. split.
  - apply held_app. split; [done|]. eapply held_mono; [|exact Hh2]. intros g. cbv beta. specialize (Hn1 g). lia.
  - intros g. rewrite net_app, Hn1, Hn2. lia.
Qed.

(** The other timers hold their lines meanwhile. *)
Lemma accounted_frame f f' k calls :
  (forall g, 0 <= k g) -> accounted f f' calls -> accounted (fun g => f g + k g) (fun g => f' g + k g) calls.
Proof.
  intros Hk [Hh Hn]. split; [eapply held_mono; [|exact Hh]; intros g; cbv beta; specialize (Hk g); lia|].
  intros g. rewrite Hn. lia.
Qed.

Lemma accounted_ext f1 f2 f1' f2' calls :
  (forall g, f1 g = f1' g) -> (forall g, f2 g = f2' g) -> accounted f1 f2 calls -> accounted f1' f2' calls.
Proof.
  intros E1 E2 [Hh Hn]. split; [eapply held_mono; [|exact Hh]; intros g; rewrite E1; lia|].
  intros g. by rewrite Hn, E1, E2.
Qed.

Lemma for_timers_accounted l l' step xs : step_accounted l l' step ->
  forall idx status,
    let '(_, xs', calls) := for_timers step idx status xs in accounted (pulls l idx xs) (pulls l' idx xs') calls.
Proof.
  intros Hs. induction xs as [|x xs IH]; intros idx status; [split; done|]. cbn [for_timers].
  specialize (Hs idx status x). destruct (step idx status x) as [[status1 x'] c1].
  specialize (IH (S idx) status1). destruct (for_timers step (S idx) status1 xs) as [[status2 xs'] c2].
  apply (accounted_app _ (fun g => pull l' idx x' g + pulls l (S idx) xs g)).
  - apply (accounted_frame _ _ (pulls l (S idx) xs)) in Hs; [done|]. intros g. apply pulls_nonneg.
  - apply (accounted_frame _ _ (pull l' idx x')) in IH; [|intros g; apply pull_range].
    eapply accounted_ext; [..|exact IH]; intros g; simpl; lia.
Qed.

Lemma on_timers_accounted l l' step h :
  step_accounted l l' step ->
  accounted (pulls l 0 h.(timers)) (pulls l' 0 (on_timers step h).1.(timers)) (on_timers step h).2.
Proof.
  intros Hs. unfold on_timers. pose proof (for_timers_accounted l l' step h.(timers) Hs 0 h.(general_int_status)) as Hf.
  by destruct (for_timers _ _ _ _) as [[status xs] calls].
Qed.

(** *** One call, or two *)
Lemma accounted_none f f' : (forall g, f' g = f g) -> accounted f f' [].
Proof. intros He. split; [done|]. intros g. rewrite He. unfold net. simpl. lia. Qed.

Lemma accounted_raise l l' idx x x' :
  x.(irq_asserted) = false -> x'.(irq_asserted) = true ->
  accounted (pull l idx x) (pull l' idx x') [RaiseGsi (gsi_of l' idx x')].
Proof.
  intros H1 H2. split; [split; [apply gsi_of_nonneg|done]|]. intros g. unfold net, pull. rewrite H1, H2.
  simpl. case_if; lia.
Qed.

Lemma accounted_lower l l' idx x x' :
  x.(irq_asserted) = true -> x'.(irq_asserted) = false ->
  accounted (pull l idx x) (pull l' idx x') [LowerGsi (gsi_of l idx x)].
Proof.
  intros H1 H2. split.
  - split; [|done]. split; [apply gsi_of_nonneg|]. unfold pull. rewrite H1, Z.eqb_refl. done.
  - intros g. unfold net, pull. rewrite H1, H2. simpl. case_if; lia.
Qed.

Lemma accounted_move l l' idx x x' :
  x.(irq_asserted) = true -> x'.(irq_asserted) = true ->
  accounted (pull l idx x) (pull l' idx x') [LowerGsi (gsi_of l idx x); RaiseGsi (gsi_of l' idx x')].
Proof.
  intros H1 H2. split.
  - split; [split; [apply gsi_of_nonneg|]|split; [apply gsi_of_nonneg|done]].
    unfold pull. rewrite H1, Z.eqb_refl. done.
  - intros g. unfold net, pull. rewrite H1, H2. simpl. repeat case_if; lia.
Qed.

Lemma accounted_pulse f f' g : 0 <= g -> (forall x, 0 <= f x) -> (forall x, f' x = f x) -> accounted f f' (pulse_gsi g).
Proof.
  intros Hg Hf He. split.
  - split; [done|]. split; [|done]. split; [done|]. simpl. rewrite Z.eqb_refl. specialize (Hf g). lia.
  - intros x. rewrite He. unfold net. simpl. case_if; lia.
Qed.

(** The fields the lines depend on. *)
Definition same_line (x y : timer) : Prop := y.(irq_asserted) = x.(irq_asserted) /\ route y = route x.

Lemma pull_same l idx x y g : same_line x y -> pull l idx y g = pull l idx x g.
Proof. intros [Ha Hr]. unfold pull, gsi_of. by rewrite Ha, Hr. Qed.

Lemma rearm_same mc x : same_line x (rearm mc x).
Proof. unfold rearm. by case_if. Qed.
Lemma extend_same mc x : same_line x (extend_deadline mc x).
Proof. unfold extend_deadline. by case_if. Qed.

Lemma follow_accounted l idx pending x :
  let '(x', calls) := follow_status (gsi_of l idx x) pending x in
  accounted (pull l idx x) (pull l idx x') calls /\ x'.(irq_asserted) = pending /\
  x'.(config) = x.(config).
Proof.
  unfold follow_status. destruct pending, x.(irq_asserted) eqn:E; (split; [|by rewrite ?E]).
  - by apply accounted_none.
  - by apply (accounted_raise l l idx x (with_irq_asserted true x)).
  - by apply accounted_lower.
  - by apply accounted_none.
Qed.

(** *** The steps of the operations *)
Lemma service_accounted l mc : step_accounted l l (service_timer l mc).
Proof.
  intros idx status x. unfold service_timer. fold (gsi_of l idx x).
  set (pending := nz (status &&& status_bit idx)).
  assert (exists x1 c1, (if is_level_triggered x && int_enabled x then follow_status (gsi_of l idx x) pending x
      else (x, [])) = (x1, c1) /\ accounted (pull l idx x) (pull l idx x1) c1 /\ x1.(config) = x.(config))
    as (x1 & c1 & -> & Hacc & Hcfg).
  { case_if; [|exists x, []; split_and!; try done; by apply accounted_none].
    pose proof (follow_accounted l idx pending x) as Hf. destruct (follow_status _ _ _) as [x1 c1].
    exists x1, c1. split; [done|]. by destruct Hf as (? & _ & ?). }
  assert (gsi_of l idx x = gsi_of l idx x1) as Hgsi by (unfold gsi_of, route; by rewrite Hcfg).
  case_if; [done|]. case_if; [done|]. case_if; [done|]. rewrite Hgsi.
  destruct (is_level_triggered x1).
  - destruct (x1.(irq_asserted)) eqn:Ha; simpl.
    + apply (accounted_app _ (pull l idx x1)); [done|]. apply accounted_none. intros g. apply pull_same, rearm_same.
    + apply (accounted_app _ (pull l idx x1)); [done|].
      pose proof (accounted_raise l l idx x1 (rearm mc (with_irq_asserted true x1)) Ha) as Hr.
      destruct (rearm_same mc (with_irq_asserted true x1)) as [Hra Hrr].
      unfold gsi_of in *. rewrite Hrr in Hr. by apply Hr.
  - simpl. apply (accounted_app _ (pull l idx x1)); [done|].
    apply accounted_pulse; [apply gsi_of_nonneg|intros g; apply pull_range|]. intros g. apply pull_same, rearm_same.
Qed.

Lemma sync_accounted l e : step_accounted l l (sync_timer l e).
Proof.
  intros idx status x. unfold sync_timer. fold (gsi_of l idx x). case_if.
  - destruct (x.(irq_asserted)) eqn:Ha; [by apply accounted_lower|].
    apply accounted_none. intros g. unfold pull. simpl. by rewrite Ha.
  - pose proof (follow_accounted l idx (e && nz (status &&& status_bit idx)) x) as Hf.
    destruct (follow_status _ _ _). apply Hf.
Qed.

Lemma release_accounted l l' : step_accounted l l' (release_timer l).
Proof.
  intros idx status x. unfold release_timer. fold (gsi_of l idx x). destruct (x.(irq_asserted)) eqn:Ha; simpl.
  - by apply accounted_lower.
  - apply accounted_none. intros g. unfold pull. by rewrite Ha.
Qed.

Lemma move_accounted l l' : step_accounted l l' (move_timer l l').
Proof.
  intros idx status x. unfold move_timer. fold (gsi_of l idx x) (gsi_of l' idx x).
  destruct (x.(irq_asserted)) eqn:Ha; simpl.
  - destruct (Z.eqb_spec (gsi_of l idx x) (gsi_of l' idx x)) as [E|E]; simpl; [|by apply accounted_move].
    apply accounted_none. intros g. unfold pull. by rewrite E.
  - apply accounted_none. intros g. unfold pull. by rewrite Ha.
Qed.

Lemma ack_accounted l cleared : step_accounted l l (ack_timer l cleared).
Proof.
  intros idx status x. unfold ack_timer. fold (gsi_of l idx x). case_if; [by apply accounted_none|].
  case_if; [|by apply accounted_none]. bool_hyps. by apply accounted_lower.
Qed.

Lemma config_write_accounted l mc v m idx x :
  let '(x', calls) := write_timer_config l mc v m idx x in accounted (pull l idx x) (pull l idx x') calls.
Proof.
  unfold write_timer_config. set (new := merge _ _ _ &&& _ &&& _).
  set (x1 := with_config _ x). set (x2 := if is_32bit x1 then _ else x1). fold (gsi_of l idx x) (gsi_of l idx x1).
  assert (same_line x1 (extend_deadline mc x2)) as Hs.
  { destruct (extend_same mc x2) as [Ha Hr]. split; [rewrite Ha|rewrite Hr]; unfold x2; by case_if. }
  set (x3 := extend_deadline mc x2) in *. destruct Hs as [Ha Hr].
  assert (x3.(irq_asserted) = x.(irq_asserted)) as Hax by (by rewrite Ha).
  assert (gsi_of l idx x1 = gsi_of l idx x3) as Hg by (unfold gsi_of; by rewrite Hr).
  assert (forall y : timer, same_line y (if nz (y.(config) &&& TIMER_CFG_PERIODIC) then y else with_period 0 y)) as Hp
    by (intros y; by case_if).
  assert (forall y calls, accounted (pull l idx x) (pull l idx y) calls ->
    accounted (pull l idx x) (pull l idx (if nz (y.(config) &&& TIMER_CFG_PERIODIC) then y else with_period 0 y)) calls)
    as Hfin.
  { intros y calls. apply accounted_ext; [done|]. intros g. symmetry. apply pull_same, Hp. }
  rewrite Hg. destruct (x3.(irq_asserted)) eqn:E3.
  - case_if; [apply Hfin; by apply accounted_lower|].
    destruct (Z.eqb_spec (gsi_of l idx x) (gsi_of l idx x3)) as [E|E]; simpl.
    + apply Hfin, accounted_none. intros g. unfold pull. by rewrite E, E3, <- Hax.
    + case_if; apply Hfin; [by apply accounted_move|by apply accounted_lower].
  - apply Hfin, accounted_none. intros g. unfold pull. by rewrite E3, <- Hax.
Qed.

(** The bits of a timer's configuration that decide its line. *)
Lemma config_bits c m k : m &&& k = 0 -> 0 <= k < 2 ^ 64 -> (c &&& unot 64 m) &&& k = c &&& k.
Proof.
  intros Hm Hk. rewrite <- Z.land_assoc. f_equal. rewrite Z.land_comm, land_unot by (try lia; done).
  apply Z.bits_inj'. intros i Hi. rewrite Z.ldiff_spec.
  assert (Z.testbit (m &&& k) i = false) as Hb by (by rewrite Hm, Z.bits_0).
  rewrite Z.land_spec in Hb. by destruct (Z.testbit m i), (Z.testbit k i).
Qed.

Lemma comparator_write_same mc v m x :
  same_line x (write_timer_comparator mc v m x) /\
  is_level_triggered (write_timer_comparator mc v m x) = is_level_triggered x /\
  int_enabled (write_timer_comparator mc v m x) = int_enabled x.
Proof.
  unfold write_timer_comparator, same_line. cbv zeta. destruct (is_periodic x); [case_if|]; try done.
  unfold route, is_level_triggered, int_enabled. cbn [with_armed with_config with_comparator with_deadline with_period
    config irq_asserted]. by rewrite !config_bits by done.
Qed.

(** ** The operations account for their calls *)
Definition op_accounted (h : Hpet.t) (r : Hpet.t * list GsiCall) : Prop := accounted (holds h) (holds r.1) r.2.

Lemma on_timers_legacy step h : legacy (on_timers step h).1 = legacy h.
Proof. unfold on_timers. by destruct (for_timers _ _ _ _) as [[]]. Qed.

Lemma on_timers_op step h : step_accounted (legacy h) (legacy h) step -> op_accounted h (on_timers step h).
Proof.
  intros Hs. unfold op_accounted, holds. rewrite on_timers_legacy. by apply on_timers_accounted.
Qed.

Lemma update_same h : legacy (update_main_counter h) = legacy h /\ enabled (update_main_counter h) = enabled h /\
  (update_main_counter h).(timers) = h.(timers) /\
  (update_main_counter h).(general_int_status) = h.(general_int_status).
Proof. unfold update_main_counter. case_if; [done|]. by case_if. Qed.

Lemma service_op h : op_accounted h (service_timers h).
Proof.
  unfold service_timers. case_if; [by apply accounted_none|]. apply on_timers_op, service_accounted.
Qed.

Lemma poll_op h : op_accounted h (poll h).
Proof.
  unfold poll. pose proof (service_op (update_main_counter h)) as Hs. unfold op_accounted in *.
  destruct (update_same h) as (Hl & _ & Ht & _). eapply accounted_ext; [| |exact Hs]; [|done].
  intros g. unfold holds. by rewrite Hl, Ht.
Qed.

Lemma sync_op h : op_accounted h (sync_levels_to_sink h).
Proof. apply on_timers_op, sync_accounted. Qed.

Lemma general_config_op h v m : op_accounted h (write_general_config h v m).
Proof.
  unfold write_general_config. set (new := merge _ _ _ &&& _). set (h1 := with_general_config new h).
  fold (legacy h). fold (enabled h). change (nz (new &&& GEN_CONF_ENABLE)) with (enabled h1).
  change (nz (new &&& GEN_CONF_LEGACY_ROUTE)) with (legacy h1).
  set (h2 := if negb (enabled h) && enabled h1 then _ else h1).
  assert (forall l g, pulls l 0 h2.(timers) g = pulls l 0 h.(timers) g) as Hp.
  { intros l g. unfold h2. case_if; [|done]. simpl. apply (pulls_ext l l); [|done].
    apply Forall2_fmap_r, Forall_Forall2_diag, Forall_true. intros x. apply extend_same. }
  assert (legacy h2 = legacy h1) as Hl by (unfold h2; by case_if).
  unfold op_accounted. case_if; [|case_if].
  - unfold holds. rewrite on_timers_legacy. eapply accounted_ext; [| |apply on_timers_accounted, release_accounted].
    + intros g. apply Hp.
    + done.
  - unfold holds. rewrite on_timers_legacy, Hl. eapply accounted_ext; [| |apply on_timers_accounted, move_accounted].
    + intros g. apply Hp.
    + done.
  - apply accounted_none. intros g. unfold holds. simpl. rewrite Hp, Hl. f_equal.
    apply negb_false_iff, eqb_prop in Heqb0. done.
Qed.

Lemma int_status_op h v m : op_accounted h (write_int_status h v m).
Proof.
  unfold write_int_status. set (h1 := with_general_int_status _ h).
  pose proof (on_timers_op (ack_timer (legacy h1) (h.(general_int_status) &&& (v &&& m))) h1) as Ho.
  apply Ho, ack_accounted.
Qed.

Lemma write_op h off v m : op_accounted h (write_aligned_u64 h off v m).
Proof.
  unfold write_aligned_u64. case_if; [apply general_config_op|]. case_if; [apply int_status_op|].
  case_if; [by apply accounted_none|]. case_if; [|by apply accounted_none].
  set (idx := Z.to_nat _). destruct (h.(timers) !! idx) as [x|] eqn:Hx; [|by apply accounted_none].
  assert (let '(x', calls) := write_timer_register (legacy h) h.(main_counter) idx
    ((off - REG_TIMER0_BASE) mod TIMER_STRIDE) v m x in
    accounted (pull (legacy h) idx x) (pull (legacy h) idx x') calls) as Ha.
  { unfold write_timer_register. case_if; [apply config_write_accounted|]. case_if.
    - apply accounted_none. intros g. apply pull_same, comparator_write_same.
    - case_if; by apply accounted_none. }
  destruct (write_timer_register _ _ _ _ _ _ _) as [x' calls]. unfold op_accounted, holds. simpl.
  apply (accounted_frame _ _ (fun g => pulls (legacy h) 0 h.(timers) g - pull (legacy h) idx x g)) in Ha.
  - eapply accounted_ext; [| |exact Ha]; intros g; simpl; [lia|].
    change (legacy (with_timers _ h)) with (legacy h). rewrite (pulls_insert _ _ _ x) by done. lia.
  - intros g. pose proof (pulls_insert (legacy h) h.(timers) idx x (with_irq_asserted false x) g Hx) as Hi.
    pose proof (pulls_nonneg (legacy h) (<[idx := with_irq_asserted false x]> h.(timers)) g 0) as Hn.
    unfold pull in Hi at 2. simpl in Hi. lia.
Qed.

(** ** Lines follow the status register *)
(** The timer asks for its line. *)
Definition wants (e : bool) (status : Z) (idx : nat) (x : timer) : bool :=
  e && is_level_triggered x && int_enabled x && Z.testbit status (Z.of_nat idx).

(** Only enabled level-triggered timers hold a line. *)
Definition tame (e : bool) (x : timer) : Prop :=
  x.(irq_asserted) = true -> e = true /\ is_level_triggered x = true /\ int_enabled x = true.
Definition all_tame (h : Hpet.t) : Prop := Forall (tame (enabled h)) h.(timers).

(** Every timer holds its line exactly while it asks for it. *)
Definition settled (h : Hpet.t) : Prop :=
  forall i x, h.(timers) !! i = Some x -> x.(irq_asserted) = wants (enabled h) h.(general_int_status) i x.

Lemma settled_tame h : settled h -> all_tame h.
Proof.
  intros Hs. apply Forall_lookup. intros i x Hx Ha. rewrite (Hs i x Hx) in Ha. unfold wants in Ha. bool_hyps. done.
Qed.

Lemma pending_bit status idx : nz (status &&& status_bit idx) = Z.testbit status (Z.of_nat idx).
Proof. apply nz_land_bit. lia. Qed.

Lemma level_same x y : y.(config) = x.(config) -> is_level_triggered y = is_level_triggered x /\ int_enabled y = int_enabled x.
Proof. intros Hc. unfold is_level_triggered, int_enabled. by rewrite Hc. Qed.

Lemma rearm_config mc x : (rearm mc x).(config) = x.(config) /\ (rearm mc x).(irq_asserted) = x.(irq_asserted).
Proof. unfold rearm. by case_if. Qed.

Lemma follow_fields g pending x :
  (follow_status g pending x).1.(irq_asserted) = pending /\ (follow_status g pending x).1.(config) = x.(config) /\
  (follow_status g pending x).1.(armed) = x.(armed).
Proof. unfold follow_status. destruct pending, x.(irq_asserted) eqn:E; by rewrite ?E. Qed.

Lemma service_step_settles l mc idx status x :
  tame true x ->
  let '(status', x', _) := service_timer l mc idx status x in
  x'.(irq_asserted) = wants true status' idx x' /\
  forall j, j <> idx -> Z.testbit status' (Z.of_nat j) = Z.testbit status (Z.of_nat j).
Proof.
  intros Ht. unfold service_timer. rewrite pending_bit. set (gsi := apply_legacy_replacement_route _ _ _).
  set (r := if is_level_triggered x && int_enabled x then _ else (x, [])).
  assert (r.1.(config) = x.(config) /\ (is_level_triggered x && int_enabled x = false -> r.1.(irq_asserted) = false) /\
    (is_level_triggered x && int_enabled x = true -> r.1.(irq_asserted) = Z.testbit status (Z.of_nat idx)))
    as (Hcfg & Hoff & Hon).
  { unfold r. destruct (is_level_triggered x && int_enabled x) eqn:E.
    - destruct (follow_fields gsi (Z.testbit status (Z.of_nat idx)) x) as (? & ? & _). done.
    - split; [done|]. split; [|done]. intros _. simpl. destruct (x.(irq_asserted)) eqn:Ha; [|done].
      destruct (Ht Ha) as (_ & Hl & Hi). by rewrite Hl, Hi in E. }
  destruct r as [x1 c1]. cbn [fst] in *. destruct (level_same x x1 Hcfg) as [Hl Hi]. rewrite <- Hl, <- Hi in Hoff, Hon.
  assert (x1.(irq_asserted) = wants true status idx x1) as H1.
  { unfold wants. simpl. destruct (is_level_triggered x1 && int_enabled x1) eqn:E; [by apply Hon|by apply Hoff]. }
  destruct (int_enabled x1) eqn:Hint; [|done]. destruct (x1.(armed)); [|done]. simpl. case_if; [done|].
  assert (forall j, j <> idx ->
    Z.testbit (status ||| status_bit idx) (Z.of_nat j) = Z.testbit status (Z.of_nat j)) as Hj.
  { intros j Hj. unfold status_bit. rewrite Z.lor_spec, Z.shiftl_1_l, testbit_pow2 by lia.
    rewrite (proj2 (Z.eqb_neq _ _)) by lia. apply orb_false_r. }
  assert (Z.testbit (status ||| status_bit idx) (Z.of_nat idx) = true) as Hb.
  { unfold status_bit. rewrite Z.lor_spec, Z.shiftl_1_l, testbit_pow2, Z.eqb_refl by lia. apply orb_true_r. }
  assert (forall y, y.(config) = x1.(config) -> wants true (status ||| status_bit idx) idx (rearm mc y) = is_level_triggered x1)
    as Hw.
  { intros y Hy. destruct (rearm_config mc y) as [Hc _]. destruct (level_same x1 (rearm mc y)) as [Hl' Hi']; [by rewrite Hc|].
    unfold wants. rewrite Hl', Hi', Hint, Hb. by rewrite !andb_true_r. }
  destruct (is_level_triggered x1) eqn:Hlev; [destruct (x1.(irq_asserted)) eqn:Ha|]; simpl; (split; [|done]);
    rewrite Hw by done; rewrite (proj2 (rearm_config mc _)); try done.
  simpl in Hoff. by apply Hoff.
Qed.

Lemma service_loop_settles l mc xs : forall idx status,
  Forall (tame true) xs ->
  let '(status', xs', _) := for_timers (service_timer l mc) idx status xs in
  (forall i x, xs' !! i = Some x -> x.(irq_asserted) = wants true status' (idx + i) x) /\
  forall j, (j < idx)%nat -> Z.testbit status' (Z.of_nat j) = Z.testbit status (Z.of_nat j).
Proof.
  induction xs as [|x xs IH]; intros idx status Hxs; [done|]. apply Forall_cons in Hxs as [Hx Hxs]. cbn [for_timers].
  pose proof (service_step_settles l mc idx status x Hx) as Hs.
  destruct (service_timer l mc idx status x) as [[status1 x'] c1]. destruct Hs as [Hx' Hj].
  specialize (IH (S idx) status1 Hxs). destruct (for_timers _ (S idx) status1 xs) as [[status2 xs'] c2].
  destruct IH as [Hxs' Hlow]. split.
  - intros [|i] y Hy; simpl in Hy; simplify_eq.
    + rewrite Nat.add_0_r, Hx'. unfold wants. f_equal. symmetry. apply Hlow. lia.
    + rewrite <- Nat.add_succ_comm. by apply Hxs'.
  - intros j Hlt. rewrite Hlow by lia. apply Hj. lia.
Qed.

Lemma service_settles h : all_tame h -> settled (service_timers h).1 /\ enabled (service_timers h).1 = enabled h.
Proof.
  intros Ht. unfold service_timers. destruct (enabled h) eqn:He; simpl.
  - unfold on_timers. unfold all_tame in Ht. rewrite He in Ht.
    pose proof (service_loop_settles (legacy h) h.(main_counter) h.(timers) 0 h.(general_int_status) Ht) as Hs.
    destruct (for_timers _ _ _ _) as [[status xs] calls]. destruct Hs as [Hs _]. split; [|done].
    intros i x Hx. simpl in *. change (enabled (with_timers _ _)) with (enabled h). rewrite He. by apply Hs.
  - split; [|done]. intros i x Hx. unfold wants. rewrite He. simpl.
    pose proof (Forall_lookup_1 _ _ _ _ Ht Hx) as Hti. rewrite He in Hti.
    destruct (x.(irq_asserted)) eqn:Ha; [|done]. by destruct (Hti Ha).
Qed.

Lemma poll_settles h : all_tame h -> settled (poll h).1 /\ enabled (poll h).1 = enabled h.
Proof.
  intros Ht. destruct (update_same h) as (_ & He & Hti & _). unfold poll. rewrite <- He. apply service_settles.
  unfold all_tame. by rewrite He, Hti.
Qed.

(** A step that leaves the status alone acts on each timer. *)
Lemma for_timers_map step f xs : (forall idx status x, (step idx status x).1 = (status, f idx x)) ->
  forall idx status, (for_timers step idx status xs).1 = (status, imap (fun i => f (idx + i)%nat) xs).
Proof.
  intros Hs. induction xs as [|x xs IH]; intros idx status; [done|]. cbn [for_timers].
  pose proof (Hs idx status x) as Hx. destruct (step idx status x) as [[s1 x1] c1]. simpl in Hx. simplify_eq.
  specialize (IH (S idx) status). destruct (for_timers step (S idx) status xs) as [[s2 xs2] c2]. simpl in IH. simplify_eq.
  simpl. rewrite Nat.add_0_r. f_equal. f_equal. apply imap_ext. intros i y _. simpl. f_equal. lia.
Qed.

Lemma on_timers_map step f h : (forall idx status x, (step idx status x).1 = (status, f idx x)) ->
  (on_timers step h).1 = with_timers (imap f h.(timers)) h.
Proof.
  intros Hs. unfold on_timers. pose proof (for_timers_map step f h.(timers) Hs 0 h.(general_int_status)) as Hf.
  destruct (for_timers _ _ _ _) as [[s xs] c]. simpl in Hf. simplify_eq. by destruct h.
Qed.

(** Synchronising sets each line to what its timer wants. *)
Lemma sync_eq h :
  (sync_levels_to_sink h).1 =
  with_timers (imap (fun i x => with_irq_asserted (wants (enabled h) h.(general_int_status) i x) x) h.(timers)) h.
Proof.
  unfold sync_levels_to_sink.
  set (f := fun idx (x : timer) => with_irq_asserted (wants (enabled h) h.(general_int_status) idx x) x).
  assert (forall idx x, (sync_timer (legacy h) (enabled h) idx h.(general_int_status) x).1
    = (h.(general_int_status), f idx x)) as Hstep.
  { intros idx x. unfold sync_timer. rewrite pending_bit. unfold f, wants.
    destruct (is_level_triggered x), (int_enabled x); simpl; rewrite ?andb_false_r, ?andb_true_r; try done.
    unfold follow_status. destruct (enabled h && _) eqn:E, (x.(irq_asserted)) eqn:Ha; simpl; f_equal;
      destruct x; simpl in *; by subst. }
  (* the status never changes, so the steps are those at the status of [h] *)
  assert (forall xs idx, (for_timers (sync_timer (legacy h) (enabled h)) idx h.(general_int_status) xs).1
    = (h.(general_int_status), imap (fun i => f (idx + i)%nat) xs)) as Hall.
  { induction xs as [|x xs IH]; intros idx; [done|]. cbn [for_timers].
    pose proof (Hstep idx x) as Hx. destruct (sync_timer _ _ idx _ x) as [[s1 x1] c1]. simpl in Hx. simplify_eq.
    specialize (IH (S idx)). destruct (for_timers _ (S idx) _ xs) as [[s2 xs2] c2]. simpl in IH. simplify_eq. simpl.
    rewrite Nat.add_0_r. f_equal. f_equal. apply imap_ext. intros i y _. simpl. f_equal. lia. }
  unfold on_timers. specialize (Hall h.(timers) 0%nat). destruct (for_timers _ _ _ _) as [[s xs] c]. simpl in Hall.
  simplify_eq. by destruct h.
Qed.

Lemma sync_settles h : settled (sync_levels_to_sink h).1 /\ enabled (sync_levels_to_sink h).1 = enabled h.
Proof.
  rewrite sync_eq. split; [|done]. intros i x Hx. simpl in Hx. apply list_lookup_imap_Some in Hx as (y & Hy & ->). done.
Qed.

(** *** Writes keep the invariant *)
Lemma config_write_tame e l mc v m idx x : tame e x -> tame e (write_timer_config l mc v m idx x).1.
Proof.
  intros Ht. unfold write_timer_config. set (new := merge _ _ _ &&& _ &&& _). set (x1 := with_config _ x).
  set (x2 := if is_32bit x1 then _ else x1). set (x3 := extend_deadline mc x2).
  assert (x3.(config) = x1.(config) /\ x3.(irq_asserted) = x.(irq_asserted)) as [Hc Ha].
  { unfold x3, extend_deadline, x2. repeat case_if; done. }
  destruct (level_same x1 x3 Hc) as [Hl Hi].
  assert (forall y : timer, tame e y -> tame e (if nz (y.(config) &&& TIMER_CFG_PERIODIC) then y else with_period 0 y)) as Hp
    by (intros y Hy; by case_if).
  destruct (x3.(irq_asserted)) eqn:E3; [|apply Hp; intros Hx; congruence].
  destruct (Ht (eq_sym Ha)) as (He & Hbl & Hbi).
  change (nz (x.(config) &&& TIMER_CFG_INT_ENABLE)) with (int_enabled x).
  change (nz (x.(config) &&& TIMER_CFG_INT_LEVEL)) with (is_level_triggered x).
  change (nz (x1.(config) &&& TIMER_CFG_INT_ENABLE)) with (int_enabled x1). rewrite Hbl, Hbi, <- Hl, <- Hi.
  destruct (int_enabled x3) eqn:Ei, (is_level_triggered x3) eqn:El; cbn [andb negb orb];
    first [by apply (Hp (with_irq_asserted false x3))|case_if; by apply (Hp x3)].
Qed.

Lemma tame_mono e e' x y :
  y.(irq_asserted) = x.(irq_asserted) -> y.(config) = x.(config) -> (e = true -> e' = true) -> tame e x -> tame e' y.
Proof.
  intros Ha Hc He Ht Hy. rewrite Ha in Hy. destruct (Ht Hy) as (? & ? & ?). destruct (level_same x y Hc) as [Hl Hi].
  rewrite Hl, Hi. auto.
Qed.

Lemma general_config_tame h v m : all_tame h -> all_tame (write_general_config h v m).1.
Proof.
  intros Ht. unfold write_general_config. set (new := merge _ _ _ &&& _). set (h1 := with_general_config new h).
  fold (legacy h). fold (enabled h). change (nz (new &&& GEN_CONF_ENABLE)) with (enabled h1).
  change (nz (new &&& GEN_CONF_LEGACY_ROUTE)) with (legacy h1).
  set (h2 := if negb (enabled h) && enabled h1 then _ else h1).
  assert (enabled h2 = enabled h1) as He2 by (unfold h2; by case_if).
  assert ((enabled h = true -> enabled h1 = true) -> all_tame h2) as H2.
  { intros He. unfold all_tame. rewrite He2. unfold h2. case_if; simpl; [apply Forall_fmap|];
      (eapply Forall_impl; [exact Ht|]); intros x; apply tame_mono; try done;
      unfold compose, extend_deadline; by case_if. }
  case_if; [|case_if].
  - rewrite (on_timers_map _ (fun _ => with_irq_asserted false)).
    + unfold all_tame. simpl. apply Forall_lookup. intros i x Hx. by apply list_lookup_imap_Some in Hx as (y & _ & ->).
    + intros idx status x. unfold release_timer. destruct (x.(irq_asserted)) eqn:E; [done|]. simpl. f_equal.
      destruct x. simpl in *. by subst.
  - rewrite (on_timers_map _ (fun _ x => x)).
    + assert (all_tame h2) as Hh2 by (apply H2; intros He; rewrite He in Heqb; by destruct (enabled h1)).
      unfold all_tame in *. simpl. apply Forall_lookup. intros i x Hx.
      apply list_lookup_imap_Some in Hx as (y & Hy & ->). by apply (Forall_lookup_1 _ _ _ _ Hh2 Hy).
    + intros idx status x. unfold move_timer. by case_if.
  - apply H2. intros He. rewrite He in Heqb. by destruct (enabled h1).
Qed.

Lemma int_status_tame h v m : all_tame h -> all_tame (write_int_status h v m).1.
Proof.
  intros Ht. unfold write_int_status. set (h1 := with_general_int_status _ h). set (cleared := _ &&& (v &&& m)).
  rewrite (on_timers_map _ (fun idx x => if nz (cleared &&& status_bit idx) && (is_level_triggered x && x.(irq_asserted))
    then with_irq_asserted false x else x)).
  - unfold all_tame in *. simpl. apply Forall_lookup. intros i x Hx.
    apply list_lookup_imap_Some in Hx as (y & Hy & ->). case_if; [done|]. by apply (Forall_lookup_1 _ _ _ _ Ht Hy).
  - intros idx status x. unfold ack_timer. destruct (nz _); [|done]. simpl. by case_if.
Qed.

Lemma write_tame h off v m : all_tame h -> all_tame (write_aligned_u64 h off v m).1.
Proof.
  intros Ht. unfold write_aligned_u64.
  case_if; [by apply general_config_tame|]. case_if; [by apply int_status_tame|]. case_if; [done|]. case_if; [|done].
  set (idx := Z.to_nat _). destruct (h.(timers) !! idx) as [x|] eqn:Hx; [|done].
  pose proof (Forall_lookup_1 _ _ _ _ Ht Hx) as Htx.
  assert (tame (enabled h) (write_timer_register (legacy h) h.(main_counter) idx
    ((off - REG_TIMER0_BASE) mod TIMER_STRIDE) v m x).1) as Hw.
  { unfold write_timer_register. case_if; [by apply config_write_tame|]. case_if; [|by case_if].
    destruct (comparator_write_same h.(main_counter) v m x) as ([Ha _] & Hl & Hi). simpl. unfold tame.
    by rewrite Ha, Hl, Hi. }
  destruct (write_timer_register _ _ _ _ _ _ _) as [x' calls]. unfold all_tame. simpl.
  by apply Forall_insert.
Qed.

(** ** Whole operations *)
Lemma mmio_read_op h off n :
  access_ok off n = true -> all_tame h ->
  exists v h' calls, mmio_read h off n = Some (v, h', calls) /\ op_accounted h (h', calls) /\ settled h'.
Proof.
  intros Hok Ht. unfold mmio_read. rewrite Hok. pose proof (poll_op h) as Ho. pose proof (poll_settles h Ht) as [Hs _].
  destruct (poll h) as [h' calls]. by eexists _, h', calls.
Qed.

Lemma mmio_write_op h off n v :
  access_ok off n = true -> all_tame h ->
  exists h' calls, mmio_write h off n v = Some (h', calls) /\ op_accounted h (h', calls) /\ settled h'.
Proof.
  intros Hok Ht. unfold mmio_write. rewrite Hok. pose proof (poll_op h) as Ho. pose proof (poll_settles h Ht) as [Hs _].
  destruct (poll h) as [h1 c1]. set (wv := wrap 64 _). set (wm := wrap 64 _).
  pose proof (write_op h1 (off &&& unot 64 7) wv wm) as Hw.
  pose proof (write_tame h1 (off &&& unot 64 7) wv wm (settled_tame _ Hs)) as Ht2.
  destruct (write_aligned_u64 h1 (off &&& unot 64 7) wv wm) as [h2 c2].
  pose proof (service_op h2) as Ho3. pose proof (service_settles h2 Ht2) as [Hs3 _].
  destruct (service_timers h2) as [h3 c3]. eexists h3, _. split; [done|]. split; [|done].
  unfold op_accounted in *. eapply accounted_app; [exact Ho|]. by eapply accounted_app.
Qed.

(** ** The number of timers and of calls *)
(** A step makes at most three calls. *)
Definition step_short (step : timer_step) : Prop := forall idx status x, (length (step idx status x).2 <= 3)%nat.

Lemma for_timers_short step xs : step_short step -> forall idx status,
  (length (for_timers step idx status xs).2 <= 3 * length xs)%nat /\
  length (for_timers step idx status xs).1.2 = length xs.
Proof.
  intros Hs. induction xs as [|x xs IH]; intros idx status; [done|]. cbn [for_timers].
  pose proof (Hs idx status x) as Hx. destruct (step idx status x) as [[s1 x1] c1]. simpl in Hx.
  destruct (IH (S idx) s1) as [Hc Hl]. destruct (for_timers step (S idx) s1 xs) as [[s2 xs2] c2]. simpl in *.
  rewrite length_app. lia.
Qed.

Definition short (n : nat) (h : Hpet.t) (r : Hpet.t * list GsiCall) : Prop :=
  (length r.2 <= n * length h.(timers))%nat /\ length r.1.(timers) = length h.(timers).

Lemma on_timers_short step h : step_short step -> short 3 h (on_timers step h).
Proof.
  intros Hs. unfold short, on_timers. pose proof (for_timers_short step h.(timers) Hs 0 h.(general_int_status)) as Hf.
  by destruct (for_timers _ _ _ _) as [[s xs] c].
Qed.

Lemma short_more n n' h r : (n <= n')%nat -> short n h r -> short n' h r.
Proof. intros Hn [Hc Hl]. split; [nia|done]. Qed.

Lemma follow_short g pending x : (length (follow_status g pending x).2 <= 1)%nat.
Proof. unfold follow_status. destruct pending, x.(irq_asserted); simpl; lia. Qed.

Lemma service_short h : short 3 h (service_timers h).
Proof.
  unfold service_timers. case_if; [split; simpl; lia|]. apply on_timers_short. intros idx status x.
  unfold service_timer. set (gsi := apply_legacy_replacement_route _ _ _). set (pd := nz _).
  pose proof (follow_short gsi pd x) as Hf.
  destruct (is_level_triggered x && int_enabled x); [destruct (follow_status gsi pd x) as [x1 c1]|];
    simpl in *; repeat case_if; simpl; rewrite ?length_app; simpl; lia.
Qed.

Lemma poll_short h : short 3 h (poll h).
Proof.
  unfold poll, short. destruct (service_short (update_main_counter h)) as [Hc Hl].
  destruct (update_same h) as (_ & _ & Ht & _). by rewrite Ht in Hc, Hl.
Qed.

Lemma sync_short h : short 3 h (sync_levels_to_sink h).
Proof.
  apply on_timers_short. intros idx status x. unfold sync_timer. case_if; [simpl; case_if; simpl; lia|].
  match goal with |- context [follow_status ?g ?p x] => pose proof (follow_short g p x) as Hf;
    destruct (follow_status g p x) end. simpl in *. lia.
Qed.

Lemma write_short h off v m : short 3 h (write_aligned_u64 h off v m).
Proof.
  assert (forall h', h'.(timers) = h.(timers) -> short 3 h (h', [])) as Hnone
    by (intros h' E; split; simpl; rewrite ?E; lia).
  unfold write_aligned_u64. case_if; [|case_if; [|case_if; [by apply Hnone|case_if; [|by apply Hnone]]]].
  - unfold write_general_config. set (new := merge _ _ _ &&& _). set (h1 := with_general_config new h).
    set (h2 := if negb _ && _ then _ else h1).
    assert (length h2.(timers) = length h.(timers)) as Hl by (unfold h2; case_if; simpl; by rewrite ?length_map).
    assert (forall step, step_short step -> short 3 h (on_timers step h2)) as Hst
      by (intros step Hs; destruct (on_timers_short step h2 Hs); split; lia).
    case_if; [|case_if; [|split; simpl; lia]]; apply Hst; intros idx status x;
      unfold release_timer, move_timer; repeat case_if; simpl; lia.
  - unfold write_int_status. set (h1 := with_general_int_status _ h).
    assert (forall step, step_short step -> short 3 h (on_timers step h1)) as Hst
      by (intros step Hs; destruct (on_timers_short step h1 Hs); split; done).
    apply Hst. intros idx status x. unfold ack_timer. repeat case_if; simpl; lia.
  - set (idx := Z.to_nat _). destruct (h.(timers) !! idx) as [x|] eqn:Hx; [|by apply Hnone].
    assert (length (write_timer_register (legacy h) h.(main_counter) idx
      ((off - REG_TIMER0_BASE) mod TIMER_STRIDE) v m x).2 <= 3)%nat as Hw.
    { unfold write_timer_register. case_if; [|repeat case_if; simpl; lia].
      unfold write_timer_config. repeat case_if; simpl; lia. }
    destruct (write_timer_register _ _ _ _ _ _ _) as [x' calls]. simpl in Hw.
    apply lookup_lt_Some in Hx. split; simpl; rewrite ?length_insert; lia.
Qed.
