(* ===== verification/HpetProps.v ===== *)
(** * The event timer and the interrupt router

    The timer wired to the platform's interrupt router beside other devices:
    a line is high exactly while another device asserts it or a timer with a
    pending level interrupt is routed to it. *)

From S2P Require Import Prelude Bytes Collections Snapshot Pic Lapic LapicProps Ioapic IoapicFacts Router RouterFacts RouterProps.
From S2P Require Import RouterLines PicFacts Hpet HpetFacts.
Import HpetTimer Hpet.

(** ** The system *)
Inductive hevent :=
| HTime (ns : Z)
| HPoll
| HRead (offset : Z) (size : nat)
| HWrite (offset : Z) (size : nat) (value : Z)
| HSync
| Other (gsi : Z) (level : bool)
| Router (c : call)
| MachineReset.

Definition deliver (p : P.t) (r : Hpet.t * list GsiCall) : option (Hpet.t * P.t) :=
  option_map (pair r.1) (drive r.2 p).

Definition hstep (s : Hpet.t * P.t) (ev : hevent) : option (Hpet.t * P.t) :=
  let '(h, p) := s in
  match ev with
  | HTime ns => Some (advance_ns ns h, p)
  | HPoll => deliver p (poll h)
  | HRead off n => match mmio_read h off n with Some (_, h', calls) => deliver p (h', calls) | None => None end
  | HWrite off n v => match mmio_write h off n v with Some r => deliver p r | None => None end
  | HSync => deliver p (sync_levels_to_sink h)
  | Other g level => option_map (pair h) (if level then P.raise_irq p (Gsi g) else P.lower_irq p (Gsi g))
  | Router c => option_map (pair h) (exec_call p c)
  | MachineReset => Some (Hpet.reset h, P.reset p)
  end.

(** The debug assertions of an event, and the event in a build with or without
    them. *)
Definition hevent_asserts (p : P.t) (ev : hevent) : bool :=
  match ev with
  | Router c => call_asserts p c
  | MachineReset => P.reset_asserts p
  | _ => true
  end.
Definition hstep_in (debug : bool) (s : Hpet.t * P.t) (ev : hevent) : option (Hpet.t * P.t) :=
  if debug && negb (hevent_asserts s.2 ev) then None else hstep s ev.

(** The guest writes to a local APIC's ID register. *)
Definition renumbering (ev : hevent) : bool := match ev with Router c => renumbers c | _ => false end.

(** What the other devices assert: they lower only what they raised. *)
Definition other_step (others : Z -> Z) (ev : hevent) : Z -> Z :=
  match ev with
  | Other g true => fun x => others x + (if x =? g then 1 else 0)
  | Other g false => fun x => others x - (if x =? g then 1 else 0)
  | MachineReset => fun _ => 0
  | _ => others
  end.
Definition hevent_ok (others : Z -> Z) (ev : hevent) : Prop :=
  match ev with
  | HRead off n | HWrite off n _ => access_ok off n = true
  | Other g level => 0 <= g /\ (level = false -> 0 < others g)
  | Router c => call_ok c /\ line_neutral c = true
  | _ => True
  end.
Fixpoint hevents_ok (others : Z -> Z) (evs : list hevent) : Prop :=
  match evs with [] => True | ev :: evs => hevent_ok others ev /\ hevents_ok (other_step others ev) evs end.

(** ** The invariant *)
Record lines_inv (n : Z) (others : Z -> Z) (h : Hpet.t) (p : P.t) : Prop := {
  li_router : router_ok p;
  li_base : Forall (fun b => b = false) p.(P.gsi_restore_baseline);
  li_settled : settled h;
  li_timers : (length h.(timers) <= 32)%nat;
  li_others : forall g, 0 <= others g <= n;
  li_count : forall g c, 0 <= g -> p.(P.gsi_assert_count) !! Z.to_nat g = Some c -> c = others g + holds h g;
}.

Lemma pulls_le l xs g : forall idx, pulls l idx xs g <= Z.of_nat (length xs).
Proof.
  induction xs as [|x xs IH]; intros idx; simpl; [lia|]. pose proof (pull_range l idx x g). specialize (IH (S idx)). lia.
Qed.

(** One update of a count. *)
Lemma update_count p (f : Z -> Z) g b :
  router_ok p -> 0 <= g -> (forall x c, 0 <= x -> p.(P.gsi_assert_count) !! Z.to_nat x = Some c -> c = f x) ->
  f g < 2 ^ 32 - 1 -> (b = false -> 0 < f g) ->
  exists p', P.update_gsi_assert_count p g b = Some p' /\ router_ok p' /\ ids p' = ids p /\
    p'.(P.gsi_restore_baseline) = p.(P.gsi_restore_baseline) /\
    forall x c, 0 <= x -> p'.(P.gsi_assert_count) !! Z.to_nat x = Some c ->
      c = f x + (if x =? g then if b then 1 else -1 else 0).
Proof.
  intros Hp Hg Hf Hmax Hb. destruct (update_gsi_ok p g b Hp Hg) as (p' & Hu & Hp' & _ & Hct & Hba & _).
  exists p'. split; [done|]. split; [done|]. split; [by apply (update_gsi_ids p g b)|]. split; [done|].
  intros x c Hx Hc. rewrite Hct in Hc.
  apply bump_lookup in Hc as (c0 & Hc0 & ->); [|done..]. rewrite (Hf x c0 Hx Hc0), (Z.eqb_sym x g).
  destruct (Z.eqb_spec g x) as [->|]; [|lia]. unfold count_step. destruct b; [lia|]. specialize (Hb eq_refl). lia.
Qed.

(** Calls of the timer on the router. *)
Lemma drive_counts calls : forall p (k f : Z -> Z),
  router_ok p -> held f calls -> (forall g, 0 <= k g) ->
  (forall g, k g + f g + Z.of_nat (length calls) < 2 ^ 32) ->
  (forall g c, 0 <= g -> p.(P.gsi_assert_count) !! Z.to_nat g = Some c -> c = k g + f g) ->
  exists p', drive calls p = Some p' /\ router_ok p' /\ ids p' = ids p /\
    p'.(P.gsi_restore_baseline) = p.(P.gsi_restore_baseline) /\
    forall g c, 0 <= g -> p'.(P.gsi_assert_count) !! Z.to_nat g = Some c -> c = k g + (f g + net calls g).
Proof.
  unfold drive, foldo. induction calls as [|c calls IH]; intros p k f Hp Hh Hk Hmax Hcnt.
  { exists p. split_and!; try done. intros g c Hg Hc. rewrite (Hcnt g c Hg Hc). unfold net. simpl. lia. }
  destruct Hh as [Hc Hh]. cbn [foldl].
  assert (exists g b, c = (if b : bool then RaiseGsi g else LowerGsi g) /\ 0 <= g /\ (b = false -> 0 < f g))
    as (g & b & Ec & Hg & Hb).
  { destruct c as [g|g]; [exists g, true|exists g, false]; split_and!; try done; [apply Hc|intros _; apply Hc]. }
  destruct (update_count p (fun x => k x + f x) g b) as (p1 & Hu & Hp1 & Hi1 & Hb1 & Hc1); try done.
  { specialize (Hmax g). simpl in Hmax. lia. }
  { intros ->. specialize (Hb eq_refl). specialize (Hk g). lia. }
  assert (make_call p c = Some p1) as -> by (rewrite Ec; by destruct b).
  assert (forall x, count_call x c = if x =? g then if b then 1 else -1 else 0) as Hcc.
  { intros x. rewrite Ec, (Z.eqb_sym x g). by destruct b. }
  destruct (IH p1 k (fun x => f x + count_call x c)) as (p' & Hd & Hp' & Hi' & Hb' & Hc'); try done.
  { intros x. specialize (Hmax x). simpl in Hmax. rewrite Hcc. repeat case_if; lia. }
  { intros x y Hx Hy. rewrite (Hc1 x y Hx Hy), Hcc. lia. }
  exists p'. split; [done|]. split; [done|]. split; [congruence|]. split; [congruence|].
  intros x y Hx Hy. rewrite (Hc' x y Hx Hy). unfold net. simpl. lia.
Qed.

(** An operation of the timer keeps the invariant. *)
Lemma deliver_inv n others h p h' calls :
  lines_inv n others h p -> n < 2 ^ 31 -> op_accounted h (h', calls) -> settled h' ->
  (length h'.(timers) <= 32)%nat -> (length calls <= 9 * 32)%nat ->
  exists p', deliver p (h', calls) = Some (h', p') /\ lines_inv n others h' p' /\ ids p' = ids p.
Proof.
  intros [Hp Hb Hs Hl Ho Hc] Hn [Hh Hnet] Hs' Hl' Hcl. cbn [fst snd] in *.
  destruct (drive_counts calls p others (holds h) Hp Hh) as (p' & Hd & Hp' & Hid & Hb' & Hc'); [apply Ho| |done|].
  { intros g. pose proof (pulls_le (legacy h) h.(timers) g 0) as Hle. specialize (Ho g). unfold holds. lia. }
  exists p'. unfold deliver. cbn [fst snd]. rewrite Hd. split; [done|]. split; [|done].
  split; try done; [by rewrite Hb'|].
  intros g c Hg Hgc. rewrite (Hc' g c Hg Hgc), Hnet. lia.
Qed.

Lemma reset_holds h g : holds (Hpet.reset h) g = 0.
Proof.
  unfold holds, Hpet.reset. simpl. generalize 0%nat. induction h.(timers) as [|x xs IH]; intros idx; [done|].
  simpl. rewrite IH. done.
Qed.

Lemma hstep_inv n others h p ev :
  lines_inv n others h p -> n < 2 ^ 31 - 1 -> hevent_ok others ev ->
  exists h' p', hstep (h, p) ev = Some (h', p') /\ lines_inv (n + 1) (other_step others ev) h' p' /\
    (renumbering ev = false -> ids p' = ids p).
Proof.
  intros Hi Hn Hev.
  assert (lines_inv (n + 1) others h p) as Hi1.
  { destruct Hi as [? ? ? ? Ho ?]. split; try done. intros g. specialize (Ho g). lia. }
  pose proof Hi as [Hp Hb Hs Hl Ho Hc]. pose proof (settled_tame _ Hs) as Ht.
  destruct ev as [ns| |off k|off k v| |g b|c| ]; cbn [hstep other_step hevent_ok] in *.
  - exists (advance_ns ns h), p. split; [done|]. split; [by destruct Hi1|done].
  - pose proof (poll_op h) as Hop. pose proof (poll_short h) as [Hsh Hlt]. destruct (poll_settles h Ht) as [Hst _].
    destruct (poll h) as [h' calls]. cbn [fst snd] in *.
    destruct (deliver_inv (n + 1) others h p h' calls) as (p' & ? & ? & ?); try done; try lia. by exists h', p'.
  - pose proof (poll_short h) as [Hsh Hlt]. destruct (mmio_read_op h off k Hev Ht) as (v & h' & calls & Hr & Hop & Hst).
    rewrite Hr. unfold mmio_read in Hr. rewrite Hev in Hr. destruct (poll h) as [h1 c1]. cbn [fst snd] in *.
    simplify_eq. destruct (deliver_inv (n + 1) others h p h' calls) as (p' & ? & ? & ?); try done; try lia. by exists h', p'.
  - destruct (mmio_write_op h off k v Hev Ht) as (h' & calls & Hr & Hop & Hst). rewrite Hr.
    assert (length h'.(timers) <= 32 /\ length calls <= 9 * 32)%nat as [Hlt Hcl].
    { unfold mmio_write in Hr. rewrite Hev in Hr. pose proof (poll_short h) as [S1 L1].
      destruct (poll h) as [h1 c1]. cbn [fst snd] in *.
      match type of Hr with context [write_aligned_u64 h1 ?a ?b ?c] =>
        pose proof (write_short h1 a b c) as [S2 L2]; destruct (write_aligned_u64 h1 a b c) as [h2 c2] end.
      pose proof (service_short h2) as [S3 L3]. destruct (service_timers h2) as [h3 c3]. cbn [fst snd] in *.
      simplify_eq. rewrite !length_app. lia. }
    destruct (deliver_inv (n + 1) others h p h' calls) as (p' & ? & ? & ?); try done; try lia. by exists h', p'.
  - pose proof (sync_op h) as Hop. pose proof (sync_short h) as [Hsh Hlt]. destruct (sync_settles h) as [Hst _].
    destruct (sync_levels_to_sink h) as [h' calls]. cbn [fst snd] in *.
    destruct (deliver_inv (n + 1) others h p h' calls) as (p' & ? & ? & ?); try done; try lia. by exists h', p'.
  - destruct Hev as [Hg Hpos]. pose proof (pulls_le (legacy h) h.(timers) g 0) as Hle.
    pose proof (pulls_nonneg (legacy h) h.(timers) g 0) as Hge.
    destruct (update_count p (fun x => others x + holds h x) g b Hp Hg Hc) as (p' & Hu & Hp' & Hid & Hb' & Hc').
    { specialize (Ho g). unfold holds. lia. }
    { intros ->. specialize (Hpos eq_refl). unfold holds. lia. }
    exists h, p'. split; [unfold P.raise_irq, P.lower_irq; simpl; destruct b; by rewrite Hu|].
    split; [|done]. split; try done; [by rewrite Hb'| |].
    + intros x. specialize (Ho x). destruct b; case_if; try lia. apply Z.eqb_eq in Heqb. subst x.
      specialize (Hpos eq_refl). lia.
    + intros x y Hx Hy. rewrite (Hc' x y Hx Hy). destruct b; case_if; lia.
  - destruct Hev as [Hok Hneu]. destruct (neutral_call_ok p c Hp Hok Hneu) as (p' & Hx & Hp' & (H1 & H2 & H3 & H4 & H5)).
    exists h, p'. rewrite Hx. split; [done|]. split; [|intros Hr; by apply (call_ids p c)]. split; try done.
    + by rewrite H2.
    + apply Hi1.
    + intros g y Hg Hy. rewrite H3 in Hy. by apply Hc.
  - exists (Hpet.reset h), (P.reset p). split; [done|]. split; [|intros _; by apply reset_ids]. split.
    + by apply reset_ok.
    + by apply Forall_replicate.
    + intros i x Hx. simpl in Hx. apply list_lookup_fmap_Some in Hx as (y & -> & _). done.
    + simpl. by rewrite length_map.
    + intros g. specialize (Ho g). lia.
    + intros g c Hg Hgc. change (P.gsi_assert_count (P.reset p)) with (replicate 24 0) in Hgc.
      apply lookup_replicate in Hgc as [-> _]. by rewrite reset_holds.
Qed.

(** With debug assertions too, while the local APICs keep their numbers. *)
Lemma hstep_in_inv debug n others h p ev :
  lines_inv n others h p -> (debug = true -> numbered p /\ renumbering ev = false) -> n < 2 ^ 31 - 1 -> hevent_ok others ev ->
  exists h' p', hstep_in debug (h, p) ev = Some (h', p') /\ lines_inv (n + 1) (other_step others ev) h' p' /\
    (debug = true -> numbered p').
Proof.
  intros Hi Hd Hn Hok. destruct (hstep_inv n others h p ev Hi Hn Hok) as (h' & p' & Hs & Hi' & Hid).
  exists h', p'. assert (debug && negb (hevent_asserts p ev) = false) as Ha.
  { destruct debug; [|done]. destruct (Hd eq_refl) as [Hnum _]. apply negb_false_iff. pose proof (li_router _ _ _ _ Hi).
    destruct ev as [| | | | | |c| ]; try done; [|by apply numbered_asserts].
    destruct c; try done; [apply reset_lapic_passes|by apply numbered_asserts]. }
  unfold hstep_in. cbn [snd]. rewrite Ha. split; [done|]. split; [done|]. intros E. destruct (Hd E) as [Hnum Hr].
  apply (numbered_step p); auto.
Qed.

Lemma hrun_in_inv debug evs : forall n others h p,
  lines_inv n others h p -> (debug = true -> numbered p /\ Forall (fun ev => renumbering ev = false) evs) ->
  n + Z.of_nat (length evs) < 2 ^ 31 -> hevents_ok others evs ->
  exists h' p', foldo (hstep_in debug) evs (h, p) = Some (h', p') /\
    lines_inv (n + Z.of_nat (length evs)) (foldl other_step others evs) h' p'.
Proof.
  induction evs as [|ev evs IH]; intros n others h p Hi Hd Hn Hok.
  { exists h, p. split; [done|]. simpl. by rewrite Z.add_0_r. }
  destruct Hok as [Hev Hok]. simpl in Hn.
  destruct (hstep_in_inv debug n others h p ev Hi) as (h1 & p1 & Hs & Hi1 & Hn1); [|lia|done|].
  { intros E. destruct (Hd E) as [? Hr]. by apply Forall_cons in Hr as [? _]. }
  destruct (IH (n + 1) _ h1 p1 Hi1) as (h2 & p2 & Hr & Hi2); [|lia|done|].
  { intros E. split; [auto|]. destruct (Hd E) as [_ Hf]. by apply Forall_cons in Hf as [_ ?]. }
  exists h2, p2. split; [unfold foldo in *; cbn [foldl]; by rewrite Hs|].
  cbn [foldl length]. by replace (n + Z.of_nat (S (length evs))) with (n + 1 + Z.of_nat (length evs)) by lia.
Qed.

Lemma hrun_inv evs n others h p :
  lines_inv n others h p -> n + Z.of_nat (length evs) < 2 ^ 31 -> hevents_ok others evs ->
  exists h' p', foldo hstep evs (h, p) = Some (h', p') /\
    lines_inv (n + Z.of_nat (length evs)) (foldl other_step others evs) h' p'.
Proof. intros Hi. by apply (hrun_in_inv false). Qed.

Lemma lines_init n caps clock :
  (n <= 255)%nat -> (caps.(HpetCapabilities.num_timers) <= 32)%nat ->
  lines_inv 0 (fun _ => 0) (Hpet.new clock caps) (P.new_with_cpu_count n).
Proof.
  intros Hn Hc. pose proof (new_router_ok n Hn) as Hp.
  split; try done.
  - by apply Forall_replicate.
  - intros i x Hx. simpl in Hx. apply list_lookup_fmap_Some in Hx as (y & -> & _). done.
  - simpl. by rewrite length_map, length_seq.
  - intros g c Hg Hgc. change (P.gsi_assert_count _) with (replicate 24 0) in Hgc.
    apply lookup_replicate in Hgc as [-> _]. unfold holds, Hpet.new. simpl. symmetry.
    generalize (seq 0 (HpetCapabilities.num_timers caps)). generalize 0%nat at 1.
    intros k xs. revert k. induction xs as [|x xs IH]; intros k; [done|]. simpl. by rewrite IH.
Qed.

Lemma pulls_pos l xs g : forall idx,
  0 < pulls l idx xs g <-> exists i x, xs !! i = Some x /\ x.(irq_asserted) = true /\ gsi_of l (idx + i) x = g.
Proof.
  induction xs as [|x xs IH]; intros idx; simpl.
  { split; [lia|]. by intros (i & x & Hx & _). }
  pose proof (pulls_nonneg l xs g (S idx)) as Hn. pose proof (pull_range l idx x g) as Hr.
  assert (0 < pull l idx x g <-> x.(irq_asserted) = true /\ gsi_of l idx x = g) as Hpull.
  { unfold pull. rewrite <- Z.eqb_eq, <- andb_true_iff. case_if; split; try done; lia. }
  split.
  - intros Hpos. destruct (decide (0 < pull l idx x g)) as [Hx|Hx].
    + exists 0%nat, x. rewrite Nat.add_0_r. split; [done|]. by apply Hpull.
    + destruct (proj1 (IH (S idx))) as (i & y & Hy & Ha & Hg); [lia|]. exists (S i), y.
      rewrite <- Nat.add_succ_comm. done.
  - intros ([|i] & y & Hy & Ha & Hg); simpl in Hy.
    + injection Hy as ->. rewrite Nat.add_0_r in Hg. pose proof (proj2 Hpull (conj Ha Hg)). lia.
    + assert (0 < pulls l (S idx) xs g); [|lia]. apply IH. exists i, y. by rewrite Nat.add_succ_comm.
Qed.

Lemma inv_level n others h p g :
  lines_inv n others h p -> 0 <= g < Z.of_nat (length p.(P.gsi_level)) ->
  P.read_gsi_level p g = (0 <? others g + holds h g).
Proof.
  intros [Hp Hb _ _ _ Hcnt] Hg. unfold P.read_gsi_level. rewrite (ro_level _ Hp). unfold wired.
  assert (Z.to_nat g < length (P.gsi_level p))%nat as Hlt by lia. rewrite (ro_levels _ Hp) in Hlt.
  destruct (lookup_lt_is_Some_2 p.(P.gsi_assert_count) (Z.to_nat g)) as [c Hc]; [by rewrite (ro_count _ Hp)|].
  destruct (lookup_lt_is_Some_2 p.(P.gsi_restore_baseline) (Z.to_nat g)) as [b Hbg]; [by rewrite (ro_baseline _ Hp)|].
  rewrite lookup_zip_with, Hbg, Hc. simpl. rewrite (Forall_lookup_1 _ _ _ _ Hb Hbg).
  by rewrite (Hcnt g c) by (done || lia).
Qed.

(** The lines a settled device holds are those of its pending level interrupts. *)
Lemma holds_pos h g : settled h ->
  0 < holds h g <-> exists i x, h.(timers) !! i = Some x /\ enabled h = true /\ is_level_triggered x = true /\
    int_enabled x = true /\ Z.testbit h.(general_int_status) (Z.of_nat i) = true /\
    apply_legacy_replacement_route (legacy h) i (route x) = g.
Proof.
  intros Hset. unfold holds. rewrite pulls_pos. split.
  - intros (i & x & Hx & Ha & Hgs). exists i, x. rewrite (Hset i x Hx) in Ha. unfold wants in Ha. bool_hyps. done.
  - intros (i & x & Hx & He & Hl & Hint & Hb & Hgs). exists i, x. split; [done|]. split; [|done].
    rewrite (Hset i x Hx). unfold wants. by rewrite He, Hl, Hint, Hb.
Qed.

