(* ===== verification/HpetTime.v ===== *)
(** * The event timer and time

    The main counter counts the periods of its clock exactly, however the time
    is sliced by polls and register reads, and a periodic timer stays on the grid
    of its deadlines. *)

From S2P Require Import Prelude Bytes Collections Snapshot Pic Lapic Ioapic Router RouterFacts RouterProps.
From S2P Require Import PicFacts Hpet HpetFacts HpetProps.
Import HpetTimer Hpet.

(** ** What the guest and the machine do while the timer runs *)
Inductive tevent := Elapse (ns : Z) | Poll | ReadReg (offset : Z) (size : nat) | Sync.

Definition tick (h : Hpet.t) (ev : tevent) : Hpet.t :=
  match ev with
  | Elapse ns => advance_ns ns h
  | Poll => (poll h).1
  | ReadReg off n => match mmio_read h off n with Some (_, h', _) => h' | None => h end
  | Sync => (sync_levels_to_sink h).1
  end.

Definition duration (ev : tevent) : Z := match ev with Elapse ns => ns | _ => 0 end.

(** The first point of the grid [d], [d + q], ... after [m]. *)
Definition next_point (d q m : Z) : Z := if m <? d then d else d + q * ((m - d) / q + 1).

Lemma next_point_after d q m : 0 < q -> m < next_point d q m /\ (d <= m -> next_point d q m <= m + q).
Proof.
  intros Hq. unfold next_point. destruct (Z.ltb_spec m d); [lia|].
  pose proof (Z.div_mod (m - d) q ltac:(lia)). pose proof (Z.mod_pos_bound (m - d) q Hq). nia.
Qed.

Lemma next_point_compose d q m m' : 0 < q -> m <= m' -> next_point (next_point d q m) q m' = next_point d q m'.
Proof.
  intros Hq Hm. unfold next_point at 2 3. destruct (Z.ltb_spec m d) as [Hlt|Hge]; [done|].
  rewrite (proj2 (Z.ltb_ge m' d)) by lia. set (k := (m - d) / q + 1).
  unfold next_point. destruct (Z.ltb_spec m' (d + q * k)) as [Hlt|Hge'].
  - f_equal. f_equal. unfold k. f_equal. apply Z.le_antisymm.
    + apply Z.div_le_mono; lia.
    + assert ((m' - d) / q < k); [|unfold k in *; lia]. apply Z.div_lt_upper_bound; lia.
  - replace (m' - (d + q * k)) with (m' - d + (- k) * q) by lia. rewrite Z.div_add by lia. lia.
Qed.

(** ** A periodic timer *)
Record periodic_at (q d : Z) (x : timer) : Prop := {
  pa_periodic : is_periodic x = true;
  pa_enabled : int_enabled x = true;
  pa_armed : x.(armed) = true;
  pa_period : x.(period) = q;
  pa_deadline : x.(deadline) = d;
}.

Lemma service_periodic l mc idx status q d x :
  0 < q -> uint 64 mc -> uint 64 d -> next_point d q mc < 2 ^ 64 -> periodic_at q d x ->
  periodic_at q (next_point d q mc) (service_timer l mc idx status x).1.2.
Proof.
  intros Hq Hmc Hd Hmax Hx. unfold uint in *. unfold service_timer.
  set (r := if is_level_triggered x && int_enabled x then _ else (x, [])).
  assert (periodic_at q d r.1) as H1.
  { unfold r. case_if; [|done]. set (g := apply_legacy_replacement_route _ _ _). set (pd := nz _).
    unfold follow_status. destruct Hx. destruct pd, (irq_asserted x); by split. }
  destruct r as [x1 c1]. cbn [fst] in H1. destruct H1 as [Hp He Ha Hq1 Hd1].
  rewrite He, Ha, Hd1. cbn [negb]. unfold next_point in *. destruct (Z.ltb_spec mc d); [by split|].
  set (y := if is_level_triggered x1 then _ else (x1, pulse_gsi _)).
  assert (periodic_at q d y.1) as [Hp' He' Ha' Hq' Hd'].
  { unfold y. repeat case_if; by split. }
  destruct y as [x2 c2]. cbn [fst snd] in *. unfold rearm. rewrite Hp', Hq', Hd'.
  assert (nz q = true) as -> by (unfold nz; destruct (Z.eqb_spec q 0); [lia|done]).
  assert (wrapping_sub 64 mc d = mc - d) as -> by (apply wrap_small; unfold uint; lia).
  set (k := (mc - d) / q + 1) in *.
  assert (0 <= (mc - d) / q) by (apply Z.div_pos; lia).
  assert (wrapping_mul 64 q k = q * k) as -> by (apply wrap_small; unfold uint; nia).
  assert (wrapping_add 64 d (q * k) = d + q * k) as -> by (apply wrap_small; unfold uint; nia).
  by split.
Qed.

Lemma for_timers_lookup step xs : forall idx status i x,
  xs !! i = Some x -> exists status', (for_timers step idx status xs).1.2 !! i = Some (step (idx + i)%nat status' x).1.2.
Proof.
  induction xs as [|y xs IH]; intros idx status i x Hx; [done|]. cbn [for_timers].
  destruct (step idx status y) as [[s1 y1] c1] eqn:Es. destruct i as [|i]; simpl in Hx.
  - injection Hx as ->. destruct (for_timers step (S idx) s1 xs) as [[s2 ys] c2]. exists status. simpl.
    by rewrite Nat.add_0_r, Es.
  - destruct (IH (S idx) s1 i x Hx) as (s' & Hl). exists s'. rewrite <- Nat.add_succ_comm.
    by destruct (for_timers step (S idx) s1 xs) as [[s2 ys] c2].
Qed.

(** ** The clock *)
Record running (P q : Z) (i : nat) (d : Z) (h : Hpet.t) : Prop := {
  rn_enabled : enabled h = true;
  rn_clock : uint 64 h.(clock);
  rn_period : h.(caps).(HpetCapabilities.counter_clk_period_fs) = P;
  rn_rem : 0 <= h.(remainder_fs) < P;
  rn_counter : uint 64 h.(main_counter);
  rn_timer : exists x, h.(timers) !! i = Some x /\ periodic_at q d x;
}.

(** Time that has passed since the counter was last brought up to date. *)
Definition behind (h : Hpet.t) : Z := wrapping_sub 64 h.(clock) h.(last_update_ns).
(** Femtoseconds the counter stands for. *)
Definition counted (P : Z) (h : Hpet.t) : Z := h.(main_counter) * P + h.(remainder_fs).

Lemma update_running P q i d h :
  0 < P < 2 ^ 32 -> running P q i d h -> counted P h + behind h * 1000000 < 2 ^ 64 * P ->
  let h' := update_main_counter h in
  running P q i d h' /\ behind h' = 0 /\ counted P h' = counted P h + behind h * 1000000 /\
  h'.(timers) = h.(timers) /\ h'.(general_config) = h.(general_config) /\ h.(main_counter) <= h'.(main_counter).
Proof.
  intros HP [He Hc Hp Hr Hm Ht] Hmax h'. unfold h', update_main_counter. rewrite He. cbn [negb].
  fold (behind h). cbn [with_last_update_ns caps remainder_fs with_remainder_fs main_counter]. rewrite Hp.
  rewrite (proj2 (Z.eqb_neq P 0)) by lia.
  assert (0 <= behind h < 2 ^ 64) as Hb by (apply Z.mod_pos_bound; lia).
  set (fs := behind h * 1000000 + h.(remainder_fs)). unfold counted in *. unfold uint in Hm, Hc.
  pose proof (Z.div_mod fs P ltac:(lia)) as Hdm. pose proof (Z.mod_pos_bound fs P ltac:(lia)) as Hmb.
  assert (0 <= fs / P) by (apply Z.div_pos; unfold fs; lia).
  assert (h.(main_counter) + fs / P < 2 ^ 64) as Hlt.
  { apply (Z.mul_lt_mono_pos_r P); [lia|]. unfold fs in *. nia. }
  assert (wrap 64 (fs / P) = fs / P) as Hw by (apply wrap_small; unfold uint; lia).
  assert (wrap 64 (fs mod P) = fs mod P) as Hw2 by (apply wrap_small; unfold uint; lia).
  rewrite Hw, Hw2.
  assert (wrapping_add 64 h.(main_counter) (fs / P) = h.(main_counter) + fs / P) as Hw3
    by (apply wrap_small; unfold uint; lia).
  split_and!; try done.
  - split; cbn [with_main_counter with_remainder_fs with_last_update_ns enabled clock caps remainder_fs main_counter timers];
      try done. rewrite Hw3. unfold uint. lia.
  - unfold behind. cbn [with_main_counter with_remainder_fs with_last_update_ns clock last_update_ns].
    unfold wrapping_sub. by rewrite Z.sub_diag.
  - cbn [with_main_counter with_remainder_fs with_last_update_ns remainder_fs main_counter]. rewrite Hw3.
    unfold fs in *. nia.
  - cbn [with_main_counter main_counter]. rewrite Hw3. lia.
Qed.

Lemma poll_running P q i d h :
  0 < P < 2 ^ 32 -> 0 < q -> uint 64 d -> running P q i d h ->
  counted P h + behind h * 1000000 < (2 ^ 64 - q) * P ->
  let h' := (poll h).1 in
  let d' := next_point d q h'.(main_counter) in
  running P q i d' h' /\ behind h' = 0 /\ counted P h' = counted P h + behind h * 1000000 /\ uint 64 d' /\
  h.(main_counter) <= h'.(main_counter).
Proof.
  intros HP Hq Hd Hr Hmax h' d'.
  destruct (update_running P q i d h HP Hr ltac:(nia)) as (Hr1 & Hb1 & Hc1 & Ht1 & _ & Hm1).
  unfold d', h', poll, service_timers in *. set (h1 := update_main_counter h) in *.
  pose proof Hr1 as [He1 Hcl1 Hp1 Hrem1 Hmc1 (x & Hx & Hpx)]. rewrite He1. cbn [negb]. unfold on_timers.
  destruct (for_timers_lookup (service_timer (legacy h1) h1.(main_counter)) h1.(timers) 0 h1.(general_int_status) i x Hx)
    as (status' & Hl).
  destruct (for_timers _ _ _ _) as [[st xs] calls]. cbn [fst snd] in Hl |- *.
  cbn [with_timers with_general_int_status main_counter].
  assert (h1.(main_counter) < 2 ^ 64 - q) as Hlt.
  { apply (Z.mul_lt_mono_pos_r P); [lia|]. unfold counted in *. nia. }
  unfold uint in *. pose proof (next_point_after d q h1.(main_counter) Hq) as [Ha Hle].
  assert (0 <= next_point d q h1.(main_counter) < 2 ^ 64) as Hnp.
  { unfold next_point in *. destruct (Z.ltb_spec h1.(main_counter) d); lia. }
  split_and!; try done.
  - split; cbn [with_timers with_general_int_status enabled clock caps remainder_fs main_counter timers]; try done.
    exists (service_timer (legacy h1) h1.(main_counter) (0 + i)%nat status' x).1.2. split; [done|].
    apply service_periodic; try done; apply Hnp.
  - apply Hnp.
  - apply Hnp.
Qed.

(** ** Histories *)
Definition trun (h : Hpet.t) (evs : list tevent) : Hpet.t := fold_left tick evs h.
Definition elapsed (evs : list tevent) : Z := sumZ duration evs.
Definition tevent_ok (ev : tevent) : Prop := 0 <= duration ev.

(** The timer after [T] nanoseconds of a history that began at [h0]. *)
Record kept_time (P q : Z) (i : nat) (d : Z) (h0 : Hpet.t) (T : Z) (h : Hpet.t) : Prop := {
  kt_running : exists D, running P q i D h /\ uint 64 D /\
    forall m, h.(main_counter) <= m -> next_point D q m = next_point d q m;
  kt_counted : counted P h + behind h * 1000000 = counted P h0 + (behind h0 + T) * 1000000;
  kt_behind : 0 <= behind h <= behind h0 + T;
}.

Lemma behind_advance ns h :
  0 <= ns -> 0 <= behind h -> behind h + ns < 2 ^ 64 -> behind (advance_ns ns h) = behind h + ns.
Proof.
  intros Hns Hb Hlt. unfold behind, advance_ns, wrapping_sub, wrapping_add, wrap in *. simpl clock. simpl last_update_ns.
  rewrite Zminus_mod_idemp_l.
  rewrite <- (Z.mod_small ((h.(clock) - h.(last_update_ns)) mod 2 ^ 64 + ns) (2 ^ 64)) by lia.
  rewrite Zplus_mod_idemp_l. f_equal. lia.
Qed.

Section History.
Context (P q : Z) (i : nat) (d : Z) (HP : 0 < P < 2 ^ 32) (Hq : 0 < q).

Lemma poll_keeps h0 T h :
  kept_time P q i d h0 T h -> counted P h0 + (behind h0 + T) * 1000000 < (2 ^ 64 - q) * P ->
  kept_time P q i d h0 T (poll h).1 /\ behind (poll h).1 = 0 /\
  exists x, (poll h).1.(timers) !! i = Some x /\ x.(deadline) = next_point d q (poll h).1.(main_counter).
Proof.
  intros [(D & Hr & HD & Hnp) Hc Hb] Hmax.
  destruct (poll_running P q i D h HP Hq HD Hr ltac:(lia)) as (Hr' & Hb' & Hc' & HD' & Hm').
  split; [|split; [done|]].
  - split; [|lia|lia]. eexists. split; [exact Hr'|]. split; [done|]. intros m Hm.
    rewrite next_point_compose by done. apply Hnp. lia.
  - destruct (rn_timer _ _ _ _ _ Hr') as (x & Hx & Hp). exists x. split; [done|].
    rewrite (pa_deadline _ _ _ Hp). apply Hnp. lia.
Qed.

Lemma sync_keeps h0 T h : kept_time P q i d h0 T h -> kept_time P q i d h0 T (sync_levels_to_sink h).1.
Proof.
  intros [(D & Hr & HD & Hnp) Hc Hb]. destruct Hr as [He Hcl Hp Hrem Hmc (x & Hx & Hpx)].
  unfold sync_levels_to_sink, on_timers.
  destruct (for_timers_lookup (sync_timer (legacy h) (enabled h)) h.(timers) 0 h.(general_int_status) i x Hx) as (st & Hl).
  destruct (for_timers _ _ _ _) as [[st' xs] calls]. cbn [fst snd] in Hl |- *. split; [|done|done].
  exists D. split; [|by split]. split; try done. eexists. split; [exact Hl|].
  destruct Hpx. unfold sync_timer. case_if; [by split|].
  match goal with |- context [follow_status ?g ?pd x] => destruct (follow_status g pd x) as [y c] eqn:E end.
  cbn [fst snd]. unfold follow_status in E. destruct (_ && _), (irq_asserted x); simplify_eq; by split.
Qed.

Lemma tick_keeps h0 T h ev :
  kept_time P q i d h0 T h -> tevent_ok ev -> behind h0 + (T + duration ev) < 2 ^ 64 ->
  counted P h0 + (behind h0 + (T + duration ev)) * 1000000 < (2 ^ 64 - q) * P ->
  kept_time P q i d h0 (T + duration ev) (tick h ev).
Proof.
  intros Hk Hev Hlt Hmax. unfold tevent_ok in Hev.
  destruct ev as [ns| |off n| ]; cbn [tick duration] in *; rewrite ?Z.add_0_r in *.
  - destruct Hk as [(D & Hr & HD & Hnp) Hc Hb]. pose proof (behind_advance ns h Hev ltac:(lia) ltac:(lia)) as Hba.
    change (counted P (advance_ns ns h)) with (counted P h) in *. split.
    + exists D. split; [|by split]. destruct Hr. split; try done. unfold advance_ns. simpl clock. apply uint_wrap. lia.
    + change (counted P (advance_ns ns h)) with (counted P h). lia.
    + lia.
  - by apply poll_keeps.
  - unfold mmio_read. destruct (access_ok off n); [|done]. pose proof (poll_keeps h0 T h Hk Hmax) as [Hp _].
    by destruct (poll h).
  - by apply sync_keeps.
Qed.

Lemma trun_keeps evs : forall h0 T h,
  kept_time P q i d h0 T h -> Forall tevent_ok evs -> behind h0 + (T + elapsed evs) < 2 ^ 64 ->
  counted P h0 + (behind h0 + (T + elapsed evs)) * 1000000 < (2 ^ 64 - q) * P ->
  kept_time P q i d h0 (T + elapsed evs) (trun h evs).
Proof.
  induction evs as [|ev evs IH]; intros h0 T h Hk Hok Hlt Hmax; unfold elapsed in *; simpl in *.
  { by rewrite Z.add_0_r. }
  apply Forall_cons in Hok as [Hev Hok].
  assert (0 <= sumZ duration evs).
  { clear -Hok. induction Hok as [|e es He _ IH]; simpl; [lia|]. unfold tevent_ok in He. lia. }
  rewrite Z.add_assoc in Hlt, Hmax |- *. apply (IH h0 (T + duration ev)); [|done|lia|lia].
  apply tick_keeps; try done; unfold tevent_ok in Hev; nia.
Qed.

(** C23: While the device runs, no slicing of time by polls, register reads and line
    synchronisations makes the counter drift: at the next poll it has counted
    exactly the periods of the time that passed, the fraction carried on, and the
    deadline of a periodic timer is the first point after it of the grid the
    first deadline and the period span, so a late poll loses no phase. *)
Theorem hpet_time h evs :
  running P q i d h -> uint 64 d -> Forall tevent_ok evs ->
  behind h + elapsed evs < 2 ^ 64 ->
  counted P h + (behind h + elapsed evs) * 1000000 < (2 ^ 64 - q) * P ->
  let h' := tick (trun h evs) Poll in
  let fs := counted P h + (behind h + elapsed evs) * 1000000 in
  h'.(main_counter) = fs / P /\ h'.(remainder_fs) = fs mod P /\
  exists x, h'.(timers) !! i = Some x /\ x.(deadline) = next_point d q h'.(main_counter) /\ x.(period) = q.
Proof.
  intros Hr Hd Hok Hlt Hmax h' fs.
  assert (kept_time P q i d h 0 h) as Hk0.
  { split; [|lia|]. { exists d. by split_and!. }
    rewrite Z.add_0_r. split; [|lia]. apply Z.mod_pos_bound. lia. }
  pose proof (trun_keeps evs h 0 h Hk0 Hok Hlt Hmax) as Hk. rewrite Z.add_0_l in Hk.
  destruct (poll_keeps h _ _ Hk Hmax) as ([(D & Hr' & _ & _) Hc' _] & Hb' & x & Hx & Hdl).
  change (tick (trun h evs) Poll) with (poll (trun h evs)).1 in *. fold h' in Hr', Hc', Hb', Hx, Hdl.
  rewrite Hb' in Hc'. pose proof (rn_rem _ _ _ _ _ Hr') as Hrem. unfold counted at 1 in Hc'.
  assert (fs = P * h'.(main_counter) + h'.(remainder_fs)) as Hfs by (unfold fs; lia).
  split; [by apply (Z.div_unique_pos _ _ _ _ Hrem)|]. split; [by apply (Z.mod_unique_pos _ _ _ _ Hrem Hfs)|].
  destruct (rn_timer _ _ _ _ _ Hr') as (y & Hy & Hp). rewrite Hx in Hy. injection Hy as <-.
  exists x. split; [done|]. split; [done|]. apply Hp.
Qed.
End History.

(** ** Witnesses and concrete runs *)

(** Timer 0 is programmed for level interrupts at count 5; 600 ns pass; another
    device asserts GSI 10. *)
Definition level_demo : list hevent :=
  [HWrite 0x10 8 1; HWrite 0x100 8 0x406; HWrite 0x108 8 5; HTime 600; HPoll; Other 10 true].


(** Timer 1 fires every 7 counts from count 12 on. *)
Definition periodic_demo : Hpet.t :=
  let write off v h := match mmio_write h off 8 v with Some (h, _) => h | None => h end in
  write 0x128 7 (write 0x120 0x4C (write 0xF0 5 (write 0x10 1 (Hpet.new_default 1000)))).

Lemma periodic_demo_running : running 100000000 7 1 12 periodic_demo.
Proof.
  split; try (by vm_compute). exists (default (HpetTimer.new 0 0 true) (periodic_demo.(timers) !! 1%nat)).
  split; [by vm_compute|]. split; by vm_compute.
Qed.

Lemma hpet_time_witness :
  let h' := tick (trun periodic_demo [Elapse 1030; Poll; Elapse 995; ReadReg 0xF0 4; Elapse 1]) Poll in
  h'.(main_counter) = 25 /\ h'.(remainder_fs) = 26000000 /\
  exists x, h'.(timers) !! 1%nat = Some x /\ x.(deadline) = 26 /\ x.(period) = 7.
Proof.
  destruct (hpet_time 100000000 7 1 12 ltac:(lia) ltac:(lia) periodic_demo
    [Elapse 1030; Poll; Elapse 995; ReadReg 0xF0 4; Elapse 1]) as (Hm & Hr & x & Hx & Hd & Hp);
    [apply periodic_demo_running|by split|by repeat constructor|by vm_compute|by vm_compute|].
  cbv zeta. split; [rewrite Hm; reflexivity|]. split; [rewrite Hr; reflexivity|]. exists x. split; [exact Hx|].
  split; [rewrite Hd, Hm; reflexivity|exact Hp].
Defined.

(** A 4-byte write of the period, with the comparator above 2^32, takes the high
    half of the comparator into the period. *)
Theorem hpet_split_period :
  let write off n v h := match mmio_write h off n v with Some (h, _) => h | None => h end in
  let h := write 0x108 8%nat 1000 (write 0x100 8%nat 0x4C
             (write 0xF0 8%nat 0x100000000 (write 0x10 8%nat 1 (Hpet.new_default 0)))) in
  let h' := write 0x108 4%nat 2000 (write 0x100 8%nat 0x4C h) in
  option_map period (h.(timers) !! 0%nat) = Some 1000 /\
  option_map period (h'.(timers) !! 0%nat) = Some (0x100000000 + 2000).
Proof. by vm_compute. Qed.

(** Programming a periodic timer in the two steps of the device's
    specification, the first deadline under SETVAL and then the interval:
    the first write is taken as the interval, the second as a deadline. *)
Theorem hpet_setval_swapped :
  let write off v h := match mmio_write h off 8%nat v with Some (h, _) => h | None => h end in
  let h := write 0x108 100 (write 0x108 1100 (write 0x100 0x4C
             (write 0xF0 1000 (write 0x10 1 (Hpet.new_default 0))))) in
  option_map (fun x => (x.(period), x.(deadline))) (h.(timers) !! 0%nat) = Some (1100, 1200).
Proof. by vm_compute. Qed.

(** A reset keeps the route the guest programmed, not the one at power-on. *)
Theorem hpet_reset_keeps_route :
  let h := match mmio_write (Hpet.new_default 0) 0x100 8 (20 <<< 9) with Some (h, _) => h | None => Hpet.new_default 0 end in
  map route (Hpet.new_default 0).(timers) = [2; 8; 10] /\ map route (Hpet.reset h).(timers) = [20; 8; 10].
Proof. by vm_compute. Qed.
