(* ===== verification/HpetValid.v ===== *)
(** * Well-formed event timers

    The register invariant of the event timer: what every operation keeps,
    and a snapshot relies on. *)

From S2P Require Import Prelude Bytes Collections PicFacts Hpet HpetFacts HpetProps.
Import HpetTimer Hpet.

(** ** Well-formed devices *)
Definition KEPT_BITS : Z := TIMER_WRITABLE_MASK &&& unot 64 TIMER_CFG_FSB_ENABLE.

Record timer_valid (x : timer) : Prop := {
  tv_config : x.(config) &&& KEPT_BITS = x.(config);
  tv_comparator : uint 64 x.(comparator);
  tv_comparator32 : comparator_of x x.(comparator) = x.(comparator);
  tv_deadline : uint 64 x.(deadline);
  tv_period : uint 64 x.(period);
  tv_oneshot : is_periodic x = false -> x.(period) = 0;
  tv_fsb : uint 64 x.(fsb_route);
  tv_armed : x.(armed) = true -> comparator_of x x.(deadline) = x.(comparator);
}.

Record hpet_valid (h : Hpet.t) : Prop := {
  hv_config : h.(general_config) &&& (GEN_CONF_ENABLE ||| GEN_CONF_LEGACY_ROUTE) = h.(general_config);
  hv_status : uint 64 h.(general_int_status);
  hv_counter : uint 64 h.(main_counter);
  hv_rem : uint 64 h.(remainder_fs);
  hv_timers : Forall timer_valid h.(timers);
  hv_count : (length h.(timers) <= 32)%nat;
}.

(** *** Values *)
Lemma comparator_of_ok x v : uint 64 v -> uint 64 (comparator_of x v) /\ comparator_of x (comparator_of x v) = comparator_of x v.
Proof.
  intros Hv. unfold comparator_of. destruct (is_32bit x); [|done]. split; [apply uint_land_l; try lia; done|].
  by rewrite <- Z.land_assoc, Z.land_diag.
Qed.

Lemma comparator_of_same x y v : y.(config) = x.(config) -> comparator_of y v = comparator_of x v.
Proof. intros Hc. unfold comparator_of, is_32bit. by rewrite Hc. Qed.

Lemma uint_u32_max : uint 64 U32_MAX.
Proof. by split. Qed.

Lemma deadline_ok x mc : uint 64 mc -> uint 64 x.(comparator) -> uint 64 (comparator_deadline x mc).
Proof.
  intros Hm Hc. unfold comparator_deadline. case_if; [done|]. case_if; [apply uint_wrap; lia|].
  apply uint_lor; [lia|apply uint_land_l; [lia|done|apply (uint_unot 64); lia]|apply uint_land_l; [lia|done|done]].
Qed.

Lemma merge_ok old v m : uint 64 old -> uint 64 v -> uint 64 m -> uint 64 (merge old v m).
Proof.
  intros Ho Hv Hm. unfold merge. apply uint_lor; [lia|apply uint_land_l; [lia|done|apply (uint_unot 64); lia]|].
  apply uint_land_l; [lia|done|apply Hm].
Qed.

Lemma lor_high_low a b n : 0 <= n -> 0 <= b < 2 ^ n -> a * 2 ^ n ||| b = a * 2 ^ n + b.
Proof.
  intros Hn Hb. rewrite <- Z.shiftl_mul_pow2 by done.
  assert (Z.shiftl a n &&& b = 0) as H0.
  { apply Z.bits_inj'. intros i Hi. rewrite Z.land_spec, Z.bits_0, Z.shiftl_spec by done.
    destruct (decide (i < n)) as [Hlt|Hge]; [by rewrite Z.testbit_neg_r by lia|].
    rewrite andb_comm. replace b with (b mod 2 ^ n) by (by apply Z.mod_small).
    by rewrite Z.mod_pow2_bits_high by lia. }
  by rewrite Z.add_nocarry_lxor, <- Z.lxor_lor by done.
Qed.

(** The deadline of a 32-bit comparator is the next time the low half of the
    counter has its value. *)
Lemma deadline32 x mc :
  uint 64 mc -> uint 64 x.(comparator) -> is_32bit x = true -> x.(comparator) &&& U32_MAX = x.(comparator) ->
  let d := mc - mc mod 2 ^ 32 + x.(comparator) in
  0 <= x.(comparator) < 2 ^ 32 /\
  comparator_deadline x mc = if d <? mc then wrap 64 (d + 2 ^ 32) else d.
Proof.
  intros Hm Hc H32 Hlow d. change U32_MAX with (Z.ones 32) in *. rewrite land_ones_mod in Hlow by lia.
  pose proof (Z.mod_pos_bound x.(comparator) (2 ^ 32)) as Hb. rewrite Hlow in Hb. specialize (Hb ltac:(lia)).
  split; [done|]. unfold comparator_deadline. rewrite H32. cbn [negb]. change U32_MAX with (Z.ones 32).
  rewrite land_unot, ldiff_ones, land_ones_mod, Hlow by (lia || done).
  assert ((mc - mc mod 2 ^ 32) ||| x.(comparator) = d) as ->; [|done].
  assert (mc - mc mod 2 ^ 32 = (mc / 2 ^ 32) * 2 ^ 32) as Hhi by (pose proof (Z.div_mod mc (2 ^ 32)); lia).
  unfold d. rewrite Hhi. by apply lor_high_low.
Qed.

Lemma deadline_low x mc :
  uint 64 mc -> uint 64 x.(comparator) -> comparator_of x x.(comparator) = x.(comparator) ->
  comparator_of x (comparator_deadline x mc) = x.(comparator).
Proof.
  intros Hm Hc. unfold comparator_of. destruct (is_32bit x) eqn:E.
  - intros Hlow. destruct (deadline32 x mc Hm Hc E Hlow) as [Hb ->].
    change U32_MAX with (Z.ones 32). rewrite land_ones_mod by lia. set (d := mc - mc mod 2 ^ 32 + _).
    assert (d mod 2 ^ 32 = x.(comparator)) as Hd.
    { unfold d. rewrite (Z.mod_eq mc) by lia. replace (mc - _ + _) with (x.(comparator) + mc / 2 ^ 32 * 2 ^ 32) by lia.
      rewrite Z.mod_add by lia. by apply Z.mod_small. }
    case_if; [|done]. unfold wrap. rewrite Z.mod_mod_divide by (by exists (2 ^ 32)).
    by rewrite Z.add_mod, Hd, Z.mod_same, Z.add_0_r, Z.mod_small by lia.
  - intros _. unfold comparator_deadline. by rewrite E.
Qed.

(** *** Operations *)
Lemma valid_irq b x : timer_valid x -> timer_valid (with_irq_asserted b x).
Proof. intros []. by split. Qed.

Lemma rearm_valid mc x : timer_valid x -> timer_valid (rearm mc x).
Proof.
  intros [Hc Hcmp Hcmp32 Hd Hp Ho Hf Har]. unfold rearm. case_if; [|by split].
  set (y := with_deadline _ x). assert (uint 64 y.(deadline)) as Hy by (apply uint_wrap; lia).
  destruct (comparator_of_ok y y.(deadline) Hy) as [H1 H2]. by split.
Qed.

Lemma follow_valid g p x : timer_valid x -> timer_valid (follow_status g p x).1.
Proof. intros Hx. unfold follow_status. destruct p, (irq_asserted x); try done; by apply valid_irq. Qed.

Lemma extend_valid mc x : uint 64 mc -> timer_valid x -> timer_valid (extend_deadline mc x).
Proof.
  intros Hm [Hc Hcmp Hcmp32 Hd Hp Ho Hf Har]. unfold extend_deadline.
  destruct (armed x) eqn:E; [|split; try done; congruence].
  split; try done; [by apply deadline_ok|]. intros _. by apply (deadline_low x).
Qed.

Definition step_valid (step : timer_step) : Prop := forall idx status x,
  (idx < 32)%nat -> uint 64 status -> timer_valid x ->
  uint 64 (step idx status x).1.1 /\ timer_valid (step idx status x).1.2.

Lemma for_timers_valid step xs : step_valid step -> forall idx status,
  (idx + length xs <= 32)%nat -> uint 64 status -> Forall timer_valid xs ->
  uint 64 (for_timers step idx status xs).1.1 /\ Forall timer_valid (for_timers step idx status xs).1.2.
Proof.
  intros Hs. induction xs as [|x xs IH]; intros idx status Hl Hst Hxs; [done|]. cbn [for_timers length] in *.
  apply Forall_cons in Hxs as [Hx Hxs]. pose proof (Hs idx status x ltac:(lia) Hst Hx) as [H1 H2].
  destruct (step idx status x) as [[s1 x1] c1]. cbn [fst snd] in *.
  destruct (IH (S idx) s1 ltac:(lia) H1 Hxs) as [H3 H4].
  destruct (for_timers step (S idx) s1 xs) as [[s2 xs2] c2]. cbn [fst snd] in *. split; [done|]. by constructor.
Qed.

Lemma on_timers_valid step h : step_short step -> step_valid step -> hpet_valid h -> hpet_valid (on_timers step h).1.
Proof.
  intros Hsh Hs [Hc Hst Hm Hr Ht Hn]. unfold on_timers.
  destruct (for_timers_valid step h.(timers) Hs 0 h.(general_int_status)) as [H1 H2]; [done..|].
  destruct (for_timers_short step h.(timers) Hsh 0 h.(general_int_status)) as [_ H3].
  destruct (for_timers _ _ _ _) as [[s xs] c]. cbn [fst snd] in *. split; try done. simpl. lia.
Qed.

Lemma status_bit_ok idx status : (idx < 32)%nat -> uint 64 status -> uint 64 (status ||| status_bit idx).
Proof.
  intros Hi Hs. apply uint_lor; [lia|done|]. unfold status_bit. rewrite Z.shiftl_1_l. split; [lia|].
  apply Z.pow_lt_mono_r; lia.
Qed.

Lemma service_valid l mc : step_valid (service_timer l mc).
Proof.
  intros idx status x Hi Hs Hx. unfold service_timer. set (g := apply_legacy_replacement_route _ _ _). set (pd := nz _).
  set (r := if is_level_triggered x && int_enabled x then _ else (x, [])).
  assert (timer_valid r.1) as Hr by (unfold r; case_if; [by apply follow_valid|done]).
  destruct r as [x1 c1]. cbn [fst] in Hr. repeat (case_if; [done|]).
  pose proof (status_bit_ok idx status Hi Hs) as Hb.
  repeat case_if; (split; [done|]); apply rearm_valid; try done; by apply valid_irq.
Qed.

Lemma service_step_short l mc : step_short (service_timer l mc).
Proof.
  intros idx status x. unfold service_timer. set (gsi := apply_legacy_replacement_route _ _ _). set (pd := nz _).
  pose proof (follow_short gsi pd x) as Hf.
  destruct (is_level_triggered x && int_enabled x); [destruct (follow_status gsi pd x) as [x1 c1]|];
    simpl in *; repeat case_if; simpl; rewrite ?length_app; simpl; lia.
Qed.

Lemma update_valid h : hpet_valid h -> hpet_valid (update_main_counter h).
Proof.
  intros [Hc Hst Hm Hr Ht Hn]. unfold update_main_counter. case_if; [done|]. case_if; [done|].
  split; try done; simpl; apply uint_wrap; lia.
Qed.

Lemma service_timers_valid h : hpet_valid h -> hpet_valid (service_timers h).1.
Proof.
  intros Hh. unfold service_timers. case_if; [done|].
  apply on_timers_valid; [apply service_step_short|apply service_valid|done].
Qed.

Lemma poll_valid h : hpet_valid h -> hpet_valid (poll h).1.
Proof. intros Hh. by apply service_timers_valid, update_valid. Qed.

Lemma general_config_valid h v m : hpet_valid h -> hpet_valid (write_general_config h v m).1.
Proof.
  intros [Hc Hst Hm Hr Ht Hn]. unfold write_general_config. set (new := merge _ _ _ &&& _).
  set (h1 := with_general_config new h). set (h2 := if negb _ && _ then _ else h1).
  assert (hpet_valid h2) as H2.
  { assert (new &&& (GEN_CONF_ENABLE ||| GEN_CONF_LEGACY_ROUTE) = new) as Hnew
      by (unfold new; by rewrite <- Z.land_assoc, Z.land_diag).
    unfold h2. case_if; split; try done; simpl.
    - apply Forall_map. eapply Forall_impl; [exact Ht|]. intros x. by apply extend_valid.
    - by rewrite length_map. }
  repeat case_if; [| |done]; (apply on_timers_valid; [| |done]).
  - intros idx status x. unfold release_timer. case_if; simpl; lia.
  - intros idx status x Hi Hs Hx. unfold release_timer. case_if; simpl; (split; [done|]); try done. by apply valid_irq.
  - intros idx status x. unfold move_timer. repeat case_if; simpl; lia.
  - intros idx status x Hi Hs Hx. unfold move_timer. by case_if.
Qed.

Lemma int_status_valid h v m : hpet_valid h -> hpet_valid (write_int_status h v m).1.
Proof.
  intros Hh. unfold write_int_status. apply on_timers_valid.
  - intros idx status x. unfold ack_timer. repeat case_if; simpl; lia.
  - intros idx status x Hi Hs Hx. unfold ack_timer. repeat case_if; simpl; (split; [done|]); try done. by apply valid_irq.
  - destruct Hh. split; try done. simpl. apply uint_land_l; [lia|done|apply (uint_unot 64); lia].
Qed.

(** Validity but for the period of a one-shot timer and the deadline of an
    armed one. *)
Record timer_fields (x : timer) : Prop := {
  tf_config : x.(config) &&& KEPT_BITS = x.(config);
  tf_comparator : uint 64 x.(comparator);
  tf_comparator32 : comparator_of x x.(comparator) = x.(comparator);
  tf_deadline : uint 64 x.(deadline);
  tf_period : uint 64 x.(period);
  tf_fsb : uint 64 x.(fsb_route);
}.

Lemma drop_period x :
  timer_fields x -> (x.(armed) = true -> comparator_of x x.(deadline) = x.(comparator)) ->
  timer_valid (if nz (x.(config) &&& TIMER_CFG_PERIODIC) then x else with_period 0 x).
Proof.
  intros [] Ha. destruct (nz _) eqn:E; [|by split]. split; try done. unfold is_periodic. by rewrite E.
Qed.

Lemma config_write_valid l mc v m idx x : uint 64 mc -> timer_valid x -> timer_valid (write_timer_config l mc v m idx x).1.
Proof.
  intros Hmc [Hc Hcmp Hcmp32 Hd Hp Ho Hf Har]. unfold write_timer_config. set (new := merge _ _ _ &&& _ &&& _).
  set (x1 := with_config _ x). set (x2 := if is_32bit x1 then _ else x1).
  assert (x1.(config) = new) as Hcfg.
  { simpl. assert (x.(config) &&& unot 64 TIMER_WRITABLE_MASK = 0) as ->; [|done].
    rewrite <- Hc, <- Z.land_assoc. replace (KEPT_BITS &&& _) with 0 by (by vm_compute). apply Z.land_0_r. }
  assert (new &&& KEPT_BITS = new) as Hnew.
  { unfold new. rewrite <- (Z.land_assoc (merge _ _ _)). fold KEPT_BITS. by rewrite <- Z.land_assoc, Z.land_diag. }
  assert (timer_fields x2) as H2.
  { unfold x2. destruct (is_32bit x1) eqn:E32.
    - pose proof uint_u32_max as [Hu _]. split; simpl; try done; try (apply uint_land_l; [lia|done|done]).
      + simpl in Hcfg. by rewrite Hcfg.
      + unfold comparator_of. case_if; [|done]. by rewrite <- Z.land_assoc, Z.land_diag.
    - split; simpl; try done; [by simpl in Hcfg; rewrite Hcfg|]. unfold comparator_of.
      change (is_32bit _) with (is_32bit x1). by rewrite E32. }
  set (x3 := extend_deadline mc x2).
  assert (timer_fields x3 /\ (x3.(armed) = true -> comparator_of x3 x3.(deadline) = x3.(comparator))) as [H3 Ha3].
  { unfold x3, extend_deadline. destruct H2. destruct (armed x2) eqn:E; [|split; [by split|congruence]].
    split; [|intros _; by apply (deadline_low x2)]. split; try done. by apply deadline_ok. }
  assert (forall b, timer_fields (with_irq_asserted b x3)) as H4 by (intros b; destruct H3; by split).
  repeat first [exact (drop_period _ H3 Ha3)|exact (drop_period _ (H4 false) Ha3)|case_if].
Qed.

Lemma comparator_write_valid mc v m x :
  uint 64 mc -> uint 64 v -> uint 64 m -> timer_valid x -> timer_valid (write_timer_comparator mc v m x).
Proof.
  intros Hmc Hv Hm [Hc Hcmp Hcmp32 Hd Hp Ho Hf Har]. unfold write_timer_comparator.
  set (em := if is_32bit x then _ else m). set (nv := merge _ v em).
  assert (uint 64 em) as Hem by (unfold em; case_if; [by apply uint_land_l|done]).
  assert (uint 64 nv) as Hnv by (by apply merge_ok).
  assert (comparator_of x nv = nv) as Hnv32.
  { unfold comparator_of, nv, em, merge in *. destruct (is_32bit x); [|done]. rewrite Z.land_lor_distr_l.
    rewrite <- !Z.land_assoc, Z.land_diag. f_equal. rewrite (Z.land_comm (unot 64 _)), Z.land_assoc. by rewrite Hcmp32. }
  assert (forall y, y.(config) = x.(config) -> y.(period) = x.(period) -> y.(fsb_route) = x.(fsb_route) ->
    y.(comparator) = nv -> timer_valid (with_armed true (with_deadline (comparator_deadline y mc) y))) as Hset.
  { intros y Hyc Hyp Hyf Hy. split; simpl; rewrite ?Hyc, ?Hyp, ?Hyf, ?Hy; try done.
    - rewrite <- Hnv32 at 2. apply comparator_of_same. done.
    - apply deadline_ok; [done|by rewrite Hy].
    - unfold is_periodic. simpl. by rewrite Hyc.
    - intros _. pose proof (deadline_low y mc Hmc) as Hl. rewrite Hy in Hl. apply Hl; [done|].
      by rewrite (comparator_of_same x y). }
  destruct (is_periodic x) eqn:Hper; [case_if|].
  - set (d := wrapping_add 64 mc _). assert (uint 64 d) as Hd' by (apply uint_wrap; lia).
    destruct (comparator_of_ok x d Hd') as [Hu Hu2].
    assert (forall k, 0 <= k < 2 ^ 64 -> TIMER_CFG_SETVAL &&& k = 0 ->
      (x.(config) &&& unot 64 TIMER_CFG_SETVAL) &&& k = x.(config) &&& k) as Hbits
      by (intros k Hk H0; by apply config_bits).
    split; try done; cbn [with_armed with_config with_comparator with_deadline with_period config comparator period].
    + rewrite <- Z.land_assoc, (Z.land_comm (unot 64 _)), Z.land_assoc. by rewrite Hc.
    + unfold comparator_of, is_32bit in Hu2 |- *. cbn [with_armed with_config with_comparator with_deadline with_period config].
      rewrite Hbits by done. exact Hu2.
    + unfold is_periodic. cbn [with_armed with_config with_comparator with_deadline with_period config].
      rewrite Hbits by done. intros Hn. unfold is_periodic in Hper. by rewrite Hper in Hn.
    + intros _. unfold comparator_of, is_32bit. cbn [with_armed with_config with_comparator with_deadline with_period
        config comparator deadline]. by rewrite !Hbits by done.
  - by apply (Hset (with_comparator nv x)).
  - specialize (Ho eq_refl). assert (with_period 0 x = x) as -> by (destruct x; simpl in *; by subst).
    by apply (Hset (with_comparator nv x)).
Qed.

Lemma write_valid h off v m : uint 64 v -> uint 64 m -> hpet_valid h -> hpet_valid (write_aligned_u64 h off v m).1.
Proof.
  intros Hv Hm Hh. unfold write_aligned_u64. case_if; [by apply general_config_valid|]. case_if; [by apply int_status_valid|].
  pose proof Hh as [Hc Hst Hmc Hr Ht Hn].
  case_if; [split; try done; simpl; by apply merge_ok|]. case_if; [|done].
  set (idx := Z.to_nat _). destruct (h.(timers) !! idx) as [x|] eqn:Hx; [|done].
  pose proof (Forall_lookup_1 _ _ _ _ Ht Hx) as Hxv.
  assert (timer_valid (write_timer_register (legacy h) h.(main_counter) idx
    ((off - REG_TIMER0_BASE) mod TIMER_STRIDE) v m x).1) as Hw.
  { unfold write_timer_register. case_if; [by apply config_write_valid|]. case_if; [by apply comparator_write_valid|].
    case_if; [|done]. destruct Hxv. split; try done. by apply merge_ok. }
  destruct (write_timer_register _ _ _ _ _ _ _) as [x' calls]. split; try done; simpl.
  - by apply Forall_insert.
  - by rewrite length_insert.
Qed.

Lemma sync_valid h : hpet_valid h -> hpet_valid (sync_levels_to_sink h).1.
Proof.
  apply on_timers_valid.
  - intros idx status x. unfold sync_timer. case_if; [simpl; case_if; simpl; lia|].
    pose proof (follow_short (apply_legacy_replacement_route (legacy h) idx (route x))
      (enabled h && nz (status &&& status_bit idx)) x). destruct (follow_status _ _ _). simpl in *. lia.
  - intros idx status x Hi Hs Hx. unfold sync_timer. case_if; [split; [done|]; by apply valid_irq|].
    pose proof (follow_valid (apply_legacy_replacement_route (legacy h) idx (route x))
      (enabled h && nz (status &&& status_bit idx)) x Hx). by destruct (follow_status _ _ _).
Qed.

Lemma clear_valid x : timer_valid x -> timer_valid (HpetTimer.clear x).
Proof.
  intros []. split; try done; simpl.
  - rewrite <- tv_config0. rewrite <- !Z.land_assoc. f_equal.
  - unfold comparator_of. by case_if.
Qed.

Lemma reset_valid h : hpet_valid h -> hpet_valid (Hpet.reset h).
Proof.
  intros [Hc Hst Hm Hr Ht Hn]. split; try done; simpl; [|by rewrite length_map].
  apply Forall_map. eapply Forall_impl; [exact Ht|]. intros x. apply clear_valid.
Qed.

Lemma hpet_new_valid clock caps : (caps.(HpetCapabilities.num_timers) <= 32)%nat -> hpet_valid (Hpet.new clock caps).
Proof.
  intros Hn. split; try done; simpl; [|by rewrite length_map, length_seq].
  apply Forall_map, Forall_forall. intros i _. split; try done; simpl; destruct i as [|[|i]]; by vm_compute.
Qed.

Lemma mmio_read_valid h off n v h' calls : hpet_valid h -> mmio_read h off n = Some (v, h', calls) -> hpet_valid h'.
Proof.
  intros Hh. unfold mmio_read. case_if; [|done]. pose proof (poll_valid h Hh). destruct (poll h) as [h1 c]. naive_solver.
Qed.

Lemma mmio_write_valid h off n v h' calls : hpet_valid h -> mmio_write h off n v = Some (h', calls) -> hpet_valid h'.
Proof.
  intros Hh. unfold mmio_write. case_if; [|done]. pose proof (poll_valid h Hh) as H1. destruct (poll h) as [h1 c1].
  match goal with |- context [write_aligned_u64 h1 ?a ?b ?c] =>
    pose proof (write_valid h1 a b c) as H2; destruct (write_aligned_u64 h1 a b c) as [h2 c2] end.
  pose proof (service_timers_valid h2) as H3. destruct (service_timers h2) as [h3 c3]. intros [= <- _].
  apply H3, H2; [apply uint_wrap; lia..|done].
Qed.
