(* ===== verification/HpetSnap.v ===== *)
(** * Snapshots of the event timer

    The event timer keeps the snapshot contract; a device saved after any
    history and restored elsewhere, once its lines are synchronised, has the
    registers and the pending deadlines it had and drives the lines it held. *)

From S2P Require Import Prelude Bytes Collections Snapshot SnapshotFacts PicFacts PicProps Router RouterFacts RouterProps.
From S2P Require Import RouterSnap RouterLines PitSnap Hpet HpetFacts HpetProps HpetTime HpetValid.
Import HpetTimer Hpet HpetSnapshot.

Section Codec.
Context `{Target}.

(** ** The timers *)
Definition timer_bytes (x : timer) : list Z :=
  to_le_bytes 8 x.(config) ++ to_le_bytes 8 x.(comparator) ++ to_le_bytes 8 x.(period)
  ++ to_le_bytes 8 x.(fsb_route) ++ [if x.(armed) then 1 else 0].

Lemma encode_timers xs e : fold_left encode_timer xs e = e ++ concat (map timer_bytes xs).
Proof.
  revert e. induction xs as [|x xs IH]; intros e; cbn [fold_left map concat]; [by rewrite app_nil_r|].
  rewrite IH. unfold encode_timer, timer_bytes, Encoder.bool, Encoder.u8, Encoder.u64. by rewrite <- !app_assoc.
Qed.

(** A saved timer read back. *)
Definition saved_into (mc : Z) (x : timer) : timer -> timer :=
  restore_timer mc x.(config) x.(comparator) x.(period) x.(fsb_route) x.(armed).

Local Tactic Notation "field" uconstr(lem) :=
  match goal with
  | Ha : ahead ?d _ |- _ =>
      let d' := fresh "d" in let Ht := fresh in let Ha' := fresh in
      let t := constr:(lem Ha) in destruct t as (d' & Ht & Ha'); clear Ha;
      rewrite (st_bind_ok _ _ _ _ _ Ht); clear Ht
  end.

Lemma masked_uint c m : uint 64 m -> c &&& m = c -> uint 64 c.
Proof.
  intros Hm Hc. assert (0 <= c &&& m) as H0 by (apply Z.land_nonneg; right; apply Hm). rewrite Hc in H0.
  rewrite <- Hc. by apply uint_land_r.
Qed.

Lemma config_uint x : timer_valid x -> uint 64 x.(config).
Proof. intros Hx. eapply (masked_uint _ KEPT_BITS); [by vm_compute|apply tv_config; done]. Qed.

Lemma decode_timers_ahead mc xs pre old d rest :
  Forall timer_valid xs -> length old = length xs -> ahead d (concat (map timer_bytes xs) ++ rest) ->
  exists d', decode_timers (length xs) (length pre) mc (pre ++ old) d = (Ok (pre ++ zip_with (saved_into mc) xs old), d')
    /\ ahead d' rest.
Proof.
  revert pre old d. induction xs as [|x xs IH]; intros pre old d Hxs Hl Ha.
  { destruct old; [|done]. by exists d. }
  destruct old as [|o old]; [done|]. apply Forall_cons in Hxs as [Hx Hxs]. pose proof (config_uint x Hx) as Hc.
  destruct Hx as [_ Hcmp _ _ Hp _ Hf _]. cbn [map concat] in Ha. unfold timer_bytes at 1 in Ha.
  rewrite <- !app_assoc in Ha. cbn [decode_timers length].
  field (u64_ahead _ _ _ Hc). field (u64_ahead _ _ _ Hcmp). field (u64_ahead _ _ _ Hp). field (u64_ahead _ _ _ Hf).
  field (bool_ahead _ (armed x) _). fold (saved_into mc x).
  replace (alter (saved_into mc x) (length pre) (pre ++ o :: old)) with ((pre ++ [saved_into mc x o]) ++ old)
    by (rewrite alter_app_r_alt, Nat.sub_diag, <- app_assoc by lia; done).
  match goal with A : ahead ?d1 _ |- _ =>
    destruct (IH (pre ++ [saved_into mc x o]) old d1 Hxs ltac:(simpl in Hl; lia) A) as (d' & T & A') end.
  rewrite length_app, Nat.add_comm, <- (app_assoc pre _ (zip_with _ _ _)) in T. exists d'. exact (conj T A').
Qed.

Definition timers_bytes (xs : list timer) : list Z :=
  to_le_bytes 4 (wrap 32 (Z.of_nat (length xs))) ++ concat (map timer_bytes xs).

Lemma timers_bytes_length xs : length (timers_bytes xs) = (4 + 33 * length xs)%nat.
Proof.
  unfold timers_bytes. rewrite length_app, to_le_bytes_length. f_equal.
  induction xs as [|x xs IH]; [done|]. cbn [map concat length]. rewrite length_app, IH.
  unfold timer_bytes. rewrite !length_app, !to_le_bytes_length. simpl. lia.
Qed.

Lemma load_timers_saved r mc xs old :
  SnapshotReader.bytes r TAG_TIMERS = Some (timers_bytes xs) ->
  Forall timer_valid xs -> length old = length xs -> (length xs <= 32)%nat ->
  load_timers r mc old = Ok (zip_with (saved_into mc) xs old).
Proof.
  intros Hr Hxs Hl Hn. unfold load_timers. rewrite Hr. pose proof usize_max_ge.
  pose proof (timers_bytes_length xs) as Hlen. set (d0 := Decoder.new _).
  assert (ahead d0 (timers_bytes xs)) as Ha by (apply ahead_new; lia).
  clearbody d0. unfold timers_bytes in Ha. rewrite wrap_small in Ha by (unfold uint; lia).
  rewrite <- (app_nil_r (concat _)) in Ha.
  assert (uint 32 (Z.of_nat (length xs))) as Hu by (unfold uint; lia).
  field (u32_ahead _ _ _ Hu). rewrite (proj2 (Z.ltb_ge _ _)), Nat2Z.id by lia.
  match goal with A : ahead ?d1 _ |- _ =>
    destruct (decode_timers_ahead mc xs [] old d1 [] Hxs Hl A) as (d2 & T2 & A2) end.
  cbn [app length] in T2. rewrite (st_bind_ok _ _ _ _ _ T2). unfold st_bind. by rewrite (finish_ahead d2 [] A2).
Qed.

(** ** The device *)
Definition restored_timer (mc : Z) (x y : timer) : timer :=
  HpetTimer.mk y.(cap_bits) x.(config) x.(comparator) (comparator_deadline x mc) x.(period) x.(fsb_route) x.(armed) false.

Lemma restored_timer_eq mc x y : timer_valid x -> saved_into mc x (HpetTimer.clear y) = restored_timer mc x y.
Proof.
  intros [Hc Hcmp H32 Hd Hp Ho Hf Ha]. unfold saved_into, restore_timer, restored_timer.
  cbn [with_config with_comparator with_deadline with_period with_fsb_route with_armed with_irq_asserted HpetTimer.clear
    cap_bits config comparator deadline period fsb_route armed irq_asserted].
  rewrite <- Z.land_assoc. fold KEPT_BITS. rewrite Hc. rewrite (comparator_of_same x) by done. rewrite H32.
  unfold is_periodic in *. cbn [config].
  f_equal. destruct (nz _) eqn:E; [done|]. by rewrite Ho.
Qed.

Lemma restored_timers mc xs ys :
  Forall timer_valid xs -> zip_with (saved_into mc) xs (map HpetTimer.clear ys) = zip_with (restored_timer mc) xs ys.
Proof.
  intros Hxs. revert ys. induction Hxs as [|x xs Hx _ IH]; intros [|y ys]; cbn [map zip_with]; try done.
  by rewrite IH, restored_timer_eq.
Qed.

Definition onto (h r : Hpet.t) : Hpet.t :=
  Hpet.mk r.(clock) r.(caps) h.(general_config) h.(general_int_status) h.(main_counter) r.(clock) h.(remainder_fs)
    (zip_with (restored_timer h.(main_counter)) h.(timers) r.(timers)).

(** Devices of [n] timers. *)
Definition hpet_ok (n : nat) (h : Hpet.t) : Prop := hpet_valid h /\ length h.(timers) = n.

Definition hpet_puts (h : Hpet.t) : list (Z * list Z) :=
  [(TAG_GENERAL_CONFIG, to_le_bytes 8 h.(general_config)); (TAG_GENERAL_INT_STATUS, to_le_bytes 8 h.(general_int_status));
   (TAG_MAIN_COUNTER, to_le_bytes 8 h.(main_counter)); (TAG_REMAINDER_FS, to_le_bytes 8 h.(remainder_fs));
   (TAG_TIMERS, timers_bytes h.(timers))].

Lemma hpet_save_eq h :
  save_state h = SnapshotWriter.finish (put_all (SnapshotWriter.new DEVICE_ID DEVICE_VERSION) (hpet_puts h)).
Proof. unfold save_state, Encoder.finish. rewrite encode_timers. done. Qed.

Lemma hpet_save_parse h :
  hpet_valid h ->
  exists r, SnapshotReader.parse (save_state h) DEVICE_ID = Ok r /\
    r.(SnapshotReader.header) = SnapshotHeader.mk FORMAT_VERSION DEVICE_ID DEVICE_VERSION /\
    forall tag, SnapshotReader.bytes r tag = last_put (hpet_puts h) tag.
Proof.
  intros Hh. rewrite hpet_save_eq. pose proof (timers_bytes_length h.(timers)) as Hl.
  pose proof (hv_count _ Hh) as Hn. pose proof usize_max_ge. apply put_all_parse; try done.
  - unfold hpet_puts. rewrite !Forall_cons. unfold field_ok, uint. cbn [fst snd]. rewrite !to_le_bytes_length.
    split_and!; try lia; by apply Forall_nil.
  - pose proof (put_all_size (SnapshotWriter.new DEVICE_ID DEVICE_VERSION) (hpet_puts h)) as Hs.
    change (length (SnapshotWriter.finish (SnapshotWriter.new DEVICE_ID DEVICE_VERSION))) with 16%nat in Hs.
    unfold hpet_puts in Hs at 2. cbn [sumZ snd] in Hs. rewrite !to_le_bytes_length in Hs. lia.
Qed.

Lemma hpet_save_load h r :
  hpet_valid h -> length r.(timers) = length h.(timers) -> load_state (save_state h) r = (Ok tt, onto h r).
Proof.
  intros Hh Hl. destruct (hpet_save_parse h Hh) as (rd & Hr & Hhd & Hb). destruct Hh as [Hc Hst Hm Hrm Ht Hn].
  assert (uint 64 h.(general_config)) as Hcu by (eapply masked_uint; [|exact Hc]; by vm_compute).
  unfold load_state. rewrite Hr. cbn -[SnapshotReader.ensure_device_major SnapshotReader.u64 load_timers].
  unfold SnapshotReader.ensure_device_major. rewrite Hhd. cbn -[SnapshotReader.u64 load_timers].
  rewrite (saved_u64 rd TAG_GENERAL_CONFIG h.(general_config)) by (done || by rewrite Hb).
  rewrite (saved_u64 rd TAG_GENERAL_INT_STATUS h.(general_int_status)) by (done || by rewrite Hb).
  rewrite (saved_u64 rd TAG_MAIN_COUNTER h.(main_counter)) by (done || by rewrite Hb).
  rewrite (saved_u64 rd TAG_REMAINDER_FS h.(remainder_fs)) by (done || by rewrite Hb).
  cbn -[load_timers]. rewrite (load_timers_saved rd h.(main_counter) h.(timers)).
  2:{ by rewrite Hb. } 2:{ done. } 2:{ by rewrite length_map. } 2:{ done. }
  unfold onto. simpl. rewrite Hc. by rewrite restored_timers.
Qed.

(** *** Arbitrary bytes *)
Lemma restore_valid mc c cmp p f a x :
  uint 64 mc -> uint 64 cmp -> uint 64 p -> uint 64 f -> timer_valid (restore_timer mc c cmp p f a x).
Proof.
  intros Hm Hc Hp Hf. unfold restore_timer. rewrite <- Z.land_assoc. fold KEPT_BITS.
  set (x1 := with_config _ x). destruct (comparator_of_ok x1 cmp Hc) as [H1 H2].
  set (x2 := with_comparator _ x1).
  pose proof (deadline_ok x2 mc Hm H1) as H3. pose proof (deadline_low x2 mc Hm H1 H2) as H4.
  set (x3 := with_deadline _ x2). split; try done; simpl.
  - by rewrite <- Z.land_assoc, Z.land_diag.
  - by case_if.
  - intros Hnp. change (is_periodic x3) with (is_periodic (with_irq_asserted false (with_armed a (with_fsb_route f
      (with_period (if is_periodic x3 then p else 0) x3))))). by rewrite Hnp.
Qed.

Definition timers_ok (n : nat) (xs : list timer) : Prop := Forall timer_valid xs /\ length xs = n.

Lemma decode_timers_yields mc n k : uint 64 mc -> forall idx xs,
  timers_ok n xs -> yields dec_ok (timers_ok n) (decode_timers k idx mc xs).
Proof.
  intros Hm. induction k as [|k IH]; intros idx xs Hxs; cbn [decode_timers]; [by apply yields_ret|].
  do 4 (eapply yields_bind; [apply u64_yields|intros ? ?]). eapply yields_bind; [apply bool_yields|]. intros b _.
  apply IH. destruct Hxs as [Hxs Hn]. split; [|by rewrite length_alter].
  apply Forall_alter; [done|]. intros x _ _. by apply restore_valid.
Qed.

Lemma load_timers_ok r mc n xs ys :
  (forall data, SnapshotReader.bytes r TAG_TIMERS = Some data -> Forall byte_ok data) ->
  uint 64 mc -> timers_ok n xs -> load_timers r mc xs = Ok ys -> timers_ok n ys.
Proof.
  intros Hb Hm Hxs. unfold load_timers. destruct (SnapshotReader.bytes r TAG_TIMERS) as [buf|]; [|by intros [= <-]].
  specialize (Hb buf eq_refl).
  assert (yields dec_ok (timers_ok n) (let! count := Decoder.u32 in
    if MAX_SNAPSHOT_TIMERS <? count then st_err (InvalidFieldEncoding "timers")
    else let! timers := decode_timers (Z.to_nat count) 0 mc xs in
         let! _ := (fun d => (Decoder.finish d, d)) in st_ret timers)) as Hy.
  { eapply yields_bind; [apply u32_yields|]. intros c _. case_if; [by intros d Hd|].
    eapply yields_bind; [by apply (decode_timers_yields mc n)|]. intros zs Hzs.
    apply (yields_bind _ (fun _ => True)); [by intros d Hd|]. intros _ _. by apply yields_ret. }
  intros Hl. eapply Hy; [|exact Hl]. split; [done|]. simpl. lia.
Qed.

Lemma hpet_load_ok n bs h : Forall byte_ok bs -> hpet_ok n h -> hpet_ok n (load_state bs h).2.
Proof.
  intros Hbs Hh. unfold load_state. destruct (SnapshotReader.parse bs _) as [r|e] eqn:Hr; [|done].
  destruct (parse_ok _ _ _ Hbs Hr) as (_ & _ & _ & Hf). cbn -[SnapshotReader.u64 load_timers SnapshotReader.ensure_device_major].
  destruct (SnapshotReader.ensure_device_major _ _); [|done]. cbn -[SnapshotReader.u64 load_timers].
  assert (forall tag v, SnapshotReader.u64 r tag = Ok v -> uint 64 (default 0 v)) as Hu.
  { intros tag [v|] Hv; [|done]. by eapply (sized_uint 8); [apply Hf|exact Hv]. }
  destruct (SnapshotReader.u64 r 1) as [gc|] eqn:E1; [|done]. cbn -[SnapshotReader.u64 load_timers].
  destruct (SnapshotReader.u64 r 2) as [gs|] eqn:E2; [|done]. cbn -[SnapshotReader.u64 load_timers].
  destruct (SnapshotReader.u64 r 3) as [mc|] eqn:E3; [|done]. cbn -[SnapshotReader.u64 load_timers].
  destruct (SnapshotReader.u64 r 4) as [rf|] eqn:E4; [|done]. cbn -[SnapshotReader.u64 load_timers].
  destruct (load_timers _ _ _) as [ts|] eqn:E5; [|done]. apply Hu in E1, E2, E3, E4. destruct Hh as [Hh Hn].
  destruct (load_timers_ok r (default 0 mc) n (map HpetTimer.clear h.(timers)) ts (Hf _) E3) as [Hts Hl]; [|done|].
  { split; [|by rewrite length_map]. apply Forall_map. eapply Forall_impl; [apply (hv_timers _ Hh)|].
    intros x. apply clear_valid. }
  split; [|done]. split; try done; simpl; [by rewrite <- Z.land_assoc, Z.land_diag|].
  rewrite Hl, <- Hn. apply Hh.
Qed.

(** The event timer keeps the snapshot contract: a saved device is restored on
    any receiver with as many timers, whose clock and capabilities stay, with the
    interrupt lines released and the deadlines computed from the comparators;
    loading arbitrary bytes, even when it fails, leaves a well-formed device. *)
Theorem hpet_snapshot n : @IoSnapshotSpec Hpet.t io_snapshot (hpet_ok n) onto.
Proof.
  split; [|apply hpet_load_ok]. intros h r [Hh Hn] [_ Hr]. apply hpet_save_load; [done|congruence].
Qed.
End Codec.

(** ** Resuming a saved device *)
(** Restored on [r], its lines driven into a router just created. *)
Definition resume `{Target} (n : nat) (h r : Hpet.t) : option (Hpet.t * P.t) :=
  match load_state (save_state h) r with
  | (Ok _, h') => deliver (P.new_with_cpu_count n) (sync_levels_to_sink h')
  | (Err _, _) => None
  end.

(** An armed deadline is ahead of the counter, by less than the range of a
    32-bit comparator. *)
Definition deadline_ahead (mc : Z) (x : timer) : Prop :=
  x.(armed) = true /\ (is_32bit x = true -> mc <= x.(deadline) < mc + 2 ^ 32).

Record resumed (mc : Z) (x y : timer) : Prop := {
  re_config : y.(config) = x.(config);
  re_comparator : y.(comparator) = x.(comparator);
  re_period : y.(period) = x.(period);
  re_fsb : y.(fsb_route) = x.(fsb_route);
  re_armed : y.(armed) = x.(armed);
  re_irq : y.(irq_asserted) = x.(irq_asserted);
  re_deadline : deadline_ahead mc x -> y.(deadline) = x.(deadline);
}.

Lemma deadline_kept mc x : uint 64 mc -> timer_valid x -> deadline_ahead mc x -> comparator_deadline x mc = x.(deadline).
Proof.
  intros Hm [_ Hc H32 Hd _ _ _ Ha] [Harm Hr]. specialize (Ha Harm). destruct (is_32bit x) eqn:E.
  - specialize (Hr eq_refl). unfold comparator_of in *. rewrite E in *.
    destruct (deadline32 x mc Hm Hc E H32) as [Hb ->]. change U32_MAX with (Z.ones 32) in Ha.
    rewrite land_ones_mod in Ha by lia. pose proof (Z.div_mod x.(deadline) (2 ^ 32)) as Hq.
    pose proof (Z.div_mod mc (2 ^ 32)) as Hqm. pose proof (Z.mod_pos_bound mc (2 ^ 32)).
    unfold uint in Hd. case_if; bool_hyps; [rewrite wrap_small by (unfold uint; lia)|]; lia.
  - unfold comparator_of in Ha. unfold comparator_deadline. rewrite E in *. done.
Qed.

Lemma foldo_keeps {A B} (I : B -> Prop) (f : B -> A -> option B) l b b' :
  (forall b x b', I b -> f b x = Some b' -> I b') -> I b -> foldo f l b = Some b' -> I b'.
Proof.
  intros Hf. unfold foldo. revert b. induction l as [|x l IH]; intros b Hb; cbn [foldl]; [by intros [= <-]|].
  destruct (f b x) as [b1|] eqn:E; [apply IH; by eapply Hf|]. intros Hn. exfalso. clear -Hn. by induction l.
Qed.

Lemma deliver_device p r h' p' : deliver p r = Some (h', p') -> h' = r.1.
Proof. unfold deliver. destruct (drive _ _); simpl; congruence. Qed.

Lemma hstep_valid s ev s' : hpet_valid s.1 -> hstep s ev = Some s' -> hpet_valid s'.1.
Proof.
  destruct s as [h p], s' as [h' p']. cbn [fst]. intros Hh Hs.
  destruct ev as [ns| |off k|off k v| |g b|c| ]; cbn [hstep] in Hs.
  - injection Hs as <- <-. by destruct Hh.
  - apply deliver_device in Hs as ->. by apply poll_valid.
  - destruct (mmio_read h off k) as [[[v h1] c]|] eqn:E; [|done]. apply deliver_device in Hs as ->.
    by eapply mmio_read_valid.
  - destruct (mmio_write h off k v) as [[h1 c]|] eqn:E; [|done]. apply deliver_device in Hs as ->.
    by eapply mmio_write_valid.
  - apply deliver_device in Hs as ->. by apply sync_valid.
  - destruct b; [destruct (P.raise_irq _ _)|destruct (P.lower_irq _ _)]; simpl in Hs; congruence.
  - destruct (exec_call _ _); simpl in Hs; congruence.
  - injection Hs as <- <-. by apply reset_valid.
Qed.

Section Resume.
Context `{Target} (h r : Hpet.t).
Hypothesis Hh : hpet_valid h.
Hypothesis Hset : settled h.
Hypothesis Hr : length r.(timers) = length h.(timers).

Lemma onto_released g : holds (onto h r) g = 0.
Proof.
  unfold holds. generalize (legacy (onto h r)). intros l. cbn [onto timers]. generalize 0%nat. generalize r.(timers).
  generalize h.(main_counter). intros mc. clear. induction h.(timers) as [|x xs IH]; intros [|y ys] idx; cbn [zip_with pulls]; try done.
  by rewrite IH.
Qed.

Lemma sync_resumed :
  Forall2 (resumed h.(main_counter)) h.(timers) (sync_levels_to_sink (onto h r)).1.(timers).
Proof.
  rewrite sync_eq. cbn [timers with_timers onto]. apply Forall2_same_length_lookup. split.
  { rewrite length_imap, length_zip_with. lia. }
  intros i x y Hx Hy. apply list_lookup_imap_Some in Hy as (z & Hz & ->).
  apply lookup_zip_with_Some in Hz as (x' & y & -> & Hx' & _). simplify_eq. split; try done.
  - symmetry. apply (Hset i x Hx).
  - intros Hd. apply deadline_kept; [apply Hh|by eapply Forall_lookup_1, Hx; apply Hh|done].
Qed.

Lemma sync_holds g : holds (sync_levels_to_sink (onto h r)).1 g = holds h g.
Proof.
  unfold holds. apply pulls_ext.
  - eapply Forall2_impl; [apply sync_resumed|]. intros x y [Hc _ _ _ _ Hi _]. split; [done|]. unfold route. by rewrite Hc.
  - rewrite sync_eq. done.
Qed.

Lemma resume_ok n : (n <= 255)%nat ->
  exists h' p', resume n h r = Some (h', p') /\ h' = (sync_levels_to_sink (onto h r)).1 /\
    lines_inv 0 (fun _ => 0) h' p'.
Proof.
  intros Hn. unfold resume. rewrite hpet_save_load by done.
  destruct (sync_op (onto h r)) as [Hheld Hnet]. destruct (sync_short (onto h r)) as [Hsh Hlt].
  destruct (sync_settles (onto h r)) as [Hst _]. unfold deliver.
  destruct (sync_levels_to_sink (onto h r)) as [h1 calls]. cbn [fst snd] in *.
  assert (length (onto h r).(timers) <= 32)%nat as Hlen.
  { unfold onto. cbn [timers]. rewrite length_zip_with. pose proof (hv_count _ Hh). lia. }
  destruct (lines_init n default_caps 0 Hn) as [Hp Hb _ _ _ Hc]; [simpl; lia|].
  assert (forall g, holds (Hpet.new 0 default_caps) g = 0) as Hnew by (intros g; unfold holds; simpl; done).
  destruct (drive_counts calls (P.new_with_cpu_count n) (fun _ => 0) (holds (onto h r)) Hp Hheld)
    as (p' & Hd & Hp' & _ & Hb' & Hc'); [done| | |].
  { intros g. rewrite onto_released. lia. }
  { intros g c Hg Hgc. rewrite (Hc g c Hg Hgc), Hnew, onto_released. done. }
  exists h1, p'. rewrite Hd. split; [done|]. split; [done|]. split; try done; [by rewrite Hb'|lia|].
  intros g c Hg Hgc. rewrite (Hc' g c Hg Hgc), Hnet. lia.
Qed.
End Resume.

(** C20: a device saved after any history and resumed on a receiver with as
    many timers, whatever that held, with a new interrupt router: loading succeeds; counter, fraction of a
    tick, configuration and status are those saved; every timer has its configuration, comparator, period
    and armed state, and the deadline it had if that is ahead of the counter;
    and a line of the new router is high exactly if a timer of the saved device
    had a pending level interrupt routed to it. *)
Theorem hpet_resumes `{Target} n caps now evs :
  (n <= 255)%nat -> (caps.(HpetCapabilities.num_timers) <= 32)%nat ->
  Z.of_nat (length evs) < 2 ^ 31 -> hevents_ok (fun _ => 0) evs ->
  exists h p, foldo hstep evs (Hpet.new now caps, P.new_with_cpu_count n) = Some (h, p) /\
    forall r, length r.(timers) = length h.(timers) ->
    exists h' p', resume n h r = Some (h', p') /\
      (h'.(clock), h'.(Hpet.caps), h'.(last_update_ns)) = (r.(clock), r.(Hpet.caps), r.(clock)) /\
      (h'.(general_config), h'.(general_int_status), h'.(main_counter), h'.(remainder_fs)) =
        (h.(general_config), h.(general_int_status), h.(main_counter), h.(remainder_fs)) /\
      Forall2 (resumed h.(main_counter)) h.(timers) h'.(timers) /\
      forall g, 0 <= g < Z.of_nat (length p'.(P.gsi_level)) ->
        P.read_gsi_level p' g = true <->
        exists i x, h.(timers) !! i = Some x /\ enabled h = true /\ is_level_triggered x = true /\
          int_enabled x = true /\ Z.testbit h.(general_int_status) (Z.of_nat i) = true /\
          apply_legacy_replacement_route (legacy h) i (route x) = g.
Proof.
  intros Hn Hc Hlen Hok.
  destruct (hrun_inv evs 0 (fun _ => 0) _ _ (lines_init n caps now Hn Hc)) as (h & p & Hr & Hi); [lia|done|].
  pose proof (foldo_keeps (fun s => hpet_valid s.1) hstep evs (Hpet.new now caps, _) _ hstep_valid (hpet_new_valid now caps Hc) Hr) as Hh.
  cbn [fst] in Hh. pose proof (li_settled _ _ _ _ Hi) as Hset. exists h, p. split; [done|]. intros r Hl.
  destruct (resume_ok h r Hh Hl n Hn) as (h' & p' & Hres & -> & Hi').
  eexists _, p'. split; [exact Hres|]. split; [by rewrite sync_eq|]. split; [by rewrite sync_eq|].
  split; [by apply sync_resumed|]. intros g Hg.
  rewrite (inv_level _ _ _ p' g Hi' Hg), Z.ltb_lt, Z.add_0_l, sync_holds, <- (holds_pos h g Hset) by done. done.
Qed.

#[local] Existing Instance wasm32.

(** The device with a pending level interrupt on GSI 2, resumed on a receiver
    whose clock is at 5555. *)
Lemma hpet_resumes_witness :
  exists h p h' p', foldo hstep level_demo (Hpet.new_default 0, P.new_with_cpu_count 1) = Some (h, p) /\
    resume 1 h (Hpet.new_default 5555) = Some (h', p') /\ h'.(main_counter) = 6 /\ h'.(last_update_ns) = 5555 /\
    P.read_gsi_level p' 2 = true /\ P.read_gsi_level p' 10 = false.
Proof.
  destruct (hpet_resumes 1 default_caps 0 level_demo) as (h & p & Hr & Hl);
    [lia|simpl; lia|simpl; lia|by repeat split|].
  destruct (Hl (Hpet.new_default 5555)) as (h' & p' & Hres & Hw & Hg & _ & Hlev);
    [vm_compute in Hr; by injection Hr as <- <-|].
  exists h, p, h', p'. split; [exact Hr|]. split; [exact Hres|].
  assert (h.(main_counter) = 6) as Hm by (vm_compute in Hr; by injection Hr as <- <-).
  split; [congruence|]. split; [injection Hw as _ _ ->; reflexivity|].
  vm_compute in Hr. injection Hr as <- <-. vm_compute in Hres. injection Hres as <- <-.
  split; [|by vm_compute]. apply Hlev; [by vm_compute|]. eexists 0%nat, _. split; [reflexivity|]. by vm_compute.
Defined.
